(* ===== verification/_CoqProject ===== *)
-Q . S2P
Prelude.v
Bitpacking.v
Codec.v
Codecs.v
Alp.v
PageState.v
RowVersion.v
Persist.v
Wal.v
WalRecovery.v
WalIter.v
TxnManager.v
BufferPool.v
BufferInv.v
BufferVersions.v
FileHandle.v
PageFile.v
Overflow.v
HashIndex.v
HashIndexSpec.v
Stats.v
Column.v
ColumnSpec.v
ColumnBatch.v
ColumnNested.v
ColumnScan.v
ColumnScanSpec.v
Analyzer.v
ColumnEncode.v
ColumnEncodeSpec.v
Catalog.v
CatalogSpec.v
Ddl.v
DdlSpec.v
Csr.v
Trigram.v
TrigramPlan.v
Operators.v
OperatorsSpec.v
Joins.v
JoinsSpec.v
LogicalPlan.v
Optimizer.v
OptimizerSpec.v
Evaluator.v
EvaluatorSpec.v
Aggregate.v
AggregateSpec.v
Sorting.v
SortingSpec.v
Traversal.v
TraversalSpec.v
TableStore.v
TableStoreSpec.v
Dml.v
DmlSpec.v
