(* ===== verification/Prelude.v ===== *)
(** * LightningDB: verification of storage, transactions and query execution

    LightningDB is an embedded graph database.  A query is parsed, bound,
    optimised and executed by vectorised operators over columnar tables; the
    tables live in pages of a buffer pool; transactions run under snapshot
    isolation with row versions, and a write-ahead log makes commits durable.
    All paths below are relative to crates/lightning-core/src.

    ** Files and what they model

    - [Prelude]: the error type of lib.rs as [outcome] (a value, a
      [LightningError] or a panic) with its bind, bounded loops, machine words
      and their wrap-around, little-endian encodings, slices that panic out of
      range, and the tactics and hints the other files share.
    - [Bitpacking]: storage/compression/bitpacking.rs.  [write_bits] and
      [read_bits] with both paths, the 32-value blocks [pack_32]/[unpack_32].
    - [Codec], [Codecs]: processor/mod.rs ([Value]), storage/compression/mod.rs,
      integer_bitpacking.rs, delta.rs, rle.rs, dict.rs.  The trait
      [CompressionAlg] is a class, and [LosslessCodec] the class that says what
      a client may rely on; the codecs are instances.
    - [PageState]: storage/page_state.rs.  The packed atomic word of a buffer
      frame, its methods, and the optimistic latch protocol as a step relation
      over interleaved threads.
    - [RowVersion]: storage/row_version.rs.  Sixteen hashed shards of active and
      committed row versions; conflict detection, visibility, vacuum.
    - [Persist]: storage/free_space_manager.rs, storage/database_header.rs.  A
      file system with crashes inside a save; the two small durable files.
    - [Wal], [WalRecovery], [WalIter]: storage/wal.rs and the drain loop of
      cdc.rs.  The log as bytes with a cursor, the writer, the recovery pass
      over both on-disk versions, the record iterator.
    - [TxnManager]: transaction/transaction_manager.rs.  Counters, active sets,
      begin, commit, rollback, drop, the row-level page merge, the watermark;
      it uses [RowVersion] for the shared row versions.
    - [BufferPool], [BufferInv], [BufferVersions]: storage/buffer_manager.rs and
      the page phase of a commit.  One shard of the pool: frames with an
      identity (callers keep them), the page table of version chains, pinning,
      copy on write, eviction with the clock hand, flushing, commit and
      rollback of a transaction's pages; the pool invariant; what commit, flush
      and pin promise.
    - [FileHandle]: storage/file_handle.rs.  The bytes of one file, the page
      count, page states and the queue of freed pages.
    - [PageFile]: the pages of one file as a transaction sees them through the
      pool; the indexes and the overflow file are written against it.
    - [Overflow]: storage/overflow_file.rs.  Short strings in place, long ones in
      chained pages, with the UTF-8 check of the standard library.
    - [HashIndex], [HashIndexSpec]: storage/index/hash_index.rs.  Header, bucket
      and overflow pages, every method, and the multimap it stands for.
    - [Stats]: storage/stats/*.rs, the zone map of storage/column.rs and the
      order of values of processor/mod.rs, doubles by their bits.
    - [Catalog], [CatalogSpec]: catalog/*.rs.  Tables, columns, indexes,
      sequences, constraints, macros; saving, loading and the lazy wrapper.
    - [Ddl], [DdlSpec]: processor/operators/ddl.rs, storage/undo_buffer.rs and the
      schema part of storage/storage_manager.rs.  Every schema statement on
      catalog and storage with failing file calls, and its undo records.
    - [Csr]: storage/index/csr.rs.  Offset and adjacency files as lists of pages,
      table construction, neighbour lookup over base and pending edges,
      compaction, recovery.
    - [Trigram]: storage/index/trigram_index.rs.  The posting maps, single and
      batched insertion, plain and adaptive queries, statistics.
    - [TrigramPlan]: storage/trigram_index_worker.rs, the candidate extraction
      of processor/physical_plan.rs, and of processor/evaluator.rs the part that
      gives the filters their meaning.  The index and the planner meet in the
      class [CompleteIndex].
    - [Alp], [Analyzer]: storage/compression/alp.rs with the rounding of doubles,
      and analyzer.rs, which picks a codec.
    - [Column], [ColumnSpec], [ColumnBatch], [ColumnNested], [ColumnScan],
      [ColumnScanSpec], [ColumnEncode], [ColumnEncodeSpec]: storage/column.rs.
      Slots, null bytes and overflow strings on pages; single, batch and bulk
      appends; lists and structs; the Arrow scans with their five paths;
      re-encoding, decompression and optimisation.
    - [TableStore], [TableStoreSpec]: the tables of storage/storage_manager.rs.
      Row ids, write buffers per transaction, batch appends over all columns.
    - [Operators], [OperatorsSpec]: processor/operators: limit, skip, filter,
      union, flatten, accumulate, unwind, deduplication, semi masks.  An operator
      is a state and a function [next]; its child is a stream of batches or
      errors; [produces] says what it hands out.
    - [Joins], [JoinsSpec]: hash_join.rs, cross_join.rs, intersect.rs.
    - [Aggregate], [AggregateSpec]: aggregate.rs and the aggregate functions.
    - [Sorting], [SortingSpec]: sort.rs, topk.rs, nway_merge.rs, projection.rs,
      count.rs; Arrow's lexicographic sort is the class [LexSort].
    - [Traversal], [TraversalSpec]: gds/all_shortest_paths.rs, recursive_join.rs.
    - [Evaluator], [EvaluatorSpec]: processor/evaluator.rs on Arrow arrays.
    - [LogicalPlan], [Optimizer], [OptimizerSpec]: bound expressions, logical
      operators, nine optimizer rules and the optimizer's loop, with a semantics
      of plans as a class.
    - [Dml], [DmlSpec]: dml.rs.  CREATE, SET and DELETE on a table of [TableStore]
      with the columns of [Column].

    Names are the source's where possible.  Methods behind a lock or an atomic
    instruction are functions from the old state to the new one; concurrency is
    a sequence of such steps, with the steps of a method split where the source
    releases a lock in between ([begin_load]/[begin_register],
    [commit_take_ts]/[commit_versions], a worker's sends and turns).

    ** What the theorems show

    - Durability: replaying any byte prefix of a log applies exactly the
      transactions whose commit record is complete, in commit order
      ([replay_after_crash]); whatever the writer logged comes back
      ([log_then_replay]); the file keeps the bytes that [sync_all] has forced out
      ([synced]), and with SyncMode::Normal a commit that returned survives any
      crash that leaves at least those ([acknowledged_commit_survives]), which with
      SyncMode::Off need not be ([sync_off_loses_commit]); the header and the free-page map are
      replaced atomically ([header_save_atomic], [free_space_save_atomic]).
    - Isolation: the sharded row versions refine a map from rows to cells
      ([row_version_refines_cells]); a granted row is exclusive
      until it is committed, rolled back or reserved in a range
      ([mark_row_excludes_writers]); insertions become visible exactly at commit
      ([insert_visibility]); vacuum at the manager's minimum changes what a
      live transaction sees only of old rows that another one is writing
      ([vacuum_live_view]); timestamps grow and
      ids are not reused; the page merge keeps other rows.
    - Latching: the packed word refines a record of four fields, unlocking
      linearises, at most one thread holds the latch, and an unchanged version
      means no writer in between.
    - Buffer pool: every sequence of calls keeps the pool's invariant
      ([pool_inv_always]); a commit publishes exactly the pages the transaction
      wrote ([commit_publishes]), which are never evicted before
      ([own_version_survives]); a pin returns the version its snapshot may see
      ([pin_page_returns_visible]); eviction ends with a slot when one can be
      had ([eviction_finds_slot]); flushing writes the newest committed version
      ([flush_pages_writes_newest]).
    - Files: no page is handed out twice ([pages_allocated_once]); a string
      stored in the overflow file is read back ([overflow_reads_back]) and
      reading ends on any content ([read_string_returns]); the hash index
      refines a multimap from keys to rows ([hash_index_refines_multimap]).
    - Statistics: below 1,000,000 pages and without NaN, appends never make the zone
      map skip a page that holds a matching row ([zone_map_keeps_matches]).
    - Catalog and schema: every reachable catalog is well-formed, and has
      no column twice in a table if no table was created with one
      ([catalog_always_wf], [duplicate_column_accepted]); a catalog that is not marked dirty is the one on
      disk ([clean_catalog_is_saved]); sequences stay in their bounds
      ([sequence_values]); storage and catalog agree after any
      statements that declare distinct columns, drop no built-in one and can open
      their key index ([schemas_agree_always]); undoing a transaction's statements
      gives the old schema back ([rollback_restores_schema]).
    - Compression: each codec gives back the block it was given, within the
      stated domain.
    - Columns: a column is a map from rows to values under single, batch and bulk
      writes ([column_refines_map], [batch_refines_map], [bulk_refines_map]); the
      Arrow scan of an uncompressed column reads exactly those rows
      ([scan_reads_rows]); re-encoding keeps the counted ones ([reencode_roundtrip], [optimize_keeps_ids]).
    - Tables: rows that went through a write buffer are read back, or lost when the
      buffer does not build a column's type ([buffered_rows_read_back]); CREATE, SET and DELETE do to the columns what they
      say ([create_operator_rows], [set_operator_rows], [delete_operator_rows]) and nothing on a conflict
      ([set_conflict_keeps_table]).
    - Operators: limits, skips, filters, unions and joins hand out exactly the rows
      of their relational meaning ([pipeline_rows], [union_rows],
      [hash_join_rows]); aggregation gives one row per group
      ([grouped_aggregate_rows]); sorting a sorted permutation ([sort_rows]), top-k
      what sort and limit give, beyond 2k rows for integer keys
      ([topk_is_sort_limit]); the shortest-path search
      exactly the shortest paths ([all_shortest_paths]); a variable-length pattern
      exactly the pairs of node and depth within its bounds, or a prefix of them
      when the deadline passes ([variable_length_rows]).
    - Expressions: integer arithmetic is exact or refused ([int64_arith_exact]); a
      conjunction of comparisons keeps exactly the rows that satisfy it
      ([where_conjunction_rows]), a disjunction those that satisfy it and have no
      null in a compared column ([where_disjunction_rows]).
    - Optimizer: filter pushdown and the loop over the rules that move filters and
      limits return a plan with the same rows ([filter_pushdown_keeps_rows],
      [optimizer_keeps_rows]).
    - Adjacency: within one page per file, building succeeds over any old
      content and lookups return exactly the node's edges ([build_neighbors]),
      a scan gives the edges back ([build_scan_roundtrip]), and compaction keeps
      the neighbours ([compact_preserves_neighbors]); the page is also the limit
      ([build_overruns_frame], [neighbors_hang]).
    - Text search: the index never misses a row, batches equal single
      insertions, the planner's candidate mask keeps every matching row that the
      workers have indexed, for a filter without XOR ([plan_keeps_matches]), and
      the worker delivers everything it was sent.
    - Where the code departs from its intent, a theorem exhibits it: a frame
      value below the minimum ([for_below_minimum]), an update after vacuum
      ([vacuum_then_update_hides_row]), a corrupt header read as an old one
      ([corrupt_header_resets_counters]), a damaged log record under change
      capture ([corrupt_record_traps_reader]), a long log read followed by a
      commit ([long_read_overwrites_log]), the watermark over a live writer
      ([watermark_hides_inflight_writer]), the windows inside commit and begin
      ([commit_window_not_repeatable], [begin_window_phantom]), an edge that
      compaction brings back ([compact_resurrects_edge]) or that is inserted
      after its deletion ([reinserted_edge_lost]), XOR candidates
      ([xor_drops_matches]), the flush that does not wait
      ([flush_does_not_wait]), an old page version that comes back after its
      successor was evicted ([superseded_version_resurfaces]), page updates
      logged under another transaction ([log_page_update_misattributes]), a
      deleted key kept by a resize ([resize_keeps_deleted_key]), statistics
      recomputed from a part of the rows, or with a NaN, that hide a page
      ([recomputed_bounds_hide_match], [zone_map_keeps_matches]), a constraint position
      that has become stale ([stale_index_removes_other]), a dropped table that
      rollback brings back empty ([dropped_table_comes_back_empty]), a rename
      undone in one place only ([rename_rollback_leaves_dangling]), a truncated
      page handed out twice ([truncated_page_handed_out_twice]), a string
      that straddles a page boundary ([straddling_unreadable]), rows flushed under
      other ids ([flush_ignores_row_ids]) or not at all
      ([unflushable_rows_lost]), values that SET shifts past a row without a node
      ([set_shifts_values]), keys that CREATE does not check
      ([batch_create_skips_key_index], [duplicate_key_leaves_row]), groups that a
      large batch overwrites ([late_batch_overwrites]), nulls in OR
      ([where_disjunction_rows]), nulls in top-k ([topk_null_placement]), a pattern
      without upper bound on a cycle ([unbounded_cycle_times_out]), walks of length
      zero ([zero_length_walk_missing]), rows that all
      shortest paths skips ([asp_skips_odd_rows]), an index the planner never uses
      ([index_scan_never_planned]) and others next to the component they are about.

    The theorems whose comment carries an identifier [C1], [C2], ... are the
    principal ones; the others are supporting results or variations of them.

    ** Fuel

    Recursion that is not structural runs on fuel that is an upper bound of the
    iterations: the bytes left plus one for [replay_loop], [next_record_loop] and
    the skip loop (each turn consumes a byte or stops), the bit width for the bit
    loops, the values left for [rle_run], the next id for [watermark_loop], the
    length plus one for [bisect] (the interval shrinks every turn), the byte count
    for [read_batch_loop].  Eviction takes one
    turn more than the pool has frames; the chains of a hash bucket are followed
    for more turns than the file has pages; reading a string takes at most
    MAX_PAGES + 2 turns; growing a file takes the free queue plus the missing
    pages.  A scan or batch loop over pages takes at most one turn per page or
    value; filter pushdown the weight of the plan; sorted runs and merges the
    number of rows; the shortest-path search the number of nodes, and the recursive
    join the number of nodes times the depths.  The way back of the shortest-path
    search takes a number of steps that its theorem gives.  Operators recurse on the
    stream of their child.  The theorems
    are about the results themselves, so running out is excluded, not assumed
    away.  [drain_iter] and [neighbor_loop] keep their fuel as an argument and
    say when it runs out: on a damaged record, or past a page boundary, the loop
    of the source never ends, which is what the theorems say.

    ** Outside the model

    Third-party code is a parameter with its documented behaviour as hypotheses:
    bincode and crc32fast in [Persist], CRC-32C in [Wal] and [Csr], the page writer given
    to recovery, the non-textual expressions in [TrigramPlan], serde_json in
    [Catalog].  So are the choices the standard library leaves open: the
    iteration order of its hash maps, its hasher, the text of [Debug], and the
    lossy UTF-8 conversion.  In [TxnManager] the calls that commit and rollback
    make to the buffer manager, the catalog, the indexes and the undo buffer are
    represented by where they fail; the buffer manager's and the undo buffer's
    side of those calls is in [BufferVersions] and [Ddl].  Arrow's kernels are
    written out where they are simple (comparison, boolean, integer arithmetic,
    take, interleave) and are parameters otherwise: the lexicographic sort, sums of
    doubles, float remainders, casts between other types.  The adjacency index, the
    clock of a traversal, the expressions of the writing operators and their key
    index are parameters of [Traversal] and [Dml]; what the index and the columns do
    is in [Csr] and [HashIndex].

    Not modelled: the parser, whose grammar the pest generator compiles, and the
    name resolution of the binder; projection pushdown, subquery unnesting and the
    optimizer rules that are switched off; MERGE, the scan, copy and call operators;
    the scalar functions, a table of closures over Arrow kernels; the inverted
    index, a wrapper of the tantivy library, and the vector indexes, approximate by
    design; prefetching and the scheduler, which do not change results; the opening
    and checkpointing of a database over the file system, and the memory layer, which
    only sends queries; foreign-function bindings, WebAssembly, server and clients,
    which only call the core. *)
From stdpp Require Import base list list_numbers numbers gmap sorting.
From Stdlib Require Import ZArith Lia Bool.


(** ** Rust results

    A fallible function returns [Result<T, LightningError>]; an out-of-range
    slice index, an integer underflow checked by the language or an explicit
    [expect] aborts the thread.  Both outcomes are values here: [Err] is the
    error path that the source propagates with [?], [Panic] the abort. *)

(** lib.rs, [enum LightningError]; the message strings carry no control flow. *)
Inductive LightningError :=
| Internal
| Database
| Query
| Config
| Io.

#[global] Instance LightningError_eq_dec : EqDecision LightningError.
Proof. solve_decision. Defined.

Inductive outcome (A : Type) :=
| Ok (a : A)
| Err (e : LightningError)
| Panic.
Arguments Ok {A} a.
Arguments Err {A} e.
Arguments Panic {A}.

Definition outcome_bind {A B} (o : outcome A) (k : A → outcome B) : outcome B :=
  match o with
  | Ok a => k a
  | Err e => Err e
  | Panic => Panic
  end.

Declare Scope rust_scope.
Delimit Scope rust_scope with rust.
Notation "'let*' x ':=' c 'in' k" := (outcome_bind c (λ x, k))
  (at level 10, x pattern, c at level 100, k at level 200) : rust_scope.
Open Scope rust_scope.

Lemma outcome_bind_assoc {A B C} (o : outcome A) (f : A → outcome B) (g : B → outcome C) :
  outcome_bind (outcome_bind o f) g = outcome_bind o (λ x, outcome_bind (f x) g).
Proof. by destruct o. Qed.

(** A loop over the indices [i, i+1, ..., i+n-1] that threads a state and
    stops at the first error or panic: [for i in 0..n { ... }]. *)
Fixpoint for_range {St} (n i : nat) (body : nat → St → outcome St) (s : St) : outcome St :=
  match n with
  | O => Ok s
  | S n => let* s' := body i s in for_range n (i + 1) body s'
  end.

Lemma for_range_app {St} (body : nat → St → outcome St) n m i s :
  for_range (n + m) i body s =
  (let* s' := for_range n i body s in for_range m (i + n) body s').
Proof.
  revert i s. induction n as [|n IH]; intros i s; simpl.
  - by rewrite Nat.add_0_r.
  - rewrite outcome_bind_assoc. destruct (body i s); simpl; try done.
    rewrite IH. by replace (i + 1 + n) with (i + S n) by lia.
Qed.

(** Rule for [for_range]: an invariant indexed by the number of iterations. *)
Lemma for_range_ind {St} (P : nat → St → Prop) (body : nat → St → outcome St) n i s :
  P 0 s →
  (∀ k s, k < n → P k s → ∃ s', body (i + k) s = Ok s' ∧ P (k + 1) s') →
  ∃ s', for_range n i body s = Ok s' ∧ P n s'.
Proof.
  intros H0 Hstep. induction n as [|n IH].
  - exists s. done.
  - destruct IH as (s1 & E1 & P1).
    { intros k sk Hk. apply Hstep. lia. }
    destruct (Hstep n s1 ltac:(lia) P1) as (s2 & E2 & P2).
    exists s2. split; [|by replace (S n) with (n + 1) by lia].
    replace (S n) with (n + 1) by lia.
    rewrite for_range_app, E1. simpl. by rewrite E2.
Qed.

(** [n] copies of a chunk, back to back. *)
Fixpoint repeat_chunk {A} (n : nat) (v : list A) : list A :=
  match n with O => [] | S n => v ++ repeat_chunk n v end.

Lemma length_repeat_chunk {A} n (v : list A) : length (repeat_chunk n v) = n * length v.
Proof. induction n as [|n IH]; simpl; [done|]. by rewrite length_app, IH. Qed.

(** Closes a concrete decidable side condition by computation. *)
Ltac by_compute :=
  match goal with
  | |- ?P => apply (bool_decide_unpack P); vm_compute; exact I
  end.

(** ** Machine integers *)

Open Scope Z_scope.

Definition u8_wrap (z : Z) : Z := z mod 2 ^ 8.
Definition u16_wrap (z : Z) : Z := z mod 2 ^ 16.
Definition u32_wrap (z : Z) : Z := z mod 2 ^ 32.
Definition u64_wrap (z : Z) : Z := z mod 2 ^ 64.
Definition u64_MAX : Z := 2 ^ 64 - 1.
Definition i64_MIN : Z := - 2 ^ 63.
Definition i64_MAX : Z := 2 ^ 63 - 1.

(** [x as i64] for a [u64], and [x as u64] for an [i64]. *)
Definition u64_as_i64 (z : Z) : Z :=
  if decide (u64_wrap z < 2 ^ 63) then u64_wrap z else u64_wrap z - 2 ^ 64.
Definition i64_wrapping_add (a b : Z) : Z := u64_as_i64 (u64_wrap (a + b)).

(** [!x] at width 8 and 64. *)
Definition u8_not (z : Z) : Z := Z.lxor z (2 ^ 8 - 1).
Definition u64_not (z : Z) : Z := Z.lxor z (2 ^ 64 - 1).

Definition is_u8 (z : Z) : Prop := 0 ≤ z < 2 ^ 8.
Definition is_u64 (z : Z) : Prop := 0 ≤ z < 2 ^ 64.
Definition is_i64 (z : Z) : Prop := - 2 ^ 63 ≤ z < 2 ^ 63.

#[global] Instance is_u8_dec z : Decision (is_u8 z).
Proof. unfold is_u8. apply _. Defined.
#[global] Instance is_u64_dec z : Decision (is_u64 z).
Proof. unfold is_u64. apply _. Defined.
#[global] Instance is_i64_dec z : Decision (is_i64 z).
Proof. unfold is_i64. apply _. Defined.

Lemma u64_wrap_range z : is_u64 (u64_wrap z).
Proof. unfold is_u64, u64_wrap. apply Z.mod_pos_bound. lia. Qed.

Lemma u64_wrap_id z : is_u64 z → u64_wrap z = z.
Proof. apply Z.mod_small. Qed.

Lemma u64_as_i64_range z : is_i64 (u64_as_i64 z).
Proof.
  unfold u64_as_i64, is_i64. pose proof (u64_wrap_range z) as H.
  unfold is_u64 in H. case_decide; lia.
Qed.

Lemma u64_as_i64_wrap z : is_i64 z → u64_as_i64 (u64_wrap z) = z.
Proof.
  unfold is_i64, u64_as_i64, u64_wrap. intros Hz. rewrite Z.mod_mod by lia.
  destruct (decide (0 ≤ z)).
  - rewrite Z.mod_small by lia. case_decide; lia.
  - replace (z mod 2 ^ 64) with (z + 2 ^ 64).
    + case_decide; lia.
    + apply (Z.mod_unique z (2 ^ 64) (-1)); lia.
Qed.

(** ** Bits

    Every bit-twiddling lemma goes through [Z.testbit]; the rewrite database
    [bits] normalises a [testbit] of a compound expression to the bits of its
    atoms. *)

Lemma testbit_wrap_high z n i : 0 ≤ z < 2 ^ n → 0 ≤ n ≤ i → Z.testbit z i = false.
Proof.
  intros Hz Hi. rewrite <- (Z.mod_small z (2 ^ n)) by lia.
  apply Z.mod_pow2_bits_high. lia.
Qed.

Lemma testbit_shiftl z n i : 0 ≤ n → 0 ≤ i →
  Z.testbit (Z.shiftl z n) i = (n <=? i) && Z.testbit z (i - n).
Proof.
  intros Hn Hi. rewrite Z.shiftl_spec by lia.
  destruct (Z.leb_spec n i); simpl; [done|]. apply Z.testbit_neg_r; lia.
Qed.

Lemma testbit_mask n i : 0 ≤ n → 0 ≤ i →
  Z.testbit (Z.shiftl 1 n - 1) i = (i <? n).
Proof.
  intros Hn Hi. rewrite Z.shiftl_1_l.
  replace (2 ^ n - 1) with (Z.ones n) by (rewrite Z.ones_equiv; lia).
  destruct (Z.ltb_spec i n).
  - rewrite Z.ones_spec_low; [done|lia].
  - rewrite Z.ones_spec_high; [done|lia].
Qed.

Lemma testbit_pow_pred n i : 0 ≤ n → 0 ≤ i →
  Z.testbit (2 ^ n - 1) i = (i <? n).
Proof. intros. rewrite <- Z.shiftl_1_l. by apply testbit_mask. Qed.

(** Testing one bit with a mask. *)
Lemma land_bit v n : 0 ≤ n → negb (bool_decide (Z.land v (Z.shiftl 1 n) = 0)) = Z.testbit v n.
Proof.
  intros Hn. rewrite Z.shiftl_1_l. destruct (Z.testbit v n) eqn:Hb.
  - apply negb_true_iff, bool_decide_eq_false. intros H0.
    assert (Z.testbit (Z.land v (2 ^ n)) n = true) as H1 by (rewrite Z.land_spec, Hb, Z.pow2_bits_true by lia; done).
    rewrite H0, Z.bits_0 in H1. done.
  - apply negb_false_iff, bool_decide_eq_true. apply Z.bits_inj_0. intros i. rewrite Z.land_spec.
    destruct (decide (i = n)) as [->|]; [rewrite Hb; done|].
    destruct (decide (0 ≤ i)); [|rewrite !Z.testbit_neg_r by lia; done].
    rewrite Z.pow2_bits_false by lia. apply andb_false_r.
Qed.

(** A non-negative number below [2^n] is determined by its low [n] bits. *)
Lemma bits_eq n a b : 0 ≤ n → 0 ≤ a < 2 ^ n → 0 ≤ b < 2 ^ n →
  (∀ i, 0 ≤ i < n → Z.testbit a i = Z.testbit b i) → a = b.
Proof.
  intros Hn Ha Hb H. apply Z.bits_inj'. intros i Hi.
  destruct (decide (i < n)); [apply H; lia|].
  by rewrite !(testbit_wrap_high _ n) by lia.
Qed.

Lemma bits_bound n a : 0 ≤ n → 0 ≤ a →
  (∀ i, n ≤ i → Z.testbit a i = false) → a < 2 ^ n.
Proof.
  intros Hn Ha H. destruct (decide (a = 0)) as [->|]; [apply Z.pow_pos_nonneg; lia|].
  apply Z.log2_lt_pow2; [lia|].
  destruct (decide (Z.log2 a < n)); [done|].
  specialize (H (Z.log2 a) ltac:(lia)). rewrite Z.bit_log2 in H by lia. done.
Qed.

Create Rewrite HintDb bits.
#[export] Hint Rewrite Z.land_spec Z.lor_spec Z.lxor_spec : bits.

Close Scope Z_scope.

(** ** Byte buffers

    A byte buffer is a list of numbers in [0, 256).  Offsets and lengths are
    [nat]: they index an in-memory buffer. *)

Abbreviation bytes := (list Z).

Definition bytes_ok (l : list Z) : Prop := Forall is_u8 l.

#[global] Instance bytes_ok_dec l : Decision (bytes_ok l).
Proof. unfold bytes_ok. apply _. Defined.

Definition byte_at (l : list Z) (k : nat) : Z := default 0%Z (l !! k).

(** Element [k] of an array of words. *)
Definition word_at (l : list Z) (k : nat) : Z := default 0%Z (l !! k).

(** [l[a..b]] *)
Definition slice {A} (l : list A) (a b : nat) : list A := take (b - a) (drop a l).
Definition slice_get {A} (l : list A) (a b : nat) : outcome (list A) :=
  if decide (a ≤ b ∧ b ≤ length l) then Ok (slice l a b) else Panic.

(** [l[off..off + s.len()].copy_from_slice(s)] *)
Definition splice {A} (l : list A) (off : nat) (s : list A) : list A :=
  take off l ++ s ++ drop (off + length s) l.
Definition write_at {A} (l : list A) (off : nat) (s : list A) : outcome (list A) :=
  if decide (off + length s ≤ length l) then Ok (splice l off s) else Panic.

(** [uN::to_le_bytes] and [uN::from_le_bytes] *)
Fixpoint to_le (n : nat) (z : Z) : list Z :=
  match n with
  | O => []
  | S n => u8_wrap z :: to_le n (Z.shiftr z 8)
  end.
Fixpoint of_le (l : list Z) : Z :=
  match l with
  | [] => 0%Z
  | b :: l => Z.lor b (Z.shiftl (of_le l) 8)
  end.

(** Bit [i] of a buffer, counting from the low bit of byte 0. *)
Definition bit_at (l : list Z) (i : nat) : bool :=
  Z.testbit (byte_at l (i / 8)) (Z.of_nat (i mod 8)).

Section slices.
Context {A : Type}.
Implicit Types (l s : list A).

Lemma length_slice l a b : b ≤ length l → length (slice l a b) = b - a.
Proof. intros. unfold slice. rewrite length_take, length_drop. lia. Qed.

Lemma lookup_slice l a b k : k < b - a → slice l a b !! k = l !! (a + k).
Proof. intros. unfold slice. rewrite lookup_take_lt by lia. by rewrite lookup_drop. Qed.

Lemma length_splice l off s :
  off + length s ≤ length l → length (splice l off s) = length l.
Proof.
  intros. unfold splice. rewrite !length_app, length_take, length_drop. lia.
Qed.

Lemma lookup_splice_in l off s k :
  off + length s ≤ length l → off ≤ k < off + length s →
  splice l off s !! k = s !! (k - off).
Proof.
  intros Hl Hk. unfold splice.
  rewrite lookup_app_r; rewrite length_take; [|lia].
  replace (k - off `min` length l) with (k - off) by lia.
  rewrite lookup_app_l; [done|lia].
Qed.

Lemma lookup_splice_out l off s k :
  off + length s ≤ length l → k < off ∨ off + length s ≤ k →
  splice l off s !! k = l !! k.
Proof.
  intros Hl [Hk|Hk]; unfold splice.
  - rewrite lookup_app_l by (rewrite length_take; lia).
    rewrite lookup_take_lt by lia. done.
  - rewrite lookup_app_r; rewrite length_take; [|lia].
    rewrite lookup_app_r by lia. rewrite lookup_drop. f_equal. lia.
Qed.

Lemma slice_splice_same l off s :
  off + length s ≤ length l → slice (splice l off s) off (off + length s) = s.
Proof.
  intros. unfold slice, splice.
  rewrite drop_app_length' by (rewrite length_take; lia).
  replace (off + length s - off) with (length s) by lia.
  by rewrite take_app_length.
Qed.

Lemma slice_splice_other l off s a b :
  off + length s ≤ length l → b ≤ off ∨ off + length s ≤ a → b ≤ length l →
  slice (splice l off s) a b = slice l a b.
Proof.
  intros Hl Hab Hb. apply list_eq. intros k.
  destruct (decide (k < b - a)).
  - rewrite !lookup_slice by lia. apply lookup_splice_out; [done|lia].
  - rewrite !lookup_ge_None_2; [done|rewrite length_slice; [lia|done]|].
    rewrite length_slice; [lia|]. by rewrite length_splice.
Qed.

Lemma slice_get_ok l a b : a ≤ b → b ≤ length l → slice_get l a b = Ok (slice l a b).
Proof. intros. unfold slice_get. by rewrite decide_True. Qed.

Lemma write_at_ok l off s : off + length s ≤ length l → write_at l off s = Ok (splice l off s).
Proof. intros. unfold write_at. by rewrite decide_True. Qed.

Lemma slice_all l : slice l 0 (length l) = l.
Proof. unfold slice. rewrite drop_0, Nat.sub_0_r. apply firstn_all. Qed.

Lemma slice_app_r l s a b : length l ≤ a → slice (l ++ s) a b = slice s (a - length l) (b - length l).
Proof.
  intros. unfold slice. rewrite drop_app_ge by done. f_equal. lia.
Qed.

Lemma slice_app_l l s a b : b ≤ length l → slice (l ++ s) a b = slice l a b.
Proof.
  intros. apply list_eq. intros k. destruct (decide (k < b - a)).
  - rewrite !lookup_slice by lia. by rewrite lookup_app_l by lia.
  - rewrite !lookup_ge_None_2; [done| |]; rewrite length_slice; rewrite ?length_app; lia.
Qed.

Lemma slice_skip l s : slice (l ++ s) (length l) (length l + length s) = s.
Proof. rewrite slice_app_r by done. rewrite Nat.sub_diag.
  replace (length l + length s - length l) with (length s) by lia. apply slice_all. Qed.

Lemma slice_take l n a b : b ≤ n → slice (take n l) a b = slice l a b.
Proof. intros. unfold slice. rewrite skipn_firstn_comm, take_take. f_equal. lia. Qed.

Lemma slice_app_split l s a b :
  a ≤ length l → length l ≤ b →
  slice (l ++ s) a b = slice l a (length l) ++ slice s 0 (b - length l).
Proof.
  intros. unfold slice. rewrite drop_app_le by done. rewrite drop_0, Nat.sub_0_r.
  rewrite take_app. rewrite length_drop. f_equal; [|f_equal; lia].
  rewrite !take_ge; [done|..]; rewrite length_drop; lia.
Qed.

Lemma slice_nil l a b : b ≤ a → slice l a b = [].
Proof. intros. unfold slice. by replace (b - a) with 0 by lia. Qed.

Lemma slice_split l a b c :
  a ≤ b → b ≤ c → slice l a c = slice l a b ++ slice l b c.
Proof.
  intros. unfold slice. replace (c - a) with ((b - a) + (c - b)) by lia.
  rewrite <- take_take_drop, drop_drop. do 3 f_equal. lia.
Qed.

Lemma splice_nil l off : splice l off [] = l.
Proof. unfold splice. simpl. by rewrite Nat.add_0_r, take_drop. Qed.

Lemma splice_splice_adjacent l off s1 s2 :
  off + length s1 + length s2 ≤ length l →
  splice (splice l off s1) (off + length s1) s2 = splice l off (s1 ++ s2).
Proof.
  intros. unfold splice.
  rewrite (app_assoc (take off l)).
  rewrite take_app_length' by (rewrite length_app, length_take; lia).
  rewrite drop_app_ge by (rewrite length_app, length_take; lia).
  rewrite drop_drop. rewrite <- !app_assoc. do 3 f_equal. f_equal.
  rewrite !length_app, length_take. lia.
Qed.

Lemma take_splice l off s :
  off ≤ length l → take (off + length s) (splice l off s) = take off l ++ s.
Proof.
  intros. unfold splice. rewrite app_assoc. apply take_app_length'.
  rewrite length_app, length_take. lia.
Qed.

Lemma slice_slice l a b c d :
  b ≤ length l → c ≤ d → a + d ≤ b → slice (slice l a b) c d = slice l (a + c) (a + d).
Proof.
  intros. apply list_eq. intros k. destruct (decide (k < d - c)).
  - rewrite !lookup_slice by lia. f_equal. lia.
  - rewrite !lookup_ge_None_2; [done| |]; rewrite length_slice; rewrite ?length_slice; lia.
Qed.
End slices.

Create Rewrite HintDb buf.
(** A range all of whose [es]-byte elements are [v]. *)
Lemma slice_repeat_chunk {A} (l v : list A) es a n :
  (∀ k, a ≤ k < a + n → slice l (k * es) (k * es + es) = v) →
  slice l (a * es) ((a + n) * es) = repeat_chunk n v.
Proof.
  revert a. induction n as [|n IH]; intros a H.
  - rewrite slice_nil by lia. done.
  - rewrite (slice_split l (a * es) (a * es + es)) by lia. rewrite H by lia. simpl. f_equal.
    replace (a * es + es) with ((a + 1) * es) by lia.
    replace (a + S n) with (a + 1 + n) by lia. apply IH. intros k Hk. apply H. lia.
Qed.

Lemma repeat_chunk_slice {A} (v : list A) n i :
  i < n → slice (repeat_chunk n v) (i * length v) (i * length v + length v) = v.
Proof.
  revert i. induction n as [|n IH]; intros i Hi; [lia|]. simpl. destruct i as [|i].
  - rewrite slice_app_l by (simpl; lia). apply slice_all.
  - rewrite slice_app_r by lia.
    transitivity (slice (repeat_chunk n v) (i * length v) (i * length v + length v));
      [f_equal; lia|apply IH; lia].
Qed.

#[export] Hint Rewrite @length_slice @length_splice using lia : buf.

(** *** Little-endian encoding *)

Lemma length_to_le n z : length (to_le n z) = n.
Proof. revert z. induction n as [|n IH]; intros z; simpl; [done|]. by rewrite IH. Qed.

Lemma bytes_ok_app l s : bytes_ok (l ++ s) ↔ bytes_ok l ∧ bytes_ok s.
Proof. apply Forall_app. Qed.

Lemma to_le_bytes_ok n z : bytes_ok (to_le n z).
Proof.
  revert z. induction n as [|n IH]; intros z; simpl; constructor; [|apply IH].
  unfold is_u8, u8_wrap. apply Z.mod_pos_bound. lia.
Qed.

Lemma bytes_ok_slice l a b : bytes_ok l → bytes_ok (slice l a b).
Proof. intros. unfold slice, bytes_ok. apply Forall_take. by apply Forall_drop. Qed.

Lemma bytes_ok_splice l off s : bytes_ok l → bytes_ok s → bytes_ok (splice l off s).
Proof.
  intros. unfold splice, bytes_ok. rewrite !Forall_app.
  split_and!; [by apply Forall_take|done|by apply Forall_drop].
Qed.

Lemma bytes_ok_replicate n z : is_u8 z → bytes_ok (replicate n z).
Proof. intros. by apply Forall_replicate. Qed.

Lemma byte_at_range l k : bytes_ok l → is_u8 (byte_at l k).
Proof.
  intros H. unfold byte_at. destruct (l !! k) as [b|] eqn:E; simpl.
  - by eapply Forall_lookup_1 in H.
  - unfold is_u8. lia.
Qed.

Lemma byte_at_cons b l k : byte_at (b :: l) (S k) = byte_at l k.
Proof. done. Qed.

Lemma byte_at_beyond l k : length l ≤ k → byte_at l k = 0%Z.
Proof. intros. unfold byte_at. by rewrite lookup_ge_None_2. Qed.

Lemma bit_at_beyond l i : 8 * length l ≤ i → bit_at l i = false.
Proof.
  intros. unfold bit_at. rewrite byte_at_beyond; [apply Z.testbit_0_l|].
  apply Nat.div_le_lower_bound; lia.
Qed.

Lemma bit_at_cons_low b l i : i < 8 → bit_at (b :: l) i = Z.testbit b (Z.of_nat i).
Proof. intros. unfold bit_at. by rewrite Nat.div_small, Nat.mod_small by lia. Qed.

Lemma bit_at_cons_high b l i : bit_at (b :: l) (8 + i) = bit_at l i.
Proof.
  unfold bit_at. replace (8 + i) with (i + 1 * 8) by lia.
  rewrite Nat.div_add, Nat.Div0.mod_add by lia.
  by replace (i / 8 + 1) with (S (i / 8)) by lia.
Qed.

Lemma testbit_of_le l i : bytes_ok l → Z.testbit (of_le l) (Z.of_nat i) = bit_at l i.
Proof.
  intros H. revert i. induction H as [|b l Hb _ IH]; intros i; cbn [of_le].
  - rewrite Z.testbit_0_l. by rewrite bit_at_beyond by (simpl; lia).
  - rewrite Z.lor_spec, testbit_shiftl by lia.
    destruct (decide (i < 8)) as [Hi|Hi].
    + rewrite bit_at_cons_low by done. rewrite (proj2 (Z.leb_gt _ _)) by lia.
      apply orb_false_r.
    + replace i with (8 + (i - 8)) by lia. rewrite bit_at_cons_high.
      rewrite (testbit_wrap_high b 8) by (unfold is_u8 in Hb; lia).
      rewrite (proj2 (Z.leb_le _ _)) by lia. rewrite <- IH. simpl. f_equal. lia.
Qed.

Lemma of_le_nonneg l : bytes_ok l → (0 ≤ of_le l)%Z.
Proof.
  induction 1 as [|b l Hb _ IH]; simpl; [done|].
  rewrite Z.lor_nonneg, Z.shiftl_nonneg. unfold is_u8 in Hb. lia.
Qed.

Lemma of_le_bound l : bytes_ok l → (0 ≤ of_le l < 2 ^ (8 * Z.of_nat (length l)))%Z.
Proof.
  intros H. pose proof (of_le_nonneg l H). split; [done|].
  apply bits_bound; [lia|done|]. intros i Hi.
  replace i with (Z.of_nat (Z.to_nat i)) by lia.
  rewrite testbit_of_le by done. apply bit_at_beyond. lia.
Qed.

Lemma bit_at_to_le n z i :
  bit_at (to_le n z) i = (i <? 8 * n)%nat && Z.testbit z (Z.of_nat i).
Proof.
  revert z i. induction n as [|n IH]; intros z i.
  - rewrite bit_at_beyond by (simpl; lia). by rewrite (proj2 (Nat.ltb_ge _ _)) by lia.
  - cbn [to_le]. destruct (decide (i < 8)).
    + rewrite bit_at_cons_low by done. unfold u8_wrap.
      rewrite Z.mod_pow2_bits_low by lia. by rewrite (proj2 (Nat.ltb_lt _ _)) by lia.
    + replace i with (8 + (i - 8)) by lia. rewrite bit_at_cons_high, IH.
      rewrite Z.shiftr_spec by lia. f_equal; [|f_equal; lia].
      destruct (Nat.ltb_spec (i - 8) (8 * n)), (Nat.ltb_spec (8 + (i - 8)) (8 * S n)); lia.
Qed.

Lemma of_le_to_le n z : of_le (to_le n z) = (z mod 2 ^ (8 * Z.of_nat n))%Z.
Proof.
  apply (bits_eq (8 * Z.of_nat n)); [lia| |apply Z.mod_pos_bound, Z.pow_pos_nonneg; lia|].
  - pose proof (of_le_bound _ (to_le_bytes_ok n z)) as H. by rewrite length_to_le in H.
  - intros i Hi. replace i with (Z.of_nat (Z.to_nat i)) by lia.
    rewrite testbit_of_le by apply to_le_bytes_ok. rewrite bit_at_to_le.
    rewrite Z.mod_pow2_bits_low by lia. by rewrite (proj2 (Nat.ltb_lt _ _)) by lia.
Qed.

Lemma of_le_to_le_id n z : (0 ≤ z < 2 ^ (8 * Z.of_nat n))%Z → of_le (to_le n z) = z.
Proof. intros. rewrite of_le_to_le. by apply Z.mod_small. Qed.

(** Buffers of the same length with the same bits are equal. *)
Lemma bytes_eq_bits l s :
  bytes_ok l → bytes_ok s → length l = length s →
  (∀ i, i < 8 * length l → bit_at l i = bit_at s i) → l = s.
Proof.
  intros Hl Hs Hlen H. apply list_eq_same_length with (length l); [done..|].
  intros k x y Hk Hx Hy.
  pose proof (Forall_lookup_1 _ _ _ _ Hl Hx) as Hx8.
  pose proof (Forall_lookup_1 _ _ _ _ Hs Hy) as Hy8.
  apply (bits_eq 8); [lia|apply Hx8|apply Hy8|]. intros i Hi.
  specialize (H (k * 8 + Z.to_nat i) ltac:(lia)). unfold bit_at, byte_at in H.
  rewrite Nat.div_add_l, (Nat.div_small (Z.to_nat i)), Nat.add_0_r in H by lia.
  rewrite (Nat.add_comm (k * 8)), Nat.Div0.mod_add, (Nat.mod_small (Z.to_nat i)) in H by lia.
  rewrite Hx, Hy in H. simpl in H. by rewrite Z2Nat.id in H by lia.
Qed.

Lemma to_le_of_le l n : bytes_ok l → length l = n → to_le n (of_le l) = l.
Proof.
  intros H <-. apply bytes_eq_bits; [apply to_le_bytes_ok|done|by rewrite length_to_le|].
  intros i Hi. rewrite length_to_le in Hi.
  rewrite bit_at_to_le, testbit_of_le by done. by rewrite (proj2 (Nat.ltb_lt _ _)) by lia.
Qed.

Lemma to_le_mod n z : to_le n (z mod 2 ^ (8 * Z.of_nat n))%Z = to_le n z.
Proof.
  apply bytes_eq_bits; [apply to_le_bytes_ok..|by rewrite !length_to_le|].
  intros i Hi. rewrite length_to_le in Hi. rewrite !bit_at_to_le. f_equal.
  apply Z.mod_pow2_bits_low. lia.
Qed.

(** The signed and the unsigned reading of a word have the same bytes. *)
Lemma to_le_as_i64 z : to_le 8 (u64_as_i64 z) = to_le 8 z.
Proof.
  rewrite <- (to_le_mod 8 (u64_as_i64 z)), <- (to_le_mod 8 z). f_equal.
  change (2 ^ (8 * Z.of_nat 8))%Z with (2 ^ 64)%Z.
  unfold u64_as_i64, u64_wrap. case_decide; [by rewrite Z.mod_mod by lia|].
  rewrite Zminus_mod, Z.mod_same, Z.sub_0_r, !Z.mod_mod by lia. done.
Qed.

(** The bits of a sub-slice and of a spliced buffer. *)
Lemma byte_at_slice l a b k : k < b - a → byte_at (slice l a b) k = byte_at l (a + k).
Proof. intros. unfold byte_at. by rewrite lookup_slice. Qed.

Lemma byte_at_splice_in l off s k :
  off + length s ≤ length l → off ≤ k < off + length s →
  byte_at (splice l off s) k = byte_at s (k - off).
Proof. intros. unfold byte_at. by rewrite lookup_splice_in. Qed.

Lemma byte_at_splice_out l off s k :
  off + length s ≤ length l → k < off ∨ off + length s ≤ k →
  byte_at (splice l off s) k = byte_at l k.
Proof. intros. unfold byte_at. by rewrite lookup_splice_out. Qed.

Lemma bit_at_slice l a b i : i < 8 * (b - a) → bit_at (slice l a b) i = bit_at l (8 * a + i).
Proof.
  intros. unfold bit_at.
  rewrite byte_at_slice by (apply Nat.Div0.div_lt_upper_bound; lia).
  replace (8 * a + i) with (i + a * 8) by lia.
  rewrite Nat.div_add, Nat.Div0.mod_add by lia. by rewrite (Nat.add_comm a).
Qed.

Lemma bit_at_splice_in l off s i :
  off + length s ≤ length l → 8 * off ≤ i < 8 * (off + length s) →
  bit_at (splice l off s) i = bit_at s (i - 8 * off).
Proof.
  intros Hl Hi. unfold bit_at. set (j := i - 8 * off).
  replace i with (j + off * 8) by lia.
  rewrite Nat.div_add, Nat.Div0.mod_add by lia.
  assert (j / 8 < length s) by (apply Nat.Div0.div_lt_upper_bound; lia).
  rewrite byte_at_splice_in by lia. do 2 f_equal. lia.
Qed.

Lemma bit_at_splice_out l off s i :
  off + length s ≤ length l → i < 8 * off ∨ 8 * (off + length s) ≤ i →
  bit_at (splice l off s) i = bit_at l i.
Proof.
  intros Hl Hi. unfold bit_at. rewrite byte_at_splice_out; [done|done|].
  destruct Hi as [Hi|Hi]; [left|right].
  - apply Nat.Div0.div_lt_upper_bound. lia.
  - apply Nat.div_le_lower_bound; lia.
Qed.

#[global] Arguments to_le : simpl never.
#[global] Arguments of_le : simpl never.
#[global] Arguments splice : simpl never.
#[global] Arguments slice : simpl never.

(** ** Pages *)

(** storage/buffer_manager.rs, [PAGE_SIZE] *)
Definition PAGE_SIZE : nat := Z.to_nat 4096.

Lemma PAGE_SIZE_val : Z.of_nat PAGE_SIZE = 4096%Z.
Proof. reflexivity. Qed.

#[global] Opaque PAGE_SIZE.

Definition zero_page : list Z := replicate PAGE_SIZE 0%Z.
