(* ===== verification/Bitpacking.v ===== *)
(** * BitPacker: fixed-width packing of 64-bit values

    Models crates/lightning-core/src/storage/compression/bitpacking.rs:
    [write_bits]/[read_bits] with their two paths (a whole aligned 64-bit word,
    or byte by byte), and the block routines [pack_32]/[unpack_32].

    The specification of both paths is one statement about the bits of the
    buffer ([bit_at]): a write replaces exactly the bits
    [bit_offset, bit_offset + bit_width) that lie inside the buffer, a read
    returns exactly those bits.  The round trip of a block follows. *)
From stdpp Require Import base list list_numbers numbers.
From Stdlib Require Import ZArith Lia Bool.
From S2P Require Import Prelude.

(** ** Definitions *)

(** The byte-wise loop of [write_bits].  One iteration writes at least one
    bit, so [bit_width] units of fuel are enough ([write_bits_loop_bits]). *)
Fixpoint write_bits_loop (fuel : nat) (val : Z) (bit_width bit_offset bits_written : nat)
    (data : list Z) : list Z :=
  match fuel with
  | O => data
  | S fuel =>
      if decide (bits_written < bit_width) then
        let byte_idx := (bit_offset + bits_written) / 8 in
        if decide (length data ≤ byte_idx) then data
        else
          let bit_in_byte := (bit_offset + bits_written) mod 8 in
          let bits_to_write_in_byte := Nat.min (bit_width - bits_written) (8 - bit_in_byte) in
          let mask := u8_wrap (Z.shiftl 1 (Z.of_nat bits_to_write_in_byte) - 1) in
          let bits := u8_wrap (Z.land (Z.shiftr val (Z.of_nat bits_written)) mask) in
          let shifted_mask := u8_wrap (Z.shiftl mask (Z.of_nat bit_in_byte)) in
          let byte :=
            Z.lor (Z.land (byte_at data byte_idx) (u8_not shifted_mask))
                  (u8_wrap (Z.shiftl bits (Z.of_nat bit_in_byte))) in
          write_bits_loop fuel val bit_width bit_offset
            (bits_written + bits_to_write_in_byte) (<[byte_idx := byte]> data)
      else data
  end.

Definition write_bits (val : Z) (bit_width bit_offset : nat) (data : list Z) : list Z :=
  if decide (bit_width = 0 ∨ 64 ≤ bit_width ∨ data = []) then data
  else
    let word_idx := bit_offset / 64 in
    let bit_in_word := bit_offset mod 64 in
    if decide (bit_in_word + bit_width ≤ 64 ∧ word_idx * 8 + 8 ≤ length data) then
      let word := of_le (slice data (word_idx * 8) (word_idx * 8 + 8)) in
      let mask :=
        u64_wrap (Z.shiftl (Z.shiftl 1 (Z.of_nat bit_width) - 1) (Z.of_nat bit_in_word)) in
      let word' :=
        Z.lor (Z.land word (u64_not mask))
              (Z.land (u64_wrap (Z.shiftl val (Z.of_nat bit_in_word))) mask) in
      splice data (word_idx * 8) (to_le 8 word')
    else write_bits_loop bit_width val bit_width bit_offset 0 data.

(** The byte-wise loop of [read_bits]. *)
Fixpoint read_bits_loop (fuel : nat) (bit_width bit_offset : nat) (data : list Z)
    (bits_read : nat) (val : Z) : Z :=
  match fuel with
  | O => val
  | S fuel =>
      if decide (bits_read < bit_width) then
        let byte_idx := (bit_offset + bits_read) / 8 in
        if decide (length data ≤ byte_idx) then val
        else
          let bit_in_byte := (bit_offset + bits_read) mod 8 in
          let bits_to_read_in_byte := Nat.min (bit_width - bits_read) (8 - bit_in_byte) in
          let mask := u8_wrap (Z.shiftl 1 (Z.of_nat bits_to_read_in_byte) - 1) in
          let bits :=
            Z.land (Z.shiftr (byte_at data byte_idx) (Z.of_nat bit_in_byte)) mask in
          read_bits_loop fuel bit_width bit_offset data
            (bits_read + bits_to_read_in_byte)
            (Z.lor val (u64_wrap (Z.shiftl bits (Z.of_nat bits_read))))
      else val
  end.

Definition read_bits (bit_width bit_offset : nat) (data : list Z) : Z :=
  if decide (bit_width = 0 ∨ 64 ≤ bit_width ∨ data = []) then 0%Z
  else
    let word_idx := bit_offset / 64 in
    let bit_in_word := bit_offset mod 64 in
    if decide (bit_in_word + bit_width ≤ 64 ∧ word_idx * 8 + 8 ≤ length data) then
      let word := of_le (slice data (word_idx * 8) (word_idx * 8 + 8)) in
      let mask := (Z.shiftl 1 (Z.of_nat bit_width) - 1)%Z in
      Z.land (Z.shiftr word (Z.of_nat bit_in_word)) mask
    else read_bits_loop bit_width bit_width bit_offset data 0 0%Z.

(** [pack_32]: width 64 stores raw words, every other width packs bit by bit.
    [i] is the loop index, [bit_offset] the running bit position. *)
Fixpoint pack_raw (values : list Z) (i : nat) (output : list Z) : list Z :=
  match values with
  | [] => output
  | val :: values =>
      pack_raw values (i + 1)
        (if decide (i * 8 + 8 ≤ length output)
         then splice output (i * 8) (to_le 8 val) else output)
  end.

Fixpoint pack_bits (values : list Z) (bit_width bit_offset : nat) (output : list Z) : list Z :=
  match values with
  | [] => output
  | val :: values =>
      pack_bits values bit_width (bit_offset + bit_width)
        (write_bits val bit_width bit_offset output)
  end.

Definition pack_32 (values : list Z) (bit_width : nat) (output : list Z) : list Z :=
  if decide (bit_width = 0) then output
  else if decide (bit_width = 64) then pack_raw values 0 output
  else pack_bits values bit_width 0 output.

(** [unpack_32] fills [output] in place; a raw word that would reach past the
    end of [data] leaves its slot as it was. *)
Definition unpack_32 (data : list Z) (bit_width : nat) (output : list Z) : list Z :=
  if decide (bit_width = 0) then output
  else if decide (bit_width = 64) then
    imap (λ i v,
      if decide (i * 8 + 8 ≤ length data)
      then of_le (slice data (i * 8) (i * 8 + 8)) else v) output
  else imap (λ i _, read_bits bit_width (i * bit_width) data) output.

(** ** Bit-level specification of the writers and readers *)

(** The byte computed by one iteration of [write_bits_loop]. *)
Lemma merge_byte_bits b v (k n o : nat) j :
  is_u8 b → o + n ≤ 8 → (0 ≤ j < 8)%Z →
  Z.testbit
    (Z.lor (Z.land b (u8_not (u8_wrap (Z.shiftl
              (u8_wrap (Z.shiftl 1 (Z.of_nat n) - 1)) (Z.of_nat o)))))
           (u8_wrap (Z.shiftl (u8_wrap (Z.land (Z.shiftr v (Z.of_nat k))
              (u8_wrap (Z.shiftl 1 (Z.of_nat n) - 1)))) (Z.of_nat o)))) j
  = if decide (Z.of_nat o ≤ j < Z.of_nat o + Z.of_nat n)%Z
    then Z.testbit v (Z.of_nat k + (j - Z.of_nat o)) else Z.testbit b j.
Proof.
  intros Hb Hon Hj. unfold u8_wrap, u8_not.
  rewrite Z.lor_spec, Z.land_spec, Z.lxor_spec, testbit_pow_pred by lia.
  rewrite !(Z.mod_pow2_bits_low _ 8 j) by lia.
  rewrite !testbit_shiftl by lia.
  destruct (Z.leb_spec (Z.of_nat o) j) as [Ho|Ho]; simpl.
  - rewrite !(Z.mod_pow2_bits_low _ 8 (j - Z.of_nat o)) by lia.
    rewrite testbit_mask, Z.land_spec, Z.shiftr_spec by lia.
    rewrite !(Z.mod_pow2_bits_low _ 8 (j - Z.of_nat o)), testbit_mask by lia.
    rewrite (proj2 (Z.ltb_lt j 8)) by lia.
    destruct (Z.ltb_spec (j - Z.of_nat o) (Z.of_nat n)); case_decide; try lia; simpl;
      rewrite ?andb_false_r, ?andb_true_r, ?orb_false_r; simpl; try done.
    f_equal. lia.
  - rewrite (proj2 (Z.ltb_lt j 8)) by lia. case_decide; [lia|].
    by rewrite andb_true_r, orb_false_r.
Qed.

Lemma merge_byte_u8 b m c : is_u8 b → is_u8 (Z.lor (Z.land b m) (u8_wrap c)).
Proof.
  intros Hb. unfold is_u8, u8_wrap in *.
  assert (0 ≤ c mod 2 ^ 8 < 2 ^ 8)%Z by (apply Z.mod_pos_bound; lia).
  split.
  - apply Z.lor_nonneg. split; [|lia]. apply Z.land_nonneg. lia.
  - apply bits_bound; [lia| |].
    + apply Z.lor_nonneg. split; [|lia]. apply Z.land_nonneg. lia.
    + intros i Hi. rewrite Z.lor_spec, Z.land_spec.
      by rewrite (testbit_wrap_high b 8), (testbit_wrap_high (c mod 2 ^ 8) 8) by lia.
Qed.

Lemma bit_at_insert data q x i :
  q < length data →
  bit_at (<[q := x]> data) i =
  if decide (i / 8 = q) then Z.testbit x (Z.of_nat (i mod 8)) else bit_at data i.
Proof.
  intros Hq. unfold bit_at, byte_at. case_decide as E.
  - subst. by rewrite list_lookup_insert_eq.
  - by rewrite list_lookup_insert_ne by done.
Qed.

(** What a write does to the bits of the buffer: exactly the target bits that
    lie inside the buffer change. *)
Definition bits_written_spec (val : Z) (lo hi off : nat) (data data' : list Z) : Prop :=
  length data' = length data ∧ bytes_ok data' ∧
  ∀ i, bit_at data' i =
       if decide (lo ≤ i < hi ∧ i < 8 * length data)
       then Z.testbit val (Z.of_nat (i - off)) else bit_at data i.

Lemma write_bits_loop_bits fuel val bw off k data :
  bytes_ok data → bw - k ≤ fuel →
  bits_written_spec val (off + k) (off + bw) off data
    (write_bits_loop fuel val bw off k data).
Proof.
  revert k data. induction fuel as [|fuel IH]; intros k data Hok Hfuel; cbn [write_bits_loop].
  { split_and!; [done..|]. intros i. case_decide; [lia|done]. }
  case_decide as Hk; [|split_and!; [done..|intros i; case_decide; [lia|done]]].
  set (q := (off + k) / 8). set (o := (off + k) mod 8).
  assert (Hqo : off + k = 8 * q + o) by apply Nat.div_mod_eq.
  assert (Ho : o < 8) by (apply Nat.mod_upper_bound; lia).
  case_decide as Hq.
  { split_and!; [done..|]. intros i. case_decide; [lia|done]. }
  set (n := Nat.min (bw - k) (8 - o)).
  match goal with |- context [<[q := ?x]> data] => set (b' := x) end.
  assert (Hok' : bytes_ok (<[q := b']> data)).
  { apply Forall_insert; [done|]. apply merge_byte_u8, byte_at_range, Hok. }
  destruct (IH (k + n) (<[q := b']> data) Hok' ltac:(lia)) as (Hlen & Hb & Hbits).
  rewrite length_insert in Hlen, Hbits.
  split_and!; [done..|]. intros i. rewrite Hbits.
  rewrite bit_at_insert by lia.
  pose proof (Nat.div_mod_eq i 8) as Hi.
  pose proof (Nat.mod_upper_bound i 8 ltac:(lia)) as Hi8.
  case_decide; [case_decide; [done|lia]|].
  case_decide as Eq.
  - unfold b'. rewrite merge_byte_bits; [|apply byte_at_range, Hok|lia|lia].
    destruct (decide (off + k ≤ i < off + bw ∧ i < 8 * length data)).
    + rewrite decide_True by lia. f_equal. lia.
    + rewrite decide_False by lia. unfold bit_at. by rewrite Eq.
  - rewrite decide_False; [done|]. lia.
Qed.

(** The word computed by the aligned path of [write_bits]. *)
Lemma merge_word_bits w v (n o : nat) j :
  o + n ≤ 64 → (0 ≤ j < 64)%Z →
  Z.testbit
    (Z.lor (Z.land w (u64_not (u64_wrap (Z.shiftl
              (Z.shiftl 1 (Z.of_nat n) - 1) (Z.of_nat o)))))
           (Z.land (u64_wrap (Z.shiftl v (Z.of_nat o)))
              (u64_wrap (Z.shiftl (Z.shiftl 1 (Z.of_nat n) - 1) (Z.of_nat o))))) j
  = if decide (Z.of_nat o ≤ j < Z.of_nat o + Z.of_nat n)%Z
    then Z.testbit v (j - Z.of_nat o) else Z.testbit w j.
Proof.
  intros Hon Hj. unfold u64_wrap, u64_not.
  rewrite Z.lor_spec, !Z.land_spec, Z.lxor_spec, testbit_pow_pred by lia.
  rewrite !(Z.mod_pow2_bits_low _ 64 j) by lia. rewrite !testbit_shiftl by lia.
  rewrite (proj2 (Z.ltb_lt j 64)) by lia.
  destruct (Z.leb_spec (Z.of_nat o) j) as [Ho|Ho]; simpl.
  - rewrite testbit_mask by lia.
    destruct (Z.ltb_spec (j - Z.of_nat o) (Z.of_nat n)); case_decide; try lia; simpl;
      by rewrite ?andb_false_r, ?andb_true_r, ?orb_false_r.
  - case_decide; [lia|]. by rewrite andb_true_r, orb_false_r.
Qed.

Lemma write_bits_bits val bw off data :
  bytes_ok data → bw < 64 →
  bits_written_spec val off (off + bw) off data (write_bits val bw off data).
Proof.
  intros Hok Hbw. unfold write_bits. case_decide as H0.
  { split_and!; [done..|]. intros i. case_decide as Hi; [|done].
    destruct H0 as [?|[?| ->]]; simpl in *; lia. }
  case_decide as Hw.
  - set (w := off / 64) in *. set (o := off mod 64) in *.
    assert (Hoff : off = 64 * w + o) by apply Nat.div_mod_eq.
    match goal with |- context [to_le 8 ?x] => set (word' := x) end.
    assert (Hl : w * 8 + length (to_le 8 word') ≤ length data) by (rewrite length_to_le; lia).
    split_and!; [by apply length_splice|apply bytes_ok_splice; [done|apply to_le_bytes_ok]|].
    intros i. destruct (decide (8 * (w * 8) ≤ i < 8 * (w * 8 + 8))) as [Hi|Hi].
    + rewrite bit_at_splice_in by (rewrite ?length_to_le in *; lia).
      rewrite bit_at_to_le, (proj2 (Nat.ltb_lt _ _)), andb_true_l by lia.
      unfold word'. rewrite merge_word_bits by lia.
      destruct (decide (off ≤ i < off + bw ∧ i < 8 * length data)).
      * rewrite decide_True by lia. f_equal. lia.
      * rewrite decide_False by lia. rewrite testbit_of_le by by apply bytes_ok_slice.
        rewrite bit_at_slice by lia. f_equal. lia.
    + rewrite bit_at_splice_out by (rewrite ?length_to_le in *; lia).
      rewrite decide_False by lia. done.
  - pose proof (write_bits_loop_bits bw val bw off 0 data Hok ltac:(lia)) as H.
    by rewrite Nat.add_0_r in H.
Qed.

(** Reading: bit [j] of the result is bit [off + j] of the buffer (zero past
    its end), and no bit at or above the width is set. *)
Lemma read_bits_loop_bits fuel bw off data k val j :
  bytes_ok data → bw - k ≤ fuel → bw < 64 → (0 ≤ j)%Z →
  Z.testbit (read_bits_loop fuel bw off data k val) j =
  Z.testbit val j || (bool_decide (Z.of_nat k ≤ j < Z.of_nat bw)%Z && bit_at data (off + Z.to_nat j)).
Proof.
  revert k val. induction fuel as [|fuel IH]; intros k val Hok Hfuel Hbw Hj;
    cbn [read_bits_loop].
  { by rewrite bool_decide_false, andb_false_l, orb_false_r by lia. }
  destruct (decide (k < bw)) as [Hk|Hk]; [|by rewrite bool_decide_false, andb_false_l, orb_false_r by lia].
  set (q := (off + k) / 8). set (o := (off + k) mod 8).
  assert (Hqo : off + k = 8 * q + o) by apply Nat.div_mod_eq.
  assert (Ho : o < 8) by (apply Nat.mod_upper_bound; lia).
  destruct (decide (length data ≤ q)) as [Hq|Hq].
  { destruct (decide (Z.of_nat k ≤ j < Z.of_nat bw)%Z).
    - rewrite bit_at_beyond by lia. by rewrite andb_false_r, orb_false_r.
    - by rewrite bool_decide_false, andb_false_l, orb_false_r by lia. }
  set (n := Nat.min (bw - k) (8 - o)).
  rewrite IH by (done || lia). rewrite Z.lor_spec. unfold u64_wrap, u8_wrap.
  rewrite <- orb_assoc. f_equal.
  destruct (decide (j < 64)%Z) as [Hj64|Hj64].
  - rewrite Z.mod_pow2_bits_low, testbit_shiftl by lia.
    destruct (Z.leb_spec (Z.of_nat k) j) as [Hkj|Hkj]; simpl;
      [|by rewrite !bool_decide_false by lia].
    rewrite Z.land_spec, Z.shiftr_spec by lia.
    destruct (decide (j - Z.of_nat k < 8)%Z) as [H8|H8].
    + rewrite (Z.mod_pow2_bits_low _ 8), testbit_mask by lia.
      destruct (Z.ltb_spec (j - Z.of_nat k) (Z.of_nat n)) as [Hn|Hn].
      * rewrite bool_decide_false, bool_decide_true by lia. simpl.
        rewrite orb_false_r, andb_true_r. unfold bit_at.
        replace (off + Z.to_nat j) with ((o + Z.to_nat (j - Z.of_nat k)) + q * 8) by lia.
        rewrite Nat.div_add, Nat.Div0.mod_add by lia.
        rewrite Nat.div_small, Nat.mod_small by lia. f_equal. lia.
      * rewrite andb_false_r. simpl. f_equal. apply bool_decide_ext. lia.
    + rewrite (Z.mod_pow2_bits_high _ 8) by lia. rewrite andb_false_r. simpl.
      f_equal. apply bool_decide_ext. lia.
  - rewrite Z.mod_pow2_bits_high by lia. simpl.
    by rewrite !bool_decide_false by lia.
Qed.

Lemma read_bits_bits bw off data j :
  bytes_ok data → bw < 64 → (0 ≤ j)%Z →
  Z.testbit (read_bits bw off data) j =
  bool_decide (j < Z.of_nat bw)%Z && bit_at data (off + Z.to_nat j).
Proof.
  intros Hok Hbw Hj. unfold read_bits.
  destruct (decide (bw = 0 ∨ 64 ≤ bw ∨ data = [])) as [H0|H0].
  { rewrite Z.testbit_0_l. destruct H0 as [->|[?| ->]]; [|lia|].
    - by rewrite bool_decide_false by lia.
    - rewrite bit_at_beyond by (simpl; lia). by rewrite andb_false_r. }
  destruct (decide (off mod 64 + bw ≤ 64 ∧ off / 64 * 8 + 8 ≤ length data)) as [Hw|Hw].
  - set (w := off / 64) in *. set (o := off mod 64) in *.
    assert (Hoff : off = 64 * w + o) by apply Nat.div_mod_eq.
    rewrite Z.land_spec, Z.shiftr_spec, testbit_mask by lia.
    destruct (Z.ltb_spec j (Z.of_nat bw)) as [Hlt|Hlt].
    + rewrite bool_decide_true by lia. rewrite andb_true_r. simpl.
      replace (j + Z.of_nat o)%Z with (Z.of_nat (Z.to_nat j + o)) by lia.
      rewrite testbit_of_le by by apply bytes_ok_slice.
      rewrite bit_at_slice by lia. f_equal. lia.
    + rewrite bool_decide_false by lia. apply andb_false_r.
  - rewrite read_bits_loop_bits by (done || lia). rewrite Z.testbit_0_l. simpl.
    f_equal. apply bool_decide_ext. lia.
Qed.

Lemma read_bits_loop_nonneg fuel bw off data k val :
  bytes_ok data → (0 ≤ val)%Z → (0 ≤ read_bits_loop fuel bw off data k val)%Z.
Proof.
  intros Hok. revert k val. induction fuel as [|fuel IH]; intros k val Hv;
    cbn [read_bits_loop]; [done|].
  case_decide; [|done]. case_decide; [done|]. apply IH.
  apply Z.lor_nonneg. split; [done|]. unfold u64_wrap. apply Z.mod_pos_bound. lia.
Qed.

Lemma read_bits_nonneg bw off data : bytes_ok data → (0 ≤ read_bits bw off data)%Z.
Proof.
  intros Hok. unfold read_bits. case_decide; [lia|]. case_decide.
  - apply Z.land_nonneg. right. rewrite Z.shiftl_1_l.
    pose proof (Z.pow_pos_nonneg 2 (Z.of_nat bw) ltac:(lia) ltac:(lia)). lia.
  - by apply read_bits_loop_nonneg.
Qed.

(** ** Blocks *)

(** [holds_block data bw values]: the buffer stores [values] from bit 0, each
    in [bw] bits.  Both block writers establish it, both block readers need
    nothing else of the buffer. *)
Definition holds_block (data : list Z) (bw : nat) (values : list Z) : Prop :=
  bytes_ok data ∧ length values * bw ≤ 8 * length data ∧
  ∀ k v j, values !! k = Some v → j < bw →
    bit_at data (k * bw + j) = Z.testbit v (Z.of_nat j).

Lemma pack_raw_length values i output :
  length (pack_raw values i output) = length output.
Proof.
  revert i output. induction values as [|v values IH]; intros i output; cbn [pack_raw]; [done|].
  rewrite IH. case_decide; [|done]. apply length_splice. by rewrite length_to_le.
Qed.

Lemma pack_raw_bits values i output :
  bytes_ok output → (i + length values) * 8 ≤ length output →
  bytes_ok (pack_raw values i output) ∧
  (∀ b, b < 64 * i → bit_at (pack_raw values i output) b = bit_at output b) ∧
  (∀ k v j, values !! k = Some v → j < 64 →
     bit_at (pack_raw values i output) ((i + k) * 64 + j) = Z.testbit v (Z.of_nat j)).
Proof.
  revert i output. induction values as [|v values IH]; intros i output Hok Hlen; cbn [pack_raw].
  { split_and!; [done..|]. intros k v j H. by rewrite lookup_nil in H. }
  simpl in Hlen. rewrite decide_True by lia.
  assert (Hl : i * 8 + length (to_le 8 v) ≤ length output) by (rewrite length_to_le; lia).
  destruct (IH (i + 1) (splice output (i * 8) (to_le 8 v))) as (Hok' & Hlow & Hvals).
  { apply bytes_ok_splice; [done|apply to_le_bytes_ok]. }
  { rewrite length_splice by done. lia. }
  split_and!; [done| |].
  - intros b Hb. rewrite Hlow by lia. apply bit_at_splice_out; [done|lia].
  - intros [|k] w j Hk Hj; simpl in Hk; simplify_eq.
    + rewrite Hlow by lia. rewrite bit_at_splice_in by (rewrite ?length_to_le in *; lia).
      rewrite bit_at_to_le, (proj2 (Nat.ltb_lt _ _)), andb_true_l by lia. do 2 f_equal. lia.
    + replace (i + S k) with (i + 1 + k) by lia. by apply Hvals.
Qed.

Lemma pack_bits_length values bw off output :
  bytes_ok output → bw < 64 → length (pack_bits values bw off output) = length output.
Proof.
  revert off output. induction values as [|v values IH]; intros off output Hok Hbw;
    cbn [pack_bits]; [done|].
  destruct (write_bits_bits v bw off output Hok Hbw) as (Hl & Hok' & _).
  by rewrite IH, Hl.
Qed.

Lemma pack_bits_bits values bw off output :
  bytes_ok output → bw < 64 → off + length values * bw ≤ 8 * length output →
  bytes_ok (pack_bits values bw off output) ∧
  (∀ b, b < off → bit_at (pack_bits values bw off output) b = bit_at output b) ∧
  (∀ k v j, values !! k = Some v → j < bw →
     bit_at (pack_bits values bw off output) (off + k * bw + j) = Z.testbit v (Z.of_nat j)).
Proof.
  revert off output. induction values as [|v values IH]; intros off output Hok Hbw Hlen;
    cbn [pack_bits].
  { split_and!; [done..|]. intros k v j H. by rewrite lookup_nil in H. }
  simpl in Hlen.
  destruct (write_bits_bits v bw off output Hok Hbw) as (Hl & Hok' & Hbits).
  destruct (IH (off + bw) (write_bits v bw off output) Hok' Hbw) as (Hok2 & Hlow & Hvals).
  { rewrite Hl. lia. }
  split_and!; [done| |].
  - intros b Hb. rewrite Hlow, Hbits by lia. rewrite decide_False by lia. done.
  - intros [|k] w j Hk Hj; simpl in Hk; simplify_eq.
    + rewrite Hlow, Hbits by lia. rewrite decide_True by lia. do 2 f_equal. lia.
    + replace (off + S k * bw + j) with (off + bw + k * bw + j) by lia. by apply Hvals.
Qed.

Lemma pack_32_length values bw output :
  bytes_ok output → bw ≤ 64 → length (pack_32 values bw output) = length output.
Proof.
  intros Hok Hbw. unfold pack_32. do 2 (case_decide; [try done; by rewrite pack_raw_length|]).
  apply pack_bits_length; [done|lia].
Qed.

Lemma pack_32_holds values bw output :
  bytes_ok output → 0 < bw ≤ 64 → length values * bw ≤ 8 * length output →
  holds_block (pack_32 values bw output) bw values.
Proof.
  intros Hok Hbw Hlen. unfold holds_block. rewrite pack_32_length by (done || lia).
  unfold pack_32. rewrite decide_False by lia. case_decide as H64.
  - subst. destruct (pack_raw_bits values 0 output Hok ltac:(lia)) as (H1 & _ & H3).
    split_and!; [done|done|]. intros k v j Hk Hj. by rewrite <- (H3 k v j Hk Hj).
  - destruct (pack_bits_bits values bw 0 output Hok ltac:(lia) Hlen) as (H1 & _ & H3).
    split_and!; [done|done|]. intros k v j Hk Hj. by rewrite <- (H3 k v j Hk Hj).
Qed.

(** The prefix of the buffer that holds the block is enough. *)
Lemma holds_block_take data bw values n :
  holds_block data bw values → length values * bw ≤ 8 * n → n ≤ length data →
  holds_block (take n data) bw values.
Proof.
  intros (Hok & Hlen & Hbits) Hn Hn'. split_and!.
  - by apply Forall_take.
  - rewrite length_take. lia.
  - intros k v j Hk Hj. rewrite <- (Hbits k v j Hk Hj).
    change (take n data) with (take n (drop 0 data)).
    replace (take n (drop 0 data)) with (slice data 0 n)
      by (unfold slice; by rewrite Nat.sub_0_r).
    apply lookup_lt_Some in Hk. rewrite bit_at_slice; [done|].
    assert ((k + 1) * bw ≤ length values * bw) by (apply Nat.mul_le_mono_r; lia). lia.
Qed.

Lemma unpack_32_holds data bw values output :
  holds_block data bw values → 0 < bw ≤ 64 → length output = length values →
  unpack_32 data bw output = map (λ v, v mod 2 ^ Z.of_nat bw)%Z values.
Proof.
  intros (Hok & Hlen & Hbits) Hbw Hout. apply list_eq_same_length with (length values).
  { by rewrite length_map. }
  { unfold unpack_32. rewrite decide_False by lia. case_decide; by rewrite length_imap. }
  intros k x y Hk Hx Hy.
  rewrite list_lookup_fmap in Hy.
  destruct (values !! k) as [v|] eqn:Hv; simplify_eq/=.
  assert ((k + 1) * bw ≤ length values * bw) by (apply Nat.mul_le_mono_r; lia).
  assert (Hb : (0 ≤ v mod 2 ^ Z.of_nat bw < 2 ^ Z.of_nat bw)%Z)
    by (apply Z.mod_pos_bound, Z.pow_pos_nonneg; lia).
  revert Hx. unfold unpack_32. rewrite decide_False by lia. case_decide as H64.
  - subst. rewrite list_lookup_imap. destruct (output !! k); simpl; [|done].
    rewrite decide_True by lia. intros [= <-].
    pose proof (bytes_ok_slice data (k * 8) (k * 8 + 8) Hok) as Hsl.
    pose proof (of_le_bound _ Hsl) as Hbound.
    rewrite length_slice in Hbound by lia.
    replace (k * 8 + 8 - k * 8) with 8 in Hbound by lia.
    apply (bits_eq 64); [lia|exact Hbound|exact Hb|]. intros i Hi.
    replace i with (Z.of_nat (Z.to_nat i)) by lia.
    rewrite testbit_of_le, bit_at_slice by (done || lia).
    replace (8 * (k * 8) + Z.to_nat i) with (k * 64 + Z.to_nat i) by lia.
    rewrite (Hbits k v (Z.to_nat i) Hv) by lia. by rewrite Z.mod_pow2_bits_low by lia.
  - rewrite list_lookup_imap. destruct (output !! k); simpl; [|done]. intros [= <-].
    apply Z.bits_inj'. intros i Hi. rewrite read_bits_bits by (done || lia).
    destruct (decide (i < Z.of_nat bw)%Z).
    + rewrite bool_decide_true, andb_true_l by done.
      rewrite (Hbits k v _ Hv) by lia. rewrite Z.mod_pow2_bits_low by lia. f_equal. lia.
    + rewrite bool_decide_false by done. by rewrite Z.mod_pow2_bits_high by lia.
Qed.

Lemma holds_block_extend page bw values n :
  bytes_ok page → holds_block (take n page) bw values → holds_block page bw values.
Proof.
  intros Hok (Hok' & Hlen & Hbits). rewrite length_take in Hlen. split_and!; [done|lia|].
  intros k v j Hk Hj. rewrite <- (Hbits k v j Hk Hj).
  replace (take n page) with (slice page 0 n) by (unfold slice; by rewrite Nat.sub_0_r).
  apply lookup_lt_Some in Hk. rewrite bit_at_slice; [done|].
  assert ((k + 1) * bw ≤ length values * bw) by (apply Nat.mul_le_mono_r; lia). lia.
Qed.

(** ** Properties *)

(** C35. Packing a block of 32 values at any width from 1 to 64 bits and
    unpacking the compressed prefix of the buffer gives the values back,
    whatever the buffer held before. *)
Theorem pack_unpack_roundtrip (values : list Z) (bw : nat) (output : list Z) :
  length values = 32 → bytes_ok output → 0 < bw ≤ 64 →
  (32 * bw + 7) / 8 ≤ length output →
  Forall (λ v, 0 ≤ v < 2 ^ Z.of_nat bw)%Z values →
  unpack_32 (take ((32 * bw + 7) / 8) (pack_32 values bw output)) bw (replicate 32 0%Z) = values.
Proof.
  intros Hlen Hok Hbw Hout Hvals.
  assert (32 * bw ≤ 8 * ((32 * bw + 7) / 8)).
  { pose proof (Nat.div_mod_eq (32 * bw + 7) 8).
    pose proof (Nat.mod_upper_bound (32 * bw + 7) 8). lia. }
  rewrite (unpack_32_holds _ bw values); [| |done|by rewrite length_replicate, Hlen].
  - transitivity (map id values); [|apply map_id]. apply list_fmap_ext. intros i v Hi.
    apply Z.mod_small. apply (Forall_lookup_1 _ _ _ _ Hvals Hi).
  - apply holds_block_take; [|lia|by rewrite pack_32_length by (done || lia)].
    apply pack_32_holds; [done..|lia].
Qed.

Lemma pack_unpack_roundtrip_witness :
  unpack_32 (take 20 (pack_32 (map Z.of_nat (seq 0 32)) 5 (replicate 40 255%Z))) 5
    (replicate 32 0%Z) = map Z.of_nat (seq 0 32).
Proof.
  apply (pack_unpack_roundtrip (map Z.of_nat (seq 0 32)) 5 (replicate 40 255%Z));
    [reflexivity|by_compute|lia|vm_compute; lia|by_compute].
Defined.

(** [write_bits] is a bit-exact store: it keeps the buffer length, changes
    exactly the addressed bits that lie inside the buffer, and what it stored
    is what [read_bits] returns; bits past the end of the buffer are dropped
    by the writer and read back as zero. *)
Theorem write_bits_store (val : Z) (bw off : nat) (data : list Z) :
  bytes_ok data → bw < 64 →
  length (write_bits val bw off data) = length data ∧
  (∀ i, i < off ∨ off + bw ≤ i → bit_at (write_bits val bw off data) i = bit_at data i) ∧
  (off + bw ≤ 8 * length data →
   read_bits bw off (write_bits val bw off data) = (val mod 2 ^ Z.of_nat bw)%Z) ∧
  (8 * length data ≤ off → write_bits val bw off data = data ∧ read_bits bw off data = 0%Z).
Proof.
  intros Hok Hbw. destruct (write_bits_bits val bw off data Hok Hbw) as (Hl & Hok' & Hb).
  split_and!; [done|..].
  - intros i Hi. rewrite Hb. rewrite decide_False; [done|lia].
  - intros Hfit. apply Z.bits_inj'. intros j Hj. rewrite read_bits_bits by done.
    destruct (decide (j < Z.of_nat bw)%Z).
    + rewrite bool_decide_true, Hb, decide_True by lia.
      rewrite Z.mod_pow2_bits_low by lia. simpl. f_equal. lia.
    + rewrite bool_decide_false by lia. by rewrite Z.mod_pow2_bits_high by lia.
  - intros Hout. split.
    + apply bytes_eq_bits; [done..|]. intros i Hi. rewrite Hb. by rewrite decide_False by lia.
    + apply Z.bits_inj'. intros j Hj. rewrite read_bits_bits by done.
      rewrite bit_at_beyond by lia. by rewrite andb_false_r, Z.testbit_0_l.
Qed.

Lemma write_bits_store_witness :
  read_bits 13 60 (write_bits 5000 13 60 (replicate 16 170%Z)) = (5000 mod 2 ^ 13)%Z.
Proof.
  apply (write_bits_store 5000 13 60 (replicate 16 170%Z)); [by_compute|lia|simpl; lia].
Defined.
