(* ===== verification/Codec.v ===== *)
(** * Column values and the compression interface

    Models processor/mod.rs ([enum Value], [to_le_bytes]) and
    storage/compression/mod.rs ([CompressionType], [CompressionMetadata], the
    trait [CompressionAlg] and its two trivial implementations).

    The trait becomes the class [CompressionAlg]; what the column layer relies
    on when it stores a block through a codec and reads single values back is
    the class [LosslessCodec].  The codecs of Codecs.v discharge it. *)
From stdpp Require Import base list list_numbers numbers.
From Stdlib Require Import ZArith Lia Bool.
From S2P Require Import Prelude.

(** ** IEEE binary64 values, kept as their 64-bit pattern *)

Definition f64_sign (b : Z) : Z := Z.shiftr b 63.
Definition f64_exp (b : Z) : Z := Z.land (Z.shiftr b 52) 2047.
Definition f64_frac (b : Z) : Z := Z.land b (2 ^ 52 - 1).

(** [x as i64]: truncation toward zero, saturating, NaN becomes 0. *)
Definition f64_as_i64 (b : Z) : Z :=
  if decide (f64_exp b = 2047)%Z then
    if decide (f64_frac b = 0)%Z
    then (if decide (f64_sign b = 0)%Z then i64_MAX else i64_MIN)
    else 0%Z
  else
    let m := if decide (f64_exp b = 0)%Z then f64_frac b else (f64_frac b + 2 ^ 52)%Z in
    let e := ((if decide (f64_exp b = 0)%Z then 1 else f64_exp b) - 1075)%Z in
    let mag := if decide (0 ≤ e)%Z then Z.shiftl m e else Z.shiftr m (- e) in
    let z := if decide (f64_sign b = 0)%Z then mag else (- mag)%Z in
    Z.max i64_MIN (Z.min i64_MAX z).

(** ** Values *)

(** processor/mod.rs, [enum Value].  A string is its UTF-8 bytes, a number its
    bit pattern, a map its list of entries. *)
Inductive Value :=
| VString (s : list Z)
| VNumber (bits : Z)
| VBoolean (b : bool)
| VNull
| VNode (id : Z)
| VRelationship (id : Z)
| VPath (l : list Value)
| VDate (d : Z)
| VTimestamp (t : Z)
| VList (l : list Value)
| VStruct (l : list (list Z * Value))
| VMap (l : list (Value * Value)).

(** [Value::to_le_bytes]: the fixed-size storage image of a value. *)
Definition value_to_le_bytes (v : Value) : list Z :=
  match v with
  | VString s =>
      let len := Nat.min (length s) 64 in
      splice (replicate 64 0%Z) 0 (take len s)
  | VNumber n => to_le 8 n
  | VBoolean b => [if b then 1%Z else 0%Z]
  | VNull => replicate 8 0%Z
  | VNode id | VRelationship id => to_le 8 id
  | VDate d => to_le 4 d
  | VTimestamp t => to_le 8 t
  | _ => replicate 8 0%Z
  end.

(** ** Compression metadata *)

Inductive CompressionType :=
| Uncompressed
| IntegerBitpacking
| BooleanBitpacking
| Constant
| Alp
| FixedFrameOfReference
| Rle
| Dict.

#[global] Instance CompressionType_eq_dec : EqDecision CompressionType.
Proof. solve_decision. Defined.

Record CompressionMetadata := mkMeta {
  meta_min : Value;
  meta_max : Value;
  meta_compression : CompressionType;
  meta_bit_width : nat;
}.

(** ** The trait

    [compress_next_page src n dst meta] returns the written [dst] with the
    pair (compressed size, values processed); [decompress_from_page src
    src_offset dst dst_offset n meta] returns the written [dst].  Offsets of
    the decompressor count values. *)
Class CompressionAlg (C : Type) := {
  get_compression_type : C → CompressionType;
  compress_next_page :
    C → list Z → nat → list Z → CompressionMetadata → outcome (list Z * (nat * nat));
  decompress_from_page :
    C → list Z → nat → list Z → nat → nat → CompressionMetadata → outcome (list Z);
}.

(** A block of [n] values of [es] bytes is stored losslessly: compression
    succeeds and takes the whole block, and from every page that starts with
    the compressed bytes each range of values is read back exactly, without
    touching the rest of the output. *)
Definition lossless_block {C} `{CompressionAlg C} (c : C) (meta : CompressionMetadata)
    (es : nat) (src : list Z) (n : nat) (dst : list Z) : Prop :=
  ∃ dst' size,
    compress_next_page c src n dst meta = Ok (dst', (size, n)) ∧
    length dst' = length dst ∧ bytes_ok dst' ∧ size ≤ length dst ∧
    ∀ page off cnt out dof,
      bytes_ok page → size ≤ length page → take size page = take size dst' →
      off + cnt ≤ n → (dof + cnt) * es ≤ length out →
      decompress_from_page c page off out dof cnt meta =
      Ok (splice out (dof * es) (slice src (off * es) ((off + cnt) * es))).

(** What a codec promises to its clients: blocks it declares admissible are
    stored losslessly. *)
Class LosslessCodec (C : Type) `{CompressionAlg C} := {
  codec_es : C → CompressionMetadata → nat;
  codec_admissible : C → CompressionMetadata → list Z → nat → list Z → Prop;
  codec_lossless : ∀ c meta src n dst,
    bytes_ok src → bytes_ok dst → codec_admissible c meta src n dst →
    lossless_block c meta (codec_es c meta) src n dst;
}.

(** ** The write loop shared by every decompressor *)

(** Writing [n] chunks of [es] bytes at consecutive positions, chunk [i] being
    the [i]-th of a source range, is one splice of the whole range. *)
Lemma for_range_write_chunks (chunk : nat → list Z) (src out : list Z) n off dof es
    (body : nat → list Z → outcome (list Z)) :
  (∀ i o, i < n → length o = length out →
     body i o = write_at o ((dof + i) * es) (chunk i)) →
  (∀ i, i < n → chunk i = slice src ((off + i) * es) ((off + i) * es + es)) →
  (off + n) * es ≤ length src → (dof + n) * es ≤ length out →
  for_range n 0 body out =
  Ok (splice out (dof * es) (slice src (off * es) ((off + n) * es))).
Proof.
  intros Hbody Hchunk Hsrc Hout.
  destruct (for_range_ind
    (λ k o, o = splice out (dof * es) (slice src (off * es) ((off + k) * es)))
    body n 0 out) as (o & E & ->).
  - unfold splice, slice. rewrite Nat.add_0_r, Nat.sub_diag. simpl.
    by rewrite Nat.add_0_r, take_drop.
  - intros k o Hk ->.
    assert (Hlen : length (slice src (off * es) ((off + k) * es)) = k * es).
    { rewrite length_slice; [lia|]. nia. }
    assert (Hfit : dof * es + k * es ≤ length out) by nia.
    eexists. split; [|reflexivity].
    rewrite Hbody, (Hchunk (0 + k)) by (rewrite ?length_splice; rewrite ?Hlen; lia).
    rewrite write_at_ok.
    2: { rewrite length_splice, length_slice by (rewrite ?Hlen; nia). nia. }
    f_equal. apply list_eq. intros i.
    assert (Hl1 : length (slice src ((off + (0 + k)) * es) ((off + (0 + k)) * es + es)) = es).
    { rewrite length_slice; [lia|nia]. }
    assert (Hl2 : length (slice src (off * es) ((off + (k + 1)) * es)) = (k + 1) * es).
    { rewrite length_slice; [lia|nia]. }
    destruct (decide (dof * es ≤ i < (dof + k + 1) * es)) as [Hi|Hi].
    + rewrite (lookup_splice_in out) by (rewrite ?Hl2; nia).
      rewrite lookup_slice by nia.
      destruct (decide (i < (dof + k) * es)).
      * rewrite lookup_splice_out; [|rewrite length_splice, Hl1; rewrite ?Hlen; nia|nia].
        rewrite lookup_splice_in by (rewrite ?Hlen; nia). by rewrite lookup_slice by nia.
      * rewrite lookup_splice_in; [|rewrite length_splice, Hl1; rewrite ?Hlen; nia|nia].
        rewrite lookup_slice by nia. f_equal. nia.
    + rewrite !lookup_splice_out; [done|..]; rewrite ?length_splice, ?Hl1, ?Hl2, ?Hlen; nia.
  - by rewrite E.
Qed.
