(* ===== verification/Codecs.v ===== *)
(** * The compression codecs

    Models storage/compression/mod.rs ([Uncompressed], [ConstantCompression]),
    integer_bitpacking.rs, delta.rs, rle.rs and dict.rs.  Every codec is an
    instance of [CompressionAlg] and, for the blocks it can represent, of
    [LosslessCodec]. *)
From stdpp Require Import base list list_numbers numbers gmap.
From Stdlib Require Import ZArith Lia Bool.
From S2P Require Import Prelude Bitpacking Codec.

(** ** Uncompressed *)

Record UncompressedAlg := mkUncompressed { uc_element_size : nat }.

Definition uncompressed_compress (c : UncompressedAlg) (src : list Z)
    (num_values_remaining : nat) (dst : list Z) (_ : CompressionMetadata)
    : outcome (list Z * (nat * nat)) :=
  if decide (uc_element_size c = 0) then Panic (* division by zero *)
  else
    let values_to_copy := Nat.min num_values_remaining (length dst / uc_element_size c) in
    let size_to_copy := values_to_copy * uc_element_size c in
    if decide (length src < size_to_copy) then Err Internal
    else
      let* part := slice_get src 0 size_to_copy in
      let* dst' := write_at dst 0 part in
      Ok (dst', (size_to_copy, values_to_copy)).

Definition uncompressed_decompress (c : UncompressedAlg) (src : list Z) (src_offset : nat)
    (dst : list Z) (dst_offset num_values : nat) (_ : CompressionMetadata)
    : outcome (list Z) :=
  let src_start := src_offset * uc_element_size c in
  let dst_start := dst_offset * uc_element_size c in
  let size := num_values * uc_element_size c in
  if decide (length src < src_start + size) then Err Internal
  else if decide (length dst < dst_start + size) then Err Internal
  else
    let* part := slice_get src src_start (src_start + size) in
    write_at dst dst_start part.

#[export] Instance uncompressed_alg : CompressionAlg UncompressedAlg := {|
  get_compression_type _ := Uncompressed;
  compress_next_page := uncompressed_compress;
  decompress_from_page := uncompressed_decompress;
|}.

(** ** Constant *)

Record ConstantAlg := mkConstant {}.

Definition constant_compress (_ : ConstantAlg) (_ : list Z) (num_values_remaining : nat)
    (dst : list Z) (_ : CompressionMetadata) : outcome (list Z * (nat * nat)) :=
  Ok (dst, (0, num_values_remaining)).

Definition constant_decompress (_ : ConstantAlg) (_ : list Z) (_ : nat)
    (dst : list Z) (dst_offset num_values : nat) (meta : CompressionMetadata)
    : outcome (list Z) :=
  let val_bytes := value_to_le_bytes (meta_min meta) in
  let element_size := length val_bytes in
  for_range num_values 0
    (λ i dst, write_at dst ((dst_offset + i) * element_size) val_bytes) dst.

#[export] Instance constant_alg : CompressionAlg ConstantAlg := {|
  get_compression_type _ := Constant;
  compress_next_page := constant_compress;
  decompress_from_page := constant_decompress;
|}.

(** ** Integer bit-packing *)

Record IntegerBitpackingAlg := mkIntegerBitpacking {}.

(** The 32 slots are filled from [src] whatever the number of values left, so
    a source of fewer than 256 bytes aborts. *)
Fixpoint read_u64s (n i : nat) (src : list Z) : outcome (list Z) :=
  match n with
  | O => Ok []
  | S n =>
      let* b := slice_get src (i * 8) (i * 8 + 8) in
      let* r := read_u64s n (i + 1) src in
      Ok (of_le b :: r)
  end.

Definition bitpack_compressed_size (bit_width : nat) : nat := (32 * bit_width + 7) / 8.

Definition int_bitpack_compress (_ : IntegerBitpackingAlg) (src : list Z)
    (num_values_remaining : nat) (dst : list Z) (meta : CompressionMetadata)
    : outcome (list Z * (nat * nat)) :=
  let bit_width := meta_bit_width meta in
  if decide (bit_width = 0) then Ok (dst, (0, num_values_remaining))
  else
    let num_values_to_compress := Nat.min num_values_remaining 32 in
    let* values := read_u64s 32 0 src in
    let dst' := pack_32 values bit_width dst in
    Ok (dst', (bitpack_compressed_size bit_width, num_values_to_compress)).

Definition int_bitpack_decompress (_ : IntegerBitpackingAlg) (src : list Z) (src_offset : nat)
    (dst : list Z) (dst_offset num_values : nat) (meta : CompressionMetadata)
    : outcome (list Z) :=
  let bit_width := meta_bit_width meta in
  if decide (bit_width = 0) then
    for_range num_values 0
      (λ i dst, write_at dst ((dst_offset + i) * 8) (replicate 8 0%Z)) dst
  else
    let values := unpack_32 src bit_width (replicate 32 0%Z) in
    for_range num_values 0
      (λ i dst,
         let val_idx := (src_offset + i) mod 32 in
         write_at dst ((dst_offset + i) * 8) (to_le 8 (word_at values val_idx))) dst.

#[export] Instance int_bitpack_alg : CompressionAlg IntegerBitpackingAlg := {|
  get_compression_type _ := IntegerBitpacking;
  compress_next_page := int_bitpack_compress;
  decompress_from_page := int_bitpack_decompress;
|}.

(** ** Frame of reference *)

Record FixedFrameOfReferenceAlg := mkFrameOfReference {}.

Definition for_min (meta : CompressionMetadata) : Z :=
  match meta_min meta with
  | VNode v => u64_as_i64 v
  | VNumber n => f64_as_i64 n
  | _ => 0%Z
  end.

(** [val.checked_sub(min).unwrap_or(0) as u64] *)
Definition for_delta (val min : Z) : Z :=
  if decide (i64_MIN ≤ val - min ≤ i64_MAX)%Z then u64_wrap (val - min) else 0%Z.

Fixpoint read_deltas (n i : nat) (src : list Z) (min : Z) : outcome (list Z) :=
  match n with
  | O => Ok []
  | S n =>
      if decide (length src < i * 8 + 8) then Err Internal
      else
        let* b := slice_get src (i * 8) (i * 8 + 8) in
        let* r := read_deltas n (i + 1) src min in
        Ok (for_delta (u64_as_i64 (of_le b)) min :: r)
  end.

Definition for_compress (_ : FixedFrameOfReferenceAlg) (src : list Z)
    (num_values_remaining : nat) (dst : list Z) (meta : CompressionMetadata)
    : outcome (list Z * (nat * nat)) :=
  let bit_width := meta_bit_width meta in
  let num_values := Nat.min num_values_remaining 32 in
  let* deltas := read_deltas 32 0 src (for_min meta) in
  let dst' := pack_32 deltas bit_width dst in
  Ok (dst', (bitpack_compressed_size bit_width, num_values)).

Definition for_decompress (_ : FixedFrameOfReferenceAlg) (src : list Z) (src_offset : nat)
    (dst : list Z) (dst_offset num_values : nat) (meta : CompressionMetadata)
    : outcome (list Z) :=
  let bit_width := meta_bit_width meta in
  let min := for_min meta in
  let deltas := unpack_32 src bit_width (replicate 32 0%Z) in
  for_range num_values 0
    (λ i dst,
       let val_idx := (src_offset + i) mod 32 in
       let delta_i64 := u64_as_i64 (word_at deltas val_idx) in
       let val := i64_wrapping_add min delta_i64 in
       let dst_start := (dst_offset + i) * 8 in
       if decide (length dst < dst_start + 8) then Err Internal
       else write_at dst dst_start (to_le 8 val)) dst.

#[export] Instance for_alg : CompressionAlg FixedFrameOfReferenceAlg := {|
  get_compression_type _ := FixedFrameOfReference;
  compress_next_page := for_compress;
  decompress_from_page := for_decompress;
|}.

(** ** Run-length encoding *)

Record RleAlg := mkRle {}.

Definition u32_MAX : Z := 2 ^ 32 - 1.

(** The inner loop: extend the run that starts at value [j - 1]. *)
Fixpoint rle_run (fuel : nat) (src : list Z) (num_values_remaining : nat) (val : list Z)
    (j : nat) (count : Z) : nat * Z :=
  match fuel with
  | O => (j, count)
  | S fuel =>
      if decide (j < num_values_remaining ∧ (count < u32_MAX)%Z ∧
                 (j + 1) * 8 ≤ length src ∧ slice src (j * 8) ((j + 1) * 8) = val)
      then rle_run fuel src num_values_remaining val (j + 1) (count + 1)%Z
      else (j, count)
  end.

(** The outer loop; each iteration consumes at least one value. *)
Fixpoint rle_compress_loop (fuel : nat) (src : list Z) (num_values_remaining : nat)
    (values_processed dst_offset : nat) (dst : list Z) : outcome (list Z * (nat * nat)) :=
  match fuel with
  | O => Ok (dst, (dst_offset, values_processed))
  | S fuel =>
      if decide (values_processed < num_values_remaining ∧ dst_offset + 8 + 4 ≤ length dst) then
        let start := values_processed * 8 in
        if decide (length src < start + 8) then Ok (dst, (dst_offset, values_processed))
        else
          let* val := slice_get src start (start + 8) in
          let '(j, count) :=
            rle_run num_values_remaining src num_values_remaining val (values_processed + 1) 1%Z in
          if decide (length dst < dst_offset + 8 + 4)
          then Ok (dst, (dst_offset, values_processed))
          else
            let* dst1 := write_at dst dst_offset val in
            let* dst2 := write_at dst1 (dst_offset + 8) (to_le 4 count) in
            rle_compress_loop fuel src num_values_remaining j (dst_offset + (8 + 4)) dst2
      else Ok (dst, (dst_offset, values_processed))
  end.

Definition rle_compress (_ : RleAlg) (src : list Z) (num_values_remaining : nat)
    (dst : list Z) (_ : CompressionMetadata) : outcome (list Z * (nat * nat)) :=
  rle_compress_loop num_values_remaining src num_values_remaining 0 0 dst.

(** The run loop of the decompressor; each iteration consumes twelve bytes. *)
Fixpoint rle_decompress_loop (fuel : nat) (src : list Z) (num_values src_ptr : nat)
    (dst : list Z) (dst_ptr values_emitted : nat) (skip : Z) : outcome (list Z) :=
  match fuel with
  | O => Ok dst
  | S fuel =>
      if decide (values_emitted < num_values ∧ src_ptr + 8 + 4 ≤ length src) then
        let* val := slice_get src src_ptr (src_ptr + 8) in
        let* count_bytes := slice_get src (src_ptr + 8) (src_ptr + 8 + 4) in
        let count := of_le count_bytes in
        let src_ptr' := src_ptr + (8 + 4) in
        if decide (count ≤ skip)%Z then
          rle_decompress_loop fuel src num_values src_ptr' dst dst_ptr values_emitted
            (skip - count)%Z
        else
          let to_emit := Z.to_nat (Z.min (count - skip) (Z.of_nat (num_values - values_emitted))) in
          let* dst' := for_range to_emit 0 (λ i dst, write_at dst ((dst_ptr + i) * 8) val) dst in
          rle_decompress_loop fuel src num_values src_ptr' dst' (dst_ptr + to_emit)
            (values_emitted + to_emit) 0%Z
      else Ok dst
  end.

Definition rle_decompress (_ : RleAlg) (src : list Z) (src_offset : nat)
    (dst : list Z) (dst_offset num_values : nat) (_ : CompressionMetadata)
    : outcome (list Z) :=
  rle_decompress_loop (length src) src num_values 0 dst dst_offset 0 (Z.of_nat src_offset).

#[export] Instance rle_alg : CompressionAlg RleAlg := {|
  get_compression_type _ := Rle;
  compress_next_page := rle_compress;
  decompress_from_page := rle_decompress;
|}.

(** ** Dictionary *)

Record DictAlg := mkDict {}.

(** The indexing loop: [dict] lists the distinct values in order of first
    occurrence, [dict_map] maps each to its position. *)
Fixpoint dict_index (n i : nat) (src : list Z) (dict : list (list Z))
    (dict_map : gmap (list Z) Z) : outcome (list (list Z) * list Z) :=
  match n with
  | O => Ok (dict, [])
  | S n =>
      let* val := slice_get src (i * 8) (i * 8 + 8) in
      match dict_map !! val with
      | Some idx =>
          let* r := dict_index n (i + 1) src dict dict_map in
          Ok (fst r, idx :: snd r)
      | None =>
          let idx := Z.of_nat (length dict) in
          let* r := dict_index n (i + 1) src (dict ++ [val]) (<[val := idx]> dict_map) in
          Ok (fst r, idx :: snd r)
      end
  end.

Fixpoint dict_write (dict : list (list Z)) (offset : nat) (dst : list Z)
    : outcome (list Z * nat) :=
  match dict with
  | [] => Ok (dst, offset)
  | val :: dict =>
      let* dst' := write_at dst offset val in
      dict_write dict (offset + 8) dst'
  end.

(** [max(64 - (count as u64).leading_zeros(), 1)] *)
Definition dict_bit_width (dict_count : Z) : nat :=
  Nat.max (if decide (dict_count = 0)%Z then 0 else Z.to_nat (Z.log2 dict_count) + 1) 1.

Definition dict_compress (_ : DictAlg) (src : list Z) (num_values_remaining : nat)
    (dst : list Z) (_ : CompressionMetadata) : outcome (list Z * (nat * nat)) :=
  let num_values := Nat.min num_values_remaining 32 in
  if decide (num_values = 0) then Ok (dst, (0, 0))
  else
    let* r := dict_index num_values 0 src [] ∅ in
    let '(dict, indices) := r in
    let dict_count := Z.of_nat (length dict) in
    if decide (length dst < 4 + length dict * 8 + 32) then Err Internal
    else
      let* dst1 := write_at dst 0 (to_le 4 dict_count) in
      let* w := dict_write dict 4 dst1 in
      let '(dst2, offset) := w in
      let bit_width := dict_bit_width dict_count in
      let packed_indices := splice (replicate 32 0%Z) 0 indices in
      let* tail := slice_get dst2 offset (length dst2) in
      let dst3 := splice dst2 offset (pack_32 packed_indices bit_width tail) in
      Ok (dst3, (offset + bitpack_compressed_size bit_width, num_values)).

Definition dict_decompress (_ : DictAlg) (src : list Z) (src_offset : nat)
    (dst : list Z) (dst_offset num_values : nat) (_ : CompressionMetadata)
    : outcome (list Z) :=
  if decide (num_values = 0) then Ok dst
  else if decide (length src < 4) then Err Internal
  else
    let dict_count := of_le (take 4 src) in
    if decide (dict_count = 0)%Z then Ok dst
    else
      let dict_start := 4 in
      if decide (Z.of_nat (length src) < 4 + dict_count * 8)%Z then Err Internal
      else
        let dict_end := dict_start + Z.to_nat dict_count * 8 in
        let bit_width := dict_bit_width dict_count in
        let* packed := slice_get src dict_end (length src) in
        let indices := unpack_32 packed bit_width (replicate 32 0%Z) in
        let* dict_bytes := slice_get src dict_start dict_end in
        for_range num_values 0
          (λ i dst,
             let val_idx := (src_offset + i) mod 32 in
             let dict_idx := word_at indices val_idx in
             if decide (dict_count ≤ dict_idx)%Z then Err Internal
             else
               let entry_start := Z.to_nat dict_idx * 8 in
               let dst_start := (dst_offset + i) * 8 in
               let* entry := slice_get dict_bytes entry_start (entry_start + 8) in
               write_at dst dst_start entry) dst.

#[export] Instance dict_alg : CompressionAlg DictAlg := {|
  get_compression_type _ := Dict;
  compress_next_page := dict_compress;
  decompress_from_page := dict_decompress;
|}.

(** ** Correctness of the trivial codecs *)

#[export] Program Instance uncompressed_lossless : LosslessCodec UncompressedAlg := {|
  codec_es c _ := uc_element_size c;
  codec_admissible c _ src n dst :=
    0 < uc_element_size c ∧ n * uc_element_size c ≤ length src ∧
    n * uc_element_size c ≤ length dst;
|}.
Next Obligation.
  intros [es] meta src n dst Hsrc Hdst (Hes & Hs & Hd). simpl in *.
  assert (Hn : n ≤ length dst / es) by (apply Nat.div_le_lower_bound; lia).
  exists (splice dst 0 (slice src 0 (n * es))), (n * es). split_and!.
  - unfold compress_next_page. simpl. unfold uncompressed_compress. simpl.
    rewrite decide_False by lia.
    rewrite Nat.min_l by done. rewrite decide_False, slice_get_ok by lia. simpl.
    rewrite write_at_ok by (rewrite length_slice; lia). done.
  - apply length_splice. rewrite length_slice; lia.
  - apply bytes_ok_splice; [done|by apply bytes_ok_slice].
  - done.
  - intros page off cnt out dof Hpage Hlen Htake Hoff Hout. simpl.
    assert (Hoff' : off * es + cnt * es ≤ n * es) by nia.
    unfold decompress_from_page. simpl. unfold uncompressed_decompress. simpl. rewrite !decide_False by lia.
    rewrite slice_get_ok by lia. simpl.
    rewrite write_at_ok by (rewrite length_slice; nia). do 2 f_equal.
    assert (Hpre : take (n * es) page = take (n * es) src).
    { rewrite Htake. unfold splice. rewrite take_0. simpl.
      rewrite take_app_le by (rewrite length_slice; lia).
      unfold slice. rewrite drop_0, Nat.sub_0_r. rewrite take_take. f_equal. lia. }
    replace (off * es + cnt * es) with ((off + cnt) * es) by lia.
    rewrite <- (slice_take page (n * es)), Hpre by lia. by rewrite slice_take by lia.
Qed.

#[export] Program Instance constant_lossless : LosslessCodec ConstantAlg := {|
  codec_es _ meta := length (value_to_le_bytes (meta_min meta));
  codec_admissible _ meta src n _ :=
    let es := length (value_to_le_bytes (meta_min meta)) in
    n * es ≤ length src ∧
    ∀ i, i < n → slice src (i * es) (i * es + es) = value_to_le_bytes (meta_min meta);
|}.
Next Obligation.
  intros c meta src n dst Hsrc Hdst [Hlen Hall]. exists dst, 0.
  split_and!; [done..|lia|]. intros page off cnt out dof _ _ _ Hoff Hout.
  unfold decompress_from_page. simpl. unfold constant_decompress.
  apply (for_range_write_chunks (λ _, value_to_le_bytes (meta_min meta))); [done| |nia|done].
  intros i Hi. by rewrite Hall by lia.
Qed.

(** ** Correctness of the bit-packed codecs *)

(** The [i]-th 8-byte value of a block. *)
Definition chunk8 (src : list Z) (i : nat) : list Z := slice src (i * 8) (i * 8 + 8).

Lemma chunk8_to_le src i :
  bytes_ok src → (i + 1) * 8 ≤ length src → to_le 8 (of_le (chunk8 src i)) = chunk8 src i.
Proof.
  intros. apply to_le_of_le; [by apply bytes_ok_slice|]. unfold chunk8.
  rewrite length_slice; lia.
Qed.

Lemma chunk8_u64 src i : bytes_ok src → (i + 1) * 8 ≤ length src → is_u64 (of_le (chunk8 src i)).
Proof.
  intros Hok Hi. pose proof (of_le_bound (chunk8 src i) (bytes_ok_slice _ _ _ Hok)) as H.
  unfold chunk8 in H at 3. rewrite length_slice in H by lia.
  replace (i * 8 + 8 - i * 8) with 8 in H by lia. exact H.
Qed.

Lemma read_u64s_ok n i src :
  (i + n) * 8 ≤ length src →
  read_u64s n i src = Ok (map (λ k, of_le (chunk8 src k)) (seq i n)).
Proof.
  revert i. induction n as [|n IH]; intros i Hlen; [done|]. cbn [read_u64s seq map].
  rewrite slice_get_ok by lia. simpl. replace (S i) with (i + 1) by lia.
  by rewrite IH by lia.
Qed.

Lemma read_deltas_ok n i src min :
  (i + n) * 8 ≤ length src →
  read_deltas n i src min =
  Ok (map (λ k, for_delta (u64_as_i64 (of_le (chunk8 src k))) min) (seq i n)).
Proof.
  revert i. induction n as [|n IH]; intros i Hlen; [done|]. cbn [read_deltas seq map].
  rewrite decide_False, slice_get_ok by lia. simpl. replace (S i) with (i + 1) by lia.
  by rewrite IH by lia.
Qed.

Lemma bitpack_size_bits bw : 32 * bw ≤ 8 * bitpack_compressed_size bw.
Proof. unfold bitpack_compressed_size. pose proof (Nat.div_mod_eq (32 * bw + 7) 8).
  pose proof (Nat.mod_upper_bound (32 * bw + 7) 8). lia. Qed.

(** A page that starts with a packed block of 32 words decodes to the words
    modulo the width. *)
Lemma unpack_page (f : nat → Z) bw dst page :
  bytes_ok dst → bytes_ok page → 0 < bw ≤ 64 →
  bitpack_compressed_size bw ≤ length dst → bitpack_compressed_size bw ≤ length page →
  take (bitpack_compressed_size bw) page =
    take (bitpack_compressed_size bw) (pack_32 (map f (seq 0 32)) bw dst) →
  unpack_32 page bw (replicate 32 0%Z) =
    map (λ k, f k mod 2 ^ Z.of_nat bw)%Z (seq 0 32).
Proof.
  intros Hdst Hpage Hbw Hl1 Hl2 Htake. pose proof (bitpack_size_bits bw) as Hsz.
  assert (Hlen : length (map f (seq 0 32)) = 32) by by rewrite length_map, length_seq.
  assert (Hh : holds_block page bw (map f (seq 0 32))).
  { apply (holds_block_extend _ _ _ (bitpack_compressed_size bw)); [done|]. rewrite Htake.
    apply holds_block_take; rewrite ?Hlen; [|lia|].
    - apply pack_32_holds; rewrite ?Hlen; [done..|lia].
    - by rewrite pack_32_length by (done || lia). }
  rewrite (unpack_32_holds _ _ _ _ Hh) by (done || by rewrite length_replicate, Hlen).
  by rewrite map_map.
Qed.

Lemma word_at_map_seq (f : nat → Z) n k : k < n → word_at (map f (seq 0 n)) k = f k.
Proof.
  intros. unfold word_at. rewrite list_lookup_fmap, lookup_seq_lt by done. done.
Qed.

#[export] Program Instance int_bitpack_lossless : LosslessCodec IntegerBitpackingAlg := {|
  codec_es _ _ := 8;
  codec_admissible _ meta src n dst :=
    let bw := meta_bit_width meta in
    bw ≤ 64 ∧ n ≤ 32 ∧ 256 ≤ length src ∧ bitpack_compressed_size bw ≤ length dst ∧
    ∀ i, i < n → (of_le (chunk8 src i) < 2 ^ Z.of_nat bw)%Z;
|}.
Next Obligation.
  intros c meta src n dst Hsrc Hdst (Hbw & Hn & Hs & Hd & Hfit).
  set (bw := meta_bit_width meta) in *.
  unfold lossless_block, compress_next_page, decompress_from_page. simpl.
  unfold int_bitpack_compress, int_bitpack_decompress. fold bw.
  destruct (decide (bw = 0)) as [H0|H0].
  - exists dst, 0. split_and!; [done..|lia|]. intros page off cnt out dof _ _ _ Hoff Hout.
    apply (for_range_write_chunks (λ _, replicate 8 0%Z)); [done| |lia|done].
    intros i Hi. specialize (Hfit (off + i) ltac:(lia)). rewrite H0 in Hfit.
    pose proof (chunk8_u64 src (off + i) Hsrc ltac:(lia)) as Hu. unfold is_u64 in Hu.
    change (slice src ((off + i) * 8) ((off + i) * 8 + 8)) with (chunk8 src (off + i)).
    rewrite <- (chunk8_to_le src (off + i)) by (done || lia).
    by replace (of_le (chunk8 src (off + i))) with 0%Z by lia.
  - exists (pack_32 (map (λ k, of_le (chunk8 src k)) (seq 0 32)) bw dst),
      (bitpack_compressed_size bw).
    rewrite read_u64s_ok by lia. rewrite Nat.min_l by done.
    split_and!; [done|by rewrite pack_32_length| |done|].
    { apply pack_32_holds; rewrite ?length_map, ?length_seq; [done|lia|].
      pose proof (bitpack_size_bits bw). lia. }
    intros page off cnt out dof Hpage Hlen Htake Hoff Hout.
    rewrite (unpack_page (λ k, of_le (chunk8 src k)) bw dst) by (done || lia).
    apply (for_range_write_chunks (λ i, chunk8 src (off + i))); [|done|lia|done].
    intros i o Hi Ho. rewrite Nat.mod_small by lia. rewrite word_at_map_seq by lia.
    rewrite Z.mod_small, chunk8_to_le; [done|done|lia|].
    pose proof (chunk8_u64 src (off + i) Hsrc ltac:(lia)) as Hu. unfold is_u64 in Hu.
    specialize (Hfit (off + i) ltac:(lia)). lia.
Qed.

(** The decoder of the frame of reference inverts its encoder when the delta
    fits the width. *)
Lemma for_delta_roundtrip val min bw :
  is_i64 val → bw ≤ 64 → (0 ≤ val - min < 2 ^ Z.of_nat bw)%Z → (val - min ≤ i64_MAX)%Z →
  i64_wrapping_add min (u64_as_i64 (for_delta val min mod 2 ^ Z.of_nat bw)%Z) = val.
Proof.
  intros Hv Hbw Hd Hmax. unfold for_delta, i64_MIN, i64_MAX in *.
  rewrite decide_True by lia.
  assert (Hw : u64_wrap (val - min) = (val - min)%Z) by (apply u64_wrap_id; unfold is_u64; lia).
  rewrite Hw, (Z.mod_small (val - min)) by lia.
  unfold i64_wrapping_add.
  pose proof (u64_as_i64_wrap (val - min)) as E. rewrite Hw in E.
  rewrite E by (unfold is_i64; lia).
  replace (min + (val - min))%Z with val by lia. by apply u64_as_i64_wrap.
Qed.

#[export] Program Instance for_lossless : LosslessCodec FixedFrameOfReferenceAlg := {|
  codec_es _ _ := 8;
  codec_admissible _ meta src n dst :=
    let bw := meta_bit_width meta in
    bw ≤ 64 ∧ n ≤ 32 ∧ 256 ≤ length src ∧ bitpack_compressed_size bw ≤ length dst ∧
    ∀ i, i < n →
      let d := (u64_as_i64 (of_le (chunk8 src i)) - for_min meta)%Z in
      (0 ≤ d < 2 ^ Z.of_nat bw)%Z ∧ (d ≤ i64_MAX)%Z;
|}.
Next Obligation.
  intros c meta src n dst Hsrc Hdst (Hbw & Hn & Hs & Hd & Hfit).
  set (bw := meta_bit_width meta) in *.
  set (delta := λ k, for_delta (u64_as_i64 (of_le (chunk8 src k))) (for_min meta)).
  unfold lossless_block, compress_next_page, decompress_from_page. simpl.
  unfold for_compress, for_decompress. fold bw.
  rewrite read_deltas_ok by lia. fold delta. rewrite Nat.min_l by done.
  exists (pack_32 (map delta (seq 0 32)) bw dst), (bitpack_compressed_size bw).
  assert (Hpack_ok : bytes_ok (pack_32 (map delta (seq 0 32)) bw dst)).
  { destruct (decide (bw = 0)) as [H0|H0].
    - unfold pack_32. by rewrite decide_True.
    - apply pack_32_holds; rewrite ?length_map, ?length_seq; [done|lia|].
      pose proof (bitpack_size_bits bw). lia. }
  split_and!; [done|by rewrite pack_32_length|done|done|].
  intros page off cnt out dof Hpage Hlen Htake Hoff Hout.
  assert (Hword : ∀ k, k < 32 →
    word_at (unpack_32 page bw (replicate 32 0%Z)) k = (delta k mod 2 ^ Z.of_nat bw)%Z).
  { intros k Hk. destruct (decide (bw = 0)) as [H0|H0].
    - unfold unpack_32. rewrite decide_True, H0, Z.mod_1_r by done.
      unfold word_at. by rewrite lookup_replicate_2.
    - rewrite (unpack_page delta bw dst) by (done || lia).
      by rewrite word_at_map_seq. }
  apply (for_range_write_chunks (λ i, chunk8 src (off + i))); [|done|lia|done].
  intros i o Hi Ho. rewrite Nat.mod_small by lia. rewrite Hword by lia.
  rewrite decide_False by lia. f_equal.
  destruct (Hfit (off + i) ltac:(lia)) as [Hd1 Hd2]. unfold delta.
  rewrite for_delta_roundtrip; [|apply u64_as_i64_range|done..].
  rewrite to_le_as_i64. apply chunk8_to_le; [done|lia].
Qed.

(** ** Correctness of run-length encoding *)

(** The page image and the meaning of a list of runs. *)
Definition rle_encode (runs : list (list Z * Z)) : list Z :=
  concat (map (λ r, fst r ++ to_le 4 (snd r)) runs).
Definition rle_expand (runs : list (list Z * Z)) : list Z :=
  concat (map (λ r, repeat_chunk (Z.to_nat (snd r)) (fst r)) runs).
Definition rle_run_ok (r : list Z * Z) : Prop :=
  bytes_ok (fst r) ∧ length (fst r) = 8 ∧ (0 < snd r ≤ u32_MAX)%Z.

Lemma rle_run_spec fuel src n val j0 c0 j c :
  rle_run fuel src n val j0 c0 = (j, c) → (c0 ≤ u32_MAX)%Z →
  j0 ≤ j ∧ (c = c0 + Z.of_nat (j - j0) ∧ c ≤ u32_MAX)%Z ∧
  ∀ k, j0 ≤ k < j → k < n ∧ (k + 1) * 8 ≤ length src ∧ chunk8 src k = val.
Proof.
  revert j0 c0. induction fuel as [|fuel IH]; intros j0 c0; cbn [rle_run].
  { intros [= <- <-] ?. split_and!; lia. }
  case_decide as H; [|intros [= <- <-] ?; split_and!; lia].
  intros Hrun Hc. destruct H as (Hn & Hcm & Hlen & Hval).
  destruct (IH (j0 + 1) (c0 + 1)%Z Hrun ltac:(lia)) as (H1 & H2 & H3).
  split_and!; [lia..|]. intros k Hk. destruct (decide (k = j0)) as [->|].
  - split_and!; [done..|]. unfold chunk8. rewrite <- Hval. f_equal. lia.
  - apply H3. lia.
Qed.

(** Where the compressor may stop: everything consumed, no room for another
    run, or the source exhausted. *)
Definition rle_stopped (src : list Z) (n vp off dlen : nat) : Prop :=
  n ≤ vp ∨ dlen < off + 12 ∨ length src < vp * 8 + 8.

(** What the loop delivers from value [vp] and offset [off]: a page image of
    runs that expand to the values consumed. *)
Definition rle_result (src : list Z) (n vp off : nat) (dst : list Z)
    (o : outcome (list Z * (nat * nat))) : Prop :=
  ∃ runs dst' vp',
    o = Ok (dst', (off + length (rle_encode runs), vp')) ∧
    Forall rle_run_ok runs ∧ length dst' = length dst ∧
    off + length (rle_encode runs) ≤ length dst ∧
    take (off + length (rle_encode runs)) dst' = take off dst ++ rle_encode runs ∧
    (bytes_ok dst → bytes_ok dst') ∧
    vp ≤ vp' ≤ n ∧ slice src (vp * 8) (vp' * 8) = rle_expand runs ∧
    rle_stopped src n vp' (off + length (rle_encode runs)) (length dst).

Lemma rle_result_stop src n vp off dst :
  vp ≤ n → off ≤ length dst → rle_stopped src n vp off (length dst) →
  rle_result src n vp off dst (Ok (dst, (off, vp))).
Proof.
  intros Hvp Hoff Hst. exists [], dst, vp. simpl.
  rewrite Nat.add_0_r, app_nil_r, slice_nil by lia. by split_and!.
Qed.

(** One more run in front: [c] copies of [val], which are the values [vp..j]. *)
Lemma rle_result_run src n vp off dst val c j o :
  bytes_ok val → length val = 8 → (0 < c ≤ u32_MAX)%Z → c = Z.of_nat (j - vp) → vp < j →
  (∀ k, vp ≤ k < j → chunk8 src k = val) →
  off + 12 ≤ length dst →
  rle_result src n j (off + 12) (splice dst off (val ++ to_le 4 c)) o →
  rle_result src n vp off dst o.
Proof.
  intros Hbv Hvlen Hc Ec Hj Hvals Hroom. set (rec := val ++ to_le 4 c).
  assert (Hrlen : length rec = 12) by (unfold rec; rewrite length_app, length_to_le; lia).
  intros (runs & dst' & vp' & E & Hruns & Hlen' & Hfit & Htake & Hok & Hvp' & Hexp & Hst).
  assert (Henc : length (rle_encode ((val, c) :: runs)) = 12 + length (rle_encode runs)).
  { unfold rle_encode. simpl. rewrite length_app. fold rec. lia. }
  rewrite length_splice in Hlen', Hfit, Hst by lia.
  exists ((val, c) :: runs), dst', vp'. rewrite Henc, !Nat.add_assoc.
  split_and!; try done; try lia.
  - by constructor.
  - rewrite Htake. rewrite <- Hrlen at 1. rewrite take_splice by lia.
    unfold rle_encode, rec. simpl. by rewrite <- !app_assoc.
  - intros Hdst. apply Hok, bytes_ok_splice; [done|]. apply bytes_ok_app.
    split; [done|apply to_le_bytes_ok].
  - rewrite (slice_split _ _ (j * 8)) by lia. rewrite Hexp. unfold rle_expand. simpl. f_equal.
    replace (Z.to_nat c) with (j - vp) by lia.
    rewrite <- (slice_repeat_chunk src val 8 vp (j - vp)); [f_equal; lia|].
    intros k Hk. by apply Hvals; lia.
Qed.

Lemma rle_compress_loop_spec fuel src n vp off dst :
  bytes_ok src → n - vp ≤ fuel → vp ≤ n → off ≤ length dst →
  rle_result src n vp off dst (rle_compress_loop fuel src n vp off dst).
Proof.
  intros Hsrc. revert vp off dst.
  induction fuel as [|fuel IH]; intros vp off dst Hfuel Hvp Hoff; cbn [rle_compress_loop].
  { apply rle_result_stop; [done..|]. left. lia. }
  case_decide as H; [|apply rle_result_stop; [done..|unfold rle_stopped; lia]].
  case_decide as Hs; [apply rle_result_stop; [done..|unfold rle_stopped; lia]|].
  rewrite slice_get_ok by lia. simpl.
  destruct (rle_run n src n (slice src (vp * 8) (vp * 8 + 8)) (vp + 1) 1) as [j c] eqn:Erun.
  destruct (rle_run_spec _ _ _ _ _ _ _ _ Erun ltac:(done)) as (Hj & [Hc Hcm] & Hvals).
  rewrite decide_False by lia.
  set (val := slice src (vp * 8) (vp * 8 + 8)) in *.
  assert (Hvlen : length val = 8) by (unfold val; rewrite length_slice; lia).
  rewrite write_at_ok by lia. simpl.
  rewrite write_at_ok by (rewrite length_splice, length_to_le; lia). simpl.
  rewrite <- Hvlen. rewrite splice_splice_adjacent by (rewrite length_to_le; lia). rewrite Hvlen.
  assert (Hjn : j ≤ n).
  { destruct (decide (j = vp + 1)); [lia|]. destruct (Hvals (j - 1) ltac:(lia)). lia. }
  apply (rle_result_run src n vp off dst val c j); [by apply bytes_ok_slice|done|lia..| |lia|].
  - intros k Hk. destruct (decide (k = vp)) as [->|]; [done|]. by apply (Hvals k ltac:(lia)).
  - apply IH; [lia|done|]. rewrite length_splice; rewrite ?length_app, ?length_to_le; lia.
Qed.

Lemma rle_encode_cons v c runs : rle_encode ((v, c) :: runs) = v ++ to_le 4 c ++ rle_encode runs.
Proof. unfold rle_encode. simpl. by rewrite <- app_assoc. Qed.

Lemma rle_expand_cons v c runs :
  rle_expand ((v, c) :: runs) = repeat_chunk (Z.to_nat c) v ++ rle_expand runs.
Proof. done. Qed.

Lemma rle_encode_length runs : Forall rle_run_ok runs → length (rle_encode runs) = 12 * length runs.
Proof.
  induction 1 as [|[v c] runs (_ & Hv & _) _ IH]; [done|].
  rewrite rle_encode_cons, !length_app, length_to_le, IH. simpl in *. lia.
Qed.

(** One step of the run walk, at a run boundary of the page. *)
Lemma rle_read_run pre v c post :
  rle_run_ok (v, c) →
  let src := pre ++ v ++ to_le 4 c ++ post in
  slice_get src (length pre) (length pre + 8) = Ok v ∧
  slice_get src (length pre + 8) (length pre + 8 + 4) = Ok (to_le 4 c) ∧
  of_le (to_le 4 c) = c.
Proof.
  intros (Hok & Hv & Hc). simpl in Hv, Hc. unfold u32_MAX in Hc. intros src.
  assert (Hlen : length src = length pre + 8 + 4 + length post).
  { unfold src. rewrite !length_app, length_to_le, Hv. lia. }
  split_and!; [..|apply of_le_to_le_id; lia].
  - rewrite slice_get_ok by lia. f_equal. unfold src. rewrite slice_app_r by lia.
    rewrite slice_app_l by lia. rewrite <- (slice_all v) at 2. f_equal; lia.
  - rewrite slice_get_ok by lia. f_equal. unfold src. rewrite slice_app_r by lia.
    rewrite slice_app_r by lia. rewrite slice_app_l by (rewrite length_to_le; lia).
    rewrite <- (slice_all (to_le 4 c)) at 2. rewrite length_to_le. f_equal; lia.
Qed.

Lemma rle_decompress_loop_spec runs fuel pre post n dst dptr em skip :
  Forall rle_run_ok runs → length runs < fuel → em ≤ n → (0 ≤ skip)%Z →
  (Z.to_nat skip + (n - em)) * 8 ≤ length (rle_expand runs) →
  (dptr + (n - em)) * 8 ≤ length dst →
  rle_decompress_loop fuel (pre ++ rle_encode runs ++ post) n (length pre) dst dptr em skip =
  Ok (splice dst (dptr * 8)
        (slice (rle_expand runs) (Z.to_nat skip * 8) ((Z.to_nat skip + (n - em)) * 8))).
Proof.
  intros Hruns. revert fuel pre dst dptr em skip.
  induction Hruns as [|[v c] runs Hrun Hruns IH]; intros fuel pre dst dptr em skip
    Hfuel Hem Hskip Hexp Hdst; destruct fuel as [|fuel]; cbn [rle_decompress_loop]; simpl in Hfuel; try lia.
  - simpl in Hexp. rewrite decide_False by lia. rewrite slice_nil by lia. by rewrite splice_nil.
  - destruct (decide (em = n)) as [->|Hne].
    { rewrite decide_False by lia. rewrite slice_nil by lia. by rewrite splice_nil. }
    pose proof Hrun as (_ & Hvlen & Hc). simpl in Hvlen, Hc.
    rewrite rle_encode_cons, <- !app_assoc.
    destruct (rle_read_run pre v c (rle_encode runs ++ post) Hrun) as (E1 & E2 & E3).
    rewrite decide_True.
    2: { rewrite !length_app, length_to_le. lia. }
    rewrite E1. cbn [outcome_bind]. rewrite E2. cbn [outcome_bind]. rewrite E3.
    rewrite rle_expand_cons in Hexp |- *.
    assert (Hrep : length (repeat_chunk (Z.to_nat c) v) = Z.to_nat c * 8)
      by by rewrite length_repeat_chunk, Hvlen.
    rewrite length_app, Hrep in Hexp.
    replace (pre ++ v ++ to_le 4 c ++ rle_encode runs ++ post)
      with ((pre ++ v ++ to_le 4 c) ++ rle_encode runs ++ post) by by rewrite <- !app_assoc.
    replace (length pre + (8 + 4)) with (length (pre ++ v ++ to_le 4 c))
      by (rewrite !length_app, length_to_le; lia).
    case_decide as Hsk.
    + rewrite IH by lia. rewrite slice_app_r by lia. rewrite Hrep. do 3 f_equal; lia.
    + set (te := Z.to_nat (Z.min (c - skip) (Z.of_nat (n - em)))).
      rewrite (for_range_write_chunks (λ _, v) (repeat_chunk (Z.to_nat c) v) dst te
                 (Z.to_nat skip) dptr 8); [|done| |lia..].
      2: { intros i Hi. pose proof (repeat_chunk_slice v (Z.to_nat c) (Z.to_nat skip + i)) as Hr.
           rewrite Hvlen in Hr. symmetry. apply Hr. lia. }
      cbn [outcome_bind].
      assert (Hs1 : length (slice (repeat_chunk (Z.to_nat c) v) (Z.to_nat skip * 8)
                      ((Z.to_nat skip + te) * 8)) = te * 8) by (rewrite length_slice; lia).
      rewrite IH; [|lia..|rewrite length_splice; lia].
      f_equal. replace ((dptr + te) * 8) with (dptr * 8 + te * 8) by lia.
      rewrite <- Hs1 at 1. rewrite splice_splice_adjacent.
      2: { rewrite Hs1. rewrite length_slice; lia. }
      f_equal. change (Z.to_nat 0) with 0. rewrite Nat.mul_0_l, Nat.add_0_l.
      destruct (decide (Z.to_nat c ≤ Z.to_nat skip + (n - em))).
      * rewrite slice_app_split by lia. rewrite Hrep. f_equal; f_equal; lia.
      * rewrite slice_app_l by lia. rewrite (slice_nil (rle_expand runs)) by lia.
        rewrite app_nil_r. f_equal. lia.
Qed.

Lemma rle_expand_length_ge runs :
  Forall rle_run_ok runs → 8 * length runs ≤ length (rle_expand runs).
Proof.
  induction 1 as [|[v c] runs (_ & Hv & Hc) _ IH]; [done|].
  rewrite rle_expand_cons, length_app, length_repeat_chunk. simpl in *. rewrite Hv. nia.
Qed.

Lemma rle_decompress_done fuel src n ptr dst dptr skip :
  rle_decompress_loop fuel src n ptr dst dptr n skip = Ok dst.
Proof. destruct fuel; simpl; [done|]. rewrite decide_False; [done|lia]. Qed.

(** Reading back from any page that starts with an encoded list of runs. *)
Lemma rle_decompress_spec runs page off cnt out dof meta c :
  Forall rle_run_ok runs → length (rle_encode runs) ≤ length page →
  take (length (rle_encode runs)) page = rle_encode runs →
  (off + cnt) * 8 ≤ length (rle_expand runs) → (dof + cnt) * 8 ≤ length out →
  rle_decompress c page off out dof cnt meta =
  Ok (splice out (dof * 8) (slice (rle_expand runs) (off * 8) ((off + cnt) * 8))).
Proof.
  intros Hruns Hlen Htake Hoff Hout. unfold rle_decompress.
  destruct (decide (cnt = 0)) as [->|Hcnt].
  { rewrite rle_decompress_done. rewrite slice_nil by lia. by rewrite splice_nil. }
  assert (Hpage : page = [] ++ rle_encode runs ++ drop (length (rle_encode runs)) page).
  { rewrite <- Htake at 1. simpl. by rewrite take_drop. }
  rewrite Hpage at 2.
  pose proof (rle_decompress_loop_spec runs (length page) []
    (drop (length (rle_encode runs)) page) cnt out dof 0 (Z.of_nat off) Hruns) as H.
  rewrite Nat2Z.id, Nat.sub_0_r in H. apply H; [|lia..].
  rewrite rle_encode_length in Hlen by done.
  assert (length runs ≠ 0); [|lia].
  intros E. apply nil_length_inv in E. subst. simpl in Hoff. lia.
Qed.

Lemma rle_compress_spec src n dst meta c :
  bytes_ok src →
  ∃ runs dst' k,
    rle_compress c src n dst meta = Ok (dst', (length (rle_encode runs), k)) ∧
    Forall rle_run_ok runs ∧ length dst' = length dst ∧
    length (rle_encode runs) ≤ length dst ∧
    take (length (rle_encode runs)) dst' = rle_encode runs ∧
    (bytes_ok dst → bytes_ok dst') ∧ k ≤ n ∧
    slice src 0 (k * 8) = rle_expand runs ∧
    rle_stopped src n k (length (rle_encode runs)) (length dst).
Proof.
  intros Hsrc.
  destruct (rle_compress_loop_spec n src n 0 0 dst Hsrc ltac:(lia) ltac:(lia) ltac:(lia)) as
    (runs & dst' & k & E & H1 & H2 & H3 & H4 & H5 & H6 & H7 & H8).
  exists runs, dst', k. rewrite Nat.add_0_l, ?take_0 in *.
  split_and!; try done; lia.
Qed.

(** With room for one run per value the whole block is taken. *)
Lemma rle_takes_all src n (dst : list Z) runs k :
  Forall rle_run_ok runs → n * 8 ≤ length src → n * 12 ≤ length dst → k ≤ n →
  slice src 0 (k * 8) = rle_expand runs →
  rle_stopped src n k (length (rle_encode runs)) (length dst) → k = n.
Proof.
  intros Hruns Hs Hd Hk Hexp Hst. destruct (decide (k = n)); [done|]. exfalso.
  pose proof (rle_expand_length_ge runs Hruns) as Hge. rewrite <- Hexp in Hge.
  rewrite length_slice in Hge by lia. rewrite rle_encode_length in Hst by done.
  unfold rle_stopped in Hst. lia.
Qed.

#[export] Program Instance rle_lossless : LosslessCodec RleAlg := {|
  codec_es _ _ := 8;
  codec_admissible _ _ (src : list Z) n (dst : list Z) :=
    n * 8 ≤ length src ∧ n * 12 ≤ length dst;
|}.
Next Obligation.
  intros c meta src n dst Hsrc Hdst [Hs Hd].
  unfold lossless_block, compress_next_page, decompress_from_page. simpl.
  destruct (rle_compress_spec src n dst meta c Hsrc) as
    (runs & dst' & k & E & Hruns & H2 & H3 & H4 & H5 & H6 & H7 & H8).
  assert (k = n) as -> by by eapply rle_takes_all.
  exists dst', (length (rle_encode runs)). split_and!; [done..|by apply H5|done|].
  intros page off cnt out dof Hpage Hlen Htake Hoff Hout.
  rewrite (rle_decompress_spec runs); [|done|done|by rewrite Htake| |done].
  - f_equal. f_equal. rewrite <- H7. rewrite slice_slice by lia. done.
  - rewrite <- H7. rewrite length_slice; lia.
Qed.

(** ** Correctness of the dictionary codec *)

Definition dict_entry_ok (v : list Z) : Prop := bytes_ok v ∧ length v = 8.

(** The map agrees with the dictionary built so far. *)
Definition dict_inv (dict : list (list Z)) (dict_map : gmap (list Z) Z) : Prop :=
  Forall dict_entry_ok dict ∧
  ∀ v idx, dict_map !! v = Some idx → (0 ≤ idx)%Z ∧ dict !! Z.to_nat idx = Some v.

Lemma dict_index_spec n i src dict dict_map :
  bytes_ok src → (i + n) * 8 ≤ length src → dict_inv dict dict_map →
  ∃ dict' idxs,
    dict_index n i src dict dict_map = Ok (dict', idxs) ∧
    dict `prefix_of` dict' ∧ length dict' ≤ length dict + n ∧
    Forall dict_entry_ok dict' ∧ length idxs = n ∧
    ∀ k idx, idxs !! k = Some idx →
      (0 ≤ idx)%Z ∧ dict' !! Z.to_nat idx = Some (chunk8 src (i + k)).
Proof.
  intros Hsrc. revert i dict dict_map. induction n as [|n IH]; intros i dict dict_map Hlen Hinv.
  { exists dict, []. split_and!; [done..|lia|apply Hinv|done|].
    intros k idx H. by rewrite lookup_nil in H. }
  cbn [dict_index]. rewrite slice_get_ok by lia. cbn [outcome_bind]. fold (chunk8 src i).
  assert (Hv : dict_entry_ok (chunk8 src i)).
  { split; [by apply bytes_ok_slice|]. unfold chunk8. rewrite length_slice; lia. }
  destruct Hinv as [Hok Hmap]. destruct (dict_map !! chunk8 src i) as [idx|] eqn:E.
  - destruct (IH (i + 1) dict dict_map ltac:(lia) (conj Hok Hmap)) as
      (dict' & idxs & -> & Hpre & Hl & Hok' & Hlen' & Hidx).
    exists dict', (idx :: idxs). split_and!; [done..|lia|done|simpl; lia|].
    intros [|k] x Hx; simpl in Hx; simplify_eq.
    + destruct (Hmap _ _ E) as [H0 H1]. split; [done|]. rewrite Nat.add_0_r.
      by eapply prefix_lookup_Some.
    + replace (i + S k) with (i + 1 + k) by lia. by apply Hidx.
  - destruct (IH (i + 1) (dict ++ [chunk8 src i])
        (<[chunk8 src i := Z.of_nat (length dict)]> dict_map)) as
      (dict' & idxs & -> & Hpre & Hl & Hok' & Hlen' & Hidx).
    { lia. }
    { split; [apply Forall_app; split; [done|by constructor]|]. intros v idx.
      destruct (decide (v = chunk8 src i)) as [->|Hne].
      - rewrite lookup_insert_eq. intros [= <-]. split; [lia|]. rewrite Nat2Z.id.
        by apply list_lookup_middle.
      - rewrite lookup_insert_ne by done. intros Hx. destruct (Hmap _ _ Hx) as [H0 H1].
        split; [done|]. by apply lookup_app_l_Some. }
    rewrite length_app in Hl. simpl in Hl.
    exists dict', (Z.of_nat (length dict) :: idxs). split_and!;
      [done|by eapply prefix_app_l|lia|done|simpl; lia|].
    intros [|k] x Hx; simpl in Hx; simplify_eq.
    + split; [lia|]. rewrite Nat.add_0_r, Nat2Z.id. eapply prefix_lookup_Some; [|exact Hpre].
      by apply list_lookup_middle.
    + replace (i + S k) with (i + 1 + k) by lia. by apply Hidx.
Qed.

Lemma length_concat8 dict : Forall dict_entry_ok dict → length (concat dict) = length dict * 8.
Proof.
  induction 1 as [|v dict [_ Hv] _ IH]; simpl; [done|]. rewrite length_app. lia.
Qed.

Lemma slice_concat8 dict k v :
  Forall dict_entry_ok dict → dict !! k = Some v →
  slice (concat dict) (k * 8) (k * 8 + 8) = v.
Proof.
  intros Hok. revert k. induction Hok as [|w dict [_ Hw] _ IH]; intros [|k] Hk; simpl in *;
    simplify_eq.
  - rewrite slice_app_l by lia. rewrite <- (slice_all v) at 2. f_equal; lia.
  - rewrite slice_app_r by lia. rewrite <- (IH k Hk). f_equal; lia.
Qed.

Lemma bytes_ok_concat8 dict : Forall dict_entry_ok dict → bytes_ok (concat dict).
Proof.
  induction 1 as [|v dict [Hv _] _ IH]; simpl; [constructor|]. by apply bytes_ok_app.
Qed.

Lemma dict_write_spec dict off dst :
  Forall dict_entry_ok dict → off + length dict * 8 ≤ length dst →
  dict_write dict off dst = Ok (splice dst off (concat dict), off + length dict * 8).
Proof.
  intros Hok. revert off dst. induction Hok as [|v dict [Hv Hl] Hok IH]; intros off dst Hlen;
    cbn [dict_write concat].
  - rewrite splice_nil. by rewrite Nat.add_0_r.
  - simpl in Hlen. rewrite write_at_ok by lia. cbn [outcome_bind].
    rewrite IH by (rewrite length_splice; lia). rewrite <- Hl at 1.
    rewrite splice_splice_adjacent by (rewrite length_concat8 by done; lia).
    simpl. do 2 f_equal. lia.
Qed.

Lemma dict_bit_width_spec dc :
  (1 ≤ dc ≤ 32)%Z → 1 ≤ dict_bit_width dc ≤ 6 ∧ (dc < 2 ^ Z.of_nat (dict_bit_width dc))%Z.
Proof.
  intros Hdc. unfold dict_bit_width. rewrite decide_False by lia.
  pose proof (Z.log2_nonneg dc) as H0. pose proof (Z.log2_spec dc ltac:(lia)) as [H1 H2].
  assert (Z.log2 dc ≤ 5)%Z by (apply (Z.log2_le_mono dc 32); lia).
  split; [lia|]. replace (Z.of_nat _) with (Z.succ (Z.log2 dc)) by lia. done.
Qed.

Lemma word_at_seq l n : length l = n → l = map (word_at l) (seq 0 n).
Proof.
  intros <-. apply list_eq. intros k. rewrite list_lookup_fmap.
  destruct (decide (k < length l)) as [Hk|Hk].
  - rewrite lookup_seq_lt by done. simpl. unfold word_at.
    destruct (lookup_lt_is_Some_2 _ _ Hk) as [x ->]. done.
  - rewrite lookup_seq_ge, lookup_ge_None_2 by lia. done.
Qed.

(** The page image of a dictionary block: count, entries, packed indices. *)
Definition dict_header (dict : list (list Z)) : list Z :=
  to_le 4 (Z.of_nat (length dict)) ++ concat dict.
Definition dict_packed (idxs : list Z) : list Z := splice (replicate 32 0%Z) 0 idxs.

Lemma dict_header_length dict :
  Forall dict_entry_ok dict → length (dict_header dict) = 4 + length dict * 8.
Proof. intros. unfold dict_header. by rewrite length_app, length_to_le, length_concat8. Qed.

Lemma dict_compress_spec c src n dst meta :
  bytes_ok src → bytes_ok dst → 0 < n ≤ 32 → n * 8 ≤ length src → 36 + n * 8 ≤ length dst →
  ∃ dict idxs,
    Forall dict_entry_ok dict ∧ 1 ≤ length dict ≤ n ∧ length idxs = n ∧
    (∀ k idx, idxs !! k = Some idx → (0 ≤ idx)%Z ∧ dict !! Z.to_nat idx = Some (chunk8 src k)) ∧
    let bw := dict_bit_width (Z.of_nat (length dict)) in
    let h := length (dict_header dict) in
    dict_compress c src n dst meta =
      Ok (dict_header dict ++ pack_32 (dict_packed idxs) bw (drop h dst),
          (h + bitpack_compressed_size bw, n)).
Proof.
  intros Hsrc Hdst Hn Hs Hd.
  destruct (dict_index_spec n 0 src [] ∅ Hsrc ltac:(lia)) as
    (dict & idxs & E & _ & Hl & Hok & Hlen & Hidx).
  { split; [constructor|]. intros v idx H. by rewrite lookup_empty in H. }
  simpl in Hl. exists dict, idxs.
  assert (Hd1 : 1 ≤ length dict).
  { destruct idxs as [|x idxs]; simpl in Hlen; [lia|].
    destruct (Hidx 0 x) as [_ Hx]; [done|]. apply lookup_lt_Some in Hx. lia. }
  split_and!; [done|done|done|done|intros; by apply Hidx|]. intros bw h.
  destruct (dict_bit_width_spec (Z.of_nat (length dict)) ltac:(lia)) as [Hbw _]. fold bw in Hbw.
  assert (Hh : h = 4 + length dict * 8) by by apply dict_header_length.
  unfold dict_compress. rewrite Nat.min_l by lia. rewrite decide_False by lia.
  rewrite E. cbn [outcome_bind fst snd]. rewrite decide_False by lia.
  rewrite write_at_ok by (rewrite length_to_le; lia). cbn [outcome_bind].
  rewrite dict_write_spec by (first [done | rewrite length_splice; rewrite ?length_to_le; lia]).
  cbn [outcome_bind].
  pose proof (splice_splice_adjacent dst 0 (to_le 4 (Z.of_nat (length dict))) (concat dict)) as Hsp.
  rewrite length_to_le, length_concat8 in Hsp by done. change (0 + 4) with 4 in Hsp.
  rewrite Hsp by lia.
  fold (dict_header dict). fold bw. rewrite <- Hh.
  assert (Hdst2 : splice dst 0 (dict_header dict) = dict_header dict ++ drop h dst) by done.
  rewrite Hdst2. rewrite length_app, length_drop. fold h.
  rewrite slice_get_ok by (rewrite ?length_app, ?length_drop; lia).
  cbn [outcome_bind]. unfold slice. rewrite drop_app_length' by done.
  rewrite take_ge by (rewrite length_drop; lia).
  fold (dict_packed idxs). do 2 f_equal. unfold splice. rewrite take_app_length' by done.
  rewrite (drop_ge (dict_header dict ++ _)); [by rewrite app_nil_r|].
  rewrite pack_32_length by (lia || by apply Forall_drop). rewrite length_app, length_drop. lia.
Qed.

Lemma dict_decompress_spec c dict idxs page off cnt out dof meta src :
  bytes_ok src → Forall dict_entry_ok dict → 1 ≤ length dict ≤ 32 →
  length idxs ≤ 32 → length idxs * 8 ≤ length src →
  (∀ k idx, idxs !! k = Some idx → (0 ≤ idx)%Z ∧ dict !! Z.to_nat idx = Some (chunk8 src k)) →
  let bw := dict_bit_width (Z.of_nat (length dict)) in
  let h := length (dict_header dict) in
  bytes_ok page → h ≤ length page → take h page = dict_header dict →
  unpack_32 (drop h page) bw (replicate 32 0%Z) =
    map (λ k, word_at (dict_packed idxs) k mod 2 ^ Z.of_nat bw)%Z (seq 0 32) →
  off + cnt ≤ length idxs → (dof + cnt) * 8 ≤ length out →
  dict_decompress c page off out dof cnt meta =
  Ok (splice out (dof * 8) (slice src (off * 8) ((off + cnt) * 8))).
Proof.
  intros Hsrc Hok Hdl Hil Hs Hidx bw h Hpage Hlen Htake Hunpack Hoff Hout.
  destruct (dict_bit_width_spec (Z.of_nat (length dict)) ltac:(lia)) as [Hbw Hfit]. fold bw in Hbw, Hfit.
  assert (Hh : h = 4 + length dict * 8) by by apply dict_header_length.
  unfold dict_decompress. destruct (decide (cnt = 0)) as [->|Hcnt].
  { rewrite slice_nil by lia. by rewrite splice_nil. }
  rewrite decide_False by lia.
  assert (Hcount : take 4 page = to_le 4 (Z.of_nat (length dict))).
  { replace (take 4 page) with (take 4 (take h page)) by (rewrite take_take; f_equal; lia).
    rewrite Htake. unfold dict_header. by rewrite take_app_length' by by rewrite length_to_le. }
  rewrite Hcount, of_le_to_le_id by (simpl; lia).
  rewrite !decide_False by lia. rewrite Nat2Z.id.
  replace (4 + length dict * 8) with h by lia.
  rewrite slice_get_ok by lia. cbn [outcome_bind].
  assert (Hpk : slice page h (length page) = drop h page).
  { unfold slice. apply take_ge. rewrite length_drop. lia. }
  rewrite Hpk. fold bw. rewrite Hunpack.
  rewrite slice_get_ok by lia. cbn [outcome_bind].
  assert (Hdict : slice page 4 h = concat dict).
  { rewrite <- (slice_take page h) by lia. rewrite Htake. unfold dict_header.
    rewrite slice_app_r by (rewrite length_to_le; lia). rewrite length_to_le.
    rewrite <- (slice_all (concat dict)) at 2. rewrite length_concat8 by done. f_equal; lia. }
  rewrite Hdict.
  apply (for_range_write_chunks (λ i, chunk8 src (off + i))); [|done|lia|done].
  intros i o Hi Ho. rewrite Nat.mod_small by lia. rewrite word_at_map_seq by lia.
  assert (Hlt : off + i < length idxs) by lia.
  destruct (lookup_lt_is_Some_2 _ _ Hlt) as [idx Hx].
  destruct (Hidx _ _ Hx) as [H0 H1].
  assert (Hw : word_at (dict_packed idxs) (off + i) = idx).
  { unfold word_at, dict_packed.
    rewrite lookup_splice_in by (rewrite ?length_replicate; lia).
    by rewrite Nat.sub_0_r, Hx. }
  pose proof (lookup_lt_Some _ _ _ H1).
  rewrite Hw, Z.mod_small by lia. rewrite decide_False by lia.
  rewrite slice_get_ok by (rewrite ?length_concat8 by done; lia). cbn [outcome_bind].
  by rewrite (slice_concat8 dict _ _ Hok H1).
Qed.

#[export] Program Instance dict_lossless : LosslessCodec DictAlg := {|
  codec_es _ _ := 8;
  codec_admissible _ _ (src : list Z) n (dst : list Z) :=
    n ≤ 32 ∧ n * 8 ≤ length src ∧ 36 + n * 8 ≤ length dst;
|}.
Next Obligation.
  intros c meta src n dst Hsrc Hdst (Hn & Hs & Hd).
  unfold lossless_block, compress_next_page, decompress_from_page. simpl.
  destruct (decide (n = 0)) as [->|Hn0].
  { exists dst, 0. split_and!; [done..|lia|]. intros page off cnt out dof _ _ _ Hoff _.
    assert (cnt = 0) as -> by lia. unfold dict_decompress. rewrite decide_True by done.
    rewrite slice_nil by lia. by rewrite splice_nil. }
  destruct (dict_compress_spec c src n dst meta Hsrc Hdst ltac:(lia) Hs Hd) as
    (dict & idxs & Hok & Hdl & Hlen & Hidx & E). rewrite E.
  set (bw := dict_bit_width (Z.of_nat (length dict))) in *.
  set (h := length (dict_header dict)) in *.
  destruct (dict_bit_width_spec (Z.of_nat (length dict)) ltac:(lia)) as [Hbw Hfit]. fold bw in Hbw, Hfit.
  assert (Hh : h = 4 + length dict * 8) by by apply dict_header_length.
  assert (Hpl : length (dict_packed idxs) = 32).
  { unfold dict_packed. rewrite length_splice; rewrite length_replicate; lia. }
  assert (Hsz : bitpack_compressed_size bw ≤ 32).
  { unfold bitpack_compressed_size. apply Nat.Div0.div_le_upper_bound. lia. }
  pose proof (bitpack_size_bits bw) as Hszb.
  assert (Hdrop : bytes_ok (drop h dst)) by by apply Forall_drop.
  eexists _, _. split; [reflexivity|]. split_and!.
  - rewrite length_app, pack_32_length, length_drop by (done || lia). fold h. lia.
  - apply bytes_ok_app. split.
    + apply bytes_ok_app. split; [apply to_le_bytes_ok|by apply bytes_ok_concat8].
    + apply pack_32_holds; rewrite ?Hpl, ?length_drop; [done|lia|lia].
  - lia.
  - intros page off cnt out dof Hpage Hplen Htake Hoff Hout. rewrite <- Hlen in Hoff.
    rewrite (take_app_add' (dict_header dict)) in Htake by done.
    apply (dict_decompress_spec c dict idxs _ _ _ _ _ meta src); try (done || lia).
    + transitivity (take h (take (h + bitpack_compressed_size bw) page)).
      { rewrite take_take. f_equal. fold h. lia. }
      rewrite Htake. by rewrite take_app_length' by done.
    + rewrite (word_at_seq (dict_packed idxs) 32 Hpl) in Htake.
      apply (unpack_page (word_at (dict_packed idxs)) bw (drop h dst));
        [done|by apply Forall_drop|lia|rewrite length_drop; lia|rewrite length_drop; fold h; lia|].
      transitivity (take (bitpack_compressed_size bw)
        (drop h (take (h + bitpack_compressed_size bw) page))).
      { rewrite skipn_firstn_comm, take_take. f_equal. lia. }
      rewrite Htake. by rewrite drop_app_length', take_take, Nat.min_id by done.
Qed.

(** ** Properties *)

(** Run-length encoding is lossless on what it consumes.  For every source
    and destination the compressor succeeds; it stops only when all values are
    consumed, the destination has no room for another 12-byte run, or the
    source is exhausted; and from any page starting with the compressed bytes
    every range of the consumed values is read back exactly, at the requested
    output position and nowhere else. *)
Theorem rle_roundtrip (c : RleAlg) (meta : CompressionMetadata) (src : list Z) (n : nat)
    (dst : list Z) :
  bytes_ok src →
  ∃ dst' size k,
    rle_compress c src n dst meta = Ok (dst', (size, k)) ∧ size ≤ length dst ∧ k ≤ n ∧
    (k = n ∨ length dst < size + 12 ∨ length src < (k + 1) * 8) ∧
    ∀ page off cnt out dof,
      size ≤ length page → take size page = take size dst' →
      off + cnt ≤ k → k * 8 ≤ length src → (dof + cnt) * 8 ≤ length out →
      rle_decompress c page off out dof cnt meta =
      Ok (splice out (dof * 8) (slice src (off * 8) ((off + cnt) * 8))).
Proof.
  intros Hsrc. destruct (rle_compress_spec src n dst meta c Hsrc) as
    (runs & dst' & k & E & Hruns & H2 & H3 & H4 & H5 & H6 & H7 & H8).
  exists dst', (length (rle_encode runs)), k. split_and!; [done..| |].
  { unfold rle_stopped in H8. lia. }
  intros page off cnt out dof Hlen Htake Hoff Hk Hout.
  rewrite (rle_decompress_spec runs); [|done|done|by rewrite Htake| |done].
  - do 2 f_equal. rewrite <- H7. by rewrite slice_slice by lia.
  - rewrite <- H7. rewrite length_slice; lia.
Qed.

Lemma rle_roundtrip_witness :
  ∃ dst' size k,
    rle_compress mkRle (repeat_chunk 3 (to_le 8 7) ++ to_le 8 9) 4 (replicate 100 0%Z)
      (mkMeta VNull VNull Rle 0) = Ok (dst', (size, k)) ∧ size ≤ 100 ∧ k ≤ 4.
Proof.
  destruct (rle_roundtrip mkRle (mkMeta VNull VNull Rle 0)
    (repeat_chunk 3 (to_le 8 7) ++ to_le 8 9) 4 (replicate 100 0%Z) ltac:(by_compute))
    as (dst' & size & k & H1 & H2 & H3 & _).
  exists dst', size, k. exact (conj H1 (conj H2 H3)).
Defined.

(** Dictionary encoding is lossless: a block of at most 32 eight-byte
    values is taken whole by the compressor whenever the destination has the
    4 + 8n + 32 bytes it checks for, and every range of the block is read back
    from any page that starts with the compressed bytes. *)
Theorem dict_roundtrip (c : DictAlg) (meta : CompressionMetadata) (src : list Z) (n : nat)
    (dst : list Z) :
  bytes_ok src → bytes_ok dst → n ≤ 32 → n * 8 ≤ length src → 36 + n * 8 ≤ length dst →
  ∃ dst' size,
    dict_compress c src n dst meta = Ok (dst', (size, n)) ∧ size ≤ length dst ∧
    ∀ page off cnt out dof,
      bytes_ok page → size ≤ length page → take size page = take size dst' →
      off + cnt ≤ n → (dof + cnt) * 8 ≤ length out →
      dict_decompress c page off out dof cnt meta =
      Ok (splice out (dof * 8) (slice src (off * 8) ((off + cnt) * 8))).
Proof.
  intros Hsrc Hdst Hn Hs Hd.
  destruct (@codec_lossless _ _ dict_lossless c meta src n dst Hsrc Hdst
    (conj Hn (conj Hs Hd)))
    as (dst' & size & E & _ & _ & Hsize & Hread).
  exists dst', size. by split_and!.
Qed.

Lemma dict_roundtrip_witness :
  ∃ dst' size,
    dict_compress mkDict (repeat_chunk 3 (to_le 8 7) ++ to_le 8 9) 4 (replicate 100 0%Z)
      (mkMeta VNull VNull Dict 0) = Ok (dst', (size, 4)) ∧ size ≤ 100.
Proof.
  destruct (dict_roundtrip mkDict (mkMeta VNull VNull Dict 0)
    (repeat_chunk 3 (to_le 8 7) ++ to_le 8 9) 4 (replicate 100 0%Z)
    ltac:(by_compute) ltac:(by_compute) ltac:(lia) ltac:(vm_compute; lia)
    ltac:(vm_compute; lia)) as (dst' & size & H1 & H2 & _).
  exists dst', size. exact (conj H1 H2).
Defined.

(** Frame-of-reference encoding is lossless for every block of at most 32
    signed values whose distance from the frame minimum is non-negative, fits
    the bit width and does not exceed [i64::MAX]; the minimum may come from a
    [Node] id or from a floating-point statistic. *)
Theorem for_roundtrip (c : FixedFrameOfReferenceAlg) (meta : CompressionMetadata)
    (src : list Z) (n : nat) (dst : list Z) :
  bytes_ok src → bytes_ok dst → meta_bit_width meta ≤ 64 → n ≤ 32 → 256 ≤ length src →
  bitpack_compressed_size (meta_bit_width meta) ≤ length dst →
  (∀ i, i < n →
     let d := (u64_as_i64 (of_le (chunk8 src i)) - for_min meta)%Z in
     (0 ≤ d < 2 ^ Z.of_nat (meta_bit_width meta))%Z ∧ (d ≤ i64_MAX)%Z) →
  ∃ dst' size,
    for_compress c src n dst meta = Ok (dst', (size, n)) ∧ size ≤ length dst ∧
    ∀ page off cnt out dof,
      bytes_ok page → size ≤ length page → take size page = take size dst' →
      off + cnt ≤ n → (dof + cnt) * 8 ≤ length out →
      for_decompress c page off out dof cnt meta =
      Ok (splice out (dof * 8) (slice src (off * 8) ((off + cnt) * 8))).
Proof.
  intros Hsrc Hdst Hbw Hn Hs Hd Hfit.
  destruct (@codec_lossless _ _ for_lossless c meta src n dst Hsrc Hdst
    (conj Hbw (conj Hn (conj Hs (conj Hd Hfit))))) as (dst' & size & E & _ & _ & Hsize & Hread).
  exists dst', size. by split_and!.
Qed.

Lemma for_roundtrip_witness :
  ∃ dst' size,
    for_compress mkFrameOfReference (concat (map (λ k, to_le 8 (1000 + Z.of_nat k)) (seq 0 32)))
      32 (replicate 64 0%Z) (mkMeta (VNode 1000) (VNode 1031) FixedFrameOfReference 5) =
    Ok (dst', (size, 32)) ∧ size ≤ 64.
Proof.
  destruct (for_roundtrip mkFrameOfReference
    (mkMeta (VNode 1000) (VNode 1031) FixedFrameOfReference 5)
    (concat (map (λ k, to_le 8 (1000 + Z.of_nat k)) (seq 0 32))) 32 (replicate 64 0%Z))
    as (dst' & size & H1 & H2 & _).
  - by_compute.
  - by_compute.
  - simpl; lia.
  - lia.
  - vm_compute; lia.
  - vm_compute; lia.
  - intros i Hi.
    do 32 (destruct i as [|i]; [vm_compute; split; [split|]; discriminate || reflexivity|]). lia.
  - exists dst', size. exact (conj H1 H2).
Defined.

(** What the frame-of-reference encoder really does with a value below the
    frame minimum: the subtraction does not overflow, so the value is stored
    as its two's-complement distance cut to the bit width and reads back as a
    wrong number.  The comment at the subtraction says such a value is stored
    as 0 and reads back as the minimum. *)
Theorem for_below_minimum (min val : Z) (bw : nat) :
  is_i64 min → is_i64 val → (val < min)%Z → (i64_MIN ≤ val - min)%Z → bw < 63 →
  (min + 2 ^ Z.of_nat bw ≤ i64_MAX)%Z → (min - val < 2 ^ Z.of_nat bw)%Z →
  i64_wrapping_add min (u64_as_i64 (for_delta val min mod 2 ^ Z.of_nat bw)%Z) =
  (val + 2 ^ Z.of_nat bw)%Z.
Proof.
  intros Hmin Hval Hlt Hov Hbw Hmax Hd. unfold for_delta, i64_MAX, i64_MIN, is_i64 in *.
  rewrite decide_True by lia. set (p := (2 ^ Z.of_nat bw)%Z) in *.
  assert (Hp : (0 < p ≤ 2 ^ 62)%Z).
  { unfold p. split; [apply Z.pow_pos_nonneg; lia|apply Z.pow_le_mono_r; lia]. }
  assert (Hm : (u64_wrap (val - min) mod p = val - min + p)%Z).
  { unfold u64_wrap. rewrite <- (Z.mod_unique (val - min) (2 ^ 64) (-1) (val - min + 2 ^ 64)) by lia.
    assert (2 ^ 64 = p * 2 ^ (64 - Z.of_nat bw))%Z as -> by (unfold p; rewrite <- Z.pow_add_r by lia; f_equal; lia).
    symmetry. apply (Z.mod_unique _ _ (2 ^ (64 - Z.of_nat bw) - 1)); lia. }
  rewrite Hm. unfold i64_wrapping_add.
  rewrite <- (u64_wrap_id (val - min + p)) by (unfold is_u64; lia).
  rewrite (u64_as_i64_wrap (val - min + p)) by (unfold is_i64; lia).
  replace (min + (val - min + p))%Z with (val + p)%Z by lia.
  apply u64_as_i64_wrap. unfold is_i64. lia.
Qed.

Lemma for_below_minimum_witness :
  i64_wrapping_add 10 (u64_as_i64 (for_delta 5 10 mod 2 ^ 3)%Z) = 13%Z.
Proof.
  apply (for_below_minimum 10 5 3); vm_compute; first [split; discriminate || reflexivity | lia | discriminate | reflexivity].
Defined.
