(* ===== verification/Alp.v ===== *)
(** * Adaptive lossless floating point (storage/compression/alp.rs)

    A double is its bit pattern, as in Codec.v; arithmetic on doubles is the
    executable IEEE specification of the standard library ([SpecFloat], 53-bit
    significand, round to nearest even). *)
From stdpp Require Import base list list_numbers numbers.
From Stdlib Require Import ZArith Lia Bool.
From Stdlib Require Import Floats.SpecFloat.
From S2P Require Import Prelude Codec.
Open Scope Z_scope.

(** ** Doubles *)

Abbreviation f64 := spec_float.

Definition f64_from_bits (b : Z) : f64 :=
  let s := bool_decide (f64_sign b = 1) in
  if decide (f64_exp b = 2047) then (if decide (f64_frac b = 0) then S754_infinity s else S754_nan)
  else match (if decide (f64_exp b = 0) then f64_frac b else f64_frac b + 2 ^ 52) with
       | Zpos m => S754_finite s m ((if decide (f64_exp b = 0) then 1 else f64_exp b) - 1075)
       | _ => S754_zero s
       end.

Definition sign_bit (s : bool) : Z := if s then 2 ^ 63 else 0.
(** [f64::NAN] *)
Definition nan_bits : Z := 0x7ff8000000000000.
Definition f64_to_bits (x : f64) : Z :=
  match x with
  | S754_zero s => sign_bit s
  | S754_infinity s => sign_bit s + 2047 * 2 ^ 52
  | S754_nan => nan_bits
  | S754_finite s m e =>
      if decide (2 ^ 52 ≤ Zpos m) then sign_bit s + (e + 1075) * 2 ^ 52 + (Zpos m - 2 ^ 52) else sign_bit s + Zpos m
  end.

Definition f64_mul (a b : f64) : f64 := SFmul 53 1024 a b.
Definition f64_div (a b : f64) : f64 := SFdiv 53 1024 a b.
(** [z as f64] *)
Definition f64_of_int (z : Z) : f64 := binary_normalize 53 1024 z 0 false.

(** [f64::round]: to the nearest integer, halves away from zero. *)
Definition round_magnitude (m e : Z) : Z := if decide (0 ≤ e) then m * 2 ^ e else (m + 2 ^ (- e - 1)) / 2 ^ (- e).
Definition f64_round (x : f64) : f64 :=
  match x with
  | S754_finite s m e =>
      if decide (0 ≤ e) then x
      else let q := round_magnitude (Zpos m) e in binary_normalize 53 1024 (if s then - q else q) 0 s
  | _ => x
  end.

(** [x as i64] *)
Definition as_i64 (x : f64) : Z :=
  match x with
  | S754_finite s m e =>
      let mag := if decide (0 ≤ e) then Zpos m * 2 ^ e else Zpos m / 2 ^ (- e) in
      Z.max i64_MIN (Z.min i64_MAX (if s then - mag else mag))
  | S754_infinity s => if s then i64_MIN else i64_MAX
  | _ => 0
  end.

(** ** The scalar encoding *)

Definition FRAC_ARR : list f64 := map (λ k, f64_div (f64_of_int 1) (f64_of_int (10 ^ k))) (seqZ 0 11).
Definition EXP_ARR : list f64 := map (λ k, f64_of_int (10 ^ k)) (seqZ 0 11).
Definition FACTOR_ARR : list f64 := map (λ k, f64_of_int (10 ^ k)) (seqZ 0 19).

Definition NAN_SENTINEL : Z := i64_MIN.
Definition POS_INF_SENTINEL : Z := i64_MIN + 1.
Definition NEG_INF_SENTINEL : Z := i64_MIN + 2.

Definition encode_value (val : f64) (fac_idx exp_idx : nat) : Z :=
  match val with
  | S754_nan => NAN_SENTINEL
  | S754_infinity s => if s then NEG_INF_SENTINEL else POS_INF_SENTINEL
  | _ =>
      match EXP_ARR !! exp_idx, FACTOR_ARR !! fac_idx with
      | Some x, Some y =>
          let tmp := f64_div (f64_mul val x) y in
          match tmp with
          | S754_infinity true => NEG_INF_SENTINEL
          | S754_infinity false | S754_nan => POS_INF_SENTINEL
          | _ =>
              let rounded := f64_round tmp in
              if SFleb (f64_of_int (i64_MAX - 1)) rounded then i64_MAX
              else if SFleb rounded (f64_of_int (i64_MIN + 2)) then NEG_INF_SENTINEL
              else as_i64 rounded
          end
      | _, _ => 0
      end
  end.

Definition decode_value (encoded : Z) (fac_idx exp_idx : nat) : f64 :=
  if decide (encoded = NAN_SENTINEL) then S754_nan
  else if decide (encoded = POS_INF_SENTINEL) then S754_infinity false
  else if decide (encoded = NEG_INF_SENTINEL) then S754_infinity true
  else match FACTOR_ARR !! fac_idx, FRAC_ARR !! exp_idx with
       | Some x, Some y => f64_mul (f64_mul (f64_of_int encoded) x) y
       | _, _ => S754_zero false
       end.

(** ** The codec *)

Open Scope nat_scope.

Record AlpAlg := mkAlp {}.

Fixpoint read_f64s (n i : nat) (src : list Z) : outcome (list f64) :=
  match n with
  | O => Ok []
  | S n =>
      let* b := slice_get src (i * 8) (i * 8 + 8) in
      let* r := read_f64s n (i + 1) src in
      Ok (f64_from_bits (of_le b) :: r)
  end.

Definition u64_saturating_add (a b : Z) : Z := Z.min u64_MAX (a + b).
(** The cost of a pair of indices: the sum of the magnitudes of the codes. *)
Definition alp_cost (vals : list f64) (fac_idx exp_idx : nat) : Z :=
  foldl (λ cost v, u64_saturating_add cost (Z.abs (encode_value v fac_idx exp_idx))) 0%Z vals.

(** The pairs in the order of the two loops, exponent first. *)
Definition alp_pairs : list (nat * nat) := flat_map (λ e, map (λ f, (e, f)) (seq 0 19)) (seq 0 11).
Definition alp_step (vals : list f64) (best : Z * (nat * nat)) (p : nat * nat) : Z * (nat * nat) :=
  let cost := alp_cost vals (snd p) (fst p) in
  if decide (cost < fst best)%Z then (cost, p) else best.
Definition alp_best (vals : list f64) : Z * (nat * nat) := foldl (alp_step vals) (u64_MAX, (0, 0)) alp_pairs.

Definition alp_compress (_ : AlpAlg) (src : list Z) (num_values_remaining : nat) (dst : list Z)
    (_ : CompressionMetadata) : outcome (list Z * (nat * nat)) :=
  let num_values := Nat.min num_values_remaining 32 in
  if decide (num_values = 0) then Ok (dst, (0, 0))
  else if decide (length src < num_values * 8) then Err Internal
  else
    let* vals := read_f64s num_values 0 src in
    let '(_, (exp_idx, fac_idx)) := alp_best vals in
    if decide (length dst < 2 + num_values * 8) then Err Internal
    else
      let* dst := write_at dst 0 [Z.of_nat exp_idx; Z.of_nat fac_idx] in
      let* dst :=
        for_range num_values 0
          (λ i dst,
             let v := default S754_nan (vals !! i) in
             write_at dst (2 + i * 8) (to_le 8 (encode_value v fac_idx exp_idx))) dst in
      Ok (dst, (2 + num_values * 8, num_values)).

Definition alp_decompress (_ : AlpAlg) (src : list Z) (src_offset : nat) (dst : list Z) (dst_offset num_values : nat)
    (_ : CompressionMetadata) : outcome (list Z) :=
  if decide (length src < 2) then Err Internal
  else
    let exp_idx := Z.to_nat (byte_at src 0) in
    let fac_idx := Z.to_nat (byte_at src 1) in
    for_range num_values 0
      (λ i dst,
         let start := 2 + (src_offset + i) * 8 in
         if decide (length src < start + 8) then Err Internal
         else
           let* b := slice_get src start (start + 8) in
           let encoded := u64_as_i64 (of_le b) in
           let decoded := decode_value encoded fac_idx exp_idx in
           let dst_start := (dst_offset + i) * 8 in
           if decide (length dst < dst_start + 8) then Err Internal
           else write_at dst dst_start (to_le 8 (f64_to_bits decoded))) dst.

#[export] Instance alp_alg : CompressionAlg AlpAlg := {|
  get_compression_type _ := Alp;
  compress_next_page := alp_compress;
  decompress_from_page := alp_decompress;
|}.

(** ** Rounding never leaves a binade

    [binary_round_aux] gives at most the power of two above its argument. *)

Open Scope Z_scope.

Lemma shr_1_half mrs : 0 ≤ shr_m mrs → shr_m (shr_1 mrs) = shr_m mrs / 2.
Proof.
  destruct mrs as [m r s]. cbn. destruct m as [|[p|p|]|]; cbn; intros H; try done; try lia.
  - rewrite (Pos2Z.inj_xI p). replace (2 * Zpos p + 1) with (1 + Zpos p * 2) by lia. by rewrite Z.div_add.
  - rewrite (Pos2Z.inj_xO p), Z.mul_comm. by rewrite Z.div_mul.
Qed.

Lemma iter_shr p mrs : 0 ≤ shr_m mrs → shr_m (iter_pos shr_1 p mrs) = shr_m mrs / 2 ^ Zpos p.
Proof.
  revert mrs. induction p as [p IH|p IH|]; intros mrs Hm; cbn [iter_pos].
  - assert (0 ≤ shr_m (shr_1 mrs)) as H1 by (rewrite shr_1_half by done; by apply Z.div_pos).
    assert (0 ≤ shr_m (iter_pos shr_1 p (shr_1 mrs))) as H2.
    { rewrite IH by done. apply Z.div_pos; [done|lia]. }
    rewrite IH, IH, shr_1_half, !Z.div_div by lia. f_equal.
    rewrite (Pos2Z.inj_xI p), Z.pow_add_r, Z.pow_mul_r by lia. change (2 ^ 2) with (2 * 2). rewrite Z.pow_mul_l. change (2 ^ 1) with 2. ring.
  - assert (0 ≤ shr_m (iter_pos shr_1 p mrs)) by (rewrite IH by done; apply Z.div_pos; [done|lia]).
    rewrite IH, IH, Z.div_div by lia. f_equal.
    rewrite (Pos2Z.inj_xO p), Z.pow_mul_r by lia. change (2 ^ 2) with (2 * 2). by rewrite Z.pow_mul_l.
  - rewrite shr_1_half by done. done.
Qed.

Lemma shr_record_m m l : shr_m (shr_record_of_loc m l) = m.
Proof. destruct l as [|[]]; done. Qed.

(** What the two shifts of a rounding do to the exponent and the mantissa. *)
Lemma shr_fexp_spec m e l : 0 ≤ m →
  let e' := Z.max e (fexp 53 1024 (Zdigits2 m + e)) in
  snd (shr_fexp 53 1024 m e l) = e' ∧ shr_m (fst (shr_fexp 53 1024 m e l)) = m / 2 ^ (e' - e).
Proof.
  intros Hm. cbn zeta. unfold shr_fexp, shr. set (k := fexp 53 1024 (Zdigits2 m + e)).
  destruct (k - e) as [|p|p] eqn:E; cbn [fst snd].
  - replace (Z.max e k) with e by lia. rewrite Z.sub_diag, shr_record_m. split; [done|]. by rewrite Z.div_1_r.
  - split; [lia|]. rewrite iter_shr by (by rewrite shr_record_m). rewrite shr_record_m. f_equal. f_equal. lia.
  - replace (Z.max e k) with e by lia. rewrite Z.sub_diag, shr_record_m. split; [done|]. by rewrite Z.div_1_r.
Qed.

Lemma Zdigits2_log2 m : 0 < m → Zdigits2 m = Z.log2 m + 1.
Proof.
  destruct m as [|p|p]; [lia| |lia]. intros _. cbn [Zdigits2]. induction p as [p IH|p IH|]; cbn [digits2_pos]; [..|done].
  - rewrite Pos2Z.inj_succ, IH, (Pos2Z.inj_xI p), Z.log2_succ_double by lia. lia.
  - rewrite Pos2Z.inj_succ, IH, (Pos2Z.inj_xO p), Z.log2_double by lia. lia.
Qed.

Lemma Zdigits2_le m k : 0 ≤ m → 0 ≤ k → m < 2 ^ k → Zdigits2 m ≤ k.
Proof.
  intros Hm Hk Hlt. destruct (decide (m = 0)) as [->|]; [done|]. rewrite Zdigits2_log2 by lia.
  assert (Z.log2 m < k); [apply Z.log2_lt_pow2; lia|lia].
Qed.

(** The result of rounding [mx * 2^ex] (and a bit more) is at most [2^T] when
    [mx + 1] is. *)
Lemma round_bound sx mx ex lx T :
  0 ≤ mx → ex ≤ T → -1074 ≤ T ≤ 900 → mx + 1 ≤ 2 ^ (T - ex) →
  match binary_round_aux 53 1024 sx mx ex lx with
  | S754_finite s m e => s = sx ∧ e ≤ T ∧ Zpos m ≤ 2 ^ (T - e)
  | S754_zero s => s = sx
  | _ => False
  end.
Proof.
  intros Hm Hex HT Hb. unfold binary_round_aux.
  destruct (shr_fexp_spec mx ex lx Hm) as [He1 Hm1].
  destruct (shr_fexp 53 1024 mx ex lx) as [mrs' e'] eqn:E1. cbn [fst snd] in He1, Hm1. rewrite <- He1 in Hm1.
  assert (Zdigits2 mx ≤ T - ex) as Hd by (apply Zdigits2_le; lia).
  assert (ex ≤ e' ≤ T) as He'.
  { subst e'. unfold fexp, emin. lia. }
  set (m1 := round_nearest_even (shr_m mrs') (loc_of_shr_record mrs')).
  assert (0 ≤ shr_m mrs' < 2 ^ (T - e')) as Hr.
  { rewrite Hm1. split; [apply Z.div_pos; lia|]. apply Z.div_lt_upper_bound; [lia|].
    rewrite <- Z.pow_add_r by lia. replace (e' - ex + (T - e')) with (T - ex) by lia. lia. }
  assert (0 ≤ m1 ≤ 2 ^ (T - e')) as Hm1'.
  { unfold m1, round_nearest_even. destruct (loc_of_shr_record mrs') as [|[]]; try destruct (Z.even _); lia. }
  destruct (shr_fexp_spec m1 e' loc_Exact) as [He2 Hm2]; [lia|].
  destruct (shr_fexp 53 1024 m1 e' loc_Exact) as [mrs'' e''] eqn:E2. cbn [fst snd] in He2, Hm2. rewrite <- He2 in Hm2.
  assert (Zdigits2 m1 ≤ T - e' + 1) as Hd1.
  { apply Zdigits2_le; [lia|lia|]. rewrite Z.pow_add_r by lia. lia. }
  assert (e' ≤ e'' ≤ T) as He''.
  { subst e''. unfold fexp, emin in *. lia. }
  assert (shr_m mrs'' ≤ 2 ^ (T - e'')) as Hr2.
  { rewrite Hm2. replace (T - e') with ((T - e'') + (e'' - e')) in Hm1' by lia.
    rewrite Z.pow_add_r in Hm1' by lia. apply Z.div_le_upper_bound; lia. }
  assert (0 ≤ shr_m mrs'') as Hr3 by (rewrite Hm2; apply Z.div_pos; lia).
  destruct (shr_m mrs'') as [|p|p]; [done| |lia]. destruct (Z.leb_spec e'' (1024 - 53)); [|lia]. split; [done|lia].
Qed.

(** ** Small values have code 0 *)

(** The magnitude of a double is at most [2^T]. *)
Definition at_most (T : Z) (x : f64) : Prop :=
  match x with
  | S754_finite _ m e => e ≤ T ∧ Zpos m ≤ 2 ^ (T - e)
  | S754_zero _ => True
  | _ => False
  end.

Lemma round_at_most sx mx ex lx T :
  0 ≤ mx → ex ≤ T → -1074 ≤ T ≤ 900 → mx + 1 ≤ 2 ^ (T - ex) → at_most T (binary_round_aux 53 1024 sx mx ex lx).
Proof.
  intros H1 H2 H3 H4. pose proof (round_bound sx mx ex lx T H1 H2 H3 H4) as H.
  destruct (binary_round_aux 53 1024 sx mx ex lx); cbn; try done. tauto.
Qed.

Lemma mul_one_at_most x T : -1000 ≤ T ≤ 800 →
  (match x with S754_finite _ m e => e ≤ T ∧ Zpos m < 2 ^ (T - e) | S754_zero _ => True | _ => False end) →
  at_most T (f64_mul x (f64_of_int 1)).
Proof.
  intros HT Hx. change (f64_of_int 1) with (S754_finite false 4503599627370496 (-52)).
  destruct x as [s|s| |s m e]; cbn; try done. destruct Hx as [He Hm]. cbn [f64_mul SFmul].
  apply round_at_most; [lia|lia|lia|]. rewrite Pos2Z.inj_mul. change (Zpos 4503599627370496) with (2 ^ 52).
  replace (T - (e + -52)) with (52 + (T - e)) by lia. rewrite Z.pow_add_r by lia. nia.
Qed.

Lemma div_at_most x T : 0 ≤ T ≤ 800 → at_most T x → at_most (T - 58) (f64_div x (f64_of_int (10 ^ 18))).
Proof.
  intros HT Hx. change (f64_of_int (10 ^ 18)) with (S754_finite false 7812500000000000 7).
  destruct x as [s|s| |s m e]; cbn; try done. destruct Hx as [He Hm]. cbn [f64_div SFdiv]. unfold SFdiv_core_binary.
  set (e' := Z.min _ _). change (Zdigits2 (Zpos 7812500000000000)) with 53 in e'.
  assert (Zdigits2 (Zpos m) ≤ T - e + 1) as Hd.
  { apply Zdigits2_le; [lia|lia|]. rewrite Z.pow_add_r by lia. lia. }
  assert (e' ≤ T - 59 ∧ e' ≤ e - 7) as He' by (unfold e', fexp, emin; lia).
  set (m' := match e - 7 - e' with Z0 => _ | Zpos _ => _ | Zneg _ => _ end).
  assert (m' = Zpos m * 2 ^ (e - 7 - e')) as Em.
  { unfold m'. destruct (e - 7 - e') as [|p|p] eqn:E; [cbn; lia| |lia]. rewrite Z.shiftl_mul_pow2 by lia. done. }
  pose proof (Z.div_eucl_eq m' (Zpos 7812500000000000) ltac:(lia)) as Hdiv.
  pose proof (Z.mod_pos_bound m' (Zpos 7812500000000000) ltac:(lia)) as Hmod.
  unfold Z.modulo in Hmod. destruct (Z.div_eucl m' (Zpos 7812500000000000)) as [q r].
  assert (0 ≤ m') as Hm0 by (rewrite Em; nia).
  assert (m' ≤ 2 ^ (T - 7 - e')) as Hm'.
  { rewrite Em. replace (T - 7 - e') with ((T - e) + (e - 7 - e')) by lia. rewrite Z.pow_add_r by lia. nia. }
  assert (2 ^ (T - 7 - e') = 2 ^ 52 * 2 ^ (T - 59 - e')) as Hp.
  { rewrite <- Z.pow_add_r by lia. f_equal. lia. }
  assert (1 ≤ 2 ^ (T - 59 - e')) as Hp1 by (pose proof (Z.pow_pos_nonneg 2 (T - 59 - e')); lia).
  assert (0 ≤ q ≤ 2 ^ (T - 59 - e')) as Hq by (change (2 ^ 52) with 4503599627370496 in Hp; nia).
  apply round_at_most; [lia|lia|lia|]. replace (T - 58 - e') with (1 + (T - 59 - e')) by lia.
  rewrite (Z.pow_add_r 2 1) by lia. lia.
Qed.

Lemma round_small x : at_most (-2) x →
  f64_round x = S754_zero (match x with S754_finite s _ _ | S754_zero s => s | _ => false end).
Proof.
  destruct x as [s|s| |s m e]; cbn; try done. intros [He Hm]. rewrite decide_False by lia.
  unfold round_magnitude. rewrite decide_False by lia.
  assert (2 ^ (- e) = 4 * 2 ^ (-2 - e) ∧ 2 ^ (- e - 1) = 2 * 2 ^ (-2 - e)) as [E1 E2].
  { split; [replace (- e) with (2 + (-2 - e)) by lia|replace (- e - 1) with (1 + (-2 - e)) by lia]; by rewrite Z.pow_add_r by lia. }
  rewrite E1, E2. rewrite Z.div_small by lia. by destruct s.
Qed.

(** The doubles below [2^56] in magnitude. *)
Definition small (b : Z) : bool := bool_decide (f64_exp b < 1023 + 56).

Lemma f64_frac_range b : 0 ≤ f64_frac b < 2 ^ 52.
Proof. unfold f64_frac. rewrite <- (Z.ones_equiv 52 : Z.ones 52 = 2 ^ 52 - 1), Z.land_ones by lia. apply Z.mod_pos_bound. lia. Qed.
Lemma f64_exp_range b : 0 ≤ f64_exp b < 2048.
Proof. unfold f64_exp. change 2047 with (Z.ones 11). rewrite Z.land_ones by lia. apply Z.mod_pos_bound. lia. Qed.

Lemma encode_small b : small b = true → encode_value (f64_from_bits b) 18 0 = 0.
Proof.
  unfold small. rewrite bool_decide_eq_true. intros Hs.
  pose proof (f64_frac_range b) as Hf. pose proof (f64_exp_range b) as He.
  set (x := f64_from_bits b).
  assert (match x with S754_finite _ m e => e ≤ 56 ∧ Zpos m < 2 ^ (56 - e) | S754_zero _ => True | _ => False end) as Hx.
  { unfold x, f64_from_bits. cbn zeta. rewrite decide_False by lia.
    set (m := if decide (f64_exp b = 0) then _ else _). set (e := (if decide (f64_exp b = 0) then 1 else f64_exp b) - 1075).
    assert (0 ≤ m < 2 ^ 53) as Hm by (unfold m; case_decide; lia).
    assert (e ≤ 3) as He3 by (unfold e; case_decide; lia).
    destruct m as [|p|p]; [done| |lia]. split; [lia|].
    assert (2 ^ 53 ≤ 2 ^ (56 - e)) by (apply Z.pow_le_mono_r; lia). lia. }
  assert (at_most (-2) (f64_div (f64_mul x (f64_of_int 1)) (f64_of_int (10 ^ 18)))) as Hd.
  { apply (div_at_most _ 56); [lia|]. apply mul_one_at_most; [lia|done]. }
  unfold encode_value. assert (EXP_ARR !! 0%nat = Some (f64_of_int 1)) as -> by (vm_compute; reflexivity).
  assert (FACTOR_ARR !! 18%nat = Some (f64_of_int (10 ^ 18))) as -> by (vm_compute; reflexivity).
  destruct x as [sx|sx| |sx mx ex]; try (by destruct Hx); cbn zeta.
  all: pose proof (round_small _ Hd) as Hr; destruct (f64_div _ _) as [s|s| |s m e]; try done; rewrite Hr; by destruct s.
Qed.

(** ** The search picks the cheapest pair *)

Open Scope nat_scope.

Lemma alp_cost_nonneg vals f e c : (0 ≤ c)%Z → (c ≤ u64_MAX)%Z →
  (c ≤ foldl (λ cost v, u64_saturating_add cost (Z.abs (encode_value v f e))) c vals ≤ u64_MAX)%Z.
Proof.
  revert c. induction vals as [|v vals IH]; intros c H1 H2; cbn [foldl]; [lia|].
  assert (c ≤ u64_saturating_add c (Z.abs (encode_value v f e)) ≤ u64_MAX)%Z as Hs by (unfold u64_saturating_add; lia).
  specialize (IH (u64_saturating_add c (Z.abs (encode_value v f e)))). lia.
Qed.

Lemma alp_cost_zero vals f e : alp_cost vals f e = 0%Z ↔ Forall (λ v, encode_value v f e = 0%Z) vals.
Proof.
  unfold alp_cost. induction vals as [|v vals IH]; cbn [foldl]; [by split; [constructor|]|]. split.
  - intros H. assert (u64_MAX = 2 ^ 64 - 1)%Z as Hmax by done.
    assert (u64_saturating_add 0 (Z.abs (encode_value v f e)) = 0%Z) as H0.
    { pose proof (alp_cost_nonneg vals f e (u64_saturating_add 0 (Z.abs (encode_value v f e)))) as Hc.
      unfold u64_saturating_add in *. lia. }
    rewrite H0 in H. constructor; [unfold u64_saturating_add in H0; lia|by apply IH].
  - intros HF. inversion HF as [|x l Hv Hl]; subst. rewrite Hv. apply IH in Hl. exact Hl.
Qed.

(** Once a pair of cost 0 has been tried, the best pair has cost 0. *)
Lemma alp_search vals ps best :
  (0 ≤ fst best)%Z →
  let r := foldl (alp_step vals) best ps in
  (0 ≤ fst r ≤ fst best)%Z ∧ (∀ p, p ∈ ps → (fst r ≤ alp_cost vals (snd p) (fst p))%Z) ∧
  (r = best ∨ snd r ∈ ps ∧ fst r = alp_cost vals (snd (snd r)) (fst (snd r))).
Proof.
  revert best. induction ps as [|p ps IH]; intros best Hb; cbn [foldl].
  - cbn zeta. split; [lia|]. split; [intros p Hp; by apply elem_of_nil in Hp|by left].
  - assert (0 ≤ alp_cost vals (snd p) (fst p))%Z as Hc.
    { unfold alp_cost. apply alp_cost_nonneg; [lia|done]. }
    assert (0 ≤ fst (alp_step vals best p) ≤ fst best ∧ fst (alp_step vals best p) ≤ alp_cost vals (snd p) (fst p))%Z as Hs.
    { unfold alp_step. cbn zeta. case_decide; cbn [fst]; lia. }
    destruct (IH (alp_step vals best p)) as (H1 & H2 & H3); [lia|]. cbn zeta in *. split; [lia|]. split.
    + intros q Hq. apply elem_of_cons in Hq as [->|Hq]; [lia|by apply H2].
    + destruct H3 as [H3|[H3 H4]]; [|right; split; [by apply list_elem_of_further|done]].
      rewrite H3. unfold alp_step. cbn zeta. case_decide; [right|by left]. cbn [fst snd]. split; [apply list_elem_of_here|done].
Qed.

Lemma decode_zero p : p ∈ alp_pairs → decode_value 0 (snd p) (fst p) = S754_zero false.
Proof.
  assert (forallb (λ p, match decode_value 0 (snd p) (fst p) with S754_zero false => true | _ => false end) alp_pairs = true) as HF
    by (vm_compute; reflexivity).
  rewrite forallb_forall in HF. intros Hp. apply list_elem_of_In, HF in Hp. by destruct (decode_value 0 (snd p) (fst p)) as [[]| | |].
Qed.

Lemma alp_pairs_small p : p ∈ alp_pairs → fst p < 256 ∧ snd p < 256.
Proof.
  assert (Forall (λ p, fst p < 256 ∧ snd p < 256) alp_pairs) as HF by by_compute.
  rewrite list.Forall_forall in HF. apply HF.
Qed.

Lemma read_f64s_ok n i src : (i + n) * 8 ≤ length src →
  read_f64s n i src = Ok (map (λ k, f64_from_bits (of_le (slice src (k * 8) (k * 8 + 8)))) (seq i n)).
Proof.
  revert i. induction n as [|n IH]; intros i Hlen; [done|]. cbn [read_f64s seq map].
  rewrite slice_get_ok by lia. cbn [outcome_bind]. replace (S i) with (i + 1) by lia. by rewrite IH by lia.
Qed.

Lemma alp_best_zero vals : alp_cost vals 18 0 = 0%Z →
  snd (alp_best vals) ∈ alp_pairs ∧ alp_cost vals (snd (snd (alp_best vals))) (fst (snd (alp_best vals))) = 0%Z.
Proof.
  intros Hz. assert ((0, 18) ∈ alp_pairs) as Hin by by_compute.
  destruct (alp_search vals alp_pairs (u64_MAX, (0, 0)) ltac:(done)) as (H1 & H2 & H3). unfold alp_best.
  set (r := foldl (alp_step vals) (u64_MAX, (0, 0)) alp_pairs) in *. clearbody r.
  specialize (H2 _ Hin). cbn [fst snd] in H1, H2. rewrite Hz in H2.
  destruct H3 as [->|[Hp Hcp]]; [exfalso; clear -H2; unfold u64_MAX in H2; cbn in H2; lia|]. split; [done|lia].
Qed.

(** A block all of whose values are small is written as zeros. *)
Lemma alp_compress_small src n dst meta :
  1 ≤ n ≤ 32 → n * 8 ≤ length src → 2 + n * 8 ≤ length dst →
  (∀ i, i < n → small (of_le (slice src (i * 8) (i * 8 + 8))) = true) →
  ∃ p, p ∈ alp_pairs ∧
    alp_compress (mkAlp) src n dst meta =
    Ok (splice dst 0 ([Z.of_nat (fst p); Z.of_nat (snd p)] ++ replicate (n * 8) 0%Z), (2 + n * 8, n)).
Proof.
  intros Hn Hsrc Hdst Hsmall. unfold alp_compress. rewrite Nat.min_l by lia. rewrite !decide_False by lia.
  rewrite read_f64s_ok by lia. cbn [outcome_bind].
  set (vals := map _ (seq 0 n)).
  assert (alp_cost vals 18 0 = 0%Z) as Hz.
  { apply alp_cost_zero. unfold vals. apply Forall_map, list.Forall_forall. intros k Hk.
    apply elem_of_seq in Hk. apply encode_small, Hsmall. lia. }
  destruct (alp_best_zero vals Hz) as [Hp Hcp]. destruct (alp_best vals) as [c p]. cbn [fst snd] in *.
  exists p. split; [done|]. apply alp_cost_zero in Hcp.
  destruct p as [ei fi]. cbn [fst snd] in *. rewrite decide_False by lia.
  rewrite write_at_ok by (simpl; lia). cbn [outcome_bind].
  set (hdr := [Z.of_nat ei; Z.of_nat fi]).
  destruct (for_range_ind (λ k o, o = splice dst 0 (hdr ++ replicate (k * 8) 0%Z))
    (λ i dst0, write_at dst0 (2 + i * 8) (to_le 8 (encode_value (default S754_nan (vals !! i)) fi ei))) n 0 (splice dst 0 hdr))
    as (o & E & ->); [by rewrite app_nil_r| |].
  - intros k o Hk ->. eexists. split; [|reflexivity]. cbn [Nat.add].
    assert (encode_value (default S754_nan (vals !! k)) fi ei = 0%Z) as ->.
    { destruct (vals !! k) as [v|] eqn:Ev; [|apply lookup_ge_None in Ev; unfold vals in Ev; rewrite length_map, length_seq in Ev; lia].
      cbn. by apply (Forall_lookup_1 _ _ _ _ Hcp Ev). }
    rewrite write_at_ok by (rewrite length_to_le, length_splice by (rewrite length_app, length_replicate; simpl; lia); lia).
    change (to_le 8 0) with (replicate 8 0%Z). f_equal.
    replace (S (S (k * 8))) with (0 + length (hdr ++ replicate (k * 8) 0%Z)) by (rewrite length_app, length_replicate; simpl; lia).
    rewrite splice_splice_adjacent by (rewrite length_app, !length_replicate; simpl; lia). f_equal.
    rewrite <- app_assoc. f_equal. rewrite <- replicate_add. f_equal. lia.
  - rewrite E. done.
Qed.

(** Every page that starts with such a block reads as zeros. *)
Lemma alp_reads_zero page (p : nat * nat) n off cnt out dof meta :
  p ∈ alp_pairs → take (2 + n * 8) page = [Z.of_nat (fst p); Z.of_nat (snd p)] ++ replicate (n * 8) 0%Z → 1 ≤ n →
  off + cnt ≤ n → (dof + cnt) * 8 ≤ length out →
  alp_decompress mkAlp page off out dof cnt meta = Ok (splice out (dof * 8) (replicate (cnt * 8) 0%Z)).
Proof.
  intros Hp Hpage Hn Hoff Hout. set (body := [Z.of_nat (fst p); Z.of_nat (snd p)] ++ replicate (n * 8) 0%Z) in *.
  assert (length body = 2 + n * 8) as Hb by (unfold body; rewrite length_app, length_replicate; done).
  assert (2 + n * 8 ≤ length page) as Hl by (apply (f_equal length) in Hpage; rewrite length_take in Hpage; lia).
  assert (∀ k, k < 2 + n * 8 → page !! k = body !! k) as Hk by (intros k Hk; rewrite <- Hpage; by rewrite lookup_take_lt).
  unfold alp_decompress. rewrite decide_False by lia.
  assert (Z.to_nat (byte_at page 0) = fst p ∧ Z.to_nat (byte_at page 1) = snd p) as [-> ->].
  { unfold byte_at. rewrite !Hk by lia. cbn. by rewrite !Nat2Z.id. }
  assert (slice (replicate (cnt * 8) 0%Z) (0 * 8) ((0 + cnt) * 8) = replicate (cnt * 8) 0%Z) as E0.
  { rewrite <- (length_replicate (cnt * 8) 0%Z) at 2. cbn [Nat.mul Nat.add]. rewrite length_replicate. unfold slice. rewrite drop_0, Nat.sub_0_r.
    apply take_ge. rewrite length_replicate. lia. }
  etrans; [apply (for_range_write_chunks (λ _, replicate 8 0%Z) (replicate (cnt * 8) 0%Z) out cnt 0 dof 8)|by rewrite E0];
    [|intros i Hi; unfold slice; rewrite drop_replicate, take_replicate; f_equal; lia|rewrite length_replicate; lia|lia].
  intros i o Hi Ho. rewrite decide_False by lia. rewrite slice_get_ok by lia. cbn [outcome_bind].
  assert (slice page (2 + (off + i) * 8) (2 + (off + i) * 8 + 8) = replicate 8 0%Z) as ->.
  { apply list_eq_same_length with 8; [done|rewrite length_slice; lia|]. intros k x y Hlt.
    rewrite lookup_slice by lia. rewrite Hk by lia. unfold body. rewrite lookup_app_r by (simpl; lia).
    rewrite lookup_replicate. intros [-> _] Hy. apply lookup_replicate in Hy as [-> _]. done. }
  change (u64_as_i64 (of_le (replicate 8 0%Z))) with 0%Z. rewrite decode_zero by done. rewrite decide_False by lia. done.
Qed.

(** ALP erases ordinary data: the search minimises the size of the codes and
    never looks at what they decode to, so every block of doubles below [2^56]
    in magnitude is compressed to zeros, and reading any part of it back gives
    [0.0] for every value. *)
Theorem alp_erases_block src n dst meta :
  1 ≤ n ≤ 32 → n * 8 ≤ length src → 2 + n * 8 ≤ length dst →
  (∀ i, i < n → small (of_le (slice src (i * 8) (i * 8 + 8))) = true) →
  ∃ dst' size, compress_next_page mkAlp src n dst meta = Ok (dst', (size, n)) ∧
    ∀ off cnt out, off + cnt ≤ n → cnt * 8 ≤ length out →
      decompress_from_page mkAlp dst' off out 0 cnt meta = Ok (splice out 0 (replicate (cnt * 8) 0%Z)).
Proof.
  intros Hn Hsrc Hdst Hsmall. destruct (alp_compress_small src n dst meta Hn Hsrc Hdst Hsmall) as (p & Hp & E).
  eexists _, _. split; [exact E|]. intros off cnt out Hoff Hout. apply (alp_reads_zero _ p n off cnt out 0); [done| |lia|done|lia].
  set (body := [Z.of_nat (fst p); Z.of_nat (snd p)] ++ replicate (n * 8) 0%Z).
  assert (length body = 2 + n * 8) as Hb by (unfold body; rewrite length_app, length_replicate; done).
  unfold splice. rewrite take_0. cbn [app]. rewrite take_app_le by lia. apply take_ge. lia.
Qed.

(** The prices 1234.01, 1234.02, ..., 1234.32. *)
Definition demo_prices : list Z :=
  concat (map (λ k, to_le 8 (f64_to_bits (f64_div (f64_of_int (123400 + k)) (f64_of_int 100)))) (seqZ 1 32)).
Definition demo_meta : CompressionMetadata := mkMeta VNull VNull Alp 0.

Lemma demo_prices_small i : i < 32 → small (of_le (slice demo_prices (i * 8) (i * 8 + 8))) = true.
Proof.
  assert (forallb (λ i, small (of_le (slice demo_prices (i * 8) (i * 8 + 8)))) (seq 0 32) = true) as H by (vm_compute; reflexivity).
  rewrite forallb_forall in H. intros Hi. apply H, in_seq. lia.
Qed.

Lemma alp_erases_block_witness :
  ∃ dst' size, compress_next_page mkAlp demo_prices 32 (replicate 4096 0%Z) demo_meta = Ok (dst', (size, 32)) ∧
    ∀ off cnt out, off + cnt ≤ 32 → cnt * 8 ≤ length out →
      decompress_from_page mkAlp dst' off out 0 cnt demo_meta = Ok (splice out 0 (replicate (cnt * 8) 0%Z)).
Proof.
  apply (alp_erases_block demo_prices 32 (replicate 4096 0%Z) demo_meta).
  - lia.
  - by_compute.
  - by_compute.
  - apply demo_prices_small.
Defined.

(** The three special values come back whatever the indices. *)
Lemma alp_specials fac exp :
  decode_value (encode_value S754_nan fac exp) fac exp = S754_nan ∧
  ∀ s, decode_value (encode_value (S754_infinity s) fac exp) fac exp = S754_infinity s.
Proof. split; [done|]. by intros []. Qed.
