(* ===== verification/PageState.v ===== *)
(** * Page state word (storage/page_state.rs)

    A frame of the buffer pool carries one atomic 64-bit word: the dirty bit,
    the referenced bit, six bits of latch state and a 56-bit version counter.
    Each method of [PageState] is one atomic operation on the word (or a
    compare-and-swap loop around one), so a method is a function from the word
    to the new word and its result.  The abstract view [PageFields] is the
    record that the packed word stands for. *)
From stdpp Require Import base list numbers relations.
From Stdlib Require Import ZArith Lia Bool.
From S2P Require Import Prelude.

Open Scope Z_scope.

(** ** The packed word *)

Definition UNLOCKED : Z := 0.
Definition LOCKED : Z := 1.
Definition MARKED : Z := 2.
Definition EVICTED : Z := 3.

Definition DIRTY_MASK : Z := 0x8000000000000000.
Definition REFERENCED_MASK : Z := 0x4000000000000000.
Definition STATE_MASK : Z := 0x3F00000000000000.
Definition VERSION_MASK : Z := 0x00FFFFFFFFFFFFFF.
Definition STATE_SHIFT : Z := 56.

Definition page_state_new : Z := Z.shiftl EVICTED STATE_SHIFT.

Definition get_state (w : Z) : Z := Z.shiftr (Z.land w STATE_MASK) STATE_SHIFT.
Definition get_version (w : Z) : Z := Z.land w VERSION_MASK.
Definition is_dirty (w : Z) : bool := negb (Z.land w DIRTY_MASK =? 0).
Definition is_referenced (w : Z) : bool := negb (Z.land w REFERENCED_MASK =? 0).

Definition update_state_with_same_version (old_val new_state : Z) : Z :=
  Z.lor (Z.land old_val (u64_not STATE_MASK)) (Z.shiftl new_state STATE_SHIFT).

Definition update_state_and_increment_version (old_val new_state : Z) : Z :=
  let new_version := Z.land (u64_wrap (Z.land old_val VERSION_MASK + 1)) VERSION_MASK in
  Z.lor (Z.lor (Z.land (Z.land old_val (u64_not STATE_MASK)) (u64_not VERSION_MASK))
               (Z.shiftl new_state STATE_SHIFT))
        new_version.

(** The first argument is the current content of the atomic word. *)
Definition compare_exchange (w expected new : Z) : Z * bool :=
  if decide (w = expected) then (new, true) else (w, false).

Definition try_lock (w old_state_and_version : Z) : Z * bool :=
  if decide (Z.land old_state_and_version STATE_MASK = Z.shiftl LOCKED STATE_SHIFT)
  then (w, false)
  else compare_exchange w old_state_and_version
         (update_state_with_same_version old_state_and_version LOCKED).

(** [unlock] loads the word, computes the new one and retries while the
    compare-and-swap fails.  An element of [env] is one iteration: what other
    threads do to the word between the load and the exchange, and whether the
    weak exchange fails spuriously.  When [env] is used up, the next iteration
    runs without interference. *)
Fixpoint unlock (env : list ((Z → Z) * bool)) (w : Z) : Z :=
  match env with
  | [] =>
      fst (compare_exchange w w (update_state_and_increment_version w UNLOCKED))
  | (f, spurious) :: env =>
      let old_val := w in
      let w := f w in
      let '(w, ok) :=
        if spurious : bool then (w, false)
        else compare_exchange w old_val (update_state_and_increment_version old_val UNLOCKED) in
      if ok : bool then w else unlock env w
  end.

Definition set_dirty (w : Z) : Z := Z.lor w DIRTY_MASK.
Definition clear_dirty (w : Z) : Z := Z.land w (u64_not DIRTY_MASK).
Definition set_referenced (w : Z) : Z := Z.lor w REFERENCED_MASK.
Definition clear_referenced (w : Z) : Z := Z.land w (u64_not REFERENCED_MASK).

(** ** The abstract view *)

Record PageFields := mkFields {
  f_dirty : bool;
  f_referenced : bool;
  f_state : Z;
  f_version : Z;
}.

#[global] Instance PageFields_eq_dec : EqDecision PageFields.
Proof. solve_decision. Defined.

Definition fields (w : Z) : PageFields :=
  mkFields (is_dirty w) (is_referenced w) (get_state w) (get_version w).

(** Operations of any thread on the word. *)
Inductive page_op :=
| OpTryLock (snapshot : Z)
| OpUnlock
| OpSetDirty
| OpClearDirty
| OpSetReferenced
| OpClearReferenced.

Definition exec (o : page_op) (w : Z) : Z :=
  match o with
  | OpTryLock s => fst (try_lock w s)
  | OpUnlock => unlock [] w
  | OpSetDirty => set_dirty w
  | OpClearDirty => clear_dirty w
  | OpSetReferenced => set_referenced w
  | OpClearReferenced => clear_referenced w
  end.

(** What each operation means on the record; locking succeeds exactly when the
    snapshot still describes the page and the page is not locked. *)
Definition spec_exec (o : page_op) (p : PageFields) : PageFields :=
  match o with
  | OpTryLock s =>
      if decide (fields s = p ∧ f_state p ≠ LOCKED)
      then mkFields (f_dirty p) (f_referenced p) LOCKED (f_version p) else p
  | OpUnlock =>
      mkFields (f_dirty p) (f_referenced p) UNLOCKED ((f_version p + 1) mod 2 ^ 56)
  | OpSetDirty => mkFields true (f_referenced p) (f_state p) (f_version p)
  | OpClearDirty => mkFields false (f_referenced p) (f_state p) (f_version p)
  | OpSetReferenced => mkFields (f_dirty p) true (f_state p) (f_version p)
  | OpClearReferenced => mkFields (f_dirty p) false (f_state p) (f_version p)
  end.

(** ** Bits of the word *)

Lemma testbit_STATE_MASK i : 0 ≤ i → Z.testbit STATE_MASK i = (56 <=? i) && (i <? 62).
Proof.
  intros. change STATE_MASK with (Z.shiftl (Z.shiftl 1 6 - 1) 56).
  rewrite testbit_shiftl by lia. destruct (Z.leb_spec 56 i); simpl; [|done].
  rewrite testbit_mask by lia. destruct (Z.ltb_spec (i - 56) 6), (Z.ltb_spec i 62); lia.
Qed.

Lemma testbit_VERSION_MASK i : 0 ≤ i → Z.testbit VERSION_MASK i = (i <? 56).
Proof. intros. change VERSION_MASK with (2 ^ 56 - 1). by apply testbit_pow_pred. Qed.

Lemma testbit_DIRTY_MASK i : 0 ≤ i → Z.testbit DIRTY_MASK i = (63 =? i).
Proof. intros. change DIRTY_MASK with (2 ^ 63). by apply Z.pow2_bits_eqb. Qed.

Lemma testbit_REFERENCED_MASK i : 0 ≤ i → Z.testbit REFERENCED_MASK i = (62 =? i).
Proof. intros. change REFERENCED_MASK with (2 ^ 62). by apply Z.pow2_bits_eqb. Qed.

Lemma testbit_u64_not z i : 0 ≤ i → Z.testbit (u64_not z) i = xorb (Z.testbit z i) (i <? 64).
Proof. intros. unfold u64_not. by rewrite Z.lxor_spec, testbit_pow_pred by lia. Qed.

#[local] Hint Rewrite testbit_STATE_MASK testbit_VERSION_MASK testbit_DIRTY_MASK
  testbit_REFERENCED_MASK testbit_u64_not using lia : bits.

Lemma land_pow2_ne0 w n : 0 ≤ n → negb (Z.land w (2 ^ n) =? 0) = Z.testbit w n.
Proof.
  intros Hn. destruct (Z.testbit w n) eqn:E.
  - apply negb_true_iff, Z.eqb_neq. intros H0.
    assert (Z.testbit (Z.land w (2 ^ n)) n = true) as H.
    { by rewrite Z.land_spec, E, Z.pow2_bits_true by lia. }
    by rewrite H0, Z.testbit_0_l in H.
  - apply negb_false_iff, Z.eqb_eq, Z.bits_inj'. intros i Hi.
    rewrite Z.land_spec, Z.pow2_bits_eqb, Z.testbit_0_l by lia.
    destruct (Z.eqb_spec n i) as [<-|]; [by rewrite E|apply andb_false_r].
Qed.

Lemma is_dirty_bit w : is_dirty w = Z.testbit w 63.
Proof. apply (land_pow2_ne0 w 63). lia. Qed.

Lemma is_referenced_bit w : is_referenced w = Z.testbit w 62.
Proof. apply (land_pow2_ne0 w 62). lia. Qed.

Lemma get_state_bit w i : 0 ≤ i →
  Z.testbit (get_state w) i = (i <? 6) && Z.testbit w (i + 56).
Proof.
  intros. unfold get_state, STATE_SHIFT. rewrite Z.shiftr_spec by lia. autorewrite with bits.
  rewrite andb_comm. f_equal.
  destruct (Z.leb_spec 56 (i + 56)), (Z.ltb_spec (i + 56) 62), (Z.ltb_spec i 6); lia.
Qed.

Lemma get_version_bit w i : 0 ≤ i →
  Z.testbit (get_version w) i = (i <? 56) && Z.testbit w i.
Proof. intros. unfold get_version. autorewrite with bits. apply andb_comm. Qed.

Lemma get_version_mod w : get_version w = w mod 2 ^ 56.
Proof. unfold get_version. change VERSION_MASK with (Z.ones 56). by apply Z.land_ones. Qed.

(** Two words agree on a field when they agree on the bits of the field. *)
Lemma get_state_ext w w' :
  (∀ i, 56 ≤ i < 62 → Z.testbit w i = Z.testbit w' i) → get_state w = get_state w'.
Proof.
  intros H. apply Z.bits_inj'. intros i Hi. rewrite !get_state_bit by lia.
  destruct (Z.ltb_spec i 6); simpl; [apply H; lia|done].
Qed.

Lemma get_version_ext w w' :
  (∀ i, 0 ≤ i < 56 → Z.testbit w i = Z.testbit w' i) → get_version w = get_version w'.
Proof.
  intros H. apply Z.bits_inj'. intros i Hi. rewrite !get_version_bit by lia.
  destruct (Z.ltb_spec i 56); simpl; [apply H; lia|done].
Qed.

(** Decides a bit of a masked word once the index is in a known range. *)
Ltac bit_cases :=
  autorewrite with bits;
  repeat match goal with
  | |- context [?a <=? ?b] => destruct (Z.leb_spec a b); try lia
  | |- context [?a <? ?b] => destruct (Z.ltb_spec a b); try lia
  | |- context [?a =? ?b] => destruct (Z.eqb_spec a b); try lia
  end;
  rewrite ?andb_true_r, ?andb_false_r, ?orb_false_r, ?orb_true_r, ?xorb_true_r, ?xorb_false_r;
  try done.

(** The record determines the word: no two words have the same fields. *)
Lemma fields_inj w w' : is_u64 w → is_u64 w' → fields w = fields w' → w = w'.
Proof.
  intros Hw Hw' [= Hd Hr Hs Hv]. rewrite !is_dirty_bit in Hd. rewrite !is_referenced_bit in Hr.
  apply (bits_eq 64); [lia|apply Hw|apply Hw'|]. intros i Hi.
  destruct (decide (i < 56)).
  - apply (f_equal (λ v, Z.testbit v i)) in Hv. rewrite !get_version_bit in Hv by lia.
    by destruct (Z.ltb_spec i 56); [|lia].
  - destruct (decide (i < 62)).
    + apply (f_equal (λ v, Z.testbit v (i - 56))) in Hs. rewrite !get_state_bit in Hs by lia.
      replace (i - 56 + 56) with i in Hs by lia.
      by destruct (Z.ltb_spec (i - 56) 6); [|lia].
    + by destruct (decide (i = 62)) as [->|]; [|replace i with 63 by lia].
Qed.

(** The lock test of [try_lock] reads the state field. *)
Lemma locked_test w : Z.land w STATE_MASK = Z.shiftl LOCKED STATE_SHIFT ↔ get_state w = LOCKED.
Proof.
  unfold get_state. split.
  - intros ->. done.
  - intros H. transitivity (Z.shiftl (Z.shiftr (Z.land w STATE_MASK) STATE_SHIFT) STATE_SHIFT);
      [|by rewrite H].
    apply Z.bits_inj'. intros i Hi. unfold STATE_SHIFT.
    rewrite testbit_shiftl by lia.
    destruct (Z.leb_spec 56 i); simpl; [|bit_cases].
    rewrite Z.shiftr_spec by lia. f_equal. lia.
Qed.

(** ** Fields of the updated word *)

Lemma testbit_LOCKED_shift i : 0 ≤ i → Z.testbit (Z.shiftl LOCKED STATE_SHIFT) i = (56 =? i).
Proof. intros. change (Z.shiftl LOCKED STATE_SHIFT) with (2 ^ 56). by apply Z.pow2_bits_eqb. Qed.

#[local] Hint Rewrite testbit_LOCKED_shift using lia : bits.

Lemma fields_lock w :
  fields (update_state_with_same_version w LOCKED) =
  mkFields (is_dirty w) (is_referenced w) LOCKED (get_version w).
Proof.
  unfold fields, update_state_with_same_version. f_equal.
  - rewrite !is_dirty_bit. bit_cases.
  - rewrite !is_referenced_bit. bit_cases.
  - transitivity (get_state (Z.shiftl LOCKED STATE_SHIFT)); [|done].
    apply get_state_ext. intros i Hi. bit_cases.
  - apply get_version_ext. intros i Hi. bit_cases.
Qed.

Lemma increment_version_bits w i :
  0 ≤ i →
  Z.testbit (update_state_and_increment_version w UNLOCKED) i =
  if i <? 56 then Z.testbit (get_version w + 1) i
  else if i <? 62 then false else (i <? 64) && Z.testbit w i.
Proof.
  intros Hi. unfold update_state_and_increment_version. fold (get_version w).
  change (Z.shiftl UNLOCKED STATE_SHIFT) with 0.
  rewrite u64_wrap_id.
  2:{ rewrite get_version_mod. unfold is_u64. pose proof (Z.mod_pos_bound w (2 ^ 56)). lia. }
  rewrite Z.lor_0_r. bit_cases.
  all: by destruct (Z.testbit w i).
Qed.

Lemma fields_unlock w :
  fields (update_state_and_increment_version w UNLOCKED) =
  mkFields (is_dirty w) (is_referenced w) UNLOCKED ((get_version w + 1) mod 2 ^ 56).
Proof.
  unfold fields. f_equal.
  - by rewrite !is_dirty_bit, increment_version_bits by lia.
  - by rewrite !is_referenced_bit, increment_version_bits by lia.
  - transitivity (get_state 0); [|done]. apply get_state_ext. intros i Hi.
    rewrite increment_version_bits, Z.testbit_0_l by lia. bit_cases.
  - rewrite <- get_version_mod. apply get_version_ext. intros i Hi.
    rewrite increment_version_bits by lia. bit_cases.
Qed.

(** A flag operation, field by field. *)
Ltac fields_by_bits :=
  unfold fields; f_equal;
  [rewrite ?is_dirty_bit; bit_cases
  |rewrite ?is_referenced_bit; bit_cases
  |apply get_state_ext; intros; bit_cases
  |apply get_version_ext; intros; bit_cases].

Lemma fields_set_dirty w :
  fields (set_dirty w) = mkFields true (is_referenced w) (get_state w) (get_version w).
Proof. unfold set_dirty. fields_by_bits. Qed.

Lemma fields_clear_dirty w :
  fields (clear_dirty w) = mkFields false (is_referenced w) (get_state w) (get_version w).
Proof. unfold clear_dirty. fields_by_bits. Qed.

Lemma fields_set_referenced w :
  fields (set_referenced w) = mkFields (is_dirty w) true (get_state w) (get_version w).
Proof. unfold set_referenced. fields_by_bits. Qed.

Lemma fields_clear_referenced w :
  fields (clear_referenced w) = mkFields (is_dirty w) false (get_state w) (get_version w).
Proof. unfold clear_referenced. fields_by_bits. Qed.

Lemma compare_exchange_same w new : compare_exchange w w new = (new, true).
Proof. unfold compare_exchange. by rewrite decide_True. Qed.

(** ** [try_lock] *)

(** A snapshot of the current, unlocked word is the only one that locks. *)
Lemma try_lock_success w s :
  snd (try_lock w s) = true ↔ w = s ∧ get_state w ≠ LOCKED.
Proof.
  unfold try_lock, compare_exchange.
  destruct (decide (Z.land s STATE_MASK = _)) as [H|H]; simpl.
  - apply locked_test in H. split; [done|]. by intros [-> ?].
  - rewrite locked_test in H. destruct (decide (w = s)) as [->|]; simpl; intuition congruence.
Qed.

Lemma try_lock_word w s :
  fst (try_lock w s) =
  if snd (try_lock w s) then update_state_with_same_version w LOCKED else w.
Proof.
  unfold try_lock, compare_exchange.
  destruct (decide (Z.land s STATE_MASK = _)); [done|]. by destruct (decide (w = s)) as [->|].
Qed.

(** ** Refinement of the record *)

Lemma exec_u64_bits w o :
  is_u64 w → ∀ i, 64 ≤ i → Z.testbit (exec o w) i = false.
Proof.
  intros Hw i Hi.
  assert (Z.testbit w i = false) as E by (apply (testbit_wrap_high w 64); [apply Hw|lia]).
  destruct o as [s| | | | |]; simpl.
  - rewrite try_lock_word. destruct (snd _); [|done].
    unfold update_state_with_same_version. bit_cases; by rewrite E.
  - rewrite compare_exchange_same. cbn [fst]. rewrite increment_version_bits by lia. bit_cases.
  - unfold set_dirty. bit_cases; by rewrite E.
  - unfold clear_dirty. bit_cases; by rewrite E.
  - unfold set_referenced. bit_cases; by rewrite E.
  - unfold clear_referenced. bit_cases; by rewrite E.
Qed.

Lemma exec_nonneg w o : is_u64 w → 0 ≤ exec o w.
Proof.
  intros [Hw _]. destruct o as [s| | | | |]; simpl.
  - rewrite try_lock_word. destruct (snd _); [|done].
    unfold update_state_with_same_version. rewrite Z.lor_nonneg, Z.land_nonneg. by split; [left|].
  - rewrite compare_exchange_same. cbn [fst]. unfold update_state_and_increment_version.
    rewrite !Z.lor_nonneg, !Z.land_nonneg. split_and!; [by left; left|done|by right].
  - unfold set_dirty. by rewrite Z.lor_nonneg.
  - unfold clear_dirty. rewrite Z.land_nonneg. by left.
  - unfold set_referenced. by rewrite Z.lor_nonneg.
  - unfold clear_referenced. rewrite Z.land_nonneg. by left.
Qed.

Lemma exec_u64 w o : is_u64 w → is_u64 (exec o w).
Proof.
  intros Hw. split; [by apply exec_nonneg|].
  apply bits_bound; [lia|by apply exec_nonneg|]. by apply exec_u64_bits.
Qed.

Definition snapshot_ok (o : page_op) : Prop :=
  match o with OpTryLock s => is_u64 s | _ => True end.

#[global] Instance snapshot_ok_dec o : Decision (snapshot_ok o).
Proof. destruct o; apply _. Defined.

Lemma exec_fields w o :
  is_u64 w → snapshot_ok o → fields (exec o w) = spec_exec o (fields w).
Proof.
  intros Hw Hs. destruct o as [s| | | | |]; cbn [exec spec_exec unlock].
  - rewrite try_lock_word. pose proof (try_lock_success w s) as Hsucc.
    destruct (decide (fields s = fields w ∧ _)) as [[F L]|D].
    + apply fields_inj in F as ->; [|done..].
      rewrite (proj2 Hsucc (conj eq_refl L)). apply fields_lock.
    + destruct (snd (try_lock w s)) eqn:E; [|reflexivity].
      destruct (proj1 Hsucc eq_refl) as [-> L]. by destruct D.
  - rewrite compare_exchange_same. apply fields_unlock.
  - apply fields_set_dirty.
  - apply fields_clear_dirty.
  - apply fields_set_referenced.
  - apply fields_clear_referenced.
Qed.

(** The packed word implements the record of its four fields: every
    operation of [PageState] changes exactly the fields its specification
    says, on every word and every snapshot, and stays a 64-bit word. *)
Theorem page_word_refines_fields w o :
  is_u64 w → snapshot_ok o →
  fields (exec o w) = spec_exec o (fields w) ∧ is_u64 (exec o w).
Proof. intros Hw Ho. split; [by apply exec_fields|by apply exec_u64]. Qed.

Lemma page_word_refines_fields_witness :
  fields (exec (OpTryLock page_state_new) page_state_new)
    = mkFields false false LOCKED 0 ∧
  is_u64 (exec (OpTryLock page_state_new) page_state_new).
Proof.
  exact (page_word_refines_fields page_state_new (OpTryLock page_state_new)
           ltac:(by_compute) ltac:(by_compute)).
Defined.

(** The retry loop of [unlock] loses no concurrent update: whatever other
    threads do between its load and its exchange, and however often the weak
    exchange fails spuriously, the loop ends having applied one atomic unlock
    to the word as the interference of its first [k] iterations left it. *)
Theorem unlock_linearizes env w :
  ∃ k, (k ≤ length env)%nat ∧
    unlock env w = exec OpUnlock (foldl (λ w e, fst e w) w (take k env)).
Proof.
  revert w. induction env as [|[f spurious] env IH]; intros w; simpl.
  - by exists 0%nat.
  - destruct (IH (f w)) as (k & Hk & E).
    assert (∃ k, (k ≤ S (length env))%nat ∧
      unlock env (f w) = fst (compare_exchange
        (foldl (λ w e, fst e w) w (take k ((f, spurious) :: env)))
        (foldl (λ w e, fst e w) w (take k ((f, spurious) :: env)))
        (update_state_and_increment_version
          (foldl (λ w e, fst e w) w (take k ((f, spurious) :: env))) UNLOCKED))) as Hretry.
    { exists (S k). split; [lia|]. exact E. }
    destruct spurious; [exact Hretry|].
    unfold compare_exchange at 1. case_decide as D; [|exact Hretry].
    exists 1%nat. split; [lia|]. simpl. by rewrite D, compare_exchange_same.
Qed.

(** ** The latch protocol

    Threads race on one word.  A thread that got [true] from [try_lock] is the
    holder and the only one to call [unlock]; any thread may toggle the flag
    bits at any time. *)
Record latch := mkLatch { l_word : Z; l_holder : option nat }.

Definition flag_op (o : page_op) : Prop :=
  match o with OpTryLock _ | OpUnlock => False | _ => True end.

Inductive latch_step : latch → latch → Prop :=
| step_lock l t s :
    is_u64 s → snd (try_lock (l_word l) s) = true →
    latch_step l (mkLatch (fst (try_lock (l_word l) s)) (Some t))
| step_lock_fails l s :
    is_u64 s → snd (try_lock (l_word l) s) = false →
    latch_step l (mkLatch (fst (try_lock (l_word l) s)) (l_holder l))
| step_unlock l t :
    l_holder l = Some t →
    latch_step l (mkLatch (exec OpUnlock (l_word l)) None)
| step_flag l o :
    flag_op o → latch_step l (mkLatch (exec o (l_word l)) (l_holder l)).

Definition latch_init : latch := mkLatch page_state_new None.

Definition latch_inv (l : latch) : Prop :=
  is_u64 (l_word l) ∧ (is_Some (l_holder l) ↔ get_state (l_word l) = LOCKED).

Lemma get_state_exec w o :
  is_u64 w → snapshot_ok o → get_state (exec o w) = f_state (spec_exec o (fields w)).
Proof. intros. by rewrite <- exec_fields. Qed.

Lemma latch_step_inv l l' : latch_step l l' → latch_inv l → latch_inv l'.
Proof.
  unfold latch_inv. intros Hstep [Hw Hh].
  destruct Hstep as [l t s Hs E|l s Hs E|l t E|l o Ho]; cbn [l_word l_holder].
  - split; [by apply (exec_u64 _ (OpTryLock s))|]. rewrite try_lock_word, E.
    pose proof (fields_lock (l_word l)) as [= _ _ -> _]. done.
  - rewrite try_lock_word, E. done.
  - split; [by apply exec_u64|]. rewrite get_state_exec by done.
    cbn. split; [by intros [? ?]|done].
  - split; [by apply exec_u64|]. rewrite get_state_exec; [|done|by destruct o].
    by destruct o.
Qed.

Lemma latch_reachable_inv l : rtc latch_step latch_init l → latch_inv l.
Proof.
  revert l. apply rtc_ind_r; [|by eauto using latch_step_inv].
  split; [by_compute|]. split; [by intros [? ?]|done].
Qed.

(** Mutual exclusion: in every state the threads can reach from a fresh
    frame, while one thread holds the latch [try_lock] fails for every other
    thread, whatever snapshot it presents, and leaves the word unchanged. *)
Theorem latch_mutual_exclusion l t s :
  rtc latch_step latch_init l → l_holder l = Some t →
  try_lock (l_word l) s = (l_word l, false).
Proof.
  intros Hr Ht. destruct (latch_reachable_inv l Hr) as [_ Hinv].
  assert (get_state (l_word l) = LOCKED) as HL by (apply Hinv; eauto).
  assert (snd (try_lock (l_word l) s) = false) as E.
  { apply not_true_is_false. rewrite try_lock_success. by intros [_ ?]. }
  pose proof (try_lock_word (l_word l) s) as Hw. rewrite E in Hw.
  by rewrite (surjective_pairing (try_lock _ s)), E, Hw.
Qed.

Lemma latch_mutual_exclusion_witness :
  let w := fst (try_lock page_state_new page_state_new) in try_lock w w = (w, false).
Proof.
  set (l := mkLatch (fst (try_lock page_state_new page_state_new)) (Some 7%nat)).
  refine (latch_mutual_exclusion l 7%nat (l_word l) _ eq_refl).
  apply rtc_once. apply (step_lock latch_init 7%nat page_state_new); by_compute.
Defined.

Definition run_ops (ops : list page_op) (w : Z) : Z := foldl (λ w o, exec o w) w ops.

Definition is_unlock (o : page_op) : bool := match o with OpUnlock => true | _ => false end.
Definition unlocks (ops : list page_op) : nat := length (filter is_unlock ops).

Lemma exec_version w o :
  is_u64 w → snapshot_ok o →
  get_version (exec o w) =
  match o with OpUnlock => (get_version w + 1) mod 2 ^ 56 | _ => get_version w end.
Proof.
  intros Hw Ho. pose proof (exec_fields w o Hw Ho) as H.
  apply (f_equal f_version) in H. cbn [f_version fields] in H. rewrite H.
  destruct o; cbn [spec_exec]; [destruct (decide (_ ∧ _))|..]; reflexivity.
Qed.

Lemma run_ops_version ops w :
  is_u64 w → Forall snapshot_ok ops →
  get_version (run_ops ops w) = (get_version w + Z.of_nat (unlocks ops)) mod 2 ^ 56.
Proof.
  intros Hw Ho. revert w Hw. induction Ho as [|o ops Ho _ IH]; intros w Hw; simpl.
  - rewrite Z.add_0_r, get_version_mod, Z.mod_mod by lia. done.
  - rewrite IH by by apply exec_u64. rewrite exec_version by done. unfold unlocks.
    destruct o; [rewrite filter_cons_False by auto; reflexivity| |
      rewrite filter_cons_False by auto; reflexivity..].
    rewrite filter_cons_True by done. cbn [length].
    rewrite Zplus_mod_idemp_l. f_equal. lia.
Qed.

(** Optimistic validation: if a page's version is the same after any
    sequence of operations by any threads as it was before, and the sequence
    has fewer than [2^56] unlocks, then nobody released the page in between
    (the counter only repeats after wrapping its 56 bits). *)
Theorem version_detects_writers ops w :
  is_u64 w → Forall snapshot_ok ops → Z.of_nat (unlocks ops) < 2 ^ 56 →
  get_version (run_ops ops w) = get_version w → unlocks ops = 0%nat.
Proof.
  intros Hw Ho Hn Hv. rewrite run_ops_version in Hv by done.
  rewrite get_version_mod, Zplus_mod_idemp_l in Hv.
  assert (Z.of_nat (unlocks ops) mod 2 ^ 56 = 0) as H0.
  { replace (Z.of_nat (unlocks ops)) with (w + Z.of_nat (unlocks ops) - w) by lia.
    rewrite Zminus_mod, Hv, Z.sub_diag. done. }
  rewrite Z.mod_small in H0 by lia. lia.
Qed.

Lemma version_detects_writers_witness :
  unlocks [OpTryLock page_state_new; OpSetDirty; OpSetReferenced] = 0%nat.
Proof.
  apply (version_detects_writers _ page_state_new); by_compute.
Defined.
