(* ===== verification/RowVersion.v ===== *)
(** * Row versions (storage/row_version.rs)

    The multi-version bookkeeping of a table: which transaction is modifying a
    row, and the first and last commit timestamps of the row.  The source
    spreads rows over sixteen locked shards by a 64-bit mixing hash; a method
    holds the locks of the shard it works on, so each method is a function
    on the whole structure.  [view] is the abstract state, one cell per row,
    and every operation is shown to act on the cells as the sharding were not
    there. *)
From stdpp Require Import base list gmap numbers relations.
From Stdlib Require Import ZArith Lia Bool.
From S2P Require Import Prelude.

(** ** State *)

Record CommittedVersion := mkCommitted { first_ts : Z; last_ts : Z }.

#[global] Instance CommittedVersion_eq_dec : EqDecision CommittedVersion.
Proof. solve_decision. Defined.

Record RowVersionShard := mkShard {
  versions : gmap Z Z;                    (* row_id -> tx_id *)
  committed : gmap Z CommittedVersion;    (* row_id -> commit history *)
}.

Record RowVersion := mkRowVersion {
  shards : list RowVersionShard;
  dirty_flag : bool;
}.

Definition num_shards : nat := 16.
Definition empty_shard : RowVersionShard := mkShard ∅ ∅.
Definition row_version_new : RowVersion :=
  mkRowVersion (replicate num_shards empty_shard) false.

Definition get_shard_idx (row_id : Z) : nat :=
  let h := row_id in
  let h := Z.lxor h (Z.shiftr h 33) in
  let h := u64_wrap (h * 0xff51afd7ed558ccd) in
  let h := Z.lxor h (Z.shiftr h 33) in
  let h := u64_wrap (h * 0xc4ceb9fe1a85ec53) in
  let h := Z.lxor h (Z.shiftr h 33) in
  Z.to_nat (h mod Z.of_nat num_shards).

(** [self.shards[idx]]; [get_shard_idx_lt] shows that the index is in range. *)
Definition shard_at (rv : RowVersion) (idx : nat) : RowVersionShard :=
  default empty_shard (shards rv !! idx).
Definition update_shard (f : RowVersionShard → RowVersionShard) (idx : nat) (rv : RowVersion) :
    RowVersion :=
  mkRowVersion (alter f idx (shards rv)) (dirty_flag rv).
Definition set_dirty_flag (b : bool) (rv : RowVersion) : RowVersion :=
  mkRowVersion (shards rv) b.

Definition clear_dirty_flag : RowVersion → RowVersion := set_dirty_flag false.
Definition mark_dirty : RowVersion → RowVersion := set_dirty_flag true.

(** ** Operations on one shard (the bodies of the loops) *)

Definition shard_mark (row_id tx_id : Z) (s : RowVersionShard) : RowVersionShard :=
  mkShard (<[row_id := tx_id]> (versions s)) (committed s).
Definition shard_unmark (row_id : Z) (s : RowVersionShard) : RowVersionShard :=
  mkShard (delete row_id (versions s)) (committed s).

(** [committed.entry(row_id).or_insert(..)], then the [min]/[max] update. *)
Definition committed_touch (commit_ts : Z) (e : option CommittedVersion) : CommittedVersion :=
  let entry := default (mkCommitted commit_ts commit_ts) e in
  mkCommitted (first_ts entry `min` commit_ts)%Z (last_ts entry `max` commit_ts)%Z.
Definition shard_commit (row_id commit_ts : Z) (s : RowVersionShard) : RowVersionShard :=
  mkShard (delete row_id (versions s))
          (<[row_id := committed_touch commit_ts (committed s !! row_id)]> (committed s)).

(** ** Operations *)

Inductive Conflict :=
| ConflictActive (row_id existing_tx : Z)
| ConflictCommitted (row_id last_ts : Z).

Definition mark_row (rv : RowVersion) (row_id tx_id read_ts : Z) : RowVersion * option Conflict :=
  let shard_idx := get_shard_idx row_id in
  let s := shard_at rv shard_idx in
  let held :=
    match versions s !! row_id with
    | Some existing_tx => if decide (existing_tx ≠ tx_id) then Some existing_tx else None
    | None => None
    end in
  match held with
  | Some existing_tx => (rv, Some (ConflictActive row_id existing_tx))
  | None =>
      let overwritten :=
        match committed s !! row_id with
        | Some entry => if decide (last_ts entry > read_ts)%Z then Some (last_ts entry) else None
        | None => None
        end in
      match overwritten with
      | Some ts => (rv, Some (ConflictCommitted row_id ts))
      | None => (set_dirty_flag true (update_shard (shard_mark row_id tx_id) shard_idx rv), None)
      end
  end.

(** The rows of a range, [a..b]. *)
Definition row_range (a b : Z) : list Z := seqZ a (b - a).

(** [shard_updates[self.get_shard_idx(row_id)].push(x)] over all rows. *)
Definition group_push {A} (groups : list (list A)) (idx : nat) (x : A) : list (list A) :=
  alter (λ g, g ++ [x]) idx groups.
Definition group_rows (row_ids : list Z) : list (list Z) :=
  foldl (λ groups row_id, group_push groups (get_shard_idx row_id) row_id)
        (replicate num_shards []) row_ids.

(** Applies [f] to every row of every group, shard by shard; [dirty] is what
    the loop stores in the hint for a group that is not empty. *)
Fixpoint batch_loop (f : Z → RowVersionShard → RowVersionShard) (dirty : bool)
    (shard_idx : nat) (groups : list (list Z)) (rv : RowVersion) : RowVersion :=
  match groups with
  | [] => rv
  | ids :: groups =>
      let rv' :=
        match ids with
        | [] => rv
        | _ =>
            let rv1 := foldl (λ rv row_id, update_shard (f row_id) shard_idx rv) rv ids in
            if dirty then set_dirty_flag true rv1 else rv1
        end in
      batch_loop f dirty (S shard_idx) groups rv'
  end.

Definition mark_row_batch (rv : RowVersion) (lo hi tx_id : Z) : RowVersion :=
  batch_loop (λ row_id, shard_mark row_id tx_id) true 0 (group_rows (row_range lo hi)) rv.
Definition rollback_row_batch (rv : RowVersion) (lo hi : Z) : RowVersion :=
  batch_loop shard_unmark false 0 (group_rows (row_range lo hi)) rv.
Definition commit_row_batch (rv : RowVersion) (lo hi commit_ts : Z) : RowVersion :=
  batch_loop (λ row_id, shard_commit row_id commit_ts) false 0 (group_rows (row_range lo hi)) rv.

Definition commit_row (rv : RowVersion) (row_id commit_ts : Z) : RowVersion :=
  update_shard (shard_commit row_id commit_ts) (get_shard_idx row_id) rv.
Definition rollback_row (rv : RowVersion) (row_id : Z) : RowVersion :=
  update_shard (shard_unmark row_id) (get_shard_idx row_id) rv.

Definition is_visible (rv : RowVersion) (row_id tx_id read_ts : Z) : bool :=
  let s := shard_at rv (get_shard_idx row_id) in
  match versions s !! row_id with
  | Some mod_tx =>
      if decide (mod_tx = tx_id) then true
      else match committed s !! row_id with
           | Some e => bool_decide (first_ts e ≤ read_ts)%Z
           | None => false
           end
  | None =>
      match committed s !! row_id with
      | Some entry => bool_decide (first_ts entry ≤ read_ts)%Z
      | None => true
      end
  end.

(** The visibility test inlined in the mask loop. *)
Definition mask_entry (s : RowVersionShard) (row_id tx_id read_ts : Z) : bool :=
  match versions s !! row_id with
  | Some mod_tx =>
      if decide (mod_tx ≠ tx_id)
      then match committed s !! row_id with
           | Some e => bool_decide (first_ts e ≤ read_ts)%Z
           | None => false
           end
      else true
  | None =>
      match committed s !! row_id with
      | Some entry => bool_decide (first_ts entry ≤ read_ts)%Z
      | None => true
      end
  end.

Definition group_indexed (row_ids : list Z) : list (list (nat * Z)) :=
  foldl (λ groups p, group_push groups (get_shard_idx (snd p)) p)
        (replicate num_shards []) (imap pair row_ids).

Fixpoint mask_loop (rv : RowVersion) (tx_id read_ts : Z) (shard_idx : nat)
    (groups : list (list (nat * Z))) (mask : list bool) : list bool :=
  match groups with
  | [] => mask
  | group :: groups =>
      mask_loop rv tx_id read_ts (S shard_idx) groups
        (foldl (λ mask p, <[fst p := mask_entry (shard_at rv shard_idx) (snd p) tx_id read_ts]> mask)
               mask group)
  end.

(** [mask.resize(row_ids.len(), true)] on the caller's buffer, then the loop. *)
Definition get_visibility_mask (rv : RowVersion) (row_ids : list Z) (tx_id read_ts : Z)
    (mask : list bool) : list bool :=
  mask_loop rv tx_id read_ts 0 (group_indexed row_ids) (resize (length row_ids) true mask).

Definition has_modifications (rv : RowVersion) : bool :=
  if dirty_flag rv
  then existsb (λ s, negb (bool_decide (versions s = ∅)) || negb (bool_decide (committed s = ∅)))
               (shards rv)
  else false.

Definition has_committed (rv : RowVersion) : bool :=
  existsb (λ s, negb (bool_decide (committed s = ∅))) (shards rv).

(** [retain] of [vacuum]: drop an entry, or clamp its first timestamp. *)
Definition vacuum_entry (min_active_ts : Z) (e : CommittedVersion) : option CommittedVersion :=
  if decide (last_ts e < min_active_ts)%Z then None
  else if decide (first_ts e < min_active_ts)%Z
  then Some (mkCommitted min_active_ts (last_ts e)) else Some e.

Definition vacuum_shard (min_active_ts : Z) (s : RowVersionShard) : RowVersionShard :=
  mkShard (versions s) (omap (vacuum_entry min_active_ts) (committed s)).

Definition vacuum (rv : RowVersion) (min_active_ts : Z) : RowVersion * nat :=
  (mkRowVersion (vacuum_shard min_active_ts <$> shards rv) (dirty_flag rv),
   foldl (λ total s, total + (size (committed s)
                              - size (committed (vacuum_shard min_active_ts s))))%nat
         0%nat (shards rv)).

(** ** The flat view: one cell per row *)

Record row_cell := mkCell { c_active : option Z; c_history : option CommittedVersion }.

#[global] Instance row_cell_eq_dec : EqDecision row_cell.
Proof. solve_decision. Defined.

Definition shard_cell (s : RowVersionShard) (r : Z) : row_cell :=
  mkCell (versions s !! r) (committed s !! r).
Definition view (rv : RowVersion) (r : Z) : row_cell :=
  shard_cell (shard_at rv (get_shard_idx r)) r.

Definition rv_wf (rv : RowVersion) : Prop := length (shards rv) = num_shards.

#[global] Instance rv_wf_dec rv : Decision (rv_wf rv).
Proof. unfold rv_wf. apply _. Defined.

Definition cell_mark (tx_id : Z) (c : row_cell) : row_cell := mkCell (Some tx_id) (c_history c).
Definition cell_unmark (c : row_cell) : row_cell := mkCell None (c_history c).
Definition cell_commit (commit_ts : Z) (c : row_cell) : row_cell :=
  mkCell None (Some (committed_touch commit_ts (c_history c))).
Definition cell_vacuum (min_active_ts : Z) (c : row_cell) : row_cell :=
  mkCell (c_active c) (c_history c ≫= vacuum_entry min_active_ts).

(** What the cell says of visibility and of write conflicts. *)
Definition cell_visible (c : row_cell) (tx_id read_ts : Z) : bool :=
  match c_active c, c_history c with
  | Some t, h => bool_decide (t = tx_id) || match h with
                                            | Some e => bool_decide (first_ts e ≤ read_ts)%Z
                                            | None => false
                                            end
  | None, Some e => bool_decide (first_ts e ≤ read_ts)%Z
  | None, None => true
  end.

Lemma get_shard_idx_lt r : get_shard_idx r < num_shards.
Proof.
  unfold get_shard_idx. cbv zeta.
  match goal with |- Z.to_nat (?h mod _) < _ =>
    pose proof (Z.mod_pos_bound h (Z.of_nat num_shards)) end.
  unfold num_shards in *. lia.
Qed.

#[global] Opaque get_shard_idx.

Lemma shard_at_update f i j rv :
  i < length (shards rv) →
  shard_at (update_shard f i rv) j = if decide (j = i) then f (shard_at rv i) else shard_at rv j.
Proof.
  intros Hi. unfold shard_at, update_shard. simpl. destruct (decide (j = i)) as [->|].
  - rewrite list_lookup_alter_eq. destruct (lookup_lt_is_Some_2 _ _ Hi) as [x ->]. done.
  - by rewrite list_lookup_alter_ne.
Qed.

Lemma length_update_shard f i rv : length (shards (update_shard f i rv)) = length (shards rv).
Proof. apply length_alter. Qed.

(** A shard operation that changes one row's cell by [g]. *)
Definition acts (f : Z → RowVersionShard → RowVersionShard) (g : row_cell → row_cell) : Prop :=
  ∀ row s r, shard_cell (f row s) r = if decide (r = row) then g (shard_cell s r) else shard_cell s r.

Lemma acts_mark tx_id : acts (λ row_id, shard_mark row_id tx_id) (cell_mark tx_id).
Proof.
  intros row s r. unfold shard_cell. simpl. destruct (decide (r = row)) as [->|].
  - by rewrite lookup_insert_eq.
  - by rewrite lookup_insert_ne.
Qed.

Lemma acts_unmark : acts shard_unmark cell_unmark.
Proof.
  intros row s r. unfold shard_cell. simpl. destruct (decide (r = row)) as [->|].
  - by rewrite lookup_delete_eq.
  - by rewrite lookup_delete_ne.
Qed.

Lemma acts_commit ts : acts (λ row_id, shard_commit row_id ts) (cell_commit ts).
Proof.
  intros row s r. unfold shard_cell. simpl. destruct (decide (r = row)) as [->|].
  - by rewrite lookup_delete_eq, lookup_insert_eq.
  - by rewrite lookup_delete_ne, lookup_insert_ne.
Qed.

#[local] Hint Resolve acts_mark acts_unmark acts_commit : core.

(** A single-row operation on its own shard. *)
Lemma view_update f g row r rv :
  acts f g → rv_wf rv →
  view (update_shard (f row) (get_shard_idx row) rv) r =
  if decide (r = row) then g (view rv r) else view rv r.
Proof.
  intros Hf Hwf. unfold view. pose proof (get_shard_idx_lt row).
  rewrite shard_at_update by (rewrite Hwf; done).
  destruct (decide (get_shard_idx r = get_shard_idx row)) as [E|E].
  - rewrite Hf, E. done.
  - destruct (decide (r = row)) as [->|]; done.
Qed.

(** ** Batches *)

Lemma group_push_lookup {A} (groups : list (list A)) i j x :
  group_push groups i x !! j =
  (λ g, if decide (j = i) then g ++ [x] else g) <$> groups !! j.
Proof.
  unfold group_push. destruct (decide (j = i)) as [->|].
  - by rewrite list_lookup_alter_eq.
  - rewrite list_lookup_alter_ne by done. by destruct (groups !! j).
Qed.

(** Grouping by shard is filtering by shard. *)
Lemma group_by_lookup {A} (idx : A → nat) (l : list A) n j :
  j < n →
  foldl (λ groups x, group_push groups (idx x) x) (replicate n []) l !! j =
  Some (filter (λ x, idx x = j) l).
Proof.
  intros Hj. induction l as [|x l IH] using rev_ind.
  - simpl. apply lookup_replicate_2. done.
  - rewrite foldl_app. simpl. rewrite group_push_lookup, IH. simpl. f_equal.
    rewrite filter_app, filter_cons. simpl.
    destruct (decide (j = idx x)), (decide (idx x = j)); try congruence; [done|].
    by rewrite filter_nil, app_nil_r.
Qed.

Lemma length_group_by {A} (idx : A → nat) (l : list A) n :
  length (foldl (λ groups x, group_push groups (idx x) x) (replicate n []) l) = n.
Proof.
  induction l as [|x l IH] using rev_ind; simpl.
  - apply length_replicate.
  - rewrite foldl_app. simpl. unfold group_push. by rewrite length_alter.
Qed.

Lemma foldl_update_shard (f : Z → RowVersionShard → RowVersionShard) i ids rv j :
  i < length (shards rv) →
  shard_at (foldl (λ rv row_id, update_shard (f row_id) i rv) rv ids) j =
  if decide (j = i) then foldl (λ s row_id, f row_id s) (shard_at rv i) ids else shard_at rv j.
Proof.
  revert rv. induction ids as [|x ids IH]; intros rv Hi; simpl.
  - by destruct (decide (j = i)) as [->|].
  - rewrite IH by (by rewrite length_update_shard). rewrite !shard_at_update by done.
    destruct (decide (j = i)); [|done]. by rewrite decide_True.
Qed.

Lemma length_foldl_update_shard (f : Z → RowVersionShard → RowVersionShard) i ids rv :
  length (shards (foldl (λ rv row_id, update_shard (f row_id) i rv) rv ids)) = length (shards rv).
Proof.
  revert rv. induction ids as [|x ids IH]; intros rv; simpl; [done|].
  by rewrite IH, length_update_shard.
Qed.

(** One group of the loop. *)
Definition batch_group (f : Z → RowVersionShard → RowVersionShard) (dirty : bool)
    (k : nat) (ids : list Z) (rv : RowVersion) : RowVersion :=
  match ids with
  | [] => rv
  | _ =>
      let rv1 := foldl (λ rv row_id, update_shard (f row_id) k rv) rv ids in
      if dirty then set_dirty_flag true rv1 else rv1
  end.

Lemma length_batch_group f d k ids rv : length (shards (batch_group f d k ids rv)) = length (shards rv).
Proof.
  unfold batch_group. destruct ids; [done|].
  destruct d; apply length_foldl_update_shard.
Qed.

Lemma shard_at_batch_group f d k ids rv j :
  k < length (shards rv) →
  shard_at (batch_group f d k ids rv) j =
  if decide (j = k) then foldl (λ s row_id, f row_id s) (shard_at rv j) ids else shard_at rv j.
Proof.
  intros Hk. unfold batch_group. destruct ids as [|x ids].
  - by destruct (decide (j = k)).
  - transitivity (shard_at (foldl (λ rv row_id, update_shard (f row_id) k rv) rv (x :: ids)) j);
      [by destruct d|].
    rewrite foldl_update_shard by done. by destruct (decide (j = k)) as [->|].
Qed.

Lemma shard_at_batch f d k groups rv j :
  k + length groups ≤ length (shards rv) →
  shard_at (batch_loop f d k groups rv) j =
  match (if decide (k ≤ j) then groups !! (j - k) else None) with
  | Some ids => foldl (λ s row_id, f row_id s) (shard_at rv j) ids
  | None => shard_at rv j
  end.
Proof.
  revert k rv. induction groups as [|ids groups IH]; intros k rv Hk; simpl in *.
  - by destruct (decide (k ≤ j)).
  - fold (batch_group f d k ids rv).
    rewrite IH by (rewrite length_batch_group; lia).
    rewrite shard_at_batch_group by lia.
    destruct (decide (j = k)) as [->|].
    + rewrite decide_False, decide_True, Nat.sub_diag by lia. done.
    + destruct (decide (S k ≤ j)), (decide (k ≤ j)); try lia; [|done].
      by replace (j - k) with (S (j - S k)) by lia.
Qed.

Lemma length_batch f d k groups rv :
  length (shards (batch_loop f d k groups rv)) = length (shards rv).
Proof.
  revert k rv. induction groups as [|ids groups IH]; intros k rv; simpl; [done|].
  fold (batch_group f d k ids rv). by rewrite IH, length_batch_group.
Qed.

Lemma foldl_acts f g ids s r :
  acts f g → NoDup ids →
  shard_cell (foldl (λ s row_id, f row_id s) s ids) r =
  if decide (r ∈ ids) then g (shard_cell s r) else shard_cell s r.
Proof.
  intros Hf Hnd. revert s. induction Hnd as [|x ids Hx Hnd IH]; intros s; simpl.
  - done.
  - rewrite IH, Hf. destruct (decide (r = x)) as [->|].
    + rewrite decide_False by done. by rewrite decide_True by set_solver.
    + by destruct (decide (r ∈ ids)), (decide (r ∈ x :: ids)) as [|];
        rewrite ?elem_of_cons in *; try tauto.
Qed.

(** A batch acts on each row of the range once, and on no other row. *)
Lemma view_batch f g d lo hi rv r :
  acts f g → rv_wf rv →
  view (batch_loop f d 0 (group_rows (row_range lo hi)) rv) r =
  if decide (lo ≤ r < hi)%Z then g (view rv r) else view rv r.
Proof.
  intros Hf Hwf. unfold view, group_rows.
  rewrite shard_at_batch by (by rewrite length_group_by, Hwf).
  rewrite decide_True, Nat.sub_0_r by lia.
  rewrite (group_by_lookup get_shard_idx) by apply get_shard_idx_lt.
  rewrite (foldl_acts f g); [|done|apply NoDup_filter, NoDup_seqZ].
  assert (r ∈ filter (λ x, get_shard_idx x = get_shard_idx r) (row_range lo hi)
          ↔ (lo ≤ r < hi)%Z) as E.
  { rewrite list_elem_of_filter. unfold row_range. rewrite elem_of_seqZ. lia. }
  by destruct (decide (r ∈ _)), (decide (lo ≤ r < hi)%Z); try tauto.
Qed.

Lemma rv_wf_batch f d groups rv : rv_wf rv → rv_wf (batch_loop f d 0 groups rv).
Proof. unfold rv_wf. by rewrite length_batch. Qed.

Lemma view_vacuum rv m r : view (fst (vacuum rv m)) r = cell_vacuum m (view rv r).
Proof.
  unfold view, vacuum, shard_at, cell_vacuum, shard_cell. simpl. rewrite list_lookup_fmap.
  destruct (shards rv !! get_shard_idx r) as [s|]; simpl.
  - by rewrite lookup_omap.
  - by rewrite !lookup_empty.
Qed.

Lemma is_visible_cell rv r tx ts : is_visible rv r tx ts = cell_visible (view rv r) tx ts.
Proof.
  unfold is_visible, cell_visible, view, shard_cell. simpl.
  destruct (versions _ !! r) as [t|]; [|done]. by destruct (decide (t = tx)); case_bool_decide.
Qed.

Lemma mask_entry_cell s r tx ts : mask_entry s r tx ts = cell_visible (shard_cell s r) tx ts.
Proof.
  unfold mask_entry, cell_visible, shard_cell. simpl.
  destruct (versions _ !! r) as [t|]; [|done]. destruct (decide (t ≠ tx)), (bool_decide_reflect (t = tx)); naive_solver.
Qed.

(** ** Refinement of the flat view *)

Inductive rv_op :=
| OpMark (row_id tx_id read_ts : Z)
| OpMarkBatch (lo hi tx_id : Z)
| OpRollbackBatch (lo hi : Z)
| OpCommit (row_id commit_ts : Z)
| OpCommitBatch (lo hi commit_ts : Z)
| OpRollback (row_id : Z)
| OpVacuum (min_active_ts : Z)
| OpMarkDirty.

Definition rv_exec (o : rv_op) (rv : RowVersion) : RowVersion :=
  match o with
  | OpMark r tx ts => fst (mark_row rv r tx ts)
  | OpMarkBatch lo hi tx => mark_row_batch rv lo hi tx
  | OpRollbackBatch lo hi => rollback_row_batch rv lo hi
  | OpCommit r ts => commit_row rv r ts
  | OpCommitBatch lo hi ts => commit_row_batch rv lo hi ts
  | OpRollback r => rollback_row rv r
  | OpVacuum m => fst (vacuum rv m)
  | OpMarkDirty => mark_dirty rv
  end.

(** First-updater-wins: a cell can be taken by [tx] reading at [ts] unless
    another transaction holds it or it was committed after [ts]. *)
Definition cell_can_mark (tx ts : Z) (c : row_cell) : bool :=
  match c_active c with Some t => bool_decide (t = tx) | None => true end &&
  match c_history c with Some e => bool_decide (last_ts e ≤ ts)%Z | None => true end.

Definition cell_exec (o : rv_op) (r : Z) (c : row_cell) : row_cell :=
  match o with
  | OpMark r' tx ts => if decide (r = r') then (if cell_can_mark tx ts c then cell_mark tx c else c) else c
  | OpMarkBatch lo hi tx => if decide (lo ≤ r < hi)%Z then cell_mark tx c else c
  | OpRollbackBatch lo hi => if decide (lo ≤ r < hi)%Z then cell_unmark c else c
  | OpCommit r' ts => if decide (r = r') then cell_commit ts c else c
  | OpCommitBatch lo hi ts => if decide (lo ≤ r < hi)%Z then cell_commit ts c else c
  | OpRollback r' => if decide (r = r') then cell_unmark c else c
  | OpVacuum m => cell_vacuum m c
  | OpMarkDirty => c
  end.

(** The result of [mark_row], from the row's cell alone. *)
Lemma mark_row_cell rv r tx ts :
  mark_row rv r tx ts =
  if cell_can_mark tx ts (view rv r)
  then (set_dirty_flag true (update_shard (shard_mark r tx) (get_shard_idx r) rv), None)
  else (rv, match c_active (view rv r) with
            | Some t => if decide (t ≠ tx) then Some (ConflictActive r t)
                        else (λ e, ConflictCommitted r (last_ts e)) <$> c_history (view rv r)
            | None => (λ e, ConflictCommitted r (last_ts e)) <$> c_history (view rv r)
            end).
Proof.
  unfold mark_row, cell_can_mark, view, shard_cell. simpl.
  destruct (versions _ !! r) as [t|], (committed _ !! r) as [e|]; simpl;
    repeat first [case_bool_decide | case_decide]; simpl; try done; try lia.
Qed.

(** The verdict of [mark_row], from the row's cell alone. *)
Definition cell_verdict (r tx ts : Z) (c : row_cell) : option Conflict :=
  match c_active c with
  | Some t => if decide (t ≠ tx) then Some (ConflictActive r t) else None
  | None => None
  end ∪
  match c_history c with
  | Some e => if decide (last_ts e > ts)%Z then Some (ConflictCommitted r (last_ts e)) else None
  | None => None
  end.

Lemma mark_row_verdict rv r tx ts :
  snd (mark_row rv r tx ts) = cell_verdict r tx ts (view rv r).
Proof.
  unfold mark_row, cell_verdict, view, shard_cell. simpl.
  destruct (versions _ !! r), (committed _ !! r); simpl; repeat case_decide; done.
Qed.

Lemma view_set_dirty_flag b rv r : view (set_dirty_flag b rv) r = view rv r.
Proof. done. Qed.

Lemma view_exec o rv r : rv_wf rv → view (rv_exec o rv) r = cell_exec o r (view rv r).
Proof.
  intros Hwf. destruct o as [r' tx ts|lo hi tx|lo hi|r' ts|lo hi ts|r'|m|]; simpl.
  - rewrite mark_row_cell. destruct (decide (r = r')) as [->|Hne].
    + destruct (cell_can_mark tx ts (view rv r')); [|done]. simpl.
      rewrite view_set_dirty_flag, (view_update (λ r, shard_mark r tx) (cell_mark tx)) by auto.
      by rewrite decide_True.
    + destruct (cell_can_mark tx ts (view rv r')); [|done]. simpl.
      rewrite view_set_dirty_flag, (view_update (λ r, shard_mark r tx) (cell_mark tx)) by auto.
      by rewrite decide_False.
  - by apply view_batch.
  - by apply view_batch.
  - by apply (view_update (λ r, shard_commit r ts)).
  - by apply view_batch.
  - by apply view_update.
  - apply view_vacuum.
  - done.
Qed.

Lemma view_mark rv r tx ts q :
  rv_wf rv → view (fst (mark_row rv r tx ts)) q = cell_exec (OpMark r tx ts) q (view rv q).
Proof. apply (view_exec (OpMark r tx ts)). Qed.

Lemma view_mark_batch rv lo hi tx r :
  rv_wf rv → view (mark_row_batch rv lo hi tx) r = cell_exec (OpMarkBatch lo hi tx) r (view rv r).
Proof. apply (view_exec (OpMarkBatch lo hi tx)). Qed.

Lemma view_commit_batch rv lo hi c r :
  rv_wf rv → view (commit_row_batch rv lo hi c) r = cell_exec (OpCommitBatch lo hi c) r (view rv r).
Proof. apply (view_exec (OpCommitBatch lo hi c)). Qed.

Lemma exec_wf o rv : rv_wf rv → rv_wf (rv_exec o rv).
Proof.
  intros Hwf. destruct o; simpl; try by apply rv_wf_batch.
  - rewrite mark_row_cell. destruct (cell_can_mark _ _ _); [|done].
    unfold rv_wf. simpl. by rewrite length_alter.
  - unfold rv_wf. simpl. by rewrite length_alter.
  - unfold rv_wf. simpl. by rewrite length_alter.
  - unfold rv_wf, vacuum. simpl. by rewrite length_fmap.
  - done.
Qed.

(** C9. Sharding is invisible: every operation on the sixteen hashed shards,
    batches grouped by shard included, acts on each row as its one-row
    specification says and on no other row, and keeps all shards in place. *)
Theorem row_version_refines_cells o rv r :
  rv_wf rv → view (rv_exec o rv) r = cell_exec o r (view rv r) ∧ rv_wf (rv_exec o rv).
Proof. intros Hwf. split; [by apply view_exec|by apply exec_wf]. Qed.

Lemma row_version_refines_cells_witness :
  view (rv_exec (OpMarkBatch 3 9 42) row_version_new) 5 = mkCell (Some 42%Z) None ∧
  rv_wf (rv_exec (OpMarkBatch 3 9 42) row_version_new).
Proof.
  exact (row_version_refines_cells (OpMarkBatch 3 9 42) row_version_new 5 eq_refl).
Defined.

(** ** The visibility mask *)

(** Writing verdicts at their own positions fills exactly those positions. *)
Lemma foldl_mask_lookup (vis : nat * Z → bool) (l : list (nat * Z)) (mask : list bool) k :
  (∀ p q, p ∈ l → q ∈ l → fst p = fst q → p = q) →
  foldl (λ mask p, <[fst p := vis p]> mask) mask l !! k =
  match list_find (λ p, fst p = k) l with
  | Some (_, p) => if decide (k < length mask) then Some (vis p) else None
  | None => mask !! k
  end.
Proof.
  revert mask. induction l as [|p l IH]; intros mask Hinj; simpl; [done|].
  rewrite IH by (intros; apply Hinj; set_solver). rewrite length_insert.
  destruct (decide (fst p = k)) as [<-|Hne].
  - destruct (list_find _ l) as [[i q]|] eqn:E; simpl.
    + apply list_find_Some in E as (Hq & Eq & _).
      by rewrite (Hinj q p) by (set_solver by eauto using list_elem_of_lookup_2).
    + case_decide; [by rewrite list_lookup_insert_eq|].
      by rewrite lookup_ge_None_2 by (rewrite length_insert; lia).
  - destruct (list_find _ l) as [[i q]|]; simpl; [done|]. by rewrite list_lookup_insert_ne.
Qed.

Lemma mask_loop_concat rv tx ts k groups mask :
  (∀ i g p, groups !! i = Some g → p ∈ g → get_shard_idx (snd p) = k + i) →
  mask_loop rv tx ts k groups mask =
  foldl (λ mask p, <[fst p := is_visible rv (snd p) tx ts]> mask) mask (concat groups).
Proof.
  revert k mask. induction groups as [|g groups IH]; intros k mask H; simpl; [done|].
  rewrite foldl_app, IH.
  2:{ intros i g' p Hi Hp. rewrite (H (S i) g' p) by done. lia. }
  f_equal. assert (∀ p, p ∈ g → get_shard_idx (snd p) = k) as Hg.
  { intros p Hp. rewrite (H 0 g p) by done. lia. }
  clear -Hg. revert mask. induction g as [|p g IH]; intros mask; simpl; [done|].
  rewrite IH by set_solver. do 2 f_equal.
  rewrite mask_entry_cell, is_visible_cell. unfold view. by rewrite Hg by set_solver.
Qed.

Lemma elem_of_imap_pair {A} (l : list A) k x : (k, x) ∈ imap pair l ↔ l !! k = Some x.
Proof.
  rewrite list_elem_of_lookup. split.
  - intros [i Hi]. rewrite list_lookup_imap in Hi.
    destruct (l !! i) eqn:E; simplify_eq/=. done.
  - intros H. exists k. by rewrite list_lookup_imap, H.
Qed.

Lemma group_indexed_lookup row_ids j g :
  group_indexed row_ids !! j = Some g →
  j < num_shards ∧ g = filter (λ p, get_shard_idx (snd p) = j) (imap pair row_ids).
Proof.
  unfold group_indexed. intros H. assert (j < num_shards) as Hj.
  { apply lookup_lt_Some in H. by rewrite (length_group_by (λ p : nat * Z, get_shard_idx (snd p))) in H. }
  split; [done|].
  pose proof (group_by_lookup (λ p, get_shard_idx (snd p)) (imap pair row_ids) _ _ Hj) as E.
  rewrite E in H. congruence.
Qed.

Lemma elem_of_group_indexed row_ids p :
  p ∈ concat (group_indexed row_ids) ↔ p ∈ imap pair row_ids.
Proof.
  rewrite list_elem_of_In, in_concat. split.
  - intros (g & Hg & Hp). apply list_elem_of_In, list_elem_of_lookup in Hg as [i Hi].
    apply group_indexed_lookup in Hi as [_ ->].
    by apply list_elem_of_In, list_elem_of_filter in Hp as [_ ?].
  - intros Hp.
    exists (filter (λ q, get_shard_idx (snd q) = get_shard_idx (snd p)) (imap pair row_ids)). split.
    + apply list_elem_of_In, list_elem_of_lookup. exists (get_shard_idx (snd p)).
      exact (group_by_lookup (λ p, get_shard_idx (snd p)) _ _ _ (get_shard_idx_lt _)).
    + by apply list_elem_of_In, list_elem_of_filter.
Qed.

(** The batched mask is the pointwise visibility test: whatever the
    caller's buffer held, [get_visibility_mask] leaves in it [is_visible] of
    each row, in order and with the right length. *)
Theorem visibility_mask_pointwise rv row_ids tx ts mask :
  get_visibility_mask rv row_ids tx ts mask = map (λ r, is_visible rv r tx ts) row_ids.
Proof.
  unfold get_visibility_mask. rewrite mask_loop_concat.
  2:{ intros i g p Hi Hp. apply group_indexed_lookup in Hi as [_ ->].
      by apply list_elem_of_filter in Hp as [? _]. }
  apply list_eq. intros k.
  rewrite (foldl_mask_lookup (λ p, is_visible rv (snd p) tx ts)).
  2:{ intros [i x] [j y] Hx Hy. simpl. intros ->.
      rewrite elem_of_group_indexed, elem_of_imap_pair in Hx, Hy. congruence. }
  rewrite length_resize, list_lookup_fmap.
  destruct (list_find _ _) as [[i [k' r]]|] eqn:E; simpl.
  - apply list_find_Some in E as (Hi & Ek & _). simpl in Ek. subst k'.
    apply list_elem_of_lookup_2 in Hi. rewrite elem_of_group_indexed, elem_of_imap_pair in Hi.
    rewrite Hi. simpl. by rewrite decide_True by (by apply lookup_lt_Some in Hi).
  - destruct (row_ids !! k) as [r|] eqn:Hk; simpl.
    + apply list_find_None in E. rewrite Forall_forall in E.
      destruct (E (k, r)); [|done]. by rewrite elem_of_group_indexed, elem_of_imap_pair.
    + apply lookup_ge_None_2. rewrite length_resize. by apply lookup_ge_None in Hk.
Qed.

(** ** Reachable states

    A table's transactions call the operations in this discipline: a row is
    committed by a transaction that marked it, and rows are marked one by one
    (updates, checked for conflicts) or by the range (fresh inserts). *)
Definition op_enabled (rv : RowVersion) (o : rv_op) : Prop :=
  match o with
  | OpCommit r _ => is_Some (c_active (view rv r))
  | OpCommitBatch lo hi _ => ∀ r, (lo ≤ r < hi)%Z → is_Some (c_active (view rv r))
  | _ => True
  end.

Inductive rv_step : RowVersion → RowVersion → Prop :=
| rv_step_op rv o : op_enabled rv o → rv_step rv (rv_exec o rv).

Definition cell_ok (dirty : bool) (c : row_cell) : Prop :=
  (∀ e, c_history c = Some e → (first_ts e ≤ last_ts e)%Z) ∧
  (dirty = false → c = mkCell None None).

Definition rv_inv (rv : RowVersion) : Prop :=
  rv_wf rv ∧ ∀ r, cell_ok (dirty_flag rv) (view rv r).

(** The part of it that needs no discipline of the callers: every history
    starts no later than it ends. *)
Definition rv_ordered (rv : RowVersion) : Prop :=
  rv_wf rv ∧ ∀ r e, c_history (view rv r) = Some e → (first_ts e ≤ last_ts e)%Z.

Lemma rv_inv_ordered rv : rv_inv rv → rv_ordered rv.
Proof. intros [Hwf Hc]. split; [done|]. intros r. apply (Hc r). Qed.

Lemma batch_dirty f d k groups rv :
  dirty_flag (batch_loop f d k groups rv) = false →
  dirty_flag rv = false ∧ (d = true → Forall (λ g, g = []) groups).
Proof.
  revert k rv. induction groups as [|ids groups IH]; intros k rv H; simpl in *; [done|].
  apply IH in H as [H Hall].
  assert (∀ rv ids, dirty_flag (foldl (λ rv row_id, update_shard (f row_id) k rv) rv ids)
                    = dirty_flag rv) as Hd.
  { clear. intros rv ids. revert rv. induction ids; intros rv; simpl; [done|]. by rewrite IHids. }
  destruct ids as [|x ids]; [by split; [|constructor; auto]|].
  destruct d; [done|]. by rewrite Hd in H.
Qed.

(** An empty grouping of a range means an empty range. *)
Lemma group_rows_empty lo hi r :
  Forall (λ g, g = []) (group_rows (row_range lo hi)) → ¬ (lo ≤ r < hi)%Z.
Proof.
  intros H Hr.
  pose proof (group_by_lookup get_shard_idx (row_range lo hi) _ _ (get_shard_idx_lt r)) as E.
  eapply Forall_lookup_1 in H; [|exact E].
  assert (r ∈ filter (λ x, get_shard_idx x = get_shard_idx r) (row_range lo hi)) as Hin.
  { apply list_elem_of_filter. split; [done|]. unfold row_range. rewrite elem_of_seqZ. lia. }
  simpl in H. rewrite H in Hin. by apply elem_of_nil in Hin.
Qed.

Lemma batch_dirty_flag f k groups rv :
  dirty_flag (batch_loop f false k groups rv) = dirty_flag rv.
Proof.
  revert k rv. induction groups as [|ids groups IH]; intros k rv; simpl; [done|].
  rewrite IH. destruct ids as [|x ids]; [done|].
  generalize (x :: ids). clear. intros ids. revert rv.
  induction ids as [|x ids IH]; intros rv; simpl; [done|]. by rewrite IH.
Qed.

(** The dirty hint after an operation. *)
Lemma exec_dirty o rv :
  dirty_flag (rv_exec o rv) = false →
  dirty_flag rv = false ∧
  match o with
  | OpMark r tx ts => cell_can_mark tx ts (view rv r) = false
  | OpMarkBatch lo hi _ => ∀ r, ¬ (lo ≤ r < hi)%Z
  | _ => True
  end.
Proof.
  destruct o; simpl; intros E; try by split.
  - rewrite mark_row_cell in E. by destruct (cell_can_mark _ _ _).
  - apply batch_dirty in E as [E Hg]. split; [done|]. intros r.
    apply group_rows_empty. by apply Hg.
  - unfold rollback_row_batch in E. by rewrite batch_dirty_flag in E.
  - unfold commit_row_batch in E. by rewrite batch_dirty_flag in E.
Qed.

Lemma cell_exec_ordered o r c :
  (∀ e, c_history c = Some e → (first_ts e ≤ last_ts e)%Z) →
  (∀ e, c_history (cell_exec o r c) = Some e → (first_ts e ≤ last_ts e)%Z).
Proof.
  intros H e. destruct o; simpl; repeat case_match; simpl; eauto.
  - intros [= <-]. destruct (c_history c) as [e|]; simpl; [specialize (H e eq_refl)|]; lia.
  - intros [= <-]. destruct (c_history c) as [e|]; simpl; [specialize (H e eq_refl)|]; lia.
  - destruct (c_history c) as [e'|]; simpl; [|done]. specialize (H e' eq_refl).
    unfold vacuum_entry. repeat case_decide; intros [= <-]; simpl; lia.
Qed.

Lemma rv_step_inv rv rv' : rv_step rv rv' → rv_inv rv → rv_inv rv'.
Proof.
  intros [rv0 o Hen] [Hwf Hc]. split; [by apply exec_wf|]. intros r.
  rewrite view_exec by done. split; [apply cell_exec_ordered, Hc|].
  intros E. apply exec_dirty in E as [E Hno].
  pose proof (λ r, proj2 (Hc r) E) as Hempty. rewrite Hempty.
  destruct o as [r' tx ts|lo hi tx|lo hi|r' ts|lo hi ts|r'|m|];
    cbn [op_enabled cell_exec] in *; try case_decide; try done.
  - by rewrite Hempty in Hno.
  - by destruct (Hno r).
  - subst. rewrite Hempty in Hen. by destruct Hen.
  - destruct (Hen r) as [t Ht]; [done|]. by rewrite Hempty in Ht.
Qed.

Lemma rv_exec_ordered o rv : rv_ordered rv → rv_ordered (rv_exec o rv).
Proof.
  intros [Hwf Hc]. split; [by apply exec_wf|]. intros r. rewrite view_exec by done.
  apply cell_exec_ordered, Hc.
Qed.

Lemma rv_execs_ordered ops rv :
  rv_ordered rv → rv_ordered (foldl (λ rv o, rv_exec o rv) rv ops).
Proof. revert rv. induction ops as [|o ops IH]; intros rv H; simpl; [done|]. by apply IH, rv_exec_ordered. Qed.

Lemma view_new r : view row_version_new r = mkCell None None.
Proof.
  unfold view, shard_at, row_version_new. cbn [shards].
  by rewrite lookup_replicate_2 by apply get_shard_idx_lt.
Qed.

Lemma rv_reachable_inv rv : rtc rv_step row_version_new rv → rv_inv rv.
Proof.
  revert rv. apply rtc_ind_r; [|by eauto using rv_step_inv].
  split; [done|]. intros r. rewrite view_new. by split.
Qed.

(** The scan's fast path is sound: in every state that transactions can
    reach, when [has_modifications] answers false, every row is visible to
    every transaction at every snapshot, so skipping the visibility mask loses
    nothing. *)
Theorem no_modifications_all_visible rv r tx ts :
  rtc rv_step row_version_new rv → has_modifications rv = false →
  is_visible rv r tx ts = true.
Proof.
  intros Hr Hm. destruct (rv_reachable_inv rv Hr) as [Hwf Hc].
  rewrite is_visible_cell. unfold has_modifications in Hm.
  destruct (dirty_flag rv) eqn:Hd; [|by rewrite (proj2 (Hc r) eq_refl)].
  assert (get_shard_idx r < length (shards rv)) as Hlt by (rewrite Hwf; apply get_shard_idx_lt).
  apply lookup_lt_is_Some_2 in Hlt as [s Hs].
  assert (versions s = ∅ ∧ committed s = ∅) as [Hv Hcm].
  { assert (¬ (negb (bool_decide (versions s = ∅)) || negb (bool_decide (committed s = ∅)) = true)) as Hn.
    { intros Ht. rewrite (proj2 (existsb_exists _ _)) in Hm; [done|].
      exists s. split; [|done]. by eapply list_elem_of_In, list_elem_of_lookup_2. }
    repeat case_bool_decide; simpl in Hn; naive_solver. }
  unfold view, shard_at. rewrite Hs. simpl. unfold shard_cell. rewrite Hv, Hcm. done.
Qed.

Lemma no_modifications_all_visible_witness :
  is_visible (rollback_row (fst (mark_row row_version_new 5 1 0)) 5) 5 2 0 = true.
Proof.
  apply no_modifications_all_visible; [|by vm_compute].
  eapply rtc_l; [exact (rv_step_op row_version_new (OpMark 5 1 0) I)|].
  apply rtc_once. exact (rv_step_op _ (OpRollback 5) I).
Defined.

Lemma rv_new_ordered : rv_ordered row_version_new.
Proof. apply rv_inv_ordered, rv_reachable_inv. done. Qed.

(** A row that another transaction holds and whose whole history is older than
    [m]: the one case in which reclaiming at [m] shows. *)
Definition reclaimed_under_writer (m tx_id : Z) (c : row_cell) : bool :=
  match c_active c, c_history c with
  | Some t, Some e => bool_decide (t ≠ tx_id) && bool_decide (last_ts e < m)%Z
  | _, _ => false
  end.

(** Reclaiming at [m] and reading at or above [m]. *)
Lemma vacuum_visible rv m r tx ts :
  rv_ordered rv → (m ≤ ts)%Z →
  is_visible (fst (vacuum rv m)) r tx ts =
  is_visible rv r tx ts && negb (reclaimed_under_writer m tx (view rv r)).
Proof.
  intros [_ Hc] Hm. specialize (Hc r).
  rewrite !is_visible_cell, view_vacuum. destruct (view rv r) as [[a|] [e|]];
    [|by rewrite andb_true_r| |by rewrite andb_true_r].
  all: specialize (Hc e eq_refl); unfold cell_visible, cell_vacuum, vacuum_entry, reclaimed_under_writer; simpl;
    repeat case_decide; simpl; repeat case_bool_decide; simpl; try done; lia.
Qed.

Lemma vacuum_verdict rv m r tx ts :
  rv_ordered rv → (m ≤ ts)%Z →
  snd (mark_row (fst (vacuum rv m)) r tx ts) = snd (mark_row rv r tx ts).
Proof.
  intros [_ Hc] Hm. specialize (Hc r).
  rewrite !mark_row_verdict, view_vacuum. destruct (view rv r) as [a [e|]]; [|done].
  specialize (Hc e eq_refl). unfold cell_verdict, cell_vacuum, vacuum_entry. simpl. f_equal.
  repeat case_decide; simpl in *; repeat case_decide; try done; lia.
Qed.

(** Vacuum is invisible to live snapshots: after reclaiming at
    [m], a transaction whose snapshot is at least [m] gets the same visibility
    for every row that no other transaction is modifying, and the same
    conflict verdict on every row. *)
Theorem vacuum_preserves_live_snapshots rv m r tx ts :
  rtc rv_step row_version_new rv → (m ≤ ts)%Z →
  (c_active (view rv r) = None ∨ c_active (view rv r) = Some tx →
   is_visible (fst (vacuum rv m)) r tx ts = is_visible rv r tx ts) ∧
  snd (mark_row (fst (vacuum rv m)) r tx ts) = snd (mark_row rv r tx ts).
Proof.
  intros Hr Hm. pose proof (rv_inv_ordered _ (rv_reachable_inv rv Hr)) as Hinv.
  split; [|by apply vacuum_verdict]. intros Ha. rewrite vacuum_visible by done.
  assert (reclaimed_under_writer m tx (view rv r) = false) as ->; [|by rewrite andb_true_r].
  unfold reclaimed_under_writer. destruct Ha as [->| ->]; [done|].
  destruct (c_history (view rv r)); [|done]. by rewrite bool_decide_false by tauto.
Qed.

Lemma vacuum_preserves_live_snapshots_witness :
  let rv := commit_row (fst (mark_row row_version_new 5 1 0)) 5 3 in
  is_visible (fst (vacuum rv 4)) 5 9 4 = is_visible rv 5 9 4.
Proof.
  intros rv. refine (proj1 (vacuum_preserves_live_snapshots rv 4 5 9 4 _ ltac:(lia)) _).
  - eapply rtc_l; [exact (rv_step_op row_version_new (OpMark 5 1 0) I)|].
    apply rtc_once. refine (rv_step_op _ (OpCommit 5 3) _). by_compute.
  - left. by vm_compute.
Defined.

(** After a vacuum a concurrent update hides an old row: the row's history
    predates every live snapshot and is reclaimed; once another transaction
    marks the row, every other reader loses sight of it, although the same
    readers would see it had the vacuum not run. *)
Theorem vacuum_then_update_hides_row rv r e m tx ts reader rts :
  rv_wf rv → view rv r = mkCell None (Some e) → (first_ts e ≤ last_ts e < m)%Z →
  (m ≤ ts)%Z → (m ≤ rts)%Z → reader ≠ tx →
  is_visible (fst (mark_row rv r tx ts)) r reader rts = true ∧
  is_visible (fst (mark_row (fst (vacuum rv m)) r tx ts)) r reader rts = false.
Proof.
  intros Hwf Hv He Hts Hrts Hne. rewrite !is_visible_cell.
  rewrite !view_mark; [|by apply (exec_wf (OpVacuum m))|done].
  cbn [cell_exec]. rewrite !decide_True by done. rewrite view_vacuum, Hv.
  unfold cell_vacuum, vacuum_entry. simpl. rewrite decide_True by lia. simpl.
  unfold cell_can_mark. simpl. rewrite bool_decide_true by lia. unfold cell_visible. simpl.
  rewrite (bool_decide_false (tx = reader)) by congruence.
  by rewrite bool_decide_true by lia.
Qed.

Lemma vacuum_then_update_hides_row_witness :
  let rv := commit_row (fst (mark_row row_version_new 5 1 0)) 5 3 in
  is_visible (fst (mark_row rv 5 2 4)) 5 9 4 = true ∧
  is_visible (fst (mark_row (fst (vacuum rv 4)) 5 2 4)) 5 9 4 = false.
Proof.
  intros rv.
  exact (vacuum_then_update_hides_row rv 5 (mkCommitted 3 3) 4 2 4 9 4
    ltac:(by_compute) ltac:(by_compute) ltac:(by_compute) ltac:(by_compute) ltac:(by_compute)
    ltac:(by_compute)).
Defined.

(** An operation that can take [r] away from its holder. *)
Definition releases (r : Z) (o : rv_op) : bool :=
  match o with
  | OpMark _ _ _ | OpVacuum _ | OpMarkDirty => false
  | OpMarkBatch lo hi _ | OpRollbackBatch lo hi | OpCommitBatch lo hi _ => bool_decide (lo ≤ r < hi)%Z
  | OpCommit r' _ | OpRollback r' => bool_decide (r = r')
  end.

Lemma exec_keeps_holder r t o c :
  releases r o = false → c_active c = Some t → c_active (cell_exec o r c) = Some t.
Proof.
  intros Hr Ht. destruct o as [r' tx ts|lo hi tx|lo hi|r' ts|lo hi ts|r'|m|]; simpl in *;
    repeat case_decide; try done; try (by rewrite bool_decide_true in Hr).
  destruct (cell_can_mark tx ts c) eqn:E; [|done]. unfold cell_can_mark in E. rewrite Ht in E.
  simpl. case_bool_decide; by simplify_eq/=.
Qed.

Lemma execs_wf ops rv : rv_wf rv → rv_wf (foldl (λ rv o, rv_exec o rv) rv ops).
Proof. revert rv. induction ops as [|o ops IH]; intros rv H; simpl; [done|]. by apply IH, exec_wf. Qed.

Lemma foldl_keeps_holder r t ops rv :
  rv_wf rv → Forall (λ o, releases r o = false) ops → c_active (view rv r) = Some t →
  c_active (view (foldl (λ rv o, rv_exec o rv) rv ops) r) = Some t.
Proof.
  intros Hwf H. revert rv Hwf. induction H as [|o ops Ho _ IH]; intros rv Hwf Ht; simpl; [done|].
  apply IH; [by apply exec_wf|]. rewrite view_exec by done. by apply exec_keeps_holder.
Qed.

(** A range reservation takes the row whoever holds it. *)
Lemma mark_batch_takes_row rv lo hi r tx :
  rv_wf rv → (lo ≤ r < hi)%Z → c_active (view (mark_row_batch rv lo hi tx) r) = Some tx.
Proof.
  intros Hwf Hr. rewrite view_mark_batch by done. cbn [cell_exec]. by rewrite decide_True.
Qed.

Lemma held_row_conflicts rv r tx tx2 ts2 :
  c_active (view rv r) = Some tx → tx2 ≠ tx →
  mark_row rv r tx2 ts2 = (rv, Some (ConflictActive r tx)).
Proof.
  intros Ha Hne. rewrite mark_row_cell. unfold cell_can_mark. rewrite Ha.
  rewrite bool_decide_false by congruence. simpl. by rewrite decide_True by congruence.
Qed.

Lemma granted_can_mark rv r tx ts :
  snd (mark_row rv r tx ts) = None → cell_can_mark tx ts (view rv r) = true.
Proof.
  rewrite mark_row_cell. destruct (cell_can_mark tx ts (view rv r)) eqn:E; [done|].
  intros Hok. exfalso. unfold cell_can_mark in E.
  destruct (c_active (view rv r)) as [t|], (c_history (view rv r)) as [h|]; simpl in *;
    repeat (case_bool_decide || case_decide); simpl in *; try done; subst; try done.
Qed.

(** C29. How long [mark_row] protects a row: it grants the row only if no
    commit to it is later than the writer's snapshot.  From then on, through
    any operations on the table that neither commit nor roll back the row nor
    reserve a range containing it, every other transaction that tries to mark
    it gets the conflict error naming the holder and changes nothing.  The
    range reservation of an insertion, [mark_row_batch], checks nothing: one
    that contains the row takes it from its holder, who is from then on
    refused, by the same error, on the row it had been granted. *)
Theorem mark_row_excludes_writers rv r tx ts ops tx2 :
  rv_wf rv → snd (mark_row rv r tx ts) = None →
  Forall (λ o, releases r o = false) ops → tx2 ≠ tx →
  (∀ e, c_history (view rv r) = Some e → (last_ts e ≤ ts)%Z) ∧
  let rv1 := foldl (λ rv o, rv_exec o rv) (fst (mark_row rv r tx ts)) ops in
  (∀ ts2, mark_row rv1 r tx2 ts2 = (rv1, Some (ConflictActive r tx))) ∧
  (∀ lo hi ts', (lo ≤ r < hi)%Z →
     let rv2 := mark_row_batch rv1 lo hi tx2 in
     mark_row rv2 r tx ts' = (rv2, Some (ConflictActive r tx2))).
Proof.
  intros Hwf Hok%granted_can_mark Hops Hne.
  assert (rv_wf (fst (mark_row rv r tx ts))) as Hwf1 by (by apply (exec_wf (OpMark r tx ts))).
  split.
  - intros e He. unfold cell_can_mark in Hok. rewrite He in Hok.
    apply andb_true_iff in Hok as [_ E]. by apply bool_decide_eq_true in E.
  - intros rv1. split.
    + intros ts2. apply held_row_conflicts; [|done]. apply foldl_keeps_holder; [done..|].
      rewrite view_mark by done. cbn [cell_exec]. by rewrite decide_True, Hok by done.
    + intros lo hi ts' Hr rv2. apply held_row_conflicts; [|done].
      apply mark_batch_takes_row; [|done]. by apply execs_wf.
Qed.

Lemma mark_row_excludes_writers_witness :
  let rv1 := foldl (λ rv o, rv_exec o rv) (fst (mark_row row_version_new 5 1 0))
               [OpMark 6 2 0; OpCommit 6 1; OpVacuum 1]%Z in
  let rv2 := mark_row_batch rv1 4 8 2 in
  mark_row rv1 5 2 1 = (rv1, Some (ConflictActive 5 1)) ∧
  mark_row rv2 5 1 0 = (rv2, Some (ConflictActive 5 2)).
Proof.
  intros rv1 rv2.
  destruct (mark_row_excludes_writers row_version_new 5 1 0
    [OpMark 6 2 0; OpCommit 6 1; OpVacuum 1]%Z 2 eq_refl
    ltac:(by vm_compute) ltac:(by_compute) ltac:(by_compute)) as (_ & H1 & H2).
  split; [apply H1|apply H2; lia].
Defined.

(** Life of an inserted row: until its inserter commits, a fresh row of
    the inserted range is visible to the inserter alone; after the commit at
    [c] it is visible to exactly the snapshots that are not older than [c]. *)
Theorem insert_visibility rv lo hi tx c r reader ts :
  rv_wf rv → (lo ≤ r < hi)%Z → c_history (view rv r) = None →
  let rv1 := mark_row_batch rv lo hi tx in
  let rv2 := commit_row_batch rv1 lo hi c in
  (is_visible rv1 r reader ts = true ↔ reader = tx) ∧
  (is_visible rv2 r reader ts = true ↔ (c ≤ ts)%Z).
Proof.
  intros Hwf Hr Hh rv1 rv2. rewrite !is_visible_cell.
  assert (view rv1 r = mkCell (Some tx) None) as E1.
  { unfold rv1. rewrite view_mark_batch by done. cbn [cell_exec].
    rewrite decide_True by done. unfold cell_mark. by rewrite Hh. }
  assert (view rv2 r = mkCell None (Some (mkCommitted (c `min` c) (c `max` c))%Z)) as E2.
  { unfold rv2. rewrite view_commit_batch by (by apply (exec_wf (OpMarkBatch lo hi tx))).
    cbn [cell_exec]. rewrite decide_True by done. by rewrite E1. }
  rewrite E1, E2. unfold cell_visible. simpl. rewrite orb_false_r, !bool_decide_eq_true.
  split; [split; congruence|]. lia.
Qed.

Lemma insert_visibility_witness :
  let rv1 := mark_row_batch row_version_new 0 8 3 in
  let rv2 := commit_row_batch rv1 0 8 11 in
  (is_visible rv1 4 5 20 = true ↔ 5%Z = 3%Z) ∧ (is_visible rv2 4 5 20 = true ↔ (11 ≤ 20)%Z).
Proof.
  apply (insert_visibility row_version_new 0 8 3 11 4 5 20); [done|lia|by vm_compute].
Defined.
