(* ===== verification/Persist.v ===== *)
(** * Small durable files: the free-page map and the database header
    (storage/free_space_manager.rs, storage/database_header.rs)

    Both are written by the same discipline: serialise, write a temporary
    file, sync it, rename it over the old one.  The file system is a finite map
    from paths to contents, a save is a list of file-system calls, and a crash
    stops that list anywhere, in the middle of a write included.  [bincode] and
    [crc32fast] are third-party crates: they are section variables, with the
    documented round trip as hypotheses. *)
From stdpp Require Import base list gmap strings numbers.
From Stdlib Require Import ZArith Lia Bool.
From S2P Require Import Prelude.

(** ** Paths and the file system *)

(** A path: its parent directory, file stem and extension. *)
Record Path := mkPath { p_dir : string; p_stem : string; p_ext : string }.

#[global] Instance Path_eq_dec : EqDecision Path.
Proof. solve_decision. Defined.
#[global] Instance Path_countable : Countable Path.
Proof.
  apply (inj_countable' (λ p, (p_dir p, p_stem p, p_ext p))
                        (λ t, mkPath (fst (fst t)) (snd (fst t)) (snd t))).
  by intros [].
Defined.

Definition with_extension (p : Path) (ext : string) : Path := mkPath (p_dir p) (p_stem p) ext.

Abbreviation fs := (gmap Path (list Z)).

Inductive fs_op :=
| FsCreate (p : Path)               (* File::create: empty, truncating *)
| FsWrite (p : Path) (b : list Z)   (* write_all at the end of the handle *)
| FsSync (p : Path)
| FsRename (p q : Path).

Definition fs_exec (o : fs_op) (s : fs) : fs :=
  match o with
  | FsCreate p => <[p := []]> s
  | FsWrite p b => alter (λ c, c ++ b) p s
  | FsSync _ => s
  | FsRename p q => match s !! p with Some c => <[q := c]> (delete p s) | None => s end
  end.

Definition fs_run (ops : list fs_op) (s : fs) : fs := foldl (λ s o, fs_exec o s) s ops.

(** The calls in order, each propagated with [?]: [fail_at] is the position of
    the call that reports an I/O error, if any. *)
Definition fs_try (fail_at : option nat) (ops : list fs_op) (s : fs) : fs * outcome unit :=
  match fail_at with
  | Some k => if decide (k < length ops) then (fs_run (take k ops) s, Err Io) else (fs_run ops s, Ok tt)
  | None => (fs_run ops s, Ok tt)
  end.

(** What a crash during [ops] can leave behind: a prefix of the calls, the next
    one possibly a write that got only part of its bytes out. *)
Inductive fs_crash (ops : list fs_op) (s : fs) : fs → Prop :=
| crash_between k : fs_crash ops s (fs_run (take k ops) s)
| crash_in_write k p b n :
    ops !! k = Some (FsWrite p b) →
    fs_crash ops s (fs_exec (FsWrite p (take n b)) (fs_run (take k ops) s)).

(** Write-new-then-rename, as both [save] functions do it. *)
Definition save_ops (tmp path : Path) (chunks : list (list Z)) : list fs_op :=
  FsCreate tmp :: map (FsWrite tmp) chunks ++ [FsSync tmp; FsRename tmp path].

Lemma fs_run_app ops1 ops2 s : fs_run (ops1 ++ ops2) s = fs_run ops2 (fs_run ops1 s).
Proof. apply foldl_app. Qed.

Lemma fs_run_writes tmp chunks s c :
  s !! tmp = Some c →
  fs_run (map (FsWrite tmp) chunks) s = <[tmp := c ++ concat chunks]> s.
Proof.
  revert s c. induction chunks as [|b chunks IH]; intros s c Hc; simpl.
  - by rewrite app_nil_r, insert_id.
  - rewrite (IH _ (c ++ b)) by (by rewrite lookup_alter_eq, Hc).
    apply map_eq. intros p. destruct (decide (tmp = p)) as [<-|].
    + by rewrite !lookup_insert_eq, app_assoc.
    + by rewrite !lookup_insert_ne, lookup_alter_ne by done.
Qed.

Lemma fs_run_save tmp path chunks s :
  tmp ≠ path → fs_run (save_ops tmp path chunks) s !! path = Some (concat chunks).
Proof.
  intros Hne. unfold save_ops. change (fs_run (?o :: ?l) s) with (fs_run l (fs_exec o s)).
  rewrite fs_run_app. rewrite (fs_run_writes _ _ _ []) by apply lookup_insert_eq.
  simpl. rewrite lookup_insert_eq. simpl. by rewrite lookup_insert_eq.
Qed.

(** Before the rename, no call touches any file but the temporary one. *)
Lemma fs_exec_other tmp o s q :
  (o = FsCreate tmp ∨ (∃ b, o = FsWrite tmp b) ∨ o = FsSync tmp) → q ≠ tmp →
  fs_exec o s !! q = s !! q.
Proof.
  intros [->|[[b ->]| ->]] Hq; simpl; [by rewrite lookup_insert_ne|by rewrite lookup_alter_ne|done].
Qed.

Lemma fs_run_other tmp ops s q :
  Forall (λ o, o = FsCreate tmp ∨ (∃ b, o = FsWrite tmp b) ∨ o = FsSync tmp) ops → q ≠ tmp →
  fs_run ops s !! q = s !! q.
Proof.
  intros H Hq. revert s. induction H as [|o ops Ho _ IH]; intros s; simpl; [done|].
  rewrite IH. by eapply fs_exec_other.
Qed.

Lemma save_ops_split tmp path chunks :
  ∃ pre, save_ops tmp path chunks = pre ++ [FsRename tmp path] ∧
    Forall (λ o, o = FsCreate tmp ∨ (∃ b, o = FsWrite tmp b) ∨ o = FsSync tmp) pre.
Proof.
  exists (FsCreate tmp :: map (FsWrite tmp) chunks ++ [FsSync tmp]). split.
  - unfold save_ops. simpl. by rewrite <- app_assoc.
  - constructor; [auto|]. apply Forall_app. split; [|by constructor; auto].
    apply Forall_fmap, Forall_true. simpl. eauto.
Qed.

(** A crash leaves the target file as it was, or complete. *)
Lemma save_crash_atomic tmp path chunks s s' :
  tmp ≠ path → fs_crash (save_ops tmp path chunks) s s' →
  s' !! path = s !! path ∨ s' !! path = Some (concat chunks).
Proof.
  intros Hne Hc. pose proof (fs_run_save tmp path chunks s Hne) as Hfull.
  destruct (save_ops_split tmp path chunks) as (pre & E & Hpre).
  destruct Hc as [k|k p b n Hk]; rewrite E in *.
  - destruct (decide (k ≤ length pre)).
    + left. rewrite take_app_le by done. eapply fs_run_other; [by apply Forall_take|congruence].
    + right. by rewrite take_ge by (rewrite length_app; simpl; lia).
  - left. assert (k < length pre) as Hlt.
    { apply lookup_lt_Some in Hk as Hl. rewrite length_app in Hl. simpl in Hl.
      destruct (decide (k < length pre)); [done|].
      rewrite lookup_app_r in Hk by lia. by replace (k - length pre) with 0 in Hk by lia. }
    rewrite lookup_app_l in Hk by done. rewrite take_app_le by lia.
    assert (p = tmp) as ->.
    { eapply Forall_lookup_1 in Hpre; [|exact Hk].
      destruct Hpre as [?|[[? ?]|?]]; congruence. }
    rewrite (fs_exec_other tmp) by eauto. eapply fs_run_other; [by apply Forall_take|congruence].
Qed.

(** ** Free pages *)

Record FreeSpaceManager := mkFSM { free_pages : gmap Z (list Z) }.

Definition fsm_new : FreeSpaceManager := mkFSM ∅.

(** [map.entry(file_id).or_default().push_back(page_idx)] *)
Definition record_free_page (m : FreeSpaceManager) (file_id page_idx : Z) : FreeSpaceManager :=
  mkFSM (<[file_id := default [] (free_pages m !! file_id) ++ [page_idx]]> (free_pages m)).

(** [map.get_mut(&file_id)?.pop_front()] *)
Definition get_free_page (m : FreeSpaceManager) (file_id : Z) : FreeSpaceManager * option Z :=
  match free_pages m !! file_id with
  | None => (m, None)
  | Some [] => (m, None)
  | Some (p :: q) => (mkFSM (<[file_id := q]> (free_pages m)), Some p)
  end.

Inductive fsm_op :=
| FsmRecord (file_id page_idx : Z)
| FsmGet (file_id : Z).

(** Runs a history; the pages handed out for [f], in order. *)
Definition fsm_exec (o : fsm_op) (m : FreeSpaceManager) : FreeSpaceManager * option (Z * Z) :=
  match o with
  | FsmRecord f p => (record_free_page m f p, None)
  | FsmGet f => let '(m', r) := get_free_page m f in (m', (λ p, (f, p)) <$> r)
  end.

Fixpoint fsm_run (ops : list fsm_op) (m : FreeSpaceManager) : FreeSpaceManager * list (Z * Z) :=
  match ops with
  | [] => (m, [])
  | o :: ops =>
      let '(m1, r) := fsm_exec o m in
      let '(m2, out) := fsm_run ops m1 in (m2, option_list r ++ out)
  end.

Definition queue (m : FreeSpaceManager) (f : Z) : list Z := default [] (free_pages m !! f).
Definition recorded (f : Z) (ops : list fsm_op) : list Z :=
  omap (λ o, match o with FsmRecord f' p => if decide (f' = f) then Some p else None | _ => None end) ops.
Definition pages_of (f : Z) (out : list (Z * Z)) : list Z :=
  omap (λ x, if decide (fst x = f) then Some (snd x) else None) out.

Lemma queue_record m f p g :
  queue (record_free_page m f p) g = queue m g ++ (if decide (f = g) then [p] else []).
Proof.
  unfold queue, record_free_page. simpl. destruct (decide (f = g)) as [->|].
  - by rewrite lookup_insert_eq.
  - by rewrite lookup_insert_ne, app_nil_r.
Qed.

Lemma queue_get m f g :
  queue m g = pages_of g (option_list ((λ p, (f, p)) <$> snd (get_free_page m f))) ++
              queue (fst (get_free_page m f)) g.
Proof.
  unfold get_free_page, queue. destruct (free_pages m !! f) as [[|p q]|] eqn:E; simpl; try done.
  destruct (decide (f = g)) as [->|].
  - by rewrite E, lookup_insert_eq.
  - by rewrite lookup_insert_ne.
Qed.

Lemma pages_of_app f l k : pages_of f (l ++ k) = pages_of f l ++ pages_of f k.
Proof. apply omap_app. Qed.

(** The free-page map is a FIFO queue per file: through any history of
    [record_free_page] and [get_free_page], the pages a file had and was given
    are exactly the pages handed out for it, in order, followed by what is
    left.  No page is handed out twice, lost, or given to another file. *)
Theorem free_pages_fifo ops m f :
  let '(m', out) := fsm_run ops m in
  queue m f ++ recorded f ops = pages_of f out ++ queue m' f.
Proof.
  revert m. induction ops as [|o ops IH]; intros m; simpl.
  - by rewrite app_nil_r.
  - destruct (fsm_exec o m) as [m1 r] eqn:E1. specialize (IH m1).
    destruct (fsm_run ops m1) as [m2 out]. rewrite pages_of_app, <- app_assoc, <- IH, app_assoc.
    destruct o as [f' p|f']; simpl in E1.
    + simplify_eq. rewrite queue_record. simpl.
      case_decide; simpl; rewrite <- ?app_assoc, ?app_nil_r; done.
    + pose proof (queue_get m f' f) as Hq.
      destruct (get_free_page m f') as [m1' r']. simplify_eq/=. by rewrite <- Hq.
Qed.

(** *** Saving and loading the free-page map *)

Section free_space_file.
Context (bincode_serialize : gmap Z (list Z) → option (list Z)).
Context (bincode_deserialize : list Z → option (gmap Z (list Z))).

Definition fsm_save_ops (path : Path) (buf : list Z) : list fs_op :=
  save_ops (with_extension path "bin.tmp") path [buf].

Definition fsm_save (fail_at : option nat) (m : FreeSpaceManager) (path : Path) (s : fs) :
    fs * outcome unit :=
  match bincode_serialize (free_pages m) with
  | None => (s, Err Database)
  | Some buf => fs_try fail_at (fsm_save_ops path buf) s
  end.

Definition fsm_load (path : Path) (s : fs) : outcome FreeSpaceManager :=
  match s !! path with
  | None => Ok fsm_new
  | Some buf =>
      match bincode_deserialize buf with
      | Some map => Ok (mkFSM map)
      | None => Err Database
      end
  end.

Hypothesis bincode_roundtrip :
  ∀ map buf, bincode_serialize map = Some buf → bincode_deserialize buf = Some map.

(** Saving the free-page map is atomic: when [save] succeeds, [load] returns
    the saved map; when a call of [save] fails, or the machine stops anywhere
    inside it, [load] returns what it would have returned before, or the new
    map, and never a mixture. *)
Theorem free_space_save_atomic m path s buf :
  bincode_serialize (free_pages m) = Some buf → p_ext path ≠ "bin.tmp" →
  (∀ s', fsm_save None m path s = (s', Ok tt) → fsm_load path s' = Ok m) ∧
  (∀ k s' r, fsm_save (Some k) m path s = (s', r) →
     fsm_load path s' = fsm_load path s ∨ fsm_load path s' = Ok m) ∧
  (∀ s', fs_crash (fsm_save_ops path buf) s s' →
     fsm_load path s' = fsm_load path s ∨ fsm_load path s' = Ok m).
Proof.
  intros Hser Hext.
  assert (with_extension path "bin.tmp" ≠ path) as Hne by (intros E; by rewrite <- E in Hext).
  assert (∀ s', s' !! path = Some buf → fsm_load path s' = Ok m) as Hload.
  { intros s' Hs'. unfold fsm_load. rewrite Hs'.
    erewrite bincode_roundtrip by eassumption. by destruct m. }
  assert (∀ s', fs_crash (fsm_save_ops path buf) s s' →
     fsm_load path s' = fsm_load path s ∨ fsm_load path s' = Ok m) as Hcrash.
  { intros s' Hc. apply save_crash_atomic in Hc as [E|E]; [|..|done].
    - left. unfold fsm_load. by rewrite E.
    - right. apply Hload. simpl in E. by rewrite app_nil_r in E. }
  unfold fsm_save. rewrite Hser. split_and!; [| |done].
  - intros s' Hs. apply (f_equal fst) in Hs. cbn [fst fs_try] in Hs. subst s'.
    apply Hload. unfold fsm_save_ops. rewrite fs_run_save by done. simpl. by rewrite app_nil_r.
  - intros k s' r Hs. apply (f_equal fst) in Hs. cbn [fst] in Hs. subst s'. apply Hcrash. unfold fs_try.
    destruct (decide (k < _)); cbn [fst].
    + apply crash_between.
    + rewrite <- (firstn_all (fsm_save_ops path buf)) at 2. apply crash_between.
Qed.
End free_space_file.

(** A serialiser to instantiate the hypothesis with. *)
Definition demo_serialize (m : gmap Z (list Z)) : option (list Z) := Some [Zpos (encode m)].
Definition demo_deserialize (b : list Z) : option (gmap Z (list Z)) :=
  match b with Zpos p :: _ => decode p | _ => None end.

Lemma demo_roundtrip m b : demo_serialize m = Some b → demo_deserialize b = Some m.
Proof. intros [= <-]. apply decode_encode. Qed.

Lemma free_space_save_atomic_witness :
  let m := record_free_page fsm_new 1 7 in
  let path := mkPath "db" "free_space" "bin" in
  fsm_load demo_deserialize path (fst (fsm_save demo_serialize None m path ∅)) = Ok m.
Proof.
  intros m path.
  refine (proj1 (free_space_save_atomic demo_serialize demo_deserialize demo_roundtrip
    m path ∅ [Zpos (encode (free_pages m))] eq_refl _) _ eq_refl).
  by_compute.
Defined.

(** ** The database header *)

Definition MAGIC : list Z := [76; 73; 71; 72; 84; 78; 73; 78]%Z.   (* b"LIGHTNIN" *)
Definition VERSION : Z := 2.

Record DatabaseHeader := mkHeader {
  magic : list Z;
  version : Z;
  last_checkpoint_tx : Z;
  next_tx_id : Z;
  current_ts : Z;
  last_checkpoint_ts : Z;
}.

Record DatabaseHeaderV1 := mkHeaderV1 {
  v1_magic : list Z;
  v1_version : Z;
  v1_last_checkpoint_ts : Z;
}.

Definition header_new : DatabaseHeader := mkHeader MAGIC VERSION 0 1 1 0.

Definition header_validate (h : DatabaseHeader) : outcome unit :=
  if decide (magic h ≠ MAGIC) then Err Database
  else if decide (version h > VERSION)%Z then Err Database
  else if decide (version h = 0)%Z then Err Database
  else Ok tt.

Section header_file.
Context (bincode_serialize : DatabaseHeader → option (list Z)).
Context (bincode_deserialize : list Z → option DatabaseHeader).
Context (bincode_deserialize_v1 : list Z → option DatabaseHeaderV1).
Context (crc32 : list Z → Z).

(** The V1 fallback: migrate, or report corruption. *)
Definition header_load_v1 (buf : list Z) : outcome DatabaseHeader :=
  match bincode_deserialize_v1 buf with
  | Some v1 =>
      if decide (v1_magic v1 = MAGIC)
      then Ok (mkHeader MAGIC VERSION 0 1 1 (v1_last_checkpoint_ts v1))
      else Err Database
  | None => Err Database
  end.

Definition header_load_buf (buf : list Z) : outcome DatabaseHeader :=
  if decide (4 < length buf) then
    let payload := take (length buf - 4) buf in
    let crc_bytes := drop (length buf - 4) buf in
    if decide (crc32 payload = of_le crc_bytes) then
      match bincode_deserialize payload with
      | Some header => let* _ := header_validate header in Ok header
      | None => header_load_v1 buf
      end
    else header_load_v1 buf
  else header_load_v1 buf.

Definition header_load (path : Path) (s : fs) : outcome DatabaseHeader :=
  match s !! path with
  | None => Err Io
  | Some buf => header_load_buf buf
  end.

Definition header_save_ops (path : Path) (buf : list Z) : list fs_op :=
  save_ops (with_extension path "header.tmp") path [buf; to_le 4 (crc32 buf)].

Definition header_save (fail_at : option nat) (h : DatabaseHeader) (path : Path) (s : fs) :
    fs * outcome unit :=
  match bincode_serialize h with
  | None => (s, Err Database)
  | Some buf => fs_try fail_at (header_save_ops path buf) s
  end.

Hypothesis crc32_u32 : ∀ b, (0 ≤ crc32 b < 2 ^ 32)%Z.

Lemma header_load_saved h buf :
  bincode_deserialize buf = Some h → buf ≠ [] →
  header_validate h = Ok tt → header_load_buf (buf ++ to_le 4 (crc32 buf)) = Ok h.
Proof.
  intros Hde Hne Hv. unfold header_load_buf.
  rewrite length_app, length_to_le.
  rewrite decide_True by (destruct buf; simpl; [done|lia]).
  replace (length buf + 4 - 4) with (length buf) by lia.
  rewrite take_app_length, drop_app_length.
  rewrite of_le_to_le_id by (apply crc32_u32).
  rewrite decide_True by done. by rewrite Hde, Hv.
Qed.

Hypothesis bincode_roundtrip :
  ∀ h buf, bincode_serialize h = Some buf → bincode_deserialize buf = Some h ∧ buf ≠ [].

(** The header survives crashes: after a successful [save] of a valid
    header, [load] returns it; after an I/O error or a crash anywhere inside
    [save], [load] returns what it would have returned before or the new
    header. *)
Theorem header_save_atomic h path s buf :
  bincode_serialize h = Some buf → header_validate h = Ok tt → p_ext path ≠ "header.tmp" →
  (∀ s', header_save None h path s = (s', Ok tt) → header_load path s' = Ok h) ∧
  (∀ k s' r, header_save (Some k) h path s = (s', r) →
     header_load path s' = header_load path s ∨ header_load path s' = Ok h) ∧
  (∀ s', fs_crash (header_save_ops path buf) s s' →
     header_load path s' = header_load path s ∨ header_load path s' = Ok h).
Proof.
  intros Hser Hv Hext. destruct (bincode_roundtrip h buf Hser) as [Hde Hbuf].
  assert (with_extension path "header.tmp" ≠ path) as Hne by (intros E; by rewrite <- E in Hext).
  assert (∀ s', s' !! path = Some (concat [buf; to_le 4 (crc32 buf)]) →
                header_load path s' = Ok h) as Hload.
  { intros s' Hs'. unfold header_load. rewrite Hs'. unfold concat. rewrite app_nil_r.
    by apply header_load_saved. }
  assert (∀ s', fs_crash (header_save_ops path buf) s s' →
     header_load path s' = header_load path s ∨ header_load path s' = Ok h) as Hcrash.
  { intros s' Hc. apply save_crash_atomic in Hc as [E|E]; [|by right; apply Hload|done].
    left. unfold header_load. by rewrite E. }
  unfold header_save. rewrite Hser. split_and!; [| |done].
  - intros s' Hs. apply (f_equal fst) in Hs. cbn [fst fs_try] in Hs. subst s'.
    apply Hload. unfold header_save_ops. by rewrite fs_run_save.
  - intros k s' r Hs. apply (f_equal fst) in Hs. cbn [fst] in Hs. subst s'. apply Hcrash. unfold fs_try.
    destruct (decide (k < _)); cbn [fst].
    + apply crash_between.
    + rewrite <- (firstn_all (header_save_ops path buf)) at 2. apply crash_between.
Qed.

(** A damaged checksum is not reported: a V2 header file whose CRC does not
    match, but whose leading bytes still decode as the shorter V1 layout with
    the right magic, loads successfully with the recovery watermark and the
    transaction and commit counters reset. *)
Theorem corrupt_header_resets_counters buf v1 :
  4 < length buf → crc32 (take (length buf - 4) buf) ≠ of_le (drop (length buf - 4) buf) →
  bincode_deserialize_v1 buf = Some v1 → v1_magic v1 = MAGIC →
  header_load_buf buf = Ok (mkHeader MAGIC VERSION 0 1 1 (v1_last_checkpoint_ts v1)).
Proof.
  intros Hl Hcrc Hde Hm. unfold header_load_buf, header_load_v1.
  by rewrite decide_True, decide_False, Hde, decide_True.
Qed.
End header_file.

(** A word-per-field layout and a byte-sum checksum to instantiate the
    hypotheses with; the V1 layout is a prefix, and trailing words are ignored,
    as the crate documents for trailing bytes. *)
Definition demo_header_ser (h : DatabaseHeader) : option (list Z) :=
  if decide (length (magic h) = 8) then
    Some (magic h ++ [version h; last_checkpoint_tx h; next_tx_id h; current_ts h; last_checkpoint_ts h])
  else None.
Definition demo_header_de (b : list Z) : option DatabaseHeader :=
  match drop 8 b with
  | [v; a; b1; c; d] => Some (mkHeader (take 8 b) v a b1 c d)
  | _ => None
  end.
Definition demo_header_de_v1 (b : list Z) : option DatabaseHeaderV1 :=
  match drop 8 b with v :: a :: _ => Some (mkHeaderV1 (take 8 b) v a) | _ => None end.
Definition demo_crc (b : list Z) : Z := (foldr Z.add 0 b mod 2 ^ 32)%Z.

Lemma demo_crc_u32 b : (0 ≤ demo_crc b < 2 ^ 32)%Z.
Proof. apply Z.mod_pos_bound. lia. Qed.

Lemma demo_header_roundtrip h buf :
  demo_header_ser h = Some buf → demo_header_de buf = Some h ∧ buf ≠ [].
Proof.
  unfold demo_header_ser, demo_header_de. case_decide as E; [|done]. intros [= <-].
  rewrite drop_app_length', take_app_length' by done. split; [by destruct h|].
  intros H0%(f_equal length). rewrite length_app in H0. simpl in H0. lia.
Qed.

Lemma header_save_atomic_witness :
  let path := mkPath "db" "database" "header" in
  header_load demo_header_de demo_header_de_v1 demo_crc path
    (fst (header_save demo_header_ser demo_crc None header_new path ∅)) = Ok header_new.
Proof.
  intros path.
  refine (proj1 (header_save_atomic demo_header_ser demo_header_de demo_header_de_v1 demo_crc
    demo_crc_u32 demo_header_roundtrip header_new path ∅ (MAGIC ++ [2; 0; 1; 1; 0]%Z)
    eq_refl eq_refl _) _ eq_refl).
  by_compute.
Defined.

(** A header at watermark 40 whose checksum word is damaged. *)
Lemma corrupt_header_resets_counters_witness :
  let buf := MAGIC ++ [2; 40; 50; 60; 60; 1; 1; 1; 1]%Z in
  header_load_buf demo_header_de demo_header_de_v1 demo_crc buf
    = Ok (mkHeader MAGIC VERSION 0 1 1 40).
Proof.
  intros buf.
  apply (corrupt_header_resets_counters demo_header_de demo_header_de_v1 demo_crc buf
    (mkHeaderV1 MAGIC 2 40)); [simpl; lia|by_compute|done|done].
Defined.
