(* ===== verification/Wal.v ===== *)
(** * Write-ahead log (storage/wal.rs)

    The log file as bytes with a cursor, the group-commit buffer, the writer
    ([log_page_update], [flush_pending], [log_commit], [truncate]), the
    recovery pass ([replay], both on-disk versions) and the record iterator
    used by change capture ([next_record]).  The [crc] crate's CRC-32C is a
    section variable.  File calls other than reads at end of file succeed. *)
From stdpp Require Import base list gmap numbers.
From Stdlib Require Import ZArith Lia Bool.
From S2P Require Import Prelude.

(** ** Constants *)

Definition WAL_MAGIC : list Z := [76; 78; 73; 87]%Z.   (* b"LNIW" *)
Definition WAL_VERSION : Z := 2.
Definition WAL_VERSION_V1 : Z := 1.
Definition WAL_HEADER_SIZE : nat := 5.
Definition RECORD_TYPE_PAGE_UPDATE : Z := 1.
Definition RECORD_TYPE_COMMIT : Z := 2.
Definition PAGE_UPDATE_PAYLOAD_SIZE : nat := 24 + PAGE_SIZE.
Definition COMMIT_PAYLOAD_SIZE : nat := 8.
Definition WAL_CHECKSUM_SIZE : nat := 4.
Definition WAL_LENGTH_SIZE : nat := 2.
Definition WAL_ALIGNMENT : nat := 8.
Definition VALID_PAGE_UPDATE_LENGTH : nat := WAL_CHECKSUM_SIZE + PAGE_UPDATE_PAYLOAD_SIZE.
Definition VALID_COMMIT_LENGTH : nat := WAL_CHECKSUM_SIZE + COMMIT_PAYLOAD_SIZE.
Definition MAX_SKIP_PER_CORRUPT_RECORD : Z := 65536.
Definition WAL_PENDING_FLUSH_BYTES : Z := 8 * 1024 * 1024.
Definition MAX_WAL_READ_SIZE : Z := 64 * 1024 * 1024.

(** ** Files *)

(** [content] is what a reader of the file sees; [synced] is the number of
    leading bytes known to be on disk, raised by [sync_all] only.  A crash
    keeps those bytes and may lose any of the later ones. *)
Record File := mkFile { content : list Z; cursor : nat; synced : nat }.

Definition file_seek (f : File) (pos : nat) : File := mkFile (content f) pos (synced f).
Definition file_set_len0 (f : File) : File := mkFile [] (cursor f) 0.

(** [write_all] at the cursor: overwrites, extends, zero-fills a gap. *)
Definition file_write (f : File) (b : list Z) : File :=
  let c := content f in
  mkFile (take (cursor f) c ++ replicate (cursor f - length c) 0%Z ++ b
            ++ drop (cursor f + length b) c)
         (cursor f + length b) (synced f `min` cursor f).

(** [sync_all], or [fsync] on the descriptor. *)
Definition sync_all (f : File) : File := mkFile (content f) (cursor f) (length (content f)).

(** [read_exact]: the bytes and the new cursor, or end of file, in which case
    the rest of the file has been consumed. *)
Definition read_exact (c : list Z) (pos n : nat) : option (list Z) * nat :=
  if decide (pos + n ≤ length c) then (Some (slice c pos (pos + n)), pos + n)
  else (None, pos `max` length c).

(** ** The log *)

Inductive SyncMode := SyncNormal | SyncOff.

#[global] Instance SyncMode_eq_dec : EqDecision SyncMode.
Proof. solve_decision. Defined.

(** [if self.sync_mode == SyncMode::Normal { file.sync_all()? }] *)
Definition sync_if_normal (mode : SyncMode) (f : File) : File :=
  if decide (mode = SyncNormal) then sync_all f else f.

Record WAL := mkWAL {
  file : File;
  committed_txs : gset Z;
  sync_mode : SyncMode;
  archive : option (gmap Z (list Z));   (* the archive directory: sequence number -> file *)
  archive_seq : Z;
  pending_buf : list Z;
  wal_version : Z;
}.

Definition wal_header : list Z := WAL_MAGIC ++ [WAL_VERSION].

Definition write_header (f : File) : File := file_write (file_write f WAL_MAGIC) [WAL_VERSION].

Definition validate_header (f : File) : File * outcome Z :=
  let '(magic, pos1) := read_exact (content f) (cursor f) 4 in
  match magic with
  | None => (file_seek f pos1, Err Io)
  | Some magic =>
      let '(version, pos2) := read_exact (content f) pos1 1 in
      match version with
      | None => (file_seek f pos2, Err Io)
      | Some version =>
          let f := file_seek f pos2 in
          if decide (magic ≠ WAL_MAGIC) then (f, Err Internal)
          else if decide (byte_at version 0 = WAL_VERSION_V1) then (f, Ok WAL_VERSION_V1)
          else if decide (byte_at version 0 = WAL_VERSION) then (f, Ok WAL_VERSION)
          else (f, Err Internal)
      end
  end.

Definition align_position (f : File) : File :=
  let padding := (WAL_ALIGNMENT - (cursor f mod WAL_ALIGNMENT)) mod WAL_ALIGNMENT in
  if decide (0 < padding) then file_write f (replicate padding 0%Z) else f.

(** [WAL::new] on the bytes that are on disk.  A header that is written is
    synced; of the bytes of a log that is reopened nothing is assumed. *)
Definition wal_new (disk : list Z) (mode : SyncMode) : WAL :=
  let f0 := mkFile disk 0 0 in
  let reinit f := sync_if_normal mode (write_header (file_seek (file_set_len0 f) 0)) in
  let '(f, version) :=
    if decide (length disk = 0) then (sync_if_normal mode (write_header f0), WAL_VERSION)
    else if decide (length disk < WAL_HEADER_SIZE) then (reinit f0, WAL_VERSION)
    else match validate_header f0 with
         | (f, Ok ver) => (f, ver)
         | (f, _) => (reinit f, WAL_VERSION)
         end in
  mkWAL f ∅ mode None 0 [] version.

(** [max().map(|s| s + 1).unwrap_or(0)] over the archived sequence numbers. *)
Definition enable_archive (w : WAL) (dir : gmap Z (list Z)) : WAL :=
  let seqs := (map_to_list dir).*1 in
  let next := match seqs with [] => 0 | s :: rest => foldl Z.max s rest + 1 end%Z in
  mkWAL (file w) (committed_txs w) (sync_mode w) (Some dir) next (pending_buf w) (wal_version w).

Definition set_file (w : WAL) (f : File) : WAL :=
  mkWAL f (committed_txs w) (sync_mode w) (archive w) (archive_seq w) (pending_buf w) (wal_version w).
Definition set_pending (w : WAL) (b : list Z) : WAL :=
  mkWAL (file w) (committed_txs w) (sync_mode w) (archive w) (archive_seq w) b (wal_version w).
Definition set_committed (w : WAL) (s : gset Z) : WAL :=
  mkWAL (file w) s (sync_mode w) (archive w) (archive_seq w) (pending_buf w) (wal_version w).

Definition wal_size (w : WAL) : nat := length (content (file w)).

(** Copies the log into the archive, then resets it to a bare header. *)
Definition truncate (w : WAL) : WAL :=
  let '(arch, seq) :=
    match archive w with
    | Some dir =>
        if decide (WAL_HEADER_SIZE < wal_size w)
        then (Some (<[archive_seq w := content (file w)]> dir), archive_seq w + 1)%Z
        else (Some dir, archive_seq w)
    | None => (None, archive_seq w)
    end in
  mkWAL (sync_if_normal (sync_mode w) (write_header (file_seek (file_set_len0 (file w)) 0)))
        ∅ (sync_mode w) arch seq (pending_buf w) (wal_version w).

(** Records, as the iterator and the recovery pass see them. *)
Inductive WALRecord :=
| PageUpdate (tx_id file_id page_idx : Z) (data : list Z)
| Commit (tx_id : Z)
| Corrupt (offset : nat).

Record WALReplayReport := mkReport {
  records_read : nat;
  corrupt_records_skipped : nat;
  partial_record_at_eof : bool;
  max_tx_id : Z;
  framing_lost : bool;
}.

Section wal.
Context (crc32c : list Z → Z).

Definition compute_checksum_v2 (record_type : Z) (length : Z) (payload : list Z) : Z :=
  crc32c ([record_type] ++ to_le 2 length ++ payload).

(** ** The writer *)

(** [type][length][crc][payload], with [length as u16]. *)
Definition frame_v2 (record_type : Z) (payload_len : nat) (payload : list Z) : list Z :=
  let length := u16_wrap (Z.of_nat payload_len) in
  [record_type] ++ to_le 2 length ++ to_le 4 (compute_checksum_v2 record_type length payload) ++ payload.

Definition page_update_bytes (tx_id file_id page_idx : Z) (data : list Z) : list Z :=
  frame_v2 RECORD_TYPE_PAGE_UPDATE (WAL_CHECKSUM_SIZE + 8 + 8 + 8 + PAGE_SIZE)
           (to_le 8 tx_id ++ to_le 8 file_id ++ to_le 8 page_idx ++ data).
Definition commit_bytes (tx_id : Z) : list Z :=
  frame_v2 RECORD_TYPE_COMMIT (WAL_CHECKSUM_SIZE + 8) (to_le 8 tx_id).

Definition flush_pending (w : WAL) : WAL :=
  match pending_buf w with
  | [] => w
  | pending => set_pending (set_file w (align_position (file_write (file w) pending))) []
  end.

Definition log_page_update (w : WAL) (tx_id file_id page_idx : Z) (data : list Z) : WAL :=
  let w := set_pending w (pending_buf w ++ page_update_bytes tx_id file_id page_idx data) in
  if decide (WAL_PENDING_FLUSH_BYTES ≤ Z.of_nat (length (pending_buf w)))%Z
  then flush_pending w else w.

Definition log_commit (w : WAL) (tx_id : Z) : WAL :=
  let commit_record := pending_buf w ++ commit_bytes tx_id in
  let w := set_pending w [] in
  let w := set_file w (align_position (file_write (file w) commit_record)) in
  let w := set_file w (sync_if_normal (sync_mode w) (file w)) in
  set_committed w ({[tx_id]} ∪ committed_txs w).

(** ** Recovery *)

Section replay.
(** [apply_page] writes a page into the storage state and may fail. *)
Context {St : Type}.
Context (apply_page : Z → Z → list Z → St → St * option LightningError).

Record replay_st := mkReplay {
  rs_pos : nat;
  rs_commits : gset Z;
  rs_pending : gmap Z (list (Z * Z * list Z));
  rs_read : nat;
  rs_corrupt : nat;
  rs_partial : bool;
  rs_max_tx : Z;
  rs_framing : bool;
  rs_store : St;
}.

Definition with_pos (pos : nat) (st : replay_st) : replay_st :=
  mkReplay pos (rs_commits st) (rs_pending st) (rs_read st) (rs_corrupt st) (rs_partial st)
           (rs_max_tx st) (rs_framing st) (rs_store st).
Definition with_partial (pos : nat) (st : replay_st) : replay_st :=
  mkReplay pos (rs_commits st) (rs_pending st) (rs_read st) (rs_corrupt st) true
           (rs_max_tx st) (rs_framing st) (rs_store st).
Definition with_corrupt (pos : nat) (lost : bool) (st : replay_st) : replay_st :=
  mkReplay pos (rs_commits st) (rs_pending st) (rs_read st) (S (rs_corrupt st)) (rs_partial st)
           (rs_max_tx st) (rs_framing st || lost) (rs_store st).
Definition with_read (st : replay_st) : replay_st :=
  mkReplay (rs_pos st) (rs_commits st) (rs_pending st) (S (rs_read st)) (rs_corrupt st)
           (rs_partial st) (rs_max_tx st) (rs_framing st) (rs_store st).

(** [let _ = apply_page(..)] for each update, in order. *)
Definition apply_all (updates : list (Z * Z * list Z)) (s : St) : St :=
  foldl (λ s u, fst (apply_page (fst (fst u)) (snd (fst u)) (snd u) s)) s updates.

Definition handle_page_update (last_checkpoint_tx tx_id file_id page_idx : Z) (data : list Z)
    (st : replay_st) : replay_st :=
  if decide (tx_id ∈ rs_commits st ∧ tx_id > last_checkpoint_tx)%Z then
    mkReplay (rs_pos st) (rs_commits st) (rs_pending st) (rs_read st) (rs_corrupt st)
             (rs_partial st) (rs_max_tx st) (rs_framing st)
             (fst (apply_page file_id page_idx data (rs_store st)))
  else
    mkReplay (rs_pos st) (rs_commits st)
             (<[tx_id := default [] (rs_pending st !! tx_id) ++ [(file_id, page_idx, data)]]>
                (rs_pending st))
             (rs_read st) (rs_corrupt st) (rs_partial st) (rs_max_tx st) (rs_framing st) (rs_store st).

Definition note_tx (tx_id : Z) (st : replay_st) : replay_st :=
  mkReplay (rs_pos st) (rs_commits st) (rs_pending st) (rs_read st) (rs_corrupt st)
           (rs_partial st) (rs_max_tx st `max` tx_id)%Z (rs_framing st) (rs_store st).

(** [commits.insert(tx_id)], then apply what was waiting for the commit. *)
Definition handle_commit (last_checkpoint_tx tx_id : Z) (st : replay_st) : replay_st :=
  let commits := {[tx_id]} ∪ rs_commits st in
  if decide (tx_id > last_checkpoint_tx)%Z then
    match rs_pending st !! tx_id with
    | Some updates =>
        mkReplay (rs_pos st) commits (delete tx_id (rs_pending st)) (rs_read st) (rs_corrupt st)
                 (rs_partial st) (rs_max_tx st) (rs_framing st) (apply_all updates (rs_store st))
    | None =>
        mkReplay (rs_pos st) commits (rs_pending st) (rs_read st) (rs_corrupt st)
                 (rs_partial st) (rs_max_tx st) (rs_framing st) (rs_store st)
    end
  else
    mkReplay (rs_pos st) commits (rs_pending st) (rs_read st) (rs_corrupt st)
             (rs_partial st) (rs_max_tx st) (rs_framing st) (rs_store st).

(** Result [true]: a record was processed; [false]: skip, or stop when one of
    the two flags is set. *)
Definition read_and_apply_page_update (ver : Z) (c : list Z) (last_checkpoint_tx : Z)
    (st : replay_st) : replay_st * bool :=
  if decide (2 ≤ ver)%Z then
    match read_exact c (rs_pos st) WAL_LENGTH_SIZE with
    | (None, p) => (with_partial p st, false)
    | (Some length_bytes, p1) =>
        let record_length := Z.to_nat (of_le length_bytes) in
        if decide (record_length ≠ VALID_PAGE_UPDATE_LENGTH)
        then (with_corrupt p1 true st, false)
        else match read_exact c p1 WAL_CHECKSUM_SIZE with
        | (None, p) => (with_partial p st, false)
        | (Some checksum_bytes, p2) =>
            match read_exact c p2 PAGE_UPDATE_PAYLOAD_SIZE with
            | (None, p) => (with_partial p st, false)
            | (Some payload, p3) =>
                let stored_crc := of_le checksum_bytes in
                let expected_crc :=
                  compute_checksum_v2 RECORD_TYPE_PAGE_UPDATE
                    (u16_wrap (Z.of_nat record_length)) payload in
                if decide (expected_crc ≠ stored_crc) then (with_corrupt p3 false st, false)
                else
                  let tx_id := of_le (slice payload 0 8) in
                  let file_id := of_le (slice payload 8 16) in
                  let page_idx := of_le (slice payload 16 24) in
                  let data := drop 24 payload in
                  (handle_page_update last_checkpoint_tx tx_id file_id page_idx data
                     (note_tx tx_id (with_pos p3 st)), true)
            end
        end
    end
  else
    match read_exact c (rs_pos st) WAL_CHECKSUM_SIZE with
    | (None, p) => (with_partial p st, false)
    | (Some checksum_bytes, p1) =>
        let stored_crc := of_le checksum_bytes in
        match read_exact c p1 8 with
        | (None, p) => (with_partial p st, false)
        | (Some tx_id_bytes, p2) =>
        match read_exact c p2 8 with
        | (None, p) => (with_partial p st, false)
        | (Some file_id_bytes, p3) =>
        match read_exact c p3 8 with
        | (None, p) => (with_partial p st, false)
        | (Some page_idx_bytes, p4) =>
        match read_exact c p4 PAGE_SIZE with
        | (None, p) => (with_partial p st, false)
        | (Some data, p5) =>
            if decide (crc32c ([RECORD_TYPE_PAGE_UPDATE] ++ tx_id_bytes ++ file_id_bytes
                               ++ page_idx_bytes ++ data) ≠ stored_crc)
            then (with_corrupt p5 false st, false)
            else
              let tx_id := of_le tx_id_bytes in
              (handle_page_update last_checkpoint_tx tx_id (of_le file_id_bytes)
                 (of_le page_idx_bytes) data (note_tx tx_id (with_pos p5 st)), true)
        end end end end
    end.

Definition read_and_apply_commit (ver : Z) (c : list Z) (last_checkpoint_tx : Z)
    (st : replay_st) : replay_st * bool :=
  if decide (2 ≤ ver)%Z then
    match read_exact c (rs_pos st) WAL_LENGTH_SIZE with
    | (None, p) => (with_partial p st, false)
    | (Some length_bytes, p1) =>
        let record_length := Z.to_nat (of_le length_bytes) in
        if decide (record_length ≠ VALID_COMMIT_LENGTH)
        then (with_corrupt p1 true st, false)
        else match read_exact c p1 WAL_CHECKSUM_SIZE with
        | (None, p) => (with_partial p st, false)
        | (Some checksum_bytes, p2) =>
            match read_exact c p2 COMMIT_PAYLOAD_SIZE with
            | (None, p) => (with_partial p st, false)
            | (Some tx_id_bytes, p3) =>
                let stored_crc := of_le checksum_bytes in
                let expected_crc :=
                  compute_checksum_v2 RECORD_TYPE_COMMIT
                    (u16_wrap (Z.of_nat record_length)) tx_id_bytes in
                if decide (expected_crc ≠ stored_crc) then (with_corrupt p3 false st, false)
                else
                  let tx_id := of_le tx_id_bytes in
                  (handle_commit last_checkpoint_tx tx_id (note_tx tx_id (with_pos p3 st)), true)
            end
        end
    end
  else
    match read_exact c (rs_pos st) WAL_CHECKSUM_SIZE with
    | (None, p) => (with_partial p st, false)
    | (Some checksum_bytes, p1) =>
        let stored_crc := of_le checksum_bytes in
        match read_exact c p1 8 with
        | (None, p) => (with_partial p st, false)
        | (Some tx_id_bytes, p2) =>
            if decide (crc32c ([RECORD_TYPE_COMMIT] ++ tx_id_bytes) ≠ stored_crc)
            then (with_corrupt p2 false st, false)
            else
              let tx_id := of_le tx_id_bytes in
              (handle_commit last_checkpoint_tx tx_id (note_tx tx_id (with_pos p2 st)), true)
        end
    end.

(** Discards [remaining] bytes through a buffer of at most 8192; [None] when
    the file ends first. *)
Fixpoint skip_loop (fuel : nat) (c : list Z) (buf_len remaining pos : nat) : option nat :=
  match fuel with
  | O => Some pos
  | S fuel =>
      if decide (remaining = 0) then Some pos
      else
        let to_read := remaining `min` buf_len in
        let n := to_read `min` (length c - pos) in
        if decide (n = 0) then None
        else skip_loop fuel c buf_len (remaining - n) (pos + n)
  end.

Definition skip_unknown_record (ver : Z) (c : list Z) (st : replay_st) : replay_st :=
  if decide (2 ≤ ver)%Z then
    match read_exact c (rs_pos st) WAL_LENGTH_SIZE with
    | (None, p) => with_partial p st
    | (Some length_bytes, p1) =>
        let record_length := of_le length_bytes in
        if decide (record_length > MAX_SKIP_PER_CORRUPT_RECORD)%Z
        then with_corrupt p1 true st
        else
          let n := Z.to_nat record_length in
          match skip_loop (S n) c (n `min` Z.to_nat 8192) n p1 with
          | Some p2 => with_corrupt p2 false st
          | None => with_partial (p1 `max` length c) st
          end
    end
  else with_corrupt (rs_pos st) false st.

(** One turn of the loop: the new state, and whether to go on. *)
Definition replay_step (ver : Z) (c : list Z) (last_checkpoint_tx : Z) (st : replay_st) :
    replay_st * bool :=
  match read_exact c (rs_pos st) 1 with
  | (None, p) => (with_pos p st, false)
  | (Some t, p) =>
      let st := with_pos p st in
      let record_type := byte_at t 0 in
      if decide (record_type = RECORD_TYPE_PAGE_UPDATE) then
        let '(st', ok) := read_and_apply_page_update ver c last_checkpoint_tx st in
        if ok then (with_read st', true) else (st', negb (rs_partial st' || rs_framing st'))
      else if decide (record_type = RECORD_TYPE_COMMIT) then
        let '(st', ok) := read_and_apply_commit ver c last_checkpoint_tx st in
        if ok then (with_read st', true) else (st', negb (rs_partial st' || rs_framing st'))
      else if decide (record_type = 0%Z) then (st, true)
      else
        let st' := skip_unknown_record ver c st in
        (st', negb (rs_partial st' || rs_framing st'))
  end.

(** Every turn that goes on consumes at least the type byte, so one more turn
    than there are bytes is enough. *)
Fixpoint replay_loop (fuel : nat) (ver : Z) (c : list Z) (last_checkpoint_tx : Z)
    (st : replay_st) : replay_st :=
  match fuel with
  | O => st
  | S fuel =>
      let '(st', go) := replay_step ver c last_checkpoint_tx st in
      if go then replay_loop fuel ver c last_checkpoint_tx st' else st'
  end.

Definition replay_init (s : St) : replay_st :=
  mkReplay WAL_HEADER_SIZE ∅ ∅ 0 0 false 0 false s.

(** [apply_page(..)?] for each update: stops at the first error. *)
Fixpoint apply_all_or_fail (updates : list (Z * Z * list Z)) (s : St) : St * option LightningError :=
  match updates with
  | [] => (s, None)
  | (fid, pid, data) :: updates =>
      match apply_page fid pid data s with
      | (s', None) => apply_all_or_fail updates s'
      | (s', Some e) => (s', Some e)
      end
  end.

(** The drain of what is left in [pending]; the hash map's order is arbitrary,
    here the order of [map_to_list]. *)
Fixpoint drain_pending (last_checkpoint_tx : Z) (commits : gset Z)
    (entries : list (Z * list (Z * Z * list Z))) (s : St) : St * option LightningError :=
  match entries with
  | [] => (s, None)
  | (tx_id, updates) :: entries =>
      if decide (tx_id > last_checkpoint_tx ∧ tx_id ∈ commits)%Z then
        match apply_all_or_fail updates s with
        | (s', None) => drain_pending last_checkpoint_tx commits entries s'
        | (s', Some e) => (s', Some e)
        end
      else drain_pending last_checkpoint_tx commits entries s
  end.

Definition replay (w : WAL) (last_checkpoint_tx : Z) (s : St) : WAL * St * outcome WALReplayReport :=
  let c := content (file w) in
  let st := replay_loop (S (length c)) (wal_version w) c last_checkpoint_tx (replay_init s) in
  let w := set_file w (file_seek (file w) (rs_pos st)) in
  match drain_pending last_checkpoint_tx (rs_commits st) (map_to_list (rs_pending st)) (rs_store st) with
  | (s', Some e) => (w, s', Err e)
  | (s', None) =>
      (set_committed w (filter (λ t, t > last_checkpoint_tx)%Z (rs_commits st) ∪ committed_txs w), s',
       Ok (mkReport (rs_read st) (rs_corrupt st) (rs_partial st) (rs_max_tx st) (rs_framing st)))
  end.
End replay.

(** ** The record iterator *)

Record WALRecordIter := mkIter {
  it_buf : list Z;
  it_pos : nat;
  it_base : nat;
  it_version : Z;
}.

Definition absolute_pos (it : WALRecordIter) : nat := it_base it + it_pos it.

Definition set_pos (it : WALRecordIter) (pos : nat) : WALRecordIter :=
  mkIter (it_buf it) pos (it_base it) (it_version it).

Definition iter_align (it : WALRecordIter) : WALRecordIter :=
  let file_pos := it_base it + it_pos it in
  let padding := (WAL_ALIGNMENT - file_pos mod WAL_ALIGNMENT) mod WAL_ALIGNMENT in
  set_pos it ((it_pos it + padding) `min` length (it_buf it)).

(** What one turn of [next_record]'s loop does. *)
Inductive iter_turn :=
| Return (it : WALRecordIter) (r : option WALRecord)
| Continue (it : WALRecordIter).

Definition next_page_update (it : WALRecordIter) : iter_turn :=
  let buf := it_buf it in
  let pos := it_pos it in
  let needed :=
    if decide (2 ≤ it_version it)%Z
    then 1 + WAL_LENGTH_SIZE + WAL_CHECKSUM_SIZE + 8 + 8 + 8 + PAGE_SIZE
    else 1 + WAL_CHECKSUM_SIZE + 8 + 8 + 8 + PAGE_SIZE in
  if decide (length buf < pos + needed) then Return it None
  else if decide (2 ≤ it_version it)%Z then
    let record_length := of_le (slice buf (pos + 1) (pos + 1 + 2)) in
    let crc_start := pos + 1 + WAL_LENGTH_SIZE in
    let payload_start := crc_start + WAL_CHECKSUM_SIZE in
    let stored_crc := of_le (slice buf crc_start (crc_start + WAL_CHECKSUM_SIZE)) in
    let expected_payload := WAL_CHECKSUM_SIZE + 8 + 8 + 8 + PAGE_SIZE in
    if decide (Z.to_nat record_length ≠ expected_payload)
    then Return it (Some (Corrupt (it_base it + pos)))
    else
      let tx_id := of_le (slice buf payload_start (payload_start + 8)) in
      let file_id := of_le (slice buf (payload_start + 8) (payload_start + 16)) in
      let page_idx := of_le (slice buf (payload_start + 16) (payload_start + 24)) in
      let data := slice buf (payload_start + 24) (payload_start + 24 + PAGE_SIZE) in
      let computed_crc :=
        compute_checksum_v2 RECORD_TYPE_PAGE_UPDATE record_length
          (slice buf payload_start (payload_start + 8 + 8 + 8 + PAGE_SIZE)) in
      if decide (computed_crc ≠ stored_crc)
      then Return it (Some (Corrupt (it_base it + pos)))
      else Return (set_pos it (pos + needed)) (Some (PageUpdate tx_id file_id page_idx data))
  else
    let off := pos + 1 + WAL_CHECKSUM_SIZE in
    let stored_crc := of_le (slice buf (pos + 1) (pos + 1 + WAL_CHECKSUM_SIZE)) in
    let tx_id := of_le (slice buf off (off + 8)) in
    let file_id := of_le (slice buf (off + 8) (off + 16)) in
    let page_idx := of_le (slice buf (off + 16) (off + 24)) in
    let data_start := off + 24 in
    let data := slice buf data_start (data_start + PAGE_SIZE) in
    let computed_crc :=
      crc32c ([RECORD_TYPE_PAGE_UPDATE] ++ to_le 8 tx_id ++ to_le 8 file_id ++ to_le 8 page_idx ++ data) in
    if decide (computed_crc ≠ stored_crc)
    then Return it (Some (Corrupt (it_base it + pos)))
    else Return (set_pos it (pos + needed)) (Some (PageUpdate tx_id file_id page_idx data)).

Definition next_commit (it : WALRecordIter) : iter_turn :=
  let buf := it_buf it in
  let pos := it_pos it in
  let needed :=
    if decide (2 ≤ it_version it)%Z
    then 1 + WAL_LENGTH_SIZE + WAL_CHECKSUM_SIZE + 8 else 1 + WAL_CHECKSUM_SIZE + 8 in
  if decide (length buf < pos + needed) then Return it None
  else if decide (2 ≤ it_version it)%Z then
    let record_length := of_le (slice buf (pos + 1) (pos + 1 + 2)) in
    let crc_start := pos + 1 + WAL_LENGTH_SIZE in
    let payload_start := crc_start + WAL_CHECKSUM_SIZE in
    let stored_crc := of_le (slice buf crc_start (crc_start + WAL_CHECKSUM_SIZE)) in
    let expected_payload := WAL_CHECKSUM_SIZE + 8 in
    if decide (Z.to_nat record_length ≠ expected_payload)
    then Return it (Some (Corrupt (it_base it + pos)))
    else
      let tx_id_bytes := slice buf payload_start (payload_start + 8) in
      let computed_crc := compute_checksum_v2 RECORD_TYPE_COMMIT record_length tx_id_bytes in
      if decide (computed_crc ≠ stored_crc)
      then Return it (Some (Corrupt (it_base it + pos)))
      else Return (iter_align (set_pos it (pos + needed))) (Some (Commit (of_le tx_id_bytes)))
  else
    let off := pos + 1 + WAL_CHECKSUM_SIZE in
    let tx_id := of_le (slice buf off (off + 8)) in
    let stored_crc := of_le (slice buf (pos + 1) (pos + 1 + WAL_CHECKSUM_SIZE)) in
    let computed_crc := crc32c ([RECORD_TYPE_COMMIT] ++ slice buf off (off + 8)) in
    if decide (computed_crc ≠ stored_crc)
    then Continue (iter_align (set_pos it (pos + needed)))
    else Return (iter_align (set_pos it (pos + needed))) (Some (Commit tx_id)).

Definition next_unknown (it : WALRecordIter) : iter_turn :=
  let buf := it_buf it in
  let pos := it_pos it in
  if decide (2 ≤ it_version it)%Z then
    if decide (length buf < pos + 1 + WAL_LENGTH_SIZE) then Return it None
    else
      let record_length := of_le (slice buf (pos + 1) (pos + 1 + 2)) in
      let skip := Z.to_nat (record_length `min` MAX_SKIP_PER_CORRUPT_RECORD)%Z in
      let total := 1 + WAL_LENGTH_SIZE + skip in
      if decide (length buf < pos + total) then Return (set_pos it (length buf)) None
      else Continue (set_pos it (pos + total))
  else Continue (set_pos it (pos + 1)).

(** The loop; every [Continue] advances, so one more turn than there are bytes
    is enough. *)
Fixpoint next_record_loop (fuel : nat) (it : WALRecordIter) : WALRecordIter * option WALRecord :=
  match fuel with
  | O => (it, None)
  | S fuel =>
      match it_buf it !! it_pos it with
      | None => (it, None)
      | Some record_type =>
          let turn :=
            if decide (record_type = RECORD_TYPE_PAGE_UPDATE) then next_page_update it
            else if decide (record_type = RECORD_TYPE_COMMIT) then next_commit it
            else if decide (record_type = 0%Z) then Continue (set_pos it (it_pos it + 1))
            else next_unknown it in
          match turn with
          | Return it' r => (it', r)
          | Continue it' => next_record_loop fuel it'
          end
      end
  end.

Definition next_record (it : WALRecordIter) : WALRecordIter * option WALRecord :=
  next_record_loop (S (length (it_buf it))) it.

(** Reads at most 64 MB from [offset]; moves the shared file cursor. *)
Definition read_records_from (w : WAL) (offset : nat) : WAL * WALRecordIter :=
  let file_len := wal_size w in
  let start := if decide (offset < WAL_HEADER_SIZE) then WAL_HEADER_SIZE else offset in
  if decide (file_len ≤ start) then (w, mkIter [] 0 start (wal_version w))
  else
    let remaining := file_len - start in
    let to_read := remaining `min` Z.to_nat MAX_WAL_READ_SIZE in
    (set_file w (file_seek (file w) (start + to_read)),
     mkIter (slice (content (file w)) start (start + to_read)) 0 start (wal_version w)).

(** [loop { match iter.next_record() { ... None => break } }] of change capture
    (cdc.rs): the records delivered within [fuel] calls, and whether [None] was
    reached. *)
Fixpoint drain_iter (fuel : nat) (it : WALRecordIter) : WALRecordIter * list WALRecord * bool :=
  match fuel with
  | O => (it, [], false)
  | S fuel =>
      match next_record it with
      | (it', None) => (it', [], true)
      | (it', Some r) =>
          let '(it2, rs, fin) := drain_iter fuel it' in (it2, r :: rs, fin)
      end
  end.
End wal.
