(* ===== verification/WalRecovery.v ===== *)
(** * Recovery from the write-ahead log

    A log is a sequence of items (page updates, commits, padding bytes) and
    the file is the header followed by their encodings.  The recovery pass over
    any prefix of such a file is shown to be a fold over the items that are
    complete in the prefix, and that fold to apply exactly the updates of the
    committed transactions above the watermark, in commit order.  The writer's
    operations are shown to produce such files. *)
From stdpp Require Import base list gmap numbers.
From Stdlib Require Import ZArith Lia Bool.
From S2P Require Import Prelude Wal.

(** ** Reading at a position *)

(** The bytes [b] start at [pos]. *)
Definition at_pos (c : list Z) (pos : nat) (b : list Z) : Prop :=
  ∃ post, drop pos c = b ++ post ∧ pos ≤ length c.

Lemma at_pos_app c pos b1 b2 :
  at_pos c pos (b1 ++ b2) → at_pos c pos b1 ∧ at_pos c (pos + length b1) b2.
Proof.
  intros (post & E & Hp). split.
  - exists (b2 ++ post). by rewrite app_assoc.
  - exists post. rewrite <- drop_drop, E, <- app_assoc, drop_app_length. split; [done|].
    apply (f_equal length) in E. rewrite length_drop, !length_app in E. lia.
Qed.

Lemma at_pos_length c pos b : at_pos c pos b → pos + length b ≤ length c.
Proof.
  intros (post & E & Hp). apply (f_equal length) in E.
  rewrite length_drop, length_app in E. lia.
Qed.

Lemma at_pos_intro pre b post : at_pos (pre ++ b ++ post) (length pre) b.
Proof. exists post. rewrite drop_app_length, length_app. split; [done|lia]. Qed.

Lemma slice_at_pos c pos b : at_pos c pos b → slice c pos (pos + length b) = b.
Proof.
  intros (post & E & _). unfold slice.
  replace (pos + length b - pos) with (length b) by lia. by rewrite E, take_app_length.
Qed.

(** Reading [n] bytes of a file cut at [k]: what the whole file has there, or
    end of file. *)
Lemma read_exact_cut c pos b k n :
  at_pos c pos b → n = length b → k ≤ length c → pos ≤ k →
  read_exact (take k c) pos n = if decide (pos + n ≤ k) then (Some b, pos + n) else (None, k).
Proof.
  intros Hat -> Hk Hpos. unfold read_exact. rewrite length_take, Nat.min_l by done.
  destruct (decide (pos + length b ≤ k)).
  - rewrite slice_take by done. by rewrite slice_at_pos.
  - f_equal. lia.
Qed.

(** The padding [align_position] writes at file offset [pos]. *)
Definition pad_len (pos : nat) : nat := (WAL_ALIGNMENT - pos mod WAL_ALIGNMENT) mod WAL_ALIGNMENT.

Section recovery.
Context (crc32c : list Z → Z).
Hypothesis crc32c_u32 : ∀ b, (0 ≤ crc32c b < 2 ^ 32)%Z.

(** ** Items *)

Inductive log_item :=
| ItPage (tx_id file_id page_idx : Z) (data : list Z)
| ItCommit (tx_id : Z)
| ItPad.

Definition enc_item (i : log_item) : list Z :=
  match i with
  | ItPage t f p d => page_update_bytes crc32c t f p d
  | ItCommit t => commit_bytes crc32c t
  | ItPad => [0%Z]
  end.

Definition enc_items (l : list log_item) : list Z := concat (map enc_item l).

Definition item_ok (i : log_item) : Prop :=
  match i with
  | ItPage t f p d => is_u64 t ∧ is_u64 f ∧ is_u64 p ∧ length d = PAGE_SIZE
  | ItCommit t => is_u64 t
  | ItPad => True
  end.

#[global] Instance item_ok_dec i : Decision (item_ok i).
Proof. destruct i; simpl; apply _. Defined.

Definition item_tx (i : log_item) : option Z :=
  match i with ItPage t _ _ _ | ItCommit t => Some t | ItPad => None end.

(** The items that are complete in the first [k] bytes, and whether bytes of
    another one follow. *)
Fixpoint complete (k : nat) (l : list log_item) : list log_item :=
  match l with
  | [] => []
  | i :: l => if decide (length (enc_item i) ≤ k) then i :: complete (k - length (enc_item i)) l else []
  end.

Fixpoint torn (k : nat) (l : list log_item) : bool :=
  match l with
  | [] => false
  | i :: l => if decide (length (enc_item i) ≤ k) then torn (k - length (enc_item i)) l
              else bool_decide (0 < k)
  end.

(** The page updates of a transaction, and the transactions committed, in log
    order. *)
Definition updates_of (t : Z) (l : list log_item) : list (Z * Z * list Z) :=
  omap (λ i, match i with
             | ItPage t' f p d => if decide (t' = t) then Some (f, p, d) else None
             | _ => None
             end) l.
Definition commits_of (l : list log_item) : list Z :=
  omap (λ i, match i with ItCommit t => Some t | _ => None end) l.

(** What recovery owes: for each commit above the watermark, in commit order,
    the updates of that transaction in log order. *)
Definition recovered (ck : Z) (l : list log_item) : list (Z * Z * list Z) :=
  concat (map (λ t, updates_of t l) (filter (λ t, ck < t)%Z (commits_of l))).

(** A transaction writes nothing after its commit, and commits once. *)
Fixpoint wf_history (l : list log_item) : Prop :=
  match l with
  | [] => True
  | i :: l =>
      match i with ItCommit t => Forall (λ j, item_tx j ≠ Some t) l | _ => True end ∧ wf_history l
  end.

#[global] Instance wf_history_dec l : Decision (wf_history l).
Proof. induction l as [|[] l IH]; simpl; apply _. Defined.

Lemma updates_of_app t l1 l2 : updates_of t (l1 ++ l2) = updates_of t l1 ++ updates_of t l2.
Proof. apply omap_app. Qed.

Lemma commits_of_app l1 l2 : commits_of (l1 ++ l2) = commits_of l1 ++ commits_of l2.
Proof. apply omap_app. Qed.

Lemma wf_history_snoc l i :
  wf_history (l ++ [i]) → wf_history l ∧ (∀ t, item_tx i = Some t → t ∉ commits_of l).
Proof.
  induction l as [|j l IH]; simpl; [intros _; split; [done|]; intros t _; apply not_elem_of_nil|].
  intros [Hj Hl]. destruct (IH Hl) as [Hwf Hni]. split.
  - split; [|done]. destruct j; try done. by apply Forall_app in Hj as [? _].
  - intros t Ht. destruct j as [t' f p d|t'|]; simpl; [by apply Hni| |by apply Hni].
    apply Forall_app in Hj as [_ Hj]. rewrite Forall_singleton in Hj.
    unfold commits_of. simpl. rewrite not_elem_of_cons. split; [congruence|by apply Hni].
Qed.

Lemma wf_history_prefix l1 l2 : wf_history (l1 ++ l2) → wf_history l1.
Proof.
  induction l2 as [|i l2 IH] using rev_ind; [by rewrite app_nil_r|].
  rewrite app_assoc. intros H. by apply IH, (wf_history_snoc _ i).
Qed.

Lemma complete_prefix k l : ∃ rest, l = complete k l ++ rest.
Proof.
  revert k. induction l as [|i l IH]; intros k; simpl; [by exists []|].
  destruct (decide (_ ≤ k)); [|by eexists].
  destruct (IH (k - length (enc_item i))) as [rest E]. exists rest. simpl. by f_equal.
Qed.

Lemma complete_all k l : length (enc_items l) ≤ k → complete k l = l ∧ torn k l = false.
Proof.
  revert k. induction l as [|i l IH]; intros k Hk; simpl; [done|].
  unfold enc_items in *. simpl in Hk. rewrite length_app in Hk.
  rewrite !decide_True by lia. destruct (IH (k - length (enc_item i))) as [-> ->]; [lia|done].
Qed.

Lemma length_complete k l : length (complete k l) ≤ k.
Proof.
  revert k. induction l as [|i l IH]; intros k; simpl; [lia|].
  destruct (decide (_ ≤ k)); simpl; [|lia]. specialize (IH (k - length (enc_item i))).
  assert (0 < length (enc_item i)).
  { destruct i; simpl; unfold page_update_bytes, commit_bytes, frame_v2; simpl; lia. }
  lia.
Qed.

Lemma enc_items_app l1 l2 : enc_items (l1 ++ l2) = enc_items l1 ++ enc_items l2.
Proof. unfold enc_items. by rewrite map_app, concat_app. Qed.

Lemma length_page_bytes t f p d :
  length (page_update_bytes crc32c t f p d) = 31 + length d.
Proof. unfold page_update_bytes, frame_v2. rewrite !length_app, !length_to_le. simpl. lia. Qed.

Lemma length_commit_bytes t : length (commit_bytes crc32c t) = 15.
Proof. unfold commit_bytes, frame_v2. by rewrite !length_app, !length_to_le. Qed.

Lemma length_enc_item_pos i : 0 < length (enc_item i).
Proof. destruct i; simpl; rewrite ?length_page_bytes, ?length_commit_bytes; lia. Qed.

Lemma length_enc_items_ge l : length l ≤ length (enc_items l).
Proof.
  induction l as [|i l IH]; [done|]. unfold enc_items in *. simpl.
  rewrite length_app. pose proof (length_enc_item_pos i). lia.
Qed.

Lemma page_length_u16 :
  u16_wrap (Z.of_nat (WAL_CHECKSUM_SIZE + 8 + 8 + 8 + PAGE_SIZE)) = 4124%Z.
Proof. unfold u16_wrap, WAL_CHECKSUM_SIZE. rewrite Nat2Z.inj_add, PAGE_SIZE_val. done. Qed.

Lemma valid_page_length : VALID_PAGE_UPDATE_LENGTH = Z.to_nat 4124.
Proof.
  unfold VALID_PAGE_UPDATE_LENGTH, PAGE_UPDATE_PAYLOAD_SIZE, WAL_CHECKSUM_SIZE.
  pose proof PAGE_SIZE_val. lia.
Qed.

(** The parts of an encoded page update and commit. *)
Lemma page_bytes_parts t f p d :
  page_update_bytes crc32c t f p d =
  [RECORD_TYPE_PAGE_UPDATE] ++ to_le 2 4124 ++
  to_le 4 (compute_checksum_v2 crc32c RECORD_TYPE_PAGE_UPDATE 4124
             (to_le 8 t ++ to_le 8 f ++ to_le 8 p ++ d)) ++
  (to_le 8 t ++ to_le 8 f ++ to_le 8 p ++ d).
Proof. unfold page_update_bytes, frame_v2. by rewrite page_length_u16. Qed.

Lemma commit_bytes_parts t :
  commit_bytes crc32c t =
  [RECORD_TYPE_COMMIT] ++ to_le 2 12 ++
  to_le 4 (compute_checksum_v2 crc32c RECORD_TYPE_COMMIT 12 (to_le 8 t)) ++ to_le 8 t.
Proof. reflexivity. Qed.

Lemma of_le_crc b : of_le (to_le 4 (crc32c b)) = crc32c b.
Proof. apply of_le_to_le_id, crc32c_u32. Qed.

Lemma payload_fields t f p d :
  let payload := to_le 8 t ++ to_le 8 f ++ to_le 8 p ++ d in
  slice payload 0 8 = to_le 8 t ∧ slice payload 8 16 = to_le 8 f ∧
  slice payload 16 24 = to_le 8 p ∧ drop 24 payload = d.
Proof.
  intros payload.
  assert (∀ a : list Z, ∀ b z n, length a = n → slice (a ++ to_le 8 z ++ b) n (n + 8) = to_le 8 z) as H.
  { intros a b z n <-. rewrite slice_app_r, Nat.sub_diag by done.
    replace (length a + 8 - length a) with (length (to_le 8 z)) by (rewrite length_to_le; lia).
    rewrite slice_app_l by done. apply slice_all. }
  split_and!; unfold payload.
  - apply (H []). done.
  - apply H. apply length_to_le.
  - rewrite app_assoc. apply (H (to_le 8 t ++ to_le 8 f)). by rewrite length_app, !length_to_le.
  - rewrite !app_assoc. apply drop_app_length'. by rewrite !length_app, !length_to_le.
Qed.

Section pass.
Context {St : Type}.
Context (apply_page : Z → Z → list Z → St → St * option LightningError).
Context (ck : Z).

Abbreviation replay_st := (@replay_st St).
Implicit Types st : replay_st.

(** What one complete item does to the recovery state. *)
Definition spec_item (st : replay_st) (i : log_item) : replay_st :=
  match i with
  | ItPage t f p d => with_read (handle_page_update apply_page ck t f p d (note_tx t st))
  | ItCommit t => with_read (handle_commit apply_page ck t (note_tx t st))
  | ItPad => st
  end.

Lemma with_pos_pos n m st : with_pos n (with_pos m st) = with_pos n st.
Proof. done. Qed.

(** Items do not look at the cursor. *)
Lemma spec_item_pos st i n : spec_item (with_pos n st) i = with_pos n (spec_item st i).
Proof.
  destruct i as [t f p d|t|]; simpl; [..|done].
  - unfold handle_page_update. simpl. by destruct (decide (_ ∧ _)).
  - unfold handle_commit. simpl. destruct (decide (t > ck)%Z); [|done].
    by destruct (rs_pending st !! t).
Qed.

Lemma read_page_item c k st t f p d :
  item_ok (ItPage t f p d) → k ≤ length c → rs_pos st + 1 ≤ k →
  at_pos c (rs_pos st) (page_update_bytes crc32c t f p d) →
  read_and_apply_page_update crc32c apply_page 2 (take k c) ck (with_pos (rs_pos st + 1) st) =
  if decide (rs_pos st + length (page_update_bytes crc32c t f p d) ≤ k)
  then (handle_page_update apply_page ck t f p d
          (note_tx t (with_pos (rs_pos st + length (page_update_bytes crc32c t f p d)) st)), true)
  else (with_partial k st, false).
Proof.
  intros (Ht & Hf & Hp & Hd) Hk Hpos Hat. rewrite length_page_bytes.
  rewrite page_bytes_parts in Hat.
  apply at_pos_app in Hat as [_ Hat]. apply at_pos_app in Hat as [Hlen Hat].
  apply at_pos_app in Hat as [Hcrc Hpay]. rewrite !length_to_le in *. simpl length in *.
  unfold read_and_apply_page_update. rewrite decide_True by lia. cbn [rs_pos with_pos].
  rewrite (read_exact_cut c _ _ k WAL_LENGTH_SIZE Hlen) by (rewrite ?length_to_le; done || lia).
  unfold WAL_LENGTH_SIZE. destruct (decide (rs_pos st + 1 + 2 ≤ k)).
  2:{ by destruct (decide (_ + (31 + _) ≤ k)); [lia|]. }
  rewrite of_le_to_le_id by done. rewrite decide_False by (rewrite valid_page_length; auto).
  rewrite (read_exact_cut c _ _ k WAL_CHECKSUM_SIZE Hcrc) by (rewrite ?length_to_le; done || lia).
  unfold WAL_CHECKSUM_SIZE. destruct (decide (rs_pos st + 1 + 2 + 4 ≤ k)).
  2:{ by destruct (decide (_ + (31 + _) ≤ k)); [lia|]. }
  assert (PAGE_UPDATE_PAYLOAD_SIZE = length (to_le 8 t ++ to_le 8 f ++ to_le 8 p ++ d)) as Hsz.
  { rewrite !length_app, !length_to_le, Hd. unfold PAGE_UPDATE_PAYLOAD_SIZE. lia. }
  rewrite (read_exact_cut c _ _ k _ Hpay Hsz) by lia.
  assert (PAGE_UPDATE_PAYLOAD_SIZE = 24 + length d) as Hsz' by (unfold PAGE_UPDATE_PAYLOAD_SIZE; lia).
  destruct (decide (_ ≤ k)) as [Hle|Hle]; rewrite Hsz' in Hle.
  2:{ by destruct (decide (_ + (31 + _) ≤ k)); [lia|]. }
  destruct (decide (rs_pos st + (31 + length d) ≤ k)); [|lia]. rewrite Z2Nat.id by done.
  unfold compute_checksum_v2 in *. rewrite of_le_crc. change (u16_wrap 4124) with 4124%Z.
  rewrite decide_False by (intros H; by apply H).
  destruct (payload_fields t f p d) as (-> & -> & -> & ->).
  rewrite !of_le_to_le_id by done. rewrite Hsz', with_pos_pos.
  by replace (rs_pos st + 1 + 2 + 4 + (24 + length d)) with (rs_pos st + (31 + length d)) by lia.
Qed.

Lemma read_commit_item c k st t :
  is_u64 t → k ≤ length c → rs_pos st + 1 ≤ k →
  at_pos c (rs_pos st) (commit_bytes crc32c t) →
  read_and_apply_commit crc32c apply_page 2 (take k c) ck (with_pos (rs_pos st + 1) st) =
  if decide (rs_pos st + 15 ≤ k)
  then (handle_commit apply_page ck t (note_tx t (with_pos (rs_pos st + 15) st)), true)
  else (with_partial k st, false).
Proof.
  intros Ht Hk Hpos Hat. rewrite commit_bytes_parts in Hat.
  apply at_pos_app in Hat as [_ Hat]. apply at_pos_app in Hat as [Hlen Hat].
  apply at_pos_app in Hat as [Hcrc Hpay]. rewrite !length_to_le in *. simpl length in *.
  unfold read_and_apply_commit. rewrite decide_True by lia. cbn [rs_pos with_pos].
  rewrite (read_exact_cut c _ _ k WAL_LENGTH_SIZE Hlen) by (rewrite ?length_to_le; done || lia).
  unfold WAL_LENGTH_SIZE. destruct (decide (rs_pos st + 1 + 2 ≤ k)).
  2:{ by destruct (decide (_ + 15 ≤ k)); [lia|]. }
  rewrite of_le_to_le_id by done. rewrite decide_False by auto.
  rewrite (read_exact_cut c _ _ k WAL_CHECKSUM_SIZE Hcrc) by (rewrite ?length_to_le; done || lia).
  unfold WAL_CHECKSUM_SIZE. destruct (decide (rs_pos st + 1 + 2 + 4 ≤ k)).
  2:{ by destruct (decide (_ + 15 ≤ k)); [lia|]. }
  rewrite (read_exact_cut c _ _ k COMMIT_PAYLOAD_SIZE Hpay) by (rewrite ?length_to_le; done || lia).
  unfold COMMIT_PAYLOAD_SIZE. destruct (decide (rs_pos st + 1 + 2 + 4 + 8 ≤ k)).
  2:{ by destruct (decide (_ + 15 ≤ k)); [lia|]. }
  destruct (decide (rs_pos st + 15 ≤ k)); [|lia].
  unfold compute_checksum_v2 in *. rewrite of_le_crc.
  rewrite decide_False by (intros H; by apply H). rewrite of_le_to_le_id by done.
  rewrite with_pos_pos. by replace (rs_pos st + 1 + 2 + 4 + 8) with (rs_pos st + 15) by lia.
Qed.

(** The type byte of an item is its first byte. *)
Lemma at_pos_byte c pos b l k :
  at_pos c pos (b :: l) → k ≤ length c → pos + 1 ≤ k →
  read_exact (take k c) pos 1 = (Some [b], pos + 1).
Proof.
  intros Hat Hk Hpos. apply (at_pos_app c pos [b] l) in Hat as [Hat _].
  rewrite (read_exact_cut c pos [b] k 1) by (done || lia). by rewrite decide_True.
Qed.

(** One turn of the loop on an item of a file cut at [k]: the item's effect if
    it is complete, a torn tail otherwise. *)
Lemma replay_step_item c k st i :
  item_ok i → k ≤ length c → rs_pos st < k → at_pos c (rs_pos st) (enc_item i) →
  rs_partial st = false → rs_framing st = false →
  replay_step crc32c apply_page 2 (take k c) ck st =
  if decide (rs_pos st + length (enc_item i) ≤ k)
  then (with_pos (rs_pos st + length (enc_item i)) (spec_item st i), true)
  else (with_partial k st, false).
Proof.
  intros Hok Hk Hpos Hat Hpa Hfr. unfold replay_step. destruct i as [t f p d|t|]; cbn [enc_item] in *.
  - rewrite (at_pos_byte c _ 1%Z (drop 1 (page_update_bytes crc32c t f p d)) k) by (done || lia).
    cbn [byte_at lookup list_lookup default]. rewrite decide_True by done.
    rewrite (read_page_item c k st t f p d) by (done || lia).
    destruct (decide (_ ≤ k)); [|by rewrite andb_false_r || done].
    f_equal. rewrite <- (spec_item_pos st (ItPage t f p d)). done.
  - rewrite (at_pos_byte c _ 2%Z (drop 1 (commit_bytes crc32c t)) k) by (done || lia).
    cbn [byte_at lookup list_lookup default]. rewrite decide_False, decide_True by done.
    rewrite (read_commit_item c k st t) by (done || lia). rewrite length_commit_bytes.
    destruct (decide (_ ≤ k)); [|done].
    f_equal. rewrite <- (spec_item_pos st (ItCommit t)). done.
  - rewrite (at_pos_byte c _ 0%Z [] k) by (done || lia).
    cbn [byte_at lookup list_lookup default]. rewrite decide_False, decide_False, decide_True by done.
    simpl. by rewrite decide_True by lia.
Qed.

Lemma spec_item_flags st i :
  rs_partial (spec_item st i) = rs_partial st ∧ rs_framing (spec_item st i) = rs_framing st ∧
  rs_corrupt (spec_item st i) = rs_corrupt st.
Proof.
  destruct i as [t f p d|t|]; simpl; [..|done].
  - unfold handle_page_update. by destruct (decide (_ ∧ _)).
  - unfold handle_commit. destruct (decide (t > ck)%Z); [|done]. simpl.
    by destruct (rs_pending st !! t).
Qed.

Lemma foldl_spec_pos l st n :
  foldl spec_item (with_pos n st) l = with_pos n (foldl spec_item st l).
Proof.
  revert st. induction l as [|i l IH]; intros st; simpl; [done|].
  by rewrite spec_item_pos, IH.
Qed.

(** The whole pass over a file cut at [k]: a fold over the complete items. *)
Lemma replay_loop_items l : ∀ fuel c k st,
  Forall item_ok l → length (complete (k - rs_pos st) l) < fuel →
  at_pos c (rs_pos st) (enc_items l) →
  length c = rs_pos st + length (enc_items l) → k ≤ length c → rs_pos st ≤ k →
  rs_partial st = false → rs_framing st = false →
  replay_loop crc32c apply_page fuel 2 (take k c) ck st =
  (if torn (k - rs_pos st) l then with_partial k else with_pos k)
    (foldl spec_item st (complete (k - rs_pos st) l)).
Proof.
  induction l as [|i l IH]; intros fuel c k st Hok Hfuel Hat Hc Hk Hpos Hpa Hfr;
    (destruct fuel as [|fuel]; [lia|]).
  - unfold enc_items in Hc. simpl in Hc. assert (k = rs_pos st) as -> by lia.
    simpl. unfold replay_step, read_exact.
    rewrite length_take. destruct (decide (_ ≤ _)); [lia|]. f_equal. lia.
  - apply Forall_cons_1 in Hok as [Hi Hl]. cbn [complete torn].
    unfold enc_items in Hat, Hc. simpl in Hat, Hc. fold (enc_items l) in Hat, Hc.
    apply at_pos_app in Hat as [Hati Hat]. rewrite length_app in Hc.
    pose proof (length_enc_item_pos i).
    destruct (decide (rs_pos st = k)) as [E|E].
    { subst k. cbn [replay_loop]. unfold replay_step, read_exact.
      rewrite length_take. destruct (decide (_ + 1 ≤ _)); [lia|]. rewrite Nat.sub_diag.
      destruct (decide (length (enc_item i) ≤ 0)); [lia|]. simpl. f_equal. lia. }
    cbn [replay_loop]. rewrite (replay_step_item c k st i) by (done || lia).
    destruct (decide (rs_pos st + length (enc_item i) ≤ k)) as [Hle|Hle].
    + destruct (decide (length (enc_item i) ≤ k - rs_pos st)); [|lia].
      destruct (spec_item_flags st i) as (F1 & F2 & _). cbn [complete] in Hfuel.
      rewrite decide_True in Hfuel by done. cbn [length] in Hfuel.
      replace (k - rs_pos st - length (enc_item i)) with (k - (rs_pos st + length (enc_item i)))
        in * by lia.
      rewrite IH; [|done|cbn [rs_pos with_pos]; lia|done|cbn [rs_pos with_pos]; lia|done
                   |cbn [rs_pos with_pos]; lia|by rewrite <- Hpa|by rewrite <- Hfr].
      cbn [rs_pos with_pos foldl]. rewrite foldl_spec_pos.
      by destruct (torn _ l).
    + destruct (decide (length (enc_item i) ≤ k - rs_pos st)); [lia|].
      by rewrite bool_decide_true by lia.
Qed.

(** ** What the fold applies *)

Definition waiting (l : list log_item) (t : Z) : option (list (Z * Z * list Z)) :=
  if decide (t ∈ commits_of l ∧ ck < t)%Z then None
  else match updates_of t l with [] => None | u => Some u end.

Definition records (l : list log_item) : nat :=
  length (filter (λ i, is_Some (item_tx i)) l).

Definition max_tx (l : list log_item) : Z := foldl Z.max 0%Z (omap item_tx l).

Record fold_inv (s : St) (l : list log_item) (st : replay_st) : Prop := {
  fi_commits : ∀ t, t ∈ rs_commits st ↔ t ∈ commits_of l;
  fi_pending : ∀ t, rs_pending st !! t = waiting l t;
  fi_store : rs_store st = apply_all apply_page (recovered ck l) s;
  fi_read : rs_read st = records l;
  fi_max : rs_max_tx st = max_tx l;
  fi_clean : rs_corrupt st = 0 ∧ rs_partial st = false ∧ rs_framing st = false;
}.

Lemma apply_all_app u1 u2 s :
  apply_all apply_page (u1 ++ u2) s = apply_all apply_page u2 (apply_all apply_page u1 s).
Proof. apply foldl_app. Qed.

Lemma updates_of_snoc_other t l i :
  item_tx i ≠ Some t → updates_of t (l ++ [i]) = updates_of t l.
Proof.
  intros Hi. rewrite updates_of_app. destruct i as [t' f p d|t'|]; simpl in *; unfold updates_of;
    simpl; [|by rewrite app_nil_r..].
  rewrite decide_False by congruence. by rewrite app_nil_r.
Qed.

(** Recovery of a log extended by an item that is not a commit of a waiting
    transaction is unchanged. *)
Lemma recovered_snoc_page l t f p d :
  t ∉ commits_of l → recovered ck (l ++ [ItPage t f p d]) = recovered ck l.
Proof.
  intros Ht. unfold recovered. rewrite commits_of_app. simpl. rewrite app_nil_r. f_equal.
  apply map_ext_in. intros t' Hin. apply updates_of_snoc_other. simpl. intros [= ->].
  apply list_elem_of_In, list_elem_of_filter in Hin as [_ Hin]. done.
Qed.

Lemma recovered_snoc_pad l : recovered ck (l ++ [ItPad]) = recovered ck l.
Proof.
  unfold recovered. rewrite commits_of_app. simpl. rewrite app_nil_r. f_equal.
  apply map_ext_in. intros t' _. by apply updates_of_snoc_other.
Qed.

Lemma recovered_snoc_commit l t :
  recovered ck (l ++ [ItCommit t]) =
  recovered ck l ++ (if decide (ck < t)%Z then updates_of t l else []).
Proof.
  unfold recovered. rewrite commits_of_app. change (commits_of [ItCommit t]) with [t].
  assert (∀ t', updates_of t' (l ++ [ItCommit t]) = updates_of t' l) as E.
  { intros t'. rewrite updates_of_app. apply app_nil_r. }
  rewrite list.filter_app, map_app, concat_app. f_equal.
  - f_equal. apply map_ext. done.
  - rewrite filter_cons. destruct (decide (ck < t)%Z); simpl; [|done]. by rewrite E, app_nil_r.
Qed.

Lemma max_tx_snoc l i :
  max_tx (l ++ [i]) = match item_tx i with Some t => (max_tx l `max` t)%Z | None => max_tx l end.
Proof.
  unfold max_tx. rewrite omap_app. simpl. destruct (item_tx i); simpl; [|by rewrite app_nil_r].
  by rewrite foldl_app.
Qed.

Lemma records_snoc l i :
  records (l ++ [i]) = match item_tx i with Some _ => S (records l) | None => records l end.
Proof.
  unfold records. rewrite list.filter_app, length_app, filter_cons, filter_nil.
  destruct (item_tx i); simpl; lia.
Qed.

Lemma waiting_snoc_other l i t :
  item_tx i ≠ Some t → waiting (l ++ [i]) t = waiting l t.
Proof.
  intros Hi. unfold waiting. rewrite updates_of_snoc_other by done.
  assert (t ∈ commits_of (l ++ [i]) ↔ t ∈ commits_of l) as E.
  { rewrite commits_of_app, elem_of_app. destruct i as [t' f p d|t'|]; simpl.
    - split; [intros [?|H]; [done|by apply elem_of_nil in H]|by left].
    - change (commits_of [ItCommit t']) with [t']. rewrite list_elem_of_singleton. simpl in Hi.
      split; [intros [?|?]; congruence|by left].
    - split; [intros [?|H]; [done|by apply elem_of_nil in H]|by left]. }
  destruct (decide (t ∈ commits_of (l ++ [i]) ∧ _)), (decide (t ∈ commits_of l ∧ _)); tauto.
Qed.

Lemma commits_snoc l i t :
  t ∈ commits_of (l ++ [i]) ↔ t ∈ commits_of l ∨ i = ItCommit t.
Proof.
  rewrite commits_of_app, elem_of_app. destruct i as [t' f p d|t'|].
  - change (commits_of [ItPage t' f p d]) with (@nil Z). rewrite elem_of_nil. naive_solver.
  - change (commits_of [ItCommit t']) with [t']. rewrite list_elem_of_singleton. naive_solver.
  - change (commits_of [ItPad]) with (@nil Z). rewrite elem_of_nil. naive_solver.
Qed.

Lemma fold_inv_page s l st t f p d :
  t ∉ commits_of l → fold_inv s l st →
  fold_inv s (l ++ [ItPage t f p d]) (spec_item st (ItPage t f p d)).
Proof.
  intros Hni [Hc Hp Hs Hr Hm Hcl]. simpl. unfold handle_page_update.
  destruct (decide (t ∈ rs_commits (note_tx t st) ∧ _)) as [[Hin _]|_].
  { simpl in Hin. by apply Hc in Hin. }
  split; simpl.
  - intros t'. rewrite Hc, commits_snoc. naive_solver.
  - intros t'. destruct (decide (t = t')) as [<-|].
    + rewrite lookup_insert_eq, Hp. unfold waiting.
      destruct (decide (t ∈ commits_of l ∧ _)) as [[? _]|_]; [done|].
      destruct (decide (t ∈ commits_of (l ++ _) ∧ _)) as [[Hin _]|_].
      { by apply commits_snoc in Hin as [?|?]. }
      rewrite updates_of_app.
      unfold updates_of at 3. simpl. rewrite decide_True by done.
      by destruct (updates_of t l).
    + rewrite lookup_insert_ne by done. rewrite Hp. symmetry. apply waiting_snoc_other.
      simpl. congruence.
  - by rewrite recovered_snoc_page.
  - by rewrite records_snoc, Hr.
  - by rewrite max_tx_snoc, Hm.
  - done.
Qed.

Lemma fold_inv_commit s l st t :
  t ∉ commits_of l → fold_inv s l st →
  fold_inv s (l ++ [ItCommit t]) (spec_item st (ItCommit t)).
Proof.
  intros Hni [Hc Hp Hs Hr Hm Hcl]. simpl. unfold handle_commit.
  assert (Hw : waiting l t = match updates_of t l with [] => None | u => Some u end).
  { unfold waiting. by destruct (decide (t ∈ commits_of l ∧ _)) as [[? _]|_]. }
  assert (Hcs : ∀ t', t' ∈ {[t]} ∪ rs_commits st ↔ t' ∈ commits_of (l ++ [ItCommit t])).
  { intros t'. rewrite elem_of_union, elem_of_singleton, Hc, commits_snoc. naive_solver. }
  assert (Hst : apply_all apply_page (recovered ck (l ++ [ItCommit t])) s =
                if decide (ck < t)%Z then apply_all apply_page (updates_of t l) (rs_store st)
                else rs_store st).
  { rewrite recovered_snoc_commit, apply_all_app, Hs. by destruct (decide (ck < t)%Z). }
  assert (Ho : ∀ t', t ≠ t' → rs_pending st !! t' = waiting (l ++ [ItCommit t]) t').
  { intros t' Hne. rewrite Hp. symmetry. apply waiting_snoc_other. simpl. congruence. }
  assert (Hwt : waiting (l ++ [ItCommit t]) t = if decide (ck < t)%Z then None else waiting l t).
  { rewrite Hw. unfold waiting. rewrite updates_of_app, app_nil_r.
    destruct (decide (ck < t)%Z).
    - rewrite decide_True; [done|]. split; [|done]. apply commits_snoc. by right.
    - by rewrite decide_False by tauto. }
  simpl. destruct (decide (t > ck)%Z) as [Hgt|Hgt];
    [destruct (decide (ck < t)%Z); [|lia]|destruct (decide (ck < t)%Z); [lia|]].
  - rewrite Hp, Hw. destruct (updates_of t l) as [|u us] eqn:Eu; split; simpl;
      rewrite ?records_snoc, ?max_tx_snoc, ?Hr, ?Hm; try done.
    + intros t'. destruct (decide (t = t')) as [<-|]; [by rewrite Hp, Hw, Hwt|by apply Ho].
    + intros t'. destruct (decide (t = t')) as [<-|]; [by rewrite lookup_delete_eq, Hwt|].
      rewrite lookup_delete_ne by done. by apply Ho.
  - split; simpl; rewrite ?records_snoc, ?max_tx_snoc, ?Hr, ?Hm; try done.
    intros t'. destruct (decide (t = t')) as [<-|]; [by rewrite Hp, Hwt|by apply Ho].
Qed.

Lemma foldl_spec_inv s l :
  wf_history l → fold_inv s l (foldl spec_item (replay_init s) l).
Proof.
  induction l as [|i l IH] using rev_ind; intros Hwf.
  - split; try done. simpl. set_solver.
  - rewrite foldl_app. simpl. apply wf_history_snoc in Hwf as [Hwf Hni]. specialize (IH Hwf).
    destruct i as [t f p d|t|].
    + by apply fold_inv_page; [apply Hni|].
    + by apply fold_inv_commit; [apply Hni|].
    + destruct IH as [Hc Hp Hs Hr Hm Hcl]. split; simpl.
      * intros t. rewrite Hc, commits_snoc. naive_solver.
      * intros t. rewrite Hp. symmetry. by apply waiting_snoc_other.
      * by rewrite recovered_snoc_pad.
      * by rewrite records_snoc.
      * by rewrite max_tx_snoc.
      * done.
Qed.

(** Nothing is left for the final drain. *)
Lemma drain_nothing commits entries s :
  (∀ t us, (t, us) ∈ entries → ¬ (t > ck ∧ t ∈ commits)%Z) →
  drain_pending apply_page ck commits entries s = (s, None).
Proof.
  induction entries as [|[t us] entries IH]; intros H; simpl; [done|].
  rewrite decide_False by (apply (H t us); left). apply IH.
  intros t' us' Hin. apply (H t' us'). by right.
Qed.

Lemma drain_fold_inv s l st :
  fold_inv s l st →
  drain_pending apply_page ck (rs_commits st) (map_to_list (rs_pending st)) (rs_store st)
  = (rs_store st, None).
Proof.
  intros [Hc Hp _ _ _ _]. apply drain_nothing. intros t us Hin [Hgt Hin'].
  apply elem_of_map_to_list in Hin. rewrite Hp in Hin. unfold waiting in Hin.
  apply Hc in Hin'. rewrite decide_True in Hin by (split; [done|lia]). done.
Qed.

(** [WAL::new] on a file with a header keeps it. *)
Lemma wal_new_header rest mode :
  wal_new (wal_header ++ rest) mode = mkWAL (mkFile (wal_header ++ rest) 5 0) ∅ mode None 0 [] WAL_VERSION.
Proof. unfold wal_new. by rewrite !decide_False by (rewrite length_app; simpl; lia). Qed.

(** The recovered state and the report, for a file cut after the header. *)
Lemma replay_cut l k s mode :
  Forall item_ok l → wf_history l → k ≤ length (enc_items l) →
  ∃ w', replay crc32c apply_page (wal_new (wal_header ++ take k (enc_items l)) mode) ck s =
    (w', apply_all apply_page (recovered ck (complete k l)) s,
     Ok (mkReport (records (complete k l)) 0 (torn k l) (max_tx (complete k l)) false)) ∧
    (∀ t, t ∈ committed_txs w' ↔ t ∈ commits_of (complete k l) ∧ (ck < t)%Z) ∧
    cursor (file w') = WAL_HEADER_SIZE + k.
Proof.
  intros Hok Hwf Hk. rewrite wal_new_header. unfold replay. cbn [file content wal_version].
  assert (wal_header ++ take k (enc_items l) = take (5 + k) (wal_header ++ enc_items l)) as Ec.
  { rewrite take_app_ge by (simpl; lia). do 2 f_equal. simpl. lia. }
  assert (length (take (5 + k) (wal_header ++ enc_items l)) = 5 + k) as El.
  { rewrite length_take, length_app. simpl. lia. }
  rewrite Ec, El. change WAL_VERSION with 2%Z.
  rewrite (replay_loop_items l (S (5 + k)) (wal_header ++ enc_items l) (5 + k) (replay_init s));
    try done.
  2:{ cbn [rs_pos replay_init]. unfold WAL_HEADER_SIZE.
      replace (5 + k - 5) with k by lia. pose proof (length_complete k l). lia. }
  2:{ exists []. rewrite app_nil_r, length_app. split; [done|simpl; unfold WAL_HEADER_SIZE; lia]. }
  2:{ rewrite length_app. simpl. lia. }
  2:{ simpl. unfold WAL_HEADER_SIZE. lia. }
  cbn [rs_pos replay_init]. replace (5 + k - WAL_HEADER_SIZE) with k by (unfold WAL_HEADER_SIZE; lia).
  destruct (complete_prefix k l) as [rest Erest].
  assert (wf_history (complete k l)) as Hwf'.
  { rewrite Erest in Hwf. by apply wf_history_prefix in Hwf. }
  pose proof (foldl_spec_inv s _ Hwf') as Hinv. pose proof (drain_fold_inv s _ _ Hinv) as Hdrain.
  destruct Hinv as [Hc Hp Hs Hr Hm (Hc1 & Hc2 & Hc3)].
  destruct (torn k l); cbn [rs_commits rs_pending rs_store with_partial with_pos rs_pos];
    rewrite Hdrain; eexists; (split; [|split]).
  all: cbn [rs_read rs_corrupt rs_partial rs_max_tx rs_framing with_partial with_pos];
    rewrite ?Hs, ?Hr, ?Hm, ?Hc1, ?Hc2, ?Hc3; try reflexivity.
  all: intros t; cbn [committed_txs set_committed set_file]; rewrite elem_of_union, elem_of_filter, Hc.
  all: rewrite elem_of_empty; split; [intros [[? ?]|?]; [split; [done|lia]|done]|].
  all: intros [? ?]; left; split; [lia|done].
Qed.

(** C1. Crash safety of recovery: take any well-formed log and let a crash keep
    any number of its bytes.  Opening and replaying what is left applies, in
    commit order, exactly the updates of the transactions above the watermark
    whose commit record is complete, reports the torn tail and nothing else,
    and notes exactly those transactions as committed. *)
Theorem replay_after_crash l k s mode :
  Forall item_ok l → wf_history l → k ≤ length (enc_items l) →
  ∃ w', replay crc32c apply_page (wal_new (wal_header ++ take k (enc_items l)) mode) ck s =
    (w', apply_all apply_page (recovered ck (complete k l)) s,
     Ok (mkReport (records (complete k l)) 0 (torn k l) (max_tx (complete k l)) false)) ∧
    (∀ t, t ∈ committed_txs w' ↔ t ∈ commits_of (complete k l) ∧ (ck < t)%Z) ∧
    cursor (file w') = WAL_HEADER_SIZE + k.
Proof. apply replay_cut. Qed.
End pass.

(** ** The writer produces well-formed logs *)

Inductive log_op :=
| LogPage (tx_id file_id page_idx : Z) (data : list Z)
| LogCommit (tx_id : Z)
| LogFlush.

Definition log_exec (w : WAL) (o : log_op) : WAL :=
  match o with
  | LogPage t f p d => log_page_update crc32c w t f p d
  | LogCommit t => log_commit crc32c w t
  | LogFlush => flush_pending w
  end.

Definition log_run (ops : list log_op) (w : WAL) : WAL := foldl log_exec w ops.

Definition op_item (o : log_op) : option log_item :=
  match o with
  | LogPage t f p d => Some (ItPage t f p d)
  | LogCommit t => Some (ItCommit t)
  | LogFlush => None
  end.

Definition op_items (ops : list log_op) : list log_item := omap op_item ops.

(** The log without its padding. *)
Definition strip (l : list log_item) : list log_item := filter (λ i, is_Some (item_tx i)) l.

Lemma strip_app l1 l2 : strip (l1 ++ l2) = strip l1 ++ strip l2.
Proof. apply list.filter_app. Qed.

Lemma strip_pads n : strip (replicate n ItPad) = [].
Proof. induction n; [done|]. unfold strip. simpl. by rewrite filter_cons_False by (intros [? ?]; done). Qed.

Lemma updates_of_strip t l : updates_of t (strip l) = updates_of t l.
Proof.
  induction l as [|[] l IH]; [done|..]; unfold strip in *; rewrite filter_cons; simpl;
    unfold updates_of in *; simpl; rewrite ?IH; done.
Qed.

Lemma commits_of_strip l : commits_of (strip l) = commits_of l.
Proof.
  induction l as [|[] l IH]; [done|..]; unfold strip in *; rewrite filter_cons; simpl;
    unfold commits_of in *; simpl; rewrite ?IH; done.
Qed.

Lemma wf_history_strip l : wf_history (strip l) → wf_history l.
Proof.
  induction l as [|i l IH]; [done|]. unfold strip in *. rewrite filter_cons.
  destruct i as [t f p d|t|]; simpl; [|intros [H1 H2]; split; [|by apply IH]|]; try naive_solver.
  rewrite Forall_forall in *. intros j Hj. destruct (decide (is_Some (item_tx j))) as [Hs|Hs].
  - apply H1, list_elem_of_In, list_elem_of_filter. by rewrite list_elem_of_In.
  - intros E. rewrite E in Hs. by destruct Hs.
Qed.

Lemma recovered_strip ck l : recovered ck (strip l) = recovered ck l.
Proof.
  unfold recovered. rewrite commits_of_strip. f_equal. apply map_ext. intros t.
  apply updates_of_strip.
Qed.

Lemma wf_history_after a b t :
  wf_history (a ++ b) → t ∈ commits_of a → Forall (λ j, item_tx j ≠ Some t) b.
Proof.
  induction a as [|i a IH]; simpl; [by intros _ H%elem_of_nil|].
  intros [Hi Hwf] Hin. destruct i as [t' f p d|t'|]; simpl in *; [by apply IH| |by apply IH].
  unfold commits_of in Hin. simpl in Hin. apply elem_of_cons in Hin as [->|Hin]; [|by apply IH].
  by apply Forall_app in Hi as [_ ?].
Qed.

Lemma updates_of_none t l : Forall (λ j, item_tx j ≠ Some t) l → updates_of t l = [].
Proof.
  induction 1 as [|i l Hi _ IH]; [done|]. unfold updates_of in *. simpl.
  destruct i as [t' f p d|t'|]; simpl in *; [|done..].
  by rewrite decide_False by congruence.
Qed.

(** Updates that wait in the buffer without a commit are not owed. *)
Lemma recovered_uncommitted ck l pend :
  wf_history (l ++ pend) → commits_of pend = [] → recovered ck (l ++ pend) = recovered ck l.
Proof.
  intros Hwf Hp. unfold recovered. rewrite commits_of_app, Hp, app_nil_r. f_equal.
  apply map_ext_in. intros t Ht. apply list_elem_of_In, list_elem_of_filter in Ht as [_ Ht].
  rewrite updates_of_app, (updates_of_none t pend); [apply app_nil_r|].
  by eapply wf_history_after.
Qed.

(** Every commit is followed by the padding to the next 8-byte boundary. *)
Fixpoint aligned (pos : nat) (l : list log_item) : Prop :=
  match l with
  | [] => True
  | i :: l =>
      match i with
      | ItCommit _ => ∃ rest, l = replicate (pad_len (pos + 15)) ItPad ++ rest
      | _ => True
      end ∧ aligned (pos + length (enc_item i)) l
  end.

Lemma aligned_app pos l1 l2 :
  aligned pos l1 → aligned (pos + length (enc_items l1)) l2 → aligned pos (l1 ++ l2).
Proof.
  revert pos. induction l1 as [|i l1 IH]; intros pos H1 H2.
  - unfold enc_items in H2. simpl in *. by rewrite Nat.add_0_r in H2.
  - simpl in *. destruct H1 as [Hi H1]. unfold enc_items in *. simpl in H2.
    rewrite length_app, Nat.add_assoc in H2. split; [|by apply IH].
    destruct i; try done. destruct Hi as [rest ->]. exists (rest ++ l2). by rewrite <- app_assoc.
Qed.

Lemma aligned_no_commit pos l : commits_of l = [] → aligned pos l.
Proof.
  revert pos. induction l as [|i l IH]; intros pos H; simpl; [done|].
  destruct i; simpl in *; (split; [done|by apply IH]) || done.
Qed.

Lemma aligned_drop pos l1 l2 :
  aligned pos (l1 ++ l2) → aligned (pos + length (enc_items l1)) l2.
Proof.
  revert pos. induction l1 as [|i l1 IH]; intros pos H.
  - unfold enc_items. simpl in *. by rewrite Nat.add_0_r.
  - simpl in H. destruct H as [_ H]. apply IH in H. unfold enc_items in *. simpl.
    by rewrite length_app, Nat.add_assoc.
Qed.

(** [fi] is in the file, [pi] in the group-commit buffer. *)
Record writer_inv (w : WAL) (fi pi : list log_item) : Prop := {
  wi_content : content (file w) = wal_header ++ enc_items fi;
  wi_cursor : cursor (file w) = length (content (file w));
  wi_pending : pending_buf w = enc_items pi;
  wi_version : wal_version w = WAL_VERSION;
  wi_nocommit : commits_of pi = [];
  wi_aligned : aligned WAL_HEADER_SIZE fi;
  wi_synced : synced (file w) ≤ length (content (file w));
}.

Lemma sync_content mode f : content (sync_if_normal mode f) = content f.
Proof. by destruct mode. Qed.
Lemma sync_cursor mode f : cursor (sync_if_normal mode f) = cursor f.
Proof. by destruct mode. Qed.
Lemma sync_synced mode f :
  synced f ≤ length (content f) → synced (sync_if_normal mode f) ≤ length (content f).
Proof. by destruct mode. Qed.

Lemma file_write_end f b :
  cursor f = length (content f) → synced f ≤ length (content f) →
  file_write f b = mkFile (content f ++ b) (length (content f ++ b)) (synced f).
Proof.
  intros Hc Hs. unfold file_write. rewrite Hc, firstn_all, Nat.sub_diag. simpl.
  rewrite drop_ge by lia. rewrite app_nil_r, length_app. f_equal. lia.
Qed.

Lemma commits_of_pads n : commits_of (replicate n ItPad) = [].
Proof. induction n; [done|]. done. Qed.

Lemma enc_pads n : enc_items (replicate n ItPad) = replicate n 0%Z.
Proof. induction n as [|n IH]; [done|]. unfold enc_items in *. simpl. by rewrite IH. Qed.

Lemma align_end f :
  cursor f = length (content f) → synced f ≤ length (content f) →
  let pads := enc_items (replicate (pad_len (cursor f)) ItPad) in
  align_position f = mkFile (content f ++ pads) (length (content f ++ pads)) (synced f).
Proof.
  intros Hc Hs pads. unfold align_position, pads. fold (pad_len (cursor f)).
  destruct (decide (0 < pad_len (cursor f))) as [Hn|Hn].
  - by rewrite file_write_end, enc_pads by done.
  - replace (pad_len (cursor f)) with 0 by lia. simpl. rewrite app_nil_r, <- Hc. by destruct f.
Qed.

(** Writing a batch of items at the end of the file, then padding. *)
Lemma write_batch w fi batch :
  content (file w) = wal_header ++ enc_items fi →
  cursor (file w) = length (content (file w)) →
  synced (file w) ≤ length (content (file w)) →
  let n := pad_len (WAL_HEADER_SIZE + length (enc_items (fi ++ batch))) in
  align_position (file_write (file w) (enc_items batch)) =
    mkFile (wal_header ++ enc_items (fi ++ batch ++ replicate n ItPad))
           (length (wal_header ++ enc_items (fi ++ batch ++ replicate n ItPad)))
           (synced (file w)).
Proof.
  intros Hc Hcur Hs n. rewrite file_write_end by done.
  rewrite align_end by (cbn [content cursor synced]; rewrite ?length_app; lia). cbn [content cursor synced].
  assert (length (content (file w) ++ enc_items batch)
          = WAL_HEADER_SIZE + length (enc_items (fi ++ batch))) as ->.
  { rewrite Hc, enc_items_app, !length_app. simpl. unfold WAL_HEADER_SIZE. lia. }
  fold n. rewrite Hc, !enc_items_app, <- !app_assoc. done.
Qed.

Lemma flush_inv w fi pi :
  writer_inv w fi pi →
  ∃ ext, writer_inv (flush_pending w) (fi ++ ext) [] ∧ strip (fi ++ ext) = strip (fi ++ pi).
Proof.
  intros [Hc Hcur Hp Hv Hn Ha Hsy]. unfold flush_pending. rewrite Hp.
  destruct (enc_items pi) as [|b l] eqn:E.
  - exists []. rewrite app_nil_r. assert (pi = []) as ->.
    { pose proof (length_enc_items_ge pi) as H. rewrite E in H. simpl in H. destruct pi; simpl in *; [done|lia]. }
    rewrite app_nil_r. split; [|done]. split; try done.
  - rewrite <- E. pose proof (write_batch w fi pi Hc Hcur Hsy) as En. cbv zeta in En.
    set (n := pad_len _) in En. exists (pi ++ replicate n ItPad). split.
    + split; cbn [file content cursor synced set_file set_pending pending_buf wal_version];
        rewrite ?En; cbn [content cursor synced]; try done.
      * apply aligned_app; [done|]. apply aligned_no_commit.
        rewrite commits_of_app, Hn. apply commits_of_pads.
      * rewrite enc_items_app, app_assoc, length_app, <- Hc. lia.
    + rewrite !strip_app, strip_pads. by rewrite app_nil_r.
Qed.

Lemma log_exec_inv w fi pi o :
  writer_inv w fi pi →
  ∃ ext pi', writer_inv (log_exec w o) (fi ++ ext) pi' ∧
    strip ((fi ++ ext) ++ pi') = strip (fi ++ pi) ++ option_list (op_item o) ∧
    (∀ t, o = LogCommit t → pi' = []).
Proof.
  intros Hinv. destruct o as [t f p d|t|]; simpl.
  - unfold log_page_update.
    set (w1 := set_pending w (pending_buf w ++ page_update_bytes crc32c t f p d)).
    assert (writer_inv w1 fi (pi ++ [ItPage t f p d])) as H1.
    { destruct Hinv as [Hc Hcur Hp Hv Hn Ha Hsy]. split; simpl; try done.
      - rewrite Hp, enc_items_app. unfold enc_items at 3. simpl. by rewrite app_nil_r.
      - by rewrite commits_of_app, Hn. }
    assert (strip (fi ++ pi ++ [ItPage t f p d]) = strip (fi ++ pi) ++ [ItPage t f p d]) as Hs.
    { by rewrite app_assoc, (strip_app (fi ++ pi)). }
    destruct (decide (WAL_PENDING_FLUSH_BYTES ≤ _)%Z).
    + destruct (flush_inv _ _ _ H1) as (ext & H2 & E2). exists ext, []. split_and!; [done| |done].
      by rewrite app_nil_r, E2.
    + exists [], (pi ++ [ItPage t f p d]). rewrite app_nil_r. done.
  - destruct Hinv as [Hc Hcur Hp Hv Hn Ha Hsy].
    pose proof (write_batch w fi (pi ++ [ItCommit t]) Hc Hcur Hsy) as En. cbv zeta in En.
    set (n := pad_len _) in En. exists ((pi ++ [ItCommit t]) ++ replicate n ItPad), []. split_and!; [| |done].
    + assert (pending_buf w ++ commit_bytes crc32c t = enc_items (pi ++ [ItCommit t])) as Eb.
      { by rewrite Hp, enc_items_app. }
      unfold log_commit. rewrite Eb. cbn [file set_file set_pending]. rewrite En.
      split; cbn [file set_committed set_file set_pending pending_buf wal_version];
        rewrite ?sync_content, ?sync_cursor; cbn [content cursor]; try done;
        [|cbn [content]; apply (sync_synced (sync_mode w)); cbn [content synced]; rewrite enc_items_app, app_assoc, length_app, <- Hc; lia].
      apply aligned_app; [done|]. rewrite <- app_assoc. apply aligned_app; [by apply aligned_no_commit|].
      split; [|by apply aligned_no_commit, commits_of_pads].
      exists []. rewrite app_nil_r. unfold n. simpl app at 1.
      rewrite !enc_items_app, !length_app. unfold enc_items at 3. cbn [map concat enc_item].
      rewrite app_nil_r, length_commit_bytes. simpl. do 2 f_equal. lia.
    + rewrite app_nil_r, !strip_app, strip_pads, app_nil_r. by rewrite <- app_assoc.
  - destruct (flush_inv _ _ _ Hinv) as (ext & H2 & E2). exists ext, []. split_and!; [done| |done].
    by rewrite !app_nil_r.
Qed.

Lemma log_run_inv ops w fi pi :
  writer_inv w fi pi →
  ∃ ext pi', writer_inv (log_run ops w) (fi ++ ext) pi' ∧
    strip ((fi ++ ext) ++ pi') = strip (fi ++ pi) ++ op_items ops.
Proof.
  revert w fi pi. induction ops as [|o ops IH]; intros w fi pi Hinv; simpl.
  - exists [], pi. by rewrite !app_nil_r.
  - destruct (log_exec_inv w fi pi o Hinv) as (e1 & p1 & H1 & E1 & _).
    destruct (IH _ _ _ H1) as (e2 & p2 & H2 & E2). exists (e1 ++ e2), p2.
    rewrite !app_assoc in *. split; [done|]. rewrite E2, E1, <- app_assoc. f_equal.
    unfold op_items. simpl. by destruct (op_item o).
Qed.

Lemma wal_new_inv mode : writer_inv (wal_new [] mode) [] [].
Proof. split; destruct mode; simpl; try done; lia. Qed.

(** No operation of the writer lowers what is known to be on disk. *)
Lemma log_exec_synced w fi pi o :
  writer_inv w fi pi → synced (file w) ≤ synced (file (log_exec w o)).
Proof.
  intros [Hc Hcur _ _ _ _ Hsy].
  assert (∀ b, synced (file w) ≤ synced (align_position (file_write (file w) b))) as Hw.
  { intros b. rewrite file_write_end by done.
    by rewrite align_end by (cbn [content cursor synced]; rewrite ?length_app; lia). }
  assert (∀ w', file w' = file w → synced (file w) ≤ synced (file (flush_pending w'))) as Hf.
  { intros w' Ew. unfold flush_pending. rewrite Ew. destruct (pending_buf w'); [by rewrite Ew|apply Hw]. }
  destruct o; cbn [log_exec].
  - unfold log_page_update. by case_decide; [apply Hf|].
  - unfold log_commit, sync_if_normal. cbn [file set_committed set_file set_pending sync_mode].
    etrans; [apply (Hw (pending_buf w ++ commit_bytes crc32c tx_id))|]. case_decide; [|done].
    rewrite file_write_end by done.
    rewrite align_end by (cbn [content cursor synced]; rewrite ?length_app; lia).
    cbn [synced sync_all content]. rewrite !length_app. lia.
  - by apply Hf.
Qed.

Lemma log_run_synced ops w fi pi :
  writer_inv w fi pi → synced (file w) ≤ synced (file (log_run ops w)).
Proof.
  revert w fi pi. induction ops as [|o ops IH]; intros w fi pi Hinv; [done|].
  etrans; [by eapply log_exec_synced|]. destruct (log_exec_inv _ _ _ o Hinv) as (e & p & H & _).
  by eapply IH.
Qed.

(** The mode is fixed when the log is opened. *)
Lemma log_run_mode ops w : sync_mode (log_run ops w) = sync_mode w.
Proof.
  revert w. induction ops as [|o ops IH]; intros w; [done|].
  change (log_run (o :: ops) w) with (log_run ops (log_exec w o)). rewrite IH.
  destruct o; cbn [log_exec]; unfold log_page_update, flush_pending, log_commit; try case_decide;
    cbn [sync_mode set_pending set_file set_committed pending_buf]; repeat case_match; done.
Qed.

(** A commit in [SyncMode::Normal] returns with the whole log on disk. *)
Lemma log_commit_synced w t :
  sync_mode w = SyncNormal → synced (file (log_commit crc32c w t)) = wal_size (log_commit crc32c w t).
Proof. intros E. unfold log_commit, sync_if_normal. cbn. by rewrite E. Qed.

(** What a crash can leave of the log: everything that was synced and any
    number of the bytes written since. *)
Definition crash_leaves (w : WAL) (disk : list Z) : Prop :=
  ∃ k, synced (file w) ≤ k ∧ disk = take k (content (file w)).

Definition op_ok (o : log_op) : Prop := match op_item o with Some i => item_ok i | None => True end.

#[global] Instance op_ok_dec o : Decision (op_ok o).
Proof. unfold op_ok. destruct (op_item o); apply _. Defined.

Lemma item_ok_strip l : Forall item_ok (strip l) → Forall item_ok l.
Proof.
  rewrite !Forall_lookup. intros H k i Hi.
  destruct (decide (is_Some (item_tx i))) as [Hs|Hs]; [|by destruct i; try by destruct Hs].
  assert (i ∈ strip l) as Hin.
  { apply list_elem_of_filter. split; [done|]. by eapply list_elem_of_lookup_2. }
  apply list_elem_of_lookup in Hin as [k' Hk']. by apply (H k').
Qed.

Lemma op_items_ok ops : Forall op_ok ops → Forall item_ok (op_items ops).
Proof.
  induction 1 as [|o ops Ho _ IH]; [constructor|]. unfold op_items in *. simpl.
  unfold op_ok in Ho. destruct (op_item o); [by constructor|done].
Qed.

(** The file after a run from an empty log. *)
Lemma log_run_file ops mode :
  Forall op_ok ops → wf_history (op_items ops) →
  ∃ fi pi, writer_inv (log_run ops (wal_new [] mode)) fi pi ∧
    strip (fi ++ pi) = op_items ops ∧ Forall item_ok fi ∧ wf_history (fi ++ pi).
Proof.
  intros Hok Hwf. destruct (log_run_inv ops _ _ _ (wal_new_inv mode)) as (fi & pi & Hinv & E).
  simpl in *. exists fi, pi. split_and!; [done|done| |].
  - apply op_items_ok in Hok. rewrite <- E in Hok. apply item_ok_strip in Hok.
    by apply Forall_app in Hok as [? _].
  - apply wf_history_strip. by rewrite E.
Qed.

Lemma complete_app k l1 l2 :
  length (enc_items l1) ≤ k → complete k (l1 ++ l2) = l1 ++ complete (k - length (enc_items l1)) l2.
Proof.
  revert k. induction l1 as [|i l1 IH]; intros k Hk; simpl; [by rewrite Nat.sub_0_r|].
  unfold enc_items in *. simpl in *. rewrite length_app in Hk.
  rewrite decide_True by lia. rewrite IH by lia. do 3 f_equal. rewrite length_app. lia.
Qed.

(** The updates of a committed transaction are a contiguous part of what
    recovery applies. *)
Lemma recovered_contains ck l t :
  t ∈ commits_of l → (ck < t)%Z → ∃ a b, recovered ck l = a ++ updates_of t l ++ b.
Proof.
  intros Hin Hgt. unfold recovered.
  assert (t ∈ filter (λ t, ck < t)%Z (commits_of l)) as Hf by (by apply list_elem_of_filter).
  apply list_elem_of_split in Hf as (c1 & c2 & ->).
  rewrite map_app, concat_app. simpl. eauto.
Qed.

(** The file at an acknowledged commit is a prefix of every later file. *)
Lemma log_run_commit_split ops1 t ops2 mode :
  ∃ fi ext pi,
    content (file (log_run (ops1 ++ [LogCommit t]) (wal_new [] mode))) = wal_header ++ enc_items fi ∧
    writer_inv (log_run (ops1 ++ LogCommit t :: ops2) (wal_new [] mode)) (fi ++ ext) pi ∧
    strip fi = op_items ops1 ++ [ItCommit t] ∧
    strip ((fi ++ ext) ++ pi) = op_items (ops1 ++ LogCommit t :: ops2).
Proof.
  destruct (log_run_inv ops1 _ _ _ (wal_new_inv mode)) as (f0 & p0 & H0 & E0).
  destruct (log_exec_inv _ _ _ (LogCommit t) H0) as (e1 & p1 & H1 & E1 & Hp1).
  rewrite (Hp1 t eq_refl) in *. rewrite app_nil_r, E0 in E1. simpl in E1.
  destruct (log_run_inv ops2 _ _ _ H1) as (e2 & p2 & H2 & E2).
  exists (([] ++ f0) ++ e1), e2, p2. split_and!.
  - unfold log_run. rewrite foldl_app. cbn [foldl]. apply H1.
  - unfold log_run. by rewrite foldl_app.
  - done.
  - rewrite E2, app_nil_r. simpl in E1 |- *. rewrite E1. unfold op_items.
    by rewrite omap_app, <- app_assoc.
Qed.

Section durability.
Context {St : Type}.
Context (apply_page : Z → Z → list Z → St → St * option LightningError).

(** Durability and atomicity end to end: run any mix of page updates,
    flushes and commits on a fresh log, reopen the file and replay it.  The
    pages of every transaction committed above the watermark are applied, in
    commit order and in the order they were logged; nothing of an uncommitted
    transaction is; and the report is clean. *)
Theorem log_then_replay ops mode ck s :
  Forall op_ok ops → wf_history (op_items ops) →
  ∃ w' n mx, replay crc32c apply_page
      (wal_new (content (file (log_run ops (wal_new [] mode)))) mode) ck s =
    (w', apply_all apply_page (recovered ck (op_items ops)) s, Ok (mkReport n 0 false mx false)).
Proof.
  intros Hok Hwf. destruct (log_run_file ops mode Hok Hwf) as (fi & pi & [Hc _ _ _ Hn _] & E & Hfi & Hw).
  rewrite Hc. destruct (replay_cut apply_page ck fi (length (enc_items fi)) s mode Hfi) as (w' & Hr & _).
  { by apply wf_history_prefix in Hw. }
  { done. }
  rewrite firstn_all in Hr. destruct (complete_all (length (enc_items fi)) fi) as [E1 E2]; [done|].
  rewrite E1, E2 in Hr. rewrite <- E, recovered_strip, recovered_uncommitted by done. eauto.
Qed.

(** C4. An acknowledged commit survives any later crash, when the log was
    opened in [SyncMode::Normal]: start from a fresh log and run any page
    updates, flushes and commits around the commit of [t] (every update and
    commit of a transaction below 2^64 and of whole pages, no transaction
    continued after its commit).  A crash keeps the bytes the last [fsync]
    covered and any prefix of what was written since; replaying what it left,
    above a watermark below [t], marks [t] as committed and applies all its
    updates, in order and uninterrupted.  In [SyncMode::Off] the commit can be
    lost ([sync_off_loses_commit]). *)
Theorem acknowledged_commit_survives ops1 t ops2 ck disk s :
  let ops := ops1 ++ LogCommit t :: ops2 in
  Forall op_ok ops → wf_history (op_items ops) → (ck < t)%Z →
  crash_leaves (log_run ops (wal_new [] SyncNormal)) disk →
  ∃ w' a b r, replay crc32c apply_page (wal_new disk SyncNormal) ck s =
      (w', apply_all apply_page (a ++ updates_of t (op_items ops1) ++ b) s, Ok r) ∧
    t ∈ committed_txs w' ∧ corrupt_records_skipped r = 0.
Proof.
  intros ops Hok Hwf Hck (k0 & Hk0 & ->).
  set (mode := SyncNormal) in *. set (w2 := log_run ops (wal_new [] mode)) in *.
  set (w1 := log_run (ops1 ++ [LogCommit t]) (wal_new [] mode)).
  set (k := k0 `min` wal_size w2).
  assert (take k0 (content (file w2)) = take k (content (file w2))) as ->.
  { unfold k, wal_size. destruct (decide (k0 ≤ length (content (file w2)))).
    - by rewrite Nat.min_l.
    - by rewrite Nat.min_r, firstn_all, take_ge by lia. }
  assert (wal_size w1 ≤ k ≤ wal_size w2) as Hk.
  { assert (synced (file w1) = wal_size w1) as E1.
    { unfold w1, log_run. rewrite foldl_app. apply log_commit_synced. apply log_run_mode. }
    destruct (log_run_inv (ops1 ++ [LogCommit t]) _ _ _ (wal_new_inv mode)) as (e & p & H1 & _).
    pose proof (log_run_synced ops2 _ _ _ H1) as Hle. fold w1 in Hle.
    assert (log_run ops2 w1 = w2) as E2.
    { unfold w1, w2, ops, log_run. by rewrite <- foldl_app, <- app_assoc. }
    destruct (log_run_inv ops _ _ _ (wal_new_inv mode)) as (e2 & p2 & H2 & _). fold w2 in H2.
    pose proof (wi_synced _ _ _ H2). rewrite E2 in Hle. unfold k, wal_size in *. lia. }
  destruct (log_run_commit_split ops1 t ops2 mode) as (fi & ext & pi & Hw1 & Hw2 & E1 & E2).
  fold w1 in Hw1. fold ops w2 in Hw2. fold ops in E2.
  assert (Forall item_ok (fi ++ ext)) as Hfi.
  { apply op_items_ok in Hok. rewrite <- E2 in Hok. apply item_ok_strip in Hok.
    by apply Forall_app in Hok as [? _]. }
  assert (wf_history (fi ++ ext)) as Hwfi.
  { rewrite <- E2 in Hwf. by apply wf_history_strip, wf_history_prefix in Hwf. }
  destruct Hw2 as [Hc2 _ _ _ _ _]. unfold wal_size in Hk. rewrite Hw1, Hc2 in Hk.
  rewrite !length_app, enc_items_app, length_app in Hk. change (length wal_header) with 5 in Hk.
  destruct (replay_cut apply_page ck (fi ++ ext) (k - 5) s mode Hfi Hwfi) as (w' & Hr & Hcom & _).
  { rewrite enc_items_app, length_app. lia. }
  rewrite Hc2, take_app_ge by (simpl; lia). change (length wal_header) with 5.
  rewrite complete_app in Hr, Hcom by lia.
  set (more := complete _ ext) in *.
  assert (t ∈ commits_of fi) as Htin.
  { rewrite <- commits_of_strip, E1, commits_of_app, elem_of_app. right. by left. }
  assert (t ∈ commits_of (fi ++ more)) as Htm by (rewrite commits_of_app, elem_of_app; auto).
  destruct (recovered_contains ck (fi ++ more) t Htm Hck) as (a & b & Eab).
  assert (updates_of t (fi ++ more) = updates_of t (op_items ops1)) as Eu.
  { rewrite updates_of_app, (updates_of_none t more).
    - rewrite app_nil_r, <- updates_of_strip, E1, updates_of_app. apply app_nil_r.
    - destruct (complete_prefix (k - 5 - length (enc_items fi)) ext) as [rest Er]. fold more in Er.
      rewrite Er, app_assoc in Hwfi. apply wf_history_prefix in Hwfi.
      by eapply wf_history_after. }
  rewrite Eab, Eu in Hr. eexists w', a, b, _.
  split; [exact Hr|]. split; [by apply Hcom|done].
Qed.
End durability.
End recovery.

(** ** Concrete instances *)

(** A checksum and a store to instantiate the hypotheses with: a byte sum, and
    the list of page writes. *)
Definition sum_crc (b : list Z) : Z := (foldr Z.add 0 b mod 2 ^ 32)%Z.
Lemma sum_crc_u32 b : (0 ≤ sum_crc b < 2 ^ 32)%Z.
Proof. apply Z.mod_pos_bound. lia. Qed.

Definition log_store (f p : Z) (d : list Z) (s : list (Z * Z * list Z)) :
    list (Z * Z * list Z) * option LightningError := (s ++ [(f, p, d)], None).

Definition demo_page : list Z := replicate PAGE_SIZE 9%Z.
Definition demo_log : list log_item :=
  [ItPage 7 1 0 demo_page; ItCommit 7; ItPad; ItPage 8 1 0 demo_page; ItCommit 8].

(** A crash one byte before the end of the second commit record: transaction 7
    is recovered, transaction 8 is a torn tail. *)
Lemma replay_after_crash_witness :
  let k := length (enc_items sum_crc demo_log) - 1 in
  ∃ w', replay sum_crc log_store (wal_new (wal_header ++ take k (enc_items sum_crc demo_log)) SyncNormal) 0 [] =
    (w', apply_all log_store (recovered 0 (complete sum_crc k demo_log)) [],
     Ok (mkReport (records (complete sum_crc k demo_log)) 0 (torn sum_crc k demo_log)
           (max_tx (complete sum_crc k demo_log)) false)) ∧
    (∀ t, t ∈ committed_txs w' ↔ t ∈ commits_of (complete sum_crc k demo_log) ∧ (0 < t)%Z) ∧
    cursor (file w') = WAL_HEADER_SIZE + k.
Proof.
  intros k. apply (replay_after_crash sum_crc sum_crc_u32 log_store 0 demo_log k [] SyncNormal).
  - by_compute.
  - by_compute.
  - unfold k. lia.
Defined.

Definition demo_ops : list log_op :=
  [LogPage 7 1 0 demo_page; LogPage 8 2 5 demo_page; LogCommit 7; LogFlush; LogPage 9 1 1 demo_page].

Lemma log_then_replay_witness :
  ∃ w' n mx, replay sum_crc log_store
      (wal_new (content (file (log_run sum_crc demo_ops (wal_new [] SyncNormal)))) SyncNormal) 0 [] =
    (w', apply_all log_store (recovered 0 (op_items demo_ops)) [], Ok (mkReport n 0 false mx false)).
Proof.
  apply (log_then_replay sum_crc sum_crc_u32 log_store demo_ops SyncNormal 0 []); by_compute.
Defined.

(** A crash after the pending update of transaction 9 was written but not
    synced: one byte of its record reached the disk. *)
Lemma acknowledged_commit_survives_witness :
  let ops1 := [LogPage 7 1 0 demo_page; LogPage 8 2 5 demo_page] in
  let ops2 := [LogPage 9 1 1 demo_page; LogFlush] in
  let disk := take (wal_size (log_run sum_crc (ops1 ++ [LogCommit 7]) (wal_new [] SyncNormal)) + 1)
                (content (file (log_run sum_crc (ops1 ++ LogCommit 7 :: ops2) (wal_new [] SyncNormal)))) in
  ∃ w' a b r, replay sum_crc log_store (wal_new disk SyncNormal) 0 [] =
      (w', apply_all log_store (a ++ updates_of 7 (op_items ops1) ++ b) [], Ok r) ∧
    7%Z ∈ committed_txs w' ∧ corrupt_records_skipped r = 0.
Proof.
  intros ops1 ops2 disk.
  apply (acknowledged_commit_survives sum_crc sum_crc_u32 log_store ops1 7 ops2 0 disk []); [by_compute..|].
  eexists. split; [|reflexivity]. by_compute.
Defined.

(** In [SyncMode::Off] a commit returns with nothing known to be on disk: a
    crash may leave an empty file, and recovery then knows of no commit. *)
Theorem sync_off_loses_commit :
  let w := log_run sum_crc [LogPage 7 1 0 demo_page; LogCommit 7] (wal_new [] SyncOff) in
  7%Z ∈ committed_txs w ∧ crash_leaves w [] ∧
  ∃ w', replay sum_crc log_store (wal_new [] SyncOff) 0 [] = (w', [], Ok (mkReport 0 0 false 0 false)) ∧
    committed_txs w' = ∅.
Proof.
  split; [by_compute|]. split; [by exists 0|]. eexists. split; [by vm_compute|reflexivity].
Qed.
