(* ===== verification/WalIter.v ===== *)
(** * Reading the log for change capture

    The record iterator ([WALRecordIter::next_record]) over a log that the
    writer produced delivers exactly the logged records and ends; over a record
    whose checksum does not match it stays where it is. *)
From stdpp Require Import base list gmap numbers.
From Stdlib Require Import ZArith Lia Bool.
From S2P Require Import Prelude Wal WalRecovery.

Section iter.
Context (crc32c : list Z → Z).
Hypothesis crc32c_u32 : ∀ b, (0 ≤ crc32c b < 2 ^ 32)%Z.

(** ** One call *)

Lemma slice_part (buf : list Z) pos b n :
  at_pos buf pos b → n = pos + length b → slice buf pos n = b.
Proof. intros H ->. by apply slice_at_pos. Qed.

Lemma next_page_item it t f p d :
  item_ok (ItPage t f p d) → it_version it = 2%Z →
  at_pos (it_buf it) (it_pos it) (page_update_bytes crc32c t f p d) →
  next_page_update crc32c it =
  Return (set_pos it (it_pos it + length (page_update_bytes crc32c t f p d)))
         (Some (PageUpdate t f p d)).
Proof.
  intros (Ht & Hf & Hp & Hd) Hv Hat. pose proof (at_pos_length _ _ _ Hat) as Hlen.
  rewrite length_page_bytes in *. rewrite page_bytes_parts in Hat.
  apply at_pos_app in Hat as [_ Hat]. apply at_pos_app in Hat as [Hl Hat].
  apply at_pos_app in Hat as [Hcrc Hpay]. pose proof Hpay as Hall.
  apply at_pos_app in Hpay as [H1 Hpay]. apply at_pos_app in Hpay as [H2 Hpay].
  apply at_pos_app in Hpay as [H3 H4]. rewrite !length_to_le in *. simpl length in *.
  unfold next_page_update. rewrite Hv. rewrite !(decide_True (P := (2 ≤ 2)%Z)) by lia.
  unfold WAL_LENGTH_SIZE, WAL_CHECKSUM_SIZE.
  destruct (decide (length (it_buf it) < _)); [lia|].
  rewrite (slice_part _ _ _ _ Hl) by (rewrite ?length_to_le; lia).
  rewrite (slice_part _ _ _ _ Hcrc) by (rewrite ?length_to_le; lia).
  rewrite of_le_to_le_id by done.
  rewrite decide_False by (pose proof PAGE_SIZE_val; lia).
  rewrite (slice_part _ _ _ (it_pos it + 1 + 2 + 4 + 8) H1) by (rewrite ?length_to_le; lia).
  rewrite (slice_part _ _ _ (it_pos it + 1 + 2 + 4 + 16) H2) by (rewrite ?length_to_le; lia).
  replace (it_pos it + 1 + 2 + 4 + 16) with (it_pos it + 1 + 2 + 4 + 8 + 8) by lia.
  rewrite (slice_part _ _ _ (it_pos it + 1 + 2 + 4 + 24) H3) by (rewrite ?length_to_le; lia).
  replace (it_pos it + 1 + 2 + 4 + 24) with (it_pos it + 1 + 2 + 4 + 8 + 8 + 8) by lia.
  rewrite (slice_part _ _ _ (_ + PAGE_SIZE) H4) by lia.
  rewrite (slice_part _ _ _ (_ + PAGE_SIZE) Hall) by (rewrite !length_app, !length_to_le; lia).
  unfold compute_checksum_v2 in *. rewrite of_le_crc by done.
  rewrite decide_False by (intros H; by apply H). rewrite !of_le_to_le_id by done.
  do 2 f_equal. lia.
Qed.

Lemma next_commit_item it t :
  is_u64 t → it_version it = 2%Z →
  at_pos (it_buf it) (it_pos it) (commit_bytes crc32c t) →
  next_commit crc32c it =
  Return (iter_align (set_pos it (it_pos it + 15))) (Some (Commit t)).
Proof.
  intros Ht Hv Hat. pose proof (at_pos_length _ _ _ Hat) as Hlen.
  rewrite length_commit_bytes in *. rewrite commit_bytes_parts in Hat.
  apply at_pos_app in Hat as [_ Hat]. apply at_pos_app in Hat as [Hl Hat].
  apply at_pos_app in Hat as [Hcrc Hpay]. rewrite !length_to_le in *. simpl length in *.
  unfold next_commit. rewrite Hv. rewrite !(decide_True (P := (2 ≤ 2)%Z)) by lia.
  unfold WAL_LENGTH_SIZE, WAL_CHECKSUM_SIZE.
  destruct (decide (length (it_buf it) < _)); [lia|].
  rewrite (slice_part _ _ _ _ Hl) by (rewrite ?length_to_le; lia).
  rewrite (slice_part _ _ _ _ Hcrc) by (rewrite ?length_to_le; lia).
  rewrite of_le_to_le_id by done. rewrite decide_False by auto.
  rewrite (slice_part _ _ _ _ Hpay) by (rewrite ?length_to_le; lia).
  unfold compute_checksum_v2 in *. rewrite of_le_crc by done.
  rewrite decide_False by (intros H; by apply H). rewrite of_le_to_le_id by done. done.
Qed.

(** The next record of a log at file offset [pos], and what remains. *)
Fixpoint next_spec (pos : nat) (l : list log_item) : option (WALRecord * list log_item) :=
  match l with
  | [] => None
  | ItPad :: l => next_spec (pos + 1) l
  | ItPage t f p d :: l => Some (PageUpdate t f p d, l)
  | ItCommit t :: l => Some (Commit t, drop (pad_len (pos + 15)) l)
  end.

Lemma at_pos_lookup buf pos b l : at_pos buf pos (b :: l) → buf !! pos = Some b.
Proof. intros (post & E & _). rewrite <- (Nat.add_0_r pos), <- lookup_drop, E. done. Qed.

Lemma next_record_items l : ∀ fuel it,
  Forall item_ok l → length l < fuel → it_version it = 2%Z →
  at_pos (it_buf it) (it_pos it) (enc_items crc32c l) →
  length (it_buf it) = it_pos it + length (enc_items crc32c l) →
  aligned crc32c (it_base it + it_pos it) l →
  next_record_loop crc32c fuel it =
  match next_spec (it_base it + it_pos it) l with
  | None => (set_pos it (length (it_buf it)), None)
  | Some (r, rest) =>
      (set_pos it (length (it_buf it) - length (enc_items crc32c rest)), Some r)
  end.
Proof.
  induction l as [|i l IH]; intros fuel it Hok Hfuel Hv Hat Hlen Hal;
    (destruct fuel as [|fuel]; [simpl in Hfuel; lia|]).
  - unfold enc_items in Hlen. simpl in Hlen. rewrite Nat.add_0_r in Hlen. simpl.
    rewrite (lookup_ge_None_2 (it_buf it)) by lia. rewrite Hlen. by destruct it.
  - apply Forall_cons_1 in Hok as [Hi Hl]. simpl in Hfuel.
    unfold enc_items in Hat, Hlen. simpl in Hat, Hlen. fold (enc_items crc32c l) in Hat, Hlen.
    rewrite length_app in Hlen. apply at_pos_app in Hat as [Hati Hat].
    cbn [next_record_loop]. destruct i as [t f p d|t|]; cbn [enc_item next_spec] in *.
    + rewrite (at_pos_lookup _ _ 1%Z (drop 1 (page_update_bytes crc32c t f p d))) by done.
      rewrite decide_True by done. rewrite (next_page_item it t f p d) by done.
      f_equal. f_equal. lia.
    + rewrite (at_pos_lookup _ _ 2%Z (drop 1 (commit_bytes crc32c t))) by done.
      rewrite decide_False, decide_True by done. rewrite (next_commit_item it t) by done.
      rewrite length_commit_bytes in *. destruct Hal as [[rest ->] _].
      rewrite drop_app_length' by (by rewrite length_replicate).
      rewrite enc_items_app, enc_pads, length_app, length_replicate in Hlen.
      unfold iter_align. cbn [it_base it_pos set_pos it_buf].
      rewrite Nat.add_assoc. fold (pad_len (it_base it + it_pos it + 15)).
      f_equal. unfold set_pos. simpl. f_equal. lia.
    + rewrite (at_pos_lookup _ _ 0%Z []) by done.
      rewrite decide_False, decide_False, decide_True by done.
      cbn [aligned] in Hal. simpl in Hal, Hat, Hlen. rewrite IH; try done; simpl; try lia.
      * by rewrite Nat.add_assoc.
      * by rewrite Nat.add_assoc; destruct Hal as [_ ?].
Qed.

(** ** Draining the iterator *)

Definition item_record (i : log_item) : option WALRecord :=
  match i with
  | ItPage t f p d => Some (PageUpdate t f p d)
  | ItCommit t => Some (Commit t)
  | ItPad => None
  end.
Definition log_records (l : list log_item) : list WALRecord := omap item_record l.

Lemma log_records_pads n l : log_records (replicate n ItPad ++ l) = log_records l.
Proof. by induction n. Qed.

Lemma next_spec_none pos l : next_spec pos l = None → log_records l = [].
Proof. revert pos. induction l as [|[] l IH]; intros pos H; simpl in *; by eauto. Qed.

Lemma next_spec_some pos l r rest :
  aligned crc32c pos l → next_spec pos l = Some (r, rest) →
  ∃ pre, l = pre ++ rest ∧ log_records l = r :: log_records rest ∧ length rest < length l.
Proof.
  revert pos. induction l as [|i l IH]; intros pos Hal H; simpl in *; [done|].
  destruct i as [t f p d|t|]; simplify_eq/=.
  - exists [ItPage t f p d]. split_and!; [done|done|lia].
  - destruct Hal as [[rest' ->] _].
    rewrite drop_app_length' by (by rewrite length_replicate).
    exists (ItCommit t :: replicate (pad_len (pos + 15)) ItPad).
    split_and!; [done| |rewrite length_app; lia].
    unfold log_records. simpl. f_equal. apply log_records_pads.
  - destruct Hal as [_ Hal]. destruct (IH _ Hal H) as (pre & -> & Hr & Hl).
    exists (ItPad :: pre). split_and!; [done|done|lia].
Qed.

Lemma drain_items n : ∀ l fuel it,
  length l ≤ n → Forall item_ok l → length (log_records l) < fuel → it_version it = 2%Z →
  at_pos (it_buf it) (it_pos it) (enc_items crc32c l) →
  length (it_buf it) = it_pos it + length (enc_items crc32c l) →
  aligned crc32c (it_base it + it_pos it) l →
  drain_iter crc32c fuel it = (set_pos it (length (it_buf it)), log_records l, true).
Proof.
  induction n as [|n IH]; intros l fuel it Hn Hok Hfuel Hv Hat Hlen Hal;
    (destruct fuel as [|fuel]; [lia|]).
  all: cbn [drain_iter]; unfold next_record;
    rewrite (next_record_items l) by
      (try done; pose proof (length_enc_items_ge crc32c l); lia).
  - destruct l; [done|simpl in Hn; lia].
  - destruct (next_spec _ l) as [[r rest]|] eqn:E.
    2:{ by rewrite (next_spec_none _ _ E). }
    destruct (next_spec_some _ _ _ _ Hal E) as (pre & -> & Hr & Hl).
    rewrite Hr in Hfuel |- *. simpl in Hfuel. apply Forall_app in Hok as [_ Hok].
    rewrite enc_items_app in Hat, Hlen. rewrite length_app in Hlen. apply at_pos_app in Hat as [_ Hat].
    assert (length (it_buf it) - length (enc_items crc32c rest)
            = it_pos it + length (enc_items crc32c pre)) as Epos by lia.
    rewrite Epos, (IH rest); cbn [it_buf it_pos it_base it_version set_pos]; try done; try lia.
    apply aligned_drop in Hal. by rewrite Nat.add_assoc.
Qed.

(** Change capture sees the log: reading from the start a log written by
    any run (of at most 64 MB) and draining the iterator delivers exactly the
    flushed records in the order they were logged, then ends, with the position
    at the end of the file. *)
Theorem drain_written_log ops mode :
  Forall op_ok ops → wf_history (op_items ops) →
  let w := log_run crc32c ops (wal_new [] mode) in
  (Z.of_nat (wal_size w) ≤ MAX_WAL_READ_SIZE)%Z →
  ∃ flushed, (∃ waiting, op_items ops = flushed ++ waiting ∧ commits_of waiting = []) ∧
    let it := snd (read_records_from w 0) in
    drain_iter crc32c (S (length (log_records flushed))) it =
      (set_pos it (length (it_buf it)), log_records flushed, true) ∧
    absolute_pos (set_pos it (length (it_buf it))) = wal_size w.
Proof.
  intros Hok Hwf w Hsz.
  destruct (log_run_file crc32c crc32c_u32 ops mode Hok Hwf) as (fi & pi & [Hc Hcur Hp Hv Hn Ha] & E & Hfi & _).
  fold w in Hc, Hcur, Hp, Hv. exists (strip fi). split.
  { exists (strip pi). by rewrite <- strip_app, E, commits_of_strip. }
  assert (log_records (strip fi) = log_records fi) as Es.
  { clear. induction fi as [|[] l IH]; [done|..]; unfold strip in *; rewrite filter_cons; simpl;
      unfold log_records in *; simpl; rewrite ?IH; done. }
  rewrite Es. unfold read_records_from, wal_size in *. rewrite Hc, length_app in *.
  change (length wal_header) with WAL_HEADER_SIZE in *.
  destruct (decide (0 < WAL_HEADER_SIZE)) as [_|Hbad]; [|unfold WAL_HEADER_SIZE in Hbad; lia].
  destruct (decide (_ ≤ WAL_HEADER_SIZE)) as [Hle|Hgt]; cbn [snd it_buf].
  - assert (fi = []) as -> by (destruct fi; [done|]; pose proof (length_enc_items_ge crc32c (l :: fi));
      simpl length in *; lia).
    split; [done|]. unfold absolute_pos. simpl. done.
  - replace (WAL_HEADER_SIZE + length (enc_items crc32c fi) - WAL_HEADER_SIZE)
      with (length (enc_items crc32c fi)) in * by lia.
    rewrite Nat.min_l by lia. rewrite slice_skip.
    split; [|unfold absolute_pos; simpl; lia].
    apply (drain_items (length fi)); cbn [it_buf it_pos it_base it_version]; try done; try lia.
    + exists []. rewrite app_nil_r. split; [done|lia].
Qed.

(** A turn that reports a damaged record leaves the position at it. *)
Lemma turn_corrupt it it' off :
  next_page_update crc32c it = Return it' (Some (Corrupt off)) ∨
  next_commit crc32c it = Return it' (Some (Corrupt off)) ∨
  next_unknown it = Return it' (Some (Corrupt off)) →
  it' = it ∧ off = absolute_pos it.
Proof.
  unfold next_page_update, next_commit, next_unknown. cbv zeta.
  intros [H|[H|H]]; repeat case_decide; simplify_eq; done.
Qed.

(** So does the call, wherever it started from. *)
Lemma loop_corrupt fuel : ∀ it it' off,
  next_record_loop crc32c fuel it = (it', Some (Corrupt off)) →
  off = absolute_pos it' ∧ ∀ n, next_record_loop crc32c (S n) it' = (it', Some (Corrupt off)).
Proof.
  induction fuel as [|fuel IH]; intros it it' off H; [done|]. revert H. cbn [next_record_loop].
  destruct (it_buf it !! it_pos it) as [ty|] eqn:Et; [|done].
  set (turn := if decide (ty = RECORD_TYPE_PAGE_UPDATE) then _ else _).
  destruct turn as [it1 r|it1] eqn:Eturn; [|apply IH]. intros H. injection H as -> ->.
  assert (it' = it ∧ off = absolute_pos it) as [-> ->].
  { apply turn_corrupt. subst turn. repeat case_decide; eauto; done. }
  split; [done|]. intros n. clear IH. cbn [next_record_loop]. rewrite Et. fold turn. by rewrite Eturn.
Qed.

Lemma record_corrupt it it' off :
  next_record crc32c it = (it', Some (Corrupt off)) → next_record crc32c it' = (it', Some (Corrupt off)).
Proof. intros H. apply loop_corrupt in H as [_ H]. apply H. Qed.

Lemma drain_stuck n it off :
  next_record crc32c it = (it, Some (Corrupt off)) →
  drain_iter crc32c n it = (it, replicate n (Corrupt off), false).
Proof. intros H. induction n as [|n IH]; [done|]. cbn [drain_iter replicate]. by rewrite H, IH. Qed.

(** C37. A record reported as damaged traps the change-capture reader: however
    the reader got there, once its loop over [next_record] has been handed
    [Corrupt], every further call hands it the same [Corrupt] again, so the
    loop, which stops at [None] only, never ends.  (A record of version 1 that
    is a commit with a bad checksum is not reported: the iterator skips it.) *)
Theorem corrupt_record_traps_reader n : ∀ it it' rs fin off,
  drain_iter crc32c n it = (it', rs, fin) → Corrupt off ∈ rs →
  ∀ m, drain_iter crc32c (n + m) it = (it', rs ++ replicate m (Corrupt off), false).
Proof.
  induction n as [|n IH]; intros it it' rs fin off Hd Hin m.
  { injection Hd as <- <- <-. by apply not_elem_of_nil in Hin. }
  revert Hd. cbn [drain_iter Nat.add].
  destruct (next_record crc32c it) as [it1 [r|]] eqn:Er; [|intros [= <- <- <-]; by apply not_elem_of_nil in Hin].
  destruct (drain_iter crc32c n it1) as [[it2 rs2] fin2] eqn:Ed. intros [= -> <- ->].
  apply elem_of_cons in Hin as [<-|Hin]; [|by rewrite (IH it1 it' rs2 fin off Ed Hin)].
  pose proof (record_corrupt _ _ _ Er) as Hs. rewrite (drain_stuck _ _ _ Hs) in Ed.
  injection Ed as -> <- _. rewrite (drain_stuck _ _ _ Hs). by rewrite replicate_add.
Qed.

(** The reader reports a version-2 page update whose length is right and whose
    checksum is not. *)
Theorem damaged_update_reported it t f p d crc rest :
  it_version it = 2%Z → is_u64 t → is_u64 f → is_u64 p → length d = PAGE_SIZE →
  (0 ≤ crc < 2 ^ 32)%Z →
  let payload := to_le 8 t ++ to_le 8 f ++ to_le 8 p ++ d in
  crc ≠ compute_checksum_v2 crc32c RECORD_TYPE_PAGE_UPDATE 4124 payload →
  drop (it_pos it) (it_buf it) = [RECORD_TYPE_PAGE_UPDATE] ++ to_le 2 4124 ++ to_le 4 crc ++ payload ++ rest →
  ∀ fuel, drain_iter crc32c fuel it = (it, replicate fuel (Corrupt (absolute_pos it)), false).
Proof.
  intros Hv Ht Hf Hp Hd Hcrc payload Hne Hbuf.
  assert (it_pos it < length (it_buf it)) as Hpos.
  { apply (f_equal length) in Hbuf. rewrite length_drop, !length_app in Hbuf. simpl in Hbuf. lia. }
  assert (at_pos (it_buf it) (it_pos it)
    ([RECORD_TYPE_PAGE_UPDATE] ++ to_le 2 4124 ++ to_le 4 crc ++ payload)) as Hat.
  { exists rest. rewrite Hbuf, <- !app_assoc. split; [done|lia]. }
  assert (next_page_update crc32c it = Return it (Some (Corrupt (absolute_pos it)))) as Hnext.
  { pose proof (at_pos_length _ _ _ Hat) as Hlen. rewrite !length_app, !length_to_le in Hlen.
    unfold payload in Hlen. rewrite !length_app, !length_to_le in Hlen. simpl length in Hlen.
    apply at_pos_app in Hat as [_ Hat]. apply at_pos_app in Hat as [Hl Hat].
    apply at_pos_app in Hat as [Hc Hpay]. rewrite !length_to_le in *. simpl length in *.
    unfold next_page_update. rewrite Hv. rewrite !(decide_True (P := (2 ≤ 2)%Z)) by lia.
    unfold WAL_LENGTH_SIZE, WAL_CHECKSUM_SIZE.
    destruct (decide (length (it_buf it) < _)); [lia|].
    rewrite (slice_part _ _ _ _ Hl) by (rewrite ?length_to_le; lia).
    rewrite (slice_part _ _ _ _ Hc) by (rewrite ?length_to_le; lia).
    rewrite !of_le_to_le_id by done. rewrite decide_False by (pose proof PAGE_SIZE_val; lia).
    rewrite (slice_part _ _ _ (_ + PAGE_SIZE) Hpay)
      by (unfold payload; rewrite !length_app, !length_to_le; lia).
    by rewrite decide_True by congruence. }
  assert (next_record crc32c it = (it, Some (Corrupt (absolute_pos it)))) as Hrec.
  { unfold next_record. cbn [next_record_loop].
    rewrite (at_pos_lookup _ _ 1%Z (to_le 2 4124 ++ to_le 4 crc ++ payload)) by done.
    rewrite decide_True by done. by rewrite Hnext. }
  induction fuel as [|fuel IH]; [done|]. cbn [drain_iter]. by rewrite Hrec, IH.
Qed.

Lemma file_write_inside f b :
  cursor f + length b ≤ length (content f) →
  file_write f b = mkFile (splice (content f) (cursor f) b) (cursor f + length b) (synced f `min` cursor f).
Proof.
  intros H. unfold file_write, splice.
  by replace (cursor f - length (content f)) with 0 by lia.
Qed.

Lemma pad_len_lt pos : pad_len pos < 8.
Proof. by apply Nat.mod_upper_bound. Qed.

(** A batch written in the middle of a file replaces what was there. *)
Lemma write_align_inside f b :
  cursor f + length b + 8 ≤ length (content f) →
  let f' := align_position (file_write f b) in
  length (content f') = length (content f) ∧
  slice (content f') (cursor f) (cursor f + length b) = b.
Proof.
  intros H. rewrite file_write_inside by lia. unfold align_position. cbn [cursor].
  fold (pad_len (cursor f + length b)). pose proof (pad_len_lt (cursor f + length b)).
  destruct (decide (0 < _)); cbn [content].
  - rewrite file_write_inside; cbn [content cursor]; rewrite ?length_splice, ?length_replicate by lia;
      [|lia]. split.
    + rewrite length_splice; rewrite ?length_splice, ?length_replicate; lia.
    + rewrite slice_splice_other; rewrite ?length_splice, ?length_replicate by lia; try lia.
      by apply slice_splice_same; lia.
  - split; [by apply length_splice; lia|by apply slice_splice_same; lia].
Qed.

(** A long catch-up read misplaces the writer: when more than 64 MB of log
    follow the offset, [read_records_from] leaves the shared file cursor in the
    middle of the log, and the next commit is written over the records that are
    there: the file does not grow, and the commit is where the read stopped. *)
Theorem long_read_overwrites_log w offset t :
  WAL_HEADER_SIZE ≤ offset → pending_buf w = [] →
  (Z.of_nat offset + MAX_WAL_READ_SIZE + 23 ≤ Z.of_nat (wal_size w))%Z →
  let w' := log_commit crc32c (fst (read_records_from w offset)) t in
  let start := offset + Z.to_nat MAX_WAL_READ_SIZE in
  wal_size w' = wal_size w ∧
  slice (content (file w')) start (start + 15) = commit_bytes crc32c t.
Proof.
  intros Hoff Hp Hsz w' start.
  assert (0 < MAX_WAL_READ_SIZE)%Z as Hm by done.
  assert (file (fst (read_records_from w offset)) = file_seek (file w) start ∧
          pending_buf (fst (read_records_from w offset)) = []) as [Hf Hpb].
  { unfold read_records_from. rewrite (decide_False (P := offset < _)) by lia.
    rewrite decide_False by lia. rewrite Nat.min_r by lia. done. }
  unfold w', log_commit. rewrite Hpb. unfold wal_size in *.
  cbn [file set_committed set_file set_pending]. rewrite Hf.
  rewrite sync_content.
  change ([] ++ commit_bytes crc32c t) with (commit_bytes crc32c t).
  replace (start + 15) with (start + length (commit_bytes crc32c t)) by (by rewrite length_commit_bytes).
  apply (write_align_inside (file_seek (file w) start)).
  rewrite length_commit_bytes. cbn [cursor content file_seek]. unfold start. lia.
Qed.
End iter.

Lemma drain_written_log_witness :
  let w := log_run sum_crc demo_ops (wal_new [] SyncNormal) in
  ∃ flushed, (∃ waiting, op_items demo_ops = flushed ++ waiting ∧ commits_of waiting = []) ∧
    let it := snd (read_records_from w 0) in
    drain_iter sum_crc (S (length (log_records flushed))) it =
      (set_pos it (length (it_buf it)), log_records flushed, true) ∧
    absolute_pos (set_pos it (length (it_buf it))) = wal_size w.
Proof.
  apply (drain_written_log sum_crc sum_crc_u32 demo_ops SyncNormal); by_compute.
Defined.

(** A page update whose stored checksum is 5. *)
Definition damaged_record : list Z :=
  [RECORD_TYPE_PAGE_UPDATE] ++ to_le 2 4124 ++ to_le 4 5 ++
  (to_le 8 7 ++ to_le 8 1 ++ to_le 8 0 ++ demo_page) ++ [].

(** A reader that is handed a commit record, then the damaged record. *)
Lemma corrupt_record_traps_reader_witness :
  let buf := commit_bytes sum_crc 7 ++ replicate 4 0%Z ++ damaged_record in
  let it := mkIter buf 0 5 2 in
  drain_iter sum_crc 1000 it = (set_pos it 19, [Commit 7; Corrupt 24] ++ replicate 998 (Corrupt 24), false).
Proof.
  intros buf it.
  refine (corrupt_record_traps_reader sum_crc 2 it (set_pos it 19) [Commit 7; Corrupt 24] false 24 _ _ 998).
  - by vm_compute.
  - apply elem_of_cons. right. apply elem_of_cons. by left.
Defined.

(** A log of 64 MB and a kilobyte of padding, read from its first record. *)
Definition long_log : WAL :=
  mkWAL (mkFile (replicate (Z.to_nat (MAX_WAL_READ_SIZE + 1024)) 0%Z) 0 0) ∅ SyncNormal None 0 [] 2.

Lemma long_read_overwrites_log_witness :
  wal_size (log_commit sum_crc (fst (read_records_from long_log 5)) 3) = wal_size long_log.
Proof.
  refine (proj1 (long_read_overwrites_log sum_crc long_log 5 3 _ eq_refl _)).
  - unfold WAL_HEADER_SIZE. lia.
  - unfold wal_size, long_log. cbn [file content]. rewrite length_replicate.
    unfold MAX_WAL_READ_SIZE. lia.
Defined.
