(* ===== verification/TxnManager.v ===== *)
(** * Transactions (transaction/transaction_manager.rs)

    The transaction manager's counters and sets of active transactions, the
    life of a transaction (begin, commit, roll back, drop), the stamping of row
    versions at commit, the row-level page merge, and the recovery watermark.
    Shared row versions ([Arc<RowVersion>]) are named by a number in one store.
    What a commit asks of the buffer manager and of the log is represented by
    where it fails, if it does. *)
From stdpp Require Import base list gmap strings numbers relations fin_maps.
From Stdlib Require Import ZArith Lia Bool.
From S2P Require Import Prelude Codec RowVersion WalRecovery.

(** ** State *)

Record PageRowMod := mkPageRowMod {
  pm_file_id : Z;
  pm_page_idx : Z;
  pm_row_id : Z;
  pm_element_size : nat;
  pm_values_per_page : Z;
  pm_row_data : list Z;                       (* [u8; 64] *)
  pm_overflow_row_data : option (list Z);
}.

Record Transaction := mkTx {
  tx_id : Z;
  is_read_only : bool;
  read_ts : Z;
  commit_ts : Z;
  modified_rows : list (Z * Z);               (* (row version, row id) *)
  bulk_row_ranges : list (Z * Z * Z);         (* (row version, start, end) *)
  uncommitted_cache : gmap (string * Z) Value;
  modified_page_rows : list PageRowMod;
  rollback_table_bases : gmap string (Z * Z);
  allocated_rows : gmap string (list Z);
  finalized : bool;
}.

Record TransactionManager := mkMgr {
  next_tx_id : Z;
  current_ts : Z;
  committed_tx_count : Z;
  active_tx_ids : gset Z;
  active_read_ts : gmap Z nat;
}.

Definition manager_new : TransactionManager := mkMgr 1 1 0 ∅ ∅.

(** ** Bookkeeping inside a transaction *)

(** [entry(table).or_insert((next_row_id, num_rows))] *)
Definition note_table_write (tx : Transaction) (table : string) (next_row_id num_rows : Z) : Transaction :=
  mkTx (tx_id tx) (is_read_only tx) (read_ts tx) (commit_ts tx) (modified_rows tx)
       (bulk_row_ranges tx) (uncommitted_cache tx) (modified_page_rows tx)
       (match rollback_table_bases tx !! table with
        | Some _ => rollback_table_bases tx
        | None => <[table := (next_row_id, num_rows)]> (rollback_table_bases tx)
        end)
       (allocated_rows tx) (finalized tx).

Definition note_allocated (tx : Transaction) (table : string) (row_id : Z) : Transaction :=
  mkTx (tx_id tx) (is_read_only tx) (read_ts tx) (commit_ts tx) (modified_rows tx)
       (bulk_row_ranges tx) (uncommitted_cache tx) (modified_page_rows tx)
       (rollback_table_bases tx)
       (<[table := default [] (allocated_rows tx !! table) ++ [row_id]]> (allocated_rows tx))
       (finalized tx).

Definition get_from_cache (tx : Transaction) (table : string) (row_id : Z) : option Value :=
  uncommitted_cache tx !! (table, row_id).
Definition add_to_cache (tx : Transaction) (table : string) (row_id : Z) (v : Value) : Transaction :=
  mkTx (tx_id tx) (is_read_only tx) (read_ts tx) (commit_ts tx) (modified_rows tx)
       (bulk_row_ranges tx) (<[(table, row_id) := v]> (uncommitted_cache tx))
       (modified_page_rows tx) (rollback_table_bases tx) (allocated_rows tx) (finalized tx).
Definition cache_contains (tx : Transaction) (table : string) (row_id : Z) : bool :=
  bool_decide (is_Some (uncommitted_cache tx !! (table, row_id))).

(** ** The manager *)

(** [*entry(read_ts).or_insert(0) += 1] *)
Definition add_read_ts (ts : Z) (active : gmap Z nat) : gmap Z nat :=
  <[ts := S (default 0 (active !! ts))]> active.

Definition remove_read_ts (ts : Z) (active : gmap Z nat) : gmap Z nat :=
  match active !! ts with
  | Some count =>
      let count := count - 1 in
      if decide (count = 0) then delete ts active else <[ts := count]> active
  | None => active
  end.

Definition begin_at (m : TransactionManager) (read_only : bool) (snapshot_ts : option Z) :
    TransactionManager * outcome Transaction :=
  if decide (next_tx_id m = u64_MAX) then (m, Err Internal)
  else
    let id := next_tx_id m in
    let ts := match snapshot_ts with Some ts => ts | None => current_ts m end in
    (mkMgr (id + 1) (current_ts m) (committed_tx_count m)
           (if read_only then active_tx_ids m else {[id]} ∪ active_tx_ids m)
           (add_read_ts ts (active_read_ts m)),
     Ok (mkTx id read_only ts 0 [] [] ∅ [] ∅ ∅ false)).

Definition begin_tx (m : TransactionManager) (read_only : bool) :=
  begin_at m read_only None.

(** [active_tx_ids.iter().any(..)], else [values().sum() > 1]. *)
Definition has_other_active (m : TransactionManager) (except_tx_id : Z) : bool :=
  existsb (λ id, bool_decide (id ≠ except_tx_id)) (elements (active_tx_ids m)) ||
  bool_decide (1 < map_fold (λ _ n s, n + s) 0 (active_read_ts m)).

Definition get_min_active_read_ts (m : TransactionManager) : Z :=
  match (map_to_list (active_read_ts m)).*1 with
  | [] => current_ts m
  | k :: ks => foldl Z.min k ks
  end.

Definition restore_counters (m : TransactionManager) (next ts : Z) : TransactionManager :=
  mkMgr (next_tx_id m `max` (next `max` 1)) (current_ts m `max` (ts `max` 1))
        (committed_tx_count m) (active_tx_ids m) (active_read_ts m).

(** The downward search; [fuel] is the number of ids below the next one. *)
Fixpoint watermark_loop (fuel : nat) (active : gset Z) (w : Z) : Z :=
  if decide (w ∈ active) then
    if decide (w = 0)%Z then 0%Z
    else match fuel with O => 0%Z | S fuel => watermark_loop fuel active (w - 1) end
  else w.

Definition resolved_tx_watermark (m : TransactionManager) : Z :=
  if decide (next_tx_id m ≤ 1)%Z then 0%Z
  else watermark_loop (Z.to_nat (next_tx_id m)) (active_tx_ids m) (next_tx_id m - 1).

(** ** Commit *)

(** [current_ts.fetch_update(..)], the commit timestamp of this transaction. *)
Definition commit_take_ts (m : TransactionManager) : TransactionManager * outcome Z :=
  if decide (current_ts m = u64_MAX) then (m, Err Internal)
  else (mkMgr (next_tx_id m) (current_ts m + 1) (committed_tx_count m) (active_tx_ids m)
              (active_read_ts m), Ok (current_ts m + 1)%Z).

(** Row versions by name. *)
Abbreviation row_versions := (gmap Z RowVersion).

Definition commit_versions (tx : Transaction) (ts : Z) (rvs : row_versions) : row_versions :=
  let rvs := foldl (λ rvs r, alter (λ rv, commit_row_batch rv (snd (fst r)) (snd r) ts) (fst (fst r)) rvs)
                   rvs (bulk_row_ranges tx) in
  foldl (λ rvs r, alter (λ rv, commit_row rv (snd r) ts) (fst r) rvs) rvs (modified_rows tx).

Definition rollback_versions (tx : Transaction) (rvs : row_versions) : row_versions :=
  let rvs := foldl (λ rvs r, alter (λ rv, rollback_row rv (snd r)) (fst r) rvs)
                   rvs (modified_rows tx) in
  foldl (λ rvs r, alter (λ rv, rollback_row_batch rv (snd (fst r)) (snd r)) (fst (fst r)) rvs)
        rvs (bulk_row_ranges tx).

(** Row-level merge of a transaction's changes into the latest committed page;
    [row_data[..es]] panics beyond its 64 bytes. *)
Definition apply_row_mod (page : list Z) (m : PageRowMod) : outcome (list Z) :=
  let es := pm_element_size m in
  let vpp := (pm_values_per_page m `max` 1)%Z in
  let offset_in_page := Z.to_nat (pm_row_id m mod vpp) * es in
  if decide (offset_in_page + es ≤ 4096) then
    let* data := slice_get (pm_row_data m) 0 es in
    write_at page offset_in_page data
  else Ok page.

Fixpoint merge_rows (mods : list PageRowMod) (page : list Z) : outcome (list Z) :=
  match mods with
  | [] => Ok page
  | m :: mods => let* page := apply_row_mod page m in merge_rows mods page
  end.

(** Where a commit's storage or log calls report an error, if they do. *)
Inductive commit_fault := NoFault | FaultBeforeTimestamp | FaultBeforeLog | FaultAfterLog.

Definition finish_tx (tx : Transaction) (ts : Z) : Transaction :=
  mkTx (tx_id tx) (is_read_only tx) (read_ts tx) ts (modified_rows tx) (bulk_row_ranges tx)
       (uncommitted_cache tx) (modified_page_rows tx) (rollback_table_bases tx)
       (allocated_rows tx) true.

(** The manager and the row versions after [commit]; an error leaves the
    transaction unfinished. *)
Definition commit_bookkeeping (fault : commit_fault) (m : TransactionManager) (rvs : row_versions)
    (tx : Transaction) : TransactionManager * row_versions * outcome Transaction :=
  if is_read_only tx then
    (mkMgr (next_tx_id m) (current_ts m) (committed_tx_count m) (active_tx_ids m)
           (remove_read_ts (read_ts tx) (active_read_ts m)),
     rvs, Ok (finish_tx tx (commit_ts tx)))
  else
    match fault with
    | FaultBeforeTimestamp => (m, rvs, Err Internal)
    | _ =>
        match commit_take_ts m with
        | (m, Ok ts) =>
            match fault with
            | FaultBeforeLog => (m, commit_versions tx ts rvs, Err Io)
            | _ =>
                let m := mkMgr (next_tx_id m) (current_ts m) (committed_tx_count m + 1)
                               (active_tx_ids m ∖ {[tx_id tx]}) (active_read_ts m) in
                match fault with
                | FaultAfterLog => (m, commit_versions tx ts rvs, Err Io)
                | _ =>
                    (mkMgr (next_tx_id m) (current_ts m) (committed_tx_count m) (active_tx_ids m)
                           (remove_read_ts (read_ts tx) (active_read_ts m)),
                     commit_versions tx ts rvs, Ok (finish_tx tx ts))
                end
            end
        | (m, _) => (m, rvs, Err Internal)
        end
    end.

(** ** Rollback and drop *)

(** [Drop]: a transaction that was neither committed nor rolled back. *)
Definition drop_tx (m : TransactionManager) (tx : Transaction) : TransactionManager :=
  if finalized tx then m
  else mkMgr (next_tx_id m) (current_ts m) (committed_tx_count m)
             (if is_read_only tx then active_tx_ids m else active_tx_ids m ∖ {[tx_id tx]})
             (remove_read_ts (read_ts tx) (active_read_ts m)).

(** Row-id high-water marks and catalog row counts, per table. *)
Record Tables := mkTables { t_next_row_id : gmap string Z; t_num_rows : gmap string Z }.

Definition restore_bases (bases : gmap string (Z * Z)) (t : Tables) : Tables :=
  map_fold (λ name base t,
      mkTables (alter (λ _, fst base) name (t_next_row_id t))
               (alter (λ _, snd base) name (t_num_rows t))) t bases.

(** [undo_ok] is the result of the undo buffer.  With another writer active the
    allocated rows are tombstoned by a cleanup transaction, which begins and
    commits. *)
Definition rollback (undo_ok : bool) (m : TransactionManager) (rvs : row_versions) (t : Tables)
    (tx : Transaction) : TransactionManager * row_versions * Tables * outcome Transaction :=
  let close m := mkMgr (next_tx_id m) (current_ts m) (committed_tx_count m) (active_tx_ids m)
                       (remove_read_ts (read_ts tx) (active_read_ts m)) in
  if is_read_only tx then (close m, rvs, t, Ok (finish_tx tx (commit_ts tx)))
  else if negb undo_ok then (m, rvs, t, Err Internal)
  else
    let rvs := rollback_versions tx rvs in
    let m := mkMgr (next_tx_id m) (current_ts m) (committed_tx_count m)
                   (active_tx_ids m ∖ {[tx_id tx]}) (active_read_ts m) in
    let '(m, t) :=
      if decide (rollback_table_bases tx = ∅) then (m, t)
      else if decide (active_tx_ids m = ∅) then (m, restore_bases (rollback_table_bases tx) t)
      else if decide (allocated_rows tx = ∅) then (m, t)
      else match begin_tx m false with
           | (m, Ok cleanup) =>
               match commit_bookkeeping NoFault m rvs cleanup with
               | (m, _, Ok _) => (m, t)
               | (m, _, _) => (drop_tx m cleanup, t)
               end
           | (m, _) => (m, t)
           end in
    (close m, rvs, t, Ok (finish_tx tx (commit_ts tx))).

(** ** Active snapshots *)

(** Number of registered readers. *)
Definition total_readers (active : gmap Z nat) : nat := map_fold (λ _ n s, n + s) 0 active.

Lemma total_split ts active :
  total_readers active = default 0 (active !! ts) + total_readers (delete ts active).
Proof.
  unfold total_readers. destruct (active !! ts) as [n|] eqn:E; simpl.
  - apply (map_fold_delete_L (λ _ n s, n + s)); [intros; lia|done].
  - by rewrite delete_id.
Qed.

Lemma total_add ts active : total_readers (add_read_ts ts active) = S (total_readers active).
Proof.
  rewrite (total_split ts active), (total_split ts (add_read_ts ts active)).
  unfold add_read_ts. rewrite lookup_insert_eq, delete_insert_eq. simpl. lia.
Qed.

Lemma lookup_add_read_ts ts ts' active :
  default 0 (add_read_ts ts active !! ts') =
  default 0 (active !! ts') + (if decide (ts = ts') then 1 else 0).
Proof.
  unfold add_read_ts. destruct (decide (ts = ts')) as [<-|].
  - rewrite lookup_insert_eq. simpl. lia.
  - rewrite lookup_insert_ne by done. lia.
Qed.

Definition no_zero (active : gmap Z nat) : Prop := ∀ ts n, active !! ts = Some n → 0 < n.

Lemma lookup_remove_read_ts ts ts' active :
  default 0 (remove_read_ts ts active !! ts') =
  default 0 (active !! ts') - (if decide (ts = ts') then 1 else 0).
Proof.
  unfold remove_read_ts. destruct (active !! ts) as [n|] eqn:E; simpl.
  - destruct (decide (ts = ts')) as [<-|]; destruct (decide (n - 1 = 0)).
    + rewrite lookup_delete_eq, E. simpl. lia.
    + rewrite lookup_insert_eq, E. done.
    + rewrite lookup_delete_ne by done. lia.
    + rewrite lookup_insert_ne by done. lia.
  - destruct (decide (ts = ts')) as [<-|]; [by rewrite E|lia].
Qed.

Lemma no_zero_add ts active : no_zero active → no_zero (add_read_ts ts active).
Proof.
  intros H t n. unfold add_read_ts. rewrite lookup_insert_Some.
  intros [[<- <-]|[_ Hn]]; [lia|by eapply H].
Qed.

Lemma no_zero_remove ts active : no_zero active → no_zero (remove_read_ts ts active).
Proof.
  intros H t n. unfold remove_read_ts. destruct (active !! ts) as [k|]; [|apply H].
  destruct (decide (k - 1 = 0)).
  - rewrite lookup_delete_Some. intros [_ ?]. by eapply H.
  - rewrite lookup_insert_Some. intros [[<- <-]|[_ ?]]; [lia|by eapply H].
Qed.

Lemma total_remove ts active :
  total_readers (remove_read_ts ts active) =
  total_readers active - (if decide (active !! ts = None) then 0 else default 0 (active !! ts) `min` 1).
Proof.
  unfold remove_read_ts. destruct (active !! ts) as [n|] eqn:E; simpl; [|by rewrite Nat.sub_0_r].
  rewrite (total_split ts active), E. simpl. destruct (decide (n - 1 = 0)).
  - lia.
  - rewrite (total_split ts (<[ts:=_]> _)), lookup_insert_eq, delete_insert_eq. simpl. lia.
Qed.

(** The smallest registered snapshot. *)
Lemma foldl_min_le k ks x : x ∈ k :: ks → (foldl Z.min k ks ≤ x)%Z.
Proof.
  revert k x. induction ks as [|y ks IH]; intros k x; simpl.
  - intros ->%list_elem_of_singleton. lia.
  - intros H. assert (foldl Z.min (k `min` y) ks ≤ k `min` y)%Z by (apply IH; left).
    rewrite !elem_of_cons in H. destruct H as [->|[->|H]]; [lia..|]. apply IH. by right.
Qed.

Lemma min_active_le m ts n : active_read_ts m !! ts = Some n → (get_min_active_read_ts m ≤ ts)%Z.
Proof.
  intros H. unfold get_min_active_read_ts.
  assert (ts ∈ (map_to_list (active_read_ts m)).*1) as Hin.
  { apply list_elem_of_fmap. exists (ts, n). split; [done|]. by apply elem_of_map_to_list. }
  destruct ((map_to_list (active_read_ts m)).*1) as [|k ks]; [by apply elem_of_nil in Hin|].
  by apply foldl_min_le.
Qed.

(** ** The system of transactions

    [s_live] holds every transaction that was begun and whose handle is neither
    finished nor dropped. *)
Record Sys := mkSys {
  s_mgr : TransactionManager;
  s_live : gmap Z Transaction;
  s_rvs : row_versions;
  s_tables : Tables;
}.

Definition same_identity (a b : Transaction) : Prop :=
  tx_id a = tx_id b ∧ is_read_only a = is_read_only b ∧ read_ts a = read_ts b ∧
  finalized a = finalized b.

(** What a working transaction does to row versions: [mark_row] under its own
    id and snapshot, [mark_row_batch] under its own id (the calls in dml.rs,
    column.rs and storage_manager.rs). *)
Definition work_op (tx : Transaction) (o : rv_op) : bool :=
  match o with
  | OpMark _ t ts => bool_decide (t = tx_id tx ∧ ts = read_ts tx)
  | OpMarkBatch _ _ t => bool_decide (t = tx_id tx)
  | _ => false
  end.

(** Tables may come and go; one that is new starts with [RowVersion::new()]. *)
Definition rvs_work (tx : Transaction) (rvs rvs' : row_versions) : Prop :=
  ∀ k rv', rvs' !! k = Some rv' →
    ∃ ops, Forall (λ o, work_op tx o = true) ops ∧
      rv' = foldl (λ rv o, rv_exec o rv) (default row_version_new (rvs !! k)) ops.

Inductive sys_step : Sys → Sys → Prop :=
| step_begin s ro snap m' tx :
    begin_at (s_mgr s) ro snap = (m', Ok tx) →
    sys_step s (mkSys m' (<[tx_id tx := tx]> (s_live s)) (s_rvs s) (s_tables s))
| step_work s t tx tx' rvs' tb' :
    (* reads, writes and bookkeeping of one transaction *)
    s_live s !! t = Some tx → same_identity tx tx' → rvs_work tx (s_rvs s) rvs' →
    sys_step s (mkSys (s_mgr s) (<[t := tx']> (s_live s)) rvs' tb')
| step_commit s t tx fault m' rvs' tx' :
    s_live s !! t = Some tx → commit_bookkeeping fault (s_mgr s) (s_rvs s) tx = (m', rvs', Ok tx') →
    sys_step s (mkSys m' (delete t (s_live s)) rvs' (s_tables s))
| step_commit_fails s t tx fault m' rvs' e :
    s_live s !! t = Some tx → commit_bookkeeping fault (s_mgr s) (s_rvs s) tx = (m', rvs', Err e) →
    sys_step s (mkSys m' (s_live s) rvs' (s_tables s))
| step_rollback s t tx m' rvs' tb' tx' :
    s_live s !! t = Some tx →
    rollback true (s_mgr s) (s_rvs s) (s_tables s) tx = (m', rvs', tb', Ok tx') →
    sys_step s (mkSys m' (delete t (s_live s)) rvs' tb')
| step_drop s t tx :
    s_live s !! t = Some tx →
    sys_step s (mkSys (drop_tx (s_mgr s) tx) (delete t (s_live s)) (s_rvs s) (s_tables s))
| step_vacuum s :
    (* the row-version part of a checkpoint, in every table *)
    sys_step s (mkSys (s_mgr s) (s_live s)
                  ((λ rv, fst (vacuum rv (get_min_active_read_ts (s_mgr s)))) <$> s_rvs s) (s_tables s)).

Definition sys_init (rvs : row_versions) (tb : Tables) : Sys := mkSys manager_new ∅ rvs tb.

(** Live transactions reading at [ts]. *)
Definition live_at (ts : Z) (live : gmap Z Transaction) : nat :=
  size (filter (λ p : Z * Transaction, read_ts (snd p) = ts) live).

Record sys_inv (s : Sys) : Prop := {
  si_live : ∀ t tx, s_live s !! t = Some tx →
    tx_id tx = t ∧ (1 ≤ t < next_tx_id (s_mgr s))%Z ∧ finalized tx = false;
  si_active : ∀ t, t ∈ active_tx_ids (s_mgr s) →
    ∃ tx, s_live s !! t = Some tx ∧ is_read_only tx = false;
  si_readers : ∀ ts, default 0 (active_read_ts (s_mgr s) !! ts) = live_at ts (s_live s);
  si_nonzero : no_zero (active_read_ts (s_mgr s));
  si_total : total_readers (active_read_ts (s_mgr s)) = size (s_live s);
  si_next : (1 ≤ next_tx_id (s_mgr s))%Z;
}.

Lemma live_at_insert ts t tx live :
  live !! t = None →
  live_at ts (<[t := tx]> live) = live_at ts live + (if decide (read_ts tx = ts) then 1 else 0).
Proof.
  intros Ht. unfold live_at. rewrite map_filter_insert. simpl. case_decide.
  - rewrite map_size_insert_None; [lia|]. rewrite map_lookup_filter_None. auto.
  - rewrite delete_id by done. lia.
Qed.

Lemma live_at_delete ts t tx live :
  live !! t = Some tx →
  live_at ts live = live_at ts (delete t live) + (if decide (read_ts tx = ts) then 1 else 0).
Proof.
  intros Ht. rewrite <- (insert_delete_id live t tx) at 1 by done.
  apply live_at_insert, lookup_delete_eq.
Qed.

Lemma live_at_pos t tx live : live !! t = Some tx → 0 < live_at (read_ts tx) live.
Proof. intros Ht. rewrite (live_at_delete _ t tx) by done. rewrite decide_True by done. lia. Qed.

Lemma live_at_same ts t tx tx' live :
  live !! t = Some tx → read_ts tx = read_ts tx' → live_at ts (<[t := tx']> live) = live_at ts live.
Proof.
  intros Ht E. rewrite <- insert_delete_eq, live_at_insert by apply lookup_delete_eq.
  by rewrite (live_at_delete ts t tx live), E.
Qed.

(** A manager that only forgets a reader of a live transaction. *)
Lemma sys_inv_close s t tx m' rvs tb :
  sys_inv s → s_live s !! t = Some tx →
  (next_tx_id (s_mgr s) ≤ next_tx_id m')%Z →
  active_tx_ids m' ⊆ active_tx_ids (s_mgr s) ∖ {[t]} ∨
    (is_read_only tx = true ∧ active_tx_ids m' = active_tx_ids (s_mgr s)) →
  active_read_ts m' = remove_read_ts (read_ts tx) (active_read_ts (s_mgr s)) →
  sys_inv (mkSys m' (delete t (s_live s)) rvs tb).
Proof.
  intros [Hl Ha Hr Hz Ht Hn] Htx Hnext Hact Hread. split; simpl.
  - intros u ux. rewrite lookup_delete_Some. intros [_ Hu]. apply Hl in Hu as (? & ? & ?).
    split_and!; [done|lia..|done].
  - intros u Hu. destruct Hact as [Hsub|[Hro Hsame]].
    + apply Hsub, elem_of_difference in Hu as [Hu Hne]. destruct (Ha u Hu) as (ux & Hux & Hw).
      exists ux. rewrite lookup_delete_ne by set_solver. done.
    + rewrite Hsame in Hu. destruct (Ha u Hu) as (ux & Hux & Hw). exists ux.
      rewrite lookup_delete_ne; [done|]. intros ->. congruence.
  - intros ts. rewrite Hread, lookup_remove_read_ts, Hr, (live_at_delete ts t tx) by done. lia.
  - rewrite Hread. by apply no_zero_remove.
  - rewrite Hread, total_remove, Ht. pose proof (live_at_pos t tx _ Htx) as Hpos.
    rewrite <- Hr in Hpos. destruct (active_read_ts (s_mgr s) !! read_ts tx) as [n|] eqn:E; [|simpl in Hpos; lia].
    rewrite decide_False by done. simpl in *. rewrite map_size_delete, Htx. lia.
  - lia.
Qed.

Lemma remove_add_read_ts ts active : no_zero active → remove_read_ts ts (add_read_ts ts active) = active.
Proof.
  intros Hz. unfold remove_read_ts, add_read_ts. rewrite lookup_insert_eq.
  destruct (active !! ts) as [n|] eqn:E; simpl.
  - specialize (Hz _ _ E). rewrite decide_False by lia. rewrite Nat.sub_0_r.
    rewrite insert_insert_eq. by apply insert_id.
  - by rewrite delete_insert_id.
Qed.

(** A cleanup transaction begins and ends: only the counters move. *)
Lemma cleanup_mgr m rvs m1 cl m2 :
  no_zero (active_read_ts m) → next_tx_id m ∉ active_tx_ids m →
  begin_tx m false = (m1, Ok cl) →
  m2 = match commit_bookkeeping NoFault m1 rvs cl with (m', _, Ok _) => m' | (m', _, _) => drop_tx m' cl end →
  (next_tx_id m ≤ next_tx_id m2)%Z ∧ active_tx_ids m2 = active_tx_ids m ∧
  active_read_ts m2 = active_read_ts m ∧ (current_ts m ≤ current_ts m2)%Z.
Proof.
  unfold begin_tx, begin_at. intros Hz Hni. destruct (decide _); [done|]. intros [= <- <-].
  assert (({[next_tx_id m]} ∪ active_tx_ids m) ∖ {[next_tx_id m]} = active_tx_ids m) as Ea
    by set_solver.
  unfold commit_bookkeeping, commit_take_ts. cbn [is_read_only current_ts].
  destruct (decide (current_ts m = u64_MAX)); intros ->; unfold drop_tx; cbn;
    rewrite Ea, remove_add_read_ts by done; split_and!; done || lia.
Qed.

Lemma rollback_mgr m rvs tb tx m' rvs' tb' tx' :
  no_zero (active_read_ts m) → next_tx_id m ∉ active_tx_ids m →
  rollback true m rvs tb tx = (m', rvs', tb', Ok tx') →
  (next_tx_id m ≤ next_tx_id m')%Z ∧ (current_ts m ≤ current_ts m')%Z ∧
  active_read_ts m' = remove_read_ts (read_ts tx) (active_read_ts m) ∧
  active_tx_ids m' = if is_read_only tx then active_tx_ids m else active_tx_ids m ∖ {[tx_id tx]}.
Proof.
  intros Hz Hni. unfold rollback. destruct (is_read_only tx).
  { intros [= <- _ _ _]. simpl. split_and!; done || lia. }
  cbn [negb]. set (m0 := mkMgr _ _ _ (active_tx_ids m ∖ {[tx_id tx]}) _).
  destruct (decide (rollback_table_bases tx = ∅)).
  { intros [= <- _ _ _]. simpl. split_and!; done || lia. }
  destruct (decide (active_tx_ids m0 = ∅)).
  { intros [= <- _ _ _]. simpl. split_and!; done || lia. }
  destruct (decide (allocated_rows tx = ∅)).
  { intros [= <- _ _ _]. simpl. split_and!; done || lia. }
  destruct (begin_tx m0 false) as [m1 [cl|e|]] eqn:Eb.
  - pose proof (cleanup_mgr m0 (rollback_versions tx rvs) m1 cl _ Hz ltac:(set_solver) Eb eq_refl)
      as (H1 & H2 & H3 & H4).
    destruct (commit_bookkeeping NoFault m1 (rollback_versions tx rvs) cl) as [[m2 r2] [o|e|]];
      intros [= <- _ _ _]; simpl; rewrite H3; simpl in *; split_and!; done || lia.
  - unfold begin_tx, begin_at in Eb. destruct (decide _); [|done].
    simplify_eq. intros [= <- _ _ _]. simpl. split_and!; done || lia.
  - unfold begin_tx, begin_at in Eb. by destruct (decide _).
Qed.

(** What a commit does to the manager, on success and on failure. *)
Lemma commit_mgr fault m rvs tx m' rvs' tx' :
  commit_bookkeeping fault m rvs tx = (m', rvs', Ok tx') →
  (next_tx_id m ≤ next_tx_id m')%Z ∧
  (if is_read_only tx then current_ts m' = current_ts m ∧ commit_ts tx' = commit_ts tx
   else current_ts m' = (current_ts m + 1)%Z ∧ commit_ts tx' = current_ts m') ∧
  active_read_ts m' = remove_read_ts (read_ts tx) (active_read_ts m) ∧
  active_tx_ids m' = if is_read_only tx then active_tx_ids m else active_tx_ids m ∖ {[tx_id tx]}.
Proof.
  unfold commit_bookkeeping. destruct (is_read_only tx).
  { intros [= <- _ <-]. simpl. split_and!; done || lia. }
  destruct fault; try done; unfold commit_take_ts; destruct (decide _); try done.
  intros [= <- _ <-]. simpl. split_and!; done || lia.
Qed.

Lemma commit_fails_mgr fault m rvs tx m' rvs' e :
  commit_bookkeeping fault m rvs tx = (m', rvs', Err e) →
  (next_tx_id m ≤ next_tx_id m')%Z ∧ (current_ts m ≤ current_ts m')%Z ∧
  active_read_ts m' = active_read_ts m ∧ active_tx_ids m' ⊆ active_tx_ids m.
Proof.
  unfold commit_bookkeeping. destruct (is_read_only tx); [done|].
  destruct fault; unfold commit_take_ts; try destruct (decide _); intros [= <- _ _];
    simpl; split_and!; set_solver || lia.
Qed.

Lemma sys_inv_begin s ro snap m' tx rvs tb :
  sys_inv s → begin_at (s_mgr s) ro snap = (m', Ok tx) →
  sys_inv (mkSys m' (<[tx_id tx := tx]> (s_live s)) rvs tb).
Proof.
  intros [Hl Ha Hr Hz Ht Hn] Hb. unfold begin_at in Hb. destruct (decide _); [done|]. simplify_eq.
  assert (s_live s !! next_tx_id (s_mgr s) = None) as Hnone.
  { destruct (s_live s !! _) eqn:E; [|done]. apply Hl in E. lia. }
  split; cbn [s_mgr s_live tx_id next_tx_id active_tx_ids active_read_ts].
  - intros t tx. rewrite lookup_insert_Some. intros [[<- <-]|[_ Hu]]; simpl; [split_and!; done || lia|].
    apply Hl in Hu as (? & ? & ?). split_and!; done || lia.
  - intros t Hin. destruct (decide (t = next_tx_id (s_mgr s))) as [->|Hne].
    + eexists. rewrite lookup_insert_eq. split; [done|]. simpl. destruct ro; [|done].
      destruct (Ha _ Hin) as (ux & Hux & _). congruence.
    + assert (t ∈ active_tx_ids (s_mgr s)) as Hin' by (destruct ro; set_solver).
      destruct (Ha t Hin') as (ux & Hux & Hw). exists ux. by rewrite lookup_insert_ne.
  - intros ts. rewrite lookup_add_read_ts, Hr, live_at_insert by done. done.
  - by apply no_zero_add.
  - by rewrite total_add, Ht, map_size_insert_None.
  - lia.
Qed.

Lemma sys_inv_work s t tx tx' rvs tb :
  sys_inv s → s_live s !! t = Some tx → same_identity tx tx' →
  sys_inv (mkSys (s_mgr s) (<[t := tx']> (s_live s)) rvs tb).
Proof.
  intros [Hl Ha Hr Hz Ht Hn] Htx (E1 & E2 & E3 & E4). split; cbn [s_mgr s_live]; try done.
  - intros u ux. rewrite lookup_insert_Some. intros [[<- <-]|[_ Hu]]; [|by apply Hl].
    apply Hl in Htx. rewrite <- E1, <- E4. done.
  - intros u Hu. destruct (Ha u Hu) as (ux & Hux & Hw). destruct (decide (t = u)) as [<-|].
    + exists tx'. rewrite lookup_insert_eq. split; [done|]. congruence.
    + exists ux. by rewrite lookup_insert_ne.
  - intros ts. rewrite Hr. by rewrite (live_at_same ts t tx tx').
  - by rewrite Ht, map_size_insert_Some by eauto.
Qed.

Lemma sys_step_inv s s' : sys_step s s' → sys_inv s → sys_inv s'.
Proof.
  intros Hstep Hinv. pose proof Hinv as [Hl Ha Hr Hz Ht Hn].
  assert (next_tx_id (s_mgr s) ∉ active_tx_ids (s_mgr s)) as Hfresh.
  { intros Hin. destruct (Ha _ Hin) as (tx & Htx & _). apply Hl in Htx. lia. }
  destruct Hstep as [s ro snap m' tx Hb|s t tx tx' rvs' tb' Htx Hsame _
    |s t tx fault m' rvs' tx' Htx Hc|s t tx fault m' rvs' e Htx Hc|s t tx m' rvs' tb' tx' Htx Hrb
    |s t tx Htx|s].
  - by eapply sys_inv_begin.
  - by eapply sys_inv_work.
  - destruct (Hl _ _ Htx) as (<- & _). apply commit_mgr in Hc as (H1 & _ & H3 & H4).
    apply (sys_inv_close s (tx_id tx) tx); try done.
    destruct (is_read_only tx); [by right|left]. by rewrite H4.
  - apply commit_fails_mgr in Hc as (H1 & _ & H3 & H4).
    split; cbn [s_mgr s_live]; rewrite ?H3; try done; [|by intros u Hu; apply Ha, H4|lia].
    intros u ux Hu. apply Hl in Hu as (? & ? & ?). split_and!; done || lia.
  - destruct (Hl _ _ Htx) as (<- & _). apply rollback_mgr in Hrb as (H1 & _ & H3 & H4); [|done..].
    apply (sys_inv_close s (tx_id tx) tx); try done.
    destruct (is_read_only tx); [by right|left]. by rewrite H4.
  - destruct (Hl _ _ Htx) as (<- & _ & Hfin).
    apply (sys_inv_close s (tx_id tx) tx); unfold drop_tx; rewrite ?Hfin; simpl; try done.
    destruct (is_read_only tx); [by right|by left].
  - by split.
Qed.

Lemma sys_init_inv rvs tb : sys_inv (sys_init rvs tb).
Proof. split; simpl; set_solver || done. Qed.

Lemma sys_reachable_inv rvs tb s : rtc sys_step (sys_init rvs tb) s → sys_inv s.
Proof. revert s. apply rtc_ind_r; [apply sys_init_inv|eauto using sys_step_inv]. Qed.

(** ** What the manager promises *)

Lemma live_registered s t tx :
  sys_inv s → s_live s !! t = Some tx → is_Some (active_read_ts (s_mgr s) !! read_ts tx).
Proof.
  intros [_ _ Hr _ _ _] Htx. pose proof (live_at_pos t tx _ Htx) as H. rewrite <- Hr in H.
  destruct (active_read_ts (s_mgr s) !! read_ts tx); [done|simpl in H; lia].
Qed.

(** *** The row versions of a running system *)

Abbreviation rvs_ordered := (map_Forall (λ _, rv_ordered)).

Lemma rvs_alter_ordered (f : RowVersion → RowVersion) k (rvs : row_versions) :
  (∀ rv, rv_ordered rv → rv_ordered (f rv)) → rvs_ordered rvs → rvs_ordered (alter f k rvs).
Proof.
  intros Hf H k' rv. rewrite lookup_alter_Some.
  intros [(<- & rv0 & H0 & ->)|[_ H0]]; [apply Hf|]; by eapply H.
Qed.

Lemma rvs_alters_ordered {A} (f : A → RowVersion → RowVersion) (k : A → Z) l (rvs : row_versions) :
  (∀ a rv, rv_ordered rv → rv_ordered (f a rv)) → rvs_ordered rvs →
  rvs_ordered (foldl (λ rvs a, alter (f a) (k a) rvs) rvs l).
Proof.
  intros Hf. revert rvs. induction l as [|a l IH]; intros rvs H; simpl; [done|].
  apply IH, rvs_alter_ordered; [|done]. apply Hf.
Qed.

Lemma commit_versions_ordered tx ts rvs : rvs_ordered rvs → rvs_ordered (commit_versions tx ts rvs).
Proof.
  intros H. unfold commit_versions.
  apply (rvs_alters_ordered (λ r rv, commit_row rv (snd r) ts) fst).
  { intros r rv. apply (rv_exec_ordered (OpCommit (snd r) ts)). }
  apply (rvs_alters_ordered (λ r rv, commit_row_batch rv (snd (fst r)) (snd r) ts) (λ r, fst (fst r)));
    [|done].
  intros r rv. apply (rv_exec_ordered (OpCommitBatch (snd (fst r)) (snd r) ts)).
Qed.

Lemma rollback_versions_ordered tx rvs : rvs_ordered rvs → rvs_ordered (rollback_versions tx rvs).
Proof.
  intros H. unfold rollback_versions.
  apply (rvs_alters_ordered (λ r rv, rollback_row_batch rv (snd (fst r)) (snd r)) (λ r, fst (fst r))).
  { intros r rv. apply (rv_exec_ordered (OpRollbackBatch (snd (fst r)) (snd r))). }
  apply (rvs_alters_ordered (λ r rv, rollback_row rv (snd r)) fst); [|done].
  intros r rv. apply (rv_exec_ordered (OpRollback (snd r))).
Qed.

Lemma commit_rvs fault m rvs tx m' rvs' o :
  commit_bookkeeping fault m rvs tx = (m', rvs', o) → rvs_ordered rvs → rvs_ordered rvs'.
Proof.
  unfold commit_bookkeeping. intros Hc H.
  repeat case_match; simplify_eq; eauto using commit_versions_ordered.
Qed.

Lemma rollback_rvs ok m rvs t tx m' rvs' t' o :
  rollback ok m rvs t tx = (m', rvs', t', o) → rvs_ordered rvs → rvs_ordered rvs'.
Proof.
  unfold rollback. intros Hc H.
  repeat case_match; simplify_eq; eauto using rollback_versions_ordered.
Qed.

Lemma sys_step_rvs s s' : sys_step s s' → rvs_ordered (s_rvs s) → rvs_ordered (s_rvs s').
Proof.
  intros Hstep Hord. destruct Hstep as [s ro snap m' tx Hb|s t tx tx' rvs' tb' Htx _ Hw
    |s t tx fault m' rvs' tx' Htx Hc|s t tx fault m' rvs' e Htx Hc|s t tx m' rvs' tb' tx' Htx Hrb
    |s t tx Htx|s]; cbn [s_rvs] in *; try done; eauto using commit_rvs, rollback_rvs.
  - intros k rv' Hk. destruct (Hw k rv' Hk) as (ops & _ & ->).
    apply rv_execs_ordered. destruct (s_rvs s !! k) eqn:E; [by eapply Hord|apply rv_new_ordered].
  - intros k rv'. rewrite lookup_fmap_Some. intros (rv & <- & Hk).
    apply (rv_exec_ordered (OpVacuum _)). by eapply Hord.
Qed.

(** Tables are opened with [RowVersion::new()]. *)
Abbreviation rvs_fresh := (map_Forall (λ _ rv, rv = row_version_new)).

Lemma sys_reachable_rvs rvs tb s :
  rvs_fresh rvs → rtc sys_step (sys_init rvs tb) s → rvs_ordered (s_rvs s).
Proof.
  intros Hf. revert s. apply rtc_ind_r; [|eauto using sys_step_rvs].
  intros k rv Hk. rewrite (Hf k rv Hk). apply rv_new_ordered.
Qed.

(** C28. What a vacuum does to live transactions: whatever transactions (and
    earlier vacuums) did since the database was opened, the horizon
    [get_min_active_read_ts] that a checkpoint hands to [vacuum] is at most
    the snapshot of every live transaction, and for every live transaction and
    every row of every table, vacuuming the table's row versions there leaves
    the answer of [mark_row] as it was and the answer of [is_visible] as it
    was, with one exception that it describes exactly: a row which another
    transaction holds and whose commits are all older than the horizon is not
    visible after the vacuum, whatever it was before. *)
Theorem vacuum_live_view rvs tb s t tx k rv r :
  rvs_fresh rvs → rtc sys_step (sys_init rvs tb) s →
  s_live s !! t = Some tx → s_rvs s !! k = Some rv →
  let m := get_min_active_read_ts (s_mgr s) in
  let rv' := fst (vacuum rv m) in
  (m ≤ read_ts tx)%Z ∧
  snd (mark_row rv' r t (read_ts tx)) = snd (mark_row rv r t (read_ts tx)) ∧
  (∀ other e, view rv r = mkCell (Some other) (Some e) → other ≠ t → (last_ts e < m)%Z →
     is_visible rv' r t (read_ts tx) = false) ∧
  ((∀ other e, view rv r = mkCell (Some other) (Some e) → other = t ∨ (m ≤ last_ts e)%Z) →
     is_visible rv' r t (read_ts tx) = is_visible rv r t (read_ts tx)).
Proof.
  intros Hf Hreach Htx Hk m rv'.
  destruct (live_registered s t tx (sys_reachable_inv _ _ _ Hreach) Htx) as [n Hn].
  assert (m ≤ read_ts tx)%Z as Hm by (by eapply min_active_le).
  pose proof (sys_reachable_rvs _ _ _ Hf Hreach k rv Hk) as Hord. cbv beta in Hord.
  split_and!; [done|by apply vacuum_verdict|..]; unfold rv'; rewrite vacuum_visible by done;
    unfold reclaimed_under_writer.
  - intros other e -> Hne He. simpl. rewrite !bool_decide_true by done. apply andb_false_r.
  - intros H. destruct (view rv r) as [[other|] [e|]]; simpl; rewrite ?andb_true_r; try done.
    destruct (H other e eq_refl) as [->|He].
    + rewrite bool_decide_false by tauto. apply andb_true_r.
    + rewrite (bool_decide_false (last_ts e < m)%Z), andb_false_r by lia. apply andb_true_r.
Qed.

(** [has_other_active], asked by a live transaction, is true exactly when
    some other transaction, reader or writer, is live: maintenance that it
    admits runs alone. *)
Theorem has_other_active_correct rvs tb s t tx :
  rtc sys_step (sys_init rvs tb) s → s_live s !! t = Some tx →
  has_other_active (s_mgr s) t = true ↔ ∃ u, u ≠ t ∧ is_Some (s_live s !! u).
Proof.
  intros Hreach Htx. pose proof (sys_reachable_inv _ _ _ Hreach) as [Hl Ha Hr Hz Ht Hn].
  assert (size (s_live s) = S (size (delete t (s_live s)))) as Hsz.
  { rewrite map_size_delete, Htx. assert (size (s_live s) ≠ 0); [|lia].
    rewrite map_size_ne_0_lookup. eauto. }
  unfold has_other_active. fold (total_readers (active_read_ts (s_mgr s))).
  rewrite Ht, orb_true_iff, bool_decide_eq_true, existsb_exists. split.
  - intros [(u & Hu & Hne)|Hlt].
    + apply bool_decide_eq_true in Hne. exists u. split; [done|].
      apply list_elem_of_In, elem_of_elements in Hu. destruct (Ha u Hu) as (ux & Hux & _). eauto.
    + assert (size (delete t (s_live s)) ≠ 0) as H0 by lia.
      apply map_size_ne_0_lookup in H0 as (u & ux & Hux%lookup_delete_Some). naive_solver.
  - intros (u & Hne & ux & Hux). right.
    assert (size (delete t (s_live s)) ≠ 0); [|lia].
    apply map_size_ne_0_lookup. exists u, ux. by rewrite lookup_delete_ne.
Qed.

Lemma sys_step_clock s s' :
  sys_step s s' → sys_inv s →
  (current_ts (s_mgr s) ≤ current_ts (s_mgr s'))%Z ∧ (next_tx_id (s_mgr s) ≤ next_tx_id (s_mgr s'))%Z.
Proof.
  intros Hstep Hinv. pose proof Hinv as [Hl Ha Hr Hz Ht Hn].
  assert (next_tx_id (s_mgr s) ∉ active_tx_ids (s_mgr s)) as Hfresh.
  { intros Hin. destruct (Ha _ Hin) as (tx & Htx & _). apply Hl in Htx. lia. }
  destruct Hstep as [s ro snap m' tx Hb|s t tx tx' rvs' tb' Htx _ _
    |s t tx fault m' rvs' tx' Htx Hc|s t tx fault m' rvs' e Htx Hc|s t tx m' rvs' tb' tx' Htx Hrb
    |s t tx Htx|s]; cbn [s_mgr].
  - unfold begin_at in Hb. destruct (decide _); [done|]. simplify_eq. simpl. lia.
  - lia.
  - apply commit_mgr in Hc as (H1 & H2 & _). split; [|done]. destruct (is_read_only tx); lia.
  - apply commit_fails_mgr in Hc as (H1 & H2 & _). done.
  - apply rollback_mgr in Hrb as (H1 & H2 & _); done.
  - unfold drop_tx. destruct (finalized tx); simpl; lia.
  - lia.
Qed.

Lemma sys_run_clock s s' :
  rtc sys_step s s' → sys_inv s →
  (current_ts (s_mgr s) ≤ current_ts (s_mgr s'))%Z ∧ (next_tx_id (s_mgr s) ≤ next_tx_id (s_mgr s'))%Z.
Proof.
  induction 1 as [s|s s1 s2 Hstep Hrun IH]; intros Hinv; [lia|].
  pose proof (sys_step_clock _ _ Hstep Hinv). pose proof (IH (sys_step_inv _ _ Hstep Hinv)). lia.
Qed.

(** Commit timestamps and transaction ids only grow: whatever happens
    between two points of a run, a write commit after it gets a timestamp above
    every snapshot taken from the clock before it, and a transaction begun
    after it gets an id that no transaction had. *)
Theorem timestamps_increase rvs tb s1 s2 t tx m' rvs' tx' :
  rtc sys_step (sys_init rvs tb) s1 → rtc sys_step s1 s2 →
  s_live s2 !! t = Some tx → is_read_only tx = false →
  commit_bookkeeping NoFault (s_mgr s2) (s_rvs s2) tx = (m', rvs', Ok tx') →
  (current_ts (s_mgr s1) < commit_ts tx')%Z ∧ commit_ts tx' = current_ts m' ∧
  ∀ u ux, s_live s1 !! u = Some ux → (u < next_tx_id (s_mgr s2))%Z.
Proof.
  intros H1 H2 Htx Hro Hc. pose proof (sys_reachable_inv _ _ _ H1) as Hinv.
  destruct (sys_run_clock _ _ H2 Hinv). apply commit_mgr in Hc as (_ & Hts & _).
  rewrite Hro in Hts. destruct Hts as [Hts ->]. split_and!; [lia|done|].
  intros u ux Hu. destruct Hinv as [Hl _ _ _ _ _]. apply Hl in Hu. lia.
Qed.

(** ** The recovery watermark *)

Lemma watermark_loop_spec fuel active w :
  (∀ u, u ∈ active → 1 ≤ u)%Z → (0 ≤ w ≤ Z.of_nat fuel)%Z →
  let r := watermark_loop fuel active w in
  (0 ≤ r ≤ w)%Z ∧ r ∉ active ∧ (∀ u, r < u ≤ w → u ∈ active)%Z.
Proof.
  intros Hpos. revert w. induction fuel as [|fuel IH]; intros w Hw; simpl.
  - destruct (decide (w ∈ active)) as [Hin|]; [apply Hpos in Hin; lia|].
    split_and!; [lia..|done|lia].
  - destruct (decide (w ∈ active)) as [Hin|]; [|split_and!; [lia..|done|lia]].
    destruct (decide (w = 0)%Z) as [->|]; [apply Hpos in Hin; lia|].
    destruct (IH (w - 1)%Z ltac:(lia)) as (H1 & H2 & H3).
    split_and!; [lia..|done|]. intros u Hu. destruct (decide (u = w)) as [->|]; [done|]. apply H3. lia.
Qed.

(** The watermark search: in every reachable state with a transaction
    begun, the watermark is a resolved id below the next one and every id above
    it is in flight. *)
Theorem watermark_largest_resolved rvs tb s :
  rtc sys_step (sys_init rvs tb) s → (1 < next_tx_id (s_mgr s))%Z →
  let w := resolved_tx_watermark (s_mgr s) in
  (0 ≤ w < next_tx_id (s_mgr s))%Z ∧ w ∉ active_tx_ids (s_mgr s) ∧
  (∀ u, w < u < next_tx_id (s_mgr s) → u ∈ active_tx_ids (s_mgr s))%Z.
Proof.
  intros Hreach Hnext w. pose proof (sys_reachable_inv _ _ _ Hreach) as [Hl Ha _ _ _ _].
  unfold w, resolved_tx_watermark. rewrite decide_False by lia.
  destruct (watermark_loop_spec (Z.to_nat (next_tx_id (s_mgr s))) (active_tx_ids (s_mgr s))
    (next_tx_id (s_mgr s) - 1)) as (H1 & H2 & H3).
  - intros u Hu. destruct (Ha u Hu) as (ux & Hux & _). apply Hl in Hux. lia.
  - lia.
  - split_and!; [lia..|done|]. intros u Hu. apply H3. lia.
Qed.

(** The watermark passes over transactions in flight: if a writer [t] is
    live and any younger id is resolved, the watermark is above [t]; recovery
    gated at it ignores [t]'s records in every log, so a commit of [t] after the
    checkpoint is not replayed. *)
Theorem watermark_hides_inflight_writer rvs tb s t u l :
  rtc sys_step (sys_init rvs tb) s → t ∈ active_tx_ids (s_mgr s) →
  (t < u < next_tx_id (s_mgr s))%Z → u ∉ active_tx_ids (s_mgr s) →
  (t < resolved_tx_watermark (s_mgr s))%Z ∧
  recovered (resolved_tx_watermark (s_mgr s)) (l ++ [ItCommit t])
    = recovered (resolved_tx_watermark (s_mgr s)) l.
Proof.
  intros Hreach Hact Hu Hres. pose proof (sys_reachable_inv _ _ _ Hreach) as [Hl Ha _ _ _ _].
  assert (t < resolved_tx_watermark (s_mgr s))%Z as Hlt.
  { unfold resolved_tx_watermark. destruct (Ha t Hact) as (tx & Htx & _). apply Hl in Htx.
    rewrite decide_False by lia.
    destruct (watermark_loop_spec (Z.to_nat (next_tx_id (s_mgr s))) (active_tx_ids (s_mgr s))
      (next_tx_id (s_mgr s) - 1)) as (H1 & H2 & H3).
    - intros v Hv. destruct (Ha v Hv) as (vx & Hvx & _). apply Hl in Hvx. lia.
    - lia.
    - apply Z.nle_gt. intros Hle. apply Hres, H3. lia. }
  split; [done|]. rewrite recovered_snoc_commit, decide_False by lia. apply app_nil_r.
Qed.

(** ** The row-level merge *)

Definition mod_offset (m : PageRowMod) : nat :=
  Z.to_nat (pm_row_id m mod (pm_values_per_page m `max` 1)) * pm_element_size m.
Definition mod_ok (m : PageRowMod) : Prop :=
  pm_element_size m ≤ 64 ∧ length (pm_row_data m) = 64.
Definition mod_in_page (m : PageRowMod) : Prop := mod_offset m + pm_element_size m ≤ 4096.
(** The bytes [a, b) are not written by [m]. *)
Definition mod_avoids (a b : nat) (m : PageRowMod) : Prop :=
  ¬ mod_in_page m ∨ b ≤ mod_offset m ∨ mod_offset m + pm_element_size m ≤ a.

#[global] Instance mod_ok_dec m : Decision (mod_ok m).
Proof. unfold mod_ok. apply _. Defined.
#[global] Instance mod_avoids_dec a b m : Decision (mod_avoids a b m).
Proof. unfold mod_avoids, mod_in_page. apply _. Defined.

Lemma apply_row_mod_spec page m :
  length page = 4096 → mod_ok m →
  ∃ page', apply_row_mod page m = Ok page' ∧ length page' = 4096 ∧
    (mod_in_page m → slice page' (mod_offset m) (mod_offset m + pm_element_size m)
                     = take (pm_element_size m) (pm_row_data m)) ∧
    (∀ a b, b ≤ 4096 → mod_avoids a b m → slice page' a b = slice page a b).
Proof.
  intros Hp [Hes Hd]. unfold apply_row_mod. fold (mod_offset m).
  destruct (decide (mod_offset m + pm_element_size m ≤ 4096)) as [Hin|Hout].
  - rewrite slice_get_ok by lia. simpl.
    assert (slice (pm_row_data m) 0 (pm_element_size m) = take (pm_element_size m) (pm_row_data m)) as E.
    { unfold slice. by rewrite drop_0, Nat.sub_0_r. }
    assert (length (take (pm_element_size m) (pm_row_data m)) = pm_element_size m) as El.
    { rewrite length_take. lia. }
    rewrite E, write_at_ok by lia. eexists. split_and!; [done| | |].
    + rewrite length_splice; lia.
    + intros _. pose proof (slice_splice_same page (mod_offset m)
        (take (pm_element_size m) (pm_row_data m))) as H. rewrite El in H. apply H. lia.
    + intros a b Hb Hav. apply slice_splice_other; [lia| |lia].
      unfold mod_avoids, mod_in_page in Hav. lia.
  - exists page. by split_and!.
Qed.

Lemma merge_rows_spec mods page :
  length page = 4096 → Forall mod_ok mods →
  ∃ page', merge_rows mods page = Ok page' ∧ length page' = 4096 ∧
    (∀ a b, b ≤ 4096 → Forall (mod_avoids a b) mods → slice page' a b = slice page a b).
Proof.
  intros Hp Hok. revert page Hp. induction Hok as [|m mods Hm _ IH]; intros page Hp; simpl.
  - eauto.
  - destruct (apply_row_mod_spec page m Hp Hm) as (p1 & -> & Hl1 & _ & Hav1). simpl.
    destruct (IH p1 Hl1) as (p2 & -> & Hl2 & Hav2). exists p2. split_and!; [done..|].
    intros a b Hb Hall. apply Forall_cons_1 in Hall as [Ha Hall].
    rewrite Hav2, Hav1; done.
Qed.

Lemma merge_rows_app mods1 mods2 page :
  merge_rows (mods1 ++ mods2) page = (let* p := merge_rows mods1 page in merge_rows mods2 p).
Proof.
  revert page. induction mods1 as [|m mods1 IH]; intros page; simpl; [done|].
  rewrite outcome_bind_assoc. destruct (apply_row_mod page m); simpl; [apply IH|done..].
Qed.

(** Concurrent writers of one page do not lose each other's rows: merging a
    transaction's row changes into the latest committed page never fails, puts
    each changed row's bytes in its slot unless a later change of the same
    transaction overlaps it, and leaves every byte range that no change touches
    as the other committers left it. *)
Theorem merge_keeps_other_rows mods1 m mods2 page :
  length page = 4096 → Forall mod_ok (mods1 ++ m :: mods2) → mod_in_page m →
  Forall (mod_avoids (mod_offset m) (mod_offset m + pm_element_size m)) mods2 →
  ∃ page', merge_rows (mods1 ++ m :: mods2) page = Ok page' ∧ length page' = 4096 ∧
    slice page' (mod_offset m) (mod_offset m + pm_element_size m)
      = take (pm_element_size m) (pm_row_data m) ∧
    (∀ a b, b ≤ 4096 → Forall (mod_avoids a b) (mods1 ++ m :: mods2) →
       slice page' a b = slice page a b).
Proof.
  intros Hp Hok Hin Hlater. pose proof Hok as [Hok1 Hok2]%Forall_app.
  apply Forall_cons_1 in Hok2 as [Hm Hok2].
  destruct (merge_rows_spec _ page Hp Hok) as (page' & E & Hl & Hav).
  exists page'. split_and!; [done..| |done].
  destruct (merge_rows_spec mods1 page Hp Hok1) as (p1 & E1 & Hl1 & _).
  destruct (apply_row_mod_spec p1 m Hl1 Hm) as (p2 & E2 & Hl2 & Hslot & _).
  destruct (merge_rows_spec mods2 p2 Hl2 Hok2) as (p3 & E3 & _ & Hav3).
  rewrite merge_rows_app, E1 in E. simpl in E. rewrite E2 in E. simpl in E.
  rewrite E3 in E. simplify_eq. rewrite Hav3; [by apply Hslot|exact Hin|done].
Qed.

(** ** The commit window

    [commit] advances the clock (transaction_manager.rs:305) before it stamps
    the row versions (line 440); [begin] takes no lock that commit holds. *)

(** A snapshot taken inside a commit is not stable: a reader that begins
    after the committer took its timestamp and before it stamped its rows reads
    at that timestamp; an inserted row is invisible to it at first and visible
    once the committer has stamped it. *)
Theorem commit_window_not_repeatable m rv lo hi w r m1 c m2 reader :
  rv_wf rv → (lo ≤ r < hi)%Z → c_history (view rv r) = None →
  commit_take_ts m = (m1, Ok c) → begin_tx m1 true = (m2, Ok reader) → tx_id reader ≠ w →
  let rv1 := mark_row_batch rv lo hi w in
  is_visible rv1 r (tx_id reader) (read_ts reader) = false ∧
  is_visible (commit_row_batch rv1 lo hi c) r (tx_id reader) (read_ts reader) = true.
Proof.
  intros Hwf Hr Hh Hts Hb Hne rv1. unfold commit_take_ts in Hts. unfold begin_tx, begin_at in Hb.
  destruct (decide _); [done|]. simplify_eq. destruct (decide _); [done|]. simplify_eq.
  cbn [tx_id read_ts next_tx_id current_ts] in *. rewrite !is_visible_cell.
  assert (rv_wf rv1) as Hwf1 by (by apply (exec_wf (OpMarkBatch lo hi w))).
  rewrite view_commit_batch by done. unfold rv1. rewrite view_mark_batch by done.
  cbn [cell_exec]. rewrite !decide_True by done.
  destruct (view rv r) as [a h]. simpl in Hh. subst h.
  unfold cell_visible, cell_mark, cell_commit, committed_touch. simpl.
  rewrite orb_false_r, bool_decide_false by congruence. split; [done|].
  apply bool_decide_true. lia.
Qed.

(** ** The begin window

    [begin_at] loads the snapshot timestamp first and registers it in
    [active_read_ts] later; other threads run in between. *)
Definition begin_load (m : TransactionManager) (snapshot_ts : option Z) :
    TransactionManager * outcome (Z * Z) :=
  if decide (next_tx_id m = u64_MAX) then (m, Err Internal)
  else
    (mkMgr (next_tx_id m + 1) (current_ts m) (committed_tx_count m) (active_tx_ids m)
           (active_read_ts m),
     Ok (next_tx_id m, match snapshot_ts with Some ts => ts | None => current_ts m end)).

Definition begin_register (m : TransactionManager) (read_only : bool) (id ts : Z) :
    TransactionManager * Transaction :=
  (mkMgr (next_tx_id m) (current_ts m) (committed_tx_count m)
         (if read_only then active_tx_ids m else {[id]} ∪ active_tx_ids m)
         (add_read_ts ts (active_read_ts m)),
   mkTx id read_only ts 0 [] [] ∅ [] ∅ ∅ false).

Lemma begin_at_split m ro snap :
  begin_at m ro snap =
  match begin_load m snap with
  | (m1, Ok (id, ts)) => let '(m2, tx) := begin_register m1 ro id ts in (m2, Ok tx)
  | (m1, _) => (m1, Err Internal)
  end.
Proof. unfold begin_at, begin_load, begin_register. by destruct (decide _). Qed.

(** The begin window lets vacuum pass a starting snapshot: between the load
    and the registration the transaction is not in [active_read_ts]; if by then
    the clock has moved on and no other snapshot is registered, a vacuum at the
    manager's minimum drops the history of a row that was created after the
    loaded snapshot, and the transaction sees that row. *)
Theorem begin_window_phantom m m1 id ts m2 rv r e :
  begin_load m None = (m1, Ok (id, ts)) →
  active_read_ts m2 = ∅ → (last_ts e < current_ts m2)%Z →
  view rv r = mkCell None (Some e) → (ts < first_ts e)%Z →
  let tx := snd (begin_register m2 true id ts) in
  is_visible rv r (tx_id tx) (read_ts tx) = false ∧
  is_visible (fst (vacuum rv (get_min_active_read_ts m2))) r (tx_id tx) (read_ts tx) = true.
Proof.
  intros _ Ha Hlast Hv Hfirst tx. rewrite !is_visible_cell, view_vacuum, Hv. simpl.
  unfold get_min_active_read_ts. rewrite Ha, map_to_list_empty. simpl.
  unfold cell_visible, cell_vacuum, vacuum_entry. simpl. rewrite decide_True by lia. simpl.
  split; [|done]. apply bool_decide_false. lia.
Qed.

(** ** Witnesses *)

Definition no_tables : Tables := mkTables ∅ ∅.
Definition demo_init : Sys := sys_init ∅ no_tables.

(** A reader and a writer, ids 1 and 2; then the second writer, id 3. *)
Definition demo_begin (s : Sys) (ro : bool) : Sys :=
  match begin_at (s_mgr s) ro None with
  | (m, Ok tx) => mkSys m (<[tx_id tx := tx]> (s_live s)) (s_rvs s) (s_tables s)
  | _ => s
  end.

Lemma demo_begin_step s ro :
  (next_tx_id (s_mgr s) ≠ u64_MAX) → sys_step s (demo_begin s ro).
Proof.
  intros H. unfold demo_begin. destruct (begin_at (s_mgr s) ro None) as [m [tx|e|]] eqn:E.
  - by eapply step_begin.
  - unfold begin_at in E. by rewrite decide_False in E.
  - unfold begin_at in E. by rewrite decide_False in E.
Qed.

Definition demo_two : Sys := demo_begin (demo_begin demo_init false) false.

Lemma demo_two_reachable : rtc sys_step (sys_init ∅ no_tables) demo_two.
Proof.
  eapply rtc_l; [apply (demo_begin_step demo_init false); by_compute|].
  apply rtc_once, demo_begin_step. by_compute.
Qed.

Definition demo_tx (id : Z) : Transaction := mkTx id false 1 0 [] [] ∅ [] ∅ ∅ false.

(** After the younger of two writers has committed. *)
Definition demo_young_done : Sys :=
  mkSys (mkMgr 3 2 1 {[1%Z]} {[1%Z := 1]}) {[1%Z := demo_tx 1]} ∅ no_tables.

Lemma demo_young_done_reachable : rtc sys_step (sys_init ∅ no_tables) demo_young_done.
Proof.
  eapply rtc_r; [apply demo_two_reachable|].
  assert (commit_bookkeeping NoFault (s_mgr demo_two) (s_rvs demo_two) (demo_tx 2)
          = (s_mgr demo_young_done, ∅, Ok (finish_tx (demo_tx 2) 2))) as E by reflexivity.
  exact (step_commit demo_two 2 (demo_tx 2) NoFault _ _ _ eq_refl E).
Qed.

(** One transaction marks a row of table 0; one commits. *)
Definition demo_mark (t row : Z) (s : Sys) : Sys :=
  match s_live s !! t with
  | Some tx =>
      let tx' := mkTx (tx_id tx) (is_read_only tx) (read_ts tx) (commit_ts tx)
                   ((0, row)%Z :: modified_rows tx) (bulk_row_ranges tx) (uncommitted_cache tx)
                   (modified_page_rows tx) (rollback_table_bases tx) (allocated_rows tx)
                   (finalized tx) in
      mkSys (s_mgr s) (<[t := tx']> (s_live s))
            (alter (λ rv, rv_exec (OpMark row (tx_id tx) (read_ts tx)) rv) 0%Z (s_rvs s)) (s_tables s)
  | None => s
  end.

Lemma demo_mark_step t row s : is_Some (s_live s !! t) → sys_step s (demo_mark t row s).
Proof.
  intros [tx Htx]. unfold demo_mark. rewrite Htx. apply (step_work _ _ tx); [done..|].
  intros k rv'. rewrite lookup_alter_Some. intros [(<- & rv & -> & ->)|[_ ->]].
  - exists [OpMark row (tx_id tx) (read_ts tx)]. split; [|done].
    constructor; [|done]. by apply bool_decide_eq_true.
  - by exists [].
Qed.

Definition demo_commit (t : Z) (s : Sys) : Sys :=
  match s_live s !! t with
  | Some tx => let '(m, rvs, _) := commit_bookkeeping NoFault (s_mgr s) (s_rvs s) tx in
               mkSys m (delete t (s_live s)) rvs (s_tables s)
  | None => s
  end.

Lemma demo_commit_step t s :
  is_Some (s_live s !! t) → current_ts (s_mgr s) ≠ u64_MAX → sys_step s (demo_commit t s).
Proof.
  intros [tx Htx] Hts. unfold demo_commit. rewrite Htx.
  destruct (commit_bookkeeping NoFault (s_mgr s) (s_rvs s) tx) as [[m rvs] o] eqn:E.
  assert (∃ tx', o = Ok tx') as [tx' ->].
  { unfold commit_bookkeeping, commit_take_ts in E. rewrite decide_False in E by done.
    destruct (is_read_only tx); simplify_eq; eauto. }
  by eapply step_commit.
Qed.

(** Row 5 was committed by the first writer, before a second one committed;
    then a reader (3) and a third writer (4), which marks the row again. *)
Definition demo_rewrite : Sys :=
  demo_mark 4 5 (demo_begin (demo_begin (demo_commit 2 (demo_begin (demo_commit 1 (demo_mark 1 5
    (demo_begin (sys_init {[0%Z := row_version_new]} no_tables) false))) false)) true) false).

Lemma demo_rewrite_reachable :
  rtc sys_step (sys_init {[0%Z := row_version_new]} no_tables) demo_rewrite.
Proof.
  eapply rtc_l; [apply (demo_begin_step _ false); by_compute|].
  eapply rtc_l; [apply (demo_mark_step 1 5); by_compute|].
  eapply rtc_l; [apply (demo_commit_step 1); by_compute|].
  eapply rtc_l; [apply (demo_begin_step _ false); by_compute|].
  eapply rtc_l; [apply (demo_commit_step 2); by_compute|].
  eapply rtc_l; [apply (demo_begin_step _ true); by_compute|].
  eapply rtc_l; [apply (demo_begin_step _ false); by_compute|].
  apply rtc_once. apply (demo_mark_step 4 5). by_compute.
Qed.

(** The reader saw row 5 before the vacuum; rows 6 and, for the writer, 5 are
    seen as before. *)
Lemma vacuum_live_view_witness :
  let rv := default row_version_new (s_rvs demo_rewrite !! 0%Z) in
  let rv' := fst (vacuum rv (get_min_active_read_ts (s_mgr demo_rewrite))) in
  is_visible rv 5 3 3 = true ∧ is_visible rv' 5 3 3 = false ∧
  is_visible rv' 6 3 3 = is_visible rv 6 3 3 ∧ is_visible rv' 5 4 3 = is_visible rv 5 4 3.
Proof.
  assert (rvs_fresh {[0%Z := row_version_new]}) as Hf by (by apply map_Forall_singleton).
  pose proof (λ t tx r, vacuum_live_view _ no_tables demo_rewrite t tx 0
    (default row_version_new (s_rvs demo_rewrite !! 0%Z)) r Hf demo_rewrite_reachable) as H.
  cbv zeta in H |- *. split_and!; [by vm_compute|..].
  - refine (proj1 (proj2 (proj2 (H 3%Z (mkTx 3 true 3 0 [] [] ∅ [] ∅ ∅ false) 5%Z _ _)))
      4%Z (mkCommitted 2 2) _ _ _); by vm_compute.
  - refine (proj2 (proj2 (proj2 (H 3%Z (mkTx 3 true 3 0 [] [] ∅ [] ∅ ∅ false) 6%Z _ _))) _);
      [by vm_compute..|]. intros other e E. vm_compute in E. done.
  - refine (proj2 (proj2 (proj2 (H 4%Z (mkTx 4 false 3 0 [(0, 5)%Z] [] ∅ [] ∅ ∅ false) 5%Z _ _))) _);
      [by vm_compute..|]. intros other e E. vm_compute in E. simplify_eq. by left.
Defined.

Lemma has_other_active_correct_witness :
  has_other_active (s_mgr demo_two) 1 = true ↔ ∃ u, u ≠ 1%Z ∧ is_Some (s_live demo_two !! u).
Proof.
  apply (has_other_active_correct ∅ no_tables demo_two 1 (demo_tx 1) demo_two_reachable).
  by vm_compute.
Defined.

Lemma timestamps_increase_witness :
  (current_ts (s_mgr demo_two) < 2)%Z ∧ 2%Z = current_ts (s_mgr demo_young_done) ∧
  ∀ u ux, s_live demo_two !! u = Some ux → (u < next_tx_id (s_mgr demo_two))%Z.
Proof.
  exact (timestamps_increase ∅ no_tables demo_two demo_two 2 (demo_tx 2) (s_mgr demo_young_done) ∅
    (finish_tx (demo_tx 2) 2) demo_two_reachable (rtc_refl _ _) eq_refl eq_refl eq_refl).
Defined.

Lemma watermark_largest_resolved_witness :
  let w := resolved_tx_watermark (s_mgr demo_young_done) in
  (0 ≤ w < 3)%Z ∧ w ∉ active_tx_ids (s_mgr demo_young_done) ∧
  (∀ u, w < u < 3 → u ∈ active_tx_ids (s_mgr demo_young_done))%Z.
Proof.
  apply (watermark_largest_resolved ∅ no_tables demo_young_done demo_young_done_reachable).
  by_compute.
Defined.

Lemma watermark_hides_inflight_writer_witness :
  (1 < resolved_tx_watermark (s_mgr demo_young_done))%Z ∧
  recovered (resolved_tx_watermark (s_mgr demo_young_done)) (demo_log ++ [ItCommit 1])
    = recovered (resolved_tx_watermark (s_mgr demo_young_done)) demo_log.
Proof.
  apply (watermark_hides_inflight_writer ∅ no_tables demo_young_done 1 2 demo_log
    demo_young_done_reachable); by_compute.
Defined.

Definition demo_mod (row : Z) (b : Z) : PageRowMod :=
  mkPageRowMod 1 0 row 8 512 (replicate 64 b) None.

Lemma merge_keeps_other_rows_witness :
  ∃ page', merge_rows ([demo_mod 3 7] ++ demo_mod 4 8 :: [demo_mod 5 9]) (replicate 4096 1%Z) = Ok page' ∧
    length page' = 4096 ∧
    slice page' (mod_offset (demo_mod 4 8)) (mod_offset (demo_mod 4 8) + 8) = replicate 8 8%Z ∧
    (∀ a b, b ≤ 4096 → Forall (mod_avoids a b) ([demo_mod 3 7] ++ demo_mod 4 8 :: [demo_mod 5 9]) →
       slice page' a b = slice (replicate 4096 1%Z) a b).
Proof.
  apply (merge_keeps_other_rows [demo_mod 3 7] (demo_mod 4 8) [demo_mod 5 9] (replicate 4096 1%Z)).
  - by_compute.
  - by_compute.
  - unfold mod_in_page. by_compute.
  - by_compute.
Defined.

Lemma commit_window_not_repeatable_witness :
  let m := s_mgr demo_two in
  let rv1 := mark_row_batch row_version_new 0 4 1 in
  is_visible rv1 2 3 2 = false ∧ is_visible (commit_row_batch rv1 0 4 2) 2 3 2 = true.
Proof.
  intros m.
  refine (commit_window_not_repeatable m row_version_new 0 4 1 2
    (fst (commit_take_ts m)) 2 (fst (begin_tx (fst (commit_take_ts m)) true))
    (mkTx 3 true 2 0 [] [] ∅ [] ∅ ∅ false) eq_refl _ _ eq_refl eq_refl _).
  - lia.
  - by vm_compute.
  - by_compute.
Defined.

(** The snapshot is loaded at clock 1; a writer then inserts row 5 at clock 2
    and another commit moves the clock to 3. *)
Lemma begin_window_phantom_witness :
  let rv := commit_row (fst (mark_row row_version_new 5 9 0)) 5 2 in
  let m2 := mkMgr 4 3 2 ∅ ∅ in
  is_visible rv 5 1 1 = false ∧
  is_visible (fst (vacuum rv (get_min_active_read_ts m2))) 5 1 1 = true.
Proof.
  intros rv m2.
  exact (begin_window_phantom manager_new (fst (begin_load manager_new None)) 1 1 m2 rv 5
    (mkCommitted 2 2) eq_refl eq_refl ltac:(by_compute) ltac:(by_compute) ltac:(by_compute)).
Defined.
