(* ===== verification/BufferPool.v ===== *)
(** * Buffer pool (storage/buffer_manager.rs)

    The pool caches page versions: a slot holds a frame, which is one version of
    one page.  A version is a commit timestamp, 0 for a page read from disk, or a
    transaction id with the top bit set while that transaction is open.  A shard
    of the manager is one [BufferPool] behind a lock, so every operation on a
    shard is a function of the pool and the disk.  Frames are shared through
    [Arc]: a caller keeps its frame after the slot was given to another page, so
    a frame carries an identity, and unpinning or writing goes by identity.
    [try_write_for] is assumed to get its lock; disk calls succeed unless the
    disk is marked as failing. *)
From stdpp Require Import base list gmap numbers.
From Stdlib Require Import ZArith Lia Bool.
From S2P Require Import Prelude.

(** ** Disk (storage/file_handle.rs) *)

Record FileHandle := mkFile { fh_num_pages : Z; fh_pages : gmap Z (list Z) }.
Record Disk := mkDisk { dk_files : gmap Z FileHandle; dk_ok : bool }.

Definition disk_file (d : Disk) (fid : Z) : FileHandle := default (mkFile 0 ∅) (dk_files d !! fid).

(** A short read is filled with zeros. *)
Definition read_page (d : Disk) (fid pid : Z) : outcome (list Z) :=
  if dk_ok d then Ok (default zero_page (fh_pages (disk_file d fid) !! pid)) else Err Internal.
Definition write_page (d : Disk) (fid pid : Z) (data : list Z) : Disk * outcome unit :=
  if dk_ok d then
    let f := disk_file d fid in
    (mkDisk (<[fid := mkFile (fh_num_pages f) (<[pid := data]> (fh_pages f))]> (dk_files d)) true, Ok tt)
  else (d, Err Io).

(** ** State *)

Abbreviation key := (Z * Z)%type.

Definition UNCOMMITTED_BIT : Z := Z.shiftl 1 63.
Definition INITIAL_SLOTS_PER_SHARD : nat := 256.
Definition uncommitted (v : Z) : bool := negb (bool_decide (Z.land v UNCOMMITTED_BIT = 0%Z)).
Definition tx_mark (tx_id : Z) : Z := Z.lor tx_id UNCOMMITTED_BIT.

Record Frame := mkFrame { fr_id : nat; fr_data : list Z; fr_version : Z; fr_pins : Z }.

Record BufferSlot := mkSlot {
  sl_key : option key;
  sl_frame : Frame;
  sl_dirty : bool;
  sl_referenced : bool;
}.

Record BufferPool := mkPool {
  page_to_slots : gmap key (list nat);
  file_handles : gset Z;
  slots : list BufferSlot;
  clock_ptr : nat;
  capacity : nat;
  max_capacity : nat;
  dirty_count : Z;
  free_candidates : list nat;
  next_frame : nat;
}.

(** A slot with a fresh zero frame. *)
Definition free_slot (id : nat) : BufferSlot := mkSlot None (mkFrame id zero_page 0 0) false false.

Definition pool_new (shard_capacity : nat) : BufferPool :=
  let initial_cap := INITIAL_SLOTS_PER_SHARD `min` shard_capacity in
  mkPool ∅ ∅ (map free_slot (seq 0 initial_cap)) 0 initial_cap shard_capacity 0 [] initial_cap.

Definition set_slots (p : BufferPool) (s : list BufferSlot) : BufferPool :=
  mkPool (page_to_slots p) (file_handles p) s (clock_ptr p) (capacity p) (max_capacity p) (dirty_count p)
         (free_candidates p) (next_frame p).
Definition set_index (p : BufferPool) (m : gmap key (list nat)) : BufferPool :=
  mkPool m (file_handles p) (slots p) (clock_ptr p) (capacity p) (max_capacity p) (dirty_count p)
         (free_candidates p) (next_frame p).
Definition set_dirty_count (p : BufferPool) (n : Z) : BufferPool :=
  mkPool (page_to_slots p) (file_handles p) (slots p) (clock_ptr p) (capacity p) (max_capacity p) n
         (free_candidates p) (next_frame p).
Definition set_free (p : BufferPool) (l : list nat) : BufferPool :=
  mkPool (page_to_slots p) (file_handles p) (slots p) (clock_ptr p) (capacity p) (max_capacity p)
         (dirty_count p) l (next_frame p).
Definition set_clock (p : BufferPool) (n : nat) : BufferPool :=
  mkPool (page_to_slots p) (file_handles p) (slots p) n (capacity p) (max_capacity p) (dirty_count p)
         (free_candidates p) (next_frame p).
Definition add_handle (p : BufferPool) (fid : Z) : BufferPool :=
  mkPool (page_to_slots p) ({[fid]} ∪ file_handles p) (slots p) (clock_ptr p) (capacity p) (max_capacity p)
         (dirty_count p) (free_candidates p) (next_frame p).
Definition bump_frame (p : BufferPool) : BufferPool :=
  mkPool (page_to_slots p) (file_handles p) (slots p) (clock_ptr p) (capacity p) (max_capacity p)
         (dirty_count p) (free_candidates p) (S (next_frame p)).

Definition slot_at (p : BufferPool) (i : nat) : BufferSlot := default (free_slot 0) (slots p !! i).
Definition version_at (p : BufferPool) (i : nat) : Z := fr_version (sl_frame (slot_at p i)).
Definition slots_of (p : BufferPool) (k : key) : list nat := default [] (page_to_slots p !! k).

Definition update_slot (p : BufferPool) (i : nat) (f : BufferSlot → BufferSlot) : BufferPool :=
  set_slots p (alter f i (slots p)).
Definition with_frame (f : Frame → Frame) (s : BufferSlot) : BufferSlot :=
  mkSlot (sl_key s) (f (sl_frame s)) (sl_dirty s) (sl_referenced s).
Definition with_dirty (b : bool) (s : BufferSlot) : BufferSlot :=
  mkSlot (sl_key s) (sl_frame s) b (sl_referenced s).
Definition with_referenced (b : bool) (s : BufferSlot) : BufferSlot :=
  mkSlot (sl_key s) (sl_frame s) (sl_dirty s) b.
Definition with_version (v : Z) (f : Frame) : Frame := mkFrame (fr_id f) (fr_data f) v (fr_pins f).
Definition with_data (d : list Z) (f : Frame) : Frame := mkFrame (fr_id f) d (fr_version f) (fr_pins f).
Definition add_pins (n : Z) (f : Frame) : Frame :=
  mkFrame (fr_id f) (fr_data f) (fr_version f) (u64_wrap (fr_pins f + n)).

(** [fetch_update(|v| v.checked_sub(1)).ok()] *)
Definition decrement_dirty_count (p : BufferPool) : BufferPool :=
  set_dirty_count p (if decide (1 ≤ dirty_count p)%Z then (dirty_count p - 1)%Z else dirty_count p).

(** [slots[i].key = None; slots[i].frame = Arc::new(Frame::new(zeros, 0));
    dirty = referenced = false], counting a dirty slot out. *)
Definition clear_slot (p : BufferPool) (i : nat) : BufferPool :=
  let p := if sl_dirty (slot_at p i) then decrement_dirty_count p else p in
  bump_frame (update_slot p i (λ _, free_slot (next_frame p))).

(** [page_to_slots.get_mut(&key)], [retain(|&idx| idx != i)] *)
Definition unindex (p : BufferPool) (k : key) (i : nat) : BufferPool :=
  set_index p (alter (filter (λ j, j ≠ i)) k (page_to_slots p)).

(** A slot leaves the page table and is emptied. *)
Definition drop_slot (p : BufferPool) (i : nat) : BufferPool :=
  clear_slot (match sl_key (slot_at p i) with Some k => unindex p k i | None => p end) i.

(** ** Eviction *)

Inductive EvictResult := Found (idx : nat) | NeedRetry.

(** The slots [old_cap..new_cap] are queued as free candidates. *)
Definition grow_pool (p : BufferPool) : BufferPool :=
  let old_cap := capacity p in
  let new_cap := (old_cap * 2) `min` max_capacity p in
  if decide (new_cap ≤ old_cap) then p
  else mkPool (page_to_slots p) (file_handles p)
         (slots p ++ map free_slot (seq (next_frame p) (new_cap - old_cap))) (clock_ptr p) new_cap
         (max_capacity p) (dirty_count p) (free_candidates p ++ seq old_cap (new_cap - old_cap))
         (next_frame p + (new_cap - old_cap)).

(** What the sweep does at the slot under the hand. *)
Inductive sweep_result := SwFound (i : nat) | SwNone | SwError (e : LightningError).

Definition evictable (s : BufferSlot) : bool :=
  bool_decide (fr_pins (sl_frame s) = 0%Z) && negb (sl_dirty s && uncommitted (fr_version (sl_frame s))).

Fixpoint clock_sweep (n : nat) (p : BufferPool) (d : Disk) : BufferPool * Disk * sweep_result :=
  match n with
  | O => (p, d, SwNone)
  | S n =>
      let idx := clock_ptr p in
      let p := set_clock p ((clock_ptr p + 1) mod capacity p) in
      let s := slot_at p idx in
      if decide (fr_pins (sl_frame s) = 0%Z) then
        if sl_referenced s then clock_sweep n (update_slot p idx (with_referenced false)) d
        else if sl_dirty s then
          if uncommitted (fr_version (sl_frame s)) then clock_sweep n p d
          else match sl_key s with
               | Some (fid, pid) =>
                   if decide (fid ∈ file_handles p) then
                     match write_page d fid pid (fr_data (sl_frame s)) with
                     | (d, Ok _) => (p, d, SwFound idx)
                     | (d, Err e) => (p, d, SwError e)
                     | (d, Panic) => (p, d, SwFound idx)
                     end
                   else (p, d, SwFound idx)
               | None => (p, d, SwFound idx)
               end
        else (p, d, SwFound idx)
      else clock_sweep n p d
  end.

(** The outer loop: sweep, and grow while the pool may grow. *)
Fixpoint evict_loop (fuel : nat) (p : BufferPool) (d : Disk) : BufferPool * Disk * option (outcome EvictResult) :=
  match fuel with
  | O => (p, d, None)
  | S fuel =>
      match clock_sweep (capacity p) p d with
      | (p, d, SwFound i) => (p, d, Some (Ok (Found i)))
      | (p, d, SwError e) => (p, d, Some (Err e))
      | (p, d, SwNone) =>
          if decide (capacity p < max_capacity p) then evict_loop fuel (grow_pool p) d
          else (p, d, Some (Ok NeedRetry))
      end
  end.

(** The candidate at the head of the queue is taken, or queued again. *)
Definition pop_candidate (p : BufferPool) : BufferPool * option nat :=
  match free_candidates p with
  | [] => (p, None)
  | idx :: rest =>
      let s := slot_at p idx in
      if decide (sl_key s = None ∧ fr_pins (sl_frame s) = 0%Z ∧ sl_dirty s = false)
      then (set_free p rest, Some idx)
      else (set_free p (rest ++ [idx]), None)
  end.

Definition evict_with_clock (fuel : nat) (p : BufferPool) (d : Disk) :
    BufferPool * Disk * option (outcome EvictResult) :=
  match pop_candidate p with
  | (p, Some idx) => (p, d, Some (Ok (Found idx)))
  | (p, None) => evict_loop fuel p d
  end.

Definition MAX_EVICT_RETRIES : nat := 10.

(** The retry loop of [pin_page] and [create_new_version]; every call of
    [evict_with_clock] gets enough fuel. *)
Fixpoint evict_retry (retries : nat) (p : BufferPool) (d : Disk) : BufferPool * Disk * outcome nat :=
  match retries with
  | O => (p, d, Err Internal)
  | S retries =>
      match evict_with_clock (S (max_capacity p)) p d with
      | (p, d, Some (Ok (Found i))) => (p, d, Ok i)
      | (p, d, Some (Ok NeedRetry)) => evict_retry retries p d
      | (p, d, Some (Err e)) => (p, d, Err e)
      | (p, d, Some Panic) => (p, d, Panic)
      | (p, d, None) => (p, d, Panic)
      end
  end.

(** ** Reading and writing pages *)

(** The scan over a page's slots, newest first: the transaction's own version,
    or the newest committed one not after the snapshot. *)
Fixpoint find_visible (p : BufferPool) (mark read_ts : Z) (idxs : list nat)
    (best : option nat) (best_version : Z) : option nat :=
  match idxs with
  | [] => best
  | idx :: idxs =>
      let version := version_at p idx in
      if decide (version = mark) then Some idx
      else if decide (uncommitted version = false ∧ (version ≤ read_ts)%Z ∧
                      ((best_version < version)%Z ∨ (version = 0%Z ∧ best = None)))
      then find_visible p mark read_ts idxs (Some idx) version
      else find_visible p mark read_ts idxs best best_version
  end.

(** Give slot [i] to a new frame of page [k]. *)
Definition install (p : BufferPool) (i : nat) (k : key) (data : list Z) (version : Z) (dirty : bool) : BufferPool :=
  let p := match sl_key (slot_at p i) with Some old_key => unindex p old_key i | None => p end in
  let frame := mkFrame (next_frame p) data version 1 in
  let p := update_slot p i (λ _, mkSlot (Some k) frame dirty true) in
  let p := set_index p (<[k := slots_of p k ++ [i]]> (page_to_slots p)) in
  bump_frame p.

Definition pin_slot (p : BufferPool) (i : nat) : BufferPool := update_slot p i (with_frame (add_pins 1)).

(** A page of the file, zeros past its end. *)
Definition load_page (d : Disk) (fid pid : Z) : outcome (list Z) :=
  if decide (pid < fh_num_pages (disk_file d fid))%Z then read_page d fid pid else Ok zero_page.

(** [pin_page]: the slot of the frame it returns.  The search under the read
    lock and its repetition under the write lock are one step here. *)
Definition pin_page (p : BufferPool) (d : Disk) (k : key) (tx_id read_ts : Z) : BufferPool * Disk * outcome nat :=
  match find_visible p (tx_mark tx_id) read_ts (reverse (slots_of p k)) None 0 with
  | Some i => (pin_slot p i, d, Ok i)
  | None =>
      match evict_retry MAX_EVICT_RETRIES p d with
      | (p, d, Ok i) =>
          match load_page d (fst k) (snd k) with
          | Ok data => (install p i k data 0 false, d, Ok i)
          | Err e => (p, d, Err e)
          | Panic => (p, d, Panic)
          end
      | (p, d, Err e) => (p, d, Err e)
      | (p, d, Panic) => (p, d, Panic)
      end
  end.

(** The transaction's own frame if there is one, else the newest committed data. *)
Fixpoint find_source (p : BufferPool) (mark : Z) (idxs : list nat) (source : option (list Z))
    (best_version : Z) : nat + option (list Z) :=
  match idxs with
  | [] => inr source
  | idx :: idxs =>
      let version := version_at p idx in
      if decide (version = mark) then inl idx
      else if decide (uncommitted version = false ∧
                      ((best_version < version)%Z ∨ (version = 0%Z ∧ source = None)))
      then find_source p mark idxs (Some (fr_data (sl_frame (slot_at p idx)))) version
      else find_source p mark idxs source best_version
  end.

Definition create_new_version (p : BufferPool) (d : Disk) (k : key) (tx_id : Z) :
    BufferPool * Disk * outcome nat :=
  match find_source p (tx_mark tx_id) (reverse (slots_of p k)) None 0 with
  | inl i => (update_slot (pin_slot p i) i (with_referenced true), d, Ok i)
  | inr source =>
      match (match source with Some data => Ok data | None => load_page d (fst k) (snd k) end) with
      | Ok data =>
          match evict_retry MAX_EVICT_RETRIES (add_handle p (fst k)) d with
          | (p, d, Ok i) =>
              let p := install p i k data (tx_mark tx_id) true in
              (set_dirty_count p (dirty_count p + 1), d, Ok i)
          | (p, d, Err e) => (p, d, Err e)
          | (p, d, Panic) => (p, d, Panic)
          end
      | Err e => (p, d, Err e)
      | Panic => (p, d, Panic)
      end
  end.

(** The frame with identity [id], wherever it is; a frame no longer in the pool
    is out of reach of every other caller. *)
Definition on_frame (p : BufferPool) (id : nat) (f : Frame → Frame) : BufferPool :=
  set_slots p (map (λ s, if decide (fr_id (sl_frame s) = id) then with_frame f s else s) (slots p)).

Definition unpin_frame (p : BufferPool) (id : nat) : BufferPool := on_frame p id (add_pins (-1)).
(** Writing through [as_mut_slice]. *)
Definition write_frame (p : BufferPool) (id : nat) (data : list Z) : BufferPool := on_frame p id (with_data data).

(** The first slot in [idxs] whose frame has exactly this version. *)
Fixpoint find_version (p : BufferPool) (idxs : list nat) (v : Z) : option nat :=
  match idxs with
  | [] => None
  | i :: idxs => if decide (version_at p i = v) then Some i else find_version p idxs v
  end.
Definition pin_page_by_key (p : BufferPool) (k : key) (version_mark : Z) : BufferPool * option nat :=
  match find_version p (reverse (slots_of p k)) version_mark with
  | Some i => (pin_slot p i, Some i)
  | None => (p, None)
  end.

Fixpoint find_latest (p : BufferPool) (idxs : list nat) (best_version : Z) (best : option nat) : option nat :=
  match idxs with
  | [] => best
  | i :: idxs =>
      let version := version_at p i in
      if decide (uncommitted version = false ∧ (best_version ≤ version)%Z)
      then find_latest p idxs version (Some i) else find_latest p idxs best_version best
  end.
(** [pin_latest_committed]: what the frame it returns holds; a page that is not
    in the pool is read without entering it. *)
Definition pin_latest_committed (p : BufferPool) (d : Disk) (k : key) : BufferPool * outcome (list Z) :=
  match find_latest p (slots_of p k) 0 None with
  | Some i => (pin_slot p i, Ok (fr_data (sl_frame (slot_at p i))))
  | None => (p, load_page d (fst k) (snd k))
  end.

(** ** Ending a transaction *)

Definition update_timestamps (p : BufferPool) (k : key) (tx_id commit_ts : Z) : BufferPool :=
  foldl (λ p i, if decide (version_at p i = tx_mark tx_id)
                then update_slot p i (with_frame (with_version commit_ts)) else p)
        p (slots_of p k).

Definition rollback_slot (mark : Z) (p : BufferPool) (i : nat) : BufferPool :=
  if decide (version_at p i = mark) then drop_slot p i else p.
Definition rollback_versions (p : BufferPool) (tx_id : Z) : BufferPool :=
  foldl (rollback_slot (tx_mark tx_id)) p (seq 0 (length (slots p))).

(** Drop unpinned committed frames of the page older than [keep_version]. *)
Definition evict_superseded_slot (keep_version : Z) (p : BufferPool) (i : nat) : BufferPool :=
  let s := slot_at p i in
  if decide (uncommitted (fr_version (sl_frame s)) = false ∧ (fr_version (sl_frame s) < keep_version)%Z ∧
             fr_pins (sl_frame s) = 0%Z)
  then let p := clear_slot p i in set_free p (free_candidates p ++ [i])
  else p.
Definition keep_keyed (p : BufferPool) (k : key) (idxs : list nat) : BufferPool :=
  let remaining := filter (λ i, sl_key (slot_at p i) ≠ None) idxs in
  set_index p (if decide (remaining = []) then delete k (page_to_slots p)
               else <[k := remaining]> (page_to_slots p)).
Definition evict_superseded_committed_versions (p : BufferPool) (k : key) (keep_version : Z) : BufferPool :=
  match page_to_slots p !! k with
  | None => p
  | Some idxs => keep_keyed (foldl (evict_superseded_slot keep_version) p idxs) k idxs
  end.

(** ** Maintenance *)

Definition invalidate_page (p : BufferPool) (k : key) : BufferPool :=
  match page_to_slots p !! k with
  | None => p
  | Some idxs =>
      let p := foldl (λ p i, if decide (sl_key (slot_at p i) = Some k) then clear_slot p i else p) p idxs in
      set_index p (delete k (page_to_slots p))
  end.

(** The newest committed version of each page that is resident. *)
Definition max_committed (p : BufferPool) : gmap key Z :=
  foldl (λ m s, match sl_key s with
                | Some k =>
                    let v := fr_version (sl_frame s) in
                    if decide (v ≠ 0%Z ∧ uncommitted v = false)
                    then let e := default 0%Z (m !! k) in <[k := (if decide (e < v)%Z then v else e)]> m
                    else m
                | None => m
                end) ∅ (slots p).

Definition reclaimable (p : BufferPool) (min_active_ts : Z) (i : nat) : bool :=
  let s := slot_at p i in
  let version := fr_version (sl_frame s) in
  if decide (fr_pins (sl_frame s) ≠ 0%Z ∨ version = 0%Z ∨ uncommitted version = true ∨ (min_active_ts ≤ version)%Z)
  then false
  else match sl_key s with
       | Some k => bool_decide (version < default 0 (max_committed p !! k))%Z
       | None => false
       end.
Definition reclaim_slot (p : BufferPool) (i : nat) : BufferPool :=
  let p := drop_slot p i in
  set_free p (free_candidates p ++ [i]).
(** The candidates are collected under the read lock and checked again under
    the write lock; in one step the second check always passes. *)
Definition reclaim_expired_versions (p : BufferPool) (min_active_ts : Z) : BufferPool :=
  foldl reclaim_slot p (filter (λ i, reclaimable p min_active_ts i = true) (seq 0 (length (slots p)))).

Definition has_uncommitted (p : BufferPool) (k : key) : bool :=
  existsb (λ i, uncommitted (version_at p i)) (slots_of p k).

(** One page of [evict_pages_for_file]; write errors are logged. *)
Definition evict_page_slot (s : BufferPool * Disk) (i : nat) : BufferPool * Disk :=
  let '(p, d) := s in
  let sl := slot_at p i in
  if uncommitted (fr_version (sl_frame sl)) then (p, d)
  else
    let d := match sl_key sl with
             | Some (fid, pid) =>
                 if sl_dirty sl then
                   if decide (fid ∈ file_handles p) then fst (write_page d fid pid (fr_data (sl_frame sl))) else d
                 else d
             | None => d
             end in
    let p := clear_slot p i in
    (set_free p (free_candidates p ++ [i]), d).
Definition evict_page (p : BufferPool) (d : Disk) (k : key) : BufferPool * Disk :=
  let indices := slots_of p k in
  if decide (indices = []) then (p, d)
  else
    let preserved := filter (λ i, uncommitted (version_at p i) = true) indices in
    let '(p, d) := foldl evict_page_slot (p, d) indices in
    (set_index p (if decide (preserved = []) then delete k (page_to_slots p)
                  else <[k := preserved]> (page_to_slots p)), d).

(** The transaction [log_page_update] charges a page to: the largest version
    number of the page in the pool, without its top bit. *)
Definition logged_tx (p : BufferPool) (k : key) : Z :=
  foldl (λ best i, let candidate := Z.land (version_at p i) (u64_not UNCOMMITTED_BIT) in
                   if decide (best < candidate)%Z then candidate else best)
        0%Z (slots_of p k).

(** The dirty committed frames in slot order, as [checkpoint_inner], [flush_all]
    and [flush_all_with_handles] write them to the files they have open. *)
Fixpoint flush_slots (stop_on_error : bool) (handles : gset Z) (idxs : list nat) (p : BufferPool) (d : Disk) :
    BufferPool * Disk * outcome unit :=
  match idxs with
  | [] => (p, d, Ok tt)
  | i :: idxs =>
      let s := slot_at p i in
      if sl_dirty s then
        if uncommitted (fr_version (sl_frame s)) then flush_slots stop_on_error handles idxs p d
        else match sl_key s with
             | Some (fid, pid) =>
                 if decide (fid ∈ handles) then
                   match write_page d fid pid (fr_data (sl_frame s)) with
                   | (d, Ok _) =>
                       flush_slots stop_on_error handles idxs
                         (update_slot (decrement_dirty_count p) i (with_dirty false)) d
                   | (d, _) =>
                       if stop_on_error then (p, d, Err Internal) else flush_slots stop_on_error handles idxs p d
                   end
                 else flush_slots stop_on_error handles idxs p d
             | None => flush_slots stop_on_error handles idxs p d
             end
      else flush_slots stop_on_error handles idxs p d
  end.
Definition checkpoint_shard (p : BufferPool) (d : Disk) : BufferPool * Disk * outcome unit :=
  flush_slots true (file_handles p) (seq 0 (length (slots p))) p d.
Definition flush_all_shard (p : BufferPool) (d : Disk) : BufferPool * Disk :=
  fst (flush_slots false (file_handles p) (seq 0 (length (slots p))) p d).
Definition flush_all_with_handles (handles : gset Z) (p : BufferPool) (d : Disk) : BufferPool * Disk :=
  fst (flush_slots false handles (seq 0 (length (slots p))) p d).

(** [flush_pages], selection: the newest committed dirty version of each target
    page; the older ones lose their dirty flag. *)
Definition clean_slot (p : BufferPool) (i : nat) : BufferPool :=
  decrement_dirty_count (update_slot p i (with_dirty false)).
Definition select_newest (targets : gset key) (st : BufferPool * gmap key nat * gmap key Z) (i : nat) :
    BufferPool * gmap key nat * gmap key Z :=
  let '(p, newest, best) := st in
  let s := slot_at p i in
  let v := fr_version (sl_frame s) in
  match sl_key s with
  | Some k =>
      if decide (sl_dirty s = true ∧ k ∈ targets ∧ uncommitted v = false) then
        match best !! k with
        | Some b =>
            if decide (v ≤ b)%Z then (clean_slot p i, newest, best)
            else
              let p := match newest !! k with Some prev => clean_slot p prev | None => p end in
              (p, <[k := i]> newest, <[k := v]> best)
        | None =>
            let p := match newest !! k with Some prev => clean_slot p prev | None => p end in
            (p, <[k := i]> newest, <[k := v]> best)
        end
      else st
  | None => st
  end.
(** Writing; errors are logged and leave the slot dirty. *)
Definition write_newest (s : BufferPool * Disk) (e : key * nat) : BufferPool * Disk :=
  let '(p, d) := s in
  let '((fid, pid), i) := e in
  if decide (fid ∈ file_handles p) then
    match write_page d fid pid (fr_data (sl_frame (slot_at p i))) with
    | (d, Ok _) =>
        (update_slot (if sl_dirty (slot_at p i) then decrement_dirty_count p else p) i (with_dirty false), d)
    | (d, _) => (p, d)
    end
  else (p, d).
Definition flush_pages_shard (p : BufferPool) (d : Disk) (targets : gset key) : BufferPool * Disk :=
  let '(p, newest, _) := foldl (select_newest targets) (p, ∅, ∅) (seq 0 (length (slots p))) in
  foldl write_newest (p, d) (map_to_list newest).

(** A page that the prefetcher expects, if it is not cached. *)
Definition prefetch_page (p : BufferPool) (d : Disk) (k : key) : BufferPool * Disk :=
  match page_to_slots p !! k with
  | Some _ => (p, d)
  | None =>
      if decide (fst k ∈ file_handles p ∧ (snd k < fh_num_pages (disk_file d (fst k)))%Z) then
        match read_page d (fst k) (snd k) with
        | Ok data =>
            match evict_with_clock (S (max_capacity p)) p d with
            | (p, d, Some (Ok (Found i))) =>
                let p := install p i k data 0 false in
                (update_slot p i (with_frame (add_pins (-1))), d)
            | (p, d, _) => (p, d)
            end
        | _ => (p, d)
        end
      else (p, d)
  end.

(** ** The manager: sixteen shards *)

Definition num_shards : nat := 16.
Record BufferManager := mkManager { bm_shards : list BufferPool; bm_shutting_down : bool }.

Definition manager_new (cap : nat) : BufferManager :=
  mkManager (replicate num_shards (pool_new (cap / num_shards))) false.

Definition get_shard_idx (k : key) : nat :=
  let h := Z.lxor (fst k) (snd k) in
  let h := Z.lxor h (Z.shiftr h 33) in
  let h := u64_wrap (h * 0xff51afd7ed558ccd) in
  let h := Z.lxor h (Z.shiftr h 33) in
  let h := u64_wrap (h * 0xc4ceb9fe1a85ec53) in
  let h := Z.lxor h (Z.shiftr h 33) in
  Z.to_nat (Z.land h (Z.of_nat num_shards - 1)).

Definition shard_of (m : BufferManager) (k : key) : BufferPool :=
  default (pool_new 0) (bm_shards m !! get_shard_idx k).
Definition set_shard (m : BufferManager) (k : key) (p : BufferPool) : BufferManager :=
  mkManager (<[get_shard_idx k := p]> (bm_shards m)) (bm_shutting_down m).

Definition dirty_page_count (m : BufferManager) : Z := foldr (λ p n, (dirty_count p + n)%Z) 0%Z (bm_shards m).


(** ** The operations on one shard, as one alphabet *)

Inductive pool_op :=
| OPin (k : key) (tx_id read_ts : Z)
| OCreate (k : key) (tx_id : Z)
| OPinByKey (k : key) (version_mark : Z)
| OPinLatest (k : key)
| OUnpin (id : nat)
| OWrite (id : nat) (data : list Z)
| OUpdateTimestamps (k : key) (tx_id commit_ts : Z)
| ORollback (tx_id : Z)
| OEvictSuperseded (k : key) (keep_version : Z)
| OInvalidate (k : key)
| OReclaim (min_active_ts : Z)
| OEvictPage (k : key)
| OCheckpoint
| OFlushAll
| OFlushWith (handles : gset Z)
| OFlushPages (targets : gset key)
| OPrefetch (k : key).

Definition run_op (s : BufferPool * Disk) (o : pool_op) : BufferPool * Disk :=
  let '(p, d) := s in
  match o with
  | OPin k tx_id read_ts => fst (pin_page p d k tx_id read_ts)
  | OCreate k tx_id => fst (create_new_version p d k tx_id)
  | OPinByKey k v => (fst (pin_page_by_key p k v), d)
  | OPinLatest k => (fst (pin_latest_committed p d k), d)
  | OUnpin id => (unpin_frame p id, d)
  | OWrite id data => (write_frame p id data, d)
  | OUpdateTimestamps k tx_id commit_ts => (update_timestamps p k tx_id commit_ts, d)
  | ORollback tx_id => (rollback_versions p tx_id, d)
  | OEvictSuperseded k keep => (evict_superseded_committed_versions p k keep, d)
  | OInvalidate k => (invalidate_page p k, d)
  | OReclaim ts => (reclaim_expired_versions p ts, d)
  | OEvictPage k => evict_page p d k
  | OCheckpoint => fst (checkpoint_shard p d)
  | OFlushAll => flush_all_shard p d
  | OFlushWith handles => flush_all_with_handles handles p d
  | OFlushPages targets => flush_pages_shard p d targets
  | OPrefetch k => prefetch_page p d k
  end.
Definition run_ops (s : BufferPool * Disk) (ops : list pool_op) : BufferPool * Disk := foldl run_op s ops.

(** Transaction ids and commit timestamps leave the top bit free. *)
Definition id_ok (z : Z) : Prop := (0 ≤ z < 2 ^ 63)%Z.
Definition op_ok (o : pool_op) : Prop :=
  match o with
  | OPin _ tx _ | OCreate _ tx | ORollback tx => id_ok tx
  | OUpdateTimestamps _ tx ts => id_ok tx ∧ id_ok ts
  | _ => True
  end.

(** ** The page phase of a commit (transaction/transaction_manager.rs)

    The pages of one shard that the transaction wrote: pin its frames, give them
    the commit timestamp, write them out, release the pins and drop the versions
    they supersede.  The log record of the commit follows. *)
Definition pin_modified (tx_id : Z) (st : BufferPool * list nat) (k : key) : BufferPool * list nat :=
  match pin_page_by_key (fst st) k (tx_mark tx_id) with
  | (p, Some i) => (p, snd st ++ [fr_id (sl_frame (slot_at p i))])
  | (p, None) => (p, snd st)
  end.
Definition commit_pages (p : BufferPool) (d : Disk) (modified : list key) (tx_id commit_ts : Z) : BufferPool * Disk :=
  let '(p, frames) := foldl (pin_modified tx_id) (p, []) modified in
  let p := foldl (λ p k, update_timestamps p k tx_id commit_ts) p modified in
  let '(p, d) := flush_pages_shard p d (list_to_set modified) in
  let p := foldl unpin_frame p frames in
  (foldl (λ p k, evict_superseded_committed_versions p k commit_ts) p modified, d).
