(* ===== verification/BufferInv.v ===== *)
(** * The invariant of the buffer pool

    [pool_inv] holds of a new pool and is kept by every operation of a shard
    ([pool_inv_always]): the page table and the slots agree, an uncommitted frame
    is always dirty and there is one per page and transaction, the counters are
    in range.  The same case analysis shows which slots an operation may touch
    ([keeps]). *)
From Stdlib Require Import ZArith Lia Bool.
From stdpp Require Import base list gmap numbers.
From S2P Require Import Prelude BufferPool.

(** ** Version marks *)

Lemma uncommitted_testbit v : uncommitted v = Z.testbit v 63.
Proof. by apply land_bit. Qed.

Lemma committed_id v : id_ok v → uncommitted v = false.
Proof. intros [??]. rewrite uncommitted_testbit. apply (testbit_wrap_high v 63); lia. Qed.

Lemma uncommitted_mark t : uncommitted (tx_mark t) = true.
Proof. rewrite uncommitted_testbit. unfold tx_mark. rewrite Z.lor_spec. apply orb_true_r. Qed.

Lemma tx_mark_nonneg t : id_ok t → (0 ≤ tx_mark t)%Z.
Proof. intros [? _]. unfold tx_mark. apply Z.lor_nonneg. split; [done|]. done. Qed.

Lemma tx_mark_inj t u : id_ok t → id_ok u → tx_mark t = tx_mark u → t = u.
Proof.
  intros Ht Hu Heq. apply (bits_eq 63); [lia|exact Ht|exact Hu|]. intros i Hi.
  assert (Z.testbit (tx_mark t) i = Z.testbit (tx_mark u) i) as H by congruence.
  unfold tx_mark, UNCOMMITTED_BIT in H. rewrite !Z.lor_spec in H.
  change (Z.shiftl 1 63) with (2 ^ 63)%Z in H. rewrite Z.pow2_bits_false in H by lia.
  rewrite !orb_false_r in H. exact H.
Qed.

(** ** The invariant *)

Definition num_dirty (l : list BufferSlot) : Z := foldr (λ s n, (Z.b2z (sl_dirty s) + n)%Z) 0%Z l.

Definition slot_ok (next : nat) (s : BufferSlot) : Prop :=
  fr_id (sl_frame s) < next ∧ (0 ≤ fr_version (sl_frame s))%Z ∧
  (sl_key s = None → sl_dirty s = false ∧ fr_version (sl_frame s) = 0%Z) ∧
  (uncommitted (fr_version (sl_frame s)) = true → sl_dirty s = true).

(** While the frames of a page [x] are being dropped its index entry may still
    name emptied slots. *)
Record pool_inv (x : option key) (p : BufferPool) : Prop := {
  inv_cap : capacity p = length (slots p);
  inv_max : capacity p ≤ max_capacity p;
  inv_zero : capacity p = 0 → max_capacity p = 0;
  inv_clock : capacity p = 0 ∨ clock_ptr p < capacity p;
  inv_free : Forall (λ i, i < capacity p) (free_candidates p);
  inv_slots : Forall (slot_ok (next_frame p)) (slots p);
  inv_ids : ∀ i j s t, slots p !! i = Some s → slots p !! j = Some t →
      fr_id (sl_frame s) = fr_id (sl_frame t) → i = j;
  inv_unique : ∀ i j s t, slots p !! i = Some s → slots p !! j = Some t → sl_key s = sl_key t →
      uncommitted (fr_version (sl_frame s)) = true →
      fr_version (sl_frame s) = fr_version (sl_frame t) → i = j;
  inv_dirty : (num_dirty (slots p) ≤ dirty_count p)%Z;
  inv_indexed : ∀ i s k, slots p !! i = Some s → sl_key s = Some k → i ∈ slots_of p k;
  inv_index : ∀ i k, i ∈ slots_of p k →
      ∃ s, slots p !! i = Some s ∧ (sl_key s = Some k ∨ (x = Some k ∧ sl_key s = None));
  inv_nodup : ∀ k, NoDup (slots_of p k);
}.

Definition pool_ok : BufferPool → Prop := pool_inv None.

(** What a frame's owner sees of its slot. *)
Definition content (s : BufferSlot) : option key * nat * list Z * Z * bool :=
  (sl_key s, fr_id (sl_frame s), fr_data (sl_frame s), fr_version (sl_frame s), sl_dirty s).

(** Uncommitted frames outside [X] stay as they are. *)
Definition keeps (X : option key → nat → Z → Prop) (p q : BufferPool) : Prop :=
  ∀ i s, slots p !! i = Some s → uncommitted (fr_version (sl_frame s)) = true →
    ¬ X (sl_key s) (fr_id (sl_frame s)) (fr_version (sl_frame s)) →
    ∃ s', slots q !! i = Some s' ∧ content s' = content s.

Definition nothing : option key → nat → Z → Prop := λ _ _ _, False.

Lemma keeps_refl X p : keeps X p p.
Proof. intros i s Hs _ _. eauto. Qed.

Lemma keeps_trans X p q r : keeps X p q → keeps X q r → keeps X p r.
Proof.
  intros H1 H2 i s Hs Hu HX. destruct (H1 i s Hs Hu HX) as (s' & Hs' & E').
  unfold content in E'. injection E' as Ek Ei Ed Ev Edy.
  destruct (H2 i s' Hs') as (s'' & Hs'' & E''); [congruence|rewrite Ek, Ei, Ev; done|].
  exists s''. split; [done|]. unfold content in *. congruence.
Qed.

Lemma keeps_same X p q : slots p = slots q → keeps X p q.
Proof. intros E i s Hs _ _. rewrite <- E. eauto. Qed.

Lemma keeps_weaken (X Y : option key → nat → Z → Prop) p q :
  (∀ k i v, X k i v → Y k i v) → keeps X p q → keeps Y p q.
Proof. intros HXY H i s Hs Hu HY. apply H; auto. Qed.

(** An operation keeps the invariant and all uncommitted frames outside [X]. *)
Definition good (X : option key → nat → Z → Prop) (x : option key) (p q : BufferPool) : Prop :=
  pool_inv x q ∧ keeps X p q.

Lemma good_refl X x p : pool_inv x p → good X x p p.
Proof. split; [done|apply keeps_refl]. Qed.

Lemma good_trans X x p q r : good X x p q → good X x q r → good X x p r.
Proof. intros [_ H1] [H2 H3]. split; [done|]. by eapply keeps_trans. Qed.

Lemma good_weaken (X Y : option key → nat → Z → Prop) x p q :
  (∀ k i v, X k i v → Y k i v) → good X x p q → good Y x p q.
Proof. intros HXY [H1 H2]. split; [done|by eapply keeps_weaken]. Qed.

Lemma good_foldl {A} X x (f : BufferPool → A → BufferPool) (l : list A) p :
  pool_inv x p → (∀ q a, a ∈ l → pool_inv x q → good X x q (f q a)) → good X x p (foldl f p l).
Proof.
  revert p. induction l as [|a l IH]; intros p Hp Hf; [by apply good_refl|]. cbn [foldl].
  assert (good X x p (f p a)) as Hg by (apply Hf; [left|done]).
  eapply good_trans; [exact Hg|]. apply IH; [apply Hg|]. intros q b Hb. apply Hf. by right.
Qed.

Create HintDb pool.
#[export] Hint Resolve keeps_refl good_refl keeps_same : pool.

(** ** Replacing one slot *)

Lemma num_dirty_insert l i s s' : l !! i = Some s →
  num_dirty (<[i := s']> l) = (num_dirty l - Z.b2z (sl_dirty s) + Z.b2z (sl_dirty s'))%Z.
Proof.
  revert i. induction l as [|a l IH]; intros [|i] Hs; simplify_eq/=; [lia|]. rewrite (IH i Hs). lia.
Qed.

Lemma num_dirty_nonneg l : (0 ≤ num_dirty l)%Z.
Proof. induction l as [|s l IH]; cbn [num_dirty foldr]; [lia|]. fold (num_dirty l). destruct (sl_dirty s); cbn; lia. Qed.

Lemma num_dirty_app l m : num_dirty (l ++ m) = (num_dirty l + num_dirty m)%Z.
Proof. induction l as [|s l IH]; [done|]. cbn [app num_dirty foldr]. fold (num_dirty l) (num_dirty (l ++ m)). lia. Qed.

Lemma num_dirty_pos l i s : l !! i = Some s → sl_dirty s = true → (1 ≤ num_dirty l)%Z.
Proof.
  intros Hs Hd. pose proof (num_dirty_insert l i s (free_slot 0) Hs) as H. rewrite Hd in H. cbn in H.
  pose proof (num_dirty_nonneg (<[i := free_slot 0]> l)). lia.
Qed.

Lemma alter_insert_some {A} (f : A → A) (l : list A) i s : l !! i = Some s → alter f i l = <[i := f s]> l.
Proof.
  intros Hs. apply list_eq. intros j. destruct (decide (i = j)) as [<-|].
  - rewrite list_lookup_alter_eq, Hs, list_lookup_insert_eq; [done|]. by eapply lookup_lt_Some.
  - by rewrite list_lookup_alter_ne, list_lookup_insert_ne by done.
Qed.

Lemma slot_at_some p i s : slots p !! i = Some s → slot_at p i = s.
Proof. unfold slot_at. by intros ->. Qed.

Lemma slot_ok_mono n n' s : n ≤ n' → slot_ok n s → slot_ok n' s.
Proof. intros ? (?&?&?&?). split; [lia|done]. Qed.

Lemma keeps_insert (X : option key → nat → Z → Prop) p q i s s' :
  slots p !! i = Some s → slots q = <[i := s']> (slots p) →
  (uncommitted (fr_version (sl_frame s)) = true →
   content s' = content s ∨ X (sl_key s) (fr_id (sl_frame s)) (fr_version (sl_frame s))) →
  keeps X p q.
Proof.
  intros Hs Eq Hc j t Ht Hu HX. rewrite Eq. destruct (decide (i = j)) as [<-|Hne].
  - assert (t = s) as -> by congruence. exists s'. rewrite list_lookup_insert_eq by (by eapply lookup_lt_Some).
    split; [done|]. destruct (Hc Hu); [done|tauto].
  - exists t. by rewrite list_lookup_insert_ne.
Qed.

(** The one step every operation is made of: slot [i] goes from [s] to [s'], with
    the frame it had or a fresh one, and the page table follows. *)
Lemma replace_ok x p q i s s' :
  pool_inv x p → slots p !! i = Some s → slots q = <[i := s']> (slots p) →
  capacity q = capacity p → max_capacity q = max_capacity p → clock_ptr q = clock_ptr p →
  free_candidates q = free_candidates p →
  (fr_id (sl_frame s') = fr_id (sl_frame s) ∧ next_frame q = next_frame p ∨
   fr_id (sl_frame s') = next_frame p ∧ next_frame q = S (next_frame p)) →
  slot_ok (next_frame q) s' →
  (uncommitted (fr_version (sl_frame s')) = true →
   ∀ j t, j ≠ i → slots p !! j = Some t → sl_key t = sl_key s' → fr_version (sl_frame t) ≠ fr_version (sl_frame s')) →
  (Z.b2z (sl_dirty s') - Z.b2z (sl_dirty s) ≤ dirty_count q - dirty_count p)%Z →
  (∀ k, sl_key s' = Some k → i ∈ slots_of q k) →
  (∀ k, i ∈ slots_of q k → sl_key s' = Some k ∨ (x = Some k ∧ sl_key s' = None)) →
  (∀ j k, j ≠ i → j ∈ slots_of q k ↔ j ∈ slots_of p k) →
  (∀ k, NoDup (slots_of q k)) →
  pool_inv x q.
Proof.
  intros Hp Hs Es Ec Em Ecl Ef Hid Hok Hun Hd Hin Hin' Hoth Hnd.
  pose proof (lookup_lt_Some _ _ _ Hs) as Hlt.
  assert (Forall (slot_ok (next_frame q)) (slots p)) as Hall.
  { eapply Forall_impl; [|apply (inv_slots x p Hp)]. intros t. apply slot_ok_mono. lia. }
  assert (∀ j t, slots p !! j = Some t → fr_id (sl_frame t) < next_frame p) as Hold.
  { intros j t Ht. pose proof (inv_slots x p Hp) as Hf. rewrite Forall_lookup in Hf. apply (Hf j t Ht). }
  assert (∀ j t, slots q !! j = Some t → (j = i ∧ t = s') ∨ (j ≠ i ∧ slots p !! j = Some t)) as Hq.
  { intros j t Ht. rewrite Es in Ht. destruct (decide (j = i)) as [->|Hne].
    - rewrite list_lookup_insert_eq in Ht by done. left. by simplify_eq.
    - rewrite list_lookup_insert_ne in Ht by done. by right. }
  constructor.
  - rewrite Es, length_insert, Ec. apply Hp.
  - rewrite Ec, Em. apply Hp.
  - rewrite Ec, Em. apply Hp.
  - rewrite Ec, Ecl. apply Hp.
  - rewrite Ec, Ef. apply Hp.
  - rewrite Es. by apply Forall_insert.
  - intros j j' t t' Ht Ht' E.
    destruct (Hq j t Ht) as [[-> ->]|[Hne Ht0]], (Hq j' t' Ht') as [[-> ->]|[Hne' Ht0']]; [done| | |].
    + destruct Hid as [[Hid _]|[Hid _]].
      * exfalso. apply Hne'. symmetry. apply (inv_ids x p Hp i j' s t'); [done..|congruence].
      * pose proof (Hold j' t' Ht0'). lia.
    + destruct Hid as [[Hid _]|[Hid _]].
      * exfalso. apply Hne. apply (inv_ids x p Hp j i t s); [done..|congruence].
      * pose proof (Hold j t Ht0). lia.
    + by apply (inv_ids x p Hp j j' t t').
  - intros j j' t t' Ht Ht' Ek Hu Ev.
    destruct (Hq j t Ht) as [[-> ->]|[Hne Ht0]], (Hq j' t' Ht') as [[-> ->]|[Hne' Ht0']]; [done| | |].
    + exfalso. apply (Hun Hu j' t' Hne' Ht0'); congruence.
    + exfalso. apply (Hun ltac:(congruence) j t Hne Ht0); congruence.
    + by apply (inv_unique x p Hp j j' t t').
  - rewrite Es, (num_dirty_insert _ _ s) by done. pose proof (inv_dirty x p Hp). lia.
  - intros j t k Ht Hk. destruct (Hq j t Ht) as [[-> ->]|[Hne Ht0]]; [by apply Hin|].
    apply Hoth; [done|]. by eapply inv_indexed.
  - intros j k Hj. destruct (decide (j = i)) as [->|Hne].
    + exists s'. rewrite Es, list_lookup_insert_eq by done. split; [done|]. by apply Hin'.
    + apply Hoth in Hj; [|done]. destruct (inv_index x p Hp j k Hj) as (t & Ht & Hk).
      exists t. by rewrite Es, list_lookup_insert_ne.
  - exact Hnd.
Qed.

(** A slot that keeps its key and its frame. *)
Lemma relabel_ok x p q i s s' :
  pool_inv x p → slots p !! i = Some s → slots q = <[i := s']> (slots p) →
  capacity q = capacity p → max_capacity q = max_capacity p → clock_ptr q = clock_ptr p →
  free_candidates q = free_candidates p → next_frame q = next_frame p → page_to_slots q = page_to_slots p →
  sl_key s' = sl_key s → fr_id (sl_frame s') = fr_id (sl_frame s) → (0 ≤ fr_version (sl_frame s'))%Z →
  (sl_key s' = None → sl_dirty s' = false ∧ fr_version (sl_frame s') = 0%Z) →
  (uncommitted (fr_version (sl_frame s')) = true → sl_dirty s' = true ∧ fr_version (sl_frame s') = fr_version (sl_frame s)) →
  (Z.b2z (sl_dirty s') - Z.b2z (sl_dirty s) ≤ dirty_count q - dirty_count p)%Z →
  pool_inv x q.
Proof.
  intros Hp Hs Es Ec Em Ecl Ef En Ep Ek Ei Hnn H0 Hu Hd.
  assert (∀ k, slots_of q k = slots_of p k) as Eof by (intros k; unfold slots_of; by rewrite Ep).
  eapply (replace_ok x p q i s s'); try done; [by left| | | | | |].
  - split; [|split; [done|split; [done|intros Hv; by apply Hu]]]. rewrite Ei, En.
    pose proof (inv_slots x p Hp) as Hf. rewrite Forall_lookup in Hf. apply (Hf i s Hs).
  - intros Hv j t Hne Ht Ekt Ev. destruct (Hu Hv) as [_ Ev']. apply Hne.
    apply (inv_unique x p Hp j i t s); [done..|congruence|congruence|congruence].
  - intros k Hk. rewrite Eof. eapply inv_indexed; [done..|congruence].
  - intros k Hk. rewrite Eof in Hk. destruct (inv_index x p Hp i k Hk) as (t & Ht & Hor).
    assert (t = s) as -> by congruence. by rewrite Ek.
  - intros j k _. by rewrite Eof.
  - intros k. rewrite Eof. apply Hp.
Qed.

(** ** The elementary steps *)

Lemma free_slot_ok n m : n < m → slot_ok m (free_slot n).
Proof. intros. split; [done|]. split; [done|]. split; [done|]. cbn. by rewrite committed_id. Qed.

Lemma slot_ok_at x p i s : pool_inv x p → slots p !! i = Some s → slot_ok (next_frame p) s.
Proof. intros Hp Hs. pose proof (inv_slots x p Hp) as Hf. rewrite Forall_lookup in Hf. apply (Hf i s Hs). Qed.

Lemma pool_new_ok n : pool_ok (pool_new n).
Proof.
  unfold pool_new. set (c := INITIAL_SLOTS_PER_SHARD `min` n).
  assert (∀ i s, map free_slot (seq 0 c) !! i = Some s → s = free_slot i ∧ i < c) as Hl.
  { intros i s Hs. change (map free_slot (seq 0 c)) with (free_slot <$> seq 0 c) in Hs. rewrite list_lookup_fmap in Hs.
    destruct (seq 0 c !! i) as [j|] eqn:E; [|done]. apply lookup_seq in E as [-> ?]. by simplify_eq/=. }
  constructor; cbn [capacity slots max_capacity clock_ptr free_candidates next_frame dirty_count].
  - by rewrite length_map, length_seq.
  - lia.
  - unfold c, INITIAL_SLOTS_PER_SHARD. lia.
  - lia.
  - done.
  - apply Forall_lookup. intros i s Hs. destruct (Hl i s Hs) as [-> ?]. by apply free_slot_ok.
  - intros i j s t Hs Ht E. destruct (Hl i s Hs) as [-> ?], (Hl j t Ht) as [-> ?]. done.
  - intros i j s t Hs Ht _ Hu. destruct (Hl i s Hs) as [-> ?]. cbn in Hu. by rewrite committed_id in Hu.
  - clear. induction (seq 0 c) as [|i l IH]; cbn [map num_dirty foldr]; [lia|]. done.
  - intros i s k Hs Hk. destruct (Hl i s Hs) as [-> ?]. done.
  - intros i k Hi. unfold slots_of in Hi. cbn in Hi. rewrite lookup_empty in Hi. cbn in Hi. by apply not_elem_of_nil in Hi.
  - intros k. unfold slots_of. cbn. rewrite lookup_empty. constructor.
Qed.

(** Steps that leave the slots and the page table alone. *)
Lemma meta_ok x p q :
  pool_inv x p → slots q = slots p → page_to_slots q = page_to_slots p → next_frame q = next_frame p →
  capacity q = capacity p → max_capacity q = max_capacity p →
  (capacity p = 0 ∨ clock_ptr q < capacity p) → Forall (λ i, i < capacity p) (free_candidates q) →
  (dirty_count p ≤ dirty_count q)%Z → pool_inv x q.
Proof.
  intros Hp Es Ep En Ec Em Hc Hf Hd.
  destruct Hp as [H1 H2 H3 H4 H5 H6 H7 H8 H9 H10 H11 H12].
  unfold slots_of in *.
  constructor; unfold slots_of; rewrite ?Es, ?Ep, ?En, ?Ec, ?Em; try done. lia.
Qed.

Lemma push_free_ok x p i : pool_inv x p → i < capacity p → pool_inv x (set_free p (free_candidates p ++ [i])).
Proof.
  intros Hp Hi. eapply meta_ok; try done; [apply Hp|cbn].
  apply Forall_app. split; [apply Hp|by repeat constructor].
Qed.

Lemma add_handle_ok x p fid : pool_inv x p → pool_inv x (add_handle p fid).
Proof. intros Hp. eapply meta_ok; try done; apply Hp. Qed.

(** Index edits as [elem_of] facts. *)
Lemma slots_of_unindex p k i k' :
  slots_of (unindex p k i) k' = if decide (k = k') then filter (λ j, j ≠ i) (slots_of p k') else slots_of p k'.
Proof.
  unfold slots_of, unindex. cbn. destruct (decide (k = k')) as [->|].
  - rewrite lookup_alter_eq. by destruct (page_to_slots p !! k').
  - by rewrite lookup_alter_ne.
Qed.

Lemma elem_of_unindex p k i j k' :
  j ∈ slots_of (unindex p k i) k' ↔ j ∈ slots_of p k' ∧ (k = k' → j ≠ i).
Proof.
  rewrite slots_of_unindex. destruct (decide (k = k')) as [->|].
  - rewrite list_elem_of_filter. naive_solver.
  - naive_solver.
Qed.

Lemma NoDup_unindex p k i k' : NoDup (slots_of p k') → NoDup (slots_of (unindex p k i) k').
Proof. intros H. rewrite slots_of_unindex. case_decide; [by apply list.NoDup_filter|done]. Qed.

Lemma decrement_dirty_ge p : (0 ≤ dirty_count p)%Z → (dirty_count p - 1 ≤ dirty_count (decrement_dirty_count p) ≤ dirty_count p)%Z.
Proof. cbn. case_decide; lia. Qed.

Lemma dirty_count_nonneg x p : pool_inv x p → (0 ≤ dirty_count p)%Z.
Proof. intros Hp. pose proof (inv_dirty x p Hp). pose proof (num_dirty_nonneg (slots p)). lia. Qed.

(** [clear_slot]'s effect, field by field. *)
Lemma clear_slot_fields p i s : slots p !! i = Some s →
  slots (clear_slot p i) = <[i := free_slot (next_frame p)]> (slots p) ∧
  capacity (clear_slot p i) = capacity p ∧ max_capacity (clear_slot p i) = max_capacity p ∧
  clock_ptr (clear_slot p i) = clock_ptr p ∧ free_candidates (clear_slot p i) = free_candidates p ∧
  next_frame (clear_slot p i) = S (next_frame p) ∧ page_to_slots (clear_slot p i) = page_to_slots p ∧
  file_handles (clear_slot p i) = file_handles p ∧
  dirty_count (clear_slot p i) = if sl_dirty s then dirty_count (decrement_dirty_count p) else dirty_count p.
Proof.
  intros Hs. unfold clear_slot. rewrite (slot_at_some p i s Hs). destruct (sl_dirty s);
    cbn [bump_frame update_slot set_slots slots decrement_dirty_count set_dirty_count capacity max_capacity
         clock_ptr free_candidates next_frame page_to_slots file_handles dirty_count];
    rewrite (alter_insert_some _ _ _ s) by done; done.
Qed.

Lemma clear_dirty_bound x p i s : pool_inv x p → slots p !! i = Some s →
  (Z.b2z false - Z.b2z (sl_dirty s) ≤ dirty_count (clear_slot p i) - dirty_count p)%Z.
Proof.
  intros Hp Hs. destruct (clear_slot_fields p i s Hs) as (_&_&_&_&_&_&_&_&->).
  pose proof (decrement_dirty_ge p (dirty_count_nonneg x p Hp)). destruct (sl_dirty s); cbn [Z.b2z]; lia.
Qed.

Lemma clear_ok x p i s : pool_inv x p → slots p !! i = Some s → sl_key s = None ∨ sl_key s = x →
  pool_inv x (clear_slot p i).
Proof.
  intros Hp Hs Hk. pose proof (clear_dirty_bound x p i s Hp Hs) as Hd.
  destruct (clear_slot_fields p i s Hs) as (E1&E2&E3&E4&E5&E6&E7&_&_).
  assert (∀ k, slots_of (clear_slot p i) k = slots_of p k) as Eof by (intros k; unfold slots_of; by rewrite E7).
  eapply (replace_ok x p _ i s (free_slot (next_frame p))); try done; [by right|..].
  - rewrite E6. apply free_slot_ok. lia.
  - intros k Hi. right. rewrite Eof in Hi. destruct (inv_index x p Hp i k Hi) as (t & Ht & Hor).
    assert (t = s) as -> by congruence. destruct Hk as [Hk|Hk], Hor as [Hor|[Hor _]]; (split; [congruence|done]).
  - intros j k _. by rewrite Eof.
  - intros k. rewrite Eof. apply Hp.
Qed.

(** What dropping a slot may touch. *)
Definition at_slot (s : BufferSlot) : option key → nat → Z → Prop := λ _ id _, id = fr_id (sl_frame s).

Lemma slots_drop p i s : slots p !! i = Some s → slots (drop_slot p i) = <[i := free_slot (next_frame p)]> (slots p).
Proof.
  intros Hs. unfold drop_slot. rewrite (slot_at_some p i s Hs).
  destruct (sl_key s) as [k|]; [apply (clear_slot_fields (unindex p k i) i s Hs)|apply (clear_slot_fields p i s Hs)].
Qed.

Lemma drop_ok p i s : pool_ok p → slots p !! i = Some s → pool_ok (drop_slot p i).
Proof.
  intros Hp Hs. unfold drop_slot. rewrite (slot_at_some p i s Hs).
  destruct (sl_key s) as [k|] eqn:Ek; [|eapply clear_ok; eauto].
  destruct (clear_slot_fields (unindex p k i) i s Hs) as (E1&E2&E3&E4&E5&E6&E7&_&E9).
  assert (∀ k', slots_of (clear_slot (unindex p k i) i) k' = slots_of (unindex p k i) k') as Eof
    by (intros k'; unfold slots_of; by rewrite E7).
  eapply (replace_ok None p _ i s (free_slot (next_frame p))); try done; [by right|..].
  - rewrite E6. apply free_slot_ok. cbn. lia.
  - rewrite E9. pose proof (decrement_dirty_ge p (dirty_count_nonneg _ p Hp)).
    change (dirty_count (decrement_dirty_count (unindex p k i))) with (dirty_count (decrement_dirty_count p)).
    change (dirty_count (unindex p k i)) with (dirty_count p). destruct (sl_dirty s); cbn [Z.b2z free_slot sl_dirty]; lia.
  - intros k' Hi. rewrite Eof, elem_of_unindex in Hi. destruct Hi as [Hi Hne]. exfalso.
    destruct (inv_index None p Hp i k' Hi) as (t & Ht & [Hor|[]]); [|done].
    apply Hne; [|done]. congruence.
  - intros j k' Hne. rewrite Eof, elem_of_unindex. tauto.
  - intros k'. rewrite Eof. apply NoDup_unindex, Hp.
Qed.

(** ** Eviction *)

(** Eviction moves the hand, clears reference bits and adds slots: what the
    slots hold and the page table stay. *)
Definition extends (p q : BufferPool) : Prop :=
  page_to_slots q = page_to_slots p ∧ file_handles q = file_handles p ∧ dirty_count q = dirty_count p ∧
  max_capacity q = max_capacity p ∧
  ∀ i s, slots p !! i = Some s → ∃ s', slots q !! i = Some s' ∧ content s' = content s ∧
                                      fr_pins (sl_frame s') = fr_pins (sl_frame s).

Lemma extends_refl p : extends p p.
Proof. repeat split; eauto. Qed.

Lemma extends_trans p q r : extends p q → extends q r → extends p r.
Proof.
  intros (E1&E2&E3&E4&H1) (F1&F2&F3&F4&H2). repeat split; try congruence. intros i s Hs.
  destruct (H1 i s Hs) as (s' & Hs' & E & Ep). destruct (H2 i s' Hs') as (s'' & Hs'' & E' & Ep').
  exists s''. repeat split; congruence.
Qed.

Lemma extends_same p q : page_to_slots q = page_to_slots p → file_handles q = file_handles p →
  dirty_count q = dirty_count p → max_capacity q = max_capacity p → slots q = slots p → extends p q.
Proof. intros E1 E2 E3 E4 E5. repeat split; try done. rewrite E5. eauto. Qed.

Lemma extends_keeps X p q : extends p q → keeps X p q.
Proof. intros (_&_&_&_&H) i s Hs _ _. destruct (H i s Hs) as (s' & ? & ? & _). eauto. Qed.

#[export] Hint Resolve extends_refl extends_same : pool.

Lemma tick_ok x p : pool_inv x p → pool_inv x (set_clock p ((clock_ptr p + 1) mod capacity p)).
Proof.
  intros Hp. eapply meta_ok; try done; [cbn|apply Hp].
  destruct (decide (capacity p = 0)); [by left|right]. by apply Nat.mod_upper_bound.
Qed.

Lemma unref_ok x p i s b : pool_inv x p → slots p !! i = Some s →
  pool_inv x (update_slot p i (with_referenced b)) ∧ extends p (update_slot p i (with_referenced b)).
Proof.
  intros Hp Hs. assert (slots (update_slot p i (with_referenced b)) = <[i := with_referenced b s]> (slots p)) as Es
    by (cbn; by apply alter_insert_some).
  split.
  - destruct (slot_ok_at x p i s Hp Hs) as (_ & Hnn & H0 & H1).
    eapply (relabel_ok x p _ i s (with_referenced b s)); try done; [by auto|cbn; lia].
  - split; [done|]. split; [done|]. split; [done|]. split; [done|]. intros j t Ht. rewrite Es.
    destruct (decide (i = j)) as [<-|]; [|rewrite list_lookup_insert_ne by done; eauto].
    rewrite list_lookup_insert_eq by (by eapply lookup_lt_Some). eexists. split; [done|]. by simplify_eq.
Qed.

Lemma slot_in_range x p i : pool_inv x p → i < capacity p → ∃ s, slots p !! i = Some s ∧ slot_at p i = s.
Proof.
  intros Hp Hi. rewrite (inv_cap x p Hp) in Hi. destruct (lookup_lt_is_Some_2 _ _ Hi) as [s Hs].
  exists s. split; [done|by apply slot_at_some].
Qed.

(** A slot the sweep or the queue may hand out. *)
Definition takeable (p : BufferPool) (i : nat) : Prop :=
  ∃ s, slots p !! i = Some s ∧ fr_pins (sl_frame s) = 0%Z ∧ uncommitted (fr_version (sl_frame s)) = false.

Lemma clean_committed x p i s : pool_inv x p → slots p !! i = Some s → sl_dirty s = false →
  uncommitted (fr_version (sl_frame s)) = false.
Proof.
  intros Hp Hs Hd. destruct (slot_ok_at x p i s Hp Hs) as (_ & _ & _ & H).
  destruct (uncommitted _); [|done]. rewrite H in Hd; done.
Qed.

Lemma clock_sweep_ok n p d p' d' r :
  pool_ok p → (n = 0 ∨ capacity p ≠ 0) → clock_sweep n p d = (p', d', r) →
  pool_ok p' ∧ extends p p' ∧ capacity p' = capacity p ∧ (∀ i, r = SwFound i → takeable p' i).
Proof.
  revert p. induction n as [|n IH]; intros p Hp Hn Heq; cbn [clock_sweep] in Heq.
  { injection Heq as <- <- <-. split_and!; try done. apply extends_refl. }
  assert (capacity p ≠ 0) as Hc by (destruct Hn; done).
  set (q := set_clock p ((clock_ptr p + 1) mod capacity p)) in *.
  assert (pool_ok q) as Hq by (by apply tick_ok).
  assert (extends p q) as Hpq by (by apply extends_same).
  assert (clock_ptr p < capacity p) as Hlt by (destruct (inv_clock _ p Hp); done).
  destruct (slot_in_range None q (clock_ptr p) Hq Hlt) as (s & Hs & Es). rewrite Es in Heq.
  assert (∀ pp, pool_ok pp → extends p pp → capacity pp = capacity p → clock_sweep n pp d = (p', d', r) →
    pool_ok p' ∧ extends p p' ∧ capacity p' = capacity p ∧ (∀ i, r = SwFound i → takeable p' i)) as Hrec.
  { intros pp Hpp Hext Ecap Hsw. destruct (IH pp Hpp) as (H1 & H2 & H3 & H4); [right; congruence|done|].
    split; [done|]. split; [by eapply extends_trans|]. split; [congruence|done]. }
  assert (∀ dd, uncommitted (fr_version (sl_frame s)) = false → fr_pins (sl_frame s) = 0%Z →
    (q, dd, SwFound (clock_ptr p)) = (p', d', r) →
    pool_ok p' ∧ extends p p' ∧ capacity p' = capacity p ∧ (∀ i, r = SwFound i → takeable p' i)) as Hfound.
  { intros dd Hu Hpin E. injection E as <- <- <-. split; [done|]. split; [done|]. split; [done|].
    intros i Hi. injection Hi as <-. exists s. done. }
  destruct (decide (fr_pins (sl_frame s) = 0%Z)) as [Hpin|]; [|by apply (Hrec q)].
  destruct (sl_referenced s).
  { destruct (unref_ok None q _ s false Hq Hs) as [H1 H2].
    apply (Hrec (update_slot q (clock_ptr p) (with_referenced false))); [done| |done|done]. exact (extends_trans _ _ _ Hpq H2). }
  destruct (sl_dirty s) eqn:Hd; [|by eapply Hfound; [eapply (clean_committed None q)|..]].
  destruct (uncommitted (fr_version (sl_frame s))) eqn:Hu; [by apply (Hrec q)|].
  destruct (sl_key s) as [[fid pid]|]; [|by eapply Hfound].
  destruct (decide (fid ∈ file_handles q)); [|by eapply Hfound].
  destruct (write_page d fid pid _) as [d1 [[]|er|]]; [by eapply Hfound| |by eapply Hfound].
  injection Heq as <- <- <-. split; [done|]. split; [done|]. split; done.
Qed.

Lemma grow_fields p : capacity p < (capacity p * 2) `min` max_capacity p →
  slots (grow_pool p) = slots p ++ map free_slot (seq (next_frame p) ((capacity p * 2) `min` max_capacity p - capacity p)).
Proof. intros H. unfold grow_pool. destruct (decide _); [lia|done]. Qed.

Lemma lookup_free_slots n m i s : map free_slot (seq n m) !! i = Some s → s = free_slot (n + i) ∧ i < m.
Proof.
  intros Hs. change (map free_slot (seq n m)) with (free_slot <$> seq n m) in Hs. rewrite list_lookup_fmap in Hs.
  destruct (seq n m !! i) as [j|] eqn:E; [|done]. apply lookup_seq in E as [-> ?]. by simplify_eq/=.
Qed.

Lemma num_dirty_free l : num_dirty (map free_slot l) = 0%Z.
Proof. induction l as [|i l IH]; [done|]. cbn [map num_dirty foldr]. fold (num_dirty (map free_slot l)). rewrite IH. done. Qed.

Lemma lookup_app_cases (l : list BufferSlot) n m i s : (l ++ map free_slot (seq n m)) !! i = Some s →
  l !! i = Some s ∨ (length l ≤ i ∧ s = free_slot (n + (i - length l)) ∧ i - length l < m).
Proof.
  intros Hs. apply lookup_app_Some in Hs as [Hs|[Hge Hs]]; [by left|right].
  apply lookup_free_slots in Hs as [-> ?]. done.
Qed.

Lemma grow_ok p : pool_ok p → pool_ok (grow_pool p).
Proof.
  intros Hp. unfold grow_pool. set (c := (capacity p * 2) `min` max_capacity p).
  destruct (decide (c ≤ capacity p)) as [|Hgt]; [done|]. pose proof (inv_cap None p Hp) as Hcap.
  pose proof (λ i s, slot_ok_at None p i s Hp) as Hok.
  constructor; cbn [capacity slots max_capacity clock_ptr free_candidates next_frame dirty_count slots_of page_to_slots].
  - rewrite length_app, length_map, length_seq. lia.
  - lia.
  - lia.
  - destruct (inv_clock None p Hp); [|lia]. pose proof (inv_zero None p Hp). lia.
  - apply Forall_app. split.
    + eapply Forall_impl; [|apply (inv_free None p Hp)]. cbn. lia.
    + apply Forall_lookup. intros i j Hj. apply lookup_seq in Hj. lia.
  - apply Forall_app. split.
    + eapply Forall_impl; [|apply (inv_slots None p Hp)]. intros s. apply slot_ok_mono. lia.
    + apply Forall_lookup. intros i s Hs. apply lookup_free_slots in Hs as [-> ?]. apply free_slot_ok. lia.
  - intros i j s t Hs Ht E. apply lookup_app_cases in Hs, Ht.
    destruct Hs as [Hs|(?&->&?)], Ht as [Ht|(?&->&?)]; cbn in E.
    + by apply (inv_ids None p Hp i j s t).
    + destruct (Hok i s Hs). lia.
    + destruct (Hok j t Ht). lia.
    + lia.
  - intros i j s t Hs Ht Ek Hu Ev. apply lookup_app_cases in Hs, Ht.
    destruct Hs as [Hs|(?&->&?)]; [|by rewrite committed_id in Hu].
    destruct Ht as [Ht|(?&->&?)]; [by apply (inv_unique None p Hp i j s t)|].
    rewrite Ev in Hu. by rewrite committed_id in Hu.
  - rewrite num_dirty_app, num_dirty_free. pose proof (inv_dirty None p Hp). lia.
  - intros i s k Hs Hk. apply lookup_app_cases in Hs as [Hs|(?&->&?)]; [|done]. by apply (inv_indexed None p Hp i s).
  - intros i k Hi. destruct (inv_index None p Hp i k Hi) as (s & Hs & Hk). exists s.
    split; [|done]. by apply lookup_app_l_Some.
  - apply (inv_nodup None p Hp).
Qed.

Lemma grow_extends p : extends p (grow_pool p).
Proof.
  unfold grow_pool. destruct (decide _); [apply extends_refl|]. repeat split. intros i s Hs. exists s.
  split; [|done]. cbn. by apply lookup_app_l_Some.
Qed.

Lemma grow_capacity p : capacity p ≠ 0 → capacity p < max_capacity p → capacity p < capacity (grow_pool p).
Proof. intros. unfold grow_pool. destruct (decide _); cbn; lia. Qed.

(** The sweep loop ends: the pool grows at every turn and only up to its maximum. *)
Lemma evict_loop_ok fuel p d p' d' r :
  pool_ok p → max_capacity p - capacity p < fuel → evict_loop fuel p d = (p', d', r) →
  pool_ok p' ∧ extends p p' ∧ r ≠ None ∧ (∀ i, r = Some (Ok (Found i)) → takeable p' i).
Proof.
  revert p d. induction fuel as [|fuel IH]; intros p d Hp Hf Heq; [lia|]. cbn [evict_loop] in Heq.
  destruct (clock_sweep (capacity p) p d) as [[q d1] sw] eqn:Hsw.
  assert (capacity p = 0 ∨ capacity p ≠ 0) as Hdec by lia.
  destruct (clock_sweep_ok _ _ _ _ _ _ Hp Hdec Hsw) as (Hq & Hext & Ecap & Hfound).
  destruct sw as [i| |e].
  - injection Heq as <- <- <-. split; [done|]. split; [done|]. split; [done|]. intros j Hj. injection Hj as <-. by apply Hfound.
  - assert (max_capacity q = max_capacity p) as Em by apply Hext.
    destruct (decide (capacity q < max_capacity q)) as [Hlt|].
    + pose proof (inv_zero None q Hq) as Hz.
      pose proof (grow_capacity q ltac:(lia) Hlt) as Hg.
      destruct (IH (grow_pool q) d1) as (H1 & H2 & H3); [by apply grow_ok| |done|].
      { destruct (grow_extends q) as (_&_&_&E&_). lia. }
      split; [done|]. split; [|done]. eapply extends_trans; [done|]. eapply extends_trans; [apply grow_extends|done].
    + injection Heq as <- <- <-. done.
  - injection Heq as <- <- <-. done.
Qed.

Lemma pop_candidate_ok p q o : pool_ok p → pop_candidate p = (q, o) →
  pool_ok q ∧ extends p q ∧ capacity q = capacity p ∧ (∀ i, o = Some i → takeable q i).
Proof.
  intros Hp Heq. unfold pop_candidate in Heq. destruct (free_candidates p) as [|i rest] eqn:Ef.
  { injection Heq as <- <-. split_and!; try done. apply extends_refl. }
  pose proof (inv_free None p Hp) as Hf. rewrite Ef in Hf. inversion Hf as [|? ? Hi Hrest]; subst.
  destruct (slot_in_range None p i Hp Hi) as (s & Hs & Es). rewrite Es in Heq.
  destruct (decide _) as [(Hk & Hpin & Hd)|]; injection Heq as <- <-.
  - split; [eapply meta_ok; try done; apply Hp|]. split; [by apply extends_same|]. split; [done|].
    intros j Hj. injection Hj as <-. exists s. split; [done|]. split; [done|]. by eapply clean_committed.
  - split; [eapply meta_ok; try done; [apply Hp|cbn]|split; [by apply extends_same|done]].
    apply Forall_app. by repeat constructor.
Qed.

Lemma evict_with_clock_ok fuel p d p' d' r :
  pool_ok p → max_capacity p - capacity p < fuel → evict_with_clock fuel p d = (p', d', r) →
  pool_ok p' ∧ extends p p' ∧ r ≠ None ∧ (∀ i, r = Some (Ok (Found i)) → takeable p' i).
Proof.
  intros Hp Hf Heq. unfold evict_with_clock in Heq. destruct (pop_candidate p) as [q o] eqn:Hpop.
  destruct (pop_candidate_ok p q o Hp Hpop) as (Hq & Hext & Ecap & Hi). destruct o as [i|].
  - injection Heq as <- <- <-. split; [done|]. split; [done|]. split; [done|].
    intros j Hj. injection Hj as <-. by apply Hi.
  - assert (max_capacity q = max_capacity p) as Em by apply Hext.
    destruct (evict_loop_ok fuel q d p' d' r Hq ltac:(lia) Heq) as (H1 & H2 & H3).
    split; [done|]. split; [by eapply extends_trans|done].
Qed.

Lemma evict_retry_ok n p d p' d' r :
  pool_ok p → evict_retry n p d = (p', d', r) →
  pool_ok p' ∧ extends p p' ∧ (∀ i, r = Ok i → takeable p' i).
Proof.
  revert p d. induction n as [|n IH]; intros p d Hp Heq.
  { injection Heq as <- <- <-. split_and!; try done. apply extends_refl. }
  cbn [evict_retry] in Heq. destruct (evict_with_clock (S (max_capacity p)) p d) as [[q d1] o] eqn:Hev.
  assert (max_capacity p - capacity p < S (max_capacity p)) as Hfuel by lia.
  destruct (evict_with_clock_ok _ _ _ _ _ _ Hp Hfuel Hev) as (Hq & Hext & Hn & Hi).
  destruct o as [[[i|]|e|]|]; [| |by injection Heq as <- <- <-..].
  - injection Heq as <- <- <-. split; [done|]. split; [done|]. intros j Hj. injection Hj as <-. by apply Hi.
  - destruct (IH q d1 Hq Heq) as (H1 & H2 & H3). split; [done|]. split; [by eapply extends_trans|done].
Qed.

(** ** Giving a slot to a page *)

Lemma slots_install p i k data v dirty s : slots p !! i = Some s →
  slots (install p i k data v dirty) = <[i := mkSlot (Some k) (mkFrame (next_frame p) data v 1) dirty true]> (slots p).
Proof.
  intros Hs. unfold install. rewrite (slot_at_some p i s Hs). destruct (sl_key s); cbn; by apply (alter_insert_some _ _ _ s).
Qed.

(** The page table once slot [i] has left its page. *)
Lemma elem_of_released p i s j k : pool_ok p → slots p !! i = Some s →
  j ∈ slots_of (match sl_key s with Some o => unindex p o i | None => p end) k ↔ j ∈ slots_of p k ∧ j ≠ i.
Proof.
  intros Hp Hs. assert (i ∈ slots_of p k → sl_key s = Some k) as Hk.
  { intros Hi. destruct (inv_index None p Hp i k Hi) as (t & Ht & [?|[]]); [|done]. congruence. }
  destruct (sl_key s) as [o|]; [rewrite elem_of_unindex|]; split.
  - intros [Hj Hne]. split; [done|]. intros ->. specialize (Hk Hj). injection Hk as ->. by apply Hne.
  - tauto.
  - intros Hj. split; [done|]. intros ->. by specialize (Hk Hj).
  - tauto.
Qed.

Lemma install_ok p i k data v dirty s dc :
  pool_ok p → slots p !! i = Some s →
  (0 ≤ v)%Z →
  (uncommitted v = true → dirty = true ∧ ∀ j t, slots p !! j = Some t → sl_key t = Some k → fr_version (sl_frame t) ≠ v) →
  (dirty_count p + Z.b2z dirty ≤ dc)%Z →
  pool_ok (set_dirty_count (install p i k data v dirty) dc).
Proof.
  intros Hp Hs Hnn Hv Hdc. set (q := set_dirty_count _ _).
  pose proof (slots_install p i k data v dirty s Hs) as Es.
  set (r := match sl_key s with Some o => unindex p o i | None => p end).
  assert (∀ k', slots_of q k' = if decide (k = k') then slots_of r k ++ [i] else slots_of r k') as Eof.
  { intros k'. unfold q, slots_of, install. rewrite (slot_at_some p i s Hs). fold r. cbn.
    destruct (decide (k = k')) as [<-|]; [by rewrite lookup_insert_eq|by rewrite lookup_insert_ne]. }
  pose proof (λ j k', elem_of_released p i s j k' Hp Hs) as Hr. fold r in Hr.
  assert (∀ j k', j ∈ slots_of q k' ↔ (j ∈ slots_of p k' ∧ j ≠ i) ∨ (j = i ∧ k = k')) as Hel.
  { intros j k'. rewrite Eof. destruct (decide (k = k')) as [<-|]; [|rewrite Hr; naive_solver].
    rewrite elem_of_app, Hr, list_elem_of_singleton. naive_solver. }
  assert (next_frame q = S (next_frame p) ∧ capacity q = capacity p ∧ max_capacity q = max_capacity p ∧
          clock_ptr q = clock_ptr p ∧ free_candidates q = free_candidates p) as (En & Ec & Em & Ek & Ef).
  { unfold q, install. rewrite (slot_at_some p i s Hs). by destruct (sl_key s). }
  eapply (replace_ok None p q i s); try done.
  - by right.
  - rewrite En. split; [cbn; lia|]. split; [done|]. split; [done|]. cbn. intros Hu. by apply Hv.
  - cbn. intros Hu j t Hne Ht Hkt. by apply (proj2 (Hv Hu) j t).
  - cbn. destruct (sl_dirty s); cbn; lia.
  - intros k' Hk'. injection Hk' as <-. apply Hel. by right.
  - intros k' Hi. left. apply Hel in Hi as [[_ ?]|[_ <-]]; done.
  - intros j k' Hne. rewrite Hel. naive_solver.
  - intros k'. rewrite Eof. assert (∀ kk, NoDup (slots_of r kk)) as Hnd.
    { intros kk. unfold r. destruct (sl_key s); [apply NoDup_unindex|]; apply Hp. }
    destruct (decide (k = k')); [|apply Hnd]. apply list.NoDup_app. split; [apply Hnd|]. split; [|apply NoDup_singleton].
    intros j Hj. apply Hr in Hj as [_ ?]. by rewrite list_elem_of_singleton.
Qed.

Lemma set_dirty_count_same p : set_dirty_count p (dirty_count p) = p.
Proof. by destruct p. Qed.

Lemma dirty_count_install p i k data v dirty : dirty_count (install p i k data v dirty) = dirty_count p.
Proof. unfold install. by destruct (sl_key (slot_at p i)). Qed.

Lemma keeps_install X p i k data v dirty dc : takeable p i →
  keeps X p (set_dirty_count (install p i k data v dirty) dc).
Proof.
  intros (s & Hs & _ & Hu). eapply keeps_insert; [done|cbn; by apply (slots_install _ _ _ _ _ _ s)|]. congruence.
Qed.

(** A page read from disk. *)
Lemma install_clean p i k data : pool_ok p → takeable p i → good nothing None p (install p i k data 0 false).
Proof.
  intros Hp Ht. pose proof Ht as (s & Hs & _).
  rewrite <- (set_dirty_count_same (install p i k data 0 false)), dirty_count_install. split.
  - eapply install_ok; [done|done|lia| |cbn; lia]. by rewrite committed_id.
  - by apply keeps_install.
Qed.

(** A new uncommitted version. *)
Lemma install_new p i k data tx : id_ok tx → pool_ok p → takeable p i →
  (∀ j t, slots p !! j = Some t → sl_key t = Some k → fr_version (sl_frame t) ≠ tx_mark tx) →
  good nothing None p (set_dirty_count (install p i k data (tx_mark tx) true)
                                       (dirty_count (install p i k data (tx_mark tx) true) + 1)).
Proof.
  intros Htx Hp Ht Hno. pose proof Ht as (s & Hs & _). split.
  - eapply install_ok; [done|done|by apply tx_mark_nonneg|done|]. rewrite dirty_count_install. cbn. lia.
  - by apply keeps_install.
Qed.

(** ** Edits of one frame *)

Lemma update_slot_none p i f : slots p !! i = None → update_slot p i f = p.
Proof.
  intros Hi. unfold update_slot. assert (alter f i (slots p) = slots p) as ->; [|by destruct p].
  apply list_eq. intros j. destruct (decide (i = j)) as [<-|].
  - by rewrite list_lookup_alter_eq, Hi.
  - by rewrite list_lookup_alter_ne.
Qed.

(** A frame edit that keeps the identity and either the version or a version
    that is committed. *)
Lemma frame_edit_ok X x p i f :
  pool_inv x p →
  (∀ s, slots p !! i = Some s →
     fr_id (f (sl_frame s)) = fr_id (sl_frame s) ∧ ((0 ≤ fr_version (sl_frame s))%Z → (0 ≤ fr_version (f (sl_frame s)))%Z) ∧
     (fr_version (f (sl_frame s)) = fr_version (sl_frame s) ∨
      uncommitted (fr_version (f (sl_frame s))) = false ∧ uncommitted (fr_version (sl_frame s)) = true) ∧
     ((fr_version (f (sl_frame s)) = fr_version (sl_frame s) ∧ fr_data (f (sl_frame s)) = fr_data (sl_frame s)) ∨
      X (sl_key s) (fr_id (sl_frame s)) (fr_version (sl_frame s)))) →
  good X x p (update_slot p i (with_frame f)).
Proof.
  intros Hp Hf. destruct (slots p !! i) as [s|] eqn:Hs; [|rewrite update_slot_none by done; by apply good_refl].
  destruct (Hf s eq_refl) as (Hid & Hpos & Hver & Hc). destruct (slot_ok_at x p i s Hp Hs) as (_ & Hnn & H0 & H1).
  assert (slots (update_slot p i (with_frame f)) = <[i := with_frame f s]> (slots p)) as Es
    by (cbn; by apply alter_insert_some).
  split.
  - eapply (relabel_ok x p _ i s (with_frame f s)); try done.
    + cbn. by apply Hpos.
    + cbn. intros Hk. destruct (H0 Hk) as [Hd Hz]. split; [done|].
      destruct Hver as [->|[_ Hu]]; [done|]. rewrite Hz, committed_id in Hu; done.
    + cbn. intros Hu. destruct Hver as [Hver|[Hver _]]; [|congruence]. rewrite Hver in *. by auto.
    + cbn. lia.
  - eapply keeps_insert; [done|done|]. intros _. destruct Hc as [[E1 E2]|]; [left|by right].
    unfold content. cbn. by rewrite Hid, E1, E2.
Qed.

Lemma pins_ok x p i n : pool_inv x p → good nothing x p (update_slot p i (with_frame (add_pins n))).
Proof. intros Hp. apply frame_edit_ok; [done|]. intros s _. split; [done|]. split; [done|]. split; by left. Qed.

Lemma on_frame_update x p id f : pool_inv x p → (∃ i, on_frame p id f = update_slot p i (with_frame f) ∧
    ∀ s, slots p !! i = Some s → fr_id (sl_frame s) = id) ∨ on_frame p id f = p.
Proof.
  intros Hp. destruct (list_find (λ s, fr_id (sl_frame s) = id) (slots p)) as [[i s]|] eqn:Hfind.
  - apply list_find_Some in Hfind as (Hs & Hid & _). left. exists i. split; [|intros; congruence].
    unfold on_frame, update_slot. f_equal. apply list_eq. intros j.
    rewrite (alter_insert_some _ _ _ s) by done.
    change (map ?g ?l) with (g <$> l). rewrite list_lookup_fmap.
    destruct (decide (i = j)) as [<-|Hne].
    + rewrite list_lookup_insert_eq by (by eapply lookup_lt_Some). rewrite Hs. cbn. by rewrite decide_True.
    + rewrite list_lookup_insert_ne by done. destruct (slots p !! j) as [t|] eqn:Ht; [|done]. cbn.
      destruct (decide _) as [Hid'|]; [|done]. exfalso. apply Hne. apply (inv_ids x p Hp i j s t); [done..|congruence].
  - right. apply list_find_None in Hfind. unfold on_frame.
    assert (map (λ s, if decide (fr_id (sl_frame s) = id) then with_frame f s else s) (slots p) = slots p) as ->;
      [|by destruct p]. apply list_eq. intros j. change (map ?g ?l) with (g <$> l). rewrite list_lookup_fmap.
    destruct (slots p !! j) as [t|] eqn:Ht; [|done]. cbn. rewrite Forall_lookup in Hfind.
    destruct (decide _); [|done]. by destruct (Hfind j t Ht).
Qed.

Lemma unpin_ok x p id : pool_inv x p → good nothing x p (unpin_frame p id).
Proof.
  intros Hp. unfold unpin_frame. destruct (on_frame_update x p id (add_pins (-1)) Hp) as [(i & -> & _)| ->];
    [by apply pins_ok|by apply good_refl].
Qed.

Lemma write_ok x p id data : pool_inv x p → good (λ _ id' _, id' = id) x p (write_frame p id data).
Proof.
  intros Hp. unfold write_frame. destruct (on_frame_update x p id (with_data data) Hp) as [(i & -> & Hi)| ->];
    [|by apply good_refl].
  apply frame_edit_ok; [done|]. intros s Hs. split; [done|]. split; [done|]. split; [by left|right]. by apply Hi.
Qed.

(** ** Pinning and copying *)

Lemma find_source_none p mark idxs src best r :
  find_source p mark idxs src best = inr r → ∀ i, i ∈ idxs → version_at p i ≠ mark.
Proof.
  revert src best. induction idxs as [|j idxs IH]; intros src best Hf i Hi; [by apply not_elem_of_nil in Hi|].
  cbn [find_source] in Hf. destruct (decide (version_at p j = mark)); [done|].
  apply elem_of_cons in Hi as [->|Hi]; [done|]. case_decide; by eapply IH.
Qed.

Lemma evict_good n p d p' d' r : pool_ok p → evict_retry n p d = (p', d', r) → good nothing None p p'.
Proof. intros Hp He. destruct (evict_retry_ok n p d p' d' r Hp He) as (? & ? & _). split; [done|by apply extends_keeps]. Qed.

Lemma pin_page_ok p d k tx ts : pool_ok p → good nothing None p (fst (fst (pin_page p d k tx ts))).
Proof.
  intros Hp. unfold pin_page. destruct (find_visible _ _ _ _ _ _) as [i|]; [by apply pins_ok|].
  destruct (evict_retry _ p d) as [[q d1] r] eqn:He. pose proof (evict_good _ _ _ _ _ _ Hp He) as Hg.
  destruct (evict_retry_ok _ p d q d1 r Hp He) as (Hq & _ & Ht).
  destruct r as [i|e|]; [|done..]. destruct (load_page _ _ _); [|done..].
  eapply good_trans; [exact Hg|]. apply install_clean; [done|by apply Ht].
Qed.

Lemma no_mark_after p q tx : pool_ok p → extends p q → pool_ok q → ∀ k,
  (∀ i, i ∈ slots_of p k → version_at p i ≠ tx_mark tx) →
  ∀ j t, slots q !! j = Some t → sl_key t = Some k → fr_version (sl_frame t) ≠ tx_mark tx.
Proof.
  intros Hp (E1 & _ & _ & _ & Hext) Hq k Hno j t Ht Hk Hv.
  assert (j ∈ slots_of p k) as Hj.
  { unfold slots_of. rewrite <- E1. by apply (inv_indexed None q Hq j t). }
  destruct (inv_index None p Hp j k Hj) as (s & Hs & _). destruct (Hext j s Hs) as (t' & Ht' & Ec & _).
  apply (Hno j Hj). unfold version_at. rewrite (slot_at_some p j s Hs). unfold content in Ec. congruence.
Qed.

Lemma create_new_version_ok p d k tx : id_ok tx → pool_ok p → good nothing None p (fst (fst (create_new_version p d k tx))).
Proof.
  intros Htx Hp. unfold create_new_version. destruct (find_source _ _ _ _ _) as [i|src] eqn:Hsrc.
  { cbn [fst]. eapply good_trans; [by apply (pins_ok None p i 1)|]. fold (pin_slot p i).
    pose proof (pins_ok None p i 1 Hp) as [Hq _]. fold (pin_slot p i) in Hq.
    destruct (slots (pin_slot p i) !! i) as [s|] eqn:Hs; [|rewrite update_slot_none by done; by apply good_refl].
    destruct (unref_ok None _ i s true Hq Hs). split; [done|by apply extends_keeps]. }
  assert (∀ i, i ∈ slots_of p k → version_at p i ≠ tx_mark tx) as Hno.
  { intros i Hi. eapply find_source_none; [exact Hsrc|]. by apply elem_of_reverse. }
  destruct (match src with Some _ => _ | None => _ end); [|by apply good_refl..].
  assert (pool_ok (add_handle p k.1)) as Hp' by (by apply add_handle_ok).
  assert (good nothing None p (add_handle p k.1)) as Hg0 by (split; [done|by apply keeps_same]).
  destruct (evict_retry _ (add_handle p k.1) d) as [[q d1] r] eqn:He.
  pose proof (evict_good _ _ _ _ _ _ Hp' He) as Hg.
  destruct (evict_retry_ok _ _ d q d1 r Hp' He) as (Hq & Hext & Ht).
  assert (good nothing None p q) as Hpq by (eapply good_trans; [exact Hg0|exact Hg]).
  destruct r as [i|e|]; [|done..]. eapply good_trans; [exact Hpq|].
  apply install_new; [done|done|by apply Ht|]. by eapply (no_mark_after (add_handle p k.1) q).
Qed.

Lemma pin_page_by_key_ok p k v : pool_ok p → good nothing None p (fst (pin_page_by_key p k v)).
Proof. intros Hp. unfold pin_page_by_key. destruct (find_version _ _ _); [by apply pins_ok|by apply good_refl]. Qed.

Lemma pin_latest_committed_ok p d k : pool_ok p → good nothing None p (fst (pin_latest_committed p d k)).
Proof. intros Hp. unfold pin_latest_committed. destruct (find_latest _ _ _ _); [by apply pins_ok|by apply good_refl]. Qed.

Lemma prefetch_page_ok p d k : pool_ok p → good nothing None p (fst (prefetch_page p d k)).
Proof.
  intros Hp. unfold prefetch_page. destruct (page_to_slots p !! k); [by apply good_refl|].
  destruct (decide _); [|by apply good_refl]. destruct (read_page _ _ _) as [data|e|]; [|by apply good_refl..].
  destruct (evict_with_clock _ p d) as [[q d1] o] eqn:Hev.
  assert (max_capacity p - capacity p < S (max_capacity p)) as Hfuel by lia.
  destruct (evict_with_clock_ok _ _ _ _ _ _ Hp Hfuel Hev) as (Hq & Hext & _ & Ht).
  assert (good nothing None p q) as Hg by (split; [done|by apply extends_keeps]).
  destruct o as [[[i|]|e|]|]; try exact Hg. eapply good_trans; [exact Hg|].
  pose proof (install_clean q i k data Hq (Ht i eq_refl)) as Hi. eapply good_trans; [exact Hi|]. apply pins_ok, Hi.
Qed.

(** ** Commit and rollback *)

Lemma version_at_mark p i tx : version_at p i = tx_mark tx →
  ∃ s, slots p !! i = Some s ∧ slot_at p i = s ∧ fr_version (sl_frame s) = tx_mark tx.
Proof.
  unfold version_at, slot_at. destruct (slots p !! i) as [s|]; [eauto|]. cbn. intros H.
  pose proof (uncommitted_mark tx) as Hu. rewrite <- H in Hu. by rewrite committed_id in Hu.
Qed.

Definition of_tx (tx : Z) : option key → nat → Z → Prop := λ _ _ v, v = tx_mark tx.

Lemma update_timestamps_ok p k tx ts : id_ok ts → pool_ok p → good (of_tx tx) None p (update_timestamps p k tx ts).
Proof.
  intros Hts Hp. apply good_foldl; [done|]. intros q i _ Hq. case_decide as Hv; [|by apply good_refl].
  apply frame_edit_ok; [done|]. intros s Hs. unfold version_at in Hv. rewrite (slot_at_some q i s Hs) in Hv.
  cbn. rewrite Hv. split; [done|]. split; [intros _; apply Hts|]. split; [|by right]. right. split; [by apply committed_id|apply uncommitted_mark].
Qed.

Lemma keeps_drop (X : option key → nat → Z → Prop) p i s : slots p !! i = Some s →
  (uncommitted (fr_version (sl_frame s)) = true → X (sl_key s) (fr_id (sl_frame s)) (fr_version (sl_frame s))) →
  keeps X p (drop_slot p i).
Proof. intros Hs HX. eapply keeps_insert; [done|by apply (slots_drop p i s)|]. eauto. Qed.

Lemma rollback_versions_ok p tx : pool_ok p → good (of_tx tx) None p (rollback_versions p tx).
Proof.
  intros Hp. apply good_foldl; [done|]. intros q i _ Hq. unfold rollback_slot. case_decide as Hv; [|by apply good_refl].
  destruct (version_at_mark q i tx Hv) as (s & Hs & Es & Hvs). split; [by eapply drop_ok|].
  eapply keeps_drop; [done|]. intros _. exact Hvs.
Qed.

(** ** Maintenance: dropping the frames of a page *)

Lemma foldl_establish {A S} (P : A → S → Prop) (J : S → Prop) (f : S → A → S) (l : list A) s :
  J s →
  (∀ s a, a ∈ l → J s → J (f s a) ∧ P a (f s a) ∧ ∀ b, b ∈ l → P b s → P b (f s a)) →
  J (foldl f s l) ∧ ∀ a, a ∈ l → P a (foldl f s l).
Proof.
  intros Hs Hf.
  assert (∀ (pre l' : list A) s, (∀ a, a ∈ l' → a ∈ l) → (∀ a, a ∈ pre → a ∈ l ∧ P a s) → J s →
    J (foldl f s l') ∧ ∀ a, a ∈ pre ∨ a ∈ l' → P a (foldl f s l')) as H.
  { intros pre l'. revert pre. induction l' as [|a l' IH]; intros pre s0 Hl Hpre HJ; cbn [foldl].
    - split; [done|]. intros a [Ha|Ha]; [by apply Hpre|by apply not_elem_of_nil in Ha].
    - assert (a ∈ l) as Ha by (apply Hl; left). destruct (Hf s0 a Ha HJ) as (HJ' & HP & Hmono).
      destruct (IH (a :: pre) (f s0 a)) as [H1 H2].
      + intros b Hb. apply Hl. by right.
      + intros b Hb. apply elem_of_cons in Hb as [->|Hb]; [done|]. destruct (Hpre b Hb). auto.
      + done.
      + split; [done|]. intros b [Hb|Hb].
        * apply H2. left. by right.
        * apply elem_of_cons in Hb as [->|Hb]; [apply H2; left; left|apply H2; by right]. }
  destruct (H [] l s) as [H1 H2]; [done| |done|].
  { intros a Ha. by apply not_elem_of_nil in Ha. }
  split; [done|]. intros a Ha. apply H2. by right.
Qed.

Lemma open_index k p : pool_ok p → pool_inv (Some k) p.
Proof.
  intros [H1 H2 H3 H4 H5 H6 H7 H8 H9 H10 H11 H12]. constructor; try done.
  intros i k' Hi. destruct (H11 i k' Hi) as (s & Hs & [?|[]]); [|done]. eauto.
Qed.

Lemma close_index k p m :
  pool_inv (Some k) p → (∀ k', k' ≠ k → m !! k' = page_to_slots p !! k') →
  (∀ i, i ∈ default [] (m !! k) ↔ ∃ s, slots p !! i = Some s ∧ sl_key s = Some k) →
  NoDup (default [] (m !! k)) → pool_ok (set_index p m).
Proof.
  intros [H1 H2 H3 H4 H5 H6 H7 H8 H9 H10 H11 H12] Hm Hk Hnd.
  assert (∀ k', k' ≠ k → slots_of (set_index p m) k' = slots_of p k') as Eof.
  { intros k' Hne. unfold slots_of. cbn. by rewrite Hm. }
  constructor; try done.
  - intros i s k' Hs Hk'. destruct (decide (k' = k)) as [->|Hne]; [apply Hk; eauto|]. rewrite Eof by done. eauto.
  - intros i k' Hi. destruct (decide (k' = k)) as [->|Hne].
    + apply Hk in Hi as (s & Hs & Hks). eauto.
    + rewrite Eof in Hi by done. destruct (H11 i k' Hi) as (s & Hs & [?|[E _]]); [eauto|congruence].
  - intros k'. destruct (decide (k' = k)) as [->|Hne]; [done|]. by rewrite Eof.
Qed.

Lemma slots_clear p i s : slots p !! i = Some s → slots (clear_slot p i) = <[i := free_slot (next_frame p)]> (slots p).
Proof. intros Hs. apply (clear_slot_fields p i s Hs). Qed.

Lemma lookup_clear p i s : slots p !! i = Some s → slots (clear_slot p i) !! i = Some (free_slot (next_frame p)).
Proof. intros Hs. rewrite (slots_clear p i s Hs). apply list_lookup_insert_eq. by eapply lookup_lt_Some. Qed.

Lemma lookup_clear_ne p i j : i ≠ j → slots (clear_slot p i) !! j = slots p !! j.
Proof.
  intros Hne. unfold clear_slot. destruct (sl_dirty (slot_at p i)); cbn; by rewrite list_lookup_alter_ne.
Qed.

Lemma table_clear p i : page_to_slots (clear_slot p i) = page_to_slots p.
Proof. unfold clear_slot. by destruct (sl_dirty (slot_at p i)). Qed.

Lemma capacity_clear p i : capacity (clear_slot p i) = capacity p.
Proof. unfold clear_slot. by destruct (sl_dirty (slot_at p i)). Qed.

(** Clearing a slot listed for the page being dropped. *)
Lemma clear_listed X k q i : pool_inv (Some k) q → i ∈ slots_of q k →
  (uncommitted (version_at q i) = true → ∀ s, slots q !! i = Some s → sl_key s = Some k →
     X (sl_key s) (fr_id (sl_frame s)) (fr_version (sl_frame s))) →
  good X (Some k) q (clear_slot q i) ∧ i < capacity (clear_slot q i) ∧ sl_key (slot_at (clear_slot q i) i) = None.
Proof.
  intros Hq Hi HX. destruct (inv_index _ q Hq i k Hi) as (s & Hs & Hk).
  split; [split|split].
  - apply (clear_ok (Some k) q i s); [done|done|]. destruct Hk as [?|[_ ?]]; [by right|by left].
  - eapply keeps_insert; [done|by apply (slots_clear q i s)|]. intros Hu. right. unfold version_at in HX.
    rewrite (slot_at_some q i s Hs) in HX. apply HX; [done|done|]. destruct Hk as [?|[_ Hn]]; [done|].
    destruct (slot_ok_at _ q i s Hq Hs) as (_ & _ & H0 & _). destruct (H0 Hn) as [_ Hz]. rewrite Hz, committed_id in Hu; done.
  - rewrite capacity_clear, (inv_cap _ q Hq). by eapply lookup_lt_Some.
  - rewrite (slot_at_some _ _ _ (lookup_clear q i s Hs)). done.
Qed.

Lemma push_free_good X x p q i : good X x p q → i < capacity q →
  good X x p (set_free q (free_candidates q ++ [i])).
Proof. intros [Hq Hk] Hi. split; [by apply push_free_ok|]. eapply keeps_trans; [exact Hk|by apply keeps_same]. Qed.

Lemma evict_superseded_ok p k keep : pool_ok p → good nothing None p (evict_superseded_committed_versions p k keep).
Proof.
  intros Hp. unfold evict_superseded_committed_versions.
  destruct (page_to_slots p !! k) as [idxs|] eqn:Hidx; [|by apply good_refl].
  assert (slots_of p k = idxs) as Eof by (unfold slots_of; by rewrite Hidx).
  set (q := foldl _ p idxs).
  assert ((good nothing (Some k) p q ∧ page_to_slots q = page_to_slots p) ∧ ∀ i : nat, i ∈ idxs → True) as [[[Hq Hkeep] Et] _].
  { apply (foldl_establish (λ _ _, True) (λ q, good nothing (Some k) p q ∧ page_to_slots q = page_to_slots p)).
    - split; [|done]. apply good_refl. by apply open_index.
    - intros q0 i Hi [Hg Et]. split; [|done]. unfold evict_superseded_slot.
      destruct (decide _) as [(Hu & _)|]; [|done].
      assert (i ∈ slots_of q0 k) as Hi' by (unfold slots_of; by rewrite Et, Hidx).
      destruct (clear_listed nothing k q0 i (proj1 Hg) Hi') as (H1 & H2 & H3).
      { unfold version_at. congruence. }
      split; [|unfold set_free; cbn [page_to_slots]; by rewrite table_clear]. apply push_free_good; [|done]. eapply good_trans; [exact Hg|exact H1]. }
  assert (slots_of q k = idxs) as Eq by (unfold slots_of; by rewrite Et, Hidx).
  split; [|eapply keeps_trans; [exact Hkeep|]; by apply keeps_same]. unfold keep_keyed.
  set (rem := filter _ idxs).
  assert (default [] ((if decide (rem = []) then delete k (page_to_slots q) else <[k:=rem]> (page_to_slots q)) !! k) = rem) as Erem.
  { destruct (decide (rem = [])) as [->|]; [by rewrite lookup_delete_eq|by rewrite lookup_insert_eq]. }
  apply (close_index k); [done| | |].
  - intros k' Hne. destruct (decide _); [by rewrite lookup_delete_ne|by rewrite lookup_insert_ne].
  - intros i. rewrite Erem. unfold rem. rewrite list_elem_of_filter. split.
    + intros [Hk Hi]. rewrite <- Eq in Hi. destruct (inv_index _ q Hq i k Hi) as (s & Hs & Hor).
      rewrite (slot_at_some q i s Hs) in Hk. exists s. split; [done|]. destruct Hor as [?|[_ ?]]; [done|congruence].
    + intros (s & Hs & Hk). split; [rewrite (slot_at_some q i s Hs); congruence|].
      rewrite <- Eq. by apply (inv_indexed _ q Hq i s).
  - rewrite Erem. apply list.NoDup_filter. rewrite <- Eof. apply Hp.
Qed.

Definition of_key (k : key) : option key → nat → Z → Prop := λ k' _ _, k' = Some k.

Lemma invalidate_page_ok p k : pool_ok p → good (of_key k) None p (invalidate_page p k).
Proof.
  intros Hp. unfold invalidate_page. destruct (page_to_slots p !! k) as [idxs|] eqn:Hidx; [|by apply good_refl].
  set (q := foldl _ p idxs).
  assert ((good (of_key k) (Some k) p q ∧ page_to_slots q = page_to_slots p) ∧
          ∀ i : nat, i ∈ idxs → sl_key (slot_at q i) ≠ Some k) as [[[Hq Hkeep] Et] Hnone].
  { apply (foldl_establish (λ i q, sl_key (slot_at q i) ≠ Some k)
             (λ q, good (of_key k) (Some k) p q ∧ page_to_slots q = page_to_slots p)).
    - split; [|done]. apply good_refl. by apply open_index.
    - intros q0 i Hi [Hg Et]. destruct (decide _) as [Hk|]; [|done].
      assert (i ∈ slots_of q0 k) as Hi' by (unfold slots_of; by rewrite Et, Hidx).
      destruct (clear_listed (of_key k) k q0 i (proj1 Hg) Hi') as (H1 & H2 & H3).
      { intros _ s Hs Hks. exact Hks. }
      split; [split; [eapply good_trans; [exact Hg|exact H1]|by rewrite table_clear]|].
      split; [congruence|]. intros j Hj Hne. destruct (decide (i = j)) as [<-|]; [congruence|].
      unfold slot_at in *. by rewrite lookup_clear_ne. }
  split; [|eapply keeps_trans; [exact Hkeep|]; by apply keeps_same].
  apply (close_index k); [done| | |].
  - intros k' Hne. by rewrite lookup_delete_ne.
  - intros i. rewrite lookup_delete_eq. split; [intros Hi; by apply not_elem_of_nil in Hi|].
    intros (s & Hs & Hk). exfalso. pose proof (inv_indexed _ q Hq i s k Hs Hk) as Hi.
    unfold slots_of in Hi. rewrite Et, Hidx in Hi. apply (Hnone i Hi). by rewrite (slot_at_some q i s Hs).
  - rewrite lookup_delete_eq. constructor.
Qed.

(** While committed slots are being emptied, the uncommitted ones are the old ones. *)
Definition only_old (p q : BufferPool) : Prop :=
  ∀ j s, slots q !! j = Some s → uncommitted (fr_version (sl_frame s)) = true → slots p !! j = Some s.

Lemma only_old_insert p q r i n : only_old p q → slots r = <[i := free_slot n]> (slots q) → only_old p r.
Proof.
  intros Ho Er j s Hs Hu. rewrite Er in Hs. apply list_lookup_insert_Some in Hs as [(-> & <- & _)|[_ Hs]].
  - by rewrite committed_id in Hu.
  - by apply Ho.
Qed.

Lemma only_old_committed p q i : only_old p q → uncommitted (version_at p i) = false → uncommitted (version_at q i) = false.
Proof.
  intros Ho Hu. destruct (uncommitted (version_at q i)) eqn:Hq; [|done]. unfold version_at, slot_at in *.
  destruct (slots q !! i) as [s|] eqn:Hs; [|by rewrite committed_id in Hq].
  rewrite (Ho i s Hs Hq) in Hu. cbn in *. congruence.
Qed.

Lemma reclaim_ok p ts : pool_ok p → good nothing None p (reclaim_expired_versions p ts).
Proof.
  intros Hp. unfold reclaim_expired_versions. set (l := filter _ _).
  destruct (foldl_establish (λ (_ : nat) _, True)
      (λ q, good nothing None p q ∧ only_old p q ∧ length (slots q) = length (slots p)) reclaim_slot l p) as [(Hg & _) _]; [| |done].
  { split; [by apply good_refl|]. split; [by intros j s Hs _|done]. }
  intros q i Hi (Hg & Ho & Hlen). split; [|done]. unfold l in Hi. apply list_elem_of_filter in Hi as [Hrec Hi].
  apply elem_of_seq in Hi. assert (∃ s, slots q !! i = Some s) as [s Hs] by (apply lookup_lt_is_Some_2; lia).
  assert (uncommitted (version_at q i) = false) as Hu.
  { apply (only_old_committed p); [done|]. unfold reclaimable in Hrec. destruct (decide _) as [|Hn]; [done|].
    unfold version_at. destruct (uncommitted _) eqn:E; [|done]. tauto. }
  assert (good nothing None p (drop_slot q i)) as Hd.
  { eapply good_trans; [exact Hg|]. split; [by apply (drop_ok q i s), Hs; apply Hg|].
    eapply keeps_drop; [done|]. unfold version_at in Hu. rewrite (slot_at_some q i s Hs) in Hu. congruence. }
  pose proof (slots_drop q i s Hs) as Es.
  assert (length (slots (drop_slot q i)) = length (slots q)) as El by (rewrite Es; apply length_insert).
  unfold reclaim_slot. split; [|split].
  - apply push_free_good; [done|]. rewrite (inv_cap _ _ (proj1 Hd)), El. by eapply lookup_lt_Some.
  - eapply only_old_insert; [exact Ho|exact Es].
  - cbn [set_free slots]. congruence.
Qed.

Lemma evict_page_ok p d k : pool_ok p → good nothing None p (fst (evict_page p d k)).
Proof.
  intros Hp. unfold evict_page. set (indices := slots_of p k).
  destruct (decide (indices = [])); [by apply good_refl|]. set (pres := filter _ indices).
  destruct (foldl_establish (λ i (s : BufferPool * Disk), uncommitted (version_at p i) = false → sl_key (slot_at s.1 i) = None)
      (λ s, good nothing (Some k) p s.1 ∧ page_to_slots s.1 = page_to_slots p ∧ only_old p s.1)
      evict_page_slot indices (p, d)) as [(Hg & Et & Ho) Hnone].
  { split; [apply good_refl; by apply open_index|]. split; [done|]. by intros j s Hs _. }
  { intros [q d0] i Hi (Hg & Et & Ho). cbn [fst] in Hg, Et, Ho. unfold evict_page_slot.
    destruct (uncommitted (fr_version (sl_frame (slot_at q i)))) eqn:Hu.
    - split; [done|]. split; [|done]. intros Hu'. apply (only_old_committed p q i Ho) in Hu'.
      unfold version_at in Hu'. congruence.
    - cbn [fst]. assert (i ∈ slots_of q k) as Hi' by (unfold slots_of; by rewrite Et).
      destruct (clear_listed nothing k q i (proj1 Hg) Hi') as (H1 & H2 & H3); [unfold version_at; congruence|].
      destruct (inv_index _ q (proj1 Hg) i k Hi') as (s & Hs & _).
      split; [split; [|split]|split].
      + apply push_free_good; [|done]. eapply good_trans; [exact Hg|exact H1].
      + unfold set_free; cbn [page_to_slots]. by rewrite table_clear.
      + eapply only_old_insert; [exact Ho|]. unfold set_free; cbn [slots]. by apply (slots_clear q i s).
      + intros _. exact H3.
      + intros j Hj HP Huj. specialize (HP Huj). cbn [fst] in HP. destruct (decide (i = j)) as [<-|Hne]; [done|].
        unfold slot_at in *. unfold set_free; cbn [slots]. by rewrite lookup_clear_ne. }
  destruct (foldl evict_page_slot (p, d) indices) as [q d'] eqn:Hfold. cbn [fst] in *. destruct Hg as [Hq Hkeep].
  split; [|eapply keeps_trans; [exact Hkeep|]; by apply keeps_same].
  assert (default [] ((if decide (pres = []) then delete k (page_to_slots q) else <[k:=pres]> (page_to_slots q)) !! k) = pres) as Epres.
  { destruct (decide (pres = [])) as [->|]; [by rewrite lookup_delete_eq|by rewrite lookup_insert_eq]. }
  apply (close_index k); [done| | |].
  - intros k' Hne. destruct (decide _); [by rewrite lookup_delete_ne|by rewrite lookup_insert_ne].
  - intros i. rewrite Epres. unfold pres. rewrite list_elem_of_filter. split.
    + intros [Hu Hi]. destruct (inv_index _ p Hp i k Hi) as (s & Hs & [Hk|[]]); [|done].
      unfold version_at in Hu. rewrite (slot_at_some p i s Hs) in Hu.
      destruct (Hkeep i s Hs Hu) as (s' & Hs' & Ec); [by intros []|]. exists s'. split; [done|]. unfold content in Ec. congruence.
    + intros (s & Hs & Hk). assert (i ∈ slots_of p k) as Hi.
      { unfold slots_of. rewrite <- Et. by apply (inv_indexed _ q Hq i s). }
      split; [|done]. destruct (uncommitted (version_at p i)) eqn:Hu; [done|].
      specialize (Hnone i Hi Hu). rewrite (slot_at_some q i s Hs) in Hnone. congruence.
  - rewrite Epres. apply list.NoDup_filter. apply Hp.
Qed.

(** ** Flushing *)

Lemma clean_ok p i s : pool_ok p → slots p !! i = Some s → sl_dirty s = true →
  uncommitted (fr_version (sl_frame s)) = false → good nothing None p (clean_slot p i).
Proof.
  intros Hp Hs Hd Hu. destruct (slot_ok_at _ p i s Hp Hs) as (_ & Hnn & H0 & H1).
  assert (slots (clean_slot p i) = <[i := with_dirty false s]> (slots p)) as Es by (cbn; by apply alter_insert_some).
  split; [|eapply keeps_insert; [done|done|congruence]].
  eapply (relabel_ok None p _ i s (with_dirty false s)); try done.
  - cbn. intros Hk. destruct (H0 Hk). done.
  - cbn. congruence.
  - pose proof (decrement_dirty_ge p (dirty_count_nonneg _ p Hp)) as Hge. rewrite Hd. cbn in *. case_decide; cbn; lia.
Qed.

Lemma flush_slots_ok b hs idxs p d : pool_ok p → good nothing None p (fst (fst (flush_slots b hs idxs p d))).
Proof.
  revert p d. induction idxs as [|i idxs IH]; intros p d Hp; cbn [flush_slots]; [by apply good_refl|].
  destruct (sl_dirty (slot_at p i)) eqn:Hd; [|by apply IH].
  destruct (uncommitted _) eqn:Hu; [by apply IH|]. destruct (sl_key (slot_at p i)) as [[fid pid]|]; [|by apply IH].
  destruct (decide _); [|by apply IH].
  destruct (write_page _ _ _ _) as [d1 [[]|er|]]; [|destruct b; [by apply good_refl|by apply IH]..].
  assert (∃ s, slots p !! i = Some s ∧ slot_at p i = s) as (s & Hs & Es).
  { unfold slot_at in *. destruct (slots p !! i); [eauto|done]. }
  rewrite Es in Hd, Hu. pose proof (clean_ok p i s Hp Hs Hd Hu) as Hg.
  eapply good_trans; [exact Hg|]. apply (IH (clean_slot p i)), Hg.
Qed.

Lemma foldl_seq_ind {St} (P : nat → St → Prop) (f : St → nat → St) n s :
  P 0 s → (∀ i s, i < n → P i s → P (S i) (f s i)) → P n (foldl f s (seq 0 n)).
Proof.
  intros H0 Hstep. assert (∀ m a s, a + m = n → P a s → P n (foldl f s (seq a m))) as H.
  { induction m as [|m IH]; intros a s0 Ha HP; cbn [seq foldl]; [by replace n with a by lia|].
    apply IH; [lia|]. apply Hstep; [lia|done]. }
  by apply H.
Qed.

(** A dirty committed version of a target page. *)
Definition flushable (p : BufferPool) (targets : gset key) (j : nat) (k : key) (v : Z) : Prop :=
  ∃ s, slots p !! j = Some s ∧ sl_key s = Some k ∧ sl_dirty s = true ∧ k ∈ targets ∧
       uncommitted v = false ∧ fr_version (sl_frame s) = v.

(** What [select_newest] has established after the slots below [i]; [c] is a
    slot whose dirty flag is about to be dropped. *)
Record selected (p : BufferPool) (targets : gset key) (i : nat) (c : option nat) (q : BufferPool)
    (newest : gmap key nat) (best : gmap key Z) : Prop := {
  sel_good : good nothing None p q;
  sel_handles : file_handles q = file_handles p;
  sel_length : length (slots q) = length (slots p);
  sel_slots : ∀ j s, slots p !! j = Some s → ∃ b, slots q !! j = Some (with_dirty b s);
  sel_later : ∀ j s, i ≤ j → slots p !! j = Some s → slots q !! j = Some s;
  sel_newest : ∀ k j, newest !! k = Some j → ∃ v s, j < i ∧ flushable p targets j k v ∧ best !! k = Some v ∧
      slots q !! j = Some s ∧ sl_dirty s = true;
  sel_best : ∀ k, newest !! k = None → best !! k = None;
  sel_max : ∀ j k v, j < i → flushable p targets j k v → ∃ b, best !! k = Some b ∧ (v ≤ b)%Z ∧ ∃ j', newest !! k = Some j';
  sel_dirty : ∀ j s, slots q !! j = Some s → sl_dirty s = true → ∀ s0, slots p !! j = Some s0 → sl_dirty s0 = true;
  sel_clean : ∀ j k v s, j < i → flushable p targets j k v → slots q !! j = Some s → sl_dirty s = true →
      newest !! k = Some j ∨ c = Some j;
}.

Lemma lookup_clean_ne p i j : i ≠ j → slots (clean_slot p i) !! j = slots p !! j.
Proof. intros. cbn. by rewrite list_lookup_alter_ne. Qed.

Lemma lookup_clean p i s : slots p !! i = Some s → slots (clean_slot p i) !! i = Some (with_dirty false s).
Proof. intros Hs. cbn. by rewrite list_lookup_alter_eq, Hs. Qed.

(** Dropping the dirty flag of a slot that is not, or no longer, selected. *)
Lemma selected_clean p targets i q newest best c k v :
  selected p targets i (Some c) q newest best → flushable p targets c k v → c < i →
  (∀ k', newest !! k' ≠ Some c) →
  (∃ s, slots q !! c = Some s ∧ sl_dirty s = true) →
  selected p targets i None (clean_slot q c) newest best.
Proof.
  intros Hsel (s0 & Hs0 & Hk0 & Hd0 & Hin & Hu0 & Hv0) Hc Hno (s & Hs & Hd).
  destruct (sel_slots _ _ _ _ _ _ _ Hsel c s0 Hs0) as [b Hb]. rewrite Hs in Hb. injection Hb as ->. cbn in Hd. subst b.
  assert (good nothing None q (clean_slot q c)) as Hg.
  { eapply clean_ok; [apply (sel_good _ _ _ _ _ _ _ Hsel)|exact Hs|done|]. cbn. congruence. }
  constructor.
  - eapply good_trans; [apply (sel_good _ _ _ _ _ _ _ Hsel)|exact Hg].
  - apply (sel_handles _ _ _ _ _ _ _ Hsel).
  - cbn. rewrite length_alter. apply (sel_length _ _ _ _ _ _ _ Hsel).
  - intros j t Ht. destruct (decide (c = j)) as [<-|Hne].
    + exists false. rewrite (lookup_clean q c _ Hs). f_equal. assert (t = s0) as -> by congruence. done.
    + rewrite lookup_clean_ne by done. by apply (sel_slots _ _ _ _ _ _ _ Hsel).
  - intros j t Hj Ht. rewrite lookup_clean_ne by lia. by apply (sel_later _ _ _ _ _ _ _ Hsel).
  - intros k' j Hk'. destruct (sel_newest _ _ _ _ _ _ _ Hsel k' j Hk') as (v' & t & ? & ? & ? & Ht & ?).
    exists v', t. rewrite lookup_clean_ne; [done|]. intros ->. by apply (Hno k').
  - apply (sel_best _ _ _ _ _ _ _ Hsel).
  - apply (sel_max _ _ _ _ _ _ _ Hsel).
  - intros j t Ht Hdt. destruct (decide (c = j)) as [<-|Hne].
    + rewrite (lookup_clean q c _ Hs) in Ht. injection Ht as <-. done.
    + rewrite lookup_clean_ne in Ht by done. by apply (sel_dirty _ _ _ _ _ _ _ Hsel j t).
  - intros j k' v' t Hj Hfl Ht Hdt. destruct (decide (c = j)) as [<-|Hne].
    + rewrite (lookup_clean q c _ Hs) in Ht. injection Ht as <-. done.
    + rewrite lookup_clean_ne in Ht by done. left.
      destruct (sel_clean _ _ _ _ _ _ _ Hsel j k' v' t) as [?|E]; [done..|congruence].
Qed.

Lemma flushable_fun p targets j k v k' v' :
  flushable p targets j k v → flushable p targets j k' v' → k = k' ∧ v = v'.
Proof. intros (s & Hs & ? & _ & _ & _ & ?) (s' & Hs' & ? & _ & _ & _ & ?). split; congruence. Qed.

Lemma selected_skip p targets i q newest best :
  selected p targets i None q newest best → (∀ k v, ¬ flushable p targets i k v) →
  selected p targets (S i) None q newest best.
Proof.
  intros [H1 H2 Hlen H3 H4 H5 H6 H7 H8 H9] Hno. constructor; try done.
  - intros j s Hj. apply H4. lia.
  - intros k j Hk. destruct (H5 k j Hk) as (v & s & ? & ?). exists v, s. split; [lia|done].
  - intros j k v Hj Hf. destruct (decide (j = i)) as [->|]; [by destruct (Hno k v)|]. apply (H7 j k v); [lia|done].
  - intros j k v s Hj Hf. destruct (decide (j = i)) as [->|]; [by destruct (Hno k v)|]. apply H9 with v; [lia|done].
Qed.

Lemma selected_over p targets i q newest best k v b :
  selected p targets i None q newest best → flushable p targets i k v → best !! k = Some b → (v ≤ b)%Z →
  selected p targets (S i) (Some i) q newest best.
Proof.
  intros [H1 H2 Hlen H3 H4 H5 H6 H7 H8 H9] Hfl Hb Hle. constructor; try done.
  - intros j s Hj. apply H4. lia.
  - intros k' j Hk. destruct (H5 k' j Hk) as (v' & s & ? & ?). exists v', s. split; [lia|done].
  - intros j k' v' Hj Hf. destruct (decide (j = i)) as [->|]; [|apply (H7 j k' v'); [lia|done]].
    destruct (flushable_fun _ _ _ _ _ _ _ Hfl Hf) as [<- <-]. exists b. split; [done|]. split; [done|].
    destruct (newest !! k) as [j'|] eqn:Hn; [eauto|]. rewrite (H6 k Hn) in Hb. done.
  - intros j k' v' s Hj Hf Hs Hd. destruct (decide (j = i)) as [->|]; [by right|]. left.
    destruct (H9 j k' v' s) as [?|?]; [lia|done..].
Qed.

Lemma selected_add p targets i q newest best k v :
  selected p targets i None q newest best → flushable p targets i k v →
  (∀ b, best !! k = Some b → (b < v)%Z) →
  selected p targets (S i) (newest !! k) q (<[k := i]> newest) (<[k := v]> best).
Proof.
  intros [H1 H2 Hlen H3 H4 H5 H6 H7 H8 H9] Hfl Hlt. pose proof Hfl as (s0 & Hs0 & Hk0 & Hd0 & _).
  constructor; try done.
  - intros j s Hj. apply H4. lia.
  - intros k' j Hk'. destruct (decide (k = k')) as [<-|Hne].
    + rewrite lookup_insert_eq in Hk'. injection Hk' as <-. exists v, s0. rewrite lookup_insert_eq.
      split; [lia|]. split; [done|]. split; [done|]. split; [|done]. by apply H4.
    + rewrite lookup_insert_ne in Hk' by done. rewrite lookup_insert_ne by done.
      destruct (H5 k' j Hk') as (v' & s & ? & ?). exists v', s. split; [lia|done].
  - intros k'. destruct (decide (k = k')) as [<-|Hne]; [by rewrite lookup_insert_eq|].
    rewrite !lookup_insert_ne by done. apply H6.
  - intros j k' v' Hj Hf. destruct (decide (k = k')) as [<-|Hne].
    + exists v. rewrite !lookup_insert_eq. split; [done|]. split; [|eauto].
      destruct (decide (j = i)) as [->|]; [by destruct (flushable_fun _ _ _ _ _ _ _ Hfl Hf) as [_ <-]|].
      destruct (H7 j k v') as (b & Hb & ? & _); [lia|done|]. specialize (Hlt b Hb). lia.
    + rewrite !lookup_insert_ne by done. apply (H7 j k' v'); [|done]. destruct (decide (j = i)) as [->|]; [|lia].
      by destruct (flushable_fun _ _ _ _ _ _ _ Hfl Hf).
  - intros j k' v' s Hj Hf Hs Hd. destruct (decide (j = i)) as [->|].
    { left. destruct (flushable_fun _ _ _ _ _ _ _ Hfl Hf) as [<- _]. apply lookup_insert_eq. }
    destruct (H9 j k' v' s) as [Hn|?]; [lia|done..| |done]. destruct (decide (k = k')) as [<-|Hne]; [by right|left].
    by rewrite lookup_insert_ne.
Qed.

Lemma selected_step p targets i q newest best :
  i < length (slots p) → selected p targets i None q newest best →
  let '(q', newest', best') := select_newest targets (q, newest, best) i in
  selected p targets (S i) None q' newest' best'.
Proof.
  intros Hi Hsel. destruct (lookup_lt_is_Some_2 _ _ Hi) as [s Hs].
  assert (slots q !! i = Some s) as Hsq by (apply (sel_later _ _ _ _ _ _ _ Hsel); [lia|done]).
  unfold select_newest. rewrite (slot_at_some q i s Hsq).
  assert ((∀ k v, ¬ flushable p targets i k v) → selected p targets (S i) None q newest best) as Hskip
    by (by apply selected_skip).
  destruct (sl_key s) as [k|] eqn:Hk; [|apply Hskip; intros k v (t & Ht & ? & _); congruence].
  destruct (decide _) as [(Hd & Hin & Hu)|Hn].
  2: { apply Hskip. intros k' v (t & Ht & ? & ? & ? & ? & ?). apply Hn. assert (t = s) as -> by congruence.
       assert (k' = k) as -> by congruence. split; [done|]. split; [done|congruence]. }
  set (v := fr_version (sl_frame s)) in *.
  assert (flushable p targets i k v) as Hfl by (exists s; done).
  assert ((∀ b, best !! k = Some b → (b < v)%Z) →
    selected p targets (S i) None match newest !! k with Some prev => clean_slot q prev | None => q end
      (<[k:=i]> newest) (<[k:=v]> best)) as Hadd.
  { intros Hlt. pose proof (selected_add _ _ _ _ _ _ _ _ Hsel Hfl Hlt) as Hsel'.
    destruct (newest !! k) as [c|] eqn:Hc; [|done].
    destruct (sel_newest _ _ _ _ _ _ _ Hsel k c Hc) as (w & t & Hci & Hflc & _ & Ht & Hdt).
    eapply selected_clean; [exact Hsel'|exact Hflc|lia| |eauto].
    intros k' Hk'. destruct (decide (k = k')) as [<-|Hne].
    - rewrite lookup_insert_eq in Hk'. injection Hk' as <-. lia.
    - rewrite lookup_insert_ne in Hk' by done. destruct (sel_newest _ _ _ _ _ _ _ Hsel k' c Hk') as (w' & _ & _ & Hflc' & _).
      by destruct (flushable_fun _ _ _ _ _ _ _ Hflc Hflc'). }
  destruct (best !! k) as [b|] eqn:Hb; [|apply Hadd; done].
  destruct (decide (v ≤ b)%Z) as [Hle|Hgt]; [|apply Hadd; intros b' Hb'; injection Hb' as <-; lia].
  eapply selected_clean; [by eapply selected_over|exact Hfl|lia| |eauto].
  intros k' Hk'. destruct (sel_newest _ _ _ _ _ _ _ Hsel k' i Hk') as (_ & _ & ? & _). lia.
Qed.

Lemma select_all p targets : pool_ok p →
  let '(q, newest, best) := foldl (select_newest targets) (p, ∅, ∅) (seq 0 (length (slots p))) in
  selected p targets (length (slots p)) None q newest best.
Proof.
  intros Hp. apply (foldl_seq_ind (λ i (st : BufferPool * gmap key nat * gmap key Z),
    let '(q, newest, best) := st in selected p targets i None q newest best)).
  - constructor; try done.
    + by apply good_refl.
    + intros j s Hs. exists (sl_dirty s). rewrite Hs. by destruct s.
    + intros j k v Hj. lia.
    + intros j s Hs Hd s0 Hs0. congruence.
    + intros j k v s Hj. lia.
  - intros i [[q newest] best] Hi Hsel. by apply selected_step.
Qed.

(** A page of the disk. *)
Definition disk_page (d : Disk) (k : key) : option (list Z) := fh_pages (disk_file d (fst k)) !! snd k.

Lemma write_page_fail d fid pid data : dk_ok d = false → write_page d fid pid data = (d, Err Io).
Proof. unfold write_page. by intros ->. Qed.

Lemma write_page_ok d fid pid data : dk_ok d = true → ∃ d', write_page d fid pid data = (d', Ok tt) ∧
  dk_ok d' = true ∧ disk_page d' (fid, pid) = Some data ∧ (∀ k, k ≠ (fid, pid) → disk_page d' k = disk_page d k) ∧
  (∀ f, fh_num_pages (disk_file d' f) = fh_num_pages (disk_file d f)).
Proof.
  unfold write_page. intros ->. eexists. split; [done|]. split; [done|]. unfold disk_page, disk_file. cbn. split; [|split].
  - rewrite lookup_insert_eq. cbn. by rewrite lookup_insert_eq.
  - intros [f q] Hne. cbn. destruct (decide (fid = f)) as [<-|]; [|by rewrite lookup_insert_ne].
    rewrite lookup_insert_eq. cbn. rewrite lookup_insert_ne; [done|congruence].
  - intros f. destruct (decide (fid = f)) as [<-|]; [by rewrite lookup_insert_eq|by rewrite lookup_insert_ne].
Qed.

(** The state while the selected frames are being written. *)
Definition writing (q : BufferPool) (d : Disk) (newest : gmap key nat) (s : BufferPool * Disk) : Prop :=
  good nothing None q s.1 ∧ file_handles s.1 = file_handles q ∧ dk_ok s.2 = dk_ok d ∧ length (slots s.1) = length (slots q) ∧
  (∀ j t, slots q !! j = Some t → ∃ b, slots s.1 !! j = Some (with_dirty b t) ∧ (b = true → sl_dirty t = true)) ∧
  (∀ k, newest !! k = None → disk_page s.2 k = disk_page d k).

Lemma with_dirty_id s : with_dirty (sl_dirty s) s = s.
Proof. by destruct s. Qed.

Lemma writing_step q d newest r d1 fid pid i t :
  writing q d newest (r, d1) → newest !! (fid, pid) = Some i → slots q !! i = Some t →
  uncommitted (fr_version (sl_frame t)) = false →
  let s := write_newest (r, d1) (fid, pid, i) in
  writing q d newest s ∧
  (fid ∈ file_handles q → dk_ok d = true →
     disk_page s.2 (fid, pid) = Some (fr_data (sl_frame t)) ∧ slots s.1 !! i = Some (with_dirty false t)) ∧
  (∀ k, k ≠ (fid, pid) → disk_page s.2 k = disk_page d1 k) ∧
  (∀ j, j ≠ i → slots s.1 !! j = slots r !! j).
Proof.
  intros HW Hn Ht Hu. pose proof HW as (Hg & Eh & Eok & Hlen & Hsl & Hoth). cbn [fst snd] in *.
  destruct (Hsl i t Ht) as (b & Hb & Hbd). unfold write_newest. rewrite Eh.
  destruct (decide (fid ∈ file_handles q)) as [Hf|Hf]; [|by split_and!].
  rewrite (slot_at_some r i _ Hb). cbn [with_dirty sl_frame sl_dirty].
  destruct (dk_ok d) eqn:Ed.
  2: { rewrite write_page_fail by done. split; [exact HW|]. by split_and!. }
  destruct (write_page_ok d1 fid pid (fr_data (sl_frame t)) Eok) as (d2 & -> & Ed2 & Hpage & Hpages & _).
  set (r' := update_slot _ i (with_dirty false)).
  assert (slots r' = <[i := with_dirty false t]> (slots r)) as Es.
  { unfold r'. destruct b; cbn; by rewrite (alter_insert_some _ _ _ _ Hb). }
  assert (good nothing None r r') as Hr.
  { destruct b; [apply (clean_ok r i _ (proj1 Hg) Hb); done|]. unfold r'. cbn [sl_dirty].
    assert (update_slot r i (with_dirty false) = r) as ->; [|apply good_refl, Hg].
    destruct r as [? ? sl]; unfold update_slot, set_slots; cbn in *. f_equal.
    rewrite (alter_insert_some _ _ _ _ Hb). by rewrite list_insert_id. }
  split; [|split; [|split]]; cbn [fst snd].
  - split; [eapply good_trans; [exact Hg|exact Hr]|]. split; [unfold r'; by destruct b|]. split; [cbn [snd]; congruence|].
    split; [cbn [fst]; rewrite Es; by rewrite length_insert|]. split.
    + cbn [fst]. intros j s Hs. destruct (decide (i = j)) as [<-|Hne].
      * exists false. rewrite Es, list_lookup_insert_eq by (by eapply lookup_lt_Some). assert (s = t) as -> by congruence. done.
      * rewrite Es, list_lookup_insert_ne by done. by apply Hsl.
    + cbn [snd]. intros k Hk. rewrite Hpages by congruence. by apply Hoth.
  - intros _ _. split; [done|]. rewrite Es. apply list_lookup_insert_eq. by eapply lookup_lt_Some.
  - done.
  - intros j Hne. by rewrite Es, list_lookup_insert_ne.
Qed.

Lemma write_all q d newest :
  pool_ok q →
  (∀ k i, newest !! k = Some i → ∃ t, slots q !! i = Some t ∧ uncommitted (fr_version (sl_frame t)) = false) →
  let s := foldl write_newest (q, d) (map_to_list newest) in
  writing q d newest s ∧
  ∀ k i t, newest !! k = Some i → slots q !! i = Some t → fst k ∈ file_handles q → dk_ok d = true →
    disk_page s.2 k = Some (fr_data (sl_frame t)) ∧ slots s.1 !! i = Some (with_dirty false t).
Proof.
  intros Hq Hnew.
  destruct (foldl_establish (λ (e : key * nat) (s : BufferPool * Disk), ∀ t, slots q !! e.2 = Some t →
      fst e.1 ∈ file_handles q → dk_ok d = true →
      disk_page s.2 e.1 = Some (fr_data (sl_frame t)) ∧ slots s.1 !! e.2 = Some (with_dirty false t))
      (writing q d newest) write_newest (map_to_list newest) (q, d)) as [HJ HP].
  - split; [by apply good_refl|]. split; [done|]. split; [done|]. split; [done|]. split; [|done].
    intros j t Ht. exists (sl_dirty t). rewrite with_dirty_id. done.
  - intros [r d1] [[fid pid] i] Hin HW. apply elem_of_map_to_list in Hin.
    destruct (Hnew _ _ Hin) as (t & Ht & Hu).
    destruct (writing_step q d newest r d1 fid pid i t HW Hin Ht Hu) as (H1 & H2 & H3 & H4).
    split; [exact H1|]. split; [intros t' Ht'; cbn in Ht'; assert (t' = t) as -> by congruence; exact H2|].
    intros [k' i'] Hin' HP t' Ht' Hf Hd. apply elem_of_map_to_list in Hin'. cbn [fst snd] in *.
    destruct (HP t' Ht' Hf Hd) as [HP1 HP2]. destruct (decide (k' = (fid, pid))) as [->|Hne].
    { assert (i' = i) as -> by congruence. assert (t' = t) as -> by congruence. by apply H2. }
    split; [by rewrite H3|]. destruct (decide (i' = i)) as [->|]; [|by rewrite H4].
    assert (t' = t) as -> by congruence. destruct H1 as (_ & _ & _ & _ & Hsl & _).
    destruct (Hsl i t Ht) as (b & Hb & _). destruct (decide (fid ∈ file_handles q)) as [Hfid|Hfid]; [by apply H2|].
    destruct HW as (_ & Eh & _). cbn [fst] in Eh. unfold write_newest. rewrite Eh, decide_False by done. exact HP2.
  - split; [exact HJ|]. intros k i t Hk Ht. apply (HP (k, i)); [by apply elem_of_map_to_list|done].
Qed.

Lemma selected_committed p targets q newest best :
  selected p targets (length (slots p)) None q newest best →
  ∀ k i, newest !! k = Some i → ∃ t, slots q !! i = Some t ∧ uncommitted (fr_version (sl_frame t)) = false.
Proof.
  intros Hsel k i Hk. destruct (sel_newest _ _ _ _ _ _ _ Hsel k i Hk) as (v & s & _ & (s0 & Hs0 & _ & _ & _ & Hu & Hv) & _ & Hs & _).
  exists s. split; [done|]. destruct (sel_slots _ _ _ _ _ _ _ Hsel i s0 Hs0) as [b Hb].
  assert (s = with_dirty b s0) as -> by congruence. cbn. congruence.
Qed.

Lemma flush_pages_ok p d targets : pool_ok p → good nothing None p (fst (flush_pages_shard p d targets)).
Proof.
  intros Hp. unfold flush_pages_shard. pose proof (select_all p targets Hp) as Hsel.
  destruct (foldl (select_newest targets) _ _) as [[q newest] best].
  pose proof (sel_good _ _ _ _ _ _ _ Hsel) as Hg.
  destruct (write_all q d newest (proj1 Hg) (selected_committed _ _ _ _ _ Hsel)) as [[Hw _] _].
  eapply good_trans; [exact Hg|exact Hw].
Qed.

(** ** Every operation *)

(** The uncommitted frames an operation may change or drop. *)
Definition touches (o : pool_op) : option key → nat → Z → Prop :=
  match o with
  | OWrite id _ => λ _ id' _, id' = id
  | OUpdateTimestamps _ tx _ | ORollback tx => of_tx tx
  | OInvalidate k => of_key k
  | _ => nothing
  end.

Lemma run_op_ok p d o : op_ok o → pool_ok p → good (touches o) None p (fst (run_op (p, d) o)).
Proof.
  intros Ho Hp. destruct o; cbn [run_op fst touches].
  - by apply pin_page_ok.
  - by apply create_new_version_ok.
  - by apply pin_page_by_key_ok.
  - by apply pin_latest_committed_ok.
  - by apply unpin_ok.
  - by apply write_ok.
  - apply update_timestamps_ok; [apply Ho|done].
  - by apply rollback_versions_ok.
  - by apply evict_superseded_ok.
  - by apply invalidate_page_ok.
  - by apply reclaim_ok.
  - by apply evict_page_ok.
  - by apply flush_slots_ok.
  - by apply flush_slots_ok.
  - by apply flush_slots_ok.
  - by apply flush_pages_ok.
  - by apply prefetch_page_ok.
Qed.

Lemma run_ops_ok X p d ops : Forall op_ok ops → pool_ok p →
  (∀ o, o ∈ ops → ∀ k i v, touches o k i v → X k i v) → good X None p (fst (run_ops (p, d) ops)).
Proof.
  revert p d. induction ops as [|o ops IH]; intros p d Hops Hp HX; [by apply good_refl|].
  inversion Hops as [|? ? Ho Hrest]; subst. cbn [run_ops foldl].
  pose proof (run_op_ok p d o Ho Hp) as Hg. destruct (run_op (p, d) o) as [q d1]. cbn [fst] in Hg.
  eapply good_trans.
  - eapply good_weaken; [|exact Hg]. apply HX. left.
  - apply IH; [done|apply Hg|]. intros o' Ho'. apply HX. by right.
Qed.

Lemma run_ops_new_ok cap d ops : Forall op_ok ops → pool_ok (fst (run_ops (pool_new cap, d) ops)).
Proof. intros Hops. apply (run_ops_ok (λ _ _ _, True) (pool_new cap) d ops Hops (pool_new_ok cap)). done. Qed.

(** Reachable states for the examples. *)
Definition ex_disk (data : list Z) : Disk := mkDisk {[ 1%Z := mkFile 2 {[ 0%Z := data ]} ]} true.
Definition ex_key : key := (1, 0)%Z.

Ltac ops_ok := repeat (constructor; [first [done | cbn; unfold id_ok; lia]|]); apply List.Forall_nil.

(** C2. The pool's invariant holds at all times: starting from a new shard, after
    any sequence of operations the page table lists exactly the slots that hold
    the page, no slot twice; every uncommitted frame is dirty and is the only one
    of its page and transaction; an empty slot is clean; frames are not shared
    between slots; the hand and the free queue are in range and the pool is no
    larger than its maximum; at most [dirty_count] slots are dirty. *)
Theorem pool_inv_always cap d ops :
  Forall op_ok ops → pool_ok (fst (run_ops (pool_new cap, d) ops)).
Proof. apply run_ops_new_ok. Qed.

Lemma pool_inv_always_witness : pool_ok (fst (run_ops (pool_new 2, ex_disk [7%Z])
  [OPin ex_key 10 5; OCreate ex_key 11; OUpdateTimestamps ex_key 11 100; OReclaim 100; OFlushAll])).
Proof. apply (pool_inv_always 2). ops_ok. Defined.
