(* ===== verification/BufferVersions.v ===== *)
(** * Page versions: what readers get, what commit publishes

    Built on the invariant of [BufferInv]: which version [pin_page] returns, that
    a transaction keeps its own version whatever the others do, what rollback,
    flush and commit leave behind, and that eviction finds a slot when there is
    one.  The last section shows where the page versions go wrong. *)
From Stdlib Require Import ZArith Lia Bool.
From stdpp Require Import base list gmap numbers.
From S2P Require Import Prelude BufferPool BufferInv.

(** ** Which version a reader gets *)

Definition visible (p : BufferPool) (ts : Z) (i : nat) : Prop :=
  uncommitted (version_at p i) = false ∧ (version_at p i ≤ ts)%Z.

Lemma find_visible_spec p mark ts idxs best bv :
  (∀ i, i ∈ idxs → (0 ≤ version_at p i)%Z) →
  match best with None => bv = 0%Z | Some b => version_at p b = bv ∧ visible p ts b end →
  match find_visible p mark ts idxs best bv with
  | Some i => (i ∈ idxs ∧ version_at p i = mark) ∨
      (∀ j, j ∈ idxs → version_at p j ≠ mark) ∧ (i ∈ idxs ∨ best = Some i) ∧ visible p ts i ∧
      (bv ≤ version_at p i)%Z ∧ (∀ j, j ∈ idxs → visible p ts j → (version_at p j ≤ version_at p i)%Z)
  | None => best = None ∧ ∀ j, j ∈ idxs → version_at p j ≠ mark ∧ ¬ visible p ts j
  end.
Proof.
  revert best bv. induction idxs as [|j idxs IH]; intros best bv Hpos Hbest; cbn [find_visible].
  { destruct best as [b|].
    - destruct Hbest as [<- ?]. right. split; [intros j Hj; by apply not_elem_of_nil in Hj|]. split; [by right|].
      split; [done|]. split; [lia|]. intros j Hj. by apply not_elem_of_nil in Hj.
    - split; [done|]. intros j Hj. by apply not_elem_of_nil in Hj. }
  assert (0 ≤ version_at p j)%Z as Hj0 by (apply Hpos; left).
  assert (∀ i, i ∈ idxs → (0 ≤ version_at p i)%Z) as Hpos' by (intros i Hi; apply Hpos; by right).
  destruct (decide (version_at p j = mark)) as [Hm|Hm]; [left; split; [left|done]|].
  destruct (decide _) as [(Hu & Hle & Hbetter)|Hno].
  - specialize (IH (Some j) (version_at p j) Hpos' (conj eq_refl (conj Hu Hle))).
    assert (bv ≤ version_at p j)%Z as Hbv.
    { destruct Hbetter as [|[? ->]]; [lia|]. subst bv. lia. }
    destruct (find_visible p mark ts idxs (Some j) (version_at p j)) as [i|]; [|by destruct IH].
    destruct IH as [[Hi ?]|(H1 & H2 & H3 & H4 & H5)]; [left; split; [by right|done]|right].
    split; [intros i' Hi'; apply elem_of_cons in Hi' as [->|Hi']; auto|].
    split; [destruct H2 as [?|H2]; [left; by right|injection H2 as <-; left; left]|].
    split; [done|]. split; [lia|]. intros i' Hi' Hv. apply elem_of_cons in Hi' as [->|Hi']; auto.
  - specialize (IH best bv Hpos' Hbest).
    assert (visible p ts j → (version_at p j ≤ bv)%Z ∧ best ≠ None) as Hskip.
    { intros [Hu Hle]. split.
      - destruct (decide (bv < version_at p j)%Z); [exfalso; tauto|lia].
      - intros ->. subst bv. apply Hno. split; [done|]. split; [done|].
        destruct (decide (version_at p j = 0)%Z); [by right|left; lia]. }
    destruct (find_visible p mark ts idxs best bv) as [i|].
    + destruct IH as [[Hi ?]|(H1 & H2 & H3 & H4 & H5)]; [left; split; [by right|done]|right].
      split; [intros i' Hi'; apply elem_of_cons in Hi' as [->|Hi']; auto|].
      split; [destruct H2; [left; by right|by right]|]. split; [done|]. split; [done|].
      intros i' Hi' Hv. apply elem_of_cons in Hi' as [->|Hi']; [|by auto]. destruct (Hskip Hv). lia.
    + destruct IH as [-> IH]. split; [done|]. intros i' Hi'. apply elem_of_cons in Hi' as [->|Hi']; [|by auto].
      split; [done|]. intros Hv. by destruct (Hskip Hv).
Qed.

Lemma version_nonneg p i : pool_ok p → (0 ≤ version_at p i)%Z.
Proof.
  intros Hp. unfold version_at, slot_at. destruct (slots p !! i) as [s|] eqn:Hs; [|done].
  by destruct (slot_ok_at None p i s Hp Hs) as (_ & ? & _).
Qed.

(** The slots of page [k], by the page table or by their keys. *)
Lemma in_page p k i : pool_ok p → i ∈ slots_of p k ↔ ∃ s, slots p !! i = Some s ∧ sl_key s = Some k.
Proof.
  intros Hp. split.
  - intros Hi. destruct (inv_index None p Hp i k Hi) as (s & Hs & [?|[]]); [eauto|done].
  - intros (s & Hs & Hk). by apply (inv_indexed None p Hp i s).
Qed.

(** The version of page [k] that transaction [tx] with snapshot [ts] should see
    in the pool: its own, else the newest committed one in its snapshot. *)
Definition chosen (p : BufferPool) (k : key) (tx ts : Z) (i : nat) : Prop :=
  i ∈ slots_of p k ∧
  (version_at p i = tx_mark tx ∨
   (∀ j, j ∈ slots_of p k → version_at p j ≠ tx_mark tx) ∧ visible p ts i ∧
   ∀ j, j ∈ slots_of p k → visible p ts j → (version_at p j ≤ version_at p i)%Z).

Definition lookup_page (p : BufferPool) (k : key) (tx ts : Z) : option nat :=
  find_visible p (tx_mark tx) ts (reverse (slots_of p k)) None 0.

Lemma lookup_page_spec p k tx ts : pool_ok p →
  match lookup_page p k tx ts with
  | Some i => chosen p k tx ts i
  | None => ∀ j, j ∈ slots_of p k → version_at p j ≠ tx_mark tx ∧ ¬ visible p ts j
  end.
Proof.
  intros Hp. unfold lookup_page.
  pose proof (find_visible_spec p (tx_mark tx) ts (reverse (slots_of p k)) None 0
                (λ i _, version_nonneg p i Hp) eq_refl) as H.
  destruct (find_visible _ _ _ _ _ _) as [i|].
  - destruct H as [[Hi Hm]|(H1 & [Hi|?] & H3 & _ & H5)]; [| |done].
    + split; [by rewrite elem_of_reverse in Hi|by left].
    + split; [by rewrite elem_of_reverse in Hi|right]. split; [|split; [done|]].
      * intros j Hj. apply H1. by rewrite elem_of_reverse.
      * intros j Hj. apply H5. by rewrite elem_of_reverse.
  - intros j Hj. apply H. by rewrite elem_of_reverse.
Qed.

Lemma pin_slot_lookup p i s : slots p !! i = Some s →
  slots (pin_slot p i) !! i = Some (with_frame (add_pins 1) s).
Proof. intros Hs. cbn. by rewrite list_lookup_alter_eq, Hs. Qed.

Lemma install_lookup p i k data v dirty s : slots p !! i = Some s →
  slots (install p i k data v dirty) !! i = Some (mkSlot (Some k) (mkFrame (next_frame p) data v 1) dirty true).
Proof. intros Hs. rewrite (slots_install p i k data v dirty s Hs). apply list_lookup_insert_eq. by eapply lookup_lt_Some. Qed.

(** C25. [pin_page] gives a transaction the version it must see: its own uncommitted
    copy of the page, or the newest resident version committed within its
    snapshot; only when the pool has neither does it read the disk, and then the
    slot it returns holds what the file holds (zeros past its end). *)
Theorem pin_page_returns_visible p d k tx ts p' d' i :
  pool_ok p → pin_page p d k tx ts = (p', d', Ok i) →
  ∃ s, slots p' !! i = Some s ∧ sl_key s = Some k ∧
  ((∃ s0, slots p !! i = Some s0 ∧ content s = content s0 ∧ chosen p k tx ts i) ∨
   (∀ j, j ∈ slots_of p k → version_at p j ≠ tx_mark tx ∧ ¬ visible p ts j) ∧
   fr_version (sl_frame s) = 0%Z ∧ load_page d' (fst k) (snd k) = Ok (fr_data (sl_frame s))).
Proof.
  intros Hp Heq. pose proof (lookup_page_spec p k tx ts Hp) as Hl. unfold pin_page in Heq.
  fold (lookup_page p k tx ts) in Heq. destruct (lookup_page p k tx ts) as [j|].
  - injection Heq as <- <- <-. destruct (proj1 (in_page p k j Hp) (proj1 Hl)) as (s & Hs & Hk).
    exists (with_frame (add_pins 1) s). split; [by apply pin_slot_lookup|]. split; [done|]. left. by exists s.
  - destruct (evict_retry _ p d) as [[q d1] r] eqn:He.
    destruct (evict_retry_ok _ p d q d1 r Hp He) as (Hq & _ & Ht). destruct r as [j|e|]; [|done..].
    destruct (load_page d1 k.1 k.2) as [data|e|] eqn:Hload; [|done..]. injection Heq as <- <- <-.
    destruct (Ht j eq_refl) as (s & Hs & _). eexists. split; [by apply (install_lookup q j k data 0 false s)|].
    split; [done|]. right. done.
Qed.

Lemma pin_page_returns_visible_witness :
  let st := run_ops (pool_new 2, ex_disk [7%Z]) [OCreate ex_key 11] in
  ∃ s, slots (pin_slot (fst st) 0) !! 0 = Some s ∧ sl_key s = Some ex_key ∧
  ((∃ s0, slots (fst st) !! 0 = Some s0 ∧ content s = content s0 ∧ chosen (fst st) ex_key 11 5 0) ∨
   (∀ j, j ∈ slots_of (fst st) ex_key → version_at (fst st) j ≠ tx_mark 11 ∧ ¬ visible (fst st) 5 j) ∧
   fr_version (sl_frame s) = 0%Z ∧ load_page (snd st) 1 0 = Ok (fr_data (sl_frame s))).
Proof.
  intros st. apply (pin_page_returns_visible (fst st) (snd st) ex_key 11 5).
  - apply run_ops_new_ok. ops_ok.
  - vm_compute. reflexivity.
Defined.

(** ** A transaction's own version *)

Lemma own_version_lookup p k tx ts i s : pool_ok p → slots p !! i = Some s → sl_key s = Some k →
  fr_version (sl_frame s) = tx_mark tx → lookup_page p k tx ts = Some i.
Proof.
  intros Hp Hs Hk Hv. pose proof (lookup_page_spec p k tx ts Hp) as Hl.
  assert (i ∈ slots_of p k) as Hi by (apply in_page; eauto).
  assert (version_at p i = tx_mark tx) as Hvi by (unfold version_at; by rewrite (slot_at_some p i s Hs)).
  destruct (lookup_page p k tx ts) as [j|]; [|by destruct (Hl i Hi)].
  destruct Hl as (Hj & [Hm|[Hm _]]); [|by destruct (Hm i Hi)]. f_equal.
  destruct (proj1 (in_page p k j Hp) Hj) as (t & Ht & Hkt). unfold version_at in Hm. rewrite (slot_at_some p j t Ht) in Hm.
  apply (inv_unique None p Hp j i t s); [done..|congruence| |congruence]. rewrite Hm. apply uncommitted_mark.
Qed.

(** A transaction never loses what it wrote: whatever the other transactions,
    the flusher, the vacuum and the prefetcher do in between, as long as nobody
    writes through the transaction's own frame, ends the transaction or
    invalidates the page, the transaction's next [pin_page] returns the same slot
    with the same frame and the same bytes. *)
Theorem own_version_survives p d k tx ts i s ops :
  pool_ok p → slots p !! i = Some s → sl_key s = Some k → fr_version (sl_frame s) = tx_mark tx →
  Forall op_ok ops → (∀ o, o ∈ ops → ¬ touches o (Some k) (fr_id (sl_frame s)) (tx_mark tx)) →
  let '(p', d') := run_ops (p, d) ops in
  ∃ s', slots p' !! i = Some s' ∧ content s' = content s ∧ pin_page p' d' k tx ts = (pin_slot p' i, d', Ok i).
Proof.
  intros Hp Hs Hk Hv Hops Hfree.
  pose proof (run_ops_ok (λ k' id v, ∃ o, o ∈ ops ∧ touches o k' id v) p d ops Hops Hp
                (λ o Ho k' id v Ht, ex_intro _ o (conj Ho Ht))) as [Hp' Hkeep].
  destruct (run_ops (p, d) ops) as [p' d']. cbn [fst] in *.
  destruct (Hkeep i s Hs) as (s' & Hs' & Hc).
  { rewrite Hv. apply uncommitted_mark. }
  { intros (o & Ho & Ht). apply (Hfree o Ho). by rewrite <- Hk, <- Hv. }
  exists s'. split; [done|]. split; [done|]. unfold content in Hc.
  pose proof (own_version_lookup p' k tx ts i s' Hp' Hs' ltac:(congruence) ltac:(congruence)) as Hl.
  unfold pin_page. unfold lookup_page in Hl. by rewrite Hl.
Qed.

Lemma own_version_survives_witness :
  let st := run_ops (pool_new 2, ex_disk [7%Z]) [OCreate ex_key 11; OWrite 2 [8%Z]] in
  let '(p', d') := run_ops (fst st, snd st) [OPin ex_key 12 100; OFlushAll; OReclaim 50; ORollback 12; OEvictPage ex_key] in
  ∃ s', slots p' !! 0 = Some s' ∧ content s' = content (slot_at (fst st) 0) ∧
        pin_page p' d' ex_key 11 5 = (pin_slot p' 0, d', Ok 0).
Proof.
  intros st. apply (own_version_survives (fst st) (snd st) ex_key 11 5 0).
  - apply run_ops_new_ok. ops_ok.
  - vm_compute. reflexivity.
  - vm_compute. reflexivity.
  - vm_compute. reflexivity.
  - ops_ok.
  - intros o Ho. repeat (apply elem_of_cons in Ho as [->|Ho]; [vm_compute; try congruence; tauto|]). by apply not_elem_of_nil in Ho.
Defined.

(** ** Rollback *)

Definition rolled (p : BufferPool) (tx : Z) (i : nat) (q : BufferPool) : Prop :=
  pool_ok q ∧ length (slots q) = length (slots p) ∧
  (∀ j t, j < i → slots q !! j = Some t → fr_version (sl_frame t) ≠ tx_mark tx) ∧
  (∀ j t, slots p !! j = Some t → fr_version (sl_frame t) ≠ tx_mark tx → slots q !! j = Some t) ∧
  (∀ j, i ≤ j → slots q !! j = slots p !! j).

(** Rollback is complete and touches nothing else: no frame of the transaction
    is left in the pool, and every other slot is exactly as it was. *)
Theorem rollback_discards_only_own p tx :
  pool_ok p →
  (∀ i s, slots (rollback_versions p tx) !! i = Some s → fr_version (sl_frame s) ≠ tx_mark tx) ∧
  (∀ i s, slots p !! i = Some s → fr_version (sl_frame s) ≠ tx_mark tx → slots (rollback_versions p tx) !! i = Some s).
Proof.
  intros Hp. unfold rollback_versions.
  assert (rolled p tx (length (slots p)) (foldl (rollback_slot (tx_mark tx)) p (seq 0 (length (slots p))))) as (_ & Hlen & H1 & H2 & _).
  { apply (foldl_seq_ind (rolled p tx)); [split_and!; try done; lia|].
    intros i q Hi (Hq & Hlen & H1 & H2 & H3). unfold rollback_slot. destruct (decide _) as [Hv|Hv].
    - destruct (version_at_mark q i tx Hv) as (s & Hs & _ & Hvs). pose proof (slots_drop q i s Hs) as Es.
      assert (i < length (slots q)) as Hi' by lia.
      split; [by eapply drop_ok|]. rewrite Es. split; [by rewrite length_insert|]. split; [|split].
      + intros j t Hj Ht. apply list_lookup_insert_Some in Ht as [(-> & <- & _)|[Hne Ht]]; [|apply (H1 j); [lia|done]].
        cbn. intros Hz. pose proof (uncommitted_mark tx) as Hu. rewrite <- Hz in Hu. by rewrite committed_id in Hu.
      + intros j t Ht Hvt. destruct (decide (i = j)) as [<-|]; [|rewrite list_lookup_insert_ne by done; by apply H2].
        rewrite H3 in Hs by lia. congruence.
      + intros j Hj. rewrite list_lookup_insert_ne by lia. apply H3. lia.
    - split; [done|]. split; [done|]. split; [|split; [done|intros; apply H3; lia]].
      intros j t Hj Ht. destruct (decide (j = i)) as [->|]; [|apply (H1 j); [lia|done]].
      unfold version_at in Hv. by rewrite (slot_at_some q i t Ht) in Hv. }
  split; [|done]. intros i s Hs. apply (H1 i); [|done]. apply lookup_lt_Some in Hs. lia.
Qed.

Lemma rollback_discards_only_own_witness :
  let p := fst (run_ops (pool_new 2, ex_disk [7%Z]) [OPin ex_key 10 5; OCreate ex_key 11]) in
  (∀ i s, slots (rollback_versions p 11) !! i = Some s → fr_version (sl_frame s) ≠ tx_mark 11) ∧
  (∀ i s, slots p !! i = Some s → fr_version (sl_frame s) ≠ tx_mark 11 → slots (rollback_versions p 11) !! i = Some s).
Proof. apply rollback_discards_only_own. apply run_ops_new_ok. ops_ok. Defined.

(** ** Flushing the pages of a commit *)

Lemma flush_pages_spec p d targets : pool_ok p → dk_ok d = true →
  let '(p', d') := flush_pages_shard p d targets in
  length (slots p') = length (slots p) ∧
  (∀ j s, slots p !! j = Some s → ∃ b, slots p' !! j = Some (with_dirty b s)) ∧
  (∀ k, (∀ j v, ¬ flushable p targets j k v) → disk_page d' k = disk_page d k) ∧
  (∀ k j0 v0, flushable p targets j0 k v0 → fst k ∈ file_handles p →
     ∃ j v s, flushable p targets j k v ∧ slots p !! j = Some s ∧ disk_page d' k = Some (fr_data (sl_frame s)) ∧
       ∀ j' v', flushable p targets j' k v' → (v' ≤ v)%Z ∧ ∃ s', slots p' !! j' = Some s' ∧ sl_dirty s' = false).
Proof.
  intros Hp Hok. unfold flush_pages_shard. pose proof (select_all p targets Hp) as Hsel.
  destruct (foldl (select_newest targets) _ _) as [[q newest] best].
  destruct (write_all q d newest (proj1 (sel_good _ _ _ _ _ _ _ Hsel)) (selected_committed _ _ _ _ _ Hsel)) as [Hw Hwr].
  destruct (foldl write_newest (q, d) (map_to_list newest)) as [p' d']. cbn [fst snd] in *.
  destruct Hw as (_ & _ & _ & Hlen & Hsl & Hoth). cbn [fst snd] in *.
  assert (∀ j s, slots p !! j = Some s → ∃ b, slots p' !! j = Some (with_dirty b s)) as Hall.
  { intros j s Hs. destruct (sel_slots _ _ _ _ _ _ _ Hsel j s Hs) as [b Hb].
    destruct (Hsl j _ Hb) as (b' & Hb' & _). by exists b'. }
  split; [rewrite Hlen; apply (sel_length _ _ _ _ _ _ _ Hsel)|]. split; [done|]. split.
  - intros k Hno. apply Hoth. destruct (newest !! k) as [j|] eqn:Hk; [|done].
    destruct (sel_newest _ _ _ _ _ _ _ Hsel k j Hk) as (v & _ & _ & Hfl & _). by destruct (Hno j v).
  - intros k j0 v0 Hfl0 Hf. pose proof Hfl0 as (s0 & Hs0 & _).
    destruct (sel_max _ _ _ _ _ _ _ Hsel j0 k v0 (lookup_lt_Some _ _ _ Hs0) Hfl0) as (_ & _ & _ & j & Hj).
    destruct (sel_newest _ _ _ _ _ _ _ Hsel k j Hj) as (v & t & _ & Hfl & Hb & Ht & _).
    pose proof Hfl as (s & Hs & _). exists j, v, s. split; [done|]. split; [done|].
    destruct (sel_slots _ _ _ _ _ _ _ Hsel j s Hs) as [b Hbs]. assert (t = with_dirty b s) as -> by congruence.
    rewrite <- (sel_handles _ _ _ _ _ _ _ Hsel) in Hf.
    destruct (Hwr k j _ Hj Ht Hf Hok) as [Hpage Hclean]. split; [done|].
    intros j' v' Hfl'. pose proof Hfl' as (s' & Hs' & _). pose proof (lookup_lt_Some _ _ _ Hs') as Hlt.
    destruct (sel_max _ _ _ _ _ _ _ Hsel j' k v' Hlt Hfl') as (b' & Hb' & Hle & _).
    split; [congruence|]. destruct (sel_slots _ _ _ _ _ _ _ Hsel j' s' Hs') as [c Hc].
    destruct (Hsl j' _ Hc) as (c' & Hc' & Hd). exists (with_dirty c' (with_dirty c s')). split; [done|].
    destruct c'; [|done]. specialize (Hd eq_refl).
    destruct (sel_clean _ _ _ _ _ _ _ Hsel j' k v' _ Hlt Hfl' Hc Hd) as [Hn|?]; [|done].
    assert (j' = j) as -> by congruence. rewrite Hclean in Hc'. by injection Hc'.
Qed.

(** [flush_pages] writes the right version: for every page of the commit that
    has dirty committed frames, the file ends with the data of the newest of them
    and all of them are clean; older versions never reach the disk, and the pages
    it has nothing to write for keep their bytes. *)
Theorem flush_pages_writes_newest p d targets k :
  pool_ok p → dk_ok d = true → fst k ∈ file_handles p →
  let '(p', d') := flush_pages_shard p d targets in
  ((∀ j v, ¬ flushable p targets j k v) → disk_page d' k = disk_page d k) ∧
  ((∃ j v, flushable p targets j k v) →
     ∃ j v s, flushable p targets j k v ∧ slots p !! j = Some s ∧ disk_page d' k = Some (fr_data (sl_frame s)) ∧
       ∀ j' v', flushable p targets j' k v' → (v' ≤ v)%Z ∧ ∃ s', slots p' !! j' = Some s' ∧ sl_dirty s' = false).
Proof.
  intros Hp Hok Hf. pose proof (flush_pages_spec p d targets Hp Hok) as H.
  destruct (flush_pages_shard p d targets) as [p' d']. destruct H as (_ & _ & H2 & H3).
  split; [apply H2|]. intros (j & v & Hfl). by apply (H3 k j v).
Qed.

Lemma flush_pages_writes_newest_witness :
  let st := run_ops (pool_new 2, ex_disk [7%Z])
    [OCreate ex_key 11; OWrite 2 [8%Z]; OUpdateTimestamps ex_key 11 100; OUnpin 2] in
  let '(p', d') := flush_pages_shard (fst st) (snd st) {[ ex_key ]} in
  ((∀ j v, ¬ flushable (fst st) {[ ex_key ]} j ex_key v) → disk_page d' ex_key = disk_page (snd st) ex_key) ∧
  ((∃ j v, flushable (fst st) {[ ex_key ]} j ex_key v) →
     ∃ j v s, flushable (fst st) {[ ex_key ]} j ex_key v ∧ slots (fst st) !! j = Some s ∧
       disk_page d' ex_key = Some (fr_data (sl_frame s)) ∧
       ∀ j' v', flushable (fst st) {[ ex_key ]} j' ex_key v' → (v' ≤ v)%Z ∧ ∃ s', slots p' !! j' = Some s' ∧ sl_dirty s' = false).
Proof.
  intros st. apply (flush_pages_writes_newest (fst st) (snd st) {[ ex_key ]} ex_key).
  - apply run_ops_new_ok. ops_ok.
  - vm_compute. reflexivity.
  - apply (bool_decide_unpack _). vm_compute. exact I.
Defined.

(** ** The page phase of a commit *)

(** Pins do not change what the slots hold. *)
Definition same_content (p q : BufferPool) : Prop :=
  file_handles q = file_handles p ∧ ∀ j, content <$> slots q !! j = content <$> slots p !! j.

Lemma same_content_trans p q r : same_content p q → same_content q r → same_content p r.
Proof. intros [E1 H1] [E2 H2]. split; [congruence|]. intros j. by rewrite H2, H1. Qed.

Lemma same_content_pins p i n : same_content p (update_slot p i (with_frame (add_pins n))).
Proof.
  split; [done|]. intros j. cbn. destruct (decide (i = j)) as [<-|]; [|by rewrite list_lookup_alter_ne].
  rewrite list_lookup_alter_eq. by destruct (slots p !! i).
Qed.

Lemma same_content_unpin p id : same_content p (unpin_frame p id).
Proof.
  split; [done|]. intros j. cbn. change (map ?g ?l) with (g <$> l). rewrite list_lookup_fmap.
  destruct (slots p !! j) as [s|]; [|done]. cbn. by destruct (decide _).
Qed.

Lemma same_content_lookup p q j s : same_content p q → slots p !! j = Some s →
  ∃ s', slots q !! j = Some s' ∧ content s' = content s.
Proof. intros [_ H] Hs. specialize (H j). rewrite Hs in H. destruct (slots q !! j) as [s'|]; [|done]. injection H as ?. exists s'. split; [done|]. unfold content in *. congruence. Qed.

Lemma same_content_back p q j s : same_content p q → slots q !! j = Some s →
  ∃ s', slots p !! j = Some s' ∧ content s' = content s.
Proof. intros [_ H] Hs. specialize (H j). rewrite Hs in H. destruct (slots p !! j) as [s'|]; [|done]. injection H as ?. exists s'. split; [done|]. unfold content in *. congruence. Qed.

Lemma pin_modified_content tx p ks fs : pool_ok p →
  let '(q, _) := foldl (pin_modified tx) (p, fs) ks in pool_ok q ∧ same_content p q.
Proof.
  revert p fs. induction ks as [|k ks IH]; intros p fs Hp; cbn [foldl]; [by split; [|split]|].
  unfold pin_modified at 2. cbn [fst snd]. unfold pin_page_by_key.
  destruct (find_version _ _ _) as [i|]; [|by apply IH].
  assert (pool_ok (pin_slot p i)) as Hq by (by apply (pins_ok None p i 1)).
  specialize (IH (pin_slot p i) (fs ++ [fr_id (sl_frame (slot_at (pin_slot p i) i))]) Hq).
  destruct (foldl _ _ ks) as [r gs]. destruct IH as [Hr Hc]. split; [done|].
  eapply same_content_trans; [apply (same_content_pins p i 1)|done].
Qed.

Lemma unpin_all_content p ids : pool_ok p → pool_ok (foldl unpin_frame p ids) ∧ same_content p (foldl unpin_frame p ids).
Proof.
  revert p. induction ids as [|id ids IH]; intros p Hp; cbn [foldl]; [by split; [|split]|].
  assert (pool_ok (unpin_frame p id)) as Hq by (by apply (unpin_ok None p id)).
  destruct (IH (unpin_frame p id) Hq) as [Hr Hc]. split; [done|].
  eapply same_content_trans; [apply same_content_unpin|done].
Qed.

(** Only frames of the transaction change, and only their version. *)
Definition restamped (tx ts : Z) (p q : BufferPool) : Prop :=
  file_handles q = file_handles p ∧ page_to_slots q = page_to_slots p ∧
  (∀ j s, slots p !! j = Some s → ∃ v, slots q !! j = Some (with_frame (with_version v) s) ∧
      (v = fr_version (sl_frame s) ∨ (fr_version (sl_frame s) = tx_mark tx ∧ v = ts))) ∧
  (∀ j, slots p !! j = None → slots q !! j = None).

Lemma restamped_refl tx ts p : restamped tx ts p p.
Proof.
  split; [done|]. split; [done|]. split; [|done]. intros j s Hs. exists (fr_version (sl_frame s)).
  split; [|by left]. rewrite Hs. by destruct s as [? [] ? ?].
Qed.

Lemma restamped_trans tx ts p q r : restamped tx ts p q → restamped tx ts q r → restamped tx ts p r.
Proof.
  intros (E1 & E2 & H1 & N1) (F1 & F2 & H2 & N2). split; [congruence|]. split; [congruence|]. split; [|auto].
  intros j s Hs. destruct (H1 j s Hs) as (v & Hv & Hor). destruct (H2 j _ Hv) as (w & Hw & Hor').
  exists w. split; [exact Hw|]. cbn in Hor'. destruct Hor as [->|[? ->]], Hor' as [->|[? ->]]; auto.
Qed.

Lemma restamped_step tx ts p i : version_at p i = tx_mark tx → restamped tx ts p (update_slot p i (with_frame (with_version ts))).
Proof.
  intros Hv. destruct (version_at_mark p i tx Hv) as (s & Hs & _ & Hvs).
  split; [done|]. split; [done|]. split.
  - intros j t Ht. cbn. destruct (decide (i = j)) as [<-|].
    + exists ts. rewrite list_lookup_alter_eq, Ht. split; [done|]. right. split; [congruence|done].
    + rewrite list_lookup_alter_ne by done. exists (fr_version (sl_frame t)). split; [|by left]. rewrite Ht. by destruct t as [? [] ? ?].
  - intros j Hj. cbn. destruct (decide (i = j)) as [<-|]; [congruence|by rewrite list_lookup_alter_ne].
Qed.

(** A frame that has the timestamp keeps it. *)
Lemma restamped_done tx ts p q i : id_ok ts → restamped tx ts p q → version_at p i = ts → i < length (slots p) →
  version_at q i = ts.
Proof.
  intros Hts (_ & _ & H & _) Hv Hi. destruct (lookup_lt_is_Some_2 _ _ Hi) as [s Hs].
  unfold version_at in *. rewrite (slot_at_some p i s Hs) in Hv. destruct (H i s Hs) as (v & Hq & Hor).
  rewrite (slot_at_some q i _ Hq). cbn. destruct Hor as [->|[Hm _]]; [done|].
  pose proof (uncommitted_mark tx) as Hu. rewrite <- Hm, Hv, committed_id in Hu by done. done.
Qed.

Lemma update_timestamps_spec p k tx ts : id_ok ts →
  restamped tx ts p (update_timestamps p k tx ts) ∧
  ∀ i, i ∈ slots_of p k → version_at p i = tx_mark tx → version_at (update_timestamps p k tx ts) i = ts.
Proof.
  intros Hts. unfold update_timestamps.
  apply (foldl_establish (λ i q, version_at p i = tx_mark tx → version_at q i = ts) (restamped tx ts p)).
  - apply restamped_refl.
  - intros q i _ Hq. destruct (decide (version_at q i = tx_mark tx)) as [Hv|Hv].
    + pose proof (restamped_step tx ts q i Hv) as Hs. destruct (version_at_mark q i tx Hv) as (s & Hsl & _).
      assert (version_at (update_slot q i (with_frame (with_version ts))) i = ts) as Hnow.
      { unfold version_at, slot_at. cbn. by rewrite list_lookup_alter_eq, Hsl. }
      split; [by eapply restamped_trans|]. split; [done|]. intros j _ HP Hj.
      destruct (decide (i = j)) as [<-|]; [done|]. unfold version_at, slot_at in *. cbn. rewrite list_lookup_alter_ne by done. auto.
    + split; [done|]. split; [|done]. intros Hi. destruct (version_at_mark p i tx Hi) as (s & Hs & _ & Hvs).
      destruct Hq as (_ & _ & H & _). destruct (H i s Hs) as (v & Hsl & Hor). unfold version_at in *.
      rewrite (slot_at_some q i _ Hsl) in Hv |- *. cbn in *. destruct Hor as [->|[_ ->]]; [congruence|done].
Qed.

Lemma stamp_all_spec p tx ts ks : id_ok ts → pool_ok p →
  let q := foldl (λ p k, update_timestamps p k tx ts) p ks in
  pool_ok q ∧ restamped tx ts p q ∧
  ∀ k i, k ∈ ks → i ∈ slots_of p k → version_at p i = tx_mark tx → version_at q i = ts.
Proof.
  intros Hts. revert p. induction ks as [|k ks IH]; intros p Hp; cbn [foldl].
  { split; [done|]. split; [apply restamped_refl|]. intros k i Hk. by apply not_elem_of_nil in Hk. }
  destruct (update_timestamps_spec p k tx ts Hts) as [Hs Hdone].
  assert (pool_ok (update_timestamps p k tx ts)) as Hq by (by apply update_timestamps_ok).
  destruct (IH _ Hq) as (H1 & H2 & H3). split; [done|]. split; [by eapply restamped_trans|].
  intros k' i Hk Hi Hv. destruct (version_at_mark p i tx Hv) as (s & Hsl & _ & Hvs).
  pose proof Hs as (_ & Et & Hst & _). destruct (Hst i s Hsl) as (v & Hq' & Hor).
  assert (i < length (slots (update_timestamps p k tx ts))) as Hlt by (by eapply lookup_lt_Some).
  destruct (decide (version_at (update_timestamps p k tx ts) i = ts)) as [Ed|Hnd]; [by eapply restamped_done|].
  apply elem_of_cons in Hk as [->|Hk]; [by destruct Hnd; apply Hdone|].
  apply (H3 k'); [done|unfold slots_of; by rewrite Et|]. unfold version_at in *. rewrite (slot_at_some _ i _ Hq') in Hnd |- *.
  cbn in *. destruct Hor as [->|[_ ->]]; done.
Qed.

(** Slots below the kept version may be emptied, nothing else changes. *)
Definition thinned (keep : Z) (p q : BufferPool) : Prop :=
  (∀ j s, slots q !! j = Some s → slots p !! j = Some s ∨ sl_key s = None) ∧
  (∀ j s, slots p !! j = Some s → (keep ≤ fr_version (sl_frame s))%Z → slots q !! j = Some s).

Lemma thinned_refl keep p : thinned keep p p.
Proof. split; auto. Qed.

Lemma thinned_trans keep p q r : thinned keep p q → thinned keep q r → thinned keep p r.
Proof. intros [H1 H2] [H3 H4]. split; [|auto]. intros j s Hs. destruct (H3 j s Hs); auto. Qed.

Lemma thinned_foldl {A} keep (f : BufferPool → A → BufferPool) l p :
  (∀ q a, thinned keep q (f q a)) → thinned keep p (foldl f p l).
Proof.
  intros Hf. revert p. induction l as [|a l IH]; intros p; cbn [foldl]; [apply thinned_refl|].
  eapply thinned_trans; [apply Hf|apply IH].
Qed.

Lemma superseded_thinned keep p k : thinned keep p (evict_superseded_committed_versions p k keep).
Proof.
  unfold evict_superseded_committed_versions. destruct (page_to_slots p !! k) as [idxs|]; [|apply thinned_refl].
  unfold keep_keyed. set (q := foldl _ p idxs).
  assert (thinned keep p q) as Hq; [|by destruct Hq]. apply thinned_foldl. clear. intros p i. unfold evict_superseded_slot.
  destruct (decide _) as [(_ & Hlt & _)|]; [|apply thinned_refl].
  destruct (slots p !! i) as [s|] eqn:Hs.
  - rewrite (slot_at_some p i s Hs) in Hlt. split.
    + intros j t Ht. unfold set_free in Ht; cbn [slots] in Ht. destruct (decide (i = j)) as [<-|].
      * rewrite (lookup_clear p i s Hs) in Ht. injection Ht as <-. by right.
      * rewrite lookup_clear_ne in Ht by done. by left.
    + intros j t Ht Hk. unfold set_free; cbn [slots]. rewrite lookup_clear_ne; [done|]. intros ->.
      assert (t = s) as -> by congruence. lia.
  - assert (slots (clear_slot p i) = slots p) as E.
    { apply list_eq. intros j. destruct (decide (i = j)) as [<-|]; [|by apply lookup_clear_ne].
      unfold clear_slot. destruct (sl_dirty (slot_at p i)); cbn; by rewrite list_lookup_alter_eq, Hs. }
    unfold thinned, set_free. cbn [slots]. rewrite E. apply thinned_refl.
Qed.

Lemma superseded_all_ok p ks ts : pool_ok p →
  pool_ok (foldl (λ p k, evict_superseded_committed_versions p k ts) p ks).
Proof. revert p. induction ks as [|k ks IH]; intros p Hp; [done|]. cbn [foldl]. apply IH. by apply evict_superseded_ok. Qed.

(** Slot [i] holds the newest committed version of page [k], and it is [v]. *)
Definition newest_is (p : BufferPool) (k : key) (i : nat) (v : Z) (data : list Z) : Prop :=
  (∃ s, slots p !! i = Some s ∧ sl_key s = Some k ∧ fr_version (sl_frame s) = v ∧ fr_data (sl_frame s) = data) ∧
  ∀ j t, slots p !! j = Some t → sl_key t = Some k → uncommitted (fr_version (sl_frame t)) = false →
         j ≠ i → (fr_version (sl_frame t) < v)%Z.

Lemma newest_is_content p q k i v data : same_content p q → newest_is p k i v data → newest_is q k i v data.
Proof.
  intros Hc [(s & Hs & H1 & H2 & H3) Hb]. split.
  - destruct (same_content_lookup p q i s Hc Hs) as (s' & Hs' & E). exists s'. unfold content in E. split_and!; congruence.
  - intros j t Ht Hk Hu Hne. destruct (same_content_back p q j t Hc Ht) as (t' & Ht' & E). unfold content in E.
    injection E as E1 E2 E3 E4 E5. rewrite <- E4. apply (Hb j t'); [done|congruence|congruence|done].
Qed.

Lemma newest_is_thinned p q k i v data : thinned v p q → newest_is p k i v data → newest_is q k i v data.
Proof.
  intros [H1 H2] [(s & Hs & Hk & Hv & Hd) Hb]. split.
  - exists s. split; [|done]. apply H2; [done|lia].
  - intros j t Ht Hkt Hu Hne. destruct (H1 j t Ht) as [Ht'|?]; [|congruence]. by apply (Hb j t).
Qed.

Lemma newest_is_lookup p k u rts i v data : pool_ok p → newest_is p k i v data → id_ok v → (v ≤ rts)%Z →
  (∀ j, j ∈ slots_of p k → version_at p j ≠ tx_mark u) → lookup_page p k u rts = Some i.
Proof.
  intros Hp [(s & Hs & Hk & Hv & Hd) Hb] Hid Hle Hno. pose proof (lookup_page_spec p k u rts Hp) as Hl.
  assert (i ∈ slots_of p k) as Hi by (apply in_page; eauto).
  assert (version_at p i = v) as Hvi by (unfold version_at; by rewrite (slot_at_some p i s Hs)).
  assert (visible p rts i) as Hvis by (split; rewrite Hvi; [by apply committed_id|done]).
  destruct (lookup_page p k u rts) as [j|]; [|by destruct (Hl i Hi)]. f_equal.
  destruct Hl as (Hj & [Hm|(_ & [Hu _] & Hmax)]); [by destruct (Hno j Hj)|].
  destruct (decide (j = i)) as [->|Hne]; [done|]. specialize (Hmax i Hi Hvis).
  destruct (proj1 (in_page p k j Hp) Hj) as (t & Ht & Hkt). unfold version_at in *.
  rewrite (slot_at_some p j t Ht) in *. pose proof (Hb j t Ht Hkt Hu Hne). lia.
Qed.

Lemma restamp_newest p q tx ts k i s :
  pool_ok p → id_ok ts → restamped tx ts p q → slots p !! i = Some s → sl_key s = Some k →
  fr_version (sl_frame s) = tx_mark tx → version_at q i = ts →
  (∀ j t, slots p !! j = Some t → sl_key t = Some k → uncommitted (fr_version (sl_frame t)) = false →
          (fr_version (sl_frame t) < ts)%Z) →
  newest_is q k i ts (fr_data (sl_frame s)).
Proof.
  intros Hp Hts (_ & _ & Hst & Hnone) Hs Hk Hv Hvq Hb. split.
  - destruct (Hst i s Hs) as (v & Hq & _). unfold version_at in Hvq. rewrite (slot_at_some q i _ Hq) in Hvq. cbn in Hvq. subst v.
    by exists (with_frame (with_version ts) s).
  - intros j t Ht Hkt Hu Hne. destruct (slots p !! j) as [t0|] eqn:Ht0; [|by rewrite Hnone in Ht].
    destruct (Hst j t0 Ht0) as (v & Hq & Hor). rewrite Ht in Hq. injection Hq as ->. cbn in *.
    destruct Hor as [->|[Hm ->]]; [by apply (Hb j t0)|]. destruct Hne.
    apply (inv_unique None p Hp j i t0 s); [done|done|congruence| |congruence]. rewrite Hm. apply uncommitted_mark.
Qed.

Lemma newest_is_flushed p d targets k i v data : pool_ok p → dk_ok d = true → k ∈ targets → fst k ∈ file_handles p →
  id_ok v → newest_is p k i v data → (∀ s, slots p !! i = Some s → sl_dirty s = true) →
  let '(p', d') := flush_pages_shard p d targets in
  disk_page d' k = Some data ∧ newest_is p' k i v data.
Proof.
  intros Hp Hok Hin Hf Hv [(s & Hs & Hk & Hvs & Hd) Hb] Hdirty.
  pose proof (flush_pages_spec p d targets Hp Hok) as H. pose proof (flush_pages_ok p d targets Hp) as [Hp' _].
  destruct (flush_pages_shard p d targets) as [p' d']. destruct H as (Hlen & Hsl & _ & Hw).
  assert (flushable p targets i k v) as Hfl.
  { exists s. split_and!; try done; [by apply Hdirty|by apply committed_id]. }
  destruct (Hw k i v Hfl Hf) as (j & w & t & Hflj & Ht & Hpage & Hmax).
  destruct (Hmax i v Hfl) as [Hle _].
  assert (j = i) as ->.
  { destruct (decide (j = i)); [done|]. destruct Hflj as (t' & Ht' & Hkt & _ & _ & Hu & Hvt).
    assert (fr_version (sl_frame t') < v)%Z; [|lia]. apply (Hb j); [done|done|congruence|done]. }
  split; [congruence|]. split.
  - destruct (Hsl i s Hs) as [b Hb']. by exists (with_dirty b s).
  - intros j t' Ht' Hkt Hu Hne. destruct (slots p !! j) as [t0|] eqn:Ht0.
    + destruct (Hsl j t0 Ht0) as [b Hb']. rewrite Ht' in Hb'. injection Hb' as ->. by apply (Hb j t0).
    + apply lookup_ge_None in Ht0. apply lookup_lt_Some in Ht'. lia.
Qed.

(** C3. A commit publishes its pages: once the page phase is done, the file holds
    the transaction's copy of every page it wrote, the copy is still in the pool,
    and every reader whose snapshot includes the commit gets exactly that copy. *)
Theorem commit_publishes p d modified tx ts k i s :
  pool_ok p → id_ok tx → id_ok ts → dk_ok d = true → k ∈ modified → fst k ∈ file_handles p →
  slots p !! i = Some s → sl_key s = Some k → fr_version (sl_frame s) = tx_mark tx →
  (∀ j t, slots p !! j = Some t → sl_key t = Some k → uncommitted (fr_version (sl_frame t)) = false →
          (fr_version (sl_frame t) < ts)%Z) →
  let '(p', d') := commit_pages p d modified tx ts in
  disk_page d' k = Some (fr_data (sl_frame s)) ∧
  ∀ u rts, (ts ≤ rts)%Z → (∀ j, j ∈ slots_of p' k → version_at p' j ≠ tx_mark u) →
    pin_page p' d' k u rts = (pin_slot p' i, d', Ok i) ∧ fr_data (sl_frame (slot_at p' i)) = fr_data (sl_frame s).
Proof.
  intros Hp Htx Hts Hok Hin Hf Hs Hk Hv Hb. unfold commit_pages.
  pose proof (pin_modified_content tx p modified [] Hp) as H1.
  destruct (foldl (pin_modified tx) (p, []) modified) as [p1 frames]. destruct H1 as [Hp1 Hc1].
  destruct (same_content_lookup p p1 i s Hc1 Hs) as (s1 & Hs1 & E1). unfold content in E1.
  injection E1 as Ek Eid Ed Ev Edy.
  destruct (stamp_all_spec p1 tx ts modified Hts Hp1) as (Hp2 & Hst & Hdone).
  set (p2 := foldl _ p1 modified) in *.
  assert (newest_is p2 k i ts (fr_data (sl_frame s))) as Hnew.
  { rewrite <- Ed. apply (restamp_newest p1 p2 tx ts k i s1); try done; [congruence|congruence| |].
    - apply (Hdone k); [done|apply in_page; [done|]; exists s1; split; [done|congruence]|].
      unfold version_at. rewrite (slot_at_some p1 i s1 Hs1). congruence.
    - intros j t Ht Hkt Hu. destruct (same_content_back p p1 j t Hc1 Ht) as (t0 & Ht0 & E). unfold content in E.
      injection E as F1 F2 F3 F4 F5. rewrite <- F4. apply (Hb j t0); congruence. }
  assert (∀ t, slots p2 !! i = Some t → sl_dirty t = true) as Hdirty.
  { intros t Ht. destruct Hst as (_ & _ & Hst & _). destruct (Hst i s1 Hs1) as (v & Hq & _).
    rewrite Ht in Hq. injection Hq as ->. cbn. destruct (slot_ok_at None p1 i s1 Hp1 Hs1) as (_ & _ & _ & Hu).
    apply Hu. rewrite Ev, Hv. apply uncommitted_mark. }
  assert (fst k ∈ file_handles p2) as Hf2.
  { destruct Hst as (-> & _). destruct Hc1 as [-> _]. done. }
  pose proof (newest_is_flushed p2 d (list_to_set modified) k i ts _ Hp2 Hok ltac:(by apply elem_of_list_to_set) Hf2 Hts Hnew Hdirty) as Hfl.
  pose proof (flush_pages_ok p2 d (list_to_set modified) Hp2) as [Hp3 _].
  destruct (flush_pages_shard p2 d (list_to_set modified)) as [p3 d']. destruct Hfl as [Hpage Hnew3].
  destruct (unpin_all_content p3 frames Hp3) as [Hp4 Hc4].
  set (p4 := foldl unpin_frame p3 frames) in *.
  pose proof (superseded_all_ok p4 modified ts Hp4) as Hp5. set (p5 := foldl _ p4 modified) in *.
  assert (newest_is p5 k i ts (fr_data (sl_frame s))) as Hnew5.
  { eapply newest_is_thinned; [|eapply newest_is_content; [exact Hc4|exact Hnew3]].
    apply thinned_foldl. intros q a. apply superseded_thinned. }
  split; [done|]. intros u rts Hle Hno.
  pose proof (newest_is_lookup p5 k u rts i ts _ Hp5 Hnew5 Hts Hle Hno) as Hl. split.
  - unfold pin_page. unfold lookup_page in Hl. by rewrite Hl.
  - destruct Hnew5 as [(t & Ht & _ & _ & Hd) _]. by rewrite (slot_at_some p5 i t Ht).
Qed.

Lemma commit_publishes_witness :
  let st := run_ops (pool_new 2, ex_disk [7%Z]) [OPin ex_key 10 5; OCreate ex_key 11; OWrite 3 [8%Z]] in
  let '(p', d') := commit_pages (fst st) (snd st) [ex_key] 11 100 in
  disk_page d' ex_key = Some (fr_data (sl_frame (slot_at (fst st) 1))) ∧
  ∀ u rts, (100 ≤ rts)%Z → (∀ j, j ∈ slots_of p' ex_key → version_at p' j ≠ tx_mark u) →
    pin_page p' d' ex_key u rts = (pin_slot p' 1, d', Ok 1) ∧
    fr_data (sl_frame (slot_at p' 1)) = fr_data (sl_frame (slot_at (fst st) 1)).
Proof.
  intros st. apply (commit_publishes (fst st) (snd st) [ex_key] 11 100 ex_key 1 (slot_at (fst st) 1)).
  - apply run_ops_new_ok. ops_ok.
  - done.
  - done.
  - vm_compute. reflexivity.
  - left.
  - apply (bool_decide_unpack _). vm_compute. exact I.
  - vm_compute. reflexivity.
  - vm_compute. reflexivity.
  - vm_compute. reflexivity.
  - intros [|[|j]] t Ht _; vm_compute in Ht; [injection Ht as <-; vm_compute; done|injection Ht as <-; vm_compute; done|done].
Defined.

(** ** Eviction makes progress *)

(** An evictable slot, without and with its second chance used up. *)
Definition free_for_use (ready : bool) (p : BufferPool) (i : nat) : Prop :=
  ∃ s, slots p !! i = Some s ∧ evictable s = true ∧ (ready = true → sl_referenced s = false).

Lemma evictable_content s s' : content s' = content s → fr_pins (sl_frame s') = fr_pins (sl_frame s) →
  evictable s' = evictable s.
Proof. unfold content, evictable. intros E ->. injection E as _ _ _ -> ->. done. Qed.

Lemma unref_keeps b p i j : free_for_use b p i → free_for_use b (update_slot p j (with_referenced false)) i.
Proof.
  intros (s & Hs & He & Hr). cbn. destruct (decide (j = i)) as [->|Hne].
  - exists (with_referenced false s). cbn. rewrite list_lookup_alter_eq, Hs. done.
  - exists s. cbn. by rewrite list_lookup_alter_ne.
Qed.

Lemma unref_ready p i : free_for_use false p i → free_for_use true (update_slot p i (with_referenced false)) i.
Proof. intros (s & Hs & He & _). exists (with_referenced false s). cbn. rewrite list_lookup_alter_eq, Hs. done. Qed.

Lemma tick_mod c m cap : cap ≠ 0 → (c + S m) mod cap = ((c + 1) mod cap + m) mod cap.
Proof. intros H. rewrite Nat.Div0.add_mod_idemp_l. f_equal. lia. Qed.

(** One sweep over the slots [c, c+1, ..., c+n-1] around the clock either finds a
    victim or leaves every evictable slot it passed ready. *)
Lemma clock_sweep_finds n m b p d i :
  pool_ok p → dk_ok d = true → i < capacity p → i = (clock_ptr p + m) mod capacity p → m < n ∨ b = true →
  free_for_use b p i →
  match clock_sweep n p d with
  | (p', _, SwFound _) => True
  | (p', _, SwNone) => free_for_use true p' i ∧ (b = true → n ≤ m)
  | (_, _, SwError _) => False
  end.
Proof.
  revert m b p. induction n as [|n IH]; intros m b p Hp Hok Hi Him Hm Hfree; cbn [clock_sweep].
  { destruct Hm as [?|Hb]; [lia|]. subst b. split; [done|lia]. }
  assert (capacity p ≠ 0) as Hc by lia.
  assert (clock_ptr p < capacity p) as Hlt by (destruct (inv_clock _ p Hp); done).
  set (q := set_clock p ((clock_ptr p + 1) mod capacity p)).
  assert (pool_ok q) as Hq by (by apply tick_ok).
  destruct (slot_in_range None q (clock_ptr p) Hq Hlt) as (s & Hs & Es). rewrite Es.
  assert (∀ dd r, dk_ok dd = true → (∃ j, r = SwFound j) →
    match (q, dd, r) with (p', _, SwFound _) => True
    | (p', _, SwNone) => free_for_use true p' i ∧ (b = true → S n ≤ m) | (_, _, SwError _) => False end) as Hfound.
  { intros dd r _ [j ->]. done. }
  destruct m as [|m].
  - assert (i = clock_ptr p) as -> by (rewrite Him, Nat.add_0_r; by apply Nat.mod_small).
    destruct Hfree as (s0 & Hs0 & He & Hr). assert (s0 = s) as -> by (cbn in Hs; congruence).
    unfold evictable in He. apply andb_true_iff in He as [Hpin Hdu]. apply bool_decide_eq_true in Hpin.
    rewrite decide_True by done. destruct (sl_referenced s) eqn:Href.
    + destruct b; [by specialize (Hr eq_refl)|]. set (q' := update_slot q _ _).
      destruct (unref_ok None q _ s false Hq Hs) as [Hq' _].
      assert (free_for_use true q' (clock_ptr p)) as Hready.
      { apply unref_ready. exists s. unfold evictable. split; [done|]. split; [|done].
        rewrite bool_decide_eq_true_2 by done. done. }
      specialize (IH (capacity p - 1) true q' Hq' Hok Hlt).
      destruct (clock_sweep n q' d) as [[r d1] []]; [done| |apply IH; [|by right|done]].
      * split; [|done]. apply IH; [|by right|done]. cbn. rewrite <- tick_mod by done.
        replace (clock_ptr p + S (capacity p - 1)) with (clock_ptr p + 1 * capacity p) by lia.
        rewrite Nat.Div0.mod_add. symmetry. by apply Nat.mod_small.
      * cbn. rewrite <- tick_mod by done. replace (clock_ptr p + S (capacity p - 1)) with (clock_ptr p + 1 * capacity p) by lia.
        rewrite Nat.Div0.mod_add. symmetry. by apply Nat.mod_small.
    + destruct (sl_dirty s); [|done]. destruct (uncommitted _); [done|]. destruct (sl_key s) as [[fid pid]|]; [|done].
      destruct (decide _); [|done]. by destruct (write_page_ok d fid pid (fr_data (sl_frame s)) Hok) as (d1 & -> & _).
  - assert (∀ q', pool_ok q' → clock_ptr q' = clock_ptr q → capacity q' = capacity p → free_for_use b q' i →
      match clock_sweep n q' d with (p', _, SwFound _) => True
      | (p', _, SwNone) => free_for_use true p' i ∧ (b = true → S n ≤ S m) | (_, _, SwError _) => False end) as Hrec.
    { intros q' Hq' Ecl Ecap Hf. specialize (IH m b q' Hq' Hok ltac:(lia)).
      destruct (clock_sweep n q' d) as [[r d1] []]; [done| |].
      - destruct IH as [H1 H2]; [rewrite Ecl, Ecap, Him; by apply tick_mod|destruct Hm; [left; lia|by right]|done|].
        split; [done|]. intros Hb. specialize (H2 Hb). lia.
      - apply IH; [rewrite Ecl, Ecap, Him; by apply tick_mod|destruct Hm; [left; lia|by right]|done]. }
    destruct (decide (fr_pins (sl_frame s) = 0%Z)); [|by apply Hrec].
    destruct (sl_referenced s).
    { apply Hrec; [by apply (unref_ok None q _ s false)|done|done|by apply unref_keeps]. }
    destruct (sl_dirty s); [|done]. destruct (uncommitted _); [by apply Hrec|].
    destruct (sl_key s) as [[fid pid]|]; [|done]. destruct (decide _); [|done].
    by destruct (write_page_ok d fid pid (fr_data (sl_frame s)) Hok) as (d1 & -> & _).
Qed.

(** Every slot is passed in a full turn. *)
Lemma on_the_clock c i cap : i < cap → c < cap → ∃ m, m < cap ∧ i = (c + m) mod cap.
Proof.
  intros Hi Hc. destruct (decide (c ≤ i)) as [|].
  - exists (i - c). split; [lia|]. symmetry. rewrite Nat.mod_small; lia.
  - exists (cap + i - c). split; [lia|]. replace (c + (cap + i - c)) with (i + 1 * cap) by lia.
    rewrite Nat.Div0.mod_add. symmetry. by apply Nat.mod_small.
Qed.

Lemma full_sweep b p d i : pool_ok p → dk_ok d = true → free_for_use b p i →
  match clock_sweep (capacity p) p d with
  | (_, _, SwFound _) => True
  | (p', _, SwNone) => b = false ∧ free_for_use true p' i
  | (_, _, SwError _) => False
  end.
Proof.
  intros Hp Hok Hf. pose proof Hf as (s & Hs & _). pose proof (lookup_lt_Some _ _ _ Hs) as Hi. rewrite <- (inv_cap _ p Hp) in Hi.
  assert (clock_ptr p < capacity p) as Hlt by (destruct (inv_clock _ p Hp); lia).
  destruct (on_the_clock (clock_ptr p) i (capacity p) Hi Hlt) as (m & Hm & Him).
  pose proof (clock_sweep_finds (capacity p) m b p d i Hp Hok Hi Him (or_introl Hm) Hf) as H.
  destruct (clock_sweep (capacity p) p d) as [[p' d'] []]; [done| |done]. destruct H as [H1 H2]. split; [|done].
  destruct b; [|done]. specialize (H2 eq_refl). lia.
Qed.

Lemma evict_loop_ready fuel p d i : pool_ok p → dk_ok d = true → free_for_use true p i →
  ∃ p' d' j, evict_loop (S fuel) p d = (p', d', Some (Ok (Found j))).
Proof.
  intros Hp Hok Hf. cbn [evict_loop]. pose proof (full_sweep true p d i Hp Hok Hf) as H.
  destruct (clock_sweep (capacity p) p d) as [[p' d'] [j| |e]]; [by eauto| |done]. by destruct H.
Qed.

Lemma grown_ready p : pool_ok p → capacity p < max_capacity p → ∃ i, free_for_use true (grow_pool p) i.
Proof.
  intros Hp Hlt. assert (capacity p ≠ 0) as Hc by (intros E; pose proof (inv_zero None p Hp E); lia).
  exists (length (slots p)), (free_slot (next_frame p)). rewrite grow_fields by lia. split; [|done].
  rewrite lookup_app_r, Nat.sub_diag by lia. change (map ?g ?l) with (g <$> l). rewrite list_lookup_fmap.
  rewrite lookup_seq_lt by lia. cbn. by rewrite Nat.add_0_r.
Qed.

(** There is a slot to evict, or room to grow. *)
Definition has_room (p : BufferPool) : Prop := (∃ i, free_for_use false p i) ∨ capacity p < max_capacity p.

Lemma sweep_disk_ok n p d p' d' : clock_sweep n p d = (p', d', SwNone) → d' = d.
Proof.
  revert p. induction n as [|n IH]; intros p H; cbn [clock_sweep] in H; [by injection H|].
  repeat case_match; try done; simplify_eq; eauto.
Qed.

Lemma sweep_no_error n p d p' d' e : dk_ok d = true → clock_sweep n p d ≠ (p', d', SwError e).
Proof.
  intros Hok. revert p. induction n as [|n IH]; intros p H; cbn [clock_sweep] in H; [done|].
  repeat case_match; try done; simplify_eq; try (by eapply IH).
  match goal with H : write_page _ _ _ _ = (_, Err _) |- _ => unfold write_page in H; rewrite Hok in H; done end.
Qed.

Lemma evict_loop_outcome fuel p d p' d' r : dk_ok d = true → evict_loop fuel p d = (p', d', Some r) →
  (∃ i, r = Ok (Found i)) ∨ (r = Ok NeedRetry ∧ d' = d).
Proof.
  revert p. induction fuel as [|fuel IH]; intros p Hok H; cbn [evict_loop] in H; [done|].
  destruct (clock_sweep (capacity p) p d) as [[q d1] [j| |e1]] eqn:Hsw; [injection H as <- <- <-; eauto| |by destruct (sweep_no_error _ _ _ _ _ _ Hok Hsw)].
  apply sweep_disk_ok in Hsw as ->. destruct (decide _); [by eapply IH|]. injection H as <- <- <-. by right.
Qed.

Lemma evict_loop_progress fuel p d : pool_ok p → dk_ok d = true → has_room p →
  match evict_loop (S (S fuel)) p d with
  | (_, _, Some (Ok (Found _))) => True
  | (p', d', Some (Ok NeedRetry)) => d' = d ∧ ∃ i, free_for_use true p' i
  | _ => False
  end.
Proof.
  intros Hp Hok Hroom.
  assert (capacity p = 0 ∨ capacity p ≠ 0) as Hdec by lia.
  remember (S fuel) as f1 eqn:Ef. cbn [evict_loop].
  destruct (clock_sweep (capacity p) p d) as [[q d1] [j| |e]] eqn:Hsw; [done| |].
  - destruct (clock_sweep_ok _ _ _ _ _ _ Hp Hdec Hsw) as (Hq & Hext & Ecap & _). apply sweep_disk_ok in Hsw as Ed.
    assert (max_capacity q = max_capacity p) as Em by apply Hext.
    destruct (decide (capacity q < max_capacity q)) as [Hlt|Hge].
    + destruct (grown_ready q Hq Hlt) as [i Hi]. rewrite Ef, Ed.
      destruct (evict_loop_ready fuel (grow_pool q) d i (grow_ok q Hq) Hok Hi) as (? & ? & ? & ->). done.
    + split; [done|]. destruct Hroom as [[i Hi]|?]; [|lia]. pose proof (full_sweep false p d i Hp Hok Hi) as H.
      rewrite Hsw in H. exists i. apply H.
  - by destruct (sweep_no_error _ _ _ _ _ _ Hok Hsw).
Qed.

Lemma free_for_use_extends p q i : capacity q = capacity p → pool_ok p → pool_ok q → extends p q →
  free_for_use false q i → free_for_use false p i.
Proof.
  intros Ec Hp Hq (_ & _ & _ & _ & Hext) (s' & Hs' & He & _).
  apply lookup_lt_Some in Hs' as Hlt. rewrite <- (inv_cap _ q Hq), Ec, (inv_cap _ p Hp) in Hlt.
  destruct (lookup_lt_is_Some_2 _ _ Hlt) as [s Hs]. destruct (Hext i s Hs) as (t & Ht & Ect & Ep).
  exists s. split; [done|]. split; [|done]. rewrite <- (evictable_content s t Ect Ep). congruence.
Qed.

Lemma takeable_free p i : takeable p i → free_for_use false p i.
Proof.
  intros (s & Hs & Hp & Hu). exists s. split; [done|]. split; [|done]. unfold evictable. rewrite Hp, Hu.
  rewrite bool_decide_eq_true_2 by done. by rewrite andb_false_r.
Qed.

Lemma evict_with_clock_progress fuel p d (b : bool) : pool_ok p → dk_ok d = true →
  (if b then ∃ i, free_for_use true p i else has_room p) →
  match evict_with_clock (S (S fuel)) p d with
  | (_, _, Some (Ok (Found _))) => True
  | (p', d', Some (Ok NeedRetry)) => b = false ∧ d' = d ∧ ∃ i, free_for_use true p' i
  | _ => False
  end.
Proof.
  intros Hp Hok Hroom. unfold evict_with_clock. destruct (pop_candidate p) as [q o] eqn:Hpop.
  destruct (pop_candidate_ok p q o Hp Hpop) as (Hq & Hext & Ecap & Hi). destruct o as [i|]; [done|].
  assert (slots q = slots p ∧ max_capacity q = max_capacity p) as [Es Em].
  { unfold pop_candidate in Hpop. repeat case_match; by simplify_eq. }
  assert (∀ c i, free_for_use c p i → free_for_use c q i) as Hmono by (unfold free_for_use; rewrite Es; done).
  destruct b.
  - destruct Hroom as [i Hr]. by destruct (evict_loop_ready (S fuel) q d i Hq Hok (Hmono _ _ Hr)) as (? & ? & ? & ->).
  - assert (has_room q) as Hr.
    { destruct Hroom as [[i Hr]|?]; [left; eauto|right; lia]. }
    pose proof (evict_loop_progress fuel q d Hq Hok Hr) as H.
    destruct (evict_loop _ q d) as [[r d1] [[[j|]|e|]|]]; done.
Qed.

Lemma evict_retry_outcome n p d p' d' r : pool_ok p → dk_ok d = true → evict_retry n p d = (p', d', r) →
  (∃ i, r = Ok i) ∨ r = Err Internal.
Proof.
  revert p d. induction n as [|n IH]; intros p d Hp Hok H; cbn [evict_retry] in H; [injection H as <- <- <-; by right|].
  destruct (evict_with_clock _ p d) as [[q d1] o] eqn:Hev.
  assert (max_capacity p - capacity p < S (max_capacity p)) as Hfuel by lia.
  destruct (evict_with_clock_ok _ _ _ _ _ _ Hp Hfuel Hev) as (Hq & _ & Hn & _).
  destruct o as [o|]; [|done].
  assert ((∃ i, o = Ok (Found i)) ∨ (o = Ok NeedRetry ∧ d1 = d)) as [[i ->]|[-> ->]].
  { unfold evict_with_clock in Hev. destruct (pop_candidate p) as [q' [i|]]; [injection Hev as <- <- <-; eauto|].
    by apply (evict_loop_outcome (S (max_capacity p)) q' d q). }
  - injection H as <- <- <-. eauto.
  - by apply (IH q d).
Qed.

(** C26. Eviction ends with the right answer: within its ten attempts the clock
    finds a slot to reuse exactly when some frame is unpinned and not a
    transaction's private copy, or the pool may still grow; otherwise the caller
    gets the exhaustion error.  The slot it hands out is unpinned and holds no
    uncommitted data. *)
Theorem eviction_finds_slot p d :
  pool_ok p → dk_ok d = true →
  ∃ p' d' r, evict_retry MAX_EVICT_RETRIES p d = (p', d', r) ∧
    (has_room p → ∃ i, r = Ok i ∧ takeable p' i) ∧ (¬ has_room p → r = Err Internal).
Proof.
  intros Hp Hok. destruct (evict_retry MAX_EVICT_RETRIES p d) as [[p' d'] r] eqn:He. exists p', d', r. split; [done|].
  destruct (evict_retry_ok _ _ _ _ _ _ Hp He) as (Hp' & Hext & Ht). split.
  - intros Hroom. assert (∃ i, r = Ok i) as [i ->]; [|by eauto]. unfold MAX_EVICT_RETRIES in He.
    cbn [evict_retry] in He. destruct (max_capacity p) as [|m] eqn:Em.
    { exfalso. pose proof (inv_max None p Hp). pose proof (inv_cap None p Hp).
      destruct Hroom as [(i & s & Hs & _)|?]; [apply lookup_lt_Some in Hs; lia|lia]. }
    pose proof (evict_with_clock_progress m p d false Hp Hok Hroom) as H1.
    destruct (evict_with_clock (S (S m)) p d) as [[q d1] [[[i|]|e|]|]] eqn:Hev; [by injection He as <- <- <-; eauto| |done..].
    destruct H1 as (_ & -> & Hready).
    assert (max_capacity p - capacity p < S (S m)) as Hfuel by lia.
    destruct (evict_with_clock_ok _ _ _ _ _ _ Hp Hfuel Hev) as (Hq & (_ & _ & _ & Emq & _) & _).
    rewrite Emq, Em in He. pose proof (evict_with_clock_progress m q d true Hq Hok Hready) as H2.
    destruct (evict_with_clock (S (S m)) q d) as [[q2 d2] [[[i|]|e|]|]]; [by injection He as <- <- <-; eauto|by destruct H2|done..].
  - intros Hno. destruct (evict_retry_outcome _ _ _ _ _ _ Hp Hok He) as [[i ->]|]; [|done]. destruct Hno.
    pose proof (takeable_free p' i (Ht i eq_refl)) as Hf. destruct (decide (capacity p < max_capacity p)) as [|Hge]; [by right|left].
    exists i. apply (free_for_use_extends p p' i); try done.
    pose proof (inv_max None p Hp). pose proof (inv_max None p' Hp') as Hm'.
    pose proof Hext as (_ & _ & _ & Em & Hsl). pose proof (inv_cap None p' Hp'). pose proof (inv_cap None p Hp).
    assert (length (slots p) ≤ length (slots p')); [|lia].
    destruct (decide (length (slots p) = 0)) as [|Hne]; [lia|].
    destruct (lookup_lt_is_Some_2 (slots p) (length (slots p) - 1) ltac:(lia)) as [s Hs].
    destruct (Hsl _ _ Hs) as (s' & Hs' & _). apply lookup_lt_Some in Hs'. lia.
Qed.

Lemma eviction_finds_slot_witness :
  let st := run_ops (pool_new 2, ex_disk [7%Z]) [OPin ex_key 10 5; OCreate ex_key 11; OUnpin 2] in
  ∃ p' d' r, evict_retry MAX_EVICT_RETRIES (fst st) (snd st) = (p', d', r) ∧
    (has_room (fst st) → ∃ i, r = Ok i ∧ takeable p' i) ∧ (¬ has_room (fst st) → r = Err Internal).
Proof.
  intros st. apply (eviction_finds_slot (fst st) (snd st)).
  - apply run_ops_new_ok. ops_ok.
  - vm_compute. reflexivity.
Defined.

(** ** Where the versions go wrong *)

(** Committed data disappears from view: a frame that is pinned while a newer
    version commits is not dropped, the newer frame may be evicted once it is
    written, and from then on every reader gets the old frame and every writer
    copies it, although the file holds the committed page. *)
Theorem superseded_version_resurfaces old new :
  let '(p1, d1) := run_ops (pool_new 2, ex_disk old) [OPin ex_key 10 5; OCreate ex_key 11; OWrite 3 new] in
  let '(p2, d2) := commit_pages p1 d1 [ex_key] 11 100 in
  let '(p3, d3) := run_ops (p2, d2) [OUnpin 3; OPin (1, 1)%Z 12 150; OUnpin 2] in
  disk_page d3 ex_key = Some new ∧
  (∃ p4 d4 i, pin_page p3 d3 ex_key 13 200 = (p4, d4, Ok i) ∧ fr_data (sl_frame (slot_at p4 i)) = old) ∧
  (∃ p4 d4 i, create_new_version p3 d3 ex_key 13 = (p4, d4, Ok i) ∧ fr_data (sl_frame (slot_at p4 i)) = old).
Proof.
  vm_compute. split; [reflexivity|]. split; do 3 eexists; split; reflexivity.
Qed.

Lemma unmark tx : id_ok tx → Z.land (tx_mark tx) (u64_not UNCOMMITTED_BIT) = tx.
Proof.
  intros Htx. apply Z.bits_inj'. intros n Hn. unfold tx_mark, u64_not, UNCOMMITTED_BIT.
  rewrite Z.land_spec, Z.lor_spec, Z.lxor_spec. change (Z.shiftl 1 63) with (2 ^ 63)%Z.
  destruct (decide (n = 63)%Z) as [->|Hne].
  - rewrite (testbit_wrap_high tx 63) by (unfold id_ok in *; lia). reflexivity.
  - rewrite Z.pow2_bits_false by lia. rewrite orb_false_r, testbit_pow_pred by lia.
    destruct (decide (n < 63)%Z); [rewrite (proj2 (Z.ltb_lt n 64)) by lia; by rewrite andb_true_r|].
    rewrite (testbit_wrap_high tx 63) by (unfold id_ok in *; lia). done.
Qed.

Lemma foldl_max_ge (f : nat → Z) l b :
  let m := foldl (λ best i, let candidate := f i in if decide (best < candidate)%Z then candidate else best) b l in
  (b ≤ m)%Z ∧ ∀ j, j ∈ l → (f j ≤ m)%Z.
Proof.
  revert b. induction l as [|i l IH]; intros b; cbn [foldl]; cbn zeta in *.
  { split; [lia|]. intros j Hj. by apply not_elem_of_nil in Hj. }
  destruct (decide (b < f i)%Z) as [Hlt|Hge].
  - destruct (IH (f i)) as [H1 H2]. split; [lia|]. intros j Hj. apply elem_of_cons in Hj as [->|Hj]; [lia|auto].
  - destruct (IH b) as [H1 H2]. split; [lia|]. intros j Hj. apply elem_of_cons in Hj as [->|Hj]; [lia|auto].
Qed.

Lemma logged_tx_max p k i : i ∈ slots_of p k →
  (Z.land (version_at p i) (u64_not UNCOMMITTED_BIT) ≤ logged_tx p k)%Z.
Proof. intros Hi. by apply (foldl_max_ge (λ i, Z.land (version_at p i) (u64_not UNCOMMITTED_BIT)) (slots_of p k) 0). Qed.

(** [log_page_update] can charge a page to the wrong transaction: while a
    transaction with a larger id has a private copy of the page, whatever a
    smaller one writes to the log goes on that transaction's account, so its
    commit does not make the update replayable. *)
Theorem log_page_update_misattributes p k tx u i :
  i ∈ slots_of p k → version_at p i = tx_mark u → id_ok u → (tx < u)%Z → logged_tx p k ≠ tx.
Proof. intros Hi Hv Hu Hlt. pose proof (logged_tx_max p k i Hi) as H. rewrite Hv, unmark in H by done. lia. Qed.

Lemma log_page_update_misattributes_witness :
  logged_tx (fst (run_ops (pool_new 2, ex_disk [7%Z]) [OCreate ex_key 11; OCreate ex_key 12])) ex_key ≠ 11%Z.
Proof.
  apply (log_page_update_misattributes _ _ 11 12 1).
  - apply (bool_decide_unpack _). vm_compute. exact I.
  - vm_compute. reflexivity.
  - done.
  - lia.
Defined.
