(* ===== verification/FileHandle.v ===== *)
(** * Page files (storage/file_handle.rs)

    A file of 4096-byte pages with a page count, a state word per page and the
    free-page queue of the free-space manager.  The manager is shared by all
    handles, but a handle only touches the queue of its own file id, so it is
    kept in the handle.  File calls succeed; page numbers are small enough that
    [page_idx * PAGE_SIZE] does not overflow. *)
From stdpp Require Import base list gmap fin_sets numbers.
From Stdlib Require Import ZArith Lia Bool.
From S2P Require Import Prelude PageState Persist.
Open Scope nat_scope.

Record FileHandle := mkHandle {
  file_id : Z;
  contents : list Z;
  num_pages : Z;
  page_states : list Z;
  free_space_manager : option FreeSpaceManager;
}.

(** ** Operations *)

Definition FNV_OFFSET : Z := 14695981039346656037.
Definition FNV_PRIME : Z := 1099511628211.
Definition fnv1a_hash64 (data : list Z) : Z :=
  foldl (λ hash byte, u64_wrap (Z.lxor hash byte * FNV_PRIME)%Z) FNV_OFFSET data.

(** [File::set_len] *)
Definition set_len (c : list Z) (n : nat) : list Z := take n c ++ replicate (n - length c) 0%Z.

Definition open (path_bytes c : list Z) : FileHandle :=
  let size := length c in
  let c := if decide (size mod PAGE_SIZE = 0) then c else set_len c ((size / PAGE_SIZE + 1) * PAGE_SIZE) in
  let n := (size + PAGE_SIZE - 1) / PAGE_SIZE in
  mkHandle (fnv1a_hash64 path_bytes) c (Z.of_nat n) (replicate n page_state_new) None.

Definition page_offset (page_idx : Z) : nat := Z.to_nat page_idx * PAGE_SIZE.

(** [read_at] returns what is there; the rest of the buffer is zeroed. *)
Definition read_pages (h : FileHandle) (start_page n : Z) : list Z :=
  let expected := Z.to_nat n * PAGE_SIZE in
  let got := take expected (drop (page_offset start_page) (contents h)) in
  got ++ replicate (expected - length got) 0%Z.
Definition read_page (h : FileHandle) (page_idx : Z) : list Z := read_pages h page_idx 1.

(** [write_all_at]: past the end the gap is zero-filled. *)
Definition write_bytes_at (h : FileHandle) (offset : nat) (b : list Z) : FileHandle :=
  let c := contents h in
  mkHandle (file_id h) (take offset c ++ replicate (offset - length c) 0%Z ++ b ++ drop (offset + length b) c)
           (num_pages h) (page_states h) (free_space_manager h).
Definition write_page (h : FileHandle) (page_idx : Z) (b : list Z) : FileHandle := write_bytes_at h (page_offset page_idx) b.

Definition set_free_space_manager (h : FileHandle) (m : FreeSpaceManager) : FileHandle :=
  mkHandle (file_id h) (contents h) (num_pages h) (page_states h) (Some m).

Definition reset_page_state (h : FileHandle) (page_idx : Z) : FileHandle :=
  mkHandle (file_id h) (contents h) (num_pages h) (<[Z.to_nat page_idx := page_state_new]> (page_states h))
           (free_space_manager h).

Definition grow (h : FileHandle) : FileHandle * Z :=
  (mkHandle (file_id h) (contents h) (num_pages h + 1)%Z (page_states h ++ [page_state_new]) (free_space_manager h),
   num_pages h).
Definition add_new_page (h : FileHandle) : FileHandle * Z :=
  match free_space_manager h with
  | Some m =>
      match get_free_page m (file_id h) with
      | (m, Some freed_page) => (reset_page_state (set_free_space_manager h m) freed_page, freed_page)
      | (_, None) => grow h
      end
  | None => grow h
  end.

Definition get_num_pages (h : FileHandle) : Z := num_pages h.
Definition get_file_size (h : FileHandle) : Z := (num_pages h * Z.of_nat PAGE_SIZE)%Z.
Definition get_page_state (h : FileHandle) (page_idx : Z) : option Z := page_states h !! Z.to_nat page_idx.

Definition truncate (h : FileHandle) : FileHandle := mkHandle (file_id h) [] 0 [] (free_space_manager h).

Definition free_page (h : FileHandle) (page_idx : Z) : FileHandle :=
  match free_space_manager h with
  | Some m => set_free_space_manager h (record_free_page m (file_id h) page_idx)
  | None => h
  end.

Definition truncate_last_pages (h : FileHandle) (keep_count : Z) : FileHandle :=
  if decide (num_pages h ≤ keep_count)%Z then h
  else
    let h := foldl free_page h (seqZ keep_count (num_pages h - keep_count)) in
    mkHandle (file_id h) (set_len (contents h) (page_offset keep_count)) keep_count
             (take (Z.to_nat keep_count) (page_states h)) (free_space_manager h).

(** The growth loop of the columns, [while num_pages <= page { add_new_page }];
    [None]: the fuel ran out. *)
Fixpoint grow_past (fuel : nat) (h : FileHandle) (page_idx : Z) : option FileHandle :=
  match fuel with
  | O => None
  | S fuel => if decide (num_pages h ≤ page_idx)%Z then grow_past fuel (fst (add_new_page h)) page_idx else Some h
  end.

(** ** Contents *)

Lemma read_pages_length h p n : length (read_pages h p n) = Z.to_nat n * PAGE_SIZE.
Proof. unfold read_pages. rewrite length_app, length_replicate, length_take. lia. Qed.

Lemma byte_at_read h p i : i < PAGE_SIZE → byte_at (read_page h p) i = byte_at (contents h) (page_offset p + i).
Proof.
  intros Hi. unfold read_page, read_pages, byte_at. cbn zeta. change (Z.to_nat 1) with 1. rewrite Nat.mul_1_l.
  set (got := take PAGE_SIZE (drop (page_offset p) (contents h))).
  assert (length got = PAGE_SIZE `min` (length (contents h) - page_offset p)) as Hlen.
  { unfold got. rewrite length_take, length_drop. done. }
  destruct (decide (i < length got)) as [Hlt|Hge].
  - rewrite lookup_app_l by lia. unfold got. rewrite lookup_take_lt by lia. by rewrite lookup_drop.
  - rewrite lookup_app_r by lia. rewrite lookup_replicate_2 by lia.
    rewrite (lookup_ge_None_2 (contents h)) by lia. done.
Qed.

Lemma byte_at_write h off b i :
  byte_at (contents (write_bytes_at h off b)) i =
    if decide (off ≤ i < off + length b) then byte_at b (i - off) else byte_at (contents h) i.
Proof.
  unfold write_bytes_at, byte_at. cbn [contents]. set (c := contents h).
  assert (length (take off c ++ replicate (off - length c) 0%Z) = off) as Hl.
  { rewrite length_app, length_take, length_replicate. lia. }
  rewrite app_assoc. destruct (decide (off ≤ i < off + length b)).
  - rewrite lookup_app_r by lia. rewrite Hl, lookup_app_l by lia. done.
  - destruct (decide (i < off)).
    + rewrite lookup_app_l by lia. destruct (decide (i < length c)).
      * rewrite lookup_app_l by (rewrite length_take; lia). by rewrite lookup_take_lt.
      * rewrite lookup_app_r by (rewrite length_take; lia). rewrite lookup_replicate_2 by (rewrite length_take; lia).
        by rewrite (lookup_ge_None_2 c) by lia.
    + rewrite lookup_app_r by lia. rewrite Hl, lookup_app_r by lia. rewrite lookup_drop. do 2 f_equal. lia.
Qed.

Lemma page_bytes_eq (l k : list Z) : length l = PAGE_SIZE → length k = PAGE_SIZE →
  (∀ i, i < PAGE_SIZE → byte_at l i = byte_at k i) → l = k.
Proof.
  intros Hl Hk H. apply (list_eq_same_length _ _ PAGE_SIZE); [done|done|]. intros i x y Hi Hx Hy. specialize (H i Hi).
  unfold byte_at in H. by rewrite Hx, Hy in H.
Qed.

Lemma read_page_length h p : length (read_page h p) = PAGE_SIZE.
Proof. unfold read_page. rewrite read_pages_length. lia. Qed.

(** A page written is read back, the other pages keep their bytes, and a page
    the file does not reach is zeros. *)
Theorem read_page_write_page (h : FileHandle) (p q : Z) (b : list Z) :
  (0 ≤ p)%Z → (0 ≤ q)%Z → length b = PAGE_SIZE →
  read_page (write_page h p b) q = if decide (p = q) then b else read_page h q.
Proof.
  intros Hp Hq Hb. pose proof PAGE_SIZE_val.
  assert (∀ i, i < PAGE_SIZE → byte_at (read_page (write_page h p b) q) i =
                 if decide (p = q) then byte_at b i else byte_at (read_page h q) i) as H0.
  { intros i Hi. rewrite byte_at_read by done. unfold write_page. rewrite byte_at_write. unfold page_offset.
    destruct (decide (p = q)) as [<-|].
    - rewrite decide_True by lia. f_equal. lia.
    - rewrite decide_False; [by rewrite byte_at_read|]. nia. }
  apply page_bytes_eq; [apply read_page_length| |].
  - destruct (decide (p = q)); [done|apply read_page_length].
  - intros i Hi. rewrite H0 by done. by destruct (decide (p = q)).
Qed.

(** ** Allocation *)

Definition free_queue (h : FileHandle) : list Z :=
  match free_space_manager h with Some m => queue m (file_id h) | None => [] end.

Lemma add_new_page_freed h p q : free_queue h = p :: q →
  snd (add_new_page h) = p ∧ free_queue (fst (add_new_page h)) = q ∧ num_pages (fst (add_new_page h)) = num_pages h.
Proof.
  unfold free_queue, add_new_page. destruct (free_space_manager h) as [m|]; [|done]. unfold queue, get_free_page.
  destruct (free_pages m !! file_id h) as [[|p' q']|] eqn:E; cbn; [done| |done]. intros [= -> ->].
  by rewrite lookup_insert_eq.
Qed.

Lemma add_new_page_grows h : free_queue h = [] →
  snd (add_new_page h) = num_pages h ∧ free_queue (fst (add_new_page h)) = [] ∧
  num_pages (fst (add_new_page h)) = (num_pages h + 1)%Z.
Proof.
  unfold free_queue, add_new_page. destruct (free_space_manager h) as [m|] eqn:Em; [|cbn; by rewrite Em].
  unfold queue, get_free_page. destruct (free_pages m !! file_id h) as [[|p q]|] eqn:E; cbn; [|done|]; intros _; rewrite Em, E; done.
Qed.

Lemma free_page_spec h p :
  num_pages (free_page h p) = num_pages h ∧ file_id (free_page h p) = file_id h ∧
  free_queue (free_page h p) = (if free_space_manager h then free_queue h ++ [p] else []) ∧
  (is_Some (free_space_manager (free_page h p)) ↔ is_Some (free_space_manager h)).
Proof.
  unfold free_page, free_queue. destruct (free_space_manager h) as [m|] eqn:Em; cbn.
  - rewrite queue_record, decide_True by done. split_and!; [done..|]. split; intros _; by eexists.
  - rewrite Em. done.
Qed.

(** Freed pages and pages in use are different pages of the file. *)
Record alloc_inv (h : FileHandle) (used : gset Z) : Prop := {
  ai_used : ∀ p, p ∈ used → (0 ≤ p < num_pages h)%Z;
  ai_free : ∀ p, p ∈ free_queue h → (0 ≤ p < num_pages h)%Z ∧ p ∉ used;
  ai_nodup : NoDup (free_queue h);
  ai_num : (0 ≤ num_pages h)%Z;
}.

(** A history of allocations and releases in which only pages in use are
    released; every page handed out is one that is not in use. *)
Inductive alloc_op := Alloc | Release (p : Z).
Fixpoint allocs_fresh (ops : list alloc_op) (h : FileHandle) (used : gset Z) : Prop :=
  match ops with
  | [] => True
  | Alloc :: ops =>
      let p := snd (add_new_page h) in p ∉ used ∧ allocs_fresh ops (fst (add_new_page h)) ({[p]} ∪ used)
  | Release p :: ops => p ∈ used → allocs_fresh ops (free_page h p) (used ∖ {[p]})
  end.

Lemma alloc_step h used : alloc_inv h used →
  snd (add_new_page h) ∉ used ∧ alloc_inv (fst (add_new_page h)) ({[snd (add_new_page h)]} ∪ used).
Proof.
  intros [Hu Hf Hd Hn]. destruct (free_queue h) as [|p q] eqn:E.
  - destruct (add_new_page_grows h E) as (-> & Hq & Hnum). split.
    + intros Hin. specialize (Hu _ Hin). lia.
    + constructor; rewrite ?Hq, ?Hnum; [|set_solver|by constructor|lia].
      intros r [->%elem_of_singleton|Hr]%elem_of_union; [lia|]. specialize (Hu _ Hr). lia.
  - destruct (add_new_page_freed h p q E) as (-> & Hq & Hnum). apply list.NoDup_cons in Hd as [Hd1 Hd2].
    destruct (Hf p) as [Hp1 Hp2]; [by left|]. split; [done|].
    constructor; rewrite ?Hq, ?Hnum; [|..|done|done].
    + intros r [->%elem_of_singleton|Hr]%elem_of_union; [done|by apply Hu].
    + intros r Hr. destruct (Hf r) as [Hr1 Hr2]; [by right|]. split; [done|].
      intros [->%elem_of_singleton|Hr']%elem_of_union; [by apply Hd1|done].
Qed.

Lemma release_step h used p : alloc_inv h used → p ∈ used → alloc_inv (free_page h p) (used ∖ {[p]}).
Proof.
  intros [Hu Hf Hd Hn] Hp. destruct (free_page_spec h p) as (Hnum & _ & Hq & _).
  constructor; rewrite ?Hnum, ?Hq; [|..|done].
  - intros r Hr. apply Hu. set_solver.
  - destruct (free_space_manager h); [|set_solver]. intros r [Hr|Hr]%elem_of_app.
    + destruct (Hf r Hr). set_solver.
    + apply list_elem_of_singleton in Hr as ->. split; [by apply Hu|set_solver].
  - destruct (free_space_manager h); [|by constructor]. apply list.NoDup_app. split; [done|]. split; [|apply NoDup_singleton].
    intros r Hr Hr2. apply list_elem_of_singleton in Hr2 as ->. by destruct (Hf p Hr).
Qed.

Lemma allocs_fresh_inv ops h used : alloc_inv h used → allocs_fresh ops h used.
Proof.
  revert h used. induction ops as [|[|p] ops IH]; intros h used Hi; cbn; [done| |].
  - destruct (alloc_step h used Hi). split; [done|]. by apply IH.
  - intros Hp. apply IH. by apply release_step.
Qed.

(** A page is never handed out twice: in a file opened with any contents,
    all its pages in use and no page free, every [add_new_page] of any history
    of allocations and releases returns a page that is not in use. *)
Theorem pages_allocated_once (path_bytes c : list Z) (m : FreeSpaceManager) (ops : list alloc_op) :
  queue m (fnv1a_hash64 path_bytes) = [] →
  let h := set_free_space_manager (open path_bytes c) m in
  allocs_fresh ops h (list_to_set (seqZ 0 (num_pages h))).
Proof.
  intros Hm h. apply allocs_fresh_inv. subst h. constructor; cbn.
  - intros p Hp. apply elem_of_list_to_set, elem_of_seqZ in Hp. lia.
  - unfold free_queue. cbn. rewrite Hm. intros p Hp. by apply elem_of_nil in Hp.
  - unfold free_queue. cbn. rewrite Hm. constructor.
  - lia.
Qed.

Lemma pages_allocated_once_witness :
  let h := set_free_space_manager (open [47; 116]%Z []) fsm_new in
  allocs_fresh [Alloc; Alloc; Release 0; Alloc; Alloc]%Z h ∅ ∧
  queue fsm_new (fnv1a_hash64 [47; 116]%Z) = [].
Proof.
  cbn zeta. split; [|by_compute].
  apply (pages_allocated_once [47; 116]%Z [] fsm_new [Alloc; Alloc; Release 0; Alloc; Alloc]%Z). by_compute.
Defined.

(** ** Truncation and growth *)

Fixpoint alloc_n (n : nat) (h : FileHandle) : FileHandle * list Z :=
  match n with
  | O => (h, [])
  | S n => let '(h, p) := add_new_page h in let '(h, ps) := alloc_n n h in (h, p :: ps)
  end.

Lemma alloc_n_queue l h : free_queue h = l →
  snd (alloc_n (length l + 1) h) = l ++ [num_pages h].
Proof.
  revert h. induction l as [|p l IH]; intros h Hq.
  - destruct (add_new_page_grows h Hq) as (H1 & _). cbn. by destruct (add_new_page h); cbn in *; subst.
  - destruct (add_new_page_freed h p l Hq) as (H1 & H2 & H3). cbn. specialize (IH _ H2).
    destruct (add_new_page h) as [h1 p1]. cbn in *. subst p1. rewrite H3 in IH.
    destruct (alloc_n (length l + 1) h1). cbn in *. by rewrite IH.
Qed.

Lemma free_pages_queue l h : is_Some (free_space_manager h) →
  free_queue (foldl free_page h l) = free_queue h ++ l.
Proof.
  revert h. induction l as [|p l IH]; intros h Hm; cbn; [by rewrite app_nil_r|].
  destruct (free_page_spec h p) as (_ & _ & Hq & Hs). rewrite IH by (by apply Hs). rewrite Hq.
  destruct Hm as [m ->]. by rewrite <- app_assoc.
Qed.

(** After the last pages of a file were cut off, they are handed out from the
    free queue while the page count stays at the cut; the next new page is the
    page at the cut again. *)
Theorem truncated_page_handed_out_twice (h : FileHandle) (k : Z) :
  is_Some (free_space_manager h) → free_queue h = [] → (0 ≤ k < num_pages h)%Z →
  snd (alloc_n (Z.to_nat (num_pages h - k) + 1) (truncate_last_pages h k)) = seqZ k (num_pages h - k) ++ [k].
Proof.
  intros Hm Hq Hk. unfold truncate_last_pages. rewrite decide_False by lia.
  set (l := seqZ k (num_pages h - k)). rewrite <- (length_seqZ k (num_pages h - k)). fold l.
  rewrite (alloc_n_queue l); [done|]. unfold free_queue. cbn. change (free_queue (foldl free_page h l) = l).
  by rewrite free_pages_queue, Hq.
Qed.

(** The growth loop of the columns ends: with as much fuel as there are
    free pages and missing pages it returns a file that has the page; if the
    file had to grow it is exactly large enough, and every page of the free
    queue has been taken out and dropped. *)
Theorem grow_past_returns (h : FileHandle) (page_idx : Z) (fuel : nat) :
  length (free_queue h) + Z.to_nat (page_idx + 1 - num_pages h) < fuel →
  ∃ h', grow_past fuel h page_idx = Some h' ∧
    ((page_idx < num_pages h)%Z ∧ h' = h ∨ (num_pages h ≤ page_idx)%Z ∧ num_pages h' = (page_idx + 1)%Z ∧ free_queue h' = []).
Proof.
  revert h. induction fuel as [|fuel IH]; intros h Hf; [lia|]. cbn [grow_past].
  destruct (decide (num_pages h ≤ page_idx)%Z) as [Hle|Hgt]; [|exists h; split; [done|left; split; [lia|done]]].
  destruct (free_queue h) as [|p q] eqn:E.
  - destruct (add_new_page_grows h E) as (_ & Hq & Hn). cbn in Hf. destruct (IH (fst (add_new_page h))) as (h' & -> & Hr).
    { rewrite Hq, Hn. cbn. lia. }
    exists h'. split; [done|]. right. rewrite Hn in Hr. destruct Hr as [[Hr1 ->]|(Hr1 & Hr2 & Hr3)]; [|done].
    rewrite Hn, Hq. split; [done|]. split; [lia|done].
  - destruct (add_new_page_freed h p q E) as (_ & Hq & Hn). cbn in Hf. destruct (IH (fst (add_new_page h))) as (h' & -> & Hr).
    { rewrite Hq, Hn. lia. }
    exists h'. split; [done|]. right. rewrite Hn in Hr. destruct Hr as [[Hr1 ->]|Hr]; [lia|done].
Qed.

Lemma grow_past_returns_witness :
  let h := fst (alloc_n 2 (open [] [])) in ∃ h', grow_past 3 h 2 = Some h' ∧ num_pages h' = 3%Z.
Proof.
  cbn zeta. destruct (grow_past_returns (fst (alloc_n 2 (open [] []))) 2 3) as (h' & H1 & H2); [vm_compute; lia|].
  exists h'. split; [done|]. destruct H2 as [[H2 _]|(_ & H2 & _)]; [vm_compute in H2; done|done].
Defined.
