(* ===== verification/PageFile.v ===== *)
(** * Pages of a file as one transaction sees them

    Through the buffer manager an index file is a numbered set of pages:
    [pin_page] reads one, zeros when it was never written, [create_new_version]
    followed by writes to the frame replaces one, and [add_new_page] of
    storage/file_handle.rs hands out the next page number.  That it hands out a
    freed page first, if there is one, does not arise for these files: the hash
    index and the overflow file never free a page ([FileHandle] has the queue of
    freed pages).  Failures of the buffer manager are left out. *)
From stdpp Require Import base list gmap numbers.
From Stdlib Require Import ZArith Lia Bool.
From S2P Require Import Prelude.

Record pages := mkPages { pg_data : gmap Z (list Z); pg_num : Z }.

Definition page_at (f : pages) (i : Z) : list Z := default zero_page (pg_data f !! i).
Definition put_page (f : pages) (i : Z) (p : list Z) : pages := mkPages (<[i := p]> (pg_data f)) (pg_num f).
Definition add_new_page (f : pages) : pages * Z := (mkPages (pg_data f) (pg_num f + 1)%Z, pg_num f).

(** [u64::from_le_bytes(page[off..off + 8])] with its bounds check. *)
Definition get_u64 (data : list Z) (off : nat) : outcome Z :=
  if decide (off + 8 ≤ length data) then Ok (of_le (slice data off (off + 8))) else Err Internal.
(** A raw copy into the frame; past its end it is undefined behaviour. *)
Definition set_u64 (data : list Z) (off : nat) (v : Z) : outcome (list Z) := write_at data off (to_le 8 v).

(** Every stored page is a full page of bytes. *)
Definition pages_ok (f : pages) : Prop :=
  ∀ i p, pg_data f !! i = Some p → length p = PAGE_SIZE ∧ bytes_ok p.

Lemma page_at_put f i p : page_at (put_page f i p) i = p.
Proof. unfold page_at, put_page. cbn. by rewrite lookup_insert_eq. Qed.

Lemma page_at_put_ne f i j p : i ≠ j → page_at (put_page f i p) j = page_at f j.
Proof. intros. unfold page_at, put_page. cbn. by rewrite lookup_insert_ne. Qed.

Lemma page_at_add f i : page_at (fst (add_new_page f)) i = page_at f i.
Proof. done. Qed.

Lemma page_at_ok f i : pages_ok f → length (page_at f i) = PAGE_SIZE ∧ bytes_ok (page_at f i).
Proof.
  intros Hf. unfold page_at. destruct (pg_data f !! i) as [p|] eqn:E; [by apply (Hf i)|]. cbn. unfold zero_page. split.
  - apply length_replicate.
  - by apply bytes_ok_replicate.
Qed.

Lemma pages_ok_put f i p : pages_ok f → length p = PAGE_SIZE → bytes_ok p → pages_ok (put_page f i p).
Proof.
  intros Hf Hl Hb j q Hq. cbn in Hq. destruct (decide (i = j)) as [<-|].
  - rewrite lookup_insert_eq in Hq. by injection Hq as <-.
  - rewrite lookup_insert_ne in Hq by done. by apply (Hf j).
Qed.

Lemma pages_ok_add f : pages_ok f → pages_ok (fst (add_new_page f)).
Proof. done. Qed.

Lemma get_u64_ok data off : off + 8 ≤ length data → get_u64 data off = Ok (of_le (slice data off (off + 8))).
Proof. intros. unfold get_u64. by rewrite decide_True. Qed.

Lemma set_u64_ok data off v : off + 8 ≤ length data → set_u64 data off v = Ok (splice data off (to_le 8 v)).
Proof. intros. apply write_at_ok. by rewrite length_to_le. Qed.
