(* ===== verification/Overflow.v ===== *)
(** * Overflow file (storage/overflow_file.rs)

    Long strings live in chains of pages: 4092 bytes of text and the number of
    the next page.  Pages come from [add_new_page]; reuse of freed pages is not
    modelled, but a page may hold anything when it is written. *)
From Stdlib Require Import ZArith Lia Bool.
From stdpp Require Import base list gmap numbers.
From S2P Require Import Prelude PageFile.

(** ** UTF-8 (the standard library's [std::str::from_utf8]) *)

Definition in_range (lo hi b : Z) : bool := bool_decide (lo ≤ b ≤ hi)%Z.
Definition cont (b : Z) : bool := in_range 0x80 0xBF b.

Fixpoint utf8_valid (l : list Z) : bool :=
  match l with
  | [] => true
  | b0 :: l1 =>
      if in_range 0 0x7F b0 then utf8_valid l1
      else match l1 with
      | [] => false
      | b1 :: l2 =>
          if in_range 0xC2 0xDF b0 then cont b1 && utf8_valid l2
          else match l2 with
          | [] => false
          | b2 :: l3 =>
              if in_range 0xE0 0xE0 b0 then in_range 0xA0 0xBF b1 && cont b2 && utf8_valid l3
              else if in_range 0xED 0xED b0 then in_range 0x80 0x9F b1 && cont b2 && utf8_valid l3
              else if in_range 0xE1 0xEF b0 then cont b1 && cont b2 && utf8_valid l3
              else match l3 with
              | [] => false
              | b3 :: l4 =>
                  if in_range 0xF0 0xF0 b0 then in_range 0x90 0xBF b1 && cont b2 && cont b3 && utf8_valid l4
                  else if in_range 0xF1 0xF3 b0 then cont b1 && cont b2 && cont b3 && utf8_valid l4
                  else if in_range 0xF4 0xF4 b0 then in_range 0x80 0x8F b1 && cont b2 && cont b3 && utf8_valid l4
                  else false
              end
          end
      end
  end.

(** ** The file *)

Definition USABLE_SIZE : nat := PAGE_SIZE - 4.
Definition MAX_PAGES : Z := 1048576.

(** The rest of [data] goes to page [cur]; the fuel is at least its length. *)
Fixpoint write_loop (fuel : nat) (f : pages) (data : list Z) (cur : Z) : pages :=
  match fuel with
  | O => f
  | S fuel =>
      if decide (data = []) then f
      else
        let frame := page_at f cur in
        let to_write := length data `min` USABLE_SIZE in
        let frame := splice frame 0 (take to_write data) in
        let rest := drop to_write data in
        if decide (rest = []) then put_page f cur frame
        else
          let '(f, idx) := add_new_page f in
          let next_page_idx := u32_wrap idx in
          let frame := splice frame USABLE_SIZE (to_le 4 next_page_idx) in
          write_loop fuel (put_page f cur frame) rest next_page_idx
  end.
Definition write_string (f : pages) (s : list Z) : pages * outcome (Z * Z) :=
  if decide (s = []) then (f, Ok (0, 0)%Z)
  else if decide (2 ^ 32 - 1 < Z.of_nat (length s))%Z then (f, Err Internal)
  else
    let '(f, idx) := add_new_page f in
    let first_page_idx := u32_wrap idx in
    (write_loop (length s) f s first_page_idx, Ok (first_page_idx, 0%Z)).

(** [None]: the fuel ran out. *)
Fixpoint read_loop (fuel : nat) (f : pages) (cur : Z) (offset remaining : nat) (visited : Z) (seen : list Z)
    (result : list Z) : option (outcome (list Z)) :=
  match fuel with
  | O => None
  | S fuel =>
      if decide (remaining = 0) then Some (Ok result)
      else if decide (MAX_PAGES < visited + 1)%Z then Some (Err Internal)
      else if decide (cur ∈ seen) then Some (Err Internal)
      else if decide (USABLE_SIZE < offset) then Some (Err Internal)
      else
        let page_data := page_at f cur in
        let to_read := remaining `min` (USABLE_SIZE - offset) in
        let chunk := slice page_data offset (offset + to_read) in
        if utf8_valid chunk then
          let remaining' := remaining - length chunk in
          if decide (to_read < remaining) then
            read_loop fuel f (of_le (slice page_data USABLE_SIZE (USABLE_SIZE + 4))) 0 remaining' (visited + 1)
                      (cur :: seen) (result ++ chunk)
          else read_loop fuel f cur offset remaining' (visited + 1) (cur :: seen) (result ++ chunk)
        else Some (Err Internal)
  end.
Definition read_fuel : nat := Z.to_nat (MAX_PAGES + 2).
Definition read_string (f : pages) (page_idx offset len : Z) : option (outcome (list Z)) :=
  if decide (len = 0)%Z then Some (Ok [])
  else read_loop read_fuel f page_idx (Z.to_nat offset) (Z.to_nat len) 0 [] [].

(** ** Strings on disk *)

Lemma usable_size_val : Z.of_nat USABLE_SIZE = 4092%Z.
Proof. pose proof PAGE_SIZE_val. unfold USABLE_SIZE. lia. Qed.
#[global] Opaque USABLE_SIZE.

Lemma read_fuel_val : Z.of_nat read_fuel = (MAX_PAGES + 2)%Z.
Proof. unfold read_fuel. rewrite Z2Nat.id; [done|unfold MAX_PAGES; lia]. Qed.
#[global] Opaque read_fuel.

(** The pieces a string is cut into. *)
Fixpoint chunks (fuel : nat) (s : list Z) : list (list Z) :=
  match fuel with
  | O => []
  | S fuel => if decide (s = []) then [] else take USABLE_SIZE s :: chunks fuel (drop USABLE_SIZE s)
  end.

(** [s] is stored from page [cur] on, in increasing pages below [n]. *)
Inductive stored (f : pages) (n : Z) : Z → list Z → Prop :=
| stored_last cur s : (0 ≤ cur < n)%Z → s ≠ [] → length s ≤ USABLE_SIZE → slice (page_at f cur) 0 (length s) = s → stored f n cur s
| stored_more cur next s :
    (0 ≤ cur < next)%Z → USABLE_SIZE < length s → slice (page_at f cur) 0 USABLE_SIZE = take USABLE_SIZE s →
    of_le (slice (page_at f cur) USABLE_SIZE (USABLE_SIZE + 4)) = next → stored f n next (drop USABLE_SIZE s) →
    stored f n cur s.

Lemma stored_range f n cur s : stored f n cur s → (0 ≤ cur < n)%Z ∧ s ≠ [].
Proof. intros H. induction H as [|cur next s Hc Hl _ _ _ [IH _]]; [done|]. split; [lia|]. intros ->. cbn in Hl. lia. Qed.

Lemma stored_frame f f' n n' cur s : stored f n cur s → (n ≤ n')%Z →
  (∀ q, (cur ≤ q < n)%Z → page_at f' q = page_at f q) → stored f' n' cur s.
Proof.
  intros H Hn. induction H as [cur s Hc Hs Hl Hp|cur next s Hc Hl Hp Hx Hst IH]; intros Hsame.
  - apply stored_last; [lia|done|done|]. rewrite Hsame by lia. done.
  - destruct (stored_range _ _ _ _ Hst). apply (stored_more _ _ cur next); [done|done| | |].
    + rewrite Hsame by lia. done.
    + rewrite Hsame by lia. done.
    + apply IH. intros q Hq. apply Hsame. lia.
Qed.

Lemma page_splices (pg s w : list Z) : length pg = PAGE_SIZE → length s = USABLE_SIZE → length w = 4 →
  let p := splice (splice pg 0 s) USABLE_SIZE w in
  length p = PAGE_SIZE ∧ slice p 0 USABLE_SIZE = s ∧ slice p USABLE_SIZE (USABLE_SIZE + 4) = w.
Proof.
  intros Hp Hs Hw. pose proof PAGE_SIZE_val. pose proof usable_size_val. cbn zeta.
  assert (length (splice pg 0 s) = PAGE_SIZE) as H1 by (rewrite length_splice; lia).
  split; [rewrite length_splice; lia|]. split.
  - rewrite slice_splice_other by lia. rewrite <- Hs. apply (slice_splice_same pg 0). lia.
  - rewrite <- Hw. apply slice_splice_same. lia.
Qed.

Lemma write_loop_spec fuel f s cur :
  pages_ok f → bytes_ok s → s ≠ [] → length s ≤ fuel → (0 ≤ cur < pg_num f)%Z → (pg_num f + Z.of_nat (length s) < 2 ^ 32)%Z →
  (∀ q, (cur < q < pg_num f)%Z → False) →
  let f' := write_loop fuel f s cur in
  pages_ok f' ∧ stored f' (pg_num f') cur s ∧ (pg_num f ≤ pg_num f' ≤ pg_num f + Z.of_nat (length s))%Z ∧
  (∀ q, (q < cur)%Z → page_at f' q = page_at f q).
Proof.
  revert f s cur. induction fuel as [|fuel IH]; intros f s cur Hf Hb Hs Hl Hcur Hnum Hlast; [destruct s; cbn in Hl; [done|lia]|].
  cbn [write_loop]. rewrite decide_False by done. pose proof PAGE_SIZE_val as HP. pose proof usable_size_val as HU.
  destruct (page_at_ok f cur Hf) as [Hpl Hpb]. set (w := length s `min` USABLE_SIZE).
  assert (length (take w s) = w) as Hw by (rewrite length_take; lia).
  assert (length (splice (page_at f cur) 0 (take w s)) = PAGE_SIZE) as Hl1 by (rewrite length_splice; lia).
  assert (bytes_ok (splice (page_at f cur) 0 (take w s))) as Hb1.
  { apply bytes_ok_splice; [done|]. by apply Forall_take. }
  destruct (decide (drop w s = [])) as [E|Hrest].
  - assert (length s ≤ w) as Hle by (apply (f_equal length) in E; rewrite length_drop in E; cbn in E; lia).
    rewrite take_ge in * by lia. split; [by apply pages_ok_put|]. split; [|split; [cbn; lia|]].
    + apply stored_last; [cbn; lia|done|lia|]. rewrite page_at_put. apply (slice_splice_same (page_at f cur) 0). lia.
    + intros q Hq. apply page_at_put_ne. lia.
  - assert (w = USABLE_SIZE ∧ USABLE_SIZE < length s) as [-> Hlong].
    { destruct (decide (USABLE_SIZE < length s)); [lia|]. destruct Hrest. apply drop_ge. lia. }
    cbn [add_new_page]. set (n := pg_num f) in *.
    assert (u32_wrap n = n) as En by (unfold u32_wrap; apply Z.mod_small; lia). rewrite En.
    set (frame := splice (splice (page_at f cur) 0 (take USABLE_SIZE s)) USABLE_SIZE (to_le 4 n)).
    destruct (page_splices (page_at f cur) (take USABLE_SIZE s) (to_le 4 n) Hpl) as (Hfl & Hf1 & Hf2);
      [rewrite length_take; lia|apply length_to_le|]. fold frame in Hfl, Hf1, Hf2.
    set (f1 := put_page (mkPages (pg_data f) (n + 1)) cur frame).
    assert (pages_ok f1) as Hok1.
    { apply pages_ok_put; [done|done|]. unfold frame. apply bytes_ok_splice; [done|apply to_le_bytes_ok]. }
    destruct (IH f1 (drop USABLE_SIZE s) n) as (H1 & H2 & H3 & H4).
    + done.
    + by apply Forall_drop.
    + done.
    + rewrite length_drop. lia.
    + cbn. lia.
    + cbn. rewrite length_drop. lia.
    + cbn. lia.
    + rewrite length_drop in H3. cbn [f1 put_page pg_num] in H3. split; [done|]. split; [|split; [lia|]].
      * apply (stored_more _ _ cur n); [lia|done| | |done].
        -- rewrite H4 by lia. unfold f1. rewrite page_at_put. done.
        -- rewrite H4 by lia. unfold f1. rewrite page_at_put. rewrite Hf2. apply of_le_to_le_id. lia.
      * intros q Hq. rewrite H4 by lia. unfold f1. rewrite page_at_put_ne by lia. done.
Qed.

(** ** Reading *)

Definition readable (fuel : nat) (s : list Z) : bool := forallb utf8_valid (chunks fuel s).

Lemma readable_step fuel s : s ≠ [] → readable (S fuel) s = utf8_valid (take USABLE_SIZE s) && readable fuel (drop USABLE_SIZE s).
Proof. intros Hs. unfold readable. cbn [chunks]. by rewrite decide_False. Qed.

Lemma readable_nil fuel : readable fuel [] = true.
Proof. by destruct fuel. Qed.

Lemma read_loop_done fuel f cur off visited seen acc : 0 < fuel → read_loop fuel f cur off 0 visited seen acc = Some (Ok acc).
Proof. destruct fuel; [lia|]. intros _. cbn [read_loop]. by rewrite decide_True. Qed.

Definition short_enough (s : list Z) (visited : Z) : bool := bool_decide (Z.of_nat (length s) ≤ 4092 * (MAX_PAGES - visited))%Z.

Lemma read_loop_spec fuel f n cur s (k : nat) (visited : Z) (seen acc : list Z) :
  stored f n cur s → length s ≤ k → (MAX_PAGES - visited + 2 ≤ Z.of_nat fuel)%Z → (visited ≤ MAX_PAGES)%Z →
  (∀ p, p ∈ seen → (p < cur)%Z) →
  read_loop fuel f cur 0 (length s) visited seen acc =
    Some (if readable k s && short_enough s visited then Ok (acc ++ s) else Err Internal).
Proof.
  intros Hst. pose proof usable_size_val as HU. revert fuel k visited seen acc.
  induction Hst as [cur s Hc Hs Hl Hp|cur next s Hc Hl Hp Hx Hst IH]; intros fuel k visited seen acc Hk Hfuel Hv Hseen.
  all: assert (0 < length s) as Hpos by (first [lia | destruct s; [done|cbn; lia]]).
  all: assert (s ≠ []) by (intros ->; cbn in Hpos; lia).
  all: destruct fuel as [|fuel]; [lia|]; destruct k as [|k]; [lia|]; cbn [read_loop].
  all: rewrite (decide_False (P := length s = 0)) by lia; rewrite readable_step by done.
  all: destruct (decide (MAX_PAGES < visited + 1)%Z);
    [unfold short_enough; rewrite bool_decide_eq_false_2, andb_false_r by lia; done|].
  all: rewrite (decide_False (P := cur ∈ seen)) by (intros Hin; specialize (Hseen _ Hin); lia).
  all: rewrite (decide_False (P := USABLE_SIZE < 0)) by lia; rewrite Nat.sub_0_r.
  - rewrite Nat.min_l, Nat.add_0_l by lia. rewrite Hp.
    rewrite take_ge, drop_ge, readable_nil, andb_true_r by lia.
    destruct (utf8_valid s); [|done]. rewrite decide_False by lia. rewrite Nat.sub_diag. unfold short_enough.
    rewrite bool_decide_eq_true_2 by lia. apply read_loop_done. lia.
  - rewrite Nat.min_r, Nat.add_0_l by lia. rewrite Hp, Hx.
    destruct (utf8_valid (take USABLE_SIZE s)); [|done]. rewrite decide_True by lia. cbn [andb].
    rewrite length_take, Nat.min_l by lia. rewrite <- length_drop.
    rewrite (IH fuel k); [|rewrite length_drop; lia|lia|lia|].
    + rewrite <- app_assoc, take_drop. unfold short_enough. rewrite length_drop.
      rewrite (bool_decide_ext _ (Z.of_nat (length s) ≤ 4092 * (MAX_PAGES - visited))%Z) by lia. done.
    + intros p. rewrite elem_of_cons. intros [->|Hin]; [lia|]. specialize (Hseen _ Hin). lia.
Qed.

Lemma read_loop_returns fuel f cur off rem visited seen acc :
  (MAX_PAGES - visited + 2 ≤ Z.of_nat fuel)%Z → (visited ≤ MAX_PAGES)%Z → read_loop fuel f cur off rem visited seen acc ≠ None.
Proof.
  revert cur off rem visited seen acc. induction fuel as [|fuel IH]; intros cur off rem visited seen acc Hf Hv; [lia|].
  cbn [read_loop]. destruct (decide (rem = 0)); [done|]. destruct (decide (MAX_PAGES < visited + 1)%Z); [done|].
  destruct (decide (cur ∈ seen)); [done|]. destruct (decide (USABLE_SIZE < off)); [done|].
  destruct (utf8_valid _); [|done]. destruct (decide _); apply IH; lia.
Qed.

(** [write_string] for each string in turn. *)
Fixpoint write_all (f : pages) (ss : list (list Z)) : pages * list (outcome (Z * Z)) :=
  match ss with
  | [] => (f, [])
  | s :: ss => let '(f, r) := write_string f s in let '(f, rs) := write_all f ss in (f, r :: rs)
  end.

(** [r] is where [s] is in [f]. *)
Definition located (f : pages) (s : list Z) (r : outcome (Z * Z)) : Prop :=
  match r with
  | Ok (page, off) => off = 0%Z ∧ (s = [] ∨ stored f (pg_num f) page s)
  | _ => False
  end.

Lemma write_string_spec f s :
  pages_ok f → bytes_ok s → (0 ≤ pg_num f)%Z → (pg_num f + Z.of_nat (length s) + 1 < 2 ^ 32)%Z →
  let f' := fst (write_string f s) in
  pages_ok f' ∧ located f' s (snd (write_string f s)) ∧ (pg_num f ≤ pg_num f' ≤ pg_num f + Z.of_nat (length s) + 1)%Z ∧
  (∀ q, (q < pg_num f)%Z → page_at f' q = page_at f q).
Proof.
  intros Hf Hb H0 Hnum. unfold write_string. destruct (decide (s = [])) as [->|Hs].
  - cbn. split; [done|]. split; [by split; [|left]|]. split; [lia|done].
  - rewrite decide_False by lia. cbn [add_new_page]. set (n := pg_num f) in *.
    assert (u32_wrap n = n) as -> by (unfold u32_wrap; apply Z.mod_small; lia). cbn [fst snd].
    destruct (write_loop_spec (length s) (mkPages (pg_data f) (n + 1)) s n) as (H1 & H2 & H3 & H4); try done; [cbn; lia..|].
    cbn in H3. split; [done|]. split; [|split; [lia|]].
    + split; [done|]. by right.
    + intros q Hq. rewrite H4 by lia. done.
Qed.

Lemma located_frame f f' s r : located f s r → (pg_num f ≤ pg_num f')%Z →
  (∀ q, (q < pg_num f)%Z → page_at f' q = page_at f q) → located f' s r.
Proof.
  intros H Hn Hsame. destruct r as [[p o]| |]; [|done..]. destruct H as [-> [->|H]]; (split; [done|]); [by left|right].
  apply (stored_frame f f' (pg_num f)); [done|done|]. intros q Hq. apply Hsame. lia.
Qed.

Definition total_length (ss : list (list Z)) : Z := Z.of_nat (sum_list_with (λ s, length s + 1) ss).

Lemma write_all_spec ss f :
  pages_ok f → Forall bytes_ok ss → (0 ≤ pg_num f)%Z → (pg_num f + total_length ss < 2 ^ 32)%Z →
  let f' := fst (write_all f ss) in
  (pg_num f ≤ pg_num f')%Z ∧ (∀ q, (q < pg_num f)%Z → page_at f' q = page_at f q) ∧
  ∀ i s, ss !! i = Some s → ∃ r, snd (write_all f ss) !! i = Some r ∧ located f' s r.
Proof.
  revert f. induction ss as [|s ss IH]; intros f Hf Hb H0 Hn; cbn zeta; [cbn; split; [lia|]; split; [done|]; by intros [|i] s|].
  inversion Hb as [|? ? Hb1 Hb2]; subst. unfold total_length in *. cbn [sum_list_with] in Hn.
  destruct (write_string_spec f s) as (H3 & H4 & H5 & H6); [done|done|done|lia|].
  cbn [write_all]. destruct (write_string f s) as [f1 r1] eqn:E1. cbn [fst snd] in *.
  destruct (IH f1) as (H7 & H8 & H9); [done|done|lia|lia|].
  destruct (write_all f1 ss) as [f2 rs] eqn:E2. cbn [fst snd] in *.
  split; [lia|]. split.
  - intros q Hq. rewrite H8 by lia. apply H6. lia.
  - intros [|i] s' Hi; cbn in Hi |- *; [|by apply H9].
    injection Hi as <-. exists r1. split; [done|]. by apply (located_frame f1).
Qed.

Lemma read_located f s page off : located f s (Ok (page, off)) →
  read_string f page off (Z.of_nat (length s)) =
    Some (if readable (length s) s && short_enough s 0 then Ok s else Err Internal).
Proof.
  intros [-> [->|Hst]].
  { unfold read_string. rewrite decide_True by done. rewrite readable_nil. unfold short_enough.
    rewrite bool_decide_eq_true_2 by (unfold MAX_PAGES; cbn; lia). reflexivity. }
  destruct (stored_range _ _ _ _ Hst) as [_ Hs]. unfold read_string.
  rewrite decide_False by (destruct s; [done|cbn; lia]). rewrite Nat2Z.id. change (Z.to_nat 0) with 0. pose proof read_fuel_val.
  rewrite (read_loop_spec _ f (pg_num f) page s (length s)); [done|done|lia|lia|unfold MAX_PAGES; lia|].
  intros p Hp. exfalso. exact (proj1 (elem_of_nil p) Hp).
Qed.

(** Whatever strings are written to a fresh overflow file, one after the
    other, every one of them gets a location and reads back from it exactly as
    it was written if each of its 4092-byte pieces is valid UTF-8 by itself
    and it has at most 1048576 pieces; otherwise reading it is an error. *)
Theorem overflow_reads_back (ss : list (list Z)) (i : nat) (s : list Z) :
  Forall bytes_ok ss → (total_length ss < 2 ^ 32)%Z → ss !! i = Some s →
  ∃ page off, snd (write_all (mkPages ∅ 0) ss) !! i = Some (Ok (page, off)) ∧
    read_string (fst (write_all (mkPages ∅ 0) ss)) page off (Z.of_nat (length s)) =
      Some (if readable (length s) s && short_enough s 0 then Ok s else Err Internal).
Proof.
  intros Hb Hn Hi. destruct (write_all_spec ss (mkPages ∅ 0)) as (_ & _ & H); [|done|done|done|].
  - intros j p Hp. cbn in Hp. by rewrite lookup_empty in Hp.
  - destruct (H i s Hi) as ([[page off]| |] & Hr & Hloc); [|done..]. exists page, off. split; [done|]. by apply read_located.
Qed.

Lemma overflow_reads_back_witness :
  let ss := [[72; 105]; []; [195; 169]]%Z in
  ∃ page off, snd (write_all (mkPages ∅ 0) ss) !! 2 = Some (Ok (page, off)) ∧
    read_string (fst (write_all (mkPages ∅ 0) ss)) page off 2 = Some (Ok [195; 169]%Z).
Proof.
  cbn zeta.
  destruct (overflow_reads_back [[72; 105]; []; [195; 169]]%Z 2 [195; 169]%Z) as (page & off & H1 & H2).
  - repeat constructor; by_compute.
  - by_compute.
  - done.
  - exists page, off. split; [done|]. etransitivity; [apply H2|]. vm_compute. reflexivity.
Defined.

(** Reading always returns: whatever the pages hold, the chain of pages
    followed by [read_string] ends with a string or an error, through its
    length limit and its cycle check. *)
Theorem read_string_returns (f : pages) (page_idx offset len : Z) : read_string f page_idx offset len ≠ None.
Proof.
  unfold read_string. destruct (decide _); [done|]. pose proof read_fuel_val.
  apply read_loop_returns; unfold MAX_PAGES in *; lia.
Qed.

(** A character that straddles two pages makes a string unreadable, although
    the string is valid UTF-8. *)
Definition straddling : list Z := replicate 4091 97%Z ++ [195; 169]%Z.
Lemma straddling_unreadable : utf8_valid straddling = true ∧ readable (length straddling) straddling = false.
Proof. by_compute. Qed.
