(* ===== verification/HashIndex.v ===== *)
(** * Hash index (storage/index/hash_index.rs)

    A key maps to row ids.  Page 0 holds the bucket count, pages [1..n] the
    buckets; a bucket page has the number of its overflow page, an entry count and
    up to fifteen entries of hash, 256 key bytes and row id.  A deleted entry
    keeps its place with the top bit of its hash set.  The standard hasher is a
    parameter, as is the replacement of bytes that are not UTF-8; loops over a
    page chain take fuel, and [None] is a loop that has not ended. *)
From stdpp Require Import base list gmap numbers.
From Stdlib Require Import ZArith Lia Bool.
From S2P Require Import Prelude Codec PageFile.

(** ** Constants *)

Definition HEADER_PAGE_IDX : Z := 0.
Definition MAX_VAL_SIZE : nat := 256.
Definition ENTRY_SIZE : nat := 8 + MAX_VAL_SIZE + 8.
Definition MAX_ENTRIES_PER_PAGE : Z := ((4096 - 16) / Z.of_nat ENTRY_SIZE)%Z.
Definition DELETED_BIT : Z := Z.shiftl 1 63.
Definition deleted (h : Z) : bool := negb (bool_decide (Z.land h DELETED_BIT = 0%Z)).

(** [entry offset] *)
Definition entry_off (i : nat) : nat := 16 + i * ENTRY_SIZE.

Record HashIndex := mkIndex { hi_pages : pages; hi_buckets : Z }.

(** ** Keys *)

(** [PartialEq for Value]: numbers by their bits, maps as sets of entries. *)
Fixpoint value_eq (a b : Value) {struct a} : bool :=
  match a, b with
  | VString s1, VString s2 => bool_decide (s1 = s2)
  | VNumber n1, VNumber n2 => bool_decide (n1 = n2)
  | VBoolean b1, VBoolean b2 => bool_decide (b1 = b2)
  | VNull, VNull => true
  | VNode i1, VNode i2 | VRelationship i1, VRelationship i2 => bool_decide (i1 = i2)
  | VDate d1, VDate d2 | VTimestamp d1, VTimestamp d2 => bool_decide (d1 = d2)
  | VPath l1, VPath l2 | VList l1, VList l2 =>
      (fix eqs (l1 l2 : list Value) : bool :=
         match l1, l2 with
         | [], [] => true
         | x :: l1, y :: l2 => value_eq x y && eqs l1 l2
         | _, _ => false
         end) l1 l2
  | VStruct l1, VStruct l2 =>
      (fix eqs (l1 l2 : list (list Z * Value)) : bool :=
         match l1, l2 with
         | [], [] => true
         | (n1, x) :: l1, (n2, y) :: l2 => bool_decide (n1 = n2) && value_eq x y && eqs l1 l2
         | _, _ => false
         end) l1 l2
  | VMap m1, VMap m2 =>
      bool_decide (length m1 = length m2) &&
      (fix all (m1 : list (Value * Value)) : bool :=
         match m1 with
         | [] => true
         | (k, v) :: m1 => existsb (λ e, value_eq k (fst e) && value_eq v (snd e)) m2 && all m1
         end) m1
  | _, _ => false
  end.

(** The bytes [hash_value] feeds to the hasher: a tag, then the value; lengths
    are 64-bit, a string ends with a 0xff byte. *)
Definition hash_str (s : list Z) : list Z := s ++ [255%Z].
Fixpoint hash_value (v : Value) : list Z :=
  match v with
  | VNumber n => 0%Z :: to_le 8 n
  | VString s => 1%Z :: hash_str s
  | VBoolean b => [2%Z; if b then 1%Z else 0%Z]
  | VNode id | VRelationship id => 3%Z :: to_le 8 id
  | VDate d => 4%Z :: to_le 4 d
  | VTimestamp t => 5%Z :: to_le 8 t
  | VNull => [6%Z]
  | VPath vals => 7%Z :: to_le 8 (Z.of_nat (length vals)) ++ concat (map hash_value vals)
  | VList vals => 8%Z :: to_le 8 (Z.of_nat (length vals)) ++ concat (map hash_value vals)
  | VStruct fields =>
      9%Z :: to_le 8 (Z.of_nat (length fields)) ++
      concat (map (λ e : list Z * Value, let '(name, v) := e in hash_str name ++ hash_value v) fields)
  | VMap entries =>
      10%Z :: to_le 8 (Z.of_nat (length entries)) ++
      concat (map (λ e : Value * Value, let '(k, v) := e in hash_value k ++ hash_value v) entries)
  end.

(** Into a zeroed buffer of [MAX_VAL_SIZE] bytes. *)
Definition serialize_value (v : Value) (buf : list Z) : outcome (list Z) :=
  match v with
  | VNumber n => let* b := write_at buf 0 [0%Z] in write_at b 1 (to_le 8 n)
  | VString s =>
      let* b := write_at buf 0 [1%Z] in
      if decide (MAX_VAL_SIZE - 5 < length s) then Err Internal
      else let* b := write_at b 1 (to_le 4 (Z.of_nat (length s))) in write_at b 5 s
  | VBoolean b => let* buf := write_at buf 0 [2%Z] in write_at buf 1 [if b then 1%Z else 0%Z]
  | VNode id => let* b := write_at buf 0 [3%Z] in write_at b 1 (to_le 8 id)
  | VRelationship id => let* b := write_at buf 0 [4%Z] in write_at b 1 (to_le 8 id)
  | VDate d => let* b := write_at buf 0 [5%Z] in write_at b 1 (to_le 4 d)
  | VTimestamp t => let* b := write_at buf 0 [6%Z] in write_at b 1 (to_le 8 t)
  | _ => Err Internal
  end.

(** [iN::from_le_bytes] *)
Definition i32_of (z : Z) : Z := if decide (z < 2 ^ 31)%Z then z else (z - 2 ^ 32)%Z.

Section index.
(** [DefaultHasher::finish] after the given bytes; [String::from_utf8_lossy]. *)
Context (finish : list Z → Z) (from_utf8_lossy : list Z → list Z).

Definition compute_hash (v : Value) : Z := Z.land (finish (hash_value v)) (u64_not DELETED_BIT).

Definition deserialize_value (buf : list Z) : outcome Value :=
  match buf with
  | [] => Err Internal
  | tag :: _ =>
      if decide (tag = 0)%Z then
        if decide (length buf < 9) then Err Internal else Ok (VNumber (of_le (slice buf 1 9)))
      else if decide (tag = 1)%Z then
        if decide (length buf < 5) then Err Internal
        else let len := Z.to_nat (of_le (slice buf 1 5)) in
             if decide (length buf < 5 + len) then Err Internal
             else Ok (VString (from_utf8_lossy (slice buf 5 (5 + len))))
      else if decide (tag = 2)%Z then
        if decide (length buf < 2) then Err Internal else Ok (VBoolean (negb (bool_decide (byte_at buf 1 = 0%Z))))
      else if decide (tag = 3)%Z then
        if decide (length buf < 9) then Err Internal else Ok (VNode (of_le (slice buf 1 9)))
      else if decide (tag = 4)%Z then
        if decide (length buf < 9) then Err Internal else Ok (VRelationship (of_le (slice buf 1 9)))
      else if decide (tag = 5)%Z then
        if decide (length buf < 5) then Err Internal else Ok (VDate (i32_of (of_le (slice buf 1 5))))
      else if decide (tag = 6)%Z then
        if decide (length buf < 9) then Err Internal else Ok (VTimestamp (u64_as_i64 (of_le (slice buf 1 9))))
      else Err Internal
  end.

(** ** Creation *)

Definition header_page (nb : Z) : list Z := splice (splice zero_page 0 (to_le 8 nb)) 8 (to_le 8 0).

Fixpoint add_buckets (n : nat) (f : pages) : pages :=
  match n with
  | O => f
  | S n => let '(f, bucket_idx) := add_new_page f in add_buckets n (put_page f bucket_idx zero_page)
  end.

(** The pages are written to the file and dropped from the buffer pool. *)
Definition initialize_header (ix : HashIndex) : HashIndex :=
  let nb := hi_buckets ix in
  let '(f, header_idx) := add_new_page (hi_pages ix) in
  let f := put_page f header_idx (header_page nb) in
  mkIndex (add_buckets (Z.to_nat nb) f) nb.

(** [f] is the file's content when it already exists. *)
Definition open_or_create_with_buckets (f : option pages) (initial_buckets : Z) : HashIndex :=
  match f with
  | None => initialize_header (mkIndex (mkPages ∅ 0) (Z.max initial_buckets 1))
  | Some f =>
      let num_buckets := if decide (1 ≤ pg_num f)%Z then Z.max (of_le (slice (page_at f 0) 0 8)) 1
                         else Z.max initial_buckets 1 in
      mkIndex f num_buckets
  end.
Definition open_or_create (f : option pages) : HashIndex := open_or_create_with_buckets f 64.

(** ** Reading a page *)

Fixpoint scan_entries (todo i : nat) (data : list Z) (hash : Z) (key : Value) (limit : option nat) (results : list Z) :
    outcome (list Z) :=
  match todo with
  | O => Ok results
  | S todo =>
      if match limit with Some l => bool_decide (l ≤ length results) | None => false end then Ok results
      else
        let offset := entry_off i in
        let* stored_hash := get_u64 data offset in
        if deleted stored_hash then scan_entries todo (S i) data hash key limit results
        else if decide (stored_hash = hash) then
          let* val_bytes := slice_get data (offset + 8) (offset + 8 + MAX_VAL_SIZE) in
          let* stored_val := deserialize_value val_bytes in
          if value_eq stored_val key then
            let* row_id := get_u64 data (offset + 8 + MAX_VAL_SIZE) in
            scan_entries todo (S i) data hash key limit (results ++ [row_id])
          else scan_entries todo (S i) data hash key limit results
        else scan_entries todo (S i) data hash key limit results
  end.
Definition scan_bucket_page (data : list Z) (hash : Z) (key : Value) (limit : option nat) (results : list Z) :
    outcome (list Z) :=
  let* num_entries := get_u64 data 8 in
  scan_entries (Z.to_nat num_entries) 0 data hash key limit results.

(** The header's bucket count. *)
Definition num_buckets (f : pages) : outcome Z := get_u64 (page_at f HEADER_PAGE_IDX) 0.

Fixpoint lookup_loop (fuel : nat) (f : pages) (hash : Z) (key : Value) (limit : option nat) (results : list Z)
    (current_page : Z) : option (outcome (list Z)) :=
  match fuel with
  | O => None
  | S fuel =>
      let data := page_at f current_page in
      match scan_bucket_page data hash key limit results with
      | Ok results =>
          match get_u64 data 0 with
          | Ok next_page =>
              if decide (next_page = 0)%Z then Some (Ok results)
              else lookup_loop fuel f hash key limit results next_page
          | Err e => Some (Err e)
          | Panic => Some Panic
          end
      | Err e => Some (Err e)
      | Panic => Some Panic
      end
  end.
Definition lookup_multi (fuel : nat) (ix : HashIndex) (key : Value) (limit : option nat) : option (outcome (list Z)) :=
  let hash := compute_hash key in
  match num_buckets (hi_pages ix) with
  | Ok nb =>
      if decide (nb = 0)%Z then Some (Ok [])
      else lookup_loop fuel (hi_pages ix) hash key limit [] (1 + hash mod nb)%Z
  | Err e => Some (Err e)
  | Panic => Some Panic
  end.
Definition lookup (fuel : nat) (ix : HashIndex) (key : Value) : option (outcome (option Z)) :=
  match lookup_multi fuel ix key (Some 1) with
  | Some (Ok results) => Some (Ok (head results))
  | Some (Err e) => Some (Err e)
  | Some Panic => Some Panic
  | None => None
  end.

(** ** Insertion *)

Definition write_entry_to_page (data : list Z) (num_entries : Z) (hash : Z) (key_bytes : list Z) (row_id : Z) :
    outcome (list Z) :=
  let offset := entry_off (Z.to_nat num_entries) in
  if decide (4096 < Z.of_nat (offset + ENTRY_SIZE))%Z then Err Internal
  else
    let* data := set_u64 data offset hash in
    if decide (length key_bytes ≠ MAX_VAL_SIZE) then Err Internal
    else
      let* data := write_at data (offset + 8) key_bytes in
      let* data := set_u64 data (offset + 8 + MAX_VAL_SIZE) row_id in
      set_u64 data 8 (num_entries + 1).

Definition allocate_overflow_page (f : pages) : pages * Z :=
  let '(f, new_idx) := add_new_page f in (put_page f new_idx zero_page, new_idx).

(** The chain walk of [insert] and [insert_internal]; they differ in when the key
    bytes are made. *)
Fixpoint insert_loop (fuel : nat) (f : pages) (hash : Z) (key_bytes : outcome (list Z)) (row_id current_page : Z) :
    option (pages * outcome unit) :=
  match fuel with
  | O => None
  | S fuel =>
      let data := page_at f current_page in
      match get_u64 data 8 with
      | Ok num_entries =>
          if decide (num_entries < MAX_ENTRIES_PER_PAGE)%Z then
            match outcome_bind key_bytes (λ kb, write_entry_to_page data num_entries hash kb row_id) with
            | Ok data => Some (put_page f current_page data, Ok tt)
            | Err e => Some (f, Err e)
            | Panic => Some (f, Panic)
            end
          else
            match get_u64 data 0 with
            | Ok next_page =>
                if decide (next_page = 0)%Z then
                  let '(f, new_page) := allocate_overflow_page f in
                  match set_u64 (page_at f current_page) 0 new_page with
                  | Ok data => insert_loop fuel (put_page f current_page data) hash key_bytes row_id new_page
                  | Err e => Some (f, Err e)
                  | Panic => Some (f, Panic)
                  end
                else insert_loop fuel f hash key_bytes row_id next_page
            | Err e => Some (f, Err e)
            | Panic => Some (f, Panic)
            end
      | Err e => Some (f, Err e)
      | Panic => Some (f, Panic)
      end
  end.

(** A header without buckets is written again. *)
Definition ensure_buckets (ix : HashIndex) : HashIndex * outcome Z :=
  match num_buckets (hi_pages ix) with
  | Ok nb =>
      if decide (nb = 0)%Z then
        let ix := initialize_header ix in
        (ix, if decide (hi_buckets ix = 0)%Z then Err Internal else Ok (hi_buckets ix))
      else (ix, Ok nb)
  | o => (ix, o)
  end.

Definition insert_with (fuel : nat) (ix : HashIndex) (hash : Z) (key_bytes : outcome (list Z)) (row_id : Z) :
    option (HashIndex * outcome unit) :=
  match ensure_buckets ix with
  | (ix, Ok nb) =>
      match insert_loop fuel (hi_pages ix) hash key_bytes row_id (1 + hash mod nb)%Z with
      | Some (f, r) => Some (mkIndex f (hi_buckets ix), r)
      | None => None
      end
  | (ix, Err e) => Some (ix, Err e)
  | (ix, Panic) => Some (ix, Panic)
  end.
Definition insert (fuel : nat) (ix : HashIndex) (key : Value) (row_id : Z) : option (HashIndex * outcome unit) :=
  insert_with fuel ix (compute_hash key) (serialize_value key (replicate MAX_VAL_SIZE 0%Z)) row_id.
Definition insert_internal (fuel : nat) (ix : HashIndex) (hash : Z) (key_bytes : list Z) (row_id : Z) :
    option (HashIndex * outcome unit) := insert_with fuel ix hash (Ok key_bytes) row_id.

(** ** Deletion *)

(** The offset of the first live entry with this key and row. *)
Fixpoint find_entry (todo i : nat) (data : list Z) (hash : Z) (key : Value) (row_id : Z) : outcome (option nat) :=
  match todo with
  | O => Ok None
  | S todo =>
      let offset := entry_off i in
      let* stored_hash := get_u64 data offset in
      if deleted stored_hash then find_entry todo (S i) data hash key row_id
      else if decide (stored_hash = hash) then
        let* val_bytes := slice_get data (offset + 8) (offset + 8 + MAX_VAL_SIZE) in
        let* stored_val := deserialize_value val_bytes in
        if value_eq stored_val key then
          let* stored_row_id := get_u64 data (offset + 8 + MAX_VAL_SIZE) in
          if decide (stored_row_id = row_id) then Ok (Some offset)
          else find_entry todo (S i) data hash key row_id
        else find_entry todo (S i) data hash key row_id
      else find_entry todo (S i) data hash key row_id
  end.

Definition tombstone (data : list Z) (hash : Z) (offset : nat) : outcome (list Z) :=
  set_u64 data offset (Z.lor hash DELETED_BIT).

Fixpoint delete_loop (fuel : nat) (f : pages) (hash : Z) (key : Value) (row_id current_page : Z) :
    option (pages * outcome bool) :=
  match fuel with
  | O => None
  | S fuel =>
      let data := page_at f current_page in
      let found := let* num_entries := get_u64 data 8 in
                   let* next_page := get_u64 data 0 in
                   let* o := find_entry (Z.to_nat num_entries) 0 data hash key row_id in
                   Ok (next_page, o) in
      match found with
      | Ok (_, Some offset) =>
          match tombstone data hash offset with
          | Ok data => Some (put_page f current_page data, Ok true)
          | Err e => Some (f, Err e)
          | Panic => Some (f, Panic)
          end
      | Ok (next_page, None) =>
          if decide (next_page = 0)%Z then Some (f, Ok false)
          else delete_loop fuel f hash key row_id next_page
      | Err e => Some (f, Err e)
      | Panic => Some (f, Panic)
      end
  end.
Definition delete (fuel : nat) (ix : HashIndex) (key : Value) (row_id : Z) : option (HashIndex * outcome bool) :=
  let hash := compute_hash key in
  match num_buckets (hi_pages ix) with
  | Ok nb =>
      if decide (nb = 0)%Z then Some (ix, Ok false)
      else match delete_loop fuel (hi_pages ix) hash key row_id (1 + hash mod nb)%Z with
           | Some (f, r) => Some (mkIndex f (hi_buckets ix), r)
           | None => None
           end
  | Err e => Some (ix, Err e)
  | Panic => Some (ix, Panic)
  end.

(** ** Scans and resizing *)

(** The live entries of a page: hash, key bytes, row id. *)
Fixpoint page_entries (todo i : nat) (data : list Z) : outcome (list (Z * list Z * Z)) :=
  match todo with
  | O => Ok []
  | S todo =>
      let offset := entry_off i in
      let* stored_hash := get_u64 data offset in
      if deleted stored_hash then page_entries todo (S i) data
      else
        let* val_bytes := slice_get data (offset + 8) (offset + 8 + MAX_VAL_SIZE) in
        let* row_id := get_u64 data (offset + 8 + MAX_VAL_SIZE) in
        let* rest := page_entries todo (S i) data in
        Ok ((stored_hash, val_bytes, row_id) :: rest)
  end.
Fixpoint collect_chain (fuel : nat) (f : pages) (current : Z) : option (outcome (list (Z * list Z * Z))) :=
  match fuel with
  | O => None
  | S fuel =>
      let data := page_at f current in
      let here := let* num_entries := get_u64 data 8 in
                  let* next_page := get_u64 data 0 in
                  let* es := page_entries (Z.to_nat num_entries) 0 data in
                  Ok (next_page, es) in
      match here with
      | Ok (next_page, es) =>
          if decide (next_page = 0)%Z then Some (Ok es)
          else match collect_chain fuel f next_page with
               | Some (Ok rest) => Some (Ok (es ++ rest))
               | o => o
               end
      | Err e => Some (Err e)
      | Panic => Some Panic
      end
  end.
Fixpoint collect_buckets (fuel : nat) (f : pages) (todo : nat) (bucket_idx : Z) : option (outcome (list (Z * list Z * Z))) :=
  match todo with
  | O => Some (Ok [])
  | S todo =>
      match collect_chain fuel f bucket_idx with
      | Some (Ok es) =>
          match collect_buckets fuel f todo (bucket_idx + 1) with
          | Some (Ok rest) => Some (Ok (es ++ rest))
          | o => o
          end
      | o => o
      end
  end.
Definition collect_all_entries (fuel : nat) (ix : HashIndex) : option (outcome (list (Z * list Z * Z))) :=
  match num_buckets (hi_pages ix) with
  | Ok nb => collect_buckets fuel (hi_pages ix) (Z.to_nat nb) 1
  | Err e => Some (Err e)
  | Panic => Some Panic
  end.

(** [entries]: the scan with the keys decoded. *)
Fixpoint decode_entries (l : list (Z * list Z * Z)) : outcome (list (Value * Z)) :=
  match l with
  | [] => Ok []
  | (_, kb, row_id) :: l => let* key := deserialize_value kb in let* rest := decode_entries l in Ok ((key, row_id) :: rest)
  end.
Definition entries (fuel : nat) (ix : HashIndex) : option (outcome (list (Value * Z))) :=
  match collect_all_entries fuel ix with
  | Some o => Some (outcome_bind o decode_entries)
  | None => None
  end.

(** Pages are added until the file has [needed] of them. *)
Fixpoint grow_to (n : nat) (needed : Z) (f : pages) : pages :=
  match n with
  | O => f
  | S n => if decide (pg_num f < needed)%Z then
             let '(f, idx) := add_new_page f in
             let p := splice (splice (page_at f idx) 0 (to_le 8 0)) 8 (to_le 8 0) in
             grow_to n needed (put_page f idx p)
           else f
  end.
Fixpoint reinsert (fuel : nat) (ix : HashIndex) (es : list (Z * list Z * Z)) : option (HashIndex * outcome unit) :=
  match es with
  | [] => Some (ix, Ok tt)
  | (hash, key, row_id) :: es =>
      match insert_internal fuel ix hash key row_id with
      | Some (ix, Ok _) => reinsert fuel ix es
      | o => o
      end
  end.
Definition resize (fuel : nat) (ix : HashIndex) : option (HashIndex * outcome unit) :=
  match collect_all_entries fuel ix with
  | Some (Ok es) =>
      let old_buckets := hi_buckets ix in
      let new_buckets := u64_wrap (old_buckets * 2) in
      let f := hi_pages ix in
      let f := grow_to (Z.to_nat (1 + new_buckets - pg_num f)) (1 + new_buckets) f in
      let f := foldl (λ f k, put_page f (old_buckets + 1 + Z.of_nat k)%Z zero_page) f (seq 0 (Z.to_nat (new_buckets - old_buckets))) in
      let f := put_page f HEADER_PAGE_IDX (splice (page_at f HEADER_PAGE_IDX) 0 (to_le 8 new_buckets)) in
      reinsert fuel (mkIndex f new_buckets) es
  | Some (Err e) => Some (ix, Err e)
  | Some Panic => Some (ix, Panic)
  | None => None
  end.
End index.
