(* ===== verification/HashIndexSpec.v ===== *)
(** * The hash index implements a multimap

    Keys survive their page format ([key_roundtrip]); every sequence of
    insertions and deletions on a new index behaves like the same sequence on a
    list of pairs of key and row ([hash_index_refines_multimap]), whatever the
    hasher does.  [resize], which nothing but its tests calls, leaves the old
    entries behind. *)
From Stdlib Require Import ZArith Lia Bool.
From stdpp Require Import base list gmap numbers.
From S2P Require Import Prelude Codec PageFile HashIndex.

Section spec.
Context (finish : list Z → Z) (from_utf8_lossy : list Z → list Z).

Local Abbreviation compute_hash := (compute_hash finish).
Local Abbreviation deserialize_value := (deserialize_value from_utf8_lossy).

(** ** Keys *)

(** The values an index accepts; a string is UTF-8, which the lossy conversion
    returns unchanged. *)
Definition key_ok (v : Value) : Prop :=
  match v with
  | VNumber n => is_u64 n
  | VString s => bytes_ok s ∧ length s ≤ MAX_VAL_SIZE - 5 ∧ from_utf8_lossy s = s
  | VBoolean _ => True
  | VNode id | VRelationship id => is_u64 id
  | VDate d => (- 2 ^ 31 ≤ d < 2 ^ 31)%Z
  | VTimestamp t => is_i64 t
  | _ => False
  end.

(** Tag and payload of a key. *)
Definition key_image (v : Value) : list Z :=
  match v with
  | VNumber n => 0%Z :: to_le 8 n
  | VString s => 1%Z :: to_le 4 (Z.of_nat (length s)) ++ s
  | VBoolean b => [2%Z; if b then 1%Z else 0%Z]
  | VNode id => 3%Z :: to_le 8 id
  | VRelationship id => 4%Z :: to_le 8 id
  | VDate d => 5%Z :: to_le 4 d
  | VTimestamp t => 6%Z :: to_le 8 t
  | _ => []
  end.
Definition key_bytes (v : Value) : list Z := key_image v ++ replicate (MAX_VAL_SIZE - length (key_image v)) 0%Z.

Lemma splice_zeros n s : length s ≤ n → splice (replicate n 0%Z) 0 s = s ++ replicate (n - length s) 0%Z.
Proof. intros. unfold splice. cbn [take app]. by rewrite drop_replicate. Qed.

Lemma write_two n a s t : length (a :: s) + length t ≤ n →
  (let* b := write_at (replicate n 0%Z) 0 (a :: s) in write_at b (length (a :: s)) t)
  = Ok (splice (replicate n 0%Z) 0 ((a :: s) ++ t)).
Proof.
  intros H. rewrite write_at_ok by (rewrite length_replicate; lia). cbn [outcome_bind].
  assert (length (splice (replicate n 0%Z) 0 (a :: s)) = n) as Hl
    by (rewrite length_splice; rewrite length_replicate; [done|lia]).
  rewrite write_at_ok by (rewrite Hl; lia). f_equal.
  refine (splice_splice_adjacent (replicate n 0%Z) 0 (a :: s) t _). rewrite length_replicate. lia.
Qed.

Lemma key_image_length v : key_ok v → 1 ≤ length (key_image v) ≤ MAX_VAL_SIZE.
Proof.
  unfold MAX_VAL_SIZE. destruct v; cbn [key_ok key_image]; intros H; try done; cbn [length]; rewrite ?length_app, ?length_to_le; try lia.
  unfold MAX_VAL_SIZE in H. lia.
Qed.

Lemma serialize_key v : key_ok v → serialize_value v (replicate MAX_VAL_SIZE 0%Z) = Ok (key_bytes v).
Proof.
  intros H. pose proof (key_image_length v H) as [_ Hl]. unfold key_bytes. rewrite <- splice_zeros by lia.
  destruct v; try done; cbn [serialize_value key_image] in *;
    try (refine (write_two MAX_VAL_SIZE _ [] _ _); cbn [length] in *; rewrite ?length_to_le in *; lia).
  destruct H as (_ & Hs & _). cbn [length] in Hl. rewrite length_app, length_to_le in Hl.
  rewrite write_at_ok by (rewrite length_replicate; unfold MAX_VAL_SIZE; cbn; lia). cbn [outcome_bind].
  rewrite decide_False by lia.
  assert (write_at (splice (replicate MAX_VAL_SIZE 0%Z) 0 [1%Z]) 1 (to_le 4 (Z.of_nat (length s)))
          = Ok (splice (replicate MAX_VAL_SIZE 0%Z) 0 (1%Z :: to_le 4 (Z.of_nat (length s))))) as ->.
  { pose proof (write_two MAX_VAL_SIZE 1%Z [] (to_le 4 (Z.of_nat (length s)))) as Hw.
    rewrite write_at_ok in Hw by (rewrite length_replicate; unfold MAX_VAL_SIZE; cbn; lia). cbn [outcome_bind] in Hw.
    apply Hw. rewrite length_to_le. unfold MAX_VAL_SIZE. cbn. lia. }
  cbn [outcome_bind].
  pose proof (write_two MAX_VAL_SIZE 1%Z (to_le 4 (Z.of_nat (length s))) s) as Hw.
  rewrite write_at_ok in Hw by (rewrite length_replicate; cbn [length]; rewrite length_to_le; unfold MAX_VAL_SIZE; lia).
  cbn [outcome_bind] in Hw. replace (length (1%Z :: to_le 4 (Z.of_nat (length s)))) with 5 in Hw
    by (cbn [length]; by rewrite length_to_le). apply Hw. unfold MAX_VAL_SIZE in *. lia.
Qed.

Lemma key_bytes_length v : key_ok v → length (key_bytes v) = MAX_VAL_SIZE.
Proof. intros H. pose proof (key_image_length v H). unfold key_bytes. rewrite length_app, length_replicate. lia. Qed.

Lemma key_bytes_ok v : key_ok v → bytes_ok (key_bytes v).
Proof.
  intros H. apply bytes_ok_app. split; [|by apply bytes_ok_replicate].
  destruct v; try done; cbn [key_image]; (apply List.Forall_cons; [done|]); try apply to_le_bytes_ok.
  - apply bytes_ok_app. split; [apply to_le_bytes_ok|apply H].
  - by destruct b; repeat constructor.
Qed.

(** The payload behind the tag. *)
Lemma key_payload (tag : Z) (s z : list Z) n : length s = n → slice ((tag :: s) ++ z) 1 (1 + n) = s.
Proof. intros <-. cbn [app]. unfold slice. cbn [drop]. replace (1 + length s - 1) with (length s) by lia. apply take_app_length. Qed.

Lemma of_le_i32 d : (- 2 ^ 31 ≤ d < 2 ^ 31)%Z → i32_of (of_le (to_le 4 d)) = d.
Proof.
  intros Hd. rewrite of_le_to_le. unfold i32_of. change (8 * Z.of_nat 4)%Z with 32%Z.
  destruct (decide (0 ≤ d)%Z).
  - rewrite Z.mod_small by lia. rewrite decide_True by lia. done.
  - replace (d mod 2 ^ 32)%Z with (d + 2 ^ 32)%Z.
    + rewrite decide_False by lia. lia.
    + symmetry. rewrite <- (Z.mod_add d 1) by lia. apply Z.mod_small. lia.
Qed.

Lemma deserialize_key v : key_ok v → deserialize_value (key_bytes v) = Ok v.
Proof.
  intros H. pose proof (key_bytes_length v H) as Hl. unfold key_bytes in *. set (z := replicate _ _) in *. clearbody z.
  assert (∀ m, m ≤ MAX_VAL_SIZE → ¬ (length (key_image v ++ z) < m)) as Hlen by (intros m; lia).
  unfold MAX_VAL_SIZE in Hlen.
  destruct v; try done; cbn [key_image] in *; unfold HashIndex.deserialize_value; cbn [app];
    change (?a :: ?b ++ z) with ((a :: b) ++ z);
    repeat first [rewrite (decide_True (P := (_ = _)%Z)) by done | rewrite (decide_False (P := (_ = _)%Z)) by done].
  - rewrite decide_False by (apply Hlen; lia).
    replace (of_le (slice ((1%Z :: to_le 4 (Z.of_nat (length s)) ++ s) ++ z) 1 5)) with (Z.of_nat (length s)).
    2: { replace ((1%Z :: to_le 4 (Z.of_nat (length s)) ++ s) ++ z) with ((1%Z :: to_le 4 (Z.of_nat (length s))) ++ (s ++ z))
           by (cbn [app]; by rewrite app_assoc).
         rewrite (key_payload 1%Z _ _ 4) by apply length_to_le. rewrite of_le_to_le_id; [done|].
         destruct H as (_ & Hs & _). unfold MAX_VAL_SIZE in Hs. lia. }
    rewrite Nat2Z.id. destruct H as (_ & Hs & Hu). rewrite decide_False.
    2: { unfold MAX_VAL_SIZE in *. apply Hlen. lia. }
    do 2 f_equal. transitivity (from_utf8_lossy s); [f_equal|done].
    cbn [app]. unfold slice. change (drop 5 (1%Z :: ?l)) with (drop 4 l).
    rewrite <- app_assoc. rewrite drop_app_length' by (by rewrite length_to_le).
    replace (5 + length s - 5) with (length s) by lia. apply take_app_length.
  - rewrite decide_False by (apply Hlen; lia). rewrite (key_payload 0%Z _ _ 8) by apply length_to_le.
    by rewrite of_le_to_le_id.
  - rewrite decide_False by (apply Hlen; lia). by destruct b.
  - rewrite decide_False by (apply Hlen; lia). rewrite (key_payload 3%Z _ _ 8) by apply length_to_le.
    by rewrite of_le_to_le_id.
  - rewrite decide_False by (apply Hlen; lia). rewrite (key_payload 4%Z _ _ 8) by apply length_to_le.
    by rewrite of_le_to_le_id.
  - rewrite decide_False by (apply Hlen; lia). rewrite (key_payload 5%Z _ _ 4) by apply length_to_le.
    by rewrite of_le_i32.
  - rewrite decide_False by (apply Hlen; lia). rewrite (key_payload 6%Z _ _ 8) by apply length_to_le.
    rewrite of_le_to_le. do 2 f_equal. change (2 ^ (8 * Z.of_nat 8))%Z with (2 ^ 64)%Z. by apply u64_as_i64_wrap.
Qed.

Lemma value_eq_key v w : key_ok v → value_eq v w = true ↔ v = w.
Proof.
  intros H. split.
  - destruct v, w; try done; cbn [value_eq]; intros E; apply bool_decide_eq_true in E; congruence.
  - intros <-. destruct v; try done; cbn [value_eq]; by apply bool_decide_eq_true.
Qed.

Lemma value_eq_key_r v w : key_ok w → value_eq v w = true ↔ v = w.
Proof.
  intros H. split.
  - destruct v, w; try done; cbn [value_eq]; intros E; apply bool_decide_eq_true in E; congruence.
  - intros ->. destruct w; try done; cbn [value_eq]; by apply bool_decide_eq_true.
Qed.

(** ** Hashes *)

Lemma compute_hash_range v : (0 ≤ compute_hash v < 2 ^ 63)%Z.
Proof.
  unfold HashIndex.compute_hash. change (u64_not DELETED_BIT) with (Z.ones 63).
  rewrite Z.land_ones by lia. apply Z.mod_pos_bound. lia.
Qed.

Lemma deleted_testbit h : deleted h = Z.testbit h 63.
Proof. by apply land_bit. Qed.

Lemma live_hash v : deleted (compute_hash v) = false.
Proof. rewrite deleted_testbit. pose proof (compute_hash_range v). apply (testbit_wrap_high _ 63); lia. Qed.

Lemma dead_hash v : deleted (Z.lor (compute_hash v) DELETED_BIT) = true.
Proof. rewrite deleted_testbit, Z.lor_spec. apply orb_true_r. Qed.

Lemma dead_hash_u64 v : is_u64 (Z.lor (compute_hash v) DELETED_BIT).
Proof.
  pose proof (compute_hash_range v). assert (0 ≤ Z.lor (compute_hash v) DELETED_BIT)%Z as H0 by (apply Z.lor_nonneg; split; [lia|done]).
  split; [done|]. apply bits_bound; [lia|done|].
  intros i Hi. rewrite Z.lor_spec. change DELETED_BIT with (2 ^ 63)%Z. rewrite Z.pow2_bits_false by lia.
  rewrite orb_false_r. apply (testbit_wrap_high _ 63); lia.
Qed.

(** ** Entries and pages *)

Record entry := mkEntry { e_key : Value; e_row : Z; e_dead : bool }.

Definition entry_ok (e : entry) : Prop := key_ok (e_key e) ∧ is_u64 (e_row e).
Definition stored_hash (e : entry) : Z :=
  if e_dead e then Z.lor (compute_hash (e_key e)) DELETED_BIT else compute_hash (e_key e).
Definition entry_bytes (e : entry) : list Z :=
  to_le 8 (stored_hash e) ++ key_bytes (e_key e) ++ to_le 8 (e_row e).

Lemma stored_hash_u64 e : is_u64 (stored_hash e).
Proof.
  unfold stored_hash. destruct (e_dead e); [apply dead_hash_u64|]. pose proof (compute_hash_range (e_key e)). unfold is_u64. lia.
Qed.

Lemma entry_bytes_length e : entry_ok e → length (entry_bytes e) = ENTRY_SIZE.
Proof. intros [Hk _]. unfold entry_bytes. by rewrite !length_app, !length_to_le, key_bytes_length. Qed.

(** A page with this overflow link that holds these entries. *)
Record page_rep (pg : list Z) (next : Z) (es : list entry) : Prop := {
  pr_length : length pg = PAGE_SIZE;
  pr_bytes : bytes_ok pg;
  pr_next : of_le (slice pg 0 8) = next;
  pr_count : of_le (slice pg 8 16) = Z.of_nat (length es);
  pr_room : length es ≤ 15;
  pr_ok : Forall entry_ok es;
  pr_entry : ∀ i e, es !! i = Some e → slice pg (entry_off i) (entry_off i + ENTRY_SIZE) = entry_bytes e;
}.

Lemma entry_off_bound i : i < 15 → entry_off i + ENTRY_SIZE ≤ PAGE_SIZE.
Proof. intros. pose proof PAGE_SIZE_val. unfold entry_off, ENTRY_SIZE, MAX_VAL_SIZE. lia. Qed.

Section page.
Context {pg : list Z} {next : Z} {es : list entry} (Hpg : page_rep pg next es).

Lemma page_next : get_u64 pg 0 = Ok next.
Proof. pose proof PAGE_SIZE_val. destruct Hpg. rewrite get_u64_ok by lia. by f_equal. Qed.

Lemma page_count : get_u64 pg 8 = Ok (Z.of_nat (length es)).
Proof. pose proof PAGE_SIZE_val. destruct Hpg. rewrite get_u64_ok by lia. by f_equal. Qed.

Lemma entry_part i e a b : es !! i = Some e → a ≤ b → b ≤ ENTRY_SIZE →
  slice pg (entry_off i + a) (entry_off i + b) = slice (entry_bytes e) a b.
Proof.
  intros He Hab Hb. pose proof (lookup_lt_Some _ _ _ He) as Hi. destruct Hpg as [Hl _ _ _ Hr _ Hent].
  rewrite <- (Hent i e He). pose proof (entry_off_bound i ltac:(lia)).
  rewrite slice_slice by lia. done.
Qed.

Lemma entry_in_page i e : es !! i = Some e → entry_off i + ENTRY_SIZE ≤ length pg ∧ entry_ok e.
Proof.
  intros He. pose proof (lookup_lt_Some _ _ _ He) as Hi. destruct Hpg as [Hl _ _ _ Hr Hok _]. split.
  - rewrite Hl. apply entry_off_bound. lia.
  - rewrite Forall_lookup in Hok. by eapply Hok.
Qed.

Lemma read_hash i e : es !! i = Some e → get_u64 pg (entry_off i) = Ok (stored_hash e).
Proof.
  intros He. destruct (entry_in_page i e He) as [Hin Hok]. unfold ENTRY_SIZE, MAX_VAL_SIZE in Hin.
  rewrite get_u64_ok by lia. f_equal. rewrite <- (Nat.add_0_r (entry_off i)) at 1.
  rewrite (entry_part i e 0 8 He) by (unfold ENTRY_SIZE, MAX_VAL_SIZE; lia).
  unfold entry_bytes. rewrite slice_app_l by (by rewrite length_to_le).
  replace 8 with (length (to_le 8 (stored_hash e))) at 1 by apply length_to_le. rewrite slice_all.
  rewrite of_le_to_le_id; [done|apply stored_hash_u64].
Qed.

Lemma read_key i e : es !! i = Some e →
  slice_get pg (entry_off i + 8) (entry_off i + 8 + MAX_VAL_SIZE) = Ok (key_bytes (e_key e)).
Proof.
  intros He. destruct (entry_in_page i e He) as [Hin [Hk _]]. unfold ENTRY_SIZE in Hin.
  rewrite slice_get_ok by lia. f_equal. rewrite <- Nat.add_assoc.
  rewrite (entry_part i e 8 (8 + MAX_VAL_SIZE) He) by (unfold ENTRY_SIZE; lia).
  unfold entry_bytes. rewrite slice_app_r by (by rewrite length_to_le). rewrite length_to_le.
  replace (8 + MAX_VAL_SIZE - 8) with MAX_VAL_SIZE by lia. rewrite slice_app_l by (by rewrite key_bytes_length).
  rewrite <- (key_bytes_length _ Hk) at 1. apply slice_all.
Qed.

Lemma read_row i e : es !! i = Some e → get_u64 pg (entry_off i + 8 + MAX_VAL_SIZE) = Ok (e_row e).
Proof.
  intros He. destruct (entry_in_page i e He) as [Hin [Hk Hr]]. unfold ENTRY_SIZE in Hin.
  rewrite get_u64_ok by lia. f_equal. rewrite <- !Nat.add_assoc.
  rewrite (entry_part i e (8 + MAX_VAL_SIZE) (8 + (MAX_VAL_SIZE + 8)) He) by (unfold ENTRY_SIZE; lia).
  unfold entry_bytes. rewrite app_assoc. rewrite slice_app_r by (rewrite length_app, length_to_le, key_bytes_length by done; lia).
  rewrite length_app, length_to_le, key_bytes_length by done. rewrite Nat.sub_diag.
  replace (8 + (MAX_VAL_SIZE + 8) - (8 + MAX_VAL_SIZE)) with (length (to_le 8 (e_row e))) by (rewrite length_to_le; lia).
  rewrite slice_all. by apply of_le_to_le_id.
Qed.

(** *** Scans *)

Lemma deleted_stored e : deleted (stored_hash e) = e_dead e.
Proof. unfold stored_hash. destruct (e_dead e); [apply dead_hash|apply live_hash]. Qed.

Lemma stored_live e : e_dead e = false → stored_hash e = compute_hash (e_key e).
Proof. unfold stored_hash. by intros ->. Qed.

Definition live_for (key : Value) (e : entry) : bool := negb (e_dead e) && value_eq (e_key e) key.
Definition rows_of (key : Value) (l : list entry) : list Z := map e_row (filter (λ e, live_for key e = true) l).
Definition limited {A} (limit : option nat) (l : list A) : list A := match limit with Some n => take n l | None => l end.

Lemma rows_cons key e l : rows_of key (e :: l) = (if live_for key e then [e_row e] else []) ++ rows_of key l.
Proof. unfold rows_of. rewrite filter_cons. destruct (live_for key e); [by rewrite decide_True|by rewrite decide_False]. Qed.

Lemma rows_app key l m : rows_of key (l ++ m) = rows_of key l ++ rows_of key m.
Proof. unfold rows_of. by rewrite list.filter_app, map_app. Qed.

Lemma scan_entries_spec key limit n i res : i + n = length es → limited limit res = res →
  scan_entries from_utf8_lossy n i pg (compute_hash key) key limit res = Ok (limited limit (res ++ rows_of key (drop i es))).
Proof.
  revert i res. induction n as [|n IH]; intros i res Hn Hres.
  { cbn [scan_entries]. rewrite drop_ge by lia. unfold rows_of. cbn. by rewrite app_nil_r, Hres. }
  cbn [scan_entries]. destruct (match limit with Some l => _ | None => _ end) eqn:Hlim.
  { destruct limit as [l|]; [|done]. apply bool_decide_eq_true in Hlim. cbn [limited] in *. f_equal.
    rewrite take_app_le by lia. done. }
  assert (∀ r, limited limit (res ++ [r]) = res ++ [r]) as Hadd.
  { intros r. destruct limit as [l|]; [|done]. apply bool_decide_eq_false in Hlim. cbn. apply take_ge. rewrite length_app. cbn. lia. }
  destruct (lookup_lt_is_Some_2 es i ltac:(lia)) as [e He]. rewrite (drop_S es e i He), rows_cons.
  rewrite (read_hash i e He). cbn [outcome_bind]. rewrite deleted_stored.
  unfold live_for. destruct (e_dead e) eqn:Hd; cbn [negb andb app]; [apply IH; [lia|done]|].
  rewrite (stored_live e Hd). destruct (entry_in_page i e He) as [_ [Hk _]].
  destruct (decide (compute_hash (e_key e) = compute_hash key)) as [_|Hne].
  - rewrite (read_key i e He). cbn [outcome_bind]. rewrite deserialize_key by done. cbn [outcome_bind].
    destruct (value_eq (e_key e) key); [|apply IH; [lia|done]].
    rewrite (read_row i e He). cbn [outcome_bind]. rewrite IH by (lia || done). by rewrite <- app_assoc.
  - destruct (value_eq (e_key e) key) eqn:Heq; [|apply IH; [lia|done]].
    apply value_eq_key in Heq; [|done]. congruence.
Qed.

Lemma scan_page_spec key limit res : limited limit res = res →
  scan_bucket_page from_utf8_lossy pg (compute_hash key) key limit res = Ok (limited limit (res ++ rows_of key es)).
Proof.
  intros Hres. unfold scan_bucket_page. rewrite page_count. cbn [outcome_bind]. rewrite Nat2Z.id.
  rewrite scan_entries_spec by done. by rewrite drop_0.
Qed.

Definition matches (key : Value) (row : Z) (e : entry) : Prop := live_for key e = true ∧ e_row e = row.

Lemma find_entry_spec key row n i : i + n = length es →
  find_entry from_utf8_lossy n i pg (compute_hash key) key row
  = Ok ((λ je : nat * entry, entry_off (i + je.1)) <$> list_find (matches key row) (drop i es)).
Proof.
  revert i. induction n as [|n IH]; intros i Hn.
  { cbn [find_entry]. rewrite drop_ge by lia. done. }
  cbn [find_entry]. destruct (lookup_lt_is_Some_2 es i ltac:(lia)) as [e He].
  rewrite (drop_S es e i He). cbn [list_find].
  assert (∀ o : option (nat * entry), (λ je : nat * entry, entry_off (S i + je.1)) <$> o
           = (λ je : nat * entry, entry_off (i + je.1)) <$> (prod_map S id <$> o)) as Hshift.
  { intros [[j x]|]; cbn; [|done]. do 2 f_equal. lia. }
  rewrite (read_hash i e He). cbn [outcome_bind]. rewrite deleted_stored. destruct (entry_in_page i e He) as [_ [Hk _]].
  assert (live_for key e = negb (e_dead e) && value_eq (e_key e) key) as Hlive by done.
  destruct (e_dead e) eqn:Hd; cbn [negb andb] in Hlive.
  { rewrite (decide_False (P := matches key row e)) by (intros [? _]; congruence). rewrite IH by lia. by rewrite Hshift. }
  rewrite (stored_live e Hd). destruct (decide (compute_hash (e_key e) = compute_hash key)) as [_|Hne].
  - rewrite (read_key i e He). cbn [outcome_bind]. rewrite deserialize_key by done. cbn [outcome_bind].
    destruct (value_eq (e_key e) key).
    + rewrite (read_row i e He). cbn [outcome_bind]. destruct (decide (e_row e = row)) as [Hr|Hr].
      * rewrite (decide_True (P := matches key row e)) by done. cbn. by rewrite Nat.add_0_r.
      * rewrite (decide_False (P := matches key row e)) by (intros [_ ?]; done). rewrite IH by lia. by rewrite Hshift.
    + rewrite (decide_False (P := matches key row e)) by (intros [? _]; congruence). rewrite IH by lia. by rewrite Hshift.
  - rewrite (decide_False (P := matches key row e)).
    + rewrite IH by lia. by rewrite Hshift.
    + intros [Heq _]. rewrite Hlive in Heq. apply value_eq_key in Heq; [|done]. congruence.
Qed.

(** *** Updates *)

Lemma page_link q : is_u64 q → page_rep (splice pg 0 (to_le 8 q)) q es.
Proof.
  intros Hq. pose proof PAGE_SIZE_val. destruct Hpg as [Hl Hb Hn Hc Hr Hok Hent].
  assert (0 + length (to_le 8 q) ≤ length pg) as Hin by (rewrite length_to_le; lia).
  constructor; try done.
  - by rewrite length_splice.
  - apply bytes_ok_splice; [done|apply to_le_bytes_ok].
  - replace 8 with (0 + length (to_le 8 q)) at 2 by (by rewrite length_to_le). rewrite slice_splice_same by done.
    by apply of_le_to_le_id.
  - intros i e He. rewrite slice_splice_other; [by apply Hent|done|right; rewrite length_to_le; unfold entry_off; lia|].
    pose proof (lookup_lt_Some _ _ _ He). rewrite Hl. apply entry_off_bound. lia.
Qed.

Lemma page_append e : length es < 15 → entry_ok e →
  page_rep (splice (splice pg (entry_off (length es)) (entry_bytes e)) 8 (to_le 8 (Z.of_nat (length es) + 1))) next (es ++ [e]).
Proof.
  intros Hlt Hok. pose proof PAGE_SIZE_val. destruct Hpg as [Hl Hb Hn Hc Hr Hall Hent].
  pose proof (entry_off_bound (length es) Hlt) as Hoff. pose proof (entry_bytes_length e Hok) as He.
  assert (entry_off (length es) + length (entry_bytes e) ≤ length pg) as Hin by lia.
  set (p1 := splice pg _ _) in *. assert (length p1 = PAGE_SIZE) as Hl1 by (unfold p1; by rewrite length_splice).
  assert (16 ≤ entry_off (length es)) as H16 by (unfold entry_off; lia).
  set (w := to_le 8 _). assert (length w = 8) as Hw by apply length_to_le.
  assert (8 + length w ≤ length p1) as Hin1 by lia.
  constructor; rewrite ?length_app.
  - rewrite length_splice; lia.
  - apply bytes_ok_splice; [apply bytes_ok_splice; [done|]|apply to_le_bytes_ok].
    unfold entry_bytes. apply bytes_ok_app. split; [apply to_le_bytes_ok|]. apply bytes_ok_app.
    split; [apply key_bytes_ok, Hok|apply to_le_bytes_ok].
  - rewrite slice_splice_other by (done || lia). unfold p1. rewrite slice_splice_other; [done|done|lia|lia].
  - replace 16 with (8 + length w) by lia. rewrite slice_splice_same by done. unfold w. rewrite of_le_to_le_id; [cbn [length]; lia|lia].
  - cbn [length]. lia.
  - apply Forall_app. split; [done|]. apply List.Forall_cons; [done|apply List.Forall_nil].
  - intros i x Hx. assert (slice (splice p1 8 w) (entry_off i) (entry_off i + ENTRY_SIZE) = slice p1 (entry_off i) (entry_off i + ENTRY_SIZE)) as ->.
    { apply slice_splice_other; [done|right; unfold entry_off; lia|]. apply lookup_lt_Some in Hx. rewrite length_app in Hx.
      rewrite Hl1. apply entry_off_bound. cbn [length] in Hx. lia. }
    apply lookup_app_Some in Hx as [Hx|[Hge Hx]].
    + pose proof (lookup_lt_Some _ _ _ Hx). unfold p1. rewrite slice_splice_other; [by apply Hent|done|left; unfold entry_off; nia|].
      rewrite Hl. apply entry_off_bound. lia.
    + apply list_lookup_singleton_Some in Hx as [Hi <-]. assert (i = length es) as -> by lia.
      unfold p1. rewrite <- He at 1. by apply slice_splice_same.
Qed.

Definition kill (e : entry) : entry := mkEntry (e_key e) (e_row e) true.

Lemma page_kill i e : es !! i = Some e →
  page_rep (splice pg (entry_off i) (to_le 8 (Z.lor (compute_hash (e_key e)) DELETED_BIT))) next (<[i := kill e]> es).
Proof.
  intros He. pose proof PAGE_SIZE_val. pose proof (entry_in_page i e He) as [Hin Hoke].
  pose proof (lookup_lt_Some _ _ _ He) as Hi.
  destruct Hpg as [Hl Hb Hn Hc Hr Hall Hent]. set (w := to_le 8 _). assert (length w = 8) as Hw by apply length_to_le.
  assert (ENTRY_SIZE = 272) as HE by done.
  assert (entry_off i + length w ≤ length pg) as Hin' by lia. assert (16 ≤ entry_off i) as H16 by (unfold entry_off; lia).
  constructor; rewrite ?length_insert; try done.
  - rewrite length_splice; lia.
  - apply bytes_ok_splice; [done|apply to_le_bytes_ok].
  - rewrite slice_splice_other; [done|done|left; lia|lia].
  - rewrite slice_splice_other; [done|done|left; lia|lia].
  - apply Forall_insert; [done|]. exact Hoke.
  - intros j x Hx. assert (j < length es) as Hj by (apply lookup_lt_Some in Hx; by rewrite length_insert in Hx).
    pose proof (entry_off_bound j ltac:(lia)) as Hoffj. destruct (decide (i = j)) as [<-|Hne].
    + rewrite list_lookup_insert_eq in Hx by done. injection Hx as <-.
      rewrite (slice_split _ (entry_off i) (entry_off i + 8)) by lia.
      rewrite <- Hw at 1. rewrite slice_splice_same by done. rewrite slice_splice_other; [|done|right; lia|lia].
      replace (slice pg (entry_off i + 8) (entry_off i + ENTRY_SIZE)) with (slice (entry_bytes e) 8 ENTRY_SIZE)
        by (symmetry; apply entry_part; [done|lia|lia]).
      unfold entry_bytes at 1. rewrite slice_app_r by (by rewrite length_to_le).
      rewrite length_to_le. unfold entry_bytes, kill, stored_hash. cbn [e_dead e_key e_row]. f_equal.
      destruct Hoke as [Hk _]. assert (length (key_bytes (e_key e) ++ to_le 8 (e_row e)) = ENTRY_SIZE - 8) as HL
        by (rewrite length_app, length_to_le, key_bytes_length by done; done).
      rewrite <- HL. cbn [Nat.sub]. apply slice_all.
    + rewrite list_lookup_insert_ne in Hx by done.
      rewrite slice_splice_other; [by apply Hent|done| |lia]. rewrite Hw. unfold entry_off in *.
      destruct (decide (i < j)); [right|left]; nia.
Qed.
End page.

Lemma zero_page_rep : page_rep zero_page 0 [].
Proof.
  pose proof PAGE_SIZE_val. assert (length zero_page = PAGE_SIZE) as Hl by apply length_replicate.
  assert (∀ a b, b ≤ PAGE_SIZE → of_le (slice zero_page a b) = 0%Z) as Hz.
  { intros a b Hb. unfold slice, zero_page. rewrite drop_replicate, take_replicate.
    generalize (Nat.min (b - a) (PAGE_SIZE - a)). intros n. induction n as [|n IH]; [done|].
    change (Z.lor 0 (Z.shiftl (of_le (replicate n 0%Z)) 8) = 0%Z). by rewrite IH. }
  constructor; [exact Hl|by apply bytes_ok_replicate|apply Hz; lia|rewrite Hz by lia; done|cbn; lia|constructor|done].
Qed.

(** The whole entry is written by three adjacent copies, then the count. *)
Lemma write_entry_spec pg next es e : page_rep pg next es → entry_ok e → e_dead e = false → length es < 15 →
  write_entry_to_page pg (Z.of_nat (length es)) (compute_hash (e_key e)) (key_bytes (e_key e)) (e_row e)
  = Ok (splice (splice pg (entry_off (length es)) (entry_bytes e)) 8 (to_le 8 (Z.of_nat (length es) + 1))).
Proof.
  intros Hpg [Hk Hr] Hd Hlt. pose proof PAGE_SIZE_val. pose proof (entry_off_bound (length es) Hlt) as Hoff.
  pose proof (pr_length _ _ _ Hpg) as Hl. pose proof (key_bytes_length _ Hk) as Hkl.
  unfold write_entry_to_page. rewrite Nat2Z.id. set (off := entry_off (length es)) in *.
  assert (ENTRY_SIZE = 8 + MAX_VAL_SIZE + 8) as HE by done.
  rewrite decide_False by lia. rewrite set_u64_ok by lia. cbn [outcome_bind].
  rewrite decide_False by (intros []; done).
  set (w1 := to_le 8 (compute_hash (e_key e))). assert (length w1 = 8) as Hw1 by apply length_to_le.
  assert (length (splice pg off w1) = PAGE_SIZE) as Hl1 by (rewrite length_splice; lia).
  rewrite write_at_ok by lia. cbn [outcome_bind].
  replace (splice (splice pg off w1) (off + 8) (key_bytes (e_key e))) with (splice pg off (w1 ++ key_bytes (e_key e))).
  2: { rewrite <- Hw1. symmetry. apply splice_splice_adjacent. lia. }
  set (w2 := w1 ++ key_bytes (e_key e)). assert (length w2 = 8 + MAX_VAL_SIZE) as Hw2 by (unfold w2; rewrite length_app; lia).
  assert (length (splice pg off w2) = PAGE_SIZE) as Hl2 by (rewrite length_splice; lia).
  rewrite set_u64_ok by lia. cbn [outcome_bind].
  replace (splice (splice pg off w2) (off + 8 + MAX_VAL_SIZE) (to_le 8 (e_row e))) with (splice pg off (w2 ++ to_le 8 (e_row e))).
  2: { rewrite <- Nat.add_assoc, <- Hw2. symmetry. apply splice_splice_adjacent. rewrite length_to_le. lia. }
  rewrite set_u64_ok by (rewrite length_splice; rewrite ?length_app, ?length_to_le; lia).
  do 3 f_equal. unfold entry_bytes, stored_hash, w2. rewrite Hd. by rewrite <- app_assoc.
Qed.

(** ** Bucket chains *)

Inductive chain_rep (f : pages) : Z → list Z → list entry → Prop :=
| chain_last p es : page_rep (page_at f p) 0 es → chain_rep f p [p] es
| chain_more p q ps es1 es2 :
    q ≠ 0%Z → page_rep (page_at f p) q es1 → length es1 = 15 → chain_rep f q ps es2 →
    chain_rep f p (p :: ps) (es1 ++ es2).

Lemma chain_frame f f' p ps es :
  (∀ q, q ∈ ps → page_at f' q = page_at f q) → chain_rep f p ps es → chain_rep f' p ps es.
Proof.
  intros Hsame Hc. induction Hc as [p es Hpg|p q ps es1 es2 Hq Hpg Hl Hc IH].
  - apply chain_last. rewrite Hsame by left. done.
  - eapply chain_more; [done| |done|].
    + rewrite Hsame by left. done.
    + apply IH. intros r Hr. apply Hsame. by right.
Qed.

Lemma chain_head f p ps es : chain_rep f p ps es → p ∈ ps ∧ 1 ≤ length ps.
Proof. intros []; (split; [left|cbn; lia]). Qed.

Lemma limited_app {A} limit (l m : list A) : limited limit (limited limit l ++ m) = limited limit (l ++ m).
Proof.
  destruct limit as [n|]; [|done]. cbn. rewrite !take_app, take_take, Nat.min_id, length_take.
  f_equal. destruct (decide (length l ≤ n)); [f_equal; lia|]. by replace (n - n `min` length l) with (n - length l) by lia.
Qed.

Lemma limited_idemp {A} limit (l : list A) : limited limit (limited limit l) = limited limit l.
Proof. destruct limit as [n|]; [|done]. cbn. by rewrite take_take, Nat.min_id. Qed.

Lemma lookup_loop_spec fuel f p ps es key limit res :
  chain_rep f p ps es → length ps ≤ fuel → limited limit res = res →
  lookup_loop from_utf8_lossy fuel f (compute_hash key) key limit res p = Some (Ok (limited limit (res ++ rows_of key es))).
Proof.
  intros Hc. revert fuel res. induction Hc as [p es Hpg|p q ps es1 es2 Hq Hpg Hl Hc IH]; intros fuel res Hf Hres;
    (destruct fuel as [|fuel]; [cbn in Hf; lia|]); cbn [lookup_loop].
  - rewrite (scan_page_spec Hpg) by done. rewrite (page_next Hpg). by rewrite decide_True.
  - rewrite (scan_page_spec Hpg) by done. rewrite (page_next Hpg). rewrite decide_False by done.
    rewrite IH; [|cbn in Hf; lia|apply limited_idemp]. by rewrite limited_app, rows_app, app_assoc.
Qed.

Lemma max_entries : MAX_ENTRIES_PER_PAGE = 15%Z.
Proof. done. Qed.

Lemma insert_loop_spec fuel f p ps es e :
  chain_rep f p ps es → entry_ok e → e_dead e = false → NoDup ps → (∀ q, q ∈ ps → q ≠ pg_num f) →
  (0 < pg_num f < 2 ^ 63)%Z → length ps < fuel →
  ∃ f' ps', insert_loop fuel f (compute_hash (e_key e)) (Ok (key_bytes (e_key e))) (e_row e) p = Some (f', Ok tt) ∧
    chain_rep f' p ps' (es ++ [e]) ∧ (∀ q, q ∉ ps' → page_at f' q = page_at f q) ∧
    (ps' = ps ∧ pg_num f' = pg_num f ∨ ps' = ps ++ [pg_num f] ∧ pg_num f' = (pg_num f + 1)%Z).
Proof.
  intros Hc Hok Hd. revert fuel. induction Hc as [p es Hpg|p q ps es1 es2 Hq Hpg Hl Hc IH]; intros fuel Hnd Hnew Hnum Hf;
    (destruct fuel as [|fuel]; [cbn in Hf; lia|]); cbn [insert_loop]; rewrite (page_count Hpg), max_entries.
  - destruct (decide (Z.of_nat (length es) < 15)%Z) as [Hlt|Hge].
    + cbn [outcome_bind]. rewrite (write_entry_spec _ _ _ _ Hpg) by (done || lia).
      eexists _, [p]. split; [done|]. split; [|split; [|by left]].
      * apply chain_last. rewrite page_at_put. apply (page_append Hpg); [lia|done].
      * intros q Hq. apply page_at_put_ne. intros ->. apply Hq. left.
    + rewrite (page_next Hpg). rewrite decide_True by done. cbn [allocate_overflow_page add_new_page].
      set (n := pg_num f) in *. set (f1 := put_page (mkPages (pg_data f) (n + 1)) n zero_page).
      assert (p ≠ n) as Hpn by (apply Hnew; left).
      assert (page_at f1 p = page_at f p) as E1 by (unfold f1; rewrite page_at_put_ne by done; done).
      rewrite E1. pose proof PAGE_SIZE_val. rewrite set_u64_ok by (rewrite (pr_length _ _ _ Hpg); lia).
      set (f2 := put_page f1 p _). destruct fuel as [|fuel]; [cbn in Hf; lia|]. cbn [insert_loop].
      assert (page_at f2 n = zero_page) as E2 by (unfold f2, f1; rewrite page_at_put_ne, page_at_put by done; done).
      rewrite E2. rewrite (page_count zero_page_rep). rewrite max_entries. cbn [length]. rewrite decide_True by lia.
      cbn [outcome_bind]. rewrite (write_entry_spec _ _ _ _ zero_page_rep) by (done || cbn; lia).
      pose proof (pr_room _ _ _ Hpg). eexists _, [p; n]. split; [done|]. split; [|split; [|right; done]].
      * apply (chain_more _ p n [n] es [e]); [lia| |lia|].
        -- rewrite page_at_put_ne by done. unfold f2. rewrite page_at_put. apply (page_link Hpg). unfold is_u64. lia.
        -- apply chain_last. rewrite page_at_put. apply (page_append zero_page_rep); [cbn; lia|done].
      * intros q Hq. assert (q ≠ p ∧ q ≠ n) as [??] by (split; intros ->; apply Hq; [left|right; left]).
        rewrite page_at_put_ne by done. unfold f2, f1. rewrite !page_at_put_ne by done. done.
  - rewrite Hl. rewrite decide_False by lia. rewrite (page_next Hpg). rewrite decide_False by done.
    apply list.NoDup_cons in Hnd as [Hp Hnd].
    destruct (IH fuel Hnd) as (f' & ps' & Hrun & Hc' & Hsame & Hps); [intros r Hr; apply Hnew; by right|done|cbn in Hf; lia|].
    assert (p ∉ ps') as Hpn.
    { destruct Hps as [[-> _]|[-> _]]; [done|]. rewrite elem_of_app, list_elem_of_singleton. intros [?| ->]; [done|].
      by apply (Hnew (pg_num f)); [left|]. }
    exists f', (p :: ps'). split; [done|]. split; [|split].
    + rewrite <- app_assoc. eapply chain_more; [done|rewrite Hsame by done; done|done|done].
    + intros r Hr. apply Hsame. intros Hr'. apply Hr. by right.
    + destruct Hps as [[-> ->]|[-> ->]]; [by left|by right].
Qed.

(** *** Deletion *)

Fixpoint kill_first (key : Value) (row : Z) (l : list entry) : list entry :=
  match l with
  | [] => []
  | e :: l => if decide (matches key row e) then kill e :: l else e :: kill_first key row l
  end.
Definition has_match (key : Value) (row : Z) (l : list entry) : bool := bool_decide (Exists (matches key row) l).

Lemma kill_first_find key row l :
  match list_find (matches key row) l with
  | Some (i, e) => l !! i = Some e ∧ matches key row e ∧ has_match key row l = true ∧ kill_first key row l = <[i := kill e]> l
  | None => has_match key row l = false ∧ kill_first key row l = l
  end.
Proof.
  unfold has_match. induction l as [|e l IH]; cbn [list_find kill_first].
  { split; [|done]. apply bool_decide_eq_false. intros H. inversion H. }
  destruct (decide (matches key row e)) as [Hm|Hm].
  { split; [done|]. split; [done|]. split; [|done]. apply bool_decide_eq_true. by left. }
  destruct (list_find (matches key row) l) as [[i x]|]; cbn.
  - destruct IH as (H1 & H2 & H3 & ->). split; [done|]. split; [done|]. split; [|done].
    apply bool_decide_eq_true in H3. apply bool_decide_eq_true. by right.
  - destruct IH as [H1 ->]. split; [|done]. apply bool_decide_eq_false in H1. apply bool_decide_eq_false.
    intros H. inversion H; tauto.
Qed.

Lemma has_match_app key row l m : has_match key row (l ++ m) = has_match key row l || has_match key row m.
Proof.
  unfold has_match. destruct (bool_decide (Exists _ l)) eqn:H1; cbn [orb].
  - apply bool_decide_eq_true in H1. apply bool_decide_eq_true. rewrite Exists_app. by left.
  - apply bool_decide_eq_false in H1. apply bool_decide_ext. rewrite Exists_app. tauto.
Qed.

Lemma kill_first_app key row l m :
  kill_first key row (l ++ m) = if has_match key row l then kill_first key row l ++ m else l ++ kill_first key row m.
Proof.
  induction l as [|e l IH]; [done|]. cbn [app kill_first].
  assert (has_match key row (e :: l) = bool_decide (matches key row e) || has_match key row l) as ->.
  { change (e :: l) with ([e] ++ l). rewrite has_match_app. f_equal. unfold has_match. apply bool_decide_ext.
    split; [intros H; inversion H as [? ? H'|? ? H']; [done|inversion H']|by left]. }
  destruct (decide (matches key row e)) as [Hm|Hm].
  - rewrite bool_decide_eq_true_2 by done. done.
  - rewrite bool_decide_eq_false_2 by done. cbn [orb]. rewrite IH. by destruct (has_match key row l).
Qed.

Lemma matches_key key row e : entry_ok e → matches key row e → e_key e = key.
Proof. intros [Hk _] [Hl _]. unfold live_for in Hl. apply andb_true_iff in Hl as [_ Hl]. by apply value_eq_key in Hl. Qed.

Lemma delete_loop_spec fuel f p ps es key row :
  chain_rep f p ps es → NoDup ps → length ps ≤ fuel →
  ∃ f', delete_loop from_utf8_lossy fuel f (compute_hash key) key row p = Some (f', Ok (has_match key row es)) ∧
    chain_rep f' p ps (kill_first key row es) ∧ (∀ q, q ∉ ps → page_at f' q = page_at f q) ∧ pg_num f' = pg_num f.
Proof.
  intros Hc. revert fuel. induction Hc as [p es Hpg|p q ps es1 es2 Hq Hpg Hl Hc IH]; intros fuel Hnd Hf;
    (destruct fuel as [|fuel]; [cbn in Hf; lia|]); cbn [delete_loop];
    rewrite (page_count Hpg), (page_next Hpg); cbn [outcome_bind]; rewrite Nat2Z.id, (find_entry_spec Hpg) by done;
    rewrite drop_0; cbn [outcome_bind].
  - pose proof (kill_first_find key row es) as Hk. destruct (list_find (matches key row) es) as [[i e]|]; cbn [fmap option_fmap option_map fst].
    + destruct Hk as (He & Hm & -> & ->). destruct (entry_in_page Hpg i e He) as [Hin Hok].
      assert (ENTRY_SIZE = 272) as HE by done.
      unfold tombstone. rewrite set_u64_ok by (cbn [Nat.add]; lia). rewrite <- (matches_key _ _ _ Hok Hm).
      eexists. split; [done|]. split; [|split; [|done]].
      * apply chain_last. rewrite page_at_put. apply (page_kill Hpg i e He).
      * intros r Hr. apply page_at_put_ne. intros ->. apply Hr. left.
    + destruct Hk as [-> ->]. rewrite decide_True by done. exists f. split; [done|]. split; [by apply chain_last|done].
  - rewrite has_match_app, kill_first_app. pose proof (kill_first_find key row es1) as Hk.
    apply list.NoDup_cons in Hnd as [Hp Hnd].
    destruct (list_find (matches key row) es1) as [[i e]|]; cbn [fmap option_fmap option_map fst].
    + destruct Hk as (He & Hm & -> & ->). destruct (entry_in_page Hpg i e He) as [Hin Hok].
      assert (ENTRY_SIZE = 272) as HE by done. cbn [orb].
      unfold tombstone. rewrite set_u64_ok by (cbn [Nat.add]; lia). rewrite <- (matches_key _ _ _ Hok Hm).
      eexists. split; [done|]. split; [|split; [|done]].
      * eapply chain_more; [done|rewrite page_at_put; apply (page_kill Hpg i e He)|by rewrite length_insert|].
        eapply chain_frame; [|done]. intros r Hr. apply page_at_put_ne. intros ->. done.
      * intros r Hr. apply page_at_put_ne. intros ->. apply Hr. left.
    + destruct Hk as [-> _]. cbn [orb]. rewrite decide_False by done.
      destruct (IH fuel Hnd) as (f' & Hrun & Hc' & Hsame & Hnum); [cbn in Hf; lia|]. exists f'. split; [done|].
      split; [eapply chain_more; [done|rewrite Hsame by done; done|done|done]|]. split; [|done].
      intros r Hr. apply Hsame. intros ?. apply Hr. by right.
Qed.

(** *** What the row lists become *)

Fixpoint remove_one (row : Z) (l : list Z) : list Z :=
  match l with
  | [] => []
  | r :: l => if decide (r = row) then l else r :: remove_one row l
  end.

Lemma rows_kill_first key row l key' : Forall entry_ok l →
  rows_of key' (kill_first key row l) = if value_eq key key' then remove_one row (rows_of key' l) else rows_of key' l.
Proof.
  intros Hall. induction Hall as [|e l He Hall IH]; [by destruct (value_eq key key')|]. cbn [kill_first].
  destruct (decide (matches key row e)) as [Hm|Hm].
  - pose proof (matches_key _ _ _ He Hm) as Hk. destruct Hm as [Hl Hr]. rewrite !rows_cons.
    replace (live_for key' (kill e)) with false by done. unfold live_for at 1 2. rewrite <- Hk.
    unfold live_for in Hl. apply andb_true_iff in Hl as [-> _]. cbn [andb app].
    destruct (value_eq (e_key e) key'); cbn [app]; [|done]. cbn [remove_one]. by rewrite decide_True.
  - rewrite !rows_cons, IH. destruct (live_for key' e) eqn:Hl'; cbn [app]; [|done].
    destruct (value_eq key key') eqn:Hkk; [|done]. cbn [remove_one]. rewrite decide_False; [done|].
    intros Hr. apply Hm. split; [|done]. unfold live_for in *. apply andb_true_iff in Hl' as [-> Hv]. cbn [andb].
    destruct He as [Hok _]. apply value_eq_key in Hv; [|done]. subst key'.
    apply value_eq_key_r in Hkk; [|done]. rewrite Hkk. by apply value_eq_key.
Qed.

Lemma has_match_rows key row l : Forall entry_ok l → has_match key row l = bool_decide (row ∈ rows_of key l).
Proof.
  intros Hall. unfold has_match. apply bool_decide_ext. rewrite list.Exists_exists. unfold rows_of. split.
  - intros (e & He & Hl & Hr). rewrite <- Hr. apply (list_elem_of_fmap_2 e_row). apply list_elem_of_filter. done.
  - intros Hin. apply (list_elem_of_fmap e_row) in Hin as (e & -> & He). apply list_elem_of_filter in He as [??]. by exists e.
Qed.

Lemma Forall_kill_first key row l : Forall entry_ok l → Forall entry_ok (kill_first key row l).
Proof.
  intros Hall. induction Hall as [|e l He Hall IH]; cbn [kill_first]; [constructor|].
  destruct (decide _); constructor; done.
Qed.

Lemma kill_first_keys key row l e : e ∈ kill_first key row l → ∃ e', e' ∈ l ∧ e_key e = e_key e'.
Proof.
  induction l as [|x l IH]; cbn [kill_first]; [intros H; by apply not_elem_of_nil in H|].
  destruct (decide _); intros He; apply elem_of_cons in He as [->|He].
  - exists x. split; [left|done].
  - exists e. split; [by right|done].
  - exists x. split; [left|done].
  - destruct (IH He) as (e' & ? & ?). exists e'. split; [by right|done].
Qed.

(** ** The index *)

Record index_rep (ix : HashIndex) (bs : list (list entry)) (pss : list (list Z)) : Prop := {
  ir_buckets : 1 ≤ length bs;
  ir_length : length pss = length bs;
  ir_header : get_u64 (page_at (hi_pages ix) 0) 0 = Ok (Z.of_nat (length bs));
  ir_num : (0 < pg_num (hi_pages ix) < 2 ^ 63)%Z;
  ir_chain : ∀ b es ps, bs !! b = Some es → pss !! b = Some ps → chain_rep (hi_pages ix) (1 + Z.of_nat b) ps es;
  ir_nodup : ∀ b ps, pss !! b = Some ps → NoDup ps;
  ir_disjoint : ∀ b b' ps ps' p, pss !! b = Some ps → pss !! b' = Some ps' → p ∈ ps → p ∈ ps' → b = b';
  ir_range : ∀ b ps p, pss !! b = Some ps → p ∈ ps → (0 < p < pg_num (hi_pages ix))%Z;
  ir_home : ∀ b es e, bs !! b = Some es → e ∈ es → (compute_hash (e_key e) mod Z.of_nat (length bs) = Z.of_nat b)%Z;
}.

Definition home (bs : list (list entry)) (key : Value) : nat := Z.to_nat (compute_hash key mod Z.of_nat (length bs)).
Definition bucket (bs : list (list entry)) (key : Value) : list entry := default [] (bs !! home bs key).

Section index.
Context {ix : HashIndex} {bs : list (list entry)} {pss : list (list Z)} (Hix : index_rep ix bs pss).

Lemma home_lt key : home bs key < length bs.
Proof.
  pose proof (ir_buckets _ _ _ Hix). unfold home.
  pose proof (Z.mod_pos_bound (compute_hash key) (Z.of_nat (length bs)) ltac:(lia)). lia.
Qed.

Lemma home_page key : (1 + compute_hash key mod Z.of_nat (length bs))%Z = (1 + Z.of_nat (home bs key))%Z.
Proof.
  pose proof (ir_buckets _ _ _ Hix). unfold home.
  pose proof (Z.mod_pos_bound (compute_hash key) (Z.of_nat (length bs)) ltac:(lia)). lia.
Qed.

Lemma home_chain key : ∃ ps, pss !! home bs key = Some ps ∧ bs !! home bs key = Some (bucket bs key) ∧
  chain_rep (hi_pages ix) (1 + Z.of_nat (home bs key)) ps (bucket bs key).
Proof.
  pose proof (home_lt key) as Hlt. destruct (lookup_lt_is_Some_2 bs _ Hlt) as [es Hes].
  destruct (lookup_lt_is_Some_2 pss (home bs key)) as [ps Hps]; [rewrite (ir_length _ _ _ Hix); done|].
  exists ps. unfold bucket. rewrite Hes. cbn. split; [done|]. split; [done|]. by apply (ir_chain _ _ _ Hix).
Qed.

(** A chain has no more pages than the file. *)
Lemma chain_length b ps : pss !! b = Some ps → length ps ≤ Z.to_nat (pg_num (hi_pages ix)).
Proof.
  intros Hps. rewrite <- (length_seqZ 0 (pg_num (hi_pages ix))). apply submseteq_length. apply NoDup_submseteq.
  - by apply (ir_nodup _ _ _ Hix b).
  - intros p Hp. apply elem_of_seqZ. pose proof (ir_range _ _ _ Hix b ps p Hps Hp). lia.
Qed.

Lemma header_read : num_buckets (hi_pages ix) = Ok (Z.of_nat (length bs)).
Proof. apply (ir_header _ _ _ Hix). Qed.

Lemma lookup_multi_spec fuel key limit : Z.to_nat (pg_num (hi_pages ix)) ≤ fuel →
  lookup_multi finish from_utf8_lossy fuel ix key limit = Some (Ok (limited limit (rows_of key (bucket bs key)))).
Proof.
  intros Hf. unfold lookup_multi. rewrite header_read. pose proof (ir_buckets _ _ _ Hix).
  rewrite decide_False by lia. rewrite home_page. destruct (home_chain key) as (ps & Hps & Hes & Hc).
  rewrite (lookup_loop_spec _ _ _ ps (bucket bs key)); [done|done| |by destruct limit as [[]|]].
  pose proof (chain_length _ _ Hps). lia.
Qed.

(** Replacing one bucket's chain. *)
Lemma index_update f' key es' ps' n :
  (∀ q, q ∉ ps' → page_at f' q = page_at (hi_pages ix) q) →
  chain_rep f' (1 + Z.of_nat (home bs key)) ps' es' → pg_num f' = n → (pg_num (hi_pages ix) ≤ n < 2 ^ 63)%Z →
  NoDup ps' →
  (∀ q, q ∈ ps' → (0 < q < n)%Z ∧ (q = pg_num (hi_pages ix) ∨ ∃ ps, pss !! home bs key = Some ps ∧ q ∈ ps)) →
  (∀ e, e ∈ es' → (compute_hash (e_key e) mod Z.of_nat (length bs) = Z.of_nat (home bs key))%Z) →
  index_rep (mkIndex f' (hi_buckets ix)) (<[home bs key := es']> bs) (<[home bs key := ps']> pss).
Proof.
  intros Hsame Hc Hn Hbound Hnd Hin Hhome. pose proof (home_lt key) as Hlt. pose proof (ir_length _ _ _ Hix) as Hlen.
  pose proof (ir_num _ _ _ Hix) as Hnum. set (h := home bs key) in *.
  assert (∀ b ps, pss !! b = Some ps → b ≠ h → ∀ q, q ∈ ps → q ∉ ps') as Hother.
  { intros b ps Hps Hne q Hq Hq'. destruct (Hin q Hq') as [_ [->|(ps0 & Hps0 & Hq0)]].
    - pose proof (ir_range _ _ _ Hix b ps _ Hps Hq). lia.
    - apply Hne. by apply (ir_disjoint _ _ _ Hix b h ps ps0 q). }
  constructor; cbn [hi_pages]; rewrite ?length_insert; try apply Hix.
  - rewrite Hsame; [apply (ir_header _ _ _ Hix)|]. intros H0. destruct (Hin 0%Z H0). lia.
  - lia.
  - intros b es ps Hb Hp. destruct (decide (h = b)) as [<-|Hne].
    + rewrite list_lookup_insert_eq in Hb by done. rewrite list_lookup_insert_eq in Hp by lia. by simplify_eq.
    + rewrite list_lookup_insert_ne in Hb by done. rewrite list_lookup_insert_ne in Hp by done. eapply chain_frame; [|by apply (ir_chain _ _ _ Hix b)].
      intros q Hq. apply Hsame. by apply (Hother b ps).
  - intros b ps Hp. destruct (decide (h = b)) as [<-|Hne].
    + rewrite list_lookup_insert_eq in Hp by lia. by simplify_eq.
    + rewrite list_lookup_insert_ne in Hp by done. by apply (ir_nodup _ _ _ Hix b).
  - intros b b' ps ps'' p Hp Hp' Hq Hq'. apply list_lookup_insert_Some in Hp as [(<- & <- & _)|[Hne Hp]];
      apply list_lookup_insert_Some in Hp' as [(<- & <- & _)|[Hne' Hp']]; try done.
    + exfalso. by apply (Hother b' ps'' Hp' (not_eq_sym Hne') p).
    + exfalso. by apply (Hother b ps Hp (not_eq_sym Hne) p).
    + by apply (ir_disjoint _ _ _ Hix b b' ps ps'' p).
  - intros b ps p Hp Hq. apply list_lookup_insert_Some in Hp as [(<- & <- & _)|[Hne Hp]].
    + destruct (Hin p Hq). lia.
    + pose proof (ir_range _ _ _ Hix b ps p Hp Hq). lia.
  - intros b es e Hb He. apply list_lookup_insert_Some in Hb as [(<- & <- & _)|[Hne Hb]]; [by apply Hhome|].
    by apply (ir_home _ _ _ Hix b es).
Qed.

Lemma bucket_ok key : Forall entry_ok (bucket bs key).
Proof.
  destruct (home_chain key) as (ps & _ & _ & Hc). induction Hc as [p es Hpg|p q ps' es1 es2 _ Hpg _ _ IH].
  - apply (pr_ok _ _ _ Hpg).
  - apply Forall_app. split; [apply (pr_ok _ _ _ Hpg)|done].
Qed.

Lemma insert_spec fuel key row :
  key_ok key → is_u64 row → Z.to_nat (pg_num (hi_pages ix)) < fuel → (pg_num (hi_pages ix) < 2 ^ 63 - 1)%Z →
  ∃ ix' pss', insert finish fuel ix key row = Some (ix', Ok tt) ∧
    index_rep ix' (<[home bs key := bucket bs key ++ [mkEntry key row false]]> bs) pss' ∧
    (pg_num (hi_pages ix) ≤ pg_num (hi_pages ix') ≤ pg_num (hi_pages ix) + 1)%Z.
Proof.
  intros Hk Hr Hf Hnum. destruct (home_chain key) as (ps & Hps & Hes & Hc). pose proof (ir_buckets _ _ _ Hix).
  pose proof (chain_length _ _ Hps) as Hlen. pose proof (ir_nodup _ _ _ Hix _ _ Hps) as Hnd.
  pose proof (ir_num _ _ _ Hix) as Hpos.
  assert (∀ q, q ∈ ps → (0 < q < pg_num (hi_pages ix))%Z) as Hrange by (intros q Hq; by apply (ir_range _ _ _ Hix _ _ q Hps Hq)).
  destruct (insert_loop_spec fuel _ _ _ _ (mkEntry key row false) Hc) as (f' & ps' & Hrun & Hc' & Hsame & Hps');
    [done|done|done|intros q Hq; specialize (Hrange q Hq); lia|lia|lia|].
  eexists _, _. split; [|split].
  - unfold insert, insert_with, ensure_buckets. rewrite header_read. rewrite decide_False by lia.
    rewrite serialize_key by done. rewrite home_page. cbn [e_key e_row] in Hrun. rewrite Hrun. done.
  - eapply (index_update f' key _ ps' (pg_num f')); [done|done|done| | | |].
    + destruct Hps' as [[_ ->]|[_ ->]]; lia.
    + destruct Hps' as [[-> _]|[-> _]]; [done|]. apply list.NoDup_app. split; [done|]. split; [|apply NoDup_singleton].
      intros q Hq Hq'. apply list_elem_of_singleton in Hq' as ->. specialize (Hrange _ Hq). lia.
    + intros q Hq. destruct Hps' as [[-> ->]|[-> ->]]; [split; [by apply Hrange|right; eauto]|].
      apply elem_of_app in Hq as [Hq|Hq]; [specialize (Hrange q Hq); split; [lia|right; eauto]|].
      apply list_elem_of_singleton in Hq as ->. split; [lia|by left].
    + intros e He. apply elem_of_app in He as [He|He]; [by apply (ir_home _ _ _ Hix _ _ e Hes)|].
      apply list_elem_of_singleton in He as ->. cbn [e_key]. pose proof (home_page key). lia.
  - cbn [hi_pages]. destruct Hps' as [[_ ->]|[_ ->]]; lia.
Qed.

Lemma delete_spec fuel key row : Z.to_nat (pg_num (hi_pages ix)) ≤ fuel →
  ∃ ix' pss', delete finish from_utf8_lossy fuel ix key row = Some (ix', Ok (bool_decide (row ∈ rows_of key (bucket bs key)))) ∧
    index_rep ix' (<[home bs key := kill_first key row (bucket bs key)]> bs) pss' ∧
    pg_num (hi_pages ix') = pg_num (hi_pages ix).
Proof.
  intros Hf. destruct (home_chain key) as (ps & Hps & Hes & Hc). pose proof (ir_buckets _ _ _ Hix).
  pose proof (chain_length _ _ Hps) as Hlen. pose proof (ir_nodup _ _ _ Hix _ _ Hps) as Hnd.
  destruct (delete_loop_spec fuel _ _ _ _ key row Hc Hnd ltac:(lia)) as (f' & Hrun & Hc' & Hsame & Hnum).
  pose proof (ir_num _ _ _ Hix) as Hpos.
  eexists _, _. split; [|split].
  - unfold delete. rewrite header_read. rewrite decide_False by lia. rewrite home_page, Hrun.
    by rewrite has_match_rows by apply bucket_ok.
  - eapply (index_update f' key _ ps (pg_num f')); [done|done|done|lia|done| |].
    + intros q Hq. rewrite Hnum. split; [by apply (ir_range _ _ _ Hix _ _ q Hps)|right; eauto].
    + intros e He. destruct (kill_first_keys _ _ _ _ He) as (e' & He' & ->). by apply (ir_home _ _ _ Hix _ _ e' Hes).
  - done.
Qed.

(** What a lookup finds after one bucket changed. *)
Lemma bucket_insert es key key' :
  bucket (<[home bs key := es]> bs) key' = if decide (home bs key = home bs key') then es else bucket bs key'.
Proof.
  unfold bucket. replace (home (<[home bs key := es]> bs) key') with (home bs key') by (unfold home; by rewrite length_insert).
  destruct (decide (home bs key = home bs key')) as [E|Hne].
  - rewrite <- E, list_lookup_insert_eq by apply home_lt. done.
  - by rewrite list_lookup_insert_ne.
Qed.

Lemma index_rows_insert key row key' : key_ok key →
  rows_of key' (bucket (<[home bs key := bucket bs key ++ [mkEntry key row false]]> bs) key')
  = rows_of key' (bucket bs key') ++ (if value_eq key key' then [row] else []).
Proof.
  intros Hk. rewrite bucket_insert. destruct (decide (home bs key = home bs key')) as [E|Hne].
  - rewrite rows_app. unfold bucket at 1. rewrite E. fold (bucket bs key'). f_equal.
    rewrite rows_cons. unfold live_for. cbn. by destruct (value_eq key key').
  - destruct (value_eq key key') eqn:Hv; [|by rewrite app_nil_r]. apply value_eq_key in Hv; [|done]. congruence.
Qed.

Lemma rows_delete key row key' :
  rows_of key' (bucket (<[home bs key := kill_first key row (bucket bs key)]> bs) key')
  = if value_eq key key' then remove_one row (rows_of key' (bucket bs key')) else rows_of key' (bucket bs key').
Proof.
  rewrite bucket_insert. destruct (decide (home bs key = home bs key')) as [E|Hne].
  - rewrite rows_kill_first by apply bucket_ok. unfold bucket. by rewrite E.
  - destruct (value_eq key key') eqn:Hv; [|done].
    assert (∀ l, Forall entry_ok l → key ≠ key' → rows_of key' l = []) as Hnone.
    { intros l Hl Hkk. induction Hl as [|e l He Hl IH]; [done|]. rewrite rows_cons, IH, app_nil_r.
      unfold live_for. destruct (value_eq (e_key e) key') eqn:Hv'; [|by rewrite andb_false_r].
      apply value_eq_key in Hv'; [|apply He]. subst key'. destruct Hkk. apply value_eq_key_r; [apply He|done]. }
    rewrite Hnone; [done|apply bucket_ok|]. intros ->. done.
Qed.
End index.

(** ** The multimap *)

Abbreviation multimap := (list (Value * Z)).
Definition mm_lookup (m : multimap) (key : Value) : list Z := map snd (filter (λ e, value_eq (fst e) key = true) m).
Definition mm_insert (m : multimap) (key : Value) (row : Z) : multimap := m ++ [(key, row)].
Fixpoint mm_delete (m : multimap) (key : Value) (row : Z) : multimap :=
  match m with
  | [] => []
  | (k, r) :: m => if decide (value_eq k key = true ∧ r = row) then m else (k, r) :: mm_delete m key row
  end.

Definition implements (bs : list (list entry)) (m : multimap) : Prop :=
  (∀ e, e ∈ m → key_ok (fst e)) ∧ ∀ key, rows_of key (bucket bs key) = mm_lookup m key.

Lemma mm_lookup_insert m key row key' :
  mm_lookup (mm_insert m key row) key' = mm_lookup m key' ++ (if value_eq key key' then [row] else []).
Proof.
  unfold mm_lookup, mm_insert. rewrite list.filter_app, map_app. f_equal. rewrite filter_cons, filter_nil. cbn [fst].
  destruct (value_eq key key'); [by rewrite decide_True|by rewrite decide_False].
Qed.

Lemma mm_lookup_delete m key row key' : (∀ e, e ∈ m → key_ok (fst e)) →
  mm_lookup (mm_delete m key row) key' = if value_eq key key' then remove_one row (mm_lookup m key') else mm_lookup m key'.
Proof.
  intros Hall. induction m as [|[k r] m IH]; [by destruct (value_eq key key')|].
  assert (key_ok k) as Hk by (apply (Hall (k, r)); left).
  assert (∀ e, e ∈ m → key_ok (fst e)) as Hall' by (intros e He; apply Hall; by right).
  assert (∀ m', mm_lookup ((k, r) :: m') key' = (if value_eq k key' then [r] else []) ++ mm_lookup m' key') as Hcons.
  { intros m'. unfold mm_lookup. rewrite filter_cons. cbn [fst]. destruct (value_eq k key'); [by rewrite decide_True|by rewrite decide_False]. }
  cbn [mm_delete]. destruct (decide (value_eq k key = true ∧ r = row)) as [[Hv ->]|Hno].
  - apply value_eq_key in Hv; [|done]. subst k. rewrite Hcons. destruct (value_eq key key'); cbn [app]; [|done].
    cbn [remove_one]. by rewrite decide_True.
  - rewrite !Hcons, IH by done. destruct (value_eq k key') eqn:Hv'; cbn [app]; [|done].
    destruct (value_eq key key') eqn:Hv; [|done]. cbn [remove_one]. rewrite decide_False; [done|]. intros ->. apply Hno.
    split; [|done]. apply value_eq_key in Hv'; [|done]. subst k. apply value_eq_key_r in Hv; [|done]. subst. by apply value_eq_key.
Qed.

Lemma mm_delete_keys m key row : (∀ e, e ∈ m → key_ok (fst e)) → ∀ e, e ∈ mm_delete m key row → key_ok (fst e).
Proof.
  intros Hall. induction m as [|[k r] m IH]; [done|]. cbn [mm_delete]. intros e He.
  destruct (decide _); [apply Hall; by right|]. apply elem_of_cons in He as [->|He]; [apply (Hall (k, r)); left|].
  apply IH; [|done]. intros x Hx. apply Hall. by right.
Qed.

(** ** A new index *)

Lemma add_buckets_spec n f : (0 ≤ pg_num f)%Z →
  pg_num (add_buckets n f) = (pg_num f + Z.of_nat n)%Z ∧
  ∀ q, page_at (add_buckets n f) q = if decide (pg_num f ≤ q < pg_num f + Z.of_nat n)%Z then zero_page else page_at f q.
Proof.
  revert f. induction n as [|n IH]; intros f H0; cbn [add_buckets add_new_page].
  { split; [lia|]. intros q. rewrite decide_False by lia. done. }
  destruct (IH (put_page (mkPages (pg_data f) (pg_num f + 1)) (pg_num f) zero_page)) as [H1 H2]; [cbn; lia|].
  cbn [put_page pg_num] in H1, H2. split; [lia|]. intros q. rewrite H2.
  destruct (decide (q = pg_num f)) as [->|Hne].
  - rewrite decide_False by lia. rewrite decide_True by lia. apply (page_at_put (mkPages (pg_data f) (pg_num f + 1))).
  - rewrite (page_at_put_ne (mkPages (pg_data f) (pg_num f + 1))) by done.
    destruct (decide (pg_num f ≤ q < pg_num f + Z.of_nat (S n))%Z); [rewrite decide_True by lia|rewrite decide_False by lia]; done.
Qed.

Lemma header_page_count nb : is_u64 nb → get_u64 (header_page nb) 0 = Ok nb.
Proof.
  intros Hnb. pose proof PAGE_SIZE_val. assert (length zero_page = PAGE_SIZE) as Hl by apply length_replicate.
  unfold header_page. assert (length (splice zero_page 0 (to_le 8 nb)) = PAGE_SIZE) as Hl1
    by (rewrite length_splice; rewrite ?length_to_le; lia).
  assert (length (splice (splice zero_page 0 (to_le 8 nb)) 8 (to_le 8 0)) = PAGE_SIZE) as Hl2
    by (rewrite length_splice; rewrite ?length_to_le; lia).
  rewrite get_u64_ok by lia. f_equal. rewrite slice_splice_other by (rewrite ?length_to_le; lia).
  transitivity (of_le (to_le 8 nb)); [done|by apply of_le_to_le_id].
Qed.

Lemma new_index_rep nb : (1 ≤ nb < 2 ^ 63 - 1)%Z →
  ∃ pss, index_rep (open_or_create_with_buckets None nb) (replicate (Z.to_nat nb) []) pss ∧
    pg_num (hi_pages (open_or_create_with_buckets None nb)) = (1 + nb)%Z.
Proof.
  intros Hnb. exists (map (λ b, [(1 + Z.of_nat b)%Z]) (seq 0 (Z.to_nat nb))).
  unfold open_or_create_with_buckets, initialize_header. rewrite Z.max_l by lia. cbn [hi_pages hi_buckets add_new_page pg_num pg_data].
  set (f := put_page (mkPages ∅ (0 + 1)) 0 (header_page nb)).
  destruct (add_buckets_spec (Z.to_nat nb) f) as [Hnum Hpage]; [cbn; lia|]. cbn [put_page pg_num f] in Hnum, Hpage.
  assert (∀ b ps, map (λ b, [(1 + Z.of_nat b)%Z]) (seq 0 (Z.to_nat nb)) !! b = Some ps →
            ps = [(1 + Z.of_nat b)%Z] ∧ b < Z.to_nat nb) as Hpss.
  { intros b ps Hb. change (map ?g ?l) with (g <$> l) in Hb. rewrite list_lookup_fmap in Hb.
    destruct (seq 0 (Z.to_nat nb) !! b) as [c|] eqn:E; [|done]. apply lookup_seq in E as [-> ?]. by simplify_eq/=. }
  split; [|cbn [hi_pages]; lia].
  constructor; cbn [hi_pages]; rewrite ?length_replicate.
  - lia.
  - by rewrite length_map, length_seq.
  - rewrite Hpage. rewrite decide_False by lia. unfold f. rewrite (page_at_put (mkPages ∅ (0 + 1))).
    rewrite Z2Nat.id by lia. apply header_page_count. unfold is_u64. lia.
  - lia.
  - intros b es ps Hb Hp. destruct (Hpss b ps Hp) as [-> Hlt]. apply lookup_replicate in Hb as [-> _].
    apply chain_last. rewrite Hpage. rewrite decide_True by lia. apply zero_page_rep.
  - intros b ps Hp. destruct (Hpss b ps Hp) as [-> _]. apply NoDup_singleton.
  - intros b b' ps ps' p Hp Hp' Hq Hq'. destruct (Hpss b ps Hp) as [-> _], (Hpss b' ps' Hp') as [-> _].
    apply list_elem_of_singleton in Hq as ->. apply list_elem_of_singleton in Hq'. lia.
  - intros b ps p Hp Hq. destruct (Hpss b ps Hp) as [-> ?]. apply list_elem_of_singleton in Hq as ->. lia.
  - intros b es e Hb He. apply lookup_replicate in Hb as [-> _]. by apply not_elem_of_nil in He.
Qed.

(** ** Runs *)

Inductive index_op := IInsert (key : Value) (row : Z) | IDelete (key : Value) (row : Z) | ILookup (key : Value) (limit : option nat).
Inductive answer := AUnit | AFound (b : bool) | ARows (l : list Z).

Definition index_step (fuel : nat) (ix : HashIndex) (o : index_op) : option (HashIndex * outcome answer) :=
  match o with
  | IInsert key row =>
      match insert finish fuel ix key row with
      | Some (ix, r) => Some (ix, outcome_bind r (λ _, Ok AUnit))
      | None => None
      end
  | IDelete key row =>
      match delete finish from_utf8_lossy fuel ix key row with
      | Some (ix, r) => Some (ix, outcome_bind r (λ b, Ok (AFound b)))
      | None => None
      end
  | ILookup key limit =>
      match lookup_multi finish from_utf8_lossy fuel ix key limit with
      | Some r => Some (ix, outcome_bind r (λ l, Ok (ARows l)))
      | None => None
      end
  end.
Fixpoint run_index (fuel : nat) (ix : HashIndex) (ops : list index_op) : option (list (outcome answer)) :=
  match ops with
  | [] => Some []
  | o :: ops =>
      match index_step fuel ix o with
      | Some (ix, r) => match run_index fuel ix ops with Some rs => Some (r :: rs) | None => None end
      | None => None
      end
  end.

Definition mm_step (m : multimap) (o : index_op) : multimap * answer :=
  match o with
  | IInsert key row => (mm_insert m key row, AUnit)
  | IDelete key row => (mm_delete m key row, AFound (bool_decide (row ∈ mm_lookup m key)))
  | ILookup key limit => (m, ARows (limited limit (mm_lookup m key)))
  end.
Fixpoint run_mm (m : multimap) (ops : list index_op) : list answer :=
  match ops with
  | [] => []
  | o :: ops => snd (mm_step m o) :: run_mm (fst (mm_step m o)) ops
  end.

Definition op_ok (o : index_op) : Prop := match o with IInsert key row => key_ok key ∧ is_u64 row | _ => True end.

Lemma step_refines fuel ix bs pss m o :
  index_rep ix bs pss → implements bs m → op_ok o → Z.to_nat (pg_num (hi_pages ix)) < fuel →
  (pg_num (hi_pages ix) < 2 ^ 63 - 1)%Z →
  ∃ ix' bs' pss', index_step fuel ix o = Some (ix', Ok (snd (mm_step m o))) ∧ index_rep ix' bs' pss' ∧
    implements bs' (fst (mm_step m o)) ∧ (pg_num (hi_pages ix) ≤ pg_num (hi_pages ix') ≤ pg_num (hi_pages ix) + 1)%Z.
Proof.
  intros Hix [Hkeys Hrows] Ho Hf Hnum. destruct o as [key row|key row|key limit]; cbn [index_step mm_step fst snd].
  - destruct Ho as [Hk Hr]. destruct (insert_spec Hix fuel key row Hk Hr Hf Hnum) as (ix' & pss' & -> & Hrep & Hn).
    eexists ix', _, pss'. split; [done|]. split; [exact Hrep|]. split; [|done]. split.
    + intros e He. apply elem_of_app in He as [He|He]; [by apply Hkeys|]. by apply list_elem_of_singleton in He as ->.
    + intros key'. rewrite (index_rows_insert Hix) by done. by rewrite mm_lookup_insert, Hrows.
  - destruct (delete_spec Hix fuel key row ltac:(lia)) as (ix' & pss' & -> & Hrep & Hn).
    eexists ix', _, pss'. split; [by rewrite Hrows|]. split; [exact Hrep|]. split; [|lia]. split.
    + by apply mm_delete_keys.
    + intros key'. rewrite (rows_delete Hix). rewrite mm_lookup_delete by done. by rewrite Hrows.
  - rewrite (lookup_multi_spec Hix) by lia. exists ix, bs, pss. cbn [outcome_bind]. rewrite Hrows.
    split; [done|]. split; [done|]. split; [by split|lia].
Qed.

Lemma run_refines fuel ix bs pss m ops :
  index_rep ix bs pss → implements bs m → Forall op_ok ops →
  Z.to_nat (pg_num (hi_pages ix)) + length ops < fuel → (pg_num (hi_pages ix) + Z.of_nat (length ops) < 2 ^ 63)%Z →
  run_index fuel ix ops = Some (map Ok (run_mm m ops)).
Proof.
  intros Hix Him Hops. revert ix bs pss m Hix Him. induction Hops as [|o ops Ho Hops IH]; intros ix bs pss m Hix Him Hf Hnum; [done|].
  cbn [length] in Hf, Hnum. cbn [run_index run_mm map].
  destruct (step_refines fuel ix bs pss m o Hix Him Ho) as (ix' & bs' & pss' & -> & Hix' & Him' & Hn); [lia|lia|].
  rewrite (IH ix' bs' pss' _ Hix' Him'); [done|lia|lia].
Qed.

(** C5. The hash index is a multimap: on a new index with any number of buckets
    and any hasher, every sequence of insertions of supported keys, deletions and
    lookups terminates without error and gives the answers of a list of (key,
    row) pairs, lookups in insertion order and cut at their limit, deletions
    removing one occurrence. *)
Theorem hash_index_refines_multimap fuel nb ops :
  (1 ≤ nb < 2 ^ 62)%Z → Forall op_ok ops → (Z.of_nat (length ops) < 2 ^ 62)%Z → Z.to_nat nb + length ops + 1 < fuel →
  run_index fuel (open_or_create_with_buckets None nb) ops = Some (map Ok (run_mm [] ops)).
Proof.
  intros Hnb Hops Hlen Hf. destruct (new_index_rep nb) as (pss & Hix & Hnum); [lia|].
  eapply run_refines; [exact Hix| |done| |].
  - split; [intros e He; by apply not_elem_of_nil in He|]. intros key. unfold bucket.
    destruct (replicate _ _ !! _) as [es|] eqn:E; [|done]. by apply lookup_replicate in E as [-> _].
  - rewrite Hnum. lia.
  - rewrite Hnum. lia.
Qed.

(** A key read back from a page is the key that was written, for every value
    the index supports. *)
Theorem key_roundtrip v : key_ok v →
  ∃ b, serialize_value v (replicate MAX_VAL_SIZE 0%Z) = Ok b ∧ length b = MAX_VAL_SIZE ∧ bytes_ok b ∧
       HashIndex.deserialize_value from_utf8_lossy b = Ok v.
Proof.
  intros H. exists (key_bytes v). split; [by apply serialize_key|]. split; [by apply key_bytes_length|].
  split; [by apply key_bytes_ok|by apply deserialize_key].
Qed.
End spec.

(** ** Examples *)

Definition ex_finish (bs : list Z) : Z := (foldl Z.add 0 bs mod 2 ^ 64)%Z.

Lemma hash_index_refines_multimap_witness :
  run_index ex_finish (λ s, s) 20 (open_or_create_with_buckets None 2)
    [IInsert (VNumber 5) 7; IInsert (VString [97%Z; 98%Z]) 8; IInsert (VNumber 5) 9; IDelete (VNumber 5) 7; ILookup (VNumber 5) None]
  = Some [Ok AUnit; Ok AUnit; Ok AUnit; Ok (AFound true); Ok (ARows [9%Z])].
Proof.
  apply (hash_index_refines_multimap ex_finish (λ s, s) 20 2
    [IInsert (VNumber 5) 7; IInsert (VString [97%Z; 98%Z]) 8; IInsert (VNumber 5) 9; IDelete (VNumber 5) 7; ILookup (VNumber 5) None]).
  - lia.
  - repeat (apply List.Forall_cons; [by_compute|]). apply List.Forall_nil.
  - cbn. lia.
  - cbn. lia.
Defined.

Lemma key_roundtrip_witness :
  ∃ b, serialize_value (VString [97%Z; 98%Z]) (replicate MAX_VAL_SIZE 0%Z) = Ok b ∧ length b = MAX_VAL_SIZE ∧ bytes_ok b ∧
       deserialize_value (λ s, s) b = Ok (VString [97%Z; 98%Z]).
Proof. apply (key_roundtrip (λ s, s)). by_compute. Defined.

(** C0. Doubling the table keeps the old copies: [resize] inserts every collected
    entry again behind the entries that are still in its page, so a key whose
    bucket does not move is found twice, and one deletion leaves it in the index. *)
Theorem resize_keeps_deleted_key :
  ∃ ix1 ix2 ix3,
    insert ex_finish 20 (open_or_create_with_buckets None 1) (VNumber 4) 7 = Some (ix1, Ok tt) ∧
    resize 20 ix1 = Some (ix2, Ok tt) ∧
    lookup_multi ex_finish (λ s, s) 20 ix2 (VNumber 4) None = Some (Ok [7%Z; 7%Z]) ∧
    delete ex_finish (λ s, s) 20 ix2 (VNumber 4) 7 = Some (ix3, Ok true) ∧
    lookup_multi ex_finish (λ s, s) 20 ix3 (VNumber 4) None = Some (Ok [7%Z]).
Proof. do 3 eexists. repeat (split; [vm_compute; reflexivity|]). vm_compute. reflexivity. Qed.
