(* ===== verification/Stats.v ===== *)
(** * Statistics and zone maps (storage/stats/, the zone-map part of
    storage/column.rs, value ordering of processor/mod.rs)

    A column keeps its minimum, maximum and counts, and per page the bounds that
    let an equality scan skip the page.  A double is its bit pattern; the text
    that orders values of different kinds is the derived [Debug] output, a
    parameter. *)
From stdpp Require Import base list gmap strings numbers.
From Stdlib Require Import ZArith Lia Bool.
From S2P Require Import Prelude Codec.
Open Scope nat_scope.

(** ** Types of columns (lightning-types) *)

Inductive LogicalType :=
| TAny | TBool | TInt128 | TInt64 | TInt32 | TInt16 | TInt8 | TUint128 | TUint64 | TUint32 | TUint16 | TUint8
| TFloat | TDouble | TString | TBlob | TTimestamp | TDate | TInterval | TInternalID | TSerial
| TList (t : LogicalType) | TStruct (fields : list (string * LogicalType)) | TMap (k v : LogicalType)
| TUnion (fields : list (string * LogicalType)) | TNode (fields : list (string * LogicalType))
| TRel (fields : list (string * LogicalType)) | TLambda (t : LogicalType).

(** ** Doubles as bit patterns *)

Section floats.
Open Scope Z_scope.

Definition f64_sign (b : Z) : bool := Z.testbit b 63.
Definition f64_exp (b : Z) : Z := (b / 2 ^ 52) mod 2 ^ 11.
Definition f64_frac (b : Z) : Z := b mod 2 ^ 52.
Definition is_nan (b : Z) : bool := bool_decide (f64_exp b = 2047) && negb (bool_decide (f64_frac b = 0)).

(** Doubles are ordered as sign and magnitude; both zeros are 0. *)
Definition f64_key (b : Z) : Z := if f64_sign b then - (b mod 2 ^ 63) else b mod 2 ^ 63.
Definition f64_cmp (a b : Z) : option comparison :=
  if is_nan a || is_nan b then None else Some (f64_key a ?= f64_key b).

(** [n as f64]: round to nearest, ties to even. *)
Definition u64_as_f64 (n : Z) : Z :=
  if decide (n = 0) then 0
  else
    let e := Z.log2 n in
    if decide (e ≤ 52) then (e + 1023) * 2 ^ 52 + (n * 2 ^ (52 - e) - 2 ^ 52)
    else
      let s := e - 52 in
      let q := n / 2 ^ s in
      let r := n mod 2 ^ s in
      let half := 2 ^ (s - 1) in
      let q := if bool_decide (half < r) || (bool_decide (r = half) && Z.odd q) then q + 1 else q in
      (e + 1023) * 2 ^ 52 + (q - 2 ^ 52).

(** [x as u64]: truncates, saturates, NaN is 0. *)
Definition f64_as_u64 (b : Z) : Z :=
  if is_nan b || f64_sign b then 0
  else
    let e := f64_exp b - 1023 in
    if decide (e < 0) then 0
    else
      let m := 2 ^ 52 + f64_frac b in
      (if decide (e ≤ 52) then m / 2 ^ (52 - e) else m * 2 ^ (e - 52)) `min` u64_MAX.
End floats.

(** ** Ordering of values *)

(** [str] and [Vec<u8>] order. *)
Fixpoint bytes_cmp (a b : list Z) : comparison :=
  match a, b with
  | [], [] => Eq
  | [], _ :: _ => Lt
  | _ :: _, [] => Gt
  | x :: a, y :: b => match (x ?= y)%Z with Eq => bytes_cmp a b | c => c end
  end.

Definition bool_cmp (a b : bool) : comparison := (Z.b2z a ?= Z.b2z b)%Z.

Section value_order.
(** [format!("{v:?}")] *)
Context (debug : Value → list Z).

Fixpoint partial_cmp (a b : Value) {struct a} : option comparison :=
  match a, b with
  | VString s1, VString s2 => Some (bytes_cmp s1 s2)
  | VNumber n1, VNumber n2 => f64_cmp n1 n2
  | VBoolean b1, VBoolean b2 => Some (bool_cmp b1 b2)
  | VNull, VNull => Some Eq
  | VNull, _ => Some Lt
  | _, VNull => Some Gt
  | VNode i1, VNode i2 => Some (i1 ?= i2)%Z
  | VRelationship i1, VRelationship i2 => Some (i1 ?= i2)%Z
  | VDate d1, VDate d2 => Some (d1 ?= d2)%Z
  | VTimestamp t1, VTimestamp t2 => Some (t1 ?= t2)%Z
  | VList l1, VList l2 =>
      (fix cmp (l1' l2' : list Value) : option comparison :=
         match l1', l2' with
         | x :: l1', y :: l2' => match partial_cmp x y with Some Eq => cmp l1' l2' | o => o end
         | _, _ => Some (Z.of_nat (length l1) ?= Z.of_nat (length l2))%Z
         end) l1 l2
  | _, _ => Some (bytes_cmp (debug a) (debug b))
  end.

Definition value_lt (a b : Value) : bool := bool_decide (partial_cmp a b = Some Lt).
Definition value_gt (a b : Value) : bool := bool_decide (partial_cmp a b = Some Gt).

Definition as_number (v : Value) : Z :=
  match v with VNumber n => n | VNode id => u64_as_f64 id | _ => 0%Z end.
Definition as_node (v : Value) : Z :=
  match v with VNode id => id | VNumber n => f64_as_u64 n | _ => 0%Z end.

(** [q >= lo && q <= hi] *)
Definition f64_between (lo q hi : Z) : bool :=
  bool_decide (f64_cmp q lo = Some Gt ∨ f64_cmp q lo = Some Eq) && bool_decide (f64_cmp q hi = Some Lt ∨ f64_cmp q hi = Some Eq).

(** ** Page bounds *)

Record PageBounds := mkBounds { pb_min : Value; pb_max : Value }.

Definition value_can_be_in_page (b : PageBounds) (query : Value) (t : LogicalType) : bool :=
  match t with
  | TInt64 | TInt32 | TInt16 | TInt8 => f64_between (as_number (pb_min b)) (as_number query) (as_number (pb_max b))
  | TUint64 | TUint32 | TUint16 | TUint8 | TNode _ =>
      bool_decide (as_node (pb_min b) ≤ as_node query)%Z && bool_decide (as_node query ≤ as_node (pb_max b))%Z
  | TDouble | TFloat => f64_between (as_number (pb_min b)) (as_number query) (as_number (pb_max b))
  | TString =>
      match query, pb_min b, pb_max b with
      | VString q, VString lo, VString hi =>
          negb (bool_decide (bytes_cmp q lo = Lt)) && negb (bool_decide (bytes_cmp q hi = Gt))
      | _, _, _ => true
      end
  | _ => true
  end.

Record ColumnStats := mkStats {
  cs_min : option Value;
  cs_max : option Value;
  null_count : Z;
  num_values : Z;
  distinct_count : Z;
  compression_meta : option CompressionMetadata;
  compression_ratio : option Z;
  page_bounds : list (option PageBounds);
  page_bounds_valid : bool;
}.

Definition column_stats_new : ColumnStats := mkStats None None 0 0 0 None None [] false.

(** Counts are 64-bit; no column has 2^64 values. *)
Definition update (s : ColumnStats) (v : Value) : ColumnStats :=
  match v with
  | VNull =>
      mkStats (cs_min s) (cs_max s) (null_count s + 1) (num_values s + 1) (distinct_count s) (compression_meta s)
              (compression_ratio s) (page_bounds s) (page_bounds_valid s)
  | _ =>
      let mn := match cs_min s with Some m => if value_lt v m then Some v else Some m | None => Some v end in
      let mx := match cs_max s with Some m => if value_gt v m then Some v else Some m | None => Some v end in
      mkStats mn mx (null_count s) (num_values s + 1) (distinct_count s) (compression_meta s) (compression_ratio s)
              (page_bounds s) (page_bounds_valid s)
  end.

Definition set_page_bounds (s : ColumnStats) (l : list (option PageBounds)) (valid : bool) : ColumnStats :=
  mkStats (cs_min s) (cs_max s) (null_count s) (num_values s) (distinct_count s) (compression_meta s) (compression_ratio s)
          l valid.

Definition invalidate_page_bounds (s : ColumnStats) : ColumnStats := set_page_bounds s [] false.

Definition MAX_PAGE_BOUNDS : Z := 1000000.

Definition extend_bounds (b : option PageBounds) (v : Value) : PageBounds :=
  match b with
  | Some b =>
      mkBounds (if value_lt v (pb_min b) then v else pb_min b) (if value_gt v (pb_max b) then v else pb_max b)
  | None => mkBounds v v
  end.

Definition update_page_bounds (s : ColumnStats) (page_idx : nat) (v : Value) : ColumnStats :=
  match v with
  | VNull => s
  | _ =>
      if negb (page_bounds_valid s) then s
      else if decide (MAX_PAGE_BOUNDS ≤ Z.of_nat page_idx)%Z then s
      else
        let l := page_bounds s ++ replicate (page_idx + 1 - length (page_bounds s)) None in
        set_page_bounds s (<[page_idx := Some (extend_bounds (mjoin (l !! page_idx)) v)]> l) (page_bounds_valid s)
  end.

Record TableStats := mkTableStats { cardinality : Z; column_stats : list ColumnStats }.
Definition table_stats_new (num_columns : nat) : TableStats := mkTableStats 0 (replicate num_columns column_stats_new).

(** ** Zone maps of a column *)

Definition zone_map_should_skip (s : ColumnStats) (t : LogicalType) (page_idx : nat) (query : option Value) : bool :=
  match query with
  | None => false
  | Some q =>
      if negb (page_bounds_valid s) then false
      else match page_bounds s !! page_idx with
           | Some (Some b) => negb (value_can_be_in_page b q t)
           | _ => false
           end
  end.

(** The bounds [compute_page_bounds] gives a page with these values.  The third
    arm of its match compares with the minimum. *)
Definition scan_value (acc : option Value * option Value) (v : Value) : option Value * option Value :=
  match v with
  | VNull => acc
  | _ =>
      match fst acc with
      | None => (Some v, Some v)
      | Some cur => if value_lt v cur then (Some v, snd acc) else if value_gt v cur then (fst acc, Some v) else acc
      end
  end.
Definition page_scan (vals : list Value) : option PageBounds :=
  match foldl scan_value (None, None) vals with
  | (Some mn, Some mx) => Some (mkBounds mn mx)
  | _ => None
  end.
(** [pages] are the values of the pages in order; the bounds replace the old
    ones.  Nothing happens while the column has no values. *)
Definition compute_page_bounds (s : ColumnStats) (pages : list (list Value)) : ColumnStats :=
  if decide (num_values s = 0%Z) then s else set_page_bounds s (map page_scan pages) true.

(** ** Bounds cover what was added *)

Definition is_number (v : Value) : bool := match v with VNumber _ => true | _ => false end.
Definition number_type (t : LogicalType) : bool :=
  match t with TInt64 | TInt32 | TInt16 | TInt8 | TDouble | TFloat => true | _ => false end.

(** What a column of type [t] holds and is compared with: numbers that are not
    NaN, ids, strings; the zone map ignores the other types. *)
Definition typed (t : LogicalType) (v : Value) : Prop :=
  match t with
  | TInt64 | TInt32 | TInt16 | TInt8 | TDouble | TFloat => match v with VNumber n => is_nan n = false | _ => False end
  | TUint64 | TUint32 | TUint16 | TUint8 | TNode _ => match v with VNode _ => True | _ => False end
  | TString => match v with VString _ => True | _ => False end
  | _ => v ≠ VNull
  end.

Lemma bytes_cmp_opp a b : bytes_cmp b a = CompOpp (bytes_cmp a b).
Proof.
  revert b. induction a as [|x a IH]; intros [|y b]; cbn; [done..|]. rewrite Z.compare_antisym.
  destruct (x ?= y)%Z; cbn; [apply IH|done|done].
Qed.

Lemma bytes_cmp_refl a : bytes_cmp a a = Eq.
Proof. induction a as [|x a IH]; cbn; [done|]. by rewrite Z.compare_refl. Qed.

Lemma bytes_cmp_trans a b c : bytes_cmp a b ≠ Gt → bytes_cmp b c ≠ Gt → bytes_cmp a c ≠ Gt.
Proof.
  revert b c. induction a as [|x a IH]; intros [|y b] [|z c]; cbn; try done.
  destruct (Z.compare_spec x y); destruct (Z.compare_spec y z); destruct (Z.compare_spec x z); subst; try lia; try done.
  apply IH.
Qed.

(** The three orders the zone map uses, on values of the column's type. *)
Definition vle (t : LogicalType) (a b : Value) : Prop :=
  match t with
  | TInt64 | TInt32 | TInt16 | TInt8 | TDouble | TFloat => (f64_key (as_number a) ≤ f64_key (as_number b))%Z
  | TUint64 | TUint32 | TUint16 | TUint8 | TNode _ => (as_node a ≤ as_node b)%Z
  | TString => match a, b with VString a, VString b => bytes_cmp a b ≠ Gt | _, _ => True end
  | _ => True
  end.

Lemma vle_refl t a : typed t a → vle t a a.
Proof. destruct t; cbn; try lia; try done. destruct a; try done. intros _. by rewrite bytes_cmp_refl. Qed.

Lemma vle_trans t a b c : typed t b → vle t a b → vle t b c → vle t a c.
Proof.
  destruct t; cbn; try lia; try done. destruct a as [a| | | | | | | | | | |], b as [b| | | | | | | | | | |], c as [c| | | | | | | | | | |]; try done.
  intros _. apply bytes_cmp_trans.
Qed.

Lemma f64_between_spec lo q hi : is_nan lo = false → is_nan q = false → is_nan hi = false →
  f64_between lo q hi = bool_decide (f64_key lo ≤ f64_key q ≤ f64_key hi)%Z.
Proof.
  intros Hlo Hq Hhi. unfold f64_between, f64_cmp. rewrite Hlo, Hq, Hhi. cbn.
  destruct (Z.compare_spec (f64_key q) (f64_key lo)), (Z.compare_spec (f64_key q) (f64_key hi));
    repeat case_bool_decide; cbn; naive_solver lia.
Qed.

Lemma in_page_spec t b q : typed t (pb_min b) → typed t (pb_max b) → typed t q →
  vle t (pb_min b) q → vle t q (pb_max b) → value_can_be_in_page b q t = true.
Proof.
  destruct b as [lo hi]. cbn. destruct t; cbn; try done; intros Hlo Hhi Hq H1 H2.
  all: destruct lo as [lo|lo| | |lo| | | | | | |], hi as [hi|hi| | |hi| | | | | | |], q as [q|q| | |q| | | | | | |]; try done; cbn in *.
  all: try (rewrite f64_between_spec by done; by apply bool_decide_eq_true_2).
  all: try (rewrite !bool_decide_eq_true_2 by lia; done).
  rewrite bytes_cmp_opp in H1. rewrite !bool_decide_eq_false_2; [done|done|]. intros E. by rewrite E in H1.
Qed.

Lemma lt_vle t v w : typed t v → typed t w → value_lt v w = true → vle t v w.
Proof.
  unfold value_lt. destruct t; cbn; try done; destruct v as [v|v| | |v| | | | | | |], w as [w|w| | |w| | | | | | |]; cbn; try done; intros Hv Hw.
  all: rewrite bool_decide_eq_true; unfold f64_cmp; rewrite ?Hv, ?Hw; cbn; intros [= H].
  all: try (apply Z.lt_le_incl; exact H). by rewrite H.
Qed.

Lemma not_lt_vle t v w : typed t v → typed t w → value_lt v w = false → vle t w v.
Proof.
  unfold value_lt. destruct t; cbn; try done; destruct v as [v|v| | |v| | | | | | |], w as [w|w| | |w| | | | | | |]; cbn; try done; intros Hv Hw.
  all: rewrite bool_decide_eq_false; unfold f64_cmp; rewrite ?Hv, ?Hw; cbn; intros H.
  all: try (destruct (Z.compare_spec (f64_key v) (f64_key w)); try lia; done).
  all: try (destruct (Z.compare_spec v w); try lia; done).
  rewrite bytes_cmp_opp. by destruct (bytes_cmp v w).
Qed.

Lemma gt_lt t v w : typed t v → typed t w → (value_gt v w = true → vle t w v) ∧ (value_gt v w = false → vle t v w).
Proof.
  unfold value_gt. destruct t; cbn; try done; destruct v as [v|v| | |v| | | | | | |], w as [w|w| | |w| | | | | | |]; cbn; try done; intros Hv Hw.
  all: rewrite bool_decide_eq_true, bool_decide_eq_false; unfold f64_cmp; rewrite ?Hv, ?Hw; cbn.
  all: try (destruct (Z.compare_spec (f64_key v) (f64_key w)); split; (lia || done)).
  all: try (destruct (Z.compare_spec v w); split; (lia || done)).
  rewrite (bytes_cmp_opp v w). by destruct (bytes_cmp v w).
Qed.

(** [b] bounds all of [vs]. *)
Record covers (t : LogicalType) (b : PageBounds) (vs : list Value) : Prop := {
  cov_min : typed t (pb_min b);
  cov_max : typed t (pb_max b);
  cov_all : ∀ v, v ∈ vs → vle t (pb_min b) v ∧ vle t v (pb_max b);
}.

Lemma extend_covers t b v vs : typed t v → Forall (typed t) vs → covers t b vs → covers t (extend_bounds (Some b) v) (v :: vs).
Proof.
  intros Hv Hvs [Hmin Hmax Hall]. destruct b as [lo hi]. cbn [extend_bounds pb_min pb_max] in *.
  assert (typed t (if value_lt v lo then v else lo) ∧ vle t (if value_lt v lo then v else lo) v ∧ vle t (if value_lt v lo then v else lo) lo) as (A1 & A2 & A3).
  { destruct (value_lt v lo) eqn:E.
    - split; [done|]. split; [by apply vle_refl|by apply lt_vle].
    - split; [done|]. split; [by apply not_lt_vle|by apply vle_refl]. }
  assert (typed t (if value_gt v hi then v else hi) ∧ vle t v (if value_gt v hi then v else hi) ∧ vle t hi (if value_gt v hi then v else hi)) as (B1 & B2 & B3).
  { destruct (gt_lt t v hi) as [Hg1 Hg2]; [done..|]. destruct (value_gt v hi) eqn:E.
    - split; [done|]. split; [by apply vle_refl|by apply Hg1].
    - split; [done|]. split; [by apply Hg2|by apply vle_refl]. }
  constructor; [done|done|]. cbn. intros w. rewrite elem_of_cons. intros [->|Hw]; [done|].
  destruct (Hall w Hw) as [H1 H2]. rewrite Forall_forall in Hvs. split.
  - by apply (vle_trans t _ lo).
  - by apply (vle_trans t _ hi).
Qed.

(** ** Appends keep the zone map safe *)

(** [held p] are the values on page [p]; of the pages below the cap, one without
    bounds holds nothing. *)
Record zone_ok (t : LogicalType) (s : ColumnStats) (held : nat → list Value) : Prop := {
  zk_typed : ∀ p, Forall (typed t) (held p);
  zk_bounds : ∀ p b, (Z.of_nat p < MAX_PAGE_BOUNDS)%Z → page_bounds s !! p = Some (Some b) → covers t b (held p);
  zk_none : ∀ p, (Z.of_nat p < MAX_PAGE_BOUNDS)%Z → mjoin (page_bounds s !! p) = None → held p = [];
}.

Definition held_add (held : nat → list Value) (p : nat) (v : Value) : nat → list Value :=
  λ q, if decide (q = p) then v :: held q else held q.

Lemma typed_not_null t v : typed t v → v ≠ VNull.
Proof. destruct t, v; cbn; try done. Qed.

Lemma padded_lookup (l : list (option PageBounds)) n q : mjoin ((l ++ replicate n None) !! q) = mjoin (l !! q).
Proof.
  destruct (decide (q < length l)); [by rewrite lookup_app_l|]. rewrite lookup_app_r by lia.
  rewrite (lookup_ge_None_2 l) by lia. destruct (replicate n None !! (q - length l)) as [o|] eqn:E; [|done].
  apply lookup_replicate in E as [-> _]. done.
Qed.

Lemma extend_covers_opt t o v vs : typed t v → Forall (typed t) vs →
  match o with Some b => covers t b vs | None => vs = [] end → covers t (extend_bounds o v) (v :: vs).
Proof.
  intros Hv Hvs. destruct o as [b|]; intros H; [by apply extend_covers|]. subst vs. constructor; cbn; [done|done|].
  intros w Hw. apply elem_of_cons in Hw as [->|Hw]; [|by apply elem_of_nil in Hw]. split; by apply vle_refl.
Qed.

Lemma update_page_bounds_typed s p v :
  page_bounds_valid s = true → v ≠ VNull →
  update_page_bounds s p v =
    if decide (MAX_PAGE_BOUNDS ≤ Z.of_nat p)%Z then s
    else let l := page_bounds s ++ replicate (p + 1 - length (page_bounds s)) None in
         set_page_bounds s (<[p := Some (extend_bounds (mjoin (l !! p)) v)]> l) (page_bounds_valid s).
Proof. intros Hvalid Hv. unfold update_page_bounds. rewrite Hvalid. by destruct v. Qed.

(** The bounds of a page after one append. *)
Lemma update_bounds_lookup s p v q :
  page_bounds_valid s = true → v ≠ VNull →
  mjoin (page_bounds (update_page_bounds s p v) !! q) =
  if decide (q = p ∧ Z.of_nat p < MAX_PAGE_BOUNDS)%Z then Some (extend_bounds (mjoin (page_bounds s !! p)) v)
  else mjoin (page_bounds s !! q).
Proof.
  intros Hvalid Hv. rewrite update_page_bounds_typed by done.
  destruct (decide (MAX_PAGE_BOUNDS ≤ Z.of_nat p)%Z) as [Hcap|Hcap]; [by rewrite decide_False by lia|].
  cbn zeta. set (n := p + 1 - length (page_bounds s)). rewrite padded_lookup.
  cbn [page_bounds set_page_bounds]. destruct (decide (q = p)) as [->|Hne].
  - rewrite decide_True by lia. rewrite list_lookup_insert_eq; [done|].
    rewrite length_app, length_replicate. unfold n. lia.
  - rewrite decide_False by tauto. rewrite list_lookup_insert_ne by done. apply padded_lookup.
Qed.

Lemma update_page_bounds_valid s p v : page_bounds_valid (update_page_bounds s p v) = page_bounds_valid s.
Proof. unfold update_page_bounds. destruct v; try done; destruct (page_bounds_valid s) eqn:E; cbn; try done; by case_decide. Qed.

Lemma update_page_bounds_ok t s held p v :
  zone_ok t s held → page_bounds_valid s = true → typed t v →
  zone_ok t (update_page_bounds s p v) (held_add held p v).
Proof.
  intros [Ht Hb Hn] Hvalid Hv. pose proof (typed_not_null t v Hv) as Hnn. unfold held_add. constructor.
  - intros q. destruct (decide (q = p)); [by constructor|done].
  - intros q b Hq E. apply (f_equal mjoin) in E. rewrite update_bounds_lookup in E by done. cbn in E.
    destruct (decide (q = p)) as [->|Hne].
    + rewrite decide_True in E by done. injection E as <-. apply extend_covers_opt; [done|done|].
      destruct (page_bounds s !! p) as [[b|]|] eqn:E; cbn; [by apply Hb|..]; apply Hn; (done || by rewrite E).
    + rewrite decide_False in E by tauto. apply Hb; [done|].
      destruct (page_bounds s !! q) as [[b'|]|]; cbn in E; congruence.
  - intros q Hq E. rewrite update_bounds_lookup in E by done. destruct (decide (q = p)) as [->|Hne].
    + by rewrite decide_True in E.
    + rewrite decide_False in E by tauto. by apply Hn.
Qed.

Fixpoint append_all (s : ColumnStats) (ws : list (nat * Value)) : ColumnStats :=
  match ws with [] => s | (p, v) :: ws => append_all (update_page_bounds s p v) ws end.
Fixpoint held_all (held : nat → list Value) (ws : list (nat * Value)) : nat → list Value :=
  match ws with [] => held | (p, v) :: ws => held_all (held_add held p v) ws end.

Lemma append_all_ok t ws s held :
  zone_ok t s held → page_bounds_valid s = true → Forall (λ w, typed t (snd w)) ws → zone_ok t (append_all s ws) (held_all held ws).
Proof.
  revert s held. induction ws as [|[p v] ws IH]; intros s held Hz Hv Hw; cbn; [done|]. inversion Hw as [|? ? Hw1 Hw2]; subst.
  apply IH; [by apply update_page_bounds_ok|by rewrite update_page_bounds_valid|done].
Qed.

Lemma zone_ok_keeps t s held p v :
  zone_ok t s held → (Z.of_nat p < MAX_PAGE_BOUNDS)%Z → v ∈ held p → zone_map_should_skip s t p (Some v) = false.
Proof.
  intros [Ht Hb _] Hp Hv. unfold zone_map_should_skip. destruct (page_bounds_valid s); [|done]. cbn.
  destruct (page_bounds s !! p) as [[b|]|] eqn:E; [|done|done]. apply negb_false_iff.
  destruct (Hb p b Hp E) as [Hmin Hmax Hall]. destruct (Hall v Hv). specialize (Ht p). rewrite Forall_forall in Ht.
  apply in_page_spec; auto. apply Ht. by apply list_elem_of_In.
Qed.

Lemma append_all_valid ws s : page_bounds_valid (append_all s ws) = page_bounds_valid s.
Proof. revert s. induction ws as [|[p v] ws IH]; intros s; cbn; [done|]. by rewrite IH, update_page_bounds_valid. Qed.

(** Pages beyond the cap keep the bounds they have. *)
Lemma append_all_capped ws s p :
  page_bounds_valid s = true → (MAX_PAGE_BOUNDS ≤ Z.of_nat p)%Z →
  mjoin (page_bounds (append_all s ws) !! p) = mjoin (page_bounds s !! p).
Proof.
  intros Hvalid Hp. revert s Hvalid. induction ws as [|[q v] ws IH]; intros s Hvalid; cbn; [done|].
  rewrite IH by (by rewrite update_page_bounds_valid). assert (v = VNull ∨ v ≠ VNull) as [->|Hv] by (destruct v; auto; by right); [done|].
  rewrite update_bounds_lookup, decide_False by (done || lia). done.
Qed.

(** Bounds that are NaN stay so under numbers. *)
Lemma append_all_nan ws s p n m :
  page_bounds_valid s = true → is_nan n = true → is_nan m = true →
  Forall (λ w, fst w = p → is_number (snd w) = true) ws →
  mjoin (page_bounds s !! p) = Some (mkBounds (VNumber n) (VNumber m)) →
  mjoin (page_bounds (append_all s ws) !! p) = Some (mkBounds (VNumber n) (VNumber m)).
Proof.
  intros Hvalid Hn Hm Hw. revert s Hvalid. induction Hw as [|[q v] ws Hq _ IH]; intros s Hvalid E; cbn; [done|].
  apply IH; [by rewrite update_page_bounds_valid|]. assert (v = VNull ∨ v ≠ VNull) as [->|Hv] by (destruct v; auto; by right); [done|].
  rewrite update_bounds_lookup by done. destruct (decide _) as [[<- _]|]; [|done].
  rewrite E. specialize (Hq eq_refl). destruct v; try done. cbn [extend_bounds pb_min pb_max].
  unfold value_lt, value_gt. cbn [partial_cmp]. unfold f64_cmp. rewrite Hn, Hm, !orb_true_r. done.
Qed.

(** C34. What appends do to the zone map ([update_page_bounds],
    [zone_map_should_skip]), page by page.  Below the cap of 1,000,000 pages:
    if the bounds cover what the pages hold, all of the column's type and no
    NaN, then after any appends of such values an equality scan for a value
    that is on a page, old or new, does not skip the page; but if the first
    value to reach an empty page is a NaN, then whatever numbers follow it
    there, the scan skips the page for every number.  Pages from the cap on
    keep the answer they had, whatever is appended. *)
Theorem zone_map_keeps_matches (t : LogicalType) (s : ColumnStats) (held : nat → list Value) :
  zone_ok t s held → page_bounds_valid s = true →
  (∀ ws p v, Forall (λ w, typed t (snd w)) ws → (Z.of_nat p < MAX_PAGE_BOUNDS)%Z → v ∈ held_all held ws p →
     zone_map_should_skip (append_all s ws) t p (Some v) = false) ∧
  (∀ ws p nan n, is_nan nan = true → (Z.of_nat p < MAX_PAGE_BOUNDS)%Z → mjoin (page_bounds s !! p) = None →
     Forall (λ w, fst w = p → is_number (snd w) = true) ws → number_type t = true →
     zone_map_should_skip (append_all s ((p, VNumber nan) :: ws)) t p (Some (VNumber n)) = true) ∧
  (∀ ws p q, (MAX_PAGE_BOUNDS ≤ Z.of_nat p)%Z →
     zone_map_should_skip (append_all s ws) t p q = zone_map_should_skip s t p q).
Proof.
  intros Hz Hs. split_and!.
  - intros ws p v Hw Hp Hv. eapply zone_ok_keeps; [by apply append_all_ok|done|done].
  - intros ws p nan n Hnan Hp Hnone Hw Ht.
    assert (mjoin (page_bounds (append_all s ((p, VNumber nan) :: ws)) !! p)
            = Some (mkBounds (VNumber nan) (VNumber nan))) as E.
    { cbn [append_all]. apply append_all_nan; [by rewrite update_page_bounds_valid|done..|].
      rewrite update_bounds_lookup, decide_True, Hnone by done. done. }
    unfold zone_map_should_skip. rewrite append_all_valid, Hs. cbn [negb].
    destruct (page_bounds (append_all _ _) !! p) as [[b|]|]; cbn in E; simplify_eq.
    destruct t; try done; cbn [value_can_be_in_page pb_min pb_max as_number];
      unfold f64_between, f64_cmp; by rewrite Hnan, !orb_true_r.
  - intros ws p q Hp. unfold zone_map_should_skip. rewrite append_all_valid.
    destruct q; [|done]. destruct (page_bounds_valid s) eqn:E; [|done]. cbn [negb].
    pose proof (append_all_capped ws s p E Hp) as H.
    destruct (page_bounds (append_all s ws) !! p) as [[b|]|], (page_bounds s !! p) as [[b'|]|];
      cbn in H; by simplify_eq.
Qed.

(** ** Recomputing the bounds *)

(** Recomputed bounds can hide a match: on a page that holds the numbers
    [a], [b] and [c] in this order with [a < c < b], the upper bound becomes [c],
    and an equality scan for [b] skips the page. *)
Theorem recomputed_bounds_hide_match (s : ColumnStats) (a b c : Z) :
  num_values s ≠ 0%Z → is_nan a = false → is_nan b = false → is_nan c = false → (f64_key a < f64_key c < f64_key b)%Z →
  zone_map_should_skip (compute_page_bounds s [[VNumber a; VNumber b; VNumber c]]) TInt64 0 (Some (VNumber b)) = true.
Proof.
  intros Hs Ha Hb Hc Hlt. unfold compute_page_bounds. rewrite decide_False by done.
  assert (∀ x y, is_nan x = false → is_nan y = false → (f64_key x < f64_key y)%Z →
    value_lt (VNumber y) (VNumber x) = false ∧ value_gt (VNumber y) (VNumber x) = true) as Hcmp.
  { intros x y Hx Hy Hxy. unfold value_lt, value_gt. cbn [partial_cmp]. unfold f64_cmp. rewrite Hx, Hy. cbn [orb].
    assert ((f64_key y ?= f64_key x)%Z = Gt) as -> by (apply Z.compare_gt_iff; lia). done. }
  assert (page_scan [VNumber a; VNumber b; VNumber c] = Some (mkBounds (VNumber a) (VNumber c))) as E.
  { destruct (Hcmp a b) as [E1 E2]; [done|done|lia|]. destruct (Hcmp a c) as [E3 E4]; [done|done|lia|].
    unfold page_scan. cbn [foldl scan_value fst snd]. rewrite E1, E2. cbn [fst snd]. rewrite E3, E4. done. }
  unfold zone_map_should_skip. cbn. rewrite E. cbn. rewrite f64_between_spec by done.
  rewrite bool_decide_eq_false_2 by lia. done.
Qed.

End value_order.

(** ** Witnesses *)

(** The doubles 1.0, 2.0, 3.0 and 5.0. *)
Definition f1 : Z := 0x3FF0000000000000.
Definition f2 : Z := 0x4000000000000000.
Definition f3 : Z := 0x4008000000000000.
Definition f5 : Z := 0x4014000000000000.

Definition no_debug (v : Value) : list Z := [].
Definition ex_stats : ColumnStats := compute_page_bounds no_debug (update no_debug column_stats_new (VNumber f1)) [[VNumber f1; VNumber f3]].
Definition ex_held (p : nat) : list Value := if decide (p = 0) then [VNumber f3; VNumber f1] else [].

Lemma ex_zone_ok : zone_ok TDouble ex_stats ex_held.
Proof.
  constructor.
  - intros p. unfold ex_held. destruct (decide (p = 0)); [|by constructor]. repeat constructor; reflexivity.
  - intros p b _ Hb. unfold ex_held. destruct (decide (p = 0)) as [->|Hp].
    + assert (b = mkBounds (VNumber f1) (VNumber f3)) as -> by (vm_compute in Hb; by injection Hb as <-).
      constructor; [reflexivity|reflexivity|]. intros v Hv.
      apply elem_of_cons in Hv as [->|Hv]; [|apply elem_of_cons in Hv as [->|Hv]; [|by apply elem_of_nil in Hv]].
      all: split; vm_compute; intros Hc; discriminate Hc.
    + destruct p as [|p]; [done|]. vm_compute in Hb. by destruct p.
  - intros [|p] Hp Hn; [by vm_compute in Hn|]. done.
Qed.

Definition f_nan : Z := 0x7FF8000000000000.

Lemma zone_map_keeps_matches_witness :
  zone_map_should_skip (append_all no_debug ex_stats [(0, VNumber f5); (1, VNumber f2)]) TDouble 0 (Some (VNumber f5)) = false ∧
  zone_map_should_skip (append_all no_debug ex_stats [(1, VNumber f_nan); (1, VNumber f5)]) TDouble 1 (Some (VNumber f5)) = true.
Proof.
  destruct (zone_map_keeps_matches no_debug TDouble ex_stats ex_held ex_zone_ok ltac:(by_compute)) as (H1 & H2 & _).
  split.
  - apply H1; [repeat constructor; reflexivity|reflexivity|left].
  - apply H2; [reflexivity|reflexivity|by vm_compute|repeat constructor|reflexivity].
Defined.

Lemma recomputed_bounds_hide_match_witness :
  zone_map_should_skip (compute_page_bounds no_debug (update no_debug column_stats_new (VNumber f1)) [[VNumber f1; VNumber f5; VNumber f3]])
    TInt64 0 (Some (VNumber f5)) = true.
Proof. apply (recomputed_bounds_hide_match no_debug); by_compute. Defined.
