(* ===== verification/Column.v ===== *)
(** * Columns on pages (storage/column.rs)

    A column keeps its values in fixed-size slots of a data file, one null byte
    per row in a second file, and long strings in an overflow file.  The files
    are the pages one transaction sees ([PageFile]); the row versions, and of the
    transaction the lists a column appends to, are threaded through every call.
    Logging a page has no effect on this state (see BufferVersions for the log).
    Failures of the buffer manager are left out; [add_new_page] hands out the
    next page (FileHandle has the reuse of freed ones). *)
From stdpp Require Import base list gmap strings numbers.
From Stdlib Require Import ZArith Lia Bool.
From S2P Require Import Prelude Codec Codecs Alp RowVersion TxnManager PageFile Overflow Stats.
Open Scope nat_scope.

(** ** State *)

(** What a column uses of the transaction and of its shared row versions. *)
Record WriteTx := mkWriteTx {
  w_tx_id : Z;
  w_read_ts : Z;
  w_read_only : bool;
  w_versions : RowVersion;
  w_modified_rows : list Z;
  w_modified_page_rows : list PageRowMod;
}.

Record ColumnData := mkData {
  cd_name : list Z;
  data_type : LogicalType;
  fh_id : Z;
  fh : pages;
  null_fh_id : Z;
  null_fh : pages;
  overflow_fh : option pages;
  stats : ColumnStats;
  dirty : bool;
  atomic_num_values : Z;
  atomic_null_count : Z;
  compressed : bool;
  pending_nulls : gmap Z (list (Z * Z));
}.

Inductive Column := mkColumn { col : ColumnData; child_columns : list Column }.

Definition set_fh (c : ColumnData) (f : pages) : ColumnData :=
  mkData (cd_name c) (data_type c) (fh_id c) f (null_fh_id c) (null_fh c) (overflow_fh c) (stats c) (dirty c)
         (atomic_num_values c) (atomic_null_count c) (compressed c) (pending_nulls c).
Definition set_null_fh (c : ColumnData) (f : pages) : ColumnData :=
  mkData (cd_name c) (data_type c) (fh_id c) (fh c) (null_fh_id c) f (overflow_fh c) (stats c) (dirty c)
         (atomic_num_values c) (atomic_null_count c) (compressed c) (pending_nulls c).
Definition set_overflow (c : ColumnData) (f : option pages) : ColumnData :=
  mkData (cd_name c) (data_type c) (fh_id c) (fh c) (null_fh_id c) (null_fh c) f (stats c) (dirty c)
         (atomic_num_values c) (atomic_null_count c) (compressed c) (pending_nulls c).
Definition set_stats (c : ColumnData) (s : ColumnStats) : ColumnData :=
  mkData (cd_name c) (data_type c) (fh_id c) (fh c) (null_fh_id c) (null_fh c) (overflow_fh c) s (dirty c)
         (atomic_num_values c) (atomic_null_count c) (compressed c) (pending_nulls c).
Definition set_dirty (c : ColumnData) : ColumnData :=
  mkData (cd_name c) (data_type c) (fh_id c) (fh c) (null_fh_id c) (null_fh c) (overflow_fh c) (stats c) true
         (atomic_num_values c) (atomic_null_count c) (compressed c) (pending_nulls c).
Definition add_counts (c : ColumnData) (values nulls : Z) : ColumnData :=
  mkData (cd_name c) (data_type c) (fh_id c) (fh c) (null_fh_id c) (null_fh c) (overflow_fh c) (stats c) (dirty c)
         (atomic_num_values c + values) (atomic_null_count c + nulls) (compressed c) (pending_nulls c).
Definition set_pending (c : ColumnData) (p : gmap Z (list (Z * Z))) : ColumnData :=
  mkData (cd_name c) (data_type c) (fh_id c) (fh c) (null_fh_id c) (null_fh c) (overflow_fh c) (stats c) (dirty c)
         (atomic_num_values c) (atomic_null_count c) (compressed c) p.
Definition set_compressed (c : ColumnData) (b : bool) : ColumnData :=
  mkData (cd_name c) (data_type c) (fh_id c) (fh c) (null_fh_id c) (null_fh c) (overflow_fh c) (stats c) (dirty c)
         (atomic_num_values c) (atomic_null_count c) b (pending_nulls c).

Definition column_new (name : list Z) (t : LogicalType) (nf df : Z * pages) (ofh : option pages) : ColumnData :=
  mkData name t (fst df) (snd df) (fst nf) (snd nf) ofh column_stats_new false 0 0 false ∅.

Definition push_mods (w : WriteTx) (l : list PageRowMod) : WriteTx :=
  mkWriteTx (w_tx_id w) (w_read_ts w) (w_read_only w) (w_versions w) (w_modified_rows w) (w_modified_page_rows w ++ l).
Definition push_row (w : WriteTx) (row_id : Z) : WriteTx :=
  mkWriteTx (w_tx_id w) (w_read_ts w) (w_read_only w) (w_versions w) (w_modified_rows w ++ [row_id]) (w_modified_page_rows w).
Definition set_versions (w : WriteTx) (rv : RowVersion) : WriteTx :=
  mkWriteTx (w_tx_id w) (w_read_ts w) (w_read_only w) rv (w_modified_rows w) (w_modified_page_rows w).

(** A call on a column: the new column and transaction, and the result. *)
Definition result (A : Type) : Type := (ColumnData * WriteTx) * outcome A.
Definition and_then {A B} (r : result A) (k : ColumnData → WriteTx → A → result B) : result B :=
  match r with
  | ((c, w), Ok a) => k c w a
  | (s, Err e) => (s, Err e)
  | (s, Panic) => (s, Panic)
  end.

(** ** Page geometry *)

Definition element_size (t : LogicalType) : nat :=
  match t with
  | TInt64 | TUint64 | TNode _ | TDouble | TFloat | TTimestamp => 8
  | TInt32 | TDate => 4
  | TBool => 1
  | TString => 64
  | _ => 8
  end.

Record ColumnLayout := mkLayout { cl_element_size : nat; cl_values_per_page : Z }.
Definition uncompressed (es : nat) : ColumnLayout := mkLayout es (4096 / Z.of_nat (es `max` 1))%Z.
Definition page_index (l : ColumnLayout) (row_id : Z) : Z := (row_id / (cl_values_per_page l `max` 1))%Z.
Definition byte_offset (l : ColumnLayout) (row_id : Z) : nat :=
  Z.to_nat (row_id mod (cl_values_per_page l `max` 1)) * cl_element_size l.
Definition value_index (l : ColumnLayout) (row_id : Z) : nat := Z.to_nat (row_id mod (cl_values_per_page l `max` 1)).

Definition layout (c : ColumnData) : ColumnLayout := uncompressed (element_size (data_type c)).
Definition values_per_page (t : LogicalType) : Z := cl_values_per_page (uncompressed (element_size t)).

(** [while fh.get_num_pages() <= page_idx { fh.add_new_page() }] *)
Fixpoint add_pages (n : nat) (f : pages) : pages :=
  match n with O => f | S n => add_pages n (fst (add_new_page f)) end.
Definition grow_to (f : pages) (page_idx : Z) : pages := add_pages (Z.to_nat (page_idx + 1 - pg_num f)) f.

(** ** Codecs behind one interface ([Box<dyn CompressionAlg>]) *)

Inductive DynAlg :=
| DynConstant (a : ConstantAlg)
| DynRle (a : RleAlg)
| DynBitpacking (a : IntegerBitpackingAlg)
| DynDict (a : DictAlg)
| DynAlp (a : AlpAlg)
| DynFor (a : FixedFrameOfReferenceAlg)
| DynUncompressed (a : UncompressedAlg).

#[export] Instance dyn_alg : CompressionAlg DynAlg := {|
  get_compression_type d :=
    match d with
    | DynConstant a => get_compression_type a
    | DynRle a => get_compression_type a
    | DynBitpacking a => get_compression_type a
    | DynDict a => get_compression_type a
    | DynAlp a => get_compression_type a
    | DynFor a => get_compression_type a
    | DynUncompressed a => get_compression_type a
    end;
  compress_next_page d :=
    match d with
    | DynConstant a => compress_next_page a
    | DynRle a => compress_next_page a
    | DynBitpacking a => compress_next_page a
    | DynDict a => compress_next_page a
    | DynAlp a => compress_next_page a
    | DynFor a => compress_next_page a
    | DynUncompressed a => compress_next_page a
    end;
  decompress_from_page d :=
    match d with
    | DynConstant a => decompress_from_page a
    | DynRle a => decompress_from_page a
    | DynBitpacking a => decompress_from_page a
    | DynDict a => decompress_from_page a
    | DynAlp a => decompress_from_page a
    | DynFor a => decompress_from_page a
    | DynUncompressed a => decompress_from_page a
    end;
|}.

Definition get_alg (compression : CompressionType) (element_size : nat) : DynAlg :=
  match compression with
  | Constant => DynConstant mkConstant
  | Rle => DynRle mkRle
  | IntegerBitpacking => DynBitpacking mkIntegerBitpacking
  | Dict => DynDict mkDict
  | Alp => DynAlp mkAlp
  | FixedFrameOfReference => DynFor mkFrameOfReference
  | Uncompressed | BooleanBitpacking => DynUncompressed (mkUncompressed element_size)
  end.

(** ** Values in slots *)

(** [x as i32] for a double and for a 64-bit word, [x as f64] for a signed
    integer, [iN::from_le_bytes]. *)
Definition f64_as_i32 (b : Z) : Z := Z.max (- 2 ^ 31) (Z.min (2 ^ 31 - 1) (f64_as_i64 b)).
Definition wrap_i32 (z : Z) : Z := let m := (z mod 2 ^ 32)%Z in if decide (m < 2 ^ 31)%Z then m else (m - 2 ^ 32)%Z.
Definition int_as_f64 (z : Z) : Z := if decide (z < 0)%Z then (2 ^ 63 + u64_as_f64 (- z))%Z else u64_as_f64 z.

(** [data.len().div_ceil(4096).max(1)] *)
Definition pages_for (len : nat) : nat := ((len + (PAGE_SIZE - 1)) / PAGE_SIZE) `max` 1.

Fixpoint write_overflow_pages (n page_off : nat) (first_page : Z) (data : list Z) (f : pages) : pages :=
  match n with
  | O => f
  | S n =>
      let page_idx := (first_page + Z.of_nat page_off)%Z in
      let frame := page_at f page_idx in
      let start := page_off * PAGE_SIZE in
      let end_ := (start + PAGE_SIZE) `min` length data in
      let frame := if decide (start < end_) then splice frame 0 (slice data start end_) else frame in
      write_overflow_pages n (page_off + 1) first_page data (put_page f page_idx frame)
  end.
Definition append_to_overflow (ofh : option pages) (data : list Z) : option pages * outcome (Z * Z) :=
  match ofh with
  | None => (None, Err Internal)
  | Some f =>
      let '(f, first_page) := add_new_page f in
      let num_pages := pages_for (length data) in
      let f := add_pages (num_pages - 1) f in
      (Some (write_overflow_pages num_pages 0 first_page data f), Ok (first_page, 0%Z))
  end.

Definition serialize_value_into (t : LogicalType) (ofh : option pages) (val : Value) (buf : list Z) :
    option pages * outcome (list Z) :=
  match val, t with
  | VNumber n, TInt64 => (ofh, write_at buf 0 (to_le 8 (f64_as_i64 n)))
  | VNode id, TInt64 => (ofh, write_at buf 0 (to_le 8 id))
  | VNumber n, TInt32 => (ofh, write_at buf 0 (to_le 4 (f64_as_i32 n)))
  | VNode id, TInt32 => (ofh, write_at buf 0 (to_le 4 id))
  | VNode id, TUint64 | VNode id, TNode _ => (ofh, write_at buf 0 (to_le 8 id))
  | VNumber n, TUint64 | VNumber n, TNode _ => (ofh, write_at buf 0 (to_le 8 (f64_as_u64 n)))
  | VNumber n, TDouble | VNumber n, TFloat => (ofh, write_at buf 0 (to_le 8 n))
  | VNumber n, TList _ | VNumber n, TStruct _ => (ofh, write_at buf 0 (to_le 8 n))
  | VNode id, TDouble => (ofh, write_at buf 0 (to_le 8 (u64_as_f64 id)))
  | VBoolean b, TBool => (ofh, write_at buf 0 [if b then 1%Z else 0%Z])
  | VString s, TString =>
      if decide (length s < 64) then
        (ofh, let* buf := write_at buf 0 [Z.of_nat (length s)] in write_at buf 1 (take (length s `min` 63) s))
      else if decide (ofh ≠ None) then
        match append_to_overflow ofh s with
        | (ofh, Ok (page_idx, offset)) =>
            (ofh, let* buf := write_at buf 0 [255%Z] in
                  let* buf := write_at buf 1 (to_le 8 page_idx) in
                  let* buf := write_at buf 9 (to_le 8 offset) in
                  write_at buf 17 (to_le 4 (Z.of_nat (length s))))
        | (ofh, Err e) => (ofh, Err e)
        | (ofh, Panic) => (ofh, Panic)
        end
      else (ofh, Err Internal)
  | VDate d, TDate => (ofh, write_at buf 0 (to_le 4 d))
  | VTimestamp ts, TTimestamp => (ofh, write_at buf 0 (to_le 8 ts))
  | _, _ => (ofh, Ok buf)
  end.

(** The read loop over consecutive overflow pages.  Each turn leaves its page,
    so the pages of the file bound the turns. *)
Fixpoint read_span (fuel : nat) (f : pages) (pos remaining : Z) (out : list Z) : list Z :=
  match fuel with
  | O => out
  | S fuel =>
      if decide (0 < remaining)%Z then
        let page := (pos / 4096)%Z in
        if decide (pg_num f ≤ page)%Z then out
        else
          let off := (pos mod 4096)%Z in
          let chunk := (remaining `min` (4096 - off))%Z in
          let frame := page_at f page in
          let avail := (chunk `min` (Z.of_nat (length frame) - off))%Z in
          let out := out ++ slice frame (Z.to_nat off) (Z.to_nat (off + avail)) in
          if decide (avail < chunk)%Z then out
          else read_span fuel f (pos + avail) (remaining - avail) out
      else out
  end.
Definition span_fuel (f : pages) : nat := S (Z.to_nat (pg_num f)).

Section columns.
(** [format!("{v:?}")] and [String::from_utf8_lossy]. *)
Context (debug : Value → list Z) (from_utf8_lossy : list Z → list Z).

Definition to_text (raw : list Z) : list Z := if utf8_valid raw then raw else from_utf8_lossy raw.

Definition parse_value (t : LogicalType) (ofh : option pages) (data : list Z) : outcome Value :=
  match t with
  | TInt64 => let* b := slice_get data 0 8 in Ok (VNumber (int_as_f64 (u64_as_i64 (of_le b))))
  | TInt32 => let* b := slice_get data 0 4 in Ok (VNumber (int_as_f64 (wrap_i32 (of_le b))))
  | TUint64 | TNode _ => let* b := slice_get data 0 8 in Ok (VNode (of_le b))
  | TDouble | TFloat => let* b := slice_get data 0 8 in Ok (VNumber (of_le b))
  | TBool => let* b := slice_get data 0 1 in Ok (VBoolean (negb (bool_decide (byte_at b 0 = 0%Z))))
  | TString =>
      let* m := slice_get data 0 1 in
      if decide (byte_at m 0 = 255%Z) then
        match ofh with
        | None => Ok (VString [])
        | Some f =>
            let* p := slice_get data 1 9 in
            let* o := slice_get data 9 17 in
            let* l := slice_get data 17 21 in
            Ok (VString (to_text (read_span (span_fuel f) f (of_le p * 4096 + of_le o) (of_le l) [])))
        end
      else
        let actual_len := Z.to_nat (byte_at m 0) `min` 63 in
        let* raw := slice_get data 1 (1 + actual_len) in
        Ok (VString (to_text raw))
  | TDate => let* b := slice_get data 0 4 in Ok (VDate (wrap_i32 (of_le b)))
  | TTimestamp => let* b := slice_get data 0 8 in Ok (VTimestamp (u64_as_i64 (of_le b)))
  | TList _ | TStruct _ => let* b := slice_get data 0 8 in Ok (VNumber (of_le b))
  | _ => Ok VNull
  end.

(** ** Null bits *)

Definition PENDING_NULLS_FLUSH_THRESHOLD : Z := 100000.

(** The 64-byte row image of a null byte. *)
Definition null_row_data (v : Z) : list Z := v :: replicate 63 0%Z.
Definition null_mod (c : ColumnData) (row_id v : Z) : PageRowMod :=
  mkPageRowMod (null_fh_id c) (row_id / 4096) row_id 1 4096 (null_row_data v) None.

(** The changes grouped by page, each page's in order. *)
Definition group_push (by_page : gmap Z (list (Z * Z))) (e : Z * Z) : gmap Z (list (Z * Z)) :=
  let page_idx := (fst e / 4096)%Z in
  <[page_idx := default [] (by_page !! page_idx) ++ [((fst e) mod 4096, snd e)%Z]]> by_page.
Definition group_by_page (pending : list (Z * Z)) : gmap Z (list (Z * Z)) := foldl group_push ∅ pending.

Definition write_null_page (f : pages) (p : Z * list (Z * Z)) : pages :=
  let f := grow_to f (fst p) in
  let frame := foldl (λ frame e, <[Z.to_nat (fst e) := snd e]> frame) (page_at f (fst p)) (snd p) in
  put_page f (fst p) frame.
Definition write_null_entries (c : ColumnData) (w : WriteTx) (pending : list (Z * Z)) : ColumnData * WriteTx :=
  let w := if w_read_only w then w else push_mods w (map (λ e, null_mod c (fst e) (snd e)) pending) in
  (set_null_fh c (foldl write_null_page (null_fh c) (map_to_list (group_by_page pending))), w).

Definition set_null (c : ColumnData) (w : WriteTx) (row_id : Z) (is_null : bool) : ColumnData * WriteTx :=
  let c := set_dirty c in
  let entry := default [] (pending_nulls c !! w_tx_id w) ++ [(row_id, if is_null then 1%Z else 0%Z)] in
  if decide (PENDING_NULLS_FLUSH_THRESHOLD ≤ Z.of_nat (length entry))%Z
  then write_null_entries (set_pending c (<[w_tx_id w := []]> (pending_nulls c))) w entry
  else (set_pending c (<[w_tx_id w := entry]> (pending_nulls c)), w).

Definition flush_pending_nulls (c : ColumnData) (w : WriteTx) : ColumnData * WriteTx :=
  let pending := default [] (pending_nulls c !! w_tx_id w) in
  let c := set_pending c (delete (w_tx_id w) (pending_nulls c)) in
  if decide (pending = []) then (c, w) else write_null_entries c w pending.

(** The last pending change of the row, else the null page. *)
Definition last_entry (row_id : Z) (l : list (Z * Z)) : option (Z * Z) :=
  list_find (λ e, fst e = row_id) (reverse l) ≫= λ p, Some (snd p).
Definition is_null (c : ColumnData) (tx_id row_id : Z) : bool :=
  match last_entry row_id (default [] (pending_nulls c !! tx_id)) with
  | Some (_, v) => negb (bool_decide (v = 0%Z))
  | None => negb (bool_decide (byte_at (page_at (null_fh c) (row_id / 4096)) (Z.to_nat (row_id mod 4096)) = 0%Z))
  end.

(** ** Plain values *)

Definition ensure_writable (c : ColumnData) : outcome unit := if compressed c then Err Internal else Ok tt.

(** The overflow page of a long string, kept with the row for the commit merge. *)
Definition capture_overflow (ofh : option pages) (buf : list Z) : option (list Z) :=
  if decide (byte_at buf 0 = 255%Z) then
    match ofh with
    | Some f => Some (take (Z.to_nat (of_le (slice buf 17 21) `min` 4096)) (page_at f (of_le (slice buf 1 9))))
    | None => None
    end
  else None.
Definition row_data_of (es : nat) (buf : list Z) : list Z := splice (replicate 64 0%Z) 0 (take es buf).

Definition append_plain_value (c : ColumnData) (w : WriteTx) (val : Value) (row_id : Z) : result unit :=
  let t := data_type c in
  let es := element_size t in
  let vpp := values_per_page t in
  let page_idx := (row_id / vpp)%Z in
  let offset_in_page := Z.to_nat (row_id mod vpp) * es in
  let c := set_fh c (grow_to (fh c) page_idx) in
  match serialize_value_into t (overflow_fh c) val (replicate 64 0%Z) with
  | (ofh, Ok stack_buf) =>
      let frame := splice (page_at (fh c) page_idx) offset_in_page (take es stack_buf) in
      let c := set_overflow (set_fh c (put_page (fh c) page_idx frame)) ofh in
      match mark_row (w_versions w) row_id (w_tx_id w) (w_read_ts w) with
      | (rv, Some _) => ((c, set_versions w rv), Err Database)
      | (rv, None) =>
          let w := push_row (set_versions w rv) row_id in
          let w := push_mods w [mkPageRowMod (fh_id c) page_idx row_id es vpp (row_data_of es stack_buf)
                                             (capture_overflow ofh stack_buf)] in
          let c := add_counts c 1 (match val with VNull => 1 | _ => 0 end)%Z in
          let c := set_stats c (update_page_bounds debug (stats c) (Z.to_nat page_idx) val) in
          ((c, w), Ok tt)
      end
  | (ofh, Err e) => ((set_overflow c ofh, w), Err e)
  | (ofh, Panic) => ((set_overflow c ofh, w), Panic)
  end.

Definition compression_of (s : ColumnStats) : CompressionType :=
  match compression_meta s with Some m => meta_compression m | None => Uncompressed end.

(** A value in the compressed layout: 32 values to a page. *)
Definition get_compressed_value (c : ColumnData) (meta : CompressionMetadata) (row_id : Z) : outcome Value :=
  let es := element_size (data_type c) in
  let alg := get_alg (meta_compression meta) es in
  let frame := page_at (fh c) (row_id / 32) in
  let* temp := decompress_from_page alg frame (Z.to_nat (row_id mod 32)) (replicate (32 * es) 0%Z) 0 1 meta in
  let* data := slice_get temp 0 es in
  parse_value (data_type c) (overflow_fh c) data.

Definition get_uncompressed_value (c : ColumnData) (row_id : Z) : outcome Value :=
  let es := element_size (data_type c) in
  let vpp := (4096 / Z.of_nat es)%Z in
  let offset_in_page := Z.to_nat (row_id mod vpp) * es in
  let* data := slice_get (page_at (fh c) (row_id / vpp)) offset_in_page (offset_in_page + es) in
  parse_value (data_type c) (overflow_fh c) data.

Definition get_plain_value (c : ColumnData) (row_id : Z) : outcome Value :=
  match compression_meta (stats c) with
  | Some meta =>
      if decide (meta_compression meta = Constant) then Ok (meta_min meta)
      else if decide (meta_compression meta = Uncompressed) then get_uncompressed_value c row_id
      else get_compressed_value c meta row_id
  | None => get_uncompressed_value c row_id
  end.

(** ** Values, with nested columns *)

(** A call on a column tree. *)
Definition tree_result (A : Type) : Type := (Column * WriteTx) * outcome A.
Definition on_col {A} (c : Column) (r : result A) : tree_result A :=
  let '((d, w), o) := r in ((mkColumn d (child_columns c), w), o).
Definition map_col (c : Column) (f : ColumnData → ColumnData) : Column := mkColumn (f (col c)) (child_columns c).

Fixpoint append_value (val : Value) (c : Column) (w : WriteTx) (row_id : Z) {struct val} : tree_result unit :=
  match ensure_writable (col c) with
  | Err e => ((c, w), Err e)
  | Panic => ((c, w), Panic)
  | Ok _ =>
      let '(d, w) := set_null (set_dirty (col c)) w row_id (match val with VNull => true | _ => false end) in
      let c := mkColumn d (child_columns c) in
      match val, data_type d with
      | VNull, _ =>
          let '(d, w) := flush_pending_nulls d w in
          on_col c (append_plain_value (add_counts d 0 1) w (VNumber 0) row_id)
      | VList elements, TList _ =>
          match child_columns c with
          | [] => ((c, w), Panic)
          | child :: rest =>
              let num_vals := atomic_num_values (col child) in
              let len := Z.of_nat (length elements) in
              let child := map_col child (λ d, add_counts d len 0) in
              let '((child, w), o) :=
                (fix go (els : list Value) (i : Z) (child : Column) (w : WriteTx) : tree_result unit :=
                   match els with
                   | [] => ((child, w), Ok tt)
                   | el :: els =>
                       match append_value el child w (num_vals + i)%Z with
                       | ((child, w), Ok _) => go els (i + 1)%Z child w
                       | r => r
                       end
                   end) elements 0%Z child w in
              match o with
              | Ok _ =>
                  let child := map_col child (λ d, add_counts d (- len) 0) in
                  let c := mkColumn (col c) (child :: rest) in
                  let end_offset := (num_vals + len)%Z in
                  on_col c (append_plain_value (col c) w (VNumber (u64_as_f64 end_offset)) row_id)
              | _ => ((mkColumn (col c) (child :: rest), w), o)
              end
          end
      | _, TList _ => ((c, w), Ok tt)
      | VStruct vals, TStruct _ =>
          let '((cs, w), o) :=
            (fix go (vals : list (list Z * Value)) (i : nat) (cs : list Column) (w : WriteTx) : (list Column * WriteTx) * outcome unit :=
               match vals with
               | [] => ((cs, w), Ok tt)
               | (_, field_val) :: vals =>
                   match cs !! i with
                   | None => ((cs, w), Panic)
                   | Some child =>
                       match append_value field_val child w row_id with
                       | ((child, w), Ok _) => go vals (i + 1) (<[i := child]> cs) w
                       | ((child, w), Err e) => ((<[i := child]> cs, w), Err e)
                       | ((child, w), Panic) => ((<[i := child]> cs, w), Panic)
                       end
                   end
               end) vals 0 (child_columns c) w in
          ((mkColumn (col c) cs, w), o)
      | _, TStruct _ => ((c, w), Ok tt)
      | _, _ => on_col c (append_plain_value d w val row_id)
      end
  end.

Fixpoint get_value (c : Column) (tx_id row_id : Z) {struct c} : outcome Value :=
  if is_null (col c) tx_id row_id then Ok VNull
  else match data_type (col c) with
  | TList _ =>
      let* e := get_plain_value (col c) row_id in
      let end_offset := f64_as_u64 (as_number e) in
      let* start_offset :=
        if decide (row_id = 0)%Z then Ok 0%Z
        else let* s := get_plain_value (col c) (row_id - 1) in Ok (f64_as_u64 (as_number s)) in
      match child_columns c with
      | [] => if decide (start_offset < end_offset)%Z then Panic else Ok (VList [])
      | child :: _ =>
          let* l :=
            (fix go (rows : list Z) : outcome (list Value) :=
               match rows with
               | [] => Ok []
               | i :: rows =>
                   let* v := get_value child tx_id i in
                   let* l := go rows in
                   Ok (v :: l)
               end) (seqZ start_offset (end_offset - start_offset)) in
          Ok (VList l)
      end
  | TStruct _ =>
      let* fields :=
        (fix go (cs : list Column) : outcome (list (list Z * Value)) :=
           match cs with
           | [] => Ok []
           | child :: cs =>
               let* v := get_value child tx_id row_id in
               let* l := go cs in
               Ok ((cd_name (col child), v) :: l)
           end) (child_columns c) in
      Ok (VStruct fields)
  | _ => get_plain_value (col c) row_id
  end.

(** ** Batches *)

Definition starts_with_underscore (name : list Z) : bool := bool_decide (head name = Some 95%Z).

(** The rows of one page of the null file, up to the end of the page. *)
Fixpoint null_run (c : ColumnData) (nulls : list bool) (row page_idx : Z) (frame : list Z) (mods : list PageRowMod) :
    (list Z * list PageRowMod) * (list bool * Z) :=
  match nulls with
  | [] => ((frame, mods), ([], row))
  | b :: rest =>
      if decide (row / 4096 = page_idx)%Z then
        let bit := if b then 1%Z else 0%Z in
        null_run c rest (row + 1) page_idx (<[Z.to_nat (row mod 4096) := bit]> frame) (mods ++ [null_mod c row bit])
      else ((frame, mods), (nulls, row))
  end.
(** Each turn writes at least one row. *)
Fixpoint write_null_rows (fuel : nat) (c : ColumnData) (w : WriteTx) (nulls : list bool) (row : Z) : ColumnData * WriteTx :=
  match fuel, nulls with
  | S fuel, _ :: _ =>
      let page_idx := (row / 4096)%Z in
      let f := grow_to (null_fh c) page_idx in
      let '((frame, mods), (rest, row)) := null_run c nulls row page_idx (page_at f page_idx) [] in
      write_null_rows fuel (set_null_fh c (put_page f page_idx frame)) (push_mods w mods) rest row
  | _, _ => (c, w)
  end.

(** Writing a value that is not null into its slot; [stack_buf] still holds what
    the previous row of the page left there. *)
Definition write_slot (c : ColumnData) (val : Value) (row page_idx : Z) (stack_buf : list Z) : ColumnData * outcome (list Z) :=
  let t := data_type c in
  let es := element_size t in
  match serialize_value_into t (overflow_fh c) val stack_buf with
  | (ofh, Ok buf) =>
      let offset_in_page := Z.to_nat (row mod values_per_page t) * es in
      let c := set_overflow c ofh in
      let c := set_fh c (put_page (fh c) page_idx (splice (page_at (fh c) page_idx) offset_in_page (take es buf))) in
      (set_stats c (update_page_bounds debug (update debug (stats c) val) (Z.to_nat page_idx) val), Ok buf)
  | (ofh, Err e) => (set_overflow c ofh, Err e)
  | (ofh, Panic) => (set_overflow c ofh, Panic)
  end.
Definition data_mod (c : ColumnData) (is_null : bool) (row page_idx : Z) (stack_buf : list Z) : PageRowMod :=
  let t := data_type c in
  mkPageRowMod (fh_id c) page_idx row (element_size t) (values_per_page t)
    (if is_null then replicate 64 0%Z else row_data_of (element_size t) stack_buf)
    (if is_null then None else capture_overflow (overflow_fh c) stack_buf).

Definition is_null_value (v : Value) : bool := match v with VNull => true | _ => false end.

(** [batch_append_values], one row: slot, row version, row image. *)
Definition batch_row (c : ColumnData) (w : WriteTx) (val : Value) (row page_idx : Z) (stack_buf : list Z) : result (list Z) :=
  let '(c, o) := if is_null_value val then (c, Ok stack_buf) else write_slot c val row page_idx stack_buf in
  match o with
  | Ok buf =>
      match mark_row (w_versions w) row (w_tx_id w) (w_read_ts w) with
      | (rv, Some _) => ((c, set_versions w rv), Err Database)
      | (rv, None) =>
          ((c, push_mods (set_versions w rv) [data_mod c (is_null_value val) row page_idx buf]), Ok buf)
      end
  | Err e => ((c, w), Err e)
  | Panic => ((c, w), Panic)
  end.
(** The rows of one data page; the rest, its first row and the rows written. *)
Fixpoint batch_page (vals : list Value) (c : ColumnData) (w : WriteTx) (row page_idx : Z) (stack_buf : list Z) (rows : list Z) :
    result (list Value * Z * list Z) :=
  match vals with
  | [] => ((c, w), Ok ([], row, rows))
  | val :: rest =>
      if decide (row / values_per_page (data_type c) = page_idx)%Z then
        and_then (batch_row c w val row page_idx stack_buf)
          (λ c w buf, batch_page rest c w (row + 1) page_idx buf (rows ++ [row]))
      else ((c, w), Ok (vals, row, rows))
  end.
Fixpoint batch_pages (fuel : nat) (vals : list Value) (c : ColumnData) (w : WriteTx) (row : Z) (rows : list Z) : result (list Z) :=
  match fuel, vals with
  | S fuel, _ :: _ =>
      let page_idx := (row / values_per_page (data_type c))%Z in
      let c := set_fh c (grow_to (fh c) page_idx) in
      and_then (batch_page vals c w row page_idx (replicate 64 0%Z) rows)
        (λ c w r, let '(rest, row, rows) := r in batch_pages fuel rest c w row rows)
  | _, _ => ((c, w), Ok rows)
  end.

(** [append_value] row by row, for nested columns. *)
Fixpoint append_each (vals : list Value) (c : Column) (w : WriteTx) (row : Z) : tree_result unit :=
  match vals with
  | [] => ((c, w), Ok tt)
  | v :: vals =>
      match append_value v c w row with
      | ((c, w), Ok _) => append_each vals c w (row + 1)
      | r => r
      end
  end.

Definition batch_append_values (c : Column) (w : WriteTx) (vals : list Value) (start_row_id : Z) : tree_result (list Z) :=
  match ensure_writable (col c) with
  | Err e => ((c, w), Err e)
  | Panic => ((c, w), Panic)
  | Ok _ =>
      if decide (vals = []) then ((c, w), Ok [])
      else
        let '(d, w) := write_null_rows (length vals) (col c) w (map is_null_value vals) start_row_id in
        let c := mkColumn d (child_columns c) in
        match data_type d with
        | TList _ | TStruct _ =>
            match append_each vals c w start_row_id with
            | (s, Ok _) => (s, Ok [])
            | (s, Err e) => (s, Err e)
            | (s, Panic) => (s, Panic)
            end
        | _ => on_col c (batch_pages (length vals) vals d w start_row_id [])
        end
  end.

(** An Arrow array: its validity and what [Value::from_arrow] gives at each index. *)
Record Array := mkArray { arr_nulls : option (list bool); arr_values : list Value }.
Definition arr_null_at (a : Array) (i : nat) : bool :=
  match arr_nulls a with Some n => default false (n !! i) | None => false end.
Definition arr_rows (a : Array) : list (bool * Value) := imap (λ i v, (arr_null_at a i, v)) (arr_values a).

(** [bulk_append_array_inner], one row: no per-row marking, the row images are
    collected and handed over at the end. *)
Definition bulk_row (c : ColumnData) (w : WriteTx) (r : bool * Value) (row page_idx : Z) (stack_buf : list Z) :
    result (list Z * PageRowMod) :=
  let '(c, o) := if fst r then (c, Ok stack_buf) else write_slot c (snd r) row page_idx stack_buf in
  match o with
  | Ok buf => ((c, w), Ok (buf, data_mod c (fst r) row page_idx buf))
  | Err e => ((c, w), Err e)
  | Panic => ((c, w), Panic)
  end.
Fixpoint bulk_page (vals : list (bool * Value)) (c : ColumnData) (w : WriteTx) (row page_idx : Z) (stack_buf : list Z)
    (mods : list PageRowMod) : result (list (bool * Value) * Z * list PageRowMod) :=
  match vals with
  | [] => ((c, w), Ok ([], row, mods))
  | r :: rest =>
      if decide (row / values_per_page (data_type c) = page_idx)%Z then
        and_then (bulk_row c w r row page_idx stack_buf)
          (λ c w x, bulk_page rest c w (row + 1) page_idx (fst x) (mods ++ [snd x]))
      else ((c, w), Ok (vals, row, mods))
  end.
Fixpoint bulk_pages (fuel : nat) (vals : list (bool * Value)) (c : ColumnData) (w : WriteTx) (row : Z) (mods : list PageRowMod) :
    result (list PageRowMod) :=
  match fuel, vals with
  | S fuel, _ :: _ =>
      let page_idx := (row / values_per_page (data_type c))%Z in
      let c := set_fh c (grow_to (fh c) page_idx) in
      and_then (bulk_page vals c w row page_idx (replicate 64 0%Z) mods)
        (λ c w r, let '(rest, row, mods) := r in bulk_pages fuel rest c w row mods)
  | _, _ => ((c, w), Ok mods)
  end.

Definition bulk_append_array_inner (c : Column) (w : WriteTx) (a : Array) (start_row_id : Z) (skip_modified_rows : bool) :
    tree_result unit :=
  match ensure_writable (col c) with
  | Err e => ((c, w), Err e)
  | Panic => ((c, w), Panic)
  | Ok _ =>
      let n := length (arr_values a) in
      if decide (n = 0) then ((c, w), Ok tt)
      else
        let d := set_dirty (col c) in
        let w := set_versions w (mark_row_batch (w_versions w) start_row_id (start_row_id + Z.of_nat n) (w_tx_id w)) in
        let '(d, w) := write_null_rows n d w (map fst (arr_rows a)) start_row_id in
        let c := mkColumn d (child_columns c) in
        match data_type d with
        | TList _ | TStruct _ => append_each (arr_values a) c w start_row_id
        | _ =>
            on_col c (and_then (bulk_pages n (arr_rows a) d w start_row_id [])
              (λ d w mods,
                 let w := push_mods w mods in
                 let w := if skip_modified_rows || starts_with_underscore (cd_name d) then w
                          else foldl push_row w (seqZ start_row_id (Z.of_nat n)) in
                 ((d, w), Ok tt)))
        end
  end.
Definition bulk_append_array (c : Column) (w : WriteTx) (a : Array) (start_row_id : Z) : tree_result unit :=
  bulk_append_array_inner c w a start_row_id false.
Definition bulk_append_array_bulk_mode (c : Column) (w : WriteTx) (a : Array) (start_row_id : Z) (is_bulk : bool) : tree_result unit :=
  bulk_append_array_inner c w a start_row_id is_bulk.

(** ** Scanning values *)

Fixpoint parse_run (n k : nat) (c : ColumnData) (block : list Z) (start : nat) : outcome (list Value) :=
  match n with
  | O => Ok []
  | S n =>
      let es := element_size (data_type c) in
      let o := (start + k) * es in
      let* data := slice_get block o (o + es) in
      let* v := parse_value (data_type c) (overflow_fh c) data in
      let* l := parse_run n (k + 1) c block start in
      Ok (v :: l)
  end.

(** Each turn reads at least one value. *)
Fixpoint scan_loop (fuel : nat) (c : ColumnData) (compression : CompressionType) (meta : CompressionMetadata)
    (offset remaining : Z) (temp_block : list Z) : outcome (list Value) :=
  match fuel with
  | O => Ok []
  | S fuel =>
      if decide (0 < remaining)%Z then
        let es := element_size (data_type c) in
        let vpp := if decide (compression = Uncompressed) then (4096 / Z.of_nat es)%Z else 32%Z in
        let page := page_at (fh c) (offset / vpp) in
        let idx := (offset mod vpp)%Z in
        let to_read := ((remaining `min` 32) `min` (vpp - idx))%Z in
        let* r :=
          if decide (compression = Uncompressed) then
            let* l := parse_run (Z.to_nat to_read) 0 c page (Z.to_nat idx) in Ok (l, temp_block)
          else
            let* temp := decompress_from_page (get_alg compression es) page (Z.to_nat idx) temp_block 0 (Z.to_nat to_read) meta in
            let* l := parse_run (Z.to_nat to_read) 0 c temp 0 in Ok (l, temp) in
        let* rest := scan_loop fuel c compression meta (offset + to_read) (remaining - to_read) (snd r) in
        Ok (fst r ++ rest)
      else Ok []
  end.
Definition default_meta : CompressionMetadata := mkMeta VNull VNull Uncompressed 0.
Definition scan (c : ColumnData) (offset num_values : Z) : outcome (list Value) :=
  let compression := compression_of (stats c) in
  let meta := default default_meta (compression_meta (stats c)) in
  if decide (compression = Constant) then Ok (replicate (Z.to_nat num_values) (meta_min meta))
  else scan_loop (Z.to_nat num_values) c compression meta offset num_values
         (replicate (32 * element_size (data_type c)) 0%Z).
End columns.
