(* ===== verification/ColumnSpec.v ===== *)
(** * What a column promises

    Slots, null bytes and overflow pages against the plain picture of a column
    as a map from rows to values: whatever is appended is read back, and other
    rows keep their values. *)
From stdpp Require Import base list gmap strings numbers.
From Stdlib Require Import ZArith Lia Bool.
From S2P Require Import Prelude Codec Codecs Alp RowVersion TxnManager PageFile Overflow Stats Column.
Open Scope nat_scope.

(** ** Files that only grow *)

(** [f'] has all pages of [f], unchanged. *)
Definition extends (f f' : pages) : Prop :=
  (pg_num f ≤ pg_num f')%Z ∧ ∀ i, (i < pg_num f)%Z → page_at f' i = page_at f i.
Definition overflow_extends (o o' : option pages) : Prop :=
  match o, o' with
  | None, None => True
  | Some f, Some f' => extends f f'
  | _, _ => False
  end.

#[export] Instance extends_preorder : PreOrder extends.
Proof.
  split.
  - intros f. split; [lia|done].
  - intros f g h [H1 H2] [H3 H4]. split; [lia|]. intros i Hi. rewrite H4 by lia. by apply H2.
Qed.
#[export] Instance overflow_extends_preorder : PreOrder overflow_extends.
Proof.
  split.
  - intros [f|]; cbn; [reflexivity|done].
  - intros [f|] [g|] [h|]; cbn; try done. by transitivity g.
Qed.

Lemma add_pages_num n f : pg_num (add_pages n f) = (pg_num f + Z.of_nat n)%Z ∧ pg_data (add_pages n f) = pg_data f.
Proof.
  revert f. induction n as [|n IH]; intros f; cbn [add_pages]; [split; [lia|done]|].
  destruct (IH (fst (add_new_page f))) as [-> ->]. cbn. split; [lia|done].
Qed.
Lemma page_at_add_pages n f i : page_at (add_pages n f) i = page_at f i.
Proof. unfold page_at. by rewrite (proj2 (add_pages_num n f)). Qed.
Lemma pages_ok_add_pages n f : pages_ok f → pages_ok (add_pages n f).
Proof. intros H i p. rewrite (proj2 (add_pages_num n f)). apply H. Qed.
Lemma page_at_grow f p i : page_at (grow_to f p) i = page_at f i.
Proof. apply page_at_add_pages. Qed.
Lemma pages_ok_grow f p : pages_ok f → pages_ok (grow_to f p).
Proof. apply pages_ok_add_pages. Qed.
(** The loop leaves the page in the file. *)
Lemma grow_to_num f p : (p < pg_num (grow_to f p))%Z ∧ (pg_num f ≤ pg_num (grow_to f p))%Z.
Proof. unfold grow_to. rewrite (proj1 (add_pages_num _ f)). lia. Qed.

(** ** Long strings *)

Lemma write_overflow_pages_spec n k first data f :
  pages_ok f → bytes_ok data →
  let f' := write_overflow_pages n k first data f in
  pages_ok f' ∧ pg_num f' = pg_num f ∧
  (∀ i, (i < first + Z.of_nat k ∨ first + Z.of_nat (k + n) ≤ i)%Z → page_at f' i = page_at f i) ∧
  (∀ j, k ≤ j < k + n → ∃ tail, page_at f' (first + Z.of_nat j) = slice data (j * PAGE_SIZE) ((j * PAGE_SIZE + PAGE_SIZE) `min` length data) ++ tail).
Proof.
  intros Hf Hd. cbn zeta. revert k f Hf. induction n as [|n IH]; intros k f Hf; cbn [write_overflow_pages].
  - split; [done|]. split; [done|]. split; [done|]. intros j Hj. lia.
  - set (page_idx := (first + Z.of_nat k)%Z). set (st := k * PAGE_SIZE). set (en := (st + PAGE_SIZE) `min` length data).
    destruct (page_at_ok f page_idx Hf) as [Hl Hb].
    set (frame := if decide (st < en) then splice (page_at f page_idx) 0 (slice data st en) else page_at f page_idx).
    assert (length (slice data st en) ≤ PAGE_SIZE) as Hsl by (rewrite length_slice; lia).
    assert (length frame = PAGE_SIZE ∧ bytes_ok frame) as [Hfl Hfb].
    { unfold frame. case_decide; [|done]. split; [rewrite length_splice; lia|]. apply bytes_ok_splice; [done|by apply bytes_ok_slice]. }
    destruct (IH (k + 1) (put_page f page_idx frame)) as (H1 & H2 & H3 & H4); [by apply pages_ok_put|].
    split; [done|]. split; [done|]. split.
    + intros i Hi. rewrite H3 by lia. apply page_at_put_ne. lia.
    + intros j Hj. destruct (decide (j = k)) as [->|]; [|apply H4; lia].
      rewrite H3 by lia. rewrite page_at_put. fold st en. unfold frame. case_decide.
      * unfold splice. rewrite take_0. cbn [app Nat.add]. by eexists.
      * rewrite slice_nil by lia. by eexists.
Qed.

(** The pages of the file from [first] on hold [data]. *)
Definition spans (f : pages) (first : Z) (data : list Z) : Prop :=
  (0 ≤ first)%Z ∧ (first + Z.of_nat (pages_for (length data)) ≤ pg_num f)%Z ∧
  ∀ j, j < pages_for (length data) →
    length (page_at f (first + Z.of_nat j)) = PAGE_SIZE ∧
    ∃ tail, page_at f (first + Z.of_nat j) = slice data (j * PAGE_SIZE) ((j * PAGE_SIZE + PAGE_SIZE) `min` length data) ++ tail.

Lemma spans_extends f f' first data : spans f first data → extends f f' → spans f' first data.
Proof.
  intros (H0 & H1 & H2) [H3 H4]. split; [done|]. split; [lia|]. intros j Hj. rewrite !H4 by lia. by apply H2.
Qed.

Lemma pages_for_le len j : j * PAGE_SIZE < len → j < pages_for len.
Proof.
  intros H. unfold pages_for. pose proof PAGE_SIZE_val. assert (0 < PAGE_SIZE) by lia.
  assert (j + 1 ≤ (len + (PAGE_SIZE - 1)) / PAGE_SIZE); [|lia]. apply Nat.div_le_lower_bound; lia.
Qed.

Lemma read_span_spec fuel f first data k out :
  spans f first data → k * PAGE_SIZE ≤ length data + PAGE_SIZE → pages_for (length data) ≤ k + fuel →
  read_span fuel f ((first + Z.of_nat k) * 4096) (Z.of_nat (length data) - Z.of_nat (k * PAGE_SIZE)) out =
  out ++ drop (k * PAGE_SIZE) data.
Proof.
  intros Hs. pose proof PAGE_SIZE_val as HP. revert k out. induction fuel as [|fuel IH]; intros k out Hk Hfuel.
  - cbn [read_span]. rewrite drop_ge; [by rewrite app_nil_r|]. destruct (decide (k * PAGE_SIZE < length data)) as [Hlt|]; [|lia].
    apply pages_for_le in Hlt. lia.
  - cbn [read_span]. case_decide as Hrem; [|rewrite drop_ge by lia; by rewrite app_nil_r].
    assert (k < pages_for (length data)) as Hj by (apply pages_for_le; lia).
    destruct Hs as (H0 & H1 & H2). rewrite Z.div_mul, Z.mod_mul by lia. rewrite decide_False by lia.
    destruct (H2 k Hj) as (Hl & tail & Ht). rewrite Hl. cbn zeta.
    set (avail := ((((Z.of_nat (length data) - Z.of_nat (k * PAGE_SIZE)) `min` (4096 - 0)) `min` (Z.of_nat PAGE_SIZE - 0)))%Z).
    set (en := (k * PAGE_SIZE + PAGE_SIZE) `min` length data) in *.
    assert (Z.to_nat (0 + avail) = en - k * PAGE_SIZE) as Ea by (unfold avail, en; lia).
    rewrite decide_False by (unfold avail; lia). rewrite Ea. change (Z.to_nat 0) with 0. rewrite Ht.
    rewrite slice_app_l by (rewrite length_slice; unfold en; lia).
    assert (slice (slice data (k * PAGE_SIZE) en) 0 (en - k * PAGE_SIZE) = slice data (k * PAGE_SIZE) en) as ->.
    { assert (length (slice data (k * PAGE_SIZE) en) = en - k * PAGE_SIZE) as <- by (rewrite length_slice; unfold en; lia).
      apply slice_all. }
    destruct (decide (length data ≤ k * PAGE_SIZE + PAGE_SIZE)) as [Hlast|Hmore].
    + assert (en = length data) as -> by (unfold en; lia).
      replace (Z.of_nat (length data) - Z.of_nat (k * PAGE_SIZE) - avail)%Z with 0%Z by (unfold avail; lia).
      assert (∀ fuel f p o, read_span fuel f p 0 o = o) as Hz by (intros []; done). rewrite Hz.
      f_equal. unfold slice. rewrite take_ge by (rewrite length_drop; lia). done.
    + assert (en = k * PAGE_SIZE + PAGE_SIZE) as -> by (unfold en; lia).
      replace avail with 4096%Z by (unfold avail; lia).
      replace ((first + Z.of_nat k) * 4096 + 4096)%Z with ((first + Z.of_nat (k + 1)) * 4096)%Z by lia.
      replace (Z.of_nat (length data) - Z.of_nat (k * PAGE_SIZE) - 4096)%Z with (Z.of_nat (length data) - Z.of_nat ((k + 1) * PAGE_SIZE))%Z by lia.
      rewrite IH by lia. rewrite <- app_assoc. f_equal. unfold slice.
      replace (k * PAGE_SIZE + PAGE_SIZE - k * PAGE_SIZE) with PAGE_SIZE by lia.
      replace ((k + 1) * PAGE_SIZE) with (k * PAGE_SIZE + PAGE_SIZE) by lia. rewrite <- drop_drop. apply take_drop.
Qed.

Lemma append_to_overflow_spec f data : pages_ok f → (0 ≤ pg_num f)%Z → bytes_ok data →
  ∃ f', append_to_overflow (Some f) data = (Some f', Ok (pg_num f, 0%Z)) ∧ pages_ok f' ∧ extends f f' ∧ spans f' (pg_num f) data ∧
    pg_num f' = (pg_num f + Z.of_nat (pages_for (length data)))%Z.
Proof.
  intros Hf Hn Hd. unfold append_to_overflow. cbn [add_new_page].
  set (n := pages_for (length data)). set (f1 := add_pages (n - 1) _).
  assert (1 ≤ n) as Hn1 by (unfold n, pages_for; lia).
  assert (pg_num f1 = pg_num f + Z.of_nat n)%Z as Hf1.
  { unfold f1. rewrite (proj1 (add_pages_num _ _)). cbn. lia. }
  assert (pages_ok f1) as Hok1 by (by apply pages_ok_add_pages).
  destruct (write_overflow_pages_spec n 0 (pg_num f) data f1 Hok1 Hd) as (H1 & H2 & H3 & H4).
  eexists. split; [reflexivity|]. split; [done|]. split.
  - split; [lia|]. intros i Hi. rewrite H3 by lia. unfold f1. by rewrite page_at_add_pages.
  - split; [|fold n; lia]. split; [done|]. split; [fold n; lia|]. fold n. intros j Hj. split; [by apply page_at_ok|]. apply H4. lia.
Qed.

(** ** Numbers in range *)

Lemma f64_as_i64_range b : is_i64 (f64_as_i64 b).
Proof. unfold f64_as_i64, is_i64, i64_MIN, i64_MAX. repeat case_decide; lia. Qed.

Lemma f64_as_i32_range b : (- 2 ^ 31 ≤ f64_as_i32 b < 2 ^ 31)%Z.
Proof. unfold f64_as_i32. lia. Qed.

Lemma f64_as_u64_range b : is_u64 (f64_as_u64 b).
Proof.
  unfold f64_as_u64, is_u64, u64_MAX. destruct (_ || _); [lia|]. case_decide; [lia|]. cbn zeta.
  assert (0 ≤ Stats.f64_frac b)%Z as Hf by (unfold Stats.f64_frac; apply Z.mod_pos_bound; lia).
  split; [|lia]. apply Z.min_glb; [|lia]. case_decide; [apply Z.div_pos; lia|]. apply Z.mul_nonneg_nonneg; lia.
Qed.

Lemma u64_as_f64_range n : is_u64 n → is_u64 (u64_as_f64 n).
Proof.
  unfold is_u64, u64_as_f64. intros Hn. case_decide; [lia|]. cbn zeta.
  assert (0 ≤ Z.log2 n ≤ 63)%Z as He.
  { split; [apply Z.log2_nonneg|]. assert (Z.log2 n < 64)%Z; [apply Z.log2_lt_pow2; lia|lia]. }
  destruct (Z.log2_spec n ltac:(lia)) as [Hlo Hhi]. case_decide as H52.
  - assert (2 ^ 52 = 2 ^ Z.log2 n * 2 ^ (52 - Z.log2 n))%Z as E by (rewrite <- Z.pow_add_r by lia; f_equal; lia).
    assert (2 * 2 ^ 52 = 2 ^ Z.succ (Z.log2 n) * 2 ^ (52 - Z.log2 n))%Z as E2.
    { rewrite <- Z.pow_add_r by lia. change (2 * 2 ^ 52)%Z with (2 ^ 53)%Z. f_equal. lia. }
    assert (0 < 2 ^ (52 - Z.log2 n))%Z by (apply Z.pow_pos_nonneg; lia). nia.
  - set (s := (Z.log2 n - 52)%Z). assert (0 < 2 ^ s)%Z by (apply Z.pow_pos_nonneg; lia).
    assert (2 ^ 52 ≤ n / 2 ^ s)%Z.
    { apply Z.div_le_lower_bound; [done|]. rewrite <- Z.pow_add_r by (unfold s; lia). replace (s + 52)%Z with (Z.log2 n) by (unfold s; lia). lia. }
    assert (n / 2 ^ s < 2 ^ 53)%Z.
    { apply Z.div_lt_upper_bound; [done|]. rewrite <- Z.pow_add_r by (unfold s; lia). replace (s + 53)%Z with (Z.succ (Z.log2 n)) by (unfold s; lia). lia. }
    destruct (_ || _); lia.
Qed.

Lemma wrap_i32_le z : wrap_i32 (of_le (to_le 4 z)) = wrap_i32 z.
Proof. rewrite of_le_to_le. unfold wrap_i32. change (2 ^ (8 * Z.of_nat 4))%Z with (2 ^ 32)%Z. by rewrite Z.mod_mod by lia. Qed.

Lemma wrap_i32_id z : (- 2 ^ 31 ≤ z < 2 ^ 31)%Z → wrap_i32 z = z.
Proof.
  intros Hz. unfold wrap_i32. destruct (decide (0 ≤ z)%Z).
  - rewrite Z.mod_small by lia. rewrite decide_True by lia. done.
  - assert (z mod 2 ^ 32 = z + 2 ^ 32)%Z as -> by (symmetry; apply (Z.mod_unique z _ (-1)); lia).
    rewrite decide_False by lia. lia.
Qed.

Lemma u64_as_i64_le z : is_i64 z → u64_as_i64 (of_le (to_le 8 z)) = z.
Proof.
  intros Hz. rewrite of_le_to_le. change (2 ^ (8 * Z.of_nat 8))%Z with (2 ^ 64)%Z. fold (u64_wrap z). by apply u64_as_i64_wrap.
Qed.

(** Integers up to 53 bits survive the detour through a double. *)
Lemma u64_as_f64_exact n : (0 ≤ n < 2 ^ 53)%Z → f64_as_i64 (u64_as_f64 n) = n.
Proof.
  intros Hn. unfold u64_as_f64. case_decide as H0; [by subst|]. cbn zeta.
  set (e := Z.log2 n). assert (0 ≤ e ≤ 52)%Z as He.
  { split; [apply Z.log2_nonneg|]. assert (Z.log2 n < 53)%Z; [apply Z.log2_lt_pow2; lia|lia]. }
  rewrite decide_True by lia. destruct (Z.log2_spec n ltac:(lia)) as [Hlo Hhi]. fold e in Hlo, Hhi.
  set (k := (52 - e)%Z). set (m := (n * 2 ^ k)%Z).
  assert (0 < 2 ^ k)%Z as Hk by (apply Z.pow_pos_nonneg; lia).
  assert (2 ^ 52 ≤ m < 2 ^ 53)%Z as Hm.
  { assert (2 ^ e * 2 ^ k = 2 ^ 52)%Z as E1 by (rewrite <- Z.pow_add_r by lia; f_equal; lia).
    assert (2 ^ Z.succ e * 2 ^ k = 2 ^ 53)%Z as E2 by (rewrite <- Z.pow_add_r by lia; f_equal; lia).
    unfold m. nia. }
  set (b := ((e + 1023) * 2 ^ 52 + (m - 2 ^ 52))%Z).
  assert (b / 2 ^ 52 = e + 1023)%Z as Hdiv by (symmetry; apply (Z.div_unique b (2 ^ 52) (e + 1023) (m - 2 ^ 52)); unfold b; lia).
  assert (b mod 2 ^ 52 = m - 2 ^ 52)%Z as Hmod by (symmetry; apply (Z.mod_unique b (2 ^ 52) (e + 1023)); unfold b; lia).
  assert (Codec.f64_sign b = 0%Z) as Hs.
  { unfold Codec.f64_sign. rewrite Z.shiftr_div_pow2 by lia. apply Z.div_small. unfold b. split; [lia|].
    change (2 ^ 63)%Z with (2048 * 2 ^ 52)%Z. lia. }
  assert (Codec.f64_exp b = e + 1023)%Z as Hexp.
  { unfold Codec.f64_exp. rewrite Z.shiftr_div_pow2, Hdiv by lia. change 2047%Z with (Z.ones 11). rewrite Z.land_ones by lia. apply Z.mod_small. lia. }
  assert (Codec.f64_frac b = m - 2 ^ 52)%Z as Hfr.
  { unfold Codec.f64_frac. change (2 ^ 52 - 1)%Z with (Z.ones 52). rewrite Z.land_ones by lia. done. }
  unfold f64_as_i64. rewrite Hexp, Hfr, Hs. rewrite !(decide_False (P := (e + 1023 = 2047)%Z)), !(decide_False (P := (e + 1023 = 0)%Z)) by lia. cbn zeta.
  replace (m - 2 ^ 52 + 2 ^ 52)%Z with m by lia. rewrite (decide_True (P := (0 = 0)%Z)) by done.
  assert ((if decide (0 ≤ e + 1023 - 1075) then Z.shiftl m (e + 1023 - 1075) else Z.shiftr m (- (e + 1023 - 1075))) = n)%Z as ->.
  { case_decide.
    - replace (e + 1023 - 1075)%Z with 0%Z by lia. rewrite Z.shiftl_0_r. unfold m. replace k with 0%Z by (unfold k; lia). lia.
    - rewrite Z.shiftr_div_pow2 by lia. replace (- (e + 1023 - 1075))%Z with k by (unfold k; lia). unfold m. by rewrite Z.div_mul by lia. }
  unfold i64_MIN, i64_MAX. lia.
Qed.

Lemma f64_negate b : (0 ≤ b < 2 ^ 63)%Z → (Z.abs (f64_as_i64 b) < 2 ^ 62)%Z → f64_as_i64 (2 ^ 63 + b) = (- f64_as_i64 b)%Z.
Proof.
  intros Hb Hsmall.
  assert (Codec.f64_sign b = 0%Z ∧ Codec.f64_sign (2 ^ 63 + b) = 1%Z) as [S0 S1].
  { unfold Codec.f64_sign. rewrite !Z.shiftr_div_pow2 by lia. split; [by apply Z.div_small|].
    symmetry. apply (Z.div_unique _ _ 1 b); lia. }
  assert (Codec.f64_exp (2 ^ 63 + b) = Codec.f64_exp b) as Ee.
  { unfold Codec.f64_exp. rewrite !Z.shiftr_div_pow2 by lia. replace (2 ^ 63 + b)%Z with (b + 2048 * 2 ^ 52)%Z by lia.
    rewrite Z.div_add by lia. change 2047%Z with (Z.ones 11). rewrite !Z.land_ones by lia. change 2048%Z with (1 * 2 ^ 11)%Z. by rewrite Z.mod_add by lia. }
  assert (Codec.f64_frac (2 ^ 63 + b) = Codec.f64_frac b) as Ef.
  { unfold Codec.f64_frac. change (2 ^ 52 - 1)%Z with (Z.ones 52). rewrite !Z.land_ones by lia.
    replace (2 ^ 63 + b)%Z with (b + 2048 * 2 ^ 52)%Z by lia. by rewrite Z.mod_add by lia. }
  revert Hsmall. unfold f64_as_i64. rewrite Ee, Ef, S0, S1. rewrite (decide_True (P := (0 = 0)%Z)), (decide_False (P := (1 = 0)%Z)) by done.
  unfold i64_MIN, i64_MAX. cbn zeta. destruct (decide (Codec.f64_exp b = 2047)%Z); [destruct (decide (Codec.f64_frac b = 0)%Z); lia|].
  set (mag := if decide (0 ≤ _)%Z then _ else _). clearbody mag. repeat case_decide; lia.
Qed.

Lemma int_as_f64_exact z : (- 2 ^ 53 < z < 2 ^ 53)%Z → f64_as_i64 (int_as_f64 z) = z.
Proof.
  intros Hz. unfold int_as_f64. case_decide as Hneg; [|apply u64_as_f64_exact; lia].
  pose proof (u64_as_f64_exact (- z) ltac:(lia)) as E.
  assert (0 ≤ u64_as_f64 (- z) < 2 ^ 63)%Z as Hr.
  { pose proof (u64_as_f64_range (- z) ltac:(unfold is_u64; lia)) as Hr. unfold is_u64 in Hr. split; [lia|].
    unfold u64_as_f64 in *. case_decide; [lia|]. cbn zeta in *.
    assert (0 ≤ Z.log2 (- z) ≤ 52)%Z as He.
    { split; [apply Z.log2_nonneg|]. assert (Z.log2 (- z) < 53)%Z; [apply Z.log2_lt_pow2; lia|lia]. }
    destruct (Z.log2_spec (- z) ltac:(lia)) as [_ Hhi]. rewrite decide_True by lia.
    assert (2 ^ Z.succ (Z.log2 (- z)) * 2 ^ (52 - Z.log2 (- z)) = 2 ^ 53)%Z as E2 by (rewrite <- Z.pow_add_r by lia; f_equal; lia).
    assert (0 < 2 ^ (52 - Z.log2 (- z)))%Z by (apply Z.pow_pos_nonneg; lia). nia. }
  rewrite f64_negate; [lia|done|lia].
Qed.

(** ** Slots *)

(** What a column of type [t] gives back for a value it was given; [None] for a
    value it silently does not store. *)
Definition stored (t : LogicalType) (v : Value) : option Value :=
  match v, t with
  | VNumber n, TInt64 => Some (VNumber (int_as_f64 (f64_as_i64 n)))
  | VNode id, TInt64 => Some (VNumber (int_as_f64 (u64_as_i64 id)))
  | VNumber n, TInt32 => Some (VNumber (int_as_f64 (f64_as_i32 n)))
  | VNode id, TInt32 => Some (VNumber (int_as_f64 (wrap_i32 id)))
  | VNode id, TUint64 | VNode id, TNode _ => Some (VNode id)
  | VNumber n, TUint64 | VNumber n, TNode _ => Some (VNode (f64_as_u64 n))
  | VNumber n, TDouble | VNumber n, TFloat => Some (VNumber n)
  | VNode id, TDouble => Some (VNumber (u64_as_f64 id))
  | VBoolean b, TBool => Some (VBoolean b)
  | VString s, TString => Some (VString s)
  | VDate d, TDate => Some (VDate d)
  | VTimestamp ts, TTimestamp => Some (VTimestamp ts)
  | _, _ => None
  end.

(** The machine ranges of a value. *)
Definition value_ok (v : Value) : Prop :=
  match v with
  | VNumber n => is_u64 n
  | VNode id => is_u64 id
  | VString s => bytes_ok s ∧ utf8_valid s = true ∧ (Z.of_nat (length s) < 2 ^ 32)%Z
  | VDate d => (- 2 ^ 31 ≤ d < 2 ^ 31)%Z
  | VTimestamp t => is_i64 t
  | _ => True
  end.
#[global] Instance value_ok_dec v : Decision (value_ok v).
Proof. destruct v; cbn; apply _. Defined.

(** The overflow file, if there is one, is a file of whole pages with room for
    [room] more. *)
Definition overflow_ok (room : nat) (o : option pages) : Prop :=
  match o with Some f => pages_ok f ∧ (0 ≤ pg_num f)%Z ∧ (pg_num f + Z.of_nat room < 2 ^ 52)%Z | None => True end.
(** The overflow pages a value takes at most. *)
Definition need (v : Value) : nat := match v with VString s => pages_for (length s) | _ => 0 end.
(** A string longer than a slot needs the overflow file. *)
Definition fits (o : option pages) (v : Value) : Prop :=
  match v with VString s => length s < 64 ∨ o ≠ None | _ => True end.

Section slots.
Context (debug : Value → list Z) (from_utf8_lossy : list Z → list Z).

(** [data] reads as [v] and will, however the overflow file grows. *)
Definition reads (t : LogicalType) (o : option pages) (data : list Z) (v : Value) : Prop :=
  ∀ o', overflow_extends o o' → parse_value from_utf8_lossy t o' data = Ok v.

Lemma reads_extends t o o' data v : reads t o data v → overflow_extends o o' → reads t o' data v.
Proof. intros H Ho o'' Ho'. apply H. by transitivity o'. Qed.

Lemma write_head (buf s : list Z) : length s ≤ length buf → write_at buf 0 s = Ok (s ++ drop (length s) buf).
Proof. intros H. rewrite write_at_ok by lia. unfold splice. rewrite take_0. done. Qed.

Lemma slot_head (s rest : list Z) n : length s = n → slice_get (s ++ rest) 0 n = Ok s.
Proof.
  intros <-. rewrite slice_get_ok by (rewrite ?length_app; lia). f_equal. rewrite slice_app_l by lia. apply slice_all.
Qed.

(** Writing a fixed-size image into the buffer and reading the slot. *)
Lemma fixed_slot t o (img buf : list Z) v es :
  length buf = 64 → bytes_ok buf → bytes_ok img → length img ≤ 64 → element_size t = es → length img = es →
  (∀ o' rest, parse_value from_utf8_lossy t o' (img ++ rest) = Ok v) →
  ∃ buf', write_at buf 0 img = Ok buf' ∧ length buf' = 64 ∧ bytes_ok buf' ∧ reads t o (take es buf') v.
Proof.
  intros Hl Hb Hi Hle He Hlen Hp. rewrite write_head by lia. eexists. split; [reflexivity|].
  split; [rewrite length_app, length_drop; lia|]. split; [apply bytes_ok_app; split; [done|by apply Forall_drop]|].
  intros o' _. subst es. rewrite <- Hlen. rewrite take_app_length. rewrite <- (app_nil_r img). apply Hp.
Qed.

Lemma bool_slot (b : bool) rest o : parse_value from_utf8_lossy TBool o ([if b then 1%Z else 0%Z] ++ rest) = Ok (VBoolean b).
Proof. by destruct b. Qed.

(** A short string is its length and its bytes. *)
Lemma short_slot o s (buf : list Z) :
  length buf = 64 → bytes_ok buf → bytes_ok s → utf8_valid s = true → length s < 64 →
  ∃ buf', (let* b := write_at buf 0 [Z.of_nat (length s)] in write_at b 1 (take (length s `min` 63) s)) = Ok buf' ∧
    length buf' = 64 ∧ bytes_ok buf' ∧ reads TString o (take 64 buf') (VString s).
Proof.
  intros Hl Hb Hs Hu Hlt. rewrite write_head by (simpl; lia). cbn [outcome_bind length app].
  rewrite take_ge by lia. set (len := Z.of_nat (length s)). set (rest := drop 1 buf).
  assert (length rest = 63) as Hr by (unfold rest; rewrite length_drop; lia).
  rewrite write_at_ok by (simpl; lia). eexists. split; [reflexivity|].
  assert (splice (len :: rest) 1 s = len :: s ++ drop (length s) rest) as -> by done.
  assert (length (len :: s ++ drop (length s) rest) = 64) as Hlen by (simpl; rewrite length_app, length_drop; lia).
  split; [done|]. split.
  { constructor; [unfold len, is_u8; lia|]. apply bytes_ok_app. split; [done|]. unfold rest. by apply Forall_drop, Forall_drop. }
  intros o' _. rewrite take_ge by lia. cbn [parse_value].
  rewrite (slot_head [len] (s ++ drop (length s) rest) 1 eq_refl : slice_get (len :: s ++ drop (length s) rest) 0 1 = Ok [len]).
  cbn [outcome_bind]. change (byte_at [len] 0) with len.
  rewrite decide_False by (unfold len; lia). replace (Z.to_nat len `min` 63) with (length s) by (unfold len; lia).
  rewrite slice_get_ok by (rewrite ?Hlen; lia). cbn [outcome_bind].
  assert (slice (len :: s ++ drop (length s) rest) 1 (1 + length s) = s) as ->.
  { unfold slice. change (drop 1 (len :: s ++ drop (length s) rest)) with (s ++ drop (length s) rest).
    replace (1 + length s - 1) with (length s) by lia. by rewrite take_app_length. }
  unfold to_text. by rewrite Hu.
Qed.

(** A long one is a pointer into the overflow file. *)
Lemma long_slot f f' s (buf : list Z) :
  length buf = 64 → bytes_ok buf → utf8_valid s = true → (Z.of_nat (length s) < 2 ^ 32)%Z →
  (0 ≤ pg_num f < 2 ^ 52)%Z → spans f' (pg_num f) s →
  ∃ buf', (let* b := write_at buf 0 [255%Z] in
           let* b := write_at b 1 (to_le 8 (pg_num f)) in
           let* b := write_at b 9 (to_le 8 0) in write_at b 17 (to_le 4 (Z.of_nat (length s)))) = Ok buf' ∧
    length buf' = 64 ∧ bytes_ok buf' ∧ reads TString (Some f') (take 64 buf') (VString s).
Proof.
  intros Hl Hb Hu Hs Hn Hsp.
  set (p := to_le 8 (pg_num f)). set (o := to_le 8 0). set (l := to_le 4 (Z.of_nat (length s))).
  assert (length p = 8 ∧ length o = 8 ∧ length l = 4) as (Hp & Ho & Hll) by (unfold p, o, l; by rewrite !length_to_le).
  rewrite write_head by (simpl; lia). cbn [outcome_bind length app].
  assert (∀ (pre suf x : list Z) off, off = length pre → length x ≤ length suf → write_at (pre ++ suf) off x = Ok ((pre ++ x) ++ drop (length x) suf)) as Hw.
  { intros pre suf x off -> Hx. rewrite write_at_ok by (rewrite length_app; lia). unfold splice.
    rewrite take_app_length, drop_app_ge by lia. replace (length pre + length x - length pre) with (length x) by lia. by rewrite app_assoc. }
  assert (length (drop 1 buf) = 63) as Hd by (rewrite length_drop; lia).
  rewrite (Hw [255%Z] (drop 1 buf)) by (simpl; lia). cbn [outcome_bind].
  rewrite Hw by (rewrite ?length_app, ?length_drop; simpl; lia). cbn [outcome_bind].
  rewrite Hw by (rewrite ?length_app, ?length_drop; simpl; lia).
  set (rest := drop (length l) (drop (length o) (drop (length p) (drop 1 buf)))).
  eexists. split; [reflexivity|].
  assert (length ((([255%Z] ++ p) ++ o) ++ l) = 21) as H21 by (rewrite !length_app; simpl; lia).
  assert (length rest = 43) as Hrest by (unfold rest; rewrite !length_drop; lia).
  assert (length (((([255%Z] ++ p) ++ o) ++ l) ++ rest) = 64) as Hlen by (rewrite length_app; lia).
  split; [done|]. split.
  { rewrite !bytes_ok_app. split_and!; try apply to_le_bytes_ok; [repeat constructor; unfold is_u8; lia|].
    unfold rest, bytes_ok. by repeat apply Forall_drop. }
  intros [g|] Hg; [|done]. cbn in Hg. rewrite take_ge by lia. cbn [parse_value].
  rewrite <- !app_assoc. rewrite (slot_head [255%Z] (p ++ o ++ l ++ rest) 1 eq_refl). cbn [outcome_bind]. change (byte_at [255%Z] 0) with 255%Z.
  rewrite decide_True by done.
  assert (∀ (a b c : list Z) i j, i = length a → j = i + length b → slice_get (a ++ b ++ c) i j = Ok b) as Hg3.
  { intros a b c i j -> ->. rewrite slice_get_ok; [f_equal|lia|rewrite !length_app; lia].
    rewrite slice_app_r by lia. rewrite Nat.sub_diag. replace (length a + length b - length a) with (length b) by lia.
    rewrite slice_app_l by lia. apply slice_all. }
  rewrite (Hg3 [255%Z] p) by (simpl; lia). cbn [outcome_bind].
  replace ([255%Z] ++ p ++ o ++ l ++ rest) with (([255%Z] ++ p) ++ o ++ l ++ rest) by (by rewrite <- app_assoc).
  rewrite (Hg3 ([255%Z] ++ p) o) by (rewrite ?length_app; simpl; lia). cbn [outcome_bind].
  replace (([255%Z] ++ p) ++ o ++ l ++ rest) with ((([255%Z] ++ p) ++ o) ++ l ++ rest) by (by rewrite <- !app_assoc).
  rewrite (Hg3 (([255%Z] ++ p) ++ o) l) by (rewrite ?length_app; simpl; lia). cbn [outcome_bind].
  unfold p, o, l. rewrite !of_le_to_le_id by (simpl Z.of_nat; lia).
  pose proof (spans_extends _ _ _ _ Hsp Hg) as Hsp'. destruct Hsp' as (H0 & H1 & H2).
  pose proof (read_span_spec (span_fuel g) g (pg_num f) s 0 [] (conj H0 (conj H1 H2))) as Hr.
  rewrite Nat.mul_0_l, drop_0 in Hr. change (Z.of_nat 0) with 0%Z in Hr. rewrite Z.add_0_r, Z.sub_0_r in Hr. rewrite Z.add_0_r.
  rewrite Hr; [|lia|unfold span_fuel; lia]. cbn [app]. unfold to_text. by rewrite Hu.
Qed.

Lemma overflow_room n room o : overflow_ok (n + room) o → overflow_ok room o.
Proof. destruct o as [f|]; [|done]. cbn. intros (H1 & H2 & H3). split; [done|]. lia. Qed.

(** Every value the column can store is written into the buffer, the overflow
    file only grows, and the slot reads back. *)
Lemma serialize_reads t o v v' room (buf : list Z) :
  overflow_ok (need v + room) o → value_ok v → fits o v → stored t v = Some v' → length buf = 64 → bytes_ok buf →
  ∃ o' buf', serialize_value_into t o v buf = (o', Ok buf') ∧ length buf' = 64 ∧ bytes_ok buf' ∧
    overflow_ok room o' ∧ overflow_extends o o' ∧ reads t o' (take (element_size t) buf') v'.
Proof.
  intros Ho Hv Hfit Hst Hl Hb.
  assert (∀ img, bytes_ok img → length img = element_size t → element_size t ≤ 64 →
    (∀ o' rest, parse_value from_utf8_lossy t o' (img ++ rest) = Ok v') →
    serialize_value_into t o v buf = (o, write_at buf 0 img) →
    ∃ o' buf', serialize_value_into t o v buf = (o', Ok buf') ∧ length buf' = 64 ∧ bytes_ok buf' ∧
      overflow_ok room o' ∧ overflow_extends o o' ∧ reads t o' (take (element_size t) buf') v') as Hfix.
  { intros img Hi Hil Hes Hp E. destruct (fixed_slot t o img buf v' (element_size t)) as (b & E1 & E2 & E3 & E4); try done; try lia.
    exists o, b. rewrite E, E1. split; [done|]. split; [done|]. split; [done|]. split; [by apply (overflow_room (need v))|]. split; [reflexivity|done]. }
  destruct v as [s|n|b| |id|id|l|d|ts|l|l|l]; destruct t; try discriminate Hst; injection Hst as <-; cbn in Hv.
  all: try (eapply Hfix; [apply to_le_bytes_ok|apply length_to_le|simpl; lia| |reflexivity]; intros o' rest; cbn [parse_value];
            rewrite slot_head by apply length_to_le; cbn [outcome_bind]; do 2 f_equal).
  - (* string *) destruct Hv as (Hsb & Hu & H32). cbn [serialize_value_into]. case_decide as Hlt.
    + destruct (short_slot o s buf Hl Hb Hsb Hu Hlt) as (b & E1 & E2 & E3 & E4). exists o, b. rewrite E1.
      split; [done|]. split; [done|]. split; [done|]. split; [by eapply overflow_room|]. split; [reflexivity|done].
    + destruct o as [f|]; [|destruct Hfit as [Hf|Hf]; [lia|done]]. rewrite decide_True by done. destruct Ho as (Hf & Hn & Hroom).
      destruct (append_to_overflow_spec f s Hf Hn Hsb) as (f' & E & Hf' & Hext & Hsp & Hnum). rewrite E.
      destruct (long_slot f f' s buf Hl Hb Hu H32 ltac:(lia) Hsp) as (b & E1 & E2 & E3 & E4).
      exists (Some f'), b. rewrite E1. split; [done|]. split; [done|]. split; [done|]. split; [|split; [done|done]].
      cbn [need] in Hroom. cbn. split; [done|]. lia.
  - f_equal. apply u64_as_i64_le, f64_as_i64_range.
  - f_equal. etrans; [apply wrap_i32_le|]. apply wrap_i32_id, f64_as_i32_range.
  - apply (of_le_to_le_id 8). apply f64_as_u64_range.
  - by apply (of_le_to_le_id 8).
  - by apply (of_le_to_le_id 8).
  - apply (of_le_to_le_id 8). apply f64_as_u64_range.
  - apply (Hfix [if b then 1%Z else 0%Z]); [repeat constructor; destruct b; unfold is_u8; lia|done|simpl; lia| |done].
    intros o' rest. apply bool_slot.
  - f_equal. f_equal. by apply (of_le_to_le_id 8).
  - f_equal. apply wrap_i32_le.
  - by apply (of_le_to_le_id 8).
  - apply (of_le_to_le_id 8). by apply u64_as_f64_range.
  - by apply (of_le_to_le_id 8).
  - etrans; [apply wrap_i32_le|]. by apply wrap_i32_id.
  - by apply u64_as_i64_le.
Qed.
End slots.

(** ** Null bytes *)

(** The last change of row [r] in a list of changes. *)
Definition last_from (acc : option Z) (r : Z) (l : list (Z * Z)) : option Z :=
  foldl (λ acc e, if decide (fst e = r) then Some (snd e) else acc) acc l.
Definition last_val (r : Z) (l : list (Z * Z)) : option Z := last_from None r l.

Lemma last_from_default acc r l : last_from acc r l = match last_val r l with Some v => Some v | None => acc end.
Proof.
  unfold last_val, last_from. revert acc. induction l as [|e l IH]; intros acc; cbn [foldl]; [done|].
  rewrite IH. rewrite (IH (if decide (fst e = r) then Some (snd e) else None)).
  destruct (foldl _ None l); [done|]. by case_decide.
Qed.
Lemma last_val_snoc r l e : last_val r (l ++ [e]) = if decide (fst e = r) then Some (snd e) else last_val r l.
Proof. unfold last_val, last_from. by rewrite foldl_snoc. Qed.

Lemma last_entry_val r l : last_entry r l = (λ v, (r, v)) <$> last_val r l.
Proof.
  induction l as [|e l IH] using rev_ind; [done|]. rewrite last_val_snoc. unfold last_entry in *. rewrite reverse_snoc.
  destruct e as [r' v]. cbn [fst snd]. destruct (decide (r' = r)) as [->|Hne].
  - cbn. by rewrite decide_True.
  - cbn [list_find]. rewrite (decide_False (P := (fst (r', v) = r))) by done. rewrite <- IH.
    destruct (list_find _ (reverse l)) as [[i e]|]; done.
Qed.

Definition null_byte (f : pages) (r : Z) : Z := byte_at (page_at f (r / 4096)) (Z.to_nat (r mod 4096)).

Lemma is_null_spec c tx r :
  is_null c tx r = negb (bool_decide (default (null_byte (null_fh c) r) (last_val r (default [] (pending_nulls c !! tx))) = 0%Z)).
Proof. unfold is_null, null_byte. rewrite last_entry_val. by destruct (last_val r _). Qed.

Definition entries_ok (l : list (Z * Z)) : Prop := Forall (λ e, (0 ≤ fst e)%Z ∧ is_u8 (snd e)) l.

Lemma write_entries frame l k : entries_ok l → k < length frame →
  byte_at (foldl (λ fr e, <[Z.to_nat (fst e) := snd e]> fr) frame l) k = default (byte_at frame k) (last_val (Z.of_nat k) l).
Proof.
  intros Hl Hk. induction l as [|e l IH] using rev_ind; [done|]. apply Forall_app in Hl as [Hl He].
  rewrite foldl_snoc, last_val_snoc. inversion He as [|? ? [He0 _] _]; subst.
  assert (length (foldl (λ fr e, <[Z.to_nat (fst e) := snd e]> fr) frame l) = length frame) as Hlen.
  { clear. revert frame. induction l as [|e l IH]; intros frame; cbn [foldl]; [done|]. by rewrite IH, length_insert. }
  unfold byte_at at 1. destruct (decide (fst e = Z.of_nat k)) as [E|E].
  - rewrite E, Nat2Z.id. rewrite list_lookup_insert_eq by lia. done.
  - rewrite list_lookup_insert_ne by lia. by apply IH.
Qed.

Lemma write_entries_ok frame l : entries_ok l → length frame = PAGE_SIZE → bytes_ok frame →
  let fr := foldl (λ fr e, <[Z.to_nat (fst e) := snd e]> fr) frame l in length fr = PAGE_SIZE ∧ bytes_ok fr.
Proof.
  intros Hl. revert frame. induction Hl as [|e l [_ He] Hl IH]; intros frame Hlen Hb; cbn [foldl]; [done|].
  apply IH; [by rewrite length_insert|]. apply Forall_insert; done.
Qed.

Lemma write_null_page_spec f p l : pages_ok f → entries_ok l →
  pages_ok (write_null_page f (p, l)) ∧
  ∀ r, (0 ≤ r)%Z → null_byte (write_null_page f (p, l)) r =
    if decide (r / 4096 = p)%Z then default (null_byte f r) (last_val (r mod 4096) l) else null_byte f r.
Proof.
  intros Hf Hl. unfold write_null_page. cbn [fst snd]. pose proof (pages_ok_grow f p Hf) as Hg.
  destruct (page_at_ok (grow_to f p) p Hg) as [Hlen Hb]. destruct (write_entries_ok _ l Hl Hlen Hb) as [Hlen' Hb'].
  split; [by apply pages_ok_put|]. intros r Hr. unfold null_byte. case_decide as E.
  - rewrite E, page_at_put. pose proof (Z.mod_pos_bound r 4096 ltac:(lia)) as Hm. pose proof PAGE_SIZE_val.
    rewrite write_entries by (done || lia). rewrite Z2Nat.id by lia. by rewrite page_at_grow.
  - rewrite page_at_put_ne by done. by rewrite page_at_grow.
Qed.

Lemma write_null_pages_spec f ps : pages_ok f → NoDup ps.*1 → Forall (λ p, entries_ok (snd p)) ps →
  pages_ok (foldl write_null_page f ps) ∧
  ∀ r, (0 ≤ r)%Z →
    (∀ l, ((r / 4096)%Z, l) ∈ ps → null_byte (foldl write_null_page f ps) r = default (null_byte f r) (last_val (r mod 4096) l)) ∧
    ((r / 4096)%Z ∉ ps.*1 → null_byte (foldl write_null_page f ps) r = null_byte f r).
Proof.
  intros Hf Hnd Hps. revert f Hf. induction ps as [|[p l] ps IH]; intros f Hf; cbn [foldl].
  - split; [done|]. intros r Hr. split; [|done]. intros l Hl. by apply elem_of_nil in Hl.
  - cbn [fmap list_fmap fst] in Hnd. apply list.NoDup_cons in Hnd as [Hp Hnd]. inversion Hps as [|? ? Hl Hps']; subst. cbn [snd] in Hl.
    destruct (write_null_page_spec f p l Hf Hl) as [Hf' Hw]. destruct (IH Hnd Hps' (write_null_page f (p, l)) Hf') as [H1 H2].
    split; [done|]. intros r Hr. destruct (H2 r Hr) as [H3 H4]. split.
    + intros l' Hl'. apply elem_of_cons in Hl' as [E|Hl'].
      * injection E as E1 E2; subst. rewrite H4 by done. rewrite Hw by done. by rewrite decide_True.
      * rewrite (H3 l' Hl'). rewrite Hw by done. rewrite decide_False; [done|]. intros E. apply Hp. rewrite <- E.
        apply (list_elem_of_fmap_2 fst _ _ Hl').
    + cbn [fmap list_fmap fst]. intros Hn. apply not_elem_of_cons in Hn as [Hn1 Hn2]. rewrite H4 by done. rewrite Hw by done. by rewrite decide_False.
Qed.

(** The groups of [write_null_entries]. *)
Definition page_entries (p : Z) (l : list (Z * Z)) : list (Z * Z) :=
  map (λ e, ((fst e) mod 4096, snd e)%Z) (filter (λ e, (fst e / 4096)%Z = p) l).

Lemma group_by_page_lookup l p :
  group_by_page l !! p = if decide (page_entries p l = []) then None else Some (page_entries p l).
Proof.
  unfold group_by_page. induction l as [|e l IH] using rev_ind; [done|]. rewrite foldl_snoc. unfold group_push at 1.
  unfold page_entries in *. rewrite list.filter_app, map_app. set (q := (fst e / 4096)%Z).
  destruct (decide (q = p)) as [Hq|Hq].
  - rewrite filter_cons_True by done. cbn [filter list_filter map]. rewrite Hq, lookup_insert_eq, IH.
    rewrite (decide_False (P := (_ ++ [_] = []))) by (intros E; by apply app_eq_nil in E as [_ E]).
    case_decide as E; [by rewrite E|done].
  - rewrite filter_cons_False by done. cbn [filter list_filter map]. rewrite app_nil_r. rewrite lookup_insert_ne by done. apply IH.
Qed.

Lemma last_val_page_entries r l : last_val (r mod 4096) (page_entries (r / 4096) l) = last_val r l.
Proof.
  unfold page_entries. induction l as [|e l IH] using rev_ind; [done|]. rewrite list.filter_app, map_app, last_val_snoc.
  destruct (decide (fst e / 4096 = r / 4096)%Z) as [Hq|Hq].
  - rewrite filter_cons_True by done. cbn [filter list_filter map]. rewrite last_val_snoc. cbn [fst snd].
    pose proof (Z.div_mod (fst e) 4096 ltac:(lia)). pose proof (Z.div_mod r 4096 ltac:(lia)).
    destruct (decide (fst e = r)) as [E|E]; [by rewrite decide_True by (by rewrite E)|]. rewrite decide_False by lia. apply IH.
  - rewrite filter_cons_False by done. cbn [filter list_filter map]. rewrite app_nil_r.
    rewrite decide_False by (intros E; apply Hq; by rewrite E). apply IH.
Qed.

Lemma page_entries_ok p l : entries_ok l → entries_ok (page_entries p l).
Proof.
  intros H. unfold page_entries, entries_ok. rewrite Forall_map. apply list.Forall_forall. intros e He.
  apply list_elem_of_filter in He as [_ He]. unfold entries_ok in H. rewrite list.Forall_forall in H.
  destruct (H e He). split; [apply Z.mod_pos_bound; lia|done].
Qed.

(** Writing the changes to the null pages: the last change of each row wins. *)
Lemma write_null_entries_spec c w l : pages_ok (null_fh c) → entries_ok l →
  let '(c', w') := write_null_entries c w l in
  ∃ f, c' = set_null_fh c f ∧ pages_ok f ∧ ∀ r, (0 ≤ r)%Z → null_byte f r = default (null_byte (null_fh c) r) (last_val r l).
Proof.
  intros Hf Hl. unfold write_null_entries. cbn zeta. eexists. split; [reflexivity|].
  assert (Forall (λ p, entries_ok (snd p)) (map_to_list (group_by_page l))) as Hall.
  { apply list.Forall_forall. intros [p es] Hp. apply elem_of_map_to_list in Hp. rewrite group_by_page_lookup in Hp.
    case_decide; [done|]. injection Hp as <-. cbn. by apply page_entries_ok. }
  destruct (write_null_pages_spec (null_fh c) (map_to_list (group_by_page l)) Hf (NoDup_fst_map_to_list _) Hall) as [H1 H2].
  split; [done|]. intros r Hr. destruct (H2 r Hr) as [H3 H4]. rewrite <- last_val_page_entries.
  pose proof (group_by_page_lookup l (r / 4096)) as Hg. case_decide as E.
  - rewrite E. cbn. apply H4. intros Hin. apply list_elem_of_fmap in Hin as ([p es] & Ep & Hin). cbn in Ep. subst p.
    apply elem_of_map_to_list in Hin. congruence.
  - apply H3. by apply elem_of_map_to_list.
Qed.

(** ** Slots on pages *)

Definition slot_offset (t : LogicalType) (r : Z) : nat := Z.to_nat (r mod values_per_page t) * element_size t.
Definition slot (f : pages) (t : LogicalType) (r : Z) : list Z :=
  slice (page_at f (r / values_per_page t)) (slot_offset t r) (slot_offset t r + element_size t).

(** Slots fill the page exactly. *)
Lemma geometry t : (0 < values_per_page t)%Z ∧ (values_per_page t * Z.of_nat (element_size t) = 4096)%Z ∧
  1 ≤ element_size t ≤ 64 ∧ (4096 / Z.of_nat (element_size t) = values_per_page t)%Z.
Proof. destruct t; cbn [element_size]; split_and!; reflexivity || lia. Qed.

Lemma slot_in_page t r : slot_offset t r + element_size t ≤ PAGE_SIZE.
Proof.
  destruct (geometry t) as (Hv & Hp & He & _). pose proof PAGE_SIZE_val. unfold slot_offset.
  pose proof (Z.mod_pos_bound r (values_per_page t) Hv) as Hm. set (m := Z.to_nat (r mod values_per_page t)).
  assert (Z.of_nat m + 1 ≤ values_per_page t)%Z by (unfold m; lia).
  assert (Z.of_nat (m * element_size t + element_size t) ≤ 4096)%Z; [|lia].
  rewrite Nat2Z.inj_add, Nat2Z.inj_mul. nia.
Qed.

Lemma slots_apart t r r' : (r / values_per_page t = r' / values_per_page t)%Z → r ≠ r' →
  slot_offset t r' + element_size t ≤ slot_offset t r ∨ slot_offset t r + element_size t ≤ slot_offset t r'.
Proof.
  intros Hq Hne. destruct (geometry t) as (Hv & Hp & He & _). unfold slot_offset.
  pose proof (Z.mod_pos_bound r (values_per_page t) Hv). pose proof (Z.mod_pos_bound r' (values_per_page t) Hv).
  pose proof (Z.div_mod r (values_per_page t) ltac:(lia)). pose proof (Z.div_mod r' (values_per_page t) ltac:(lia)).
  assert (r mod values_per_page t ≠ r' mod values_per_page t)%Z by (rewrite Hq in *; lia).
  set (m := Z.to_nat (r mod values_per_page t)). set (m' := Z.to_nat (r' mod values_per_page t)).
  assert (m < m' ∨ m' < m) as [Hlt|Hlt] by (unfold m, m'; lia); [right|left]; nia.
Qed.

Definition write_slot_at (f : pages) (t : LogicalType) (r : Z) (data : list Z) : pages :=
  put_page f (r / values_per_page t) (splice (page_at f (r / values_per_page t)) (slot_offset t r) data).

Lemma write_slot_at_spec f t r data : pages_ok f → length data = element_size t → bytes_ok data →
  pages_ok (write_slot_at f t r data) ∧ slot (write_slot_at f t r data) t r = data ∧
  ∀ r', r' ≠ r → slot (write_slot_at f t r data) t r' = slot f t r'.
Proof.
  intros Hf Hl Hb. pose proof (slot_in_page t r) as Hin. destruct (page_at_ok f (r / values_per_page t) Hf) as [Hpl Hpb].
  unfold write_slot_at. split; [|split].
  - apply pages_ok_put; [done| |by apply bytes_ok_splice]. rewrite length_splice; lia.
  - unfold slot. rewrite page_at_put, <- Hl. apply slice_splice_same. lia.
  - intros r' Hne. unfold slot. destruct (decide (r' / values_per_page t = r / values_per_page t)%Z) as [E|E].
    + rewrite E, page_at_put. pose proof (slot_in_page t r'). apply slice_splice_other; [lia| |lia]. rewrite Hl.
      by apply slots_apart.
    + by rewrite page_at_put_ne.
Qed.

Lemma slot_grow f p t r : slot (grow_to f p) t r = slot f t r.
Proof. unfold slot. by rewrite page_at_grow. Qed.

(** ** Columns *)

Section column.
Context (debug : Value → list Z) (from_utf8_lossy : list Z → list Z).

(** A writable column: whole pages, room in the overflow file, no compression. *)
Record column_ok (room : nat) (c : ColumnData) : Prop := {
  ok_fh : pages_ok (fh c);
  ok_null : pages_ok (null_fh c);
  ok_overflow : overflow_ok room (overflow_fh c);
  ok_writable : compressed c = false;
  ok_meta : compression_meta (stats c) = None;
  ok_pending : ∀ tx, entries_ok (default [] (pending_nulls c !! tx));
}.

(** Row [r] has the value [v], as transaction [tx] sees it. *)
Definition holds (c : ColumnData) (tx r : Z) (v : Value) : Prop :=
  match v with
  | VNull => is_null c tx r = true
  | _ => is_null c tx r = false ∧ reads from_utf8_lossy (data_type c) (overflow_fh c) (slot (fh c) (data_type c) r) v
  end.

(** The types whose values are one slot. *)
Definition scalar (t : LogicalType) : bool :=
  match t with TList _ | TStruct _ => false | _ => true end.

Lemma update_page_bounds_meta s p v : compression_meta (update_page_bounds debug s p v) = compression_meta s.
Proof. unfold update_page_bounds. destruct v; try done; destruct (negb _); try done; case_decide; done. Qed.
Lemma update_meta s v : compression_meta (update debug s v) = compression_meta s.
Proof. by destruct v. Qed.

Lemma holds_value c tx r v : is_null_value v = false →
  holds c tx r v ↔ is_null c tx r = false ∧ reads from_utf8_lossy (data_type c) (overflow_fh c) (slot (fh c) (data_type c) r) v.
Proof. by destruct v. Qed.

Lemma holds_plain c tx r v room :
  column_ok room c → is_null_value v = false → holds c tx r v → get_plain_value from_utf8_lossy c r = Ok v.
Proof.
  intros Hc Hv Hh. apply holds_value in Hh as [_ Hr]; [|done].
  unfold get_plain_value. rewrite (ok_meta room c Hc). unfold get_uncompressed_value.
  destruct (geometry (data_type c)) as (_ & _ & _ & ->). fold (slot_offset (data_type c) r).
  pose proof (slot_in_page (data_type c) r). destruct (page_at_ok (fh c) (r / values_per_page (data_type c)) (ok_fh room c Hc)).
  rewrite slice_get_ok by lia. cbn [outcome_bind]. apply Hr. reflexivity.
Qed.

Lemma holds_get c cs tx r v room :
  column_ok room c → scalar (data_type c) = true → holds c tx r v →
  get_value from_utf8_lossy (mkColumn c cs) tx r = Ok v.
Proof.
  intros Hc Ht Hh. destruct (is_null_value v) eqn:Hv.
  { destruct v; try done. cbn [get_value col]. cbn in Hh. by rewrite Hh. }
  pose proof (holds_plain c tx r v room Hc Hv Hh) as Hp. apply holds_value in Hh as [Hn _]; [|done].
  cbn [get_value col]. rewrite Hn. by destruct (data_type c).
Qed.

(** The parts of a column and of a transaction that null bits do not touch. *)
Definition same_data (c c' : ColumnData) : Prop :=
  fh c' = fh c ∧ overflow_fh c' = overflow_fh c ∧ stats c' = stats c ∧ data_type c' = data_type c ∧ compressed c' = compressed c ∧
  atomic_num_values c' = atomic_num_values c.
Definition same_tx (w w' : WriteTx) : Prop :=
  w_tx_id w' = w_tx_id w ∧ w_read_ts w' = w_read_ts w ∧ w_versions w' = w_versions w.

Lemma write_null_entries_tx c w l : same_tx w (snd (write_null_entries c w l)).
Proof. unfold write_null_entries. cbn zeta. cbn [snd]. by destruct (w_read_only w). Qed.

Lemma u8_bit (b : bool) : is_u8 (if b then 1%Z else 0%Z).
Proof. unfold is_u8. destruct b; lia. Qed.

Lemma set_null_spec room c w r b : column_ok room c → (0 ≤ r)%Z →
  let '(c', w') := set_null c w r b in
  column_ok room c' ∧ same_data c c' ∧ same_tx w w' ∧
  is_null c' (w_tx_id w) r = b ∧ ∀ r', (0 ≤ r')%Z → r' ≠ r → is_null c' (w_tx_id w) r' = is_null c (w_tx_id w) r'.
Proof.
  intros Hc Hr. unfold set_null. cbn zeta. cbn [set_dirty pending_nulls]. set (old := default [] (pending_nulls c !! w_tx_id w)).
  set (entry := old ++ [(r, if b then 1%Z else 0%Z)]).
  assert (entries_ok entry) as He.
  { apply Forall_app. split; [apply (ok_pending room c Hc)|]. constructor; [split; [done|apply u8_bit]|constructor]. }
  assert (∀ q, last_val q entry = if decide (r = q) then Some (if b then 1%Z else 0%Z) else last_val q old) as Hlast
    by (intros q; apply last_val_snoc).
  case_decide as Hthr.
  - pose proof (write_null_entries_spec (set_pending (set_dirty c) (<[w_tx_id w := []]> (pending_nulls c))) w entry (ok_null room c Hc) He) as Hw.
    pose proof (write_null_entries_tx (set_pending (set_dirty c) (<[w_tx_id w := []]> (pending_nulls c))) w entry) as Htx.
    destruct (write_null_entries _ w entry) as [c' w']. destruct Hw as (f & -> & Hf & Hb). cbn [snd] in Htx.
    split; [|split; [done|split; [done|]]].
    + destruct Hc as [Hc1 Hc2 Hc3 Hc4 Hc5 Hc6]. constructor; try done. cbn. intros tx. destruct (decide (tx = w_tx_id w)) as [->|].
      * rewrite lookup_insert_eq. constructor.
      * rewrite lookup_insert_ne by done. apply Hc6.
    + assert (∀ q, is_null (set_null_fh (set_pending (set_dirty c) (<[w_tx_id w := []]> (pending_nulls c))) f) (w_tx_id w) q = negb (bool_decide (null_byte f q = 0%Z))) as Hn.
      { intros q. rewrite is_null_spec. cbn. by rewrite lookup_insert_eq. }
      split.
      * rewrite Hn, Hb, Hlast, decide_True by done. by destruct b.
      * intros q Hq Hne. rewrite Hn, Hb, Hlast, decide_False by done. by rewrite is_null_spec.
  - split; [|split; [done|split; [done|]]].
    + destruct Hc as [Hc1 Hc2 Hc3 Hc4 Hc5 Hc6]. constructor; try done. cbn. intros tx. destruct (decide (tx = w_tx_id w)) as [->|].
      * by rewrite lookup_insert_eq.
      * rewrite lookup_insert_ne by done. apply Hc6.
    + assert (∀ q, is_null (set_pending (set_dirty c) (<[w_tx_id w := entry]> (pending_nulls c))) (w_tx_id w) q
                   = negb (bool_decide (default (null_byte (null_fh c) q) (last_val q entry) = 0%Z))) as Hn.
      { intros q. rewrite is_null_spec. cbn. by rewrite lookup_insert_eq. }
      split.
      * rewrite Hn, Hlast, decide_True by done. by destruct b.
      * intros q Hq Hne. rewrite Hn, Hlast, decide_False by done. by rewrite is_null_spec.
Qed.

(** Flushing the buffered changes does not change what the transaction sees. *)
Lemma flush_pending_spec room c w : column_ok room c →
  let '(c', w') := flush_pending_nulls c w in
  column_ok room c' ∧ same_data c c' ∧ same_tx w w' ∧ ∀ r, (0 ≤ r)%Z → is_null c' (w_tx_id w) r = is_null c (w_tx_id w) r.
Proof.
  intros Hc. unfold flush_pending_nulls. set (pending := default [] (pending_nulls c !! w_tx_id w)).
  set (c1 := set_pending c (delete (w_tx_id w) (pending_nulls c))).
  assert (column_ok room c1) as Hc1.
  { destruct Hc as [Hc1 Hc2 Hc3 Hc4 Hc5 Hc6]. constructor; try done. cbn. intros tx. destruct (decide (tx = w_tx_id w)) as [->|].
    - rewrite lookup_delete_eq. constructor.
    - rewrite lookup_delete_ne by done. apply Hc6. }
  case_decide as Hp.
  - split; [done|]. split; [done|]. split; [done|]. intros r Hr. rewrite !is_null_spec. cbn. rewrite lookup_delete_eq. fold pending. by rewrite Hp.
  - pose proof (write_null_entries_spec c1 w pending (ok_null room c Hc) (ok_pending room c Hc _)) as Hw.
    pose proof (write_null_entries_tx c1 w pending) as Htx. destruct (write_null_entries c1 w pending) as [c' w'].
    destruct Hw as (f & -> & Hf & Hb). split; [|split; [done|split; [done|]]].
    + destruct Hc1 as [Hd1 Hd2 Hd3 Hd4 Hd5 Hd6]. by constructor.
    + intros r Hr. rewrite !is_null_spec. cbn. rewrite lookup_delete_eq. cbn. rewrite Hb by done. done.
Qed.

Lemma is_null_same c c' tx r : null_fh c' = null_fh c → pending_nulls c' = pending_nulls c → is_null c' tx r = is_null c tx r.
Proof. intros H1 H2. unfold is_null. by rewrite H1, H2. Qed.

(** A transaction may write the row: nobody else holds it and nothing newer is committed. *)
Definition may_write (w : WriteTx) (r : Z) : Prop := snd (mark_row (w_versions w) r (w_tx_id w) (w_read_ts w)) = None.

Definition marked (w : WriteTx) (r : Z) (w' : WriteTx) : Prop :=
  w_tx_id w' = w_tx_id w ∧ w_read_ts w' = w_read_ts w ∧
  w_versions w' = fst (mark_row (w_versions w) r (w_tx_id w) (w_read_ts w)).

Lemma may_write_marked w r w' q : rv_wf (w_versions w) → marked w r w' → may_write w q → may_write w' q.
Proof.
  intros Hwf (H1 & H2 & H3). unfold may_write. rewrite H1, H2, H3. rewrite !mark_row_verdict, view_mark by done.
  cbn [cell_exec]. destruct (decide (q = r)); [|done]. destruct (cell_can_mark _ _ _); [|done].
  unfold cell_verdict. destruct (view (w_versions w) q) as [a h]. cbn [cell_mark c_active c_history].
  rewrite decide_False by naive_solver. destruct h as [ce|]; [destruct (decide (last_ts ce > w_read_ts w)%Z)|];
    (destruct a as [t|]; [destruct (decide (t ≠ w_tx_id w))|]); done.
Qed.

Lemma marked_wf w r w' : rv_wf (w_versions w) → marked w r w' → rv_wf (w_versions w').
Proof. intros Hwf (_ & _ & ->). by apply (exec_wf (OpMark r (w_tx_id w) (w_read_ts w))). Qed.

(** [append_plain_value] writes one slot and marks the row. *)
Lemma append_plain_spec c w v r o' buf' :
  pages_ok (fh c) → serialize_value_into (data_type c) (overflow_fh c) v (replicate 64 0%Z) = (o', Ok buf') →
  length buf' = 64 → bytes_ok buf' → may_write w r →
  ∃ c' w', append_plain_value debug c w v r = ((c', w'), Ok tt) ∧ marked w r w' ∧
    data_type c' = data_type c ∧ null_fh c' = null_fh c ∧ pending_nulls c' = pending_nulls c ∧ overflow_fh c' = o' ∧
    compressed c' = compressed c ∧ compression_meta (stats c') = compression_meta (stats c) ∧ pages_ok (fh c') ∧
    atomic_num_values c' = (atomic_num_values c + 1)%Z ∧
    slot (fh c') (data_type c) r = take (element_size (data_type c)) buf' ∧
    (∀ r', r' ≠ r → slot (fh c') (data_type c) r' = slot (fh c) (data_type c) r').
Proof.
  intros Hf E Hl Hb Hm. unfold append_plain_value. cbn [set_fh overflow_fh fh]. rewrite E. cbn zeta.
  unfold may_write in Hm. destruct (mark_row _ r _ _) as [rv [k|]] eqn:Emark; [done|].
  destruct (geometry (data_type c)) as (_ & _ & He & _).
  set (f1 := grow_to (fh c) (r / values_per_page (data_type c))).
  assert (pages_ok f1) as Hf1 by (by apply pages_ok_grow).
  destruct (write_slot_at_spec f1 (data_type c) r (take (element_size (data_type c)) buf') Hf1) as (H1 & H2 & H3);
    [rewrite length_take; lia|by apply Forall_take|].
  eexists _, _. split; [reflexivity|]. split; [|cbn [set_stats add_counts set_overflow set_fh data_type null_fh pending_nulls overflow_fh compressed stats fh atomic_num_values]].
  { split; [done|]. split; [done|]. cbn. by rewrite Emark. }
  split_and!; try done.
  - apply update_page_bounds_meta.
  - intros r' Hne. etrans; [by apply H3|]. apply slot_grow.
Qed.

(** What the column will answer for a value it was given. *)
Definition image (t : LogicalType) (v : Value) : Value :=
  match v with VNull => VNull | _ => default VNull (stored t v) end.
Definition storable (c : ColumnData) (v : Value) : Prop :=
  value_ok v ∧ fits (overflow_fh c) v ∧ (v = VNull ∨ is_Some (stored (data_type c) v)).

Lemma stored_not_null t v v' : stored t v = Some v' → is_null_value v = false ∧ is_null_value v' = false.
Proof. destruct v, t; cbn; intros [= <-]; done. Qed.

(** Rows other than [r] keep their values when their slots, null bytes and
    overflow pages stay. *)
Lemma holds_frame c c' tx r v :
  data_type c' = data_type c → overflow_extends (overflow_fh c) (overflow_fh c') → is_null c' tx r = is_null c tx r →
  slot (fh c') (data_type c) r = slot (fh c) (data_type c) r → holds c tx r v → holds c' tx r v.
Proof.
  intros Ht Ho Hn Hs. destruct (is_null_value v) eqn:Hv; [destruct v; try done; cbn; by rewrite Hn|].
  rewrite !holds_value by done. rewrite Ht, Hn, Hs. intros [H1 H2]. split; [done|]. by eapply reads_extends.
Qed.

(** [append_value] on a scalar column. *)
Lemma append_scalar_spec room c cs w v r :
  column_ok (need v + room) c → scalar (data_type c) = true → (0 ≤ r)%Z → storable c v → may_write w r →
  ∃ c' w', append_value debug v (mkColumn c cs) w r = ((mkColumn c' cs, w'), Ok tt) ∧ column_ok room c' ∧
    data_type c' = data_type c ∧ atomic_num_values c' = (atomic_num_values c + 1)%Z ∧
    overflow_extends (overflow_fh c) (overflow_fh c') ∧ marked w r w' ∧
    holds c' (w_tx_id w) r (image (data_type c) v) ∧
    ∀ r' u, (0 ≤ r')%Z → r' ≠ r → holds c (w_tx_id w) r' u → holds c' (w_tx_id w) r' u.
Proof.
  intros Hc Ht Hr (Hv & Hfit & Hst) Hm.
  assert (∀ v0, append_value debug v0 (mkColumn c cs) w r =
    let '(d, w0) := set_null (set_dirty c) w r (is_null_value v0) in
    if is_null_value v0 then
      let '(d, w1) := flush_pending_nulls d w0 in on_col (mkColumn d cs) (append_plain_value debug (add_counts d 0 1) w1 (VNumber 0) r)
    else on_col (mkColumn d cs) (append_plain_value debug d w0 v0 r)) as Hunf.
  { intros v0. assert (data_type (fst (set_null (set_dirty c) w r (is_null_value v0))) = data_type c) as Hty.
    { unfold set_null. cbn zeta. case_decide; [|done]. by unfold write_null_entries. }
    destruct v0; cbn [append_value col child_columns ensure_writable is_null_value] in *; unfold ensure_writable; rewrite (ok_writable _ c Hc);
      destruct (set_null (set_dirty c) w r _) as [xd xw]; cbn [fst] in Hty; rewrite ?Hty; destruct (data_type c); try done;
      destruct (flush_pending_nulls xd xw); done. }
  rewrite Hunf. clear Hunf.
  assert (column_ok (need v + room) (set_dirty c)) as Hc0 by (destruct Hc; by constructor).
  pose proof (set_null_spec (need v + room) (set_dirty c) w r (is_null_value v) Hc0 Hr) as Hs.
  destruct (set_null (set_dirty c) w r (is_null_value v)) as [d w0].
  destruct Hs as (Hd & (Sf & So & Ss & St & Sc & Sn) & (T1 & T2 & T3) & N1 & N2). cbn in Sf, So, Ss, St, Sc, Sn.
  assert (may_write w0 r) as Hm0 by (unfold may_write in *; by rewrite T1, T2, T3).
  destruct (is_null_value v) eqn:Hnull.
  - destruct v; try done. cbn [need Nat.add] in *.
    pose proof (flush_pending_spec room d w0 Hd) as Hfl. destruct (flush_pending_nulls d w0) as [d1 w1].
    destruct Hfl as (Hd1 & (Sf1 & So1 & Ss1 & St1 & Sc1 & Sn1) & (U1 & U2 & U3) & N3).
    destruct (append_plain_spec (add_counts d1 0 1) w1 (VNumber 0) r (overflow_fh c)
      (replicate 64 0%Z)) as (c' & w' & E & (M1 & M2 & M3) & P1 & P2 & P3 & P4 & P5 & P6 & P7 & Pn & P8 & P9).
    { apply (ok_fh room d1 Hd1). }
    { cbn [add_counts data_type overflow_fh]. rewrite So1, So, St1, St. by destruct (data_type c). }
    { apply length_replicate. } { by apply bytes_ok_replicate. }
    { unfold may_write in *. by rewrite U1, U2, U3. }
    cbn [add_counts data_type null_fh pending_nulls compressed stats fh atomic_num_values] in *.
    assert (∀ q, (0 ≤ q)%Z → is_null c' (w_tx_id w) q = is_null d (w_tx_id w) q) as N4.
    { intros q Hq. rewrite (is_null_same d1 c') by done. rewrite <- T1. by apply N3. }
    exists c', w'. rewrite E. split; [done|]. split; [|split; [congruence|split; [lia|split; [rewrite P4; reflexivity|split; [|split]]]]].
    + destruct Hd1 as [K1 K2 K3 K4 K5 K6]. constructor; try congruence; [done|by rewrite P2|].
      intros tx. rewrite P3. apply K6.
    + split; [congruence|]. split; [congruence|]. rewrite M3, U1, U2, U3, T1, T2, T3. done.
    + cbn. by rewrite N4.
    + intros r' u Hr' Hne. apply holds_frame; [congruence|rewrite P4; reflexivity| |].
      * rewrite N4 by done. rewrite N2 by done. done.
      * rewrite <- St, <- St1, P9 by done. by rewrite Sf1, Sf.
  - destruct Hst as [->|[v' Hv']]; [done|].
    destruct (serialize_reads from_utf8_lossy (data_type c) (overflow_fh c) v v' room (replicate 64 0%Z))
      as (o' & buf' & E1 & E2 & E3 & E4 & E5 & E6); try done.
    { apply (ok_overflow _ c Hc). } { by apply bytes_ok_replicate. }
    destruct (append_plain_spec d w0 v r o' buf') as (c' & w' & E & (M1 & M2 & M3) & P1 & P2 & P3 & P4 & P5 & P6 & P7 & Pn & P8 & P9); try done.
    { apply (ok_fh _ d Hd). } { by rewrite So, St. }
    assert (∀ q, is_null c' (w_tx_id w) q = is_null d (w_tx_id w) q) as N4 by (intros q; by apply is_null_same).
    exists c', w'. rewrite E. split; [done|]. split; [|split; [congruence|split; [lia|split; [by rewrite P4|split; [|split]]]]].
    + destruct Hd as [K1 K2 K3 K4 K5 K6]. constructor; try congruence; [done|by rewrite P2|].
      intros tx. rewrite P3. apply K6.
    + split; [congruence|]. split; [congruence|]. rewrite M3, T1, T2, T3. done.
    + destruct (stored_not_null _ _ _ Hv') as [_ Hn'].
      assert (image (data_type c) v = v') as -> by (unfold image; rewrite Hv'; by destruct v).
      apply holds_value; [done|]. rewrite N4, N1. split; [done|].
      assert (data_type c' = data_type c) as -> by congruence.
      assert (slot (fh c') (data_type c) r = take (element_size (data_type c)) buf') as -> by congruence. by rewrite P4.
    + intros r' u Hr' Hne. apply holds_frame; [congruence|by rewrite P4| |].
      * rewrite N4. by rewrite N2.
      * rewrite <- St, P9 by done. by rewrite Sf.
Qed.

(** ** A column is a map from rows to values *)

(** A statement's writes to a column, one [append_value] each. *)
Fixpoint append_writes (l : list (Z * Value)) (c : Column) (w : WriteTx) : tree_result unit :=
  match l with
  | [] => ((c, w), Ok tt)
  | (r, v) :: l =>
      match append_value debug v c w r with
      | ((c, w), Ok _) => append_writes l c w
      | res => res
      end
  end.
Definition represents (c : ColumnData) (tx : Z) (m : gmap Z Value) : Prop :=
  ∀ r v, m !! r = Some v → (0 ≤ r)%Z ∧ holds c tx r v.
Definition write_all_rows (t : LogicalType) (l : list (Z * Value)) (m : gmap Z Value) : gmap Z Value :=
  foldl (λ m e, <[fst e := image t (snd e)]> m) m l.

Lemma storable_extends c c' v : data_type c' = data_type c → overflow_extends (overflow_fh c) (overflow_fh c') →
  storable c v → storable c' v.
Proof.
  intros Ht Ho (H1 & H2 & H3). split; [done|]. rewrite Ht. split; [|done]. destruct v; try done. cbn in *.
  destruct H2 as [H2|H2]; [by left|right]. by destruct (overflow_fh c), (overflow_fh c').
Qed.

Lemma append_writes_spec l room c cs w m :
  column_ok (sum_list_with (need ∘ snd) l + room) c → scalar (data_type c) = true → rv_wf (w_versions w) →
  represents c (w_tx_id w) m →
  Forall (λ e, (0 ≤ fst e)%Z ∧ storable c (snd e) ∧ may_write w (fst e)) l →
  ∃ c' w', append_writes l (mkColumn c cs) w = ((mkColumn c' cs, w'), Ok tt) ∧ column_ok room c' ∧
    data_type c' = data_type c ∧ atomic_num_values c' = (atomic_num_values c + Z.of_nat (length l))%Z ∧
    overflow_extends (overflow_fh c) (overflow_fh c') ∧ rv_wf (w_versions w') ∧ w_tx_id w' = w_tx_id w ∧
    (∀ q, may_write w q → may_write w' q) ∧
    represents c' (w_tx_id w) (write_all_rows (data_type c) l m).
Proof.
  revert c w m. induction l as [|[r v] l IH]; intros c w m Hc Ht Hwf Hrep Hl.
  - exists c, w. cbn [length]. rewrite Z.add_0_r. split; [done|]. split; [done|]. split; [done|]. split; [done|]. split; [reflexivity|done].
  - inversion Hl as [|? ? (Hr & Hs & Hm) Hl']; subst. cbn [fst snd] in *. cbn [sum_list_with compose] in Hc.
    destruct (append_scalar_spec (sum_list_with (need ∘ snd) l + room) c cs w v r) as (c1 & w1 & E & Hc1 & Ht1 & Hn1 & Ho1 & Hm1 & Hh & Hk);
      try done. { by replace (need v + (sum_list_with (need ∘ snd) l + room)) with (need v + sum_list_with (need ∘ snd) l + room) by lia. }
    cbn [append_writes]. rewrite E. pose proof Hm1 as (M1 & _ & _).
    destruct (IH c1 w1 (<[r := image (data_type c) v]> m)) as (c' & w' & E' & Hc' & Ht' & Hn' & Ho' & Hwf' & Htx' & Hmw' & Hrep').
    + done.
    + by rewrite Ht1.
    + by eapply marked_wf.
    + rewrite M1. intros q u Hq. destruct (decide (q = r)) as [->|Hne].
      * rewrite lookup_insert_eq in Hq. by injection Hq as <-.
      * rewrite lookup_insert_ne in Hq by done. destruct (Hrep q u Hq) as [Hq0 Hu]. split; [done|]. by apply Hk.
    + apply list.Forall_forall. intros [q u] Hq. rewrite list.Forall_forall in Hl'. destruct (Hl' _ Hq) as (H1 & H2 & H3).
      split; [done|]. split; [by apply (storable_extends c)|by apply (may_write_marked w r)].
    + exists c', w'. split; [done|]. split; [done|]. split; [congruence|]. split; [cbn [length]; lia|].
      split; [by transitivity (overflow_fh c1)|]. split; [done|]. split; [congruence|]. split.
      * intros q Hq. apply Hmw'. by apply (may_write_marked w r).
      * rewrite M1, Ht1 in Hrep'. done.
Qed.

(** C6. A column of scalars is a map from rows to values: any sequence of
    [append_value] calls on rows the transaction may write succeeds, and
    afterwards [get_value] gives, for every row written, the last value written
    there as the type stores it ([None] for null), and for every other row the
    value it had, long strings included. *)
Theorem column_refines_map l room c cs w m :
  column_ok (sum_list_with (need ∘ snd) l + room) c → scalar (data_type c) = true → rv_wf (w_versions w) →
  represents c (w_tx_id w) m →
  Forall (λ e, (0 ≤ fst e)%Z ∧ storable c (snd e) ∧ may_write w (fst e)) l →
  ∃ c' w', append_writes l (mkColumn c cs) w = ((mkColumn c' cs, w'), Ok tt) ∧ column_ok room c' ∧
    represents c' (w_tx_id w) (write_all_rows (data_type c) l m) ∧
    ∀ r v, write_all_rows (data_type c) l m !! r = Some v → get_value from_utf8_lossy (mkColumn c' cs) (w_tx_id w) r = Ok v.
Proof.
  intros Hc Ht Hwf Hrep Hl.
  destruct (append_writes_spec l room c cs w m Hc Ht Hwf Hrep Hl) as (c' & w' & E & Hc' & Ht' & _ & _ & _ & _ & _ & Hrep').
  exists c', w'. split; [done|]. split; [done|]. split; [done|]. intros r v Hr.
  apply (holds_get c' cs _ r v room); [done|by rewrite Ht'|]. by apply Hrep'.
Qed.
End column.

(** A value of the column's own kind comes back as it was: whole numbers below
    [2^53], ids, doubles, booleans, strings, dates, timestamps. *)
Lemma image_exact t v :
  match t, v with
  | TInt64, VNumber n => ∃ z, (- 2 ^ 53 < z < 2 ^ 53)%Z ∧ n = int_as_f64 z
  | TInt32, VNumber n => ∃ z, (- 2 ^ 31 ≤ z < 2 ^ 31)%Z ∧ n = int_as_f64 z
  | TUint64, VNode _ | TNode _, VNode _ | TDouble, VNumber _ | TFloat, VNumber _ | TBool, VBoolean _
  | TString, VString _ | TDate, VDate _ | TTimestamp, VTimestamp _ | _, VNull => True
  | _, _ => False
  end → image t v = v.
Proof.
  destruct t, v; cbn; try done.
  - intros (z & Hz & ->). unfold image. cbn. by rewrite int_as_f64_exact.
  - intros (z & Hz & ->). unfold image. cbn. unfold f64_as_i32. rewrite int_as_f64_exact by lia.
    by replace (Z.max (- 2 ^ 31) (Z.min (2 ^ 31 - 1) z)) with z by lia.
Qed.

(** ** Witness *)

Definition demo_debug (v : Value) : list Z := [].
Definition demo_lossy (l : list Z) : list Z := [].
Definition empty_file : pages := mkPages ∅ 0.
Definition demo_tx : WriteTx := mkWriteTx 7 3 false row_version_new [] [].
Definition demo_column (t : LogicalType) (o : option pages) : ColumnData :=
  column_new [97%Z] t (1, empty_file)%Z (2, empty_file)%Z o.
(** A short string, a long one over two pages, a null and an overwrite. *)
Definition demo_writes : list (Z * Value) :=
  [(0, VString [104; 105]); (1, VString (replicate 5000 97)); (70, VNull); (0, VString (replicate 64 98))]%Z.

Lemma empty_column_ok room t o : overflow_ok room o → column_ok room (demo_column t o).
Proof.
  intros Ho. assert (pages_ok empty_file) as He by (intros i p Hp; cbn in Hp; by rewrite lookup_empty in Hp).
  constructor; [exact He|exact He|exact Ho|done|done|]. intros tx. cbn. rewrite lookup_empty. constructor.
Qed.
Lemma empty_overflow_ok room : (Z.of_nat room < 2 ^ 52)%Z → overflow_ok room (Some empty_file).
Proof. intros H. split; [intros i p Hp; cbn in Hp; by rewrite lookup_empty in Hp|]. cbn. lia. Qed.

(** The conditions on a list of writes, as a test. *)
Definition write_test (c : ColumnData) (w : WriteTx) (e : Z * Value) : bool :=
  bool_decide (0 ≤ fst e)%Z && bool_decide (value_ok (snd e)) &&
  match snd e with VString s => bool_decide (length s < 64) || bool_decide (is_Some (overflow_fh c)) | _ => true end &&
  (is_null_value (snd e) || match stored (data_type c) (snd e) with Some _ => true | None => false end) &&
  match snd (mark_row (w_versions w) (fst e) (w_tx_id w) (w_read_ts w)) with None => true | Some _ => false end.

Lemma write_test_sound c w l : forallb (write_test c w) l = true →
  Forall (λ e, (0 ≤ fst e)%Z ∧ storable c (snd e) ∧ may_write w (fst e)) l.
Proof.
  intros H. apply list.Forall_forall. intros [r v] He. rewrite forallb_forall in H. apply list_elem_of_In, H in He.
  unfold write_test in He. cbn [fst snd] in *. rewrite !andb_true_iff, !bool_decide_eq_true in He.
  destruct He as ((((H1 & H2) & H3) & H4) & H5). split; [done|]. split; [|unfold may_write; by destruct (snd _)].
  split; [done|]. split.
  - destruct v; try done. cbn. rewrite orb_true_iff, !bool_decide_eq_true in H3. destruct H3 as [H3|[f ->]]; [by left|by right].
  - destruct (is_null_value v) eqn:Hn; [left; by destruct v|right]. cbn in H4. by destruct (stored (data_type c) v).
Qed.

Lemma column_refines_map_witness :
  ∃ c' w', append_writes demo_debug demo_writes (mkColumn (demo_column TString (Some empty_file)) []) demo_tx
             = ((mkColumn c' [], w'), Ok tt) ∧ column_ok 1 c' ∧
    represents demo_lossy c' 7 (write_all_rows TString demo_writes ∅) ∧
    ∀ r v, write_all_rows TString demo_writes ∅ !! r = Some v → get_value demo_lossy (mkColumn c' []) 7 r = Ok v.
Proof.
  apply (column_refines_map demo_debug demo_lossy demo_writes 1 (demo_column TString (Some empty_file)) [] demo_tx ∅).
  - apply empty_column_ok, empty_overflow_ok. by_compute.
  - reflexivity.
  - by_compute.
  - intros r v H. by rewrite lookup_empty in H.
  - apply write_test_sound. vm_compute. reflexivity.
Defined.
