(* ===== verification/ColumnBatch.v ===== *)
(** * Batches of rows (storage/column.rs)

    [batch_append_values] and [bulk_append_array] write whole pages of rows;
    for a scalar column they have the effect of one [append_value] per row. *)
From stdpp Require Import base list gmap strings numbers.
From Stdlib Require Import ZArith Lia Bool.
From S2P Require Import Prelude Codec Codecs Alp RowVersion TxnManager PageFile Overflow Stats Column ColumnSpec.
Open Scope nat_scope.

Definition bit_of (b : bool) : Z := if b then 1%Z else 0%Z.

(** ** The null bytes of a batch *)

(** The bytes of page [p] after the rows from [row] on took the values [nulls]. *)
Definition null_frame_after (frame frame' : list Z) (p row : Z) (nulls : list bool) : Prop :=
  ∀ q, (0 ≤ q)%Z → (q / 4096 = p)%Z →
    byte_at frame' (Z.to_nat (q mod 4096)) =
    if decide (row ≤ q < row + Z.of_nat (length nulls))%Z then bit_of (default false (nulls !! Z.to_nat (q - row)))
    else byte_at frame (Z.to_nat (q mod 4096)).

Lemma null_run_spec c nulls row p frame mods :
  (0 ≤ row)%Z → length frame = PAGE_SIZE → bytes_ok frame →
  let '((frame', _), (rest, row')) := null_run c nulls row p frame mods in
  ∃ pre, nulls = pre ++ rest ∧ row' = (row + Z.of_nat (length pre))%Z ∧ (rest = [] ∨ row' / 4096 ≠ p)%Z ∧
    (∀ q, (row ≤ q < row')%Z → (q / 4096 = p)%Z) ∧
    length frame' = PAGE_SIZE ∧ bytes_ok frame' ∧ null_frame_after frame frame' p row pre.
Proof.
  revert row frame mods. induction nulls as [|b nulls IH]; intros row frame mods Hr Hl Hb; cbn [null_run].
  - exists []. split; [done|]. split; [cbn; lia|]. split; [by left|]. split; [lia|]. split; [done|]. split; [done|].
    intros q Hq Hp. rewrite decide_False by (cbn; lia). done.
  - case_decide as Hp.
    + fold (bit_of b). pose proof (Z.mod_pos_bound row 4096 ltac:(lia)) as Hm. pose proof PAGE_SIZE_val as HP.
      specialize (IH (row + 1)%Z (<[Z.to_nat (row mod 4096) := bit_of b]> frame) (mods ++ [null_mod c row (bit_of b)])).
      destruct (null_run c nulls (row + 1) p _ _) as [[frame' mods'] [rest row']].
      destruct IH as (pre & E1 & E2 & E3 & E4 & E5 & E6 & E7); [lia|by rewrite length_insert| |].
      { apply Forall_insert; [done|]. unfold is_u8, bit_of. destruct b; lia. }
      exists (b :: pre). cbn [length app]. split; [by rewrite E1|]. split; [lia|]. split; [done|]. split.
      { intros q Hq. destruct (decide (q = row)) as [->|]; [done|]. apply E4. lia. }
      split; [done|]. split; [done|]. intros q Hq Hqp. rewrite (E7 q Hq Hqp).
      destruct (decide (q = row)) as [->|Hne].
      * rewrite decide_False by lia. rewrite decide_True by (cbn; lia). unfold byte_at.
        rewrite list_lookup_insert_eq by lia. rewrite Z.sub_diag. done.
      * assert (Z.to_nat (q mod 4096) ≠ Z.to_nat (row mod 4096)) as Hoff.
        { pose proof (Z.div_mod q 4096 ltac:(lia)). pose proof (Z.div_mod row 4096 ltac:(lia)).
          pose proof (Z.mod_pos_bound q 4096 ltac:(lia)). rewrite Hqp, Hp in *. lia. }
        unfold byte_at at 1. rewrite list_lookup_insert_ne by done.
        destruct (decide (row + 1 ≤ q < row + 1 + Z.of_nat (length pre))%Z).
        -- rewrite decide_True by (cbn; lia). replace (Z.to_nat (q - row)) with (S (Z.to_nat (q - (row + 1)))) by lia. done.
        -- rewrite decide_False by (cbn; lia). done.
    + exists []. cbn. split; [done|]. split; [lia|]. split; [by right|]. split; [lia|]. split; [done|]. split; [done|].
      intros q Hq Hqp. rewrite decide_False by (cbn; lia). done.
Qed.

Lemma null_run_moves c b nulls row frame mods :
  snd (snd (null_run c (b :: nulls) row (row / 4096) frame mods)) ≠ row ∨ fst (snd (null_run c (b :: nulls) row (row / 4096) frame mods)) ≠ b :: nulls.
Proof.
  cbn [null_run]. rewrite decide_True by done. right.
  assert (∀ l r f m, length (fst (snd (null_run c l r (row / 4096) f m))) ≤ length l) as H.
  { induction l as [|x l IH]; intros r f m; cbn [null_run]; [done|]. case_decide; [|done]. etrans; [apply IH|]. cbn. lia. }
  intros E. specialize (H nulls (row + 1)%Z (<[Z.to_nat (row mod 4096):=if b then 1%Z else 0%Z]> frame) (mods ++ [null_mod c row (if b then 1%Z else 0%Z)])).
  rewrite E in H. cbn in H. lia.
Qed.

Lemma write_null_rows_spec fuel c w nulls row :
  length nulls ≤ fuel → (0 ≤ row)%Z → pages_ok (null_fh c) →
  let '(c', w') := write_null_rows fuel c w nulls row in
  ∃ f, c' = set_null_fh c f ∧ pages_ok f ∧ same_tx w w' ∧
    ∀ q, (0 ≤ q)%Z → null_byte f q =
      if decide (row ≤ q < row + Z.of_nat (length nulls))%Z then bit_of (default false (nulls !! Z.to_nat (q - row)))
      else null_byte (null_fh c) q.
Proof.
  revert c w nulls row. induction fuel as [|fuel IH]; intros c w nulls row Hfuel Hr Hf.
  - destruct nulls; [|cbn in Hfuel; lia]. cbn [write_null_rows]. exists (null_fh c). split; [by destruct c|]. split; [done|]. split; [done|].
    intros q Hq. rewrite decide_False by (cbn; lia). done.
  - cbn [write_null_rows]. destruct nulls as [|b nulls].
    { exists (null_fh c). split; [by destruct c|]. split; [done|]. split; [done|]. intros q Hq. rewrite decide_False by (cbn; lia). done. }
    set (p := (row / 4096)%Z). set (f1 := grow_to (null_fh c) p). assert (pages_ok f1) as Hf1 by (by apply pages_ok_grow).
    destruct (page_at_ok f1 p Hf1) as [Hl Hb].
    pose proof (null_run_spec c (b :: nulls) row p (page_at f1 p) [] Hr Hl Hb) as Hrun.
    pose proof (null_run_moves c b nulls row (page_at f1 p) []) as Hmove. fold p in Hmove.
    destruct (null_run c (b :: nulls) row p (page_at f1 p) []) as [[frame' mods] [rest row']]. cbn [fst snd] in Hmove.
    destruct Hrun as (pre & E1 & E2 & E3 & E4 & E5 & E6 & E7).
    assert (pre ≠ []) as Hpre. { intros ->. cbn in E1, E2. destruct Hmove as [Hm|Hm]; [apply Hm; lia|by apply Hm]. }
    assert (length (b :: nulls) = length pre + length rest) as Hlen by (by rewrite E1, length_app).
    assert (0 < length pre) by (destruct pre; [done|cbn; lia]).
    specialize (IH (set_null_fh c (put_page f1 p frame')) (push_mods w mods) rest row').
    destruct (write_null_rows fuel _ _ rest row') as [c' w'].
    destruct IH as (f & F1 & F2 & F3 & F4); [cbn [length] in *; lia|lia|by apply pages_ok_put|].
    exists f. split; [done|]. split; [done|]. split; [done|]. intros q Hq. rewrite (F4 q Hq).
    assert (null_byte (put_page f1 p frame') q =
      if decide (row ≤ q < row')%Z then bit_of (default false ((b :: nulls) !! Z.to_nat (q - row))) else null_byte (null_fh c) q) as Hput.
    { unfold null_byte. destruct (decide (q / 4096 = p)%Z) as [Hqp|Hqp].
      - rewrite Hqp, page_at_put. rewrite (E7 q Hq Hqp). rewrite E2. destruct (decide _) as [Hin|Hin]; [|by unfold f1; rewrite page_at_grow].
        rewrite E1, lookup_app_l by lia. done.
      - rewrite page_at_put_ne by done. rewrite decide_False by (intros Hin; by apply Hqp, E4). unfold f1. by rewrite page_at_grow. }
    destruct (decide (row' ≤ q < row' + Z.of_nat (length rest))%Z).
    + rewrite decide_True by lia. rewrite E1, lookup_app_r by lia. do 2 f_equal. f_equal. lia.
    + cbn [null_fh set_null_fh]. rewrite Hput. destruct (decide (row ≤ q < row')%Z).
      * by rewrite decide_True by lia.
      * by rewrite decide_False by lia.
Qed.

(** ** The slots of a batch *)

Section batch.
Context (debug : Value → list Z) (from_utf8_lossy : list Z → list Z).
Local Abbreviation reads := (ColumnSpec.reads from_utf8_lossy).

(** The rows from [row] on were given [vals]: the slots of those that are not
    null read back, the other rows keep their slots. *)
Record rows_written (row : Z) (vals : list Value) (c c' : ColumnData) : Prop := {
  rw_type : data_type c' = data_type c;
  rw_null : null_fh c' = null_fh c;
  rw_pending : pending_nulls c' = pending_nulls c;
  rw_compressed : compressed c' = compressed c;
  rw_meta : compression_meta (stats c') = compression_meta (stats c);
  rw_pages : pages_ok (fh c) → pages_ok (fh c');
  rw_overflow : overflow_extends (overflow_fh c) (overflow_fh c');
  rw_reads : ∀ i v, vals !! i = Some v → is_null_value v = false →
    reads (data_type c) (overflow_fh c') (slot (fh c') (data_type c) (row + Z.of_nat i)) (image (data_type c) v);
  rw_frame : ∀ r, (r < row ∨ row + Z.of_nat (length vals) ≤ r)%Z → slot (fh c') (data_type c) r = slot (fh c) (data_type c) r;
}.

Lemma rows_written_nil row c : rows_written row [] c c.
Proof. by constructor. Qed.

Lemma rows_written_grow row c p : rows_written row [] c (set_fh c (grow_to (fh c) p)).
Proof.
  constructor; try done.
  - apply pages_ok_grow.
  - intros r _. cbn [set_fh fh data_type]. apply slot_grow.
Qed.

Lemma rows_written_app row l1 l2 c1 c2 c3 :
  rows_written row l1 c1 c2 → rows_written (row + Z.of_nat (length l1)) l2 c2 c3 → rows_written row (l1 ++ l2) c1 c3.
Proof.
  intros [A1 A2 A3 A4 A5 A6 A7 A8 A9] [B1 B2 B3 B4 B5 B6 B7 B8 B9]. constructor; try congruence.
  - auto.
  - by transitivity (overflow_fh c2).
  - intros i v Hi Hn. apply lookup_app_Some in Hi as [Hi|[Hge Hi]].
    + rewrite <- A1, B9, A1 by (apply lookup_lt_Some in Hi; lia). eapply reads_extends; [by apply A8|done].
    + specialize (B8 _ _ Hi Hn). rewrite A1 in B8. by replace (row + Z.of_nat i)%Z with (row + Z.of_nat (length l1) + Z.of_nat (i - length l1))%Z by lia.
  - intros r Hr. rewrite length_app in Hr. rewrite <- A1, B9, A1 by lia. apply A9. lia.
Qed.

Lemma write_slot_spec room c v row buf :
  pages_ok (fh c) → overflow_ok (need v + room) (overflow_fh c) → storable c v → is_null_value v = false →
  length buf = 64 → bytes_ok buf →
  ∃ c' buf', write_slot debug c v row (row / values_per_page (data_type c)) buf = (c', Ok buf') ∧ length buf' = 64 ∧ bytes_ok buf' ∧
    overflow_ok room (overflow_fh c') ∧ rows_written row [v] c c'.
Proof.
  intros Hf Ho (Hv & Hfit & Hst) Hn Hl Hb. destruct Hst as [->|[v' Hv']]; [done|].
  destruct (serialize_reads from_utf8_lossy (data_type c) (overflow_fh c) v v' room buf) as (o' & buf' & E1 & E2 & E3 & E4 & E5 & E6); try done.
  unfold write_slot. rewrite E1. cbn zeta. destruct (geometry (data_type c)) as (_ & _ & He & _).
  destruct (write_slot_at_spec (fh c) (data_type c) row (take (element_size (data_type c)) buf') Hf) as (H1 & H2 & H3);
    [rewrite length_take; lia|by apply Forall_take|].
  eexists _, buf'. split; [reflexivity|]. split; [done|]. split; [done|]. split; [done|].
  constructor; cbn [set_stats set_fh set_overflow data_type null_fh pending_nulls compressed stats fh overflow_fh]; try done.
  - rewrite update_page_bounds_meta. apply update_meta.
  - intros i u Hi Hu. destruct i; [|done]. injection Hi as <-. rewrite Z.add_0_r.
    fold (slot_offset (data_type c) row). fold (write_slot_at (fh c) (data_type c) row (take (element_size (data_type c)) buf')). rewrite H2.
    assert (image (data_type c) v = v') as -> by (unfold image; rewrite Hv'; by destruct v). done.
  - intros r Hr. apply H3. cbn in Hr. lia.
Qed.

Lemma rows_written_null row c : rows_written row [VNull] c c.
Proof.
  constructor; try done. intros [|i] v Hi Hn; [|done]. by injection Hi as <-.
Qed.

Lemma batch_row_spec room c w v row buf :
  pages_ok (fh c) → overflow_ok (need v + room) (overflow_fh c) → storable c v → may_write w row →
  length buf = 64 → bytes_ok buf →
  ∃ c' w' buf', batch_row debug c w v row (row / values_per_page (data_type c)) buf = ((c', w'), Ok buf') ∧ length buf' = 64 ∧ bytes_ok buf' ∧
    overflow_ok room (overflow_fh c') ∧ rows_written row [v] c c' ∧ marked w row w'.
Proof.
  intros Hf Ho Hst Hm Hl Hb. unfold batch_row. unfold may_write in Hm.
  assert (∃ c' buf', (if is_null_value v then (c, Ok buf) else write_slot debug c v row (row / values_per_page (data_type c)) buf) = (c', Ok buf') ∧
    length buf' = 64 ∧ bytes_ok buf' ∧ overflow_ok room (overflow_fh c') ∧ rows_written row [v] c c') as (c' & buf' & -> & H1 & H2 & H3 & H4).
  { destruct (is_null_value v) eqn:Hn; [|by apply write_slot_spec]. destruct v; try done. exists c, buf.
    split; [done|]. split; [done|]. split; [done|]. split; [done|]. apply rows_written_null. }
  destruct (mark_row _ row _ _) as [rv [k|]] eqn:Em; [done|]. eexists c', _, buf'. split; [reflexivity|].
  split; [done|]. split; [done|]. split; [done|]. split; [done|]. split; [done|]. split; [done|]. cbn. by rewrite Em.
Qed.

(** The rows still to come stay storable and writable. *)
Definition writable (c : ColumnData) (w : WriteTx) (row : Z) (vals : list Value) : Prop :=
  rv_wf (w_versions w) ∧ ∀ i v, vals !! i = Some v → storable c v ∧ may_write w (row + Z.of_nat i).

Lemma writable_tail c w v row vals c' w' :
  writable c w row (v :: vals) → rows_written row [v] c c' → marked w row w' → writable c' w' (row + 1) vals.
Proof.
  intros [Hwf Hall] Hrw Hm. split; [by eapply marked_wf|]. intros i u Hi. destruct (Hall (S i) u Hi) as [H1 H2].
  destruct Hrw. split; [by eapply storable_extends|]. eapply may_write_marked; [done|done|].
  by replace (row + 1 + Z.of_nat i)%Z with (row + Z.of_nat (S i))%Z by lia.
Qed.

Lemma writable_grow c w row vals p : writable c w row vals → writable (set_fh c (grow_to (fh c) p)) w row vals.
Proof. done. Qed.

Definition total_need (vals : list Value) : nat := sum_list_with need vals.

(** The same transaction, which may write at least what it could. *)
Definition grants (w w' : WriteTx) : Prop :=
  w_tx_id w' = w_tx_id w ∧ (rv_wf (w_versions w) → rv_wf (w_versions w') ∧ ∀ q, may_write w q → may_write w' q).
Lemma grants_trans w1 w2 w3 : grants w1 w2 → grants w2 w3 → grants w1 w3.
Proof. intros [H1 H2] [H3 H4]. split; [congruence|]. intros Hw. destruct (H2 Hw) as [Hw' Hm]. destruct (H4 Hw') as [? ?]. split; [done|]. auto. Qed.
Lemma marked_grants w r w' : marked w r w' → grants w w'.
Proof. intros Hm. split; [apply Hm|]. intros Hwf. split; [by eapply marked_wf|]. intros q Hq. by eapply may_write_marked. Qed.

Lemma batch_page_spec room vals c w row buf rows p :
  pages_ok (fh c) → overflow_ok (total_need vals + room) (overflow_fh c) → writable c w row vals →
  length buf = 64 → bytes_ok buf →
  ∃ c' w' pre rest,
    batch_page debug vals c w row p buf rows
      = ((c', w'), Ok (rest, (row + Z.of_nat (length pre))%Z, rows ++ seqZ row (Z.of_nat (length pre)))) ∧
    vals = pre ++ rest ∧ (vals ≠ [] → p = (row / values_per_page (data_type c))%Z → pre ≠ []) ∧ grants w w' ∧
    overflow_ok (total_need rest + room) (overflow_fh c') ∧ rows_written row pre c c' ∧ writable c' w' (row + Z.of_nat (length pre)) rest.
Proof.
  revert c w row buf rows. induction vals as [|v vals IH]; intros c w row buf rows Hf Ho Hw Hl Hb; cbn [batch_page].
  - exists c, w, [], []. cbn [length]. rewrite Z.add_0_r, app_nil_r. split; [done|]. split; [done|]. split; [done|]. split; [done|].
    split; [done|]. split; [|done]. apply rows_written_nil.
  - case_decide as Hp.
    + destruct Hw as [Hwf Hall]. destruct (Hall 0 v eq_refl) as [Hs Hm]. rewrite Z.add_0_r in Hm.
      cbn [total_need sum_list_with] in Ho. rewrite <- Nat.add_assoc in Ho. rewrite <- Hp.
      destruct (batch_row_spec (total_need vals + room) c w v row buf) as (c1 & w1 & buf1 & E & Hl1 & Hb1 & Ho1 & Hr1 & Hm1); try done.
      rewrite E. cbn [and_then].
      assert (writable c1 w1 (row + 1) vals) as Hw1 by (by apply (writable_tail c w v row vals)).
      destruct (IH c1 w1 (row + 1)%Z buf1 (rows ++ [row])) as (c' & w' & pre & rest & E' & Hv & _ & Htx & Ho' & Hr' & Hw'); try done.
      { apply Hr1. done. }
      rewrite Hp. exists c', w', (v :: pre), rest. rewrite E'. cbn [length].
      assert (row + 1 + Z.of_nat (length pre) = row + Z.of_nat (S (length pre)))%Z as Erow by lia. rewrite Erow in *.
      split; [|split; [by rewrite Hv|split; [done|split; [|split; [done|split; [|done]]]]]].
      * rewrite <- app_assoc. cbn [app]. do 4 f_equal. symmetry. rewrite seqZ_cons by lia.
        f_equal. f_equal; lia.
      * eapply grants_trans; [by eapply marked_grants|done].
      * change (v :: pre) with ([v] ++ pre). eapply rows_written_app; [done|]. cbn [length]. by replace (row + Z.of_nat 1)%Z with (row + 1)%Z by lia.
    + exists c, w, [], (v :: vals). cbn [length]. rewrite Z.add_0_r, app_nil_r. split; [done|]. split; [done|]. split; [intros _ E; congruence|].
      split; [done|]. split; [done|]. split; [|done]. apply rows_written_nil.
Qed.

Lemma batch_pages_spec fuel room vals c w row rows :
  length vals ≤ fuel → pages_ok (fh c) → overflow_ok (total_need vals + room) (overflow_fh c) → writable c w row vals →
  ∃ c' w', batch_pages debug fuel vals c w row rows = ((c', w'), Ok (rows ++ seqZ row (Z.of_nat (length vals)))) ∧
    grants w w' ∧ overflow_ok room (overflow_fh c') ∧ rows_written row vals c c'.
Proof.
  revert vals c w row rows. induction fuel as [|fuel IH]; intros vals c w row rows Hfuel Hf Ho Hw.
  - destruct vals; [|cbn in Hfuel; lia]. cbn. rewrite app_nil_r. exists c, w. split; [done|]. split; [done|]. split; [done|].
    apply rows_written_nil.
  - cbn [batch_pages]. destruct vals as [|v vals].
    { cbn. rewrite app_nil_r. exists c, w. split; [done|]. split; [done|]. split; [done|]. apply rows_written_nil. }
    set (p := (row / values_per_page (data_type c))%Z). set (c0 := set_fh c (grow_to (fh c) p)).
    destruct (batch_page_spec room (v :: vals) c0 w row (replicate 64 0%Z) rows p) as (c1 & w1 & pre & rest & E & Hv & Hne & Htx & Ho1 & Hr1 & Hw1).
    { by apply pages_ok_grow. } { done. } { done. } { done. } { by apply bytes_ok_replicate. }
    rewrite E. cbn [and_then]. assert (0 < length pre) as Hpos. { destruct pre; [by destruct Hne|cbn; lia]. }
    assert (length (v :: vals) = length pre + length rest) as Hlen by (by rewrite Hv, length_app).
    destruct (IH rest c1 w1 (row + Z.of_nat (length pre))%Z (rows ++ seqZ row (Z.of_nat (length pre)))) as (c' & w' & E' & Htx' & Ho' & Hr'); try done.
    { cbn [length] in Hlen, Hfuel. lia. } { apply Hr1. by apply pages_ok_grow. }
    exists c', w'. rewrite E'. split; [|split; [by eapply grants_trans|split; [done|]]].
    + do 2 f_equal. rewrite <- app_assoc. f_equal. rewrite Hlen, Nat2Z.inj_add. symmetry. apply seqZ_app; lia.
    + rewrite Hv. change (pre ++ rest) with ([] ++ (pre ++ rest)). eapply rows_written_app; [apply (rows_written_grow row c p)|].
      cbn [length]. rewrite Z.add_0_r. by eapply rows_written_app.
Qed.

(** ** Whole batches *)

(** The rows of a batch, as writes. *)
Definition batch_writes (row : Z) (vals : list Value) : list (Z * Value) := imap (λ i v, ((row + Z.of_nat i)%Z, v)) vals.

Lemma write_all_rows_lookup t row vals m r :
  write_all_rows t (batch_writes row vals) m !! r =
  if decide (row ≤ r < row + Z.of_nat (length vals))%Z then image t <$> (vals !! Z.to_nat (r - row)) else m !! r.
Proof.
  unfold write_all_rows, batch_writes. induction vals as [|v vals IH] using rev_ind.
  - cbn. rewrite decide_False by lia. done.
  - rewrite imap_app, foldl_app. cbn [imap foldl fst snd]. rewrite Nat.add_0_r. cbn [compose]. rewrite length_app. cbn [length].
    destruct (decide (r = row + Z.of_nat (length vals))%Z) as [->|Hne].
    + rewrite lookup_insert_eq, decide_True by lia. rewrite lookup_app_r by lia.
      by replace (Z.to_nat (row + Z.of_nat (length vals) - row) - length vals) with 0 by lia.
    + rewrite lookup_insert_ne by done. rewrite IH. repeat case_decide; try lia; [|done]. by rewrite lookup_app_l by lia.
Qed.

(** No buffered null change of the transaction concerns the rows of the batch. *)
Definition nothing_pending (c : ColumnData) (tx row : Z) (n : nat) : Prop :=
  ∀ r, (row ≤ r < row + Z.of_nat n)%Z → last_val r (default [] (pending_nulls c !! tx)) = None.

(** Null bytes first, then slots: the column holds the batch. *)
Lemma batch_represents c c1 c2 f tx row vals m :
  (0 ≤ row)%Z → nothing_pending c tx row (length vals) → c1 = set_null_fh c f →
  (∀ q, (0 ≤ q)%Z → null_byte f q =
     if decide (row ≤ q < row + Z.of_nat (length vals))%Z then bit_of (default false (map is_null_value vals !! Z.to_nat (q - row)))
     else null_byte (null_fh c) q) →
  Forall (storable c) vals → rows_written row vals c1 c2 →
  represents from_utf8_lossy c tx m → represents from_utf8_lossy c2 tx (write_all_rows (data_type c) (batch_writes row vals) m).
Proof.
  intros Hrow Hnp -> Hf Hst Hrw Hrep r v. rewrite write_all_rows_lookup.
  destruct Hrw as [R1 R2 R3 R4 R5 R6 R7 R8 R9]. cbn [set_null_fh data_type null_fh pending_nulls overflow_fh fh] in *.
  assert (∀ q, is_null c2 tx q = negb (bool_decide (default (null_byte f q) (last_val q (default [] (pending_nulls c !! tx))) = 0%Z))) as Hn.
  { intros q. rewrite is_null_spec. by rewrite R2, R3. }
  case_decide as Hin.
  - destruct (vals !! Z.to_nat (r - row)) as [u|] eqn:Hu; [|done]. cbn. intros [= <-]. split; [lia|].
    assert (is_null c2 tx r = is_null_value u) as Hnr.
    { rewrite Hn, Hnp by done. cbn. rewrite Hf by lia. rewrite decide_True by done. rewrite list_lookup_fmap, Hu. cbn. by destruct (is_null_value u). }
    rewrite list.Forall_forall in Hst. destruct (Hst u) as (_ & _ & Hsu); [by eapply list_elem_of_lookup_2|].
    destruct (is_null_value u) eqn:Hnu; [destruct u; try done; cbn; done|].
    destruct Hsu as [->|[u' Hu']]; [done|]. destruct (stored_not_null _ _ _ Hu') as [_ Hn'].
    assert (image (data_type c) u = u') as Ei by (unfold image; rewrite Hu'; by destruct u).
    apply holds_value; [by rewrite Ei|]. split; [done|]. rewrite R1. specialize (R8 _ _ Hu Hnu).
    by replace (row + Z.of_nat (Z.to_nat (r - row)))%Z with r in R8 by lia.
  - intros Hm. destruct (Hrep r v Hm) as [Hr Hh]. split; [done|]. eapply holds_frame; [done|done| |apply R9; lia|done].
    rewrite Hn, is_null_spec. rewrite Hf by done. by rewrite decide_False.
Qed.

(** A batch, with what it leaves alone. *)
Lemma batch_append_spec vals room c cs w row m :
  column_ok (total_need vals + room) c → scalar (data_type c) = true → (0 ≤ row)%Z → represents from_utf8_lossy c (w_tx_id w) m →
  writable c w row vals → nothing_pending c (w_tx_id w) row (length vals) →
  ∃ c' w', batch_append_values debug (mkColumn c cs) w vals row = ((mkColumn c' cs, w'), Ok (seqZ row (Z.of_nat (length vals)))) ∧
    column_ok room c' ∧ represents from_utf8_lossy c' (w_tx_id w) (write_all_rows (data_type c) (batch_writes row vals) m) ∧ data_type c' = data_type c ∧ grants w w'.
Proof.
  intros Hc Ht Hrow Hrep Hw Hnp. unfold batch_append_values. unfold ensure_writable. cbn [col child_columns]. rewrite (ok_writable _ c Hc).
  destruct (decide (vals = [])) as [->|Hne].
  { exists c, w. split; [done|]. split; [|done]. destruct Hc as [K1 K2 K3 K4 K5 K6]. by constructor. }
  pose proof (write_null_rows_spec (length vals) c w (map is_null_value vals) row) as Hnr.
  destruct (write_null_rows (length vals) c w (map is_null_value vals) row) as [c1 w1].
  destruct Hnr as (f & -> & Hf & (T1 & T2 & T3) & Hb); [by rewrite length_map|done|apply (ok_null _ c Hc)|]. rewrite length_map in Hb.
  destruct (batch_pages_spec (length vals) room vals (set_null_fh c f) w1 row []) as (c2 & w2 & E & Htx & Ho & Hrw).
  { done. } { apply (ok_fh _ c Hc). } { apply (ok_overflow _ c Hc). }
  { destruct Hw as [Hwf Hall]. split; [by rewrite T3|]. intros i v Hi. destruct (Hall i v Hi) as [H1 H2]. split; [done|].
    unfold may_write in *. by rewrite T1, T2, T3. }
  exists c2, w2. cbn [app] in E. cbn [set_null_fh data_type]. split.
  { destruct (data_type c); try done; cbn [on_col]; rewrite E; done. }
  pose proof Hrw as [R1 R2 R3 R4 R5 R6 R7 R8 R9]. split_and!.
  - destruct Hc as [K1 K2 K3 K4 K5 K6]. constructor; cbn [set_null_fh fh null_fh compressed stats pending_nulls] in *.
    + by apply R6.
    + by rewrite R2.
    + done.
    + congruence.
    + congruence.
    + intros tx. rewrite R3. apply K6.
  - eapply batch_represents; try done. apply list.Forall_forall. intros v Hv. apply list_elem_of_lookup in Hv as [i Hi].
    destruct Hw as [_ Hall]. by apply (Hall i v).
  - done.
  - split; [by rewrite (proj1 Htx), T1|]. intros Hwf. unfold may_write. rewrite <- T1, <- T2, <- T3. apply (proj2 Htx). by rewrite T3.
Qed.

(** [batch_append_values] does what appending the rows one by one does: the
    batch succeeds over page boundaries, reports exactly its rows, and afterwards
    every row of the batch reads back as its value (nulls as null) and every
    other row as before. *)
Theorem batch_refines_map vals room c cs w row m :
  column_ok (total_need vals + room) c → scalar (data_type c) = true → (0 ≤ row)%Z → represents from_utf8_lossy c (w_tx_id w) m →
  writable c w row vals → nothing_pending c (w_tx_id w) row (length vals) →
  ∃ c' w', batch_append_values debug (mkColumn c cs) w vals row = ((mkColumn c' cs, w'), Ok (seqZ row (Z.of_nat (length vals)))) ∧
    column_ok room c' ∧ represents from_utf8_lossy c' (w_tx_id w) (write_all_rows (data_type c) (batch_writes row vals) m).
Proof.
  intros. destruct (batch_append_spec vals room c cs w row m) as (c' & w' & ? & ? & ? & _); try done. by exists c', w'.
Qed.

(** ** Arrow arrays *)

Definition tagged (vals : list Value) : list (bool * Value) := map (λ v, (is_null_value v, v)) vals.

Lemma bulk_page_spec room vals c w row buf mods p :
  pages_ok (fh c) → overflow_ok (total_need vals + room) (overflow_fh c) → Forall (storable c) vals →
  length buf = 64 → bytes_ok buf →
  ∃ c' pre rest mods',
    bulk_page debug (tagged vals) c w row p buf mods = ((c', w), Ok (tagged rest, (row + Z.of_nat (length pre))%Z, mods')) ∧
    vals = pre ++ rest ∧ (vals ≠ [] → p = (row / values_per_page (data_type c))%Z → pre ≠ []) ∧
    overflow_ok (total_need rest + room) (overflow_fh c') ∧ rows_written row pre c c' ∧ Forall (storable c') rest.
Proof.
  revert c row buf mods. induction vals as [|v vals IH]; intros c row buf mods Hf Ho Hst Hl Hb; cbn [bulk_page tagged map].
  - exists c, [], [], mods. cbn [length]. rewrite Z.add_0_r. split; [done|]. split; [done|]. split; [done|].
    split; [done|]. split; [|done]. apply rows_written_nil.
  - case_decide as Hp.
    + inversion Hst as [|? ? Hs Hst']; subst. cbn [total_need sum_list_with] in Ho. rewrite <- Nat.add_assoc in Ho.
      assert (∃ c1 buf1 md, bulk_row debug c w (is_null_value v, v) row (row / values_per_page (data_type c)) buf = ((c1, w), Ok (buf1, md)) ∧
        length buf1 = 64 ∧ bytes_ok buf1 ∧ overflow_ok (total_need vals + room) (overflow_fh c1) ∧ rows_written row [v] c c1)
        as (c1 & buf1 & md & E & Hl1 & Hb1 & Ho1 & Hr1).
      { unfold bulk_row. cbn [fst snd]. destruct (is_null_value v) eqn:Hn.
        - destruct v; try done. exists c, buf. eexists. split; [reflexivity|]. split; [done|]. split; [done|]. split; [done|]. apply rows_written_null.
        - destruct (write_slot_spec (total_need vals + room) c v row buf) as (c1 & b1 & -> & H1 & H2 & H3 & H4); try done.
          exists c1, b1. eexists. split; [reflexivity|]. done. }
      rewrite E. cbn [and_then fst snd].
      destruct (IH c1 (row + 1)%Z buf1 (mods ++ [md])) as (c' & pre & rest & mods' & E' & Hv & _ & Ho' & Hr' & Hst1); try done.
      { by apply Hr1. } { eapply List.Forall_impl; [|exact Hst']. intros u Hu. destruct Hr1. by eapply storable_extends. }
      exists c', (v :: pre), rest, mods'. fold (tagged vals). rewrite E'. cbn [length].
      split; [|split; [by rewrite Hv|split; [done|split; [done|split; [|done]]]]].
      * do 3 f_equal. f_equal. lia.
      * change (v :: pre) with ([v] ++ pre). eapply rows_written_app; [done|]. cbn [length]. by replace (row + Z.of_nat 1)%Z with (row + 1)%Z by lia.
    + exists c, [], (v :: vals), mods. cbn [length]. rewrite Z.add_0_r. split; [done|]. split; [done|]. split; [intros _ E; congruence|].
      split; [done|]. split; [|done]. apply rows_written_nil.
Qed.

Lemma bulk_pages_spec fuel room vals c w row mods :
  length vals ≤ fuel → pages_ok (fh c) → overflow_ok (total_need vals + room) (overflow_fh c) → Forall (storable c) vals →
  ∃ c' mods', bulk_pages debug fuel (tagged vals) c w row mods = ((c', w), Ok mods') ∧
    overflow_ok room (overflow_fh c') ∧ rows_written row vals c c'.
Proof.
  revert vals c row mods. induction fuel as [|fuel IH]; intros vals c row mods Hfuel Hf Ho Hst.
  - destruct vals; [|cbn in Hfuel; lia]. exists c, mods. split; [done|]. split; [done|]. apply rows_written_nil.
  - cbn [bulk_pages]. destruct vals as [|v vals].
    { exists c, mods. split; [done|]. split; [done|]. apply rows_written_nil. }
    cbn [tagged map]. fold (tagged vals). change ((is_null_value v, v) :: tagged vals) with (tagged (v :: vals)).
    set (p := (row / values_per_page (data_type c))%Z). set (c0 := set_fh c (grow_to (fh c) p)).
    destruct (bulk_page_spec room (v :: vals) c0 w row (replicate 64 0%Z) mods p) as (c1 & pre & rest & mods1 & E & Hv & Hne & Ho1 & Hr1 & Hst1); try done.
    { by apply pages_ok_grow. } { by apply bytes_ok_replicate. }
    rewrite E. cbn [and_then]. assert (0 < length pre) as Hpos. { destruct pre; [by destruct Hne|cbn; lia]. }
    assert (length (v :: vals) = length pre + length rest) as Hlen by (by rewrite Hv, length_app).
    destruct (IH rest c1 (row + Z.of_nat (length pre))%Z mods1) as (c' & mods' & E' & Ho' & Hr'); try done.
    { cbn [length] in Hlen, Hfuel. lia. } { apply Hr1. by apply pages_ok_grow. }
    exists c', mods'. rewrite E'. split; [done|]. split; [done|].
    rewrite Hv. change (pre ++ rest) with ([] ++ (pre ++ rest)). eapply rows_written_app; [apply (rows_written_grow row c p)|].
    cbn [length]. rewrite Z.add_0_r. by eapply rows_written_app.
Qed.

Lemma push_rows_tx l w : w_tx_id (foldl push_row w l) = w_tx_id w.
Proof. revert w. induction l as [|r l IH]; intros w; [done|]. cbn [foldl]. by rewrite IH. Qed.
(** A bulk append, with what it leaves alone. *)
Lemma bulk_append_spec vals nulls room c cs w row skip m :
  column_ok (total_need vals + room) c → scalar (data_type c) = true → (0 ≤ row)%Z → represents from_utf8_lossy c (w_tx_id w) m →
  Forall (storable c) vals → nothing_pending c (w_tx_id w) row (length vals) → arr_rows (mkArray nulls vals) = tagged vals →
  ∃ c' w', bulk_append_array_inner debug (mkColumn c cs) w (mkArray nulls vals) row skip = ((mkColumn c' cs, w'), Ok tt) ∧
    column_ok room c' ∧ represents from_utf8_lossy c' (w_tx_id w) (write_all_rows (data_type c) (batch_writes row vals) m) ∧
    data_type c' = data_type c ∧ w_tx_id w' = w_tx_id w.
Proof.
  intros Hc Ht Hrow Hrep Hst Hnp Harr. unfold bulk_append_array_inner. unfold ensure_writable. cbn [col child_columns arr_values]. rewrite (ok_writable _ c Hc).
  destruct (decide (length vals = 0)) as [Hz|Hne].
  { destruct vals; [|done]. exists c, w. split; [done|]. split_and!; [|done..]. destruct Hc as [K1 K2 K3 K4 K5 K6]. by constructor. }
  rewrite Harr. assert (map fst (tagged vals) = map is_null_value vals) as -> by (unfold tagged; rewrite map_map; done).
  set (w0 := set_versions w _).
  pose proof (write_null_rows_spec (length vals) (set_dirty c) w0 (map is_null_value vals) row) as Hnr.
  destruct (write_null_rows (length vals) (set_dirty c) w0 (map is_null_value vals) row) as [c1 w1].
  destruct Hnr as (f & -> & Hf & (T1 & T2 & T3) & Hb); [by rewrite length_map|done|apply (ok_null _ c Hc)|]. rewrite length_map in Hb.
  destruct (bulk_pages_spec (length vals) room vals (set_null_fh (set_dirty c) f) w1 row []) as (c2 & mods & E & Ho & Hrw); try done.
  { apply (ok_fh _ c Hc). } { apply (ok_overflow _ c Hc). }
  exists c2. eexists. cbn [set_null_fh set_dirty data_type]. split.
  { destruct (data_type c); try done; cbn [on_col]; rewrite E; reflexivity. }
  pose proof Hrw as [R1 R2 R3 R4 R5 R6 R7 R8 R9]. split_and!.
  - destruct Hc as [K1 K2 K3 K4 K5 K6]. constructor; cbn [set_null_fh set_dirty fh null_fh compressed stats pending_nulls] in *.
    + by apply R6.
    + by rewrite R2.
    + done.
    + congruence.
    + congruence.
    + intros tx. rewrite R3. apply K6.
  - eapply (batch_represents (set_dirty c)); try done.
  - done.
  - destruct (skip || _); [exact T1|]. rewrite push_rows_tx. exact T1.
Qed.
(** [bulk_append_array] writes an Arrow array whose validity says which of its
    values are null: the append succeeds whoever holds the rows, and afterwards
    every row of the array reads back as its value and every other row as
    before. *)
Theorem bulk_refines_map vals nulls room c cs w row skip m :
  column_ok (total_need vals + room) c → scalar (data_type c) = true → (0 ≤ row)%Z → represents from_utf8_lossy c (w_tx_id w) m →
  Forall (storable c) vals → nothing_pending c (w_tx_id w) row (length vals) → arr_rows (mkArray nulls vals) = tagged vals →
  ∃ c' w', bulk_append_array_inner debug (mkColumn c cs) w (mkArray nulls vals) row skip = ((mkColumn c' cs, w'), Ok tt) ∧
    column_ok room c' ∧ represents from_utf8_lossy c' (w_tx_id w) (write_all_rows (data_type c) (batch_writes row vals) m).
Proof.
  intros. destruct (bulk_append_spec vals nulls room c cs w row skip m) as (c' & w' & ? & ? & ? & _); try done. by exists c', w'.
Qed.
End batch.

(** ** Witnesses *)

(** 130 strings over three pages, the first null. *)
Definition demo_batch : list Value := VNull :: replicate 129 (VString [97; 98]%Z).

Lemma demo_batch_writable c w row :
  forallb (write_test c w) (batch_writes row demo_batch) = true → rv_wf (w_versions w) → writable c w row demo_batch.
Proof.
  intros H Hwf. split; [done|]. apply write_test_sound in H. intros i v Hi. rewrite list.Forall_forall in H.
  destruct (H ((row + Z.of_nat i)%Z, v)) as (_ & H1 & H2); [|done].
  apply (list_elem_of_lookup_2 _ i). unfold batch_writes. by rewrite list_lookup_imap, Hi.
Qed.

Lemma demo_total_need : total_need demo_batch + 1 = 130.
Proof. by vm_compute. Qed.

Lemma demo_nothing_pending t o tx row n : nothing_pending (demo_column t o) tx row n.
Proof. intros r _. cbn. by rewrite lookup_empty. Qed.

Lemma batch_refines_map_witness :
  ∃ c' w', batch_append_values demo_debug (mkColumn (demo_column TString (Some empty_file)) []) demo_tx demo_batch 60
      = ((mkColumn c' [], w'), Ok (seqZ 60 (Z.of_nat (length demo_batch)))) ∧
    column_ok 1 c' ∧ represents demo_lossy c' 7 (write_all_rows TString (batch_writes 60 demo_batch) ∅).
Proof.
  apply (batch_refines_map demo_debug demo_lossy demo_batch 1 (demo_column TString (Some empty_file)) [] demo_tx 60 ∅).
  - rewrite demo_total_need. apply empty_column_ok, empty_overflow_ok. by_compute.
  - reflexivity.
  - lia.
  - intros r v H. by rewrite lookup_empty in H.
  - apply demo_batch_writable; [vm_compute; reflexivity|by_compute].
  - apply demo_nothing_pending.
Defined.

Lemma bulk_refines_map_witness :
  ∃ c' w', bulk_append_array_inner demo_debug (mkColumn (demo_column TString (Some empty_file)) []) demo_tx
      (mkArray (Some (map is_null_value demo_batch)) demo_batch) 60 true = ((mkColumn c' [], w'), Ok tt) ∧
    column_ok 1 c' ∧ represents demo_lossy c' 7 (write_all_rows TString (batch_writes 60 demo_batch) ∅).
Proof.
  apply (bulk_refines_map demo_debug demo_lossy demo_batch (Some (map is_null_value demo_batch)) 1
           (demo_column TString (Some empty_file)) [] demo_tx 60 true ∅).
  - rewrite demo_total_need. apply empty_column_ok, empty_overflow_ok. by_compute.
  - reflexivity.
  - lia.
  - intros r v H. by rewrite lookup_empty in H.
  - apply list.Forall_forall. intros v Hv. apply list_elem_of_lookup in Hv as [i Hi].
    eapply (demo_batch_writable (demo_column TString (Some empty_file)) demo_tx 60); [vm_compute; reflexivity|by_compute|exact Hi].
  - apply demo_nothing_pending.
  - vm_compute. reflexivity.
Defined.
