(* ===== verification/ColumnNested.v ===== *)
(** * Lists and structs (storage/column.rs)

    The elements of a list column live in a child column, one after the other;
    a row stores the end of its elements and takes the end of the previous row
    as their start.  Lists appended in row order are read back; nulls, updates,
    lists of structs and the shared row versions break the picture. *)
From stdpp Require Import base list gmap strings numbers.
From Stdlib Require Import ZArith Lia Bool.
From S2P Require Import Prelude Codec Codecs Alp RowVersion TxnManager PageFile Overflow Stats Column ColumnSpec ColumnBatch.
Open Scope nat_scope.

(** An offset survives the detour through a double. *)
Lemma offset_exact n : (0 ≤ n < 2 ^ 53)%Z → f64_as_u64 (u64_as_f64 n) = n.
Proof.
  intros Hn. unfold u64_as_f64. case_decide as H0; [by subst|]. cbn zeta.
  set (e := Z.log2 n). assert (0 ≤ e ≤ 52)%Z as He.
  { split; [apply Z.log2_nonneg|]. assert (Z.log2 n < 53)%Z; [apply Z.log2_lt_pow2; lia|lia]. }
  rewrite decide_True by lia. destruct (Z.log2_spec n ltac:(lia)) as [Hlo Hhi]. fold e in Hlo, Hhi.
  set (k := (52 - e)%Z). set (m := (n * 2 ^ k)%Z). assert (0 < 2 ^ k)%Z as Hk by (apply Z.pow_pos_nonneg; lia).
  assert (2 ^ 52 ≤ m < 2 ^ 53)%Z as Hm.
  { assert (2 ^ e * 2 ^ k = 2 ^ 52)%Z as E1 by (rewrite <- Z.pow_add_r by lia; f_equal; lia).
    assert (2 ^ Z.succ e * 2 ^ k = 2 ^ 53)%Z as E2 by (rewrite <- Z.pow_add_r by lia; f_equal; lia). unfold m. nia. }
  set (b := ((e + 1023) * 2 ^ 52 + (m - 2 ^ 52))%Z).
  assert (b / 2 ^ 52 = e + 1023)%Z as Hdiv by (symmetry; apply (Z.div_unique b (2 ^ 52) (e + 1023) (m - 2 ^ 52)); unfold b; lia).
  assert (b mod 2 ^ 52 = m - 2 ^ 52)%Z as Hmod by (symmetry; apply (Z.mod_unique b (2 ^ 52) (e + 1023)); unfold b; lia).
  assert (Stats.f64_exp b = e + 1023)%Z as Hexp by (unfold Stats.f64_exp; rewrite Hdiv; apply Z.mod_small; lia).
  assert (Stats.f64_sign b = false) as Hs.
  { unfold Stats.f64_sign. apply (testbit_wrap_high b 63); [|lia]. unfold b. change (2 ^ 63)%Z with (2048 * 2 ^ 52)%Z. lia. }
  assert (is_nan b = false) as Hnan.
  { unfold is_nan. rewrite Hexp. rewrite bool_decide_eq_false_2 by lia. done. }
  unfold f64_as_u64. rewrite Hnan, Hs, Hexp. cbn [orb]. unfold Stats.f64_frac. rewrite Hmod. cbn zeta.
  rewrite decide_False by lia. rewrite decide_True by lia. replace (2 ^ 52 + (m - 2 ^ 52))%Z with m by lia.
  replace (52 - (e + 1023 - 1023))%Z with k by (unfold k; lia). unfold m. rewrite Z.div_mul by lia. unfold u64_MAX. lia.
Qed.

Section lists.
Context (debug : Value → list Z) (from_utf8_lossy : list Z → list Z).

(** The loop over the elements is a sequence of writes to the child. *)
Lemma append_list_unfold els c child rest w row t :
  compressed (col c) = false → child_columns c = child :: rest → data_type (col c) = TList t →
  append_value debug (VList els) c w row =
  let '(d, w) := set_null (set_dirty (col c)) w row false in
  let num_vals := atomic_num_values (col child) in
  let len := Z.of_nat (length els) in
  match append_writes debug (batch_writes num_vals els) (map_col child (λ d, add_counts d len 0)) w with
  | ((child, w), Ok _) =>
      let child := map_col child (λ d, add_counts d (- len) 0) in
      on_col (mkColumn d (child :: rest)) (append_plain_value debug d w (VNumber (u64_as_f64 (num_vals + len))) row)
  | ((child, w), o) => ((mkColumn d (child :: rest), w), o)
  end.
Proof.
  intros Hc Hch Ht. cbn [append_value]. unfold ensure_writable. rewrite Hc.
  assert (data_type (fst (set_null (set_dirty (col c)) w row false)) = TList t) as Hty.
  { rewrite <- Ht. unfold set_null. cbn zeta. case_decide; [|done]. by unfold write_null_entries. }
  destruct (set_null (set_dirty (col c)) w row false) as [d w1]. cbn [fst] in Hty. rewrite Hty. cbn [child_columns col]. rewrite Hch.
  set (num_vals := atomic_num_values (col child)). set (len := Z.of_nat (length els)).
  set (child0 := map_col child (λ d, add_counts d len 0)).
  assert (∀ l i ch w, (fix go (els : list Value) (i : Z) (child : Column) (w : WriteTx) : tree_result unit :=
        match els with
        | [] => ((child, w), Ok tt)
        | el :: els =>
            match append_value debug el child w (num_vals + i)%Z with
            | ((child, w), Ok _) => go els (i + 1)%Z child w
            | r => r
            end
        end) l i ch w = append_writes debug (batch_writes (num_vals + i) l) ch w) as Hgo.
  { induction l as [|el l IH]; intros i ch w'; [done|]. unfold batch_writes. cbn [imap append_writes]. rewrite Z.add_0_r.
    destruct (append_value debug el ch w' (num_vals + i)%Z) as [[ch1 w2] [[]|e|]]; try done. rewrite IH. unfold batch_writes. f_equal.
    apply imap_ext. intros j x _. cbn. f_equal. lia. }
  rewrite Hgo, Z.add_0_r. destruct (append_writes debug (batch_writes num_vals els) child0 w1) as [[ch w2] [[]|e|]]; done.
Qed.

(** A list column and its child hold the lists [ls] in rows 0, 1, .... *)
Record lists_held (c child : ColumnData) (tx : Z) (ls : list (list Value)) : Prop := {
  lh_ends : ∀ i l, ls !! i = Some l →
    holds from_utf8_lossy c tx (Z.of_nat i) (VNumber (u64_as_f64 (Z.of_nat (length (concat (take (S i) ls))))));
  lh_elements : ∀ j v, concat ls !! j = Some v → holds from_utf8_lossy child tx (Z.of_nat j) v;
  lh_count : atomic_num_values child = Z.of_nat (length (concat ls));
  lh_bound : (Z.of_nat (length (concat ls)) < 2 ^ 53)%Z;
}.

Lemma read_elements child ccs tx n start l room :
  column_ok room child → scalar (data_type child) = true →
  (∀ j v, l !! j = Some v → holds from_utf8_lossy child tx (start + Z.of_nat j) v) → n = Z.of_nat (length l) →
  (fix go (rows : list Z) : outcome (list Value) :=
     match rows with
     | [] => Ok []
     | i :: rows => let* v := get_value from_utf8_lossy (mkColumn child ccs) tx i in let* l := go rows in Ok (v :: l)
     end) (seqZ start n) = Ok l.
Proof.
  intros Hc Ht Hl ->. revert start Hl. induction l as [|v l IH]; intros start Hl; [done|].
  cbn [length]. rewrite seqZ_cons by lia. replace (Z.pred (Z.of_nat (S (length l)))) with (Z.of_nat (length l)) by lia.
  replace (Z.succ start) with (start + 1)%Z by lia.
  rewrite (holds_get from_utf8_lossy child ccs tx start v room) by (try done; specialize (Hl 0 v eq_refl); by rewrite Z.add_0_r in Hl).
  cbn [outcome_bind]. rewrite IH; [done|]. intros j u Hj. replace (start + 1 + Z.of_nat j)%Z with (start + Z.of_nat (S j))%Z by lia. by apply Hl.
Qed.

(** Whatever is held is read. *)
Lemma lists_held_get c child ccs tx ls t i l room :
  data_type c = TList t → column_ok 0 c → column_ok room child → scalar (data_type child) = true → lists_held c child tx ls → ls !! i = Some l →
  get_value from_utf8_lossy (mkColumn c [mkColumn child ccs]) tx (Z.of_nat i) = Ok (VList l).
Proof.
  intros Ht Hp0 Hc Hs [He Hel Hcnt Hb] Hi. pose proof (He i l Hi) as Hh.
  pose proof (holds_plain _ c tx _ (VNumber _) 0 Hp0 eq_refl Hh) as Hp. destruct Hh as [Hn _]. cbn [get_value col child_columns]. rewrite Hn, Ht, Hp. cbn [outcome_bind as_number].
  assert (∀ k, k ≤ length ls → (Z.of_nat (length (concat (take k ls))) < 2 ^ 53)%Z) as Hbk.
  { intros k Hk. rewrite <- (take_drop k ls) in Hb. rewrite concat_app, length_app in Hb. lia. }
  pose proof (lookup_lt_Some _ _ _ Hi) as Hlt. rewrite offset_exact by (specialize (Hbk (S i) ltac:(lia)); lia).
  assert (concat (take (S i) ls) = concat (take i ls) ++ l) as Htk.
  { rewrite (take_S_r ls i l Hi), concat_app. cbn. by rewrite app_nil_r. }
  assert ((if decide (Z.of_nat i = 0)%Z then Ok 0%Z
    else let* s := get_plain_value from_utf8_lossy c (Z.of_nat i - 1) in Ok (f64_as_u64 (as_number s)))
    = Ok (Z.of_nat (length (concat (take i ls))))) as ->.
  { case_decide as H0; [assert (i = 0) as -> by lia; done|]. destruct i as [|i]; [lia|].
    destruct (lookup_lt_is_Some_2 ls i ltac:(lia)) as [l' Hl']. pose proof (holds_plain _ c tx _ (VNumber _) 0 Hp0 eq_refl (He i l' Hl')) as Hp'.
    replace (Z.of_nat (S i) - 1)%Z with (Z.of_nat i) by lia. rewrite Hp'. cbn [outcome_bind as_number]. f_equal. apply offset_exact. specialize (Hbk (S i) ltac:(lia)). lia. }
  cbn [outcome_bind]. rewrite (read_elements child ccs tx _ (Z.of_nat (length (concat (take i ls)))) l room); try done.
  - intros j v Hj. replace (Z.of_nat (length (concat (take i ls))) + Z.of_nat j)%Z with (Z.of_nat (length (concat (take i ls)) + j)) by lia.
    apply Hel. assert (concat ls = concat (take i ls) ++ l ++ concat (drop (S i) ls)) as ->.
    { rewrite <- (take_drop_middle ls i l Hi) at 1. by rewrite concat_app. }
    rewrite lookup_app_r by lia. rewrite lookup_app_l by (apply lookup_lt_Some in Hj; lia). by replace (length (concat (take i ls)) + j - length (concat (take i ls))) with j by lia.
  - rewrite Htk, length_app. lia.
Qed.

(** A batch of writes after a prefix. *)
Lemma held_map (child : ColumnData) tx (l : list Value) :
  (∀ j v, l !! j = Some v → holds from_utf8_lossy child tx (Z.of_nat j) v) ↔ represents from_utf8_lossy child tx (map_seqZ 0 l).
Proof.
  split.
  - intros H r v Hr. apply lookup_map_seqZ_Some in Hr as [Hr0 Hr]. split; [done|]. rewrite Z.sub_0_r in Hr. specialize (H _ _ Hr). by rewrite Z2Nat.id in H.
  - intros H j v Hj. apply H. apply lookup_map_seqZ_Some. split; [lia|]. rewrite Z.sub_0_r, Nat2Z.id. done.
Qed.

Lemma write_after (t : LogicalType) (l : list Value) (els : list Value) :
  write_all_rows t (batch_writes (Z.of_nat (length l)) els) (map_seqZ 0 l) = map_seqZ 0 (l ++ map (image t) els) :> gmap Z Value.
Proof.
  apply map_eq. intros r. rewrite write_all_rows_lookup. case_decide as Hin.
  - rewrite (lookup_map_seqZ 0 (l ++ _)), option_guard_True by lia. rewrite Z.sub_0_r, lookup_app_r by lia. rewrite list_lookup_fmap.
    by replace (Z.to_nat r - length l) with (Z.to_nat (r - Z.of_nat (length l))) by lia.
  - rewrite !lookup_map_seqZ. destruct (decide (0 ≤ r)%Z) as [H0|H0]; [|by rewrite !option_guard_False].
    rewrite !option_guard_True by done. rewrite Z.sub_0_r. destruct (decide (Z.to_nat r < length l)); [by rewrite lookup_app_l|].
    rewrite !lookup_ge_None_2; [done| |lia]. rewrite length_app, length_map. lia.
Qed.

Lemma numbered_need (g : nat → Z) els : sum_list_with (need ∘ snd) (imap (λ i v, (g i, v)) els) = sum_list_with need els.
Proof. revert g. induction els as [|v els IH]; intros g; [done|]. cbn. f_equal. apply (IH (g ∘ S)). Qed.

Lemma batch_need row els : sum_list_with (need ∘ snd) (batch_writes row els) = sum_list_with need els.
Proof. apply (numbered_need (λ i, (row + Z.of_nat i)%Z)). Qed.

Lemma counts_ok room c a b : column_ok room c ↔ column_ok room (add_counts c a b).
Proof. split; intros [K1 K2 K3 K4 K5 K6]; by constructor. Qed.

(** Appending a list after the others. *)
Lemma append_list_step ls els room c child ccs w t :
  lists_held c child (w_tx_id w) ls → column_ok 0 c → data_type c = TList t →
  column_ok (sum_list_with need els + room) child → scalar (data_type child) = true → Forall (storable child) els →
  rv_wf (w_versions w) → (∀ q, (0 ≤ q)%Z → may_write w q) → (Z.of_nat (length (concat ls) + length els) < 2 ^ 53)%Z →
  ∃ c' child' w',
    append_value debug (VList els) (mkColumn c [mkColumn child ccs]) w (Z.of_nat (length ls)) = ((mkColumn c' [mkColumn child' ccs], w'), Ok tt) ∧
    lists_held c' child' (w_tx_id w) (ls ++ [map (image (data_type child)) els]) ∧ column_ok 0 c' ∧ data_type c' = TList t ∧
    column_ok room child' ∧ data_type child' = data_type child ∧ overflow_extends (overflow_fh child) (overflow_fh child') ∧
    rv_wf (w_versions w') ∧ w_tx_id w' = w_tx_id w ∧ (∀ q, (0 ≤ q)%Z → may_write w' q).
Proof.
  intros [He Hel Hcnt Hb] Hc Ht Hch Hs Hst Hwf Hmw Hlen.
  rewrite (append_list_unfold els (mkColumn c [mkColumn child ccs]) (mkColumn child ccs) [] w _ t); [|apply (ok_writable _ c Hc)|done|done].
  cbn [col]. assert (column_ok 0 (set_dirty c)) as Hc0 by (destruct Hc; by constructor).
  pose proof (set_null_spec 0 (set_dirty c) w (Z.of_nat (length ls)) false Hc0 ltac:(lia)) as Hsn.
  destruct (set_null (set_dirty c) w (Z.of_nat (length ls)) false) as [d w0].
  destruct Hsn as (Hd & (Sf & So & Ss & St & Sc & Sn) & (T1 & T2 & T3) & N1 & N2). cbn in Sf, So, Ss, St, Sc, Sn.
  set (len := Z.of_nat (length els)). cbn zeta. rewrite Hcnt. unfold map_col. cbn [col child_columns].
  destruct (append_writes_spec debug from_utf8_lossy (batch_writes (Z.of_nat (length (concat ls))) els) room (add_counts child len 0) ccs w0
    (map_seqZ 0 (concat ls))) as (ch1 & w1 & E & Hok1 & Hty1 & Hn1 & Ho1 & Hwf1 & Htx1 & Hmw1 & Hrep1).
  { apply counts_ok. by rewrite batch_need. }
  { done. } { by rewrite T3. }
  { rewrite T1. intros r v Hr. apply (proj1 (held_map child (w_tx_id w) (concat ls)) Hel) in Hr as [Hr0 Hr]. split; [done|]. by destruct v. }
  { apply list.Forall_forall. intros [q v] Hq. apply list_elem_of_lookup in Hq as [i Hi]. unfold batch_writes in Hi.
    rewrite list_lookup_imap in Hi. destruct (els !! i) as [u|] eqn:Hu; [|done]. injection Hi as <- <-. cbn [fst snd].
    split; [lia|]. split; [by apply (Forall_lookup_1 _ _ _ _ Hst Hu)|]. unfold may_write in *. rewrite T1, T2, T3. apply Hmw. lia. }
  rewrite E. cbn [child_columns col].
  set (n := (Z.of_nat (length (concat ls)) + len)%Z). assert (is_u64 n) as Hn64 by (unfold is_u64, n, len; lia).
  destruct (fixed_slot from_utf8_lossy (TList t) (overflow_fh d) (to_le 8 (u64_as_f64 n)) (replicate 64 0%Z) (VNumber (u64_as_f64 n)) 8)
    as (buf & B1 & B2 & B3 & B4); try done.
  { by apply bytes_ok_replicate. } { apply to_le_bytes_ok. } { rewrite length_to_le. lia. }
  { intros o' rest. cbn [parse_value]. rewrite slot_head by apply length_to_le. cbn [outcome_bind].
    by rewrite (of_le_to_le_id 8) by (by apply u64_as_f64_range). }
  destruct (append_plain_spec debug d w1 (VNumber (u64_as_f64 n)) (Z.of_nat (length ls)) (overflow_fh d) buf)
    as (c' & w' & E' & (M1 & M2 & M3) & P1 & P2 & P3 & P4 & P5 & P6 & P7 & Pn & P8 & P9); try done.
  { apply (ok_fh _ d Hd). } { rewrite St, Ht. cbn [serialize_value_into]. by rewrite B1. }
  { apply Hmw1. unfold may_write in *. rewrite T1, T2, T3. apply Hmw. lia. }
  assert (data_type d = TList t) as Htd by (by rewrite St).
  rewrite E'. cbn [on_col child_columns]. exists c', (add_counts ch1 (- len) 0), w'. split; [done|].
  assert (∀ q, is_null c' (w_tx_id w) q = is_null d (w_tx_id w) q) as N4 by (intros q; by apply is_null_same).
  split; [|split_and!].
  - constructor.
    + intros i l Hi. apply lookup_app_Some in Hi as [Hi|[Hge Hi]].
      * pose proof (lookup_lt_Some _ _ _ Hi) as Hlt. rewrite take_app_le by lia.
        apply (holds_frame from_utf8_lossy c); [congruence|rewrite P4, So; reflexivity| | |by apply (He i l)].
        -- rewrite N4. apply N2; lia.
        -- rewrite <- St, P9 by lia. by rewrite Sf.
      * assert (i = length ls) as ->. { apply list_lookup_singleton_Some in Hi as [Hi _]. lia. }
        rewrite take_ge by (rewrite length_app; cbn; lia). rewrite concat_app, length_app. cbn [concat].
        rewrite app_nil_r, length_map, Nat2Z.inj_add. fold len n.
        apply holds_value; [done|]. rewrite N4, N1. split; [done|]. rewrite P1, Htd, P4. rewrite Htd in P8. cbn in P8. rewrite P8. exact B4.
    + intros j v Hj. rewrite concat_app in Hj. cbn [concat] in Hj. rewrite app_nil_r in Hj.
      cbn [add_counts data_type] in Hrep1. rewrite (write_after (data_type child) (concat ls) els) in Hrep1. rewrite T1 in Hrep1.
      assert (holds from_utf8_lossy ch1 (w_tx_id w) (Z.of_nat j) v) as Hv.
      { by apply (proj2 (held_map ch1 (w_tx_id w) (concat ls ++ map (image (data_type child)) els)) Hrep1). }
      by destruct v.
    + cbn [add_counts atomic_num_values]. rewrite Hn1. cbn [add_counts atomic_num_values]. rewrite Hcnt.
      assert (length (batch_writes (Z.of_nat (length (concat ls))) els) = length els) as -> by apply length_imap.
      rewrite concat_app, length_app. cbn [concat]. rewrite app_nil_r, length_map. unfold len. lia.
    + rewrite concat_app, length_app. cbn [concat]. rewrite app_nil_r, length_map. lia.
  - destruct Hd as [K1 K2 K3 K4 K5 K6]. constructor; try congruence; [done|by rewrite P2|]. intros tx. rewrite P3. apply K6.
  - congruence.
  - by apply counts_ok.
  - done.
  - done.
  - rewrite M3. by apply (exec_wf (OpMark (Z.of_nat (length ls)) (w_tx_id w1) (w_read_ts w1))).
  - congruence.
  - intros q Hq. apply (may_write_marked w1 (Z.of_nat (length ls))); [done|done|]. apply Hmw1. unfold may_write in *. rewrite T1, T2, T3. by apply Hmw.
Qed.

Lemma append_lists lss ls room c child ccs w t :
  lists_held c child (w_tx_id w) ls → column_ok 0 c → data_type c = TList t →
  column_ok (sum_list_with (sum_list_with need) lss + room) child → scalar (data_type child) = true → Forall (Forall (storable child)) lss →
  rv_wf (w_versions w) → (∀ q, (0 ≤ q)%Z → may_write w q) → (Z.of_nat (length (concat ls) + length (concat lss)) < 2 ^ 53)%Z →
  ∃ c' child' w',
    append_each debug (map VList lss) (mkColumn c [mkColumn child ccs]) w (Z.of_nat (length ls)) = ((mkColumn c' [mkColumn child' ccs], w'), Ok tt) ∧
    lists_held c' child' (w_tx_id w) (ls ++ map (map (image (data_type child))) lss) ∧ column_ok 0 c' ∧ data_type c' = TList t ∧
    column_ok room child' ∧ data_type child' = data_type child ∧ w_tx_id w' = w_tx_id w.
Proof.
  revert ls c child w. induction lss as [|els lss IH]; intros ls c child w Hh Hc Ht Hch Hs Hst Hwf Hmw Hlen.
  { exists c, child, w. rewrite app_nil_r. split_and!; done. }
  cbn [sum_list_with concat] in *. rewrite length_app in Hlen. apply list.Forall_cons in Hst as [Hst0 Hst]. rewrite <- Nat.add_assoc in Hch.
  destruct (append_list_step ls els _ c child ccs w t Hh Hc Ht Hch Hs Hst0 Hwf Hmw) as (c1 & ch1 & w1 & E & H1 & H2 & H3 & H4 & H5 & H6 & H7 & H8 & H9); [lia|].
  cbn [map append_each]. rewrite E.
  destruct (IH (ls ++ [map (image (data_type child)) els]) c1 ch1 w1) as (c2 & ch2 & w2 & E2 & K1 & K2 & K3 & K4 & K5 & K6); try done.
  - by rewrite H8.
  - by rewrite H5.
  - eapply List.Forall_impl; [|exact Hst]. intros l Hl. eapply List.Forall_impl; [|exact Hl]. intros v. exact (storable_extends child ch1 v H5 H6).
  - rewrite concat_app, length_app. cbn [concat]. rewrite app_nil_r, length_map. lia.
  - replace (Z.of_nat (length ls) + 1)%Z with (Z.of_nat (length (ls ++ [map (image (data_type child)) els]))) by (rewrite length_app; cbn; lia).
    rewrite E2. exists c2, ch2, w2. split; [done|]. rewrite H5, H8, <- app_assoc in K1. rewrite H5 in K5. rewrite H8 in K6.
    by split_and!.
Qed.

(** Lists round trip: lists appended to the rows 0, 1, ... of an empty list
    column, each an element run of its child column, are read back row by row,
    every element as its column stores it (storage/column.rs, the List arms of
    append_value and get_value): the stored end offsets, which go through a
    double, never mix the runs up. *)
Theorem lists_read_back lss room c child ccs w t :
  column_ok 0 c → data_type c = TList t → column_ok (sum_list_with (sum_list_with need) lss + room) child →
  scalar (data_type child) = true → atomic_num_values child = 0%Z → Forall (Forall (storable child)) lss →
  rv_wf (w_versions w) → (∀ q, (0 ≤ q)%Z → may_write w q) → (Z.of_nat (length (concat lss)) < 2 ^ 53)%Z →
  ∃ c' w',
    append_each debug (map VList lss) (mkColumn c [mkColumn child ccs]) w 0 = ((c', w'), Ok tt) ∧
    ∀ i els, lss !! i = Some els →
      get_value from_utf8_lossy c' (w_tx_id w) (Z.of_nat i) = Ok (VList (map (image (data_type child)) els)).
Proof.
  intros Hc Ht Hch Hs H0 Hst Hwf Hmw Hlen. assert (lists_held c child (w_tx_id w) []) as Hh by (by constructor).
  destruct (append_lists lss [] room c child ccs w t) as (c' & ch & w' & E & K1 & K2 & K3 & K4 & K5 & K6); try done.
  exists (mkColumn c' [mkColumn ch ccs]), w'. split; [done|]. intros i els Hi.
  apply (lists_held_get c' ch ccs (w_tx_id w) (map (map (image (data_type child))) lss) t i _ room K3 K2 K4); [by rewrite K5|exact K1|].
  by rewrite list_lookup_fmap, Hi.
Qed.

End lists.

(** ** Witnesses *)

Lemma new_versions_free tx ts q : mark_row row_version_new q tx ts
  = (set_dirty_flag true (update_shard (shard_mark q tx) (get_shard_idx q) row_version_new), None).
Proof.
  unfold mark_row. cbn zeta. assert (shard_at row_version_new (get_shard_idx q) = empty_shard) as ->; [|done].
  unfold shard_at, row_version_new. cbn [shards]. generalize (get_shard_idx q). intros i.
  destruct (replicate num_shards empty_shard !! i) as [s|] eqn:E; [|done]. by apply lookup_replicate in E as [-> _].
Qed.

Lemma demo_may_write q : may_write demo_tx q.
Proof. unfold may_write. by rewrite new_versions_free. Qed.

(** Three lists of strings, one of them empty. *)
Definition demo_lists : list (list Value) := [[VString [104; 105]%Z; VNull]; []; [VString (replicate 70 97%Z)]].
Definition list_column (t : LogicalType) (o : option pages) : Column := mkColumn (demo_column (TList t) None) [mkColumn (demo_column t o) []].

Lemma lists_read_back_witness :
  ∃ c' w', append_each demo_debug (map VList demo_lists) (list_column TString (Some empty_file)) demo_tx 0 = ((c', w'), Ok tt) ∧
    ∀ i els, demo_lists !! i = Some els → get_value demo_lossy c' 7 (Z.of_nat i) = Ok (VList (map (image TString) els)).
Proof.
  apply (lists_read_back demo_debug demo_lossy demo_lists 1 (demo_column (TList TString) None) (demo_column TString (Some empty_file)) [] demo_tx TString).
  - by apply empty_column_ok.
  - reflexivity.
  - apply empty_column_ok, empty_overflow_ok. vm_compute. reflexivity.
  - reflexivity.
  - reflexivity.
  - assert (∀ v, write_test (demo_column TString (Some empty_file)) demo_tx (0%Z, v) = true → storable (demo_column TString (Some empty_file)) v) as Hw.
    { intros v Hv. assert (forallb (write_test (demo_column TString (Some empty_file)) demo_tx) [(0%Z, v)] = true) as H by (cbn [forallb]; by rewrite Hv).
      apply write_test_sound, list.Forall_cons in H as [(_ & H & _) _]. exact H. }
    repeat (apply List.Forall_cons || apply List.Forall_nil); apply Hw; vm_compute; reflexivity.
  - by_compute.
  - intros q _. apply demo_may_write.
  - vm_compute. reflexivity.
Defined.

(** ** Departures *)

(** The value each of the rows 0, ..., n-1 reads after the given writes. *)
Definition reads_after (c : Column) (l : list (Z * Value)) (n : nat) : option (list Value) :=
  match append_writes demo_debug l c demo_tx with
  | ((c, _), Ok _) => mapM (λ i, match get_value demo_lossy c 7 (Z.of_nat i) with Ok v => Some v | _ => None end) (seq 0 n)
  | _ => None
  end.

Local Abbreviation num n := (VNumber (u64_as_f64 n)).
Local Abbreviation point n := (VStruct [([120%Z], num n)]).
Definition struct_list_column : Column :=
  mkColumn (demo_column (TList (TStruct [])) None)
    [mkColumn (demo_column (TStruct []) None) [mkColumn (column_new [120%Z] TDouble (1%Z, empty_file) (2%Z, empty_file) None) []]].

(** Lists do not survive updates, nulls or nesting (storage/column.rs, the
    List arms of append_value and get_value).  A list overwritten in place reads
    its neighbour's elements too and empties the neighbour, since a row's start
    is the previous row's end; a list after a null row reads every element
    written before; in a list of structs the child's counter is never advanced,
    so the next list overwrites the first. *)
Theorem lists_depart :
  reads_after (list_column TDouble None) [(0%Z, VList [num 1]); (1%Z, VList [num 2]); (0%Z, VList [num 3])] 2
    = Some [VList [num 1; num 2; num 3]; VList []] ∧
  reads_after (list_column TDouble None) [(0%Z, VList [num 1]); (1%Z, VNull); (2%Z, VList [num 2])] 3
    = Some [VList [num 1]; VNull; VList [num 1; num 2]] ∧
  reads_after struct_list_column [(0%Z, VList [point 1]); (1%Z, VList [point 2])] 2
    = Some [VList [point 2]; VList []].
Proof. split_and!; vm_compute; reflexivity. Qed.
