(* ===== verification/ColumnScan.v ===== *)
(** * Arrow scans of a column (storage/column.rs)

    [scan_to_array] has five ways to fill an Arrow array: two that read the file
    behind the buffer manager, a whole-page copy, a page-wise copy and a
    builder loop over decompressed blocks.  The definitions follow them buffer
    by buffer: the packed validity bits, the data bytes and the string offsets.
    Arrow arrays are the cells that its buffers stand for. *)
From stdpp Require Import base list gmap strings numbers.
From Stdlib Require Import ZArith Lia Bool.
From S2P Require Import Prelude Codec Codecs Alp RowVersion TxnManager FileHandle PageFile Overflow Stats Column ColumnSpec.
Open Scope nat_scope.

(** ** Arrow arrays *)

Inductive DataType :=
| DInt64 | DInt32 | DUInt64 | DFloat64 | DBoolean | DUtf8 | DDate32 | DTimestamp
| DList (item : DataType) | DStruct (fields : list (string * DataType)) | DNull.

#[global] Instance DataType_eq_dec : EqDecision DataType.
Proof.
  unfold EqDecision, Decision. fix go 1. intros [] []; try (by left); try (by right).
  - destruct (go item item0) as [-> |]; [by left|by right; congruence].
  - assert ({fields = fields0} + {fields ≠ fields0}) as [-> |]; [|by left|by right; congruence]. revert fields0.
    induction fields as [|[n t] l IH]; intros [|[n' t'] l']; [by left|by right|by right|].
    destruct (decide (n = n')), (go t t'), (IH l'); subst; first [by left|by right; congruence].
Defined.

Fixpoint logical_type_to_arrow_type (t : LogicalType) : DataType :=
  match t with
  | TInt64 => DInt64
  | TInt32 => DInt32
  | TUint64 | TNode _ => DUInt64
  | TDouble | TFloat => DFloat64
  | TBool => DBoolean
  | TString => DUtf8
  | TDate => DDate32
  | TTimestamp => DTimestamp
  | TList child => DList (logical_type_to_arrow_type child)
  | TStruct fields =>
      DStruct ((fix go (l : list (string * LogicalType)) : list (string * DataType) :=
                  match l with [] => [] | (n, t) :: l => (n, logical_type_to_arrow_type t) :: go l end) fields)
  | _ => DNull
  end.

(** The cells of an array: null, or a value of its type. *)
Inductive Scalar :=
| AInt64 (z : Z) | AInt32 (z : Z) | AUInt64 (z : Z) | AFloat64 (b : Z) | ABoolean (b : bool)
| AUtf8 (s : list Z) | ADate32 (z : Z) | ATimestamp (z : Z).
Definition ArrowArray : Type := list (option Scalar).

(** [Value::from_arrow] on the scalar types. *)
Definition from_arrow (c : option Scalar) : Value :=
  match c with
  | None => VNull
  | Some (AUtf8 s) => VString s
  | Some (AFloat64 b) => VNumber b
  | Some (ABoolean b) => VBoolean b
  | Some (AUInt64 z) => VNode z
  | Some (AInt64 z) | Some (AInt32 z) => VNumber (int_as_f64 z)
  | Some (ADate32 z) => VDate z
  | Some (ATimestamp z) => VTimestamp z
  end.

(** ** Packed bits *)

Definition clear_bit (bits : list Z) (i : nat) : list Z :=
  alter (λ b, Z.land b (Z.lxor 255 (Z.shiftl 1 (Z.of_nat (i mod 8))))) (i / 8) bits.
Definition set_bit (bits : list Z) (i : nat) : list Z :=
  alter (λ b, Z.lor b (Z.shiftl 1 (Z.of_nat (i mod 8)))) (i / 8) bits.
Definition div_ceil8 (n : nat) : nat := (n + 7) / 8.
Definition nonzero (b : Z) : bool := negb (bool_decide (b = 0%Z)).

(** [if src[j] != 0 { null_bits[out + j] := 0; has_any_nulls = true }] for the
    [n] indices from [j]. *)
Fixpoint mark_bytes (n : nat) (src : list Z) (out j : nat) (st : list Z * bool) : list Z * bool :=
  match n with
  | O => st
  | S n =>
      let st := if nonzero (byte_at src j) then (clear_bit (fst st) (out + j), true) else st in
      mark_bytes n src out (j + 1) st
  end.
(** The same, [w] bytes at a time: a chunk that fails [test] is passed over. *)
Fixpoint mark_chunks (w : nat) (test : list Z → bool) (n : nat) (src : list Z) (out j : nat) (st : list Z * bool) : list Z * bool :=
  match n with
  | O => st
  | S n =>
      let st := if test (slice src j (j + w)) then mark_bytes w src out j st else st in
      mark_chunks w test n src out (j + w) st
  end.
(** [u64::from_le_bytes(chunk) != 0] and [chunk.fold(|) != 0]. *)
Definition word_nonzero (chunk : list Z) : bool := nonzero (of_le chunk).
Definition or_nonzero (chunk : list Z) : bool := nonzero (foldl Z.lor 0%Z chunk).
(** Whole chunks first, then the rest byte by byte. *)
Definition mark_nulls (w : nat) (test : list Z → bool) (src : list Z) (to_read out : nat) (st : list Z * bool) : list Z * bool :=
  let chunks := to_read / w in
  mark_bytes (to_read - chunks * w) src out (chunks * w) (mark_chunks w test chunks src out 0 st).

(** The direct scans pack eight source bytes into one word and clear it at once. *)
Definition null_word (src : list Z) (s n : nat) : Z :=
  foldl (λ word j, if nonzero (byte_at src (s + j)) then Z.lor word (Z.shiftl 1 (Z.of_nat j)) else word) 0%Z (seq 0 n).
Definition pack_nulls (src : list Z) (base n : nat) (bits : list Z) : list Z :=
  let full_bytes := n / 8 in
  let bits := foldl (λ bits b, alter (λ x, Z.land x (Z.lxor 255 (null_word src (base + b * 8) 8))) b bits) bits (seq 0 full_bytes) in
  let rem := n mod 8 in
  if decide (0 < rem)
  then alter (λ x, Z.land x (Z.lxor 255 (null_word src (base + full_bytes * 8) rem))) full_bytes bits
  else bits.

(** ** Arrays from buffers *)

Definition valid (nulls : option (list Z)) (i : nat) : bool :=
  match nulls with Some bits => bit_at bits i | None => true end.
(** [ScalarBuffer::<T>::new(data, 0, n)] with its bounds check. *)
Definition primitive_array (es n : nat) (mk : list Z → Scalar) (data : list Z) (nulls : option (list Z)) : outcome ArrowArray :=
  if decide (n * es ≤ length data)
  then Ok (map (λ i, if valid nulls i then Some (mk (slice data (i * es) (i * es + es))) else None) (seq 0 n))
  else Panic.

Definition build_array (target_type : DataType) (data_buf : list Z) (null_buf : option (list Z)) (num_values : nat) : outcome ArrowArray :=
  match target_type with
  | DInt64 => primitive_array 8 num_values (λ b, AInt64 (u64_as_i64 (of_le b))) data_buf null_buf
  | DInt32 => primitive_array 4 num_values (λ b, AInt32 (wrap_i32 (of_le b))) data_buf null_buf
  | DUInt64 => primitive_array 8 num_values (λ b, AUInt64 (of_le b)) data_buf null_buf
  | DFloat64 => primitive_array 8 num_values (λ b, AFloat64 (of_le b)) data_buf null_buf
  | DBoolean =>
      let byte_count := length data_buf `min` num_values in
      let packed := foldl (λ p i, if nonzero (byte_at data_buf i) then set_bit p i else p)
                          (replicate (div_ceil8 num_values) 0%Z) (seq 0 byte_count) in
      Ok (map (λ i, if valid null_buf i then Some (ABoolean (bit_at packed i)) else None) (seq 0 num_values))
  | _ => Panic
  end.

(** [values_to_array] on the scalar types. *)
Definition value_to_cell (data_type : DataType) (v : Value) : option Scalar :=
  match data_type, v with
  | DInt64, VNumber n => Some (AInt64 (f64_as_i64 n))
  | DInt64, VNode id => Some (AInt64 (u64_as_i64 id))
  | DInt32, VNumber n => Some (AInt32 (f64_as_i32 n))
  | DUInt64, VNode id => Some (AUInt64 id)
  | DUInt64, VNumber n => Some (AUInt64 (f64_as_u64 n))
  | DFloat64, VNumber n => Some (AFloat64 n)
  | DBoolean, VBoolean b => Some (ABoolean b)
  | DUtf8, VString s => Some (AUtf8 s)
  | DDate32, VDate d => Some (ADate32 d)
  | DTimestamp, VTimestamp t => Some (ATimestamp t)
  | _, _ => None
  end.

(** [append_null_to_builder]: a builder of lists of nulls ignores the call. *)
Definition append_null_to_builder (builder : ArrowArray) (t : DataType) : outcome ArrowArray :=
  match t with
  | DInt64 | DInt32 | DUInt64 | DFloat64 | DBoolean | DUtf8 | DDate32 | DTimestamp => Ok (builder ++ [None])
  | DList DNull => Ok builder
  | _ => Err Internal
  end.

Definition raw_required (t : LogicalType) (data : list Z) : outcome nat :=
  match t with
  | TInt64 | TUint64 | TNode _ | TDouble | TTimestamp => Ok 8
  | TInt32 | TDate => Ok 4
  | TBool => Ok 1
  | TString => Ok (1 + (Z.to_nat (byte_at data 0) `min` 63))
  | TList _ => Ok 0
  | _ => Err Internal
  end.
Definition append_raw_to_builder (builder : ArrowArray) (data : list Z) (t : LogicalType) : outcome ArrowArray :=
  let* required := raw_required t data in
  if decide (length data < required) then Err Internal
  else
    let* cell :=
      match t with
      | TInt64 => Ok (AInt64 (u64_as_i64 (of_le (take 8 data))))
      | TInt32 => Ok (AInt32 (wrap_i32 (of_le (take 4 data))))
      | TUint64 | TNode _ => Ok (AUInt64 (of_le (take 8 data)))
      | TDouble => Ok (AFloat64 (of_le (take 8 data)))
      | TBool => Ok (ABoolean (nonzero (byte_at data 0)))
      | TString =>
          let len := if decide (byte_at data 0 = 255%Z) then 63 else Z.to_nat (byte_at data 0) in
          let* raw := slice_get data 1 (1 + len `min` 63) in
          if utf8_valid raw then Ok (AUtf8 raw) else Err Internal
      | TTimestamp => Ok (ATimestamp (u64_as_i64 (of_le (take 8 data))))
      | TDate => Ok (ADate32 (wrap_i32 (of_le (take 4 data))))
      | _ => Err Internal
      end in
    Ok (builder ++ [Some cell]).

(** ** Primitive columns *)

(** The files themselves, behind the buffer manager. *)
Record Disk := mkDisk { disk_fh : FileHandle; disk_null : FileHandle; disk_overflow : option FileHandle }.

(** [Some(null_bits)] when a bit was cleared. *)
Definition null_buffer (st : list Z * bool) : option (list Z) := if snd st then Some (fst st) else None.
Definition all_valid (n : Z) : list Z := replicate (div_ceil8 (Z.to_nat n)) 255%Z.

Definition scan_primitive_direct (d : Disk) (t : LogicalType) (offset num_values : Z) : outcome ArrowArray :=
  let es := element_size t in
  let vpp := values_per_page t in
  let n := Z.to_nat num_values in
  let nulls :=
    if decide (0 < num_values)%Z then
      let null_first_page := (offset / 4096)%Z in
      let null_last_page := ((offset + num_values - 1) / 4096)%Z in
      let null_data := read_pages (disk_null d) null_first_page (null_last_page - null_first_page + 1) in
      let bits := pack_nulls null_data (Z.to_nat (offset mod 4096)) n (all_valid num_values) in
      (bits, existsb (λ b, negb (bool_decide (b = 255%Z))) bits)
    else (all_valid num_values, false) in
  let* data :=
    if decide (0 < num_values)%Z then
      let first_page := (offset / vpp)%Z in
      let last_page := ((offset + num_values - 1) / vpp)%Z in
      let pages_buf := read_pages (disk_fh d) first_page (last_page - first_page + 1) in
      let start_in_page := Z.to_nat (offset mod vpp) * es in
      slice_get pages_buf start_in_page (start_in_page + n * es)
    else Ok [] in
  build_array (logical_type_to_arrow_type t) data (null_buffer nulls) n.

(** One whole page. *)
Definition scan_page (c : ColumnData) (offset num_values : Z) : outcome ArrowArray :=
  let t := data_type c in
  let n := Z.to_nat num_values in
  let data_buf := page_at (fh c) (offset / values_per_page t) in
  let base := Z.to_nat (offset mod 4096) in
  let* null_src := slice_get (page_at (null_fh c) (offset / 4096)) base (base + n) in
  let nulls := if existsb nonzero null_src then (fst (mark_bytes n null_src 0 0 (all_valid num_values, true)), true) else (all_valid num_values, false) in
  build_array (logical_type_to_arrow_type t) data_buf (null_buffer nulls) n.

(** Page by page; [read] values are in the buffers already. *)
Definition vector_step (c : ColumnData) (zone_map : option Value) (offset read to_read : Z) (st : list Z * (list Z * bool)) :
    outcome (list Z * (list Z * bool)) :=
  let t := data_type c in
  let es := element_size t in
  let cur := (offset + read)%Z in
  let page_idx := (cur / values_per_page t)%Z in
  let offset_in_page := Z.to_nat (cur mod values_per_page t) in
  let k := Z.to_nat to_read in
  let out := Z.to_nat read in
  if zone_map_should_skip (stats c) t (Z.to_nat page_idx) zone_map then
    Ok (fst st ++ replicate (k * es) 0%Z, mark_bytes k (replicate k 1%Z) out 0 (snd st))
  else
    let* bytes := slice_get (page_at (fh c) page_idx) (offset_in_page * es) (offset_in_page * es + k * es) in
    let base := Z.to_nat (cur mod 4096) in
    let* null_src := slice_get (page_at (null_fh c) (cur / 4096)) base (base + k) in
    Ok (fst st ++ bytes, mark_nulls 8 word_nonzero null_src k out (snd st)).
Fixpoint vector_loop (fuel : nat) (c : ColumnData) (zone_map : option Value) (offset num_values read : Z) (st : list Z * (list Z * bool)) :
    outcome (list Z * (list Z * bool)) :=
  match fuel with
  | O => Ok st
  | S fuel =>
      if decide (read < num_values)%Z then
        let vpp := values_per_page (data_type c) in
        let to_read := ((num_values - read) `min` (vpp - (offset + read) mod vpp))%Z in
        let* st := vector_step c zone_map offset read to_read st in
        vector_loop fuel c zone_map offset num_values (read + to_read) st
      else Ok st
  end.

Definition scan_to_array_vectorized (d : Disk) (c : ColumnData) (w : WriteTx) (zone_map : option Value) (offset num_values : Z) :
    outcome ArrowArray :=
  let t := data_type c in
  let vpp := values_per_page t in
  if negb (has_modifications (w_versions w)) && bool_decide (zone_map = None) then scan_primitive_direct d t offset num_values
  else if bool_decide (num_values = vpp) && bool_decide (offset mod vpp = 0)%Z && bool_decide (zone_map = None)
  then scan_page c offset num_values
  else
    let* st := vector_loop (Z.to_nat num_values) c zone_map offset num_values 0 ([], (all_valid num_values, false)) in
    build_array (logical_type_to_arrow_type t) (fst st) (null_buffer (snd st)) (Z.to_nat num_values).

(** ** String columns *)

Definition MAX_OVERFLOW_PAGES : Z := 1024.
Definition u64_sub (a b : Z) : outcome Z := if decide (b ≤ a)%Z then Ok (a - b)%Z else Panic.
Definition i32_add (a b : Z) : outcome Z := if decide (a + b < 2 ^ 31)%Z then Ok (a + b)%Z else Panic.

Section strings.
Context (from_utf8_lossy : list Z → list Z).

(** The bytes of a string that is not null. *)
Definition direct_bytes (overflow_data data_buf : list Z) (slot_offset : nat) : list Z :=
  let marker := byte_at data_buf slot_offset in
  if decide (marker = 255%Z) then
    if decide (overflow_data = []) then []
    else
      let of_page := of_le (slice data_buf (slot_offset + 1) (slot_offset + 9)) in
      let of_offset := of_le (slice data_buf (slot_offset + 9) (slot_offset + 17)) in
      let of_len := of_le (slice data_buf (slot_offset + 17) (slot_offset + 21)) in
      let of_start := (of_page * 4096 + of_offset)%Z in
      let of_end := ((of_start + of_len) `min` Z.of_nat (length overflow_data))%Z in
      if decide (of_start < of_end)%Z then slice overflow_data (Z.to_nat of_start) (Z.to_nat of_end) else []
  else
    let actual_len := Z.to_nat marker `min` 63 in
    slice data_buf (slot_offset + 1) (slot_offset + 1 + actual_len).

(** The offsets and the values buffer, row by row. *)
Fixpoint direct_rows (n i : nat) (offset first_page null_first_page : Z) (overflow_data data_buf null_data : list Z)
    (st : list Z * list Z * Z) : outcome (list Z * list Z * Z) :=
  match n with
  | O => Ok st
  | S n =>
      let '(offsets, values, current_offset) := st in
      let row_offset := (offset + Z.of_nat i)%Z in
      let null_idx := Z.to_nat (row_offset - null_first_page * 4096) in
      let* st :=
        if nonzero (byte_at null_data null_idx) then Ok (offsets ++ [current_offset], values, current_offset)
        else
          let page_offset := Z.to_nat (row_offset / 64 - first_page) * 4096 in
          let slot_offset := page_offset + Z.to_nat (row_offset mod 64) * 64 in
          let s := from_utf8_lossy (direct_bytes overflow_data data_buf slot_offset) in
          let* current_offset := i32_add current_offset (Z.of_nat (length s)) in
          Ok (offsets ++ [current_offset], values ++ s, current_offset) in
      direct_rows n (i + 1) offset first_page null_first_page overflow_data data_buf null_data st
  end.

(** [StringArray::new(offsets, values, nulls)] *)
Definition string_array (offsets values : list Z) (nulls : option (list Z)) (n : nat) : ArrowArray :=
  map (λ i, if valid nulls i
            then Some (AUtf8 (slice values (Z.to_nat (byte_at offsets i)) (Z.to_nat (byte_at offsets (i + 1))))) else None) (seq 0 n).

Definition scan_string_direct (d : Disk) (offset num_values : Z) : outcome ArrowArray :=
  let* last := u64_sub (offset + num_values) 1 in
  let first_page := (offset / 64)%Z in
  let* span := u64_sub (last / 64) first_page in
  let data_buf := read_pages (disk_fh d) first_page (span + 1) in
  let null_first_page := (offset / 4096)%Z in
  let* null_span := u64_sub (last / 4096) null_first_page in
  let null_data := read_pages (disk_null d) null_first_page (null_span + 1) in
  let n := Z.to_nat num_values in
  let nulls := mark_nulls 64 or_nonzero (drop (Z.to_nat (offset - null_first_page * 4096)) null_data) n 0 (all_valid num_values, false) in
  let overflow_data :=
    match disk_overflow d with
    | Some ofh =>
        let num_of_pages := (num_pages ofh `min` MAX_OVERFLOW_PAGES)%Z in
        if decide (0 < num_of_pages)%Z then read_pages ofh 0 num_of_pages else []
    | None => []
    end in
  let* st := direct_rows n 0 offset first_page null_first_page overflow_data data_buf null_data ([0%Z], [], 0%Z) in
  let '(offsets, values, _) := st in
  Ok (string_array offsets values (null_buffer nulls) n).

(** The null pages of the range, in order. *)
Fixpoint null_pages_needed (fuel : nat) (offset num_values temp_read : Z) (l : list Z) : list Z :=
  match fuel with
  | O => l
  | S fuel =>
      if decide (temp_read < num_values)%Z then
        let cur := (offset + temp_read)%Z in
        let l := if decide (list.last l = Some (cur / 4096)%Z) then l else l ++ [(cur / 4096)%Z] in
        null_pages_needed fuel offset num_values (temp_read + (num_values - temp_read) `min` (64 - cur mod 64))%Z l
      else l
  end.

Definition string_cell (c : ColumnData) (page : list Z) (slot_offset : nat) : outcome Scalar :=
  let marker := byte_at page slot_offset in
  if decide (marker = 255%Z) then
    let* data := slice_get page slot_offset (slot_offset + 64) in
    match parse_value from_utf8_lossy (data_type c) (overflow_fh c) data with
    | Ok (VString s) => Ok (AUtf8 s)
    | Panic => Panic
    | _ => Ok (AUtf8 [])
    end
  else
    let actual_len := Z.to_nat marker `min` 63 in
    let* raw := slice_get page (slot_offset + 1) (slot_offset + 1 + actual_len) in
    Ok (AUtf8 (if utf8_valid raw then raw else [])).
Fixpoint string_rows (n i : nat) (c : ColumnData) (page null_frame : list Z) (base_offset null_base_offset : nat) (builder : ArrowArray) :
    outcome ArrowArray :=
  match n with
  | O => Ok builder
  | S n =>
      let* cell :=
        if nonzero (byte_at null_frame (null_base_offset + i)) then Ok None
        else let* s := string_cell c page (base_offset + i * 64) in Ok (Some s) in
      string_rows n (i + 1) c page null_frame base_offset null_base_offset (builder ++ [cell])
  end.
Fixpoint string_loop (fuel : nat) (c : ColumnData) (zone_map : option Value) (null_pages : list Z) (offset num_values read : Z)
    (builder : ArrowArray) : outcome ArrowArray :=
  match fuel with
  | O => Ok builder
  | S fuel =>
      if decide (read < num_values)%Z then
        let cur := (offset + read)%Z in
        let page_idx := (cur / 64)%Z in
        let to_read := ((num_values - read) `min` (64 - cur mod 64))%Z in
        let k := Z.to_nat to_read in
        if decide ((cur / 4096)%Z ∈ null_pages) then
          let* builder :=
            if zone_map_should_skip (stats c) (data_type c) (Z.to_nat page_idx) zone_map then Ok (builder ++ replicate k None)
            else string_rows k 0 c (page_at (fh c) page_idx) (page_at (null_fh c) (cur / 4096))
                   (Z.to_nat (cur mod 64) * 64) (Z.to_nat (cur mod 4096)) builder in
          string_loop fuel c zone_map null_pages offset num_values (read + to_read) builder
        else Err Internal
      else Ok builder
  end.
Definition scan_string_vectorized (d : Disk) (c : ColumnData) (w : WriteTx) (zone_map : option Value) (offset num_values : Z) :
    outcome ArrowArray :=
  if negb (has_modifications (w_versions w)) && bool_decide (zone_map = None) then scan_string_direct d offset num_values
  else string_loop (Z.to_nat num_values) c zone_map (null_pages_needed (Z.to_nat num_values) offset num_values 0 []) offset num_values 0 [].

(** ** The builder loop *)

Fixpoint builder_rows (n i : nat) (c : ColumnData) (block null_frame : list Z) (null_base_offset : nat) (builder : ArrowArray) : outcome ArrowArray :=
  match n with
  | O => Ok builder
  | S n =>
      let es := element_size (data_type c) in
      let* builder :=
        if nonzero (byte_at null_frame (null_base_offset + i))
        then append_null_to_builder builder (logical_type_to_arrow_type (data_type c))
        else let* raw := slice_get block (i * es) (i * es + es) in append_raw_to_builder builder raw (data_type c) in
      builder_rows n (i + 1) c block null_frame null_base_offset builder
  end.
Fixpoint append_nulls (n : nat) (t : DataType) (builder : ArrowArray) : outcome ArrowArray :=
  match n with O => Ok builder | S n => let* builder := append_null_to_builder builder t in append_nulls n t builder end.
Fixpoint builder_loop (fuel : nat) (c : ColumnData) (compression : CompressionType) (meta : CompressionMetadata) (zone_map : option Value)
    (offset num_values read : Z) (temp_block : list Z) (builder : ArrowArray) : outcome ArrowArray :=
  match fuel with
  | O => Ok builder
  | S fuel =>
      if decide (read < num_values)%Z then
        let es := element_size (data_type c) in
        let vpp := if decide (compression = Uncompressed) then (4096 / Z.of_nat es)%Z else 32%Z in
        let cur := (offset + read)%Z in
        let page_idx := (cur / vpp)%Z in
        let to_read := ((num_values - read) `min` 32 `min` (vpp - cur mod vpp))%Z in
        let k := Z.to_nat to_read in
        if zone_map_should_skip (stats c) (data_type c) (Z.to_nat page_idx) zone_map then
          let* builder := append_nulls k (logical_type_to_arrow_type (data_type c)) builder in
          builder_loop fuel c compression meta zone_map offset num_values (read + to_read) temp_block builder
        else
          let* temp_block := decompress_from_page (get_alg compression es) (page_at (fh c) page_idx) (Z.to_nat (cur mod vpp)) temp_block 0 k meta in
          let* builder := builder_rows k 0 c temp_block (page_at (null_fh c) (cur / 4096)) (Z.to_nat (cur mod 4096)) builder in
          builder_loop fuel c compression meta zone_map offset num_values (read + to_read) temp_block builder
      else Ok builder
  end.

Definition can_vectorize (target_type : DataType) : bool :=
  match target_type with DInt64 | DInt32 | DUInt64 | DFloat64 | DBoolean | DUtf8 => true | _ => false end.

Definition scan_to_array (d : Disk) (c : ColumnData) (w : WriteTx) (zone_map : option Value) (offset num_values : Z) :
    (ColumnData * WriteTx) * outcome ArrowArray :=
  let '(c, w) := flush_pending_nulls c w in
  let analyzer_meta := compression_meta (stats c) in
  let compression := compression_of (stats c) in
  let target_type := logical_type_to_arrow_type (data_type c) in
  ((c, w),
   if bool_decide (compression = Uncompressed) && can_vectorize target_type then
     match target_type with
     | DUtf8 => scan_string_vectorized d c w zone_map offset num_values
     | _ => scan_to_array_vectorized d c w zone_map offset num_values
     end
   else
     let meta := default default_meta analyzer_meta in
     let loop := builder_loop (Z.to_nat num_values) c compression meta zone_map offset num_values 0
                   (replicate (32 * element_size (data_type c)) 0%Z) [] in
     match compression, analyzer_meta with
     | Constant, Some m => Ok (replicate (Z.to_nat num_values) (value_to_cell target_type (meta_min m)))
     | _, _ => loop
     end).

(** [scan_with_filter]: 32 values at a time, whatever is left of the page. *)
Fixpoint filter_rows (n i : nat) (c : ColumnData) (predicate : list Z → bool) (block null_frame : list Z) (null_base_offset : nat) (builder : ArrowArray) :
    outcome ArrowArray :=
  match n with
  | O => Ok builder
  | S n =>
      let es := element_size (data_type c) in
      let* row_data := slice_get block (i * es) ((i + 1) * es) in
      let* null_byte := slice_get null_frame (null_base_offset + i) (null_base_offset + i + 1) in
      let* builder :=
        if negb (nonzero (byte_at null_byte 0)) && predicate row_data then append_raw_to_builder builder row_data (data_type c) else Ok builder in
      filter_rows n (i + 1) c predicate block null_frame null_base_offset builder
  end.
Fixpoint filter_loop (fuel : nat) (c : ColumnData) (compression : CompressionType) (meta : CompressionMetadata) (predicate : list Z → bool)
    (offset num_values read : Z) (temp_block : list Z) (builder : ArrowArray) : outcome ArrowArray :=
  match fuel with
  | O => Ok builder
  | S fuel =>
      if decide (read < num_values)%Z then
        let es := element_size (data_type c) in
        let vpp := if decide (compression = Uncompressed) then (4096 / Z.of_nat es)%Z else 32%Z in
        let cur := (offset + read)%Z in
        let to_read := ((num_values - read) `min` 32)%Z in
        let k := Z.to_nat to_read in
        let* temp_block := decompress_from_page (get_alg compression es) (page_at (fh c) (cur / vpp)) (Z.to_nat (cur mod vpp)) temp_block 0 k meta in
        let* builder := filter_rows k 0 c predicate temp_block (page_at (null_fh c) (cur / 4096)) (Z.to_nat (cur mod 4096)) builder in
        filter_loop fuel c compression meta predicate offset num_values (read + to_read) temp_block builder
      else Ok builder
  end.
Definition scan_with_filter (c : ColumnData) (offset num_values : Z) (predicate : list Z → bool) : outcome ArrowArray :=
  filter_loop (Z.to_nat num_values) c (compression_of (stats c)) (default default_meta (compression_meta (stats c))) predicate
    offset num_values 0 (replicate (32 * element_size (data_type c)) 0%Z) [].

End strings.
