(* ===== verification/ColumnScanSpec.v ===== *)
(** * The Arrow scans agree (storage/column.rs)

    Whichever path [scan_to_array] takes, the cell of a row is the value that
    [get_value] reads there, or null where the zone map rules the page out. *)
From stdpp Require Import base list gmap strings numbers.
From Stdlib Require Import ZArith Lia Bool.
From S2P Require Import Prelude Codec Codecs Alp RowVersion TxnManager FileHandle PageFile Overflow Stats Column ColumnSpec ColumnScan.
Open Scope nat_scope.

(** ** Bits *)

Lemma nonzero_true b : nonzero b = true ↔ b ≠ 0%Z.
Proof. unfold nonzero. rewrite negb_true_iff, bool_decide_eq_false. done. Qed.
Lemma nonzero_false b : nonzero b = false ↔ b = 0%Z.
Proof. unfold nonzero. rewrite negb_false_iff, bool_decide_eq_true. done. Qed.

Lemma byte_at_alter f bits i k : byte_at (alter f i bits) k = if decide (k = i ∧ i < length bits) then f (byte_at bits k) else byte_at bits k.
Proof.
  unfold byte_at. case_decide as H.
  - destruct H as [-> H]. destruct (lookup_lt_is_Some_2 bits i H) as [x Hx]. by rewrite list_lookup_alter_eq, Hx.
  - destruct (decide (k = i)) as [->|Hne]; [|by rewrite list_lookup_alter_ne].
    rewrite list_lookup_alter_eq. rewrite (lookup_ge_None_2 bits i) by lia. done.
Qed.

(** Clearing the bits of a mask in one byte. *)
Lemma bit_at_mask (m : Z) bits i k : (0 ≤ m)%Z →
  bit_at (alter (λ b, Z.land b (Z.lxor 255 m)) i bits) k = bit_at bits k && negb (bool_decide (k / 8 = i) && Z.testbit m (Z.of_nat (k mod 8))).
Proof.
  intros Hm. unfold bit_at. rewrite byte_at_alter. pose proof (Nat.mod_upper_bound k 8 ltac:(lia)). case_decide as H1.
  - destruct H1 as [<- Hl]. rewrite (bool_decide_eq_true_2 (k / 8 = k / 8)) by done. rewrite Z.land_spec, Z.lxor_spec. f_equal. cbn [andb].
    assert (Z.testbit 255 (Z.of_nat (k mod 8)) = true) as ->; [|by destruct (Z.testbit m _)].
    change 255%Z with (Z.ones 8). apply Z.ones_spec_low. lia.
  - destruct (decide (k / 8 = i)) as [<-|Hne].
    + rewrite (byte_at_beyond bits) by lia. by rewrite Z.testbit_0_l.
    + rewrite bool_decide_eq_false_2 by done. cbn. by rewrite andb_true_r.
Qed.

Lemma bit_at_clear bits i k : bit_at (clear_bit bits i) k = bit_at bits k && negb (bool_decide (k = i)).
Proof.
  unfold clear_bit. rewrite bit_at_mask by (apply Z.shiftl_nonneg; lia). do 2 f_equal.
  rewrite Z.shiftl_1_l, Z.pow2_bits_eqb by lia. pose proof (Nat.div_mod k 8 ltac:(lia)). pose proof (Nat.div_mod i 8 ltac:(lia)).
  pose proof (Nat.mod_upper_bound k 8 ltac:(lia)). pose proof (Nat.mod_upper_bound i 8 ltac:(lia)).
  destruct (decide (k = i)) as [->|Hne].
  - rewrite !bool_decide_eq_true_2 by done. cbn. apply Z.eqb_refl.
  - rewrite (bool_decide_eq_false_2 (k = i)) by done. destruct (decide (k / 8 = i / 8)).
    + rewrite bool_decide_eq_true_2 by done. rewrite andb_true_l. apply Z.eqb_neq. lia.
    + by rewrite bool_decide_eq_false_2.
Qed.

Lemma length_clear bits i : length (clear_bit bits i) = length bits.
Proof. apply length_alter. Qed.

(** ** Validity bits *)

(** The bits say [f] of the first [n] rows; the flag may only be off when there
    is no null. *)
Definition null_state (st : list Z * bool) (n : nat) (f : nat → bool) : Prop :=
  (∀ k, k < n → bit_at (fst st) k = negb (f k)) ∧ (snd st = false → ∀ k, k < n → f k = false).

Lemma null_state_valid st n f k : null_state st n f → k < n → valid (null_buffer st) k = negb (f k).
Proof.
  intros [Hb Hf] Hk. unfold null_buffer. destruct (snd st) eqn:E; cbn; [by apply Hb|]. by rewrite (Hf eq_refl k Hk).
Qed.

Lemma null_state_ext st n f g : null_state st n f → (∀ k, k < n → f k = g k) → null_state st n g.
Proof.
  intros [Hb Hf] H. split.
  - intros k Hk. rewrite <- H by done. by apply Hb.
  - intros E k Hk. rewrite <- H by done. by apply Hf.
Qed.

Lemma div_ceil8_index n k : k < n → k / 8 < div_ceil8 n.
Proof.
  intros Hk. unfold div_ceil8. apply Nat.Div0.div_lt_upper_bound. pose proof (Nat.div_mod (n + 7) 8 ltac:(lia)).
  pose proof (Nat.mod_upper_bound (n + 7) 8 ltac:(lia)). lia.
Qed.

Lemma null_state_all_valid n : null_state (all_valid n, false) (Z.to_nat n) (λ _, false).
Proof.
  split; [|done]. intros k Hk. cbn [fst negb]. unfold bit_at, all_valid, byte_at. pose proof (Nat.mod_upper_bound k 8 ltac:(lia)).
  rewrite lookup_replicate_2.
  - cbn. change 255%Z with (Z.ones 8). apply Z.ones_spec_low. lia.
  - by apply div_ceil8_index.
Qed.

Definition marks (src : list Z) (out j m k : nat) : bool := bool_decide (out + j ≤ k < out + j + m) && nonzero (byte_at src (k - out)).

Lemma mark_bytes_state m src out j st n f :
  null_state st n f → null_state (mark_bytes m src out j st) n (λ k, f k || marks src out j m k).
Proof.
  revert j st f. induction m as [|m IH]; intros j st f H.
  { eapply null_state_ext; [exact H|]. intros k _. unfold marks. rewrite bool_decide_eq_false_2 by lia. cbn. by rewrite orb_false_r. }
  cbn [mark_bytes]. set (st' := if nonzero (byte_at src j) then _ else st).
  assert (null_state st' n (λ k, f k || (bool_decide (k = out + j) && nonzero (byte_at src j)))) as H'.
  { unfold st'. destruct (nonzero (byte_at src j)) eqn:E.
    - split; [|done]. intros k Hk. cbn [fst]. rewrite bit_at_clear, (proj1 H k Hk). by destruct (f k), (bool_decide (k = out + j)).
    - eapply null_state_ext; [exact H|]. intros k _. cbn. by rewrite andb_false_r, orb_false_r. }
  eapply null_state_ext; [apply (IH (j + 1) st' _ H')|]. intros k _. cbv beta. rewrite <- orb_assoc. f_equal. unfold marks.
  destruct (decide (k = out + j)) as [->|Hne].
  - rewrite bool_decide_eq_true_2 by done. rewrite (bool_decide_eq_false_2 (out + (j + 1) ≤ _ < _)), (bool_decide_eq_true_2 (out + j ≤ _ < _)) by lia.
    replace (out + j - out) with j by lia. cbn. by rewrite orb_false_r.
  - rewrite bool_decide_eq_false_2 by done. cbn. f_equal. apply bool_decide_ext. lia.
Qed.

Lemma mark_bytes_app a b src out j st : mark_bytes (a + b) src out j st = mark_bytes b src out (j + a) (mark_bytes a src out j st).
Proof.
  revert j st. induction a as [|a IH]; intros j st; [by rewrite Nat.add_0_r|]. cbn [Nat.add mark_bytes]. rewrite IH. replace (j + 1 + a) with (j + S a) by lia. done.
Qed.

Lemma mark_bytes_zero m src out j st : (∀ i, j ≤ i < j + m → byte_at src i = 0%Z) → mark_bytes m src out j st = st.
Proof.
  revert j. induction m as [|m IH]; intros j H; [done|]. cbn [mark_bytes]. rewrite (H j) by lia. cbn. apply IH. intros i Hi. apply H. lia.
Qed.

(** A chunk that fails the test has no null. *)
Definition chunk_test (w : nat) (test : list Z → bool) : Prop :=
  ∀ chunk, bytes_ok chunk → length chunk = w → test chunk = false → ∀ i, i < w → byte_at chunk i = 0%Z.

Lemma of_le_zero l : bytes_ok l → of_le l = 0%Z → ∀ i, byte_at l i = 0%Z.
Proof.
  induction l as [|b l IH]; intros Hb H i; [done|]. apply list.Forall_cons in Hb as [Hb Hl]. change (Z.lor b (Z.shiftl (of_le l) 8) = 0%Z) in H.
  apply Z.lor_eq_0_iff in H as [-> H]. rewrite Z.shiftl_mul_pow2 in H by lia. change (2 ^ 8)%Z with 256%Z in H. assert (of_le l = 0%Z) by lia. clear H. destruct i as [|i]; [done|].
  rewrite byte_at_cons. by apply IH.
Qed.

Lemma word_test : chunk_test 8 word_nonzero.
Proof. intros l Hb _ H i _. apply nonzero_false in H. by apply of_le_zero. Qed.

Lemma or_test w : chunk_test w or_nonzero.
Proof.
  intros l Hb _ H i _. apply nonzero_false in H. revert H Hb i. assert (∀ acc, (0 ≤ acc)%Z → foldl Z.lor acc l = 0%Z → bytes_ok l → acc = 0%Z ∧ ∀ i, byte_at l i = 0%Z) as G.
  { induction l as [|b l IH]; intros acc Hacc H Hb; [done|]. apply list.Forall_cons in Hb as [Hb Hl]. cbn in H. unfold is_u8 in Hb.
    destruct (IH (Z.lor acc b)) as [E Hz]; [apply Z.lor_nonneg; lia|done|done|]. apply Z.lor_eq_0_iff in E as [-> ->].
    split; [done|]. intros [|i]; [done|]. by rewrite byte_at_cons. }
  intros H Hb. by apply (G 0%Z).
Qed.

Lemma mark_chunks_bytes w test n src out j st : chunk_test w test → bytes_ok src → j + n * w ≤ length src →
  mark_chunks w test n src out j st = mark_bytes (n * w) src out j st.
Proof.
  intros Ht Hb. revert j st. induction n as [|n IH]; intros j st Hl; [done|]. cbn [mark_chunks Nat.mul]. rewrite mark_bytes_app.
  rewrite IH by lia. f_equal. destruct (test (slice src j (j + w))) eqn:E; [done|]. symmetry. apply mark_bytes_zero. intros i Hi.
  pose proof (Ht (slice src j (j + w)) ltac:(by apply bytes_ok_slice) ltac:(rewrite length_slice; lia) E (i - j) ltac:(lia)) as Hz.
  rewrite byte_at_slice in Hz by lia. by replace (j + (i - j)) with i in Hz by lia.
Qed.

Lemma mark_nulls_bytes w test src m out st : chunk_test w test → 0 < w → bytes_ok src → m ≤ length src →
  mark_nulls w test src m out st = mark_bytes m src out 0 st.
Proof.
  intros Ht Hw Hb Hl. unfold mark_nulls. pose proof (Nat.Div0.mul_div_le m w). rewrite mark_chunks_bytes by (done || lia).
  pose proof (mark_bytes_app (m / w * w) (m - m / w * w) src out 0 st) as E. replace (m / w * w + (m - m / w * w)) with m in E by lia. by rewrite E.
Qed.

(** The packing of the direct scan. *)
Lemma null_word_spec src s n j : (0 ≤ null_word src s n)%Z ∧
  Z.testbit (null_word src s n) (Z.of_nat j) = bool_decide (j < n) && nonzero (byte_at src (s + j)).
Proof.
  unfold null_word. induction n as [|n [IHp IH]]; [split; [done|]; cbn; apply Z.testbit_0_l|].
  rewrite seq_S, foldl_app. cbn [foldl Nat.add]. destruct (nonzero (byte_at src (s + n))) eqn:E.
  - split; [apply Z.lor_nonneg; split; [done|apply Z.shiftl_nonneg; lia]|]. rewrite Z.lor_spec, IH, Z.shiftl_1_l, Z.pow2_bits_eqb by lia.
    destruct (decide (j = n)) as [->|Hne].
    + rewrite Z.eqb_refl, orb_true_r. rewrite bool_decide_eq_true_2 by lia. by rewrite E.
    + rewrite (proj2 (Z.eqb_neq _ _)) by lia. rewrite orb_false_r. f_equal. apply bool_decide_ext. lia.
  - split; [done|]. rewrite IH. destruct (decide (j = n)) as [->|Hne]; [by rewrite E, !andb_false_r|]. f_equal. apply bool_decide_ext. lia.
Qed.

Lemma pack_byte src base b m bits k : m ≤ 8 →
  bit_at (alter (λ x, Z.land x (Z.lxor 255 (null_word src (base + b * 8) m))) b bits) k
  = bit_at bits k && negb (bool_decide (b * 8 ≤ k < b * 8 + m) && nonzero (byte_at src (base + k))).
Proof.
  intros Hm. rewrite bit_at_mask by apply (null_word_spec _ _ _ 0). f_equal. rewrite (proj2 (null_word_spec src (base + b * 8) m (k mod 8))).
  pose proof (Nat.div_mod k 8 ltac:(lia)). pose proof (Nat.mod_upper_bound k 8 ltac:(lia)).
  destruct (decide (k / 8 = b)) as [E|E].
  - rewrite bool_decide_eq_true_2 by done. rewrite andb_true_l. replace (base + b * 8 + k mod 8) with (base + k) by lia.
    do 2 f_equal. apply bool_decide_ext. lia.
  - rewrite bool_decide_eq_false_2 by done. rewrite andb_false_l. rewrite bool_decide_eq_false_2 by lia. done.
Qed.

Lemma pack_nulls_bit src base n bits k :
  bit_at (pack_nulls src base n bits) k = bit_at bits k && negb (bool_decide (k < n) && nonzero (byte_at src (base + k))).
Proof.
  unfold pack_nulls. cbv zeta. set (bytes := λ (f : nat) (bits : list Z), foldl (λ (bits : list Z) b, alter (λ x, Z.land x (Z.lxor 255 (null_word src (base + b * 8) 8))) b bits) bits (seq 0 f)).
  assert (∀ f, bit_at (bytes f bits) k = bit_at bits k && negb (bool_decide (k < f * 8) && nonzero (byte_at src (base + k)))) as Hf.
  { intros f. unfold bytes. induction f as [|f IH]; [by rewrite bool_decide_eq_false_2 by lia; cbn; rewrite andb_true_r|].
    rewrite seq_S, foldl_app. cbn [foldl Nat.add]. rewrite pack_byte, IH by lia. rewrite <- andb_assoc. f_equal.
    destruct (nonzero (byte_at src (base + k))); [rewrite !andb_true_r|by rewrite !andb_false_r].
    rewrite <- negb_orb, <- bool_decide_or. f_equal. apply bool_decide_ext. lia. }
  pose proof (Nat.div_mod n 8 ltac:(lia)). pose proof (Nat.mod_upper_bound n 8 ltac:(lia)). fold (bytes (n / 8) bits). case_decide as Hr.
  - rewrite pack_byte, Hf by lia. rewrite <- andb_assoc. f_equal. destruct (nonzero (byte_at src (base + k))); [rewrite !andb_true_r|by rewrite !andb_false_r].
    rewrite <- negb_orb, <- bool_decide_or. f_equal. apply bool_decide_ext. lia.
  - rewrite Hf. replace (n / 8 * 8) with n by lia. done.
Qed.

Lemma length_pack_nulls src base n bits : length (pack_nulls src base n bits) = length bits.
Proof.
  unfold pack_nulls. cbv zeta. assert (∀ l, length (foldl (λ (bits : list Z) b, alter (λ x, Z.land x (Z.lxor 255 (null_word src (base + b * 8) 8))) b bits) bits l) = length bits) as H.
  { intros l. revert bits. induction l as [|b l IH]; intros bits; [done|]. cbn [foldl]. rewrite IH. apply length_alter. }
  case_decide; [rewrite length_alter|]; apply H.
Qed.

Lemma pack_nulls_state src base num_values :
  let n := Z.to_nat num_values in
  let bits := pack_nulls src base n (all_valid num_values) in
  null_state (bits, existsb (λ b, negb (bool_decide (b = 255%Z))) bits) n (λ k, nonzero (byte_at src (base + k))).
Proof.
  intros n bits. assert (∀ k, k < n → bit_at bits k = negb (nonzero (byte_at src (base + k)))) as Hb.
  { intros k Hk. unfold bits. rewrite pack_nulls_bit. pose proof (proj1 (null_state_all_valid num_values) k Hk) as E. cbn [fst negb] in E. rewrite E.
    rewrite bool_decide_eq_true_2 by done. done. }
  split; [exact Hb|]. intros Hex k Hk. cbn [snd] in Hex. specialize (Hb k Hk). destruct (nonzero (byte_at src (base + k))); [|done].
  exfalso. cbn [negb] in Hb. unfold bit_at in Hb. pose proof (div_ceil8_index n k Hk) as Hl.
  assert (byte_at bits (k / 8) = 255%Z) as E.
  { destruct (decide (byte_at bits (k / 8) = 255%Z)) as [|Hne]; [done|]. exfalso. destruct (lookup_lt_is_Some_2 bits (k / 8)) as [x Hx].
    - unfold bits. rewrite length_pack_nulls. unfold all_valid. by rewrite length_replicate.
    - unfold byte_at in Hne. rewrite Hx in Hne. cbn in Hne. assert (existsb (λ b, negb (bool_decide (b = 255%Z))) bits = true); [|congruence].
      apply existsb_exists. exists x. split; [apply list_elem_of_In; by apply list_elem_of_lookup_2 in Hx|]. by rewrite bool_decide_eq_false_2. }
  rewrite E in Hb. change 255%Z with (Z.ones 8) in Hb. rewrite Z.ones_spec_low in Hb; [done|]. pose proof (Nat.mod_upper_bound k 8 ltac:(lia)). lia.
Qed.

(** ** Arrays of cells *)

Definition primitive (t : LogicalType) : bool :=
  match logical_type_to_arrow_type t with DInt64 | DInt32 | DUInt64 | DFloat64 | DBoolean => true | _ => false end.
(** The cell of a slot. *)
Definition slot_scalar (t : LogicalType) (b : list Z) : Scalar :=
  match logical_type_to_arrow_type t with
  | DInt64 => AInt64 (u64_as_i64 (of_le b))
  | DInt32 => AInt32 (wrap_i32 (of_le b))
  | DUInt64 => AUInt64 (of_le b)
  | DFloat64 => AFloat64 (of_le b)
  | _ => ABoolean (nonzero (byte_at b 0))
  end.

Lemma bit_at_set bits i k : bit_at (set_bit bits i) k = bit_at bits k || (bool_decide (k = i) && bool_decide (i / 8 < length bits)).
Proof.
  unfold set_bit, bit_at. rewrite byte_at_alter. pose proof (Nat.div_mod k 8 ltac:(lia)). pose proof (Nat.div_mod i 8 ltac:(lia)).
  pose proof (Nat.mod_upper_bound k 8 ltac:(lia)). pose proof (Nat.mod_upper_bound i 8 ltac:(lia)). case_decide as H3.
  - destruct H3 as [E Hl]. rewrite (bool_decide_eq_true_2 (i / 8 < length bits)), andb_true_r by done.
    rewrite Z.lor_spec, Z.shiftl_1_l, Z.pow2_bits_eqb by lia. f_equal. destruct (decide (k = i)) as [->|Hne].
    + rewrite bool_decide_eq_true_2 by done. apply Z.eqb_refl.
    + rewrite bool_decide_eq_false_2 by done. apply Z.eqb_neq. lia.
  - destruct (decide (k = i)) as [->|Hne]; [|by rewrite bool_decide_eq_false_2, orb_false_r by done].
    rewrite (bool_decide_eq_false_2 (i / 8 < length bits)) by lia. by rewrite andb_false_r, orb_false_r.
Qed.

Lemma packed_bools data n k : k < n → n ≤ length data →
  bit_at (foldl (λ p i, if nonzero (byte_at data i) then set_bit p i else p) (replicate (div_ceil8 n) 0%Z) (seq 0 (length data `min` n))) k
  = nonzero (byte_at data k).
Proof.
  intros Hk Hl. rewrite Nat.min_r by done. set (z := replicate (div_ceil8 n) 0%Z).
  assert (∀ m, m ≤ n → let p := foldl (λ p i, if nonzero (byte_at data i) then set_bit p i else p) z (seq 0 m) in
            length p = div_ceil8 n ∧ bit_at p k = bool_decide (k < m) && nonzero (byte_at data k)) as H.
  { induction m as [|m IH]; intros Hm; cbv zeta.
    - cbn. split; [apply length_replicate|]. unfold bit_at, byte_at, z. rewrite lookup_replicate_2 by (by apply div_ceil8_index). apply Z.testbit_0_l.
    - rewrite seq_S, foldl_app. cbn [foldl Nat.add]. destruct IH as [IHl IH]; [lia|]. destruct (nonzero (byte_at data m)) eqn:E.
      + split; [unfold set_bit; by rewrite length_alter|]. rewrite bit_at_set, IH, IHl. pose proof (div_ceil8_index n m ltac:(lia)).
        rewrite (bool_decide_eq_true_2 (m / 8 < div_ceil8 n)), andb_true_r by done. destruct (decide (k = m)) as [->|Hne].
        * rewrite (bool_decide_eq_true_2 (m = m)), (bool_decide_eq_true_2 (m < S m)), E by lia. apply orb_true_r.
        * rewrite (bool_decide_eq_false_2 (k = m)), orb_false_r by done. f_equal. apply bool_decide_ext. lia.
      + split; [done|]. rewrite IH. destruct (decide (k = m)) as [->|Hne]; [by rewrite E, !andb_false_r|]. f_equal. apply bool_decide_ext. lia. }
  destruct (H n ltac:(done)) as [_ ->]. by rewrite bool_decide_eq_true_2.
Qed.

(** The array of buffers that hold the slots [b]. *)
Lemma build_array_spec t data st n f (b : nat → list Z) :
  primitive t = true → null_state st n f → n * element_size t ≤ length data →
  (∀ k, k < n → f k = false → slice data (k * element_size t) (k * element_size t + element_size t) = b k) →
  build_array (logical_type_to_arrow_type t) data (null_buffer st) n = Ok (map (λ k, if f k then None else Some (slot_scalar t (b k))) (seq 0 n)).
Proof.
  intros Hp Hst Hl Hb.
  assert (∀ mk, (∀ k, k < n → f k = false → mk k = slot_scalar t (b k)) →
    map (λ i, if valid (null_buffer st) i then Some (mk i) else None) (seq 0 n) = map (λ k, if f k then None else Some (slot_scalar t (b k))) (seq 0 n)) as Hmap.
  { intros mk Hmk. apply map_ext_in. intros k Hk. apply in_seq in Hk. rewrite (null_state_valid st n f k Hst) by lia.
    destruct (f k) eqn:E; [done|]. cbn [negb]. by rewrite Hmk by (done || lia). }
  unfold primitive in Hp. unfold slot_scalar in *. destruct t; try discriminate; cbn [logical_type_to_arrow_type element_size build_array] in *;
    unfold primitive_array; try rewrite decide_True by lia; f_equal; apply Hmap; intros k Hk Hf; rewrite <- ?Hb by done; try done.
  rewrite packed_bools by lia. rewrite byte_at_slice by lia. f_equal. f_equal. f_equal. lia.
Qed.

(** ** Runs inside a page *)

Lemma run_in_page (vpp cur j : Z) : (0 < vpp)%Z → (0 ≤ j)%Z → (cur mod vpp + j < vpp)%Z →
  ((cur + j) / vpp = cur / vpp)%Z ∧ ((cur + j) mod vpp = cur mod vpp + j)%Z.
Proof.
  intros Hv Hj Hlt. pose proof (Z.div_mod cur vpp ltac:(lia)). pose proof (Z.mod_pos_bound cur vpp Hv).
  split; [symmetry; apply (Z.div_unique _ _ _ (cur mod vpp + j)); lia|symmetry; apply (Z.mod_unique _ _ (cur / vpp)); lia].
Qed.

(** A run inside a data page is inside a null page. *)
Lemma run_in_null_page t cur m : (cur mod values_per_page t + m ≤ values_per_page t)%Z → (cur mod 4096 + m ≤ 4096)%Z.
Proof.
  destruct (geometry t) as (Hv & Hp & He & _). set (vpp := values_per_page t) in *. set (es := Z.of_nat (element_size t)) in *. intros H.
  pose proof (Z.div_mod cur vpp ltac:(lia)) as E1. pose proof (Z.div_mod (cur / vpp) es ltac:(lia)) as E2.
  pose proof (Z.mod_pos_bound (cur / vpp) es ltac:(lia)). pose proof (Z.mod_pos_bound cur vpp ltac:(lia)).
  assert (cur mod 4096 = vpp * ((cur / vpp) mod es) + cur mod vpp)%Z as ->.
  { symmetry. apply (Z.mod_unique _ _ (cur / vpp / es)); [left; nia|]. rewrite <- Hp.
    transitivity (vpp * (es * (cur / vpp / es) + (cur / vpp) mod es) + cur mod vpp)%Z; [by rewrite <- E2|ring]. }
  nia.
Qed.

Lemma run_bytes t cur m : (cur mod values_per_page t + Z.of_nat m ≤ values_per_page t)%Z →
  Z.to_nat (cur mod values_per_page t) * element_size t + m * element_size t ≤ PAGE_SIZE.
Proof.
  intros Hm. destruct (geometry t) as (Hv & Hp & He & _). pose proof (Z.mod_pos_bound cur _ Hv). pose proof PAGE_SIZE_val.
  rewrite <- Nat.mul_add_distr_r. set (a := Z.to_nat (cur mod values_per_page t) + m). assert (Z.of_nat a ≤ values_per_page t)%Z by lia. nia.
Qed.

Lemma slot_of_run f t cur m j : pages_ok f → (0 ≤ cur)%Z → j < m → (cur mod values_per_page t + Z.of_nat m ≤ values_per_page t)%Z →
  let es := element_size t in let off := Z.to_nat (cur mod values_per_page t) in
  slice (slice (page_at f (cur / values_per_page t)) (off * es) (off * es + m * es)) (j * es) (j * es + es) = slot f t (cur + Z.of_nat j).
Proof.
  intros Hf Hc Hj Hm. cbv zeta. destruct (geometry t) as (Hv & Hp & He & _). pose proof (Z.mod_pos_bound cur _ Hv).
  destruct (run_in_page (values_per_page t) cur (Z.of_nat j)) as [Ed Em]; [done|lia|lia|].
  destruct (page_at_ok f (cur / values_per_page t) Hf) as [Hl _]. pose proof (run_bytes t cur m Hm). assert (j * element_size t + element_size t ≤ m * element_size t) by nia.
  rewrite slice_slice by lia. unfold slot, slot_offset. rewrite Ed, Em.
  replace (Z.to_nat (cur mod values_per_page t + Z.of_nat j)) with (Z.to_nat (cur mod values_per_page t) + j) by lia. f_equal; nia.
Qed.

Section scans.
Context (c : ColumnData) (zone_map : option Value) (room : nat) (Hc : column_ok room c).
Local Abbreviation t := (data_type c).
Local Abbreviation es := (element_size (data_type c)).
Local Abbreviation vpp := (values_per_page (data_type c)).

(** The cell a scan must deliver for a row. *)
Definition null_at (r : Z) : bool :=
  zone_map_should_skip (stats c) (data_type c) (Z.to_nat (r / values_per_page (data_type c))) zone_map || nonzero (null_byte (null_fh c) r).
Definition row_cell (r : Z) : option Scalar := if null_at r then None else Some (slot_scalar (data_type c) (slot (fh c) (data_type c) r)).

Record loop_inv (n : nat) (offset : Z) (read : nat) (st : list Z * (list Z * bool)) : Prop := {
  li_length : length (fst st) = read * element_size (data_type c);
  li_data : ∀ k, k < read → null_at (offset + Z.of_nat k) = false →
    slice (fst st) (k * element_size (data_type c)) (k * element_size (data_type c) + element_size (data_type c))
    = slot (fh c) (data_type c) (offset + Z.of_nat k);
  li_nulls : null_state (snd st) n (λ k, bool_decide (k < read) && null_at (offset + Z.of_nat k));
}.

(** Extending the buffers by the cells of a run. *)
Lemma loop_inv_extend n offset read m data bytes nulls nulls' g :
  loop_inv n offset read (data, nulls) → length bytes = m * es →
  (∀ j, j < m → null_at (offset + Z.of_nat (read + j)) = false → slice bytes (j * es) (j * es + es) = slot (fh c) t (offset + Z.of_nat (read + j))) →
  null_state nulls' n (λ k, (bool_decide (k < read) && null_at (offset + Z.of_nat k)) || g k) →
  (∀ k, g k = bool_decide (read ≤ k < read + m) && null_at (offset + Z.of_nat k)) →
  loop_inv n offset (read + m) (data ++ bytes, nulls').
Proof.
  intros [Hl Hd Hn] Hb Hs Hn' Hg. cbn [fst snd] in *. constructor; cbn [fst snd].
  - rewrite length_app. nia.
  - intros k Hk Hnull.  destruct (decide (k < read)) as [Hlt|Hge].
    + rewrite slice_app_l by nia. by apply Hd.
    + rewrite slice_app_r by nia. specialize (Hs (k - read) ltac:(lia)). replace (read + (k - read)) with k in Hs by lia. rewrite <- Hs by done.
      f_equal; nia.
  - eapply null_state_ext; [exact Hn'|]. intros k _. cbv beta. rewrite Hg, <- andb_orb_distrib_l, <- bool_decide_or. f_equal. apply bool_decide_ext. lia.
Qed.

Lemma vector_step_spec n offset read to_read st : loop_inv n offset read st → (0 ≤ offset)%Z → (0 < to_read)%Z →
  ((offset + Z.of_nat read) mod vpp + to_read ≤ vpp)%Z →
  ∃ st', vector_step c zone_map offset (Z.of_nat read) to_read st = Ok st' ∧ loop_inv n offset (read + Z.to_nat to_read) st'.
Proof.
  intros Hi Ho Ht Hrun. unfold vector_step. cbv zeta.  set (cur := (offset + Z.of_nat read)%Z) in *.
  destruct (geometry t) as (Hv & Hp & He & _).  pose proof (Z.mod_pos_bound cur vpp Hv).
  set (m := Z.to_nat to_read). assert (∀ j : nat, (j < m)%nat → (cur + Z.of_nat j) / vpp = cur / vpp)%Z as Hpage.
  { intros j Hj. apply run_in_page; lia. }
  assert (∀ j, (offset + Z.of_nat (read + j) = cur + Z.of_nat j)%Z) as Hcur by (intros j; unfold cur; lia). rewrite Nat2Z.id.
  destruct st as [data nulls]. cbn [fst snd]. destruct (zone_map_should_skip (stats c) t (Z.to_nat (cur / vpp)) zone_map) eqn:Eskip.
  - eexists. split; [reflexivity|]. eapply loop_inv_extend; [exact Hi|by rewrite length_replicate| |apply mark_bytes_state, Hi|].
    + intros j Hj Hnull. exfalso. unfold null_at in Hnull.  rewrite Hcur, Hpage, Eskip in Hnull by done. done.
    + intros k. unfold marks. rewrite Nat.add_0_r. destruct (decide (read ≤ k < read + m)) as [Hk|Hk];
        [rewrite bool_decide_eq_true_2 by lia|by rewrite bool_decide_eq_false_2 by lia].
      cbn [andb]. unfold byte_at. rewrite lookup_replicate_2 by lia. unfold null_at.
      replace k with (read + (k - read)) by lia. rewrite Hcur, Hpage, Eskip by lia. done.
  - destruct (page_at_ok (fh c) (cur / vpp) (ok_fh room c Hc)) as [Hpl _]. destruct (page_at_ok (null_fh c) (cur / 4096) (ok_null room c Hc)) as [Hnl Hnb].
    pose proof PAGE_SIZE_val. pose proof (run_in_null_page t cur to_read Hrun). pose proof (Z.mod_pos_bound cur 4096 ltac:(lia)).
    assert (Z.to_nat (cur mod vpp) * es + m * es ≤ PAGE_SIZE) as Hin by (apply run_bytes; lia).
    rewrite slice_get_ok by lia. cbn [outcome_bind]. rewrite slice_get_ok by lia. cbn [outcome_bind]. eexists. split; [reflexivity|].
    set (null_src := slice (page_at (null_fh c) (cur / 4096)) _ _).
    rewrite mark_nulls_bytes; [|apply word_test|lia|by apply bytes_ok_slice|unfold null_src; rewrite length_slice; lia].
    eapply loop_inv_extend; [exact Hi|rewrite length_slice by nia; lia| |apply mark_bytes_state, Hi|].
    + intros j Hj _. rewrite Hcur. apply (slot_of_run (fh c) t cur m j); [apply (ok_fh room c Hc)|lia|done|lia].
    + intros k. unfold marks. rewrite Nat.add_0_r. destruct (decide (read ≤ k < read + m)) as [Hk|Hk];
        [rewrite !bool_decide_eq_true_2 by lia|by rewrite !bool_decide_eq_false_2 by lia].
      cbn [andb]. unfold null_at. replace k with (read + (k - read)) by lia. rewrite Hcur, Hpage, Eskip by lia. cbn [orb].
      unfold null_src. rewrite byte_at_slice by lia. unfold null_byte. destruct (run_in_page 4096 cur (Z.of_nat (k - read))) as [-> ->]; [lia..|].
      do 2 f_equal. lia.
Qed.

Lemma vector_loop_spec fuel n offset read st : loop_inv n offset read st → (0 ≤ offset)%Z → read ≤ n → n - read ≤ fuel →
  ∃ st', vector_loop fuel c zone_map offset (Z.of_nat n) (Z.of_nat read) st = Ok st' ∧ loop_inv n offset n st'.
Proof.
  revert read st. induction fuel as [|fuel IH]; intros read st Hi Ho Hr Hf.
  { exists st. split; [done|]. by replace n with read at 2 by lia. }
  cbn [vector_loop]. case_decide as Hlt; [|exists st; split; [done|]; by replace n with read at 2 by lia].
  destruct (geometry t) as (Hv & _).  pose proof (Z.mod_pos_bound (offset + Z.of_nat read) vpp Hv).
  set (to_read := ((Z.of_nat n - Z.of_nat read) `min` (vpp - (offset + Z.of_nat read) mod vpp))%Z).
  destruct (vector_step_spec n offset read to_read st Hi Ho) as (st' & -> & Hi'); [lia|lia|]. cbn [outcome_bind].
  replace (Z.of_nat read + to_read)%Z with (Z.of_nat (read + Z.to_nat to_read)) by lia. apply IH; [done|done|lia|lia].
Qed.

End scans.

(** ** Reading the files *)

Lemma byte_at_reads h p n i : i < Z.to_nat n * PAGE_SIZE → byte_at (read_pages h p n) i = byte_at (contents h) (page_offset p + i).
Proof.
  intros Hi. unfold read_pages, byte_at. cbn zeta. set (got := take _ _).
  assert (length got = (Z.to_nat n * PAGE_SIZE) `min` (length (contents h) - page_offset p)) as Hlen by (unfold got; by rewrite length_take, length_drop).
  destruct (decide (i < length got)) as [Hlt|Hge].
  - rewrite lookup_app_l by lia. unfold got. rewrite lookup_take_lt by lia. by rewrite lookup_drop.
  - rewrite lookup_app_r by lia. rewrite lookup_replicate_2 by lia. rewrite (lookup_ge_None_2 (contents h)) by lia. done.
Qed.

(** Byte [i] of a range of pages is on page [i / PAGE_SIZE] of it. *)
Lemma byte_at_pages h p n i : (0 ≤ p)%Z → i < Z.to_nat n * PAGE_SIZE →
  byte_at (read_pages h p n) i = byte_at (read_page h (p + Z.of_nat (i / PAGE_SIZE))) (i mod PAGE_SIZE).
Proof.
  intros Hp Hi. pose proof PAGE_SIZE_val. rewrite byte_at_reads by done. rewrite byte_at_read by (apply Nat.mod_upper_bound; lia). f_equal. unfold page_offset.
  pose proof (Nat.div_mod i PAGE_SIZE ltac:(lia)). rewrite Z2Nat.inj_add, Nat2Z.id by lia. nia.
Qed.

Lemma bytes_ext (l s : list Z) : length l = length s → (∀ i, i < length l → byte_at l i = byte_at s i) → l = s.
Proof.
  intros Hl H. apply list_eq_same_length with (length l); [done..|]. intros i x y Hi Hx Hy. specialize (H i Hi). unfold byte_at in H.
  by rewrite Hx, Hy in H.
Qed.

(** The files agree with the pages a transaction sees. *)
Definition file_current (h : FileHandle) (f : pages) : Prop := ∀ p, (0 ≤ p)%Z → read_page h p = page_at f p.
Definition disk_current (d : Disk) (c : ColumnData) : Prop :=
  file_current (disk_fh d) (fh c) ∧ file_current (disk_null d) (null_fh c) ∧
  match disk_overflow d, overflow_fh c with
  | Some h, Some f => num_pages h = pg_num f ∧ file_current h f
  | None, None => True
  | _, _ => False
  end.

(** Where slot [k] after [offset] is in the pages read from [offset]'s page on. *)
Lemma slot_position t offset (k : nat) : (0 ≤ offset)%Z →
  let es := element_size t in let vpp := values_per_page t in let off := Z.to_nat (offset mod vpp) in
  ∃ a : nat, ((offset + Z.of_nat k) / vpp = offset / vpp + Z.of_nat a)%Z ∧
    (off + k) * es = a * PAGE_SIZE + Z.to_nat ((offset + Z.of_nat k) mod vpp) * es.
Proof.
  intros Ho. cbv zeta. destruct (geometry t) as (Hv & Hp & He & _). pose proof PAGE_SIZE_val. set (vpp := values_per_page t) in *.
  pose proof (Z.mod_pos_bound offset vpp Hv). set (x := (offset mod vpp + Z.of_nat k)%Z). exists (Z.to_nat (x / vpp)).
  pose proof (Z.div_mod offset vpp ltac:(lia)) as E0. pose proof (Z.div_mod x vpp ltac:(lia)) as E1. pose proof (Z.mod_pos_bound x vpp Hv).
  assert (0 ≤ x / vpp)%Z by (apply Z.div_pos; unfold x; lia).
  assert (offset + Z.of_nat k = vpp * (offset / vpp + x / vpp) + x mod vpp)%Z as E2 by (unfold x in *; lia).
  assert ((offset + Z.of_nat k) / vpp = offset / vpp + x / vpp)%Z as Hd by (symmetry; apply (Z.div_unique _ _ _ (x mod vpp)); lia).
  assert ((offset + Z.of_nat k) mod vpp = x mod vpp)%Z as Hm by (symmetry; apply (Z.mod_unique _ _ (offset / vpp + x / vpp)); lia).
  rewrite Hd, Hm. split; [lia|]. assert (Z.of_nat (Z.to_nat (offset mod vpp) + k) = vpp * (x / vpp) + x mod vpp)%Z as E3 by (unfold x in *; lia).
  apply Nat2Z.inj. rewrite Nat2Z.inj_mul, E3, Nat2Z.inj_add, !Nat2Z.inj_mul, !Z2Nat.id by lia. change (Z.of_nat PAGE_SIZE) with 4096%Z. rewrite <- Hp. fold vpp. ring.
Qed.

(** The last page read holds the last row. *)
Lemma pages_cover (vpp offset n : Z) : (0 < vpp)%Z → (0 ≤ offset)%Z → (0 < n)%Z →
  (0 ≤ (offset + n - 1) / vpp - offset / vpp)%Z ∧ (offset mod vpp + n ≤ ((offset + n - 1) / vpp - offset / vpp + 1) * vpp)%Z.
Proof.
  intros Hv Ho Hn. pose proof (Z.div_mod offset vpp ltac:(lia)). pose proof (Z.div_mod (offset + n - 1) vpp ltac:(lia)).
  pose proof (Z.mod_pos_bound offset vpp Hv). pose proof (Z.mod_pos_bound (offset + n - 1) vpp Hv).
  pose proof (Z.div_le_mono offset (offset + n - 1) vpp ltac:(lia) ltac:(lia)). split; [lia|nia].
Qed.

Lemma slot_of_file h f t offset n k : file_current h f → pages_ok f → (0 ≤ offset)%Z → k < n →
  let es := element_size t in let vpp := values_per_page t in
  let buf := read_pages h (offset / vpp) ((offset + Z.of_nat n - 1) / vpp - offset / vpp + 1) in
  let start := Z.to_nat (offset mod vpp) * es in
  start + n * es ≤ length buf ∧ slice buf (start + k * es) (start + k * es + es) = slot f t (offset + Z.of_nat k).
Proof.
  intros Hcur Hf Ho Hk. cbv zeta. destruct (geometry t) as (Hv & Hp & He & _). pose proof PAGE_SIZE_val as HP.
  destruct (pages_cover (values_per_page t) offset (Z.of_nat n) Hv Ho ltac:(lia)) as [Hs Hcov]. set (span := (_ - _ + 1)%Z) in *.
  pose proof (Z.mod_pos_bound offset _ Hv). assert (0 ≤ offset / values_per_page t)%Z as Hfp by (apply Z.div_pos; lia).
  set (off := Z.to_nat (offset mod values_per_page t)). set (buf := read_pages h (offset / values_per_page t) span).
  assert (off * element_size t + n * element_size t ≤ length buf) as Hl.
  { unfold buf. rewrite read_pages_length. rewrite <- Nat.mul_add_distr_r. apply Nat2Z.inj_le. rewrite !Nat2Z.inj_mul, Z2Nat.id by (unfold span; lia).
    change (Z.of_nat PAGE_SIZE) with 4096%Z. rewrite <- Hp. assert (Z.of_nat (off + n) ≤ span * values_per_page t)%Z by (unfold off; lia). nia. }
  split; [exact Hl|]. assert ((off + k) * element_size t + element_size t ≤ length buf) as Hl' by nia.
  destruct (slot_position t offset k Ho) as (a & Ea & Eo). fold off in Eo.
  destruct (page_at_ok f ((offset + Z.of_nat k) / values_per_page t) Hf) as [Hpl _]. pose proof (slot_in_page t (offset + Z.of_nat k)) as Hin.
  rewrite <- Nat.mul_add_distr_r. apply bytes_ext.
  { unfold slot. rewrite !length_slice by lia. lia. }
  intros j Hj. rewrite length_slice in Hj by lia. unfold slot. rewrite !byte_at_slice by lia. rewrite Eo. unfold slot_offset in *.
  set (b := Z.to_nat ((offset + Z.of_nat k) mod values_per_page t) * element_size t) in *.
  assert (j < element_size t) as Hj' by lia. unfold buf. rewrite byte_at_pages by (first [lia|unfold buf in Hl'; rewrite read_pages_length in Hl'; lia]).
  replace (a * PAGE_SIZE + b + j) with (b + j + a * PAGE_SIZE) by lia. rewrite Nat.div_add, Nat.Div0.mod_add by lia.
  rewrite (Nat.div_small (b + j)), (Nat.mod_small (b + j)) by lia. cbn [Nat.add]. rewrite Hcur by lia. by rewrite Ea.
Qed.

(** A null file is a file of one-byte slots. *)
Lemma null_of_file h f offset n k : file_current h f → pages_ok f → (0 ≤ offset)%Z → k < n →
  let null_data := read_pages h (offset / 4096) ((offset + Z.of_nat n - 1) / 4096 - offset / 4096 + 1) in
  byte_at null_data (Z.to_nat (offset mod 4096) + k) = null_byte f (offset + Z.of_nat k).
Proof.
  intros Hcur Hf Ho Hk. cbv zeta. destruct (slot_of_file h f TBool offset n k Hcur Hf Ho Hk) as [Hl Hs]. change (values_per_page TBool) with 4096%Z in *.
  change (element_size TBool) with 1 in *. rewrite !Nat.mul_1_r in *. apply (f_equal (λ l, byte_at l 0)) in Hs. cbv beta in Hs.
  rewrite byte_at_slice in Hs by lia. rewrite Nat.add_0_r in Hs. rewrite Hs. unfold slot, null_byte, slot_offset. change (values_per_page TBool) with 4096%Z.
  change (element_size TBool) with 1. rewrite Nat.mul_1_r. destruct (page_at_ok f ((offset + Z.of_nat k) / 4096) Hf) as [Hpl _].
  rewrite byte_at_slice by lia. by rewrite Nat.add_0_r.
Qed.

Section primitives.
Context (d : Disk) (c : ColumnData) (room : nat) (Hc : column_ok room c) (Hp : primitive (data_type c) = true).

(** The cells of [n] rows. *)
Definition row_cells (zone_map : option Value) (offset : Z) (n : nat) : ArrowArray := map (λ k, row_cell c zone_map (offset + Z.of_nat k)) (seq 0 n).

Lemma build_row_cells zone_map offset n data st :
  null_state st n (λ k, null_at c zone_map (offset + Z.of_nat k)) → n * element_size (data_type c) ≤ length data →
  (∀ k, k < n → null_at c zone_map (offset + Z.of_nat k) = false →
     slice data (k * element_size (data_type c)) (k * element_size (data_type c) + element_size (data_type c)) = slot (fh c) (data_type c) (offset + Z.of_nat k)) →
  build_array (logical_type_to_arrow_type (data_type c)) data (null_buffer st) n = Ok (row_cells zone_map offset n).
Proof. intros Hst Hl Hs. by rewrite (build_array_spec (data_type c) data st n _ (λ k, slot (fh c) (data_type c) (offset + Z.of_nat k)) Hp Hst Hl Hs). Qed.

Lemma null_at_none r : null_at c None r = nonzero (null_byte (null_fh c) r).
Proof. done. Qed.

Lemma direct_spec offset n : disk_current d c → (0 ≤ offset)%Z →
  scan_primitive_direct d (data_type c) offset (Z.of_nat n) = Ok (row_cells None offset n).
Proof.
  intros (Hdf & Hdn & _) Ho. unfold scan_primitive_direct. cbv zeta. rewrite Nat2Z.id. case_decide as Hn.
  - set (null_data := read_pages (disk_null d) _ _).
    destruct (slot_of_file (disk_fh d) (fh c) (data_type c) offset n 0 Hdf (ok_fh room c Hc) Ho ltac:(lia)) as [Hl _].
    rewrite slice_get_ok by lia. cbn [outcome_bind]. pose proof (pack_nulls_state null_data (Z.to_nat (offset mod 4096)) (Z.of_nat n)) as Hst.
    cbv zeta in Hst. rewrite Nat2Z.id in Hst. apply build_row_cells.
    + eapply null_state_ext; [exact Hst|]. intros k Hk. cbv beta. rewrite null_at_none. f_equal.
      by apply (null_of_file (disk_null d) (null_fh c) offset n k Hdn (ok_null room c Hc)).
    + rewrite length_slice; lia.
    + intros k Hk _. destruct (slot_of_file (disk_fh d) (fh c) (data_type c) offset n k Hdf (ok_fh room c Hc) Ho Hk) as [_ Hs].
      rewrite slice_slice by nia. by rewrite Nat.add_assoc.
  - assert (n = 0) as -> by lia. cbn [outcome_bind]. apply (build_row_cells None offset 0 [] (all_valid 0, false)).
    + apply (null_state_ext _ _ _ _ (null_state_all_valid 0)). intros k Hk. cbn in Hk. lia.
    + cbn. lia.
    + lia.
Qed.

Lemma page_spec offset : (0 ≤ offset)%Z → (offset mod values_per_page (data_type c) = 0)%Z →
  scan_page c offset (values_per_page (data_type c)) = Ok (row_cells None offset (Z.to_nat (values_per_page (data_type c)))).
Proof.
  intros Ho Hal. unfold scan_page. cbv zeta. destruct (geometry (data_type c)) as (Hv & Hps & He & _). set (n := Z.to_nat (values_per_page (data_type c))).
  pose proof (run_in_null_page (data_type c) offset (values_per_page (data_type c)) ltac:(lia)) as Hnull. pose proof (Z.mod_pos_bound offset 4096 ltac:(lia)).
  destruct (page_at_ok (null_fh c) (offset / 4096) (ok_null room c Hc)) as [Hnl Hnb]. pose proof PAGE_SIZE_val.
  destruct (page_at_ok (fh c) (offset / values_per_page (data_type c)) (ok_fh room c Hc)) as [Hpl _].
  rewrite slice_get_ok by lia. cbn [outcome_bind]. set (null_src := slice (page_at (null_fh c) (offset / 4096)) _ _).
  assert (∀ k, k < n → byte_at null_src k = null_byte (null_fh c) (offset + Z.of_nat k)) as Hbyte.
  { intros k Hk. unfold null_src, null_byte. rewrite byte_at_slice by lia. destruct (run_in_page 4096 offset (Z.of_nat k)) as [-> ->]; [lia..|]. f_equal. lia. }
  assert (n * element_size (data_type c) = PAGE_SIZE) as Hfull by nia. apply build_row_cells.
  - apply (null_state_ext _ n (λ k, nonzero (byte_at null_src k))); [|intros k Hk; rewrite null_at_none; by rewrite Hbyte]. destruct (existsb nonzero null_src) eqn:Eany.
    + split; [|done]. intros k Hk. cbn [fst].
      pose proof (mark_bytes_state n null_src 0 0 (all_valid (values_per_page (data_type c)), true) n (λ _, false)) as Hm.
      rewrite (proj1 (Hm ltac:(split; [apply null_state_all_valid|done])) k Hk). f_equal. cbn [orb]. unfold marks. rewrite bool_decide_eq_true_2 by lia.
      cbn [andb]. f_equal. f_equal. lia.
    + eapply null_state_ext; [apply null_state_all_valid|]. intros k Hk. cbv beta. symmetry. destruct (nonzero (byte_at null_src k)) eqn:E; [|done].
      exfalso. assert (existsb nonzero null_src = true); [|congruence]. apply existsb_exists. destruct (lookup_lt_is_Some_2 null_src k) as [x Hx].
      { unfold null_src. rewrite length_slice; lia. }
      exists x. split; [by apply list_elem_of_In, (list_elem_of_lookup_2 _ k)|]. unfold byte_at in E. by rewrite Hx in E.
  - lia.
  - intros k Hk _. pose proof (slot_of_run (fh c) (data_type c) offset n k (ok_fh room c Hc) Ho Hk ltac:(lia)) as Hs. cbv zeta in Hs.
    rewrite Hal in Hs. change (Z.to_nat 0) with 0 in Hs. rewrite Nat.mul_0_l, Nat.add_0_l in Hs. rewrite <- Hs, Hfull, <- Hpl, slice_all. done.
Qed.

(** The three primitive scans deliver the same cells. *)
Lemma vectorized_spec w zone_map offset n : (has_modifications (w_versions w) = false → zone_map = None → disk_current d c) → (0 ≤ offset)%Z →
  scan_to_array_vectorized d c w zone_map offset (Z.of_nat n) = Ok (row_cells zone_map offset n).
Proof.
  intros Hd Ho. unfold scan_to_array_vectorized. cbv zeta. destruct (negb (has_modifications (w_versions w)) && bool_decide (zone_map = None)) eqn:E1.
  { apply andb_true_iff in E1 as [E1 E2]. apply negb_true_iff in E1. apply bool_decide_eq_true in E2 as ->. apply direct_spec; [by apply Hd|done]. }
  destruct (_ && _ && _) eqn:E2.
  { apply andb_true_iff in E2 as [E2 E4]. apply andb_true_iff in E2 as [E2 E3]. apply bool_decide_eq_true in E2, E3, E4. subst zone_map.
    rewrite E2. rewrite page_spec by done. by rewrite <- E2, Nat2Z.id. }
  rewrite Nat2Z.id. destruct (vector_loop_spec c zone_map room Hc n n offset 0 ([], (all_valid (Z.of_nat n), false))) as (st & E & [Hl Hdata Hn]); [|lia..|].
  { constructor; [done|lia|]. cbn [snd]. rewrite <- (Nat2Z.id n) at 2. eapply null_state_ext; [apply null_state_all_valid|]. intros k _. by rewrite bool_decide_eq_false_2 by lia. }
  change 0%Z with (Z.of_nat 0). rewrite E. cbn [outcome_bind]. apply build_row_cells; [|lia|exact Hdata].
  eapply null_state_ext; [exact Hn|]. intros k Hk. cbv beta. by rewrite bool_decide_eq_true_2.
Qed.

End primitives.

(** ** Strings *)

(** The bytes a string slot stands for. *)
Definition raw_text (o : option pages) (data : list Z) : list Z :=
  if decide (byte_at data 0 = 255%Z) then
    match o with
    | Some f => read_span (span_fuel f) f (of_le (slice data 1 9) * 4096 + of_le (slice data 9 17)) (of_le (slice data 17 21)) []
    | None => []
    end
  else slice data 1 (1 + Z.to_nat (byte_at data 0) `min` 63).

Lemma parse_string lossy o data : length data = 64 → bytes_ok data →
  parse_value lossy TString o data = Ok (VString (to_text lossy (raw_text o data))).
Proof.
  intros Hl Hb. cbn [parse_value]. rewrite slice_get_ok by lia. cbn [outcome_bind]. rewrite byte_at_slice by lia. cbn [Nat.add]. unfold raw_text.
  case_decide as Hm.
  - destruct o as [f|]; [|done]. rewrite !slice_get_ok by lia. done.
  - pose proof (byte_at_range data 0 Hb) as Hr. unfold is_u8 in Hr. by rewrite slice_get_ok by lia.
Qed.

(** Reading a run of pages is slicing the file. *)
Lemma read_span_slice fuel f (data : list Z) pos rem out :
  pages_ok f → (0 ≤ pos)%Z → (0 ≤ rem)%Z → (0 ≤ pg_num f)%Z → length data = Z.to_nat (pg_num f) * PAGE_SIZE →
  (∀ i, i < length data → byte_at data i = byte_at (page_at f (Z.of_nat (i / PAGE_SIZE))) (i mod PAGE_SIZE)) →
  (rem = 0 ∨ pg_num f - pos / 4096 < Z.of_nat fuel)%Z →
  read_span fuel f pos rem out = out ++ slice data (Z.to_nat pos) (Z.to_nat ((pos + rem) `min` Z.of_nat (length data))).
Proof.
  intros Hf Hp Hr Hn Hl Hd. pose proof PAGE_SIZE_val as HP. revert pos rem out Hp Hr. induction fuel as [|fuel IH]; intros pos rem out Hp Hr Hfuel.
  - cbn. pose proof (Z.div_mod pos 4096 ltac:(lia)). pose proof (Z.mod_pos_bound pos 4096 ltac:(lia)).
    rewrite slice_nil; [by rewrite app_nil_r|]. destruct Hfuel as [->|Hfuel]; [lia|]. nia.
  - cbn [read_span]. case_decide as Hrem; [|rewrite slice_nil by lia; by rewrite app_nil_r].
    pose proof (Z.div_mod pos 4096 ltac:(lia)) as Epos. pose proof (Z.mod_pos_bound pos 4096 ltac:(lia)) as Hoff.
    case_decide as Hpg; [rewrite slice_nil by nia; by rewrite app_nil_r|].
    destruct (page_at_ok f (pos / 4096) Hf) as [Hpl _]. rewrite Hpl, HP.
    set (off := (pos mod 4096)%Z) in *. set (chunk := (rem `min` (4096 - off))%Z). rewrite (Z.min_l chunk) by lia. rewrite decide_False by lia.
    assert (Z.to_nat (pos + chunk) ≤ length data) as Hin by nia.
    assert (slice (page_at f (pos / 4096)) (Z.to_nat off) (Z.to_nat (off + chunk)) = slice data (Z.to_nat pos) (Z.to_nat (pos + chunk))) as ->.
    { apply bytes_ext; [rewrite !length_slice by lia; lia|]. intros j Hj. rewrite length_slice in Hj by lia. rewrite !byte_at_slice by lia.
      rewrite Hd by lia. assert (Z.to_nat pos + j = Z.to_nat off + j + Z.to_nat (pos / 4096) * PAGE_SIZE) as -> by nia.
      rewrite Nat.div_add, Nat.Div0.mod_add by lia. rewrite (Nat.div_small (Z.to_nat off + j)), (Nat.mod_small (Z.to_nat off + j)) by lia. cbn [Nat.add].
      by rewrite Z2Nat.id by lia. }
    rewrite IH; [|lia|lia|].
    + rewrite <- app_assoc. f_equal. replace (pos + chunk + (rem - chunk))%Z with (pos + rem)%Z by lia. symmetry. apply slice_split; lia.
    + destruct (decide (chunk = rem)) as [->|Hne]; [left; lia|right]. assert (chunk = 4096 - off)%Z by lia.
      assert ((pos + chunk) / 4096 = pos / 4096 + 1)%Z as ->; [|lia]. symmetry. apply (Z.div_unique _ _ _ 0); lia.
Qed.

Section strings.
Context (from_utf8_lossy : list Z → list Z).
Context (c : ColumnData) (room : nat) (Hc : column_ok room c) (Ht : data_type c = TString).

Definition string_row (zone_map : option Value) (r : Z) : option Scalar :=
  if null_at c zone_map r then None else Some (AUtf8 (raw_text (overflow_fh c) (slot (fh c) TString r))).
(** The strings of the rows are valid UTF-8. *)
Definition clean (offset : Z) (n : nat) : Prop :=
  ∀ k, k < n → nonzero (null_byte (null_fh c) (offset + Z.of_nat k)) = false →
    utf8_valid (raw_text (overflow_fh c) (slot (fh c) TString (offset + Z.of_nat k))) = true.

Lemma slot_string_ok r : length (slot (fh c) TString r) = 64 ∧ bytes_ok (slot (fh c) TString r).
Proof.
  pose proof (slot_in_page TString r) as Hin. change (element_size TString) with 64 in Hin. destruct (page_at_ok (fh c) (r / values_per_page TString) (ok_fh room c Hc)).
  unfold slot. change (element_size TString) with 64. split; [rewrite length_slice; lia|by apply bytes_ok_slice].
Qed.

Lemma string_cell_spec r : utf8_valid (raw_text (overflow_fh c) (slot (fh c) TString r)) = true →
  string_cell from_utf8_lossy c (page_at (fh c) (r / 64)) (Z.to_nat (r mod 64) * 64) = Ok (AUtf8 (raw_text (overflow_fh c) (slot (fh c) TString r))).
Proof.
  intros Hu. destruct (slot_string_ok r) as [Hl Hb]. pose proof (slot_in_page TString r) as Hin. destruct (page_at_ok (fh c) (r / 64) (ok_fh room c Hc)) as [Hpl _].
  unfold string_cell. unfold slot, slot_offset in *. change (values_per_page TString) with 64%Z in *. change (element_size TString) with 64 in *.
  set (off := Z.to_nat (r mod 64) * 64) in *. set (data := slice (page_at (fh c) (r / 64)) off (off + 64)) in *.
  assert (byte_at (page_at (fh c) (r / 64)) off = byte_at data 0) as -> by (unfold data; rewrite byte_at_slice by lia; f_equal; lia).
  case_decide as Hm.
  - rewrite slice_get_ok by lia. cbn [outcome_bind]. fold data. rewrite Ht, parse_string by done. unfold to_text. by rewrite Hu.
  - pose proof (byte_at_range data 0 Hb) as Hr. unfold is_u8 in Hr. rewrite slice_get_ok by lia. cbn [outcome_bind].
    assert (slice (page_at (fh c) (r / 64)) (off + 1) (off + 1 + Z.to_nat (byte_at data 0) `min` 63) = raw_text (overflow_fh c) data) as ->; [|by rewrite Hu].
    unfold raw_text. rewrite decide_False by done. unfold data. rewrite slice_slice by lia. f_equal; lia.
Qed.

(** The rows of one page. *)
Lemma string_rows_spec zone_map cur m i builder : (0 ≤ cur)%Z → (cur mod 64 + Z.of_nat (i + m) ≤ 64)%Z →
  zone_map_should_skip (stats c) (data_type c) (Z.to_nat (cur / 64)) zone_map = false → clean (cur + Z.of_nat i) m →
  string_rows from_utf8_lossy m i c (page_at (fh c) (cur / 64)) (page_at (null_fh c) (cur / 4096)) (Z.to_nat (cur mod 64) * 64) (Z.to_nat (cur mod 4096)) builder
  = Ok (builder ++ map (λ k, string_row zone_map (cur + Z.of_nat k)) (seq i m)).
Proof.
  intros Ho Hrun Hskip. revert i builder Hrun. induction m as [|m IH]; intros i builder Hrun Hcl; [by rewrite app_nil_r|].
  cbn [string_rows seq map]. pose proof (Z.mod_pos_bound cur 64 ltac:(lia)). pose proof (run_in_null_page TString cur (Z.of_nat (i + S m))) as Hnull.
  change (values_per_page TString) with 64%Z in Hnull. specialize (Hnull Hrun). pose proof (Z.mod_pos_bound cur 4096 ltac:(lia)).
  destruct (run_in_page 64 cur (Z.of_nat i)) as [Ed Em]; [lia..|]. destruct (run_in_page 4096 cur (Z.of_nat i)) as [Nd Nm]; [lia..|].
  assert (nonzero (byte_at (page_at (null_fh c) (cur / 4096)) (Z.to_nat (cur mod 4096) + i)) = nonzero (null_byte (null_fh c) (cur + Z.of_nat i))) as ->.
  { unfold null_byte. rewrite Nd, Nm. do 2 f_equal. lia. }
  assert (clean (cur + Z.of_nat (i + 1)) m) as Hcl'.
  { intros k Hk Hnn. replace (cur + Z.of_nat (i + 1) + Z.of_nat k)%Z with (cur + Z.of_nat i + Z.of_nat (S k))%Z in * by lia. apply Hcl; [lia|done]. }
  assert (null_at c zone_map (cur + Z.of_nat i) = nonzero (null_byte (null_fh c) (cur + Z.of_nat i))) as Hna.
  { unfold null_at. rewrite Ht in *. change (values_per_page TString) with 64%Z. by rewrite Ed, Hskip. }
  assert (string_row zone_map (cur + Z.of_nat i) :: map (λ k, string_row zone_map (cur + Z.of_nat k)) (seq (S i) m)
    = [string_row zone_map (cur + Z.of_nat i)] ++ map (λ k, string_row zone_map (cur + Z.of_nat k)) (seq (i + 1) m)) as -> by (by rewrite Nat.add_1_r).
  unfold string_row at 1. rewrite Hna. destruct (nonzero (null_byte (null_fh c) (cur + Z.of_nat i))) eqn:En; cbn [outcome_bind].
  - rewrite IH by (done || lia). by rewrite <- app_assoc.
  - pose proof (string_cell_spec (cur + Z.of_nat i)) as Hcell. rewrite Ed, Em in Hcell.
    replace (Z.to_nat (cur mod 64 + Z.of_nat i) * 64) with (Z.to_nat (cur mod 64) * 64 + i * 64) in Hcell by lia. rewrite Hcell.
    + cbn [outcome_bind]. rewrite IH by (done || lia). by rewrite <- app_assoc.
    + specialize (Hcl 0 ltac:(lia)). rewrite Z.add_0_r in Hcl. by apply Hcl.
Qed.

Lemma null_pages_keep fuel offset n read l p : p ∈ l → p ∈ null_pages_needed fuel offset n read l.
Proof.
  revert read l. induction fuel as [|fuel IH]; intros read l Hp; [done|]. cbn [null_pages_needed]. case_decide; [|done]. apply IH.
  case_decide; [done|]. apply elem_of_app. by left.
Qed.

Lemma clean_tail offset n k : clean offset n → k ≤ n → clean (offset + Z.of_nat k) (n - k).
Proof. intros H Hk j Hj Hn. replace (offset + Z.of_nat k + Z.of_nat j)%Z with (offset + Z.of_nat (k + j))%Z in * by lia. apply H; [lia|done]. Qed.

Lemma string_loop_spec fuel zone_map null_pages l offset n read builder : (0 ≤ offset)%Z → clean offset n → read ≤ n → n - read ≤ fuel →
  (∀ p, p ∈ null_pages_needed fuel offset (Z.of_nat n) (Z.of_nat read) l → p ∈ null_pages) →
  string_loop from_utf8_lossy fuel c zone_map null_pages offset (Z.of_nat n) (Z.of_nat read) builder
  = Ok (builder ++ map (λ k, string_row zone_map (offset + Z.of_nat k)) (seq read (n - read))).
Proof.
  intros Ho Hcl. revert read l builder. induction fuel as [|fuel IH]; intros read l builder Hr Hf Hin.
  { replace (n - read) with 0 by lia. by rewrite app_nil_r. }
  cbn [string_loop]. case_decide as Hlt; [|replace (n - read) with 0 by lia; by rewrite app_nil_r].
  cbn [null_pages_needed] in Hin. rewrite decide_True in Hin by done. set (cur := (offset + Z.of_nat read)%Z) in *.
  set (to_read := ((Z.of_nat n - Z.of_nat read) `min` (64 - cur mod 64))%Z) in *. pose proof (Z.mod_pos_bound cur 64 ltac:(lia)).
  set (l' := if decide (list.last l = Some (cur / 4096)%Z) then l else l ++ [(cur / 4096)%Z]) in *.
  assert ((cur / 4096)%Z ∈ l') as Hl'.
  { unfold l'. case_decide as E; [apply last_Some in E as [l0 ->]|]; apply elem_of_app; right; by apply list_elem_of_singleton. }
  rewrite decide_True by (apply Hin, null_pages_keep, Hl').
  replace (Z.of_nat read + to_read)%Z with (Z.of_nat (read + Z.to_nat to_read)) in * by lia. set (m := Z.to_nat to_read) in *.
  assert (seq read (n - read) = seq read m ++ seq (read + m) (n - (read + m))) as ->.
  { replace (n - read) with (m + (n - (read + m))) by lia. apply seq_app. }
  rewrite map_app. assert (∀ k, (offset + Z.of_nat (read + k) = cur + Z.of_nat k)%Z) as Hcur by (intros k; unfold cur; lia).
  assert (map (λ k, string_row zone_map (offset + Z.of_nat k)) (seq read m) = map (λ k, string_row zone_map (cur + Z.of_nat k)) (seq 0 m)) as ->.
  { rewrite <- (Nat.add_0_r read) at 1. rewrite <- (fmap_add_seq read 0 m), map_map. apply map_ext. intros k. by rewrite Hcur. }
  destruct (zone_map_should_skip (stats c) (data_type c) (Z.to_nat (cur / 64)) zone_map) eqn:Eskip.
  - cbn [outcome_bind]. rewrite (IH _ l') by (done || lia). rewrite <- app_assoc. do 3 f_equal.
    apply list_eq_same_length with m; [by rewrite length_map, length_seq|by rewrite length_replicate|]. intros k x y Hk Hx Hy.
    apply lookup_replicate in Hx as [-> _]. rewrite list_lookup_fmap, lookup_seq_lt in Hy by done. injection Hy as <-. cbn [Nat.add].
    unfold string_row, null_at. rewrite Ht in *. change (values_per_page TString) with 64%Z. destruct (run_in_page 64 cur (Z.of_nat k)) as [-> _]; [lia..|]. by rewrite Eskip.
  - rewrite (string_rows_spec zone_map cur m 0 builder); [|lia|lia|done|].
    + cbn [outcome_bind]. rewrite (IH _ l') by (done || lia). by rewrite <- app_assoc.
    + cbn. rewrite Z.add_0_r. intros k Hk. rewrite <- Hcur. replace (offset + Z.of_nat (read + k))%Z with (offset + Z.of_nat read + Z.of_nat k)%Z by lia.
      apply (clean_tail offset n read Hcl Hr). lia.
Qed.

(** *** From the files *)

Context (d : Disk) (Hd : disk_current d c).
Context (Hlossy : ∀ s, utf8_valid s = true → from_utf8_lossy s = s).
(** The pre-read covers the overflow file. *)
Context (Hcap : ∀ f, overflow_fh c = Some f → (0 ≤ pg_num f ≤ MAX_OVERFLOW_PAGES)%Z).

Definition overflow_data_of : list Z :=
  match disk_overflow d with
  | Some ofh =>
      let num_of_pages := (num_pages ofh `min` MAX_OVERFLOW_PAGES)%Z in
      if decide (0 < num_of_pages)%Z then read_pages ofh 0 num_of_pages else []
  | None => []
  end.

Lemma overflow_data_ok f : overflow_fh c = Some f → length overflow_data_of = Z.to_nat (pg_num f) * PAGE_SIZE ∧
  ∀ i, i < length overflow_data_of → byte_at overflow_data_of i = byte_at (page_at f (Z.of_nat (i / PAGE_SIZE))) (i mod PAGE_SIZE).
Proof.
  intros Ef. destruct Hd as (_ & _ & Ho). pose proof (Hcap f Ef). unfold overflow_data_of. rewrite Ef in Ho. destruct (disk_overflow d) as [h|]; [|done].
  destruct Ho as [-> Hcur]. cbv zeta. rewrite Z.min_l by lia. case_decide as Hn.
  - rewrite read_pages_length. split; [done|]. intros i Hi. rewrite byte_at_pages by (done || lia). rewrite Hcur by lia. by rewrite Z.add_0_l.
  - replace (Z.to_nat (pg_num f)) with 0 by lia. split; [done|]. cbn. lia.
Qed.

Lemma direct_bytes_spec data_buf slot_offset r : slot_offset + 64 ≤ length data_buf → slice data_buf slot_offset (slot_offset + 64) = slot (fh c) TString r →
  direct_bytes overflow_data_of data_buf slot_offset = raw_text (overflow_fh c) (slot (fh c) TString r).
Proof.
  intros Hl Hs. destruct (slot_string_ok r) as [Hsl Hsb].
  assert (∀ a b, b ≤ 64 → a ≤ b → slice data_buf (slot_offset + a) (slot_offset + b) = slice (slot (fh c) TString r) a b) as Hsub.
  { intros a b Hb Ha. rewrite <- Hs. by rewrite slice_slice by lia. }
  assert (byte_at data_buf slot_offset = byte_at (slot (fh c) TString r) 0) as Hm.
  { rewrite <- Hs. rewrite byte_at_slice by lia. f_equal. lia. }
  unfold direct_bytes, raw_text. rewrite Hm. case_decide as H255.
  - rewrite !Hsub by lia. set (data := slot (fh c) TString r) in *. pose proof overflow_data_ok as Hod. pose proof (ok_overflow room c Hc) as Hoo.
    destruct Hd as (_ & _ & Ho). destruct (overflow_fh c) as [f|].
    + destruct (Hod f eq_refl) as [Hol Hob]. destruct Hoo as (Hof & Hnum & _).
      pose proof (of_le_nonneg (slice data 1 9) ltac:(by apply bytes_ok_slice)). pose proof (of_le_nonneg (slice data 9 17) ltac:(by apply bytes_ok_slice)).
      pose proof (of_le_nonneg (slice data 17 21) ltac:(by apply bytes_ok_slice)). set (pos := (of_le (slice data 1 9) * 4096 + of_le (slice data 9 17))%Z).
      rewrite (read_span_slice (span_fuel f) f overflow_data_of pos (of_le (slice data 17 21)) []); [|done|unfold pos; lia|done|done|done|done|].
      * cbn [app]. case_decide as Hnil; [rewrite Hnil; unfold slice; by rewrite drop_nil, take_nil|]. case_decide; [done|]. symmetry. apply slice_nil. lia.
      * right. unfold span_fuel. assert (0 ≤ pos / 4096)%Z by (apply Z.div_pos; unfold pos; lia). lia.
    + assert (overflow_data_of = []) as ->; [|done]. unfold overflow_data_of. by destruct (disk_overflow d).
  - pose proof (byte_at_range _ 0 Hsb) as Hr. unfold is_u8 in Hr. rewrite <- Nat.add_assoc. apply Hsub; lia.
Qed.

(** The text of a row, nothing for a null. *)
Definition text (r : Z) : list Z := if nonzero (null_byte (null_fh c) r) then [] else raw_text (overflow_fh c) (slot (fh c) TString r).

Lemma direct_rows_spec offset N n i offsets values :
  (0 ≤ offset)%Z → clean offset N → i + n = N → 0 < N →
  (Z.of_nat (length (concat (map (λ k, text (offset + Z.of_nat k)) (seq 0 N)))) < 2 ^ 31)%Z →
  values = concat (map (λ k, text (offset + Z.of_nat k)) (seq 0 i)) →
  (∀ k, k ≤ i → offsets !! k = Some (Z.of_nat (length (concat (map (λ k, text (offset + Z.of_nat k)) (seq 0 k)))))) → length offsets = S i →
  ∃ offsets',
    direct_rows from_utf8_lossy n i offset (offset / 64) (offset / 4096) overflow_data_of
      (read_pages (disk_fh d) (offset / 64) ((offset + Z.of_nat N - 1) / 64 - offset / 64 + 1))
      (read_pages (disk_null d) (offset / 4096) ((offset + Z.of_nat N - 1) / 4096 - offset / 4096 + 1)) (offsets, values, Z.of_nat (length values))
    = Ok (offsets', concat (map (λ k, text (offset + Z.of_nat k)) (seq 0 N)), Z.of_nat (length (concat (map (λ k, text (offset + Z.of_nat k)) (seq 0 N))))) ∧
    ∀ k, k ≤ N → offsets' !! k = Some (Z.of_nat (length (concat (map (λ k, text (offset + Z.of_nat k)) (seq 0 k))))).
Proof.
  intros Ho Hcl HN HN0 Htot. set (tx := λ k : nat, text (offset + Z.of_nat k)) in *. destruct Hd as (Hdf & Hdn & _).
  revert i offsets values HN. induction n as [|n IH]; intros i offsets values HN Hv Hoff Hlen.
  { exists offsets. replace N with i by lia. subst values. split; [done|]. intros k Hk. by apply Hoff. }
  cbn [direct_rows]. pose proof (Z.div_mod offset 4096 ltac:(lia)) as E4. replace (offset + Z.of_nat i - offset / 4096 * 4096)%Z with (offset mod 4096 + Z.of_nat i)%Z by lia.
  pose proof (Z.mod_pos_bound offset 4096 ltac:(lia)). rewrite Z2Nat.inj_add, Nat2Z.id by lia.
  rewrite (null_of_file (disk_null d) (null_fh c) offset N i Hdn (ok_null room c Hc)) by lia.
  assert (∀ k, seq 0 (S k) = seq 0 k ++ [k]) as Hseq by (intros k; apply seq_S).
  assert (values ++ tx i = concat (map tx (seq 0 (i + 1)))) as Hvi.
  { rewrite Nat.add_1_r, Hseq, map_app, concat_app. cbn [map concat]. by rewrite app_nil_r, <- Hv. }
  assert (∀ vs, vs = values ++ tx i → ∀ k, k ≤ i + 1 → (offsets ++ [Z.of_nat (length vs)]) !! k = Some (Z.of_nat (length (concat (map tx (seq 0 k)))))) as Hnext.
  { intros vs -> k Hk. destruct (decide (k ≤ i)) as [Hki|Hki]; [rewrite lookup_app_l by lia; by apply Hoff|].
    replace k with (i + 1) by lia. rewrite lookup_app_r by lia. rewrite Hlen. replace (i + 1 - S i) with 0 by lia. cbn. by rewrite Hvi. }
  destruct (nonzero (null_byte (null_fh c) (offset + Z.of_nat i))) eqn:En.
  - assert (tx i = []) as Ei by (unfold tx, text; by rewrite En). rewrite Ei, app_nil_r in Hvi. cbn [outcome_bind].
    apply (IH (i + 1)); [lia|done|apply Hnext; by rewrite Ei, app_nil_r|rewrite length_app; cbn; lia].
  - assert (tx i = raw_text (overflow_fh c) (slot (fh c) TString (offset + Z.of_nat i))) as Ei by (unfold tx, text; by rewrite En).
    destruct (slot_of_file (disk_fh d) (fh c) TString offset N i Hdf (ok_fh room c Hc) Ho ltac:(lia)) as [Hbl Hbs].
    destruct (slot_position TString offset i Ho) as (a & Ea & Eo). change (values_per_page TString) with 64%Z in *. change (element_size TString) with 64 in *.
    rewrite Ea. replace (offset / 64 + Z.of_nat a - offset / 64)%Z with (Z.of_nat a) by lia. rewrite Nat2Z.id.
    change (a * 4096) with (a * PAGE_SIZE). rewrite <- Eo. rewrite Nat.mul_add_distr_r. rewrite (direct_bytes_spec _ _ (offset + Z.of_nat i)); [|nia|done].
    rewrite Hlossy by (apply Hcl; [lia|done]). rewrite <- Ei. unfold i32_add. rewrite decide_True.
    + cbn [outcome_bind]. rewrite <- Nat2Z.inj_add, <- length_app.
      apply (IH (i + 1)); [lia|done|by apply Hnext|rewrite length_app; cbn; lia].
    + rewrite <- Nat2Z.inj_add, <- length_app, Hvi. eapply Z.le_lt_trans; [|exact Htot]. apply inj_le.
      replace N with (i + 1 + n) by lia. rewrite (seq_app (i + 1) n 0), map_app, concat_app, length_app. lia.
Qed.

Lemma bytes_ok_reads h f p n : file_current h f → pages_ok f → (0 ≤ p)%Z → bytes_ok (read_pages h p n).
Proof.
  intros Hcur Hf Hp. apply Forall_lookup. intros i x Hx. pose proof (lookup_lt_Some _ _ _ Hx) as Hi. rewrite read_pages_length in Hi.
  pose proof (byte_at_pages h p n i Hp Hi) as E. unfold byte_at at 1 in E. rewrite Hx in E. cbn in E. rewrite E, Hcur by lia.
  apply byte_at_range. by apply (page_at_ok f).
Qed.

Lemma string_direct_spec offset n : (0 ≤ offset)%Z → 0 < n → clean offset n →
  (Z.of_nat (length (concat (map (λ k, text (offset + Z.of_nat k)) (seq 0 n)))) < 2 ^ 31)%Z →
  scan_string_direct from_utf8_lossy d offset (Z.of_nat n) = Ok (map (λ k, string_row None (offset + Z.of_nat k)) (seq 0 n)).
Proof.
  intros Ho Hn Hcl Htot. pose proof Hd as (Hdf & Hdn & _). unfold scan_string_direct, u64_sub.
  destruct (pages_cover 64 offset (Z.of_nat n) ltac:(lia) Ho ltac:(lia)) as [H64 _]. destruct (pages_cover 4096 offset (Z.of_nat n) ltac:(lia) Ho ltac:(lia)) as [H4k Hcov].
  rewrite decide_True by lia. cbn [outcome_bind]. rewrite !decide_True by lia. cbn [outcome_bind]. rewrite Nat2Z.id.
  fold overflow_data_of. destruct (direct_rows_spec offset n n 0 [0%Z] []) as (offsets & E & Hoff); try done.
  { intros k Hk. by replace k with 0 by lia. }
  cbn [length] in E. change (Z.of_nat 0) with 0%Z in E. rewrite E. cbn [outcome_bind]. f_equal. unfold string_array.
  set (null_data := read_pages (disk_null d) _ _). set (base := Z.to_nat (offset - offset / 4096 * 4096)).
  pose proof (Z.div_mod offset 4096 ltac:(lia)). pose proof (Z.mod_pos_bound offset 4096 ltac:(lia)).
  assert (base = Z.to_nat (offset mod 4096)) as Eb by (unfold base; f_equal; lia).
  assert (bytes_ok null_data) as Hb by (apply (bytes_ok_reads _ (null_fh c)); [done|apply (ok_null room c Hc)|apply Z.div_pos; lia]).
  assert (n ≤ length (drop base null_data)) as Hlen.
  { rewrite length_drop. unfold null_data. rewrite read_pages_length. pose proof PAGE_SIZE_val. rewrite Eb. nia. }
  assert (null_state (mark_nulls 64 or_nonzero (drop base null_data) n 0 (all_valid (Z.of_nat n), false)) n (λ k, nonzero (null_byte (null_fh c) (offset + Z.of_nat k)))) as Hst.
  { rewrite mark_nulls_bytes; [|apply or_test|lia|by apply Forall_drop|done].
    eapply null_state_ext; [apply mark_bytes_state; rewrite <- (Nat2Z.id n) at 2; apply null_state_all_valid|]. intros k Hk. cbv beta. cbn [orb]. unfold marks.
    rewrite bool_decide_eq_true_2 by lia. cbn [andb]. rewrite Nat.sub_0_r. f_equal. unfold byte_at at 1. rewrite lookup_drop. fold (byte_at null_data (base + k)). rewrite Eb.
    by apply (null_of_file (disk_null d) (null_fh c) offset n k Hdn (ok_null room c Hc)). }
  apply map_ext_in. intros k Hk. apply in_seq in Hk. rewrite (null_state_valid _ n _ k Hst) by lia. unfold string_row, null_at. cbn [zone_map_should_skip orb].
  unfold byte_at. rewrite !Hoff by lia. cbn [default]. unfold id. destruct (nonzero (null_byte (null_fh c) (offset + Z.of_nat k))) eqn:En; [done|]. cbn [negb]. do 2 f_equal. rewrite !Nat2Z.id.
  assert (seq 0 n = seq 0 k ++ [k] ++ seq (k + 1) (n - (k + 1))) as ->.
  { replace n with (k + (1 + (n - (k + 1)))) at 1 by lia. by rewrite seq_app, seq_app. }
  rewrite Nat.add_1_r, seq_S, !map_app, !concat_app. cbn [map concat Nat.add]. rewrite app_nil_r.
  replace (text (offset + Z.of_nat k)) with (raw_text (overflow_fh c) (slot (fh c) TString (offset + Z.of_nat k))) by (unfold text; by rewrite En).
  rewrite slice_app_r by lia. rewrite Nat.sub_diag, length_app. rewrite slice_app_l by lia.
  rewrite (Nat.add_comm (length _)), Nat.add_sub. apply slice_all.
Qed.

End strings.

(** What the direct scans need of the files: they hold what the transaction
    sees, and, for strings, the overflow file is no longer than the pre-read and
    the text of the range no longer than 32-bit offsets can address. *)
Record direct_ok (lossy : list Z → list Z) (d : Disk) (c : ColumnData) (offset : Z) (n : nat) : Prop := {
  do_current : disk_current d c;
  do_lossy : ∀ s, utf8_valid s = true → lossy s = s;
  do_pages : data_type c = TString → ∀ f, overflow_fh c = Some f → (pg_num f ≤ MAX_OVERFLOW_PAGES)%Z;
  do_total : data_type c = TString → (Z.of_nat (length (concat (map (λ k, text c (offset + Z.of_nat k)) (seq 0 n)))) < 2 ^ 31)%Z;
}.

Lemma string_vectorized_spec lossy d c room w zone_map offset n : column_ok room c → data_type c = TString → (0 ≤ offset)%Z → 0 < n → clean c offset n →
  (has_modifications (w_versions w) = false → zone_map = None → direct_ok lossy d c offset n) →
  scan_string_vectorized lossy d c w zone_map offset (Z.of_nat n) = Ok (map (λ k, string_row c zone_map (offset + Z.of_nat k)) (seq 0 n)).
Proof.
  intros Hc Ht Ho Hn Hcl Hdir. unfold scan_string_vectorized. destruct (_ && _) eqn:E1.
  { apply andb_true_iff in E1 as [E1 E2]. apply negb_true_iff in E1. apply bool_decide_eq_true in E2 as ->. destruct (Hdir E1 eq_refl) as [H1 H2 H3 H4]. specialize (H4 Ht).
    apply (string_direct_spec lossy c room Hc d H1 H2); try done. intros f Ef. split; [|by apply (H3 Ht)]. pose proof (ok_overflow room c Hc) as Hoo. rewrite Ef in Hoo. apply Hoo. }
  rewrite Nat2Z.id. change 0%Z with (Z.of_nat 0) at 2. rewrite (string_loop_spec lossy c room Hc Ht n zone_map _ [] offset n 0 []); try done; [by rewrite Nat.sub_0_r|lia|lia].
Qed.

(** ** Dates and timestamps *)

Section temporal.
Context (c : ColumnData) (room : nat) (Hc : column_ok room c) (zone_map : option Value).
Context (Ht : data_type c = TDate ∨ data_type c = TTimestamp).
Local Abbreviation t := (data_type c).
Local Abbreviation es := (element_size (data_type c)).
Local Abbreviation vpp := (values_per_page (data_type c)).

Definition temporal_cell (data : list Z) : Scalar :=
  match t with TDate => ADate32 (wrap_i32 (of_le data)) | _ => ATimestamp (u64_as_i64 (of_le data)) end.
Definition temporal_row (r : Z) : option Scalar := if null_at c zone_map r then None else Some (temporal_cell (slot (fh c) t r)).

Lemma append_temporal builder data : length data = es → append_raw_to_builder builder data t = Ok (builder ++ [Some (temporal_cell data)]).
Proof.
  intros Hl. unfold append_raw_to_builder, temporal_cell. destruct Ht as [E|E]; rewrite E in *; cbn [raw_required outcome_bind element_size] in *; rewrite decide_False by lia;
    cbn [outcome_bind]; by rewrite take_ge by lia.
Qed.
Lemma append_temporal_null builder : append_null_to_builder builder (logical_type_to_arrow_type t) = Ok (builder ++ [None]).
Proof. by destruct Ht as [E|E]; rewrite E. Qed.
Lemma append_temporal_nulls k builder : append_nulls k (logical_type_to_arrow_type t) builder = Ok (builder ++ replicate k None).
Proof.
  revert builder. induction k as [|k IH]; intros builder; [by rewrite app_nil_r|]. cbn [append_nulls]. rewrite append_temporal_null. cbn [outcome_bind].
  rewrite IH. cbn [replicate]. by rewrite <- app_assoc.
Qed.

Lemma builder_rows_spec cur block m i builder : (0 ≤ cur)%Z → (cur mod vpp + Z.of_nat (i + m) ≤ vpp)%Z → (i + m) * es ≤ length block →
  zone_map_should_skip (stats c) t (Z.to_nat (cur / vpp)) zone_map = false →
  (∀ j, j < i + m → slice block (j * es) (j * es + es) = slot (fh c) t (cur + Z.of_nat j)) →
  builder_rows m i c block (page_at (null_fh c) (cur / 4096)) (Z.to_nat (cur mod 4096)) builder
  = Ok (builder ++ map (λ k, temporal_row (cur + Z.of_nat k)) (seq i m)).
Proof.
  intros Ho Hrun Hbl Hskip Hslot. revert i builder Hrun Hbl Hslot. induction m as [|m IH]; intros i builder Hrun Hbl Hslot; [by rewrite app_nil_r|].
  cbn [builder_rows seq map]. destruct (geometry t) as (Hv & _ & He & _). pose proof (Z.mod_pos_bound cur vpp Hv).
  pose proof (run_in_null_page t cur (Z.of_nat (i + S m)) Hrun). pose proof (Z.mod_pos_bound cur 4096 ltac:(lia)).
  destruct (run_in_page vpp cur (Z.of_nat i)) as [Ed _]; [lia..|]. destruct (run_in_page 4096 cur (Z.of_nat i)) as [Nd Nm]; [lia..|].
  assert (nonzero (byte_at (page_at (null_fh c) (cur / 4096)) (Z.to_nat (cur mod 4096) + i)) = null_at c zone_map (cur + Z.of_nat i)) as ->.
  { unfold null_at. rewrite Ed, Hskip. cbn [orb]. unfold null_byte. rewrite Nd, Nm. do 2 f_equal. lia. }
  assert (∀ cell, temporal_row (cur + Z.of_nat i) = cell →
    (let* builder := Ok (builder ++ [cell]) in builder_rows m (i + 1) c block (page_at (null_fh c) (cur / 4096)) (Z.to_nat (cur mod 4096)) builder)
    = Ok (builder ++ temporal_row (cur + Z.of_nat i) :: map (λ k, temporal_row (cur + Z.of_nat k)) (seq (S i) m))) as Hstep.
  { intros cell <-. cbn [outcome_bind]. rewrite IH; [|lia|lia|intros j Hj; apply Hslot; lia]. rewrite <- app_assoc, Nat.add_1_r. done. }
  destruct (null_at c zone_map (cur + Z.of_nat i)) eqn:En.
  - rewrite append_temporal_null. apply Hstep. unfold temporal_row. by rewrite En.
  - assert (i * es + es ≤ length block) by nia. rewrite slice_get_ok by lia. cbn [outcome_bind]. rewrite append_temporal by (rewrite length_slice; lia). apply Hstep.
    unfold temporal_row. rewrite En. by rewrite Hslot by lia.
Qed.

Lemma builder_loop_spec fuel meta offset n read temp builder : (0 ≤ offset)%Z → read ≤ n → n - read ≤ fuel → length temp = 32 * es →
  builder_loop fuel c Uncompressed meta zone_map offset (Z.of_nat n) (Z.of_nat read) temp builder
  = Ok (builder ++ map (λ k, temporal_row (offset + Z.of_nat k)) (seq read (n - read))).
Proof.
  intros Ho. revert read temp builder. induction fuel as [|fuel IH]; intros read temp builder Hr Hf Htl.
  { replace (n - read) with 0 by lia. by rewrite app_nil_r. }
  cbn [builder_loop]. case_decide as Hlt; [|replace (n - read) with 0 by lia; by rewrite app_nil_r].
  rewrite decide_True by done. destruct (geometry t) as (Hv & Hps & He & ->). set (cur := (offset + Z.of_nat read)%Z) in *.
  pose proof (Z.mod_pos_bound cur vpp Hv). set (to_read := ((Z.of_nat n - Z.of_nat read) `min` 32 `min` (vpp - cur mod vpp))%Z) in *.
  replace (Z.of_nat read + to_read)%Z with (Z.of_nat (read + Z.to_nat to_read)) in * by lia. set (m := Z.to_nat to_read) in *.
  assert (seq read (n - read) = seq read m ++ seq (read + m) (n - (read + m))) as ->.
  { replace (n - read) with (m + (n - (read + m))) by lia. apply seq_app. }
  rewrite map_app. assert (∀ k, (offset + Z.of_nat (read + k) = cur + Z.of_nat k)%Z) as Hcur by (intros k; unfold cur; lia).
  assert (map (λ k, temporal_row (offset + Z.of_nat k)) (seq read m) = map (λ k, temporal_row (cur + Z.of_nat k)) (seq 0 m)) as ->.
  { rewrite <- (Nat.add_0_r read) at 1. rewrite <- (fmap_add_seq read 0 m), map_map. apply map_ext. intros k. by rewrite Hcur. }
  destruct (zone_map_should_skip (stats c) t (Z.to_nat (cur / vpp)) zone_map) eqn:Eskip.
  - rewrite append_temporal_nulls. cbn [outcome_bind]. rewrite IH by (done || lia). rewrite <- app_assoc. do 3 f_equal.
    apply list_eq_same_length with m; [by rewrite length_map, length_seq|by rewrite length_replicate|]. intros k x y Hk Hx Hy.
    apply lookup_replicate in Hx as [-> _]. rewrite list_lookup_fmap, lookup_seq_lt in Hy by done. injection Hy as <-. cbn [Nat.add].
    unfold temporal_row, null_at. destruct (run_in_page vpp cur (Z.of_nat k)) as [-> _]; [lia..|]. by rewrite Eskip.
  - destruct (page_at_ok (fh c) (cur / vpp) (ok_fh room c Hc)) as [Hpl _]. pose proof (run_bytes t cur m ltac:(lia)) as Hin. assert (m * es ≤ 32 * es) as Hm32 by nia.
    cbn [get_alg decompress_from_page dyn_alg uncompressed_alg]. unfold uncompressed_decompress. cbn [uc_element_size]. cbv zeta.
    rewrite !decide_False by lia. rewrite slice_get_ok by lia. cbn [outcome_bind]. set (part := slice (page_at (fh c) (cur / vpp)) _ _).
    assert (length part = m * es) as Hpart by (unfold part; rewrite length_slice; lia). rewrite write_at_ok by lia. cbn [outcome_bind].
    rewrite (builder_rows_spec cur _ m 0 builder); [|lia|lia|rewrite length_splice; lia|done|].
    + cbn [outcome_bind]. rewrite IH; [by rewrite <- app_assoc|lia|lia|rewrite length_splice; lia].
    + intros j Hj. assert (j * es + es ≤ m * es) by nia. unfold splice. rewrite take_0. cbn [app Nat.mul]. rewrite slice_app_l by lia.
      apply (slot_of_run (fh c) t cur m j); [apply (ok_fh room c Hc)|lia|lia|lia].
Qed.

End temporal.

(** ** Scans and reads agree *)

Definition scannable (t : LogicalType) : bool :=
  match logical_type_to_arrow_type t with DList _ | DStruct _ | DNull => false | _ => true end.

Lemma scannable_scalar t : scannable t = true → scalar t = true.
Proof. by destruct t. Qed.

Lemma primitive_value lossy t o data v : primitive t = true → length data = element_size t → parse_value lossy t o data = Ok v →
  from_arrow (Some (slot_scalar t data)) = v.
Proof.
  intros Hp Hl. unfold primitive in Hp. unfold slot_scalar. destruct t; try discriminate; cbn [logical_type_to_arrow_type element_size parse_value] in *;
    rewrite slice_get_ok by lia; cbn [outcome_bind]; rewrite <- Hl, slice_all; by intros [= <-].
Qed.

Lemma temporal_value lossy c o data v : data_type c = TDate ∨ data_type c = TTimestamp → length data = element_size (data_type c) →
  parse_value lossy (data_type c) o data = Ok v → from_arrow (Some (temporal_cell c data)) = v.
Proof.
  unfold temporal_cell. intros [E|E]; rewrite E; cbn [element_size parse_value]; intros Hl; rewrite slice_get_ok by lia; cbn [outcome_bind]; rewrite <- Hl, slice_all;
    by intros [= <-].
Qed.

Lemma flush_pending_clears c w : pending_nulls (fst (flush_pending_nulls c w)) !! w_tx_id w = None.
Proof. unfold flush_pending_nulls. case_decide; cbn; by rewrite lookup_delete_eq. Qed.

Lemma slot_ok room c r : column_ok room c → length (slot (fh c) (data_type c) r) = element_size (data_type c) ∧ bytes_ok (slot (fh c) (data_type c) r).
Proof.
  intros Hc. pose proof (slot_in_page (data_type c) r). destruct (page_at_ok (fh c) (r / values_per_page (data_type c)) (ok_fh room c Hc)).
  unfold slot. split; [rewrite length_slice; lia|by apply bytes_ok_slice].
Qed.

(** What the cells of a scan say, whatever the path. *)
Definition scan_row (c : ColumnData) (zone_map : option Value) (r : Z) : option Scalar :=
  match data_type c with
  | TString => string_row c zone_map r
  | TDate | TTimestamp => temporal_row c zone_map r
  | _ => row_cell c zone_map r
  end.

Lemma scannable_cases c : scannable (data_type c) = true →
  data_type c = TString ∨ (data_type c = TDate ∨ data_type c = TTimestamp) ∨
  (primitive (data_type c) = true ∧ ∀ zone_map r, scan_row c zone_map r = row_cell c zone_map r).
Proof. unfold scan_row. destruct (data_type c); try discriminate; eauto. Qed.

Lemma scan_row_temporal c zone_map r : data_type c = TDate ∨ data_type c = TTimestamp → scan_row c zone_map r = temporal_row c zone_map r.
Proof. unfold scan_row. by intros [->| ->]. Qed.

Lemma parse_total lossy t o data : scannable t = true → length data = element_size t → bytes_ok data → ∃ v, parse_value lossy t o data = Ok v.
Proof.
  intros Hs Hl Hb. destruct t; try discriminate; cbn [element_size parse_value] in *; try (rewrite slice_get_ok by lia; cbn [outcome_bind]; by eauto).
  eexists. by apply (parse_string lossy o data).
Qed.

Lemma scan_row_value lossy room c zone_map tx r v : column_ok room c → scannable (data_type c) = true → pending_nulls c !! tx = None →
  (data_type c = TString → nonzero (null_byte (null_fh c) r) = false → utf8_valid (raw_text (overflow_fh c) (slot (fh c) TString r)) = true) →
  holds lossy c tx r v →
  from_arrow (scan_row c zone_map r) =
    if zone_map_should_skip (stats c) (data_type c) (Z.to_nat (r / values_per_page (data_type c))) zone_map then VNull else v.
Proof.
  intros Hc Hs Hp Hu Hh. destruct (slot_ok room c r Hc) as [Hsl Hsb].
  assert (is_null c tx r = nonzero (null_byte (null_fh c) r)) as Hn by (rewrite is_null_spec, Hp; done).
  assert (from_arrow (scan_row c zone_map r) =
    if null_at c zone_map r then VNull else match parse_value lossy (data_type c) (overflow_fh c) (slot (fh c) (data_type c) r) with Ok v => v | _ => VNull end) as ->.
  { destruct (scannable_cases c Hs) as [Et|[Et|[Ep Et]]].
    - unfold scan_row, string_row. rewrite Et in *. destruct (null_at c zone_map r) eqn:En; [done|]. rewrite parse_string by done.
      unfold to_text. rewrite Hu; [done|done|]. by apply orb_false_iff in En as [_ En].
    - rewrite (scan_row_temporal c zone_map r Et). unfold temporal_row. destruct (null_at c zone_map r); [done|].
      destruct (parse_total lossy (data_type c) (overflow_fh c) _ Hs Hsl Hsb) as [v' Hv]. rewrite Hv. by apply (temporal_value lossy c (overflow_fh c)).
    - rewrite Et. unfold row_cell. destruct (null_at c zone_map r); [done|].
      destruct (parse_total lossy (data_type c) (overflow_fh c) _ Hs Hsl Hsb) as [v' Hv]. rewrite Hv. by apply (primitive_value lossy _ (overflow_fh c)). }
  unfold null_at. rewrite <- Hn. destruct (zone_map_should_skip _ _ _ _); [done|]. cbn [orb]. destruct (is_null_value v) eqn:Ev.
  - destruct v; try done. cbn in Hh. by rewrite Hh.
  - apply holds_value in Hh as [Hh Hr]; [|done]. rewrite Hh. by rewrite (Hr (overflow_fh c)).
Qed.

Lemma column_scan_spec lossy d c w zone_map offset n room : column_ok room c → scannable (data_type c) = true → (0 ≤ offset)%Z → 0 < n →
  (data_type c = TString → clean c offset n) → (has_modifications (w_versions w) = false → zone_map = None → direct_ok lossy d c offset n) →
  (let target_type := logical_type_to_arrow_type (data_type c) in
   if bool_decide (compression_of (stats c) = Uncompressed) && can_vectorize target_type then
     match target_type with
     | DUtf8 => scan_string_vectorized lossy d c w zone_map offset (Z.of_nat n)
     | _ => scan_to_array_vectorized d c w zone_map offset (Z.of_nat n)
     end
   else builder_loop n c (compression_of (stats c)) (default default_meta (compression_meta (stats c))) zone_map offset (Z.of_nat n) 0
          (replicate (32 * element_size (data_type c)) 0%Z) [])
  = Ok (map (λ k, scan_row c zone_map (offset + Z.of_nat k)) (seq 0 n)).
Proof.
  intros Hc Hs Ho Hn Hcl Hdir. assert (compression_of (stats c) = Uncompressed) as -> by (unfold compression_of; by rewrite (ok_meta room c Hc)).
  rewrite bool_decide_eq_true_2 by done. cbn [andb]. cbv zeta. destruct (scannable_cases c Hs) as [Et|[Et|[Ep Et]]].
  - rewrite Et. cbn [logical_type_to_arrow_type can_vectorize]. rewrite (string_vectorized_spec lossy d c room) by auto. unfold scan_row. by rewrite Et.
  - assert (can_vectorize (logical_type_to_arrow_type (data_type c)) = false) as -> by (by destruct Et as [-> | ->]).
    change 0%Z with (Z.of_nat 0) at 1. rewrite (builder_loop_spec c room Hc zone_map Et) by (try rewrite length_replicate; lia). rewrite Nat.sub_0_r. f_equal.
    apply map_ext. intros k. by rewrite scan_row_temporal.
  - assert (can_vectorize (logical_type_to_arrow_type (data_type c)) = true ∧ logical_type_to_arrow_type (data_type c) ≠ DUtf8) as [-> Hne].
    { unfold primitive in Ep. by destruct (logical_type_to_arrow_type (data_type c)). }
    assert (scan_to_array_vectorized d c w zone_map offset (Z.of_nat n) = Ok (map (λ k, scan_row c zone_map (offset + Z.of_nat k)) (seq 0 n))) as Hv.
    { rewrite (vectorized_spec d c room Hc Ep w zone_map offset n); [|intros H H'; by apply (Hdir H H')|done]. f_equal. apply map_ext. intros k. by rewrite Et. }
    by destruct (logical_type_to_arrow_type (data_type c)).
Qed.

(** C7. The scan of an uncompressed column reads what [get_value] reads
    (storage/column.rs, scan_to_array).  Let the column be uncompressed and of a
    scalar type with an Arrow type of its own, and hold the values [v] in the
    rows of a non-empty range.  Then the array has one cell per row, null exactly
    for the nulls and the rows of pages that the zone map rules out, and
    otherwise the row's value, whether it was copied from a page, packed page by
    page or built value by value; the strings of the range must be valid UTF-8.
    The direct paths, taken when the table has no row versions and no zone map is
    given, bypass the buffer pool: there the files must hold the pages the
    transaction sees ([disk_current]), and a string column may have at most 1024
    overflow pages (beyond, [direct_scan_drops_string]) and less than 2^31 bytes
    of text in the range. *)
Theorem scan_reads_rows (lossy : list Z → list Z) (d : Disk) (c : ColumnData) (cs : list Column) (w : WriteTx) (zone_map : option Value)
    (offset : Z) (n room : nat) (v : nat → Value) :
  column_ok room c → scannable (data_type c) = true → (0 ≤ offset)%Z → 0 < n →
  (∀ k, k < n → holds lossy c (w_tx_id w) (offset + Z.of_nat k) (v k)) →
  (data_type c = TString → clean (fst (flush_pending_nulls c w)) offset n) →
  (has_modifications (w_versions w) = false → zone_map = None → direct_ok lossy d (fst (flush_pending_nulls c w)) offset n) →
  ∃ arr, scan_to_array lossy d c w zone_map offset (Z.of_nat n) = (flush_pending_nulls c w, Ok arr) ∧ length arr = n ∧
    ∀ k, k < n → get_value lossy (mkColumn c cs) (w_tx_id w) (offset + Z.of_nat k) = Ok (v k) ∧
      from_arrow <$> arr !! k = Some
        (if zone_map_should_skip (stats c) (data_type c) (Z.to_nat ((offset + Z.of_nat k) / values_per_page (data_type c))) zone_map then VNull else v k).
Proof.
  intros Hc Hs Ho Hn Hv Hcl Hdir. pose proof (flush_pending_spec room c w Hc) as Hf. pose proof (flush_pending_clears c w) as Hp. unfold scan_to_array.
  destruct (flush_pending_nulls c w) as [c' w']. cbn [fst] in Hcl, Hdir, Hp. destruct Hf as (Hc' & (Sf & So & Ss & St & _) & (_ & _ & Tv) & Hnull).
  assert (∀ k, k < n → holds lossy c' (w_tx_id w) (offset + Z.of_nat k) (v k)) as Hv'.
  { intros k Hk. apply (holds_frame lossy c c'); [done|by rewrite So|apply Hnull; lia|by rewrite Sf|by apply Hv]. }
  exists (map (λ k, scan_row c' zone_map (offset + Z.of_nat k)) (seq 0 n)). split; [|split; [by rewrite length_map, length_seq|]].
  - pose proof (column_scan_spec lossy d c' w' zone_map offset n room Hc' ltac:(by rewrite St) Ho Hn) as E. rewrite Tv, St in E.
    specialize (E Hcl Hdir). cbv zeta in E |- *. unfold compression_of in *. rewrite Nat2Z.id, St, (ok_meta room c' Hc') in *. by rewrite E.
  - intros k Hk. split; [apply (holds_get lossy c cs _ _ (v k) room); [done|by apply scannable_scalar|by apply Hv]|].
    pose proof (list_lookup_fmap (λ k, scan_row c' zone_map (offset + Z.of_nat k)) (seq 0 n) k) as E. rewrite lookup_seq_lt in E by done.
    etransitivity; [exact (f_equal (fmap from_arrow) E)|]. cbn. f_equal. rewrite <- St, <- Ss. apply (scan_row_value lossy room c' zone_map (w_tx_id w)); try done.
    + congruence.
    + intros Et. apply (Hcl ltac:(congruence) k Hk).
    + by apply Hv'.
Qed.

(** The direct string scan loses long strings: it reads at most the first
    1024 overflow pages, and a string whose overflow page is beyond them reads
    as the empty string, whatever the file holds (storage/column.rs,
    scan_string_direct). *)
Theorem direct_scan_drops_string (d : Disk) (h : FileHandle) (data_buf : list Z) (slot_offset : nat) :
  disk_overflow d = Some h → byte_at data_buf slot_offset = 255%Z → bytes_ok data_buf →
  (MAX_OVERFLOW_PAGES ≤ of_le (slice data_buf (slot_offset + 1) (slot_offset + 9)))%Z →
  direct_bytes (overflow_data_of d) data_buf slot_offset = [].
Proof.
  intros Hh Hm Hb Hp. unfold direct_bytes. rewrite decide_True by done. case_decide as Hnil; [done|].
  pose proof (of_le_nonneg (slice data_buf (slot_offset + 9) (slot_offset + 17)) ltac:(by apply bytes_ok_slice)).
  rewrite decide_False; [done|]. intros Hlt. assert (Z.of_nat (length (overflow_data_of d)) ≤ MAX_OVERFLOW_PAGES * 4096)%Z; [|lia].
  unfold overflow_data_of. rewrite Hh. cbv zeta. unfold MAX_OVERFLOW_PAGES. case_decide; [|cbn; lia]. rewrite read_pages_length, Nat2Z.inj_mul, PAGE_SIZE_val. lia.
Qed.

(** [scan_with_filter] does not stop at the end of a page: a read that starts
    less than 32 values before it fails. *)
Lemma filter_scan_fails_at_page_end c offset n predicate room : column_ok room c → (0 ≤ offset)%Z → (0 < n)%Z →
  (values_per_page (data_type c) < offset mod values_per_page (data_type c) + n `min` 32)%Z →
  scan_with_filter c offset n predicate = Err Internal.
Proof.
  intros Hc Ho Hn Hcross. unfold scan_with_filter, compression_of. rewrite (ok_meta room c Hc). destruct (Z.to_nat n) as [|fuel] eqn:En; [lia|].
  cbn [filter_loop]. rewrite decide_True by done. rewrite decide_True by done. destruct (geometry (data_type c)) as (Hv & Hp & He & ->). rewrite Z.add_0_r, Z.sub_0_r.
  pose proof (Z.mod_pos_bound offset (values_per_page (data_type c)) Hv). destruct (page_at_ok (fh c) (offset / values_per_page (data_type c)) (ok_fh room c Hc)) as [Hl _].
  cbn [get_alg decompress_from_page dyn_alg uncompressed_alg]. unfold uncompressed_decompress. cbn [uc_element_size]. cbv zeta. rewrite decide_True; [done|].
  rewrite Hl, <- Nat.mul_add_distr_r. set (a := Z.to_nat (offset mod values_per_page (data_type c)) + Z.to_nat (n `min` 32)).
  assert (values_per_page (data_type c) < Z.of_nat a)%Z by lia. pose proof PAGE_SIZE_val. nia.
Qed.

(** ** Witnesses *)

(** A column of integers with 5 in row 0 and a null in row 1, as its writer sees
    it. *)
Definition demo_scan_writes : list (Z * Value) := [(0%Z, VNumber (u64_as_f64 5)); (1%Z, VNull)].
Definition demo_scan : ColumnData * WriteTx :=
  match append_writes demo_debug demo_scan_writes (mkColumn (demo_column TInt64 None) []) demo_tx with ((c, w), _) => (col c, w) end.

Lemma demo_scan_ok : column_ok 0 (fst demo_scan).
Proof.
  destruct (append_writes_spec demo_debug demo_lossy demo_scan_writes 0 (demo_column TInt64 None) [] demo_tx ∅) as (c' & w' & E & Hok & _).
  - by apply empty_column_ok.
  - reflexivity.
  - by_compute.
  - intros r v H. by rewrite lookup_empty in H.
  - apply write_test_sound. vm_compute. reflexivity.
  - unfold demo_scan. by rewrite E.
Qed.

(** A file that holds the first [n] pages. *)
Definition file_of (f : pages) (n : nat) : FileHandle :=
  mkHandle 0 (concat (map (λ i, page_at f (Z.of_nat i)) (seq 0 n))) (pg_num f) [] None.

Lemma concat_page (g : nat → list Z) n a p : (∀ i, length (g i) = PAGE_SIZE) →
  take PAGE_SIZE (drop (p * PAGE_SIZE) (concat (map g (seq a n)))) = if decide (p < n) then g (a + p) else [].
Proof.
  intros Hg. revert a p. induction n as [|n IH]; intros a p; [rewrite decide_False by lia; cbn [seq map concat]; by rewrite drop_nil, take_nil|]. cbn [seq map concat].
  destruct p as [|p].
  - rewrite decide_True, Nat.add_0_r by lia. cbn [Nat.mul drop]. rewrite <- (Hg a). apply take_app_length.
  - cbn [Nat.mul]. rewrite drop_app_ge by (rewrite Hg; lia). rewrite Hg. replace (PAGE_SIZE + p * PAGE_SIZE - PAGE_SIZE) with (p * PAGE_SIZE) by lia.
    rewrite IH. repeat case_decide; try lia; [|done]. f_equal. lia.
Qed.

Definition within (n : nat) (f : pages) : bool := forallb (λ e : Z * list Z, (0 <=? e.1)%Z && (e.1 <? Z.of_nat n)%Z) (map_to_list (pg_data f)).

Lemma file_of_current f n : pages_ok f → within n f = true → file_current (file_of f n) f.
Proof.
  intros Hf Hw p Hp. assert (∀ p, is_Some (pg_data f !! p) → (0 ≤ p < Z.of_nat n)%Z) as Hn.
  { intros q [x Hx%elem_of_map_to_list%list_elem_of_In]. unfold within in Hw. rewrite forallb_forall in Hw. specialize (Hw _ Hx). cbn in Hw. lia. } unfold read_page, read_pages. cbn [contents file_of]. unfold page_offset. change (Z.to_nat 1 * PAGE_SIZE) with (1 * PAGE_SIZE). rewrite Nat.mul_1_l.
  rewrite (concat_page (λ i, page_at f (Z.of_nat i))) by (intros i; by apply page_at_ok).
  case_decide as Hlt.
  - rewrite (proj1 (page_at_ok f _ Hf)), Nat.sub_diag. cbn [replicate]. rewrite app_nil_r. f_equal. lia.
  - unfold page_at. destruct (pg_data f !! p) as [d|] eqn:E; [specialize (Hn p ltac:(by eexists)); lia|].
    cbn [length app default]. by rewrite Nat.sub_0_r.
Qed.

(** A string column with a string of 64 bytes in row 0 and one of 5000 in row 1,
    both in the overflow file, when its pages have been written out and the row
    versions reclaimed. *)
Definition demo_strings : ColumnData :=
  match append_writes demo_debug demo_writes (mkColumn (demo_column TString (Some empty_file)) []) demo_tx with ((c, _), _) => col c end.
Definition demo_disk_of (c : ColumnData) : Disk :=
  mkDisk (file_of (fh c) 4) (file_of (null_fh c) 4) (match overflow_fh c with Some f => Some (file_of f 8) | None => None end).
Definition demo_text (k : nat) : Value := VString (if decide (k = 0) then replicate 64 98%Z else replicate 5000 97%Z).

Lemma demo_strings_ok : column_ok 1 demo_strings.
Proof.
  destruct (append_writes_spec demo_debug demo_lossy demo_writes 1 (demo_column TString (Some empty_file)) [] demo_tx ∅) as (c' & w' & E & Hok & _).
  - apply empty_column_ok, empty_overflow_ok. by_compute.
  - reflexivity.
  - by_compute.
  - intros r v H. by rewrite lookup_empty in H.
  - apply write_test_sound. vm_compute. reflexivity.
  - unfold demo_strings. by rewrite E.
Qed.

Lemma demo_strings_current : disk_current (demo_disk_of (fst (flush_pending_nulls demo_strings demo_tx))) (fst (flush_pending_nulls demo_strings demo_tx)).
Proof.
  pose proof (flush_pending_spec 1 demo_strings demo_tx demo_strings_ok) as Hf. set (c := fst (flush_pending_nulls demo_strings demo_tx)).
  assert (column_ok 1 c) as Hc by (unfold c; destruct (flush_pending_nulls demo_strings demo_tx); by destruct Hf).
  pose proof (ok_overflow 1 c Hc) as Ho. assert (within 4 (fh c) && within 4 (null_fh c) && match overflow_fh c with Some f => within 8 f | None => true end = true) as Hw by (vm_compute; reflexivity).
  clearbody c. apply andb_true_iff in Hw as [[H1 H2]%andb_true_iff H3]. unfold disk_current, demo_disk_of. cbn [disk_fh disk_null disk_overflow].
  split; [|split]; [apply file_of_current; [apply Hc|done]..|]. destruct (overflow_fh c) as [f|]; [|done]. split; [done|]. apply file_of_current; [apply Ho|done].
Qed.

Definition lossless (l : list Z) : list Z := l.
Lemma demo_strings_holds : holds lossless demo_strings 7 0 (demo_text 0) ∧ holds lossless demo_strings 7 1 (demo_text 1).
Proof.
  destruct (append_writes_spec demo_debug lossless demo_writes 1 (demo_column TString (Some empty_file)) [] demo_tx ∅) as (c' & w' & E & _ & _ & _ & _ & _ & _ & _ & Hr).
  - apply empty_column_ok, empty_overflow_ok. by_compute.
  - reflexivity.
  - by_compute.
  - intros r v H. by rewrite lookup_empty in H.
  - apply write_test_sound. vm_compute. reflexivity.
  - unfold demo_strings. rewrite E. cbn [col]. split; apply Hr; by vm_compute.
Qed.

Lemma demo_strings_clean : clean (fst (flush_pending_nulls demo_strings demo_tx)) 0 2.
Proof. intros k Hk _. destruct k as [|[|k]]; [by vm_compute..|lia]. Qed.

(** The integers through the pages, as their writer sees them, and the strings
    from the files, by a transaction of a table without row versions. *)
Lemma scan_reads_rows_witness :
  (∃ arr, scan_to_array demo_lossy (mkDisk (open [] []) (open [] []) None) (fst demo_scan) (snd demo_scan) None 0 (Z.of_nat 2)
      = (flush_pending_nulls (fst demo_scan) (snd demo_scan), Ok arr) ∧ length arr = 2 ∧
    ∀ k, k < 2 → get_value demo_lossy (mkColumn (fst demo_scan) []) (w_tx_id (snd demo_scan)) (0 + Z.of_nat k)
        = Ok (if decide (k = 0) then VNumber (u64_as_f64 5) else VNull) ∧
      from_arrow <$> arr !! k = Some (if zone_map_should_skip (stats (fst demo_scan)) (data_type (fst demo_scan))
        (Z.to_nat ((0 + Z.of_nat k) / values_per_page (data_type (fst demo_scan)))) None then VNull else if decide (k = 0) then VNumber (u64_as_f64 5) else VNull)) ∧
  (∃ arr, scan_to_array lossless (demo_disk_of (fst (flush_pending_nulls demo_strings demo_tx))) demo_strings demo_tx None 0 (Z.of_nat 2)
      = (flush_pending_nulls demo_strings demo_tx, Ok arr) ∧ length arr = 2 ∧
    ∀ k, k < 2 → get_value lossless (mkColumn demo_strings []) (w_tx_id demo_tx) (0 + Z.of_nat k) = Ok (demo_text k) ∧
      from_arrow <$> arr !! k = Some (if zone_map_should_skip (stats demo_strings) (data_type demo_strings)
        (Z.to_nat ((0 + Z.of_nat k) / values_per_page (data_type demo_strings))) None then VNull else demo_text k)).
Proof.
  split.
  - apply (scan_reads_rows demo_lossy (mkDisk (open [] []) (open [] []) None) (fst demo_scan) [] (snd demo_scan) None 0 2 0
             (λ k, if decide (k = 0) then VNumber (u64_as_f64 5) else VNull)).
    + apply demo_scan_ok.
    + vm_compute. reflexivity.
    + lia.
    + lia.
    + intros k Hk. destruct k as [|[|k]]; [split; [vm_compute; reflexivity|intros o _; vm_compute; reflexivity]|vm_compute; reflexivity|lia].
    + intros H. vm_compute in H. discriminate.
    + intros H. vm_compute in H. discriminate.
  - apply (scan_reads_rows lossless (demo_disk_of (fst (flush_pending_nulls demo_strings demo_tx))) demo_strings [] demo_tx None 0 2 1 demo_text).
    + apply demo_strings_ok.
    + vm_compute. reflexivity.
    + lia.
    + lia.
    + intros k Hk. pose proof demo_strings_holds as H. destruct k as [|[|k]]; [apply H..|lia].
    + intros _. apply demo_strings_clean.
    + intros _ _. constructor.
      * apply demo_strings_current.
      * done.
      * intros _ f E. vm_compute in E. injection E as <-. vm_compute. discriminate.
      * intros _. vm_compute. reflexivity.
Defined.

(** A slot that points to overflow page 1500 of 2000. *)
Lemma direct_scan_drops_string_witness :
  direct_bytes (overflow_data_of (mkDisk (open [] []) (open [] []) (Some (mkHandle 0 [] 2000 [] None)))) (255%Z :: to_le 8 1500 ++ replicate 55 0%Z) 0 = [].
Proof.
  apply (direct_scan_drops_string (mkDisk (open [] []) (open [] []) (Some (mkHandle 0 [] 2000 [] None))) (mkHandle 0 [] 2000 [] None)).
  - reflexivity.
  - reflexivity.
  - vm_compute. repeat constructor; discriminate.
  - vm_compute. discriminate.
Defined.
