(* ===== verification/Analyzer.v ===== *)
(** * Choosing a codec (storage/compression/analyzer.rs)

    A sample of a column's values decides its codec: constant, run-length,
    dictionary (by an estimate of the number of distinct values), frame of
    reference or bit packing for integers, ALP for doubles.  The hash function
    of the standard library and the natural logarithm are parameters.  The
    codec chosen for unsigned integers is admissible for every block of the
    sample. *)
From stdpp Require Import base list gmap numbers.
From Stdlib Require Import ZArith Lia Bool SpecFloat.
From S2P Require Import Prelude Bitpacking Codec Codecs Alp RowVersion TxnManager PageFile HashIndex Stats Column.
Open Scope nat_scope.

(** ** Doubles *)

Definition f64_add (a b : f64) : f64 := SFadd 53 1024 a b.
Definition f64_decimal (n d : Z) : f64 := Alp.f64_div (f64_of_int n) (f64_of_int d).
(** [2.0f64.powi(-r)] *)
Definition pow2_neg (r : Z) : f64 := binary_normalize 53 1024 1 (- r) false.
(** [x as usize] *)
Definition as_usize (x : f64) : Z :=
  match x with
  | S754_finite false m e => Z.min u64_MAX (if decide (0 ≤ e)%Z then (Zpos m * 2 ^ e)%Z else (Zpos m / 2 ^ (- e))%Z)
  | S754_infinity false => u64_MAX
  | _ => 0%Z
  end.

(** ** The cardinality estimator *)

Record Hll := mkHll { registers : list Z }.
Definition hll_new : Hll := mkHll (replicate 256 0%Z).

(** [u64::trailing_zeros] *)
Fixpoint trailing_zeros_pos (p : positive) : Z :=
  match p with xO p => (1 + trailing_zeros_pos p)%Z | _ => 0%Z end.
Definition trailing_zeros (n : Z) : Z := match n with Zpos p => trailing_zeros_pos p | _ => 64%Z end.
(** [64 - range.leading_zeros()] *)
Definition calculate_bit_width (range : Z) : nat := if decide (range = 0)%Z then 0 else Z.to_nat (Z.log2 range + 1).

Section analyzer.
(** [format!("{v:?}")], [DefaultHasher], [f64::ln]. *)
Context (debug : Value → list Z) (hash : Value → Z) (ln : f64 → f64).

Definition hll_insert (h : Hll) (val : Value) : Hll :=
  let x := hash val in
  let idx := Z.to_nat (Z.land x 255) in
  let payload := Z.shiftr x 8 in
  let zeros := (trailing_zeros payload + 1)%Z in
  if decide (byte_at (registers h) idx < zeros)%Z then mkHll (<[idx := zeros]> (registers h)) else h.

Definition hll_estimate (h : Hll) : Z :=
  let m := f64_of_int 256 in
  let sum := foldl (λ s r, f64_add s (pow2_neg r)) (f64_of_int 0) (registers h) in
  if SFeqb sum (f64_of_int 0) then 0%Z
  else
    let alpha := Alp.f64_div (f64_decimal 7213 10000) (f64_add (f64_of_int 1) (Alp.f64_div (f64_decimal 1079 1000) m)) in
    let est := Alp.f64_div (f64_mul (f64_mul alpha m) m) sum in
    let zeros := length (filter (λ r, r = 0%Z) (registers h)) in
    if SFltb est (f64_mul (f64_decimal 25 10) m) && bool_decide (0 < zeros)
    then as_usize (f64_round (f64_mul (SFopp m) (ln (Alp.f64_div (f64_of_int (Z.of_nat zeros)) m))))
    else as_usize (f64_round est).

Definition distinct_estimate (values : list Value) : Z := hll_estimate (foldl hll_insert hll_new values).

(** ** The analyses *)

Definition no_meta : CompressionMetadata := mkMeta VNull VNull Uncompressed 0.

(** The loop over the values: minimum, maximum, all equal to the first, how many
    equal their predecessor. *)
Record Scan := mkScan { sc_min : Value; sc_max : Value; sc_all_same : bool; sc_count_same : nat; sc_prev : Value }.
Definition scan_step (first : Value) (skip_minmax : bool) (s : Scan) (val : Value) : Scan :=
  mkScan (if negb skip_minmax && value_lt debug val (sc_min s) then val else sc_min s)
         (if negb skip_minmax && value_gt debug val (sc_max s) then val else sc_max s)
         (if negb (value_eq val first) then false else sc_all_same s)
         (if value_eq val (sc_prev s) then sc_count_same s + 1 else sc_count_same s) val.

Definition is_some {A} (o : option A) : bool := match o with Some _ => true | None => false end.

(** The double clamped to [i64] in [i128] is [v as i64]. *)
Definition number_codec (data_type : LogicalType) (v1 v2 : Z) (mn mx : Value) : CompressionMetadata :=
  match data_type with
  | TInt8 | TInt16 | TInt32 | TInt64 | TUint8 | TUint16 | TUint32 | TUint64 =>
      let range := u64_wrap (f64_as_i64 v2 - f64_as_i64 v1) in
      let bit_width := calculate_bit_width range in
      if decide (bit_width < 64) then mkMeta mn mx FixedFrameOfReference bit_width else mkMeta mn mx Uncompressed 0
  | _ => mkMeta mn mx Uncompressed 0
  end.
(** [v2 - v1] cannot underflow: [v2] is the maximum. *)
Definition node_codec (v1 v2 : Z) (mn mx : Value) : CompressionMetadata :=
  let bit_width := calculate_bit_width (v2 - v1)%Z in
  if decide (bit_width < 64) then
    if decide (0 < v1)%Z then mkMeta mn mx FixedFrameOfReference bit_width else mkMeta mn mx IntegerBitpacking bit_width
  else mkMeta mn mx Uncompressed 0.

Definition analyze_integer_chunk (values : list Value) (data_type : LogicalType) (precomputed_min precomputed_max : option Value) :
    CompressionMetadata :=
  match values with
  | [] => no_meta
  | first :: _ =>
      let skip_minmax := is_some precomputed_min && is_some precomputed_max in
      let s := foldl (scan_step first skip_minmax) (mkScan (default first precomputed_min) (default first precomputed_max) true 0 first) values in
      let mn := sc_min s in
      let mx := sc_max s in
      let len := length values in
      if sc_all_same s then mkMeta mn mx Constant 0
      else if bool_decide (len * 3 / 4 < sc_count_same s) && bool_decide (64 < len) then mkMeta mn mx Rle 0
      else if bool_decide (distinct_estimate values < Z.of_nat (len / 4))%Z && bool_decide (64 < len) then mkMeta mn mx Dict 0
      else match mn, mx with
      | VNode v1, VNode v2 => node_codec v1 v2 mn mx
      | VNumber v1, VNumber v2 => number_codec data_type v1 v2 mn mx
      | _, _ => mkMeta mn mx Uncompressed 0
      end
  end.

Definition analyze_float_chunk (values : list Value) : CompressionMetadata :=
  match values with
  | [] => no_meta
  | first :: _ =>
      let mn := foldl (λ mn val, if value_lt debug val mn then val else mn) first values in
      let mx := foldl (λ mx val, if value_gt debug val mx then val else mx) first values in
      mkMeta mn mx Alp 0
  end.

Definition analyze_string_chunk (values : list Value) : CompressionMetadata :=
  match values with
  | [] => no_meta
  | p :: _ =>
      if forallb (λ v, value_eq v p) values then mkMeta p p Constant 0
      else
        let len := length values in
        if bool_decide (distinct_estimate values < Z.of_nat (len / 8))%Z && bool_decide (16 < len) then mkMeta VNull VNull Dict 0
        else no_meta
  end.

End analyzer.

(** ** The choice for unsigned integers *)

Lemma bit_width_bound x : (0 ≤ x)%Z → (x < 2 ^ Z.of_nat (calculate_bit_width x))%Z.
Proof.
  intros Hx. unfold calculate_bit_width. case_decide; [by subst|]. pose proof (Z.log2_nonneg x). rewrite Z2Nat.id by lia.
  apply Z.log2_spec. lia.
Qed.

Lemma node_lt debug a b : value_lt debug (VNode a) (VNode b) = bool_decide (a < b)%Z.
Proof. unfold value_lt. cbn. apply bool_decide_ext. split; [intros [= H]; by apply Z.compare_lt_iff|intros H; f_equal; by apply Z.compare_lt_iff]. Qed.
Lemma node_gt debug a b : value_gt debug (VNode a) (VNode b) = bool_decide (b < a)%Z.
Proof. unfold value_gt. cbn. apply bool_decide_ext. split; [intros [= H]; apply Z.compare_gt_iff in H; lia|intros H; f_equal; apply Z.compare_gt_iff; lia]. Qed.

(** What the loop has found among the values seen so far. *)
Lemma scan_nodes debug first ids s mn mx :
  sc_min s = VNode mn → sc_max s = VNode mx → (mn ≤ mx)%Z →
  let r := foldl (scan_step debug (VNode first) false) s (VNode <$> ids) in
  ∃ mn' mx', sc_min r = VNode mn' ∧ sc_max r = VNode mx' ∧ (mn' ≤ mn)%Z ∧ (mx ≤ mx')%Z ∧ (mn' ∈ mn :: ids) ∧ (mx' ∈ mx :: ids) ∧
    ∀ id, id ∈ ids → (mn' ≤ id ≤ mx')%Z.
Proof.
  revert s mn mx. induction ids as [|id ids IH]; intros s mn mx Hmn Hmx Hle; cbv zeta.
  { exists mn, mx. split_and!; try done; try lia; try (by left). by intros ? ?%elem_of_nil. }
  cbn [fmap list_fmap foldl]. set (s' := scan_step debug (VNode first) false s (VNode id)).
  assert (sc_min s' = VNode (Z.min mn id)) as Hmn'.
  { unfold s'. cbn. rewrite Hmn, node_lt. case_bool_decide; f_equal; lia. }
  assert (sc_max s' = VNode (Z.max mx id)) as Hmx'.
  { unfold s'. cbn. rewrite Hmx, node_gt. case_bool_decide; f_equal; lia. }
  destruct (IH s' _ _ Hmn' Hmx' ltac:(lia)) as (mn' & mx' & H1 & H2 & H3 & H4 & H5 & H6 & H7).
  exists mn', mx'. split_and!; try done; try lia.
  - apply elem_of_cons in H5 as [->|H5]; [|by do 2 right]. destruct (Z.min_spec mn id) as [[_ ->]|[_ ->]]; [by left|by right; left].
  - apply elem_of_cons in H6 as [->|H6]; [|by do 2 right]. destruct (Z.max_spec mx id) as [[_ ->]|[_ ->]]; [by right; left|by left].
  - intros x [->|Hx]%elem_of_cons; [lia|by apply H7].
Qed.

Lemma scan_all_same debug first skip values s :
  sc_all_same (foldl (scan_step debug first skip) s values) = sc_all_same s && forallb (λ v, value_eq v first) values.
Proof.
  revert s. induction values as [|v values IH]; intros s; [by rewrite andb_true_r|]. cbn [foldl forallb]. rewrite IH. cbn.
  by destruct (value_eq v first), (sc_all_same s).
Qed.

Lemma u64_as_i64_small z : (0 ≤ z < 2 ^ 63)%Z → u64_as_i64 z = z.
Proof. intros Hz. unfold u64_as_i64, u64_wrap. rewrite Z.mod_small by lia. by rewrite decide_True by lia. Qed.

(** A block of ids from the sample. *)
Definition block_of (ids : list Z) (src : list Z) (n : nat) : Prop := ∀ i, i < n → ∃ id, id ∈ ids ∧ chunk8 src i = to_le 8 id.

Lemma node_codec_lossless ids mn mx src n dst :
  (∀ id, id ∈ ids → (mn ≤ id ≤ mx)%Z) → (0 ≤ mn)%Z → (mx < 2 ^ 63)%Z →
  n ≤ 32 → length src = 256 → length dst = 4096 → bytes_ok src → bytes_ok dst → block_of ids src n →
  let meta := node_codec mn mx (VNode mn) (VNode mx) in lossless_block (get_alg (meta_compression meta) 8) meta 8 src n dst.
Proof.
  intros Hids Hmn Hmx Hn Hs Hd Hsb Hdb Hblk. cbv zeta. unfold node_codec. set (bw := calculate_bit_width (mx - mn)).
  assert (∀ i, i < n → ∃ id, (mn ≤ id ≤ mx)%Z ∧ of_le (chunk8 src i) = id) as Hval.
  { intros i Hi. destruct (Hblk i Hi) as (id & Hid & ->). exists id. specialize (Hids id Hid). split; [done|]. apply of_le_to_le_id. change (2 ^ (8 * Z.of_nat 8))%Z with (2 ^ 64)%Z. lia. }
  case_decide as Hbw; [case_decide as Hpos|]; cbn [meta_compression get_alg].
  - refine (codec_lossless mkFrameOfReference _ src n dst Hsb Hdb _). cbn [codec_admissible for_lossless meta_bit_width]. split_and!; [lia|done|lia| |].
    + unfold bitpack_compressed_size. rewrite Hd. apply Nat.Div0.div_le_upper_bound. lia.
    + intros i Hi. destruct (Hval i Hi) as (id & Hid & E). unfold for_min. cbn [meta_min]. rewrite E.
      rewrite (u64_as_i64_small id), (u64_as_i64_small mn) by lia. split; [|unfold i64_MAX; lia].
      pose proof (bit_width_bound (mx - mn) ltac:(lia)) as Hb. fold bw in Hb. lia.
  - refine (codec_lossless mkIntegerBitpacking _ src n dst Hsb Hdb _). cbn [codec_admissible int_bitpack_lossless meta_bit_width]. split_and!; [lia|done|lia| |].
    + unfold bitpack_compressed_size. rewrite Hd. apply Nat.Div0.div_le_upper_bound. lia.
    + intros i Hi. destruct (Hval i Hi) as (id & Hid & ->). pose proof (bit_width_bound (mx - mn) ltac:(lia)) as Hb. fold bw in Hb.
      assert (mn = 0%Z) as -> by lia. lia.
  - refine (codec_lossless (mkUncompressed 8) _ src n dst Hsb Hdb _). cbn [codec_admissible uncompressed_lossless uc_element_size]. lia.
Qed.

(** What is known of the choice: the constant is the value of the whole sample,
    and blocks of the sample are stored losslessly. *)
Lemma choice_spec (debug : Value → list Z) (hash : Value → Z) (ln : f64 → f64) (ids : list Z) (t : LogicalType) :
  ids ≠ [] → Forall (λ id, 0 ≤ id < 2 ^ 63)%Z ids →
  let meta := analyze_integer_chunk debug hash ln (VNode <$> ids) t None None in
  (meta_compression meta = Constant → ∀ id, id ∈ ids → meta_min meta = VNode id) ∧
  ∀ src n dst, n ≤ 32 → length src = 256 → length dst = 4096 → bytes_ok src → bytes_ok dst → block_of ids src n →
    lossless_block (get_alg (meta_compression meta) 8) meta 8 src n dst.
Proof.
  intros Hne Hids. destruct ids as [|first ids]; [done|]. cbv zeta. unfold analyze_integer_chunk. cbn [fmap list_fmap].
  change (VNode first :: list_fmap Z Value VNode ids) with (VNode <$> first :: ids). cbn [is_some andb default]. set (s0 := mkScan (VNode first) (VNode first) true 0 (VNode first)).
  destruct (scan_nodes debug first (first :: ids) s0 first first eq_refl eq_refl ltac:(lia)) as (mn & mx & Hmn & Hmx & H3 & H4 & H5 & H6 & H7). cbv zeta in Hmn, Hmx.
  pose proof (scan_all_same debug (VNode first) false (VNode <$> first :: ids) s0) as Hsame. set (r := foldl _ s0 _) in *. rewrite Hmn, Hmx.
  rewrite list.Forall_forall in Hids. assert (0 ≤ mn)%Z by (apply Hids; apply elem_of_cons in H5 as [->|H5]; [by left|done]).
  assert (mx < 2 ^ 63)%Z by (apply Hids; apply elem_of_cons in H6 as [->|H6]; [by left|done]).
  destruct (sc_all_same r) eqn:Es.
  { assert (∀ x, x ∈ first :: ids → mn = x) as Hall.
    { symmetry in Hsame. apply andb_true_iff in Hsame as [_ Hsame]. rewrite forallb_forall in Hsame.
      assert (∀ x, x ∈ first :: ids → x = first) as Hf.
      { intros x Hx. specialize (Hsame (VNode x) ltac:(apply list_elem_of_In, list_elem_of_fmap; by eauto)). cbn in Hsame. by apply bool_decide_eq_true in Hsame. }
      intros x Hx. rewrite (Hf x Hx). apply elem_of_cons in H5 as [->|H5]; [done|]. by apply Hf. }
    cbn [meta_compression meta_min get_alg]. split; [intros _ id Hid; by rewrite (Hall id Hid)|]. intros src n dst Hn Hs Hd Hsb Hdb Hblk.
    refine (codec_lossless mkConstant _ src n dst Hsb Hdb _). cbn [codec_admissible constant_lossless meta_min value_to_le_bytes].
    rewrite length_to_le. split; [lia|]. intros i Hi. destruct (Hblk i Hi) as (id & Hid & E). change (chunk8 src i = to_le 8 mn). rewrite E. f_equal. by rewrite (Hall id Hid). }
  destruct (bool_decide (_ < sc_count_same r) && _).
  { split; [done|]. intros src n dst Hn Hs Hd Hsb Hdb Hblk. refine (codec_lossless mkRle _ src n dst Hsb Hdb _). cbn [codec_admissible rle_lossless]. lia. }
  destruct (bool_decide (_ < _)%Z && _).
  { split; [done|]. intros src n dst Hn Hs Hd Hsb Hdb Hblk. refine (codec_lossless mkDict _ src n dst Hsb Hdb _). cbn [codec_admissible dict_lossless]. lia. }
  split; [unfold node_codec; repeat case_decide; done|]. intros src n dst Hn Hs Hd Hsb Hdb Hblk. by apply (node_codec_lossless (first :: ids)).
Qed.

(** The codec chosen for a sample of unsigned integers stores every block of
    values of the sample losslessly (analyzer.rs, analyze_integer_chunk, with the
    codecs it can choose): the constant when all are equal, run-length and
    dictionary coding always, frame of reference and bit packing because the bit
    width covers the range, whatever the cardinality estimate says. *)
Theorem analyzer_choice_lossless (debug : Value → list Z) (hash : Value → Z) (ln : f64 → f64) (ids : list Z) (t : LogicalType) (src : list Z) (n : nat) (dst : list Z) :
  ids ≠ [] → Forall (λ id, 0 ≤ id < 2 ^ 63)%Z ids → n ≤ 32 → length src = 256 → length dst = 4096 → bytes_ok src → bytes_ok dst → block_of ids src n →
  let meta := analyze_integer_chunk debug hash ln (VNode <$> ids) t None None in
  lossless_block (get_alg (meta_compression meta) 8) meta 8 src n dst.
Proof. intros Hne Hids Hn Hs Hd Hsb Hdb Hblk. by apply (choice_spec debug hash ln ids t Hne Hids). Qed.

(** ** Witness *)

Definition demo_hash (v : Value) : Z := 0.
Definition demo_ln (x : f64) : f64 := x.
Definition demo_ids : list Z := [7; 9; 1000]%Z.
Definition demo_block : list Z := flat_map (to_le 8) demo_ids ++ replicate 232 0%Z.

Lemma analyzer_choice_lossless_witness :
  let meta := analyze_integer_chunk (λ _, []) demo_hash demo_ln (VNode <$> demo_ids) TUint64 None None in
  lossless_block (get_alg (meta_compression meta) 8) meta 8 demo_block 3 (replicate 4096 0%Z).
Proof.
  apply (analyzer_choice_lossless (λ _, []) demo_hash demo_ln demo_ids TUint64 demo_block 3 (replicate 4096 0%Z)).
  - discriminate.
  - by_compute.
  - lia.
  - reflexivity.
  - apply length_replicate.
  - by_compute.
  - by apply bytes_ok_replicate.
  - intros i Hi. destruct i as [|[|[|i]]]; [exists 7%Z|exists 9%Z|exists 1000%Z|lia]; (split; [by_compute|reflexivity]).
Defined.
