(* ===== verification/ColumnEncode.v ===== *)
(** * Re-encoding a column (storage/column.rs)

    VACUUM calls [optimize] on every column: it recomputes the zone map, cuts the
    data file to the pages that the value count needs, samples the values, and
    rewrites the column 32 values to a page with the codec the sample suggests;
    [decompress_all] undoes that before the next write.  Cutting a file leaves
    the frames that the buffer pool still holds; which ones is a parameter. *)
From stdpp Require Import base list gmap strings numbers.
From Stdlib Require Import ZArith Lia Bool.
From S2P Require Import Prelude Codec Codecs Alp RowVersion TxnManager FileHandle PageFile Overflow HashIndex Stats Column ColumnSpec ColumnScan Analyzer.
Open Scope nat_scope.

Definition set_compression_meta (s : ColumnStats) (m : option CompressionMetadata) : ColumnStats :=
  mkStats (cs_min s) (cs_max s) (null_count s) (num_values s) (distinct_count s) m (compression_ratio s) (page_bounds s) (page_bounds_valid s).

Section encode.
Context (debug : Value → list Z) (from_utf8_lossy : list Z → list Z) (hash : Value → Z) (ln : f64 → f64).
(** The pages whose frames stay in the buffer pool when the file is cut. *)
Context (resident : Z → bool).

(** [truncate_last_pages] as the pages of a file. *)
Definition truncate_pages (f : pages) (keep_count : Z) : pages :=
  if decide (pg_num f ≤ keep_count)%Z then f
  else mkPages (filter (λ e, (fst e < keep_count)%Z ∨ resident (fst e) = true) (pg_data f)) keep_count.

(** ** Compressing *)

(** One block of values in slots; [stack_buf] is shared by all values. *)
Fixpoint fill_block (t : LogicalType) (ofh : option pages) (vals : list Value) (i : nat) (stack_buf src : list Z) :
    option pages * outcome (list Z * list Z) :=
  match vals with
  | [] => (ofh, Ok (stack_buf, src))
  | v :: vals =>
      match serialize_value_into t ofh v stack_buf with
      | (ofh, Ok buf) => fill_block t ofh vals (i + 1) buf (splice src (i * element_size t) (take (element_size t) buf))
      | (ofh, Err e) => (ofh, Err e)
      | (ofh, Panic) => (ofh, Panic)
      end
  end.

(** Blocks of 32 values, one to a page; the number of pages written. *)
Fixpoint encode_blocks (fuel : nat) (c : ColumnData) (meta : CompressionMetadata) (vals : list Value) (page : Z) (stack_buf src : list Z) :
    ColumnData * outcome Z :=
  match fuel, vals with
  | S fuel, _ :: _ =>
      let es := element_size (data_type c) in
      let blk := 32 `min` length vals in
      match fill_block (data_type c) (overflow_fh c) (take blk vals) 0 stack_buf src with
      | (ofh, Ok (stack_buf, src)) =>
          let c := set_overflow c ofh in
          match compress_next_page (get_alg (meta_compression meta) es) src blk (replicate 4096 0%Z) meta with
          | Ok (dst, (size, processed)) =>
              if decide (processed = 0) then (c, Ok page)
              else
                let f := grow_to (fh c) page in
                let c := set_fh c (put_page f page (splice zero_page 0 (take size dst))) in
                encode_blocks fuel c meta (drop processed vals) (page + 1) stack_buf src
          | Err e => (c, Err e)
          | Panic => (c, Panic)
          end
      | (ofh, Err e) => (set_overflow c ofh, Err e)
      | (ofh, Panic) => (set_overflow c ofh, Panic)
      end
  | _, _ => (c, Ok page)
  end.

Definition other_active (mgr : option TransactionManager) (w : WriteTx) : bool :=
  match mgr with Some m => has_other_active m (w_tx_id w) | None => false end.

Definition reencode_compressed (c : ColumnData) (w : WriteTx) (mgr : option TransactionManager) (meta : CompressionMetadata) : ColumnData * outcome unit :=
  if other_active mgr w then (c, Ok tt)
  else if decide (num_values (stats c) < 32)%Z then (c, Ok tt)
  else
    match scan from_utf8_lossy c 0 (num_values (stats c)) with
    | Ok vals =>
        match encode_blocks (length vals) c meta vals 0 (replicate 64 0%Z) (replicate (32 * element_size (data_type c)) 0%Z) with
        | (c, Ok page) =>
            let c := set_dirty (set_fh c (truncate_pages (fh c) page)) in
            (set_compressed (set_stats c (set_compression_meta (stats c) (Some meta))) true, Ok tt)
        | (c, Err e) => (c, Err e)
        | (c, Panic) => (c, Panic)
        end
    | Err e => (c, Err e)
    | Panic => (c, Panic)
    end.

(** ** Decompressing *)

(** A page of slots, written into an empty frame by the same loop. *)
Fixpoint decode_pages (fuel : nat) (c : ColumnData) (vals : list Value) (page : Z) (stack_buf : list Z) : ColumnData * outcome unit :=
  match fuel, vals with
  | S fuel, _ :: _ =>
      let n_here := Z.to_nat (4096 / Z.of_nat (element_size (data_type c))) `min` length vals in
      let f := grow_to (fh c) page in
      match fill_block (data_type c) (overflow_fh c) (take n_here vals) 0 stack_buf zero_page with
      | (ofh, Ok (stack_buf, frame)) =>
          decode_pages fuel (set_overflow (set_fh c (put_page f page frame)) ofh) (drop n_here vals) (page + 1) stack_buf
      | (ofh, Err e) => (set_overflow (set_fh c f) ofh, Err e)
      | (ofh, Panic) => (set_overflow (set_fh c f) ofh, Panic)
      end
  | _, _ => (c, Ok tt)
  end.
Definition decompress_all (c : ColumnData) (w : WriteTx) (mgr : option TransactionManager) : ColumnData * outcome unit :=
  if negb (compressed c) then (c, Ok tt)
  else if other_active mgr w then (c, Err Internal)
  else
    let finish c := (set_compressed (set_stats (set_dirty c) (set_compression_meta (stats c) None)) false, Ok tt) in
    if decide (0 < num_values (stats c))%Z then
      match scan from_utf8_lossy c 0 (num_values (stats c)) with
      | Ok vals =>
          match decode_pages (length vals) c vals 0 (replicate 64 0%Z) with
          | (c, Ok _) => finish c
          | (c, Err e) => (c, Err e)
          | (c, Panic) => (c, Panic)
          end
      | Err e => (c, Err e)
      | Panic => (c, Panic)
      end
    else finish c.

(** ** Optimizing *)

Definition layout_values (c : ColumnData) : Z :=
  if decide (compression_of (stats c) = Uncompressed) then (4096 / Z.of_nat (element_size (data_type c)))%Z else 32%Z.
Definition z_div_ceil (a b : Z) : Z := ((a + b - 1) / b)%Z.

(** The values of each page, as the scan delivers them. *)
Fixpoint page_values (n : nat) (d : Disk) (c : ColumnData) (w : WriteTx) (page_idx vpp total : Z) : (ColumnData * WriteTx) * outcome (list (list Value)) :=
  match n with
  | O => ((c, w), Ok [])
  | S n =>
      let start := (page_idx * vpp)%Z in
      match scan_to_array from_utf8_lossy d c w None start (vpp `min` (total - start))%Z with
      | ((c, w), Ok arr) =>
          match page_values n d c w (page_idx + 1) vpp total with
          | (s, Ok l) => (s, Ok (map from_arrow arr :: l))
          | r => r
          end
      | (s, Err e) => (s, Err e)
      | (s, Panic) => (s, Panic)
      end
  end.
Definition column_page_bounds (d : Disk) (c : ColumnData) (w : WriteTx) : (ColumnData * WriteTx) * outcome unit :=
  let total := num_values (stats c) in
  let vpp := layout_values c in
  if decide (total = 0)%Z then ((c, w), Ok tt)
  else
    match page_values (Z.to_nat (z_div_ceil total vpp)) d c w 0 vpp total with
    | ((c, w), Ok pages) => ((set_stats c (compute_page_bounds debug (stats c) pages), w), Ok tt)
    | (s, Err e) => (s, Err e)
    | (s, Panic) => (s, Panic)
    end.

(** The codec for a sample, by the column's type. *)
Definition choose_codec (t : LogicalType) (values : list Value) : option CompressionMetadata :=
  match t with
  | TInt64 | TInt32 | TUint64 | TNode _ => Some (analyze_integer_chunk debug hash ln values t None None)
  | TDouble | TFloat => Some (analyze_float_chunk debug values)
  | TString => Some (analyze_string_chunk hash ln values)
  | _ => None
  end.
Definition SAMPLE : Z := 4096.

(** Everything after the zone map. *)
Definition optimize_pages (c : ColumnData) (w : WriteTx) (mgr : option TransactionManager) : ColumnData * outcome unit :=
  let num_data_pages := pg_num (fh c) in
  if decide (num_data_pages = 0)%Z then (c, Ok tt)
  else
    let total := num_values (stats c) in
    let pages_needed := if decide (total = 0)%Z then 0%Z else z_div_ceil total (layout_values c) in
    let c := if decide (pages_needed < num_data_pages)%Z then set_fh (set_dirty c) (truncate_pages (fh c) pages_needed) else c in
    match compression_meta (stats c) with
    | Some _ => (c, Ok tt)
    | None =>
        if decide (total < 32)%Z then (c, Ok tt)
        else
          match scan from_utf8_lossy c 0 (total `min` SAMPLE)%Z with
          | Ok values =>
              match choose_codec (data_type c) values with
              | None => (c, Ok tt)
              | Some meta => if decide (meta_compression meta = Uncompressed) then (c, Ok tt) else reencode_compressed c w mgr meta
              end
          | Err e => (c, Err e)
          | Panic => (c, Panic)
          end
    end.
Definition optimize (d : Disk) (c : ColumnData) (w : WriteTx) (mgr : option TransactionManager) (is_indexed : bool) : (ColumnData * WriteTx) * outcome unit :=
  let '(c, w) := flush_pending_nulls c w in
  match (if is_indexed then column_page_bounds d c w else ((c, w), Ok tt)) with
  | ((c, w), Ok _) => let '(c, o) := optimize_pages c w mgr in ((c, w), o)
  | r => r
  end.

End encode.
