(* ===== verification/ColumnEncodeSpec.v ===== *)
(** * Re-encoding keeps or loses values (storage/column.rs)

    Rewriting a column of 8-byte values block by block with a codec that is
    lossless on the blocks leaves every read as it was, and decompressing brings
    the writable layout back.  What VACUUM really does depends on the value count
    and on the sample, and that is where values get lost. *)
From stdpp Require Import base list gmap strings numbers.
From Stdlib Require Import ZArith Lia Bool.
From S2P Require Import Prelude Bitpacking Codec Codecs Alp RowVersion TxnManager FileHandle PageFile Overflow HashIndex Stats Column ColumnSpec ColumnScan ColumnScanSpec Analyzer ColumnEncode.
Open Scope nat_scope.

(** ** Words *)

(** The 64-bit word a value is stored as. *)
Definition word (t : LogicalType) (v : Value) : option Z :=
  match v, t with
  | VNumber n, TInt64 => Some (f64_as_i64 n)
  | VNode id, TInt64 => Some id
  | VNode id, TUint64 | VNode id, TNode _ => Some id
  | VNumber n, TUint64 | VNumber n, TNode _ => Some (f64_as_u64 n)
  | VNumber n, TDouble | VNumber n, TFloat => Some n
  | VNode id, TDouble => Some (u64_as_f64 id)
  | VTimestamp ts, TTimestamp => Some ts
  | _, _ => None
  end.
(** The column types of 8-byte words. *)
Definition wide (t : LogicalType) : bool :=
  match t with TInt64 | TUint64 | TNode _ | TDouble | TFloat | TTimestamp => true | _ => false end.
(** The value of a word. *)
Definition word_value (t : LogicalType) (z : Z) : Value :=
  match t with
  | TInt64 => VNumber (int_as_f64 (u64_as_i64 (u64_wrap z)))
  | TUint64 | TNode _ => VNode (u64_wrap z)
  | TTimestamp => VTimestamp (u64_as_i64 (u64_wrap z))
  | _ => VNumber (u64_wrap z)
  end.

Lemma wide_size t : wide t = true → element_size t = 8 ∧ values_per_page t = 512%Z ∧ scannable t = true.
Proof. by destruct t. Qed.

Lemma parse_word lossy t o z : wide t = true → parse_value lossy t o (to_le 8 z) = Ok (word_value t z).
Proof.
  assert (slice (to_le 8 z) 0 8 = to_le 8 z) as E by (rewrite <- (length_to_le 8 z) at 2; apply slice_all).
  assert (of_le (to_le 8 z) = u64_wrap z) as E2 by apply (of_le_to_le 8).
  intros Ht. destruct t; try discriminate; cbn [parse_value word_value]; rewrite slice_get_ok by (rewrite ?length_to_le; lia); cbn [outcome_bind]; by rewrite E, E2.
Qed.

Lemma serialize_word t o v z buf : word t v = Some z → length buf = 64 → serialize_value_into t o v buf = (o, Ok (to_le 8 z ++ drop 8 buf)).
Proof.
  intros Hw Hl. assert (write_at buf 0 (to_le 8 z) = Ok (to_le 8 z ++ drop 8 buf)) as E.
  { rewrite write_head by (rewrite length_to_le; lia). by rewrite length_to_le. }
  destruct v, t; try discriminate; injection Hw as <-; cbn [serialize_value_into]; by rewrite E.
Qed.

(** A run of words as bytes. *)
Definition words (zs : list Z) : list Z := concat (map (to_le 8) zs).
Lemma words_cons z zs : words (z :: zs) = to_le 8 z ++ words zs.
Proof. done. Qed.
Lemma words_app a b : words (a ++ b) = words a ++ words b.
Proof. unfold words. by rewrite map_app, concat_app. Qed.
Lemma length_words zs : length (words zs) = length zs * 8.
Proof. induction zs as [|z zs IH]; [done|]. rewrite words_cons, length_app, length_to_le, IH. cbn. lia. Qed.
Lemma words_ok zs : bytes_ok (words zs).
Proof. induction zs as [|z zs IH]; [constructor|]. rewrite words_cons. apply Forall_app. split; [apply to_le_bytes_ok|done]. Qed.
Lemma slice_words zs a b : a ≤ b → b ≤ length zs → slice (words zs) (a * 8) (b * 8) = words (slice zs a b).
Proof.
  intros Ha Hb. rewrite <- (take_drop a zs) at 1. rewrite words_app, slice_app_r by (rewrite length_words, length_take; lia).
  rewrite length_words, length_take, Nat.min_l by lia. rewrite Nat.sub_diag. unfold slice at 2.
  rewrite <- (take_drop (b - a) (drop a zs)) at 1. rewrite words_app, slice_app_l by (rewrite length_words, length_take, length_drop; lia).
  assert (b * 8 - a * 8 = length (words (take (b - a) (drop a zs)))) as -> by (rewrite length_words, length_take, length_drop; lia). apply slice_all.
Qed.

Lemma fill_words t o vals zs i buf src : wide t = true → Forall2 (λ v z, word t v = Some z) vals zs → length buf = 64 → (i + length vals) * 8 ≤ length src →
  ∃ buf', fill_block t o vals i buf src = (o, Ok (buf', splice src (i * 8) (words zs))) ∧ length buf' = 64.
Proof.
  intros Ht Hvz. destruct (wide_size t Ht) as (Hes & _ & _). revert i buf src. induction Hvz as [|v z vals zs Hv Hvz IH]; intros i buf src Hl Hs.
  { exists buf. cbn. by rewrite splice_nil. }
  cbn [fill_block]. rewrite (serialize_word t o v z buf Hv Hl). rewrite Hes. rewrite take_app_length' by (by rewrite length_to_le). cbn [length] in Hs.
  destruct (IH (i + 1) (to_le 8 z ++ drop 8 buf) (splice src (i * 8) (to_le 8 z))) as (buf' & -> & Hl').
  - rewrite length_app, length_to_le, length_drop. lia.
  - rewrite length_splice; rewrite ?length_to_le; lia.
  - exists buf'. split; [|done]. do 3 f_equal. rewrite words_cons. replace ((i + 1) * 8) with (i * 8 + length (to_le 8 z)) by (rewrite length_to_le; lia).
    apply splice_splice_adjacent. rewrite length_to_le, length_words. pose proof (Forall2_length Hvz). lia.
Qed.

(** ** Blocks *)

(** Every range of the page decodes to these words. *)
Definition page_decodes (alg : DynAlg) (meta : CompressionMetadata) (page : list Z) (zs : list Z) : Prop :=
  ∀ off cnt out dof, off + cnt ≤ length zs → (dof + cnt) * 8 ≤ length out →
    decompress_from_page alg page off out dof cnt meta = Ok (splice out (dof * 8) (words (slice zs off (off + cnt)))).

(** The codec compresses every block of words from [P] to a page that decodes to
    their images. *)
Definition encodes (alg : DynAlg) (meta : CompressionMetadata) (P : Z → Prop) (img : Z → Z) : Prop :=
  ∀ zs src, 1 ≤ length zs ≤ 32 → Forall P zs → length src = 256 → bytes_ok src → take (length zs * 8) src = words zs →
    ∃ dst size, compress_next_page alg src (length zs) (replicate 4096 0%Z) meta = Ok (dst, (size, length zs)) ∧
      size ≤ 4096 ∧ length dst = 4096 ∧ bytes_ok dst ∧ page_decodes alg meta (splice zero_page 0 (take size dst)) (map img zs).

(** The pages from [page] on decode to the words, 32 to a page. *)
Definition pages_decode (alg : DynAlg) (meta : CompressionMetadata) (f : pages) (page : Z) (zs : list Z) : Prop :=
  ∀ j, j * 32 < length zs → page_decodes alg meta (page_at f (page + Z.of_nat j)) (take 32 (drop (j * 32) zs)).

Lemma lossless_encodes alg meta P :
  (∀ zs src, 1 ≤ length zs ≤ 32 → Forall P zs → length src = 256 → bytes_ok src → take (length zs * 8) src = words zs →
     lossless_block alg meta 8 src (length zs) (replicate 4096 0%Z)) →
  encodes alg meta P id.
Proof.
  intros H zs src Hn HP Hs Hb Hw. destruct (H zs src Hn HP Hs Hb Hw) as (dst & size & E & Hl & Hdb & Hsz & Hd). rewrite length_replicate in Hl, Hsz.
  exists dst, size. pose proof PAGE_SIZE_val. assert (length zero_page = 4096) as Hz by (unfold zero_page; rewrite length_replicate; lia).
  assert (length (take size dst) = size) as Hts by (rewrite length_take; lia). split_and!; try done. intros off cnt out dof Hoff Hout. rewrite length_map in Hoff.
  rewrite (Hd (splice zero_page 0 (take size dst))); try done.
  - do 2 f_equal. rewrite map_id. rewrite <- slice_words by lia. rewrite <- (slice_take src (length zs * 8)) by lia. by rewrite Hw.
  - apply bytes_ok_splice; [by apply bytes_ok_replicate|by apply Forall_take].
  - rewrite length_splice; lia.
  - unfold splice. rewrite take_0. cbn [app]. rewrite take_app_le by lia. rewrite take_take. by rewrite Nat.min_id.
Qed.

(** What the loop changes of a column. *)
Definition same_but_data (c c' : ColumnData) : Prop := ∃ f, c' = set_fh c f.

Lemma encode_blocks_spec fuel c meta P img vals zs page buf src :
  wide (data_type c) = true → encodes (get_alg (meta_compression meta) 8) meta P img → pages_ok (fh c) → (0 ≤ page)%Z →
  Forall2 (λ v z, word (data_type c) v = Some z) vals zs → Forall P zs → length buf = 64 → length src = 256 → bytes_ok src → length vals ≤ fuel →
  ∃ c' n, encode_blocks fuel c meta vals page buf src = (c', Ok (page + Z.of_nat n)%Z) ∧ n = (length vals + 31) / 32 ∧ same_but_data c c' ∧ pages_ok (fh c') ∧
    (∀ p, (p < page)%Z → page_at (fh c') p = page_at (fh c) p) ∧ pages_decode (get_alg (meta_compression meta) 8) meta (fh c') page (map img zs).
Proof.
  intros Ht Henc. destruct (wide_size (data_type c) Ht) as (Hes & _ & _). revert c vals zs page buf src Ht Hes.
  induction fuel as [|fuel IH]; intros c vals zs page buf src Ht Hes Hf Hp Hvz HP Hbl Hsl Hsb Hfuel.
  { destruct Hvz; [|cbn in Hfuel; lia]. exists c, 0. cbn. rewrite Z.add_0_r. split_and!; try done. by exists (fh c); destruct c. by intros j Hj; cbn in Hj; lia. }
  destruct vals as [|v vals'] eqn:Ev.
  { inversion Hvz. exists c, 0. cbn. rewrite Z.add_0_r. split_and!; try done. by exists (fh c); destruct c. by intros j Hj; cbn in Hj; lia. }
  cbn [encode_blocks]. rewrite <- Ev in *. rewrite Hes. set (blk := 32 `min` length vals). assert (1 ≤ blk ≤ 32) as Hblk by (unfold blk; rewrite Ev; cbn [length]; lia).
  pose proof (Forall2_length Hvz) as Hlen. clear Ev v vals'.
  destruct (fill_words (data_type c) (overflow_fh c) (take blk vals) (take blk zs) 0 buf src Ht) as (buf' & E & Hbl'); [by apply Forall2_take|done|rewrite length_take; lia|].
  rewrite E. set (src' := splice src (0 * 8) (words (take blk zs))). assert (length (take blk zs) = blk) as Hlt by (rewrite length_take; lia).
  assert (length (words (take blk zs)) = blk * 8) as Hlw by (by rewrite length_words, Hlt).
  assert (length src' = 256) as Hsl' by (unfold src'; rewrite length_splice; lia).
  assert (bytes_ok src') as Hsb' by (apply bytes_ok_splice; [done|apply words_ok]).
  destruct (Henc (take blk zs) src') as (dst & size & Ec & Hsz & Hdl & Hdb & Hpd); [lia|by apply Forall_take|done|done| |].
  { rewrite Hlt. unfold src', splice. cbn [Nat.mul]. rewrite take_0. cbn [app]. rewrite take_app_le by lia. by rewrite take_ge by lia. }
  rewrite Hlt in Ec. cbn [set_overflow data_type]. rewrite Ec. rewrite decide_False by lia.
  set (c1 := set_fh (set_overflow c (overflow_fh c)) (put_page (grow_to (fh (set_overflow c (overflow_fh c))) page) page (splice zero_page 0 (take size dst)))).
  pose proof PAGE_SIZE_val. assert (length zero_page = 4096) as Hz by (unfold zero_page; rewrite length_replicate; lia).
  assert (pages_ok (fh c1)) as Hf1.
  { apply pages_ok_put; [by apply pages_ok_grow|rewrite length_splice; rewrite ?length_take; lia|apply bytes_ok_splice; [by apply bytes_ok_replicate|by apply Forall_take]]. }
  destruct (IH c1 (drop blk vals) (drop blk zs) (page + 1)%Z buf' src') as (c' & n & E' & Hn & (f & Hsame) & Hok & Hkeep & Hdec); try done.
  { lia. } { by apply Forall2_drop. } { by apply Forall_drop. } { rewrite length_drop. lia. }
  rewrite E'. exists c', (S n). split_and!.
  - f_equal. f_equal. lia.
  - rewrite Hn, length_drop. unfold blk. destruct (decide (length vals ≤ 32)).
    + rewrite Nat.min_r by lia. rewrite Nat.sub_diag. change ((0 + 31) / 32) with 0. apply (Nat.div_unique _ 32 1 (length vals - 1)); lia.
    + rewrite Nat.min_l by lia. replace (length vals + 31) with (length vals - 32 + 31 + 1 * 32) by lia. rewrite Nat.div_add by lia. lia.
  - exists f. subst c'. by destruct c.
  - done.
  - intros p Hlt'. rewrite Hkeep by lia. unfold c1. cbn [set_fh fh set_overflow]. rewrite page_at_put_ne by lia. apply page_at_grow.
  - intros j Hj. rewrite length_map in Hj. destruct j as [|j].
    + rewrite Z.add_0_r, Hkeep by lia. unfold c1. cbn [set_fh fh set_overflow]. rewrite page_at_put. change (0 * 32) with 0. rewrite drop_0.
      assert (take 32 (map img zs) = map img (take blk zs)) as ->; [|done]. rewrite <- firstn_map. unfold blk. destruct (decide (length vals ≤ 32)).
      * rewrite Nat.min_r by lia. rewrite !take_ge; rewrite ?length_map; lia || done.
      * by rewrite Nat.min_l by lia.
    + assert (32 < length zs) by lia. assert (blk = 32) as Eb by (unfold blk; lia). specialize (Hdec j). rewrite length_map, length_drop in Hdec.
      specialize (Hdec ltac:(lia)). replace (page + Z.of_nat (S j))%Z with (page + 1 + Z.of_nat j)%Z by lia.
      replace (drop (S j * 32) (map img zs)) with (drop (j * 32) (map img (drop blk zs))); [done|]. rewrite Eb, <- skipn_map, drop_drop. done.
Qed.

(** ** Scanning values *)

Section scans.
Context (lossy : list Z → list Z).

Lemma parse_run_spec c n k block start (u : nat → Value) :
  (∀ j, j < n → let o := (start + k + j) * element_size (data_type c) in
     o + element_size (data_type c) ≤ length block ∧
     parse_value lossy (data_type c) (overflow_fh c) (slice block o (o + element_size (data_type c))) = Ok (u (k + j))) →
  parse_run lossy n k c block start = Ok (map u (seq k n)).
Proof.
  revert k. induction n as [|n IH]; intros k H; [done|]. cbn [parse_run seq map]. destruct (H 0 ltac:(lia)) as [Hl Hp]. rewrite !Nat.add_0_r in *.
  rewrite slice_get_ok by lia. cbn [outcome_bind]. rewrite Hp. cbn [outcome_bind]. rewrite IH.
  - cbn [outcome_bind]. by rewrite Nat.add_1_r.
  - intros j Hj. specialize (H (S j) ltac:(lia)). by replace (start + (k + 1) + j) with (start + k + S j) by lia; replace (k + 1 + j) with (k + S j) by lia.
Qed.

(** The plain layout. *)
Lemma scan_loop_plain fuel c meta offset n temp (u : Z → Value) :
  pages_ok (fh c) → (0 ≤ offset)%Z → n ≤ fuel →
  (∀ r, (offset ≤ r < offset + Z.of_nat n)%Z → parse_value lossy (data_type c) (overflow_fh c) (slot (fh c) (data_type c) r) = Ok (u r)) →
  scan_loop lossy fuel c Uncompressed meta offset (Z.of_nat n) temp = Ok (map u (seqZ offset (Z.of_nat n))).
Proof.
  intros Hf. revert offset n. induction fuel as [|fuel IH]; intros offset n Ho Hn Hu; [by replace n with 0 by lia|].
  cbn [scan_loop]. case_decide as Hpos; [|by replace n with 0 by lia]. rewrite !decide_True by done.
  destruct (geometry (data_type c)) as (Hv & Hp & He & ->). set (vpp := values_per_page (data_type c)) in *. pose proof (Z.mod_pos_bound offset vpp Hv).
  set (to_read := ((Z.of_nat n `min` 32) `min` (vpp - offset mod vpp))%Z). set (m := Z.to_nat to_read).
  rewrite (parse_run_spec c m 0 _ _ (λ j, u (offset + Z.of_nat j)%Z)).
  - cbn [outcome_bind fst snd]. replace (Z.of_nat n - to_read)%Z with (Z.of_nat (n - m)) by lia. rewrite IH; [|lia|lia|intros r Hr; apply Hu; lia].
    cbn [outcome_bind]. f_equal. assert (seqZ offset (Z.of_nat n) = seqZ offset (Z.of_nat m) ++ seqZ (offset + to_read) (Z.of_nat (n - m))) as ->.
    { replace (offset + to_read)%Z with (offset + Z.of_nat m)%Z by lia. rewrite <- seqZ_app by lia. f_equal. lia. }
    rewrite map_app. f_equal. unfold seqZ. rewrite Nat2Z.id, map_map. apply map_ext. intros j. f_equal. lia.
  - intros j Hj. cbv zeta. rewrite Nat.add_0_r. destruct (run_in_page vpp offset (Z.of_nat j)) as [Ed Em]; [done|lia|lia|].
    pose proof (slot_in_page (data_type c) (offset + Z.of_nat j)) as Hin. unfold slot_offset in Hin. fold vpp in Hin. rewrite Em in Hin.
    destruct (page_at_ok (fh c) (offset / vpp) Hf) as [Hpl _]. replace (Z.to_nat (offset mod vpp + Z.of_nat j)) with (Z.to_nat (offset mod vpp) + j) in Hin by lia.
    split; [lia|]. cbn [Nat.add]. rewrite <- (Hu (offset + Z.of_nat j)%Z) by lia. f_equal. unfold slot, slot_offset. fold vpp. rewrite Ed, Em.
    by replace (Z.to_nat (offset mod vpp + Z.of_nat j)) with (Z.to_nat (offset mod vpp) + j) by lia.
Qed.

Lemma scan_plain c room n (u : Z → Value) : column_ok room c →
  (∀ r, (0 ≤ r < Z.of_nat n)%Z → parse_value lossy (data_type c) (overflow_fh c) (slot (fh c) (data_type c) r) = Ok (u r)) →
  scan lossy c 0 (Z.of_nat n) = Ok (map u (seqZ 0 (Z.of_nat n))).
Proof.
  intros Hc Hu. unfold scan, compression_of. rewrite (ok_meta room c Hc). rewrite decide_False by done. rewrite Nat2Z.id.
  apply scan_loop_plain; [apply (ok_fh room c Hc)|lia|lia|done].
Qed.

(** The compressed layout of words. *)
Lemma scan_loop_words fuel c compression meta zs (k : nat) temp :
  wide (data_type c) = true → compression ≠ Uncompressed → pages_decode (get_alg compression 8) meta (fh c) 0 zs → length temp = 256 → length zs - k * 32 ≤ fuel →
  scan_loop lossy fuel c compression meta (Z.of_nat (k * 32)) (Z.of_nat (length zs - k * 32)) temp = Ok (map (word_value (data_type c)) (drop (k * 32) zs)).
Proof.
  intros Ht Hne Hdec. destruct (wide_size (data_type c) Ht) as (Hes & _ & _). revert k temp. induction fuel as [|fuel IH]; intros k temp Htl Hfuel.
  { replace (length zs - k * 32) with 0 by lia. rewrite drop_ge by lia. done. }
  cbn [scan_loop]. case_decide as Hpos; [|rewrite drop_ge by lia; done]. rewrite !(decide_False (P := compression = Uncompressed)) by done. rewrite Hes.
  assert (Z.of_nat (k * 32) / 32 = Z.of_nat k)%Z as -> by (rewrite Nat2Z.inj_mul; apply Z.div_mul; lia).
  assert (Z.of_nat (k * 32) mod 32 = 0)%Z as -> by (rewrite Nat2Z.inj_mul; apply Z.mod_mul; lia).
  set (blk := take 32 (drop (k * 32) zs)). assert (length blk = 32 `min` (length zs - k * 32)) as Hblk by (unfold blk; rewrite length_take, length_drop; lia).
  set (to_read := ((Z.of_nat (length zs - k * 32) `min` 32) `min` (32 - 0))%Z). assert (Z.to_nat to_read = length blk) as Em by lia. rewrite Em.
  pose proof (Hdec k ltac:(lia)) as Hpg. rewrite Z.add_0_l in Hpg. fold blk in Hpg.
  change (Z.to_nat 0) with 0. rewrite (Hpg 0 (length blk) temp 0) by lia. cbn [outcome_bind Nat.mul Nat.add]. rewrite slice_all. set (temp' := splice temp 0 (words blk)).
  assert (length (words blk) = length blk * 8) as Hlw by apply length_words.
  assert (length temp' = 256) as Htl' by (unfold temp'; rewrite length_splice; lia).
  rewrite (parse_run_spec c (length blk) 0 temp' 0 (λ j, word_value (data_type c) (byte_at blk j))).
  - cbn [outcome_bind fst snd]. replace (Z.of_nat (k * 32) + to_read)%Z with (Z.of_nat (k * 32 + length blk)) by lia.
    replace (Z.of_nat (length zs - k * 32) - to_read)%Z with (Z.of_nat (length zs - k * 32 - length blk)) by lia.
    assert (map (λ j, word_value (data_type c) (byte_at blk j)) (seq 0 (length blk)) = map (word_value (data_type c)) blk) as ->.
    { rewrite <- map_map. f_equal. apply list_eq_same_length with (length blk); [done|by rewrite length_map, length_seq|]. intros j x y Hj Hx Hy.
      rewrite list_lookup_fmap, lookup_seq_lt in Hx by done. injection Hx as <-. cbn [Nat.add]. unfold byte_at. by rewrite Hy. }
    destruct (decide (length zs - k * 32 ≤ 32)) as [Hlast|Hmore].
    + assert (length zs - k * 32 - length blk = 0) as -> by lia.
      assert (∀ f x, scan_loop lossy f c compression meta x (Z.of_nat 0) temp' = Ok []) as -> by (by intros [|f] x). cbn [outcome_bind].
      rewrite app_nil_r. unfold blk. by rewrite take_ge by (rewrite length_drop; lia).
    + assert (length blk = 32) as E32 by lia. rewrite E32. replace (k * 32 + 32) with (S k * 32) by lia. replace (length zs - k * 32 - 32) with (length zs - S k * 32) by lia.
      rewrite IH by (done || lia). cbn [outcome_bind]. f_equal. rewrite <- map_app. f_equal. unfold blk. replace (S k * 32) with (k * 32 + 32) by lia.
      by rewrite <- drop_drop, take_drop.
  - intros j Hj. cbv zeta. rewrite Hes. cbn [Nat.add]. split; [lia|]. rewrite <- (parse_word lossy (data_type c) (overflow_fh c) (byte_at blk j) Ht). f_equal.
    unfold temp', splice. rewrite take_0. cbn [app]. rewrite slice_app_l by lia. replace (j * 8 + 8) with ((j + 1) * 8) by lia. rewrite slice_words by lia.
    destruct (lookup_lt_is_Some_2 blk j Hj) as [x Hx]. assert (slice blk j (j + 1) = [x]) as ->.
    { unfold slice. replace (j + 1 - j) with 1 by lia. by rewrite (drop_S _ _ _ Hx). }
    unfold words, byte_at. rewrite Hx. cbn [map concat default]. by rewrite app_nil_r.
Qed.

End scans.

(** ** Re-encoding *)

Lemma page_at_truncate resident f keep p : (p < keep)%Z → page_at (truncate_pages resident f keep) p = page_at f p.
Proof.
  intros Hp. unfold truncate_pages. case_decide; [done|]. unfold page_at. cbn [pg_data]. f_equal.
  destruct (pg_data f !! p) as [x|] eqn:E; [apply map_lookup_filter_Some; split; [done|by left]|apply map_lookup_filter_None; by left].
Qed.
Lemma pages_ok_truncate resident f keep : pages_ok f → pages_ok (truncate_pages resident f keep).
Proof.
  intros Hf. unfold truncate_pages. case_decide; [done|]. intros i p Hp. cbn [pg_data] in Hp. apply map_lookup_filter_Some in Hp as [Hp _]. by apply (Hf i).
Qed.
Lemma truncate_gone f keep p : (0 ≤ keep ≤ p)%Z → (keep < pg_num f)%Z → page_at (truncate_pages (λ _, false) f keep) p = zero_page.
Proof.
  intros Hp Hn. unfold truncate_pages. rewrite decide_False by lia. unfold page_at. cbn [pg_data]. rewrite (proj2 (map_lookup_filter_None _ _ _)); [done|].
  right. intros x _ [H|H]; [cbn in H; lia|done].
Qed.

(** Rows that a column stores exactly: writing back what is read changes nothing. *)
Definition exact (t : LogicalType) (z z' : Z) : Prop := word t (word_value t z) = Some z' ∧ word_value t z' = word_value t z.

(** A column in the compressed layout of these words. *)
Record packed (c : ColumnData) (meta : CompressionMetadata) (zs : list Z) : Prop := {
  pk_pages : pages_ok (fh c);
  pk_null : pages_ok (null_fh c);
  pk_compressed : compressed c = true;
  pk_meta : compression_meta (stats c) = Some meta;
  pk_count : num_values (stats c) = Z.of_nat (length zs);
  pk_wide : wide (data_type c) = true;
  pk_decode : pages_decode (get_alg (meta_compression meta) 8) meta (fh c) 0 zs;
}.

(** What re-encoding leaves alone. *)
Definition same_nulls (c c' : ColumnData) : Prop :=
  null_fh c' = null_fh c ∧ pending_nulls c' = pending_nulls c ∧ data_type c' = data_type c ∧ overflow_fh c' = overflow_fh c.

Definition slot_word (c : ColumnData) (r : Z) : Z := of_le (slot (fh c) (data_type c) r).
Lemma parse_slot lossy room c r : column_ok room c → wide (data_type c) = true →
  parse_value lossy (data_type c) (overflow_fh c) (slot (fh c) (data_type c) r) = Ok (word_value (data_type c) (slot_word c r)).
Proof.
  intros Hc Ht. destruct (slot_ok room c r Hc) as [Hl Hb]. destruct (wide_size (data_type c) Ht) as (Hes & _). rewrite <- (parse_word lossy _ (overflow_fh c) _ Ht).
  f_equal. unfold slot_word. symmetry. apply to_le_of_le; [done|congruence].
Qed.

Section reencode.
Context (lossy : list Z → list Z) (resident : Z → bool).

Lemma reencode_spec c w mgr meta room n P img zs :
  column_ok room c → wide (data_type c) = true → other_active mgr w = false → num_values (stats c) = Z.of_nat n → 32 ≤ n →
  encodes (get_alg (meta_compression meta) 8) meta P img → Forall P zs →
  Forall2 (λ r z, exact (data_type c) (slot_word c r) z) (seqZ 0 (Z.of_nat n)) zs →
  ∃ c', reencode_compressed lossy resident c w mgr meta = (c', Ok tt) ∧ packed c' meta (map img zs) ∧ same_nulls c c'.
Proof.
  intros Hc Ht Hoa HN Hn Henc HP Hex. unfold reencode_compressed. rewrite Hoa, HN, decide_False by lia.
  rewrite (scan_plain lossy c room n (λ r, word_value (data_type c) (slot_word c r)) Hc) by (intros r _; by apply (parse_slot lossy room)).
  destruct (wide_size (data_type c) Ht) as (Hes & _ & _). rewrite Hes. pose proof (Forall2_length Hex) as Hlen. rewrite length_seqZ, Nat2Z.id in Hlen.
  set (vals := map _ _). assert (length vals = n) as Hvl by (unfold vals; by rewrite length_map, length_seqZ, Nat2Z.id).
  destruct (encode_blocks_spec (length vals) c meta P img vals zs 0 (replicate 64 0%Z) (replicate (32 * 8) 0%Z)) as (c1 & k & -> & Hk & (f & Hsame) & Hok & _ & Hdec);
    try done; [apply (ok_fh room c Hc)| | |].
  { unfold vals. apply Forall2_fmap_l. eapply list.Forall2_impl; [exact Hex|]. intros r z [Hw _]. exact Hw. }
  { by apply bytes_ok_replicate. }
  rewrite Z.add_0_l. eexists. split; [reflexivity|]. subst c1. cbn [set_fh fh] in Hok, Hdec. split; [|done]. constructor; cbn.
  - by apply pages_ok_truncate.
  - apply (ok_null room c Hc).
  - done.
  - done.
  - by rewrite HN, length_map, Hlen.
  - done.
  - intros j Hj. rewrite Z.add_0_l, page_at_truncate; [pose proof (Hdec j Hj) as Hd; by rewrite Z.add_0_l in Hd|].
    rewrite length_map in Hj. rewrite Hk, Hvl. apply inj_lt. apply Nat.div_le_lower_bound; lia.
Qed.

Lemma packed_plain c meta zs r z : packed c meta zs → meta_compression meta ≠ Constant → meta_compression meta ≠ Uncompressed →
  zs !! Z.to_nat r = Some z → (0 ≤ r)%Z → get_plain_value lossy c r = Ok (word_value (data_type c) z).
Proof.
  intros [H1 H2 H3 H4 H5 H6 H7] Hc Hu Hz Hr. pose proof (lookup_lt_Some _ _ _ Hz) as Hlt. unfold get_plain_value. rewrite H4, !decide_False by done.
  unfold get_compressed_value. destruct (wide_size (data_type c) H6) as (Hes & _ & _). rewrite Hes. set (j := Z.to_nat (r / 32)). set (i := Z.to_nat (r mod 32)).
  pose proof (Z.div_mod r 32 ltac:(lia)). pose proof (Z.mod_pos_bound r 32 ltac:(lia)). assert (Z.to_nat r = j * 32 + i) as Eji by (unfold j, i; lia).
  replace (r / 32)%Z with (0 + Z.of_nat j)%Z by (unfold j; lia).
  assert (take 32 (drop (j * 32) zs) !! i = Some z) as Hi by (rewrite lookup_take_lt by (unfold i; lia); rewrite lookup_drop; congruence).
  pose proof (lookup_lt_Some _ _ _ Hi) as Hil. rewrite (H7 j ltac:(lia) i 1 (replicate (32 * 8) 0%Z) 0) by (rewrite ?length_replicate; lia). cbn [outcome_bind Nat.mul].
  assert (slice (take 32 (drop (j * 32) zs)) i (i + 1) = [z]) as ->.
  { unfold slice. replace (i + 1 - i) with 1 by lia. by rewrite (drop_S _ _ _ Hi). }
  unfold words. cbn [map concat]. rewrite app_nil_r. assert (length (to_le 8 z) = 8) as Hl8 by apply length_to_le.
  rewrite slice_get_ok by (rewrite ?length_splice; rewrite ?length_replicate; lia). cbn [outcome_bind]. rewrite <- Hl8 at 1.
  rewrite (slice_splice_same _ 0) by (rewrite length_replicate; lia). by apply parse_word.
Qed.
End reencode.

(** ** Decompressing *)

Lemma decode_pages_spec fuel c vals zs page buf : wide (data_type c) = true → pages_ok (fh c) → (0 ≤ page)%Z →
  Forall2 (λ v z, word (data_type c) v = Some z) vals zs → length buf = 64 → length vals ≤ fuel →
  ∃ c', decode_pages fuel c vals page buf = (c', Ok tt) ∧ same_but_data c c' ∧ pages_ok (fh c') ∧
    (∀ p, (p < page)%Z → page_at (fh c') p = page_at (fh c) p) ∧
    ∀ k z, zs !! k = Some z → slot (fh c') (data_type c) (page * 512 + Z.of_nat k) = to_le 8 z.
Proof.
  intros Ht. destruct (wide_size (data_type c) Ht) as (Hes & Hvpp & _). revert c vals zs page buf Ht Hes Hvpp.
  induction fuel as [|fuel IH]; intros c vals zs page buf Ht Hes Hvpp Hf Hp Hvz Hbl Hfuel.
  { destruct Hvz; [|cbn in Hfuel; lia]. exists c. cbn. split_and!; try done. by exists (fh c); destruct c. }
  destruct vals as [|v vals'] eqn:Ev.
  { inversion Hvz. exists c. cbn. split_and!; try done. by exists (fh c); destruct c. }
  cbn [decode_pages]. rewrite <- Ev in *. rewrite Hes. change (Z.to_nat (4096 / Z.of_nat 8)) with 512. set (m := 512 `min` length vals).
  pose proof (Forall2_length Hvz) as Hlen. assert (1 ≤ m ≤ 512) as Hm by (unfold m; rewrite Ev; cbn [length]; lia). clear Ev v vals'.
  pose proof PAGE_SIZE_val. assert (length zero_page = 4096) as Hz by (unfold zero_page; rewrite length_replicate; lia).
  destruct (fill_words (data_type c) (overflow_fh c) (take m vals) (take m zs) 0 buf zero_page Ht) as (buf' & -> & Hbl'); [by apply Forall2_take|done|rewrite length_take; lia|].
  set (frame := splice zero_page (0 * 8) (words (take m zs))). assert (length (words (take m zs)) = m * 8) as Hlw by (rewrite length_words, length_take; lia).
  assert (length frame = 4096 ∧ bytes_ok frame) as [Hfl Hfb].
  { unfold frame. split; [rewrite length_splice; lia|apply bytes_ok_splice; [by apply bytes_ok_replicate|apply words_ok]]. }
  set (c1 := set_overflow (set_fh c (put_page (grow_to (fh c) page) page frame)) (overflow_fh c)).
  assert (pages_ok (fh c1)) as Hf1 by (apply pages_ok_put; [by apply pages_ok_grow|lia|done]).
  destruct (IH c1 (drop m vals) (drop m zs) (page + 1)%Z buf') as (c' & -> & (f & Hsame) & Hok & Hkeep & Hslot); try done.
  { lia. } { by apply Forall2_drop. } { rewrite length_drop. lia. }
  exists c'. split_and!; [done|exists f; subst c'; by destruct c|done| |].
  - intros p Hlt. rewrite Hkeep by lia. unfold c1. cbn [set_fh fh set_overflow]. rewrite page_at_put_ne by lia. apply page_at_grow.
  - intros k z Hk. destruct (decide (k < m)) as [Hlt|Hge].
    + unfold slot, slot_offset. rewrite Hvpp, Hes. assert ((page * 512 + Z.of_nat k) / 512 = page)%Z as -> by (symmetry; apply (Z.div_unique _ _ _ (Z.of_nat k)); lia).
      assert ((page * 512 + Z.of_nat k) mod 512 = Z.of_nat k)%Z as -> by (symmetry; apply (Z.mod_unique _ _ page); lia). rewrite Nat2Z.id.
      rewrite Hkeep by lia. unfold c1. cbn [set_fh fh set_overflow]. rewrite page_at_put. unfold frame, splice. cbn [Nat.mul]. rewrite take_0. cbn [app].
      rewrite slice_app_l by lia. replace (k * 8 + 8) with ((k + 1) * 8) by lia. rewrite slice_words by (rewrite ?length_take; lia).
      assert (take m zs !! k = Some z) as Hk' by (by rewrite lookup_take_lt). assert (slice (take m zs) k (k + 1) = [z]) as ->.
      { unfold slice. replace (k + 1 - k) with 1 by lia. by rewrite (drop_S _ _ _ Hk'). }
      unfold words. cbn. by rewrite app_nil_r.
    + pose proof (lookup_lt_Some _ _ _ Hk). assert (m = 512) as Em by (unfold m in *; lia). specialize (Hslot (k - m) z). rewrite lookup_drop in Hslot.
      replace (m + (k - m)) with k in Hslot by lia. specialize (Hslot Hk). cbn [set_overflow set_fh data_type c1] in Hslot. rewrite <- Hslot. f_equal. lia.
Qed.

Lemma get_value_scalar lossy c cs tx r : scalar (data_type c) = true →
  get_value lossy (mkColumn c cs) tx r = if is_null c tx r then Ok VNull else get_plain_value lossy c r.
Proof. intros Hs. cbn [get_value col]. destruct (is_null c tx r); [done|]. by destruct (data_type c). Qed.

Lemma wide_scalar t : wide t = true → scalar t = true.
Proof. by destruct t. Qed.

Lemma decompress_spec lossy c w mgr meta zs zs' room : packed c meta zs → meta_compression meta ≠ Constant → meta_compression meta ≠ Uncompressed →
  overflow_ok room (overflow_fh c) → (∀ tx, entries_ok (default [] (pending_nulls c !! tx))) → other_active mgr w = false → 0 < length zs →
  Forall2 (exact (data_type c)) zs zs' →
  ∃ c', decompress_all lossy c w mgr = (c', Ok tt) ∧ column_ok room c' ∧ same_nulls c c' ∧ num_values (stats c') = num_values (stats c) ∧
    ∀ k z, zs !! k = Some z → get_plain_value lossy c' (Z.of_nat k) = Ok (word_value (data_type c) z).
Proof.
  intros Hp Hc Hu Hov Hpn Hoa Hlen Hex. pose proof Hp as [H1 H2 H3 H4 H5 H6 H7]. unfold decompress_all. rewrite H3, Hoa. cbn [negb]. rewrite decide_True by lia.
  destruct (wide_size (data_type c) H6) as (Hes & Hvpp & _). unfold scan, compression_of. rewrite H4, decide_False by done. rewrite H5, Nat2Z.id, Hes.
  pose proof (scan_loop_words lossy (length zs) c (meta_compression meta) meta zs 0 (replicate (32 * 8) 0%Z) H6 Hu H7 ltac:(by rewrite length_replicate) ltac:(lia)) as Es.
  change (0 * 32) with 0 in Es. rewrite Nat.sub_0_r, drop_0 in Es. change (Z.of_nat 0) with 0%Z in Es. cbn [default]. unfold id. rewrite Es.
  set (vals := map _ zs). pose proof (Forall2_length Hex) as Hl'. assert (length vals = length zs) as Hvl by apply length_map.
  destruct (decode_pages_spec (length vals) c vals zs' 0 (replicate 64 0%Z) H6 H1 ltac:(lia)) as (c1 & -> & (f & Hsame) & Hok & _ & Hslot); [|done|done|].
  { unfold vals. apply Forall2_fmap_l. eapply list.Forall2_impl; [exact Hex|]. intros a b [Hw _]. exact Hw. }
  eexists. split; [reflexivity|]. subst c1. cbn [set_fh fh data_type] in Hok, Hslot. split; [by constructor|]. split; [done|]. split; [done|].
  intros k z Hk. destruct (Forall2_lookup_l _ _ _ _ _ Hex Hk) as (z' & Hz' & Hxz). unfold get_plain_value. cbn [set_compressed set_stats stats set_compression_meta compression_meta].
  unfold get_uncompressed_value. cbn [set_compressed set_stats set_dirty set_fh data_type fh overflow_fh]. rewrite Hes. change (4096 / Z.of_nat 8)%Z with 512%Z.
  pose proof (Hslot k z' Hz') as Hs. rewrite Z.mul_0_l, Z.add_0_l in Hs. unfold slot, slot_offset in Hs. rewrite Hvpp, Hes in Hs.
  pose proof (slot_in_page (data_type c) (Z.of_nat k)) as Hin. unfold slot_offset in Hin. rewrite Hvpp, Hes in Hin. destruct (page_at_ok f (Z.of_nat k / 512) Hok) as [Hpl _].
  rewrite slice_get_ok by lia. cbn [outcome_bind]. rewrite Hs, (parse_word lossy) by done. f_equal. apply Hxz.
Qed.

(** ** Optimizing *)

Lemma plain_word lossy room c r : column_ok room c → wide (data_type c) = true →
  get_plain_value lossy c r = Ok (word_value (data_type c) (slot_word c r)).
Proof.
  intros Hc Ht. unfold get_plain_value. rewrite (ok_meta room c Hc). unfold get_uncompressed_value. destruct (geometry (data_type c)) as (Hv & Hp & He & ->).
  pose proof (slot_in_page (data_type c) r) as Hin. destruct (page_at_ok (fh c) (r / values_per_page (data_type c)) (ok_fh room c Hc)) as [Hpl _].
  rewrite slice_get_ok by (unfold slot_offset in Hin; lia). cbn [outcome_bind]. by apply (parse_slot lossy room).
Qed.

Lemma slot_word_range room c r : column_ok room c → wide (data_type c) = true → (0 ≤ slot_word c r < 2 ^ 64)%Z.
Proof.
  intros Hc Ht. destruct (slot_ok room c r Hc) as [Hl Hb]. destruct (wide_size (data_type c) Ht) as (Hes & _). unfold slot_word.
  pose proof (of_le_bound _ Hb) as Hbd. rewrite Hl, Hes in Hbd. exact Hbd.
Qed.

(** The column after VACUUM has cut the file, before it looks at the values. *)
Record cut (room n : nat) (c c1 : ColumnData) : Prop := {
  cut_ok : column_ok room c1;
  cut_nulls : same_nulls c c1;
  cut_count : num_values (stats c1) = Z.of_nat n;
  cut_slots : ∀ r, (0 ≤ r < Z.of_nat n)%Z → slot_word c1 r = slot_word c r;
}.

Section optimize.
Context (debug : Value → list Z) (lossy : list Z → list Z) (hash : Value → Z) (ln : f64 → f64) (resident : Z → bool).

Lemma optimize_pages_spec c w mgr room n : column_ok room c → wide (data_type c) = true → num_values (stats c) = Z.of_nat n → 
  ∃ c1, cut room n c c1 ∧
    optimize_pages debug lossy hash ln resident c w mgr =
      if bool_decide (pg_num (fh c) = 0%Z) || bool_decide (n < 32) then (c1, Ok tt)
      else match choose_codec debug hash ln (data_type c) (map (λ r, word_value (data_type c) (slot_word c r)) (seqZ 0 (Z.of_nat (n `min` 4096)))) with
           | None => (c1, Ok tt)
           | Some meta => if decide (meta_compression meta = Uncompressed) then (c1, Ok tt) else reencode_compressed lossy resident c1 w mgr meta
           end.
Proof.
  intros Hc Ht HN. destruct (wide_size (data_type c) Ht) as (Hes & Hvpp & _). unfold optimize_pages. case_decide as H0.
  { exists c. rewrite bool_decide_true by done. by split; [constructor|]. }
  rewrite bool_decide_false, orb_false_l by done. rewrite HN. assert (layout_values c = 512%Z) as ->.
  { unfold layout_values, compression_of. rewrite (ok_meta room c Hc), decide_True, Hes by done. done. }
  set (need := if decide (Z.of_nat n = 0)%Z then 0%Z else z_div_ceil (Z.of_nat n) 512).
  assert (∀ r, (0 ≤ r < Z.of_nat n)%Z → (r / 512 < need)%Z) as Hneed.
  { intros r Hr. unfold need, z_div_ceil. rewrite decide_False by lia. apply Z.div_lt_upper_bound; [lia|].
    pose proof (Z.div_mod (Z.of_nat n + 512 - 1) 512 ltac:(lia)). pose proof (Z.mod_pos_bound (Z.of_nat n + 512 - 1) 512 ltac:(lia)). lia. }
  set (c1 := if decide (need < pg_num (fh c))%Z then _ else c). assert (cut room n c c1) as Hcut.
  { unfold c1. case_decide; [|by constructor]. destruct Hc as [Hc1 Hc2 Hc3 Hc4 Hc5 Hc6]. constructor; [|done|done|].
    - constructor; try done. by apply pages_ok_truncate.
    - intros r Hr. unfold slot_word, slot. cbn [set_fh set_dirty fh data_type]. rewrite Hvpp. rewrite page_at_truncate by auto. done. }
  exists c1. split; [done|]. pose proof Hcut as [Hok (Hn1 & Hn2 & Hn3 & Hn4) Hcnt Hsl]. rewrite (ok_meta room c1 Hok). 
  destruct (bool_decide (n < 32)) eqn:Hb; [apply bool_decide_eq_true in Hb; by rewrite decide_True by lia|]. apply bool_decide_eq_false in Hb. rewrite decide_False by lia.
  unfold SAMPLE. replace (Z.of_nat n `min` 4096)%Z with (Z.of_nat (n `min` 4096)) by (clear; pose proof (Nat.min_spec n 4096); lia).
  rewrite (scan_plain lossy c1 room (n `min` 4096) (λ r, word_value (data_type c) (slot_word c r)) Hok); [by rewrite Hn3|].
  intros r Hr. rewrite (parse_slot lossy room) by (done || by rewrite Hn3). rewrite Hn3, Hsl by lia. done.
Qed.

(** What a rewritten column gives. *)
Definition reads_as (c : ColumnData) (cs : list Column) (tx : Z) (n : nat) (u : Z → Value) : Prop :=
  ∀ r, (0 ≤ r < Z.of_nat n)%Z → get_value lossy (mkColumn c cs) tx r = if is_null c tx r then Ok VNull else Ok (u r).

Lemma cut_reads room n c c1 cs tx : cut room n c c1 → wide (data_type c) = true → reads_as c1 cs tx n (λ r, word_value (data_type c) (slot_word c r)).
Proof.
  intros [Hok (H1 & H2 & H3 & H4) Hcnt Hsl] Ht r Hr. rewrite get_value_scalar by (rewrite H3; by apply wide_scalar).
  destruct (is_null c1 tx r); [done|]. rewrite (plain_word lossy room) by (done || by rewrite H3). by rewrite H3, Hsl.
Qed.

Lemma packed_reads c meta zs cs tx n : packed c meta zs → meta_compression meta ≠ Constant → meta_compression meta ≠ Uncompressed → n ≤ length zs →
  reads_as c cs tx n (λ r, word_value (data_type c) (byte_at zs (Z.to_nat r))).
Proof.
  intros Hp Hc Hu Hn r Hr. rewrite get_value_scalar by (apply wide_scalar, (pk_wide c meta zs Hp)). destruct (is_null c tx r); [done|].
  destruct (lookup_lt_is_Some_2 zs (Z.to_nat r) ltac:(lia)) as [z Hz]. rewrite (packed_plain lossy c meta zs r z Hp Hc Hu Hz) by lia. unfold byte_at. by rewrite Hz.
Qed.

(** The types that hold ids. *)
Definition id_type (t : LogicalType) : bool := match t with TUint64 | TNode _ => true | _ => false end.
Lemma id_wide t : id_type t = true → wide t = true.
Proof. by destruct t. Qed.
Lemma id_word t z : id_type t = true → (0 ≤ z < 2 ^ 64)%Z → word_value t z = VNode z ∧ exact t z z.
Proof.
  intros Ht Hz. assert (word_value t z = VNode z) as E by (unfold word_value, u64_wrap; rewrite Z.mod_small by done; by destruct t).
  split; [done|]. split; [|done]. rewrite E. by destruct t.
Qed.

Definition slot_words (c : ColumnData) (n : nat) : list Z := map (slot_word c) (seqZ 0 (Z.of_nat n)).
Lemma slot_words_lookup c n r : (0 ≤ r < Z.of_nat n)%Z → slot_words c n !! Z.to_nat r = Some (slot_word c r).
Proof. intros Hr. unfold slot_words. rewrite list_lookup_fmap, lookup_seqZ_lt by lia. cbn. do 2 f_equal. lia. Qed.
Lemma length_slot_words c n : length (slot_words c n) = n.
Proof. unfold slot_words. by rewrite length_map, length_seqZ, Nat2Z.id. Qed.

Lemma words_block_of ids zs src : Forall (λ z, z ∈ ids) zs → take (length zs * 8) src = words zs → block_of ids src (length zs).
Proof.
  intros Hz Hw i Hi. destruct (lookup_lt_is_Some_2 zs i Hi) as [z Hzi]. exists z. split; [by apply (Forall_lookup_1 _ _ _ _ Hz Hzi)|].
  unfold chunk8. rewrite <- (slice_take src (length zs * 8)) by lia. rewrite Hw. replace (i * 8 + 8) with ((i + 1) * 8) by lia.
  rewrite slice_words by lia. assert (slice zs i (i + 1) = [z]) as ->.
  { unfold slice. replace (i + 1 - i) with 1 by lia. by rewrite (drop_S _ _ _ Hzi). }
  unfold words. cbn [map concat]. by rewrite app_nil_r.
Qed.

Lemma reencode_ids c w mgr room n cs tx : column_ok room c → id_type (data_type c) = true → num_values (stats c) = Z.of_nat n → 32 ≤ n →
  Forall (λ z, z < 2 ^ 63)%Z (slot_words c n) →
  let meta := analyze_integer_chunk debug hash ln (VNode <$> slot_words c n) (data_type c) None None in
  meta_compression meta ≠ Uncompressed →
  ∃ c', reencode_compressed lossy resident c w mgr meta = (c', Ok tt) ∧ same_nulls c c' ∧ reads_as c' cs tx n (λ r, word_value (data_type c) (slot_word c r)).
Proof.
  intros Hc Hid HN Hn Hsm. cbv zeta. set (ids := slot_words c n) in *. intros Hu. pose proof (id_wide _ Hid) as Ht.
  destruct (other_active mgr w) eqn:Hoa.
  { exists c. unfold reencode_compressed. rewrite Hoa. split; [done|]. split; [done|]. by apply (cut_reads room). }
  assert (Forall (λ id, 0 ≤ id < 2 ^ 63)%Z ids) as Hr.
  { unfold ids, slot_words in *. rewrite Forall_map in *. eapply List.Forall_impl; [|exact Hsm]. intros r Hlt. pose proof (slot_word_range room c r Hc Ht). cbn in *. lia. }
  pose proof (length_slot_words c n) as Hlen. fold ids in Hlen.
  destruct (choice_spec debug hash ln ids (data_type c)) as [Hcst Hll]; [by destruct ids; cbn in Hlen; [lia|]|done|].
  set (meta := analyze_integer_chunk _ _ _ _ _ _ _) in *.
  destruct (reencode_spec lossy resident c w mgr meta room n (λ z, z ∈ ids) id ids) as (c' & E & Hp & Hs); try done.
  - apply lossless_encodes. intros zs src Hl HP Hsl Hsb Hw. apply Hll; [lia|done|by rewrite length_replicate|done|by apply bytes_ok_replicate|by apply words_block_of].
  - by apply list.Forall_forall.
  - unfold ids, slot_words. apply Forall2_fmap_r, Forall_Forall2_diag, list.Forall_forall. intros r _. apply id_word; [done|by apply (slot_word_range room)].
  - rewrite map_id in Hp. exists c'. split; [done|]. split; [done|]. pose proof Hs as (_ & _ & Ht' & _). destruct (decide (meta_compression meta = Constant)) as [Ec|Hnc].
    + intros r Hrn. rewrite get_value_scalar by (rewrite Ht'; by apply wide_scalar). destruct (is_null c' tx r); [done|]. unfold get_plain_value.
      rewrite (pk_meta c' meta ids Hp), decide_True by done. rewrite (proj1 (id_word _ _ Hid (slot_word_range room c r Hc Ht))). f_equal. apply Hcst; [done|].
      apply list_elem_of_lookup. exists (Z.to_nat r). by apply slot_words_lookup.
    + intros r Hrn. rewrite (packed_reads c' meta ids cs tx n Hp Hnc Hu) by (done || lia). unfold byte_at, ids. by rewrite slot_words_lookup, Ht' by done.
Qed.
End optimize.

Lemma optimize_unfold debug lossy hash ln resident d c w mgr :
  optimize debug lossy hash ln resident d c w mgr false =
  let '(c, w) := flush_pending_nulls c w in let '(c, o) := optimize_pages debug lossy hash ln resident c w mgr in ((c, w), o).
Proof. unfold optimize. by destruct (flush_pending_nulls c w). Qed.

(** VACUUM keeps ids: a column of unsigned integers or node ids with at most
    4096 counted values, all below [2^63], reads after [optimize] as it read
    before, for the transaction that runs it, whichever codec its values choose,
    other transactions running or not, and whatever the buffer pool keeps of the
    pages cut off. *)
Theorem optimize_keeps_ids debug lossy hash ln resident d c w mgr room n cs :
  column_ok room c → id_type (data_type c) = true → num_values (stats c) = Z.of_nat n → n ≤ 4096 → Forall (λ z, z < 2 ^ 63)%Z (slot_words c n) →
  ∃ c' w', optimize debug lossy hash ln resident d c w mgr false = ((c', w'), Ok tt) ∧
    ∀ r, (0 ≤ r < Z.of_nat n)%Z → get_value lossy (mkColumn c' cs) (w_tx_id w) r = get_value lossy (mkColumn c cs) (w_tx_id w) r.
Proof.
  intros Hc Hid HN Hn Hsm. pose proof (id_wide _ Hid) as Ht. rewrite optimize_unfold.
  pose proof (flush_pending_spec room c w Hc) as Hf. destruct (flush_pending_nulls c w) as [c0 w0]. destruct Hf as (Hc0 & (F1 & F2 & F3 & F4 & F5 & F6) & _ & Hnull).
  assert (∀ r, slot_word c0 r = slot_word c r) as Hs0 by (intros r; unfold slot_word; by rewrite F1, F4).
  assert (∃ c' , optimize_pages debug lossy hash ln resident c0 w0 mgr = (c', Ok tt) ∧ same_nulls c0 c' ∧
            reads_as lossy c' cs (w_tx_id w) n (λ r, word_value (data_type c) (slot_word c r))) as (c' & -> & Hsn & Hr).
  { destruct (optimize_pages_spec debug lossy hash ln resident c0 w0 mgr room n Hc0) as (c1 & Hcut & ->); [by rewrite F4|by rewrite F3|].
    assert (reads_as lossy c1 cs (w_tx_id w) n (λ r, word_value (data_type c) (slot_word c r))) as Hr1.
    { intros r Hr. rewrite (cut_reads lossy room n c0 c1 cs (w_tx_id w) Hcut) by (done || by rewrite F4). by rewrite F4, Hs0. }
    pose proof Hcut as [Hok1 Hsn Hcnt Hsl]. pose proof Hsn as (_ & _ & Hdt & _). destruct (bool_decide _ || _) eqn:Hb; [by exists c1|].
    apply orb_false_iff in Hb as [_ Hb]. apply bool_decide_eq_false in Hb.
    assert (slot_words c1 n = slot_words c n) as Ews.
    { apply map_ext_in. intros r Hr. apply list_elem_of_In, elem_of_seqZ in Hr. rewrite Hsl by lia. apply Hs0. }
    assert (map (λ r, word_value (data_type c0) (slot_word c0 r)) (seqZ 0 (Z.of_nat (n `min` 4096))) = VNode <$> slot_words c1 n) as ->.
    { rewrite Nat.min_l by lia. rewrite Ews. unfold slot_words. rewrite <- list_fmap_compose. apply map_ext. intros r. rewrite F4, Hs0.
      apply id_word; [done|by apply (slot_word_range room)]. }
    assert (choose_codec debug hash ln (data_type c0) (VNode <$> slot_words c1 n) = Some (analyze_integer_chunk debug hash ln (VNode <$> slot_words c1 n) (data_type c1) None None)) as ->.
    { rewrite Hdt, F4. by destruct (data_type c). }
    case_decide as Hu; [by exists c1|].
    destruct (reencode_ids debug lossy hash ln resident c1 w0 mgr room n cs (w_tx_id w) Hok1) as (c' & E & Hs' & Hr'); try done; [by rewrite Hdt, F4|lia|by rewrite Ews|].
    exists c'. split; [exact E|]. split.
    - destruct Hs' as (S1 & S2 & S3 & S4), Hsn as (T1 & T2 & T3 & T4). split_and!; congruence.
    - intros r Hr. rewrite Hr' by done. by rewrite Hdt, F4, Hsl, Hs0. }
  exists c', w0. split; [done|]. intros r Hrn. rewrite Hr by done. rewrite get_value_scalar by (by apply wide_scalar). rewrite (plain_word lossy room) by done.
  rewrite (is_null_same c0 c') by apply Hsn. by rewrite Hnull by lia.
Qed.

(** ** There and back *)

(** The word written back for a word read. *)
Definition back (t : LogicalType) (z : Z) : Z :=
  match t with TInt64 | TTimestamp => u64_as_i64 z | _ => z end.
Definition word_fits (t : LogicalType) (z : Z) : Prop :=
  (0 ≤ z < 2 ^ 64)%Z ∧ (t = TInt64 → - 2 ^ 53 < u64_as_i64 z < 2 ^ 53)%Z.

Lemma u64_as_i64_idem z : (0 ≤ z < 2 ^ 64)%Z → u64_as_i64 (u64_wrap (u64_as_i64 z)) = u64_as_i64 z.
Proof. intros Hz. apply u64_as_i64_wrap. unfold u64_as_i64, u64_wrap, is_i64. rewrite Z.mod_small by lia. case_decide; lia. Qed.

Lemma exact_back t z : wide t = true → word_fits t z → exact t z (back t z).
Proof.
  intros Ht [Hz Hi]. assert (u64_wrap z = z) as Ez by (unfold u64_wrap; by rewrite Z.mod_small).
  destruct t; try done; unfold exact, back, word_value; rewrite ?Ez; try done.
  - rewrite u64_as_i64_idem by done. split; [|done]. cbn [word]. f_equal. apply int_as_f64_exact. auto.
  - rewrite u64_as_i64_idem by done. done.
Qed.
Lemma exact_idem t z z' : exact t z z' → exact t z' z'.
Proof. intros [H1 H2]. unfold exact. by rewrite H2. Qed.

Definition always_lossless (k : CompressionType) : bool := match k with Rle | Dict => true | _ => false end.
Lemma always_encodes meta : always_lossless (meta_compression meta) = true → encodes (get_alg (meta_compression meta) 8) meta (λ _, True) id.
Proof.
  intros Hk. apply lossless_encodes. intros zs src Hl _ Hsl Hsb Hw. destruct (meta_compression meta); try done; cbn [get_alg].
  - refine (codec_lossless mkRle _ src _ _ Hsb (bytes_ok_replicate _ _ ltac:(done)) _). cbn [codec_admissible rle_lossless]. rewrite length_replicate. lia.
  - refine (codec_lossless mkDict _ src _ _ Hsb (bytes_ok_replicate _ _ ltac:(done)) _). cbn [codec_admissible dict_lossless]. rewrite length_replicate. lia.
Qed.

Lemma reencode_roundtrip_reads lossy debug resident c w mgr meta room n cs tx :
  column_ok room c → wide (data_type c) = true → other_active mgr w = false → num_values (stats c) = Z.of_nat n → 32 ≤ n →
  always_lossless (meta_compression meta) = true → Forall (word_fits (data_type c)) (slot_words c n) →
  ∃ c1 c2, reencode_compressed lossy resident c w mgr meta = (c1, Ok tt) ∧ decompress_all lossy c1 w mgr = (c2, Ok tt) ∧ column_ok room c2 ∧
    (∀ v row, append_value debug v (mkColumn c1 cs) w row = ((mkColumn c1 cs, w), Err Internal)) ∧
    (∀ w' mgr', other_active mgr' w' = true → decompress_all lossy c1 w' mgr' = (c1, Err Internal)) ∧
    ∀ r, (0 ≤ r < Z.of_nat n)%Z →
      get_value lossy (mkColumn c1 cs) tx r = get_value lossy (mkColumn c cs) tx r ∧
      get_value lossy (mkColumn c2 cs) tx r = get_value lossy (mkColumn c cs) tx r.
Proof.
  intros Hc Ht Hoa HN Hn Hk Hfit. set (t := data_type c) in *. set (zs := map (back t) (slot_words c n)).
  assert (Forall2 (exact t) (slot_words c n) zs) as Hex.
  { apply Forall2_fmap_r, Forall_Forall2_diag. eapply List.Forall_impl; [|exact Hfit]. intros z Hz. by apply exact_back. }
  destruct (reencode_spec lossy resident c w mgr meta room n (λ _, True) id zs) as (c1 & E1 & Hp & Hs); try done.
  { by apply always_encodes. } { by apply list.Forall_forall. } { by apply (Forall2_fmap_l (slot_word c)) in Hex. }
  rewrite map_id in Hp. pose proof Hs as (S1 & S2 & S3 & S4). fold t in S3. assert (length zs = n) as Hlen by (unfold zs; rewrite length_map; apply length_slot_words).
  assert (meta_compression meta ≠ Constant ∧ meta_compression meta ≠ Uncompressed) as [Hnc Hnu] by (by destruct (meta_compression meta)).
  destruct (decompress_spec lossy c1 w mgr meta zs zs room Hp Hnc Hnu) as (c2 & E2 & Hok2 & (T1 & T2 & T3 & T4) & _ & Hread).
  { rewrite S4. apply (ok_overflow room c Hc). } { rewrite S2. apply (ok_pending room c Hc). } { done. } { lia. }
  { rewrite S3. apply Forall_Forall2_diag. apply list.Forall_forall. intros z Hz. apply list_elem_of_lookup in Hz as [k Hz].
    destruct (Forall2_lookup_r _ _ _ _ _ Hex Hz) as (x & _ & Hx). by apply (exact_idem t x). }
  exists c1, c2. split; [done|]. split; [done|]. split; [done|]. split.
  { intros v row. pose proof (pk_compressed c1 meta zs Hp) as Hcmp. destruct v; cbn [append_value]; unfold ensure_writable; cbn [col]; by rewrite Hcmp. }
  split.
  { intros w' mgr' Ho. unfold decompress_all. by rewrite (pk_compressed c1 meta zs Hp), Ho. }
  intros r Hr. rewrite !get_value_scalar by (rewrite ?T3, ?S3; by apply wide_scalar). rewrite (is_null_same c c1), (is_null_same c c2) by congruence.
  destruct (is_null c tx r); [done|]. rewrite (plain_word lossy room c) by done. fold t.
  destruct (Forall2_lookup_l _ _ _ _ _ Hex (slot_words_lookup c n r Hr)) as (z' & Hz' & Hx).
  rewrite (packed_plain lossy c1 meta zs r z' Hp Hnc Hnu Hz') by lia. pose proof (Hread (Z.to_nat r) z' Hz') as Hr2. rewrite Z2Nat.id in Hr2 by lia.
  rewrite Hr2, S3. by rewrite (proj2 Hx).
Qed.

(** C36. Re-encoding a column and decompressing it
    (column.rs, [reencode_compressed], [decompress_all]), for an uncompressed
    column of an 8-byte type whose [n] counted slots, if signed integers, are
    below [2^53] in absolute value, and for run-length or dictionary coding.
    While another transaction is active, or when [n] is below 32, the call
    succeeds and changes nothing.  Otherwise the column is rewritten 32 values
    to a page; each of the [n] counted rows then reads as before, through the
    codec; every write is refused; decompressing is refused while another
    transaction is active, and otherwise brings back the writable layout with
    the same reads of the counted rows.  (Rows beyond the count are not
    rewritten: [vacuum_drops_appended].) *)
Theorem reencode_roundtrip lossy debug resident c w mgr meta room n cs tx :
  column_ok room c → wide (data_type c) = true → num_values (stats c) = Z.of_nat n →
  always_lossless (meta_compression meta) = true → Forall (word_fits (data_type c)) (slot_words c n) →
  (other_active mgr w = true ∨ n < 32 → reencode_compressed lossy resident c w mgr meta = (c, Ok tt)) ∧
  (other_active mgr w = false → 32 ≤ n →
   ∃ c1 c2, reencode_compressed lossy resident c w mgr meta = (c1, Ok tt) ∧ decompress_all lossy c1 w mgr = (c2, Ok tt) ∧ column_ok room c2 ∧
    (∀ v row, append_value debug v (mkColumn c1 cs) w row = ((mkColumn c1 cs, w), Err Internal)) ∧
    (∀ w' mgr', other_active mgr' w' = true → decompress_all lossy c1 w' mgr' = (c1, Err Internal)) ∧
    ∀ r, (0 ≤ r < Z.of_nat n)%Z →
      get_value lossy (mkColumn c1 cs) tx r = get_value lossy (mkColumn c cs) tx r ∧
      get_value lossy (mkColumn c2 cs) tx r = get_value lossy (mkColumn c cs) tx r).
Proof.
  intros Hc Ht HN Hk Hfit. split.
  { intros [Hoa|Hn]; unfold reencode_compressed; [by rewrite Hoa|]. destruct (other_active mgr w); [done|].
    by rewrite decide_True by lia. }
  intros Hoa Hn. by apply (reencode_roundtrip_reads lossy debug resident c w mgr meta room n cs tx).
Qed.

(** ** What VACUUM loses *)

(** Values appended one by one are not counted. *)
Lemma set_null_stats c w r b : stats (fst (set_null c w r b)) = stats c ∧ data_type (fst (set_null c w r b)) = data_type c.
Proof. unfold set_null, write_null_entries. by case_decide. Qed.
Lemma flush_stats c w : stats (fst (flush_pending_nulls c w)) = stats c ∧ data_type (fst (flush_pending_nulls c w)) = data_type c.
Proof. unfold flush_pending_nulls, write_null_entries. by case_decide. Qed.
Lemma pg_num_grow f p : (p < pg_num (grow_to f p))%Z.
Proof.
  unfold grow_to. assert (∀ n f, pg_num (add_pages n f) = pg_num f + Z.of_nat n)%Z as ->; [|lia].
  clear. induction n as [|n IH]; intros f; cbn [add_pages]; [lia|]. rewrite IH. cbn. lia.
Qed.

Lemma append_plain_count debug c w v r c' w' : append_plain_value debug c w v r = ((c', w'), Ok tt) → (0 ≤ r)%Z →
  num_values (stats c') = num_values (stats c) ∧ data_type c' = data_type c ∧ (0 < pg_num (fh c'))%Z.
Proof.
  unfold append_plain_value. cbn zeta. intros E Hr. destruct (serialize_value_into _ _ _ _) as [ofh [buf|e|]]; [|discriminate..].
  destruct (mark_row _ _ _ _) as [rv [e|]]; [discriminate|]. injection E as <- _. split; [|split; [done|]].
  - cbn [set_stats stats add_counts set_overflow set_fh]. unfold update_page_bounds.
    destruct v; try done; destruct (page_bounds_valid _); try done; cbn [negb]; by case_decide.
  - cbn [set_stats fh add_counts set_overflow set_fh put_page pg_num]. pose proof (pg_num_grow (fh c) (r / values_per_page (data_type c))).
    destruct (geometry (data_type c)) as (Hv & _). pose proof (Z.div_pos r _ Hr Hv). lia.
Qed.

Lemma append_count debug v C w r C' w' : scalar (data_type (col C)) = true → append_value debug v C w r = ((C', w'), Ok tt) → (0 ≤ r)%Z →
  num_values (stats (col C')) = num_values (stats (col C)) ∧ data_type (col C') = data_type (col C) ∧ (0 < pg_num (fh (col C')))%Z.
Proof.
  destruct C as [c cs], C' as [c' cs']. cbn [col]. intros Ht E Hr.
  pose proof (set_null_stats (set_dirty c) w r (is_null_value v)) as [Hs Hd]. cbn [set_dirty stats data_type] in Hs, Hd.
  assert (∃ d w0 u, num_values (stats d) = num_values (stats c) ∧ data_type d = data_type c ∧ append_plain_value debug d w0 u r = ((c', w'), Ok tt)) as (d & w0 & u & Hn & Hdt & Ep).
  { assert (∀ (r0 : result unit) (d : ColumnData), on_col (mkColumn d cs) r0 = ((mkColumn c' cs', w'), Ok tt) → r0 = ((c', w'), Ok tt)) as Hon.
    { intros [[a b] o] d. cbn. congruence. }
    destruct v; cbn [append_value] in E; unfold ensure_writable in E; cbn [col] in E; destruct (compressed c); try discriminate;
      cbn [is_null_value] in *; destruct (set_null _ _ _ _) as [dd w0]; cbn [fst] in Hs, Hd; cbn [child_columns] in E.
    all: first
      [ rewrite Hd in E; destruct (data_type c) eqn:Edt; try discriminate; apply Hon in E; eexists _, _, _; (split; [|split; [|exact E]]); congruence
      | pose proof (flush_stats dd w0) as [Hs2 Hd2]; destruct (flush_pending_nulls dd w0) as [d2 w2]; cbn [fst] in Hs2, Hd2; apply Hon in E;
        eexists _, _, _; (split; [|split; [|exact E]]); cbn; congruence ]. }
  destruct (append_plain_count debug d w0 u r c' w' Ep Hr) as (Hn' & Hd' & Hpg). split_and!; [congruence..|done].
Qed.

Lemma append_writes_count debug l C w C' w' : scalar (data_type (col C)) = true → append_writes debug l C w = ((C', w'), Ok tt) → Forall (λ e, 0 ≤ fst e)%Z l → l ≠ [] →
  num_values (stats (col C')) = num_values (stats (col C)) ∧ (0 < pg_num (fh (col C')))%Z.
Proof.
  revert C w. induction l as [|[r v] l IH]; intros C w Ht E Hl Hne; [done|]. inversion_clear Hl as [|? ? Hr Hl']. cbn [append_writes] in E.
  destruct (append_value debug v C w r) as [[C1 w1] [[]|e|]] eqn:Ea; [|discriminate..].
  destruct (append_count debug v C w r C1 w1 Ht Ea Hr) as (Hn & Hd & Hp). destruct l as [|e l]; [by injection E as <- <-|].
  destruct (IH C1 w1) as [Hn' Hp']; try done; [by rewrite Hd|]. split; [congruence|done].
Qed.

Lemma of_le_zeros n : of_le (replicate n 0%Z) = 0%Z.
Proof. induction n as [|n IH]; [done|]. change (Z.lor 0 (Z.shiftl (of_le (replicate n 0%Z)) 8) = 0%Z). by rewrite IH. Qed.

(** VACUUM drops values appended one by one: they are not in the value count
    ([append_value] counts them only in [atomic_num_values]), so [optimize] finds
    that a column filled that way needs no page and cuts them all.  A column of
    8-byte values that has no counted value takes any writes and holds them; once
    no frame of its pages is left in the buffer pool, after [optimize] every row
    that is not null reads as zero. *)
Theorem vacuum_drops_appended debug lossy hash ln d l room c cs w mgr :
  column_ok (sum_list_with (need ∘ snd) l + room) c → wide (data_type c) = true → num_values (stats c) = 0%Z → rv_wf (w_versions w) →
  Forall (λ e, (0 ≤ fst e)%Z ∧ storable c (snd e) ∧ may_write w (fst e)) l → l ≠ [] →
  ∃ c1 w1 c2 w2, append_writes debug l (mkColumn c cs) w = ((mkColumn c1 cs, w1), Ok tt) ∧
    (∀ r v, write_all_rows (data_type c) l ∅ !! r = Some v → get_value lossy (mkColumn c1 cs) (w_tx_id w) r = Ok v) ∧
    optimize debug lossy hash ln (λ _, false) d c1 w1 mgr false = ((c2, w2), Ok tt) ∧
    ∀ r, (0 ≤ r)%Z → get_value lossy (mkColumn c2 cs) (w_tx_id w) r = if is_null c1 (w_tx_id w) r then Ok VNull else Ok (word_value (data_type c) 0).
Proof.
  intros Hc Ht HN Hwf Hl Hne. pose proof (wide_scalar _ Ht) as Hsc.
  destruct (append_writes_spec debug lossy l room c cs w ∅ Hc Hsc Hwf) as (c1 & w1 & E & Hc1 & Ht1 & _ & _ & _ & Htx & _ & Hrep); [by intros r v|done|].
  destruct (append_writes_count debug l (mkColumn c cs) w (mkColumn c1 cs) w1 Hsc E) as [Hn1 Hp1]; [|done|].
  { eapply List.Forall_impl; [|exact Hl]. by intros e (He & _). }
  cbn [col] in Hn1, Hp1. rewrite HN in Hn1.
  exists c1, w1. rewrite optimize_unfold. pose proof (flush_pending_spec room c1 w1 Hc1) as Hf. destruct (flush_pending_nulls c1 w1) as [c0 w0].
  destruct Hf as (Hc0 & (F1 & F2 & F3 & F4 & F5 & F6) & _ & Hnull). rewrite Htx in Hnull.
  unfold optimize_pages. rewrite F1, F3, Hn1, !(decide_False (P := pg_num _ = _)), (decide_True (P := (0 = 0)%Z)) by (done || lia). rewrite decide_True by done.
  cbn [set_fh set_dirty stats]. rewrite F3, (ok_meta room c1 Hc1), decide_True by lia. eexists _, w0. split; [done|]. split.
  { intros r v Hr. apply (holds_get lossy c1 cs _ r v room); [done|by rewrite Ht1|]. by apply Hrep. }
  split; [reflexivity|]. intros r Hr. rewrite get_value_scalar by (cbn; by rewrite F4, Ht1). set (c2 := set_fh _ _).
  assert (is_null c2 (w_tx_id w) r = is_null c1 (w_tx_id w) r) as -> by (rewrite <- Hnull by done; by apply is_null_same).
  destruct (is_null c1 (w_tx_id w) r); [done|]. assert (column_ok room c2) as Hc2.
  { destruct Hc0 as [K1 K2 K3 K4 K5 K6]. constructor; try done. apply pages_ok_truncate. by rewrite <- F1. }
  assert (data_type c2 = data_type c) as Hd2 by (cbn; congruence). rewrite (plain_word lossy room) by (done || by rewrite Hd2). rewrite Hd2. do 2 f_equal.
  unfold slot_word. rewrite Hd2. unfold slot, c2. cbn [set_fh fh]. destruct (wide_size _ Ht) as (Hes & Hvpp & _). rewrite Hvpp, Hes. rewrite truncate_gone.
  - unfold zero_page, slice. rewrite drop_replicate, take_replicate. by apply of_le_zeros.
  - split; [done|]. apply Z.div_pos; lia.
  - done.
Qed.

(** ALP writes the blocks of small doubles as zeros. *)
Lemma alp_encodes_zero meta : encodes (get_alg Alp 8) meta (λ z, small z = true ∧ 0 ≤ z < 2 ^ 64)%Z (λ _, 0%Z).
Proof.
  intros zs src Hn HP Hs Hb Hw. cbn [get_alg].
  assert (∀ i, i < length zs → small (of_le (slice src (i * 8) (i * 8 + 8))) = true) as Hsm.
  { intros i Hi. assert (Forall (λ z, z ∈ zs) zs) as Hall by (by apply list.Forall_forall). destruct (words_block_of zs zs src Hall Hw i Hi) as (z & Hz & Ez).
    rewrite list.Forall_forall in HP. destruct (HP z Hz) as [Hzs Hzr]. unfold chunk8 in Ez. rewrite Ez. rewrite of_le_to_le_id; [done|exact Hzr]. }
  destruct (alp_compress_small src (length zs) (replicate 4096 0%Z) meta Hn) as (p & Hp & E); [lia|rewrite length_replicate; lia|done|].
  set (body := [Z.of_nat (fst p); Z.of_nat (snd p)] ++ replicate (length zs * 8) 0%Z) in *. assert (length body = 2 + length zs * 8) as Hbl by (unfold body; rewrite length_app, length_replicate; done).
  assert (bytes_ok body) as Hbb.
  { destruct (alp_pairs_small p Hp). unfold body. cbn [app]. apply list.Forall_cons; split; [unfold is_u8; lia|]. apply list.Forall_cons; split; [unfold is_u8; lia|]. by apply bytes_ok_replicate. }
  set (dst := splice (replicate 4096 0%Z) 0 body) in *. assert (length dst = 4096) as Hdl by (unfold dst; rewrite length_splice; rewrite ?length_replicate; lia).
  exists dst, (2 + length zs * 8). split; [exact E|]. split; [lia|]. split; [done|]. split; [apply bytes_ok_splice; [by apply bytes_ok_replicate|done]|].
  intros off cnt out dof Hoff Hout. rewrite length_map in Hoff. assert (take (2 + length zs * 8) dst = body) as Etk.
  { unfold dst, splice. rewrite take_0. cbn [app]. rewrite take_app_le by lia. apply take_ge. lia. }
  assert (decompress_from_page (DynAlp mkAlp) (splice zero_page 0 (take (2 + length zs * 8) dst)) off out dof cnt meta = Ok (splice out (dof * 8) (replicate (cnt * 8) 0%Z))) as Hd.
  { apply (alp_reads_zero _ p (length zs)); try done; [|lia]. rewrite Etk. unfold splice. rewrite take_0. cbn [app]. rewrite take_app_le by lia. apply take_ge, Nat.eq_le_incl, Hbl. }
  etransitivity; [exact Hd|]. do 2 f_equal. assert (map (λ _ : Z, 0%Z) zs = replicate (length zs) 0%Z) as Em.
  { clear. induction zs as [|z zs IH]; [done|]. cbn. by rewrite IH. }
  rewrite Em. unfold slice. rewrite drop_replicate, take_replicate, Nat.min_l by lia. replace (off + cnt - off) with cnt by lia.
  clear. induction cnt as [|cnt IH]; [done|]. change (S cnt * 8) with (8 + cnt * 8). rewrite replicate_add. cbn [replicate]. rewrite words_cons. by rewrite IH.
Qed.

(** VACUUM erases a column of doubles: doubles always get ALP, whose encoder
    divides where it should multiply, so for a column of at least 32 counted
    doubles below [2^56] in absolute value [optimize], run with no other
    transaction active, succeeds and afterwards every row that is not null reads
    as 0.0. *)
Theorem vacuum_erases_doubles debug lossy hash ln resident d c w mgr room n cs :
  column_ok room c → data_type c = TDouble → num_values (stats c) = Z.of_nat n → 32 ≤ n → pg_num (fh c) ≠ 0%Z → other_active mgr w = false →
  Forall (λ z, small z = true) (slot_words c n) →
  ∃ c' w', optimize debug lossy hash ln resident d c w mgr false = ((c', w'), Ok tt) ∧
    ∀ r, (0 ≤ r < Z.of_nat n)%Z → get_value lossy (mkColumn c' cs) (w_tx_id w) r = if is_null c (w_tx_id w) r then Ok VNull else Ok (VNumber 0).
Proof.
  intros Hc Hty HN Hn Hpg Hoa Hsm. assert (wide (data_type c) = true) as Ht by (by rewrite Hty). rewrite optimize_unfold.
  pose proof (flush_pending_spec room c w Hc) as Hf. destruct (flush_pending_nulls c w) as [c0 w0]. destruct Hf as (Hc0 & (F1 & F2 & F3 & F4 & F5 & F6) & (G1 & G2 & G3) & Hnull).
  assert (∀ r, slot_word c0 r = slot_word c r) as Hs0 by (intros r; unfold slot_word; by rewrite F1, F4).
  destruct (optimize_pages_spec debug lossy hash ln resident c0 w0 mgr room n Hc0) as (c1 & Hcut & ->); [by rewrite F4|by rewrite F3|].
  rewrite bool_decide_false, bool_decide_false by (rewrite ?F1; done || lia). cbn [orb]. rewrite F4, Hty. cbn [choose_codec].
  set (vals := map _ _). assert (∃ v0 rest, vals = v0 :: rest) as (v0 & rest & Ev).
  { unfold vals. destruct n as [|n]; [lia|]. rewrite seqZ_cons by (pose proof (Nat.min_spec (S n) 4096); lia). by eexists _, _. }
  set (meta := analyze_float_chunk debug vals). assert (meta_compression meta = Alp) as Ha by (unfold meta, analyze_float_chunk; by rewrite Ev). rewrite decide_False by (by rewrite Ha).
  pose proof Hcut as [Hok1 (S1 & S2 & S3 & S4) Hcnt Hsl].
  assert (slot_words c1 n = slot_words c n) as Ews.
  { apply map_ext_in. intros r Hr. apply list_elem_of_In, elem_of_seqZ in Hr. rewrite Hsl by lia. apply Hs0. }
  destruct (reencode_spec lossy resident c1 w0 mgr meta room n (λ z, small z = true ∧ 0 ≤ z < 2 ^ 64)%Z (λ _, 0%Z) (slot_words c1 n)) as (c' & E & Hp & (T1 & T2 & T3 & T4)); try done.
  - by rewrite S3, F4.
  - unfold other_active in *. by rewrite G1.
  - rewrite Ha. apply alp_encodes_zero.
  - rewrite Ews. unfold slot_words in *. rewrite Forall_map in *. eapply List.Forall_impl; [|exact Hsm]. intros r Hr. split; [done|by apply (slot_word_range room)].
  - unfold slot_words. apply Forall2_fmap_r, Forall_Forall2_diag, list.Forall_forall. intros r _. rewrite S3, F4, Hty.
    apply (exact_back TDouble); [done|]. split; [|done]. apply (slot_word_range room); [done|by rewrite S3, F4].
  - rewrite E. exists c', w0. split; [done|]. intros r Hr. assert (meta_compression meta ≠ Constant ∧ meta_compression meta ≠ Uncompressed) as [Hnc Hnu] by (by rewrite Ha).
    rewrite (packed_reads lossy c' meta _ cs (w_tx_id w) n Hp Hnc Hnu) by (done || rewrite length_map, length_slot_words; lia).
    rewrite (is_null_same c0 c') by congruence. rewrite Hnull by lia. destruct (is_null c (w_tx_id w) r); [done|]. unfold byte_at.
    rewrite T3, S3, F4, Hty, list_lookup_fmap, slot_words_lookup by done. done.
Qed.

(** ** Witnesses *)

(** A column of counted values, in one page. *)
Definition demo_wide (t : LogicalType) (zs : list Z) : ColumnData :=
  set_stats (set_fh (demo_column t None) (mkPages {[ 0%Z := splice zero_page 0 (words zs) ]} 1))
    (mkStats None None 0 (Z.of_nat (length zs)) 0 None None [] false).
Definition demo_disk : Disk := mkDisk (open [] []) (open [] []) None.

Lemma demo_wide_ok t zs : length zs ≤ 512 → column_ok 0 (demo_wide t zs).
Proof.
  intros Hl. destruct (empty_column_ok 0 t None I) as [H1 H2 H3 H4 H5 H6]. constructor; try done.
  intros i p Hp. cbn [demo_wide set_stats set_fh fh pg_data] in Hp. apply lookup_singleton_Some in Hp as [_ <-].
  pose proof PAGE_SIZE_val. assert (length zero_page = 4096) as Hz by (unfold zero_page; rewrite length_replicate; lia).
  split; [rewrite length_splice; rewrite ?length_words; lia|apply bytes_ok_splice; [by apply bytes_ok_replicate|apply words_ok]].
Qed.

(** Forty ids in a few runs. *)
Definition demo_column_ids : ColumnData := demo_wide TUint64 (map (λ k, 100 + k / 10)%Z (seqZ 0 40)).

Lemma optimize_keeps_ids_witness :
  ∃ c' w', optimize demo_debug demo_lossy demo_hash demo_ln (λ _, false) demo_disk demo_column_ids demo_tx None false = ((c', w'), Ok tt) ∧
    ∀ r, (0 ≤ r < Z.of_nat 40)%Z → get_value demo_lossy (mkColumn c' []) (w_tx_id demo_tx) r = get_value demo_lossy (mkColumn demo_column_ids []) (w_tx_id demo_tx) r.
Proof.
  apply (optimize_keeps_ids demo_debug demo_lossy demo_hash demo_ln (λ _, false) demo_disk demo_column_ids demo_tx None 0 40 []).
  - apply demo_wide_ok. by_compute.
  - reflexivity.
  - reflexivity.
  - lia.
  - by_compute.
Defined.

Lemma reencode_roundtrip_witness :
  ∃ c1 c2, reencode_compressed demo_lossy (λ _, false) demo_column_ids demo_tx None (mkMeta VNull VNull Rle 0) = (c1, Ok tt) ∧
    decompress_all demo_lossy c1 demo_tx None = (c2, Ok tt) ∧ column_ok 0 c2 ∧
    (∀ v row, append_value demo_debug v (mkColumn c1 []) demo_tx row = ((mkColumn c1 [], demo_tx), Err Internal)) ∧
    (∀ w' mgr', other_active mgr' w' = true → decompress_all demo_lossy c1 w' mgr' = (c1, Err Internal)) ∧
    ∀ r, (0 ≤ r < Z.of_nat 40)%Z →
      get_value demo_lossy (mkColumn c1 []) 7 r = get_value demo_lossy (mkColumn demo_column_ids []) 7 r ∧
      get_value demo_lossy (mkColumn c2 []) 7 r = get_value demo_lossy (mkColumn demo_column_ids []) 7 r.
Proof.
  refine (proj2 (reencode_roundtrip demo_lossy demo_debug (λ _, false) demo_column_ids demo_tx None (mkMeta VNull VNull Rle 0) 0 40 [] 7 _ _ _ _ _) _ _).
  - apply demo_wide_ok. by_compute.
  - reflexivity.
  - reflexivity.
  - reflexivity.
  - assert (Forall (λ z, 0 ≤ z < 2 ^ 64)%Z (slot_words demo_column_ids 40)) as H by by_compute. eapply List.Forall_impl; [|exact H]. intros z Hz. by split.
  - reflexivity.
  - lia.
Defined.

(** Two ids, written one by one. *)
Definition demo_singles : list (Z * Value) := [(0, VNode 17); (1, VNode 18)]%Z.

Lemma vacuum_drops_appended_witness :
  ∃ c1 w1 c2 w2, append_writes demo_debug demo_singles (mkColumn (demo_column TUint64 None) []) demo_tx = ((mkColumn c1 [], w1), Ok tt) ∧
    (∀ r v, write_all_rows TUint64 demo_singles ∅ !! r = Some v → get_value demo_lossy (mkColumn c1 []) 7 r = Ok v) ∧
    optimize demo_debug demo_lossy demo_hash demo_ln (λ _, false) demo_disk c1 w1 None false = ((c2, w2), Ok tt) ∧
    ∀ r, (0 ≤ r)%Z → get_value demo_lossy (mkColumn c2 []) 7 r = if is_null c1 7 r then Ok VNull else Ok (word_value TUint64 0).
Proof.
  apply (vacuum_drops_appended demo_debug demo_lossy demo_hash demo_ln demo_disk demo_singles 0 (demo_column TUint64 None) [] demo_tx None).
  - by apply empty_column_ok.
  - reflexivity.
  - reflexivity.
  - by_compute.
  - apply write_test_sound. vm_compute. reflexivity.
  - discriminate.
Defined.

(** The prices 1234.01 to 1234.40. *)
Definition demo_doubles : list Z := map (λ k, f64_to_bits (Alp.f64_div (f64_of_int (123400 + k)) (f64_of_int 100))) (seqZ 1 40).

Lemma vacuum_erases_doubles_witness :
  ∃ c' w', optimize demo_debug demo_lossy demo_hash demo_ln (λ _, false) demo_disk (demo_wide TDouble demo_doubles) demo_tx None false = ((c', w'), Ok tt) ∧
    ∀ r, (0 ≤ r < Z.of_nat 40)%Z →
      get_value demo_lossy (mkColumn c' []) (w_tx_id demo_tx) r = if is_null (demo_wide TDouble demo_doubles) (w_tx_id demo_tx) r then Ok VNull else Ok (VNumber 0).
Proof.
  apply (vacuum_erases_doubles demo_debug demo_lossy demo_hash demo_ln (λ _, false) demo_disk (demo_wide TDouble demo_doubles) demo_tx None 0 40 []).
  - apply demo_wide_ok. by_compute.
  - reflexivity.
  - reflexivity.
  - lia.
  - discriminate.
  - reflexivity.
  - by_compute.
Defined.
