(* ===== verification/Catalog.v ===== *)
(** * Catalog (catalog/catalog.rs, catalog/lazy_catalog.rs)

    Node and relationship tables with their properties, sequences, macros and
    constraints, and the lazily saved wrapper.  A Rust [HashMap] is a finite map;
    where the code iterates over one, the order is a parameter [iter] that may be
    any permutation of its entries.  Bodies of macros are expressions of an
    abstract type; [serde_json] is a parameter with its documented round trip. *)
From stdpp Require Import base list gmap strings numbers.
From Stdlib Require Import ZArith Lia Bool.
From S2P Require Import Prelude Codec Stats Persist.
Open Scope nat_scope.

(** ** Entries *)

Record PropertyDefinition := mkProp { prop_name : string; prop_type : LogicalType }.
Record NodeConstraint := mkConstraint { c_name : string; c_property : string }.

#[global] Instance NodeConstraint_eq_dec : EqDecision NodeConstraint.
Proof. solve_decision. Defined.

Record NodeTableCatalogEntry := mkNode {
  nt_name : string;
  nt_properties : list PropertyDefinition;
  nt_num_rows : Z;
  nt_next_row_id : Z;
  nt_primary_key : option string;
  nt_constraints : list NodeConstraint;
  nt_stats : TableStats;
  nt_secondary_indexes : gmap string string;
}.
Record RelTableCatalogEntry := mkRel {
  rt_name : string;
  rt_from_table : string;
  rt_to_table : string;
  rt_properties : list PropertyDefinition;
  rt_num_rows : Z;
  rt_next_row_id : Z;
  rt_stats : TableStats;
}.
Record SequenceCatalogEntry := mkSeq { seq_name : string; seq_next_val : Z; seq_increment : Z }.

(** Field updates ([entry.name = ..], [entry.properties] through [TableLike]). *)
Definition nt_with_name (e : NodeTableCatalogEntry) (n : string) : NodeTableCatalogEntry :=
  mkNode n (nt_properties e) (nt_num_rows e) (nt_next_row_id e) (nt_primary_key e) (nt_constraints e) (nt_stats e) (nt_secondary_indexes e).
Definition nt_with_properties (e : NodeTableCatalogEntry) (ps : list PropertyDefinition) : NodeTableCatalogEntry :=
  mkNode (nt_name e) ps (nt_num_rows e) (nt_next_row_id e) (nt_primary_key e) (nt_constraints e) (nt_stats e) (nt_secondary_indexes e).
Definition nt_with_constraints (e : NodeTableCatalogEntry) (cs : list NodeConstraint) : NodeTableCatalogEntry :=
  mkNode (nt_name e) (nt_properties e) (nt_num_rows e) (nt_next_row_id e) (nt_primary_key e) cs (nt_stats e) (nt_secondary_indexes e).
Definition nt_with_indexes (e : NodeTableCatalogEntry) (ix : gmap string string) : NodeTableCatalogEntry :=
  mkNode (nt_name e) (nt_properties e) (nt_num_rows e) (nt_next_row_id e) (nt_primary_key e) (nt_constraints e) (nt_stats e) ix.
Definition rt_with_name (e : RelTableCatalogEntry) (n : string) : RelTableCatalogEntry :=
  mkRel n (rt_from_table e) (rt_to_table e) (rt_properties e) (rt_num_rows e) (rt_next_row_id e) (rt_stats e).
Definition rt_with_properties (e : RelTableCatalogEntry) (ps : list PropertyDefinition) : RelTableCatalogEntry :=
  mkRel (rt_name e) (rt_from_table e) (rt_to_table e) ps (rt_num_rows e) (rt_next_row_id e) (rt_stats e).
Definition rt_rename_ref (old_name new_name : string) (e : RelTableCatalogEntry) : RelTableCatalogEntry :=
  mkRel (rt_name e) (if decide (rt_from_table e = old_name) then new_name else rt_from_table e)
        (if decide (rt_to_table e = old_name) then new_name else rt_to_table e)
        (rt_properties e) (rt_num_rows e) (rt_next_row_id e) (rt_stats e).

Section catalog.
Context {Expression : Type}.

Record MacroCatalogEntry := mkMacro { mac_name : string; mac_params : list string; mac_body : Expression }.

Record Catalog := mkCatalog {
  node_tables : gmap string NodeTableCatalogEntry;
  rel_tables : gmap string RelTableCatalogEntry;
  sequences : gmap string SequenceCatalogEntry;
  macros : gmap string MacroCatalogEntry;
  constraint_by_name : gmap string (string * nat);
}.

Inductive TableEntry := TNodeEntry (e : NodeTableCatalogEntry) | TRelEntry (e : RelTableCatalogEntry).

Definition set_nodes (c : Catalog) (m : gmap string NodeTableCatalogEntry) : Catalog :=
  mkCatalog m (rel_tables c) (sequences c) (macros c) (constraint_by_name c).
Definition set_rels (c : Catalog) (m : gmap string RelTableCatalogEntry) : Catalog :=
  mkCatalog (node_tables c) m (sequences c) (macros c) (constraint_by_name c).
Definition set_sequences (c : Catalog) (m : gmap string SequenceCatalogEntry) : Catalog :=
  mkCatalog (node_tables c) (rel_tables c) m (macros c) (constraint_by_name c).
Definition set_macros (c : Catalog) (m : gmap string MacroCatalogEntry) : Catalog :=
  mkCatalog (node_tables c) (rel_tables c) (sequences c) m (constraint_by_name c).
Definition set_constraint_index (c : Catalog) (m : gmap string (string * nat)) : Catalog :=
  mkCatalog (node_tables c) (rel_tables c) (sequences c) (macros c) m.

Definition catalog_new : Catalog := mkCatalog ∅ ∅ ∅ ∅ ∅.

(** ** Properties of tables *)

Definition is_builtin_column (name : string) : bool :=
  bool_decide (name = "_id"%string) || bool_decide (name = "_src"%string) || bool_decide (name = "_dst"%string).

(** [get_table_mut(t)?.properties_mut()], handed to [f], which gives the new
    properties and a result. *)
Definition with_properties {R} (c : Catalog) (table_name : string)
    (f : list PropertyDefinition → list PropertyDefinition * outcome R) : Catalog * outcome R :=
  match node_tables c !! table_name with
  | Some e =>
      let '(ps, r) := f (nt_properties e) in (set_nodes c (<[table_name := nt_with_properties e ps]> (node_tables c)), r)
  | None =>
      match rel_tables c !! table_name with
      | Some e =>
          let '(ps, r) := f (rt_properties e) in (set_rels c (<[table_name := rt_with_properties e ps]> (rel_tables c)), r)
      | None => (c, Err Database)
      end
  end.

Definition has_column (ps : list PropertyDefinition) (n : string) : bool := existsb (λ p, bool_decide (prop_name p = n)) ps.
(** [iter().position(|p| p.name == n)] *)
Definition column_position (ps : list PropertyDefinition) (n : string) : option nat :=
  fst <$> list_find (λ p, prop_name p = n) ps.

Definition push_column (n : string) (t : LogicalType) (ps : list PropertyDefinition) :
    list PropertyDefinition * outcome unit :=
  if has_column ps n then (ps, Err Database) else (ps ++ [mkProp n t], Ok tt).
Definition add_column_to_table (c : Catalog) (table_name col_name : string) (col_type : LogicalType) :
    Catalog * outcome unit :=
  if is_builtin_column col_name then (c, Err Database) else with_properties c table_name (push_column col_name col_type).

(** [props.remove(position)] *)
Definition pop_column (n : string) (ps : list PropertyDefinition) : list PropertyDefinition * outcome PropertyDefinition :=
  match list_find (λ p, prop_name p = n) ps with
  | Some (i, p) => (delete i ps, Ok p)
  | None => (ps, Err Database)
  end.
Definition remove_column_from_table (c : Catalog) (table_name col_name : string) : Catalog * outcome PropertyDefinition :=
  if is_builtin_column col_name then (c, Err Database) else with_properties c table_name (pop_column col_name).

(** [iter_mut().find(|p| p.name == old)], then [col.name = new] *)
Definition rename_column (old_name new_name : string) (ps : list PropertyDefinition) : list PropertyDefinition * outcome unit :=
  if has_column ps new_name then (ps, Err Database)
  else match list_find (λ p, prop_name p = old_name) ps with
       | Some (i, p) => (<[i := mkProp new_name (prop_type p)]> ps, Ok tt)
       | None => (ps, Err Database)
       end.
Definition rename_column_in_table (c : Catalog) (table_name old_name new_name : string) : Catalog * outcome unit :=
  if is_builtin_column old_name || is_builtin_column new_name then (c, Err Database)
  else with_properties c table_name (rename_column old_name new_name).

(** ** Tables *)

Definition table_exists (c : Catalog) (name : string) : bool :=
  bool_decide (is_Some (node_tables c !! name)) || bool_decide (is_Some (rel_tables c !! name)).

Definition rename_table (c : Catalog) (old_name new_name : string) : Catalog * outcome unit :=
  if table_exists c new_name then (c, Err Database)
  else match node_tables c !! old_name with
       | Some e =>
           (set_rels (set_nodes c (<[new_name := nt_with_name e new_name]> (delete old_name (node_tables c))))
                     (rt_rename_ref old_name new_name <$> rel_tables c), Ok tt)
       | None =>
           match rel_tables c !! old_name with
           | Some e => (set_rels c (<[new_name := rt_with_name e new_name]> (delete old_name (rel_tables c))), Ok tt)
           | None => (c, Err Database)
           end
       end.

Definition new_node (name : string) (properties : list PropertyDefinition) (primary_key : option string) :
    NodeTableCatalogEntry :=
  let properties := mkProp "_id" TUint64 :: properties in
  mkNode name properties 0 0 primary_key [] (table_stats_new (length properties)) ∅.
Definition add_node_table (c : Catalog) (name : string) (properties : list PropertyDefinition) (primary_key : option string) :
    Catalog * outcome unit :=
  if table_exists c name then (c, Err Database)
  else (set_nodes c (<[name := new_node name properties primary_key]> (node_tables c)), Ok tt).

Definition new_rel (name from to : string) (properties : list PropertyDefinition) : RelTableCatalogEntry :=
  let properties := mkProp "_src" TUint64 :: mkProp "_dst" TUint64 :: properties in
  mkRel name from to properties 0 0 (table_stats_new (length properties)).
Definition add_rel_table (c : Catalog) (name from to : string) (properties : list PropertyDefinition) : Catalog * outcome unit :=
  if table_exists c name then (c, Err Database)
  else (set_rels c (<[name := new_rel name from to properties]> (rel_tables c)), Ok tt).

Definition remove_table (c : Catalog) (name : string) : Catalog :=
  set_rels (set_nodes c (delete name (node_tables c))) (delete name (rel_tables c)).

Definition get_node_table (c : Catalog) (name : string) : option NodeTableCatalogEntry := node_tables c !! name.
Definition get_rel_table (c : Catalog) (name : string) : option RelTableCatalogEntry := rel_tables c !! name.
Definition get_table_properties (c : Catalog) (name : string) : option (list PropertyDefinition * Z) :=
  match node_tables c !! name with
  | Some t => Some (nt_properties t, 0%Z)
  | None => (λ t, (rt_properties t, 1%Z)) <$> rel_tables c !! name
  end.

(** ** Sequences and macros *)

Definition add_sequence (c : Catalog) (name : string) (start_val increment : Z) : Catalog * outcome unit :=
  match sequences c !! name with
  | Some _ => (c, Err Database)
  | None => (set_sequences c (<[name := mkSeq name start_val increment]> (sequences c)), Ok tt)
  end.

(** [saturating_add] and [saturating_sub] on [u64] *)
Definition next_val (c : Catalog) (name : string) : Catalog * option Z :=
  match sequences c !! name with
  | Some q =>
      let next :=
        if decide (0 ≤ seq_increment q)%Z then Z.min (seq_next_val q + seq_increment q) u64_MAX
        else Z.max (seq_next_val q - Z.abs (seq_increment q)) 0 in
      (set_sequences c (<[name := mkSeq (seq_name q) next (seq_increment q)]> (sequences c)), Some (seq_next_val q))
  | None => (c, None)
  end.

Definition add_macro (c : Catalog) (name : string) (params : list string) (body : Expression) : Catalog * outcome unit :=
  match macros c !! name with
  | Some _ => (c, Err Database)
  | None => (set_macros c (<[name := mkMacro name params body]> (macros c)), Ok tt)
  end.
Definition get_macro (c : Catalog) (name : string) : option MacroCatalogEntry := macros c !! name.

(** ** Constraints *)

(** The order in which a [HashMap] yields its entries. *)
Context (iter : ∀ A, gmap string A → list (string * A)).

(** [constraint_by_name.insert] for the constraints of one table. *)
Fixpoint index_constraints (t : string) (pos : nat) (cs : list NodeConstraint) (m : gmap string (string * nat)) :
    gmap string (string * nat) :=
  match cs with
  | [] => m
  | k :: cs => index_constraints t (S pos) cs (<[c_name k := (t, pos)]> m)
  end.
Definition rebuild_constraint_index (c : Catalog) : Catalog :=
  set_constraint_index c
    (foldl (λ m te, index_constraints (fst te) 0 (nt_constraints (snd te)) m) ∅ (iter _ (node_tables c))).

Definition add_constraint (c : Catalog) (table_name : string) (k : NodeConstraint) : Catalog * outcome unit :=
  match node_tables c !! table_name with
  | None => (c, Err Database)
  | Some table =>
      let cs := nt_constraints table in
      if existsb (λ k', bool_decide (c_name k' = c_name k)) cs then (c, Err Database)
      else if existsb (λ k', bool_decide (c_property k' = c_property k)) cs then (c, Err Database)
      else
        let c1 := set_nodes c (<[table_name := nt_with_constraints table (cs ++ [k])]> (node_tables c)) in
        (set_constraint_index c1 (<[c_name k := (table_name, length cs)]> (constraint_by_name c)), Ok tt)
  end.

Definition remove_constraint (c : Catalog) (constraint_name : string) : Catalog * outcome (string * NodeConstraint) :=
  match constraint_by_name c !! constraint_name with
  | None => (c, Err Database)
  | Some (table_name, pos) =>
      let c1 := set_constraint_index c (delete constraint_name (constraint_by_name c)) in
      match node_tables c !! table_name with
      | Some table =>
          match nt_constraints table !! pos with
          | Some k =>
              let c2 := set_nodes c1 (<[table_name := nt_with_constraints table (delete pos (nt_constraints table))]> (node_tables c)) in
              (rebuild_constraint_index c2, Ok (table_name, k))
          | None => (rebuild_constraint_index c1, Err Database)
          end
      | None => (rebuild_constraint_index c1, Err Database)
      end
  end.

(** The first table, in iteration order, with such a constraint. *)
Fixpoint find_constraint (l : list (string * NodeTableCatalogEntry)) (name : string) : option (string * NodeConstraint) :=
  match l with
  | [] => None
  | (t, e) :: l =>
      match list_find (λ k, c_name k = name) (nt_constraints e) with
      | Some (_, k) => Some (t, k)
      | None => find_constraint l name
      end
  end.
Definition get_constraint (c : Catalog) (constraint_name : string) : option (string * NodeConstraint) :=
  find_constraint (iter _ (node_tables c)) constraint_name.

(** ** Saving and loading *)

(** [serde_json::to_vec] and [from_reader]; the constraint index is skipped. *)
Context (to_json : Catalog → option (list Z)) (from_json : list Z → option Catalog).

(** [std::fs::write] of the shadow file, [rename], then the sync of the directory. *)
Definition catalog_save_ops (path : Path) (buf : list Z) : list fs_op :=
  let shadow := with_extension path "ltng.shadow" in
  [FsCreate shadow; FsWrite shadow buf; FsRename shadow path; FsSync path].
Definition save_to_disk (fail_at : option nat) (c : Catalog) (path : Path) (s : fs) : fs * outcome unit :=
  match to_json c with
  | None => (s, Err Database)
  | Some buf => fs_try fail_at (catalog_save_ops path buf) s
  end.
Definition load_from_disk (path : Path) (s : fs) : outcome Catalog :=
  match s !! path with
  | None => Ok catalog_new
  | Some buf => match from_json buf with Some c => Ok (rebuild_constraint_index c) | None => Err Internal end
  end.

(** ** The lazily saved catalog *)

Definition CATALOG_SAVE_TX_INTERVAL : Z := 1000.

Record LazyCatalog := mkLazy {
  inner : Catalog;
  dirty : bool;
  last_saved_tx_count : Z;
  lc_path : option Path;
}.

Definition lazy_new (c : Catalog) (path : option Path) : LazyCatalog := mkLazy c false 0 path.
Definition from_disk (path : Path) (s : fs) : outcome LazyCatalog :=
  let* c := load_from_disk path s in Ok (lazy_new c (Some path)).
Definition set_path (l : LazyCatalog) (path : Path) : LazyCatalog :=
  mkLazy (inner l) (dirty l) (last_saved_tx_count l) (Some path).
Definition mark_dirty (l : LazyCatalog) : LazyCatalog := mkLazy (inner l) true (last_saved_tx_count l) (lc_path l).
(** A change through the guard of [write], whose drop sets the flag. *)
Definition write (f : Catalog → Catalog) (l : LazyCatalog) : LazyCatalog :=
  mkLazy (f (inner l)) true (last_saved_tx_count l) (lc_path l).
Definition is_dirty (l : LazyCatalog) : bool := dirty l.
Definition transactions_since_last_save (l : LazyCatalog) : Z := last_saved_tx_count l.

Definition save_internal (fail_at : option nat) (tx_count : Z) (l : LazyCatalog) (s : fs) : LazyCatalog * fs * outcome unit :=
  match lc_path l with
  | None => (l, s, Ok tt)
  | Some path =>
      match save_to_disk fail_at (inner l) path s with
      | (s, Ok _) => (mkLazy (inner l) false tx_count (lc_path l), s, Ok tt)
      | (s, r) => (l, s, r)
      end
  end.
Definition save_if_needed (fail_at : option nat) (current_tx_count : Z) (l : LazyCatalog) (s : fs) : LazyCatalog * fs * outcome unit :=
  let tx_since := Z.max 0 (current_tx_count - last_saved_tx_count l) in
  if negb (dirty l) && bool_decide (tx_since < CATALOG_SAVE_TX_INTERVAL)%Z then (l, s, Ok tt)
  else save_internal fail_at current_tx_count l s.
Definition force_save (fail_at : option nat) (l : LazyCatalog) (s : fs) : LazyCatalog * fs * outcome unit :=
  save_internal fail_at (last_saved_tx_count l + 1) l s.
(** With the write guard held: [f] is what the holder changed before, the drop
    of the guard follows. *)
Definition force_save_with_catalog (fail_at : option nat) (f : Catalog → Catalog) (l : LazyCatalog) (s : fs) :
    LazyCatalog * fs * outcome unit :=
  let '(l, s, r) := save_internal fail_at (last_saved_tx_count l + 1) (mkLazy (f (inner l)) (dirty l) (last_saved_tx_count l) (lc_path l)) s in
  (mark_dirty l, s, r).

End catalog.
Arguments Catalog Expression : clear implicits.
Arguments MacroCatalogEntry Expression : clear implicits.
Arguments LazyCatalog Expression : clear implicits.
