(* ===== verification/CatalogSpec.v ===== *)
(** * Properties of the catalog

    Well-formedness of every reachable catalog, the constraint index, sequences,
    and saving. *)
From stdpp Require Import base list gmap strings numbers.
From Stdlib Require Import ZArith Lia Bool.
From S2P Require Import Prelude Codec Stats Persist Catalog.
Open Scope nat_scope.

(** ** Columns *)

Definition user_columns (ps : list PropertyDefinition) : Prop :=
  NoDup (prop_name <$> ps) ∧ Forall (λ p, is_builtin_column (prop_name p) = false) ps.

(** Built-in columns first, then the user's, of which [U] holds. *)
Definition shape_of (U : list PropertyDefinition → Prop) (pre ps : list PropertyDefinition) : Prop :=
  Forall (λ p, is_builtin_column (prop_name p) = true) pre ∧ ∃ ups, ps = pre ++ ups ∧ U ups.
(** Built-in columns first, then the user's, all different. *)
Abbreviation shape := (shape_of user_columns).
Definition node_columns : list PropertyDefinition := [mkProp "_id" TUint64].
Definition rel_columns : list PropertyDefinition := [mkProp "_src" TUint64; mkProp "_dst" TUint64].

Lemma has_column_false ps n : has_column ps n = false ↔ n ∉ prop_name <$> ps.
Proof.
  unfold has_column. rewrite list_elem_of_fmap. rewrite <- not_true_iff_false, existsb_exists. apply not_iff_compat. split.
  - intros (p & Hp & E%bool_decide_eq_true). exists p. split; [done|]. by apply list_elem_of_In.
  - intros (p & E & Hp). exists p. split; [by apply list_elem_of_In|]. by apply bool_decide_eq_true.
Qed.

(** What the column operations keep of the user's columns: a column is added or
    renamed only under a name that is neither taken nor built in. *)
Record closed_columns (U : list PropertyDefinition → Prop) : Prop := {
  cc_push : ∀ pre ups n t, has_column (pre ++ ups) n = false → is_builtin_column n = false → U ups → U (ups ++ [mkProp n t]);
  cc_pop : ∀ ups j, U ups → U (delete j ups);
  cc_rename : ∀ pre ups j p new, has_column (pre ++ ups) new = false → is_builtin_column new = false → ups !! j = Some p →
    U ups → U (<[j := mkProp new (prop_type p)]> ups);
}.

Lemma any_columns_closed : closed_columns (λ _, True).
Proof. by constructor. Qed.

(** A name that is not built in is found among the user's columns. *)
Lemma find_user pre ups n i p : is_builtin_column n = false → Forall (λ p, is_builtin_column (prop_name p) = true) pre →
  list_find (λ p, prop_name p = n) (pre ++ ups) = Some (i, p) → ∃ j, i = length pre + j ∧ ups !! j = Some p ∧ prop_name p = n.
Proof.
  intros Hn Hpre (Hl & Hp & _)%list_find_Some. exists (i - length pre). destruct (decide (i < length pre)) as [Hlt|Hge].
  - rewrite lookup_app_l in Hl by done. eapply Forall_lookup_1 in Hpre; [|done]. cbn in Hpre. rewrite Hp in Hpre. congruence.
  - rewrite lookup_app_r in Hl by lia. split; [lia|done].
Qed.

Lemma user_columns_closed : closed_columns user_columns.
Proof.
  constructor.
  - intros pre ups n t E Hn [Hd Hb]. split.
    + rewrite fmap_app. apply list.NoDup_app. split; [done|]. split; [|apply NoDup_singleton].
      intros x Hx Hx2. apply list_elem_of_singleton in Hx2 as ->. apply has_column_false in E. rewrite fmap_app in E. set_solver.
    + apply Forall_app. split; [done|]. by repeat constructor.
  - intros ups j [Hd Hb]. split; [|by apply Forall_delete]. eapply sublist_NoDup; [exact Hd|]. apply fmap_sublist, sublist_delete.
  - intros pre ups j p new Eh Hn Hj [Hd Hb]. split; [|by apply Forall_insert].
    rewrite list_fmap_insert. cbn. apply has_column_false in Eh. rewrite fmap_app in Eh.
    assert (j < length (prop_name <$> ups)) as Hlen by (rewrite length_fmap; by eapply lookup_lt_Some).
    assert (∀ k, (prop_name <$> ups) !! k = Some new → False) as Hnew.
    { intros k Hk%list_elem_of_lookup_2. set_solver. }
    apply NoDup_alt. intros x y z Hx Hy. destruct (decide (x = y)) as [|Hxy]; [done|].
    destruct (decide (j = x)) as [->|Hx'].
    + rewrite list_lookup_insert_eq in Hx by done. injection Hx as <-. rewrite list_lookup_insert_ne in Hy by done. by destruct (Hnew y).
    + rewrite list_lookup_insert_ne in Hx by done. destruct (decide (j = y)) as [->|Hy'].
      * rewrite list_lookup_insert_eq in Hy by done. injection Hy as <-. by destruct (Hnew x).
      * rewrite list_lookup_insert_ne in Hy by done. eapply NoDup_lookup; [exact Hd|done|done].
Qed.

Lemma delete_app_right {A} (l k : list A) j : delete (length l + j) (l ++ k) = l ++ delete j k.
Proof. induction l as [|x l IH]; cbn; [done|]. f_equal. apply IH. Qed.

Section columns.
Context (U : list PropertyDefinition → Prop) (HU : closed_columns U).

Lemma push_column_shape pre n t ps : is_builtin_column n = false → shape_of U pre ps → shape_of U pre (fst (push_column n t ps)).
Proof using HU.
  intros Hn [Hpre (ups & -> & Hu)]. unfold push_column. destruct (has_column (pre ++ ups) n) eqn:E; cbn; [by split; [|exists ups]|].
  split; [done|]. exists (ups ++ [mkProp n t]). rewrite <- app_assoc. split; [done|]. by apply (cc_push U HU pre).
Qed.

Lemma pop_column_shape pre n ps : is_builtin_column n = false → shape_of U pre ps → shape_of U pre (fst (pop_column n ps)).
Proof using HU.
  intros Hn [Hpre (ups & -> & Hu)]. unfold pop_column. destruct (list_find _ (pre ++ ups)) as [[i p]|] eqn:E; cbn; [|by split; [|exists ups]].
  destruct (find_user pre ups n i p Hn Hpre E) as (j & -> & Hj & _). split; [done|]. exists (delete j ups). split.
  - apply delete_app_right.
  - by apply (cc_pop U HU).
Qed.

Lemma rename_column_shape pre old new ps : is_builtin_column old = false → is_builtin_column new = false →
  shape_of U pre ps → shape_of U pre (fst (rename_column old new ps)).
Proof using HU.
  intros Ho Hn [Hpre (ups & -> & Hu)]. unfold rename_column. destruct (has_column (pre ++ ups) new) eqn:Eh; cbn.
  { split; [done|]. by exists ups. }
  destruct (list_find _ (pre ++ ups)) as [[i p]|] eqn:E; cbn; [|split; [done|by exists ups]].
  destruct (find_user pre ups old i p Ho Hpre E) as (j & -> & Hj & _). split; [done|].
  exists (<[j := mkProp new (prop_type p)]> ups). split; [by rewrite insert_app_r|]. by apply (cc_rename U HU pre).
Qed.
End columns.

(** ** Well-formed catalogs *)

(** Two maps without a common key. *)
Definition apart {A B} (m1 : gmap string A) (m2 : gmap string B) : Prop := ∀ n, m1 !! n = None ∨ m2 !! n = None.

Section apart.
Context {A B : Type}.
Implicit Types (m : gmap string A) (r : gmap string B).

Lemma apart_insert_l m r k x : r !! k = None → apart m r → apart (<[k := x]> m) r.
Proof. intros Hk H n. destruct (decide (k = n)) as [<-|]; [by right|]. rewrite lookup_insert_ne by done. apply H. Qed.
Lemma apart_insert_r m r k x : m !! k = None → apart m r → apart m (<[k := x]> r).
Proof. intros Hk H n. destruct (decide (k = n)) as [<-|]; [by left|]. rewrite lookup_insert_ne by done. apply H. Qed.
Lemma apart_delete m r k k' : apart m r → apart (delete k m) (delete k' r).
Proof. intros H n. rewrite !lookup_delete_None. destruct (H n); auto. Qed.
Lemma apart_delete_l m r k : apart m r → apart (delete k m) r.
Proof. intros H n. rewrite lookup_delete_None. destruct (H n); auto. Qed.
Lemma apart_delete_r m r k : apart m r → apart m (delete k r).
Proof. intros H n. rewrite lookup_delete_None. destruct (H n); auto. Qed.
Lemma apart_fmap_r m r (f : B → B) : apart m r → apart m (f <$> r).
Proof. intros H n. rewrite lookup_fmap, fmap_None. apply H. Qed.
Lemma apart_lookup_l m r n x : apart m r → m !! n = Some x → r !! n = None.
Proof. intros H Hn. destruct (H n); congruence. Qed.
End apart.

Section wf.
Context {Expression : Type} (iter : ∀ A, gmap string A → list (string * A)).
Abbreviation Catalog := (Catalog Expression).
Implicit Types c : Catalog.
(** What is known of the user's columns of every table. *)
Context (U : list PropertyDefinition → Prop) (HU : closed_columns U).

Definition node_inv (n : string) (e : NodeTableCatalogEntry) : Prop :=
  nt_name e = n ∧ shape_of U node_columns (nt_properties e) ∧ NoDup (c_name <$> nt_constraints e) ∧ NoDup (c_property <$> nt_constraints e).
Definition rel_inv (n : string) (e : RelTableCatalogEntry) : Prop := rt_name e = n ∧ shape_of U rel_columns (rt_properties e).

(** Every entry is filed under its name and has its built-in columns first; no
    constraint occurs twice in a table; a name is a node table or a relationship
    table, not both; sequences hold 64-bit values. *)
Record catalog_inv (c : Catalog) : Prop := {
  wf_node : map_Forall node_inv (node_tables c);
  wf_rel : map_Forall rel_inv (rel_tables c);
  wf_disjoint : apart (node_tables c) (rel_tables c);
  wf_seq : map_Forall (λ n q, seq_name q = n ∧ is_u64 (seq_next_val q)) (sequences c);
  wf_macro : map_Forall (λ n m, mac_name m = n) (macros c);
}.

Inductive cat_op :=
| OAddColumn (t n : string) (ty : LogicalType)
| ORemoveColumn (t n : string)
| ORenameColumn (t old new : string)
| ORenameTable (old new : string)
| OAddNode (n : string) (ps : list PropertyDefinition) (pk : option string)
| OAddRel (n from to : string) (ps : list PropertyDefinition)
| ORemoveTable (n : string)
| OAddSequence (n : string) (start inc : Z)
| ONextVal (n : string)
| OAddMacro (n : string) (params : list string) (body : Expression)
| OAddConstraint (t : string) (k : NodeConstraint)
| ORemoveConstraint (n : string)
| ORebuild.

Definition cat_exec (c : Catalog) (o : cat_op) : Catalog :=
  match o with
  | OAddColumn t n ty => fst (add_column_to_table c t n ty)
  | ORemoveColumn t n => fst (remove_column_from_table c t n)
  | ORenameColumn t old new => fst (rename_column_in_table c t old new)
  | ORenameTable old new => fst (rename_table c old new)
  | OAddNode n ps pk => fst (add_node_table c n ps pk)
  | OAddRel n from to ps => fst (add_rel_table c n from to ps)
  | ORemoveTable n => remove_table c n
  | OAddSequence n start inc => fst (add_sequence c n start inc)
  | ONextVal n => fst (next_val c n)
  | OAddMacro n params body => fst (add_macro c n params body)
  | OAddConstraint t k => fst (add_constraint c t k)
  | ORemoveConstraint n => fst (remove_constraint iter c n)
  | ORebuild => rebuild_constraint_index iter c
  end.

(** The columns a statement declares; sequence starts are 64-bit values. *)
Definition declares (o : cat_op) : Prop :=
  match o with
  | OAddNode _ ps _ | OAddRel _ _ _ ps => U ps
  | OAddSequence _ start _ => is_u64 start
  | _ => True
  end.

Lemma with_properties_wf {R} c t (f : list PropertyDefinition → list PropertyDefinition * outcome R) :
  (∀ pre ps, shape_of U pre ps → shape_of U pre (fst (f ps))) → catalog_inv c → catalog_inv (fst (with_properties c t f)).
Proof.
  intros Hf [Hn Hr Hd Hs Hm]. unfold with_properties. destruct (node_tables c !! t) as [e|] eqn:En.
  - destruct (Hn _ _ En) as (E1 & E2 & E3). specialize (Hf _ _ E2). destruct (f (nt_properties e)) as [ps r]. cbn in *.
    constructor; cbn; [|done|..|done|done].
    + apply map_Forall_insert_2; [|done]. by split.
    + apply apart_insert_l; [|done]. by apply (apart_lookup_l _ _ _ _ Hd En).
  - destruct (rel_tables c !! t) as [e|] eqn:Er; [|by constructor].
    destruct (Hr _ _ Er) as [E1 E2]. specialize (Hf _ _ E2). destruct (f (rt_properties e)) as [ps r]. cbn in *.
    constructor; cbn; [done| |..|done|done].
    + apply map_Forall_insert_2; [|done]. by split.
    + by apply apart_insert_r.
Qed.

Lemma table_exists_false c n : table_exists c n = false → node_tables c !! n = None ∧ rel_tables c !! n = None.
Proof.
  unfold table_exists. intros [H1 H2]%orb_false_iff. apply bool_decide_eq_false in H1, H2. split; by apply eq_None_not_Some.
Qed.

Lemma rename_table_wf c old new : catalog_inv c → catalog_inv (fst (rename_table c old new)).
Proof.
  intros Hc. pose proof Hc as [Hn Hr Hd Hs Hm]. unfold rename_table. destruct (table_exists c new) eqn:Ex; [done|].
  apply table_exists_false in Ex as [En Er]. destruct (node_tables c !! old) as [e|] eqn:E1; cbn.
  - destruct (Hn _ _ E1) as (_ & E2 & E3). constructor; cbn; [|..|done|done].
    + apply map_Forall_insert_2; [by split|]. by apply map_Forall_delete.
    + apply map_Forall_lookup_2. intros n e' He. rewrite lookup_fmap_Some in He. destruct He as (e0 & <- & He).
      destruct (Hr _ _ He) as [H1 H2]. by split.
    + apply apart_insert_l; [by rewrite lookup_fmap, Er|]. by apply apart_delete_l, apart_fmap_r.
  - destruct (rel_tables c !! old) as [e|] eqn:E2; cbn; [|done]. destruct (Hr _ _ E2) as [_ E3].
    constructor; cbn; [done|..|done|done].
    + apply map_Forall_insert_2; [by split|]. by apply map_Forall_delete.
    + apply apart_insert_r; [done|]. by apply apart_delete_r.
Qed.

Lemma add_table_wf c n ps pk from to : U ps → catalog_inv c →
  catalog_inv (fst (add_node_table c n ps pk)) ∧ catalog_inv (fst (add_rel_table c n from to ps)).
Proof.
  intros Hu Hc. pose proof Hc as [Hn Hr Hd Hs Hm]. unfold add_node_table, add_rel_table.
  destruct (table_exists c n) eqn:Ex; [done|]. apply table_exists_false in Ex as [En Er]. split; constructor; cbn; try done.
  - apply map_Forall_insert_2; [|done]. split; [done|]. split; [|cbn; split; constructor].
    split; [by repeat constructor|]. by exists ps.
  - by apply apart_insert_l.
  - apply map_Forall_insert_2; [|done]. split; [done|]. split; [by repeat constructor|]. by exists ps.
  - by apply apart_insert_r.
Qed.

Lemma constraints_wf c t e cs m : catalog_inv c → node_tables c !! t = Some e → NoDup (c_name <$> cs) → NoDup (c_property <$> cs) →
  catalog_inv (set_constraint_index (set_nodes c (<[t := nt_with_constraints e cs]> (node_tables c))) m).
Proof.
  intros [Hn Hr Hd Hs Hm] He H1 H2. destruct (Hn _ _ He) as (E1 & E2 & _). constructor; cbn; [|done|..|done|done].
  - apply map_Forall_insert_2; [|done]. by split.
  - apply apart_insert_l; [|done]. by apply (apart_lookup_l _ _ _ _ Hd He).
Qed.
Lemma set_index_wf c m : catalog_inv c → catalog_inv (set_constraint_index c m).
Proof. by intros []. Qed.

Lemma next_val_range q : is_u64 (seq_next_val q) →
  is_u64 (if decide (0 ≤ seq_increment q)%Z then Z.min (seq_next_val q + seq_increment q) u64_MAX
          else Z.max (seq_next_val q - Z.abs (seq_increment q)) 0).
Proof. unfold is_u64, u64_MAX. intros H. destruct (decide _); lia. Qed.

Lemma existsb_name_false {A} (f : A → string) (cs : list A) (n : string) :
  existsb (λ k, bool_decide (f k = n)) cs = false → n ∉ f <$> cs.
Proof.
  intros H Hin. apply list_elem_of_fmap in Hin as (k & -> & Hk). apply not_true_iff_false in H. apply H, existsb_exists.
  exists k. split; [by apply list_elem_of_In|]. by apply bool_decide_eq_true.
Qed.

Lemma NoDup_fmap_snoc {A} (f : A → string) (cs : list A) k : NoDup (f <$> cs) → f k ∉ f <$> cs → NoDup (f <$> (cs ++ [k])).
Proof.
  intros Hd Hk. rewrite fmap_app. apply list.NoDup_app. split; [done|]. split; [|apply NoDup_singleton].
  intros x Hx Hx2. apply list_elem_of_singleton in Hx2 as ->. done.
Qed.

Lemma cat_exec_inv c o : catalog_inv c → declares o → catalog_inv (cat_exec c o).
Proof using HU.
  intros Hc Ho. destruct o as [t n ty|t n|t old new|old new|n ps pk|n from to ps|n|n start inc|n|n params body|t k|n|]; cbn in *.
  - unfold add_column_to_table. destruct (is_builtin_column n) eqn:E; [done|]. apply with_properties_wf; [|done].
    intros. by apply (push_column_shape U HU).
  - unfold remove_column_from_table. destruct (is_builtin_column n) eqn:E; [done|]. apply with_properties_wf; [|done].
    intros. by apply (pop_column_shape U HU).
  - unfold rename_column_in_table. destruct (is_builtin_column old || is_builtin_column new) eqn:E; [done|].
    apply orb_false_iff in E as [E1 E2]. apply with_properties_wf; [|done]. intros. by apply (rename_column_shape U HU).
  - by apply rename_table_wf.
  - by apply (add_table_wf c n ps pk "" "").
  - by apply (add_table_wf c n ps None from to).
  - destruct Hc as [Hn Hr Hd Hs Hm]. constructor; cbn; [by apply map_Forall_delete..| |done|done].
    by apply apart_delete.
  - pose proof Hc as [Hn Hr Hd Hs Hm]. unfold add_sequence. destruct (sequences c !! n); [done|].
    constructor; cbn; [done..| |done]. by apply map_Forall_insert_2.
  - pose proof Hc as [Hn Hr Hd Hs Hm]. unfold next_val. destruct (sequences c !! n) as [q|] eqn:E; [|done].
    destruct (Hs _ _ E) as [E1 E2]. constructor; cbn; [done..| |done]. apply map_Forall_insert_2; [|done].
    split; [done|]. by apply next_val_range.
  - pose proof Hc as [Hn Hr Hd Hs Hm]. unfold add_macro. destruct (macros c !! n); [done|].
    constructor; cbn; [done..|]. by apply map_Forall_insert_2.
  - unfold add_constraint. destruct (node_tables c !! t) as [e|] eqn:E; [|done].
    destruct (existsb (λ k', bool_decide (c_name k' = c_name k)) _) eqn:E1; [done|].
    destruct (existsb (λ k', bool_decide (c_property k' = c_property k)) _) eqn:E2; [done|]. cbn.
    destruct (wf_node c Hc _ _ E) as (_ & _ & H1 & H2). apply existsb_name_false in E1, E2.
    apply constraints_wf; [done|done|by apply NoDup_fmap_snoc..].
  - unfold remove_constraint. destruct (constraint_by_name c !! n) as [[t pos]|]; [|done].
    destruct (node_tables c !! t) as [e|] eqn:E; [|by do 2 apply set_index_wf].
    destruct (nt_constraints e !! pos) as [k|] eqn:Ek; [|by do 2 apply set_index_wf]. cbn.
    destruct (wf_node c Hc _ _ E) as (_ & _ & H1 & H2).
    apply (constraints_wf (set_constraint_index c _)); [by apply set_index_wf|done|..].
    + eapply sublist_NoDup; [exact H1|]. apply fmap_sublist, sublist_delete.
    + eapply sublist_NoDup; [exact H2|]. apply fmap_sublist, sublist_delete.
  - by apply set_index_wf.
Qed.

Lemma catalog_reachable_inv (ops : list cat_op) : Forall declares ops → catalog_inv (foldl cat_exec catalog_new ops).
Proof using HU.
  assert (catalog_inv catalog_new) as H0 by (constructor; first [apply map_Forall_empty | by intros n; left]).
  revert H0. generalize (catalog_new (Expression := Expression)). induction ops as [|o ops IH]; intros c Hc Ho; cbn; [done|].
  inversion Ho; subst. apply IH; [|done]. by apply cat_exec_inv.
Qed.
End wf.

#[global] Arguments wf_node {Expression U} c _.
#[global] Arguments wf_rel {Expression U} c _.
#[global] Arguments wf_disjoint {Expression U} c _.
#[global] Arguments wf_seq {Expression U} c _.
#[global] Arguments wf_macro {Expression U} c _.

(** Well formed: no column occurs twice either. *)
Abbreviation node_ok := (node_inv user_columns).
Abbreviation rel_ok := (rel_inv user_columns).
Abbreviation catalog_wf := (catalog_inv user_columns).
(** The declared columns are different from each other and from the built-in
    ones, which the code does not check; sequence starts are 64-bit. *)
Abbreviation op_ok := (declares user_columns).

Lemma cat_exec_wf {Expression} iter (c : Catalog Expression) o : catalog_wf c → op_ok o → catalog_wf (cat_exec iter c o).
Proof. apply cat_exec_inv, user_columns_closed. Qed.
Lemma catalog_reachable_wf {Expression} iter (ops : list (cat_op (Expression := Expression))) : Forall op_ok ops → catalog_wf (foldl (cat_exec iter) catalog_new ops).
Proof. apply catalog_reachable_inv, user_columns_closed. Qed.

(** C33. Every catalog reachable by catalog operations, failed ones included, on
    sequences that start at 64-bit values: entries are filed under their names, no
    name is both a node and a relationship table, built-in columns come first, no
    constraint name or constrained property occurs twice in a table, and sequences
    stay 64-bit values.  If moreover every created table declared columns that are
    different from each other and not built in, which creating a table does not
    check, no column occurs twice in a table, through all additions, removals and
    renamings. *)
Theorem catalog_always_wf {Expression} iter (ops : list (cat_op (Expression := Expression))) :
  Forall (declares (λ _, True)) ops →
  catalog_inv (λ _, True) (foldl (cat_exec iter) catalog_new ops) ∧
  (Forall (declares user_columns) ops → catalog_inv user_columns (foldl (cat_exec iter) catalog_new ops)).
Proof.
  intros Ho. split; [by apply catalog_reachable_inv; [apply any_columns_closed|]|apply catalog_reachable_wf].
Qed.

(** A table whose columns are declared twice has them twice. *)
Theorem duplicate_column_accepted {Expression} (c : Catalog Expression) (n : string) (p : PropertyDefinition) :
  table_exists c n = false →
  ∃ c', add_node_table c n [p; p] None = (c', Ok tt) ∧ nt_properties <$> node_tables c' !! n = Some (node_columns ++ [p; p]).
Proof. intros H. unfold add_node_table. rewrite H. eexists. split; [done|]. cbn. by rewrite lookup_insert_eq. Qed.

(** ** The constraint index *)

Definition names_differ (cs : list NodeConstraint) : Prop :=
  ∀ i j k k', cs !! i = Some k → cs !! j = Some k' → c_name k = c_name k' → i = j.

Lemma index_constraints_spec t pos cs m n x : names_differ cs →
  index_constraints t pos cs m !! n = Some x ↔
    (∃ i k, cs !! i = Some k ∧ c_name k = n ∧ x = (t, pos + i)) ∨
    (m !! n = Some x ∧ ∀ i k, cs !! i = Some k → c_name k ≠ n).
Proof.
  revert pos m. induction cs as [|k0 cs IH]; intros pos m Hd; cbn.
  - split; [intros H; by right|]. intros [(i & k & H & _)|[H _]]; [by rewrite lookup_nil in H|done].
  - rewrite IH. 2: { intros i j k k' Hi Hj E. assert (S i = S j) as H by (by apply (Hd (S i) (S j) k k')). lia. }
    split.
    + intros [(i & k & Hi & Hk & ->)|[H Hno]].
      * left. exists (S i), k. split; [done|]. split; [done|]. f_equal. lia.
      * destruct (decide (c_name k0 = n)) as [E|Hne].
        -- subst n. rewrite lookup_insert_eq in H. injection H as <-. left. exists 0, k0. split; [done|]. split; [done|]. f_equal. lia.
        -- rewrite lookup_insert_ne in H by done. right. split; [done|]. intros [|i] k Hi; cbn in Hi; [by injection Hi as <-|by apply (Hno i)].
    + intros [(i & k & Hi & Hk & ->)|[H Hno]].
      * destruct i as [|i]; cbn in Hi.
        -- injection Hi as <-. right. subst n. rewrite lookup_insert_eq. rewrite Nat.add_0_r. split; [done|].
           intros i k Hi E. assert (S i = 0) as Hc by (by apply (Hd (S i) 0 k k0)). lia.
        -- left. exists i, k. split; [done|]. split; [done|]. f_equal. lia.
      * right. rewrite lookup_insert_ne by (by apply (Hno 0)). split; [done|]. intros i k Hi. by apply (Hno (S i)).
Qed.

(** Constraint [n] is at position [pos] of table [t]. *)
Definition entry_at (l : list (string * NodeTableCatalogEntry)) (n t : string) (pos : nat) : Prop :=
  ∃ e k, (t, e) ∈ l ∧ nt_constraints e !! pos = Some k ∧ c_name k = n.
Definition names_unique (l : list (string * NodeTableCatalogEntry)) : Prop :=
  ∀ n t pos t' pos', entry_at l n t pos → entry_at l n t' pos' → t = t' ∧ pos = pos'.

Lemma entry_at_cons te l n t pos :
  entry_at (te :: l) n t pos ↔ (fst te = t ∧ ∃ k, nt_constraints (snd te) !! pos = Some k ∧ c_name k = n) ∨ entry_at l n t pos.
Proof.
  unfold entry_at. split.
  - intros (e & k & Hin & Hk & Hn). apply elem_of_cons in Hin as [<-|Hin]; [left; cbn; eauto|right; eauto].
  - intros [[<- (k & Hk & Hn)]|(e & k & Hin & Hk & Hn)].
    + exists (snd te), k. split; [|done]. destruct te. by left.
    + exists e, k. split; [by right|done].
Qed.

Lemma fold_index_spec l m n x : NoDup (fst <$> l) → names_unique l →
  foldl (λ m te, index_constraints (fst te) 0 (nt_constraints (snd te)) m) m l !! n = Some x ↔
    entry_at l n (fst x) (snd x) ∨ (m !! n = Some x ∧ ∀ t pos, ~ entry_at l n t pos).
Proof.
  revert m. induction l as [|te l IH]; intros m Hk Hu; cbn.
  - split; [|intros [(e & k & H & _)|[H _]]; [by apply elem_of_nil in H|done]].
    intros H. right. split; [done|]. intros t pos (e & k & Hin & _). by apply elem_of_nil in Hin.
  - rewrite fmap_cons in Hk. apply list.NoDup_cons in Hk as [Hk1 Hk2]. assert (names_unique l) as Hu'.
    { intros n' t pos t' pos' H1 H2. apply (Hu n'); apply entry_at_cons; by right. }
    assert (names_differ (nt_constraints (snd te))) as Hd.
    { intros i j k k' Hi Hj E. destruct (Hu (c_name k) (fst te) i (fst te) j) as [_ Hij]; [..|done];
        apply entry_at_cons; left; (split; [done|eauto]). }
    rewrite IH, index_constraints_spec by done. setoid_rewrite entry_at_cons. split.
    + intros [H|[[(i & k & Hi & Hk & ->)|[Hm Hno]] Hl]].
      * left. by right.
      * left. left. cbn. eauto.
      * right. split; [done|]. intros t pos [[_ (k & Hk & Hn)]|H]; [by apply (Hno pos k)|by apply (Hl t pos)].
    + intros [[[E (k & Hk & Hn)]|H]|[Hm Hno]].
      * right. split.
        -- left. exists (snd x), k. split; [done|]. split; [done|]. cbn. rewrite E. by destruct x.
        -- intros t pos Hc. destruct (Hu n (fst x) (snd x) t pos) as [<- <-].
           ++ apply entry_at_cons. left. eauto.
           ++ apply entry_at_cons. by right.
           ++ destruct Hc as (e & k' & Hin & _). apply Hk1. rewrite E. apply list_elem_of_fmap. by exists (fst x, e).
      * by left.
      * right. split; [right; split; [done|]|].
        -- intros i k Hi E. apply (Hno (fst te) i). left. eauto.
        -- intros t pos H. apply (Hno t pos). by right.
Qed.

Section constraint_index.
Context {Expression : Type} (iter : ∀ A, gmap string A → list (string * A)).
Context (iter_perm : ∀ A (m : gmap string A), iter A m ≡ₚ map_to_list m).
Abbreviation Catalog := (Catalog Expression).
Implicit Types c : Catalog.

(** Constraint [k], or one named [n], is at position [pos] of the node table [t]. *)
Definition stored_at c (k : NodeConstraint) (t : string) (pos : nat) : Prop :=
  ∃ e, node_tables c !! t = Some e ∧ nt_constraints e !! pos = Some k.
Definition placed c (n t : string) (pos : nat) : Prop := ∃ k, stored_at c k t pos ∧ c_name k = n.
Definition index_exact c : Prop := ∀ n x, constraint_by_name c !! n = Some x ↔ placed c n (fst x) (snd x).
Definition has_constraint c (t : string) (k : NodeConstraint) : Prop :=
  ∃ e, node_tables c !! t = Some e ∧ k ∈ nt_constraints e.

Lemma entry_at_iter c n t pos : entry_at (iter _ (node_tables c)) n t pos ↔ placed c n t pos.
Proof.
  unfold entry_at, placed, stored_at. setoid_rewrite (iter_perm _ (node_tables c)). setoid_rewrite elem_of_map_to_list. naive_solver.
Qed.

Lemma has_stored c t k : has_constraint c t k ↔ ∃ pos, stored_at c k t pos.
Proof. unfold has_constraint, stored_at. setoid_rewrite list_elem_of_lookup. naive_solver. Qed.

Lemma rebuild_exact c : (∀ n t pos t' pos', placed c n t pos → placed c n t' pos' → t = t' ∧ pos = pos') →
  index_exact (rebuild_constraint_index iter c).
Proof.
  intros Hu n x. unfold rebuild_constraint_index. cbn. rewrite fold_index_spec.
  - rewrite entry_at_iter, lookup_empty. split; [intros [H|[H _]]; done|by left].
  - rewrite (iter_perm _ (node_tables c)). apply NoDup_fst_map_to_list.
  - intros n' t pos t' pos'. rewrite !entry_at_iter. apply Hu.
Qed.

Lemma exact_unique c n t pos t' pos' : index_exact c → placed c n t pos → placed c n t' pos' → t = t' ∧ pos = pos'.
Proof. intros H H1 H2. apply (H n (t, pos)) in H1. apply (H n (t', pos')) in H2. rewrite H1 in H2. by injection H2. Qed.

Lemma add_constraint_exact c t k : index_exact c → (∀ t' k', has_constraint c t' k' → c_name k' ≠ c_name k) →
  index_exact (fst (add_constraint c t k)).
Proof.
  intros Hx Hnew. unfold add_constraint. destruct (node_tables c !! t) as [e|] eqn:E; [|done].
  cbn zeta. destruct (existsb (λ k', bool_decide (c_name k' = c_name k)) _); [done|].
  destruct (existsb (λ k', bool_decide (c_property k' = c_property k)) _); [done|]. cbn [fst].
  set (c' := set_constraint_index _ _).
  assert (∀ k' t' pos, stored_at c' k' t' pos ↔ stored_at c k' t' pos ∨ (k' = k ∧ t' = t ∧ pos = length (nt_constraints e))) as Hp.
  { intros k' t' pos. unfold stored_at. cbn. destruct (decide (t = t')) as [<-|Hne].
    - rewrite lookup_insert_eq, E. split.
      + intros (e' & [= <-] & Hk). cbn in Hk. apply lookup_app_Some in Hk as [Hk|[Hge Hk]]; [left; eauto|].
        right. apply list_lookup_singleton_Some in Hk as [Hz <-]. split_and!; [done|done|lia].
      + intros [(e' & [= <-] & Hk)|(-> & _ & ->)]; (eexists; split; [done|]); cbn.
        * by apply lookup_app_l_Some.
        * by rewrite lookup_app_r, Nat.sub_diag by lia.
    - rewrite lookup_insert_ne by done. naive_solver. }
  assert (∀ n t' pos, placed c' n t' pos ↔ placed c n t' pos ∨ (n = c_name k ∧ t' = t ∧ pos = length (nt_constraints e))) as Hq.
  { intros n t' pos. split.
    - intros (k' & [H|(-> & H)]%Hp & <-); [left; by exists k'|by right].
    - intros [(k' & H & <-)|(-> & H)]; [exists k'|exists k]; (split; [apply Hp; auto|done]). }
  intros n x. rewrite Hq. cbn [c' constraint_by_name set_constraint_index].
  destruct (decide (c_name k = n)) as [<-|Hne].
  - rewrite lookup_insert_eq. split; [intros [= <-]; by right|].
    intros [(k' & H & Hn)|(_ & H1 & H2)]; [|destruct x; cbn in *; by subst].
    destruct (Hnew (fst x) k'); [|done]. apply has_stored. eauto.
  - rewrite lookup_insert_ne by done. rewrite (Hx n x). split; [by left|]. intros [H|[H _]]; [done|]. by subst.
Qed.

(** Removing the constraint at a position: the others keep their order. *)
Lemma stored_removed c t e pos k t' pos' m : node_tables c !! t = Some e →
  stored_at (set_nodes (set_constraint_index c m) (<[t := nt_with_constraints e (delete pos (nt_constraints e))]> (node_tables c))) k t' pos' ↔
  stored_at c k t' (if decide (t' = t ∧ pos ≤ pos') then S pos' else pos').
Proof.
  intros E. unfold stored_at. cbn. destruct (decide (t = t')) as [<-|Hne].
  - rewrite lookup_insert_eq, E. split; intros (e' & [= <-] & Hk); (eexists; split; [done|]); cbn in *; rewrite list_lookup_delete in *.
    all: destruct (decide (pos' < pos)), (decide (t = t ∧ pos ≤ pos')) as [[]|Hn]; (done || lia || (destruct Hn; split; [done|lia])).
  - rewrite lookup_insert_ne by done. rewrite decide_False by naive_solver. done.
Qed.

Lemma stored_only c k t pos k' t' pos' : index_exact c → stored_at c k t pos → stored_at c k' t' pos' → c_name k' = c_name k →
  k' = k ∧ t' = t ∧ pos' = pos.
Proof.
  intros Hx H1 H2 Hn. destruct (exact_unique c (c_name k) t' pos' t pos Hx) as [-> ->]; [by exists k'|by exists k|].
  destruct H1 as (e & He & Hk), H2 as (e' & He' & Hk'). split; [|done]. congruence.
Qed.

(** With an exact constraint index, [remove_constraint] removes exactly the
    constraint of that name, returns it with its table and leaves an exact index;
    when there is none it fails and changes nothing. *)
Theorem remove_constraint_exact c n : index_exact c →
  match remove_constraint iter c n with
  | (c', Ok (t, k)) =>
      c_name k = n ∧ has_constraint c t k ∧ index_exact c' ∧
      (∀ t' k', has_constraint c' t' k' ↔ has_constraint c t' k' ∧ c_name k' ≠ n)
  | (c', Err _) => c' = c ∧ ∀ t k, has_constraint c t k → c_name k ≠ n
  | (_, Panic) => False
  end.
Proof.
  intros Hx. unfold remove_constraint. destruct (constraint_by_name c !! n) as [[t pos]|] eqn:E.
  - apply Hx in E as (k & (e & He & Hk) & Hn). cbn in He, Hk. rewrite He, Hk. set (c2 := set_nodes _ _).
    assert (stored_at c k t pos) as Hst by (by exists e). pose proof (λ k' t' pos', stored_removed c t e pos k' t' pos' _ He : stored_at c2 k' t' pos' ↔ _) as Hp.
    split; [done|]. split; [apply has_stored; eauto|]. split.
    + apply rebuild_exact. intros n' t1 p1 t2 p2 (k1 & H1%Hp & Hn1) (k2 & H2%Hp & Hn2).
      destruct (stored_only c _ _ _ _ _ _ Hx H2 H1) as (_ & -> & Heq); [congruence|]. split; [done|].
      destruct (decide (t2 = t ∧ pos ≤ p1)) as [[]|Hq1], (decide (t2 = t ∧ pos ≤ p2)) as [[]|Hq2]; try lia; naive_solver lia.
    + intros t' k'. rewrite !has_stored. change (∃ p, stored_at (rebuild_constraint_index iter c2) k' t' p) with (∃ p, stored_at c2 k' t' p).
      setoid_rewrite Hp. split.
      * intros (p & Hs). split; [eauto|]. intros Hn'. destruct (stored_only c _ _ _ _ _ _ Hx Hst Hs) as (_ & -> & Heq); [congruence|].
        destruct (decide (t = t ∧ pos ≤ p)) as [[]|Hq]; [lia|]. apply Hq. split; [done|lia].
      * intros ((p & Hs) & Hn'). destruct (decide (t' = t ∧ pos < p)) as [[Ht Hlt]|Hq].
        -- exists (p - 1). rewrite decide_True by (split; [done|lia]). by replace (S (p - 1)) with p by lia.
        -- exists p. rewrite decide_False; [done|]. intros [-> Hle]. assert (p = pos) as -> by (destruct (decide (pos < p)); [by destruct Hq|lia]).
           destruct Hst as (e1 & He1 & Hk1), Hs as (e2 & He2 & Hk2). congruence.
  - split; [done|]. intros t k [pos Hs]%has_stored Hn.
    assert (constraint_by_name c !! n = Some (t, pos)) as Hc by (apply Hx; by exists k). congruence.
Qed.
End constraint_index.

(** ** Sequences *)

Section sequences.
Context {Expression : Type}.
Implicit Types c : Catalog Expression.

Definition clamp_u64 (z : Z) : Z := Z.max 0 (Z.min u64_MAX z).
Definition draw_n (k : nat) (n : string) c : Catalog Expression := Nat.iter k (λ c, fst (next_val c n)) c.

Lemma draw_n_sequence k n c start inc : is_u64 start → sequences c !! n = Some (mkSeq n start inc) →
  sequences (draw_n k n c) !! n = Some (mkSeq n (clamp_u64 (start + Z.of_nat k * inc)) inc).
Proof.
  unfold is_u64. intros Hs Hc. induction k as [|k IH].
  - change (draw_n 0 n c) with c. rewrite Hc. unfold clamp_u64, u64_MAX. do 2 f_equal. lia.
  - change (draw_n (S k) n c) with (fst (next_val (draw_n k n c) n)). unfold next_val. rewrite IH. cbn. rewrite lookup_insert_eq. do 2 f_equal. unfold clamp_u64, u64_MAX.
    rewrite Nat2Z.inj_succ, Z.mul_succ_l. set (q := (Z.of_nat k * inc)%Z). assert (0 ≤ q ∧ 0 ≤ inc ∨ q ≤ 0 ∧ inc < 0)%Z as Hq by nia.
    destruct (decide (0 ≤ inc)%Z); lia.
Qed.

(** A sequence yields its start value, then steps by its increment, and
    stays at the end of the unsigned 64-bit range once it gets there: it never
    wraps around, and from then on repeats the last value. *)
Theorem sequence_values c n start inc k : is_u64 start → sequences c !! n = None →
  snd (next_val (draw_n k n (fst (add_sequence c n start inc))) n) = Some (clamp_u64 (start + Z.of_nat k * inc)).
Proof.
  intros Hs Hn. unfold next_val. rewrite (draw_n_sequence k n _ start inc Hs); [done|].
  unfold add_sequence. rewrite Hn. cbn. apply lookup_insert_eq.
Qed.
End sequences.

(** ** The saved catalog *)

Section saved.
Context {Expression : Type} (iter : ∀ A, gmap string A → list (string * A)).
Context (to_json : Catalog Expression → option (list Z)) (from_json : list Z → option (Catalog Expression)).
(** Everything but the skipped index survives serialisation. *)
Context (json_roundtrip : ∀ c b, to_json c = Some b → from_json b = Some (set_constraint_index c ∅)).
Context (iter_perm : ∀ A (m : gmap string A), iter A m ≡ₚ map_to_list m).
Context (path : Path) (path_not_shadow : with_extension path "ltng.shadow" ≠ path).

Inductive lazy_op :=
| LWrite (f : Catalog Expression → Catalog Expression)
| LMarkDirty
| LSaveIfNeeded (fail_at : option nat) (tx_count : Z)
| LForceSave (fail_at : option nat)
| LForceSaveWith (fail_at : option nat) (f : Catalog Expression → Catalog Expression).
Definition lazy_exec (st : LazyCatalog Expression * fs) (o : lazy_op) : LazyCatalog Expression * fs :=
  let '(l, s) := st in
  match o with
  | LWrite f => (write f l, s)
  | LMarkDirty => (mark_dirty l, s)
  | LSaveIfNeeded fail_at n => fst (save_if_needed to_json fail_at n l s)
  | LForceSave fail_at => fst (force_save to_json fail_at l s)
  | LForceSaveWith fail_at f => fst (force_save_with_catalog to_json fail_at f l s)
  end.

(** What is on disk when nothing is pending. *)
Definition saved (l : LazyCatalog Expression) (s : fs) : Prop :=
  load_from_disk iter from_json path s = Ok (rebuild_constraint_index iter (inner l)).

Lemma load_saved c b s : to_json c = Some b → s !! path = Some b →
  load_from_disk iter from_json path s = Ok (rebuild_constraint_index iter c).
Proof. intros Hb Hs. unfold load_from_disk. by rewrite Hs, (json_roundtrip c b Hb). Qed.

Lemma run_save_prefix k b s : fs_run (take k (catalog_save_ops path b)) s !! path = if decide (k < 3) then s !! path else Some b.
Proof.
  unfold catalog_save_ops. cbn zeta. set (sh := with_extension path "ltng.shadow") in *.
  assert (∀ b', <[sh := b']> s !! path = s !! path) as H1 by (intros; by rewrite lookup_insert_ne).
  assert (alter (λ c, c ++ b) sh (<[sh := []]> s) = <[sh := b]> s) as H2 by (by rewrite alter_insert_eq).
  destruct k as [|[|[|k]]]; cbn [take]; unfold fs_run; cbn [foldl fs_exec]; rewrite ?H2; try done.
  rewrite lookup_insert_eq, (decide_False (P := S (S (S k)) < 3)) by lia.
  destruct k as [|k]; cbn [take]; rewrite ?take_nil; cbn [foldl fs_exec]; apply lookup_insert_eq.
Qed.

Lemma save_to_disk_spec fail_at c s s' r : save_to_disk to_json fail_at c path s = (s', r) →
  (s' !! path = s !! path ∧ r ≠ Ok tt) ∨ (∃ b, to_json c = Some b ∧ s' !! path = Some b).
Proof.
  unfold save_to_disk. destruct (to_json c) as [b|] eqn:Eb; [|intros [= <- <-]; by left].
  assert (fs_run (catalog_save_ops path b) s !! path = Some b) as Hfull.
  { pose proof (run_save_prefix 4 b s) as H. rewrite decide_False in H by lia. done. }
  unfold fs_try. destruct fail_at as [k|]; [|intros [= <- <-]; right; eauto].
  destruct (decide (k < _)) as [Hk|Hk]; [|intros [= <- <-]; right; eauto]. intros [= <- <-].
  rewrite (run_save_prefix k b s). destruct (decide (k < 3)); [by left|right; eauto].
Qed.

Lemma load_cong s s' : s' !! path = s !! path → load_from_disk iter from_json path s' = load_from_disk iter from_json path s.
Proof. intros E. unfold load_from_disk. by rewrite E. Qed.

Definition lazy_inv (st : LazyCatalog Expression * fs) : Prop :=
  lc_path (fst st) = Some path ∧ (dirty (fst st) = false → saved (fst st) (snd st)).

Lemma save_internal_inv fail_at n l s : lazy_inv (l, s) → lazy_inv (fst (save_internal to_json fail_at n l s)).
Proof.
  intros [Hp Hd]. cbn in Hp, Hd. unfold save_internal. rewrite Hp.
  destruct (save_to_disk to_json fail_at (inner l) path s) as [s' r] eqn:E. pose proof (save_to_disk_spec _ _ _ _ _ E) as Hs.
  destruct r as [[]|er|]; (split; [done|]); cbn.
  - intros _. destruct Hs as [[_ Hs]|(b & Hb & Hs)]; [done|]. by apply (load_saved _ b).
  - intros Hf. destruct Hs as [[Hs _]|(b & Hb & Hs)]; [|by apply (load_saved _ b)]. unfold saved. rewrite (load_cong _ _ Hs). by apply Hd.
  - intros Hf. destruct Hs as [[Hs _]|(b & Hb & Hs)]; [|by apply (load_saved _ b)]. unfold saved. rewrite (load_cong _ _ Hs). by apply Hd.
Qed.

Lemma lazy_exec_inv st o : lazy_inv st → lazy_inv (lazy_exec st o).
Proof.
  destruct st as [l s]. intros Hi. pose proof Hi as [Hp Hd]. destruct o as [f| |fa n|fa|fa f]; cbn [lazy_exec].
  - by split.
  - by split.
  - unfold save_if_needed. destruct (_ && _); [done|]. by apply save_internal_inv.
  - by apply save_internal_inv.
  - unfold force_save_with_catalog. unfold save_internal. cbn [lc_path inner]. cbn in Hp. rewrite Hp.
    destruct (save_to_disk to_json fa (f (inner l)) path s) as [s' [[]|er|]]; split; done.
Qed.

Lemma from_disk_inv s l : from_disk iter from_json path s = Ok l → lazy_inv (l, s).
Proof.
  unfold from_disk. destruct (load_from_disk iter from_json path s) as [c| |] eqn:E; cbn; [|done|done]. intros [= <-].
  split; [done|]. intros _. unfold saved. cbn [fst snd]. rewrite E. cbn [inner lazy_new]. f_equal. unfold load_from_disk in E.
  destruct (s !! path) as [b|].
  - destruct (from_json b); [|done]. injection E as <-. done.
  - injection E as <-. unfold rebuild_constraint_index. cbn. assert (iter NodeTableCatalogEntry ∅ = []) as ->; [|done].
    apply Permutation_nil_r. by rewrite iter_perm, map_to_list_empty.
Qed.

(** No catalog change is lost silently: after opening the catalog from its
    file, through any changes, saves and save failures, whenever the dirty flag is
    clear the file holds the current catalog, its constraint index rebuilt. *)
Theorem clean_catalog_is_saved (s : fs) (l : LazyCatalog Expression) (ops : list lazy_op) :
  from_disk iter from_json path s = Ok l →
  let st := foldl lazy_exec (l, s) ops in dirty (fst st) = false → saved (fst st) (snd st).
Proof.
  intros Hl st. assert (lazy_inv st) as [_ H]; [|exact H]. subst st. generalize (from_disk_inv s l Hl).
  generalize (l, s). induction ops as [|o ops IH]; intros st Hi; cbn; [done|]. apply IH. by apply lazy_exec_inv.
Qed.
End saved.

(** ** Witnesses *)

Definition ex_iter (A : Type) (m : gmap string A) : list (string * A) := map_to_list m.
Definition ex_ops : list (cat_op (Expression := unit)) :=
  [OAddNode "person" [mkProp "name" TString; mkProp "age" TInt64] (Some "name"%string); OAddRel "knows" "person" "person" [mkProp "since" TDate];
   OAddConstraint "person" (mkConstraint "uniq" "name"); OAddColumn "person" "mail" TString; ORenameColumn "person" "age" "years";
   OAddSequence "s" 5 (-3); ONextVal "s"].

Lemma catalog_always_wf_witness :
  catalog_inv (λ _, True) (foldl (cat_exec ex_iter) catalog_new ex_ops) ∧ catalog_inv user_columns (foldl (cat_exec ex_iter) catalog_new ex_ops).
Proof.
  destruct (catalog_always_wf ex_iter ex_ops) as [H1 H2]; [unfold ex_ops; repeat (apply List.Forall_cons || apply List.Forall_nil); done|].
  split; [exact H1|]. apply H2. unfold ex_ops. repeat (apply List.Forall_cons || apply List.Forall_nil); cbn; try done.
  - split; [apply (bool_decide_unpack _); by vm_compute|repeat constructor].
  - split; [apply (bool_decide_unpack _); by vm_compute|repeat constructor].
Defined.

Lemma duplicate_column_accepted_witness :
  ∃ c', add_node_table (catalog_new (Expression := unit)) "person" [mkProp "name" TString; mkProp "name" TString] None = (c', Ok tt) ∧
    nt_properties <$> node_tables c' !! "person"%string = Some (node_columns ++ [mkProp "name" TString; mkProp "name" TString]).
Proof. by apply (duplicate_column_accepted (catalog_new (Expression := unit)) "person" (mkProp "name" TString)). Defined.

Definition ex_base : Catalog unit := fst (add_node_table catalog_new "person" [mkProp "name" TString] None).
Definition ex_catalog : Catalog unit := fst (add_constraint ex_base "person" (mkConstraint "uniq" "name")).

Lemma ex_base_bare t e : node_tables ex_base !! t = Some e → nt_constraints e = [].
Proof.
  change (node_tables ex_base) with (<["person"%string := new_node "person" [mkProp "name" TString] None]> (∅ : gmap string NodeTableCatalogEntry)).
  intros [[_ <-]|[_ He]]%lookup_insert_Some; [done|]. by rewrite lookup_empty in He.
Qed.

Lemma ex_index_exact : index_exact ex_catalog.
Proof.
  apply add_constraint_exact.
  - intros n x. split; [intros H; change ((∅ : gmap string (string * nat)) !! n = Some x) in H; by rewrite lookup_empty in H|].
    intros (k & (e & He & Hk) & _). apply ex_base_bare in He. by rewrite He, lookup_nil in Hk.
  - intros t k (e & He & Hk). apply ex_base_bare in He. rewrite He in Hk. by apply elem_of_nil in Hk.
Qed.

Lemma remove_constraint_exact_witness :
  snd (remove_constraint ex_iter ex_catalog "uniq") = Ok ("person"%string, mkConstraint "uniq" "name") ∧
  index_exact (fst (remove_constraint ex_iter ex_catalog "uniq")).
Proof.
  pose proof (remove_constraint_exact ex_iter (λ A m, Permutation_refl _) ex_catalog "uniq" ex_index_exact) as H.
  assert (snd (remove_constraint ex_iter ex_catalog "uniq") = Ok ("person"%string, mkConstraint "uniq" "name")) as E by (vm_compute; reflexivity).
  destruct (remove_constraint ex_iter ex_catalog "uniq") as [c' r]. cbn in E |- *. subst r. split; [done|]. apply H.
Defined.

Lemma sequence_values_witness :
  snd (next_val (draw_n 3 "s" (fst (add_sequence (catalog_new (Expression := unit)) "s" 5 (-3)))) "s") = Some 0%Z.
Proof. apply (sequence_values catalog_new "s" 5 (-3) 3); [unfold is_u64; lia|reflexivity]. Defined.

(** A serialisation of the catalogs that hold only sequences. *)
Definition ex_to_json (c : Catalog unit) : option (list Z) :=
  if decide (node_tables c = ∅ ∧ rel_tables c = ∅ ∧ macros c = ∅)
  then Some [Zpos (encode ((λ q, (seq_name q, (seq_next_val q, seq_increment q))) <$> sequences c))] else None.
Definition ex_from_json (b : list Z) : option (Catalog unit) :=
  match b with
  | [Zpos p] =>
      m ← decode p; Some (mkCatalog ∅ ∅ ((λ t, mkSeq (fst t) (fst (snd t)) (snd (snd t))) <$> (m : gmap string (string * (Z * Z)))) ∅ ∅)
  | _ => None
  end.
Lemma ex_json_roundtrip c b : ex_to_json c = Some b → ex_from_json b = Some (set_constraint_index c ∅).
Proof.
  unfold ex_to_json. destruct (decide _) as [(H1 & H2 & H3)|]; [|done]. intros [= <-]. unfold ex_from_json.
  rewrite decode_encode. cbn. unfold set_constraint_index. rewrite H1, H2, H3. do 2 f_equal.
  apply map_eq. intros n. rewrite !lookup_fmap. by destruct (sequences c !! n) as [[]|].
Qed.

Definition ex_path : Path := mkPath "db" "catalog" "ltng".

Lemma clean_catalog_is_saved_witness :
  let st := foldl (lazy_exec ex_to_json) (lazy_new catalog_new (Some ex_path), ∅)
              [LWrite (λ c, fst (add_sequence c "s" 1 1)); LSaveIfNeeded (Some 2) 1; LSaveIfNeeded None 2] in
  dirty (fst st) = false ∧ saved ex_iter ex_from_json ex_path (fst st) (snd st).
Proof.
  cbn zeta. split; [vm_compute; reflexivity|].
  apply (clean_catalog_is_saved ex_iter ex_to_json ex_from_json ex_json_roundtrip (λ A m, Permutation_refl _) ex_path); [done|done|].
  vm_compute. reflexivity.
Defined.

(** ** A stale constraint index *)

(** Dropping a table leaves its constraints in the index: when a table of
    the same name is created again, dropping the old constraint removes whatever
    constraint now has its position. *)
Theorem stale_index_removes_other (iter : ∀ A, gmap string A → list (string * A)) :
  let c := foldl (cat_exec (Expression := unit) iter) catalog_new
             [OAddNode "t" [mkProp "a" TString] None; OAddConstraint "t" (mkConstraint "old" "a"); ORemoveTable "t";
              OAddNode "t" [mkProp "a" TString; mkProp "b" TString] None; OAddConstraint "t" (mkConstraint "new" "b")] in
  snd (remove_constraint iter c "old") = Ok ("t"%string, mkConstraint "new" "b").
Proof. vm_compute. reflexivity. Qed.

(** After a rename the constraints of the table cannot be dropped: the index
    still has the old table name. *)
Lemma renamed_table_keeps_constraint (iter : ∀ A, gmap string A → list (string * A)) :
  let c := foldl (cat_exec (Expression := unit) iter) catalog_new
             [OAddNode "t" [mkProp "a" TString] None; OAddConstraint "t" (mkConstraint "k" "a"); ORenameTable "t" "u"] in
  snd (remove_constraint iter c "k") = Err Database.
Proof. vm_compute. reflexivity. Qed.
