(* ===== verification/Ddl.v ===== *)
(** * Schema statements and their rollback (processor/operators/ddl.rs,
    storage/undo_buffer.rs, the schema part of storage/storage_manager.rs)

    A schema statement changes the catalog and the storage manager and pushes a
    record to the undo buffer of its transaction; rollback pops the records and
    reverts both.  Of a storage table the model keeps the name, the columns with
    their types and the row-id counter; the files behind it are represented by
    whether opening one succeeds ([io]) and, for hash indexes, by their names.
    Node and column names are ASCII. *)
From Stdlib Require Import ZArith Lia Bool Ascii.
From stdpp Require Import base list gmap strings numbers.
From S2P Require Import Prelude Codec Stats Persist Catalog.
Open Scope nat_scope.

(** ** Storage manager *)

(** The schema part of [Table]; a column is its name and data type. *)
Record Table := mkTable { tb_name : string; tb_columns : list PropertyDefinition; tb_next_row_id : Z }.

Record StorageManager := mkStorage {
  sm_node_tables : gmap string Table;
  sm_rel_tables : gmap string Table;
  sm_indexes : gmap string string;
  sm_fts_indexes : gset string;
  sm_vector_indexes : gset string;
  sm_fwd_csr : gset string;
  sm_bwd_csr : gset string;
}.

Definition storage_new : StorageManager := mkStorage ∅ ∅ ∅ ∅ ∅ ∅ ∅.

Definition sm_set_tables (s : StorageManager) (nodes rels : gmap string Table) : StorageManager :=
  mkStorage nodes rels (sm_indexes s) (sm_fts_indexes s) (sm_vector_indexes s) (sm_fwd_csr s) (sm_bwd_csr s).
Definition sm_set_indexes (s : StorageManager) (ix : gmap string string) : StorageManager :=
  mkStorage (sm_node_tables s) (sm_rel_tables s) ix (sm_fts_indexes s) (sm_vector_indexes s) (sm_fwd_csr s) (sm_bwd_csr s).

Definition table_columns (is_rel : bool) (defs : list PropertyDefinition) : list PropertyDefinition :=
  if is_rel
  then mkProp "_src" TUint64 :: mkProp "_dst" TUint64 ::
         filter (λ p, prop_name p ≠ "_src"%string ∧ prop_name p ≠ "_dst"%string) defs
  else mkProp "_id" TUint64 :: filter (λ p, prop_name p ≠ "_id"%string) defs.
Definition create_table (io : bool) (s : StorageManager) (name : string) (defs : list PropertyDefinition) (is_rel : bool) :
    StorageManager * outcome unit :=
  if io then
    let t := mkTable name (table_columns is_rel defs) 0 in
    (if is_rel then sm_set_tables s (sm_node_tables s) (<[name := t]> (sm_rel_tables s))
     else sm_set_tables s (<[name := t]> (sm_node_tables s)) (sm_rel_tables s), Ok tt)
  else (s, Err Io).

Definition create_index (io : bool) (s : StorageManager) (table_name : string) : StorageManager * outcome unit :=
  if io then (sm_set_indexes s (<[table_name := (table_name ++ "_pk_index.ltng")%string]> (sm_indexes s)), Ok tt) else (s, Err Io).

Definition create_vector_index (io : bool) (s : StorageManager) (table_name : string) : StorageManager * outcome unit :=
  if io then
    (mkStorage (sm_node_tables s) (sm_rel_tables s) (sm_indexes s) (sm_fts_indexes s) ({[table_name]} ∪ sm_vector_indexes s)
               (sm_fwd_csr s) (sm_bwd_csr s), Ok tt)
  else (s, Err Io).
Definition create_fts_index (io : bool) (s : StorageManager) (table_name : string) : StorageManager * outcome unit :=
  if io then
    (mkStorage (sm_node_tables s) (sm_rel_tables s) (sm_indexes s) ({[table_name]} ∪ sm_fts_indexes s) (sm_vector_indexes s)
               (sm_fwd_csr s) (sm_bwd_csr s), Ok tt)
  else (s, Err Io).

Definition sm_get_table (s : StorageManager) (name : string) : option Table :=
  match sm_node_tables s !! name with Some t => Some t | None => sm_rel_tables s !! name end.
Definition get_index (s : StorageManager) (table_name : string) : option string := sm_indexes s !! table_name.
Definition resolve_index (s : StorageManager) (table_name index_key : string) : option string :=
  match sm_indexes s !! index_key with Some i => Some i | None => sm_indexes s !! table_name end.

Definition sm_remove_table (s : StorageManager) (name : string) : StorageManager :=
  mkStorage (delete name (sm_node_tables s)) (delete name (sm_rel_tables s)) (delete name (sm_indexes s))
            (sm_fts_indexes s ∖ {[name]}) (sm_vector_indexes s ∖ {[name]}) (sm_fwd_csr s ∖ {[name]}) (sm_bwd_csr s ∖ {[name]}).

(** The table [get_mut] finds, node tables first, with its columns changed. *)
Definition sm_with_columns {R} (s : StorageManager) (table_name : string)
    (f : list PropertyDefinition → list PropertyDefinition * outcome R) : StorageManager * outcome R :=
  match sm_node_tables s !! table_name with
  | Some t =>
      let '(cs, r) := f (tb_columns t) in
      (sm_set_tables s (<[table_name := mkTable (tb_name t) cs (tb_next_row_id t)]> (sm_node_tables s)) (sm_rel_tables s), r)
  | None =>
      match sm_rel_tables s !! table_name with
      | Some t =>
          let '(cs, r) := f (tb_columns t) in
          (sm_set_tables s (sm_node_tables s) (<[table_name := mkTable (tb_name t) cs (tb_next_row_id t)]> (sm_rel_tables s)), r)
      | None => (s, Err Database)
      end
  end.

(** The duplicate check comes before the column's files are opened. *)
Definition sm_add_column (io : bool) (s : StorageManager) (table_name col_name : string) (col_type : LogicalType) :
    StorageManager * outcome unit :=
  sm_with_columns s table_name (λ cs,
    if has_column cs col_name then (cs, Err Database) else if io then (cs ++ [mkProp col_name col_type], Ok tt) else (cs, Err Io)).
Definition sm_remove_column (s : StorageManager) (table_name col_name : string) : StorageManager * outcome unit :=
  sm_with_columns s table_name (λ cs,
    match list_find (λ p, prop_name p = col_name) cs with Some (i, _) => (delete i cs, Ok tt) | None => (cs, Err Database) end).

(** [columns.iter_mut().find(|c| c.name == old)], without a check of the new name. *)
Definition rename_first (old new : string) (cs : list PropertyDefinition) : list PropertyDefinition :=
  match list_find (λ p, prop_name p = old) cs with Some (i, p) => <[i := mkProp new (prop_type p)]> cs | None => cs end.
Definition sm_rename_column (s : StorageManager) (table_name old new : string) : StorageManager :=
  fst (sm_with_columns s table_name (λ cs, (rename_first old new cs, Ok tt))).

Definition tb_with_name (t : Table) (n : string) : Table := mkTable n (tb_columns t) (tb_next_row_id t).
Definition sm_rename_table (s : StorageManager) (old new : string) : StorageManager :=
  match sm_node_tables s !! old with
  | Some t => sm_set_tables s (<[new := tb_with_name t new]> (delete old (sm_node_tables s))) (sm_rel_tables s)
  | None =>
      match sm_rel_tables s !! old with
      | Some t => sm_set_tables s (sm_node_tables s) (<[new := tb_with_name t new]> (delete old (sm_rel_tables s)))
      | None => s
      end
  end.

(** ** Statements and undo records *)

Section ddl.
Context {Expression : Type} (iter : ∀ A, gmap string A → list (string * A)).
Abbreviation Catalog := (Catalog Expression).

Inductive DDLAction :=
| CreateNode (name : string) (columns : list PropertyDefinition) (primary_key : string) (if_not_exists : bool)
| CreateRel (name from_table to_table : string) (columns : list PropertyDefinition) (if_not_exists : bool)
| DropTable (name : string) (if_exists : bool)
| AlterAddColumn (table_name col_name : string) (data_type : LogicalType)
| AlterDropColumn (table_name col_name : string)
| AlterRenameTable (old_name new_name : string)
| AlterRenameColumn (table_name old_name new_name : string)
| CreateSequence (name : string) (start_with increment_by : Z)
| CreateMacro (name : string) (params : list string) (body : Expression)
| CreateConstraint (name table_name property : string)
| DropConstraint (name : string)
| CreateIndex (name table_name property : string)
| CreateVectorIndex (table_name : string)
| CreateFtsIndex (table_name : string)
| DropIndex (name : string).

Inductive UndoRecord :=
| UUpdateColumn
| UDeleteNode
| UCreateNodeTable (name : string)
| UCreateRelTable (name : string)
| UDropTable (name : string) (e : TableEntry)
| UAlterAddColumn (table_name col_name : string)
| UAlterDropColumn (table_name col_name : string) (col_type : LogicalType)
| UAlterRenameTable (old_name new_name : string)
| UAlterRenameColumn (table_name old_name new_name : string)
| UCreateSequence (name : string)
| UCreateMacro (name : string)
| UCreateConstraint (name table_name property : string)
| UDropConstraint (name table_name property : string)
| UCreateIndex (name table_name property index_path : string)
| UDropIndex (name table_name property : string).

(** The catalog and the storage manager of a database. *)
Record Db := mkDb { db_catalog : Catalog; db_storage : StorageManager }.

Definition is_alphanumeric (a : ascii) : bool :=
  let n := nat_of_ascii a in
  bool_decide (48 ≤ n ≤ 57) || bool_decide (65 ≤ n ≤ 90) || bool_decide (97 ≤ n ≤ 122).
Fixpoint sanitize (s : string) : string :=
  match s with
  | EmptyString => EmptyString
  | String a s => String (if is_alphanumeric a then a else "_"%char) (sanitize s)
  end.

(** ** Executing a statement *)

Definition drop_constraint_info (c : Catalog) (name : string) : option (string * string) :=
  (λ tk, (fst tk, c_property (snd tk))) <$>
    head (filter (λ tk, c_name (snd tk) = name)
      (concat (map (λ te, map (λ k, (nt_name (snd te), k)) (nt_constraints (snd te))) (iter _ (node_tables c))))).

Fixpoint find_index_entry (l : list (string * NodeTableCatalogEntry)) (name : string) : option (string * string) :=
  match l with
  | [] => None
  | (_, e) :: l =>
      match list_find (λ kv, snd kv = name) (iter _ (nt_secondary_indexes e)) with
      | Some (_, (k, _)) => Some (nt_name e, k)
      | None => find_index_entry l name
      end
  end.
Definition set_secondary (c : Catalog) (t : string) (f : gmap string string → gmap string string) : Catalog :=
  set_nodes c (alter (λ e, nt_with_indexes e (f (nt_secondary_indexes e))) t (node_tables c)).

(** A statement gives the new state and the records it pushes to the undo
    buffer.  [io_table] and [io_index]: whether opening its files succeeds. *)
Local Abbreviation executed := (Db * list UndoRecord * outcome unit)%type.

Definition create_node_stmt (io_table io_index : bool) (db : Db) (name : string) (columns : list PropertyDefinition)
    (primary_key : string) (if_not_exists : bool) : executed :=
  let c := db_catalog db in
  let s := db_storage db in
  match get_node_table c name with
  | Some _ => (db, [], if if_not_exists then Ok tt else Err Database)
  | None =>
      match add_node_table c name columns (Some primary_key) with
      | (c1, Ok _) =>
          match create_table io_table s name columns false with
          | (s1, Ok _) =>
              let r := if decide (primary_key = ""%string) then (s1, Ok tt) else create_index io_index s1 name in
              match r with
              | (s2, Ok _) => (mkDb c1 s2, [UCreateNodeTable name], Ok tt)
              | (s2, e) => (mkDb (set_nodes c1 (delete name (node_tables c1))) s2, [], e)
              end
          | (s1, e) => (mkDb (set_nodes c1 (delete name (node_tables c1))) s1, [], e)
          end
      | (c1, e) => (mkDb c1 s, [], e)
      end
  end.

Definition create_rel_stmt (io_table : bool) (db : Db) (name from to : string) (columns : list PropertyDefinition)
    (if_not_exists : bool) : executed :=
  let c := db_catalog db in
  let s := db_storage db in
  match get_rel_table c name with
  | Some _ => (db, [], if if_not_exists then Ok tt else Err Database)
  | None =>
      match add_rel_table c name from to columns with
      | (c1, Ok _) =>
          match create_table io_table s name columns true with
          | (s1, Ok _) => (mkDb c1 s1, [UCreateRelTable name], Ok tt)
          | (s1, e) => (mkDb (set_rels c1 (delete name (rel_tables c1))) s1, [], e)
          end
      | (c1, e) => (mkDb c1 s, [], e)
      end
  end.

Definition drop_table_stmt (db : Db) (name : string) : executed :=
  let c := db_catalog db in
  let s := db_storage db in
  let entry := match get_node_table c name with Some e => Some (TNodeEntry e) | None => TRelEntry <$> get_rel_table c name end in
  match entry with
  | Some e => (mkDb (remove_table c name) (sm_remove_table s name), [UDropTable name e], Ok tt)
  | None => (db, [], Ok tt)
  end.

Definition add_column_stmt (io_table : bool) (db : Db) (t n : string) (ty : LogicalType) : executed :=
  let c := db_catalog db in
  let s := db_storage db in
  match sm_add_column io_table s t n ty with
  | (s1, Ok _) =>
      match add_column_to_table c t n ty with
      | (c1, Ok _) => (mkDb c1 s1, [UAlterAddColumn t n], Ok tt)
      | (c1, e) => (mkDb c1 (fst (sm_remove_column s1 t n)), [], e)
      end
  | (s1, e) => (mkDb c s1, [], e)
  end.

Definition drop_column_stmt (db : Db) (t n : string) : executed :=
  let c := db_catalog db in
  let s := db_storage db in
  match sm_remove_column s t n with
  | (s1, Ok _) =>
      match remove_column_from_table c t n with
      | (c1, Ok p) => (mkDb c1 s1, [UAlterDropColumn t n (prop_type p)], Ok tt)
      | (c1, Err e) => (mkDb c1 s1, [], Err e)
      | (c1, Panic) => (mkDb c1 s1, [], Panic)
      end
  | (s1, e) => (mkDb c s1, [], e)
  end.

Definition rename_table_stmt (db : Db) (old new : string) : executed :=
  let c := db_catalog db in
  let s := db_storage db in
  match rename_table c old new with
  | (c1, Ok _) => (mkDb c1 (sm_rename_table s old new), [UAlterRenameTable old new], Ok tt)
  | (c1, e) => (mkDb c1 s, [], e)
  end.

Definition rename_column_stmt (db : Db) (t old new : string) : executed :=
  let c := db_catalog db in
  let s := db_storage db in
  match rename_column_in_table c t old new with
  | (c1, Ok _) => (mkDb c1 (sm_rename_column s t old new), [UAlterRenameColumn t old new], Ok tt)
  | (c1, e) => (mkDb c1 s, [], e)
  end.

Definition create_sequence_stmt (db : Db) (name : string) (start inc : Z) : executed :=
  let c := db_catalog db in
  let s := db_storage db in
  match add_sequence c name start inc with
  | (c1, Ok _) => (mkDb c1 s, [UCreateSequence name], Ok tt)
  | (c1, e) => (mkDb c1 s, [], e)
  end.

Definition create_macro_stmt (db : Db) (name : string) (params : list string) (body : Expression) : executed :=
  let c := db_catalog db in
  let s := db_storage db in
  match add_macro c name params body with
  | (c1, Ok _) => (mkDb c1 s, [UCreateMacro name], Ok tt)
  | (c1, e) => (mkDb c1 s, [], e)
  end.

Definition create_constraint_stmt (db : Db) (name t property : string) : executed :=
  let c := db_catalog db in
  let s := db_storage db in
  match add_constraint c t (mkConstraint name property) with
  | (c1, Ok _) => (mkDb c1 s, [UCreateConstraint name t property], Ok tt)
  | (c1, e) => (mkDb c1 s, [], e)
  end.

Definition drop_constraint_stmt (db : Db) (name : string) : executed :=
  let c := db_catalog db in
  let s := db_storage db in
  let info := drop_constraint_info c name in
  match remove_constraint iter c name with
  | (c1, Ok _) =>
      (mkDb c1 s, match info with Some (t, property) => [UDropConstraint name t property] | None => [] end, Ok tt)
  | (c1, Err e) => (mkDb c1 s, [], Err e)
  | (c1, Panic) => (mkDb c1 s, [], Panic)
  end.

Definition create_index_stmt (io_table : bool) (db : Db) (name t property : string) : executed :=
  let c := db_catalog db in
  let s := db_storage db in
  if io_table then
    let index_path := (sanitize t ++ "_" ++ sanitize name ++ "_idx.ltng")%string in
    (mkDb (set_secondary c t (insert property name)) (sm_set_indexes s (<[name := index_path]> (sm_indexes s))),
     [UCreateIndex name t property index_path], Ok tt)
  else (db, [], Err Io).

Definition drop_index_stmt (db : Db) (name : string) : executed :=
  let c := db_catalog db in
  let s := db_storage db in
  let found := find_index_entry (iter _ (node_tables c)) name in
  let drop_entries := λ e, nt_with_indexes e (filter (λ kv, snd kv ≠ name) (nt_secondary_indexes e)) in
  (mkDb (set_nodes c (drop_entries <$> node_tables c)) (sm_set_indexes s (delete name (sm_indexes s))),
   [UDropIndex name (default ""%string (fst <$> found)) (default ""%string (snd <$> found))], Ok tt).

Definition exec (io_table io_index : bool) (db : Db) (a : DDLAction) : Db * list UndoRecord * outcome unit :=
  let c := db_catalog db in
  let s := db_storage db in
  match a with
  | CreateNode name columns primary_key if_not_exists => create_node_stmt io_table io_index db name columns primary_key if_not_exists
  | CreateRel name from to columns if_not_exists => create_rel_stmt io_table db name from to columns if_not_exists
  | DropTable name _ => drop_table_stmt db name
  | AlterAddColumn t n ty => add_column_stmt io_table db t n ty
  | AlterDropColumn t n => drop_column_stmt db t n
  | AlterRenameTable old new => rename_table_stmt db old new
  | AlterRenameColumn t old new => rename_column_stmt db t old new
  | CreateSequence name start inc => create_sequence_stmt db name start inc
  | CreateMacro name params body => create_macro_stmt db name params body
  | CreateConstraint name t property => create_constraint_stmt db name t property
  | DropConstraint name => drop_constraint_stmt db name
  | CreateIndex name t property => create_index_stmt io_table db name t property
  | CreateVectorIndex t => let '(s1, r) := create_vector_index io_table s t in (mkDb c s1, [], r)
  | CreateFtsIndex t => let '(s1, r) := create_fts_index io_table s t in (mkDb c s1, [], r)
  | DropIndex name => drop_index_stmt db name
  end.

(** ** Rolling back *)

(** [io]: whether the files a record needs can be opened. *)
Definition undo_create_table (db : Db) (name : string) : Db :=
  mkDb (remove_table (db_catalog db) name) (sm_remove_table (db_storage db) name).

Definition undo_drop_table (io : bool) (db : Db) (name : string) (e : TableEntry) : Db * outcome unit :=
  let c := db_catalog db in
  let s := db_storage db in
  match e with
  | TNodeEntry e =>
      match create_table io s name (nt_properties e) false with
      | (s1, Ok _) => (mkDb (set_nodes c (<[name := e]> (node_tables c))) s1, Ok tt)
      | (s1, er) => (mkDb c s1, er)
      end
  | TRelEntry e =>
      match create_table io s name (rt_properties e) true with
      | (s1, Ok _) => (mkDb (set_rels c (<[name := e]> (rel_tables c))) s1, Ok tt)
      | (s1, er) => (mkDb c s1, er)
      end
  end.

Definition undo_add_column (db : Db) (t n : string) : Db :=
  mkDb (fst (remove_column_from_table (db_catalog db) t n)) (fst (sm_remove_column (db_storage db) t n)).
Definition undo_drop_column (io : bool) (db : Db) (t n : string) (ty : LogicalType) : Db :=
  mkDb (fst (add_column_to_table (db_catalog db) t n ty)) (fst (sm_add_column io (db_storage db) t n ty)).

Definition undo_rename_table (db : Db) (old new : string) : Db :=
  let c := db_catalog db in
  let c1 :=
    match node_tables c !! new with
    | Some e => set_nodes c (<[old := nt_with_name e old]> (delete new (node_tables c)))
    | None =>
        match rel_tables c !! new with
        | Some e => set_rels c (<[old := rt_with_name e old]> (delete new (rel_tables c)))
        | None => c
        end
    end in
  mkDb c1 (sm_rename_table (db_storage db) new old).
Definition undo_rename_column (db : Db) (t old new : string) : Db :=
  mkDb (fst (rename_column_in_table (db_catalog db) t new old)) (sm_rename_column (db_storage db) t new old).

Definition undo_create_constraint (db : Db) (name t : string) : Db :=
  let c := db_catalog db in
  mkDb (set_nodes c (alter (λ e, nt_with_constraints e (filter (λ k, c_name k ≠ name) (nt_constraints e))) t (node_tables c)))
       (db_storage db).
Definition undo_drop_constraint (db : Db) (name t property : string) : Db :=
  let c := db_catalog db in
  mkDb (set_nodes c (alter (λ e, nt_with_constraints e (nt_constraints e ++ [mkConstraint name property])) t (node_tables c)))
       (db_storage db).

Definition undo_create_index (db : Db) (name t property : string) : Db :=
  let s := db_storage db in
  mkDb (set_secondary (db_catalog db) t (delete property)) (sm_set_indexes s (delete name (sm_indexes s))).
Definition undo_drop_index (io : bool) (db : Db) (name t property : string) : Db :=
  let s := db_storage db in
  let s1 := if io then sm_set_indexes s (<[name := (sanitize name ++ "_idx.ltng")%string]> (sm_indexes s)) else s in
  mkDb (set_secondary (db_catalog db) t (insert property name)) s1.

Definition undo_one (io : bool) (db : Db) (r : UndoRecord) : Db * outcome unit :=
  let c := db_catalog db in
  match r with
  | UUpdateColumn | UDeleteNode => (db, Ok tt)
  | UCreateNodeTable name | UCreateRelTable name => (undo_create_table db name, Ok tt)
  | UDropTable name e => undo_drop_table io db name e
  | UAlterAddColumn t n => (undo_add_column db t n, Ok tt)
  | UAlterDropColumn t n ty => (undo_drop_column io db t n ty, Ok tt)
  | UAlterRenameTable old new => (undo_rename_table db old new, Ok tt)
  | UAlterRenameColumn t old new => (undo_rename_column db t old new, Ok tt)
  | UCreateSequence name => (mkDb (set_sequences c (delete name (sequences c))) (db_storage db), Ok tt)
  | UCreateMacro name => (mkDb (set_macros c (delete name (macros c))) (db_storage db), Ok tt)
  | UCreateConstraint name t _ => (undo_create_constraint db name t, Ok tt)
  | UDropConstraint name t property => (undo_drop_constraint db name t property, Ok tt)
  | UCreateIndex name t property _ => (undo_create_index db name t property, Ok tt)
  | UDropIndex name t property => (undo_drop_index io db name t property, Ok tt)
  end.

Record UndoBuffer := mkUndo { records : list UndoRecord }.
Definition undo_new : UndoBuffer := mkUndo [].
(** The newest record is first. *)
Definition push (u : UndoBuffer) (r : UndoRecord) : UndoBuffer := mkUndo (r :: records u).
Definition clear (u : UndoBuffer) : UndoBuffer := mkUndo [].

(** Pops and reverts until the buffer is empty or a record fails. *)
Fixpoint rollback_records (io : bool) (db : Db) (rs : list UndoRecord) : Db * UndoBuffer * outcome unit :=
  match rs with
  | [] => (db, undo_new, Ok tt)
  | r :: rs =>
      match undo_one io db r with
      | (db1, Ok _) => rollback_records io db1 rs
      | (db1, e) => (db1, mkUndo rs, e)
      end
  end.
Definition undo_rollback (io : bool) (db : Db) (u : UndoBuffer) : Db * UndoBuffer * outcome unit := rollback_records io db (records u).

(** The operator: it runs its statement at the first call only. *)
Definition ddl_get_next (io_table io_index executed : bool) (db : Db) (u : UndoBuffer) (a : DDLAction) :
    bool * Db * UndoBuffer * outcome unit :=
  if executed then (executed, db, u, Ok tt)
  else let '(db1, rs, r) := exec io_table io_index db a in (true, db1, foldl push u rs, r).

End ddl.
Arguments Db Expression : clear implicits.
Arguments DDLAction Expression : clear implicits.
