(* ===== verification/DdlSpec.v ===== *)
(** * Properties of schema statements

    The catalog and the storage manager agree on tables and columns after every
    statement, and rolling a transaction back restores the schema. *)
From Stdlib Require Import ZArith Lia Bool.
From stdpp Require Import base list gmap strings numbers.
From S2P Require Import Prelude Codec Stats Persist Catalog CatalogSpec Ddl.
Open Scope nat_scope.

(** ** Columns *)

Lemma find_column_fresh ps n t : has_column ps n = false →
  list_find (λ p, prop_name p = n) (ps ++ [mkProp n t]) = Some (length ps, mkProp n t).
Proof.
  intros H. apply has_column_false in H. apply list_find_Some. split; [by rewrite lookup_app_r, Nat.sub_diag|]. split; [done|].
  intros j y Hj Hlt Hy. rewrite lookup_app_l in Hj by done. apply H. apply list_elem_of_fmap. exists y. split; [done|].
  by eapply list_elem_of_lookup_2.
Qed.

Lemma delete_last {A} (l : list A) x : delete (length l) (l ++ [x]) = l.
Proof. pose proof (delete_app_right l [x] 0) as H. rewrite Nat.add_0_r in H. rewrite H. cbn. apply app_nil_r. Qed.

Lemma pop_pushed ps n t : has_column ps n = false → pop_column n (ps ++ [mkProp n t]) = (ps, Ok (mkProp n t)).
Proof. intros H. unfold pop_column. by rewrite find_column_fresh, delete_last. Qed.

Section renamed.
Context (ps : list PropertyDefinition) (old new : string) (i : nat) (p : PropertyDefinition).
Context (Hnew : has_column ps new = false) (Hfind : list_find (λ p, prop_name p = old) ps = Some (i, p)).
Let ps' := <[i := mkProp new (prop_type p)]> ps.

Lemma renamed_at : ps !! i = Some p ∧ prop_name p = old ∧ i < length ps.
Proof. apply list_find_Some in Hfind as (H1 & H2 & _). split; [done|]. split; [done|]. by eapply lookup_lt_Some. Qed.

Lemma find_renamed : list_find (λ p, prop_name p = new) ps' = Some (i, mkProp new (prop_type p)).
Proof.
  destruct renamed_at as (H1 & H2 & H3). apply list_find_Some. unfold ps'. split; [by rewrite list_lookup_insert_eq|]. split; [done|].
  intros j y Hj Hlt Hy. rewrite list_lookup_insert_ne in Hj by lia. apply has_column_false in Hnew. apply Hnew.
  apply list_elem_of_fmap. exists y. split; [done|]. by eapply list_elem_of_lookup_2.
Qed.

Lemma renamed_back : <[i := mkProp old (prop_type p)]> ps' = ps.
Proof.
  destruct renamed_at as (H1 & H2 & H3). unfold ps'. rewrite list_insert_insert_eq. apply list_insert_id. rewrite H1. f_equal.
  destruct p. cbn in *. by subst.
Qed.

Lemma old_gone : NoDup (prop_name <$> ps) → has_column ps' old = false.
Proof.
  intros Hd. destruct renamed_at as (H1 & H2 & H3). apply has_column_false. intros Hin.
  apply list_elem_of_lookup in Hin as [j Hj]. unfold ps' in Hj. rewrite list_fmap_insert in Hj. cbn in Hj.
  destruct (decide (i = j)) as [<-|Hne].
  - rewrite list_lookup_insert_eq in Hj by (by rewrite length_fmap). injection Hj as ->.
    apply has_column_false in Hnew. apply Hnew. rewrite <- H2. apply list_elem_of_fmap. exists p. split; [done|]. by eapply list_elem_of_lookup_2.
  - rewrite list_lookup_insert_ne in Hj by done. apply Hne. eapply NoDup_lookup; [exact Hd| |exact Hj].
    rewrite list_lookup_fmap, H1. cbn. by rewrite H2.
Qed.

Lemma rename_back : NoDup (prop_name <$> ps) → rename_column new old ps' = (ps, Ok tt).
Proof. intros Hd. unfold rename_column. rewrite old_gone by done. rewrite find_renamed. cbn. by rewrite renamed_back. Qed.

Lemma rename_first_back : rename_first new old ps' = ps.
Proof. unfold rename_first. rewrite find_renamed. apply renamed_back. Qed.
End renamed.

Lemma rename_column_ok ps old new ps' : rename_column old new ps = (ps', Ok tt) →
  has_column ps new = false ∧ ∃ i p, list_find (λ p, prop_name p = old) ps = Some (i, p) ∧ ps' = <[i := mkProp new (prop_type p)]> ps.
Proof.
  unfold rename_column. destruct (has_column ps new); [done|]. destruct (list_find _ ps) as [[i p]|]; [|done]. intros [= <-]. eauto.
Qed.

Lemma filter_keep_all {A} (P : A → Prop) `{∀ x, Decision (P x)} (l : list A) : (∀ x, x ∈ l → P x) → filter P l = l.
Proof.
  induction l as [|x l IH]; intros HP; [done|]. rewrite filter_cons_True by (apply HP; by left). f_equal. apply IH. intros y Hy. apply HP. by right.
Qed.

(** The columns a table gets at creation are the declared ones. *)
Lemma table_columns_user (is_rel : bool) ups : user_columns ups →
  let pre := if is_rel then rel_columns else node_columns in
  table_columns is_rel ups = pre ++ ups ∧ table_columns is_rel (pre ++ ups) = pre ++ ups.
Proof.
  intros [_ Hb].
  assert (∀ p, p ∈ ups → prop_name p ≠ "_id"%string ∧ prop_name p ≠ "_src"%string ∧ prop_name p ≠ "_dst"%string) as H.
  { intros p Hp. eapply list.Forall_forall in Hb; [|exact Hp]. split_and!; intros E; by rewrite E in Hb. }
  destruct is_rel; unfold table_columns, rel_columns, node_columns; cbn [app].
  - rewrite !filter_cons_False by naive_solver. rewrite filter_keep_all by (intros p Hp; naive_solver). done.
  - rewrite filter_cons_False by naive_solver. rewrite filter_keep_all by (intros p Hp; naive_solver). done.
Qed.

Lemma table_columns_shape (is_rel : bool) ps : shape (if is_rel then rel_columns else node_columns) ps → table_columns is_rel ps = ps.
Proof. intros [_ (ups & -> & Hu)]. by apply table_columns_user. Qed.

(** ** Agreement of catalog and storage *)

(** The statement, or the undo step, at hand. *)
Ltac open_exec :=
  cbn [exec];
  try unfold create_node_stmt; try unfold create_rel_stmt; try unfold drop_table_stmt; try unfold add_column_stmt;
  try unfold drop_column_stmt; try unfold rename_table_stmt; try unfold rename_column_stmt; try unfold create_sequence_stmt;
  try unfold create_macro_stmt; try unfold create_constraint_stmt; try unfold drop_constraint_stmt; try unfold create_index_stmt;
  try unfold drop_index_stmt; cbn [db_catalog db_storage].
Ltac open_undo :=
  cbn [undo_one fst];
  try unfold undo_create_table; try unfold undo_drop_table; try unfold undo_add_column; try unfold undo_drop_column;
  try unfold undo_rename_table; try unfold undo_rename_column; try unfold undo_create_constraint; try unfold undo_drop_constraint;
  try unfold undo_create_index; try unfold undo_drop_index; cbn [fst db_catalog db_storage].

Section agree.
Context {Expression : Type} (iter : ∀ A, gmap string A → list (string * A)).
Abbreviation Catalog := (Catalog Expression).
Abbreviation Db := (Db Expression).
Abbreviation DDLAction := (DDLAction Expression).
Implicit Types (c : Catalog) (s : StorageManager) (db : Db).

(** The same tables with the same columns in the same order. *)
Definition schemas_agree c s : Prop :=
  nt_properties <$> node_tables c = tb_columns <$> sm_node_tables s ∧
  rt_properties <$> rel_tables c = tb_columns <$> sm_rel_tables s.

Definition props_of c (t : string) : option (list PropertyDefinition) := fst <$> get_table_properties c t.
Definition columns_of s (t : string) : option (list PropertyDefinition) := tb_columns <$> sm_get_table s t.
Definition set_props c (t : string) (ps : list PropertyDefinition) : Catalog := fst (with_properties c t (λ _, (ps, Ok tt))).
Definition set_columns s (t : string) (ps : list PropertyDefinition) : StorageManager := fst (sm_with_columns s t (λ _, (ps, Ok tt))).

Lemma agree_lookup c s : schemas_agree c s → ∀ t,
  nt_properties <$> node_tables c !! t = tb_columns <$> sm_node_tables s !! t ∧
  rt_properties <$> rel_tables c !! t = tb_columns <$> sm_rel_tables s !! t.
Proof. intros [H1 H2] t. rewrite <- !lookup_fmap, H1, H2. done. Qed.

Lemma agree_props c s t : schemas_agree c s → props_of c t = columns_of s t.
Proof.
  intros H. destruct (agree_lookup c s H t) as [H1 H2]. unfold props_of, columns_of, get_table_properties, sm_get_table.
  destruct (node_tables c !! t), (sm_node_tables s !! t); cbn in *; try congruence.
  destruct (rel_tables c !! t), (sm_rel_tables s !! t); cbn in *; congruence.
Qed.

Lemma with_properties_alt {R} c t (f : _ → _ * outcome R) :
  with_properties c t f = match props_of c t with Some ps => (set_props c t (fst (f ps)), snd (f ps)) | None => (c, Err Database) end.
Proof.
  unfold props_of, get_table_properties, set_props, with_properties. destruct (node_tables c !! t) as [e|]; cbn.
  - by destruct (f (nt_properties e)).
  - destruct (rel_tables c !! t) as [e|]; cbn; [|done]. by destruct (f (rt_properties e)).
Qed.

Lemma sm_with_columns_alt {R} s t (f : _ → _ * outcome R) :
  sm_with_columns s t f = match columns_of s t with Some ps => (set_columns s t (fst (f ps)), snd (f ps)) | None => (s, Err Database) end.
Proof.
  unfold columns_of, sm_get_table, set_columns, sm_with_columns. destruct (sm_node_tables s !! t) as [e|]; cbn.
  - by destruct (f (tb_columns e)).
  - destruct (sm_rel_tables s !! t) as [e|]; cbn; [|done]. by destruct (f (tb_columns e)).
Qed.

Lemma set_agree c s t ps : schemas_agree c s → schemas_agree (set_props c t ps) (set_columns s t ps).
Proof.
  intros H. destruct (agree_lookup c s H t) as [E1 E2]. destruct H as [H1 H2]. unfold set_props, set_columns, with_properties, sm_with_columns.
  destruct (node_tables c !! t) as [e|], (sm_node_tables s !! t) as [e'|]; cbn in *; try congruence.
  - split; cbn; [|done]. rewrite !fmap_insert. cbn. by rewrite H1.
  - destruct (rel_tables c !! t) as [r|], (sm_rel_tables s !! t) as [r'|]; cbn in *; try congruence; [|by split].
    split; cbn; [done|]. rewrite !fmap_insert. cbn. by rewrite H2.
Qed.

Lemma set_props_id c t ps : props_of c t = Some ps → set_props c t ps = c.
Proof.
  unfold props_of, get_table_properties, set_props, with_properties. destruct c as [n r q m k]. cbn.
  destruct (n !! t) as [e|] eqn:En; cbn.
  - intros [= <-]. unfold set_nodes. cbn. rewrite insert_id; [done|]. rewrite En. by destruct e.
  - destruct (r !! t) as [e|] eqn:Er; cbn; [|done]. intros [= <-]. unfold set_rels. cbn. rewrite insert_id; [done|]. rewrite Er. by destruct e.
Qed.

Lemma set_columns_id s t ps : columns_of s t = Some ps → set_columns s t ps = s.
Proof.
  unfold columns_of, sm_get_table, set_columns, sm_with_columns. destruct s as [n r i f v fw bw]. cbn.
  destruct (n !! t) as [e|] eqn:En; cbn.
  - intros [= <-]. unfold sm_set_tables. cbn. rewrite insert_id; [done|]. rewrite En. by destruct e.
  - destruct (r !! t) as [e|] eqn:Er; cbn; [|done]. intros [= <-]. unfold sm_set_tables. cbn. rewrite insert_id; [done|]. rewrite Er. by destruct e.
Qed.

Lemma set_props_set c t ps ps' : set_props (set_props c t ps) t ps' = set_props c t ps'.
Proof.
  unfold set_props, with_properties. destruct (node_tables c !! t) as [e|] eqn:En; cbn.
  - rewrite lookup_insert_eq. cbn. unfold set_nodes. cbn. by rewrite insert_insert_eq.
  - destruct (rel_tables c !! t) as [e|] eqn:Er; cbn; rewrite En; cbn; [|by rewrite Er]. rewrite lookup_insert_eq. cbn. unfold set_rels. cbn.
    by rewrite insert_insert_eq.
Qed.

Lemma set_columns_set s t ps ps' : set_columns (set_columns s t ps) t ps' = set_columns s t ps'.
Proof.
  unfold set_columns, sm_with_columns. destruct (sm_node_tables s !! t) as [e|] eqn:En; cbn.
  - rewrite lookup_insert_eq. cbn. unfold sm_set_tables. cbn. by rewrite insert_insert_eq.
  - destruct (sm_rel_tables s !! t) as [e|] eqn:Er; cbn; rewrite En; cbn; [|by rewrite Er]. rewrite lookup_insert_eq. cbn. unfold sm_set_tables. cbn.
    by rewrite insert_insert_eq.
Qed.

Lemma props_of_set c t ps ps0 : props_of c t = Some ps0 → props_of (set_props c t ps) t = Some ps.
Proof.
  unfold props_of, get_table_properties, set_props, with_properties. destruct (node_tables c !! t) as [e|] eqn:En; cbn; [by rewrite lookup_insert_eq|].
  destruct (rel_tables c !! t) as [e|] eqn:Er; cbn; [|done]. rewrite En. cbn. by rewrite lookup_insert_eq.
Qed.

Lemma columns_of_set s t ps ps0 : columns_of s t = Some ps0 → columns_of (set_columns s t ps) t = Some ps.
Proof.
  unfold columns_of, sm_get_table, set_columns, sm_with_columns. destruct (sm_node_tables s !! t) as [e|] eqn:En; cbn; [by rewrite lookup_insert_eq|].
  destruct (sm_rel_tables s !! t) as [e|] eqn:Er; cbn; [|done]. rewrite En. cbn. by rewrite lookup_insert_eq.
Qed.

(** Columns of a well-formed table have different names. *)
Lemma props_nodup c t ps : catalog_wf c → props_of c t = Some ps → NoDup (prop_name <$> ps) ∧ (∃ pre, shape pre ps).
Proof.
  intros [Hn Hr _ _ _]. unfold props_of, get_table_properties.
  assert (∀ pre, (pre = node_columns ∨ pre = rel_columns) → ∀ ps, shape pre ps → NoDup (prop_name <$> ps)) as Hs.
  { intros pre Hpre ps' [Hb (ups & -> & Hu & Hub)]. rewrite fmap_app. apply list.NoDup_app. split; [|split; [|done]].
    - destruct Hpre as [-> | ->]; apply (bool_decide_unpack _); by vm_compute.
    - intros x Hx Hx2. apply list_elem_of_fmap in Hx as (p & -> & Hp), Hx2 as (q & Hq & Hq2).
      eapply list.Forall_forall in Hb; [|exact Hp]. eapply list.Forall_forall in Hub; [|exact Hq2]. cbn in *. rewrite Hq in Hb. congruence. }
  destruct (node_tables c !! t) as [e|] eqn:En; cbn.
  - intros [= <-]. destruct (Hn _ _ En) as (_ & H & _). split; [by eapply Hs; [left|]|by eexists].
  - destruct (rel_tables c !! t) as [e|] eqn:Er; cbn; [|done]. intros [= <-]. destruct (Hr _ _ Er) as [_ H].
    split; [by eapply Hs; [right|]|by eexists].
Qed.

(** *** Every statement *)

Definition db_ok db : Prop := catalog_wf (db_catalog db) ∧ schemas_agree (db_catalog db) (db_storage db).

(** Declared columns are different from each other and from the built-in ones,
    and no built-in column is dropped; the code checks neither in time. *)
Definition ddl_ok (a : DDLAction) : Prop :=
  match a with
  | CreateNode _ columns _ _ | CreateRel _ _ _ columns _ => user_columns columns
  | AlterDropColumn _ n => is_builtin_column n = false
  | CreateSequence _ start _ => is_u64 start
  | _ => True
  end.

Lemma fmap_insert_same {A B} (f : A → B) (m : gmap string A) t e e' : m !! t = Some e → f e' = f e → f <$> <[t := e']> m = f <$> m.
Proof. intros Hm Hf. rewrite fmap_insert, Hf. apply insert_id. by rewrite lookup_fmap, Hm. Qed.

Lemma fmap_alter_same {A B} (f : A → B) (g : A → A) (m : gmap string A) t : (∀ e, f (g e) = f e) → f <$> alter g t m = f <$> m.
Proof.
  intros Hg. apply map_eq. intros n. rewrite !lookup_fmap. destruct (decide (t = n)) as [<-|]; [|by rewrite lookup_alter_ne].
  rewrite lookup_alter_eq. destruct (m !! t); cbn; [|done]. by rewrite Hg.
Qed.

Lemma nodes_wf c (m : gmap string NodeTableCatalogEntry) : catalog_wf c → (∀ n e, m !! n = Some e → node_ok n e) →
  (∀ n, node_tables c !! n = None → m !! n = None) → catalog_wf (set_nodes c m).
Proof.
  intros [Hn Hr Hd Hs Hm] H1 H2. constructor; cbn; [intros n e; apply H1|done| |done|done].
  intros n. destruct (Hd n); auto.
Qed.

Lemma set_nodes_undo c n e : node_tables c !! n = None → set_nodes (set_nodes c (<[n := e]> (node_tables c))) (delete n (<[n := e]> (node_tables c))) = c.
Proof. intros H. destruct c. unfold set_nodes. cbn in *. by rewrite delete_insert_id. Qed.
Lemma set_rels_undo c n e : rel_tables c !! n = None → set_rels (set_rels c (<[n := e]> (rel_tables c))) (delete n (<[n := e]> (rel_tables c))) = c.
Proof. intros H. destruct c. unfold set_rels. cbn in *. by rewrite delete_insert_id. Qed.

Lemma create_node_ok io db n cols pk ine : db_ok db → user_columns cols → db_ok (fst (fst (exec iter io true db (CreateNode n cols pk ine)))).
Proof.
  intros [Hw Ha] Hu. destruct db as [c s]. cbn in Hw, Ha. open_exec. destruct (get_node_table c n); [by split|].
  pose proof (cat_exec_wf iter c (OAddNode n cols (Some pk)) Hw Hu) as Hw1. cbn in Hw1. revert Hw1. unfold add_node_table.
  destruct (table_exists c n) eqn:Ex; [by split|]. apply table_exists_false in Ex as [En Er]. cbn. intros Hw1.
  unfold create_table. destruct io; cbn.
  - assert (schemas_agree (set_nodes c (<[n := new_node n cols (Some pk)]> (node_tables c)))
              (sm_set_tables s (<[n := mkTable n (table_columns false cols) 0]> (sm_node_tables s)) (sm_rel_tables s))) as Ha1.
    { destruct Ha as [H1 H2]. split; [|done]. cbn [node_tables set_nodes sm_node_tables sm_set_tables]. rewrite !fmap_insert, H1. cbn [tb_columns].
      destruct (table_columns_user false cols Hu) as [-> _]. done. }
    destruct (decide (pk = ""%string)); by split.
  - rewrite set_nodes_undo by done. by split.
Qed.

Lemma create_rel_ok io db n from to cols ine : db_ok db → user_columns cols → db_ok (fst (fst (exec iter io true db (CreateRel n from to cols ine)))).
Proof.
  intros [Hw Ha] Hu. destruct db as [c s]. cbn in Hw, Ha. open_exec. destruct (get_rel_table c n); [by split|].
  pose proof (cat_exec_wf iter c (OAddRel n from to cols) Hw Hu) as Hw1. cbn in Hw1. revert Hw1. unfold add_rel_table.
  destruct (table_exists c n) eqn:Ex; [by split|]. apply table_exists_false in Ex as [En Er]. cbn. intros Hw1.
  unfold create_table. destruct io; cbn.
  - assert (schemas_agree (set_rels c (<[n := new_rel n from to cols]> (rel_tables c)))
              (sm_set_tables s (sm_node_tables s) (<[n := mkTable n (table_columns true cols) 0]> (sm_rel_tables s)))) as Ha1; [|by split].
    destruct Ha as [H1 H2]. split; [done|]. cbn [rel_tables set_rels sm_rel_tables sm_set_tables]. rewrite !fmap_insert, H2. cbn [tb_columns].
    destruct (table_columns_user true cols Hu) as [-> _]. done.
  - rewrite set_rels_undo by done. by split.
Qed.

(** What a column statement does, in terms of the table's columns. *)
Lemma sm_add_column_spec io s t n ty :
  sm_add_column io s t n ty =
    match columns_of s t with
    | None => (s, Err Database)
    | Some ps => if has_column ps n then (s, Err Database) else if io then (set_columns s t (ps ++ [mkProp n ty]), Ok tt) else (s, Err Io)
    end.
Proof.
  unfold sm_add_column. rewrite sm_with_columns_alt. destruct (columns_of s t) as [ps|] eqn:E; [|done].
  destruct (has_column ps n); [by rewrite set_columns_id|]. destruct io; [done|]. by rewrite set_columns_id.
Qed.

Lemma sm_remove_pushed s t ps n ty : columns_of s t = Some ps → has_column ps n = false →
  sm_remove_column (set_columns s t (ps ++ [mkProp n ty])) t n = (s, Ok tt).
Proof.
  intros E Hn. unfold sm_remove_column. rewrite sm_with_columns_alt, (columns_of_set s t _ ps E).
  rewrite find_column_fresh by done. cbn. by rewrite delete_last, set_columns_set, set_columns_id.
Qed.

Lemma add_column_spec c t n ty ps : props_of c t = Some ps → has_column ps n = false →
  add_column_to_table c t n ty = if is_builtin_column n then (c, Err Database) else (set_props c t (ps ++ [mkProp n ty]), Ok tt).
Proof. intros E Hn. unfold add_column_to_table. destruct (is_builtin_column n); [done|]. rewrite with_properties_alt, E. unfold push_column. by rewrite Hn. Qed.

Lemma add_column_ok io db t n ty : db_ok db → db_ok (fst (fst (exec iter io true db (AlterAddColumn t n ty)))).
Proof.
  intros [Hw Ha]. destruct db as [c s]. cbn in Hw, Ha. pose proof (cat_exec_wf iter c (OAddColumn t n ty) Hw I) as Hw1. cbn in Hw1.
  open_exec. rewrite sm_add_column_spec. pose proof (agree_props c s t Ha) as Hp.
  destruct (columns_of s t) as [ps|] eqn:E; [|by split]. destruct (has_column ps n) eqn:Eh; [by split|]. destruct io; [|by split].
  rewrite (add_column_spec c t n ty ps Hp Eh) in *. destruct (is_builtin_column n); cbn in *.
  - rewrite sm_remove_pushed by done. by split.
  - split; [done|]. by apply set_agree.
Qed.

Lemma drop_column_ok io db t n : db_ok db → is_builtin_column n = false → db_ok (fst (fst (exec iter io true db (AlterDropColumn t n)))).
Proof.
  intros [Hw Ha] Hb. destruct db as [c s]. cbn in Hw, Ha. pose proof (cat_exec_wf iter c (ORemoveColumn t n) Hw I) as Hw1. cbn in Hw1.
  open_exec. unfold sm_remove_column. rewrite sm_with_columns_alt. pose proof (agree_props c s t Ha) as Hp.
  revert Hw1. unfold remove_column_from_table. rewrite Hb, with_properties_alt, Hp.
  destruct (columns_of s t) as [ps|] eqn:E; [|by split]. unfold pop_column. destruct (list_find _ ps) as [[i p]|]; cbn; intros Hw1.
  - split; [done|]. by apply set_agree.
  - rewrite set_columns_id by done. by split.
Qed.

Lemma rename_column_spec c s t old new : schemas_agree c s → is_builtin_column old || is_builtin_column new = false →
  rename_column_in_table c t old new =
    match columns_of s t with
    | Some ps => (set_props c t (fst (rename_column old new ps)), snd (rename_column old new ps))
    | None => (c, Err Database)
    end.
Proof. intros Ha Hb. unfold rename_column_in_table. rewrite Hb, with_properties_alt. by rewrite (agree_props c s t Ha). Qed.

Lemma rename_column_err ps old new : snd (rename_column old new ps) ≠ Ok tt → fst (rename_column old new ps) = ps.
Proof. unfold rename_column. destruct (has_column ps new); [done|]. by destruct (list_find _ ps) as [[i p]|]. Qed.

Lemma rename_column_ok' io db t old new : db_ok db → db_ok (fst (fst (exec iter io true db (AlterRenameColumn t old new)))).
Proof.
  intros [Hw Ha]. destruct db as [c s]. cbn in Hw, Ha. pose proof (cat_exec_wf iter c (ORenameColumn t old new) Hw I) as Hw1. cbn in Hw1.
  open_exec. destruct (is_builtin_column old || is_builtin_column new) eqn:Eb.
  { unfold rename_column_in_table. rewrite Eb. by split. }
  rewrite (rename_column_spec c s t old new Ha Eb) in *. pose proof (agree_props c s t Ha) as Hp.
  destruct (columns_of s t) as [ps|] eqn:E; [|by split].
  destruct (rename_column old new ps) as [ps' r] eqn:Er. cbn [fst snd] in *. destruct r as [[]|e|].
  - split; [done|]. cbn. unfold sm_rename_column. rewrite sm_with_columns_alt, E. cbn.
    destruct (rename_column_ok _ _ _ _ Er) as (_ & i & p & Hf & ->). unfold rename_first. rewrite Hf. by apply set_agree.
  - assert (ps' = ps) as -> by (pose proof (rename_column_err ps old new) as H; rewrite Er in H; by apply H). rewrite set_props_id by done. by split.
  - assert (ps' = ps) as -> by (pose proof (rename_column_err ps old new) as H; rewrite Er in H; by apply H). rewrite set_props_id by done. by split.
Qed.

Lemma drop_table_ok io db n ie : db_ok db → db_ok (fst (fst (exec iter io true db (DropTable n ie)))).
Proof.
  intros [Hw Ha]. destruct db as [c s]. cbn in Hw, Ha. pose proof (cat_exec_wf iter c (ORemoveTable n) Hw I) as Hw1. cbn in Hw1.
  open_exec. destruct (match get_node_table c n with Some e => _ | None => _ end); [|by split].
  split; [done|]. destruct Ha as [H1 H2]. split; cbn; rewrite !fmap_delete; congruence.
Qed.

Lemma rename_table_ok io db old new : db_ok db → db_ok (fst (fst (exec iter io true db (AlterRenameTable old new)))).
Proof.
  intros [Hw Ha]. destruct db as [c s]. cbn in Hw, Ha. pose proof (cat_exec_wf iter c (ORenameTable old new) Hw I) as Hw1. cbn in Hw1.
  open_exec. revert Hw1. unfold rename_table. destruct (table_exists c new); [by split|].
  destruct (agree_lookup c s Ha old) as [E1 E2]. pose proof Ha as [H1 H2].
  destruct (node_tables c !! old) as [e|] eqn:En.
  - intros Hw1. split; [done|]. cbn [db_catalog db_storage fst]. unfold sm_rename_table. destruct (sm_node_tables s !! old) as [t|]; [|done].
    cbn in E1. split; cbn.
    + rewrite !fmap_insert, !fmap_delete, H1. cbn. by injection E1 as ->.
    + rewrite <- H2, <- map_fmap_compose. by apply map_fmap_ext.
  - destruct (rel_tables c !! old) as [e|] eqn:Er; [|by split].
    intros Hw1. split; [done|]. cbn [db_catalog db_storage fst]. unfold sm_rename_table.
    destruct (sm_node_tables s !! old) as [t|]; [done|]. destruct (sm_rel_tables s !! old) as [t|]; [|done].
    cbn in E2. split; cbn; [done|]. rewrite !fmap_insert, !fmap_delete, H2. cbn. by injection E2 as ->.
Qed.

(** Statements that leave the columns alone. *)
Lemma agree_same c c' s : schemas_agree c s → nt_properties <$> node_tables c' = nt_properties <$> node_tables c →
  rt_properties <$> rel_tables c' = rt_properties <$> rel_tables c → schemas_agree c' s.
Proof. intros [H1 H2] E1 E2. split; congruence. Qed.

Lemma constraint_stmts_ok io db a : db_ok db →
  match a with CreateConstraint _ _ _ | DropConstraint _ => True | _ => False end → db_ok (fst (fst (exec iter io true db a))).
Proof.
  intros [Hw Ha] Hk. destruct db as [c s]. cbn in Hw, Ha. destruct a; try done; open_exec.
  - pose proof (cat_exec_wf iter c (OAddConstraint table_name (mkConstraint name property)) Hw I) as Hw1. cbn [cat_exec] in Hw1.
    revert Hw1. unfold add_constraint. destruct (node_tables c !! table_name) as [e|] eqn:E; [|by split].
    destruct (existsb (λ k', bool_decide (c_name k' = _)) _); [by split|].
    destruct (existsb (λ k', bool_decide (c_property k' = _)) _); [by split|]. intros Hw1. split; [done|].
    eapply agree_same; [exact Ha| |done]. cbn. by eapply fmap_insert_same.
  - pose proof (cat_exec_wf iter c (ORemoveConstraint name) Hw I) as Hw1. cbn [cat_exec] in Hw1. revert Hw1. unfold remove_constraint.
    destruct (constraint_by_name c !! name) as [[t pos]|]; [|by split]. destruct (node_tables c !! t) as [e|] eqn:E; [|by split].
    destruct (nt_constraints e !! pos) as [k|]; [|by split]. intros Hw1. split; [done|].
    eapply agree_same; [exact Ha| |done]. cbn. by eapply fmap_insert_same.
Qed.

Lemma nodes_only_wf c (m : gmap string NodeTableCatalogEntry) (f : NodeTableCatalogEntry → NodeTableCatalogEntry) : catalog_wf c →
  (∀ n, m !! n = node_tables c !! n ∨ m !! n = f <$> node_tables c !! n) →
  (∀ n e, node_ok n e → node_ok n (f e)) → catalog_wf (set_nodes c m).
Proof.
  intros Hw Hm Hf. apply nodes_wf; [done| |].
  - intros n e He. destruct (Hm n) as [E|E]; rewrite E in He; [by apply (wf_node c Hw)|].
    apply fmap_Some in He as (e0 & He0 & ->). apply Hf. by apply (wf_node c Hw).
  - intros n Hn. destruct (Hm n) as [-> | ->]; by rewrite Hn.
Qed.

Lemma index_stmts_ok io db a : db_ok db →
  match a with CreateIndex _ _ _ | DropIndex _ | CreateVectorIndex _ | CreateFtsIndex _ => True | _ => False end →
  db_ok (fst (fst (exec iter io true db a))).
Proof.
  intros [Hw Ha] Hk. destruct db as [c s]. cbn in Hw, Ha. destruct a; try done; open_exec.
  - destruct io; [|by split]. split; cbn.
    + unfold set_secondary. apply nodes_only_wf with (f := λ e, nt_with_indexes e (insert property name (nt_secondary_indexes e))); [done| |done].
      intros n. destruct (decide (table_name = n)) as [<-|]; [right; apply lookup_alter_eq|left; by apply lookup_alter_ne].
    + eapply agree_same; [exact Ha| |done]. unfold set_secondary. cbn. by apply fmap_alter_same.
  - unfold create_vector_index. destruct io; by split.
  - unfold create_fts_index. destruct io; by split.
  - split; cbn.
    + eapply nodes_only_wf; [done|intros n; right; apply lookup_fmap|done].
    + eapply agree_same; [exact Ha| |done]. cbn. rewrite <- map_fmap_compose. by apply map_fmap_ext.
Qed.

Lemma exec_ok io db a : db_ok db → ddl_ok a → db_ok (fst (fst (exec iter io true db a))).
Proof.
  intros Hd Ho. destruct a; cbn in Ho.
  - by apply create_node_ok.
  - by apply create_rel_ok.
  - by apply drop_table_ok.
  - by apply add_column_ok.
  - by apply drop_column_ok.
  - by apply rename_table_ok.
  - by apply rename_column_ok'.
  - destruct Hd as [Hw Ha]. destruct db as [c s]. cbn in Hw, Ha. pose proof (cat_exec_wf iter c (OAddSequence name start_with increment_by) Hw Ho) as Hw1.
    cbn in Hw1. revert Hw1. open_exec. unfold add_sequence. destruct (sequences c !! name); by split.
  - destruct Hd as [Hw Ha]. destruct db as [c s]. cbn in Hw, Ha. pose proof (cat_exec_wf iter c (OAddMacro name params body) Hw I) as Hw1.
    cbn in Hw1. revert Hw1. open_exec. unfold add_macro. destruct (macros c !! name); by split.
  - by apply constraint_stmts_ok.
  - by apply constraint_stmts_ok.
  - by apply index_stmts_ok.
  - by apply index_stmts_ok.
  - by apply index_stmts_ok.
  - by apply index_stmts_ok.
Qed.

(** ** Rollback *)

(** Equal up to the constraint index and to what is not schema. *)
Record same_schema (d1 d2 : Db) : Prop := {
  ss_nodes : node_tables (db_catalog d1) = node_tables (db_catalog d2);
  ss_rels : rel_tables (db_catalog d1) = rel_tables (db_catalog d2);
  ss_seqs : sequences (db_catalog d1) = sequences (db_catalog d2);
  ss_macros : macros (db_catalog d1) = macros (db_catalog d2);
  ss_node_columns : tb_columns <$> sm_node_tables (db_storage d1) = tb_columns <$> sm_node_tables (db_storage d2);
  ss_rel_columns : tb_columns <$> sm_rel_tables (db_storage d1) = tb_columns <$> sm_rel_tables (db_storage d2);
}.

#[local] Instance same_schema_equiv : Equivalence same_schema.
Proof. split; [by split|by intros ? ? []|]. intros ? ? ? [] []. split; congruence. Qed.

Definition same_columns s1 s2 : Prop :=
  tb_columns <$> sm_node_tables s1 = tb_columns <$> sm_node_tables s2 ∧ tb_columns <$> sm_rel_tables s1 = tb_columns <$> sm_rel_tables s2.

Lemma same_columns_lookup s1 s2 : same_columns s1 s2 → ∀ t,
  tb_columns <$> sm_node_tables s1 !! t = tb_columns <$> sm_node_tables s2 !! t ∧
  tb_columns <$> sm_rel_tables s1 !! t = tb_columns <$> sm_rel_tables s2 !! t.
Proof. intros [H1 H2] t. rewrite <- !lookup_fmap, H1, H2. done. Qed.

Lemma sm_with_columns_proper {R} s1 s2 t (f : _ → _ * outcome R) : same_columns s1 s2 →
  same_columns (fst (sm_with_columns s1 t f)) (fst (sm_with_columns s2 t f)).
Proof.
  intros H. destruct (same_columns_lookup s1 s2 H t) as [E1 E2]. destruct H as [H1 H2]. unfold sm_with_columns.
  destruct (sm_node_tables s1 !! t) as [a|], (sm_node_tables s2 !! t) as [b|]; cbn in *; try congruence.
  - injection E1 as ->. destruct (f (tb_columns b)) as [cs r]. split; cbn; [|done]. rewrite !fmap_insert. cbn. by rewrite H1.
  - destruct (sm_rel_tables s1 !! t) as [a|], (sm_rel_tables s2 !! t) as [b|]; cbn in *; try congruence; [|by split].
    injection E2 as ->. destruct (f (tb_columns b)) as [cs r]. split; cbn; [done|]. rewrite !fmap_insert. cbn. by rewrite H2.
Qed.

Lemma sm_rename_table_proper s1 s2 old new : same_columns s1 s2 → same_columns (sm_rename_table s1 old new) (sm_rename_table s2 old new).
Proof.
  intros H. destruct (same_columns_lookup s1 s2 H old) as [E1 E2]. destruct H as [H1 H2]. unfold sm_rename_table.
  destruct (sm_node_tables s1 !! old) as [a|], (sm_node_tables s2 !! old) as [b|]; cbn in *; try congruence.
  - injection E1 as E1. split; cbn; [|done]. rewrite !fmap_insert, !fmap_delete, H1. cbn. by rewrite E1.
  - destruct (sm_rel_tables s1 !! old) as [a|], (sm_rel_tables s2 !! old) as [b|]; cbn in *; try congruence; [|by split].
    injection E2 as E2. split; cbn; [done|]. rewrite !fmap_insert, !fmap_delete, H2. cbn. by rewrite E2.
Qed.

Lemma create_table_proper s1 s2 n defs is_rel : same_columns s1 s2 →
  same_columns (fst (create_table true s1 n defs is_rel)) (fst (create_table true s2 n defs is_rel)).
Proof. intros [H1 H2]. unfold create_table. destruct is_rel; split; cbn; rewrite ?fmap_insert; congruence. Qed.

Lemma sm_remove_table_proper s1 s2 n : same_columns s1 s2 → same_columns (sm_remove_table s1 n) (sm_remove_table s2 n).
Proof. intros [H1 H2]. split; cbn; rewrite !fmap_delete; congruence. Qed.

(** The catalog operations of rollback do not look at the constraint index. *)
Lemma with_properties_index {R} c k t (f : _ → _ * outcome R) :
  with_properties (set_constraint_index c k) t f =
    (set_constraint_index (fst (with_properties c t f)) k, snd (with_properties c t f)).
Proof.
  unfold with_properties. cbn. destruct (node_tables c !! t) as [e|]; [by destruct (f (nt_properties e))|].
  destruct (rel_tables c !! t) as [e|]; [by destruct (f (rt_properties e))|done].
Qed.

Lemma undo_one_returns db r : snd (undo_one true db r) = Ok tt.
Proof. destruct r as [| |n|n|n [e|e]|t n|t n ty|old new|t old new|n|n|n t q|n t q|n t q path|n t q]; done. Qed.

Lemma same_schema_split d1 d2 : same_schema d1 d2 ↔
  db_catalog d2 = set_constraint_index (db_catalog d1) (constraint_by_name (db_catalog d2)) ∧ same_columns (db_storage d1) (db_storage d2).
Proof.
  split.
  - intros []. split; [|by split]. destruct d1 as [[] ?], d2 as [[] ?]. cbn in *. unfold set_constraint_index. cbn. congruence.
  - intros [E [H1 H2]]. split; [by rewrite E..|done|done].
Qed.

Lemma undo_one_proper d1 d2 r : same_schema d1 d2 → same_schema (fst (undo_one true d1 r)) (fst (undo_one true d2 r)).
Proof.
  intros [E Hs]%same_schema_split. destruct d1 as [c s1], d2 as [c2 s2]. cbn in E, Hs. rewrite E. generalize (constraint_by_name c2). intros k. clear E c2.
  apply same_schema_split. destruct r as [| |n|n|n [e|e]|t n|t n ty|old new|t old new|n|n|n t q|n t q|n t q path|n t q];
    open_undo; try done.
  - split; [done|]. by apply sm_remove_table_proper.
  - split; [done|]. by apply sm_remove_table_proper.
  - split; [done|]. by apply (create_table_proper s1 s2 n (nt_properties e) false).
  - split; [done|]. by apply (create_table_proper s1 s2 n (rt_properties e) true).
  - unfold remove_column_from_table. split; [|by apply sm_with_columns_proper]. destruct (is_builtin_column n); [done|]. by rewrite with_properties_index.
  - unfold add_column_to_table. split; [|by apply sm_with_columns_proper]. destruct (is_builtin_column n); [done|]. by rewrite with_properties_index.
  - split; [|by apply sm_rename_table_proper]. cbn. destruct (node_tables c !! new) as [e|]; [done|]. by destruct (rel_tables c !! new).
  - unfold rename_column_in_table. split; [|by apply sm_with_columns_proper]. destruct (_ || _); [done|]. by rewrite with_properties_index.
Qed.

(** *** Statements whose rollback is exact

    Not among them: dropping a column or a constraint, which come back at the end
    of their list, dropping an index, which comes back from another file, renaming
    a node table that relationships refer to, and an index on a property that
    already has one. *)
Definition reversible db (a : DDLAction) : Prop :=
  let c := db_catalog db in
  match a with
  | AlterDropColumn _ _ | DropConstraint _ | DropIndex _ => False
  | AlterRenameTable old _ =>
      node_tables c !! old = None ∨ map_Forall (λ _ e, rt_from_table e ≠ old ∧ rt_to_table e ≠ old) (rel_tables c)
  | CreateIndex _ t property => ∀ e, node_tables c !! t = Some e → nt_secondary_indexes e !! property = None
  | _ => True
  end.

(** Executing [a] in [db] and undoing what it pushed gives the schema back. *)
Definition restores (db : Db) (x : Db * list UndoRecord * outcome unit) : Prop :=
  match x with
  | (db', [], _) => same_schema db' db
  | (db', [u], _) => same_schema (fst (undo_one true db' u)) db
  | _ => False
  end.

Lemma delete_insert_fresh {A} (m : gmap string A) n x : m !! n = None → delete n (<[n := x]> m) = m.
Proof. apply delete_insert_id. Qed.

Lemma agree_none c s n : schemas_agree c s → node_tables c !! n = None → sm_node_tables s !! n = None.
Proof. intros H Hn. destruct (agree_lookup c s H n) as [E _]. rewrite Hn in E. cbn in E. by destruct (sm_node_tables s !! n). Qed.
Lemma agree_none_rel c s n : schemas_agree c s → rel_tables c !! n = None → sm_rel_tables s !! n = None.
Proof. intros H Hn. destruct (agree_lookup c s H n) as [_ E]. rewrite Hn in E. cbn in E. by destruct (sm_rel_tables s !! n). Qed.

Lemma create_node_restores io db n cols pk ine : db_ok db → restores db (exec iter io true db (CreateNode n cols pk ine)).
Proof.
  intros [Hw Ha]. destruct db as [c s]. cbn in Hw, Ha. open_exec. destruct (get_node_table c n); [by split|].
  unfold add_node_table. destruct (table_exists c n) eqn:Ex; [by split|]. apply table_exists_false in Ex as [En Er].
  unfold create_table. destruct io; cbn -[table_columns]; [|rewrite set_nodes_undo by done; by split].
  destruct (decide (pk = ""%string)); cbn -[table_columns].
  all: split; cbn -[table_columns]; try done; rewrite ?delete_insert_fresh, ?delete_id; try done; eauto using agree_none, agree_none_rel.
Qed.

Lemma create_rel_restores io db n from to cols ine : db_ok db → restores db (exec iter io true db (CreateRel n from to cols ine)).
Proof.
  intros [Hw Ha]. destruct db as [c s]. cbn in Hw, Ha. open_exec. destruct (get_rel_table c n); [by split|].
  unfold add_rel_table. destruct (table_exists c n) eqn:Ex; [by split|]. apply table_exists_false in Ex as [En Er].
  unfold create_table. destruct io; cbn -[table_columns]; [|rewrite set_rels_undo by done; by split].
  split; cbn -[table_columns]; try done; rewrite ?delete_insert_fresh, ?delete_id; try done; eauto using agree_none, agree_none_rel.
Qed.

Lemma insert_delete_back {A} (m : gmap string A) n x : m !! n = Some x → <[n := x]> (delete n m) = m.
Proof. apply insert_delete_id. Qed.

Lemma drop_table_restores io db n ie : db_ok db → restores db (exec iter io true db (DropTable n ie)).
Proof.
  intros [Hw Ha]. destruct db as [c s]. cbn in Hw, Ha. open_exec. unfold get_node_table, get_rel_table.
  destruct (agree_lookup c s Ha n) as [E1 E2]. destruct (node_tables c !! n) as [e|] eqn:En.
  - assert (rel_tables c !! n = None) as Er by (by apply (apart_lookup_l _ _ _ _ (wf_disjoint c Hw) En)).
    destruct (wf_node c Hw _ _ En) as (_ & Hsh & _). cbn -[table_columns]. split; cbn -[table_columns]; try done.
    + by rewrite insert_delete_back.
    + by rewrite delete_id.
    + rewrite fmap_insert, fmap_delete. cbn -[table_columns]. rewrite (table_columns_shape false) by done. apply insert_delete_back.
      by rewrite lookup_fmap, <- E1.
    + rewrite delete_id; [done|]. by apply (agree_none_rel c).
  - destruct (rel_tables c !! n) as [e|] eqn:Er; cbn -[table_columns]; [|by split].
    destruct (wf_rel c Hw _ _ Er) as (_ & Hsh). split; cbn -[table_columns]; try done.
    + by rewrite delete_id.
    + by rewrite insert_delete_back.
    + rewrite delete_id; [done|]. by apply (agree_none c).
    + rewrite fmap_insert, fmap_delete. cbn -[table_columns]. rewrite (table_columns_shape true) by done. apply insert_delete_back.
      by rewrite lookup_fmap, <- E2.
Qed.

Lemma add_column_restores io db t n ty : db_ok db → restores db (exec iter io true db (AlterAddColumn t n ty)).
Proof.
  intros [Hw Ha]. destruct db as [c s]. cbn in Hw, Ha. open_exec. rewrite sm_add_column_spec.
  pose proof (agree_props c s t Ha) as Hp. destruct (columns_of s t) as [ps|] eqn:E; [|by split].
  destruct (has_column ps n) eqn:Eh; [by split|]. destruct io; [|by split]. rewrite (add_column_spec c t n ty ps Hp Eh).
  destruct (is_builtin_column n) eqn:Eb; cbn [restores]; open_undo.
  - rewrite sm_remove_pushed by done. by split.
  - rewrite sm_remove_pushed by done. unfold remove_column_from_table. rewrite Eb, with_properties_alt, (props_of_set c t _ ps Hp).
    rewrite pop_pushed by done. cbn [fst]. rewrite set_props_set, set_props_id by done. by split.
Qed.

Lemma rename_column_restores io db t old new : db_ok db → restores db (exec iter io true db (AlterRenameColumn t old new)).
Proof.
  intros [Hw Ha]. destruct db as [c s]. cbn in Hw, Ha. open_exec.
  destruct (is_builtin_column old || is_builtin_column new) eqn:Eb.
  { unfold rename_column_in_table. rewrite Eb. by split. }
  rewrite (rename_column_spec c s t old new Ha Eb). pose proof (agree_props c s t Ha) as Hp.
  destruct (columns_of s t) as [ps|] eqn:E; [|by split].
  pose proof (rename_column_err ps old new) as Herr. destruct (rename_column old new ps) as [ps' r] eqn:Er. cbn [fst snd] in *.
  destruct r as [[]|e|]; [|rewrite Herr, set_props_id by done; by split..].
  destruct (rename_column_ok _ _ _ _ Er) as (Hn & i & p & Hf & ->). destruct (props_nodup c t ps Hw Hp) as [Hd _].
  cbn [restores]; open_undo.
  unfold sm_rename_column. rewrite (sm_with_columns_alt s), E. cbn [fst]. rewrite sm_with_columns_alt.
  assert (rename_first old new ps = <[i := mkProp new (prop_type p)]> ps) as -> by (unfold rename_first; by rewrite Hf).
  rewrite (columns_of_set s t _ ps E). cbn [fst]. rewrite (rename_first_back ps old new i p) by done.
  unfold rename_column_in_table. rewrite orb_comm, Eb, with_properties_alt, (props_of_set c t _ ps Hp).
  rewrite (rename_back ps old new i p) by done. cbn [fst].
  rewrite set_props_set, set_props_id, set_columns_set, set_columns_id by done. by split.
Qed.

Lemma moved_back {A} (m : gmap string A) old new x y : m !! old = Some x → m !! new = None →
  <[old := x]> (delete new (<[new := y]> (delete old m))) = m.
Proof.
  intros Ho Hn. assert (old ≠ new) by congruence. rewrite delete_insert_id by (by rewrite lookup_delete_ne). by apply insert_delete_back.
Qed.

Lemma rename_table_restores io db old new : db_ok db → reversible db (AlterRenameTable old new) →
  restores db (exec iter io true db (AlterRenameTable old new)).
Proof.
  intros [Hw Ha] Hr. destruct db as [c s]. cbn in Hw, Ha, Hr. open_exec. unfold rename_table.
  destruct (table_exists c new) eqn:Ex; [by split|]. apply table_exists_false in Ex as [En Er].
  destruct (agree_lookup c s Ha old) as [E1 E2]. pose proof (agree_none c s new Ha En) as Sn. pose proof (agree_none_rel c s new Ha Er) as Sr.
  destruct (node_tables c !! old) as [e|] eqn:Eo.
  - destruct Hr as [Hr|Hr]; [done|]. destruct (wf_node c Hw _ _ Eo) as [Hname _].
    destruct (sm_node_tables s !! old) as [t|] eqn:Es; [|done]. cbn [restores]; open_undo. unfold sm_rename_table. rewrite Es.
    cbn [node_tables rel_tables set_nodes set_rels sm_node_tables sm_rel_tables sm_set_tables]. rewrite !lookup_insert_eq. split; cbn; try done.
    + assert (nt_with_name (nt_with_name e new) old = e) as -> by (destruct e; cbn in *; by subst). by apply moved_back.
    + rewrite <- (map_fmap_id (rel_tables c)) at 2. apply map_fmap_ext. intros n r Hn. destruct (Hr _ _ Hn) as [H1 H2].
      unfold rt_rename_ref. rewrite !decide_False by done. by destruct r.
    + rewrite fmap_insert, fmap_delete, fmap_insert, fmap_delete. cbn. apply moved_back; [by rewrite lookup_fmap, Es|by rewrite lookup_fmap, Sn].
  - destruct (rel_tables c !! old) as [e|] eqn:Eor; [|by split]. destruct (wf_rel c Hw _ _ Eor) as [Hname _].
    destruct (sm_node_tables s !! old) as [t0|] eqn:Es0; [done|]. destruct (sm_rel_tables s !! old) as [t|] eqn:Es; [|done].
    cbn [restores]; open_undo. unfold sm_rename_table. rewrite Es0, Es.
    cbn [node_tables rel_tables set_nodes set_rels sm_node_tables sm_rel_tables sm_set_tables]. rewrite En, Sn, !lookup_insert_eq. split; cbn; try done.
    + assert (rt_with_name (rt_with_name e new) old = e) as -> by (destruct e; cbn in *; by subst). by apply moved_back.
    + rewrite fmap_insert, fmap_delete, fmap_insert, fmap_delete. cbn. apply moved_back; [by rewrite lookup_fmap, Es|by rewrite lookup_fmap, Sr].
Qed.

Lemma filter_unless_new {A} (f : A → string) (l : list A) x : f x ∉ f <$> l → filter (λ y, f y ≠ f x) (l ++ [x]) = l.
Proof.
  intros Hn. rewrite list.filter_app, filter_cons_False, filter_nil, app_nil_r by tauto. apply filter_keep_all. intros y Hy E. apply Hn.
  rewrite <- E. by apply list_elem_of_fmap_2.
Qed.

Lemma create_constraint_restores io db n t property : db_ok db → restores db (exec iter io true db (CreateConstraint n t property)).
Proof.
  intros [Hw Ha]. destruct db as [c s]. cbn in Hw, Ha. open_exec. unfold add_constraint.
  destruct (node_tables c !! t) as [e|] eqn:E; [|by split].
  destruct (existsb (λ k', bool_decide (c_name k' = _)) _) eqn:Ex; [by split|]. apply existsb_name_false in Ex.
  destruct (existsb (λ k', bool_decide (c_property k' = _)) _); [by split|].
  cbn [restores]; open_undo. split; cbn; try done. rewrite alter_insert_eq. cbn.
  pose proof (filter_unless_new c_name (nt_constraints e) (mkConstraint n property) Ex) as Hf. cbn in Hf. rewrite Hf.
  apply insert_id. rewrite E. by destruct e.
Qed.

Lemma create_index_restores io db n t property : db_ok db → reversible db (CreateIndex n t property) →
  restores db (exec iter io true db (CreateIndex n t property)).
Proof.
  intros [Hw Ha] Hr. destruct db as [c s]. cbn in Hw, Ha, Hr. open_exec. destruct io; [|by split].
  cbn [restores]; open_undo. split; cbn; try done. apply map_eq. intros m.
  destruct (decide (t = m)) as [<-|]; [|by rewrite !lookup_alter_ne]. rewrite !lookup_alter_eq.
  destruct (node_tables c !! t) as [e|] eqn:E; cbn; [|done]. f_equal. unfold nt_with_indexes. cbn.
  rewrite delete_insert_id by (by apply Hr). by destruct e.
Qed.

Lemma exec_restores io db a : db_ok db → ddl_ok a → reversible db a → restores db (exec iter io true db a).
Proof.
  intros Hd Ho Hr. destruct a; cbn in Ho; try done.
  - by apply create_node_restores.
  - by apply create_rel_restores.
  - by apply drop_table_restores.
  - by apply add_column_restores.
  - by apply rename_table_restores.
  - by apply rename_column_restores.
  - destruct db as [c s]. open_exec. unfold add_sequence. destruct (sequences c !! name) eqn:E; [by split|].
    cbn. split; cbn; try done. by rewrite delete_insert_id.
  - destruct db as [c s]. open_exec. unfold add_macro. destruct (macros c !! name) eqn:E; [by split|].
    cbn. split; cbn; try done. by rewrite delete_insert_id.
  - by apply create_constraint_restores.
  - by apply create_index_restores.
  - destruct db as [c s]. cbn. unfold create_vector_index. destruct io; by split.
  - destruct db as [c s]. cbn. unfold create_fts_index. destruct io; by split.
Qed.

(** *** Transactions *)

(** The statements of a transaction in turn, with whether their files can be
    opened; each runs through its operator and the undo buffer. *)
Fixpoint run_ddl (db : Db) (u : UndoBuffer) (acts : list (bool * DDLAction)) : Db * UndoBuffer :=
  match acts with
  | [] => (db, u)
  | (io, a) :: acts => let '(_, db1, u1, _) := ddl_get_next iter io true false db u a in run_ddl db1 u1 acts
  end.

Fixpoint all_reversible (db : Db) (acts : list (bool * DDLAction)) : Prop :=
  match acts with
  | [] => True
  | (io, a) :: acts => reversible db a ∧ all_reversible (fst (fst (exec iter io true db a))) acts
  end.

Lemma rollback_records_app db rs rest : rollback_records true db (rs ++ rest) =
  rollback_records true (fst (fst (rollback_records true db rs))) rest.
Proof.
  revert db. induction rs as [|r rs IH]; intros db; cbn; [done|]. pose proof (undo_one_returns db r) as H.
  destruct (undo_one true db r) as [db1 o]. cbn in H. subst o. apply IH.
Qed.

Lemma rollback_records_ok db rs : snd (rollback_records true db rs) = Ok tt ∧ snd (fst (rollback_records true db rs)) = undo_new.
Proof.
  revert db. induction rs as [|r rs IH]; intros db; cbn; [done|]. pose proof (undo_one_returns db r) as H.
  destruct (undo_one true db r) as [db1 o]. cbn in H. subst o. apply IH.
Qed.

Lemma rollback_records_proper d1 d2 rs : same_schema d1 d2 →
  same_schema (fst (fst (rollback_records true d1 rs))) (fst (fst (rollback_records true d2 rs))).
Proof.
  revert d1 d2. induction rs as [|r rs IH]; intros d1 d2 H; cbn; [done|]. pose proof (undo_one_proper d1 d2 r H) as H'.
  pose proof (undo_one_returns d1 r) as H1. pose proof (undo_one_returns d2 r) as H2.
  destruct (undo_one true d1 r) as [e1 o1], (undo_one true d2 r) as [e2 o2]. cbn in *. subst. by apply IH.
Qed.

Lemma run_ddl_rollback acts db u : db_ok db → Forall (λ ia, ddl_ok (snd ia)) acts → all_reversible db acts →
  ∃ rs, records (snd (run_ddl db u acts)) = rs ++ records u ∧
    same_schema (fst (fst (rollback_records true (fst (run_ddl db u acts)) rs))) db.
Proof.
  revert db u. induction acts as [|[io a] acts IH]; intros db u Hd Ho Hr; cbn; [by exists []|].
  inversion Ho as [|? ? Ho1 Ho2]; subst. destruct Hr as [Hr1 Hr2]. pose proof (exec_restores io db a Hd Ho1 Hr1) as Hres.
  pose proof (exec_ok io db a Hd Ho1) as Hd1. unfold ddl_get_next. destruct (exec iter io true db a) as [[db1 rs1] r]. cbn in Hd1, Hr2.
  destruct (IH db1 (foldl push u rs1) Hd1 Ho2 Hr2) as (rs & Hrs & Hsame). destruct rs1 as [|u1 [|]]; cbn in Hres, Hrs, Hsame |- *; [|..|done].
  - exists rs. split; [done|]. by transitivity db1.
  - exists (rs ++ [u1]). split; [by rewrite <- app_assoc|]. rewrite rollback_records_app.
    etransitivity; [apply (rollback_records_proper _ _ [u1] Hsame)|]. cbn.
    pose proof (undo_one_returns db1 u1) as Hret. destruct (undo_one true db1 u1) as [db2 o]. cbn in *. by subst o.
Qed.

(** C8. Rolling back restores the schema: after any statements of a transaction
    whose rollback is exact, succeeding or failing, rollback returns, empties the
    undo buffer, and leaves the same tables, columns, sequences, macros,
    constraints and secondary indexes in the catalog, and the same tables and
    columns in storage, as before the transaction. *)
Theorem rollback_restores_schema (db : Db) (acts : list (bool * DDLAction)) :
  db_ok db → Forall (λ ia, ddl_ok (snd ia)) acts → all_reversible db acts →
  let st := run_ddl db undo_new acts in
  let x := undo_rollback true (fst st) (snd st) in
  same_schema (fst (fst x)) db ∧ snd (fst x) = undo_new ∧ snd x = Ok tt.
Proof.
  intros Hd Ho Hr. destruct (run_ddl_rollback acts db undo_new Hd Ho Hr) as (rs & Hrs & Hsame). cbn in Hrs. rewrite app_nil_r in Hrs.
  cbn zeta. unfold undo_rollback. rewrite Hrs. split; [done|]. destruct (rollback_records_ok (fst (run_ddl db undo_new acts)) rs). done.
Qed.

(** Statements with whether the files of their table and of its key index can be
    opened. *)
Definition Stmt : Type := bool * bool * DDLAction.
Fixpoint run_stmts (db : Db) (u : UndoBuffer) (l : list Stmt) : Db * UndoBuffer :=
  match l with
  | [] => (db, u)
  | (io_table, io_index, a) :: l => let '(_, db1, u1, _) := ddl_get_next iter io_table io_index false db u a in run_stmts db1 u1 l
  end.
(** CREATE of a node table whose key index cannot be opened. *)
Definition index_fails (st : Stmt) : Prop :=
  match st with (true, false, CreateNode _ _ pk _) => pk ≠ ""%string | _ => False end.

Lemma exec_index_opens io_table io_index db a : ¬ index_fails (io_table, io_index, a) → exec iter io_table io_index db a = exec iter io_table true db a.
Proof.
  intros H. destruct io_index; [done|]. destruct a; try done. cbn in H. open_exec. destruct (get_node_table _ _); [done|]. destruct (add_node_table _ _ _ _) as [c1 [[]| |]]; try done.
  unfold create_table. destruct io_table; [|done]. destruct (decide (primary_key = ""%string)) as [->|Hne]; [|by destruct H]. done.
Qed.

Lemma run_stmts_ok l : ∀ db u, db_ok db → Forall (λ st, ddl_ok (snd st) ∧ ¬ index_fails st) l → db_ok (fst (run_stmts db u l)).
Proof.
  induction l as [|[[io ix] a] l IH]; intros db u Hd Ho; cbn; [done|]. inversion Ho as [|? ? [Ho1 Hi1] Ho2]; subst. cbn in Ho1.
  pose proof (exec_ok io db a Hd Ho1) as Hd1. unfold ddl_get_next. rewrite exec_index_opens by done. destruct (exec iter io true db a) as [[db1 rs1] r]. by apply IH.
Qed.

Lemma agree_columns c s t : schemas_agree c s → columns_of s t = props_of c t.
Proof. intros Ha. symmetry. by apply agree_props. Qed.

(** The table of a CREATE whose key index fails stays in storage. *)
Lemma failed_index_disagrees db n cols pk ine : table_exists (db_catalog db) n = false → pk ≠ ""%string →
  let db' := fst (fst (exec iter true false db (CreateNode n cols pk ine))) in ¬ schemas_agree (db_catalog db') (db_storage db').
Proof.
  intros Hx Hpk db' Ha. subst db'. destruct db as [c s]. cbn in Hx. revert Ha. open_exec. destruct (table_exists_false c n Hx) as [En Er]. unfold get_node_table. rewrite En. unfold add_node_table. rewrite Hx.
  cbn -[columns_of props_of]. rewrite decide_False by done. cbn. intros [Ha _]. cbn in Ha. apply (f_equal (λ m, m !! n)) in Ha. by rewrite !lookup_fmap, lookup_insert_eq, lookup_delete_eq in Ha.
Qed.

(** DROP of a built-in column takes it out of storage only. *)
Lemma builtin_drop_disagrees io db t n ps : db_ok db → is_builtin_column n = true → props_of (db_catalog db) t = Some ps → n ∈ prop_name <$> ps →
  let db' := fst (fst (exec iter io true db (AlterDropColumn t n))) in ¬ schemas_agree (db_catalog db') (db_storage db').
Proof.
  intros [Hw Ha] Hb Hps Hn db' Ha'. subst db'. destruct db as [c s]. cbn in Hw, Ha, Hps. pose proof (agree_columns c s t Ha) as Hc. rewrite Hps in Hc.
  apply list_elem_of_fmap in Hn as (p & -> & Hp). destruct (list_find (λ q, prop_name q = prop_name p) ps) as [[i q]|] eqn:Ef; cycle 1.
  { rewrite list_find_None in Ef. rewrite list.Forall_forall in Ef. by apply (Ef p Hp). }
  revert Ha'. open_exec. unfold sm_remove_column. rewrite sm_with_columns_alt, Hc, Ef. unfold remove_column_from_table. rewrite Hb. cbn. intros Ha'.
  pose proof (agree_columns _ _ t Ha') as E. rewrite Hps, (columns_of_set s t _ ps Hc) in E. injection E as E. apply (f_equal length) in E. apply list_find_Some in Ef as (Hi & _).
  apply lookup_lt_Some in Hi. rewrite length_delete in E by (by apply lookup_lt_is_Some_2). lia.
Qed.

(** C27. Catalog and storage agree on every table and its columns, in order, after
    any schema statements, failed ones included, with three exceptions, none of which
    the code checks in time: the columns a CREATE declares must differ from each other
    and from the built-in ones, no statement drops a built-in column, and the key
    index of a new node table can be opened (table and column files may fail to
    open); sequences start at 64-bit values.  The last two are needed: from such a
    state, a CREATE of a new node table whose key index fails, and a DROP of a built-in
    column a table has, end with catalog and storage in disagreement. *)
Theorem schemas_agree_always (stmts : list Stmt) (u : UndoBuffer) :
  Forall (λ st, ddl_ok (snd st) ∧ ¬ index_fails st) stmts → let db := fst (run_stmts (mkDb catalog_new storage_new) u stmts) in
  schemas_agree (db_catalog db) (db_storage db) ∧
  (∀ n cols pk ine, table_exists (db_catalog db) n = false → pk ≠ ""%string →
     let db' := fst (fst (exec iter true false db (CreateNode n cols pk ine))) in ¬ schemas_agree (db_catalog db') (db_storage db')) ∧
  (∀ io t n ps, is_builtin_column n = true → props_of (db_catalog db) t = Some ps → n ∈ prop_name <$> ps →
     let db' := fst (fst (exec iter io true db (AlterDropColumn t n))) in ¬ schemas_agree (db_catalog db') (db_storage db')).
Proof.
  intros Ho db. assert (db_ok db) as Hd.
  { apply run_stmts_ok; [|done]. split; [|done]. apply (catalog_reachable_wf iter []). constructor. }
  split; [apply Hd|]. split; [intros n cols pk ine; apply failed_index_disagrees|intros io t n ps; by apply builtin_drop_disagrees].
Qed.

End agree.

(** ** Where rollback is not exact *)

Section inexact.
Context {Expression : Type} (iter : ∀ A, gmap string A → list (string * A)).
Implicit Types db : Db Expression.

(** Rolling back a dropped node table brings its columns back but not its
    rows: the row counter of the restored table is zero, so scans see no rows and
    new rows get the ids of the old ones, and its primary-key index is gone. *)
Theorem dropped_table_comes_back_empty db (n : string) (t : Table) :
  db_ok db → sm_node_tables (db_storage db) !! n = Some t →
  let '(db', rs, _) := exec iter true true db (DropTable n false) in
  let db'' := fst (fst (undo_rollback true db' (mkUndo rs))) in
  sm_node_tables (db_storage db'') !! n = Some (mkTable n (tb_columns t) 0) ∧ sm_indexes (db_storage db'') !! n = None.
Proof.
  intros [Hw Ha] Ht. destruct db as [c s]. cbn in Hw, Ha, Ht. open_exec. unfold get_node_table.
  destruct (agree_lookup c s Ha n) as [E1 _]. rewrite Ht in E1. destruct (node_tables c !! n) as [e|] eqn:En; [|done].
  injection E1 as E1. destruct (wf_node c Hw _ _ En) as (_ & Hsh & _). cbn -[table_columns]. rewrite lookup_insert_eq, lookup_delete_eq.
  rewrite (table_columns_shape false) by done. by rewrite E1.
Qed.

(** Renaming a node table is not undone in the relationship tables: after
    the rollback they refer to a table that does not exist. *)
Theorem rename_rollback_leaves_dangling db (old new r : string) (e : NodeTableCatalogEntry) (re : RelTableCatalogEntry) :
  node_tables (db_catalog db) !! old = Some e → rel_tables (db_catalog db) !! r = Some re → rt_from_table re = old →
  table_exists (db_catalog db) new = false →
  let '(db', rs, _) := exec iter true true db (AlterRenameTable old new) in
  let c := db_catalog (fst (fst (undo_rollback true db' (mkUndo rs)))) in
  rt_from_table <$> rel_tables c !! r = Some new ∧ node_tables c !! new = None ∧ is_Some (node_tables c !! old).
Proof.
  destruct db as [c s]. open_exec. intros He Hr Hf Hx. unfold rename_table. rewrite Hx, He.
  apply table_exists_false in Hx as [Hn _]. cbn. rewrite lookup_insert_eq. cbn. rewrite lookup_fmap, Hr. cbn. rewrite decide_True by done.
  assert (old ≠ new) by congruence. split; [done|]. rewrite lookup_insert_ne, lookup_delete_eq by done. split; [done|]. by rewrite lookup_insert_eq.
Qed.

(** A dropped index comes back from a file that [CreateIndex] never wrote. *)
Lemma dropped_index_comes_back_elsewhere db n :
  let '(db', rs, _) := exec iter true true db (DropIndex n) in
  sm_indexes (db_storage (fst (fst (undo_rollback true db' (mkUndo rs))))) !! n = Some (sanitize n ++ "_idx.ltng")%string.
Proof. cbn. apply lookup_insert_eq. Qed.

End inexact.

(** ** Witnesses *)

Definition ex_db : Db unit := mkDb catalog_new storage_new.
Definition ex_acts : list (bool * DDLAction unit) :=
  [(true, CreateNode "person" [mkProp "name" TString] "name" false); (true, CreateRel "knows" "person" "person" [] false);
   (true, AlterAddColumn "person" "age" TInt64); (false, AlterAddColumn "person" "mail" TString); (true, AlterRenameColumn "person" "age" "years");
   (true, CreateConstraint "uniq" "person" "name"); (true, CreateIndex "byname" "person" "name"); (true, CreateSequence "s" 1 1);
   (true, DropTable "knows" false); (true, AlterRenameTable "person" "human")].

Lemma ex_acts_ok : Forall (λ ia, ddl_ok (snd ia)) ex_acts.
Proof.
  unfold ex_acts. repeat (apply List.Forall_cons || apply List.Forall_nil); cbn; try done.
  - split; [apply (bool_decide_unpack _); by vm_compute|repeat constructor].
  - split; constructor.
Qed.

Lemma ex_db_ok : db_ok ex_db.
Proof. split; [|done]. apply (catalog_reachable_wf ex_iter []). constructor. Qed.

Lemma rollback_restores_schema_witness :
  let st := run_ddl ex_iter ex_db undo_new ex_acts in
  let x := undo_rollback true (fst st) (snd st) in
  length (records (snd st)) = 9 ∧ same_schema (fst (fst x)) ex_db.
Proof.
  cbn zeta. split; [vm_compute; reflexivity|]. apply (rollback_restores_schema ex_iter ex_db ex_acts); [apply ex_db_ok|apply ex_acts_ok|].
  cbn [all_reversible ex_acts reversible]. split_and!; try done.
  - intros e He. vm_compute in He. injection He as <-. reflexivity.
  - right. apply (bool_decide_unpack _). vm_compute. done.
Defined.

Lemma schemas_agree_always_witness :
  let stmts := map (λ ia, (fst ia, true, snd ia)) ex_acts in
  let db := fst (run_stmts ex_iter (mkDb catalog_new storage_new) undo_new stmts) in
  schemas_agree (db_catalog db) (db_storage db) ∧ is_Some (sm_node_tables (db_storage db) !! "human"%string) ∧
  let db1 := fst (fst (exec ex_iter true false db (CreateNode "city" [] "name" false))) in ¬ schemas_agree (db_catalog db1) (db_storage db1).
Proof.
  intros stmts db. destruct (schemas_agree_always ex_iter stmts undo_new) as (H1 & H2 & _).
  - apply List.Forall_map. eapply List.Forall_impl; [|exact ex_acts_ok]. intros [io a] H. split; [exact H|]. intros H'. by destruct io.
  - split; [exact H1|]. split; [vm_compute; by eexists|]. by apply (H2 "city"%string [] "name"%string false).
Defined.

(** A table with seven rows. *)
Definition ex_full : Db unit :=
  mkDb (fst (add_node_table catalog_new "person" [] None))
       (mkStorage {["person"%string := mkTable "person" node_columns 7]} ∅ {["person"%string := "person_pk_index.ltng"%string]} ∅ ∅ ∅ ∅).
Lemma ex_full_ok : db_ok ex_full.
Proof.
  split.
  - apply (catalog_reachable_wf ex_iter [OAddNode "person" [] None]). repeat constructor.
  - split; vm_compute; reflexivity.
Qed.

Lemma dropped_table_comes_back_empty_witness :
  let '(db', rs, _) := exec ex_iter true true ex_full (DropTable "person" false) in
  sm_node_tables (db_storage (fst (fst (undo_rollback true db' (mkUndo rs))))) !! "person"%string = Some (mkTable "person" node_columns 0).
Proof.
  pose proof (dropped_table_comes_back_empty ex_iter ex_full "person" (mkTable "person" node_columns 7) ex_full_ok eq_refl) as H.
  destruct (exec ex_iter true true ex_full (DropTable "person" false)) as [[db' rs] r]. apply H.
Defined.

Definition ex_refs : Db unit := fst (run_ddl ex_iter ex_db undo_new
  [(true, CreateNode "person" [] "" false); (true, CreateRel "knows" "person" "person" [] false)]).

Lemma rename_rollback_leaves_dangling_witness :
  let '(db', rs, _) := exec ex_iter true true ex_refs (AlterRenameTable "person" "human") in
  rt_from_table <$> rel_tables (db_catalog (fst (fst (undo_rollback true db' (mkUndo rs))))) !! "knows"%string = Some "human"%string.
Proof.
  pose proof (rename_rollback_leaves_dangling ex_iter ex_refs "person" "human" "knows" (new_node "person" [] (Some ""%string))
                (new_rel "knows" "person" "person" []) eq_refl eq_refl eq_refl eq_refl) as H.
  destruct (exec ex_iter true true ex_refs (AlterRenameTable "person" "human")) as [[db' rs] r]. apply H.
Defined.

(** Dropping a built-in column fails in the catalog after storage has dropped it. *)
Lemma builtin_column_lost_in_storage :
  let '(db', _, r) := exec ex_iter true true ex_full (AlterDropColumn "person" "_id") in
  r = Err Database ∧ columns_of (db_storage db') "person" = Some [] ∧ props_of (db_catalog db') "person" = Some node_columns.
Proof. vm_compute. done. Qed.
