(* ===== verification/Csr.v ===== *)
(** * Adjacency index (storage/index/csr.rs)

    The neighbours of the nodes of a relationship table in compressed sparse
    rows: an offset file and an adjacency file, each a 12-byte header followed by
    64-bit values, and in memory the edges inserted and deleted since the last
    rebuild.  A file is the list of its pages as the calling transaction sees
    them through the buffer manager: [pin_page] reads one (zeros past the end),
    [create_new_version] followed by writes replaces one.  Failures of the buffer
    manager are left out.  A raw copy that runs over the end of a frame is
    undefined behaviour in the source and [Panic] here. *)
From stdpp Require Import base list gmap numbers sorting.
From Stdlib Require Import ZArith Lia Bool.
From S2P Require Import Prelude.

Local Open Scope Z_scope.

(** ** Page files *)

Abbreviation pfile := (list (list Z)).

Definition get_num_pages (f : pfile) : Z := Z.of_nat (length f).
Definition pin_page (f : pfile) (page_idx : Z) : list Z := default zero_page (f !! Z.to_nat page_idx).
(** [while fh.get_num_pages() < n { fh.add_new_page() }] *)
Definition grow (f : pfile) (n : nat) : pfile := f ++ replicate (n - length f) zero_page.

(** ** Constants and layout *)

Definition DELETED_BIT : Z := Z.shiftl 1 63.
Definition CSR_HEADER_SIZE : Z := 12.
Definition MAX_CSR_NODES : Z := Z.shiftl 1 27.
Definition CSR_OFFSET_MAGIC : list Z := [67; 83; 82; 79].   (* b"CSRO" *)
Definition CSR_ADJ_MAGIC : list Z := [67; 83; 82; 65].      (* b"CSRA" *)
Definition CSR_VERSION : Z := 1.

Definition checked_offset_slots (num_nodes : Z) : outcome nat :=
  if decide (num_nodes + 2 > u64_MAX) then Err Internal
  else if decide (num_nodes + 2 > MAX_CSR_NODES) then Err Internal
  else Ok (Z.to_nat (num_nodes + 2)).

Definition bounded_value_count (start_byte end_byte file_bytes : Z) : Z :=
  let e := end_byte `min` file_bytes in
  if decide (start_byte >= e) then 0 else (e - start_byte) / 8.

(** The position of the [node_id]th 64-bit value, in either file. *)
Definition csr_offset_byte (node_id : Z) : Z := u64_wrap (CSR_HEADER_SIZE + u64_wrap (node_id * 8)).

(** [u64::from_le_bytes(frame[off..off + 8])] *)
Definition page_u64 (p : list Z) (off : nat) : Z := of_le (slice p off (off + 8)).

Record CSRIndex := mkCSR {
  offset_file : pfile;
  adj_file : pfile;
  pending_edges : list (Z * Z);
  pending_deletions : list (Z * Z);
  base_edge_count : Z;
  deletion_count : Z;
}.

Definition csr_new (offset_fh adj_node_fh : pfile) : CSRIndex := mkCSR offset_fh adj_node_fh [] [] 0 0.

(** ** Updates in memory *)

Definition insert_edge (c : CSRIndex) (src dst : Z) : CSRIndex :=
  mkCSR (offset_file c) (adj_file c) (pending_edges c ++ [(src, dst)]) (pending_deletions c)
        (base_edge_count c) (deletion_count c).
Definition insert_edges (c : CSRIndex) (edges : list (Z * Z)) : CSRIndex :=
  mkCSR (offset_file c) (adj_file c) (pending_edges c ++ edges) (pending_deletions c)
        (base_edge_count c) (deletion_count c).
Definition delete_edge (c : CSRIndex) (src dst : Z) : CSRIndex :=
  mkCSR (offset_file c) (adj_file c) (pending_edges c) (pending_deletions c ++ [(src, dst)])
        (base_edge_count c) (u64_wrap (deletion_count c + 1)).
Definition set_base_edge_count (c : CSRIndex) (count : Z) : CSRIndex :=
  mkCSR (offset_file c) (adj_file c) (pending_edges c) (pending_deletions c) count (deletion_count c).

Definition needs_compaction (c : CSRIndex) : bool :=
  let pending := Z.of_nat (length (pending_edges c)) in
  let deleted := deletion_count c in
  if decide (pending = 0 ∧ deleted = 0) then false
  else let base := base_edge_count c in
       if decide (base = 0) then bool_decide (pending > 0 ∨ deleted > 0)
       else bool_decide (pending > base / 10 ∨ deleted > base / 10).

(** ** Reading values *)

Definition read_u64_at (f : pfile) (byte_pos : Z) : Z :=
  let page_idx := byte_pos / 4096 in
  let off := Z.to_nat (byte_pos mod 4096) in
  if decide (off + 8 ≤ PAGE_SIZE)%nat then page_u64 (pin_page f page_idx) off
  else
    let first_part := (PAGE_SIZE - off)%nat in
    of_le (slice (pin_page f page_idx) off PAGE_SIZE ++
           slice (pin_page f (page_idx + 1)) 0 (8 - first_part)).

(** Every turn advances by at least one byte. *)
Fixpoint read_batch_loop (fuel : nat) (f : pfile) (byte_pos end_byte : Z) : list Z :=
  match fuel with
  | O => []
  | S fuel =>
      if decide (byte_pos < end_byte) then
        let page_idx := byte_pos / 4096 in
        let off := byte_pos mod 4096 in
        let bytes_in_page := (4096 - off) `min` (end_byte - byte_pos) in
        let values_in_page := Z.to_nat (bytes_in_page / 8) in
        map (λ k, page_u64 (pin_page f page_idx) (Z.to_nat off + k * 8)) (seq 0 values_in_page)
          ++ read_batch_loop fuel f (byte_pos + bytes_in_page) end_byte
      else []
  end.

Definition read_u64_batch (f : pfile) (start_byte end_byte : Z) : list Z :=
  if decide (start_byte >= end_byte) then []
  else let end_byte := end_byte `min` (get_num_pages f * 4096) in
       if decide (start_byte >= end_byte) then []
       else read_batch_loop (Z.to_nat (end_byte - start_byte)) f start_byte end_byte.

(** ** Neighbours *)

Definition is_live (v : Z) : bool := bool_decide (Z.land v DELETED_BIT = 0).

(** The loop over the adjacency values [i..end_]; [None] when the fuel is used
    up before the loop is left. *)
Fixpoint neighbor_loop (fuel : nat) (adj : pfile) (node_id : Z) (deletions : list (Z * Z)) (i end_ : Z) :
    option (list Z) :=
  match fuel with
  | O => None
  | S fuel =>
      if decide (i < end_) then
        let adj_byte := csr_offset_byte i in
        let adj_frame := pin_page adj (adj_byte / 4096) in
        let off := adj_byte mod 4096 in
        let remaining_in_page := (4096 - off) / 8 in
        let to_read := (end_ - i) `min` remaining_in_page in
        let vals := map (λ j, page_u64 adj_frame (Z.to_nat off + j * 8)) (seq 0 (Z.to_nat to_read)) in
        let kept :=
          filter (λ n, (node_id, n) ∉ deletions)
                 (map (λ v, Z.land v (u64_not DELETED_BIT)) (filter (λ v, is_live v = true) vals)) in
        match neighbor_loop fuel adj node_id deletions (i + to_read) end_ with
        | Some rest => Some (kept ++ rest)
        | None => None
        end
      else Some []
  end.

Definition for_each_base_neighbor (fuel : nat) (c : CSRIndex) (node_id : Z) : option (list Z) :=
  let byte_pos := csr_offset_byte node_id in
  if decide (byte_pos / 4096 >= get_num_pages (offset_file c)) then Some []
  else
    let start := read_u64_at (offset_file c) byte_pos in
    let end_ := read_u64_at (offset_file c) (csr_offset_byte (u64_wrap (node_id + 1))) in
    if decide (end_ <= start) then Some []
    else neighbor_loop fuel (adj_file c) node_id (pending_deletions c) start end_.

Definition for_each_pending_neighbor (c : CSRIndex) (node_id : Z) : list Z :=
  map snd (filter (λ e, fst e = node_id ∧ e ∉ pending_deletions c) (pending_edges c)).

(** [for_each_neighbor], collecting what the callback is given. *)
Definition get_neighbors (fuel : nat) (c : CSRIndex) (node_id : Z) : option (list Z) :=
  match for_each_base_neighbor fuel c node_id with
  | Some base => Some (base ++ for_each_pending_neighbor c node_id)
  | None => None
  end.

(** ** Building the base *)

(** [sort_by_key(|e| e.0)]: a stable sort by source. *)
Fixpoint insert_by_src (e : Z * Z) (l : list (Z * Z)) : list (Z * Z) :=
  match l with
  | [] => [e]
  | x :: l' => if decide (fst e ≤ fst x) then e :: l else x :: insert_by_src e l'
  end.
Definition sort_by_src (l : list (Z * Z)) : list (Z * Z) := foldr insert_by_src [] l.

Definition count_offsets (num_nodes : Z) (sorted_edges : list (Z * Z)) (offsets : list Z) : list Z :=
  foldl (λ offs e, if decide (fst e ≤ num_nodes) then alter (Z.add 1) (Z.to_nat (fst e + 1)) offs else offs)
        offsets sorted_edges.
(** [for i in 1..offsets.len() { offsets[i] += offsets[i - 1] }] *)
Fixpoint prefix_sums (acc : Z) (l : list Z) : list Z :=
  match l with [] => [] | x :: l => (acc + x) :: prefix_sums (acc + x) l end.

Section checksum.
(** The CRC-32C of the [crc] crate. *)
Context (crc32c : list Z → Z).

Definition write_csr_header (buf : list Z) (magic : list Z) : list Z :=
  let buf := splice (splice buf 0 magic) 4 [CSR_VERSION] in
  splice buf 8 (to_le 4 (crc32c (take 8 buf))).

Definition validate_csr_header (buf : list Z) (expected_magic : list Z) : outcome unit :=
  if decide (take 4 buf ≠ expected_magic) then Err Internal
  else if decide (byte_at buf 4 ≠ CSR_VERSION) then Err Internal
  else if decide (length buf < 12)%nat then Err Internal
  else if decide (crc32c (take 8 buf) ≠ of_le (slice buf 8 12)) then Err Internal
  else Ok tt.

(** Write [vals] from index [i] on.  The source groups the values by page and
    visits the pages in no particular order; a value lies in the page of its
    first byte, so the order does not matter. *)
Fixpoint write_values (f : pfile) (i : Z) (vals : list Z) : outcome pfile :=
  match vals with
  | [] => Ok f
  | v :: vals =>
      let byte_pos := csr_offset_byte i in
      let page_idx := byte_pos / 4096 in
      let f := grow f (Z.to_nat page_idx + 1) in
      let* p := write_at (pin_page f page_idx) (Z.to_nat (byte_pos mod 4096)) (to_le 8 v) in
      write_values (<[Z.to_nat page_idx := p]> f) (i + 1) vals
  end.

(** The header on page 0, keeping the rest of the page, then the values. *)
Definition write_csr_file (f : pfile) (magic : list Z) (vals : list Z) : outcome pfile :=
  let f := grow f 1 in
  write_values (<[0%nat := write_csr_header (pin_page f 0) magic]> f) 0 vals.

Definition build (offset_fh adj_node_fh : pfile) (edges : list (Z * Z)) (num_nodes : Z) :
    outcome (pfile * pfile) :=
  let sorted_edges := sort_by_src edges in
  let* offset_slots := checked_offset_slots num_nodes in
  let offsets := prefix_sums 0 (count_offsets num_nodes sorted_edges (replicate offset_slots 0)) in
  let* offset_fh := write_csr_file offset_fh CSR_OFFSET_MAGIC offsets in
  let* adj_node_fh := write_csr_file adj_node_fh CSR_ADJ_MAGIC (map snd sorted_edges) in
  Ok (offset_fh, adj_node_fh).

(** ** Scanning the base *)

(** One past the last row that is not empty. *)
Fixpoint count_nodes (i num_nodes : nat) (offsets : list Z) : nat :=
  match offsets with
  | a :: (b :: _) as rest => count_nodes (S i) (if decide (a < b) then S i else num_nodes) rest
  | _ => num_nodes
  end.

Fixpoint scan_rows (n src pos : nat) (offsets adj_values : list Z) : list (Z * Z) :=
  match n with
  | O => []
  | S n =>
      if decide (length offsets ≤ src + 1)%nat then []
      else
        let end_ := Z.to_nat (word_at offsets (src + 1)) in
        map (pair (Z.of_nat src))
            (filter (λ v, is_live v = true) (slice adj_values pos (end_ `min` length adj_values)))
          ++ scan_rows n (S src) end_ offsets adj_values
  end.

Definition scan_edges_from_csr (c : CSRIndex) : outcome (list (Z * Z)) :=
  let num_offset_pages := get_num_pages (offset_file c) in
  if decide (num_offset_pages = 0) then Ok []
  else
    let* _ := validate_csr_header (pin_page (offset_file c) 0) CSR_OFFSET_MAGIC in
    let* _ := (if decide (get_num_pages (adj_file c) > 0)
               then validate_csr_header (pin_page (adj_file c) 0) CSR_ADJ_MAGIC else Ok tt) in
    let max_entries := (0 `max` (num_offset_pages * 4096 - CSR_HEADER_SIZE)) / 8 in
    let offset_end := csr_offset_byte (max_entries + 1) in
    let offsets := read_u64_batch (offset_file c) CSR_HEADER_SIZE
                                  (offset_end `min` (num_offset_pages * 4096)) in
    if decide (length offsets < 2)%nat then Ok []
    else
      let num_nodes := count_nodes 0 0 offsets in
      let total_adj := default 0 (offsets !! num_nodes) in
      if decide (total_adj = 0) then Ok []
      else
        let adj_end := (CSR_HEADER_SIZE + (total_adj * 8) `min` u64_MAX) `min` u64_MAX in
        let adj_values := read_u64_batch (adj_file c) CSR_HEADER_SIZE adj_end in
        Ok (scan_rows num_nodes 0 0 offsets adj_values).

Definition collect_all_edges (c : CSRIndex) : outcome (list (Z * Z)) :=
  let* base_edges := scan_edges_from_csr c in
  let all_edges := base_edges ++ pending_edges c in
  Ok (if decide (pending_deletions c ≠ []) then filter (λ e, e ∉ pending_deletions c) all_edges
      else all_edges).

Definition max_src (edges : list (Z * Z)) : Z := foldr (λ e m, fst e `max` m) 0 edges.

Definition compact (c : CSRIndex) : outcome CSRIndex :=
  let* all_edges := collect_all_edges c in
  if decide (all_edges = []) then Ok c
  else
    let num_nodes := max_src all_edges in
    let* files := build (offset_file c) (adj_file c) all_edges num_nodes in
    Ok (mkCSR (fst files) (snd files) [] [] (Z.of_nat (length all_edges)) 0).

Definition compact_if_needed (c : CSRIndex) : outcome CSRIndex :=
  if needs_compaction c then compact c else Ok c.

Definition recover_from_base (c : CSRIndex) : outcome CSRIndex :=
  let* edges := scan_edges_from_csr c in
  Ok (set_base_edge_count c (Z.of_nat (length edges))).
End checksum.

(** ** Stable sorting *)

Abbreviation edge := (Z * Z)%type.

Lemma insert_by_src_perm e l : insert_by_src e l ≡ₚ e :: l.
Proof.
  induction l as [|x l IH]; simpl; [done|]. case_decide; [done|]. rewrite IH. apply Permutation_swap.
Qed.

Lemma sort_by_src_perm l : sort_by_src l ≡ₚ l.
Proof. induction l as [|e l IH]; simpl; [done|]. by rewrite insert_by_src_perm, IH. Qed.

Lemma insert_by_src_filter e l n :
  filter (λ x : edge, fst x = n) (insert_by_src e l) = filter (λ x : edge, fst x = n) (e :: l).
Proof.
  induction l as [|x l IH]; simpl; [done|]. case_decide as H; [done|].
  rewrite filter_cons, IH, !filter_cons. repeat case_decide; try done. lia.
Qed.

(** Stability: the edges of a node keep their order. *)
Lemma sort_by_src_filter l n :
  filter (λ x : edge, fst x = n) (sort_by_src l) = filter (λ x : edge, fst x = n) l.
Proof.
  induction l as [|e l IH]; simpl; [done|].
  rewrite insert_by_src_filter, !filter_cons, IH. done.
Qed.

Definition src_sorted (l : list edge) : Prop := StronglySorted (λ a b, fst a ≤ fst b) l.

Lemma insert_by_src_sorted e l : src_sorted l → src_sorted (insert_by_src e l).
Proof.
  induction 1 as [|x l Hl IH Hx]; simpl; [repeat constructor|]. case_decide.
  - constructor; [by constructor|]. constructor; [done|].
    eapply Forall_impl; [done|]. simpl. lia.
  - constructor; [done|]. apply Forall_forall. intros y. rewrite insert_by_src_perm.
    rewrite Forall_forall in Hx. intros [->|Hy]%elem_of_cons; [lia|by apply Hx].
Qed.

Lemma sort_by_src_sorted l : src_sorted (sort_by_src l).
Proof. induction l; simpl; [constructor|]. by apply insert_by_src_sorted. Qed.

(** The number of edges whose source is below [n]. *)
Definition below (edges : list edge) (n : Z) : nat := length (filter (λ e : edge, fst e < n) edges).

Lemma below_perm l l' n : l ≡ₚ l' → below l n = below l' n.
Proof. intros H. unfold below. by rewrite H. Qed.

Lemma below_succ l n : below l (n + 1) = (below l n + length (filter (λ e : edge, fst e = n) l))%nat.
Proof.
  unfold below. induction l as [|e l IH]; simpl; [done|]. rewrite !filter_cons.
  repeat case_decide; simpl; lia.
Qed.

Lemma below_le l n : (below l n ≤ length l)%nat.
Proof. apply length_filter. Qed.

Lemma below_all l n : Forall (λ e : edge, fst e < n) l → below l n = length l.
Proof.
  induction 1 as [|e l He Hl IH]; [done|]. unfold below in *. rewrite filter_cons.
  case_decide; [|done]. simpl. lia.
Qed.

Lemma below_none l : Forall (λ e : edge, 0 ≤ fst e) l → below l 0 = 0%nat.
Proof.
  induction 1 as [|e l He Hl IH]; [done|]. unfold below in *. rewrite filter_cons.
  case_decide; [lia|done].
Qed.

Lemma filter_none {A} (P : A → Prop) `{∀ x, Decision (P x)} (l : list A) :
  (∀ x, x ∈ l → ¬ P x) → filter P l = [].
Proof.
  induction l as [|x l IH]; intros Hl; [done|]. rewrite filter_cons. case_decide.
  - exfalso. apply (Hl x); [set_solver|done].
  - apply IH. set_solver.
Qed.

(** In a sorted list the edges of [n] start at [below n]. *)
Lemma sorted_drop l n :
  src_sorted l → filter (λ e : edge, fst e = n) l =
    take (length (filter (λ e : edge, fst e = n) l)) (drop (below l n) l).
Proof.
  unfold below. induction 1 as [|x l Hl IH Hx]; [done|]. rewrite !filter_cons.
  rewrite Forall_forall in Hx. repeat case_decide; simpl; try lia.
  - assert (filter (λ e : edge, fst e < n) l = []) as E.
    { apply filter_none. intros y Hy. specialize (Hx y Hy). simpl in Hx. lia. }
    rewrite E in *. simpl in *. rewrite drop_0 in *. by rewrite <- IH.
  - done.
  - assert (filter (λ e : edge, fst e = n) l = []) as E.
    { apply filter_none. intros y Hy. specialize (Hx y Hy). simpl in Hx. lia. }
    rewrite E. simpl. done.
Qed.

Lemma sorted_row l n :
  slice (sort_by_src l) (below l n) (below l (n + 1)) = filter (λ e : edge, fst e = n) l.
Proof.
  rewrite <- (sort_by_src_filter l n). rewrite sorted_drop by apply sort_by_src_sorted.
  unfold slice. rewrite (below_perm _ _ n (sort_by_src_perm l)), below_succ, sort_by_src_filter.
  f_equal. lia.
Qed.

(** ** The offset table *)

Definition ids_ok (num_nodes : Z) (edges : list edge) : Prop :=
  Forall (λ e : edge, 0 ≤ fst e ≤ num_nodes ∧ 0 ≤ snd e < 2 ^ 63) edges.

#[global] Instance ids_ok_dec N edges : Decision (ids_ok N edges).
Proof. unfold ids_ok. apply _. Defined.

Lemma ids_ok_perm N l l' : l ≡ₚ l' → ids_ok N l → ids_ok N l'.
Proof. intros H. unfold ids_ok. by rewrite H. Qed.

Lemma count_offsets_length N es offs : length (count_offsets N es offs) = length offs.
Proof.
  unfold count_offsets. revert offs. induction es as [|e es IH]; intros offs; simpl; [done|].
  rewrite IH. case_decide; [|done]. apply length_alter.
Qed.

Lemma word_at_alter l i k :
  (k < length l)%nat → word_at (alter (Z.add 1) i l) k = word_at l k + (if decide (i = k) then 1 else 0).
Proof.
  intros Hk. unfold word_at. destruct (lookup_lt_is_Some_2 l k Hk) as [x Hx].
  destruct (decide (i = k)) as [->|Hne].
  - rewrite list_lookup_alter_eq, Hx. simpl. lia.
  - rewrite list_lookup_alter_ne, Hx by done. simpl. lia.
Qed.

Lemma count_offsets_at N es offs k :
  ids_ok N es → (k < length offs)%nat →
  word_at (count_offsets N es offs) k
  = word_at offs k + Z.of_nat (length (filter (λ e : edge, fst e = Z.of_nat k - 1) es)).
Proof.
  intros Hes. revert offs. induction Hes as [|e es He Hes IH]; intros offs Hk; simpl; [lia|].
  rewrite decide_True by lia. rewrite IH by (by rewrite length_alter). rewrite word_at_alter by done.
  rewrite filter_cons. destruct (decide (Z.to_nat (fst e + 1) = k)), (decide (fst e = Z.of_nat k - 1));
    simpl; lia.
Qed.

Lemma prefix_sums_length acc l : length (prefix_sums acc l) = length l.
Proof. revert acc. induction l as [|x l IH]; intros acc; simpl; [done|]. by rewrite IH. Qed.

Lemma prefix_sums_0 acc l : (0 < length l)%nat → word_at (prefix_sums acc l) 0 = acc + word_at l 0.
Proof. destruct l; simpl; [lia|done]. Qed.

Lemma prefix_sums_S acc l k :
  (S k < length l)%nat →
  word_at (prefix_sums acc l) (S k) = word_at (prefix_sums acc l) k + word_at l (S k).
Proof.
  revert acc k. induction l as [|x l IH]; intros acc k Hk; simpl in Hk; [lia|].
  destruct k as [|k].
  - destruct l as [|y l]; simpl in Hk; [lia|done].
  - change (word_at (prefix_sums (acc + x) l) (S k) =
            word_at (prefix_sums (acc + x) l) k + word_at l (S k)). apply IH. lia.
Qed.

(** The table [build] writes. *)
Definition offset_table (edges : list edge) (num_nodes : Z) : list Z :=
  prefix_sums 0 (count_offsets num_nodes (sort_by_src edges) (replicate (Z.to_nat (num_nodes + 2)) 0)).

Lemma offset_table_length edges N : length (offset_table edges N) = Z.to_nat (N + 2).
Proof. unfold offset_table. by rewrite prefix_sums_length, count_offsets_length, length_replicate. Qed.

Lemma offset_table_at edges N k :
  0 ≤ N → ids_ok N edges → (k < Z.to_nat (N + 2))%nat →
  word_at (offset_table edges N) k = Z.of_nat (below edges (Z.of_nat k)).
Proof.
  intros HN Hids Hk. unfold offset_table.
  assert (ids_ok N (sort_by_src edges)) as Hs by (eapply ids_ok_perm; [symmetry; apply sort_by_src_perm|done]).
  set (counts := count_offsets _ _ _).
  assert (length counts = Z.to_nat (N + 2)) as Hlen.
  { unfold counts. by rewrite count_offsets_length, length_replicate. }
  assert (∀ j, (j < Z.to_nat (N + 2))%nat → word_at counts j =
    Z.of_nat (length (filter (λ e : edge, fst e = Z.of_nat j - 1) edges))) as Hc.
  { intros j Hj. unfold counts. rewrite count_offsets_at by (rewrite ?length_replicate; done).
    unfold word_at. rewrite lookup_replicate_2 by done. simpl. by rewrite sort_by_src_filter. }
  induction k as [|k IH].
  - rewrite prefix_sums_0, Hc by lia. simpl. rewrite below_none, filter_none; [done|..].
    + intros e He. eapply Forall_forall in Hids; [|done]. simpl in Hids. lia.
    + eapply Forall_impl; [done|]. simpl. lia.
  - rewrite prefix_sums_S, IH, Hc by lia. rewrite Nat2Z.inj_succ, <- Z.add_1_r, below_succ.
    rewrite Nat2Z.inj_add. do 4 f_equal. replace (Z.of_nat k + 1 - 1) with (Z.of_nat k) by lia. done.
Qed.

(** ** Values on the first page *)

(** The header and 510 values fill the page but for four bytes. *)
Lemma csr_offset_byte_small i : 0 ≤ i < 2 ^ 60 → csr_offset_byte i = 12 + 8 * i.
Proof.
  intros Hi. unfold csr_offset_byte, CSR_HEADER_SIZE.
  rewrite (u64_wrap_id (i * 8)) by (unfold is_u64; lia). rewrite u64_wrap_id by (unfold is_u64; lia). lia.
Qed.

Lemma first_page i :
  0 ≤ i ≤ 510 → csr_offset_byte i / 4096 = 0 ∧ Z.to_nat (csr_offset_byte i mod 4096) = (12 + 8 * Z.to_nat i)%nat.
Proof.
  intros Hi. rewrite csr_offset_byte_small by lia. split; [apply Z.div_small; lia|].
  rewrite Z.mod_small by lia. lia.
Qed.

Definition u64s (vals : list Z) : list Z := concat (map (to_le 8) vals).

Lemma u64s_length vals : length (u64s vals) = (8 * length vals)%nat.
Proof.
  unfold u64s. induction vals as [|v vals IH]; [done|]. cbn [map concat length].
  rewrite length_app, IH, length_to_le. lia.
Qed.

Lemma u64s_slice vals k :
  (k < length vals)%nat → slice (u64s vals) (8 * k) (8 * k + 8) = to_le 8 (word_at vals k).
Proof.
  revert k. induction vals as [|v vals IH]; intros k Hk; cbn [length] in Hk; [lia|].
  unfold u64s. cbn [map concat]. fold (u64s vals). destruct k as [|k].
  - rewrite slice_app_l by (rewrite length_to_le; lia).
    replace (8 * 0 + 8)%nat with (length (to_le 8 v)) by (by rewrite length_to_le). apply slice_all.
  - rewrite slice_app_r by (rewrite length_to_le; lia). rewrite length_to_le.
    replace (8 * S k - 8)%nat with (8 * k)%nat by lia.
    replace (8 * S k + 8 - 8)%nat with (8 * k + 8)%nat by lia.
    rewrite IH by lia. done.
Qed.

Lemma slice_0 {A} (l : list A) n : slice l 0 n = take n l.
Proof. unfold slice. by rewrite drop_0, Nat.sub_0_r. Qed.

Lemma write_values_page p rest i vals :
  length p = PAGE_SIZE → 0 ≤ i → i + Z.of_nat (length vals) ≤ 510 →
  write_values (p :: rest) i vals = Ok (splice p (12 + 8 * Z.to_nat i) (u64s vals) :: rest).
Proof.
  pose proof PAGE_SIZE_val as HP. revert p i.
  induction vals as [|v vals IH]; intros p i Hp Hi Hfit; cbn [write_values length] in *.
  { unfold u64s. simpl. by rewrite splice_nil. }
  destruct (first_page i) as [-> ->]; [lia|].
  replace (grow (p :: rest) (Z.to_nat 0 + 1)) with (p :: rest) by (unfold grow; simpl; by rewrite app_nil_r).
  change (pin_page (p :: rest) 0) with p. rewrite write_at_ok by (rewrite length_to_le; lia).
  cbn [outcome_bind].
  change (<[Z.to_nat 0 := splice p (12 + 8 * Z.to_nat i) (to_le 8 v)]> (p :: rest))
    with (splice p (12 + 8 * Z.to_nat i) (to_le 8 v) :: rest). 
  rewrite IH by (rewrite ?length_splice; rewrite ?length_to_le; lia). do 2 f_equal.
  replace (12 + 8 * Z.to_nat (i + 1))%nat with (12 + 8 * Z.to_nat i + length (to_le 8 v))%nat
    by (rewrite length_to_le; lia).
  rewrite splice_splice_adjacent; [done|]. rewrite length_to_le, u64s_length. lia.
Qed.

(** Past the 510th value the copy leaves the frame. *)
Lemma write_values_overrun p rest i vals :
  length p = PAGE_SIZE → 0 ≤ i ≤ 510 → 510 < i + Z.of_nat (length vals) →
  write_values (p :: rest) i vals = Panic.
Proof.
  pose proof PAGE_SIZE_val as HP. revert p i.
  induction vals as [|v vals IH]; intros p i Hp Hi Hfit; cbn [write_values length] in *; [lia|].
  destruct (first_page i) as [-> ->]; [lia|].
  replace (grow (p :: rest) (Z.to_nat 0 + 1)) with (p :: rest) by (unfold grow; simpl; by rewrite app_nil_r).
  change (pin_page (p :: rest) 0) with p. destruct (decide (i = 510)) as [->|].
  - unfold write_at. rewrite decide_False; [done|]. rewrite length_to_le. lia.
  - rewrite write_at_ok by (rewrite length_to_le; lia). cbn [outcome_bind].
  change (<[Z.to_nat 0 := splice p (12 + 8 * Z.to_nat i) (to_le 8 v)]> (p :: rest))
    with (splice p (12 + 8 * Z.to_nat i) (to_le 8 v) :: rest).
    apply IH; [|lia..]. rewrite length_splice; rewrite ?length_to_le; lia.
Qed.

Lemma page_u64_splice p vals k :
  length p = PAGE_SIZE → (length vals ≤ 510)%nat → Forall is_u64 vals → (k < length vals)%nat →
  page_u64 (splice p 12 (u64s vals)) (12 + 8 * k) = word_at vals k.
Proof.
  pose proof PAGE_SIZE_val as HP. intros Hp Hl Hv Hk. unfold page_u64.
  assert (slice (splice p 12 (u64s vals)) (12 + 8 * k) (12 + 8 * k + 8)
          = slice (u64s vals) (8 * k) (8 * k + 8)) as ->.
  { rewrite <- (slice_splice_same p 12 (u64s vals)) at 2 by (rewrite u64s_length; lia).
    rewrite u64s_length. rewrite slice_slice; [f_equal; lia|..].
    - rewrite length_splice; rewrite ?u64s_length; lia.
    - lia.
    - lia. }
  rewrite u64s_slice by done. apply of_le_to_le_id.
  unfold word_at. destruct (lookup_lt_is_Some_2 vals k Hk) as [v Hv']. rewrite Hv'.
  by eapply Forall_lookup_1 in Hv.
Qed.

Lemma page_u64_beyond p vals k :
  length p = PAGE_SIZE → (length vals ≤ k < 510)%nat →
  page_u64 (splice p 12 (u64s vals)) (12 + 8 * k) = page_u64 p (12 + 8 * k).
Proof.
  pose proof PAGE_SIZE_val as HP. intros Hp Hk. unfold page_u64.
  rewrite slice_splice_other; [done|..]; rewrite ?u64s_length; lia.
Qed.

(** ** Files that [build] writes *)

Definition pages_ok (f : pfile) : Prop := Forall (λ p, length p = PAGE_SIZE) f.

Lemma pin_page_length f i : pages_ok f → length (pin_page f i) = PAGE_SIZE.
Proof.
  intros Hf. unfold pin_page. destruct (f !! _) as [p|] eqn:E; simpl.
  - by eapply Forall_lookup_1 in Hf.
  - apply length_replicate.
Qed.

Section written.
Context (crc32c : list Z → Z).
Hypothesis crc32c_u32 : ∀ b, 0 ≤ crc32c b < 2 ^ 32.

(** Page 0 after a write: header, values, and what was there before. *)
Definition csr_page (p : list Z) (magic vals : list Z) : list Z :=
  splice (write_csr_header crc32c p magic) 12 (u64s vals).

Lemma header_length p magic :
  length p = PAGE_SIZE → length magic = 4%nat → length (write_csr_header crc32c p magic) = PAGE_SIZE.
Proof.
  pose proof PAGE_SIZE_val as HP. intros Hp Hm. unfold write_csr_header.
  assert (length (splice p 0 magic) = PAGE_SIZE) as H1 by (rewrite length_splice; lia).
  assert (length (splice (splice p 0 magic) 4 [CSR_VERSION]) = PAGE_SIZE) as H2
    by (rewrite length_splice; simpl; lia).
  rewrite length_splice; rewrite ?length_to_le; lia.
Qed.

Lemma csr_page_length p magic vals :
  length p = PAGE_SIZE → length magic = 4%nat → (length vals ≤ 510)%nat →
  length (csr_page p magic vals) = PAGE_SIZE.
Proof.
  pose proof PAGE_SIZE_val as HP. intros Hp Hm Hv. unfold csr_page.
  rewrite length_splice; rewrite ?u64s_length, header_length by done; [done|lia].
Qed.

Lemma write_csr_file_ok f magic vals :
  pages_ok f → length magic = 4%nat → (length vals ≤ 510)%nat →
  write_csr_file crc32c f magic vals = Ok (csr_page (pin_page f 0) magic vals :: tail f).
Proof.
  intros Hf Hm Hv. unfold write_csr_file.
  assert (∃ rest, grow f 1 = pin_page f 0 :: rest ∧ rest = tail f) as (rest & E & ->).
  { destruct f as [|p f]; [by exists []|]. exists f. unfold grow. simpl. by rewrite app_nil_r. }
  rewrite E. change (pin_page (pin_page f 0 :: tail f) 0) with (pin_page f 0).
  change (<[0%nat := write_csr_header crc32c (pin_page f 0) magic]> (pin_page f 0 :: tail f))
    with (write_csr_header crc32c (pin_page f 0) magic :: tail f).
  rewrite write_values_page; [done| |lia..]. apply header_length; [by apply pin_page_length|done].
Qed.

Lemma write_csr_file_overrun f magic vals :
  pages_ok f → length magic = 4%nat → (510 < length vals)%nat →
  write_csr_file crc32c f magic vals = Panic.
Proof.
  intros Hf Hm Hv. unfold write_csr_file.
  assert (∃ rest, grow f 1 = pin_page f 0 :: rest) as (rest & E).
  { destruct f as [|p f]; [by exists []|]. exists f. unfold grow. simpl. by rewrite app_nil_r. }
  rewrite E. change (pin_page (pin_page f 0 :: rest) 0) with (pin_page f 0).
  change (<[0%nat := write_csr_header crc32c (pin_page f 0) magic]> (pin_page f 0 :: rest))
    with (write_csr_header crc32c (pin_page f 0) magic :: rest).
  apply write_values_overrun; [|lia..]. apply header_length; [by apply pin_page_length|done].
Qed.

(** The header leaves the value area alone. *)
Lemma page_u64_header p magic k :
  length p = PAGE_SIZE → length magic = 4%nat → (k < 510)%nat →
  page_u64 (write_csr_header crc32c p magic) (12 + 8 * k) = page_u64 p (12 + 8 * k).
Proof.
  pose proof PAGE_SIZE_val as HP. intros Hp Hm Hk. unfold page_u64, write_csr_header.
  assert (length (splice p 0 magic) = PAGE_SIZE) as H1 by (rewrite length_splice; lia).
  assert (length (splice (splice p 0 magic) 4 [CSR_VERSION]) = PAGE_SIZE) as H2
    by (rewrite length_splice; simpl; lia).
  rewrite !slice_splice_other; rewrite ?length_to_le; simpl; try done; lia.
Qed.

Lemma csr_page_u64 p magic vals k :
  length p = PAGE_SIZE → length magic = 4%nat → (length vals ≤ 510)%nat → Forall is_u64 vals →
  (k < 510)%nat →
  page_u64 (csr_page p magic vals) (12 + 8 * k)
  = if decide (k < length vals)%nat then word_at vals k else page_u64 p (12 + 8 * k).
Proof.
  intros Hp Hm Hl Hv Hk. pose proof (header_length p magic Hp Hm) as Hh. unfold csr_page. case_decide.
  - by apply page_u64_splice.
  - rewrite page_u64_beyond by (done || lia). by apply page_u64_header.
Qed.

Lemma csr_page_valid p magic vals :
  length p = PAGE_SIZE → length magic = 4%nat → (length vals ≤ 510)%nat →
  validate_csr_header crc32c (csr_page p magic vals) magic = Ok tt.
Proof.
  pose proof PAGE_SIZE_val as HP. intros Hp Hm Hv.
  set (b := splice (splice p 0 magic) 4 [CSR_VERSION]).
  assert (length (splice p 0 magic) = PAGE_SIZE) as H1 by (rewrite length_splice; lia).
  assert (length b = PAGE_SIZE) as H2 by (unfold b; rewrite length_splice; simpl; lia).
  assert (length (splice b 8 (to_le 4 (crc32c (take 8 b)))) = PAGE_SIZE) as H3
    by (rewrite length_splice; rewrite ?length_to_le; lia).
  assert (∀ n, (n ≤ 8)%nat → take n (csr_page p magic vals) = take n b) as Htake.
  { intros n Hn. rewrite <- !slice_0. unfold csr_page, write_csr_header. fold b.
    rewrite !slice_splice_other; rewrite ?length_to_le, ?u64s_length; try done; lia. }
  assert (take 4 (csr_page p magic vals) = magic) as E1.
  { rewrite Htake by lia. rewrite <- slice_0. unfold b.
    rewrite slice_splice_other by (simpl; lia). rewrite <- Hm.
    apply (slice_splice_same p 0 magic). lia. }
  assert (byte_at (csr_page p magic vals) 4 = CSR_VERSION) as E2.
  { unfold byte_at. rewrite <- (lookup_take_lt _ 8 4) by lia. rewrite Htake, lookup_take_lt by lia. unfold b.
    rewrite lookup_splice_in by (simpl; lia). done. }
  assert (slice (csr_page p magic vals) 8 12 = to_le 4 (crc32c (take 8 b))) as E3.
  { unfold csr_page, write_csr_header. fold b.
    rewrite slice_splice_other by (rewrite ?u64s_length; lia).
    replace 12%nat with (8 + length (to_le 4 (crc32c (take 8 b))))%nat by (by rewrite length_to_le).
    apply slice_splice_same. rewrite length_to_le. lia. }
  unfold validate_csr_header. rewrite E1, E2, E3, Htake, csr_page_length by (done || lia).
  rewrite of_le_to_le_id by apply crc32c_u32.
  rewrite !decide_False; [done|tauto|lia|tauto|tauto].
Qed.

Lemma read_u64_at_page p rest k :
  (k ≤ 509)%nat → read_u64_at (p :: rest) (csr_offset_byte (Z.of_nat k)) = page_u64 p (12 + 8 * k).
Proof.
  pose proof PAGE_SIZE_val as HP. intros Hk. unfold read_u64_at.
  destruct (first_page (Z.of_nat k)) as [-> ->]; [lia|]. rewrite Nat2Z.id.
  rewrite decide_True by lia. done.
Qed.
End written.

(** ** Neighbours of a built index *)

Lemma live_small v : 0 ≤ v < 2 ^ 63 → is_live v = true.
Proof.
  intros Hv. apply bool_decide_eq_true. apply Z.bits_inj'. intros i Hi.
  rewrite Z.land_spec, Z.testbit_0_l. unfold DELETED_BIT. rewrite Z.shiftl_1_l, Z.pow2_bits_eqb by lia.
  destruct (Z.eqb_spec 63 i) as [<-|]; [|by rewrite andb_false_r].
  rewrite andb_true_r. by apply (testbit_wrap_high v 63).
Qed.

Lemma clear_small v : 0 ≤ v < 2 ^ 63 → Z.land v (u64_not DELETED_BIT) = v.
Proof.
  intros Hv. change (u64_not DELETED_BIT) with (Z.ones 63). rewrite Z.land_ones by lia.
  by apply Z.mod_small.
Qed.

Lemma filter_all {A} (P : A → Prop) `{∀ x, Decision (P x)} (l : list A) : Forall P l → filter P l = l.
Proof. induction 1 as [|x l Hx Hl IH]; [done|]. rewrite filter_cons. case_decide; [by rewrite IH|done]. Qed.

Lemma map_clear vals :
  Forall (λ v, 0 ≤ v < 2 ^ 63) vals →
  map (λ v, Z.land v (u64_not DELETED_BIT)) (filter (λ v, is_live v = true) vals) = vals.
Proof.
  intros H. rewrite filter_all by (eapply Forall_impl; [done|]; intros; by apply live_small).
  induction H as [|v vals Hv Hvals IH]; [done|]. cbn [map]. by rewrite clear_small, IH.
Qed.

(** A slice of the values of a page, read back one by one. *)
Lemma page_slice p adjv s n :
  (∀ k, (k < length adjv)%nat → page_u64 p (12 + 8 * k) = word_at adjv k) →
  (s + n ≤ length adjv)%nat →
  map (λ j, page_u64 p (12 + 8 * s + j * 8)) (seq 0 n) = slice adjv s (s + n).
Proof.
  intros Hp Hn. apply list_eq. intros k. destruct (decide (k < n)%nat) as [Hk|Hk].
  - rewrite list_lookup_fmap, lookup_seq_lt by done. change (Some (page_u64 p (12 + 8 * s + k * 8)) = slice adjv s (s + n) !! k).
    rewrite lookup_slice by lia. replace (12 + 8 * s + k * 8)%nat with (12 + 8 * (s + k))%nat by lia.
    rewrite Hp by lia. unfold word_at.
    destruct (lookup_lt_is_Some_2 adjv (s + k)) as [v Hv]; [lia|]. by rewrite Hv.
  - rewrite !lookup_ge_None_2; [done|rewrite length_slice; lia|rewrite length_map, length_seq; lia].
Qed.

Lemma neighbor_loop_page fuel p rest adjv node dels (s e : nat) :
  (2 ≤ fuel)%nat → (s < e)%nat → (e ≤ length adjv)%nat → (length adjv ≤ 510)%nat →
  Forall (λ v, 0 ≤ v < 2 ^ 63) adjv →
  (∀ k, (k < length adjv)%nat → page_u64 p (12 + 8 * k) = word_at adjv k) →
  neighbor_loop fuel (p :: rest) node dels (Z.of_nat s) (Z.of_nat e)
  = Some (filter (λ n, (node, n) ∉ dels) (slice adjv s e)).
Proof.
  intros Hf Hse He Hl Hv Hp. destruct fuel as [|[|fuel]]; [lia..|].
  cbn [neighbor_loop]. rewrite decide_True by lia.
  destruct (first_page (Z.of_nat s)) as [-> Hoff]; [lia|]. rewrite Hoff.
  change (pin_page (p :: rest) 0) with p.
  assert (csr_offset_byte (Z.of_nat s) mod 4096 = 12 + 8 * Z.of_nat s) as ->.
  { rewrite csr_offset_byte_small by lia. apply Z.mod_small. lia. }
  assert ((4096 - (12 + 8 * Z.of_nat s)) / 8 = 510 - Z.of_nat s) as ->.
  { symmetry. apply (Z.div_unique _ _ _ 4); lia. }
  rewrite Z.min_l by lia. replace (Z.of_nat s + (Z.of_nat e - Z.of_nat s)) with (Z.of_nat e) by lia.
  rewrite decide_False by lia. rewrite app_nil_r, Nat2Z.id.
  replace (Z.to_nat (Z.of_nat e - Z.of_nat s)) with (e - s)%nat by lia.
  rewrite (page_slice p adjv s (e - s)) by (done || lia).
  replace (s + (e - s))%nat with e by lia. rewrite map_clear; [done|].
  unfold slice. by apply Forall_take, Forall_drop.
Qed.

(** The edges of [node] that are not deleted: what a lookup should return. *)
Definition edges_of (edges dels : list edge) (node : Z) : list Z :=
  map snd (filter (λ e : edge, fst e = node ∧ e ∉ dels) edges).

Lemma edges_of_app l l' dels node : edges_of (l ++ l') dels node = edges_of l dels node ++ edges_of l' dels node.
Proof. unfold edges_of. by rewrite list.filter_app, map_app. Qed.

Lemma edges_of_filter edges dels node :
  filter (λ n, (node, n) ∉ dels) (map snd (filter (λ e : edge, fst e = node) edges)) = edges_of edges dels node.
Proof.
  unfold edges_of. induction edges as [|[s d] edges IH]; [done|]. rewrite !filter_cons. simpl.
  destruct (decide (s = node)) as [->|Hne].
  - cbn [map snd]. rewrite filter_cons, IH. destruct (decide ((node, d) ∉ dels)).
    + by rewrite decide_True.
    + rewrite decide_False by tauto. done.
  - rewrite decide_False by tauto. done.
Qed.

Lemma slice_map {A B} (f : A → B) (l : list A) a b : slice (map f l) a b = map f (slice l a b).
Proof. unfold slice. by rewrite <- firstn_map, <- skipn_map. Qed.

(** The first pages hold the table and the targets of [edges]. *)
Record base_holds (po pa : list Z) (edges : list edge) (slots : nat) : Prop := {
  bh_off : ∀ k, (k < slots)%nat → page_u64 po (12 + 8 * k) = Z.of_nat (below edges (Z.of_nat k));
  bh_adj : ∀ k, (k < length edges)%nat →
    page_u64 pa (12 + 8 * k) = word_at (map snd (sort_by_src edges)) k;
  bh_len : (length edges ≤ 510)%nat;
  bh_ids : Forall (λ e : edge, 0 ≤ snd e < 2 ^ 63) edges;
}.

Lemma sorted_targets edges :
  Forall (λ e : edge, 0 ≤ snd e < 2 ^ 63) edges →
  Forall (λ v, 0 ≤ v < 2 ^ 63) (map snd (sort_by_src edges)) ∧
  length (map snd (sort_by_src edges)) = length edges.
Proof.
  intros H. rewrite Forall_map, length_map. split.
  - rewrite sort_by_src_perm. done.
  - by rewrite sort_by_src_perm.
Qed.

Lemma base_neighbors fuel po ro pa ra pend dels bc dc edges slots (n : nat) :
  (2 ≤ fuel)%nat → base_holds po pa edges slots → (n + 1 < slots)%nat → (n ≤ 508)%nat →
  for_each_base_neighbor fuel (mkCSR (po :: ro) (pa :: ra) pend dels bc dc) (Z.of_nat n)
  = Some (edges_of edges dels (Z.of_nat n)).
Proof.
  intros Hf [Ho Ha Hl Hids] Hn Hn508. destruct (sorted_targets edges Hids) as [Hv Hlen].
  unfold for_each_base_neighbor. cbn [offset_file adj_file pending_deletions].
  destruct (first_page (Z.of_nat n)) as [Hp _]; [lia|]. rewrite Hp.
  rewrite decide_False by (unfold get_num_pages; simpl; lia).
  rewrite u64_wrap_id by (unfold is_u64; lia).
  replace (Z.of_nat n + 1) with (Z.of_nat (n + 1)) by lia.
  rewrite !read_u64_at_page, !Ho by lia. rewrite Nat2Z.inj_add. change (Z.of_nat 1) with 1.
  pose proof (below_succ edges (Z.of_nat n)) as Hs.
  rewrite <- edges_of_filter, <- (sorted_row edges (Z.of_nat n)). case_decide as Hle.
  - rewrite slice_nil by lia. done.
  - rewrite (neighbor_loop_page fuel pa ra (map snd (sort_by_src edges))); rewrite ?Hlen; try done.
    + by rewrite slice_map.
    + lia.
    + apply below_le.
Qed.

Section built.
Context (crc32c : list Z → Z).
Hypothesis crc32c_u32 : ∀ b, 0 ≤ crc32c b < 2 ^ 32.

Definition built_offsets (off : pfile) (edges : list edge) (N : Z) : list Z :=
  csr_page crc32c (pin_page off 0) CSR_OFFSET_MAGIC (offset_table edges N).
Definition built_targets (adj : pfile) (edges : list edge) : list Z :=
  csr_page crc32c (pin_page adj 0) CSR_ADJ_MAGIC (map snd (sort_by_src edges)).

Lemma checked_slots_ok N : 0 ≤ N → N + 2 ≤ MAX_CSR_NODES → checked_offset_slots N = Ok (Z.to_nat (N + 2)).
Proof.
  intros HN HM. unfold checked_offset_slots. rewrite !decide_False; [done|lia|].
  assert (MAX_CSR_NODES = 134217728) by reflexivity. unfold u64_MAX. lia.
Qed.

Lemma build_ok off adj edges N :
  pages_ok off → pages_ok adj → 0 ≤ N ≤ 508 → (length edges ≤ 510)%nat →
  build crc32c off adj edges N = Ok (built_offsets off edges N :: tail off, built_targets adj edges :: tail adj).
Proof.
  intros Ho Ha HN Hl. unfold build. assert (MAX_CSR_NODES = 134217728) by reflexivity.
  rewrite checked_slots_ok by lia. cbn [outcome_bind].
  change (prefix_sums 0 (count_offsets N (sort_by_src edges) (replicate (Z.to_nat (N + 2)) 0)))
    with (offset_table edges N).
  rewrite write_csr_file_ok by (done || (rewrite offset_table_length; lia)). cbn [outcome_bind].
  rewrite write_csr_file_ok; [done|done|done|]. by rewrite length_map, sort_by_src_perm.
Qed.

Lemma offset_table_u64 edges N : 0 ≤ N → ids_ok N edges → (length edges ≤ 510)%nat →
  Forall is_u64 (offset_table edges N).
Proof.
  intros HN Hids Hl. apply Forall_lookup. intros k v Hk.
  pose proof (lookup_lt_Some _ _ _ Hk) as Hlt. rewrite offset_table_length in Hlt.
  pose proof (offset_table_at edges N k HN Hids Hlt) as E. unfold word_at in E. rewrite Hk in E.
  simpl in E. pose proof (below_le edges (Z.of_nat k)). unfold is_u64. lia.
Qed.

Lemma built_base off adj edges N :
  pages_ok off → pages_ok adj → 0 ≤ N ≤ 508 → (length edges ≤ 510)%nat → ids_ok N edges →
  base_holds (built_offsets off edges N) (built_targets adj edges) edges (Z.to_nat (N + 2)).
Proof.
  intros Ho Ha HN Hl Hids.
  assert (Forall (λ e : edge, 0 ≤ snd e < 2 ^ 63) edges) as Hd.
  { eapply Forall_impl; [done|]. simpl. tauto. }
  destruct (sorted_targets edges Hd) as [Hv Hlen]. split; [| |done|done].
  - intros k Hk. unfold built_offsets.
    rewrite csr_page_u64; rewrite ?offset_table_length;
      [|by apply pin_page_length|done|lia|apply offset_table_u64; done || lia|lia].
    rewrite decide_True by done. apply offset_table_at; done || lia.
  - intros k Hk. unfold built_targets.
    rewrite csr_page_u64; rewrite ?Hlen; [|by apply pin_page_length|done|done| |lia].
    + by rewrite decide_True.
    + eapply Forall_impl; [done|]. unfold is_u64. simpl. lia.
Qed.

(** C32. Lookups in a built index are exact.  Building from at most 510 edges
    over at most 509 nodes succeeds whatever the files held before; afterwards
    the neighbours of every covered node are its edges in insertion order, then
    its pending edges, without those whose deletion is pending. *)
Theorem build_neighbors off adj edges N pend dels bc dc fuel n :
  pages_ok off → pages_ok adj → 0 ≤ N ≤ 508 → (length edges ≤ 510)%nat → ids_ok N edges →
  0 ≤ n ≤ N → (2 ≤ fuel)%nat →
  ∃ off' adj', build crc32c off adj edges N = Ok (off', adj') ∧
    get_neighbors fuel (mkCSR off' adj' pend dels bc dc) n = Some (edges_of (edges ++ pend) dels n).
Proof.
  intros Ho Ha HN Hl Hids Hn Hf. eexists _, _. split; [by apply build_ok|].
  unfold get_neighbors. replace n with (Z.of_nat (Z.to_nat n)) by lia.
  rewrite (base_neighbors fuel _ _ _ _ pend dels bc dc edges (Z.to_nat (N + 2)));
    [|done|by apply built_base|lia|lia].
  rewrite edges_of_app. done.
Qed.

(** Building is safe exactly within one page: with more than 509 nodes or
    more than 510 edges (and no more nodes than the allocation limit) the raw
    copy of a value writes past the end of its 4096-byte frame. *)
Theorem build_overruns_frame off adj edges N :
  pages_ok off → pages_ok adj → 0 ≤ N → N + 2 ≤ MAX_CSR_NODES →
  (∃ r, build crc32c off adj edges N = Ok r) ↔ N ≤ 508 ∧ (length edges ≤ 510)%nat.
Proof.
  intros Ho Ha HN HM. split; [|intros [? ?]; eexists; apply build_ok; done || lia].
  intros [r Hr]. unfold build in Hr. rewrite checked_slots_ok in Hr by lia. cbn [outcome_bind] in Hr.
  change (prefix_sums 0 (count_offsets N (sort_by_src edges) (replicate (Z.to_nat (N + 2)) 0)))
    with (offset_table edges N) in Hr.
  destruct (decide (N ≤ 508)) as [HN'|HN'].
  - split; [done|]. rewrite write_csr_file_ok in Hr by (done || (rewrite offset_table_length; lia)).
    cbn [outcome_bind] in Hr. destruct (decide (length edges ≤ 510)%nat) as [|Hl]; [done|].
    rewrite write_csr_file_overrun in Hr; [done|done|done|].
    rewrite length_map, sort_by_src_perm. lia.
  - rewrite write_csr_file_overrun in Hr; [done|done|done|]. rewrite offset_table_length. lia.
Qed.
End built.

(** Past the page boundary a lookup hangs: when the stored offsets of a node
    put the 511th adjacency value in its range, the loop reaches it with no room
    left in the page, reads nothing and stays there, for any amount of fuel. *)
Theorem neighbors_hang fuel c n :
  csr_offset_byte n / 4096 < get_num_pages (offset_file c) →
  0 ≤ read_u64_at (offset_file c) (csr_offset_byte n) ≤ 510 →
  510 < read_u64_at (offset_file c) (csr_offset_byte (u64_wrap (n + 1))) →
  get_neighbors fuel c n = None.
Proof.
  intros Hp Hs He. unfold get_neighbors, for_each_base_neighbor.
  rewrite decide_False by lia. rewrite decide_False by lia.
  generalize dependent (read_u64_at (offset_file c) (csr_offset_byte n)). intros i Hi.
  assert (∀ i, 0 ≤ i ≤ 510 → neighbor_loop fuel (adj_file c) n (pending_deletions c) i
    (read_u64_at (offset_file c) (csr_offset_byte (u64_wrap (n + 1)))) = None) as ->; [|done|done].
  clear i Hi. induction fuel as [|fuel IH]; intros i Hi; [done|]. cbn [neighbor_loop].
  rewrite decide_True by lia.
  assert (csr_offset_byte i mod 4096 = 12 + 8 * i) as ->.
  { rewrite csr_offset_byte_small by lia. apply Z.mod_small. lia. }
  assert ((4096 - (12 + 8 * i)) / 8 = 510 - i) as ->.
  { symmetry. apply (Z.div_unique _ _ _ 4); lia. }
  rewrite IH by lia. done.
Qed.

(** ** Scanning what was built *)

Lemma count_nodes_spec l i r :
  (r ≤ i)%nat →
  (count_nodes i r l = r ∨
   ∃ j, count_nodes i r l = (i + S j)%nat ∧ (S j < length l)%nat ∧ word_at l j < word_at l (S j)) ∧
  ∀ j, (S j < length l)%nat → word_at l j < word_at l (S j) → (i + S j ≤ count_nodes i r l)%nat.
Proof.
  revert i r. induction l as [|a l IH]; intros i r Hr; [split; [by left|simpl; lia]|].
  destruct l as [|b l]; [split; [by left|simpl; lia]|].
  set (r' := if decide (a < b) then S i else r).
  change (count_nodes i r (a :: b :: l)) with (count_nodes (S i) r' (b :: l)).
  assert (r' ≤ S i)%nat as Hr' by (unfold r'; case_decide; lia).
  destruct (IH (S i) r' Hr') as [H1 H2]. split.
  - destruct H1 as [->|(j & -> & Hj & Hlt)].
    + unfold r'. destruct (decide (a < b)) as [Hab|]; [|by left]. right. exists 0%nat.
      split_and!; [lia|simpl; lia|done].
    + right. exists (S j). split_and!; [lia|cbn [length] in *; lia|done].
  - intros j Hj Hlt. destruct j as [|j].
    + destruct H1 as [->|(j & -> & _)]; [|lia]. unfold r'. rewrite decide_True by done. lia.
    + specialize (H2 j). cbn [length] in *. assert (S i + S j ≤ count_nodes (S i) r' (b :: l))%nat; [|lia].
      apply H2; [lia|done].
Qed.

(** All the values of a page. *)
Definition page_vals (p : list Z) : list Z := map (λ k, page_u64 p (12 + 8 * k)) (seq 0 510).

Lemma page_vals_at p k : (k < 510)%nat → page_vals p !! k = Some (page_u64 p (12 + 8 * k)).
Proof.
  intros Hk. unfold page_vals. rewrite list_lookup_fmap, lookup_seq_lt by done. done.
Qed.

Lemma page_vals_length p : length (page_vals p) = 510%nat.
Proof. unfold page_vals. by rewrite length_map, length_seq. Qed.

Lemma page_vals_take p vals :
  (length vals ≤ 510)%nat → (∀ k, (k < length vals)%nat → page_u64 p (12 + 8 * k) = word_at vals k) →
  take (length vals) (page_vals p) = vals.
Proof.
  intros Hl Hp. apply list_eq. intros k. destruct (decide (k < length vals)%nat) as [Hk|Hk].
  - rewrite lookup_take_lt, page_vals_at, Hp by lia. unfold word_at.
    destruct (lookup_lt_is_Some_2 vals k Hk) as [v ->]. done.
  - rewrite !lookup_ge_None_2; [done|lia|]. rewrite length_take, page_vals_length. lia.
Qed.

(** A batch read within the first page. *)
Lemma read_batch_page p rest n :
  (0 < n ≤ 510)%nat →
  read_u64_batch (p :: rest) 12 (12 + 8 * Z.of_nat n) = take n (page_vals p).
Proof.
  intros Hn. unfold read_u64_batch. rewrite decide_False by lia.
  rewrite Z.min_l by (unfold get_num_pages; simpl; lia). rewrite decide_False by lia.
  assert (∃ k, Z.to_nat (12 + 8 * Z.of_nat n - 12) = S (S k)) as [fuel ->] by (exists (8 * n - 2)%nat; lia).
  cbn [read_batch_loop]. rewrite decide_True by lia.
  change (12 mod 4096) with 12. change (12 / 4096) with 0.
  rewrite Z.min_r by lia. rewrite decide_False by lia. rewrite app_nil_r.
  replace ((12 + 8 * Z.of_nat n - 12) / 8) with (Z.of_nat n) by (apply (Z.div_unique _ _ _ 0); lia).
  rewrite Nat2Z.id. change (pin_page (p :: rest) 0) with p. change (Z.to_nat 12) with 12%nat.
  apply list_eq. intros k. destruct (decide (k < n)%nat) as [Hk|Hk].
  - rewrite lookup_take_lt, page_vals_at by lia. rewrite list_lookup_fmap, lookup_seq_lt by done.
    cbn [fmap option_fmap option_map]. do 2 f_equal. lia.
  - rewrite !lookup_ge_None_2; [done| |]; rewrite ?length_take, ?page_vals_length, ?length_map, ?length_seq; lia.
Qed.

(** The scan of a table reads to the end of its page. *)
Lemma read_table_page p :
  read_u64_batch [p] 12 4096 = page_vals p.
Proof.
  unfold read_u64_batch. rewrite decide_False by lia. change (get_num_pages [p] * 4096) with 4096.
  rewrite Z.min_id, decide_False by lia.
  assert (∃ k, Z.to_nat (4096 - 12) = S (S k)) as [fuel ->] by (exists (Z.to_nat 4082); lia).
  cbn [read_batch_loop].
  rewrite decide_True by lia. change (12 mod 4096) with 12. change (12 / 4096) with 0.
  change ((4096 - 12) `min` (4096 - 12)) with 4084. rewrite decide_False by lia. rewrite app_nil_r.
  change (Z.to_nat (4084 / 8)) with 510%nat. change (pin_page [p] 0) with p.
  change (Z.to_nat 12) with 12%nat. unfold page_vals. apply map_ext. intros k. f_equal. lia.
Qed.

Lemma below_mono edges a b : a ≤ b → (below edges a ≤ below edges b)%nat.
Proof.
  intros Hab. unfold below. induction edges as [|e edges IH]; [done|]. rewrite !filter_cons.
  repeat case_decide; simpl; lia.
Qed.

Lemma pair_snd_row edges n :
  map (pair n) (map snd (filter (λ e : edge, fst e = n) edges)) = filter (λ e : edge, fst e = n) edges.
Proof.
  induction edges as [|[s d] edges IH]; [done|]. rewrite filter_cons. simpl. case_decide; [|done].
  cbn [map snd]. by rewrite IH, H.
Qed.

Lemma scan_rows_spec n src edges adjv offs slots :
  adjv = map snd (sort_by_src edges) → Forall (λ e : edge, 0 ≤ snd e < 2 ^ 63) edges →
  (∀ k, (k < slots)%nat → word_at offs k = Z.of_nat (below edges (Z.of_nat k))) →
  (slots ≤ length offs)%nat → (src + n < slots)%nat →
  scan_rows n src (below edges (Z.of_nat src)) offs adjv
  = slice (sort_by_src edges) (below edges (Z.of_nat src)) (below edges (Z.of_nat (src + n))).
Proof.
  intros Hadj Hids Ho Hlen. revert src. induction n as [|n IH]; intros src Hn; cbn [scan_rows].
  { rewrite Nat.add_0_r, slice_nil; done. }
  rewrite decide_False by lia. rewrite Ho, Nat2Z.id by lia.
  destruct (sorted_targets edges Hids) as [Hv Hl]. rewrite <- Hadj in Hl, Hv.
  rewrite Nat.min_l by (rewrite Hl; apply below_le).
  replace (src + 1)%nat with (S src) by lia. rewrite IH by lia.
  rewrite (slice_split _ (below edges (Z.of_nat src)) (below edges (Z.of_nat (S src)))
             (below edges (Z.of_nat (src + S n)))) by (apply below_mono; lia).
  f_equal; [|do 3 f_equal; lia]. rewrite Nat2Z.inj_succ, <- Z.add_1_r.
  rewrite Hadj, slice_map, sorted_row, filter_all.
  - apply pair_snd_row.
  - apply Forall_map, Forall_forall. intros e [_ He]%list_elem_of_filter.
    rewrite Forall_forall in Hids. by apply live_small, Hids.
Qed.

(** Nothing but zeros behind the table. *)
Definition clean (po : list Z) (slots : nat) : Prop :=
  ∀ k, (slots ≤ k < 510)%nat → page_u64 po (12 + 8 * k) = 0.

(** On a clean table the last non-empty row is found, and it ends the edges. *)
Lemma count_nodes_table po pa edges slots :
  base_holds po pa edges slots → clean po slots → (2 ≤ slots ≤ 510)%nat →
  ids_ok (Z.of_nat slots - 2) edges →
  let m := count_nodes 0 0 (page_vals po) in
  (m < slots)%nat ∧ below edges (Z.of_nat m) = length edges ∧
  word_at (page_vals po) m = Z.of_nat (length edges).
Proof.
  intros [Ho _ _ _] Hc Hs Hids m.
  assert (∀ k, (k < 510)%nat → word_at (page_vals po) k =
    if decide (k < slots)%nat then Z.of_nat (below edges (Z.of_nat k)) else 0) as Hw.
  { intros k Hk. unfold word_at. rewrite page_vals_at by done. simpl. case_decide; [by apply Ho|apply Hc; lia]. }
  destruct (count_nodes_spec (page_vals po) 0 0 (le_n 0)) as [H1 H2]. fold m in H1, H2.
  rewrite page_vals_length in *.
  assert (m < slots)%nat as Hm.
  { destruct H1 as [->|(j & -> & Hj & Hlt)]; [lia|]. rewrite !Hw in Hlt by lia.
    repeat case_decide; lia. }
  assert (below edges (Z.of_nat m) = length edges) as Hall.
  { apply below_all, Forall_forall. intros e He.
    pose proof (proj1 (Forall_forall _ _) Hids e He) as Hr. simpl in Hr.
    assert (Z.to_nat (fst e) + 1 ≤ m)%nat; [|lia]. replace (Z.to_nat (fst e) + 1)%nat with (0 + S (Z.to_nat (fst e)))%nat by lia.
    apply H2; [lia|]. rewrite !Hw by lia. rewrite !decide_True by lia.
    rewrite Nat2Z.inj_succ, <- Z.add_1_r, below_succ. rewrite Z2Nat.id by lia.
    assert (e ∈ filter (λ x : edge, fst x = fst e) edges) as Hin by (by apply list_elem_of_filter).
    destruct (filter _ edges); [by apply not_elem_of_nil in Hin|simpl; lia]. }
  split_and!; [done|done|]. rewrite Hw, decide_True by lia. by rewrite Hall.
Qed.

Section scanned.
Context (crc32c : list Z → Z).
Hypothesis crc32c_u32 : ∀ b, 0 ≤ crc32c b < 2 ^ 32.

Lemma scan_clean po pa ra pend dels bc dc edges slots :
  base_holds po pa edges slots → clean po slots → (2 ≤ slots ≤ 510)%nat →
  ids_ok (Z.of_nat slots - 2) edges →
  validate_csr_header crc32c po CSR_OFFSET_MAGIC = Ok tt →
  validate_csr_header crc32c pa CSR_ADJ_MAGIC = Ok tt →
  scan_edges_from_csr crc32c (mkCSR [po] (pa :: ra) pend dels bc dc) = Ok (sort_by_src edges).
Proof.
  intros Hb Hc Hs Hids Vo Va. destruct (count_nodes_table po pa edges slots Hb Hc Hs Hids) as (Hm & Hall & Ht).
  destruct Hb as [Ho Ha Hl Hd]. destruct (sorted_targets edges Hd) as [Hv Hlen].
  unfold scan_edges_from_csr. cbn [offset_file adj_file].
  change (get_num_pages [po]) with 1. rewrite decide_False by lia.
  change (pin_page [po] 0) with po. rewrite Vo. cbn [outcome_bind].
  change (pin_page (pa :: ra) 0) with pa. rewrite Va.
  rewrite decide_True by (unfold get_num_pages; simpl; lia). cbn [outcome_bind].
  change (csr_offset_byte ((0 `max` (1 * 4096 - CSR_HEADER_SIZE)) / 8 + 1) `min` (1 * 4096)) with 4096.
  unfold CSR_HEADER_SIZE. rewrite read_table_page.
  set (m := count_nodes 0 0 (page_vals po)) in *.
  rewrite page_vals_length. rewrite decide_False by lia.
  replace (default 0 (page_vals po !! m)) with (Z.of_nat (length edges)) by (by rewrite <- Ht).
  destruct edges as [|e0 edges0] eqn:Ee; [by rewrite decide_True|rewrite <- Ee in *].
  assert (0 < length edges)%nat by (rewrite Ee; simpl; lia). rewrite decide_False by lia.
  rewrite !Z.min_l by (unfold u64_MAX; lia).
  replace (12 + Z.of_nat (length edges) * 8) with (12 + 8 * Z.of_nat (length edges)) by lia.
  rewrite read_batch_page by lia.
  assert (take (length edges) (page_vals pa) = map snd (sort_by_src edges)) as ->.
  { rewrite <- Hlen. apply page_vals_take; rewrite Hlen; done. }
  assert (0%nat = below edges (Z.of_nat 0)) as E0.
  { symmetry. apply below_none. eapply Forall_impl; [done|]. simpl. lia. }
  rewrite E0 at 2. rewrite (scan_rows_spec m 0 edges _ _ slots); try done.
  - rewrite Nat.add_0_l, Hall, <- E0. f_equal.
    replace (length edges) with (length (sort_by_src edges)) by (by rewrite sort_by_src_perm). apply slice_all.
  - intros k Hk. unfold word_at. rewrite page_vals_at by lia. simpl. by apply Ho.
  - rewrite page_vals_length. lia.
Qed.
End scanned.

(** ** The index over its life *)

Lemma max_src_ok N edges :
  0 ≤ N → ids_ok N edges → 0 ≤ max_src edges ≤ N ∧ ids_ok (max_src edges) edges.
Proof.
  intros HN Hids. assert (0 ≤ max_src edges ≤ N) as HM.
  { induction Hids as [|e edges He Hids IH]; simpl; lia. }
  split; [done|]. unfold ids_ok in *. rewrite Forall_forall in *. intros e He.
  specialize (Hids e He). simpl in *. split; [|tauto]. split; [tauto|].
  clear -He. induction edges as [|x edges IH]; [by apply not_elem_of_nil in He|].
  apply elem_of_cons in He as [->|He]; simpl; [lia|]. specialize (IH He). lia.
Qed.

Section life.
Context (crc32c : list Z → Z).
Hypothesis crc32c_u32 : ∀ b, 0 ≤ crc32c b < 2 ^ 32.

(** An index whose base holds [edges] over the nodes up to [N], and nothing
    behind its table. *)
Record csr_ok (c : CSRIndex) (edges : list edge) (N : Z) : Prop := {
  ok_files : ∃ po pa ra, offset_file c = [po] ∧ adj_file c = pa :: ra ∧ pages_ok (po :: pa :: ra) ∧
    base_holds po pa edges (Z.to_nat (N + 2)) ∧ clean po (Z.to_nat (N + 2)) ∧
    validate_csr_header crc32c po CSR_OFFSET_MAGIC = Ok tt ∧
    validate_csr_header crc32c pa CSR_ADJ_MAGIC = Ok tt;
  ok_nodes : 0 ≤ N ≤ 508;
  ok_ids : ids_ok N edges;
}.

Lemma zero_page_u64 k : page_u64 zero_page (12 + 8 * k) = 0.
Proof.
  unfold page_u64, zero_page. assert (∀ n, of_le (replicate n 0) = 0) as H.
  { induction n as [|n IH]; [done|]. cbn [replicate]. change (of_le (0 :: replicate n 0))
      with (Z.lor 0 (Z.shiftl (of_le (replicate n 0)) 8)). by rewrite IH. }
  unfold slice. rewrite drop_replicate, take_replicate. apply H.
Qed.

(** Building over an empty or a clean, smaller index. *)
Lemma build_csr_ok off adj edges N pend dels bc dc :
  (off = [] ∨ ∃ po slots, off = [po] ∧ length po = PAGE_SIZE ∧ clean po slots ∧ (slots ≤ Z.to_nat (N + 2))%nat) →
  pages_ok adj → 0 ≤ N ≤ 508 → (length edges ≤ 510)%nat → ids_ok N edges →
  ∃ off' adj', build crc32c off adj edges N = Ok (off', adj') ∧
    csr_ok (mkCSR off' adj' pend dels bc dc) edges N.
Proof.
  intros Hoff Ha HN Hl Hids.
  assert (pages_ok off) as Ho.
  { destruct Hoff as [->|(po & ? & -> & ? & _)]; repeat constructor. done. }
  eexists _, _. split; [by apply build_ok|]. split; [|done|done].
  assert (length (pin_page off 0) = PAGE_SIZE) as Hp by (by apply pin_page_length).
  assert (length (pin_page adj 0) = PAGE_SIZE) as Hp' by (by apply pin_page_length).
  assert (length (offset_table edges N) ≤ 510)%nat as Ht by (rewrite offset_table_length; lia).
  assert (length (map snd (sort_by_src edges)) ≤ 510)%nat as Ht' by (by rewrite length_map, sort_by_src_perm).
  eexists _, _, _. split_and!; [by destruct Hoff as [->|(? & ? & -> & _)]|done|..].
  - repeat constructor; [by apply csr_page_length..|]. destruct adj; [constructor|by inversion Ha].
  - by apply built_base.
  - intros k Hk. unfold built_offsets. rewrite csr_page_u64; rewrite ?offset_table_length; try done; [|lia| |lia].
    + rewrite decide_False by lia. destruct Hoff as [->|(po & slots & -> & _ & Hc & Hs)].
      * apply zero_page_u64.
      * apply Hc. lia.
    + apply offset_table_u64; done || lia.
  - by apply csr_page_valid.
  - by apply csr_page_valid.
Qed.

Lemma edges_of_none edges dels n : (∀ e, e ∈ edges → fst e ≠ n) → edges_of edges dels n = [].
Proof. intros H. unfold edges_of. rewrite filter_none; [done|]. intros e He [? _]. by eapply H. Qed.

Lemma csr_ok_neighbors c edges N fuel n :
  csr_ok c edges N → (2 ≤ fuel)%nat → 0 ≤ n ≤ 508 →
  get_neighbors fuel c n = Some (edges_of (edges ++ pending_edges c) (pending_deletions c) n).
Proof.
  intros [(po & pa & ra & Eo & Ea & _ & Hb & Hc & _) HN Hids] Hf Hn. destruct c as [off adj pend dels bc dc].
  cbn in Eo, Ea. subst off adj. unfold get_neighbors. rewrite edges_of_app.
  assert (for_each_base_neighbor fuel (mkCSR [po] (pa :: ra) pend dels bc dc) n = Some (edges_of edges dels n))
    as ->; [|done].
  destruct (decide (n ≤ N)) as [HnN|HnN].
  - replace n with (Z.of_nat (Z.to_nat n)) by lia.
    apply (base_neighbors fuel _ _ _ _ _ _ _ _ _ (Z.to_nat (N + 2))); done || lia.
  - rewrite edges_of_none.
    2: { intros e He. pose proof (proj1 (Forall_forall _ _) Hids e He) as H. simpl in H. lia. }
    unfold for_each_base_neighbor. cbn [offset_file adj_file pending_deletions].
    case_decide; [done|]. rewrite u64_wrap_id by (unfold is_u64; lia).
    assert (∀ k, 0 ≤ k ≤ 509 → read_u64_at [po] (csr_offset_byte k) = page_u64 po (12 + 8 * Z.to_nat k)) as Hr.
    { intros k Hk. rewrite <- (read_u64_at_page po []) by lia. by rewrite Z2Nat.id by lia. }
    rewrite !Hr, (Hc (Z.to_nat (n + 1))) by lia.
    rewrite decide_True; [done|]. destruct (decide (n = N + 1)) as [->|].
    + destruct Hb as [Ho _ _ _]. rewrite Ho by lia. lia.
    + rewrite Hc by lia. done.
Qed.

Lemma csr_ok_scan c edges N : csr_ok c edges N → scan_edges_from_csr crc32c c = Ok (sort_by_src edges).
Proof.
  intros [(po & pa & ra & Eo & Ea & _ & Hb & Hc & Vo & Va) HN Hids]. destruct c as [off adj pend dels bc dc].
  cbn in Eo, Ea. subst off adj. apply (scan_clean crc32c _ _ _ _ _ _ _ _ (Z.to_nat (N + 2))); try done; [lia|].
  eapply Forall_impl; [done|]. simpl. lia.
Qed.

(** Build and scan round trip: scanning a freshly built index returns the
    edges it was built from, each exactly as often, grouped by source with the
    edges of a source in their original order. *)
Theorem build_scan_roundtrip edges N :
  0 ≤ N ≤ 508 → (length edges ≤ 510)%nat → ids_ok N edges →
  ∃ off adj edges', build crc32c [] [] edges N = Ok (off, adj) ∧
    scan_edges_from_csr crc32c (csr_new off adj) = Ok edges' ∧
    edges' ≡ₚ edges ∧ src_sorted edges' ∧
    ∀ n, filter (λ e : edge, fst e = n) edges' = filter (λ e : edge, fst e = n) edges.
Proof.
  intros HN Hl Hids.
  destruct (build_csr_ok [] [] edges N [] [] 0 0) as (off & adj & Hb & Hok); try done; [by left|constructor|].
  exists off, adj, (sort_by_src edges). split_and!; [done| | | |].
  - by apply (csr_ok_scan _ edges N).
  - apply sort_by_src_perm.
  - apply sort_by_src_sorted.
  - intros n. apply sort_by_src_filter.
Qed.

(** The edges a compaction keeps. *)
Definition live_edges (c : CSRIndex) (edges : list edge) : list edge :=
  filter (λ e, e ∉ pending_deletions c) (sort_by_src edges ++ pending_edges c).

Lemma csr_ok_collect c edges N :
  csr_ok c edges N → collect_all_edges crc32c c = Ok (live_edges c edges).
Proof.
  intros Hok. unfold collect_all_edges. rewrite (csr_ok_scan c edges N Hok). cbn [outcome_bind].
  unfold live_edges. case_decide as Hd; [done|]. f_equal. symmetry. apply filter_all, Forall_forall.
  intros e _. destruct (pending_deletions c); [set_solver|done].
Qed.

Lemma live_edges_of c edges n :
  edges_of (live_edges c edges) [] n = edges_of (edges ++ pending_edges c) (pending_deletions c) n.
Proof.
  rewrite edges_of_app. unfold live_edges. rewrite list.filter_app, edges_of_app.
  assert (∀ l, edges_of (filter (λ e, e ∉ pending_deletions c) l) [] n
               = edges_of l (pending_deletions c) n) as Hf.
  { intros l. unfold edges_of. f_equal. rewrite list_filter_filter. apply list_filter_iff.
    intros e. rewrite elem_of_nil. tauto. }
  rewrite !Hf. f_equal. rewrite <- !edges_of_filter. by rewrite sort_by_src_filter.
Qed.

(** Compaction keeps the graph: rebuilding the base from base, pending
    insertions and pending deletions succeeds, clears what was pending, and
    leaves the neighbours of every node up to the largest remaining source
    unchanged, order included. *)
Theorem compact_preserves_neighbors c edges N :
  csr_ok c edges N →
  let all := live_edges c edges in
  all ≠ [] → (length all ≤ 510)%nat → ids_ok 508 all →
  ∃ c', compact crc32c c = Ok c' ∧ pending_edges c' = [] ∧ pending_deletions c' = [] ∧
    base_edge_count c' = Z.of_nat (length all) ∧
    ∀ fuel n, (2 ≤ fuel)%nat → 0 ≤ n ≤ max_src all → get_neighbors fuel c' n = get_neighbors fuel c n.
Proof.
  intros Hok all Hne Hl Hids. unfold compact. rewrite (csr_ok_collect c edges N Hok). cbn [outcome_bind].
  fold all. rewrite decide_False by done.
  assert (0 ≤ max_src all ≤ 508 ∧ ids_ok (max_src all) all) as [HM Hids'] by (by apply max_src_ok).
  pose proof Hok as [(po & pa & ra & Eo & Ea & Hp & _) _ _].
  assert (pages_ok (offset_file c)) as Ho by (rewrite Eo; constructor; [by inversion Hp|constructor]).
  assert (pages_ok (adj_file c)) as Ha by (rewrite Ea; by inversion Hp).
  rewrite build_ok by done. cbn [outcome_bind fst snd]. eexists. split_and!; try done.
  intros fuel n Hf Hn. rewrite (csr_ok_neighbors c edges N fuel n Hok Hf) by lia.
  unfold get_neighbors. replace n with (Z.of_nat (Z.to_nat n)) by lia.
  rewrite (base_neighbors fuel _ _ _ _ [] [] _ _ all (Z.to_nat (max_src all + 2)));
    [|done|by apply built_base|lia|lia].
  unfold for_each_pending_neighbor. cbn [pending_edges pending_deletions]. rewrite app_nil_r.
  f_equal. apply live_edges_of.
Qed.
End life.

(** ** Where the index departs from the graph *)

Lemma neighbor_loop_undeleted fuel adj node dels i e r n :
  neighbor_loop fuel adj node dels i e = Some r → n ∈ r → (node, n) ∉ dels.
Proof.
  revert i r. induction fuel as [|fuel IH]; intros i r; [done|]. cbn [neighbor_loop].
  case_decide; [|intros [= <-] Hn; by apply not_elem_of_nil in Hn].
  destruct (neighbor_loop fuel adj node dels _ e) as [rest|] eqn:E; [|done].
  intros [= <-] [Hn|Hn]%elem_of_app; [|by eapply IH]. by apply list_elem_of_filter in Hn as [? _].
Qed.

Lemma neighbors_undeleted fuel c node r n :
  get_neighbors fuel c node = Some r → n ∈ r → (node, n) ∉ pending_deletions c.
Proof.
  unfold get_neighbors. destruct (for_each_base_neighbor fuel c node) as [base|] eqn:E; [|done].
  intros [= <-] [Hn|Hn]%elem_of_app.
  - unfold for_each_base_neighbor in E. repeat case_decide; simplify_eq/=; try (by apply not_elem_of_nil in Hn).
    by eapply neighbor_loop_undeleted.
  - unfold for_each_pending_neighbor in Hn. apply list_elem_of_fmap in Hn as ([s d] & -> & Hn).
    apply list_elem_of_filter in Hn as [[<- Hd] _]. done.
Qed.

(** An edge inserted after its deletion is not there: a pending deletion
    hides every copy of the edge, the later insertion included, so no lookup
    returns it before the next compaction, in any state of the index. *)
Theorem reinserted_edge_lost fuel c src dst r :
  get_neighbors fuel (insert_edge (delete_edge c src dst) src dst) src = Some r → dst ∉ r.
Proof.
  intros Hr Hin. apply (neighbors_undeleted _ _ _ _ _ Hr Hin). cbn [insert_edge delete_edge pending_deletions].
  set_solver.
Qed.

(** A checksum for examples. *)
Definition crc_zero (b : list Z) : Z := 0.
Lemma crc_zero_u32 b : 0 ≤ crc_zero b < 2 ^ 32.
Proof. unfold crc_zero. lia. Qed.

(** Nodes 0 and 5 with one edge each. *)
Definition small_graph : list edge := [(0, 1); (5, 7)].
Definition small_csr : CSRIndex :=
  match build crc_zero [] [] small_graph 5 with Ok (off, adj) => csr_new off adj | _ => csr_new [] [] end.

(** Compaction can bring a deleted edge back.  The rebuilt table covers the
    nodes up to the largest remaining source only, and the old offsets behind it
    stay on the page: after deleting the only edge of node 5 and compacting, the
    edge is among its neighbours again, and a scan returns it. *)
Theorem compact_resurrects_edge :
  let c := delete_edge small_csr 5 7 in
  get_neighbors 2 small_csr 5 = Some [7] ∧ get_neighbors 2 c 5 = Some [] ∧
  ∃ c', compact crc_zero c = Ok c' ∧ get_neighbors 2 c' 5 = Some [7] ∧
    scan_edges_from_csr crc_zero c' = Ok [(0, 1); (5, 7)].
Proof.
  intros c. split; [by vm_compute|]. split; [by vm_compute|].
  destruct (compact crc_zero c) as [c'| |] eqn:E; [|by vm_compute in E..].
  exists c'. split; [done|].
  assert (match compact crc_zero c with
          | Ok c' => bool_decide (get_neighbors 2 c' 5 = Some [7]) &&
                     match scan_edges_from_csr crc_zero c' with
                     | Ok es => bool_decide (es = [(0, 1); (5, 7)]) | _ => false end
          | _ => false end = true) as H by (by vm_compute).
  rewrite E in H. apply andb_true_iff in H as [H1 H2]. apply bool_decide_eq_true in H1. split; [done|].
  destruct (scan_edges_from_csr crc_zero c'); [|done..]. by apply bool_decide_eq_true in H2 as ->.
Qed.

(** ** Instances at concrete inputs *)

Lemma small_csr_ok : csr_ok crc_zero small_csr small_graph 5.
Proof.
  destruct (build_csr_ok crc_zero crc_zero_u32 [] [] small_graph 5 [] [] 0 0) as (off & adj & Hb & Hok);
    [by left|constructor|lia|simpl; lia|by_compute|].
  unfold small_csr. by rewrite Hb.
Qed.

Lemma build_neighbors_witness :
  ∃ off adj, build crc_zero [] [] small_graph 5 = Ok (off, adj) ∧
    get_neighbors 2 (mkCSR off adj [(5, 9)] [(5, 7)] 0 0) 5 = Some [9].
Proof.
  apply (build_neighbors crc_zero [] [] small_graph 5 [(5, 9)] [(5, 7)] 0 0 2 5);
    [constructor|constructor|lia|simpl; lia|by_compute|lia|lia].
Defined.

Lemma build_overruns_frame_witness :
  ¬ ∃ r, build crc_zero [] [] [] 509 = Ok r.
Proof.
  rewrite (build_overruns_frame crc_zero [] [] [] 509); [lia|constructor|constructor|lia|].
  vm_compute. discriminate.
Defined.

Lemma neighbors_hang_witness :
  let off := [splice zero_page 12 (u64s [0; 600])] in
  get_neighbors 100000 (csr_new off [zero_page]) 0 = None.
Proof.
  intros off. apply neighbors_hang; [vm_compute; reflexivity|..]; vm_compute; split; discriminate.
Defined.

Lemma build_scan_roundtrip_witness :
  ∃ off adj edges', build crc_zero [] [] [(3, 4); (0, 1); (0, 2)] 3 = Ok (off, adj) ∧
    scan_edges_from_csr crc_zero (csr_new off adj) = Ok edges' ∧ edges' ≡ₚ [(3, 4); (0, 1); (0, 2)].
Proof.
  destruct (build_scan_roundtrip crc_zero crc_zero_u32 [(3, 4); (0, 1); (0, 2)] 3)
    as (off & adj & es & H1 & H2 & H3 & _); [lia|simpl; lia|by_compute|].
  by exists off, adj, es.
Defined.

Lemma compact_preserves_neighbors_witness :
  let c := insert_edge small_csr 5 8 in
  ∃ c', compact crc_zero c = Ok c' ∧ get_neighbors 2 c' 5 = get_neighbors 2 c 5.
Proof.
  intros c. assert (csr_ok crc_zero c small_graph 5) as Hok by (by destruct small_csr_ok).
  destruct (compact_preserves_neighbors crc_zero crc_zero_u32 c small_graph 5 Hok) as (c' & H1 & _ & _ & _ & H2);
    [by vm_compute|by_compute|by_compute|].
  exists c'. split; [done|]. apply H2; [lia|by_compute].
Defined.

Lemma reinserted_edge_lost_witness :
  ∃ r, get_neighbors 2 (insert_edge (delete_edge small_csr 0 1) 0 1) 0 = Some r ∧ r = [] ∧ 1 ∉ r.
Proof.
  exists []. split; [by vm_compute|]. split; [done|].
  apply (reinserted_edge_lost 2 small_csr 0 1). by vm_compute.
Defined.
