(* ===== verification/Trigram.v ===== *)
(** * Trigram index (storage/index/trigram_index.rs)

    An inverted index from the one-, two- and three-byte substrings of the
    indexed values to sorted lists of row ids, used to answer CONTAINS.  The
    three maps share one shape, [postings]; a gram is a list of bytes.  Ratios
    are IEEE doubles ([SpecFloat], 53-bit significand).  The main result is that
    a query never misses a row. *)
From stdpp Require Import base list gmap sorting numbers relations.
From Stdlib Require Import ZArith Lia Bool.
From Stdlib Require Import Floats.SpecFloat.
From S2P Require Import Prelude.

(** ** Doubles *)

Abbreviation f64 := spec_float.
Definition f64_of_u64 (z : Z) : f64 := binary_normalize 53 1024 z 0 false.
Definition f64_div (a b : f64) : f64 := SFdiv 53 1024 a b.
Definition f64_lt (a b : f64) : bool := SFltb a b.
Definition f64_zero : f64 := S754_zero false.
Definition f64_one : f64 := f64_of_u64 1.
Definition f64_half : f64 := S754_finite false 4503599627370496 (-53).
Definition f64_three_tenths : f64 := S754_finite false 5404319552844595 (-54).

(** ** Constants and state *)

(** The counters are 64-bit atomics; each is bounded by the number of grams held
    in memory, so they are kept as unbounded integers. *)

Definition DEFAULT_CANDIDATE_THRESHOLD_RATIO : f64 := f64_half.
Definition MIN_CANDIDATES_TO_USE_INDEX : Z := 100.
Definition SMALL_TABLE_ROW_COUNT : Z := 1000.
Definition SHORT_PATTERN_TABLE_SIZE : Z := 10000.
Definition LARGE_TABLE_ROW_COUNT : Z := 100000.
Definition LARGE_TABLE_THRESHOLD_RATIO : f64 := f64_three_tenths.

Record TrigramStats := mkStats {
  st_total_rows : Z;
  st_total_trigrams : Z;
  st_avg_posting_list_size : f64;
  st_max_posting_list_size : Z;
}.

Abbreviation postings := (gmap (list Z) (list Z)).

Record TrigramIndex := mkIndex {
  trigrams : postings;
  bigrams : postings;
  unigrams : postings;
  column_name : list Z;
  total_rows : Z;
  total_trigrams : Z;
  posting_size_sum : Z;
  max_posting_size : Z;
}.

Record TrigramQueryResult := mkResult {
  candidates : list Z;
  use_index : bool;
  estimated_ratio : f64;
}.

Definition result_default : TrigramQueryResult := mkResult [] false f64_zero.

Definition trigram_index_new (name : list Z) : TrigramIndex := mkIndex ∅ ∅ ∅ name 0 0 0 0.
(** [Default::default]: a column without a name. *)
Definition trigram_index_default : TrigramIndex := trigram_index_new [].

Definition trigram_count (ix : TrigramIndex) : nat := size (trigrams ix).
Definition total_postings (ix : TrigramIndex) : nat :=
  foldr (λ p n, length (snd p) + n) 0 (map_to_list (trigrams ix)).

Definition index_stats (ix : TrigramIndex) : TrigramStats :=
  let posting_count := Z.of_nat (trigram_count ix) in
  mkStats (total_rows ix) (total_trigrams ix)
    (if decide (0 < posting_count)%Z
     then f64_div (f64_of_u64 (posting_size_sum ix)) (f64_of_u64 posting_count) else f64_zero)
    (max_posting_size ix).

(** ** Grams *)

(** [bytes.windows(n)] *)
Fixpoint windows (n : nat) (s : list Z) : list (list Z) :=
  match s with
  | [] => []
  | _ :: s' => if decide (n ≤ length s) then take n s :: windows n s' else []
  end.

Definition extract_trigrams (s : list Z) : list (list Z) :=
  if decide (length s < 3) then [] else windows 3 s.
Definition extract_bigrams (s : list Z) : list (list Z) :=
  if decide (length s < 2) then [] else windows 2 s.
Definition extract_unigrams (s : list Z) : list (list Z) := map (λ b, [b]) s.

(** ** Posting lists *)

(** [slice::binary_search]: the position of [x], or where it would go. *)
Inductive search_result := Found (pos : nat) | Missing (pos : nat).

Fixpoint bisect (fuel : nat) (l : list Z) (x : Z) (lo hi : nat) : search_result :=
  match fuel with
  | O => Missing lo
  | S fuel =>
      if decide (lo < hi) then
        let mid := (lo + hi) / 2 in
        let y := word_at l mid in
        if decide (y = x) then Found mid
        else if decide (y < x)%Z then bisect fuel l x (mid + 1) hi else bisect fuel l x lo mid
      else Missing lo
  end.
Definition binary_search (l : list Z) (x : Z) : search_result :=
  bisect (S (length l)) l x 0 (length l).

(** The body of the loops of [insert]: keep the list sorted and free of
    duplicates. *)
Definition posting_insert (row_id : Z) (l : list Z) : list Z :=
  if decide (last l = Some row_id) then l
  else match binary_search l row_id with
       | Found _ => l
       | Missing pos => take pos l ++ row_id :: drop pos l
       end.

Definition insert_gram (row_id : Z) (m : postings) (g : list Z) : postings :=
  <[g := posting_insert row_id (default [] (m !! g))]> m.

(** [record_posting_stats]: the running sum and maximum. *)
Definition record_posting_stats (old_len new_len : nat) (sm : Z * Z) : Z * Z :=
  ((if decide (old_len < new_len) then (fst sm + Z.of_nat (new_len - old_len))%Z else fst sm),
   (snd sm `max` Z.of_nat new_len)%Z).

(** The trigram loop also keeps the statistics. *)
Definition insert_trigram (row_id : Z) (s : postings * (Z * Z)) (g : list Z) : postings * (Z * Z) :=
  let old_len := length (default [] (fst s !! g)) in
  let m := insert_gram row_id (fst s) g in
  (m, record_posting_stats old_len (length (default [] (m !! g))) (snd s)).

Definition insert (ix : TrigramIndex) (row_id : Z) (value : list Z) : TrigramIndex :=
  let '(tri, (sum, mx)) :=
    foldl (insert_trigram row_id) (trigrams ix, (posting_size_sum ix, max_posting_size ix))
          (extract_trigrams value) in
  mkIndex tri
    (foldl (insert_gram row_id) (bigrams ix) (extract_bigrams value))
    (foldl (insert_gram row_id) (unigrams ix) (extract_unigrams value))
    (column_name ix) (total_rows ix + 1) (total_trigrams ix + Z.of_nat (length (extract_trigrams value))) sum mx.

(** *** Batches *)

Abbreviation batch_map := (gmap (list Z) (gset Z)).

(** [map.entry(gram).or_default().insert(row_id)] *)
Definition batch_add (row_id : Z) (m : batch_map) (g : list Z) : batch_map :=
  <[g := {[row_id]} ∪ default ∅ (m !! g)]> m.
Definition collect_batch (extract : list Z → list (list Z)) (entries : list (Z * list Z)) : batch_map :=
  foldl (λ m e, foldl (batch_add (fst e)) m (extract (snd e))) ∅ entries.

(** [set.into_iter().collect()], then [sort_unstable]. *)
Definition sorted_elements (s : gset Z) : list Z := merge_sort Z.le (elements s).

(** [Vec::dedup]: drops repeated neighbours. *)
Fixpoint dedup (l : list Z) : list Z :=
  match l with
  | [] => []
  | x :: l' =>
      match l' with
      | [] => [x]
      | y :: _ => if decide (x = y) then dedup l' else x :: dedup l'
      end
  end.

Definition merge_sorted_batch (existing batch : list Z) : list Z :=
  match batch with
  | [] => existing
  | _ =>
      match existing with
      | [] => batch
      | _ => dedup (merge_sort Z.le (existing ++ batch))
      end
  end.

Definition merge_gram (m : postings) (p : list Z * gset Z) : postings :=
  <[fst p := merge_sorted_batch (default [] (m !! fst p)) (sorted_elements (snd p))]> m.
Definition merge_trigram (s : postings * (Z * Z)) (p : list Z * gset Z) : postings * (Z * Z) :=
  let old_len := length (default [] (fst s !! fst p)) in
  let m := merge_gram (fst s) p in
  (m, record_posting_stats old_len (length (default [] (m !! fst p))) (snd s)).

Definition insert_batch (ix : TrigramIndex) (entries : list (Z * list Z)) : TrigramIndex :=
  let tri_map := collect_batch extract_trigrams entries in
  let bi_map := collect_batch extract_bigrams entries in
  let uni_map := collect_batch extract_unigrams entries in
  let '(tri, (sum, mx)) :=
    foldl merge_trigram (trigrams ix, (posting_size_sum ix, max_posting_size ix))
          (map_to_list tri_map) in
  mkIndex tri
    (foldl merge_gram (bigrams ix) (map_to_list bi_map))
    (foldl merge_gram (unigrams ix) (map_to_list uni_map))
    (column_name ix) (total_rows ix + Z.of_nat (length entries))
    (total_trigrams ix
       + foldr (λ e n, Z.of_nat (length (extract_trigrams (snd e))) + n) 0 entries)%Z
    sum mx.

(** ** Queries *)

(** The index of the first shortest list. *)
Fixpoint shortest_from (i best best_len : nat) (lists : list (list Z)) : nat :=
  match lists with
  | [] => best
  | l :: lists =>
      if decide (length l < best_len) then shortest_from (S i) i (length l) lists
      else shortest_from (S i) best best_len lists
  end.

Definition in_list (l : list Z) (x : Z) : bool :=
  match binary_search l x with Found _ => true | Missing _ => false end.

Definition intersect_sorted_lists (lists : list (list Z)) : list Z :=
  match lists with
  | [] => []
  | [l] => l
  | l0 :: rest =>
      let shortest_idx := shortest_from 1 0 (length l0) rest in
      let driver := default [] (lists !! shortest_idx) in
      filter (λ id, forallb (λ p, bool_decide (fst p = shortest_idx) || in_list (snd p) id)
                            (imap pair lists)) driver
  end.

(** The posting lists of all grams, or nothing when one is not indexed. *)
Fixpoint lookup_all (m : postings) (grams : list (list Z)) : option (list (list Z)) :=
  match grams with
  | [] => Some []
  | g :: grams =>
      match m !! g with
      | Some l => match lookup_all m grams with Some ls => Some (l :: ls) | None => None end
      | None => None
      end
  end.

Definition query (ix : TrigramIndex) (pattern : list Z) : option (list Z) :=
  match pattern with
  | [] => None
  | [b] => Some (default [] (unigrams ix !! [b]))
  | [b1; b2] => Some (default [] (bigrams ix !! [b1; b2]))
  | _ =>
      let tris := extract_trigrams pattern in
      if decide (tris = []) then None
      else match lookup_all (trigrams ix) tris with
           | Some lists => Some (intersect_sorted_lists lists)
           | None => Some []
           end
  end.

(** The fold over the trigrams of [estimate_candidates]. *)
Fixpoint estimate_loop (ix : TrigramIndex) (grams : list (list Z)) (lo hi : Z) (common : bool) :
    Z * Z * bool :=
  match grams with
  | [] => (lo, hi, common)
  | g :: grams =>
      match trigrams ix !! g with
      | Some l =>
          let len := Z.of_nat (length l) in
          estimate_loop ix grams (lo `min` len)%Z (hi `max` len)%Z
            (common || bool_decide (total_rows ix / 2 < len)%Z)
      | None => (0, 0, false)%Z
      end
  end.

(** An empty pattern indexes past the end of the string. *)
Definition estimate_candidates (ix : TrigramIndex) (pattern : list Z) : outcome (Z * Z * bool) :=
  let one (m : postings) :=
    match m !! pattern with
    | Some l => let len := Z.of_nat (length l) in (len, len, bool_decide (total_rows ix / 2 < len)%Z)
    | None => (0, 0, false)%Z
    end in
  match pattern with
  | [] => Panic
  | [_] => Ok (one (unigrams ix))
  | [_; _] => Ok (one (bigrams ix))
  | _ =>
      let tris := extract_trigrams pattern in
      if decide (tris = []) then Ok (0, 0, false)%Z
      else Ok (estimate_loop ix tris u64_MAX 0 false)
  end.

Definition should_use_index (ix : TrigramIndex) (candidate_count : Z) : bool :=
  if decide (candidate_count < MIN_CANDIDATES_TO_USE_INDEX)%Z then false
  else if decide (total_rows ix = 0)%Z then bool_decide (0 < candidate_count)%Z
  else f64_lt (f64_div (f64_of_u64 candidate_count) (f64_of_u64 (total_rows ix)))
              DEFAULT_CANDIDATE_THRESHOLD_RATIO.

(** The result for a candidate list, with the ratio test. *)
Definition adaptive_result (ix : TrigramIndex) (threshold : f64) (cands : list Z) : TrigramQueryResult :=
  let candidate_count := Z.of_nat (length cands) in
  let ratio :=
    if decide (0 < total_rows ix)%Z
    then f64_div (f64_of_u64 candidate_count) (f64_of_u64 (total_rows ix)) else f64_zero in
  mkResult cands
    (bool_decide (MIN_CANDIDATES_TO_USE_INDEX ≤ candidate_count)%Z && f64_lt ratio threshold) ratio.

Definition query_with_adaptive_threshold (ix : TrigramIndex) (pattern : list Z) :
    outcome (option TrigramQueryResult) :=
  match pattern with
  | [] => Ok None
  | _ =>
      let full_scan := Some (mkResult [] false f64_one) in
      if decide (total_rows ix < SMALL_TABLE_ROW_COUNT)%Z then Ok full_scan
      else
        let* est := estimate_candidates ix pattern in
        let is_common := snd est in
        if is_common : bool then Ok full_scan
        else if decide (length pattern ≤ 2 ∧ (SHORT_PATTERN_TABLE_SIZE < total_rows ix)%Z) then Ok full_scan
        else
          let threshold := if decide (LARGE_TABLE_ROW_COUNT < total_rows ix)%Z
                           then LARGE_TABLE_THRESHOLD_RATIO else DEFAULT_CANDIDATE_THRESHOLD_RATIO in
          let one (m : postings) :=
            match m !! pattern with
            | Some l => Some (adaptive_result ix threshold l)
            | None => Some result_default
            end in
          match pattern with
          | [_] => Ok (one (unigrams ix))
          | [_; _] => Ok (one (bigrams ix))
          | _ =>
              let tris := extract_trigrams pattern in
              if decide (tris = []) then Ok None
              else match lookup_all (trigrams ix) tris with
                   | Some lists => Ok (Some (adaptive_result ix threshold (intersect_sorted_lists lists)))
                   | None => Ok (Some result_default)
                   end
          end
  end.

(** ** Sorted lists *)

Abbreviation ssorted := (StronglySorted Z.lt).

Lemma ssorted_lookup l i j x y :
  ssorted l → i < j → l !! i = Some x → l !! j = Some y → (x < y)%Z.
Proof.
  intros Hs Hij Hx Hy. rewrite <- (take_drop j l) in Hs.
  apply (StronglySorted_app_1_elem_of _ _ _ x y) in Hs; [done| |].
  - apply list_elem_of_lookup. exists i. by rewrite lookup_take_lt.
  - apply list_elem_of_lookup. exists 0. by rewrite lookup_drop, Nat.add_0_r.
Qed.

(** Two strictly sorted lists with the same elements are equal. *)
Lemma ssorted_ext l k : ssorted l → ssorted k → (∀ x, x ∈ l ↔ x ∈ k) → l = k.
Proof.
  assert (∀ l', ssorted l' → NoDup l' ∧ StronglySorted Z.le l') as Hn.
  { clear. induction 1 as [|x l Hs [IH1 IH2] Hx]; [split; constructor|]. rewrite Forall_forall in Hx. split.
    - constructor; [|done]. intros Hin. apply Hx in Hin. lia.
    - constructor; [done|]. apply Forall_forall. intros y Hy. apply Hx in Hy. lia. }
  intros Hl Hk Hext. destruct (Hn l Hl), (Hn k Hk).
  apply (StronglySorted_unique Z.le); [done..|]. by apply NoDup_Permutation.
Qed.

(** What the search on a sorted list finds. *)
Definition search_ok (l : list Z) (x : Z) (r : search_result) : Prop :=
  match r with
  | Found p => l !! p = Some x
  | Missing p => p ≤ length l ∧ (∀ i y, i < p → l !! i = Some y → (y < x)%Z) ∧
                 (∀ i y, p ≤ i → l !! i = Some y → (x < y)%Z)
  end.

Lemma bisect_ok fuel l x lo hi :
  ssorted l → lo ≤ hi → hi ≤ length l → hi - lo < fuel →
  (∀ i y, i < lo → l !! i = Some y → (y < x)%Z) →
  (∀ i y, hi ≤ i → l !! i = Some y → (x < y)%Z) →
  search_ok l x (bisect fuel l x lo hi).
Proof.
  intros Hs. revert lo hi. induction fuel as [|fuel IH]; intros lo hi Hle Hhi Hf Hlow Hhigh; [lia|].
  cbn [bisect]. destruct (decide (lo < hi)) as [Hlt|Hge].
  - assert (lo ≤ (lo + hi) / 2 < hi) as Hmid.
    { split; [apply Nat.div_le_lower_bound; lia|apply Nat.Div0.div_lt_upper_bound; lia]. }
    set (mid := (lo + hi) / 2) in *.
    destruct (lookup_lt_is_Some_2 l mid) as [y Hy]; [lia|].
    replace (word_at l mid) with y by (unfold word_at; by rewrite Hy).
    destruct (decide (y = x)) as [<-|]; [exact Hy|]. destruct (decide (y < x)%Z).
    + apply IH; [lia..| |done]. intros i z Hi Hz. destruct (decide (i = mid)) as [->|].
      * by simplify_eq.
      * pose proof (ssorted_lookup l i mid z y Hs ltac:(lia) Hz Hy). lia.
    + apply IH; [lia..|done|]. intros i z Hi Hz. destruct (decide (i = mid)) as [->|].
      * simplify_eq. lia.
      * pose proof (ssorted_lookup l mid i y z Hs ltac:(lia) Hy Hz). lia.
  - replace hi with lo in * by lia. by split_and!.
Qed.

Lemma binary_search_ok l x : ssorted l → search_ok l x (binary_search l x).
Proof.
  intros Hs. apply bisect_ok; [done|lia..| |]; [intros; lia|].
  intros i y Hi Hy. apply lookup_lt_Some in Hy. lia.
Qed.

Lemma in_list_spec l x : ssorted l → in_list l x = true ↔ x ∈ l.
Proof.
  intros Hs. unfold in_list. pose proof (binary_search_ok l x Hs) as H.
  destruct (binary_search l x) as [p|p]; simpl in H.
  - split; [|done]. intros _. by eapply list_elem_of_lookup_2.
  - split; [done|]. intros Hin. apply list_elem_of_lookup in Hin as [i Hi].
    destruct H as (_ & Hlow & Hhigh). destruct (decide (i < p)).
    + specialize (Hlow i x ltac:(done) Hi). lia.
    + specialize (Hhigh i x ltac:(lia) Hi). lia.
Qed.

Lemma posting_insert_spec r l :
  ssorted l → ssorted (posting_insert r l) ∧ ∀ x, x ∈ posting_insert r l ↔ x = r ∨ x ∈ l.
Proof.
  intros Hs. unfold posting_insert. destruct (decide (last l = Some r)) as [Hl|_].
  - split; [done|]. intros x. split; [by right|]. intros [->|]; [|done].
    by apply last_Some_elem_of.
  - pose proof (binary_search_ok l r Hs) as H. destruct (binary_search l r) as [p|p]; simpl in H.
    + split; [done|]. intros x. split; [by right|]. intros [->|]; [|done].
      by eapply list_elem_of_lookup_2.
    + destruct H as (Hp & Hlow & Hhigh). rewrite <- (take_drop p l) in Hs.
      pose proof (StronglySorted_app_1_l _ _ _ Hs). pose proof (StronglySorted_app_1_r _ _ _ Hs). split.
      * apply StronglySorted_app_2; [|done|].
        -- intros x y Hx Hy. apply list_elem_of_lookup in Hx as [i Hi].
           apply lookup_take_Some in Hi as [Hi Hip]. specialize (Hlow i x Hip Hi).
           apply elem_of_cons in Hy as [->|Hy]; [done|].
           apply list_elem_of_lookup in Hy as [j Hj]. rewrite lookup_drop in Hj.
           specialize (Hhigh (p + j) y ltac:(lia) Hj). lia.
        -- constructor; [done|]. apply Forall_forall. intros y Hy.
           apply list_elem_of_lookup in Hy as [j Hj]. rewrite lookup_drop in Hj.
           by apply (Hhigh (p + j)); [lia|].
      * intros x. rewrite elem_of_app, elem_of_cons. rewrite <- (take_drop p l) at 3.
        rewrite elem_of_app. tauto.
Qed.

Lemma dedup_spec l :
  StronglySorted Z.le l → ssorted (dedup l) ∧ (∀ x, x ∈ dedup l ↔ x ∈ l).
Proof.
  induction 1 as [|x l Hs [IH1 IH2] Hx]; [by split; [constructor|]|].
  cbn [dedup]. destruct l as [|y l]; [by split; [repeat constructor|]|].
  rewrite Forall_forall in Hx. destruct (decide (x = y)) as [->|Hne].
  - split; [done|]. intros z. rewrite IH2, !elem_of_cons. tauto.
  - split.
    + constructor; [done|]. apply Forall_forall. intros z Hz.
      apply IH2 in Hz. assert (x ≤ y)%Z by (apply Hx; by left).
      apply elem_of_cons in Hz as [->|Hz]; [lia|].
      apply StronglySorted_inv in Hs as [_ Hy]. rewrite Forall_forall in Hy.
      apply Hy in Hz. lia.
    + intros z. rewrite elem_of_cons, IH2. rewrite (elem_of_cons (y :: l)). done.
Qed.

#[local] Instance Zle_total : Total Z.le.
Proof. intros x y. lia. Qed.

Lemma sorted_elements_spec s : ssorted (sorted_elements s) ∧ ∀ x, x ∈ sorted_elements s ↔ x ∈ s.
Proof.
  unfold sorted_elements. split.
  - pose proof (StronglySorted_merge_sort Z.le (elements s)) as Hs.
    assert (NoDup (merge_sort Z.le (elements s))) as Hn.
    { rewrite merge_sort_Permutation. apply NoDup_elements. }
    induction Hs as [|x l Hs IH Hx]; [constructor|]. apply NoDup_cons in Hn as [Hni Hn].
    constructor; [by apply IH|]. rewrite Forall_forall in *. intros y Hy.
    specialize (Hx y Hy). assert (x ≠ y) by congruence. lia.
  - intros x. by rewrite merge_sort_Permutation, elem_of_elements.
Qed.

Lemma merge_sorted_batch_spec l b :
  ssorted l → ssorted b →
  ssorted (merge_sorted_batch l b) ∧ ∀ x, x ∈ merge_sorted_batch l b ↔ x ∈ l ∨ x ∈ b.
Proof.
  intros Hl Hb. unfold merge_sorted_batch. destruct b as [|y b].
  { split; [done|]. intros x. rewrite elem_of_nil. tauto. }
  destruct l as [|z l].
  { split; [done|]. intros x. rewrite elem_of_nil. tauto. }
  destruct (dedup_spec (merge_sort Z.le ((z :: l) ++ y :: b))) as [H1 H2].
  { apply (StronglySorted_merge_sort Z.le). }
  split; [done|]. intros x. by rewrite H2, merge_sort_Permutation, elem_of_app.
Qed.

(** ** Maps of posting lists *)

Definition rows (m : postings) (g : list Z) : list Z := default [] (m !! g).
Definition post_ok (m : postings) : Prop := ∀ g, ssorted (rows m g).

Lemma rows_insert m g l g' : rows (<[g := l]> m) g' = if decide (g = g') then l else rows m g'.
Proof.
  unfold rows. destruct (decide (g = g')) as [<-|].
  - by rewrite lookup_insert_eq.
  - by rewrite lookup_insert_ne.
Qed.

Lemma insert_grams_spec r grams m :
  post_ok m →
  let m' := foldl (insert_gram r) m grams in
  post_ok m' ∧ (∀ g x, x ∈ rows m' g ↔ x ∈ rows m g ∨ (x = r ∧ g ∈ grams)) ∧
  (∀ g, is_Some (m' !! g) ↔ is_Some (m !! g) ∨ g ∈ grams).
Proof.
  revert m. induction grams as [|g0 grams IH]; intros m Hm; simpl.
  - split_and!; [done|intros; rewrite elem_of_nil; tauto|intros; rewrite elem_of_nil; tauto].
  - destruct (posting_insert_spec r (rows m g0) (Hm g0)) as [Hs0 He0].
    assert (post_ok (insert_gram r m g0)) as H1.
    { intros g. unfold insert_gram. rewrite rows_insert. by destruct (decide (g0 = g)) as [<-|]. }
    destruct (IH _ H1) as (H2 & H3 & H4). split_and!; [done| |].
    + intros g x. rewrite H3. unfold insert_gram. rewrite rows_insert, elem_of_cons.
      destruct (decide (g0 = g)) as [<-|Hne]; [fold (rows m g0); rewrite He0; tauto|].
      intuition congruence.
    + intros g. rewrite H4, elem_of_cons. unfold insert_gram. destruct (decide (g0 = g)) as [<-|Hne].
      * rewrite lookup_insert_eq. split; [tauto|]. intros _. left. eauto.
      * rewrite lookup_insert_ne by done. intuition congruence.
Qed.

(** The trigram loop updates the map as the other two do. *)
Lemma insert_trigram_map r grams s :
  fst (foldl (insert_trigram r) s grams) = foldl (insert_gram r) (fst s) grams.
Proof. revert s. induction grams as [|g grams IH]; intros s; simpl; [done|]. by rewrite IH. Qed.

Lemma merge_trigram_map l s : fst (foldl merge_trigram s l) = foldl merge_gram (fst s) l.
Proof. revert s. induction l as [|p l IH]; intros s; simpl; [done|]. by rewrite IH. Qed.

Lemma merge_grams_spec (l : list (list Z * gset Z)) m :
  post_ok m →
  let m' := foldl merge_gram m l in
  post_ok m' ∧ (∀ g x, x ∈ rows m' g ↔ x ∈ rows m g ∨ ∃ s, (g, s) ∈ l ∧ x ∈ s) ∧
  (∀ g, is_Some (m' !! g) ↔ is_Some (m !! g) ∨ ∃ s, (g, s) ∈ l).
Proof.
  revert m. induction l as [|[g0 s0] l IH]; intros m Hm; simpl.
  - split_and!; [done| |].
    + intros g x. split; [by left|]. intros [?|(s & H & _)]; [done|by apply elem_of_nil in H].
    + intros g. split; [by left|]. intros [?|(s & H)]; [done|by apply elem_of_nil in H].
  - destruct (sorted_elements_spec s0) as [Hse Hel].
    destruct (merge_sorted_batch_spec (rows m g0) _ (Hm g0) Hse) as [Hs0 He0].
    assert (post_ok (merge_gram m (g0, s0))) as H1.
    { intros g. unfold merge_gram. cbn [fst snd]. rewrite rows_insert.
      by destruct (decide (g0 = g)) as [<-|]. }
    destruct (IH _ H1) as (H2 & H3 & H4). split_and!; [done| |].
    + intros g x. rewrite H3. unfold merge_gram. rewrite rows_insert. simpl.
      setoid_rewrite elem_of_cons. destruct (decide (g0 = g)) as [<-|Hne].
      * fold (rows m g0). rewrite He0, Hel. naive_solver.
      * naive_solver.
    + intros g. rewrite H4. setoid_rewrite elem_of_cons. unfold merge_gram. simpl.
      destruct (decide (g0 = g)) as [<-|Hne].
      * rewrite lookup_insert_eq. naive_solver.
      * rewrite lookup_insert_ne by done. naive_solver.
Qed.

Lemma batch_adds_spec r grams m :
  let m' := foldl (batch_add r) m grams in
  (∀ g x, x ∈ default ∅ (m' !! g) ↔ x ∈ default ∅ (m !! g) ∨ (x = r ∧ g ∈ grams)) ∧
  (∀ g, is_Some (m' !! g) ↔ is_Some (m !! g) ∨ g ∈ grams).
Proof.
  revert m. induction grams as [|g0 grams IH]; intros m; simpl.
  - split; intros; rewrite elem_of_nil; tauto.
  - destruct (IH (batch_add r m g0)) as [H1 H2]. split.
    + intros g x. rewrite H1, elem_of_cons. unfold batch_add. destruct (decide (g0 = g)) as [<-|Hne].
      * rewrite lookup_insert_eq. simpl. rewrite elem_of_union, elem_of_singleton. tauto.
      * rewrite lookup_insert_ne by done. intuition congruence.
    + intros g. rewrite H2, elem_of_cons. unfold batch_add. destruct (decide (g0 = g)) as [<-|Hne].
      * rewrite lookup_insert_eq. split; [tauto|]. intros _. left. eauto.
      * rewrite lookup_insert_ne by done. intuition congruence.
Qed.

Lemma collect_batch_spec extract entries :
  let bm := collect_batch extract entries in
  (∀ g x, x ∈ default ∅ (bm !! g) ↔ ∃ v, (x, v) ∈ entries ∧ g ∈ extract v) ∧
  (∀ g, is_Some (bm !! g) ↔ ∃ x v, (x, v) ∈ entries ∧ g ∈ extract v).
Proof.
  unfold collect_batch. induction entries as [|[r v] entries [IH1 IH2]] using rev_ind; simpl.
  - split; intros g; [intros x|]; rewrite lookup_empty; simpl; split; set_solver.
  - rewrite foldl_app. simpl. destruct (batch_adds_spec r (extract v)
      (foldl (λ m e, foldl (batch_add (fst e)) m (extract (snd e))) ∅ entries)) as [H1 H2].
    split.
    + intros g x. rewrite H1, IH1. setoid_rewrite elem_of_app. setoid_rewrite list_elem_of_singleton.
      naive_solver.
    + intros g. rewrite H2, IH2. setoid_rewrite elem_of_app. setoid_rewrite list_elem_of_singleton.
      naive_solver.
Qed.

(** ** What an index means *)

(** The postings of [m] are exactly the grams of the entries. *)
Record indexed (extract : list Z → list (list Z)) (m : postings) (entries : list (Z * list Z)) : Prop := {
  ix_sorted : post_ok m;
  ix_rows : ∀ g r, r ∈ rows m g ↔ ∃ v, (r, v) ∈ entries ∧ g ∈ extract v;
  ix_dom : ∀ g, is_Some (m !! g) ↔ ∃ r v, (r, v) ∈ entries ∧ g ∈ extract v;
}.

Lemma indexed_insert extract m entries r v :
  indexed extract m entries →
  indexed extract (foldl (insert_gram r) m (extract v)) (entries ++ [(r, v)]).
Proof.
  intros [Hs Hr Hd]. destruct (insert_grams_spec r (extract v) m Hs) as (H1 & H2 & H3).
  split; [done|..].
  - intros g x. rewrite H2, Hr. setoid_rewrite elem_of_app. setoid_rewrite list_elem_of_singleton.
    naive_solver.
  - intros g. rewrite H3, Hd. setoid_rewrite elem_of_app. setoid_rewrite list_elem_of_singleton.
    naive_solver.
Qed.

Lemma indexed_batch extract m entries es :
  indexed extract m entries →
  indexed extract (foldl merge_gram m (map_to_list (collect_batch extract es))) (entries ++ es).
Proof.
  intros [Hs Hr Hd].
  destruct (merge_grams_spec (map_to_list (collect_batch extract es)) m Hs) as (H1 & H2 & H3).
  destruct (collect_batch_spec extract es) as [C1 C2]. split; [done|..].
  - intros g x. rewrite H2, Hr. setoid_rewrite elem_of_app. setoid_rewrite elem_of_map_to_list.
    assert ((∃ s, collect_batch extract es !! g = Some s ∧ x ∈ s) ↔
            ∃ v, (x, v) ∈ es ∧ g ∈ extract v) as ->; [|naive_solver].
    rewrite <- C1. destruct (collect_batch extract es !! g); simpl; set_solver.
  - intros g. rewrite H3, Hd. setoid_rewrite elem_of_app. setoid_rewrite elem_of_map_to_list.
    assert ((∃ s, collect_batch extract es !! g = Some s) ↔ ∃ r v, (r, v) ∈ es ∧ g ∈ extract v) as ->;
      [|naive_solver].
    rewrite <- C2. done.
Qed.

(** The map is determined by the entries. *)
Lemma indexed_unique extract m m' entries :
  indexed extract m entries → indexed extract m' entries → m = m'.
Proof.
  intros [Hs Hr Hd] [Hs' Hr' Hd']. apply map_eq. intros g.
  assert (rows m g = rows m' g) as E.
  { apply ssorted_ext; [done..|]. intros x. by rewrite Hr, Hr'. }
  assert (is_Some (m !! g) ↔ is_Some (m' !! g)) as Hdom by (by rewrite Hd, Hd').
  unfold rows in E. destruct (m !! g), (m' !! g); simpl in *; try congruence.
  - destruct (proj1 Hdom) as [? ?]; [by eauto|done].
  - destruct (proj2 Hdom) as [? ?]; [by eauto|done].
Qed.

Lemma indexed_empty extract : indexed extract ∅ [].
Proof.
  split.
  - intros g. unfold rows. rewrite lookup_empty. constructor.
  - intros g r. unfold rows. rewrite lookup_empty. simpl. set_solver.
  - intros g. rewrite lookup_empty. set_solver.
Qed.

Inductive index_op := IxInsert (row_id : Z) (value : list Z) | IxBatch (entries : list (Z * list Z)).

Definition index_exec (ix : TrigramIndex) (o : index_op) : TrigramIndex :=
  match o with IxInsert r v => insert ix r v | IxBatch es => insert_batch ix es end.
Definition index_run (ops : list index_op) : TrigramIndex := foldl index_exec trigram_index_default ops.
Definition op_entries (o : index_op) : list (Z * list Z) :=
  match o with IxInsert r v => [(r, v)] | IxBatch es => es end.
Definition run_entries (ops : list index_op) : list (Z * list Z) := concat (map op_entries ops).

Lemma insert_trigrams ix r v :
  trigrams (insert ix r v) = foldl (insert_gram r) (trigrams ix) (extract_trigrams v).
Proof.
  unfold insert.
  destruct (foldl (insert_trigram r) _ (extract_trigrams v)) as [tri [sum mx]] eqn:E. simpl.
  change tri with (fst (tri, (sum, mx))). by rewrite <- E, insert_trigram_map.
Qed.

Lemma insert_bigrams ix r v :
  bigrams (insert ix r v) = foldl (insert_gram r) (bigrams ix) (extract_bigrams v) ∧
  unigrams (insert ix r v) = foldl (insert_gram r) (unigrams ix) (extract_unigrams v).
Proof. unfold insert. by destruct (foldl (insert_trigram r) _ _) as [tri [sum mx]]. Qed.

Lemma insert_batch_maps ix es :
  trigrams (insert_batch ix es)
    = foldl merge_gram (trigrams ix) (map_to_list (collect_batch extract_trigrams es)) ∧
  bigrams (insert_batch ix es)
    = foldl merge_gram (bigrams ix) (map_to_list (collect_batch extract_bigrams es)) ∧
  unigrams (insert_batch ix es)
    = foldl merge_gram (unigrams ix) (map_to_list (collect_batch extract_unigrams es)).
Proof.
  unfold insert_batch.
  destruct (foldl merge_trigram _ _) as [tri [sum mx]] eqn:E. simpl. split; [|done].
  change tri with (fst (tri, (sum, mx))). by rewrite <- E, merge_trigram_map.
Qed.

Definition index_ok (ix : TrigramIndex) (entries : list (Z * list Z)) : Prop :=
  indexed extract_trigrams (trigrams ix) entries ∧
  indexed extract_bigrams (bigrams ix) entries ∧
  indexed extract_unigrams (unigrams ix) entries.

Lemma index_exec_ok ix entries o : index_ok ix entries → index_ok (index_exec ix o) (entries ++ op_entries o).
Proof.
  intros (H3 & H2 & H1). destruct o as [r v|es]; simpl.
  - unfold index_ok. rewrite insert_trigrams. destruct (insert_bigrams ix r v) as [-> ->].
    split_and!; by apply indexed_insert.
  - unfold index_ok. destruct (insert_batch_maps ix es) as (-> & -> & ->).
    split_and!; by apply indexed_batch.
Qed.

Lemma index_run_ok ops : index_ok (index_run ops) (run_entries ops).
Proof.
  unfold index_run, run_entries. induction ops as [|o ops IH] using rev_ind.
  - split_and!; apply indexed_empty.
  - rewrite foldl_app, map_app, concat_app. simpl. rewrite app_nil_r. by apply index_exec_ok.
Qed.

(** ** Substrings and intersection *)

Definition contains (v p : list Z) : Prop := ∃ a b, v = a ++ p ++ b.

Lemma elem_of_windows n s g : 0 < n → g ∈ windows n s ↔ length g = n ∧ contains s g.
Proof.
  intros Hn. induction s as [|x s IH]; cbn [windows].
  - rewrite elem_of_nil. split; [done|]. intros (Hl & a & b & E).
    symmetry in E. apply app_nil in E as [-> E]. apply app_nil in E as [-> _]. simpl in Hl. lia.
  - destruct (decide (n ≤ length (x :: s))) as [Hle|Hgt].
    + rewrite elem_of_cons, IH. split.
      * intros [->|(Hl & a & b & ->)].
        -- rewrite length_take. split; [lia|]. exists [], (drop n (x :: s)). simpl.
           by rewrite (take_drop n (x :: s)).
        -- split; [done|]. by exists (x :: a), b.
      * intros (Hl & a & b & E). destruct a as [|y a]; simplify_eq/=.
        -- left. rewrite E. by rewrite take_app_length.
        -- right. split; [done|]. by exists a, b.
    + rewrite elem_of_nil. split; [done|]. intros (Hl & a & b & E).
      apply (f_equal length) in E. rewrite !length_app in E. lia.
Qed.

Lemma elem_of_extract_trigrams v g : g ∈ extract_trigrams v ↔ length g = 3 ∧ contains v g.
Proof.
  unfold extract_trigrams. case_decide; [|by apply elem_of_windows; lia].
  rewrite elem_of_nil. split; [done|]. intros (Hl & a & b & ->).
  rewrite !length_app in *. lia.
Qed.

Lemma elem_of_extract_bigrams v g : g ∈ extract_bigrams v ↔ length g = 2 ∧ contains v g.
Proof.
  unfold extract_bigrams. case_decide; [|by apply elem_of_windows; lia].
  rewrite elem_of_nil. split; [done|]. intros (Hl & a & b & ->).
  rewrite !length_app in *. lia.
Qed.

Lemma elem_of_extract_unigrams v b : [b] ∈ extract_unigrams v ↔ contains v [b].
Proof.
  unfold extract_unigrams. rewrite list_elem_of_fmap. split.
  - intros (x & [= <-] & Hin). by apply list_elem_of_split in Hin as (a & c & ->); exists a, c.
  - intros (a & c & ->). exists b. split; [done|]. set_solver.
Qed.

Lemma contains_trans v p g : contains v p → contains p g → contains v g.
Proof. intros (a & b & ->) (c & d & ->). exists (a ++ c), (d ++ b). by rewrite !app_assoc. Qed.

Lemma shortest_from_lt i best best_len lists :
  best < i → shortest_from i best best_len lists < i + length lists.
Proof.
  revert i best best_len. induction lists as [|l lists IH]; intros i best best_len Hb; simpl; [lia|].
  case_decide; [specialize (IH (S i) i (length l))|specialize (IH (S i) best best_len)]; lia.
Qed.

Lemma intersect_spec lists r :
  Forall (λ l, ssorted l) lists →
  r ∈ intersect_sorted_lists lists ↔ lists ≠ [] ∧ Forall (λ l, r ∈ l) lists.
Proof.
  intros Hs. unfold intersect_sorted_lists. destruct lists as [|l0 [|l1 rest]].
  - rewrite elem_of_nil. naive_solver.
  - rewrite Forall_singleton. naive_solver.
  - set (lists := l0 :: l1 :: rest) in *. set (k := shortest_from 1 0 (length l0) (l1 :: rest)).
    assert (k < length lists) as Hk by (apply (shortest_from_lt 1 0); lia).
    destruct (lookup_lt_is_Some_2 lists k Hk) as [d Hd]. rewrite Hd.
    change (default [] (Some d)) with d.
    rewrite list_elem_of_filter, Is_true_true, forallb_forall, Forall_lookup. split.
    + intros [Hall Hin]. split; [done|]. intros i l Hi.
      destruct (decide (i = k)) as [->|Hne]; [by simplify_eq|].
      specialize (Hall (i, l)). cbn [fst snd] in Hall. rewrite bool_decide_false in Hall by done.
      apply in_list_spec; [by eapply Forall_lookup_1|]. apply Hall.
      apply list_elem_of_In, list_elem_of_lookup. exists i. by rewrite list_lookup_imap, Hi.
    + intros [_ Hall]. split; [|by apply (Hall k)]. intros [i l] Hin.
      apply list_elem_of_In, list_elem_of_lookup in Hin as [j Hj]. rewrite list_lookup_imap in Hj.
      destruct (lists !! j) as [l'|] eqn:El; [|done]. simplify_eq/=.
      apply orb_true_iff. right. apply in_list_spec; [by eapply Forall_lookup_1|]. by eapply Hall.
Qed.

Lemma lookup_all_spec m grams :
  match lookup_all m grams with
  | Some ls => ls = map (rows m) grams ∧ ∀ g, g ∈ grams → is_Some (m !! g)
  | None => ∃ g, g ∈ grams ∧ m !! g = None
  end.
Proof.
  induction grams as [|g grams IH]; simpl; [split; [done|set_solver]|].
  destruct (m !! g) as [l|] eqn:E; [|exists g; set_solver].
  destruct (lookup_all m grams) as [ls|].
  - destruct IH as [-> IH].
    assert (rows m g = l) as -> by (unfold rows; by rewrite E). split; [done|].
    intros g' [->|Hin]%elem_of_cons; [by rewrite E|by apply IH].
  - destruct IH as (g' & Hin & E'). exists g'. set_solver.
Qed.

(** ** Queries *)

Lemma query_short ix p :
  0 < length p ≤ 2 →
  query ix p = Some (rows (if decide (length p = 1) then unigrams ix else bigrams ix) p).
Proof. destruct p as [|a [|b [|c p]]]; simpl; intros [? ?]; try lia; done. Qed.

Lemma query_long ix p :
  2 < length p →
  query ix p = Some (match lookup_all (trigrams ix) (extract_trigrams p) with
                     | Some lists => intersect_sorted_lists lists
                     | None => []
                     end).
Proof.
  intros Hp. destruct p as [|a [|b [|c p]]]; simpl in Hp; try lia.
  unfold query. destruct (decide (extract_trigrams _ = [])) as [E|_].
  - exfalso. eapply (not_elem_of_nil [a; b; c]). rewrite <- E. apply elem_of_extract_trigrams.
    split; [done|]. by exists [], p.
  - by destruct (lookup_all _ _).
Qed.

Lemma elem_of_query_long ix entries p r :
  2 < length p → index_ok ix entries →
  r ∈ default [] (query ix p) ↔
    ∀ g, length g = 3 → contains p g → ∃ v, (r, v) ∈ entries ∧ contains v g.
Proof.
  intros Hp ([Hs Hr Hd] & _). rewrite query_long by done. simpl.
  assert (∃ g, length g = 3 ∧ contains p g) as (g0 & Hg0).
  { destruct p as [|a [|b [|c p]]]; simpl in Hp; try lia. exists [a; b; c]. split; [done|]. by exists [], p. }
  pose proof (lookup_all_spec (trigrams ix) (extract_trigrams p)) as Hl.
  destruct (lookup_all _ _) as [ls|].
  - destruct Hl as [-> Hall]. rewrite intersect_spec.
    + rewrite Forall_map, Forall_forall. setoid_rewrite elem_of_extract_trigrams. simpl.
      setoid_rewrite Hr. setoid_rewrite elem_of_extract_trigrams. split.
      * intros [_ H] g ? ?. destruct (H g) as (v & ? & ? & ?); eauto.
      * intros H. split.
        { intros E. apply map_eq_nil in E. eapply (not_elem_of_nil g0). rewrite <- E.
          by apply elem_of_extract_trigrams. }
        intros g [? ?]. destruct (H g) as (v & ? & ?); eauto.
    + rewrite Forall_map. apply Forall_forall. intros g _. apply Hs.
  - destruct Hl as (g & Hg & E). split; [by intros ?%elem_of_nil|]. intros H. exfalso.
    apply elem_of_extract_trigrams in Hg as Hg'. destruct (H g) as (v & ? & ?); [naive_solver..|].
    destruct (proj2 (Hd g)) as [? ?]; [|congruence]. exists r, v. split; [done|].
    apply elem_of_extract_trigrams. naive_solver.
Qed.

Lemma elem_of_query_short ix entries p r :
  0 < length p ≤ 2 → index_ok ix entries →
  r ∈ default [] (query ix p) ↔ ∃ v, (r, v) ∈ entries ∧ contains v p.
Proof.
  intros Hp (_ & [_ H2 _] & [_ H1 _]). rewrite query_short by done. simpl.
  destruct (decide (length p = 1)) as [E|E].
  - rewrite H1. destruct p as [|b [|? ?]]; try done. by setoid_rewrite elem_of_extract_unigrams.
  - rewrite H2. setoid_rewrite elem_of_extract_bigrams. split; [naive_solver|].
    intros (v & ? & ?). exists v. split_and!; [done|lia|done].
Qed.

Lemma query_some ix p : p ≠ [] → is_Some (query ix p).
Proof.
  intros Hp. destruct (decide (length p ≤ 2)).
  - rewrite query_short; [by eauto|]. destruct p; simpl in *; [done|lia].
  - rewrite query_long by lia. by eauto.
Qed.

(** No false negatives. *)
Lemma query_finds ix entries p r v :
  p ≠ [] → index_ok ix entries → (r, v) ∈ entries → contains v p →
  ∃ c, query ix p = Some c ∧ r ∈ c.
Proof.
  intros Hp Hok Hin Hv. destruct (query_some ix p Hp) as [c Hc].
  exists c. split; [done|]. change (r ∈ default [] (Some c)). rewrite <- Hc.
  destruct (decide (length p ≤ 2)).
  - eapply elem_of_query_short; [|done|by eauto]. destruct p; simpl in *; [done|lia].
  - eapply elem_of_query_long; [lia|done|]. intros g _ Hg. exists v. split; [done|]. by eapply contains_trans.
Qed.

Lemma ssorted_filter P `{∀ x, Decision (P x)} l : ssorted l → ssorted (filter P l).
Proof.
  induction 1 as [|x l Hl IH Hx]; [constructor|]. rewrite filter_cons. case_decide; [|done].
  constructor; [done|]. rewrite Forall_forall in *. intros y [_ Hy]%list_elem_of_filter. by apply Hx.
Qed.

Lemma intersect_sorted lists : Forall (λ l, ssorted l) lists → ssorted (intersect_sorted_lists lists).
Proof.
  intros Hs. unfold intersect_sorted_lists. destruct lists as [|l0 [|l1 rest]]; [constructor|by inversion Hs|].
  apply ssorted_filter. destruct (_ !! _) as [l|] eqn:E; [by eapply Forall_lookup_1 in E|constructor].
Qed.

Lemma query_sorted ix entries p : index_ok ix entries → ssorted (default [] (query ix p)).
Proof.
  intros ([H3 _ _] & [H2 _ _] & [H1 _ _]). destruct (decide (length p ≤ 2)) as [Hp|Hp].
  - destruct (decide (p = [])) as [->|Hne]; [constructor|].
    rewrite query_short by (destruct p; simpl in *; [done|lia]). simpl. by case_decide.
  - rewrite query_long by lia. simpl.
    pose proof (lookup_all_spec (trigrams ix) (extract_trigrams p)) as Hl.
    destruct (lookup_all _ _); [|constructor]. destruct Hl as [-> _].
    apply intersect_sorted, Forall_map, Forall_forall. intros g _. apply H3.
Qed.

(** C31. What a query for a non-empty pattern returns, after any sequence of
    single and batched insertions: for a pattern of one or two bytes exactly the
    rows whose value contains it; for a longer one exactly the rows whose values
    cover every three-byte window of it (the candidates that CONTAINS then
    filters).  So no matching row is ever missing; and the list is strictly
    increasing, so no row is reported twice. *)
Theorem query_exact ops p :
  p ≠ [] →
  ∃ c, query (index_run ops) p = Some c ∧ ssorted c ∧
    (∀ r v, (r, v) ∈ run_entries ops → contains v p → r ∈ c) ∧
    ∀ r, r ∈ c ↔
      if decide (length p ≤ 2) then ∃ v, (r, v) ∈ run_entries ops ∧ contains v p
      else ∀ g, length g = 3 → contains p g → ∃ v, (r, v) ∈ run_entries ops ∧ contains v g.
Proof.
  intros Hp. pose proof (index_run_ok ops) as Hok.
  destruct (query_some (index_run ops) p Hp) as [c Hc]. exists c.
  pose proof (query_sorted _ _ p Hok) as Hs. rewrite Hc in Hs. split_and!; [done|done|..].
  - intros r v Hin Hv. destruct (query_finds _ _ _ _ _ Hp Hok Hin Hv) as (c' & Hc' & ?). congruence.
  - intros r. change (r ∈ c) with (r ∈ default [] (Some c)). rewrite <- Hc.
    destruct (decide (length p ≤ 2)).
    + apply elem_of_query_short; [|done]. destruct p; simpl in *; [done|lia].
    + apply elem_of_query_long; [lia|done].
Qed.

(** The rows "banana", "ban" and "nana", the last two inserted as a batch. *)
Definition sample_ops : list index_op :=
  [IxInsert 7 [98; 97; 110; 97; 110; 97]%Z; IxBatch [(3, [98; 97; 110]%Z); (5, [110; 97; 110; 97]%Z)]]%Z.

Lemma query_exact_witness :
  ∃ c, query (index_run sample_ops) [110; 97; 110]%Z = Some c ∧ ssorted c ∧ c = [5; 7]%Z ∧ 5%Z ∈ c.
Proof.
  destruct (query_exact sample_ops [110; 97; 110]%Z) as (c & Hc & Hs & Hin & _); [done|].
  exists c. split_and!; [done|done| |].
  - revert Hc. vm_compute. by intros [= <-].
  - apply (Hin 5%Z [110; 97; 110; 97]%Z); [by_compute|]. by exists [], [97]%Z.
Defined.

(** ** Batches against single insertions *)

Definition insert_all (ix : TrigramIndex) (es : list (Z * list Z)) : TrigramIndex :=
  foldl (λ ix e, insert ix (fst e) (snd e)) ix es.

Lemma insert_all_ok ix entries es : index_ok ix entries → index_ok (insert_all ix es) (entries ++ es).
Proof.
  revert ix entries. induction es as [|[r v] es IH]; intros ix entries H; [by rewrite app_nil_r|].
  replace (entries ++ (r, v) :: es) with ((entries ++ [(r, v)]) ++ es) by (by rewrite <- app_assoc).
  apply IH. by apply (index_exec_ok ix entries (IxInsert r v)).
Qed.

Lemma insert_counts ix r v :
  total_rows (insert ix r v) = (total_rows ix + 1)%Z ∧
  total_trigrams (insert ix r v) = (total_trigrams ix + Z.of_nat (length (extract_trigrams v)))%Z.
Proof. unfold insert. by destruct (foldl (insert_trigram r) _ _) as [tri [sum mx]]. Qed.

Lemma insert_batch_counts ix es :
  total_rows (insert_batch ix es) = (total_rows ix + Z.of_nat (length es))%Z ∧
  total_trigrams (insert_batch ix es)
    = (total_trigrams ix + foldr (λ e n, Z.of_nat (length (extract_trigrams (snd e))) + n) 0 es)%Z.
Proof. unfold insert_batch. by destruct (foldl merge_trigram _ _) as [tri [sum mx]]. Qed.

Lemma insert_all_counts ix es :
  total_rows (insert_all ix es) = (total_rows ix + Z.of_nat (length es))%Z ∧
  total_trigrams (insert_all ix es)
    = (total_trigrams ix + foldr (λ e n, Z.of_nat (length (extract_trigrams (snd e))) + n) 0 es)%Z.
Proof.
  revert ix. induction es as [|[r v] es IH]; intros ix; [simpl; lia|].
  change (insert_all ix ((r, v) :: es)) with (insert_all (insert ix r v) es).
  destruct (IH (insert ix r v)) as [-> ->]. destruct (insert_counts ix r v) as [-> ->].
  simpl. lia.
Qed.

(** The batched insertion, which groups row ids per gram, sorts and merges
    them, builds exactly the index that inserting the same entries one by one
    builds: the same posting lists for all three gram sizes and the same row and
    trigram counts, in any state reached by insertions. *)
Theorem insert_batch_is_inserts ops es :
  let b := insert_batch (index_run ops) es in
  let s := insert_all (index_run ops) es in
  trigrams b = trigrams s ∧ bigrams b = bigrams s ∧ unigrams b = unigrams s ∧
  total_rows b = total_rows s ∧ total_trigrams b = total_trigrams s.
Proof.
  intros b s. pose proof (index_run_ok ops) as Hok.
  destruct (index_exec_ok _ _ (IxBatch es) Hok) as (B3 & B2 & B1).
  destruct (insert_all_ok _ _ es Hok) as (S3 & S2 & S1). subst b s.
  destruct (insert_batch_counts (index_run ops) es) as [-> ->].
  destruct (insert_all_counts (index_run ops) es) as [-> ->].
  split_and!; try done; by eapply indexed_unique.
Qed.

(** ** The adaptive query *)

Lemma adaptive_used ix t c :
  use_index (adaptive_result ix t c) = true → (MIN_CANDIDATES_TO_USE_INDEX ≤ Z.of_nat (length c))%Z.
Proof. unfold adaptive_result. cbn [use_index]. rewrite andb_true_iff, bool_decide_eq_true. tauto. Qed.

(** Behind its guards the adaptive query judges the plain one's candidates. *)
Lemma adaptive_query ix p res :
  query_with_adaptive_threshold ix p = Ok (Some res) → use_index res = true →
  query ix p = Some (candidates res) ∧
  (SMALL_TABLE_ROW_COUNT ≤ total_rows ix)%Z ∧
  (MIN_CANDIDATES_TO_USE_INDEX ≤ Z.of_nat (length (candidates res)))%Z.
Proof.
  unfold query_with_adaptive_threshold, query. intros H Hu. destruct p as [|a p]; [done|].
  destruct (decide (total_rows ix < SMALL_TABLE_ROW_COUNT)%Z) as [?|Hrows]; [by simplify_eq/=|].
  destruct (estimate_candidates ix (a :: p)) as [[[lo hi] cm]| |]; cbn [outcome_bind snd] in H; try done.
  destruct cm; [by simplify_eq/=|].
  destruct (decide (_ ∧ _)); [by simplify_eq/=|].
  destruct p as [|b [|c p]]; [destruct (unigrams ix !! _)|destruct (bigrams ix !! _)|];
    [..|destruct (decide (extract_trigrams _ = [])); [done|];
        destruct (lookup_all _ _)];
    injection H as <-; try done;
    (split_and!; [done|lia|by eapply adaptive_used]).
Qed.

Lemma adaptive_total ix p : ∃ o, query_with_adaptive_threshold ix p = Ok o.
Proof.
  unfold query_with_adaptive_threshold. destruct p as [|a p]; [by eauto|].
  case_decide; [by eauto|].
  assert (∃ e, estimate_candidates ix (a :: p) = Ok e) as [[[lo hi] cm] ->].
  { unfold estimate_candidates. destruct p as [|b [|c p]]; [by eauto..|]. case_decide; by eauto. }
  cbn [outcome_bind snd]. destruct cm; [by eauto|]. destruct (decide (_ ∧ _)); [by eauto|].
  destruct p as [|b [|c p]]; [by eauto..|]. destruct (decide (extract_trigrams _ = [])); [by eauto|].
  destruct (lookup_all _ _); by eauto.
Qed.

Lemma run_rows ops : total_rows (index_run ops) = Z.of_nat (length (run_entries ops)).
Proof.
  unfold index_run, run_entries. induction ops as [|o ops IH] using rev_ind; [done|].
  rewrite foldl_app, map_app, concat_app, length_app. cbn [foldl map concat]. rewrite app_nil_r.
  destruct o as [r v|es]; cbn [index_exec op_entries].
  - destruct (insert_counts (foldl index_exec trigram_index_default ops) r v) as [-> _]. simpl. lia.
  - destruct (insert_batch_counts (foldl index_exec trigram_index_default ops) es) as [-> _]. lia.
Qed.

(** The adaptive query never panics, and whenever it tells the caller to use
    the index its candidates are those of the plain query and include every row
    whose value contains the pattern; it does so only on tables of at least 1000
    rows and for at least 100 candidates.  In every other case the caller scans,
    so the choice never loses a row. *)
Theorem adaptive_query_complete ops p :
  ∃ o, query_with_adaptive_threshold (index_run ops) p = Ok o ∧
    ∀ res, o = Some res → use_index res = true →
      query (index_run ops) p = Some (candidates res) ∧
      (1000 ≤ Z.of_nat (length (run_entries ops)))%Z ∧ (100 ≤ Z.of_nat (length (candidates res)))%Z ∧
      ∀ r v, (r, v) ∈ run_entries ops → contains v p → r ∈ candidates res.
Proof.
  destruct (adaptive_total (index_run ops) p) as [o Ho]. exists o. split; [done|].
  intros res -> Hu. destruct (adaptive_query _ _ _ Ho Hu) as (Hq & Hrows & Hmin).
  rewrite run_rows in Hrows. split_and!; [done..|]. intros r v Hin Hv.
  assert (p ≠ []) as Hp by (by intros ->).
  destruct (query_finds _ _ _ _ _ Hp (index_run_ok ops) Hin Hv) as (c & Hc & ?).
  rewrite Hq in Hc. by injection Hc as <-.
Qed.

(** A table of 1000 rows of which 120 contain "abc": the index is used. *)
Definition large_ops : list index_op :=
  [IxBatch (map (λ i, (Z.of_nat i, [97; 98; 99]%Z)) (seq 0 120));
   IxBatch (map (λ i, (Z.of_nat i, [120; 121]%Z)) (seq 120 880))].

Lemma adaptive_query_complete_witness :
  ∃ res, query_with_adaptive_threshold (index_run large_ops) [97; 98; 99]%Z = Ok (Some res) ∧
         use_index res = true ∧ 42%Z ∈ candidates res.
Proof.
  destruct (adaptive_query_complete large_ops [97; 98; 99]%Z) as (o & Ho & H).
  destruct o as [res|].
  - exists res. assert (use_index res = true) as Hu.
    { revert Ho. vm_compute. intros [= <-]. done. }
    split_and!; [done|done|]. destruct (H res eq_refl Hu) as (_ & _ & _ & Hin).
    apply (Hin 42%Z [97; 98; 99]%Z); [by_compute|]. by exists [], [].
  - exfalso. revert Ho. by vm_compute.
Defined.

(** ** Statistics *)

Definition postings_total (m : postings) : nat := foldr (λ p n, length (snd p) + n) 0 (map_to_list m).

Lemma postings_total_fresh m g l :
  m !! g = None → postings_total (<[g := l]> m) = length l + postings_total m.
Proof.
  intros Hg. unfold postings_total.
  change (length l + _) with (foldr (λ p n, length (snd p) + n) 0 ((g, l) :: map_to_list m)).
  apply (foldr_permutation eq); [apply _|intros; cbv beta; lia|]. by apply map_to_list_insert.
Qed.

Lemma postings_total_insert m g l :
  postings_total (<[g := l]> m) + length (rows m g) = postings_total m + length l.
Proof.
  unfold rows. destruct (m !! g) as [l0|] eqn:E.
  - assert (postings_total m = length l0 + postings_total (delete g m)) as ->.
    { rewrite <- (postings_total_fresh _ g) by apply lookup_delete_eq. by rewrite insert_delete_id. }
    rewrite <- insert_delete_eq, postings_total_fresh by apply lookup_delete_eq. simpl. lia.
  - rewrite postings_total_fresh by done. simpl. lia.
Qed.

(** The running statistics agree with the posting lists. *)
Definition stats_ok (m : postings) (sm : Z * Z) : Prop :=
  fst sm = Z.of_nat (postings_total m) ∧
  (∀ g, Z.of_nat (length (rows m g)) ≤ snd sm)%Z ∧
  (snd sm = 0 ∨ ∃ g, snd sm = Z.of_nat (length (rows m g)))%Z.

Lemma record_stats_ok m sm g l :
  stats_ok m sm → length (rows m g) ≤ length l →
  stats_ok (<[g := l]> m) (record_posting_stats (length (rows m g)) (length (rows (<[g := l]> m) g)) sm).
Proof.
  intros (Hs & Hle & Hmx) Hl. destruct sm as [sum mx]. unfold record_posting_stats. cbn [fst snd] in *.
  pose proof (postings_total_insert m g l) as Ht.
  assert (rows (<[g := l]> m) g = l) as -> by (unfold rows; by rewrite lookup_insert_eq).
  split_and!; cbn [fst snd].
  - case_decide; lia.
  - intros g'. rewrite rows_insert. case_decide; [lia|]. specialize (Hle g'). lia.
  - destruct (decide (mx ≤ Z.of_nat (length l))%Z).
    + right. exists g. unfold rows. rewrite lookup_insert_eq. simpl. lia.
    + destruct Hmx as [->|[g' ->]]; [lia|]. right. exists g'. rewrite rows_insert.
      destruct (decide (g = g')) as [->|]; [lia|]. lia.
Qed.

Lemma ssorted_nodup l : ssorted l → NoDup l.
Proof.
  induction 1 as [|x l Hl IH Hx]; constructor; [|done].
  intros Hin. rewrite Forall_forall in Hx. specialize (Hx x Hin). lia.
Qed.

Lemma ssorted_sub_length l l' : ssorted l → (∀ x, x ∈ l → x ∈ l') → length l ≤ length l'.
Proof. intros Hl Hsub. apply submseteq_length, NoDup_submseteq; [by apply ssorted_nodup|done]. Qed.

Lemma insert_trigram_stats r grams s :
  post_ok (fst s) → stats_ok (fst s) (snd s) →
  let s' := foldl (insert_trigram r) s grams in stats_ok (fst s') (snd s').
Proof.
  revert s. induction grams as [|g grams IH]; intros [m sm] Hp Hs; [done|]. cbn [foldl fst snd] in *.
  destruct (posting_insert_spec r (rows m g) (Hp g)) as [Hso Hel]. apply IH.
  - intros g'. unfold insert_trigram, insert_gram. cbn [fst snd]. rewrite rows_insert. by case_decide.
  - unfold insert_trigram, insert_gram. cbn [fst snd]. apply record_stats_ok; [done|].
    apply ssorted_sub_length; [apply Hp|]. intros x Hx. apply Hel. by right.
Qed.

Lemma merge_trigram_stats l s :
  post_ok (fst s) → stats_ok (fst s) (snd s) →
  let s' := foldl merge_trigram s l in stats_ok (fst s') (snd s').
Proof.
  revert s. induction l as [|[g b] l IH]; intros [m sm] Hp Hs; [done|]. cbn [foldl fst snd] in *.
  destruct (sorted_elements_spec b) as [Hb _].
  destruct (merge_sorted_batch_spec (rows m g) _ (Hp g) Hb) as [Hso Hel]. apply IH.
  - intros g'. unfold merge_trigram, merge_gram. cbn [fst snd]. rewrite rows_insert. by case_decide.
  - unfold merge_trigram, merge_gram. cbn [fst snd]. apply record_stats_ok; [done|].
    apply ssorted_sub_length; [apply Hp|]. intros x Hx. apply Hel. by left.
Qed.

Lemma run_stats ops :
  let ix := index_run ops in stats_ok (trigrams ix) (posting_size_sum ix, max_posting_size ix).
Proof.
  induction ops as [|o ops IH] using rev_ind.
  { split_and!; [done| |by left]. intros g. unfold rows, index_run.
    cbn [foldl trigrams trigram_index_default trigram_index_new]. by rewrite lookup_empty. }
  destruct (index_run_ok ops) as ([Hp _ _] & _).
  unfold index_run in *. rewrite foldl_app. cbn [foldl]. set (ix := foldl index_exec _ ops) in *.
  destruct o as [r v|es]; cbn [index_exec]; unfold insert, insert_batch.
  - pose proof (insert_trigram_stats r (extract_trigrams v) (trigrams ix, _) Hp IH) as H.
    by destruct (foldl (insert_trigram r) _ _) as [tri [sum mx]].
  - pose proof (merge_trigram_stats (map_to_list (collect_batch extract_trigrams es))
                  (trigrams ix, _) Hp IH) as H.
    by destruct (foldl merge_trigram _ _) as [tri [sum mx]].
Qed.

(** The statistics kept incrementally are those of the posting lists: the
    running sum is the total number of postings that [total_postings] counts by
    walking the map, and the running maximum bounds every posting list and is
    the size of one of them (or 0). *)
Theorem stats_exact ops :
  let ix := index_run ops in
  posting_size_sum ix = Z.of_nat (total_postings ix) ∧
  (∀ g, Z.of_nat (length (default [] (trigrams ix !! g))) ≤ st_max_posting_list_size (index_stats ix))%Z ∧
  (st_max_posting_list_size (index_stats ix) = 0 ∨
   ∃ g, st_max_posting_list_size (index_stats ix) = Z.of_nat (length (default [] (trigrams ix !! g))))%Z.
Proof. exact (run_stats ops). Qed.
