(* ===== verification/TrigramPlan.v ===== *)
(** * Feeding and using the trigram index
    (storage/trigram_index_worker.rs, processor/physical_plan.rs)

    A table keeps one index per string column.  A worker thread per index takes
    insertion tasks from a channel; the planner turns a pushed-down filter into
    a candidate mask for the scan.  [Worker] is the state machine of the channel
    and the thread, [extract_trigram_candidates] the planner's recursion over the
    filter, and [evaluate] the part of the expression evaluator that gives the filter its
    meaning.  [CompleteIndex] is what the planner relies on; the index provides it
    for the entries that the worker has taken from its channel ([processed]),
    which need not be all rows of the table. *)
From stdpp Require Import base list gmap sorting numbers relations.
From Stdlib Require Import ZArith Lia Bool.
From S2P Require Import Prelude Trigram.

(** ** The worker *)

Abbreviation entries := (list (Z * list Z)).

Inductive TrigramIndexTask :=
  | TInsert (row_id : Z) (value : list Z)
  | TInsertBatch (es : entries)
  | TFlush
  | TShutdown.
#[export] Instance task_eq_dec : EqDecision TrigramIndexTask.
Proof. solve_decision. Defined.

(** [recv_timeout]: a task, 50 ms without one, or all senders gone. *)
Inductive received := RTask (t : TrigramIndexTask) | RTimeout | RDisconnected.

Definition BATCH_SIZE : nat := 500.

Record loop_state := mkLoop { lp_index : TrigramIndex; lp_pending : entries }.

(** [for (row_id, value) in pending.drain(..) { index.insert(row_id, &value) }] *)
Definition drain (s : loop_state) : loop_state := mkLoop (insert_all (lp_index s) (lp_pending s)) [].

(** One turn of [worker_loop]; [false]: the loop is left. *)
Definition worker_loop_body (s : loop_state) (r : received) : loop_state * bool :=
  match r with
  | RTask TShutdown => (drain s, false)
  | RTask TFlush => (drain s, true)
  | RTask (TInsert row_id value) =>
      let s' := mkLoop (lp_index s) (lp_pending s ++ [(row_id, value)]) in
      (if decide (BATCH_SIZE ≤ length (lp_pending s')) then drain s' else s', true)
  | RTask (TInsertBatch es) =>
      let s' := drain s in (mkLoop (insert_all (lp_index s') es) (lp_pending s'), true)
  | RTimeout => (s, true)
  | RDisconnected => (drain s, false)
  end.

(** The worker: the channel, the thread's locals and whether the thread runs. *)
Record Worker := mkWorker { wk_queue : list TrigramIndexTask; wk_loop : loop_state; wk_running : bool }.

Definition worker_new (ix : TrigramIndex) : Worker := mkWorker [] (mkLoop ix []) true.
Definition wk_index (w : Worker) : TrigramIndex := lp_index (wk_loop w).

(** [task_tx.send]: an error, logged and dropped, once the receiver is gone. *)
Definition send (w : Worker) (t : TrigramIndexTask) : Worker :=
  if wk_running w then mkWorker (wk_queue w ++ [t]) (wk_loop w) true else w.

Definition worker_insert (w : Worker) (row_id : Z) (value : list Z) : Worker := send w (TInsert row_id value).
Definition worker_insert_batch (w : Worker) (es : entries) : Worker := send w (TInsertBatch es).
Definition worker_flush (w : Worker) : Worker := send w TFlush.

(** The thread takes the next task, or times out on an empty channel. *)
Definition worker_step (w : Worker) : Worker :=
  if wk_running w then
    match wk_queue w with
    | t :: q => let '(s, go) := worker_loop_body (wk_loop w) (RTask t) in mkWorker q s go
    | [] => let '(s, go) := worker_loop_body (wk_loop w) RTimeout in mkWorker [] s go
    end
  else w.

(** [Drop]: send [Shutdown] and join the thread. *)
Fixpoint worker_run (n : nat) (w : Worker) : Worker :=
  match n with O => w | S n => worker_run n (worker_step w) end.
Definition worker_drop (w : Worker) : Worker :=
  let w' := send w TShutdown in worker_run (length (wk_queue w')) w'.

(** ** Filters *)

Inductive LogicalOperator := And | Or | Not | Xor.

(** The constructors of [BoundExpression] the code below distinguishes; the
    others are [BOther]. *)
Inductive BoundExpression :=
  | BString (s : list Z)
  | BPropertyLookup (var : list Z) (prop_idx : nat)
  | BLogical (lhs : BoundExpression) (op : LogicalOperator) (rhs : BoundExpression)
  | BNot (e : BoundExpression)
  | BFunction (name : list Z) (args : list BoundExpression)
  | BOther (tag : nat).

(** Function names are identifiers of the grammar, hence ASCII. *)
Definition to_uppercase (s : list Z) : list Z :=
  map (λ b, if decide (97 ≤ b ∧ b ≤ 122)%Z then (b - 32)%Z else b) s.
Definition CONTAINS : list Z := [67; 79; 78; 84; 65; 73; 78; 83]%Z.

(** The fields of [Table] that planning reads: the column names and the index of
    each indexed column. *)
Record Table := mkTable {
  tb_columns : list (list Z);
  tb_trigram_indexes : gmap (list Z) TrigramIndex;
}.

(** The CONTAINS case: the column's index, asked for the literal pattern. *)
Definition contains_candidates (table : Table) (a0 a1 : BoundExpression) : outcome (option (list Z)) :=
  let col_name := match a0 with BPropertyLookup _ prop_idx => tb_columns table !! prop_idx | _ => None end in
  let pattern := match a1 with BString s => Some s | _ => None end in
  match col_name, pattern with
  | Some c, Some p =>
      match tb_trigram_indexes table !! c with
      | Some idx =>
          let* result := query_with_adaptive_threshold idx p in
          Ok (match result with
              | Some r => if use_index r then Some (candidates r) else None
              | None => None
              end)
      | None => Ok None
      end
  | _, _ => Ok None
  end.

(** [for id in r { if l_set.remove(&id) { res.push(id) } }] *)
Fixpoint and_merge (l_set : gset Z) (r : list Z) : list Z :=
  match r with
  | [] => []
  | id :: r => if decide (id ∈ l_set) then id :: and_merge (l_set ∖ {[id]}) r else and_merge l_set r
  end.

Definition and_candidates (l r : option (list Z)) : option (list Z) :=
  match l, r with
  | Some l, Some r => Some (merge_sort Z.le (and_merge (list_to_set l) r))
  | Some l, None => Some l
  | None, Some r => Some r
  | None, None => None
  end.
Definition or_candidates (l r : option (list Z)) : option (list Z) :=
  match l, r with
  | Some l, Some r => Some (dedup (merge_sort Z.le (l ++ r)))
  | _, _ => None
  end.
(** The order of a [HashSet]'s elements is unspecified and irrelevant: the
    caller puts them in a bitmap. *)
Definition xor_candidates (l r : option (list Z)) : option (list Z) :=
  match l, r with
  | Some l, Some r =>
      let l_set : gset Z := list_to_set l in
      let r_set : gset Z := list_to_set r in
      Some (elements ((l_set ∖ r_set) ∪ (r_set ∖ l_set)))
  | _, _ => None
  end.

Fixpoint extract_trigram_candidates (table : Table) (e : BoundExpression) : outcome (option (list Z)) :=
  match e with
  | BFunction name [a0; a1] =>
      if decide (to_uppercase name = CONTAINS) then contains_candidates table a0 a1 else Ok None
  | BLogical lhs op rhs =>
      match op with
      | And => let* l := extract_trigram_candidates table lhs in
               let* r := extract_trigram_candidates table rhs in Ok (and_candidates l r)
      | Or => let* l := extract_trigram_candidates table lhs in
              let* r := extract_trigram_candidates table rhs in Ok (or_candidates l r)
      | Xor => let* l := extract_trigram_candidates table lhs in
               let* r := extract_trigram_candidates table rhs in Ok (xor_candidates l r)
      | Not => Ok None
      end
  | _ => Ok None
  end.

(** ** What a filter means *)

(** A row: its id and its column values, [None] for NULL. *)
Record Row := mkRow { row_id : Z; row_values : list (option (list Z)) }.

(** [s.contains(p)] *)
Fixpoint str_contains (s p : list Z) : bool :=
  bool_decide (take (length p) s = p) ||
  match s with [] => false | _ :: s' => str_contains s' p end.

(** arrow's [and], [or] and [not]: NULL when an operand is. *)
Definition and_null (a b : option bool) : option bool :=
  match a, b with Some x, Some y => Some (x && y) | _, _ => None end.
Definition or_null (a b : option bool) : option bool :=
  match a, b with Some x, Some y => Some (x || y) | _, _ => None end.
Definition not_null (a : option bool) : option bool := negb <$> a.
Definition contains_null (s p : option (list Z)) : option bool :=
  match s, p with Some s, Some p => Some (str_contains s p) | _, _ => None end.

Section evaluate.
  (** The expressions that are not filters over string columns. *)
  Context (other_bools : BoundExpression → list Row → list (option bool)).
  Context (other_strings : BoundExpression → list Row → list (option (list Z))).

Definition evaluate_string (e : BoundExpression) (batch : list Row) : list (option (list Z)) :=
  match e with
  | BString s => map (λ _, Some s) batch
  | BPropertyLookup _ k => map (λ r, default None (row_values r !! k)) batch
  | _ => other_strings e batch
  end.

Fixpoint evaluate (e : BoundExpression) (batch : list Row) : list (option bool) :=
  match e with
  | BLogical lhs op rhs =>
      let l := evaluate lhs batch in
      match op with
      | And =>
          (* short-circuit: nothing on the left is true or NULL *)
          if negb (existsb (λ x, match x with None => true | Some b => b end) l) then l
          else zip_with and_null l (evaluate rhs batch)
      | Xor =>
          let r := evaluate rhs batch in
          zip_with or_null (zip_with and_null l (map not_null r)) (zip_with and_null (map not_null l) r)
      | _ => zip_with or_null l (evaluate rhs batch)
      end
  | BNot e => map not_null (evaluate e batch)
  | BFunction name [a0; a1] =>
      if decide (to_uppercase name = CONTAINS)
      then zip_with contains_null (evaluate_string a0 batch) (evaluate_string a1 batch)
      else other_bools e batch
  | _ => other_bools e batch
  end.
End evaluate.

(** ** The worker loses nothing *)

Definition task_entries (t : TrigramIndexTask) : entries :=
  match t with TInsert r v => [(r, v)] | TInsertBatch es => es | _ => [] end.

(** What callers and the scheduler do to a worker. *)
Inductive worker_event := WkSend (t : TrigramIndexTask) | WkStep.
Definition worker_exec (w : Worker) (e : worker_event) : Worker :=
  match e with WkSend t => send w t | WkStep => worker_step w end.
Definition worker_trace (ix : TrigramIndex) (evs : list worker_event) : Worker :=
  foldl worker_exec (worker_new ix) evs.
Definition sent (evs : list worker_event) : entries :=
  concat (map (λ e, match e with WkSend t => task_entries t | WkStep => [] end) evs).

(** Everything sent is in the index, then pending, then queued, in order. *)
Definition worker_ok (w : Worker) (all : entries) : Prop :=
  ∃ done, index_ok (wk_index w) done ∧
    done ++ lp_pending (wk_loop w) ++ concat (map task_entries (wk_queue w)) = all.

Lemma drain_ok s done :
  index_ok (lp_index s) done →
  index_ok (lp_index (drain s)) (done ++ lp_pending s) ∧ lp_pending (drain s) = [].
Proof. intros H. split; [|done]. by apply insert_all_ok. Qed.

Lemma body_ok s t done :
  index_ok (lp_index s) done →
  let s' := fst (worker_loop_body s (RTask t)) in
  ∃ done', index_ok (lp_index s') done' ∧
    done' ++ lp_pending s' = done ++ lp_pending s ++ task_entries t.
Proof.
  intros H. destruct (drain_ok s done H) as [Hd Hp].
  destruct t as [r v|es| |]; cbn [worker_loop_body fst task_entries]; cbv zeta.
  - set (s' := mkLoop _ _). destruct (decide _).
    + exists (done ++ lp_pending s'). destruct (drain_ok s' done H) as [Hd' Hp'].
      split; [done|]. by rewrite Hp', app_nil_r.
    + by exists done.
  - exists ((done ++ lp_pending s) ++ es). cbn [lp_index lp_pending]. split.
    + by apply insert_all_ok.
    + by rewrite Hp, app_nil_r, app_assoc.
  - exists (done ++ lp_pending s). by rewrite Hp, !app_nil_r.
  - exists (done ++ lp_pending s). by rewrite Hp, !app_nil_r.
Qed.

Lemma worker_step_ok w all : worker_ok w all → worker_ok (worker_step w) all.
Proof.
  intros (done & Hd & E). unfold worker_step. destruct (wk_running w) eqn:Er; [|by exists done].
  destruct (wk_queue w) as [|t q] eqn:Eq; [by exists done|].
  destruct (body_ok (wk_loop w) t done Hd) as (done' & Hd' & E').
  destruct (worker_loop_body (wk_loop w) (RTask t)) as [s go]. exists done'. split; [done|].
  cbn [wk_loop wk_queue fst] in *. rewrite app_assoc, E', <- E. cbn [map concat].
  by rewrite <- !app_assoc.
Qed.

Lemma worker_run_ok n w all : worker_ok w all → worker_ok (worker_run n w) all.
Proof. revert w. induction n; intros w H; [done|]. by apply IHn, worker_step_ok. Qed.

Lemma send_ok w t all :
  wk_running w = true → worker_ok w all → worker_ok (send w t) (all ++ task_entries t).
Proof.
  intros Hr (done & Hd & E). unfold send. rewrite Hr. exists done. split; [done|].
  cbn [wk_loop wk_queue]. rewrite map_app, concat_app, <- E, <- !app_assoc. simpl. by rewrite app_nil_r.
Qed.

(** The thread runs until it has taken a [Shutdown]. *)
Lemma step_running w : TShutdown ∉ wk_queue w → wk_running (worker_step w) = wk_running w.
Proof.
  intros H. unfold worker_step. destruct (wk_running w) eqn:Er; [|done].
  destruct (wk_queue w) as [|[] q]; try done. exfalso. apply H. set_solver.
Qed.
Lemma step_queue w : wk_running w = true → wk_queue (worker_step w) = tail (wk_queue w).
Proof.
  intros Hr. unfold worker_step. rewrite Hr. destruct (wk_queue w) as [|t q]; [done|].
  by destruct (worker_loop_body _ _).
Qed.

Lemma run_all n w :
  wk_running w = true → TShutdown ∉ wk_queue w →
  wk_running (worker_run n w) = true ∧ wk_queue (worker_run n w) = drop n (wk_queue w).
Proof.
  revert w. induction n as [|n IH]; intros w Hr Hs; [by rewrite drop_0|]. cbn [worker_run].
  destruct (IH (worker_step w)) as [H1 H2].
  - by rewrite step_running.
  - rewrite step_queue by done. destruct (wk_queue w); simpl; set_solver.
  - split; [done|]. rewrite H2, step_queue by done. destruct (wk_queue w); simpl; by rewrite ?drop_nil.
Qed.

Lemma worker_run_app n m w : worker_run (n + m) w = worker_run m (worker_run n w).
Proof. revert w. induction n as [|n IH]; intros w; [done|]. apply IH. Qed.

(** The last task of the queue, once reached, leaves nothing pending. *)
Lemma run_last w t all :
  wk_running w = true → TShutdown ∉ wk_queue w → t = TFlush ∨ t = TShutdown →
  worker_ok w all →
  let w' := worker_run (S (length (wk_queue w))) (send w t) in
  index_ok (wk_index w') all ∧ wk_queue w' = [] ∧ wk_running w' = bool_decide (t = TFlush) ∧
  lp_pending (wk_loop w') = [].
Proof.
  intros Hr Hs Ht Hok. cbv zeta. rewrite <- Nat.add_1_r, worker_run_app.
  assert (∃ s, worker_run (length (wk_queue w)) (send w t) = mkWorker [t] s true) as [s Es].
  { revert Hr Hs. unfold send. clear Hok. destruct w as [q s go]; cbn [wk_running wk_queue wk_loop].
    intros ->. revert s. induction q as [|t0 q IH]; intros s Hs; [by exists s|].
    cbn [length worker_run]. unfold worker_step at 1. cbn [wk_running wk_queue wk_loop app].
    destruct (worker_loop_body s (RTask t0)) as [s' go] eqn:E.
    assert (go = true) as ->. { destruct t0; simpl in E; simplify_eq; try done. set_solver. }
    apply IH. set_solver. }
  assert (worker_ok (send w t) all) as Hsend.
  { rewrite <- (app_nil_r all). replace [] with (task_entries t) by (by destruct Ht as [-> | ->]).
    by apply send_ok. }
  pose proof (worker_run_ok (length (wk_queue w)) _ _ Hsend) as (done & Hd & E).
  rewrite Es in *. cbn [wk_queue wk_loop wk_index] in *. destruct (drain_ok s done Hd) as [Hd' _].
  assert (done ++ lp_pending s = all) as <-.
  { rewrite <- E. by destruct Ht as [-> | ->]; simpl; rewrite !app_nil_r. }
  destruct Ht as [-> | ->]; split_and!; done.
Qed.

Lemma trace_ok evs :
  WkSend TShutdown ∉ evs →
  let w := worker_trace trigram_index_default evs in
  worker_ok w (sent evs) ∧ wk_running w = true ∧ TShutdown ∉ wk_queue w.
Proof.
  unfold worker_trace, sent. induction evs as [|e evs IH] using rev_ind; intros Hns.
  { split_and!; [|done|set_solver]. exists []. split; [apply (index_run_ok [])|done]. }
  destruct IH as (Hok & Hr & Hs); [set_solver|].
  rewrite foldl_app, map_app, concat_app. cbn [foldl map concat]. rewrite app_nil_r.
  set (w := foldl worker_exec _ evs) in *. destruct e as [t|]; cbn [worker_exec].
  - split_and!; [by apply send_ok|unfold send; by rewrite Hr|].
    unfold send. rewrite Hr. cbn [wk_queue]. set_solver.
  - rewrite app_nil_r. split_and!; [by apply worker_step_ok|by rewrite step_running|].
    rewrite step_queue by done. destruct (wk_queue w); simpl; set_solver.
Qed.

(** Sent, but not in the index yet; and what is. *)
Definition unprocessed (w : Worker) : entries :=
  lp_pending (wk_loop w) ++ concat (map task_entries (wk_queue w)).
Definition processed (evs : list worker_event) : entries :=
  take (length (sent evs) - length (unprocessed (worker_trace trigram_index_default evs))) (sent evs).

Lemma processed_ok evs :
  WkSend TShutdown ∉ evs →
  index_ok (wk_index (worker_trace trigram_index_default evs)) (processed evs).
Proof.
  intros Hns. destruct (trace_ok evs Hns) as ((done & Hd & E) & _). unfold processed.
  fold (unprocessed (worker_trace trigram_index_default evs)) in E. rewrite <- E.
  rewrite length_app, Nat.add_sub, take_app_length. done.
Qed.

(** The history in which a flush follows and the thread gets that far. *)
Definition caught_up (evs : list worker_event) : list worker_event :=
  evs ++ WkSend TFlush ::
    replicate (S (length (wk_queue (worker_trace trigram_index_default evs)))) WkStep.

Lemma foldl_steps n w : foldl worker_exec w (replicate n WkStep) = worker_run n w.
Proof. revert w. induction n as [|n IH]; intros w; [done|]. apply IH. Qed.

Lemma caught_up_no_shutdown evs : WkSend TShutdown ∉ evs → WkSend TShutdown ∉ caught_up evs.
Proof.
  intros H [?|[?|[? _]%elem_of_replicate]%elem_of_cons]%elem_of_app; done.
Qed.

Lemma processed_caught_up evs : WkSend TShutdown ∉ evs → processed (caught_up evs) = sent evs.
Proof.
  intros Hns. destruct (trace_ok evs Hns) as (Hok & Hr & Hs).
  assert (sent (caught_up evs) = sent evs) as E.
  { unfold sent, caught_up. rewrite map_app, concat_app. cbn [map concat task_entries app].
    generalize (S (length (wk_queue (worker_trace trigram_index_default evs)))). intros n.
    assert (∀ n, concat (map (λ e, match e with WkSend t => task_entries t | WkStep => [] end)
              (replicate n WkStep)) = []) as -> by (intros m; by induction m).
    apply app_nil_r. }
  unfold processed. rewrite E. unfold worker_trace, caught_up.
  rewrite foldl_app. cbn [foldl worker_exec]. rewrite foldl_steps.
  fold (worker_trace trigram_index_default evs).
  destruct (run_last _ TFlush _ Hr Hs (or_introl eq_refl) Hok) as (_ & Hq & _ & Hp).
  unfold unprocessed. rewrite Hq, Hp. simpl. by rewrite Nat.sub_0_r, firstn_all.
Qed.

(** The index worker loses and reorders nothing: however sends and the
    thread's turns interleave, once the thread has taken a flush that follows
    them, or once the worker has been dropped and joined, the index holds exactly
    the entries sent, whatever was still queued or buffered. *)
Theorem worker_delivers evs :
  WkSend TShutdown ∉ evs →
  let w := worker_trace trigram_index_default evs in
  index_ok (wk_index (worker_run (S (length (wk_queue w))) (worker_flush w))) (sent evs) ∧
  index_ok (wk_index (worker_drop w)) (sent evs) ∧ wk_running (worker_drop w) = false.
Proof.
  intros Hns w. destruct (trace_ok evs Hns) as (Hok & Hr & Hs). fold w in Hok, Hr, Hs.
  destruct (run_last w TFlush _ Hr Hs (or_introl eq_refl) Hok) as (H1 & _).
  destruct (run_last w TShutdown _ Hr Hs (or_intror eq_refl) Hok) as (H2 & _ & H3 & _).
  split; [done|]. unfold worker_drop.
  replace (length (wk_queue (send w TShutdown))) with (S (length (wk_queue w))); [done|].
  unfold send. rewrite Hr. cbn [wk_queue]. rewrite length_app. simpl. lia.
Qed.

Lemma worker_delivers_witness :
  let evs := [WkSend (TInsert 4 [97; 98; 99]%Z); WkStep; WkSend (TInsertBatch [(9, [98; 99]%Z)]);
              WkSend (TInsert 2 [98; 99]%Z)]%Z in
  let w := worker_trace trigram_index_default evs in
  query (wk_index w) [98; 99]%Z = Some [] ∧ query (wk_index (worker_drop w)) [98; 99]%Z = Some [2; 4; 9]%Z ∧
  index_ok (wk_index (worker_drop w)) (sent evs).
Proof.
  intros evs w. split; [by vm_compute|]. split; [by vm_compute|].
  apply (worker_delivers evs). subst evs. set_solver.
Defined.

(** ** The planner against the index *)

(** What the planner relies on: when the index says so, its candidates include
    every covered row whose value contains the pattern. *)
Class CompleteIndex (ix : TrigramIndex) (covered : Z → list Z → Prop) : Prop :=
  complete_index p res r v :
    query_with_adaptive_threshold ix p = Ok (Some res) → use_index res = true →
    covered r v → contains v p → r ∈ candidates res.

(** The index delivers it for the entries it holds. *)
Lemma index_ok_complete ix es : index_ok ix es → CompleteIndex ix (λ r v, (r, v) ∈ es).
Proof.
  intros Hok p res r v Hq Hu Hin Hv. destruct (adaptive_query _ _ _ Hq Hu) as (Hc & _ & _).
  assert (p ≠ []) as Hp by (by intros ->).
  destruct (query_finds _ _ _ _ _ Hp Hok Hin Hv) as (c & Hc' & ?). rewrite Hc in Hc'. by injection Hc' as <-.
Qed.

Fixpoint xor_free (e : BoundExpression) : bool :=
  match e with
  | BLogical lhs op rhs =>
      match op with And | Or => xor_free lhs && xor_free rhs | Xor => false | Not => true end
  | _ => true
  end.

Lemma str_contains_spec s p : str_contains s p = true ↔ contains s p.
Proof.
  assert (∀ s, take (length p) s = p → contains s p) as Hpre.
  { intros s0 H. exists [], (drop (length p) s0). rewrite <- H at 1. simpl. by rewrite take_drop. }
  induction s as [|x s IH]; cbn [str_contains]; rewrite orb_true_iff, bool_decide_eq_true.
  - split; [intros [?|?]; [by apply Hpre|done]|]. intros (a & b & E).
    symmetry in E. apply app_nil in E as [-> E]. apply app_nil in E as [-> _]. by left.
  - rewrite IH. split.
    + intros [?|(a & b & ->)]; [by apply Hpre|]. by exists (x :: a), b.
    + intros (a & b & E). destruct a as [|y a]; simplify_eq/=.
      * left. rewrite E. by rewrite take_app_length.
      * right. by exists a, b.
Qed.

Lemma elem_of_and_merge ls r id : id ∈ and_merge ls r ↔ id ∈ ls ∧ id ∈ r.
Proof.
  revert ls. induction r as [|x r IH]; intros ls; simpl; [set_solver|].
  destruct (decide (x ∈ ls)).
  - rewrite !elem_of_cons, IH. destruct (decide (id = x)) as [->|]; set_solver.
  - rewrite IH. set_solver.
Qed.

Lemma elem_of_and_candidates l r c id :
  and_candidates (Some l) (Some r) = Some c → id ∈ c ↔ id ∈ l ∧ id ∈ r.
Proof.
  intros [= <-]. rewrite merge_sort_Permutation, elem_of_and_merge, elem_of_list_to_set. done.
Qed.

Lemma elem_of_or_candidates l r c id :
  or_candidates (Some l) (Some r) = Some c → id ∈ c ↔ id ∈ l ∨ id ∈ r.
Proof.
  intros [= <-]. destruct (dedup_spec (merge_sort Z.le (l ++ r))) as [_ ->].
  - apply StronglySorted_merge_sort; apply _.
  - by rewrite merge_sort_Permutation, elem_of_app.
Qed.

Lemma extract_total table e : ∃ o, extract_trigram_candidates table e = Ok o.
Proof.
  induction e as [| |lhs [l Hl] op rhs [r Hr]| |name args|]; try (by eexists).
  - cbn [extract_trigram_candidates]. rewrite Hl, Hr. destruct op; by eexists.
  - destruct args as [|a0 [|a1 [|]]]; try (by eexists). cbn [extract_trigram_candidates].
    case_decide; [|by eexists]. unfold contains_candidates.
    destruct (match a0 with BPropertyLookup _ k => _ | _ => _ end); [|by eexists].
    destruct (match a1 with BString s => _ | _ => _ end) as [p|]; [|by eexists].
    destruct (_ !! _) as [ix|]; [|by eexists].
    destruct (adaptive_total ix p) as [res ->]. by eexists.
Qed.

Section plan_correct.
  Context (other_bools : BoundExpression → list Row → list (option bool)).
  Context (other_strings : BoundExpression → list Row → list (option (list Z))).
  (** [held c]: the entries that the index of column [c] holds. *)
  Context (table : Table) (held : list Z → entries).
  Context (Hheld : ∀ c ix, tb_trigram_indexes table !! c = Some ix →
    CompleteIndex ix (λ r v, (r, v) ∈ held c)).
  Context (batch : list Row).
  Abbreviation eval := (evaluate other_bools other_strings).

(** Every string of the row in an indexed column is among the entries. *)
Definition row_held (row : Row) : Prop :=
  ∀ k c v, tb_columns table !! k = Some c → is_Some (tb_trigram_indexes table !! c) →
    row_values row !! k = Some (Some v) → (row_id row, v) ∈ held c.

Lemma contains_complete a0 a1 i row c :
  row_held row → batch !! i = Some row →
  zip_with contains_null (evaluate_string other_strings a0 batch) (evaluate_string other_strings a1 batch) !! i
    = Some (Some true) →
  contains_candidates table a0 a1 = Ok (Some c) → row_id row ∈ c.
Proof using Hheld.
  intros Hrow Hi Hev Hc. unfold contains_candidates in Hc.
  destruct a0 as [|var k| | | |]; try done. destruct (tb_columns table !! k) as [name|] eqn:Ek; [|done].
  destruct a1 as [p| | | | |]; try done. destruct (tb_trigram_indexes table !! name) as [ix|] eqn:Ei; [|done].
  destruct (query_with_adaptive_threshold ix p) as [[res|]| |] eqn:Eq; cbn [outcome_bind] in Hc; try done.
  destruct (use_index res) eqn:Eu; [|done]. injection Hc as <-.
  apply lookup_zip_with_Some in Hev as (s & q & Hs & Hv & Hq). cbn [evaluate_string] in Hv, Hq.
  rewrite list_lookup_fmap, Hi in Hv, Hq. simplify_eq/=.
  destruct (row_values row !! k) as [[v|]|] eqn:Ev; simplify_eq/=. symmetry in Hs.
  eapply (Hheld name ix); [done..| |by apply str_contains_spec].
  eapply Hrow; eauto.
Qed.

(** Where the code of a conjunction or disjunction says true. *)
Lemma eval_and_true lhs rhs i :
  eval (BLogical lhs And rhs) batch !! i = Some (Some true) →
  eval lhs batch !! i = Some (Some true) ∧ eval rhs batch !! i = Some (Some true).
Proof.
  cbn [evaluate]. destruct (negb _) eqn:En; intros H.
  - exfalso. apply negb_true_iff in En. rewrite <- not_true_iff_false, existsb_exists in En. apply En.
    exists (Some true). split; [|done]. apply list_elem_of_In. by eapply list_elem_of_lookup_2.
  - apply lookup_zip_with_Some in H as (a & b & Hab & Ha & Hb).
    destruct a as [[]|], b as [[]|]; simplify_eq/=; done.
Qed.
Lemma eval_or_true lhs rhs i :
  eval (BLogical lhs Or rhs) batch !! i = Some (Some true) →
  eval lhs batch !! i = Some (Some true) ∨ eval rhs batch !! i = Some (Some true).
Proof.
  cbn [evaluate]. intros (a & b & Hab & Ha & Hb)%lookup_zip_with_Some.
  destruct a as [[]|], b as [[]|]; simplify_eq/=; auto.
Qed.

Lemma candidates_complete e i row c :
  row_held row → xor_free e = true → batch !! i = Some row → eval e batch !! i = Some (Some true) →
  extract_trigram_candidates table e = Ok (Some c) → row_id row ∈ c.
Proof using Hheld.
  intros Hrow Hx Hi. revert c Hx. induction e as [| |lhs IHl op rhs IHr| |name args|]; intros c Hx Hev Hc; try done.
  - destruct (extract_total table lhs) as [l El], (extract_total table rhs) as [r Er].
    cbn [extract_trigram_candidates] in Hc. rewrite El, Er in Hc. cbn [outcome_bind] in Hc.
    destruct op; try done; cbn [xor_free] in Hx; apply andb_true_iff in Hx as [Hxl Hxr]; injection Hc as Hc.
    + apply eval_and_true in Hev as [Hl Hr]. destruct l as [l|], r as [r|].
      * eapply elem_of_and_candidates; [done|]. eauto.
      * injection Hc as <-. eauto.
      * injection Hc as <-. eauto.
      * done.
    + apply eval_or_true in Hev. destruct l as [l|], r as [r|]; try done.
      eapply elem_of_or_candidates; [done|]. destruct Hev; [left|right]; eauto.
  - destruct args as [|a0 [|a1 [|]]]; try done. cbn [extract_trigram_candidates evaluate] in *.
    destruct (decide (to_uppercase name = CONTAINS)); [|done]. by eapply contains_complete.
Qed.
End plan_correct.

Lemma query_only_entries ix es p r :
  index_ok ix es → r ∈ default [] (query ix p) → ∃ v, (r, v) ∈ es.
Proof.
  intros Hok Hin. destruct (decide (length p ≤ 2)) as [Hp|Hp].
  - destruct (decide (p = [])) as [->|Hne]; [set_solver|].
    apply (elem_of_query_short _ es) in Hin as (v & ? & _); [by eauto| |done].
    destruct p; simpl in *; [done|lia].
  - rewrite (elem_of_query_long ix es) in Hin by (done || lia).
    destruct p as [|a [|b [|c p]]]; simpl in Hp; try lia.
    destruct (Hin [a; b; c]) as (v & ? & _); [done|by exists [], p|]. by exists v.
Qed.

(** Candidates come from the indexes. *)
Lemma candidates_held table (held : list Z → entries) e c id :
  (∀ name ix, tb_trigram_indexes table !! name = Some ix → index_ok ix (held name)) →
  extract_trigram_candidates table e = Ok (Some c) → id ∈ c →
  ∃ name v, is_Some (tb_trigram_indexes table !! name) ∧ (id, v) ∈ held name.
Proof.
  intros Hok. revert c. induction e as [| |lhs IHl op rhs IHr| |name args|]; intros c Hc Hin; try done.
  - destruct (extract_total table lhs) as [l El], (extract_total table rhs) as [r Er].
    cbn [extract_trigram_candidates] in Hc. rewrite El, Er in Hc. cbn [outcome_bind] in Hc.
    rewrite El in IHl. rewrite Er in IHr.
    destruct op; try done; injection Hc as Hc; destruct l as [l|], r as [r|]; try done.
    + apply (elem_of_and_candidates _ _ _ _ Hc) in Hin as [Hin _]. by eapply IHl.
    + injection Hc as <-. by eapply IHl.
    + injection Hc as <-. by eapply IHr.
    + apply (elem_of_or_candidates _ _ _ _ Hc) in Hin as [Hin|Hin]; [by eapply IHl|by eapply IHr].
    + injection Hc as <-. rewrite elem_of_elements, elem_of_union, !elem_of_difference, !elem_of_list_to_set in Hin.
      destruct Hin as [[Hin _]|[Hin _]]; [by eapply IHl|by eapply IHr].
  - destruct args as [|a0 [|a1 [|]]]; try done. cbn [extract_trigram_candidates] in Hc.
    destruct (decide (to_uppercase name = CONTAINS)); [|done]. unfold contains_candidates in Hc.
    destruct (match a0 with BPropertyLookup _ k => _ | _ => _ end) as [col|]; [|done].
    destruct (match a1 with BString s => _ | _ => _ end) as [p|]; [|done].
    destruct (tb_trigram_indexes table !! col) as [ix|] eqn:Ei; [|done].
    destruct (query_with_adaptive_threshold ix p) as [[res|]| |] eqn:Eq; cbn [outcome_bind] in Hc; try done.
    destruct (use_index res) eqn:Eu; [|done]. injection Hc as <-.
    destruct (adaptive_query _ _ _ Eq Eu) as (Hq & _ & _).
    destruct (query_only_entries ix (held col) p id) as [v Hv]; [by apply Hok|by rewrite Hq|].
    exists col, v. by rewrite Ei.
Qed.

(** ** What a query is planned against

    Each indexed column has had its own history of sends and worker turns since
    the table was opened with empty indexes; the planner reads the indexes as
    they are. *)
Abbreviation histories := (gmap (list Z) (list worker_event)).
Definition planned_table (names : list (list Z)) (hist : histories) : Table :=
  mkTable names ((λ evs, wk_index (worker_trace trigram_index_default evs)) <$> hist).

(** The row's strings in indexed columns were sent, and the workers have them
    behind them. *)
Definition row_processed (names : list (list Z)) (hist : histories) (row : Row) : Prop :=
  ∀ k c evs v, names !! k = Some c → hist !! c = Some evs → row_values row !! k = Some (Some v) →
    (row_id row, v) ∈ processed evs.
Definition row_sent (names : list (list Z)) (hist : histories) (row : Row) : Prop :=
  ∀ k c evs v, names !! k = Some c → hist !! c = Some evs → row_values row !! k = Some (Some v) →
    (row_id row, v) ∈ sent evs.

Abbreviation no_shutdown := (map_Forall (λ _ evs, WkSend TShutdown ∉ evs)).

Definition held_of (hist : histories) (c : list Z) : entries := processed (default [] (hist !! c)).

Lemma planned_index names hist c ix :
  no_shutdown hist → tb_trigram_indexes (planned_table names hist) !! c = Some ix →
  index_ok ix (held_of hist c).
Proof.
  intros Hns. cbn [planned_table tb_trigram_indexes]. rewrite lookup_fmap_Some.
  intros (evs & <- & Hc). unfold held_of. rewrite Hc. apply processed_ok. by apply (Hns c).
Qed.

Lemma planned_matches_kept other_bools other_strings names hist batch e c i row :
  no_shutdown hist → xor_free e = true →
  extract_trigram_candidates (planned_table names hist) e = Ok (Some c) →
  batch !! i = Some row → row_processed names hist row →
  evaluate other_bools other_strings e batch !! i = Some (Some true) → row_id row ∈ c.
Proof.
  intros Hns Hx Hc Hi Hrow Hev.
  refine (candidates_complete _ _ (planned_table names hist) (held_of hist) _ batch e i row c _ Hx Hi Hev Hc).
  - intros col ix Hix. apply index_ok_complete. by eapply planned_index.
  - intros k col v Hk [ix Hix] Hv. cbn [planned_table tb_trigram_indexes] in Hix.
    apply lookup_fmap_Some in Hix as (evs & _ & Hevs). unfold held_of. rewrite Hevs. by eapply Hrow.
Qed.

(** C30. What the candidate mask keeps: planning always returns.  Against the
    indexes as the workers have left them, after any interleaving of sends and
    worker turns, if it returns candidates for a filter without XOR, they
    include every matching row whose strings in indexed columns the workers
    have processed, and once every worker has taken a flush sent after them,
    every matching row whose strings were sent at all.  Conversely, for any
    filter, every candidate is a row id that some worker has processed: a
    matching row none of whose strings is processed yet, because it is still
    queued, was never sent, or was stored before the table was opened, is
    masked out. *)
Theorem plan_keeps_matches other_bools other_strings names hist batch e :
  no_shutdown hist →
  let table := planned_table names hist in
  let table' := planned_table names (caught_up <$> hist) in
  let true_at i := evaluate other_bools other_strings e batch !! i = Some (Some true) in
  (∃ o, extract_trigram_candidates table e = Ok o) ∧
  (∀ c, extract_trigram_candidates table e = Ok (Some c) →
     (xor_free e = true → ∀ i row, batch !! i = Some row → row_processed names hist row →
        true_at i → row_id row ∈ c) ∧
     (∀ id, id ∈ c → ∃ col evs v, hist !! col = Some evs ∧ (id, v) ∈ processed evs)) ∧
  (∀ c, extract_trigram_candidates table' e = Ok (Some c) →
     xor_free e = true → ∀ i row, batch !! i = Some row → row_sent names hist row →
       true_at i → row_id row ∈ c).
Proof.
  intros Hns table table' true_at. split_and!; [apply extract_total|..].
  - intros c Hc. split; [eauto using planned_matches_kept|]. intros id Hid.
    destruct (candidates_held table (held_of hist) e c id) as (col & v & [ix Hix] & Hv);
      [|done..|].
    { intros col ix. by apply planned_index. }
    cbn [table planned_table tb_trigram_indexes] in Hix.
    apply lookup_fmap_Some in Hix as (evs & _ & Hevs). unfold held_of in Hv. rewrite Hevs in Hv. eauto.
  - intros c Hc Hx i row Hi Hrow Hev.
    eapply (planned_matches_kept other_bools other_strings names (caught_up <$> hist)); try done.
    + intros col evs. rewrite lookup_fmap_Some. intros (evs0 & <- & Hc0).
      apply caught_up_no_shutdown. by apply (Hns col).
    + intros k col evs v Hk. rewrite lookup_fmap_Some. intros (evs0 & <- & Hc0) Hv.
      rewrite processed_caught_up by (by apply (Hns col)). by eapply Hrow.
Qed.

(** A table with one string column, all of whose cells are indexed. *)
Definition one_column (name : list Z) (es : entries) : Table :=
  mkTable [name] {[ name := insert_batch trigram_index_default es ]}.
Definition rows_of (es : entries) : list Row := map (λ e, mkRow (fst e) [Some (snd e)]) es.

(** 120 rows that contain "abc" and "bcd" but not "abcd", and 880 others. *)
Definition broken_rows : entries :=
  map (λ i, (Z.of_nat i, if decide (i < 120) then [97; 98; 99; 88; 98; 99; 100]%Z else [120]%Z)) (seq 0 1000).
Lemma broken_rows_ids r v : (r, v) ∈ broken_rows → (r < 1000)%Z.
Proof.
  intros (i & E & [_ Hi]%elem_of_seq)%list_elem_of_fmap. apply (f_equal fst) in E. cbn [fst] in E. lia.
Qed.
Definition is_contains (p : list Z) : BoundExpression :=
  BFunction [99; 111; 110; 116; 97; 105; 110; 115]%Z [BPropertyLookup [] 0; BString p].

(** The worker has taken the 1000 rows; row 5000, sent after them, is queued. *)
Definition lagging : histories :=
  {[ [] := [WkSend (TInsertBatch broken_rows); WkStep;
            WkSend (TInsertBatch [(5000%Z, [97; 98; 99; 98; 99; 100]%Z)])] ]}.
Definition lagging_rows : list Row :=
  [mkRow 7 [Some [97; 98; 99; 88; 98; 99; 100]%Z]; mkRow 5000 [Some [97; 98; 99; 98; 99; 100]%Z]].

(** A row of one string, in the only indexed column. *)
Lemma lagging_cell (f : list worker_event → entries) r v :
  bool_decide ((r, v) ∈ f (default [] (lagging !! []))) = true →
  ∀ k c evs v', [[]] !! k = Some c → lagging !! c = Some evs →
    row_values (mkRow r [Some v]) !! k = Some (Some v') → (row_id (mkRow r [Some v]), v') ∈ f evs.
Proof.
  intros H%bool_decide_eq_true [|k] c evs v'; [|done]. intros [= <-] Hc [= <-].
  by rewrite Hc in H.
Qed.

Lemma plan_keeps_matches_witness :
  let e := BLogical (is_contains [97; 98; 99]%Z) And (is_contains [98; 99; 100]%Z) in
  (∃ c, extract_trigram_candidates (planned_table [[]] lagging) e = Ok (Some c) ∧ 7%Z ∈ c ∧ 5000%Z ∉ c) ∧
  (∃ c, extract_trigram_candidates (planned_table [[]] (caught_up <$> lagging)) e = Ok (Some c) ∧
     5000%Z ∈ c).
Proof.
  intros e.
  assert (no_shutdown lagging) as Hns.
  { apply map_Forall_singleton. intros [E|[E|[E|E%elem_of_nil]%elem_of_cons]%elem_of_cons]%elem_of_cons;
      [discriminate E..|destruct E]. }
  destruct (plan_keeps_matches (λ _ _, []) (λ _ _, []) [[]] lagging lagging_rows e Hns)
    as ([o Ho] & H1 & H2).
  assert (∃ c, extract_trigram_candidates (planned_table [[]] lagging) e = Ok (Some c)) as [c Hc].
  { eexists. by vm_compute. }
  assert (∃ c, extract_trigram_candidates (planned_table [[]] (caught_up <$> lagging)) e
               = Ok (Some c)) as [c' Hc'].
  { eexists. by vm_compute. }
  split; [exists c|exists c'; split; [done|]].
  - destruct (H1 c Hc) as [Hin Hout]. split_and!; [done| |].
    + apply (Hin eq_refl 0 (mkRow 7 [Some [97; 98; 99; 88; 98; 99; 100]%Z])); [done| |by vm_compute].
      intros k col evs v. apply (lagging_cell processed). by vm_compute.
    + intros Hin'. destruct (Hout _ Hin') as (col & evs & v & Hcol & Hv).
      unfold lagging in Hcol. apply lookup_singleton_Some in Hcol as [<- <-].
      assert (processed [WkSend (TInsertBatch broken_rows); WkStep;
            WkSend (TInsertBatch [(5000%Z, [97; 98; 99; 98; 99; 100]%Z)])] = broken_rows) as E
        by (by vm_compute).
      rewrite E in Hv. apply broken_rows_ids in Hv. clear -Hv. lia.
  - apply (H2 c' Hc' eq_refl 1 (mkRow 5000 [Some [97; 98; 99; 98; 99; 100]%Z])); [done| |by vm_compute].
    intros k col evs v. apply (lagging_cell sent). by vm_compute.
Defined.

(** With XOR the mask loses rows: candidates over-approximate the matches,
    and their symmetric difference drops a row that is a candidate on both sides
    but matches on one.  Here 120 rows satisfy
    CONTAINS(c, "abcd") XOR CONTAINS(c, "abc"), the index holds the whole table,
    and none of them is in the candidate list. *)
Theorem xor_drops_matches other_bools other_strings :
  let table := one_column [] broken_rows in
  let e := BLogical (is_contains [97; 98; 99; 100]%Z) Xor (is_contains [97; 98; 99]%Z) in
  index_ok (insert_batch trigram_index_default broken_rows) broken_rows ∧
  extract_trigram_candidates table e = Ok (Some []) ∧
  Forall (λ i, evaluate other_bools other_strings e (rows_of broken_rows) !! i = Some (Some true)) (seq 0 120).
Proof.
  intros table e. split; [|split; [by vm_compute|]].
  { pose proof (index_run_ok [IxBatch broken_rows]) as H. unfold run_entries in H.
    cbn [map concat op_entries] in H. by rewrite app_nil_r in H. }
  apply Forall_forall. intros i [_ Hi]%elem_of_seq. subst e.
  assert (forallb (λ i, bool_decide (evaluate other_bools other_strings
    (BLogical (is_contains [97; 98; 99; 100]%Z) Xor (is_contains [97; 98; 99]%Z))
    (rows_of broken_rows) !! i = Some (Some true))) (seq 0 120) = true) as H by (by vm_compute).
  rewrite forallb_forall in H. specialize (H i). rewrite bool_decide_eq_true in H.
  apply H, in_seq. lia.
Qed.

(** Flushing does not wait: [flush] only queues a task, so a query planned
    right after an insertion and a flush still reads the old index.  Whatever
    the worker's history, a row id that no earlier send mentions is queued but in
    no candidate list, whatever its value. *)
Theorem flush_does_not_wait evs r v var p c cands :
  WkSend TShutdown ∉ evs → (∀ v', (r, v') ∉ sent evs) →
  let w := worker_flush (worker_insert_batch (worker_trace trigram_index_default evs) [(r, v)]) in
  extract_trigram_candidates (mkTable [c] {[ c := wk_index w ]})
    (BFunction CONTAINS [BPropertyLookup var 0; BString p]) = Ok (Some cands) →
  (r, v) ∈ concat (map task_entries (wk_queue w)) ∧ r ∉ cands.
Proof.
  intros Hns Hr w. destruct (trace_ok evs Hns) as ((done & Hd & E) & Hrun & _).
  subst w. set (w0 := worker_trace _ evs) in *. unfold worker_flush, worker_insert_batch, send.
  rewrite Hrun. cbn [wk_running wk_queue wk_index wk_loop]. intros Hc. split.
  { rewrite !map_app, !concat_app. simpl. set_solver. }
  cbn [extract_trigram_candidates] in Hc. rewrite decide_True in Hc by by_compute.
  unfold contains_candidates in Hc. cbn [tb_columns tb_trigram_indexes lookup list_lookup] in Hc.
  rewrite lookup_singleton_eq in Hc.
  destruct (query_with_adaptive_threshold _ p) as [[res|]| |] eqn:Eq; cbn [outcome_bind] in Hc; try done.
  destruct (use_index res) eqn:Eu; [|done]. injection Hc as <-.
  destruct (adaptive_query _ _ _ Eq Eu) as (Hq & _ & _). intros Hin.
  destruct (query_only_entries (lp_index (wk_loop w0)) done p r Hd) as [v' Hv'].
  - unfold wk_index in Hq. cbn [wk_loop] in Hq. by rewrite Hq.
  - apply (Hr v'). rewrite <- E. set_solver.
Qed.

Lemma flush_does_not_wait_witness :
  let evs := [WkSend (TInsertBatch broken_rows); WkStep] in
  let w := worker_flush (worker_insert_batch (worker_trace trigram_index_default evs)
             [(5000%Z, [97; 98; 99]%Z)]) in
  ∃ cands,
    extract_trigram_candidates (mkTable [[]] {[ [] := wk_index w ]})
      (BFunction CONTAINS [BPropertyLookup [] 0; BString [97; 98; 99]%Z]) = Ok (Some cands) ∧
    length cands = 120 ∧ str_contains [97; 98; 99]%Z [97; 98; 99]%Z = true ∧ 5000%Z ∉ cands.
Proof.
  intros evs w. eexists (map Z.of_nat (seq 0 120)).
  assert (extract_trigram_candidates (mkTable [[]] {[ [] := wk_index w ]})
    (BFunction CONTAINS [BPropertyLookup [] 0; BString [97; 98; 99]%Z])
    = Ok (Some (map Z.of_nat (seq 0 120)))) as Hc by (by vm_compute).
  split_and!; [done|done|by vm_compute|].
  refine (proj2 (flush_does_not_wait evs 5000 [97; 98; 99]%Z [] [97; 98; 99]%Z [] _ _ _ Hc)).
  - intros [E|[E|E%elem_of_nil]%elem_of_cons]%elem_of_cons; [discriminate E..|destruct E].
  - intros v' H. unfold sent in H. subst evs. cbn [map concat task_entries app] in H. rewrite app_nil_r in H.
    by apply broken_rows_ids in H.
Defined.
