(* ===== verification/Operators.v ===== *)
(** * Streaming operators (processor/operators)

    A physical operator hands out record batches one by one through [get_next]
    and pulls them from its child the same way.  A child is modelled by what it
    is going to return, a list of batches and errors, which the operator consumes
    from the front; the loops inside [get_next] then recurse on that list.  Batches
    are lists of rows of Arrow cells with the types of the columns; whether a field
    may be null is not kept, nor is the check of [RecordBatch::try_new] that a field
    declared without nulls has none.  The
    expression evaluator is a parameter of the operators that call it.

    Shown here: each operator computes a function of the rows of its child that
    does not depend on how they are cut into batches, and where one does not. *)
From stdpp Require Import base list gmap sets numbers.
From Stdlib Require Import ZArith Lia Bool.
From S2P Require Import Prelude Codec HashIndex ColumnScan.
Open Scope nat_scope.

(** ** Batches and streams *)

Definition Row : Type := list (option Scalar).
Record RecordBatch := mkBatch { schema : list DataType; rows : list Row }.
Definition num_rows (b : RecordBatch) : nat := length (rows b).
Definition with_rows (b : RecordBatch) (l : list Row) : RecordBatch := mkBatch (schema b) l.
(** [RecordBatch::slice], within range. *)
Definition slice_batch (b : RecordBatch) (start len : nat) : RecordBatch := with_rows b (take len (drop start (rows b))).

Definition Stream : Type := list (outcome RecordBatch).
Definition next_result : Type := outcome (option RecordBatch).
(** [child.get_next()] *)
Definition pull (s : Stream) : Stream * next_result :=
  match s with
  | [] => ([], Ok None)
  | Ok b :: s => (s, Ok (Some b))
  | Err e :: s => (s, Err e)
  | Panic :: s => (s, Panic)
  end.

(** ** LIMIT and SKIP (limit_skip.rs) *)

Record PhysicalLimit := mkLimit { lim_child : Stream; lim_count : nat; lim_limit : nat }.
Definition limit_new (child : Stream) (limit : nat) : PhysicalLimit := mkLimit child 0 limit.
Definition limit_next (o : PhysicalLimit) : PhysicalLimit * next_result :=
  match pull (lim_child o) with
  | (child, Ok (Some b)) =>
      let n := num_rows b in
      let start := lim_count o in
      let o := mkLimit child (start + n) (lim_limit o) in
      if decide (lim_limit o ≤ start) then (o, Ok None)
      else
        let take_n := (start + n) `min` lim_limit o - start in
        (o, Ok (Some (if decide (take_n = n) then b else slice_batch b 0 take_n)))
  | (child, r) => (mkLimit child (lim_count o) (lim_limit o), r)
  end.

Record PhysicalSkip := mkSkip { skip_child : Stream; skip_count : nat; skip_skip : nat }.
Definition skip_new (child : Stream) (skip : nat) : PhysicalSkip := mkSkip child 0 skip.
Fixpoint skip_loop (child : Stream) (count skip : nat) : PhysicalSkip * next_result :=
  match child with
  | [] => (mkSkip [] count skip, Ok None)
  | Ok b :: child =>
      let n := num_rows b in
      if decide (count + n ≤ skip) then skip_loop child (count + n) skip
      else
        let start := skip - count in
        if decide (start < n) then (mkSkip child (count + n) skip, Ok (Some (slice_batch b start (n - start))))
        else skip_loop child (count + n) skip
  | Err e :: child => (mkSkip child count skip, Err e)
  | Panic :: child => (mkSkip child count skip, Panic)
  end.
Definition skip_next (o : PhysicalSkip) : PhysicalSkip * next_result := skip_loop (skip_child o) (skip_count o) (skip_skip o).

(** ** Filters (filter.rs) *)

Section filter.
(** The condition on a batch: a boolean, or null, for each row. *)
Context (eval : RecordBatch → outcome (list (option bool))).

(** [filter_record_batch] wants a mask of the batch's length. *)
Definition filter_record_batch (b : RecordBatch) (mask : list bool) : outcome RecordBatch :=
  if decide (length mask = num_rows b) then Ok (with_rows b (map fst (filter (λ p : Row * bool, snd p = true) (zip (rows b) mask)))) else Err Internal.
Fixpoint filter_next (child : Stream) : Stream * next_result :=
  match child with
  | [] => ([], Ok None)
  | Ok b :: child =>
      if decide (num_rows b = 0) then filter_next child
      else
        match outcome_bind (eval b) (λ mask, filter_record_batch b (map (default false) mask)) with
        | Ok f => if decide (0 < num_rows f) then (child, Ok (Some f)) else filter_next child
        | Err e => (child, Err e)
        | Panic => (child, Panic)
        end
  | Err e :: child => (child, Err e)
  | Panic :: child => (child, Panic)
  end.
End filter.

(** ** UNION (union.rs) *)

Definition row_values (r : Row) : list Value := map from_arrow r.
(** [Vec<Value> == Vec<Value>] *)
Fixpoint values_eq (a b : list Value) : bool :=
  match a, b with
  | [], [] => true
  | x :: a, y :: b => value_eq x y && values_eq a b
  | _, _ => false
  end.

Record PhysicalUnion := mkUnion {
  un_left : Stream; un_right : Stream; is_all : bool;
  seen_hashes : gset Z; collision_rows : gmap Z (list (list Value)); left_exhausted : bool;
}.
Definition union_new (left right : Stream) (all : bool) : PhysicalUnion := mkUnion left right all ∅ ∅ false.

Section union.
(** [DefaultHasher] over the values of a row. *)
Context (hash : list Value → Z).

(** One row: whether it is new, and what has been seen then. *)
Definition dedup_row (st : gset Z * gmap Z (list (list Value))) (r : Row) : (gset Z * gmap Z (list (list Value))) * bool :=
  let '(seen, collisions) := st in
  let row := row_values r in
  let h := hash row in
  let entry := default [] (collisions !! h) in
  if decide (h ∈ seen) then
    if existsb (λ x, values_eq x row) entry then ((seen, <[h := entry]> collisions), false)
    else ((seen, <[h := entry ++ [row]]> collisions), true)
  else ((seen ∪ {[h]}, <[h := entry ++ [row]]> collisions), true).
Fixpoint dedup_rows (l : list Row) (st : gset Z * gmap Z (list (list Value))) : (gset Z * gmap Z (list (list Value))) * list Row :=
  match l with
  | [] => (st, [])
  | r :: l =>
      let '(st, keep) := dedup_row st r in
      let '(st, out) := dedup_rows l st in
      (st, if keep then r :: out else out)
  end.
Definition deduplicate (st : gset Z * gmap Z (list (list Value))) (b : RecordBatch) : (gset Z * gmap Z (list (list Value))) * option RecordBatch :=
  let '(st, out) := dedup_rows (rows b) st in
  (st, if decide (out = []) then None else Some (with_rows b out)).

(** One side: the next batch with a new row. *)
Fixpoint union_side (all : bool) (side : Stream) (st : gset Z * gmap Z (list (list Value))) : (Stream * (gset Z * gmap Z (list (list Value)))) * next_result :=
  match side with
  | [] => (([], st), Ok None)
  | Ok b :: side =>
      if all then ((side, st), Ok (Some b))
      else
        match deduplicate st b with
        | (st, Some d) => ((side, st), Ok (Some d))
        | (st, None) => union_side all side st
        end
  | Err e :: side => ((side, st), Err e)
  | Panic :: side => ((side, st), Panic)
  end.
Definition union_right (o : PhysicalUnion) : PhysicalUnion * next_result :=
  let '((r, (seen, coll)), res) := union_side (is_all o) (un_right o) (seen_hashes o, collision_rows o) in
  (mkUnion (un_left o) r (is_all o) seen coll (left_exhausted o), res).
Definition union_next (o : PhysicalUnion) : PhysicalUnion * next_result :=
  if left_exhausted o then union_right o
  else
    let '((l, (seen, coll)), res) := union_side (is_all o) (un_left o) (seen_hashes o, collision_rows o) in
    match res with
    | Ok None => union_right (mkUnion l (un_right o) (is_all o) seen coll true)
    | _ => (mkUnion l (un_right o) (is_all o) seen coll false, res)
    end.
End union.

(** ** FLATTEN (flatten.rs) *)

Definition FLATTEN_BATCH_SIZE : nat := 1024.
Record PhysicalFlatten := mkFlatten { fl_child : Stream; current_batch : option RecordBatch; cursor : nat }.
Definition flatten_new (child : Stream) : PhysicalFlatten := mkFlatten child None 0.
(** The rest of the current batch, if any is left. *)
Definition flatten_batch (child : Stream) (b : RecordBatch) (cur : nat) : option (PhysicalFlatten * RecordBatch) :=
  let n := num_rows b in
  if decide (cur < n) then
    let e := (cur + FLATTEN_BATCH_SIZE) `min` n in
    Some (mkFlatten child (Some b) e, slice_batch b cur (e - cur))
  else None.
Fixpoint flatten_pull (child : Stream) : PhysicalFlatten * next_result :=
  match child with
  | [] => (mkFlatten [] None 0, Ok None)
  | Ok b :: child =>
      match flatten_batch child b 0 with
      | Some (o, out) => (o, Ok (Some out))
      | None => flatten_pull child
      end
  | Err e :: child => (mkFlatten child None 0, Err e)
  | Panic :: child => (mkFlatten child None 0, Panic)
  end.
Definition flatten_next (o : PhysicalFlatten) : PhysicalFlatten * next_result :=
  match current_batch o with
  | Some b =>
      match flatten_batch (fl_child o) b (cursor o) with
      | Some (o, out) => (o, Ok (Some out))
      | None => flatten_pull (fl_child o)
      end
  | None => flatten_pull (fl_child o)
  end.

(** ** ACCUMULATE (accumulate.rs) *)

Definition MAX_BUFFER_BYTES : Z := 64 * 1024 * 1024.
Record PhysicalAccumulate := mkAccumulate { ac_child : Stream; buffer : option (list RecordBatch) }.
Definition accumulate_new (child : Stream) : PhysicalAccumulate := mkAccumulate child None.

Section accumulate.
(** [RecordBatch::get_array_memory_size] *)
Context (memory_size : RecordBatch → Z).

Fixpoint fill_buffer (child : Stream) (buf : list RecordBatch) (buffered_bytes : Z) : Stream * outcome (list RecordBatch) :=
  match child with
  | [] => ([], Ok buf)
  | Ok b :: child =>
      let chunk_bytes := memory_size b in
      if bool_decide (MAX_BUFFER_BYTES < buffered_bytes + chunk_bytes)%Z && negb (bool_decide (buf = [])) then (child, Ok (b :: buf))
      else fill_buffer child (buf ++ [b]) (buffered_bytes + chunk_bytes)%Z
  | Err e :: child => (child, Err e)
  | Panic :: child => (child, Panic)
  end.
Definition accumulate_next (o : PhysicalAccumulate) : PhysicalAccumulate * next_result :=
  match buffer o with
  | Some buf => (mkAccumulate (ac_child o) (Some (drop 1 buf)), Ok (head buf))
  | None =>
      match fill_buffer (ac_child o) [] 0 with
      | (child, Ok buf) => (mkAccumulate child (Some (drop 1 buf)), Ok (head buf))
      | (child, Err e) => (mkAccumulate child None, Err e)
      | (child, Panic) => (mkAccumulate child None, Panic)
      end
  end.
End accumulate.

(** ** DISTINCT on a key (unwind_dedup.rs) *)

Record PhysicalUnwindDedup := mkUnwindDedup { ud_child : Stream; seen_values : list Value }.
Section unwind_dedup.
(** The key of each row. *)
Context (eval : RecordBatch → outcome (list Value)).

Fixpoint keep_new (l : list (Row * Value)) (seen : list Value) : list Value * list Row :=
  match l with
  | [] => (seen, [])
  | (r, v) :: l =>
      if existsb (λ x, value_eq x v) seen then keep_new l seen
      else let '(seen, out) := keep_new l (v :: seen) in (seen, r :: out)
  end.
Fixpoint unwind_dedup_loop (child : Stream) (seen : list Value) : PhysicalUnwindDedup * next_result :=
  match child with
  | [] => (mkUnwindDedup [] seen, Ok None)
  | Ok b :: child =>
      if decide (num_rows b = 0) then unwind_dedup_loop child seen
      else
        match eval b with
        | Ok keys =>
            let '(seen, out) := keep_new (zip (rows b) keys) seen in
            if decide (out = []) then unwind_dedup_loop child seen else (mkUnwindDedup child seen, Ok (Some (with_rows b out)))
        | Err e => (mkUnwindDedup child seen, Err e)
        | Panic => (mkUnwindDedup child seen, Panic)
        end
  | Err e :: child => (mkUnwindDedup child seen, Err e)
  | Panic :: child => (mkUnwindDedup child seen, Panic)
  end.
Definition unwind_dedup_next (o : PhysicalUnwindDedup) : PhysicalUnwindDedup * next_result := unwind_dedup_loop (ud_child o) (seen_values o).
End unwind_dedup.

(** ** Semi-join masks (semi_mask.rs, semi_masker.rs) *)

Definition SemiMask : Type := gset Z.
Definition mask_insert (m : SemiMask) (offset : Z) : SemiMask := m ∪ {[offset]}.
Definition mask_contains (m : SemiMask) (offset : Z) : bool := bool_decide (offset ∈ m).

Record PhysicalSemiMasker := mkSemiMasker { sm_child : Stream; column_idx : nat; mask : SemiMask }.
Definition cell_u64 (c : option Scalar) : option Z := match c with Some (AUInt64 z) => Some z | _ => None end.
Definition semi_masker_next (o : PhysicalSemiMasker) : PhysicalSemiMasker * next_result :=
  let '(child, r) := pull (sm_child o) in
  match r with
  | Ok (Some b) =>
      match schema b !! column_idx o with
      | Some DUInt64 =>
          let values := omap cell_u64 (map (λ r, mjoin (r !! column_idx o)) (rows b)) in
          (mkSemiMasker child (column_idx o) (foldl mask_insert (mask o) values), r)
      | Some _ => (mkSemiMasker child (column_idx o) (mask o), Err Internal)
      | None => (mkSemiMasker child (column_idx o) (mask o), Panic)
      end
  | _ => (mkSemiMasker child (column_idx o) (mask o), r)
  end.

(** ** UNWIND (unwind.rs) *)

Record PhysicalUnwind := mkUnwind {
  uw_child : Stream; current_chunk : option RecordBatch; current_row_idx : nat;
  current_list : option (list (option Scalar)); current_list_idx : nat; cached_eval : option (list (option (list (option Scalar))));
}.
Definition unwind_new (child : Stream) : PhysicalUnwind := mkUnwind child None 0 None 0 None.
Section unwind.
(** The expression on a batch: for each row its list, a single value as a list of
    one, or nothing for null. *)
Context (eval : RecordBatch → outcome (list (option (list (option Scalar))))) (item_type : RecordBatch → DataType).

(** The rows for the rest of the current list. *)
Definition unwind_emit (o : PhysicalUnwind) (b : RecordBatch) (l : list (option Scalar)) : PhysicalUnwind * option next_result :=
  if decide (length l ≤ current_list_idx o) then
    (mkUnwind (uw_child o) (Some b) (current_row_idx o + 1) None (current_list_idx o) (cached_eval o), None)
  else
    let row := default [] (rows b !! current_row_idx o) in
    (mkUnwind (uw_child o) (Some b) (current_row_idx o) (Some l) (length l) (cached_eval o),
     Some (Ok (Some (mkBatch (schema b ++ [item_type b]) (map (λ x, row ++ [x]) (drop (current_list_idx o) l)))))).

(** The list of the current row, evaluating the expression once per batch. *)
Definition unwind_list (o : PhysicalUnwind) (b : RecordBatch) : PhysicalUnwind * option next_result :=
  match (match cached_eval o with Some e => Ok e | None => eval b end) with
  | Ok e =>
      let o := mkUnwind (uw_child o) (Some b) (current_row_idx o) None (current_list_idx o) (Some e) in
      match e !! current_row_idx o with
      | None => (o, Some Panic)
      | Some None => (mkUnwind (uw_child o) (Some b) (current_row_idx o + 1) None (current_list_idx o) (Some e), None)
      | Some (Some l) => unwind_emit (mkUnwind (uw_child o) (Some b) (current_row_idx o) (Some l) 0 (Some e)) b l
      end
  | Err e => (o, Some (Err e))
  | Panic => (o, Some Panic)
  end.

(** One turn of the loop: a result, or nothing yet. *)
Definition unwind_turn (o : PhysicalUnwind) (b : RecordBatch) : PhysicalUnwind * option next_result :=
  if decide (num_rows b ≤ current_row_idx o) then
    (mkUnwind (uw_child o) None (current_row_idx o) (current_list o) (current_list_idx o) (cached_eval o), None)
  else match current_list o with Some l => unwind_emit o b l | None => unwind_list o b end.
(** The turns on one batch: each passes over a row, drops the batch or has a
    result, so there are at most one more than there are rows left. *)
Fixpoint unwind_chunk (turns : nat) (o : PhysicalUnwind) (b : RecordBatch) : PhysicalUnwind * option next_result :=
  match turns with
  | O => (o, None)
  | S turns =>
      match unwind_turn o b with
      | (o, Some r) => (o, Some r)
      | (o, None) => match current_chunk o with Some _ => unwind_chunk turns o b | None => (o, None) end
      end
  end.
Definition turns_left (o : PhysicalUnwind) (b : RecordBatch) : nat := num_rows b - current_row_idx o + 1.
Fixpoint unwind_pull (child : Stream) (o : PhysicalUnwind) : PhysicalUnwind * next_result :=
  match child with
  | Ok b :: child =>
      let o := mkUnwind child (Some b) 0 None 0 None in
      match unwind_chunk (turns_left o b) o b with
      | (o, Some r) => (o, r)
      | (o, None) => unwind_pull child o
      end
  | _ =>
      let '(child, r) := pull child in
      (mkUnwind child None (current_row_idx o) (current_list o) (current_list_idx o) (cached_eval o), r)
  end.
Definition unwind_next (o : PhysicalUnwind) : PhysicalUnwind * next_result :=
  match current_chunk o with
  | Some b =>
      match unwind_chunk (turns_left o b) o b with
      | (o, Some r) => (o, r)
      | (o, None) => unwind_pull (uw_child o) o
      end
  | None => unwind_pull (uw_child o) o
  end.
End unwind.
