(* ===== verification/OperatorsSpec.v ===== *)
(** * What the streaming operators compute (processor/operators)

    Each operator, pulled until it returns nothing, hands out a function of the
    rows of its child, however these are cut into batches: a prefix, a suffix, the
    rows that satisfy a condition, the first of each set of equal rows, the rows
    extended with the elements of a list.  Accumulate is the exception. *)
From stdpp Require Import base list gmap sets numbers.
From Stdlib Require Import ZArith Lia Bool.
From S2P Require Import Prelude Codec HashIndex Column ColumnScan Operators.
Open Scope nat_scope.

(** ** Pulling until the end *)

Definition all_rows (bs : list RecordBatch) : list Row := concat (map rows bs).

(** From this state the operator hands out these batches and then nothing. *)
Inductive produces {S : Type} (next : S → S * next_result) : S → list RecordBatch → Prop :=
| produces_end s s' : next s = (s', Ok None) → produces next s []
| produces_next s s' b bs : next s = (s', Ok (Some b)) → produces next s' bs → produces next s (b :: bs).

(** The loop of the executor: the batches up to the end or the first error. *)
Fixpoint drain {S : Type} (next : S → S * next_result) (fuel : nat) (s : S) : Stream :=
  match fuel with
  | O => []
  | S fuel =>
      match next s with
      | (s, Ok (Some b)) => Ok b :: drain next fuel s
      | (_, Ok None) => []
      | (_, Err e) => [Err e]
      | (_, Panic) => [Panic]
      end
  end.

Lemma produces_drain {S} (next : S → S * next_result) s bs fuel : produces next s bs → length bs ≤ fuel → drain next fuel s = map Ok bs.
Proof.
  intros H. revert fuel. induction H as [s s' E|s s' b bs E H IH]; intros fuel Hf.
  - destruct fuel; [done|]. cbn. by rewrite E.
  - destruct fuel; cbn [length] in Hf; [lia|]. cbn. rewrite E, IH by lia. done.
Qed.

Lemma produces_same {S} (next : S → S * next_result) s t bs : next s = next t → produces next t bs → produces next s bs.
Proof. intros E H. inversion H as [? ? E'|? ? ? ? E' H']; subst; [eapply produces_end|eapply produces_next; [|exact H']]; by rewrite E. Qed.

Lemma all_rows_cons b bs : all_rows (b :: bs) = rows b ++ all_rows bs.
Proof. done. Qed.
Lemma all_rows_app a b : all_rows (a ++ b) = all_rows a ++ all_rows b.
Proof. unfold all_rows. by rewrite map_app, concat_app. Qed.
Lemma rows_slice b start len : rows (slice_batch b start len) = take len (drop start (rows b)).
Proof. done. Qed.

(** ** LIMIT and SKIP *)

Lemma limit_produces bs count limit :
  ∃ out, produces limit_next (mkLimit (map Ok bs) count limit) out ∧ all_rows out = take (limit - count) (all_rows bs).
Proof.
  revert count. induction bs as [|b bs IH]; intros count.
  { exists []. split; [by eapply produces_end|cbn; by rewrite take_nil]. }
  rewrite all_rows_cons. destruct (decide (limit ≤ count)) as [Hle|Hgt].
  { exists []. split; [eapply produces_end; unfold limit_next; cbn; by rewrite decide_True|]. by replace (limit - count) with 0 by lia. }
  destruct (IH (count + num_rows b)) as (out & Hp & Ho). eexists (_ :: out). split.
  - eapply produces_next; [|exact Hp]. unfold limit_next. cbn [pull map lim_child]. cbn [lim_count lim_limit]. rewrite decide_False by lia. reflexivity.
  - rewrite all_rows_cons, Ho. unfold num_rows in *. rewrite take_app. replace (limit - (count + length (rows b))) with (limit - count - length (rows b)) by lia. f_equal.
    case_decide as Ht; [by rewrite take_ge by lia|]. rewrite rows_slice, drop_0. f_equal. lia.
Qed.

Lemma skip_produces bs count skip :
  ∃ out, produces skip_next (mkSkip (map Ok bs) count skip) out ∧ all_rows out = drop (skip - count) (all_rows bs).
Proof.
  revert count. induction bs as [|b bs IH]; intros count.
  { exists []. split; [by eapply produces_end|cbn; by rewrite drop_nil]. }
  rewrite all_rows_cons, drop_app. unfold num_rows in *. destruct (IH (count + num_rows b)) as (out & Hp & Ho). unfold num_rows in *.
  replace (skip - (count + length (rows b))) with (skip - count - length (rows b)) in Ho by lia.
  destruct (decide (count + length (rows b) ≤ skip)) as [Hle|Hgt].
  { exists out. split; [|rewrite Ho, (drop_ge (rows b)) by lia; done]. eapply produces_same; [|exact Hp].
    unfold skip_next. cbn [map skip_child skip_count skip_skip skip_loop]. unfold num_rows. by rewrite decide_True. }
  destruct (decide (skip - count < length (rows b))) as [Hlt|Hge].
  - eexists (_ :: out). split; [eapply produces_next; [|exact Hp]|rewrite all_rows_cons, Ho; f_equal].
    + unfold skip_next. cbn [map skip_child skip_count skip_skip skip_loop]. unfold num_rows. rewrite decide_False, decide_True by lia. reflexivity.
    + rewrite rows_slice. apply take_ge. rewrite length_drop. lia.
  - exists out. split; [|rewrite Ho, (drop_ge (rows b)) by lia; done]. eapply produces_same; [|exact Hp].
    unfold skip_next. cbn [map skip_child skip_count skip_skip skip_loop]. unfold num_rows. by rewrite decide_False, decide_False by lia.
Qed.

(** ** Filters *)

Section masks.
Context (eval : RecordBatch → outcome (list (option bool))) (q : Row → bool).
(** The mask of a batch, null counting as false, is [q] row by row. *)
Definition mask_ok (b : RecordBatch) : Prop := ∃ m, eval b = Ok m ∧ map (default false) m = map q (rows b).

Lemma filter_batch_rows b : filter_record_batch b (map q (rows b)) = Ok (with_rows b (filter (λ r, q r = true) (rows b))).
Proof.
  unfold filter_record_batch, num_rows. rewrite !length_map, decide_True by done. do 2 f_equal. induction (rows b) as [|r l IH]; [done|].
  cbn [map zip]. rewrite !filter_cons. cbn [snd]. destruct (decide (q r = true)); [cbn [map fst]; by rewrite IH|done].
Qed.
Lemma filter_masks bs : Forall mask_ok bs → ∃ out, produces (filter_next eval) (map Ok bs) out ∧ all_rows out = filter (λ r, q r = true) (all_rows bs).
Proof.
  induction 1 as [|b bs (m & Hm & Hq) _ (out & Hp & Ho)].
  { exists []. split; [by eapply produces_end|done]. }
  rewrite all_rows_cons, list.filter_app, <- Ho.
  assert (∀ l, filter_next eval (map Ok (b :: bs)) = filter_next eval (map Ok bs) → l = [] → ∃ out', produces (filter_next eval) (map Ok (b :: bs)) out' ∧ all_rows out' = l ++ all_rows out) as Hskip.
  { intros l E ->. exists out. split; [|done]. by eapply produces_same. }
  cbn [map filter_next]. destruct (decide (num_rows b = 0)) as [H0|H0].
  { apply Hskip; [cbn [map filter_next]; by rewrite decide_True|]. apply nil_length_inv in H0. by rewrite H0. }
  destruct (decide (0 < length (filter (λ r, q r = true) (rows b)))) as [Hpos|Hz].
  - exists (with_rows b (filter (λ r, q r = true) (rows b)) :: out). split; [|done]. eapply produces_next; [|exact Hp].
    cbn [map filter_next]. rewrite decide_False by done. rewrite Hm. cbn [outcome_bind]. rewrite Hq, filter_batch_rows. cbn. by rewrite decide_True.
  - apply Hskip; [cbn [map filter_next]; rewrite decide_False by done; rewrite Hm; cbn [outcome_bind]; rewrite Hq, filter_batch_rows; cbn; by rewrite decide_False|].
    apply nil_length_inv. lia.
Qed.
End masks.

Section filter.
Context (eval : RecordBatch → outcome (list (option bool))) (p : Row → option bool).
(** The condition is evaluated row by row. *)
Context (Heval : ∀ b, eval b = Ok (map p (rows b))).
Definition passes (r : Row) : bool := default false (p r).
Lemma filter_produces bs : ∃ out, produces (filter_next eval) (map Ok bs) out ∧ all_rows out = filter (λ r, passes r = true) (all_rows bs).
Proof. apply filter_masks, list.Forall_true. intros b. exists (map p (rows b)). split; [done|]. by rewrite map_map. Qed.
End filter.

(** ** UNION *)

(** The rows that differ from all earlier ones. *)
Fixpoint distinct (seen : list (list Value)) (l : list Row) : list Row :=
  match l with
  | [] => []
  | r :: l => if existsb (λ x, values_eq x (row_values r)) seen then distinct seen l else r :: distinct (seen ++ [row_values r]) l
  end.
Lemma distinct_app seen a b : distinct seen (a ++ b) = distinct seen a ++ distinct (seen ++ map row_values (distinct seen a)) b.
Proof.
  revert seen. induction a as [|r a IH]; intros seen; [by rewrite app_nil_r|]. cbn [app distinct]. destruct (existsb _ seen); [apply IH|].
  cbn [app map]. rewrite IH. by rewrite <- app_assoc.
Qed.

Section union.
Context (hash : list Value → Z).
(** Equal rows hash alike. *)
Context (Hhash : ∀ a b, values_eq a b = true → hash a = hash b).

(** The two tables hold these rows. *)
Definition union_seen (sn : list (list Value)) (st : gset Z * gmap Z (list (list Value))) : Prop :=
  (∀ h, h ∈ fst st ↔ ∃ x, x ∈ sn ∧ hash x = h) ∧ ∀ h x, x ∈ default [] (snd st !! h) ↔ x ∈ sn ∧ hash x = h.

Lemma union_seen_push sn st row : union_seen sn st →
  let h := hash row in let entry := default [] (snd st !! h) in
  union_seen (sn ++ [row]) (fst st ∪ {[h]}, <[h := entry ++ [row]]> (snd st)).
Proof.
  intros [H1 H2] h entry. split; cbn [fst snd].
  - intros k. rewrite elem_of_union, elem_of_singleton, H1. split.
    + intros [(x & Hx & <-)| ->]; [exists x; split; [apply elem_of_app; by left|done]|exists row; split; [apply elem_of_app; right; by left|done]].
    + intros (x & Hx & <-). apply elem_of_app in Hx as [Hx|Hx]; [left; by exists x|]. apply list_elem_of_singleton in Hx as ->. by right.
  - intros k x. destruct (decide (k = h)) as [->|Hne].
    + rewrite lookup_insert_eq. cbn [default]. unfold id. rewrite !elem_of_app, !list_elem_of_singleton. unfold entry. rewrite H2.
      split; [intros [[Hx Hh]| ->]; [split; [by left|done]|split; [by right|done]]|intros [[Hx| ->] Hh]; [by left|by right]].
    + rewrite lookup_insert_ne by done. rewrite H2, elem_of_app, list_elem_of_singleton.
      split; [intros [Hx Hh]; split; [by left|done]|intros [[Hx| ->] Hh]; [done|by destruct Hne]].
Qed.

Lemma dedup_row_spec sn st r : union_seen sn st →
  let '(st', keep) := dedup_row hash st r in
  keep = negb (existsb (λ x, values_eq x (row_values r)) sn) ∧ union_seen (if keep then sn ++ [row_values r] else sn) st'.
Proof.
  intros HS. destruct st as [seen coll]. unfold dedup_row. set (row := row_values r). set (entry := default [] (coll !! hash row)).
  pose proof HS as [H1 H2]. cbn [fst snd] in H1, H2.
  assert (existsb (λ x, values_eq x row) sn = existsb (λ x, values_eq x row) entry) as Ee.
  { apply eq_true_iff_eq. rewrite !existsb_exists. split; intros (x & Hx & Hv); exists x; (split; [|done]); apply list_elem_of_In in Hx; apply list_elem_of_In.
    - apply H2. split; [done|by apply Hhash].
    - by apply H2 in Hx as [Hx _]. }
  pose proof (union_seen_push sn (seen, coll) row HS) as Hpush. cbn [fst snd] in Hpush. fold entry in Hpush.
  destruct (decide (hash row ∈ seen)) as [Hin|Hout].
  - rewrite Ee. destruct (existsb _ entry); cbn [negb]; (split; [done|]).
    + split; [done|]. cbn [fst snd]. intros h x. destruct (decide (h = hash row)) as [->|]; [rewrite lookup_insert_eq|rewrite lookup_insert_ne by done]; apply H2.
    + assert (seen ∪ {[hash row]} = seen) as <-; [|done]. set_solver.
  - assert (existsb (λ x, values_eq x row) sn = false) as ->; [|done].
    apply not_true_iff_false. rewrite existsb_exists. intros (x & Hx & Hv). apply Hout, H1. exists x. split; [by apply list_elem_of_In|by apply Hhash].
Qed.

Lemma dedup_rows_spec sn st l : union_seen sn st →
  ∃ st', dedup_rows hash l st = (st', distinct sn l) ∧ union_seen (sn ++ map row_values (distinct sn l)) st'.
Proof.
  revert sn st. induction l as [|r l IH]; intros sn st HS; [exists st; cbn; by rewrite app_nil_r|]. cbn [dedup_rows distinct].
  pose proof (dedup_row_spec sn st r HS) as Hr. destruct (dedup_row hash st r) as [st1 keep]. destruct Hr as [-> HS1].
  destruct (existsb _ sn); cbn [negb] in *.
  - destruct (IH sn st1 HS1) as (st' & -> & HS'). by exists st'.
  - destruct (IH _ st1 HS1) as (st' & -> & HS'). exists st'. split; [done|]. cbn [map]. by rewrite <- app_assoc in HS'.
Qed.

(** A batch without a new row is passed over, any other gives its new rows. *)
Lemma union_side_cons sn st b side : union_seen sn st →
  ∃ st', union_seen (sn ++ map row_values (distinct sn (rows b))) st' ∧
    union_side hash false (Ok b :: side) st =
      if decide (distinct sn (rows b) = []) then union_side hash false side st' else ((side, st'), Ok (Some (with_rows b (distinct sn (rows b))))).
Proof.
  intros HS. destruct (dedup_rows_spec sn st (rows b) HS) as (st' & E & HS'). exists st'. split; [done|].
  cbn [union_side]. unfold deduplicate. rewrite E. by case_decide.
Qed.

Lemma union_right_produces left bs sn st : union_seen sn st →
  ∃ out, produces (union_next hash) (mkUnion left (map Ok bs) false (fst st) (snd st) true) out ∧ all_rows out = distinct sn (all_rows bs).
Proof.
  revert sn st. induction bs as [|b bs IH]; intros sn st HS.
  { exists []. split; [eapply produces_end; reflexivity|done]. }
  destruct st as [seen coll]. destruct (union_side_cons sn (seen, coll) b (map Ok bs) HS) as ([seen' coll'] & HS' & E).
  destruct (IH _ _ HS') as (out & Hp & Ho). rewrite all_rows_cons, distinct_app, <- Ho. cbn [fst snd] in *. case_decide as H0.
  - exists out. rewrite H0. split; [|done]. eapply produces_same; [|exact Hp]. unfold union_next, union_right. cbn [left_exhausted un_right is_all map seen_hashes collision_rows un_left].
    cbn [map] in E. by rewrite E.
  - exists (with_rows b (distinct sn (rows b)) :: out). split; [eapply produces_next; [|exact Hp]|done].
    unfold union_next, union_right. cbn [left_exhausted un_right is_all map seen_hashes collision_rows un_left]. by rewrite E.
Qed.

Lemma union_left_produces bs rs sn st : union_seen sn st →
  ∃ out, produces (union_next hash) (mkUnion (map Ok bs) (map Ok rs) false (fst st) (snd st) false) out ∧ all_rows out = distinct sn (all_rows bs ++ all_rows rs).
Proof.
  revert sn st. induction bs as [|b bs IH]; intros sn st HS.
  { destruct (union_right_produces [] rs sn st HS) as (out & Hp & Ho). exists out. split; [|done]. eapply produces_same; [|exact Hp]. by destruct st. }
  destruct st as [seen coll]. destruct (union_side_cons sn (seen, coll) b (map Ok bs) HS) as ([seen' coll'] & HS' & E).
  destruct (IH _ _ HS') as (out & Hp & Ho). rewrite all_rows_cons, <- app_assoc, distinct_app, <- Ho. cbn [fst snd] in *. case_decide as H0.
  - exists out. rewrite H0. split; [|done]. eapply produces_same; [|exact Hp]. unfold union_next. cbn [left_exhausted un_left un_right is_all map seen_hashes collision_rows].
    cbn [map] in E. by rewrite E.
  - exists (with_rows b (distinct sn (rows b)) :: out). split; [eapply produces_next; [|exact Hp]|done].
    unfold union_next. cbn [left_exhausted un_right is_all map seen_hashes collision_rows un_left]. by rewrite E.
Qed.
End union.

(** ** FLATTEN *)

Lemma flatten_rest child b cur rest :
  (∃ out, produces flatten_next (mkFlatten child None 0) out ∧ all_rows out = rest) →
  ∃ out, produces flatten_next (mkFlatten child (Some b) cur) out ∧ all_rows out = drop cur (rows b) ++ rest.
Proof.
  intros (out & Hp & Ho). remember (length (rows b) - cur) as m eqn:Em. revert cur Em. induction (lt_wf m) as [m _ IH]; intros cur ->.
  unfold flatten_batch, num_rows in *. destruct (decide (cur < length (rows b))) as [Hlt|Hge].
  - set (e := (cur + FLATTEN_BATCH_SIZE) `min` length (rows b)). assert (cur < e ≤ length (rows b)) as He by (unfold e, FLATTEN_BATCH_SIZE; lia).
    destruct (IH (length (rows b) - e) ltac:(lia) e eq_refl) as (out' & Hp' & Ho'). exists (slice_batch b cur (e - cur) :: out'). split.
    + eapply produces_next; [|exact Hp']. unfold flatten_next, flatten_batch, num_rows. cbn [current_batch fl_child cursor]. by rewrite decide_True.
    + rewrite all_rows_cons, Ho', rows_slice. rewrite app_assoc. f_equal. rewrite <- (take_drop (e - cur) (drop cur (rows b))) at 2. f_equal. rewrite drop_drop. f_equal. lia.
  - exists out. split; [|rewrite drop_ge by lia; done]. eapply produces_same; [|exact Hp].
    unfold flatten_next, flatten_batch, num_rows. cbn [current_batch fl_child cursor]. by rewrite decide_False.
Qed.

Lemma flatten_produces bs : ∃ out, produces flatten_next (mkFlatten (map Ok bs) None 0) out ∧ all_rows out = all_rows bs.
Proof.
  induction bs as [|b bs IH]; [exists []; split; [by eapply produces_end|done]|].
  destruct (flatten_rest (map Ok bs) b 0 _ IH) as (out & Hp & Ho). rewrite drop_0 in Ho. exists out. split; [|done]. eapply produces_same; [|exact Hp].
  unfold flatten_next. cbn [current_batch fl_child cursor map flatten_pull]. by destruct (flatten_batch (map Ok bs) b 0) as [[]|].
Qed.

(** ** ACCUMULATE *)

Section accumulate.
Context (memory_size : RecordBatch → Z) (Hsize : ∀ b, (0 ≤ memory_size b)%Z).
Definition total_size (bs : list RecordBatch) : Z := foldr (λ b s, memory_size b + s)%Z 0%Z bs.

Lemma total_size_nonneg bs : (0 ≤ total_size bs)%Z.
Proof. induction bs as [|b bs IH]; [done|]. change (total_size (b :: bs)) with (memory_size b + total_size bs)%Z. specialize (Hsize b). lia. Qed.

Lemma fill_buffer_within bs rest buf bytes : (bytes + total_size bs ≤ MAX_BUFFER_BYTES)%Z →
  fill_buffer memory_size (map Ok bs ++ rest) buf bytes = fill_buffer memory_size rest (buf ++ bs) (bytes + total_size bs)%Z.
Proof.
  revert buf bytes. induction bs as [|b bs IH]; intros buf bytes Hb.
  { cbn. by rewrite app_nil_r, Z.add_0_r. }
  change (total_size (b :: bs)) with (memory_size b + total_size bs)%Z in *. cbn [map app fill_buffer]. pose proof (total_size_nonneg bs). rewrite bool_decide_false by lia. cbn [andb].
  rewrite IH by lia. f_equal; [by rewrite <- app_assoc|lia].
Qed.

Lemma buffer_produces child buf : produces (accumulate_next memory_size) (mkAccumulate child (Some buf)) buf.
Proof. induction buf as [|b buf IH]; [by eapply produces_end|]. eapply produces_next; [reflexivity|exact IH]. Qed.

Lemma accumulate_filled child buf child' : fill_buffer memory_size child [] 0 = (child', Ok buf) → produces (accumulate_next memory_size) (accumulate_new child) buf.
Proof.
  intros E. destruct buf as [|b buf]; [eapply produces_end|eapply produces_next; [|apply (buffer_produces child')]];
    unfold accumulate_next, accumulate_new; cbn [buffer ac_child]; rewrite E; reflexivity.
Qed.
End accumulate.

(** ** DISTINCT on a key *)

(** The first row of each key. *)
Fixpoint first_of_key (seen : list Value) (l : list (Row * Value)) : list (Row * Value) :=
  match l with
  | [] => []
  | (r, v) :: l => if existsb (λ x, value_eq x v) seen then first_of_key seen l else (r, v) :: first_of_key (v :: seen) l
  end.

Lemma keep_new_spec l seen : keep_new l seen = (reverse (map snd (first_of_key seen l)) ++ seen, map fst (first_of_key seen l)).
Proof.
  revert seen. induction l as [|[r v] l IH]; intros seen; [done|]. cbn [keep_new first_of_key]. destruct (existsb _ seen); [apply IH|].
  rewrite IH. cbn [map fst snd]. by rewrite reverse_cons, <- app_assoc.
Qed.
Lemma first_of_key_app seen a b : first_of_key seen (a ++ b) = first_of_key seen a ++ first_of_key (reverse (map snd (first_of_key seen a)) ++ seen) b.
Proof.
  revert seen. induction a as [|[r v] a IH]; intros seen; [done|]. cbn [app first_of_key]. destruct (existsb _ seen); [apply IH|].
  cbn [app map snd]. rewrite IH, reverse_cons, <- app_assoc. done.
Qed.

Section unwind_dedup.
Context (eval : RecordBatch → outcome (list Value)) (key : Row → Value) (Heval : ∀ b, eval b = Ok (map key (rows b))).
Definition keyed (l : list Row) : list (Row * Value) := map (λ r, (r, key r)) l.

Lemma keyed_zip l : zip l (map key l) = keyed l.
Proof. induction l as [|r l IH]; [done|]. cbn. by rewrite IH. Qed.

Lemma unwind_dedup_produces bs seen :
  ∃ out, produces (unwind_dedup_next eval) (mkUnwindDedup (map Ok bs) seen) out ∧ all_rows out = map fst (first_of_key seen (keyed (all_rows bs))).
Proof.
  revert seen. induction bs as [|b bs IH]; intros seen.
  { exists []. split; [by eapply produces_end|done]. }
  rewrite all_rows_cons. unfold keyed. rewrite map_app, first_of_key_app, map_app. fold (keyed (rows b)) (keyed (all_rows bs)).
  destruct (IH (reverse (map snd (first_of_key seen (keyed (rows b)))) ++ seen)) as (out & Hp & Ho). rewrite <- Ho.
  assert (unwind_dedup_next eval (mkUnwindDedup (map Ok (b :: bs)) seen) =
    let '(seen', new) := keep_new (keyed (rows b)) seen in
    if decide (new = []) then unwind_dedup_next eval (mkUnwindDedup (map Ok bs) seen') else (mkUnwindDedup (map Ok bs) seen', Ok (Some (with_rows b new)))) as E.
  { unfold unwind_dedup_next. cbn [ud_child seen_values map unwind_dedup_loop]. case_decide as H0.
    - apply nil_length_inv in H0. by rewrite H0.
    - rewrite Heval, keyed_zip. by destruct (keep_new _ _). }
  rewrite keep_new_spec in E. destruct (decide (map fst (first_of_key seen (keyed (rows b))) = [])) as [H0|H0].
  - exists out. rewrite H0. split; [by eapply produces_same|done].
  - exists (with_rows b (map fst (first_of_key seen (keyed (rows b)))) :: out). split; [by eapply produces_next|done].
Qed.
End unwind_dedup.

(** ** UNWIND *)

Section unwind.
Context (eval : RecordBatch → outcome (list (option (list (option Scalar))))) (item_type : RecordBatch → DataType).
Context (item : Row → option (list (option Scalar))) (Heval : ∀ b, eval b = Ok (map item (rows b))).
(** The rows one row becomes. *)
Definition unwound (r : Row) : list Row := map (λ x, r ++ [x]) (default [] (item r)).
Local Abbreviation next := (unwind_next eval item_type).

Lemma unwind_turn_passes o o' b : current_chunk o = Some b → current_chunk o' = Some b → unwind_turn eval item_type o b = (o', None) →
  turns_left o b = S (turns_left o' b) → next o = next o'.
Proof. intros H1 H2 E Ht. unfold unwind_next. rewrite H1, H2, Ht. cbn [unwind_chunk]. by rewrite E, H2. Qed.

Definition cache_ok (b : RecordBatch) (c : option (list (option (list (option Scalar))))) : Prop := c = None ∨ c = Some (map item (rows b)).

Lemma unwind_row child b i li c r : cache_ok b c → rows b !! i = Some r →
  unwind_turn eval item_type (mkUnwind child (Some b) i None li c) b =
    match item r with
    | None => (mkUnwind child (Some b) (i + 1) None li (Some (map item (rows b))), None)
    | Some l => unwind_emit item_type (mkUnwind child (Some b) i (Some l) 0 (Some (map item (rows b)))) b l
    end.
Proof.
  intros Hc Hr. pose proof (lookup_lt_Some _ _ _ Hr) as Hlt. unfold unwind_turn. cbn [current_row_idx current_list]. unfold num_rows. rewrite decide_False by lia.
  unfold unwind_list. cbn [cached_eval].
  assert ((match c with Some e => Ok e | None => eval b end) = Ok (map item (rows b))) as -> by (destruct Hc as [->| ->]; [apply Heval|done]).
  cbn [uw_child current_row_idx]. rewrite list_lookup_fmap, Hr. cbn [fmap option_fmap option_map]. by destruct (item r).
Qed.

Lemma unwind_from child b rest :
  (∀ ri l li c, ∃ out, produces next (mkUnwind child None ri l li c) out ∧ all_rows out = rest) →
  ∀ i li c, cache_ok b c → ∃ out, produces next (mkUnwind child (Some b) i None li c) out ∧ all_rows out = concat (map unwound (drop i (rows b))) ++ rest.
Proof.
  intros Htail i li c Hc. remember (length (rows b) - i) as m eqn:Em. revert i li c Hc Em. induction m as [|m IH]; intros i li c Hc Em.
  - destruct (Htail i None li c) as (out & Hp & Ho). exists out. rewrite drop_ge by lia. split; [|done]. eapply produces_same; [|exact Hp].
    unfold unwind_next. cbn [current_chunk]. unfold turns_left, num_rows. cbn [current_row_idx]. replace (length (rows b) - i + 1) with 1 by lia.
    cbn [unwind_chunk]. unfold unwind_turn, num_rows. cbn [current_row_idx]. by rewrite decide_True by lia.
  - destruct (lookup_lt_is_Some_2 (rows b) i ltac:(lia)) as [r Hr]. rewrite (drop_S _ _ _ Hr). cbn [map concat]. rewrite <- app_assoc.
    pose proof (unwind_row child b i li c r Hc Hr) as E. destruct (IH (i + 1) li (Some (map item (rows b))) ltac:(by right) ltac:(lia)) as (out & Hp & Ho).
    rewrite Nat.add_1_r in Ho. rewrite <- Ho. unfold unwound at 1. destruct (item r) as [l|] eqn:El; cbn [default].
    + destruct l as [|x l].
      * destruct (IH (i + 1) 0 (Some (map item (rows b))) ltac:(by right) ltac:(lia)) as (out0 & Hp0 & Ho0). exists out0. cbn [map app id].
        split; [|rewrite Ho0, Ho, Nat.add_1_r; done]. eapply produces_same; [|exact Hp0]. eapply unwind_turn_passes; [done|..|exact E|]; [done|]. unfold turns_left, num_rows. cbn. lia.
      * destruct (IH (i + 1) (length (x :: l)) (Some (map item (rows b))) ltac:(by right) ltac:(lia)) as (out1 & Hp1 & Ho1).
        eexists (_ :: out1). split.
        -- eapply produces_next; [|eapply produces_same; [|exact Hp1]].
           ++ unfold unwind_next. cbn [current_chunk]. unfold turns_left. rewrite Nat.add_1_r. cbn [unwind_chunk]. rewrite E. unfold unwind_emit. cbn [current_list_idx].
              rewrite decide_False by (cbn; lia). reflexivity.
           ++ eapply unwind_turn_passes; [done| |unfold unwind_turn, num_rows; cbn [current_row_idx current_list]; rewrite decide_False by lia; unfold unwind_emit;
                cbn [current_list_idx]; rewrite decide_True by done; reflexivity|]; [done|]. unfold turns_left, num_rows. cbn [current_row_idx]. lia.
        -- rewrite all_rows_cons, Ho1, Ho, Nat.add_1_r. f_equal. cbn [rows current_row_idx current_list_idx]. apply map_ext. intros y. f_equal. exact (f_equal (default []) Hr).
    + exists out. cbn [map app]. split; [|done]. eapply produces_same; [|exact Hp]. eapply unwind_turn_passes; [done|..|exact E|]; [done|]. unfold turns_left, num_rows. cbn. lia.
Qed.

Lemma unwind_turn_child o b : uw_child (fst (unwind_turn eval item_type o b)) = uw_child o.
Proof.
  unfold unwind_turn, unwind_list, unwind_emit. destruct (decide _); [done|]. destruct (current_list o) as [l|]; [by destruct (decide _)|].
  destruct (match cached_eval o with Some e => Ok e | None => eval b end) as [e| |]; try done. destruct (_ !! _) as [[l|]|]; try done. by destruct (decide _).
Qed.
Lemma unwind_chunk_child n o b : uw_child (fst (unwind_chunk eval item_type n o b)) = uw_child o.
Proof.
  revert o. induction n as [|n IH]; intros o; [done|]. cbn [unwind_chunk]. pose proof (unwind_turn_child o b) as H.
  destruct (unwind_turn eval item_type o b) as [o' [r|]]; [done|]. cbn [fst] in H. destruct (current_chunk o'); [by rewrite IH|done].
Qed.

Lemma unwind_produces bs ri l li c : ∃ out, produces next (mkUnwind (map Ok bs) None ri l li c) out ∧ all_rows out = concat (map unwound (all_rows bs)).
Proof.
  revert ri l li c. induction bs as [|b bs IH]; intros ri l li c; [exists []; split; [by eapply produces_end|done]|].
  destruct (unwind_from (map Ok bs) b _ IH 0 0 None ltac:(by left)) as (out & Hp & Ho). exists out. rewrite drop_0 in Ho.
  split; [|rewrite all_rows_cons, map_app, concat_app; exact Ho]. eapply produces_same; [|exact Hp].
  unfold unwind_next. cbn [current_chunk uw_child map unwind_pull]. set (o := mkUnwind (map Ok bs) (Some b) 0 None 0 None). pose proof (unwind_chunk_child (turns_left o b) o b) as Hch.
  destruct (unwind_chunk _ _ _ _ _) as [o' [r|]]; [done|]. cbn [fst uw_child o] in Hch. by rewrite Hch.
Qed.
End unwind.

(** ** The theorems *)

(** C23. A pipeline of a filter, SKIP and LIMIT (filter.rs, limit_skip.rs) hands
    out exactly the first [n] after the first [m] of the rows that satisfy the
    condition, in order, however the rows of the source are cut into batches. *)
Theorem pipeline_rows (eval : RecordBatch → outcome (list (option bool))) (p : Row → option bool) (bs : list RecordBatch) (m n : nat) :
  (∀ b, eval b = Ok (map p (rows b))) →
  ∃ f s l, produces (filter_next eval) (map Ok bs) f ∧ produces skip_next (skip_new (map Ok f) m) s ∧ produces limit_next (limit_new (map Ok s) n) l ∧
    all_rows l = take n (drop m (filter (λ r, passes p r = true) (all_rows bs))).
Proof.
  intros He. destruct (filter_produces eval p He bs) as (f & Hf & Ef). destruct (skip_produces f 0 m) as (s & Hs & Es). destruct (limit_produces s 0 n) as (l & Hl & El).
  exists f, s, l. split_and!; try done. by rewrite El, Es, Ef, !Nat.sub_0_r.
Qed.

(** C24. UNION (union.rs) hands out the rows of the left and then of the right
    input that differ from every earlier row, and UNION ALL all of them, for every
    hash function that agrees on equal rows. *)
Theorem union_rows (hash : list Value → Z) (ls rs : list RecordBatch) (all : bool) :
  (∀ a b, values_eq a b = true → hash a = hash b) →
  ∃ out, produces (union_next hash) (union_new (map Ok ls) (map Ok rs) all) out ∧
    all_rows out = if all then all_rows ls ++ all_rows rs else distinct [] (all_rows ls ++ all_rows rs).
Proof.
  intros Hh. assert (union_seen hash [] (∅, ∅)) as H0.
  { split; cbn [fst snd]; [intros h; split; [intros H; by apply elem_of_empty in H|by intros (x & H%elem_of_nil & _)]|].
    intros h x. rewrite lookup_empty. cbn [default]. split; [by intros H%elem_of_nil|by intros [H%elem_of_nil _]]. }
  destruct all; [|apply (union_left_produces hash Hh ls rs [] (∅, ∅) H0)].
  exists (ls ++ rs). split; [|apply all_rows_app]. unfold union_new. generalize (∅ : gset Z), (∅ : gmap Z (list (list Value))). intros seen coll.
  assert (∀ left, produces (union_next hash) (mkUnion left (map Ok rs) true seen coll true) rs) as Hr.
  { induction rs as [|b rs IH]; intros left; [by eapply produces_end|]. eapply produces_next; [reflexivity|apply IH]. }
  induction ls as [|b ls IH]; [eapply produces_same; [|apply (Hr [])]; reflexivity|]. eapply produces_next; [reflexivity|apply IH].
Qed.

(** UNWIND (unwind.rs) hands out, for every row of its child and every element
    of the row's list, the row extended with that element, in order; FLATTEN
    (flatten.rs) on top only changes the batches. *)
Theorem unwind_rows (eval : RecordBatch → outcome (list (option (list (option Scalar))))) (item_type : RecordBatch → DataType)
    (item : Row → option (list (option Scalar))) (bs : list RecordBatch) :
  (∀ b, eval b = Ok (map item (rows b))) →
  ∃ u f, produces (unwind_next eval item_type) (unwind_new (map Ok bs)) u ∧ produces flatten_next (flatten_new (map Ok u)) f ∧
    all_rows f = concat (map (unwound item) (all_rows bs)).
Proof.
  intros He. destruct (unwind_produces eval item_type item He bs 0 None 0 None) as (u & Hu & Eu). destruct (flatten_produces u) as (f & Hf & Ef).
  exists u, f. split_and!; try done. by rewrite Ef, Eu.
Qed.

(** The key operator behind DISTINCT (unwind_dedup.rs) hands out the first row
    of every key, in order. *)
Theorem unwind_dedup_rows (eval : RecordBatch → outcome (list Value)) (key : Row → Value) (bs : list RecordBatch) :
  (∀ b, eval b = Ok (map key (rows b))) →
  ∃ out, produces (unwind_dedup_next eval) (mkUnwindDedup (map Ok bs) []) out ∧ all_rows out = map fst (first_of_key [] (keyed key (all_rows bs))).
Proof. intros He. by apply (unwind_dedup_produces eval key He). Qed.

(** Within its buffer Accumulate passes everything on. *)
Lemma accumulate_within memory_size bs : (∀ b, 0 ≤ memory_size b)%Z → (total_size memory_size bs ≤ MAX_BUFFER_BYTES)%Z →
  produces (accumulate_next memory_size) (accumulate_new (map Ok bs)) bs.
Proof.
  intros Hs Hb. eapply accumulate_filled. rewrite <- (app_nil_r (map Ok bs)). rewrite (fill_buffer_within memory_size Hs) by lia. reflexivity.
Qed.

(** ACCUMULATE (accumulate.rs) loses rows: when its buffer of 64 MB is full, the
    batch that does not fit is handed out first, before the batches that came
    earlier, and all batches after it are dropped. *)
Theorem accumulate_loses_rows (memory_size : RecordBatch → Z) (bs : list RecordBatch) (b : RecordBatch) (rest : Stream) :
  (∀ b, 0 ≤ memory_size b)%Z → bs ≠ [] → (total_size memory_size bs ≤ MAX_BUFFER_BYTES < total_size memory_size bs + memory_size b)%Z →
  produces (accumulate_next memory_size) (accumulate_new (map Ok bs ++ Ok b :: rest)) (b :: bs).
Proof.
  intros Hs Hne [Hb Hover]. eapply accumulate_filled. rewrite (fill_buffer_within memory_size Hs) by lia. cbn [fill_buffer]. rewrite bool_decide_true by lia.
  cbn [app]. by rewrite bool_decide_false.
Qed.

(** UNION compares 64-bit integers as doubles: of two rows that differ only in
    an integer beyond [2^53] the second is dropped, whatever the hash function. *)
Theorem union_merges_integers (hash : list Value → Z) :
  let batch z := mkBatch [DInt64] [[Some (AInt64 z)]] in
  produces (union_next hash) (union_new [Ok (batch (2 ^ 53)%Z)] [Ok (batch (2 ^ 53 + 1)%Z)] false) [batch (2 ^ 53)%Z].
Proof.
  intros batch. set (v := [VNumber (int_as_f64 (2 ^ 53))]). assert (row_values [Some (AInt64 (2 ^ 53 + 1))] = v) as Ev by (vm_compute; reflexivity).
  eapply produces_next; [|eapply produces_end].
  - unfold union_next, union_new. cbn [left_exhausted un_left is_all union_side seen_hashes collision_rows]. unfold deduplicate. cbn [rows batch dedup_rows dedup_row].
    rewrite decide_False by set_solver. rewrite decide_False by done. reflexivity.
  - unfold union_next. cbn [left_exhausted un_left is_all union_side seen_hashes collision_rows]. unfold union_right.
    cbn [un_right is_all seen_hashes collision_rows union_side]. unfold deduplicate. cbn [rows batch dedup_rows dedup_row]. rewrite Ev. change (row_values [Some (AInt64 (2 ^ 53))]) with v.
    rewrite decide_True by set_solver. rewrite lookup_insert_eq. rewrite lookup_empty. destruct (existsb _ _) eqn:Hx; [reflexivity|]. vm_compute in Hx. discriminate.
Qed.

(** ** Witnesses *)

Definition demo_row (z : Z) : Row := [Some (AUInt64 z)].
Definition demo_batches : list RecordBatch := [mkBatch [DUInt64] (map demo_row [3; 1; 4]%Z); mkBatch [DUInt64] (map demo_row [1; 5]%Z)].
Definition demo_pred (r : Row) : option bool := match r with [Some (AUInt64 z)] => Some (bool_decide (1 < z)%Z) | _ => None end.
Definition demo_eval (b : RecordBatch) : outcome (list (option bool)) := Ok (map demo_pred (rows b)).

Lemma pipeline_rows_witness :
  ∃ f s l, produces (filter_next demo_eval) (map Ok demo_batches) f ∧ produces skip_next (skip_new (map Ok f) 1) s ∧ produces limit_next (limit_new (map Ok s) 2) l ∧
    all_rows l = take 2 (drop 1 (filter (λ r, passes demo_pred r = true) (all_rows demo_batches))).
Proof. apply (pipeline_rows demo_eval demo_pred demo_batches 1 2). reflexivity. Defined.

Definition demo_row_hash (l : list Value) : Z := Z.of_nat (length l).
Lemma values_eq_length a b : values_eq a b = true → length a = length b.
Proof. revert b. induction a as [|x a IH]; intros [|y b]; try done. cbn. intros [_ H]%andb_true_iff. f_equal. by apply IH. Qed.

Lemma union_rows_witness :
  ∃ out, produces (union_next demo_row_hash) (union_new (map Ok demo_batches) (map Ok demo_batches) false) out ∧
    all_rows out = distinct [] (all_rows demo_batches ++ all_rows demo_batches).
Proof.
  apply (union_rows demo_row_hash demo_batches demo_batches false). intros a b H. unfold demo_row_hash. f_equal. by apply values_eq_length.
Defined.

Definition demo_item (r : Row) : option (list (option Scalar)) := Some (r ++ r).
Lemma unwind_rows_witness :
  ∃ u f, produces (unwind_next (λ b, Ok (map demo_item (rows b))) (λ _, DUInt64)) (unwind_new (map Ok demo_batches)) u ∧
    produces flatten_next (flatten_new (map Ok u)) f ∧ all_rows f = concat (map (unwound demo_item) (all_rows demo_batches)).
Proof. apply (unwind_rows (λ b, Ok (map demo_item (rows b))) (λ _, DUInt64) demo_item demo_batches). reflexivity. Defined.

Definition demo_key (r : Row) : Value := from_arrow (mjoin (head r)).
Lemma unwind_dedup_rows_witness :
  ∃ out, produces (unwind_dedup_next (λ b, Ok (map demo_key (rows b)))) (mkUnwindDedup (map Ok demo_batches) []) out ∧
    all_rows out = map fst (first_of_key [] (keyed demo_key (all_rows demo_batches))).
Proof. apply (unwind_dedup_rows (λ b, Ok (map demo_key (rows b))) demo_key demo_batches). reflexivity. Defined.

(** Three batches of 40 MB. *)
Lemma accumulate_loses_rows_witness :
  let b k := mkBatch [DUInt64] [demo_row k] in
  produces (accumulate_next (λ _, 40 * 1024 * 1024)%Z) (accumulate_new [Ok (b 1%Z); Ok (b 2%Z); Ok (b 3%Z)]) [b 2%Z; b 1%Z].
Proof.
  intros b. apply (accumulate_loses_rows (λ _, 40 * 1024 * 1024)%Z [b 1%Z] (b 2%Z) [Ok (b 3%Z)]).
  - intros _. lia.
  - discriminate.
  - vm_compute. split; [discriminate|reflexivity].
Defined.
