(* ===== verification/Joins.v ===== *)
(** * Joins (processor/operators/hash_join.rs, cross_join.rs)

    A hash join reads its right child into a table from keys to row numbers and
    then probes it with the rows of the left child, at most 1024 result rows to a
    batch; a cross join pairs every left row with every right row.  One thread
    builds and probes.  The three hash tables of the code, for unsigned, signed and
    other keys, are one table with tagged keys. *)
From stdpp Require Import base list gmap numbers.
From Stdlib Require Import ZArith Lia Bool.
From S2P Require Import Prelude Codec HashIndex Column ColumnScan Trigram Operators.
Open Scope nat_scope.

(** ** The table *)

Inductive JoinKey := KU64 (n : Z) | KI64 (z : Z) | KValue (v : Value).
Definition key_eqb (a b : JoinKey) : bool :=
  match a, b with
  | KU64 x, KU64 y | KI64 x, KI64 y => bool_decide (x = y)
  | KValue x, KValue y => value_eq x y
  | _, _ => false
  end.
Definition HashTable : Type := list (JoinKey * list nat).
Fixpoint table_get (t : HashTable) (k : JoinKey) : option (list nat) :=
  match t with
  | [] => None
  | (k', l) :: t => if key_eqb k' k then Some l else table_get t k
  end.
(** [entry(k).or_default().push(i)] *)
Fixpoint table_push (t : HashTable) (k : JoinKey) (i : nat) : HashTable :=
  match t with
  | [] => [(k, [i])]
  | (k', l) :: t => if key_eqb k' k then (k', l ++ [i]) :: t else (k', l) :: table_push t k i
  end.

(** The key of a cell, by the type of its column: typed columns have no key for
    null. *)
Definition join_key (t : DataType) (c : option Scalar) : option JoinKey :=
  match t, c with
  | DUInt64, Some (AUInt64 n) => Some (KU64 n)
  | DInt64, Some (AInt64 z) => Some (KI64 z)
  | DUInt64, _ | DInt64, _ => None
  | _, _ => Some (KValue (from_arrow c))
  end.
Definition cell (r : Row) (i : nat) : option Scalar := mjoin (r !! i).

(** ** The hash join *)

Inductive JoinType := Inner | LeftOuter | LeftSemi | LeftAnti.
#[global] Instance JoinType_eq_dec : EqDecision JoinType.
Proof. solve_decision. Defined.

Record BuildSide := mkBuildSide { hash_table : HashTable; build_chunks : list RecordBatch }.
Inductive BuildState := NotBuilt | BuildFailed | BuildDone (s : BuildSide).
Record HashJoin := mkHashJoin {
  hj_left : Stream; hj_right : Stream; left_key_idx : nat; right_key_idx : nat; join_type : JoinType; is_cross_join : bool;
  shared_build : BuildState; current_left_chunk : option RecordBatch; left_row_idx : nat;
}.
Definition hash_join_new (lsrc rsrc : Stream) (l_key r_key : nat) (t : JoinType) (cross : bool) : HashJoin :=
  mkHashJoin lsrc rsrc l_key r_key t cross NotBuilt None 0.

Fixpoint build_keys (t : DataType) (l : list Row) (key_idx i : nat) (h : HashTable) : HashTable :=
  match l with
  | [] => h
  | r :: l => build_keys t l key_idx (i + 1) (match join_key t (cell r key_idx) with Some k => table_push h k i | None => h end)
  end.
Fixpoint build_loop (rsrc : Stream) (key_idx base_offset : nat) (s : BuildSide) : Stream * outcome BuildSide :=
  match rsrc with
  | [] => ([], Ok s)
  | Ok b :: rsrc =>
      match schema b !! key_idx with
      | None => (rsrc, Panic)
      | Some t => build_loop rsrc key_idx (base_offset + num_rows b)
                    (mkBuildSide (build_keys t (rows b) key_idx base_offset (hash_table s)) (build_chunks s ++ [b]))
      end
  | Err e :: rsrc => (rsrc, Err e)
  | Panic :: rsrc => (rsrc, Panic)
  end.

(** The result pairs of one left row. *)
Definition build_rows (s : BuildSide) : nat := sum_list_with num_rows (build_chunks s).
Definition row_pairs (o : HashJoin) (s : BuildSide) (key : option JoinKey) (idx : nat) : list (nat * option nat) :=
  let found := key ≫= table_get (hash_table s) in
  if is_cross_join o then map (λ g, (idx, Some g)) (seq 0 (build_rows s))
  else
    match join_type o, found with
    | Inner, Some m | LeftOuter, Some m => map (λ g, (idx, Some g)) m
    | Inner, None => []
    | LeftOuter, None | LeftSemi, Some _ | LeftAnti, None => [(idx, None)]
    | LeftSemi, None | LeftAnti, Some _ => []
    end.

(** The loop over the left rows: the row moves on only while the batch has room. *)
Fixpoint probe (pairs : Row → nat → list (nat * option nat)) (l : list Row) (idx : nat) (out : list (nat * option nat)) : nat * list (nat * option nat) :=
  match l with
  | [] => (idx, out)
  | r :: l =>
      if decide (length out < 1024) then
        let out := out ++ take (1024 - length out) (pairs r idx) in
        if decide (length out < 1024) then probe pairs l (idx + 1) out else (idx, out)
      else (idx, out)
  end.

(** Rows of the right side: of the only batch by number; of several batches
    grouped by batch. *)
Definition null_row (b : RecordBatch) : Row := replicate (length (schema b)) None.
Fixpoint take_rows (l : list Row) (null : Row) (idx : list (option nat)) : outcome (list Row) :=
  match idx with
  | [] => Ok []
  | i :: idx =>
      let* r := match i with None => Ok null | Some i => match l !! i with Some r => Ok r | None => Panic end end in
      let* rest := take_rows l null idx in
      Ok (r :: rest)
  end.
Fixpoint chunk_offsets (l : list RecordBatch) (offset : nat) : list nat :=
  match l with [] => [] | b :: l => offset :: chunk_offsets l (offset + num_rows b) end.
Definition chunk_of (offsets : list nat) (g : nat) : nat :=
  match binary_search (map Z.of_nat offsets) (Z.of_nat g) with Found p => p | Missing p => p - 1 end.
Definition locals_of (offsets : list nat) (ci : nat) (gs : list (option nat)) : list (option nat) :=
  omap (λ g, if decide (chunk_of offsets g = ci) then Some (Some (g - default 0 (offsets !! ci))) else None) (omap id gs).
Fixpoint take_grouped (offsets : list nat) (chunks : list RecordBatch) (ci : nat) (gs : list (option nat)) : outcome (list Row) :=
  match chunks with
  | [] => Ok []
  | b :: chunks =>
      let* here := take_rows (rows b) (null_row b) (locals_of offsets ci gs) in
      let* rest := take_grouped offsets chunks (ci + 1) gs in
      Ok (here ++ rest)
  end.
Definition right_rows (s : BuildSide) (gs : list (option nat)) : outcome (list DataType * list Row) :=
  match build_chunks s with
  | [] => Ok ([], replicate (length gs) [])
  | [b] => let* l := take_rows (rows b) (null_row b) gs in Ok (schema b, l)
  | (b :: _) as chunks =>
      let* l := take_grouped (chunk_offsets chunks 0) chunks 0 gs in
      Ok (schema b, if decide (l = []) then replicate (length gs) (null_row b) else l)
  end.

(** [RecordBatch::try_new] wants columns of one length. *)
Definition join_columns (lsrc : list DataType * list Row) (rsrc : list DataType * list Row) : outcome RecordBatch :=
  if decide (length (snd lsrc) = length (snd rsrc)) then Ok (mkBatch (fst lsrc ++ fst rsrc) (zip_with app (snd lsrc) (snd rsrc))) else Err Internal.
Definition emit (o : HashJoin) (s : BuildSide) (b : RecordBatch) (out : list (nat * option nat)) : outcome RecordBatch :=
  let* l := take_rows (rows b) (null_row b) (map (Some ∘ fst) out) in
  match join_type o with
  | LeftSemi | LeftAnti => Ok (mkBatch (schema b) l)
  | _ => let* r := right_rows s (map snd out) in join_columns (schema b, l) r
  end.

Definition set_probe (o : HashJoin) (lsrc : Stream) (chunk : option RecordBatch) (idx : nat) : HashJoin :=
  mkHashJoin lsrc (hj_right o) (left_key_idx o) (right_key_idx o) (join_type o) (is_cross_join o) (shared_build o) chunk idx.
Definition set_build (o : HashJoin) (rsrc : Stream) (s : BuildState) : HashJoin :=
  mkHashJoin (hj_left o) rsrc (left_key_idx o) (right_key_idx o) (join_type o) (is_cross_join o) s (current_left_chunk o) (left_row_idx o).

(** One left batch from the current row on. *)
Definition probe_chunk (o : HashJoin) (s : BuildSide) (lsrc : Stream) (b : RecordBatch) (idx : nat) : HashJoin * next_result :=
  match schema b !! left_key_idx o with
  | None => (set_probe o lsrc (Some b) idx, Panic)
  | Some t =>
      let '(idx, out) := probe (λ r, row_pairs o s (join_key t (cell r (left_key_idx o)))) (drop idx (rows b)) idx [] in
      let chunk := if decide (num_rows b ≤ idx) then None else Some b in
      if decide (out = []) then (set_probe o lsrc None idx, Ok None)
      else
        match emit o s b out with
        | Ok r => (set_probe o lsrc chunk idx, Ok (Some r))
        | Err e => (set_probe o lsrc (Some b) idx, Err e)
        | Panic => (set_probe o lsrc (Some b) idx, Panic)
        end
  end.
Definition probe_next (o : HashJoin) (s : BuildSide) : HashJoin * next_result :=
  match current_left_chunk o with
  | Some b => probe_chunk o s (hj_left o) b (left_row_idx o)
  | None =>
      match pull (hj_left o) with
      | (lsrc, Ok (Some b)) => probe_chunk o s lsrc b 0
      | (lsrc, Ok None) => (set_probe o lsrc None 0, Ok None)
      | (lsrc, r) => (set_probe o lsrc None (left_row_idx o), r)
      end
  end.
(** A failed build is remembered. *)
Definition hash_join_next (o : HashJoin) : HashJoin * next_result :=
  match shared_build o with
  | BuildDone s => probe_next o s
  | BuildFailed => (o, Err Internal)
  | NotBuilt =>
      match build_loop (hj_right o) (right_key_idx o) 0 (mkBuildSide [] []) with
      | (rsrc, Ok s) => let o := set_build o rsrc (BuildDone s) in probe_next o s
      | (rsrc, Err e) => (set_build o rsrc BuildFailed, Err e)
      | (rsrc, Panic) => (set_build o rsrc BuildFailed, Panic)
      end
  end.

(** ** The cross join (cross_join.rs) *)

(** The right side: its batches, joined into one. *)
Inductive CrossBuild := CrossNotBuilt | CrossFailed | CrossDone (chunks : list RecordBatch).
Record PhysicalCrossJoin := mkCrossJoin {
  cj_left : Stream; cj_right : Stream; cj_build : CrossBuild; cj_chunk : option RecordBatch; cj_row : nat;
}.
Definition cross_join_new (l r : Stream) : PhysicalCrossJoin := mkCrossJoin l r CrossNotBuilt None 0.

Fixpoint cross_collect (src : Stream) (chunks : list RecordBatch) : Stream * outcome (list RecordBatch) :=
  match src with
  | [] => ([], Ok chunks)
  | Ok b :: src => cross_collect src (chunks ++ [b])
  | Err e :: src => (src, Err e)
  | Panic :: src => (src, Panic)
  end.
(** [concat_batches]: the batches of one child have one schema. *)
Definition merge_chunks (chunks : list RecordBatch) : list RecordBatch :=
  match chunks with
  | b :: _ :: _ => [mkBatch (schema b) (concat (map rows chunks))]
  | _ => chunks
  end.

(** Pairs are collected until there are 1024; the left row moves on after every
    pass over the right rows, finished or not. *)
Fixpoint cross_fill (l rs : list Row) (idx : nat) (out : list Row) : nat * list Row :=
  match l with
  | [] => (idx, out)
  | r :: l =>
      if decide (length out < 1024) then cross_fill l rs (idx + 1) (out ++ take (1024 - length out) (map (app r) rs))
      else (idx, out)
  end.
(** One left batch: a result, or nothing and the batch is dropped. *)
Definition cross_chunk (o : PhysicalCrossJoin) (src : Stream) (rb : RecordBatch) (b : RecordBatch) (row : nat) : PhysicalCrossJoin * option RecordBatch :=
  let '(idx, out) := cross_fill (drop row (rows b)) (rows rb) row [] in
  let chunk := if decide (num_rows b ≤ idx) then None else Some b in
  (mkCrossJoin src (cj_right o) (cj_build o) chunk idx, if decide (out = []) then None else Some (mkBatch (schema b ++ schema rb) out)).
Fixpoint cross_pull (o : PhysicalCrossJoin) (src : Stream) (chunks : list RecordBatch) : PhysicalCrossJoin * next_result :=
  match src with
  | [] => (mkCrossJoin [] (cj_right o) (cj_build o) None 0, Ok None)
  | Ok b :: src =>
      match chunks with
      | [] => cross_pull o src chunks
      | rb :: _ => match cross_chunk o src rb b 0 with (o, Some r) => (o, Ok (Some r)) | (_, None) => cross_pull o src chunks end
      end
  | Err e :: src => (mkCrossJoin src (cj_right o) (cj_build o) None (cj_row o), Err e)
  | Panic :: src => (mkCrossJoin src (cj_right o) (cj_build o) None (cj_row o), Panic)
  end.
Definition cross_probe (o : PhysicalCrossJoin) (chunks : list RecordBatch) : PhysicalCrossJoin * next_result :=
  match cj_chunk o, chunks with
  | Some b, rb :: _ => match cross_chunk o (cj_left o) rb b (cj_row o) with (o, Some r) => (o, Ok (Some r)) | (_, None) => cross_pull o (cj_left o) chunks end
  | _, _ => cross_pull o (cj_left o) chunks
  end.
Definition cross_join_next (o : PhysicalCrossJoin) : PhysicalCrossJoin * next_result :=
  match cj_build o with
  | CrossDone chunks => cross_probe o chunks
  | CrossFailed => (o, Err Internal)
  | CrossNotBuilt =>
      match cross_collect (cj_right o) [] with
      | (src, Ok chunks) => cross_probe (mkCrossJoin (cj_left o) src (CrossDone (merge_chunks chunks)) (cj_chunk o) (cj_row o)) (merge_chunks chunks)
      | (src, Err e) => (mkCrossJoin (cj_left o) src CrossFailed (cj_chunk o) (cj_row o), Err e)
      | (src, Panic) => (mkCrossJoin (cj_left o) src CrossFailed (cj_chunk o) (cj_row o), Panic)
      end
  end.

(** ** Intersection of neighbour lists (intersect.rs) *)

(** The build side of one operand: the values by key. *)
Fixpoint values_get (t : list (Value * list Value)) (k : Value) : option (list Value) :=
  match t with
  | [] => None
  | (k', l) :: t => if value_eq k' k then Some l else values_get t k
  end.
Fixpoint values_push (t : list (Value * list Value)) (k v : Value) : list (Value * list Value) :=
  match t with
  | [] => [(k, [v])]
  | (k', l) :: t => if value_eq k' k then (k', l ++ [v]) :: t else (k', l) :: values_push t k v
  end.
Fixpoint intersect_build (src : Stream) (key_idx val_idx : nat) (t : list (Value * list Value)) : (Stream * list (Value * list Value)) * outcome unit :=
  match src with
  | [] => (([], t), Ok tt)
  | Ok b :: src =>
      if decide (num_rows b = 0 ∨ key_idx < length (schema b) ∧ val_idx < length (schema b)) then
        intersect_build src key_idx val_idx (foldl (λ t r, values_push t (from_arrow (cell r key_idx)) (from_arrow (cell r val_idx))) t (rows b))
      else ((src, t), Panic)
  | Err e :: src => ((src, t), Err e)
  | Panic :: src => ((src, t), Panic)
  end.
(** The operands one after the other; what was read before a failure stays. *)
Fixpoint intersect_builds (srcs : list Stream) (idx : list (nat * nat)) : (list Stream * list (list (Value * list Value))) * outcome unit :=
  match srcs, idx with
  | src :: srcs, (k, v) :: idx =>
      match intersect_build src k v [] with
      | ((src, t), Ok _) => let '((srcs, ts), o) := intersect_builds srcs idx in ((src :: srcs, t :: ts), o)
      | ((src, t), o) => ((src :: srcs, t :: map (λ _, []) srcs), o)
      end
  | _, _ => (([], []), Ok tt)
  end.

(** The match lists of a probe row, one per operand, as long as none is missing;
    the position of the first shortest. *)
Fixpoint match_sets (hts : list (list (Value * list Value))) (keys : list nat) (r : Row) : option (list (list Value)) :=
  match hts, keys with
  | [], _ => Some []
  | ht :: hts, k :: keys =>
      match values_get ht (from_arrow (cell r k)) with
      | Some ((_ :: _) as m) => match match_sets hts keys r with Some l => Some (m :: l) | None => None end
      | _ => None
      end
  | _, _ => None
  end.
Fixpoint smallest (l : list (list Value)) (i best size : nat) : nat :=
  match l with
  | [] => best
  | m :: l => if decide (length m < size) then smallest l (i + 1) i (length m) else smallest l (i + 1) best size
  end.
Definition smallest_set (l : list (list Value)) : nat := match l with [] => 0 | m :: l => smallest l 1 0 (length m) end.
Definition in_values (v : Value) (l : list Value) : bool := existsb (λ x, value_eq x v) l.
Definition intersect_row (hts : list (list (Value * list Value))) (keys : list nat) (r : Row) : list (Row * Value) :=
  match match_sets hts keys r with
  | None => []
  | Some sets =>
      let best := smallest_set sets in
      let others := take best sets ++ drop (best + 1) sets in
      map (λ v, (r, v)) (List.filter (λ v, forallb (in_values v) others) (default [] (sets !! best)))
  end.

Record PhysicalIntersect := mkIntersect {
  in_child : Stream; probe_key_indices : list nat; build_operators : list Stream; build_indices : list (nat * nat);
  build_hts : list (list (Value * list Value)); build_done : bool; in_chunk : option RecordBatch; probe_row_idx : nat;
}.
Definition intersect_new (child : Stream) (keys : list nat) (builds : list Stream) (idx : list (nat * nat)) : PhysicalIntersect :=
  mkIntersect child keys builds idx (map (λ _, []) builds) false None 0.
Definition set_in_probe (o : PhysicalIntersect) (child : Stream) (chunk : option RecordBatch) (row : nat) : PhysicalIntersect :=
  mkIntersect child (probe_key_indices o) (build_operators o) (build_indices o) (build_hts o) (build_done o) chunk row.

(** The loop over the probe rows: until the batch ends or there are 1024 results. *)
Fixpoint intersect_fill (hts : list (list (Value * list Value))) (keys : list nat) (l : list Row) (idx : nat) (results : list (Row * Value)) :
    (nat * bool) * list (Row * Value) :=
  match l with
  | [] => ((idx, false), results)
  | r :: l =>
      let results := results ++ intersect_row hts keys r in
      if decide (1024 ≤ length results) then ((idx + 1, true), results) else intersect_fill hts keys l (idx + 1) results
  end.
(** The result columns go through [Value] and [values_to_array]. *)
Definition rebuild_row (types : list DataType) (r : Row) : Row := zip_with (λ t c, value_to_cell t (from_arrow c)) types r.
Definition intersect_batch (b : RecordBatch) (results : list (Row * Value)) : RecordBatch :=
  mkBatch (schema b ++ [DUInt64]) (map (λ p, rebuild_row (schema b) (fst p) ++ [value_to_cell DUInt64 (snd p)]) results).
Definition intersect_chunk (o : PhysicalIntersect) (child : Stream) (b : RecordBatch) (row : nat) : PhysicalIntersect * next_result :=
  let '((idx, ready), results) := intersect_fill (build_hts o) (probe_key_indices o) (drop row (rows b)) row [] in
  let o := set_in_probe o child (if ready then Some b else None) idx in
  if decide (results = []) then (o, Ok None) else (o, Ok (Some (intersect_batch b results))).
Definition intersect_probe (o : PhysicalIntersect) : PhysicalIntersect * next_result :=
  match in_chunk o with
  | Some b => intersect_chunk o (in_child o) b (probe_row_idx o)
  | None =>
      match pull (in_child o) with
      | (child, Ok (Some b)) => intersect_chunk o child b 0
      | (child, Ok None) => (set_in_probe o child None 0, Ok None)
      | (child, r) => (set_in_probe o child None (probe_row_idx o), r)
      end
  end.
Definition intersect_next (o : PhysicalIntersect) : PhysicalIntersect * next_result :=
  if build_done o then intersect_probe o
  else
    let '((srcs, hts), r) := intersect_builds (build_operators o) (build_indices o) in
    let o := mkIntersect (in_child o) (probe_key_indices o) srcs (build_indices o) hts true (in_chunk o) (probe_row_idx o) in
    match r with
    | Ok _ => intersect_probe o
    | Err e => (o, Err e)
    | Panic => (o, Panic)
    end.
