(* ===== verification/JoinsSpec.v ===== *)
(** * What the joins compute (processor/operators/hash_join.rs, cross_join.rs, intersect.rs)

    A hash join over one right batch whose left batches have between 1 and 1023
    result rows each is the join; outside these bounds rows are lost, repeated
    without end or paired with the wrong partner.  A cross join of more than 1024
    right rows keeps the first 1024 of them. *)
From stdpp Require Import base list gmap numbers.
From Stdlib Require Import ZArith Lia Bool.
From S2P Require Import Prelude Codec HashIndex Column ColumnScan Trigram Operators OperatorsSpec Joins.
Open Scope nat_scope.

(** ** Keys *)

Definition scalar_value (v : Value) : bool :=
  match v with VPath _ | VList _ | VStruct _ | VMap _ => false | _ => true end.
Lemma value_eq_scalar v w : scalar_value v = true → value_eq v w = true ↔ v = w.
Proof.
  intros Hv. destruct v, w; cbn in *; try done; rewrite ?bool_decide_eq_true; (split; [intros H; (done || congruence)|intros H; (done || congruence)]).
Qed.
Definition scalar_key (k : JoinKey) : bool := match k with KValue v => scalar_value v | _ => true end.
Lemma key_eqb_eq a b : scalar_key a = true → key_eqb a b = true ↔ a = b.
Proof.
  intros Ha. destruct a, b; cbn in *; try done; rewrite ?bool_decide_eq_true; try (split; [intros H; congruence|intros [= H]; done]).
  rewrite value_eq_scalar by done. split; [intros ->; done|intros [= ->]; done].
Qed.
Lemma join_key_scalar t c k : join_key t c = Some k → scalar_key k = true.
Proof. destruct t, c as [[]|]; cbn; intros [= <-]; done. Qed.

Lemma key_eqb_dec a b : scalar_key a = true → {a = b ∧ key_eqb a b = true} + {a ≠ b ∧ key_eqb a b = false}.
Proof.
  intros Ha. destruct (key_eqb a b) eqn:E; [left|right]; (split; [|done]); [by apply key_eqb_eq|]. intros H. apply (key_eqb_eq a b Ha) in H. congruence.
Qed.

(** ** The table *)

Definition keys_ok (h : HashTable) : Prop := Forall (λ e, scalar_key (fst e) = true) h.
(** Row numbers added to an entry. *)
Definition extend (o : option (list nat)) (l : list nat) : option (list nat) :=
  match o, l with None, [] => None | _, _ => Some (default [] o ++ l) end.
Lemma extend_app o a b : extend (extend o a) b = extend o (a ++ b).
Proof. destruct o as [l|], a as [|x a], b as [|y b]; cbn; rewrite ?app_nil_r, <- ?app_assoc; done. Qed.
Lemma extend_nil o : extend o [] = o.
Proof. destruct o; cbn; by rewrite ?app_nil_r. Qed.

Lemma table_push_get h k i k' : keys_ok h → scalar_key k = true →
  table_get (table_push h k i) k' = extend (table_get h k') (if key_eqb k k' then [i] else []) ∧ keys_ok (table_push h k i).
Proof.
  intros Hh Hk. induction Hh as [|[k0 l] h H0 Hh [IH1 IH2]]; cbn [table_push table_get fst] in *.
  { split; [by destruct (key_eqb k k')|by constructor]. }
  destruct (key_eqb_dec k0 k H0) as [[-> Ek]|[Hne Ek]]; rewrite Ek.
  - split; [|by constructor]. cbn [table_get]. destruct (key_eqb k k') eqn:E; [done|by rewrite extend_nil].
  - split; [|by constructor]. cbn [table_get]. destruct (key_eqb_dec k0 k' H0) as [[-> Ek']|[Hne' Ek']]; rewrite Ek'; [|done].
    destruct (key_eqb_dec k k' Hk) as [[-> _]|[_ ->]]; [done|by rewrite extend_nil].
Qed.

(** The rows of a list with this key. *)
Fixpoint hits (t : DataType) (key_idx : nat) (k : JoinKey) (l : list Row) (i : nat) : list nat :=
  match l with
  | [] => []
  | r :: l =>
      let rest := hits t key_idx k l (i + 1) in
      match join_key t (cell r key_idx) with Some k' => if key_eqb k' k then i :: rest else rest | None => rest end
  end.
Lemma build_keys_get t l key_idx i h k : keys_ok h →
  table_get (build_keys t l key_idx i h) k = extend (table_get h k) (hits t key_idx k l i) ∧ keys_ok (build_keys t l key_idx i h).
Proof.
  revert i h. induction l as [|r l IH]; intros i h Hh; cbn [build_keys hits]; [by rewrite extend_nil|].
  destruct (join_key t (cell r key_idx)) as [k'|] eqn:E; [|by apply IH].
  destruct (table_push_get h k' i k Hh (join_key_scalar _ _ _ E)) as [Hg Hok]. destruct (IH (i + 1) _ Hok) as [-> Hok']. split; [|done].
  rewrite Hg, extend_app. by destruct (key_eqb k' k).
Qed.

(** The partners of a left key among the right rows. *)
Definition partners (t : DataType) (key_idx : nat) (k : option JoinKey) (l : list Row) : list Row :=
  List.filter (λ r, match k, join_key t (cell r key_idx) with Some k, Some k' => key_eqb k' k | _, _ => false end) l.
Lemma hits_partners t key_idx k l pre : Forall2 (λ g r, (pre ++ l) !! g = Some r) (hits t key_idx k l (length pre)) (partners t key_idx (Some k) l).
Proof.
  revert pre. induction l as [|r l IH]; intros pre; [constructor|]. cbn [hits partners List.filter].
  specialize (IH (pre ++ [r])). rewrite length_app, <- app_assoc in IH. cbn [length app] in IH. fold (partners t key_idx (Some k) l).
  destruct (join_key t (cell r key_idx)) as [k'|]; [|exact IH]. destruct (key_eqb k' k); [|exact IH]. constructor; [|exact IH].
  by rewrite lookup_app_r, Nat.sub_diag by lia.
Qed.

(** ** The hash join *)

(** The result rows of one left row. *)
Definition joined (jt : JoinType) (lt rt : DataType) (lk rk : nat) (rb : RecordBatch) (r : Row) : list Row :=
  let ms := partners rt rk (join_key lt (cell r lk)) (rows rb) in
  match jt with
  | Inner => map (app r) ms
  | LeftOuter => match ms with [] => [r ++ null_row rb] | _ => map (app r) ms end
  | LeftSemi => match ms with [] => [] | _ => [r] end
  | LeftAnti => match ms with [] => [r] | _ => [] end
  end.

Lemma probe_all pairs l idx out : length (out ++ concat (imap (λ i r, pairs r (idx + i)) l)) < 1024 →
  probe pairs l idx out = (idx + length l, out ++ concat (imap (λ i r, pairs r (idx + i)) l)).
Proof.
  revert idx out. induction l as [|r l IH]; intros idx out Hl; cbn [probe imap concat length] in *.
  { by rewrite app_nil_r, Nat.add_0_r. }
  rewrite Nat.add_0_r in *. rewrite !length_app in Hl. rewrite decide_True by lia. rewrite take_ge by lia.
  rewrite decide_True by (rewrite length_app; lia). assert (imap ((λ i r0, pairs r0 (idx + i)) ∘ S) l = imap (λ i r0, pairs r0 (idx + 1 + i)) l) as E.
  { apply imap_ext. intros i x _. cbn. f_equal. lia. }
  rewrite E in *. rewrite IH by (rewrite !length_app; lia). by rewrite <- app_assoc, <- Nat.add_assoc.
Qed.

Lemma take_rows_ok l null idx xs : Forall2 (λ i x, match i with None => x = null | Some i => l !! i = Some x end) idx xs → take_rows l null idx = Ok xs.
Proof.
  induction 1 as [|i x idx xs Hi H IH]; [done|]. cbn [take_rows]. rewrite IH. destruct i as [i|]; [by rewrite Hi|by subst].
Qed.

(** What a pair stands for. *)
Definition pair_row (jt : JoinType) (lb rb : RecordBatch) (p : nat * option nat) (row : Row) : Prop :=
  ∃ l r, rows lb !! fst p = Some l ∧ (match snd p with None => r = null_row rb | Some g => rows rb !! g = Some r end) ∧
    row = match jt with LeftSemi | LeftAnti => l | _ => l ++ r end.

Lemma emit_ok o s lb rb out res : build_chunks s = [rb] → Forall2 (pair_row (join_type o) lb rb) out res →
  emit o s lb out = Ok (mkBatch (match join_type o with LeftSemi | LeftAnti => schema lb | _ => schema lb ++ schema rb end) res).
Proof.
  intros Hs Hf. assert (∃ ls rs, Forall2 (λ p l, rows lb !! fst p = Some l) out ls ∧
    Forall2 (λ p r, match snd p with None => r = null_row rb | Some g => rows rb !! g = Some r end) out rs ∧ length ls = length rs ∧
    res = match join_type o with LeftSemi | LeftAnti => ls | _ => zip_with app ls rs end) as (ls & rs & Hl & Hr & Hlen & ->).
  { clear Hs. induction Hf as [|p row out res (l & r & Hl & Hr & ->) Hf (ls & rs & Hls & Hrs & Hlen & ->)].
    - exists [], []. split_and!; try constructor. by destruct (join_type o).
    - exists (l :: ls), (r :: rs). split_and!; [by constructor..|cbn; lia|by destruct (join_type o)]. }
  unfold emit. assert (take_rows (rows lb) (null_row lb) (map (Some ∘ fst) out) = Ok ls) as ->.
  { apply take_rows_ok. apply Forall2_fmap_l. exact Hl. }
  cbn [outcome_bind]. unfold right_rows. rewrite Hs. assert (take_rows (rows rb) (null_row rb) (map snd out) = Ok rs) as ->.
  { apply take_rows_ok, Forall2_fmap_l. exact Hr. }
  cbn [outcome_bind]. unfold join_columns. cbn [fst snd]. destruct (join_type o); try done; by rewrite decide_True.
Qed.

Section join.
Context (jt : JoinType) (lt rt : DataType) (lk rk : nat) (rb : RecordBatch) (Hrt : schema rb !! rk = Some rt).
Definition built : BuildSide := mkBuildSide (build_keys rt (rows rb) rk 0 []) [rb].
(** The operator in its probe phase. *)
Definition probing (lsrc : Stream) (idx : nat) : HashJoin := mkHashJoin lsrc [] lk rk jt false (BuildDone built) None idx.

Lemma row_pairs_ok o lb idx r : join_type o = jt → is_cross_join o = false → rows lb !! idx = Some r →
  Forall2 (pair_row jt lb rb) (row_pairs o built (join_key lt (cell r lk)) idx) (joined jt lt rt lk rk rb r).
Proof.
  intros Hj Hc Hr. unfold row_pairs, joined. rewrite Hc, Hj.
  assert (∀ gs ms, Forall2 (λ g r', rows rb !! g = Some r') gs ms → (jt = Inner ∨ jt = LeftOuter) →
    Forall2 (pair_row jt lb rb) (map (λ g, (idx, Some g)) gs) (map (app r) ms)) as Hpairs.
  { intros gs ms H Hor. apply Forall2_fmap_l, Forall2_fmap_r. eapply list.Forall2_impl; [exact H|]. intros g r' Hg. exists r, r'. split_and!; try done. by destruct Hor as [-> | ->]. }
  assert (∀ row, (row = match jt with LeftSemi | LeftAnti => r | _ => r ++ null_row rb end) → Forall2 (pair_row jt lb rb) [(idx, None)] [row]) as Hone.
  { intros row ->. constructor; [|constructor]. exists r, (null_row rb). by split_and!. }
  destruct (join_key lt (cell r lk)) as [k|] eqn:Ek; cbn [mbind option_bind].
  - pose proof (build_keys_get rt (rows rb) rk 0 [] k ltac:(constructor)) as [Hg _]. cbn [built hash_table]. rewrite Hg. cbn [table_get].
    pose proof (hits_partners rt rk k (rows rb) []) as Hp. cbn [length app] in Hp. destruct Hp as [|g m gs ms Hgm Hp]; cbn [extend default app].
    + destruct jt; first [constructor 1|by apply Hone].
    + destruct jt; first [apply (Hpairs (g :: gs) (m :: ms)); [by constructor|by auto]|constructor 1|by apply Hone].
  - assert (partners rt rk None (rows rb) = []) as -> by (unfold partners; clear; induction (rows rb) as [|x l IH]; [done|exact IH]).
    destruct jt; first [constructor 1|by apply Hone].
Qed.

Lemma pairs_ok o lb l pre : join_type o = jt → is_cross_join o = false → rows lb = pre ++ l →
  Forall2 (pair_row jt lb rb) (concat (imap (λ i r, row_pairs o built (join_key lt (cell r lk)) (length pre + i)) l)) (concat (map (joined jt lt rt lk rk rb) l)).
Proof.
  intros Hj Hc. revert pre. induction l as [|r l IH]; intros pre Hl; [constructor|]. cbn [imap map concat]. apply Forall2_app.
  - rewrite Nat.add_0_r. apply row_pairs_ok; [done|done|]. by rewrite Hl, lookup_app_r, Nat.sub_diag by lia.
  - specialize (IH (pre ++ [r])). rewrite length_app in IH. cbn [length] in IH. rewrite <- app_assoc in IH. specialize (IH Hl).
    erewrite imap_ext; [exact IH|]. intros i x _. cbn. f_equal. lia.
Qed.

Lemma probe_chunk_ok lsrc b i : schema b !! lk = Some lt → 0 < length (concat (map (joined jt lt rt lk rk rb) (rows b))) < 1024 →
  probe_chunk (probing (Ok b :: lsrc) i) built lsrc b 0 =
    (probing lsrc (num_rows b), Ok (Some (mkBatch (match jt with LeftSemi | LeftAnti => schema b | _ => schema b ++ schema rb end) (concat (map (joined jt lt rt lk rk rb) (rows b)))))).
Proof.
  intros Hlt Hn. unfold probe_chunk. change (left_key_idx (probing (Ok b :: lsrc) i)) with lk. rewrite Hlt, drop_0.
  pose proof (pairs_ok (probing (Ok b :: lsrc) i) b (rows b) [] eq_refl eq_refl eq_refl) as Hp. cbn [length Nat.add] in Hp. pose proof (Forall2_length Hp) as Hlen.
  rewrite probe_all by (cbn [app Nat.add]; lia). cbn [app Nat.add]. rewrite decide_False by (intros E; rewrite E in Hlen; cbn in Hlen; lia).
  rewrite (emit_ok (probing (Ok b :: lsrc) i) built b rb _ _ eq_refl Hp). rewrite decide_True by (unfold num_rows; lia). done.
Qed.

Lemma join_produces ls i : Forall (λ b, schema b !! lk = Some lt ∧ 0 < length (concat (map (joined jt lt rt lk rk rb) (rows b))) < 1024) ls →
  ∃ out, produces hash_join_next (probing (map Ok ls) i) out ∧ all_rows out = concat (map (joined jt lt rt lk rk rb) (all_rows ls)).
Proof.
  intros H. revert i. induction H as [|b ls [Hb Hn] H IH]; intros i; [exists []; split; [by eapply produces_end|done]|].
  destruct (IH (num_rows b)) as (out & Hp & Ho). eexists (_ :: out). split.
  - eapply produces_next; [|exact Hp]. exact (probe_chunk_ok (map Ok ls) b i Hb Hn).
  - by rewrite !all_rows_cons, Ho, map_app, concat_app.
Qed.

Lemma first_call lsrc : hash_join_next (hash_join_new lsrc [Ok rb] lk rk jt false) = hash_join_next (probing lsrc 0).
Proof. unfold hash_join_next, hash_join_new. cbn [shared_build hj_right right_key_idx build_loop]. rewrite Hrt. reflexivity. Qed.
End join.

(** C13. The hash join (hash_join.rs) computes the join: with a right side of one
    batch and left batches that have between 1 and 1023 result rows each, it hands
    out, for every left row in order, its partners (inner join), its partners or a
    row of nulls (left outer join), the row if it has a partner (semi join) or if
    it has none (anti join). *)
Theorem hash_join_rows (jt : JoinType) (lt rt : DataType) (lk rk : nat) (rb : RecordBatch) (ls : list RecordBatch) :
  schema rb !! rk = Some rt →
  Forall (λ b, schema b !! lk = Some lt ∧ 0 < length (concat (map (joined jt lt rt lk rk rb) (rows b))) < 1024) ls →
  ∃ out, produces hash_join_next (hash_join_new (map Ok ls) [Ok rb] lk rk jt false) out ∧ all_rows out = concat (map (joined jt lt rt lk rk rb) (all_rows ls)).
Proof.
  intros Hrt Hls. destruct (join_produces jt lt rt lk rk rb ls 0 Hls) as (out & Hp & Ho). exists out. split; [|done]. eapply produces_same; [|exact Hp]. by apply first_call.
Qed.

(** ** Where the hash join departs *)

(** A left batch without a result row ends the hash join: whatever the left
    batches after it hold, nothing more is handed out. *)
Theorem join_ends_early (jt : JoinType) (lt rt : DataType) (lk rk : nat) (rb b : RecordBatch) (rest : Stream) :
  schema rb !! rk = Some rt → schema b !! lk = Some lt → concat (map (joined jt lt rt lk rk rb) (rows b)) = [] →
  produces hash_join_next (hash_join_new (Ok b :: rest) [Ok rb] lk rk jt false) [].
Proof.
  intros Hrt Hlt Hn. eapply produces_same; [by apply first_call|]. eapply produces_end.
  unfold hash_join_next, probing. cbn [shared_build]. unfold probe_next. cbn [current_left_chunk pull hj_left].
  unfold probe_chunk. cbn [left_key_idx]. rewrite Hlt, drop_0. fold (probing jt rt lk rk rb (Ok b :: rest) 0).
  pose proof (pairs_ok jt lt rt lk rk rb (probing jt rt lk rk rb (Ok b :: rest) 0) b (rows b) [] eq_refl eq_refl eq_refl) as Hp.
  rewrite Hn in Hp. apply Forall2_nil_inv_r in Hp. cbn [length Nat.add] in Hp.
  rewrite probe_all; cbn [app Nat.add]; rewrite Hp; [reflexivity|cbn; lia].
Qed.

Lemma drain_repeats {S} (next : S → S * next_result) s b n : next s = (s, Ok (Some b)) → drain next n s = replicate n (Ok b).
Proof. intros E. induction n as [|n IH]; [done|]. cbn [drain replicate]. rewrite E. by f_equal. Qed.

Section stuck.
Context (lt rt : DataType) (lk rk : nat) (rb : RecordBatch) (lb : RecordBatch) (r : Row) (more : list Row) (rest : Stream).
Hypothesis (Hrt : schema rb !! rk = Some rt) (Hlt : schema lb !! lk = Some lt) (Hrows : rows lb = r :: more).
Hypothesis (Hmany : 1024 ≤ length (joined Inner lt rt lk rk rb r)).
(** The operator after its first batch. *)
Definition stuck : HashJoin := set_probe (probing Inner rt lk rk rb (Ok lb :: rest) 0) rest (Some lb) 0.

Lemma stuck_chunk o : join_type o = Inner → is_cross_join o = false → left_key_idx o = lk →
  probe_chunk o (built rt rk rb) rest lb 0 =
    (set_probe o rest (Some lb) 0, Ok (Some (mkBatch (schema lb ++ schema rb) (take 1024 (joined Inner lt rt lk rk rb r))))).
Proof using Hlt Hrows Hmany.
  intros Hj Hc Hk. unfold probe_chunk. rewrite Hk, Hlt, drop_0, Hrows.
  pose proof (row_pairs_ok Inner lt rt lk rk rb o lb 0 r Hj Hc) as Hp. rewrite Hrows in Hp. specialize (Hp eq_refl).
  pose proof (Forall2_length Hp) as Hlen. assert (Forall2 (pair_row Inner lb rb) (take 1024 (row_pairs o (built rt rk rb) (join_key lt (cell r lk)) 0)) (take 1024 (joined Inner lt rt lk rk rb r))) as Ht by (by apply Forall2_take).
  pose proof (length_take_le (row_pairs o (built rt rk rb) (join_key lt (cell r lk)) 0) 1024 ltac:(lia)) as H1024.
  remember (row_pairs o (built rt rk rb) (join_key lt (cell r lk)) 0) as ps. cbn [probe]. rewrite <- Heqps.
  rewrite decide_True by (cbn [length]; lia). cbn [app length]. rewrite Nat.sub_0_r. rewrite decide_False by lia.
  rewrite decide_False by (intros E; rewrite E in H1024; cbn [length] in H1024; lia).
  rewrite <- Hj in Ht. rewrite (emit_ok o (built rt rk rb) lb rb _ _ eq_refl Ht), Hj. unfold num_rows. rewrite Hrows. by rewrite decide_False by (cbn [length]; lia).
Qed.
End stuck.

(** A left row with 1024 or more partners is handed out without end: the join
    returns the same 1024 rows at every call and never reaches the row's other
    partners, the next left row or the end. *)
Theorem join_never_ends (lt rt : DataType) (lk rk : nat) (rb lb : RecordBatch) (r : Row) (more : list Row) (rest : Stream) (n : nat) :
  schema rb !! rk = Some rt → schema lb !! lk = Some lt → rows lb = r :: more → 1024 ≤ length (joined Inner lt rt lk rk rb r) →
  drain hash_join_next n (hash_join_new (Ok lb :: rest) [Ok rb] lk rk Inner false) =
    replicate n (Ok (mkBatch (schema lb ++ schema rb) (take 1024 (joined Inner lt rt lk rk rb r)))).
Proof.
  intros Hrt Hlt Hr Hm. destruct n as [|n]; [done|]. cbn [drain replicate].
  pose proof (stuck_chunk lt rt lk rk rb lb r more rest Hlt Hr Hm (probing Inner rt lk rk rb (Ok lb :: rest) 0) eq_refl eq_refl eq_refl) as E.
  change (hash_join_next (probing Inner rt lk rk rb (Ok lb :: rest) 0) = (stuck rt lk rk rb lb rest, Ok (Some (mkBatch (schema lb ++ schema rb) (take 1024 (joined Inner lt rt lk rk rb r)))))) in E.
  rewrite (first_call Inner rt lk rk rb Hrt), E. f_equal.
  apply drain_repeats. exact (stuck_chunk lt rt lk rk rb lb r more rest Hlt Hr Hm (stuck rt lk rk rb lb rest) eq_refl eq_refl eq_refl).
Qed.

(** The rows of several right batches are handed out grouped by batch: a left
    row is paired with another row's partner.  Two left rows with keys 1 and 2,
    the partner of 2 in the first right batch and the partner of 1 in the second:
    row 1 gets the partner of 2 and row 2 the partner of 1. *)
Theorem join_swaps_partners : let row k := [Some (AUInt64 k)] in let batch l := Ok (mkBatch [DUInt64] (map row l)) in
  drain hash_join_next 9 (hash_join_new [batch [1; 2]%Z] [batch [2%Z]; batch [1%Z]] 0 0 Inner false) =
    [Ok (mkBatch [DUInt64; DUInt64] [row 1%Z ++ row 2%Z; row 2%Z ++ row 1%Z])].
Proof. vm_compute. reflexivity. Qed.

(** ** The cross join *)

Section cross.
Context (rb : RecordBatch).
Definition crossing (src : Stream) (chunk : option RecordBatch) (row : nat) : PhysicalCrossJoin := mkCrossJoin src [] (CrossDone [rb]) chunk row.
Definition left_over (b : RecordBatch) (row : nat) : option RecordBatch := if decide (num_rows b ≤ row) then None else Some b.

Lemma cross_pull_any ls chunks o o' : cj_right o = cj_right o' → cj_build o = cj_build o' →
  cross_pull o (map Ok ls) chunks = cross_pull o' (map Ok ls) chunks.
Proof.
  intros H1 H2. induction ls as [|b ls IH]; cbn [map cross_pull]; [by rewrite H1, H2|]. destruct chunks as [|c chunks]; [done|].
  unfold cross_chunk. rewrite H1, H2. destruct (cross_fill _ _ _ _) as [i out]. by destruct (decide (out = [])).
Qed.

(** What one call takes of the left rows that remain. *)
Context (Q : list Row → Prop) (f : Row → list Row).
Hypothesis Qdrop : ∀ l j, Q l → Q (drop j l).
Hypothesis Qstep : ∀ l row, Q l → l ≠ [] → ∃ j, 0 < j ≤ length l ∧
  cross_fill l (rows rb) row [] = (row + j, concat (map f (take j l))) ∧ concat (map f (take j l)) ≠ [].

Lemma cross_chunk_step o src b row : Q (rows b) → row < num_rows b → cj_right o = [] → cj_build o = CrossDone [rb] → ∃ j, 0 < j ∧
  cross_chunk o src rb b row = (crossing src (left_over b (row + j)) (row + j), Some (mkBatch (schema b ++ schema rb) (concat (map f (take j (drop row (rows b))))))).
Proof using Qdrop Qstep.
  intros HQ Hrow H1 H2. destruct (Qstep (drop row (rows b)) row) as (j & [Hj _] & Hf & Hne).
  { by apply Qdrop. } { intros E. apply (f_equal length) in E. rewrite length_drop in E. unfold num_rows in Hrow. cbn in E. lia. }
  exists j. split; [done|]. unfold cross_chunk. rewrite Hf, H1, H2. rewrite (decide_False (P := concat _ = []) _ _ Hne). reflexivity.
Qed.

Lemma cross_rest ls b row : Q (rows b) →
  (∀ i, ∃ out, produces cross_join_next (crossing (map Ok ls) None i) out ∧ all_rows out = concat (map f (all_rows ls))) →
  ∃ out, produces cross_join_next (crossing (map Ok ls) (left_over b row) row) out ∧ all_rows out = concat (map f (drop row (rows b))) ++ concat (map f (all_rows ls)).
Proof using Qdrop Qstep.
  intros HQ Hls. remember (num_rows b - row) as n eqn:En. revert row En. induction (lt_wf n) as [n _ IH]. intros row En.
  unfold left_over. destruct (decide (num_rows b ≤ row)) as [Hle|Hgt].
  { destruct (Hls row) as (out & Hp & Ho). exists out. split; [done|]. by rewrite drop_ge by done. }
  destruct (cross_chunk_step (crossing (map Ok ls) (Some b) row) (map Ok ls) b row HQ ltac:(lia) eq_refl eq_refl) as (j & Hj & Hc).
  destruct (IH (num_rows b - (row + j)) ltac:(lia) (row + j) eq_refl) as (out & Hp & Ho). eexists (_ :: out). split.
  - eapply produces_next; [|exact Hp]. unfold cross_join_next, cross_probe. cbn [cj_build crossing cj_chunk cj_left cj_row]. fold (crossing (map Ok ls) (Some b) row). by rewrite Hc.
  - rewrite all_rows_cons, Ho. cbn [rows]. by rewrite app_assoc, <- concat_app, <- map_app, <- drop_drop, take_drop.
Qed.

Lemma cross_produces ls i : Forall (λ b, Q (rows b)) ls →
  ∃ out, produces cross_join_next (crossing (map Ok ls) None i) out ∧ all_rows out = concat (map f (all_rows ls)).
Proof using Qdrop Qstep.
  intros H. revert i. induction H as [|b ls HQ H IH]; intros i; [exists []; split; [by eapply produces_end|done]|].
  rewrite all_rows_cons, map_app, concat_app. destruct (decide (rows b = [])) as [E|Hne].
  { destruct (IH i) as (out & Hp & Ho). exists out. rewrite E. split; [|done]. eapply produces_same; [|exact Hp].
    unfold cross_join_next, cross_probe. cbn [cj_build crossing cj_chunk cj_left map cross_pull]. unfold cross_chunk. rewrite E. cbn [drop cross_fill].
    rewrite decide_True by done. by apply cross_pull_any. }
  destruct (cross_rest ls b 0 HQ IH) as (out & Hp & Ho). exists out. split; [|by rewrite Ho, drop_0].
  eapply produces_same; [|exact Hp]. assert (0 < num_rows b) as Hb by (unfold num_rows; destruct (rows b); [done|cbn; lia]).
  unfold cross_join_next, cross_probe, left_over. rewrite decide_False by lia. cbn [cj_build crossing cj_chunk cj_left cj_row map cross_pull].
  destruct (cross_chunk_step (crossing (map Ok (b :: ls)) None i) (map Ok ls) b 0 HQ Hb eq_refl eq_refl) as (j & _ & Hc).
  destruct (cross_chunk_step (crossing (map Ok ls) (Some b) 0) (map Ok ls) b 0 HQ Hb eq_refl eq_refl) as (j' & _ & Hc').
  cbn [map crossing] in Hc. unfold crossing at 1 in Hc. unfold crossing at 1 in Hc'. unfold cross_chunk in *. cbn [cj_right cj_build] in *.
  destruct (cross_fill _ _ _ _) as [x o0]. destruct (decide (o0 = [])); done.
Qed.
End cross.

Lemma cross_fill_all l rs idx out : 0 < length rs → length out + length l * length rs ≤ 1024 →
  cross_fill l rs idx out = (idx + length l, out ++ concat (map (λ r, map (app r) rs) l)).
Proof.
  intros Hrs. revert idx out. induction l as [|r l IH]; intros idx out H; cbn [cross_fill map concat length] in *; rewrite ?Nat.mul_succ_l in H; [by rewrite app_nil_r, Nat.add_0_r|].
  unfold Row in *. assert (length out + length rs ≤ 1024) by nia. rewrite decide_True by lia. rewrite take_ge by (rewrite length_map; lia). rewrite IH by (rewrite length_app, length_map; lia).
  by rewrite <- app_assoc, <- Nat.add_assoc.
Qed.
Lemma cross_fill_capped r l rs idx : 1024 ≤ length rs → cross_fill (r :: l) rs idx [] = (idx + 1, take 1024 (map (app r) rs)).
Proof.
  intros H. cbn [cross_fill length app]. rewrite decide_True by lia. rewrite Nat.sub_0_r. destruct l as [|r' l]; [done|]. cbn [cross_fill].
  rewrite decide_False; [done|]. unfold Row in *. rewrite length_take_le by (rewrite length_map; lia). lia.
Qed.

Lemma cross_collect_ok rs acc : cross_collect (map Ok rs) acc = ([], Ok (acc ++ rs)).
Proof. revert acc. induction rs as [|b rs IH]; intros acc; cbn; [by rewrite app_nil_r|]. by rewrite IH, <- app_assoc. Qed.
Lemma cross_first_call src b rs : ∃ rb, rows rb = all_rows (b :: rs) ∧
  cross_join_next (cross_join_new src (map Ok (b :: rs))) = cross_join_next (crossing rb src None 0).
Proof.
  exists (match rs with [] => b | _ => mkBatch (schema b) (all_rows (b :: rs)) end). split.
  { destruct rs; [|done]. unfold all_rows. cbn. by rewrite app_nil_r. }
  unfold cross_join_next, cross_join_new. cbn [cj_build cj_right]. rewrite cross_collect_ok. by destruct rs.
Qed.

(** The cross join (cross_join.rs) pairs every left row with every right row,
    in order, when the right side has rows and no left batch has more than 1024
    pairs. *)
Theorem cross_join_rows (ls rs : list RecordBatch) :
  0 < length (all_rows rs) → Forall (λ b, num_rows b * length (all_rows rs) ≤ 1024) ls →
  ∃ out, produces cross_join_next (cross_join_new (map Ok ls) (map Ok rs)) out ∧
    all_rows out = concat (map (λ l, map (app l) (all_rows rs)) (all_rows ls)).
Proof.
  intros Hrs Hls. destruct rs as [|b rs]; [cbn in Hrs; lia|]. destruct (cross_first_call (map Ok ls) b rs) as (rb & Hrb & Hfirst). rewrite <- Hrb in *.
  destruct (cross_produces rb (λ l, length l * length (rows rb) ≤ 1024) (λ l, map (app l) (rows rb))) with (ls := ls) (i := 0) as (out & Hp & Ho).
  - intros l j H. rewrite length_drop. nia.
  - intros l row H Hne. exists (length l). destruct l as [|r l]; [done|]. rewrite firstn_all, cross_fill_all by (cbn [length] in *; lia). split_and!; [cbn; lia..|done|].
    destruct (rows rb); [cbn in Hrs; lia|done].
  - exact Hls.
  - exists out. split; [by eapply produces_same|done].
Qed.

(** With 1024 or more right rows the cross join pairs every left row with the
    first 1024 of them and drops the others. *)
Theorem cross_join_drops_pairs (ls rs : list RecordBatch) : 1024 ≤ length (all_rows rs) →
  ∃ out, produces cross_join_next (cross_join_new (map Ok ls) (map Ok rs)) out ∧
    all_rows out = concat (map (λ l, map (app l) (take 1024 (all_rows rs))) (all_rows ls)).
Proof.
  intros Hrs. destruct rs as [|b rs]; [cbn [all_rows map concat length] in Hrs; lia|].
  destruct (cross_first_call (map Ok ls) b rs) as (rb & Hrb & Hfirst). rewrite <- Hrb in *.
  destruct (cross_produces rb (λ _, True) (λ l, map (app l) (take 1024 (rows rb)))) with (ls := ls) (i := 0) as (out & Hp & Ho).
  - done.
  - intros [|r l] row _ Hne; [done|]. exists 1. rewrite cross_fill_capped by done. cbn [take map concat]. rewrite app_nil_r, <- firstn_map. split_and!; [lia|cbn [length]; lia|done|].
    intros E. apply (f_equal length) in E. rewrite length_take_le in E by (rewrite length_map; lia). cbn [length] in E. lia.
  - apply list.Forall_true. done.
  - exists out. split; [by eapply produces_same|done].
Qed.

(** ** Examples *)

Definition demo_pair (k v : Z) : Row := [Some (AUInt64 k); Some (AInt64 v)].
Definition demo_table : RecordBatch := mkBatch [DUInt64; DInt64] [demo_pair 1 10; demo_pair 2 20; demo_pair 1 30].
Definition demo_left : list RecordBatch := [mkBatch [DUInt64; DInt64] [demo_pair 1 7; demo_pair 3 8]; mkBatch [DUInt64; DInt64] [demo_pair 2 9]].

Lemma hash_join_rows_witness : ∃ out, produces hash_join_next (hash_join_new (map Ok demo_left) [Ok demo_table] 0 0 LeftOuter false) out ∧
  all_rows out = [demo_pair 1 7 ++ demo_pair 1 10; demo_pair 1 7 ++ demo_pair 1 30; demo_pair 3 8 ++ [None; None]; demo_pair 2 9 ++ demo_pair 2 20].
Proof.
  apply (hash_join_rows LeftOuter DUInt64 DUInt64 0 0 demo_table demo_left); [reflexivity|].
  repeat constructor; vm_compute; lia.
Defined.

Lemma join_ends_early_witness :
  let b := mkBatch [DUInt64; DInt64] [demo_pair 5 1] in
  produces hash_join_next (hash_join_new (Ok b :: map Ok demo_left) [Ok demo_table] 0 0 Inner false) [].
Proof. intros b. apply (join_ends_early Inner DUInt64 DUInt64 0 0 demo_table b (map Ok demo_left)); reflexivity. Defined.

Definition demo_many : RecordBatch := mkBatch [DUInt64] (replicate (32 * 40) (demo_row 1)).
Lemma join_never_ends_witness : let b := mkBatch [DUInt64] [demo_row 1] in
  drain hash_join_next 5 (hash_join_new [Ok b] [Ok demo_many] 0 0 Inner false) =
    replicate 5 (Ok (mkBatch [DUInt64; DUInt64] (take 1024 (joined Inner DUInt64 DUInt64 0 0 demo_many (demo_row 1))))).
Proof.
  intros b. apply (join_never_ends DUInt64 DUInt64 0 0 demo_many b (demo_row 1) [] [] 5); try reflexivity.
  apply Nat.leb_le. vm_compute. reflexivity.
Defined.

Lemma cross_join_rows_witness : ∃ out, produces cross_join_next (cross_join_new (map Ok demo_left) (map Ok demo_left)) out ∧
  all_rows out = concat (map (λ l, map (app l) (all_rows demo_left)) (all_rows demo_left)).
Proof. apply (cross_join_rows demo_left demo_left); [vm_compute; lia|]. repeat constructor; apply Nat.leb_le; vm_compute; reflexivity. Defined.

Lemma cross_join_drops_pairs_witness : ∃ out, produces cross_join_next (cross_join_new (map Ok demo_left) [Ok demo_many]) out ∧
  all_rows out = concat (map (λ l, map (app l) (take 1024 (all_rows [demo_many]))) (all_rows demo_left)).
Proof. apply (cross_join_drops_pairs demo_left [demo_many]). apply Nat.leb_le. vm_compute. reflexivity. Defined.
