(* ===== verification/LogicalPlan.v ===== *)
(** * Bound expressions and logical plans (planner/binder.rs, planner/logical_plan.rs)

    The expression and operator trees that the optimizer rewrites, with the
    accessors its rules use.  Statements without rows (schema changes, COPY,
    transactions, calls) have no children and no rule looks into them; they are the
    constructor [LStatement]. *)
From stdpp Require Import base list gmap strings numbers.
From Stdlib Require Import ZArith Lia Bool.
From S2P Require Import Prelude Codec Stats.
Open Scope nat_scope.

(** ** Operators of the syntax tree (parser/ast.rs) *)

Inductive Literal := LitString (s : string) | LitNumber (bits : Z) | LitInteger (z : Z) | LitBoolean (b : bool) | LitNull.
Inductive ComparisonOperator := Equal | NotEqual | LessThan | LessThanOrEqual | GreaterThan | GreaterThanOrEqual.
Inductive ArithmeticOperator := Add | Subtract | Multiply | Divide | Modulo.
Inductive LogicalOp := And | Or | NotOp | Xor.
Inductive Direction := DirLeft | DirRight | DirBoth.
Inductive AggregateFunction :=
| Count | CountDistinct | Sum | Min | Max | Avg | Collect | GroupConcat | Median | CollectDistinct
| StdDevPop | StdDevSamp | VarPop | VarSamp.
#[global] Instance ComparisonOperator_eq_dec : EqDecision ComparisonOperator.
Proof. solve_decision. Defined.
#[global] Instance ArithmeticOperator_eq_dec : EqDecision ArithmeticOperator.
Proof. solve_decision. Defined.
#[global] Instance AggregateFunction_eq_dec : EqDecision AggregateFunction.
Proof. solve_decision. Defined.

(** ** Expressions *)

Inductive BoundExpression :=
| ELiteral (l : Literal)
| EVariable (name : string) (t : LogicalType)
| EPropertyLookup (name : string) (idx : nat) (t : LogicalType)
| EComparison (l : BoundExpression) (op : ComparisonOperator) (r : BoundExpression)
| EArithmetic (l : BoundExpression) (op : ArithmeticOperator) (r : BoundExpression)
| ELogical (l : BoundExpression) (op : LogicalOp) (r : BoundExpression)
| ENot (e : BoundExpression)
| EFunction (name : string) (args : list BoundExpression) (t : LogicalType)
| EList (items : list BoundExpression) (t : LogicalType)
| ECase (expression : option BoundExpression) (when_then : list (BoundExpression * BoundExpression)) (else_expression : option BoundExpression) (t : LogicalType)
| EAggregate (name : string) (args : list BoundExpression) (alias : string)
| ELambda (var : string) (body : BoundExpression)
| EParameter (name : string)
| ENextVal (sequence : string)
| EExists (steps : list (BoundMatchClause * option BoundWhereClause))
| ECountSubquery (steps : list (BoundMatchClause * option BoundWhereClause))
| EMap (entries : list (string * BoundExpression)) (t : LogicalType)
| EUnwindProperty (name : string) (field_idx : nat) (t : LogicalType)
with BoundMatchClause := mkMatch (elements : list BoundMatchElement) (alternatives : list BoundMatchClause)
with BoundMatchElement :=
| MNode (table var : string) (props : list (nat * BoundExpression))
| MRel (table var src dst : string) (bounds : option (option Z * option Z))
| MAllShortestPaths (rel_table src dst path : string) (max_depth : Z)
with BoundWhereClause := mkWhere (expression : BoundExpression).

Definition match_elements (m : BoundMatchClause) : list BoundMatchElement := match m with mkMatch l _ => l end.

(** [BoundExpression::get_type] *)
Fixpoint get_type (e : BoundExpression) : LogicalType :=
  match e with
  | ELiteral (LitInteger _) => TInt64
  | ELiteral (LitNumber _) => TDouble
  | ELiteral (LitString _) => TString
  | ELiteral (LitBoolean _) => TBool
  | ELiteral LitNull => TAny
  | ELogical _ _ _ | ENot _ | EComparison _ _ _ | EExists _ => TBool
  | ECountSubquery _ => TInt64
  | EMap _ t | EVariable _ t | EPropertyLookup _ _ t | EFunction _ _ t | EList _ t | ECase _ _ _ t | EUnwindProperty _ _ t => t
  | EArithmetic l _ _ => get_type l
  | EAggregate name _ _ =>
      if decide (name ∈ ["count"; "count_distinct"]%string) then TInt64
      else if decide (name ∈ ["sum"; "avg"; "min"; "max"]%string) then TDouble
      else if decide (name = "collect"%string) then TList TAny else TAny
  | ELambda _ body => TLambda (get_type body)
  | EParameter _ => TAny
  | ENextVal _ => TUint64
  end.

(** Upper case of the ASCII letters; function names are identifiers of the
    grammar. *)
Definition upper_ascii (a : Ascii.ascii) : Ascii.ascii :=
  let n := Ascii.nat_of_ascii a in if decide (97 ≤ n ∧ n ≤ 122) then Ascii.ascii_of_nat (n - 32) else a.
Fixpoint to_uppercase (s : string) : string :=
  match s with EmptyString => EmptyString | String a s => String (upper_ascii a) (to_uppercase s) end.
Definition aggregate_names : list string :=
  ["COUNT"; "COUNT_DISTINCT"; "SUM"; "AVG"; "MIN"; "MAX"; "COLLECT"; "GROUP_CONCAT"; "MEDIAN"; "COLLECT_DISTINCT";
   "STDDEV_POP"; "STDDEV"; "STDDEV_SAMP"; "VAR_POP"; "VAR"; "VAR_SAMP"]%string.
(** [BoundExpression::is_aggregate] *)
Fixpoint is_aggregate (e : BoundExpression) : bool :=
  match e with
  | EFunction name _ _ => bool_decide (to_uppercase name ∈ aggregate_names)
  | EArithmetic l _ r | EComparison l _ r | ELogical l _ r => is_aggregate l || is_aggregate r
  | ENot e => is_aggregate e
  | EList l _ => existsb is_aggregate l
  | ECase x w y _ =>
      match x with Some e => is_aggregate e | None => false end ||
      existsb (λ p, match p with (a, b) => is_aggregate a || is_aggregate b end) w ||
      match y with Some e => is_aggregate e | None => false end
  | EAggregate _ _ _ => true
  | ELambda _ body => is_aggregate body
  | _ => false
  end.

(** ** Plans *)

Record BoundProjectionItem := mkItem { item_expression : BoundExpression; item_alias : string }.
Record BoundOrderByItem := mkOrder { ord_expression : BoundExpression; descending : bool }.
Record BoundPropertyAssignment := mkAssign { as_variable : string; as_table : string; as_property_idx : nat; as_expression : BoundExpression }.
Record BoundNodePattern := mkNodePattern { np_table : string; np_variable : option string; np_properties : list (nat * BoundExpression) }.
Record BoundRelPattern := mkRelPattern {
  rp_table : string; rp_variable : option string; rp_src : string; rp_dst : string; rp_src_column : option nat; rp_dst_column : option nat;
  rp_properties : list (nat * BoundExpression); rp_bounds : option (option Z * option Z);
}.

Inductive LogicalOperator :=
| LScan (table var : string) (mask : option (string * option nat)) (projected : option (list nat)) (filter : option BoundExpression)
| LIndexScan (table var index_key : string) (pk_value : BoundExpression) (projected : option (list nat))
| LSingleRow
| LFilter (child : LogicalOperator) (condition : BoundExpression)
| LProjection (child : LogicalOperator) (items : list BoundProjectionItem)
| LSemiMasker (child : LogicalOperator) (var mask_id : string)
| LUnwind (child : LogicalOperator) (e : BoundExpression) (alias : string)
| LJoin (l r : LogicalOperator) (cond : BoundExpression)
| LAggregate (child : LogicalOperator) (group_by_cols dependent_group_by_cols : list nat) (aggregates : list (AggregateFunction * nat))
| LCreateNode (child : option LogicalOperator) (pat : BoundNodePattern)
| LCreateRel (child : option LogicalOperator) (pat : BoundRelPattern)
| LDelete (child : LogicalOperator) (vars : list (string * string)) (detach : bool)
| LSet (child : LogicalOperator) (assignments : list BoundPropertyAssignment)
| LSort (child : LogicalOperator) (items : list BoundOrderByItem)
| LLimit (child : LogicalOperator) (n : nat)
| LTopK (child : LogicalOperator) (items : list BoundOrderByItem) (n : nat)
| LSkip (child : LogicalOperator) (n : nat)
| LSubquery (child : LogicalOperator)
| LRecursiveJoin (child : LogicalOperator) (rel_table rel_var src_var dst_node_table dst_var : string) (bounds : option (option Z * option Z)) (mask_id : option string)
| LIntersect (probe_child : LogicalOperator) (build_children : list LogicalOperator) (key_vars : list string) (intersect_var : string)
| LAllShortestPaths (child : LogicalOperator) (rel_table src_var dst_var path_var : string) (max_depth : Z)
| LFlatten (child : LogicalOperator)
| LUnwindDedup (child : LogicalOperator) (e : BoundExpression)
| LMerge (child : LogicalOperator) (pattern : BoundNodePattern) (on_create on_match : list BoundPropertyAssignment)
| LUnion (l r : LogicalOperator) (is_all : bool)
| LOptionalMatch (child branch : LogicalOperator)
| LWith (child : LogicalOperator) (items : list BoundProjectionItem) (where_expr : option BoundExpression)
| LCountRelTable (rel_table bound_table : string) (direction : Direction) (alias : string)
| LAccumulate (child : LogicalOperator)
| LDistinct (child : LogicalOperator) (columns : list nat)
| LSemiJoin (l r : LogicalOperator) (cond : BoundExpression) (is_anti : bool)
| LProfile (child : LogicalOperator)
| LExplain (child : LogicalOperator)
| LStatement (name : string).

(** [get_child], [set_child] *)
Definition get_child (p : LogicalOperator) : option LogicalOperator :=
  match p with
  | LFilter c _ | LProjection c _ | LSemiMasker c _ _ | LUnwind c _ _ | LAggregate c _ _ _ | LDelete c _ _ | LSet c _ | LSort c _
  | LLimit c _ | LTopK c _ _ | LSkip c _ | LSubquery c | LFlatten c | LUnwindDedup c _ | LProfile c | LExplain c | LAccumulate c
  | LDistinct c _ | LSemiJoin c _ _ _ => Some c
  | LJoin l _ _ | LUnion l _ _ => Some l
  | LRecursiveJoin c _ _ _ _ _ _ _ | LMerge c _ _ _ | LOptionalMatch c _ | LWith c _ _ => Some c
  | LCreateNode c _ | LCreateRel c _ => c
  | _ => None
  end.
Definition set_child (p : LogicalOperator) (c : LogicalOperator) : LogicalOperator :=
  match p with
  | LFilter _ e => LFilter c e
  | LProjection _ items => LProjection c items
  | LSemiMasker _ v m => LSemiMasker c v m
  | LUnwind _ e a => LUnwind c e a
  | LAggregate _ g d a => LAggregate c g d a
  | LDelete _ v d => LDelete c v d
  | LSet _ a => LSet c a
  | LSort _ i => LSort c i
  | LLimit _ n => LLimit c n
  | LTopK _ i n => LTopK c i n
  | LSkip _ n => LSkip c n
  | LSubquery _ => LSubquery c
  | LFlatten _ => LFlatten c
  | LUnwindDedup _ e => LUnwindDedup c e
  | LExplain _ => LExplain c
  | LAccumulate _ => LAccumulate c
  | LDistinct _ k => LDistinct c k
  | LProfile _ => LProfile c
  | LSemiJoin _ r e a => LSemiJoin c r e a
  | LJoin _ r e => LJoin c r e
  | LUnion _ r a => LUnion c r a
  | LRecursiveJoin _ a1 a2 a3 a4 a5 b m => LRecursiveJoin c a1 a2 a3 a4 a5 b m
  | LMerge _ pat a b => LMerge c pat a b
  | LOptionalMatch _ b => LOptionalMatch c b
  | LWith _ i w => LWith c i w
  | LCreateNode _ pat => LCreateNode (Some c) pat
  | LCreateRel _ pat => LCreateRel (Some c) pat
  | _ => p
  end.

(** The loop body the rules share: rewrite the first child, if there is one.  The
    definition is by cases so that recursion through it is structural;
    [map_child_spec] gives it as the code writes it. *)
Definition map_child (f : LogicalOperator → LogicalOperator) (p : LogicalOperator) : LogicalOperator :=
  match p with
  | LFilter c e => LFilter (f c) e
  | LProjection c items => LProjection (f c) items
  | LSemiMasker c v m => LSemiMasker (f c) v m
  | LUnwind c e a => LUnwind (f c) e a
  | LAggregate c g d a => LAggregate (f c) g d a
  | LDelete c v d => LDelete (f c) v d
  | LSet c a => LSet (f c) a
  | LSort c i => LSort (f c) i
  | LLimit c n => LLimit (f c) n
  | LTopK c i n => LTopK (f c) i n
  | LSkip c n => LSkip (f c) n
  | LSubquery c => LSubquery (f c)
  | LFlatten c => LFlatten (f c)
  | LUnwindDedup c e => LUnwindDedup (f c) e
  | LExplain c => LExplain (f c)
  | LAccumulate c => LAccumulate (f c)
  | LDistinct c k => LDistinct (f c) k
  | LProfile c => LProfile (f c)
  | LSemiJoin c r e a => LSemiJoin (f c) r e a
  | LJoin c r e => LJoin (f c) r e
  | LUnion c r a => LUnion (f c) r a
  | LRecursiveJoin c a1 a2 a3 a4 a5 b m => LRecursiveJoin (f c) a1 a2 a3 a4 a5 b m
  | LMerge c pat a b => LMerge (f c) pat a b
  | LOptionalMatch c b => LOptionalMatch (f c) b
  | LWith c i w => LWith (f c) i w
  | LCreateNode (Some c) pat => LCreateNode (Some (f c)) pat
  | LCreateRel (Some c) pat => LCreateRel (Some (f c)) pat
  | _ => p
  end.
Lemma map_child_spec f p : map_child f p = match get_child p with Some c => set_child p (f c) | None => p end.
Proof. destruct p as [| | | | | | | | |[]|[]| | | | | | | | | | | | | | | | | | | | | | | ]; reflexivity. Qed.

(** [node_count] *)
Fixpoint node_count (p : LogicalOperator) : nat :=
  match p with
  | LFilter c _ | LProjection c _ | LSemiMasker c _ _ | LUnwind c _ _ | LSort c _ | LLimit c _ | LTopK c _ _ | LSkip c _ | LSubquery c
  | LFlatten c | LUnwindDedup c _ | LDistinct c _ | LAccumulate c | LProfile c | LExplain c | LWith c _ _ | LDelete c _ _ | LSet c _ => 1 + node_count c
  | LJoin l r _ | LUnion l r _ => 1 + (node_count l + node_count r)
  | LOptionalMatch c b => 1 + (node_count c + node_count b)
  | LAggregate c _ _ _ => 1 + node_count c
  | LCreateNode (Some c) _ | LCreateRel (Some c) _ => 1 + node_count c
  | LRecursiveJoin c _ _ _ _ _ _ _ => 1 + node_count c
  | LIntersect q bs _ _ => 1 + node_count q + list_sum (map node_count bs)
  | LSemiJoin l r _ _ => 1 + (node_count l + node_count r)
  | LMerge c _ _ _ => 1 + node_count c
  | _ => 1
  end.

(** [explain_children]: the subtrees EXPLAIN prints *)
Definition explain_children (p : LogicalOperator) : list LogicalOperator :=
  match p with
  | LFilter c _ | LProjection c _ | LSemiMasker c _ _ | LUnwind c _ _ | LFlatten c | LUnwindDedup c _ | LDelete c _ _ | LSet c _ | LSort c _
  | LLimit c _ | LTopK c _ _ | LSkip c _ | LSubquery c | LAccumulate c | LDistinct c _ | LProfile c | LExplain c | LAggregate c _ _ _
  | LRecursiveJoin c _ _ _ _ _ _ _ | LAllShortestPaths c _ _ _ _ _ | LMerge c _ _ _ => [c]
  | LJoin l r _ | LUnion l r _ | LOptionalMatch l r | LSemiJoin l r _ _ => [l; r]
  | LIntersect q bs _ _ => q :: bs
  | LCreateNode c _ | LCreateRel c _ => option_list c
  | _ => []
  end.

(** [get_variables] *)
Fixpoint get_variables (p : LogicalOperator) : gset string :=
  match p with
  | LScan _ v _ _ _ | LIndexScan _ v _ _ _ => {[v]}
  | LProjection _ items => list_to_set (map item_alias items)
  | LJoin l r _ | LUnion l r _ => get_variables l ∪ get_variables r
  | LAggregate _ _ _ _ => ∅
  | LFilter c _ | LSemiMasker c _ _ | LUnwind c _ _ | LDelete c _ _ | LSet c _ | LSort c _ | LLimit c _ | LTopK c _ _ | LSkip c _ | LSubquery c
  | LFlatten c | LUnwindDedup c _ | LProfile c | LExplain c | LAccumulate c | LDistinct c _ | LSemiJoin c _ _ _
  | LRecursiveJoin c _ _ _ _ _ _ _ | LMerge c _ _ _ | LOptionalMatch c _ | LWith c _ _ | LCreateNode (Some c) _ | LCreateRel (Some c) _ => get_variables c
  | _ => ∅
  end.
