(* ===== verification/Optimizer.v ===== *)
(** * The optimizer's rules (optimizer/*.rs)

    The rules as functions on plans.  Filter pushdown calls itself on plans it has
    built, so it takes fuel; [push_down] supplies the weight of the plan, which is
    enough (OptimizerSpec).  The other rules recurse on subplans. *)
From stdpp Require Import base list gmap strings numbers.
From Stdlib Require Import ZArith Lia Bool.
From S2P Require Import Prelude Codec Stats Catalog LogicalPlan.
Open Scope nat_scope.

(** ** Variables (filter_pushdown.rs) *)

Definition element_vars (m : BoundMatchElement) : gset string :=
  match m with MNode _ v _ | MRel _ v _ _ _ => {[v]} | MAllShortestPaths _ s d _ _ => {[s; d]} end.
Fixpoint extract_variables (e : BoundExpression) : gset string :=
  match e with
  | EVariable n _ | EPropertyLookup n _ _ | EUnwindProperty n _ _ => {[n]}
  | EComparison l _ r | EArithmetic l _ r | ELogical l _ r => extract_variables l ∪ extract_variables r
  | ENot e => extract_variables e
  | EFunction _ args _ | EList args _ | EAggregate _ args _ => ⋃ map extract_variables args
  | EMap entries _ => ⋃ map (λ p, match p with (_, e) => extract_variables e end) entries
  | ECase x w y _ =>
      match x with Some e => extract_variables e | None => ∅ end ∪
      ⋃ map (λ p, match p with (a, b) => extract_variables a ∪ extract_variables b end) w ∪
      match y with Some e => extract_variables e | None => ∅ end
  | ELambda _ body => extract_variables body
  | EParameter _ | ELiteral _ | ENextVal _ => ∅
  | EExists steps | ECountSubquery steps =>
      ⋃ map (λ s, match s with (m, w) =>
        ⋃ map element_vars (match_elements m) ∪ match w with Some (mkWhere e) => extract_variables e | None => ∅ end end) steps
  end.

Fixpoint provided_variables (p : LogicalOperator) : gset string :=
  match p with
  | LScan _ v _ _ _ | LIndexScan _ v _ _ _ => {[v]}
  | LUnwind c _ a => provided_variables c ∪ {[a]}
  | LSingleRow => ∅
  | LFilter c _ => provided_variables c
  | LProjection _ items => list_to_set (map item_alias items)
  | LJoin l r _ => provided_variables l ∪ provided_variables r
  | LAggregate c _ _ _ => provided_variables c
  | LCreateNode c pat => match c with Some c => provided_variables c | None => ∅ end ∪ list_to_set (option_list (np_variable pat))
  | LCreateRel c pat => match c with Some c => provided_variables c | None => ∅ end ∪ list_to_set (option_list (rp_variable pat))
  | LUnion l r _ => provided_variables l ∪ provided_variables r
  | LDelete c _ _ | LSet c _ | LSort c _ | LLimit c _ | LSkip c _ | LFlatten c | LUnwindDedup c _ | LMerge c _ _ _ | LOptionalMatch c _
  | LWith c _ _ | LSemiJoin c _ _ _ | LProfile c | LExplain c | LAccumulate c | LDistinct c _ => provided_variables c
  | LCountRelTable _ _ _ a => {[a]}
  | LRecursiveJoin c _ rv sv _ dv _ _ => provided_variables c ∪ {[sv; dv; rv]}
  | LAllShortestPaths c _ s d pv _ => provided_variables c ∪ {[s; d; pv]}
  | _ => ∅
  end.

(** ** Conjunctions *)

Fixpoint split_conjuncts (e : BoundExpression) : list BoundExpression :=
  match e with
  | ELogical l And r => split_conjuncts l ++ split_conjuncts r
  | _ => [e]
  end.
(** [reduce] *)
Definition conjoin (a b : BoundExpression) : BoundExpression := ELogical a And b.
Definition rebuild_conjuncts (l : list BoundExpression) : option BoundExpression :=
  match l with [] => None | e :: l => Some (foldl conjoin e l) end.

(** The conjuncts of a filter over a join, by the side that has their variables. *)
Fixpoint sort_conjuncts (lv rv : gset string) (l : list BoundExpression) : (list BoundExpression * list BoundExpression) * list BoundExpression :=
  match l with
  | [] => (([], []), [])
  | e :: l =>
      let '((a, b), c) := sort_conjuncts lv rv l in
      if decide (extract_variables e ⊆ lv) then ((e :: a, b), c)
      else if decide (extract_variables e ⊆ rv) then ((a, e :: b), c)
      else ((a, b), e :: c)
  end.

(** ** Filter pushdown *)

(** The fuel: the height of the plan, a filter counting as its conjuncts. *)
Fixpoint weight (p : LogicalOperator) : nat :=
  match p with
  | LFilter c e => length (split_conjuncts e) + weight c
  | LProjection c _ | LSemiMasker c _ _ | LUnwind c _ _ | LSort c _ | LLimit c _ | LTopK c _ _ | LSkip c _ | LSubquery c | LFlatten c
  | LUnwindDedup c _ | LDistinct c _ | LAccumulate c | LProfile c | LExplain c | LWith c _ _ | LDelete c _ _ | LSet c _ | LAggregate c _ _ _
  | LRecursiveJoin c _ _ _ _ _ _ _ | LMerge c _ _ _ | LAllShortestPaths c _ _ _ _ _ => 1 + weight c
  | LCreateNode (Some c) _ | LCreateRel (Some c) _ => 1 + weight c
  | LJoin l r _ | LUnion l r _ | LOptionalMatch l r | LSemiJoin l r _ _ => 1 + (weight l `max` weight r)
  | LIntersect q bs _ _ => 1 + (weight q `max` max_list (map weight bs))
  | _ => 1
  end.

(** A child rewritten by a rule that may run out of fuel. *)
Definition map_child_opt (f : LogicalOperator → option LogicalOperator) (p : LogicalOperator) : option LogicalOperator :=
  match get_child p with Some c => c' ← f c; Some (set_child p c') | None => Some p end.

Section push.
Context (push : LogicalOperator → option LogicalOperator).

(** [Filter(side, cond)] pushed, or the side as it is when no conjunct goes there. *)
Definition push_side (side : LogicalOperator) (conjuncts : list BoundExpression) : option LogicalOperator :=
  match rebuild_conjuncts conjuncts with
  | Some cond => push (LFilter side cond)
  | None => Some side
  end.
(** A filter over a child that has been pushed already. *)
Definition push_filter (pushed_child : LogicalOperator) (condition : BoundExpression) : option LogicalOperator :=
  let condition_vars := extract_variables condition in
  match pushed_child with
  | LScan table var mask projected filter =>
      if decide (condition_vars ⊆ {[var]}) then
        Some (LScan table var mask projected (Some (match filter with Some existing => ELogical existing And condition | None => condition end)))
      else Some (LFilter pushed_child condition)
  | LJoin l r join_cond =>
      let '((a, b), c) := sort_conjuncts (provided_variables l) (provided_variables r) (split_conjuncts condition) in
      l' ← push_side l a;
      r' ← push_side r b;
      Some (match rebuild_conjuncts c with Some cond => LFilter (LJoin l' r' join_cond) cond | None => LJoin l' r' join_cond end)
  | LIntersect probe builds keys var =>
      if decide (condition_vars ⊆ provided_variables probe) then probe' ← push (LFilter probe condition); Some (LIntersect probe' builds keys var)
      else Some (LFilter pushed_child condition)
  | LUnion l r is_all =>
      l' ← push (LFilter l condition);
      r' ← push (LFilter r condition);
      Some (LUnion l' r' is_all)
  | LSemiJoin l r join_cond is_anti =>
      if decide (condition_vars ⊆ provided_variables l) then l' ← push (LFilter l condition); Some (LSemiJoin l' r join_cond is_anti)
      else Some (LFilter pushed_child condition)
  | _ => Some (LFilter pushed_child condition)
  end.

Definition push_step (p : LogicalOperator) : option LogicalOperator :=
  match p with
  | LFilter child condition => c ← push child; push_filter c condition
  | LJoin l r cond => l' ← push l; r' ← push r; Some (LJoin l' r' cond)
  | LUnion l r is_all => l' ← push l; r' ← push r; Some (LUnion l' r' is_all)
  | LOptionalMatch c b => c' ← push c; b' ← push b; Some (LOptionalMatch c' b')
  | LIntersect probe builds keys var =>
      probe' ← push probe; builds' ← mapM push builds; Some (LIntersect probe' builds' keys var)
  | LAllShortestPaths c rel s d pv n => c' ← push c; Some (LAllShortestPaths c' rel s d pv n)
  | LProjection _ _ | LAggregate _ _ _ _ | LSort _ _ | LTopK _ _ _ | LLimit _ _ | LSkip _ _ | LCreateNode _ _ | LCreateRel _ _ | LDelete _ _ _
  | LSet _ _ | LRecursiveJoin _ _ _ _ _ _ _ _ | LUnwind _ _ _ | LSemiMasker _ _ _ | LFlatten _ | LUnwindDedup _ _ | LMerge _ _ _ _
  | LWith _ _ _ | LProfile _ | LExplain _ | LAccumulate _ | LDistinct _ _ => map_child_opt push p
  | _ => Some p
  end.
End push.

Fixpoint push_fuel (fuel : nat) (p : LogicalOperator) : option LogicalOperator :=
  match fuel with O => None | S fuel => push_step (push_fuel fuel) p end.
Definition push_down (p : LogicalOperator) : option LogicalOperator := push_fuel (weight p) p.

(** ** Index lookups (index_pushdown.rs) *)

Fixpoint expr_has_outer_variables (e : BoundExpression) : bool :=
  match e with
  | ELiteral _ => false
  | EVariable _ _ | EPropertyLookup _ _ _ | EUnwindProperty _ _ _ | EExists _ | ECountSubquery _ => true
  | EFunction _ args _ | EAggregate _ args _ | EList args _ => existsb expr_has_outer_variables args
  | EArithmetic l _ r | EComparison l _ r | ELogical l _ r => expr_has_outer_variables l || expr_has_outer_variables r
  | ENot e => expr_has_outer_variables e
  | EMap entries _ => existsb (λ p, match p with (_, e) => expr_has_outer_variables e end) entries
  | ELambda _ body => expr_has_outer_variables body
  | ECase x w y _ =>
      match x with Some e => expr_has_outer_variables e | None => false end ||
      existsb (λ p, match p with (a, b) => expr_has_outer_variables a || expr_has_outer_variables b end) w ||
      match y with Some e => expr_has_outer_variables e | None => false end
  | EParameter _ | ENextVal _ => false
  end.

Fixpoint position (name : string) (l : list PropertyDefinition) (i : nat) : option nat :=
  match l with [] => None | p :: l => if decide (prop_name p = name) then Some i else position name l (i + 1) end.
(** The index on a property: the primary key's or a secondary one. *)
Definition index_key (entry : NodeTableCatalogEntry) (table : string) (lookup_idx : nat) : option string :=
  let pk_idx := nt_primary_key entry ≫= λ pk, position pk (nt_properties entry) 0 in
  if decide (pk_idx = Some lookup_idx) then Some table
  else p ← nt_properties entry !! lookup_idx; nt_secondary_indexes entry !! prop_name p.

Section catalog_rules.
Context {Expression : Type} (cat : @Catalog Expression).

Definition index_scan (table var : string) (proj : option (list nat)) (idx : nat) (value : BoundExpression) : option LogicalOperator :=
  entry ← get_node_table cat table;
  key ← index_key entry table idx;
  if expr_has_outer_variables value then None else Some (LIndexScan table var key value proj).
(** [Filter(Scan(t, v), v.p = literal)] *)
Definition index_match (child : LogicalOperator) (cond : BoundExpression) : option LogicalOperator :=
  match child, cond with
  | LScan table var _ proj _, EComparison l Equal r =>
      match l, r with
      | EPropertyLookup v idx _, ELiteral _ => if decide (v = var) then index_scan table var proj idx r else None
      | ELiteral _, EPropertyLookup v idx _ => if decide (v = var) then index_scan table var proj idx l else None
      | _, _ => None
      end
  | _, _ => None
  end.
Fixpoint index_push_down (p : LogicalOperator) : LogicalOperator :=
  match p with
  | LFilter child cond => let c := index_push_down child in default (LFilter c cond) (index_match c cond)
  | LJoin l r cond => LJoin (index_push_down l) (index_push_down r) cond
  | LUnion l r is_all => LUnion (index_push_down l) (index_push_down r) is_all
  | LIntersect probe builds keys var => LIntersect (index_push_down probe) (map index_push_down builds) keys var
  | LProjection _ _ | LAggregate _ _ _ _ | LSort _ _ | LLimit _ _ | LSkip _ _ | LCreateNode _ _ | LCreateRel _ _ | LDelete _ _ _ | LSet _ _
  | LSemiMasker _ _ _ | LRecursiveJoin _ _ _ _ _ _ _ _ | LUnwind _ _ _ | LFlatten _ | LUnwindDedup _ _ | LMerge _ _ _ _ => map_child index_push_down p
  | _ => p
  end.

(** ** Counting a relationship table (count_rel_table_optimizer.rs) *)

Definition is_rel_table (t : string) : bool := match get_rel_table cat t with Some _ => true | None => false end.
Definition count_match (child : LogicalOperator) (group_by : list nat) (aggregates : list (AggregateFunction * nat)) : option LogicalOperator :=
  match group_by, aggregates with
  | [], [(Count, _)] =>
      match child with
      | LScan t a _ _ None => if is_rel_table t then Some (LCountRelTable t "" DirRight a) else None
      | LJoin (LJoin (LScan t _ _ _ _) (LScan rt ra _ _ _) _) (LScan _ _ _ _ _) _ =>
          if is_rel_table rt then Some (LCountRelTable rt t DirRight ra) else None
      | _ => None
      end
  | _, _ => None
  end.
Fixpoint count_rel_table (p : LogicalOperator) : LogicalOperator :=
  match p with
  | LAggregate child group_by _ aggregates =>
      let c := count_rel_table child in default (LAggregate c group_by [] aggregates) (count_match c group_by aggregates)
  | _ => map_child count_rel_table p
  end.
End catalog_rules.

(** ** Limits and sorts (topk_optimizer.rs, limit_pushdown.rs, order_by_pushdown.rs) *)

Fixpoint topk (p : LogicalOperator) : LogicalOperator :=
  match p with
  | LLimit child n => match topk child with LSort c items => LTopK c items n | c => LLimit c n end
  | LJoin l r cond => LJoin (topk l) (topk r) cond
  | LUnion l r is_all => LUnion (topk l) (topk r) is_all
  | _ => map_child topk p
  end.
Fixpoint limit_push_down (p : LogicalOperator) : LogicalOperator :=
  match p with
  | LLimit child n => match limit_push_down child with LProjection c items => LProjection (LLimit c n) items | c => LLimit c n end
  | LJoin l r cond => LJoin (limit_push_down l) (limit_push_down r) cond
  | LUnion l r is_all => LUnion (limit_push_down l) (limit_push_down r) is_all
  | _ => map_child limit_push_down p
  end.
Definition is_lookup (i : BoundOrderByItem) : bool := match ord_expression i with EPropertyLookup _ _ _ => true | _ => false end.
Fixpoint order_by_push_down (p : LogicalOperator) : LogicalOperator :=
  match p with
  | LSort child items =>
      match order_by_push_down child with
      | LSort c _ => LSort c items
      | LProjection c p_items => if forallb is_lookup items then LProjection (LSort c items) p_items else LSort (LProjection c p_items) items
      | c => LSort c items
      end
  | _ => map_child order_by_push_down p
  end.

(** ** Grouping by a key (agg_key_dependency_optimizer.rs) *)

Definition lookup_item (items : list BoundProjectionItem) (idx : nat) : option (string * nat) :=
  match items !! idx with Some i => match item_expression i with EPropertyLookup v k _ => Some (v, k) | _ => None end | None => None end.
Definition primary_vars (items : list BoundProjectionItem) (group_by : list nat) : gset string :=
  list_to_set (omap (λ idx, match lookup_item items idx with Some (v, O) => Some v | _ => None end) group_by).
Definition is_dependent (items : list BoundProjectionItem) (pk : gset string) (idx : nat) : bool :=
  match lookup_item items idx with Some (v, k) => bool_decide (k ≠ 0 ∧ v ∈ pk) | None => false end.
Fixpoint agg_key_dependency (p : LogicalOperator) : LogicalOperator :=
  match p with
  | LAggregate child group_by _ aggregates =>
      match agg_key_dependency child with
      | LProjection c items =>
          let dep := is_dependent items (primary_vars items group_by) in
          LAggregate (LProjection c items) (List.filter (λ i, negb (dep i)) group_by) (List.filter dep group_by) aggregates
      | c => LAggregate c group_by [] aggregates
      end
  | _ => map_child agg_key_dependency p
  end.

(** ** Rules that leave the plan as it is (factorization_rewriter.rs,
    foreign_join_pushdown.rs) *)

Fixpoint factorization (p : LogicalOperator) : LogicalOperator :=
  match p with
  | LSemiJoin l r cond is_anti => LSemiJoin (factorization l) (factorization r) cond is_anti
  | LJoin l r cond => LJoin (factorization l) (factorization r) cond
  | _ => map_child factorization p
  end.
Fixpoint foreign_join (p : LogicalOperator) : LogicalOperator :=
  match p with
  | LJoin l r cond => LJoin (foreign_join l) (foreign_join r) cond
  | _ => map_child foreign_join p
  end.

(** ** The loop (mod.rs) *)

Definition apply_rules (rules : list (LogicalOperator → option LogicalOperator)) (p : LogicalOperator) : option LogicalOperator :=
  foldl (λ o rule, o ≫= rule) (Some p) rules.
Fixpoint optimize_loop (iters : nat) (rules : list (LogicalOperator → option LogicalOperator)) (p : LogicalOperator) : option LogicalOperator :=
  match iters with
  | O => Some p
  | S iters =>
      p' ← apply_rules rules p;
      if decide (node_count p' = node_count p) then Some p' else optimize_loop iters rules p'
  end.
Definition optimize (rules : list (LogicalOperator → option LogicalOperator)) (p : LogicalOperator) : option LogicalOperator := optimize_loop 5 rules p.
