(* ===== verification/OptimizerSpec.v ===== *)
(** * What the optimizer's rules preserve (optimizer/*.rs)

    A plan denotes a list of rows; a row binds variables to data.  Filters, joins,
    projections, unions, limits and sorts have their meaning here; an operator no
    rule looks into means any function of the rows of its children.  The evaluation
    of conditions is a parameter with two laws, [Evaluator]: a conjunction holds
    when both sides hold, and a condition depends on its variables only.  This is the
    relational meaning of plans, not what the executor does with them (a top-k node
    means the first rows of the sort; nulls, types and errors of conditions are in
    [EvaluatorSpec], the operators in [OperatorsSpec], [JoinsSpec] and [SortingSpec]).
    [row_rules] are the rules of optimizer/mod.rs that move filters and limits, a part
    of its list. *)
From stdpp Require Import base list gmap strings numbers.
From Stdlib Require Import ZArith Lia Bool.
From S2P Require Import Prelude Codec Stats Catalog LogicalPlan Optimizer.
Open Scope nat_scope.

(** ** Meaning of plans *)

Section meaning.
Context {D : Type} `{!EqDecision D}.
Local Abbreviation Env := (gmap string D).

Record Interp := mkInterp {
  table_rows : string → option (string * option nat) → list D;
  index_rows : string → string → BoundExpression → list D;
  truth : BoundExpression → Env → bool;
  value : BoundExpression → Env → D;
  sorted_by : list BoundOrderByItem → list Env → list Env;
  common_values : list string → list (list Env) → Env → list D;
  other : LogicalOperator → list (list Env) → list Env;
}.
Class Evaluator (I : Interp) := {
  truth_and a b ρ : truth I (ELogical a And b) ρ = truth I a ρ && truth I b ρ;
  truth_local e ρ ρ' : (∀ x, x ∈ extract_variables e → ρ !! x = ρ' !! x) → truth I e ρ = truth I e ρ';
}.

Context (I : Interp).
Definition scan_rows (v : string) (l : list D) : list Env := map (λ d, {[v := d]}) l.
Definition where_rows (f : option BoundExpression) (l : list Env) : list Env :=
  match f with Some e => List.filter (truth I e) l | None => l end.
Definition project (items : list BoundProjectionItem) (ρ : Env) : Env :=
  list_to_map (map (λ i, (item_alias i, value I (item_expression i) ρ)) items).
Definition join_rows (jc : BoundExpression) (A B : list Env) : list Env :=
  concat (map (λ ρ, map (λ ρ', ρ ∪ ρ') (List.filter (λ ρ', truth I jc (ρ ∪ ρ')) B)) A).
Definition semi_rows (jc : BoundExpression) (is_anti : bool) (A B : list Env) : list Env :=
  List.filter (λ ρ, xorb is_anti (existsb (λ ρ', truth I jc (ρ ∪ ρ')) B)) A.
Fixpoint dedup (seen : list Env) (l : list Env) : list Env :=
  match l with
  | [] => []
  | ρ :: l => if decide (ρ ∈ seen) then dedup seen l else ρ :: dedup (ρ :: seen) l
  end.
Definition union_rows (is_all : bool) (A B : list Env) : list Env := if is_all then A ++ B else dedup [] (A ++ B).
Definition extend_rows (v : string) (f : Env → list D) (A : list Env) : list Env := concat (map (λ ρ, map (λ d, <[v := d]> ρ) (f ρ)) A).

Fixpoint sem (p : LogicalOperator) : list Env :=
  match p with
  | LScan t v mask _ f => where_rows f (scan_rows v (table_rows I t mask))
  | LIndexScan t v key x _ => scan_rows v (index_rows I t key x)
  | LSingleRow => [∅]
  | LFilter c e => List.filter (truth I e) (sem c)
  | LProjection c items => map (project items) (sem c)
  | LJoin l r jc => join_rows jc (sem l) (sem r)
  | LSemiJoin l r jc is_anti => semi_rows jc is_anti (sem l) (sem r)
  | LUnion l r is_all => union_rows is_all (sem l) (sem r)
  | LSort c items => sorted_by I items (sem c)
  | LTopK c items n => take n (sorted_by I items (sem c))
  | LLimit c n => take n (sem c)
  | LSkip c n => drop n (sem c)
  | LIntersect q bs keys v => extend_rows v (common_values I keys (map sem bs)) (sem q)
  | LSemiMasker c v m => other I (LSemiMasker LSingleRow v m) [sem c]
  | LUnwind c e a => other I (LUnwind LSingleRow e a) [sem c]
  | LAggregate c g d a => other I (LAggregate LSingleRow g d a) [sem c]
  | LCreateNode (Some c) pat => other I (LCreateNode (Some LSingleRow) pat) [sem c]
  | LCreateRel (Some c) pat => other I (LCreateRel (Some LSingleRow) pat) [sem c]
  | LDelete c v d => other I (LDelete LSingleRow v d) [sem c]
  | LSet c a => other I (LSet LSingleRow a) [sem c]
  | LSubquery c => other I (LSubquery LSingleRow) [sem c]
  | LRecursiveJoin c a1 a2 a3 a4 a5 b m => other I (LRecursiveJoin LSingleRow a1 a2 a3 a4 a5 b m) [sem c]
  | LAllShortestPaths c a1 a2 a3 a4 n => other I (LAllShortestPaths LSingleRow a1 a2 a3 a4 n) [sem c]
  | LFlatten c => other I (LFlatten LSingleRow) [sem c]
  | LUnwindDedup c e => other I (LUnwindDedup LSingleRow e) [sem c]
  | LMerge c pat a b => other I (LMerge LSingleRow pat a b) [sem c]
  | LOptionalMatch c b => other I (LOptionalMatch LSingleRow LSingleRow) [sem c; sem b]
  | LWith c items w => other I (LWith LSingleRow items w) [sem c]
  | LAccumulate c => other I (LAccumulate LSingleRow) [sem c]
  | LDistinct c k => other I (LDistinct LSingleRow k) [sem c]
  | LProfile c => other I (LProfile LSingleRow) [sem c]
  | LExplain c => other I (LExplain LSingleRow) [sem c]
  | LCreateNode None _ | LCreateRel None _ | LCountRelTable _ _ _ _ | LStatement _ => other I p []
  end.

(** The variables a side of a join provides are bound by that side and not by the
    other; the variable an intersection binds is new. *)
Definition scopes_ok (l r : LogicalOperator) : Prop :=
  ∀ ρ ρ', ρ ∈ sem l → ρ' ∈ sem r →
    (∀ x, x ∈ provided_variables l → (ρ ∪ ρ') !! x = ρ !! x) ∧ (∀ x, x ∈ provided_variables r → (ρ ∪ ρ') !! x = ρ' !! x).
Fixpoint wf (p : LogicalOperator) : Prop :=
  match p with
  | LJoin l r _ => wf l ∧ wf r ∧ scopes_ok l r
  | LUnion l r _ | LSemiJoin l r _ _ | LOptionalMatch l r => wf l ∧ wf r
  | LIntersect q bs _ v => wf q ∧ foldr (λ b P, wf b ∧ P) True bs ∧ v ∉ provided_variables q
  | LFilter c _ | LProjection c _ | LSemiMasker c _ _ | LUnwind c _ _ | LSort c _ | LLimit c _ | LTopK c _ _ | LSkip c _ | LSubquery c | LFlatten c
  | LUnwindDedup c _ | LDistinct c _ | LAccumulate c | LProfile c | LExplain c | LWith c _ _ | LDelete c _ _ | LSet c _ | LAggregate c _ _ _
  | LRecursiveJoin c _ _ _ _ _ _ _ | LMerge c _ _ _ | LAllShortestPaths c _ _ _ _ _ | LCreateNode (Some c) _ | LCreateRel (Some c) _ => wf c
  | _ => True
  end.
End meaning.
Arguments Interp D : clear implicits.

(** ** Conjunctions *)

Section rows.
Context {D : Type} `{!EqDecision D} (I : Interp D) `{!Evaluator I}.
Local Abbreviation Env := (gmap string D).

Definition truths (l : list BoundExpression) (ρ : Env) : bool := forallb (λ e, truth I e ρ) l.
Lemma truths_cons e l ρ : truths (e :: l) ρ = truth I e ρ && truths l ρ.
Proof. reflexivity. Qed.
Lemma truths_app a b ρ : truths (a ++ b) ρ = truths a ρ && truths b ρ.
Proof. apply forallb_app. Qed.
Lemma split_truth e ρ : truths (split_conjuncts e) ρ = truth I e ρ.
Proof.
  induction e as [| | | | |l IHl op r IHr| | | | | | | | | | | |]; try (cbn; by rewrite andb_true_r).
  destruct op; try (cbn; by rewrite andb_true_r). cbn [split_conjuncts]. by rewrite truths_app, IHl, IHr, truth_and.
Qed.
Lemma conjoin_truth e l ρ : truth I (foldl conjoin e l) ρ = truth I e ρ && truths l ρ.
Proof. revert e. induction l as [|a l IH]; intros e; cbn [foldl]; [by rewrite andb_true_r|]. rewrite IH. unfold conjoin. rewrite truth_and. cbn. by rewrite andb_assoc. Qed.
Lemma rebuild_truth l e ρ : rebuild_conjuncts l = Some e → truth I e ρ = truths l ρ.
Proof. destruct l as [|a l]; intros [= <-]. by rewrite conjoin_truth. Qed.
Lemma truths_local l ρ ρ' vs : Forall (λ e, extract_variables e ⊆ vs) l → (∀ x, x ∈ vs → ρ !! x = ρ' !! x) → truths l ρ = truths l ρ'.
Proof.
  intros H Hx. induction H as [|e l He H IH]; [done|]. rewrite !truths_cons, IH. f_equal. apply truth_local. intros x Hin. apply Hx. by apply He.
Qed.

Lemma sort_conjuncts_truth lv rv l a b c : sort_conjuncts lv rv l = ((a, b), c) →
  (∀ ρ, truths l ρ = truths a ρ && truths b ρ && truths c ρ) ∧ Forall (λ e, extract_variables e ⊆ lv) a ∧ Forall (λ e, extract_variables e ⊆ rv) b.
Proof using Type.
  revert a b c. induction l as [|e l IH]; intros a b c H; cbn [sort_conjuncts] in H; [by simplify_eq|].
  destruct (sort_conjuncts lv rv l) as [[a' b'] c'] eqn:E. destruct (IH a' b' c' eq_refl) as (Ht & Ha & Hb).
  case_decide; [|case_decide]; simplify_eq; (split; [intros ρ; rewrite ?truths_cons, Ht; repeat match goal with |- context [truths ?x ρ] => destruct (truths x ρ) end; by destruct (truth I e ρ)|]).
  all: repeat split; try done; by constructor.
Qed.

(** ** Rows of a filter *)

Lemma filter_and (f g : Env → bool) l : List.filter f (List.filter g l) = List.filter (λ ρ, g ρ && f ρ) l.
Proof. induction l as [|ρ l IH]; [done|]. cbn. destruct (g ρ) eqn:Eg; cbn; [destruct (f ρ)|]; by rewrite ?IH. Qed.
Lemma filter_ext_in' (f g : Env → bool) l : (∀ ρ, ρ ∈ l → f ρ = g ρ) → List.filter f l = List.filter g l.
Proof. intros H. apply List.filter_ext_in. intros ρ Hin. apply H. by apply list_elem_of_In. Qed.
Lemma filter_rebuild l e (A : list Env) : rebuild_conjuncts l = Some e → List.filter (truth I e) A = List.filter (truths l) A.
Proof. intros H. apply filter_ext_in'. intros ρ _. by apply rebuild_truth. Qed.
Lemma filter_no_conjunct (A : list Env) : List.filter (truths []) A = A.
Proof. induction A as [|ρ A IH]; [done|]. cbn. by rewrite IH. Qed.

(** A filter over a join: what concerns one side filters that side. *)
Lemma join_rows_filter (jc : BoundExpression) (fa fb : Env → bool) (A B : list Env) :
  (∀ ρ ρ', ρ ∈ A → ρ' ∈ B → fa (ρ ∪ ρ') = fa ρ ∧ fb (ρ ∪ ρ') = fb ρ') →
  List.filter (λ ρ, fa ρ && fb ρ) (join_rows I jc A B) = join_rows I jc (List.filter fa A) (List.filter fb B).
Proof using Type.
  induction A as [|ρ A IH]; intros H; [done|]. unfold join_rows in *. cbn [map concat List.filter].
  rewrite List.filter_app, IH by (intros; apply H; [by right|done]).
  assert (∀ l, (∀ ρ', ρ' ∈ l → fa (ρ ∪ ρ') = fa ρ ∧ fb (ρ ∪ ρ') = fb ρ') →
    List.filter (λ ρ, fa ρ && fb ρ) (map (λ ρ', ρ ∪ ρ') (List.filter (λ ρ', truth I jc (ρ ∪ ρ')) l)) =
    if fa ρ then map (λ ρ', ρ ∪ ρ') (List.filter (λ ρ', truth I jc (ρ ∪ ρ')) (List.filter fb l)) else []) as Hrow.
  { clear. intros l. induction l as [|ρ' l IH]; intros H; [by destruct (fa ρ)|]. cbn [List.filter]. destruct (H ρ') as [Ha Hb]; [by left|].
    specialize (IH (λ x Hx, H x (proj2 (elem_of_cons l x ρ') (or_intror Hx)))). destruct (fb ρ') eqn:Eb; cbn [List.filter]; destruct (truth I jc (ρ ∪ ρ')); cbn [map List.filter]; rewrite ?Ha, ?Hb, IH; by destruct (fa ρ). }
  rewrite Hrow by (intros; apply H; [by left|done]). by destruct (fa ρ).
Qed.
Lemma semi_rows_filter jc is_anti f (A B : list Env) : List.filter f (semi_rows I jc is_anti A B) = semi_rows I jc is_anti (List.filter f A) B.
Proof. unfold semi_rows. rewrite !filter_and. apply filter_ext_in'. intros ρ _. apply andb_comm. Qed.
Lemma dedup_filter f (A seen : list Env) seen' : (∀ ρ, f ρ = true → ρ ∈ seen ↔ ρ ∈ seen') → List.filter f (dedup seen A) = dedup seen' (List.filter f A).
Proof using Type.
  revert seen seen'. induction A as [|ρ A IH]; intros seen seen' H; [done|]. cbn [dedup List.filter]. destruct (f ρ) eqn:Ef.
  - cbn [dedup]. pose proof (H ρ Ef). do 2 case_decide; try tauto; [by apply IH|]. cbn [List.filter]. rewrite Ef. f_equal. apply IH.
    intros x Hx. rewrite !elem_of_cons, H by done. done.
  - case_decide; [by apply IH|]. cbn [List.filter]. rewrite Ef. apply IH. intros x Hx. rewrite elem_of_cons, <- H by done. split; [intros [-> |]; [congruence|done]|by right].
Qed.
Lemma union_rows_filter is_all f (A B : list Env) : List.filter f (union_rows is_all A B) = union_rows is_all (List.filter f A) (List.filter f B).
Proof. unfold union_rows. rewrite <- List.filter_app. destruct is_all; [done|]. by apply dedup_filter. Qed.
Lemma extend_rows_filter v (g : Env → list D) f (A : list Env) : (∀ ρ d, f (<[v := d]> ρ) = f ρ) →
  List.filter f (extend_rows v g A) = extend_rows v g (List.filter f A).
Proof using Type.
  intros H. unfold extend_rows. induction A as [|ρ A IH]; [done|]. cbn [map concat List.filter]. rewrite List.filter_app, IH.
  assert (∀ l, List.filter f (map (λ d, <[v := d]> ρ) l) = if f ρ then map (λ d, <[v := d]> ρ) l else []) as ->.
  { intros l. induction l as [|d l IHl]; cbn; [by destruct (f ρ)|]. rewrite H, IHl. by destruct (f ρ). }
  by destruct (f ρ).
Qed.
End rows.

(** ** Filter pushdown ends *)

Definition atomic (e : BoundExpression) : Prop := split_conjuncts e = [e].
Lemma split_atomic e : Forall atomic (split_conjuncts e).
Proof.
  induction e as [| | | | |l IHl op r IHr| | | | | | | | | | | |]; try by repeat constructor. destruct op; try by repeat constructor.
  cbn [split_conjuncts]. by apply List.Forall_app.
Qed.
Lemma split_length e : 1 ≤ length (split_conjuncts e).
Proof. induction e as [| | | | |l IHl op r IHr| | | | | | | | | | | |]; try (cbn; lia). destruct op; try (cbn; lia). cbn [split_conjuncts]. rewrite length_app. lia. Qed.
Lemma rebuild_split l e : Forall atomic l → rebuild_conjuncts l = Some e → split_conjuncts e = l.
Proof.
  intros H. destruct H as [|a l Ha H]; [done|]. intros [= <-]. change (a :: l) with ([a] ++ l). rewrite <- Ha. clear Ha. revert a.
  induction H as [|b l Hb H IH]; intros a; cbn [foldl]; [by rewrite app_nil_r|]. rewrite IH. cbn [conjoin split_conjuncts]. by rewrite Hb, <- app_assoc.
Qed.
Lemma sort_conjuncts_shape lv rv l a b c : sort_conjuncts lv rv l = ((a, b), c) → Forall atomic l →
  Forall atomic a ∧ Forall atomic b ∧ Forall atomic c ∧ length a + length b + length c = length l.
Proof.
  revert a b c. induction l as [|e l IH]; intros a b c H Hl; cbn [sort_conjuncts] in H; [by simplify_eq|]. apply list.Forall_cons in Hl as [He Hl].
  destruct (sort_conjuncts lv rv l) as [[a' b'] c'] eqn:E. destruct (IH a' b' c' eq_refl Hl) as (Ha & Hb & Hc & Hlen).
  case_decide; [|case_decide]; simplify_eq; cbn [length]; repeat split; try lia; by constructor || done.
Qed.

(** What a rewriting keeps of the shape of a plan. *)
Definition shape (p p' : LogicalOperator) : Prop := provided_variables p' = provided_variables p ∧ weight p' ≤ weight p.
Lemma set_child_shape p c c' : get_child p = Some c → shape c c' → shape p (set_child p c').
Proof.
  unfold shape. destruct p as [| | | | | | | | |[]|[]| | | | | | | | | | | | | | | | | | | | | | | ]; intros [= <-] [H1 H2]; cbn [provided_variables weight set_child]; rewrite ?H1; split; (done || lia).
Qed.

Section shapes.
Context (push : LogicalOperator → option LogicalOperator).
Hypothesis push_shape : ∀ p p', push p = Some p' → shape p p'.

Lemma push_side_shape side l side' : Forall atomic l → push_side push side l = Some side' →
  provided_variables side' = provided_variables side ∧ weight side' ≤ length l + weight side.
Proof using push_shape.
  intros Hl. unfold push_side. destruct (rebuild_conjuncts l) as [e|] eqn:E; [|intros [= <-]; split; [done|lia]].
  intros [H1 H2]%push_shape. cbn [provided_variables weight] in *. rewrite (rebuild_split l e Hl E) in H2. done.
Qed.
Lemma push_filter_shape c e p' : push_filter push c e = Some p' → shape (LFilter c e) p'.
Proof using push_shape.
  assert (∀ q, Some (LFilter q e) = Some p' → q = c → shape (LFilter c e) p') as Hkeep by (intros q [= <-] ->; split; done).
  pose proof (split_length e) as Hlen. unfold push_filter.
  destruct c; try (intros H; by eapply Hkeep).
  - case_decide; [|intros H'; by eapply Hkeep]. intros [= <-]. split; cbn [provided_variables weight]; [done|lia].
  - destruct (sort_conjuncts _ _ _) as [[a b] rest] eqn:E. destruct (sort_conjuncts_shape _ _ _ _ _ _ E (split_atomic e)) as (Ha & Hb & Hr & Hsum).
    intros (l' & Hl & (r' & Hr' & Hp)%bind_Some)%bind_Some.
    destruct (push_side_shape _ _ _ Ha Hl) as [Hpl Hwl]. destruct (push_side_shape _ _ _ Hb Hr') as [Hpr Hwr].
    destruct (rebuild_conjuncts rest) as [k|] eqn:Ek; simplify_eq; split; cbn [provided_variables weight]; rewrite ?Hpl, ?Hpr; try done; [rewrite (rebuild_split _ _ Hr Ek); lia|lia].
  - case_decide; [|intros H'; by eapply Hkeep]. intros (q' & [Hq Hw]%push_shape & [= <-])%bind_Some. split; cbn [provided_variables weight] in *; [done|lia].
  - intros (l' & [Hl Hwl]%push_shape & (r' & [Hr Hwr]%push_shape & [= <-])%bind_Some)%bind_Some. split; cbn [provided_variables weight] in *; [by rewrite Hl, Hr|lia].
  - case_decide; [|intros H'; by eapply Hkeep]. intros (l' & [Hl Hwl]%push_shape & [= <-])%bind_Some. split; cbn [provided_variables weight] in *; [done|lia].
Qed.
Lemma max_list_le l l' : Forall2 (λ a b, a ≤ b) l' l → max_list l' ≤ max_list l.
Proof. induction 1; cbn; lia. Qed.
Lemma map_child_opt_shape p p' : map_child_opt push p = Some p' → shape p p'.
Proof using push_shape.
  unfold map_child_opt. destruct (get_child p) as [c|] eqn:E; [|intros [= <-]; split; done].
  intros (c' & Hc%push_shape & [= <-])%bind_Some. by eapply set_child_shape.
Qed.
Lemma push_step_shape p p' : push_step push p = Some p' → shape p p'.
Proof using push_shape.
  destruct p; cbn [push_step]; try apply map_child_opt_shape; try (intros [= <-]; split; done).
  - intros (c' & [Hc Hw]%push_shape & [H1 H2]%push_filter_shape)%bind_Some. split; cbn [provided_variables weight] in *; [congruence|lia].
  - intros (l' & [Hl Hwl]%push_shape & (r' & [Hr Hwr]%push_shape & [= <-])%bind_Some)%bind_Some. split; cbn [provided_variables weight]; [by rewrite Hl, Hr|lia].
  - intros (q' & [Hq Hw]%push_shape & (bs' & Hbs & [= <-])%bind_Some)%bind_Some. split; cbn [provided_variables weight]; [done|].
    assert (max_list (map weight bs') ≤ max_list (map weight build_children)); [|lia]. apply max_list_le, Forall2_fmap. apply mapM_Some in Hbs. apply Forall2_flip.
    eapply list.Forall2_impl; [exact Hbs|]. intros x y Hxy. by apply push_shape in Hxy as [_ ?].
  - intros (c' & [Hc Hw]%push_shape & [= <-])%bind_Some. split; cbn [provided_variables weight]; [by rewrite Hc|lia].
  - intros (l' & [Hl Hwl]%push_shape & (r' & [Hr Hwr]%push_shape & [= <-])%bind_Some)%bind_Some. split; cbn [provided_variables weight]; [by rewrite Hl, Hr|lia].
  - intros (l' & [Hl Hwl]%push_shape & (r' & [Hr Hwr]%push_shape & [= <-])%bind_Some)%bind_Some. split; cbn [provided_variables weight]; [done|lia].
Qed.
End shapes.

Lemma push_fuel_shape n p p' : push_fuel n p = Some p' → shape p p'.
Proof. revert p p'. induction n as [|n IH]; intros p p'; cbn [push_fuel]; [done|]. by apply push_step_shape. Qed.

Lemma weight_pos p : 1 ≤ weight p.
Proof. destruct p as [| | |c e| | | | | |[]|[]| | | | | | | | | | | | | | | | | | | | | | | ]; cbn [weight]; try lia. pose proof (split_length e). lia. Qed.

Section total.
Context (n : nat) (push : LogicalOperator → option LogicalOperator).
Hypothesis push_shape : ∀ p p', push p = Some p' → shape p p'.
Hypothesis push_some : ∀ p, weight p ≤ n → is_Some (push p).

Lemma push_side_some side l : Forall atomic l → length l + weight side ≤ n → is_Some (push_side push side l).
Proof using push_some.
  intros Hl Hw. unfold push_side. destruct (rebuild_conjuncts l) as [e|] eqn:E; [|done]. apply push_some. cbn [weight]. by rewrite (rebuild_split l e Hl E).
Qed.
Lemma push_filter_some c e : length (split_conjuncts e) + weight c ≤ S n → is_Some (push_filter push c e).
Proof using push_some.
  intros Hw. pose proof (split_length e) as Hlen. unfold push_filter. destruct c; try done; cbn [weight] in Hw.
  - by case_decide.
  - destruct (sort_conjuncts _ _ _) as [[a b] rest] eqn:E. destruct (sort_conjuncts_shape _ _ _ _ _ _ E (split_atomic e)) as (Ha & Hb & Hr & Hsum).
    destruct (push_side_some c1 a Ha ltac:(lia)) as [l' ->]. destruct (push_side_some c2 b Hb ltac:(lia)) as [r' ->]. done.
  - case_decide; [|done]. destruct (push_some (LFilter c e)) as [q' ->]; [cbn [weight]; lia|done].
  - destruct (push_some (LFilter c1 e)) as [l' ->]; [cbn [weight]; lia|]. destruct (push_some (LFilter c2 e)) as [r' ->]; [cbn [weight]; lia|done].
  - case_decide; [|done]. destruct (push_some (LFilter c1 e)) as [l' ->]; [cbn [weight]; lia|done].
Qed.
Lemma get_child_weight p c : get_child p = Some c → weight c < weight p.
Proof.
  destruct p as [| | |c0 e| | | | | |[]|[]| | | | | | | | | | | | | | | | | | | | | | | ]; intros [= <-]; cbn [weight]; try lia. pose proof (split_length e). lia.
Qed.
Lemma map_child_opt_some p : weight p ≤ S n → is_Some (map_child_opt push p).
Proof using push_some.
  intros Hw. unfold map_child_opt. destruct (get_child p) as [c|] eqn:E; [|done]. apply get_child_weight in E. destruct (push_some c ltac:(lia)) as [c' ->]. done.
Qed.
Lemma max_list_elem x l : x ∈ l → x ≤ max_list l.
Proof. induction 1; cbn; lia. Qed.
Lemma push_step_some p : weight p ≤ S n → is_Some (push_step push p).
Proof using push_some push_shape.
  intros Hw. destruct p; cbn [push_step]; try (by apply map_child_opt_some); try done; cbn [weight] in Hw.
  - pose proof (split_length condition). destruct (push_some p ltac:(lia)) as [c' Hc]. rewrite Hc. apply push_shape in Hc as [_ Hc]. cbn [mbind option_bind]. apply push_filter_some. lia.
  - destruct (push_some p1 ltac:(lia)) as [l' ->], (push_some p2 ltac:(lia)) as [r' ->]. done.
  - destruct (push_some p ltac:(lia)) as [q' ->]. cbn [mbind option_bind]. destruct (mapM push build_children) as [bs|] eqn:E; [done|]. exfalso.
    apply mapM_None, list.Exists_exists in E as (b & Hin & Hb). destruct (push_some b) as [b' Hb']; [|congruence].
    assert (weight b ≤ max_list (map weight build_children)); [|lia]. apply max_list_elem. by apply list_elem_of_fmap_2.
  - destruct (push_some p ltac:(lia)) as [q' ->]. done.
  - destruct (push_some p1 ltac:(lia)) as [l' ->], (push_some p2 ltac:(lia)) as [r' ->]. done.
  - destruct (push_some p1 ltac:(lia)) as [l' ->], (push_some p2 ltac:(lia)) as [r' ->]. done.
Qed.
End total.

Lemma push_fuel_some n p : weight p ≤ n → is_Some (push_fuel n p).
Proof.
  revert p. induction n as [|n IH]; intros p Hp; [pose proof (weight_pos p); lia|]. cbn [push_fuel].
  apply (push_step_some n); [|done|done]. intros q q'. apply push_fuel_shape.
Qed.

(** ** Filter pushdown preserves rows *)

Section keeps.
Context {D : Type} `{!EqDecision D} (I : Interp D) `{!Evaluator I}.

Definition keeps (p p' : LogicalOperator) : Prop := sem I p' = sem I p ∧ wf I p'.

(** A join of sides that lost rows. *)
Lemma scopes_ok_sub l r l' r' : provided_variables l' ⊆ provided_variables l → provided_variables r' ⊆ provided_variables r →
  (∀ ρ, ρ ∈ sem I l' → ρ ∈ sem I l) → (∀ ρ, ρ ∈ sem I r' → ρ ∈ sem I r) → scopes_ok I l r → scopes_ok I l' r'.
Proof. intros Hl Hr Sl Sr H ρ ρ' Hρ Hρ'. destruct (H ρ ρ') as [H1 H2]; auto. Qed.
Lemma filter_sub (f : gmap string D → bool) l ρ : ρ ∈ List.filter f l → ρ ∈ l.
Proof. rewrite !list_elem_of_In. rewrite List.filter_In. tauto. Qed.

Lemma wf_child p c : get_child p = Some c → wf I p → wf I c.
Proof. destruct p as [| | | | | | | | |[]|[]| | | | | | | | | | | | | | | | | | | | | | | ]; intros [= <-]; cbn [wf]; tauto. Qed.
Lemma set_child_keeps p c c' : get_child p = Some c → provided_variables c' ⊆ provided_variables c → wf I p → keeps c c' → keeps p (set_child p c').
Proof.
  intros Hc Hpv Hwf [Hs Hw]. split.
  - destruct p as [| | | | | | | | |[]|[]| | | | | | | | | | | | | | | | | | | | | | | ]; try discriminate Hc; injection Hc as ->; cbn [set_child sem]; by rewrite ?Hs.
  - destruct p as [| | | | | | | | |[]|[]| | | | | | | | | | | | | | | | | | | | | | | ]; try discriminate Hc; injection Hc as ->; cbn [set_child wf] in *; try tauto.
    destruct Hwf as (_ & Hr & Hsc). split_and!; [done..|]. eapply scopes_ok_sub; [exact Hpv|done|by rewrite Hs|done|done].
Qed.

Section step.
Context (push : LogicalOperator → option LogicalOperator).
Hypothesis push_shape : ∀ p p', push p = Some p' → shape p p'.
Hypothesis push_keeps : ∀ p p', push p = Some p' → wf I p → keeps p p'.

Lemma push_side_keeps side l side' : push_side push side l = Some side' → wf I side →
  sem I side' = List.filter (truths I l) (sem I side) ∧ wf I side' ∧ provided_variables side' = provided_variables side.
Proof using push_keeps push_shape Evaluator0.
  intros H Hwf. unfold push_side in H. destruct (rebuild_conjuncts l) as [e|] eqn:E.
  - pose proof (push_shape _ _ H) as [Hpv _]. destruct (push_keeps _ _ H Hwf) as [Hs Hw]. split_and!; [|done|exact Hpv]. rewrite Hs. cbn [sem]. by apply filter_rebuild.
  - destruct l; [|done]. simplify_eq. by rewrite filter_no_conjunct.
Qed.

Lemma push_join_keeps l r jc e p' : push_filter push (LJoin l r jc) e = Some p' → wf I (LJoin l r jc) → keeps (LFilter (LJoin l r jc) e) p'.
Proof using push_keeps push_shape Evaluator0.
  intros H (Hwl & Hwr & Hsc). unfold push_filter in H. destruct (sort_conjuncts _ _ _) as [[a b] rest] eqn:E.
  destruct (sort_conjuncts_truth I _ _ _ _ _ _ E) as (Ht & Ha & Hb). apply bind_Some in H as (l' & Hl & (r' & Hr & H)%bind_Some).
  destruct (push_side_keeps _ _ _ Hl Hwl) as (Sl & Wl & Pl). destruct (push_side_keeps _ _ _ Hr Hwr) as (Sr & Wr & Pr).
  assert (wf I (LJoin l' r' jc)) as Hw.
  { split_and!; [done..|]. eapply scopes_ok_sub; [by rewrite Pl|by rewrite Pr| | |exact Hsc]; intros ρ; rewrite ?Sl, ?Sr; apply filter_sub. }
  assert (List.filter (truth I e) (join_rows I jc (sem I l) (sem I r)) = List.filter (truths I rest) (join_rows I jc (sem I l') (sem I r'))) as Hs.
  { rewrite Sl, Sr, <- join_rows_filter.
    - rewrite filter_and. apply filter_ext_in'. intros ρ _. by rewrite <- split_truth, Ht.
    - intros ρ ρ' Hρ Hρ'. destruct (Hsc ρ ρ' Hρ Hρ') as [H1 H2]. split; by eapply truths_local. }
  destruct (rebuild_conjuncts rest) as [k|] eqn:Ek; simplify_eq.
  - split; [|exact Hw]. cbn [sem]. rewrite Hs. by apply filter_rebuild.
  - split; [|exact Hw]. cbn [sem]. rewrite Hs. destruct rest; [|done]. by rewrite filter_no_conjunct.
Qed.

Lemma push_filter_keeps c e p' : push_filter push c e = Some p' → wf I c → keeps (LFilter c e) p'.
Proof using push_keeps push_shape Evaluator0.
  intros H Hwf. assert (∀ q, Some (LFilter q e) = Some p' → q = c → keeps (LFilter c e) p') as Hkeep by (intros q [= <-] ->; split; done).
  unfold push_filter in H. destruct c; try (by eapply Hkeep).
  - case_decide; [|by eapply Hkeep]. simplify_eq. split; [|done]. cbn [sem]. destruct filter as [f|]; cbn [where_rows]; [|done].
    rewrite filter_and. apply filter_ext_in'. intros ρ _. apply truth_and.
  - by apply push_join_keeps.
  - case_decide as Hv; [|by eapply Hkeep]. apply bind_Some in H as (q' & Hq & [= <-]). destruct Hwf as (Hwq & Hwb & Hnew).
    pose proof (push_shape _ _ Hq) as [Hpq _]. destruct (push_keeps _ _ Hq Hwq) as [Hs Hw]. split; [|cbn [wf]; split_and!; [done..|by rewrite Hpq]].
    cbn [sem] in *. rewrite Hs. symmetry. apply extend_rows_filter. intros ρ d. apply truth_local. intros x Hx. apply lookup_insert_ne. intros ->. by apply Hnew, Hv.
  - apply bind_Some in H as (l' & Hl & (r' & Hr & [= <-])%bind_Some). destruct Hwf as [Hwl Hwr].
    destruct (push_keeps _ _ Hl Hwl) as [Sl Wl], (push_keeps _ _ Hr Hwr) as [Sr Wr]. split; [|done]. cbn [sem] in *. by rewrite Sl, Sr, union_rows_filter.
  - case_decide; [|by eapply Hkeep]. apply bind_Some in H as (l' & Hl & [= <-]). destruct Hwf as [Hwl Hwr].
    destruct (push_keeps _ _ Hl Hwl) as [Sl Wl]. split; [|done]. cbn [sem] in *. by rewrite Sl, semi_rows_filter.
Qed.

Lemma builds_keep bs bs' : mapM push bs = Some bs' → foldr (λ b P, wf I b ∧ P) True bs →
  map (sem I) bs' = map (sem I) bs ∧ foldr (λ b P, wf I b ∧ P) True bs'.
Proof using push_keeps.
  intros H%mapM_Some. induction H as [|b b' bs bs' Hb H IH]; [done|]. intros [Hw Hws]. destruct (push_keeps _ _ Hb Hw) as [Hs Hw'], (IH Hws) as [IH1 IH2].
  cbn. by rewrite Hs, IH1.
Qed.
Lemma map_child_opt_keeps p p' : map_child_opt push p = Some p' → wf I p → keeps p p'.
Proof using push_keeps push_shape Evaluator0.
  unfold map_child_opt. destruct (get_child p) as [c|] eqn:E; [|intros [= <-]; done].
  intros (c' & Hc & [= <-])%bind_Some Hwf. pose proof (push_shape _ _ Hc) as [Hpv _]. eapply set_child_keeps; [exact E|by rewrite Hpv|done|]. apply push_keeps; [done|]. by eapply wf_child.
Qed.

Lemma push_step_keeps p p' : push_step push p = Some p' → wf I p → keeps p p'.
Proof using push_keeps push_shape Evaluator0.
  destruct p; cbn [push_step]; try apply map_child_opt_keeps; try (intros [= <-]; by split).
  - intros (c' & Hc & H)%bind_Some Hwf. destruct (push_keeps _ _ Hc Hwf) as [Hs Hw]. destruct (push_filter_keeps _ _ _ H Hw) as [Hs' Hw']. split; [|done]. rewrite Hs'. cbn [sem]. by rewrite Hs.
  - intros (l' & Hl & (r' & Hr & [= <-])%bind_Some)%bind_Some (Hwl & Hwr & Hsc). destruct (push_keeps _ _ Hl Hwl) as [Sl Wl], (push_keeps _ _ Hr Hwr) as [Sr Wr].
    pose proof (push_shape _ _ Hl) as [Pl _]. pose proof (push_shape _ _ Hr) as [Pr _]. split; [cbn [sem]; by rewrite Sl, Sr|]. split_and!; [done..|].
    eapply scopes_ok_sub; [by rewrite Pl|by rewrite Pr|by rewrite Sl|by rewrite Sr|done].
  - intros (q' & Hq & (bs' & Hbs & [= <-])%bind_Some)%bind_Some (Hwq & Hwb & Hnew). destruct (push_keeps _ _ Hq Hwq) as [Sq Wq]. destruct (builds_keep _ _ Hbs Hwb) as [Sb Wb].
    pose proof (push_shape _ _ Hq) as [Pq _]. split; [cbn [sem]; by rewrite Sq, Sb|]. cbn [wf]. split_and!; [done..|by rewrite Pq].
  - intros (c' & Hc & [= <-])%bind_Some Hwf. destruct (push_keeps _ _ Hc Hwf) as [Hs Hw]. split; [cbn [sem]; by rewrite Hs|done].
  - intros (l' & Hl & (r' & Hr & [= <-])%bind_Some)%bind_Some [Hwl Hwr]. destruct (push_keeps _ _ Hl Hwl) as [Sl Wl], (push_keeps _ _ Hr Hwr) as [Sr Wr].
    split; [cbn [sem]; by rewrite Sl, Sr|done].
  - intros (l' & Hl & (r' & Hr & [= <-])%bind_Some)%bind_Some [Hwl Hwr]. destruct (push_keeps _ _ Hl Hwl) as [Sl Wl], (push_keeps _ _ Hr Hwr) as [Sr Wr].
    split; [cbn [sem]; by rewrite Sl, Sr|done].
Qed.
End step.

Lemma push_fuel_keeps n p p' : push_fuel n p = Some p' → wf I p → keeps p p'.
Proof using Evaluator0.
  revert p p'. induction n as [|n IH]; intros p p'; cbn [push_fuel]; [done|]. apply push_step_keeps; [|done]. intros q q'. apply push_fuel_shape.
Qed.
End keeps.

(** ** After filter pushdown no index lookup is left to find *)

(** No filter that a scan could take is directly above it, where the index rule
    looks. *)
Fixpoint settled (p : LogicalOperator) : Prop :=
  match p with
  | LFilter c e => settled c ∧ match c with LScan _ v _ _ _ => ¬ extract_variables e ⊆ {[v]} | _ => True end
  | LJoin l r _ | LUnion l r _ => settled l ∧ settled r
  | LIntersect q bs _ _ => settled q ∧ foldr (λ b P, settled b ∧ P) True bs
  | LProjection c _ | LAggregate c _ _ _ | LSort c _ | LLimit c _ | LSkip c _ | LCreateNode (Some c) _ | LCreateRel (Some c) _ | LDelete c _ _ | LSet c _
  | LSemiMasker c _ _ | LRecursiveJoin c _ _ _ _ _ _ _ | LUnwind c _ _ | LFlatten c | LUnwindDedup c _ | LMerge c _ _ _ => settled c
  | _ => True
  end.

Section settle.
Context (push : LogicalOperator → option LogicalOperator).
Hypothesis push_settles : ∀ p p', push p = Some p' → settled p'.
Lemma push_side_settles side l side' : settled side → push_side push side l = Some side' → settled side'.
Proof using push_settles. unfold push_side. destruct (rebuild_conjuncts l); [intros _; apply push_settles|by intros ? [= <-]]. Qed.
Lemma push_filter_settles c e p' : settled c → push_filter push c e = Some p' → settled p'.
Proof using push_settles.
  intros Hc H. assert (∀ q, Some (LFilter q e) = Some p' → q = c → (match c with LScan _ v _ _ _ => ¬ extract_variables e ⊆ {[v]} | _ => True end) → settled p') as Hkeep
    by (intros q [= <-] -> ?; by split).
  unfold push_filter in H. destruct c; try (by eapply Hkeep).
  - case_decide; [by simplify_eq|by eapply Hkeep].
  - destruct (sort_conjuncts _ _ _) as [[a b] rest]. apply bind_Some in H as (l' & Hl & (r' & Hr & H)%bind_Some). destruct Hc as [Hcl Hcr].
    assert (settled l' ∧ settled r') as [? ?] by (split; [exact (push_side_settles _ _ _ Hcl Hl)|exact (push_side_settles _ _ _ Hcr Hr)]). destruct (rebuild_conjuncts rest); simplify_eq; by repeat split.
  - case_decide; [|by eapply Hkeep]. apply bind_Some in H as (q' & Hq%push_settles & [= <-]). destruct Hc. by split.
  - apply bind_Some in H as (l' & Hl%push_settles & (r' & Hr%push_settles & [= <-])%bind_Some). by split.
  - case_decide; [|by eapply Hkeep]. by apply bind_Some in H as (l' & Hl & [= <-]).
Qed.
Lemma set_child_settles p c c' : get_child p = Some c → settled c' → match p with LFilter _ _ | LJoin _ _ _ | LUnion _ _ _ => True | _ => settled (set_child p c') end.
Proof. destruct p as [| | | | | | | | |[]|[]| | | | | | | | | | | | | | | | | | | | | | | ]; intros [= <-]; cbn; done. Qed.
Lemma push_step_settles p p' : push_step push p = Some p' → settled p'.
Proof using push_settles.
  assert (map_child_opt push p = Some p' → match p with LFilter _ _ | LJoin _ _ _ | LUnion _ _ _ | LIntersect _ _ _ _ => True | _ => settled p' end) as Hone.
  { unfold map_child_opt. destruct (get_child p) as [c|] eqn:E.
    - intros (c' & Hc%push_settles & [= <-])%bind_Some. pose proof (set_child_settles p c c' E Hc) as Hs. destruct p; try exact Hs; try exact I.
    - intros [= <-]. destruct p as [| | | | | | | | |[]|[]| | | | | | | | | | | | | | | | | | | | | | | ]; done. }
  destruct p; cbn [push_step]; try exact Hone; try (by intros [= <-]); clear Hone.
  - intros (c' & Hc%push_settles & H)%bind_Some. by eapply push_filter_settles.
  - intros (l' & Hl%push_settles & (r' & Hr%push_settles & [= <-])%bind_Some)%bind_Some. by split.
  - intros (q' & Hq%push_settles & (bs' & Hbs%mapM_Some & [= <-])%bind_Some)%bind_Some. split; [done|].
    induction Hbs as [|b b' bs bs' Hb%push_settles H IH]; [done|]. by split.
  - by intros (q' & Hq%push_settles & [= <-])%bind_Some.
  - intros (l' & Hl%push_settles & (r' & Hr%push_settles & [= <-])%bind_Some)%bind_Some. by split.
  - by intros (l' & Hl%push_settles & (r' & Hr%push_settles & [= <-])%bind_Some)%bind_Some.
Qed.
End settle.
Lemma push_fuel_settles n p p' : push_fuel n p = Some p' → settled p'.
Proof. revert p p'. induction n as [|n IH]; intros p p'; cbn [push_fuel]; [done|]. by apply push_step_settles. Qed.

Lemma index_match_settled {Expression} (cat : @Catalog Expression) c e : match c with LScan _ v _ _ _ => ¬ extract_variables e ⊆ {[v]} | _ => True end → index_match cat c e = None.
Proof.
  intros H. destruct c; try done. destruct e as [| | |l op r| | | | | | | | | | | | | |]; try done. destruct op; try done.
  destruct l, r; try done; cbn [index_match]; case_decide; try done; subst; exfalso; apply H; cbn; set_solver.
Qed.
(** Induction on plans through their weight. *)
Lemma plan_ind (P : LogicalOperator → Prop) : (∀ p, (∀ q, weight q < weight p → P q) → P p) → ∀ p, P p.
Proof. intros H p. remember (weight p) as n eqn:En. revert p En. induction (lt_wf n) as [n _ IH]. intros p ->. apply H. intros q Hq. by eapply IH. Qed.
Lemma map_child_id f p : (∀ c, get_child p = Some c → f c = c) → map_child f p = p.
Proof. intros H. rewrite map_child_spec. destruct (get_child p) as [c|] eqn:E; [|done]. rewrite (H c eq_refl). destruct p as [| | | | | | | | |[]|[]| | | | | | | | | | | | | | | | | | | | | | | ]; try discriminate E; by injection E as ->. Qed.
Lemma settled_child p c : get_child p = Some c → settled p →
  match p with LSubquery _ | LTopK _ _ _ | LProfile _ | LExplain _ | LAccumulate _ | LDistinct _ _ | LSemiJoin _ _ _ _ | LOptionalMatch _ _ | LWith _ _ _ => True | _ => settled c end.
Proof. destruct p as [| | | | | | | | |[]|[]| | | | | | | | | | | | | | | | | | | | | | | ]; intros [= <-]; cbn; tauto. Qed.
Lemma index_settled {Expression} (cat : @Catalog Expression) p : settled p → index_push_down cat p = p.
Proof.
  induction p as [p IH] using plan_ind. intros Hp.
  assert (∀ c, get_child p = Some c → match p with LSubquery _ | LTopK _ _ _ | LProfile _ | LExplain _ | LAccumulate _ | LDistinct _ _ | LSemiJoin _ _ _ _ | LOptionalMatch _ _ | LWith _ _ _ => True | _ => index_push_down cat c = c end) as Hc.
  { intros c E. pose proof (settled_child p c E Hp) as Hs. apply get_child_weight in E. destruct p; try done; by apply IH. }
  destruct p; try done; try (apply map_child_id; exact Hc).
  - destruct Hp as [Hp Hm]. cbn [index_push_down]. rewrite (Hc p eq_refl). by rewrite index_match_settled.
  - destruct Hp as [H1 H2]. cbn [index_push_down weight] in *. by rewrite !IH by (done || lia).
  - destruct Hp as [H1 H2]. cbn [index_push_down weight] in *. rewrite IH by (done || lia). f_equal.
    assert (∀ b, b ∈ build_children → weight b < S (weight p `max` max_list (map weight build_children))) as Hb.
    { intros b Hin. apply (list_elem_of_fmap_2 weight) in Hin. apply max_list_elem in Hin. change (weight <$> build_children) with (map weight build_children) in Hin. lia. }
    assert (∀ b, b ∈ build_children → settled b → index_push_down cat b = b) as Hall by (intros b Hin Hset; apply IH; [by apply Hb|done]).
    clear - H2 Hall. induction build_children as [|b bs IHb]; [done|]. destruct H2 as [H2 H3]. cbn [map]. rewrite Hall by (done || by left). f_equal. apply IHb; [done|].
    intros b' Hin. apply Hall. by right.
  - destruct Hp as [H1 H2]. cbn [index_push_down weight] in *. by rewrite !IH by (done || lia).
Qed.

(** ** The rules on limits and the rules that do nothing *)

Section limits.
Context {D : Type} `{!EqDecision D} (I : Interp D).

(** The rewritten plan has the same rows, is well-formed, and promises no more
    variables. *)
Definition refines (p p' : LogicalOperator) : Prop := keeps I p p' ∧ provided_variables p' ⊆ provided_variables p.

Lemma map_child_refines f p : (∀ c, get_child p = Some c → wf I c → refines c (f c)) → wf I p → refines p (map_child f p).
Proof.
  intros H Hp. rewrite map_child_spec. destruct (get_child p) as [c|] eqn:E; [|by split].
  destruct (H c eq_refl) as [Hk Hv]; [by eapply wf_child|]. split; [by eapply set_child_keeps|].
  destruct p as [| | | | | | | | |[]|[]| | | | | | | | | | | | | | | | | | | | | | | ]; try discriminate E; injection E as ->; cbn; set_solver.
Qed.
Lemma pair_refines l r l' r' : refines l l' → refines r r' →
  (∀ jc, wf I (LJoin l r jc) → refines (LJoin l r jc) (LJoin l' r' jc)) ∧ (∀ a, refines (LUnion l r a) (LUnion l' r' a)).
Proof.
  intros [[Sl Wl] Pl] [[Sr Wr] Pr]. split_and!; [intros jc (_ & _ & Hsc)|intros a]; (split; [split|cbn; set_solver]); cbn [sem wf] in *; rewrite ?Sl, ?Sr; try done.
  split_and!; [done..|]. eapply scopes_ok_sub; [done|done|by rewrite Sl|by rewrite Sr|done].
Qed.
(** A rule by cases: joins and unions on both sides, a limit in its own way, other
    operators through their first child. *)
Lemma rule_refines (f : LogicalOperator → LogicalOperator) :
  (∀ p, f p = match p with LLimit _ _ => f p | LJoin l r jc => LJoin (f l) (f r) jc | LUnion l r a => LUnion (f l) (f r) a | _ => map_child f p end) →
  (∀ c n, wf I c → refines c (f c) → refines (LLimit c n) (f (LLimit c n))) → ∀ p, wf I p → refines p (f p).
Proof.
  intros Hf Hlim p. induction p as [p IH] using plan_ind. intros Hp. rewrite Hf.
  assert (∀ c, get_child p = Some c → wf I c → refines c (f c)) as Hc by (intros c E; apply IH; by apply get_child_weight).
  destruct p; try (by apply map_child_refines).
  - destruct Hp as (Hl & Hr & Hsc). apply pair_refines; [apply IH; [cbn; lia|done]..|done].
  - apply Hlim; [done|]. by apply Hc.
  - destruct Hp as (Hl & Hr). apply pair_refines; apply IH; (cbn; lia) || done.
Qed.

Lemma topk_refines p : wf I p → refines p (topk p).
Proof.
  apply rule_refines; [by intros []|]. intros c n Hc [[Hs Hw] Hv]. cbn [topk]. split; [split|].
  - destruct (topk c); cbn [sem] in *; by rewrite Hs.
  - by destruct (topk c).
  - destruct (topk c); cbn in *; set_solver.
Qed.
Lemma limit_refines p : wf I p → refines p (limit_push_down p).
Proof.
  apply rule_refines; [by intros []|]. intros c n Hc [[Hs Hw] Hv]. cbn [limit_push_down]. split; [split|].
  - destruct (limit_push_down c); cbn [sem] in *; try (by rewrite Hs). by rewrite <- Hs, firstn_map.
  - by destruct (limit_push_down c).
  - by destruct (limit_push_down c).
Qed.
End limits.

Lemma factorization_id p : factorization p = p.
Proof.
  induction p as [p IH] using plan_ind. assert (∀ c, get_child p = Some c → factorization c = c) as Hc by (intros c E; apply IH; by apply get_child_weight).
  destruct p; try (by apply map_child_id); cbn [factorization]; rewrite !IH by (cbn; lia); done.
Qed.
Lemma foreign_join_id p : foreign_join p = p.
Proof.
  induction p as [p IH] using plan_ind. assert (∀ c, get_child p = Some c → foreign_join c = c) as Hc by (intros c E; apply IH; by apply get_child_weight).
  destruct p; try (by apply map_child_id); cbn [foreign_join]; rewrite !IH by (cbn; lia); done.
Qed.

(** ** Theorems *)

(** Filter pushdown (filter_pushdown.rs) returns and preserves the answer: on
    a plan whose joins do not bind the other side's variables it ends, with the
    plan's weight as fuel, and the plan it returns has the same rows in the same
    order, whatever the operators it does not look into compute. *)
Theorem filter_pushdown_keeps_rows (D : Type) `{EqDecision D} (I : Interp D) `{!Evaluator I} (p : LogicalOperator) :
  wf I p → ∃ p', push_down p = Some p' ∧ sem I p' = sem I p.
Proof.
  intros Hp. destruct (push_fuel_some (weight p) p ltac:(lia)) as [p' Hp']. exists p'. split; [done|]. by eapply push_fuel_keeps.
Qed.

(** No query ever uses an index: filter pushdown runs before the index rule
    (optimizer/mod.rs) and moves every filter the index rule looks for into its
    scan, so the index rule returns its input. *)
Theorem index_scan_never_planned (Expression : Type) (cat : @Catalog Expression) (p p' : LogicalOperator) :
  push_down p = Some p' → index_push_down cat p' = p'.
Proof. intros H. apply index_settled. by eapply push_fuel_settles. Qed.

(** The rules that move filters and limits, in the order of the optimizer. *)
Definition row_rules {Expression : Type} (cat : @Catalog Expression) : list (LogicalOperator → option LogicalOperator) :=
  [push_down; Some ∘ index_push_down cat; Some ∘ topk; Some ∘ limit_push_down; Some ∘ factorization; Some ∘ foreign_join].
Lemma row_rules_refine {D : Type} `{EqDecision D} (I : Interp D) `{!Evaluator I} {Expression : Type} (cat : @Catalog Expression) p : wf I p →
  ∃ p', apply_rules (row_rules cat) p = Some p' ∧ keeps I p p'.
Proof.
  intros Hp. destruct (push_fuel_some (weight p) p ltac:(lia)) as [p1 H1]. destruct (push_fuel_keeps I _ _ _ H1 Hp) as [S1 W1].
  destruct (topk_refines I p1 W1) as [[S2 W2] _]. destruct (limit_refines I _ W2) as [[S3 W3] _].
  exists (limit_push_down (topk p1)). split; [|split; [congruence|done]].
  unfold apply_rules, row_rules. cbn [foldl mbind option_bind]. unfold push_down. rewrite H1. cbn [mbind option_bind compose].
  by rewrite factorization_id, foreign_join_id, index_settled by (by eapply push_fuel_settles).
Qed.

(** C14. The optimizer's loop (optimizer/mod.rs) over the rules that move filters
    and limits returns a plan with the same rows in the same order. *)
Theorem optimizer_keeps_rows (D : Type) `{EqDecision D} (I : Interp D) `{!Evaluator I} (Expression : Type) (cat : @Catalog Expression) (p : LogicalOperator) :
  wf I p → ∃ p', optimize (row_rules cat) p = Some p' ∧ sem I p' = sem I p.
Proof.
  unfold optimize. generalize 5. intros n. revert p. induction n as [|n IH]; intros p Hp; [by exists p|]. cbn [optimize_loop].
  destruct (row_rules_refine I cat p Hp) as (p1 & -> & S1 & W1). cbn [mbind option_bind]. case_decide; [by exists p1|].
  destruct (IH p1 W1) as (p' & Hp' & Hs). exists p'. split; [done|congruence].
Qed.

Lemma agg_key_column items g i j v k t t' a b : i ∈ g → items !! i = Some (mkItem (EPropertyLookup v 0 t) a) → items !! j = Some (mkItem (EPropertyLookup v k t') b) → k ≠ 0 →
  j ∉ List.filter (λ i, negb (is_dependent items (primary_vars items g) i)) g.
Proof.
  intros Hi Hitem Hj Hk Hin. apply list_elem_of_In, List.filter_In in Hin as [_ Hn]. apply negb_true_iff in Hn.
  unfold is_dependent, lookup_item in Hn. rewrite Hj in Hn. cbn in Hn. apply bool_decide_eq_false in Hn. apply Hn. split; [done|].
  unfold primary_vars. apply elem_of_list_to_set, list_elem_of_omap. exists i. split; [done|]. unfold lookup_item. by rewrite Hitem.
Qed.

(** Grouping by a variable's first column drops its other columns: for
    [RETURN n.id, n.name, count(x)] the key rule (agg_key_dependency_optimizer.rs)
    takes [n.name] out of the grouping columns, the count rule
    (count_rel_table_optimizer.rs) clears the list it was put on, and the
    aggregate no longer hands the column out. *)
Theorem grouping_by_key_loses_column (Expression : Type) (cat : @Catalog Expression) (c : LogicalOperator) (items : list BoundProjectionItem)
    (g d : list nat) (aggs : list (AggregateFunction * nat)) (i j k : nat) (v a b : string) (t t' : LogicalType) :
  i ∈ g → j ∈ g → items !! i = Some (mkItem (EPropertyLookup v 0 t) a) → items !! j = Some (mkItem (EPropertyLookup v k t') b) → k ≠ 0 →
  ∃ c' g', count_rel_table cat (agg_key_dependency (LAggregate (LProjection c items) g d aggs)) = LAggregate (LProjection c' items) g' [] aggs ∧ j ∉ g'.
Proof.
  intros Hi _ Hitem Hj Hk. cbn [agg_key_dependency map_child count_rel_table]. eexists _, _. split.
  - assert (∀ q gs, count_match cat (LProjection q items) gs aggs = None) as -> by (intros q [|? ?]; [destruct aggs as [|[[] ?] [|? ?]]|]; done). reflexivity.
  - by eapply agg_key_column.
Qed.

(** ** Examples *)

(** Rows of integers; conditions are comparisons of a property with an integer,
    joined by AND, OR and NOT. *)
Fixpoint demo_truth (e : BoundExpression) (ρ : gmap string (list Z)) : bool :=
  match e with
  | ELiteral (LitBoolean b) => b
  | EComparison (EPropertyLookup v i _) Equal (ELiteral (LitInteger z)) => bool_decide ((ρ !! v ≫= λ r, r !! i) = Some z)
  | EComparison (EPropertyLookup v i _) Equal (EPropertyLookup w j _) => bool_decide ((ρ !! v ≫= λ r, r !! i) = (ρ !! w ≫= λ r, r !! j))
  | ELogical l And r => demo_truth l ρ && demo_truth r ρ
  | ELogical l Or r => demo_truth l ρ || demo_truth r ρ
  | ENot e => negb (demo_truth e ρ)
  | _ => false
  end.
Definition demo_interp : Interp (list Z) :=
  mkInterp (λ t _, if decide (t = "Person"%string) then [[1; 30]; [2; 40]; [3; 30]]%Z else [[1; 2]; [2; 3]; [3; 1]]%Z) (λ _ _ _, []) demo_truth (λ _ _, []) (λ _ l, l) (λ _ _ _, []) (λ _ _, []).
#[global] Instance demo_evaluator : Evaluator demo_interp.
Proof.
  split; [done|]. intros e ρ ρ'. cbn [demo_interp truth].
  induction e as [[]| | |l IHl op r IHr| |l IHl op r IHr|e IHe| | | | | | | | | | |]; intros H; try done; cbn [demo_truth extract_variables] in *.
  - destruct l as [| |v i t| | | | | | | | | | | | | | |]; try done. destruct op; try done. destruct r as [[]| |w j t'| | | | | | | | | | | | | | |]; try done; cbn in H;
      rewrite ?(H v), ?(H w) by set_solver; done.
  - destruct op; try done; rewrite IHl, IHr by (intros; apply H; set_solver); done.
  - by rewrite IHe.
Qed.
Definition demo_prop (v : string) (i : nat) : BoundExpression := EPropertyLookup v i TInt64.
Definition demo_is (v : string) (i : nat) (z : Z) : BoundExpression := EComparison (demo_prop v i) Equal (ELiteral (LitInteger z)).
(** MATCH (a:Person)-[r:Knows]->() WHERE a.age = 30 AND r.to = 1 LIMIT 5 *)
Definition demo_plan : LogicalOperator :=
  LLimit (LFilter (LJoin (LScan "Person" "a" None None None) (LScan "Knows" "r" None None None) (EComparison (demo_prop "a" 0) Equal (demo_prop "r" 0)))
    (ELogical (demo_is "a" 1 30) And (demo_is "r" 1 1))) 5.
Lemma demo_plan_wf : wf demo_interp demo_plan.
Proof.
  cbn [wf demo_plan]. split_and!; [done..|]. intros ρ ρ' Hρ Hρ'. cbn in Hρ, Hρ'. split; intros x Hx; cbn in Hx; apply elem_of_singleton in Hx; subst x;
    repeat (apply elem_of_cons in Hρ as [-> |Hρ] || apply elem_of_nil in Hρ as []); repeat (apply elem_of_cons in Hρ' as [-> |Hρ'] || apply elem_of_nil in Hρ' as []); reflexivity.
Qed.

Lemma filter_pushdown_keeps_rows_witness : ∃ p', push_down demo_plan = Some p' ∧ sem demo_interp p' = sem demo_interp demo_plan.
Proof. apply (filter_pushdown_keeps_rows (list Z) demo_interp demo_plan). exact demo_plan_wf. Defined.

Definition demo_catalog : @Catalog unit := mkCatalog ∅ ∅ ∅ ∅ ∅.
Lemma optimizer_keeps_rows_witness : ∃ p', optimize (row_rules demo_catalog) demo_plan = Some p' ∧ sem demo_interp p' = sem demo_interp demo_plan.
Proof. apply (optimizer_keeps_rows (list Z) demo_interp unit demo_catalog demo_plan). exact demo_plan_wf. Defined.

Definition demo_pushed : LogicalOperator :=
  LLimit (LJoin (LScan "Person" "a" None None (Some (demo_is "a" 1 30))) (LScan "Knows" "r" None None (Some (demo_is "r" 1 1))) (EComparison (demo_prop "a" 0) Equal (demo_prop "r" 0))) 5.
Lemma index_scan_never_planned_witness : push_down demo_plan = Some demo_pushed ∧ index_push_down demo_catalog demo_pushed = demo_pushed.
Proof.
  assert (push_down demo_plan = Some demo_pushed) as H by (vm_compute; reflexivity). split; [exact H|].
  apply (index_scan_never_planned unit demo_catalog demo_plan demo_pushed). exact H.
Defined.

Definition demo_items : list BoundProjectionItem := [mkItem (demo_prop "n" 0) "n.id"; mkItem (demo_prop "n" 1) "n.name"; mkItem (demo_prop "n" 2) "x"].
Lemma grouping_by_key_loses_column_witness : ∃ c' g',
  count_rel_table demo_catalog (agg_key_dependency (LAggregate (LProjection (LScan "Person" "n" None None None) demo_items) [0; 1] [] [(Count, 2)])) =
    LAggregate (LProjection c' demo_items) g' [] [(Count, 2)] ∧ 1 ∉ g'.
Proof.
  apply (grouping_by_key_loses_column unit demo_catalog (LScan "Person" "n" None None None) demo_items [0; 1] [] [(Count, 2)] 0 1 1 "n" "n.id" "n.name" TInt64 TInt64).
  - by left.
  - by right; left.
  - reflexivity.
  - reflexivity.
  - done.
Defined.
