(* ===== verification/Evaluator.v ===== *)
(** * Expression evaluation (processor/evaluator.rs)

    Expressions are evaluated on a whole batch: every subexpression gives an array
    with one cell per row.  The kernels of the Arrow library are modelled by their
    documentation: comparisons, [and], [or] and [not] give null when an operand is
    null; [add], [sub] and [mul] fail on overflow; floating-point comparisons follow
    the total order of IEEE 754; a cast keeps null and turns a value the target
    cannot hold into null.  Casts of other types, the floating-point remainder, and
    the evaluation of functions and subqueries are parameters. *)
From stdpp Require Import base list gmap strings numbers.
From Stdlib Require Import ZArith Lia Bool Floats.SpecFloat.
From S2P Require Import Prelude Codec Alp Stats Column ColumnScan Operators LogicalPlan.
Open Scope nat_scope.

(** ** Arrays *)

Inductive Cell := CScalar (s : Scalar) | CList (l : list (option Scalar)).
Record Arr := mkArr { arr_type : DataType; cells : list (option Cell) }.
Definition scalars (t : DataType) (l : list (option Scalar)) : Arr := mkArr t (map (fmap CScalar) l).
Definition booleans (l : list (option bool)) : Arr := scalars DBoolean (map (fmap ABoolean) l).
Definition null_array (t : DataType) (n : nat) : Arr := mkArr t (replicate n None).
Definition batch_column (b : RecordBatch) (i : nat) : option Arr :=
  t ← schema b !! i; Some (scalars t (map (λ r : Row, mjoin (r !! i)) (rows b))).

Definition bytes_of (s : string) : list Z := map (Z.of_nat ∘ Ascii.nat_of_ascii) (String.list_ascii_of_string s).
Definition f64_one : Z := 4607182418800017408.


(** ** Comparison kernels *)

(** The order of [f64::total_cmp]. *)
Definition f64_key (b : Z) : Z := if decide (b < 2 ^ 63)%Z then b else (2 ^ 63 - b - 1)%Z.
Fixpoint bytes_cmp (a b : list Z) : comparison :=
  match a, b with
  | [], [] => Eq
  | [], _ => Lt
  | _, [] => Gt
  | x :: a, y :: b => match (x ?= y)%Z with Eq => bytes_cmp a b | c => c end
  end.
Definition scalar_cmp (a b : Scalar) : option comparison :=
  match a, b with
  | AInt64 x, AInt64 y | AInt32 x, AInt32 y | AUInt64 x, AUInt64 y | ADate32 x, ADate32 y | ATimestamp x, ATimestamp y => Some (x ?= y)%Z
  | AFloat64 x, AFloat64 y => Some (f64_key x ?= f64_key y)%Z
  | ABoolean x, ABoolean y => Some (Z.b2z x ?= Z.b2z y)%Z
  | AUtf8 x, AUtf8 y => Some (bytes_cmp x y)
  | _, _ => None
  end.
Definition op_holds (op : ComparisonOperator) (c : comparison) : bool :=
  match op, c with
  | Equal, Eq | NotEqual, Lt | NotEqual, Gt | LessThan, Lt | LessThanOrEqual, Lt | LessThanOrEqual, Eq
  | GreaterThan, Gt | GreaterThanOrEqual, Gt | GreaterThanOrEqual, Eq => true
  | _, _ => false
  end.
Definition cell_cmp (op : ComparisonOperator) (a b : option Cell) : option bool :=
  match a, b with
  | Some (CScalar x), Some (CScalar y) => op_holds op <$> scalar_cmp x y
  | _, _ => None
  end.
Definition comparable (t : DataType) : bool := match t with DList _ | DStruct _ | DNull => false | _ => true end.
(** [eq], [neq], [lt], ...: both sides of one type and one length. *)
Definition cmp_kernel (op : ComparisonOperator) (a b : Arr) : outcome Arr :=
  if decide (arr_type a = arr_type b ∧ length (cells a) = length (cells b)) then
    if comparable (arr_type a) then Ok (booleans (zip_with (cell_cmp op) (cells a) (cells b))) else Err Internal
  else Err Internal.
(** Against one value ([new_scalar]). *)
Definition cmp_scalar (op : ComparisonOperator) (a : Arr) (s : Scalar) : outcome Arr :=
  Ok (booleans (map (λ c, cell_cmp op c (Some (CScalar s))) (cells a))).

(** ** Casts *)

Definition map_scalars (f : Scalar → option Scalar) (t : DataType) (a : Arr) : Arr :=
  mkArr t (map (λ c, match c with Some (CScalar s) => CScalar <$> f s | _ => None end) (cells a)).
Definition int_of (s : Scalar) : Z := match s with AInt64 z | AInt32 z | AUInt64 z => z | _ => 0%Z end.
Definition is_int_type (t : DataType) : bool := match t with DInt64 | DInt32 | DUInt64 => true | _ => false end.

Section evaluate.
(** Casts of the library that are not spelled out below. *)
Context (cast_other : DataType → Arr → outcome Arr).
(** The remainder of doubles. *)
Context (f64_rem : Z → Z → Z).

Definition cast (to : DataType) (a : Arr) : outcome Arr :=
  if decide (arr_type a = to) then Ok a
  else
    match arr_type a, to with
    | DInt64, DFloat64 | DInt32, DFloat64 | DUInt64, DFloat64 => Ok (map_scalars (λ s, Some (AFloat64 (int_as_f64 (int_of s)))) DFloat64 a)
    | DBoolean, DFloat64 => Ok (map_scalars (λ s, match s with ABoolean b => Some (AFloat64 (if b then f64_one else 0%Z)) | _ => None end) DFloat64 a)
    | DInt32, DInt64 => Ok (map_scalars (λ s, Some (AInt64 (int_of s))) DInt64 a)
    | DUInt64, DInt64 => Ok (map_scalars (λ s, if decide (int_of s ≤ i64_MAX)%Z then Some (AInt64 (int_of s)) else None) DInt64 a)
    | DInt64, DBoolean | DInt32, DBoolean | DUInt64, DBoolean => Ok (map_scalars (λ s, Some (ABoolean (bool_decide (int_of s ≠ 0%Z)))) DBoolean a)
    | DFloat64, DBoolean => Ok (map_scalars (λ s, match s with AFloat64 b => Some (ABoolean (bool_decide (b ≠ 0 ∧ b ≠ 2 ^ 63)%Z)) | _ => None end) DBoolean a)
    | DNull, _ => Ok (null_array to (length (cells a)))
    | _, _ => cast_other to a
    end.

(** ** Arithmetic *)

(** [numeric::add], [sub] and [mul] of arrow on integers return an error on overflow
    (their wrapping variants are [add_wrapping] and so on). *)
Definition checked_cells (f : Z → Z → Z) (lo hi : Z) (mk : Z → Scalar) (l r : list (option Cell)) : outcome (list (option Cell)) :=
  if forallb (λ p, match p with (Some (CScalar a), Some (CScalar b)) => bool_decide (lo ≤ f (int_of a) (int_of b) ≤ hi)%Z | _ => true end) (zip l r)
  then Ok (zip_with (λ a b, match a, b with Some (CScalar a), Some (CScalar b) => Some (CScalar (mk (f (int_of a) (int_of b)))) | _, _ => None end) l r)
  else Err Internal.
Definition op_fun (op : ArithmeticOperator) : Z → Z → Z :=
  match op with Add => Z.add | Subtract => Z.sub | Multiply => Z.mul | Divide => Z.quot | Modulo => Z.rem end.
(** [overflowing_add] and the like report an overflow. *)
Definition has_overflow (f : Z → Z → Z) (lo hi : Z) (l r : list (option Cell)) : bool :=
  existsb (λ p, match p with (Some (CScalar a), Some (CScalar b)) => bool_decide (¬ (lo ≤ f (int_of a) (int_of b) ≤ hi)%Z) | _ => false end) (zip l r).
Definition float_op (op : ArithmeticOperator) (a b : Z) : Z :=
  match op with
  | Add => f64_to_bits (SFadd 53 1024 (f64_from_bits a) (f64_from_bits b))
  | Subtract => f64_to_bits (SFsub 53 1024 (f64_from_bits a) (f64_from_bits b))
  | Multiply => f64_to_bits (f64_mul (f64_from_bits a) (f64_from_bits b))
  | Divide => f64_to_bits (f64_div (f64_from_bits a) (f64_from_bits b))
  | Modulo => f64_rem a b
  end.
Definition promoted (op : ArithmeticOperator) (l r : list (option Cell)) : list (option Cell) :=
  zip_with (λ a b, match a, b with Some (CScalar a), Some (CScalar b) => Some (CScalar (AFloat64 (float_op op (int_as_f64 (int_of a)) (int_as_f64 (int_of b))))) | _, _ => None end) l r.
(** [checked_div], [checked_rem] *)
Definition i64_quotient (f : Z → Z → Z) (a b : Z) : option Z := if decide (b = 0 ∨ a = i64_MIN ∧ b = -1)%Z then None else Some (f a b).
Definition cellwise (f : Z → Z → option Scalar) (l r : list (option Cell)) : list (option Cell) :=
  zip_with (λ a b, match a, b with Some (CScalar a), Some (CScalar b) => CScalar <$> f (int_of a) (int_of b) | _, _ => None end) l r.

Definition evaluate_arith_int64 (l r : Arr) (op : ArithmeticOperator) : outcome Arr :=
  match op with
  | Divide | Modulo => Ok (mkArr DInt64 (cellwise (λ a b, AInt64 <$> i64_quotient (op_fun op) a b) (cells l) (cells r)))
  | _ =>
      let* raw := checked_cells (op_fun op) i64_MIN i64_MAX AInt64 (cells l) (cells r) in
      if has_overflow (op_fun op) i64_MIN i64_MAX (cells l) (cells r) then Ok (mkArr DFloat64 (promoted op (cells l) (cells r)))
      else Ok (mkArr DInt64 raw)
  end.
Definition evaluate_arith_uint64 (l r : Arr) (op : ArithmeticOperator) : outcome Arr :=
  match op with
  | Add | Multiply =>
      let* raw := checked_cells (op_fun op) 0 (2 ^ 64 - 1) AUInt64 (cells l) (cells r) in
      if has_overflow (op_fun op) 0 (2 ^ 64 - 1) (cells l) (cells r) then Ok (mkArr DFloat64 (promoted op (cells l) (cells r)))
      else Ok (mkArr DUInt64 raw)
  | Subtract =>
      if existsb (λ p, match p with (Some (CScalar a), Some (CScalar b)) => bool_decide (int_of a < int_of b)%Z | _ => false end) (zip (cells l) (cells r)) then Err Query
      else let* raw := checked_cells Z.sub 0 (2 ^ 64 - 1) AUInt64 (cells l) (cells r) in Ok (mkArr DUInt64 raw)
  | Divide => Ok (mkArr DFloat64 (cellwise (λ a b, if decide (b = 0)%Z then None else Some (AFloat64 (float_op Divide (int_as_f64 a) (int_as_f64 b)))) (cells l) (cells r)))
  | Modulo => Ok (mkArr DUInt64 (cellwise (λ a b, if decide (b = 0)%Z then None else Some (AUInt64 (a mod b)%Z)) (cells l) (cells r)))
  end.
Definition float_bits (c : option Cell) : option Z := match c with Some (CScalar (AFloat64 b)) => Some b | _ => None end.
Definition evaluate_arith (l r : Arr) (op : ArithmeticOperator) : outcome Arr :=
  if decide (arr_type l = DInt64 ∧ arr_type r = DInt64) then evaluate_arith_int64 l r op
  else if decide (arr_type l = DUInt64 ∧ arr_type r = DUInt64) then evaluate_arith_uint64 l r op
  else
    let* lf := cast DFloat64 l in
    let* rf := cast DFloat64 r in
    Ok (mkArr DFloat64 (zip_with (λ a b, match float_bits a, float_bits b with Some x, Some y => Some (CScalar (AFloat64 (float_op op x y))) | _, _ => None end) (cells lf) (cells rf))).

(** ** Comparisons *)

Definition evaluate_comparison (l r : Arr) (op : ComparisonOperator) : outcome Arr :=
  let common := if decide (arr_type l = arr_type r) then arr_type l else if is_int_type (arr_type l) && is_int_type (arr_type r) then DInt64 else DFloat64 in
  let* a := cast common l in
  let* b := cast common r in
  cmp_kernel op a b.
Definition eq_only (op : ComparisonOperator) (o : outcome Arr) : option (outcome Arr) := match op with Equal | NotEqual => Some o | _ => None end.
(** The fast path of a column against a literal. *)
Definition compare_column_literal (col : Arr) (lit : Literal) (op : ComparisonOperator) : option (outcome Arr) :=
  match lit, arr_type col with
  | LitInteger n, DInt64 => Some (cmp_scalar op col (AInt64 n))
  | LitInteger n, DUInt64 =>
      if decide (n < 0)%Z then
        Some (Ok (booleans (replicate (length (cells col)) (Some (match op with Equal | GreaterThan | GreaterThanOrEqual => false | _ => true end)))))
      else Some (cmp_scalar op col (AUInt64 n))
  | LitNumber n, DInt64 | LitNumber n, DUInt64 => Some (let* f := cast DFloat64 col in cmp_scalar op f (AFloat64 n))
  | LitNumber n, DFloat64 => Some (cmp_scalar op col (AFloat64 n))
  | LitString s, DUtf8 => eq_only op (cmp_scalar op col (AUtf8 (bytes_of s)))
  | LitBoolean b, DBoolean => eq_only op (let* f := cast DFloat64 col in cmp_scalar op f (AFloat64 (if b then f64_one else 0%Z)))
  | LitBoolean b, DInt64 => eq_only op (cmp_scalar op col (AInt64 (Z.b2z b)))
  | LitBoolean b, DFloat64 => eq_only op (cmp_scalar op col (AFloat64 (if b then f64_one else 0%Z)))
  | _, _ => None
  end.
Definition swap_op (op : ComparisonOperator) : ComparisonOperator :=
  match op with
  | Equal => Equal | NotEqual => NotEqual
  | LessThan => GreaterThan | LessThanOrEqual => GreaterThanOrEqual | GreaterThan => LessThan | GreaterThanOrEqual => LessThanOrEqual
  end.

(** ** Logic *)

Definition bool_cells (a : Arr) : list (option bool) := map (λ c, match c with Some (CScalar (ABoolean b)) => Some b | _ => None end) (cells a).
(** [and], [or], [not]: null if an operand is null. *)
Definition and_kernel (l r : list (option bool)) : list (option bool) := zip_with (λ a b, match a, b with Some a, Some b => Some (a && b) | _, _ => None end) l r.
Definition or_kernel (l r : list (option bool)) : list (option bool) := zip_with (λ a b, match a, b with Some a, Some b => Some (a || b) | _, _ => None end) l r.
Definition not_kernel (l : list (option bool)) : list (option bool) := map (fmap negb) l.
Definition any_true_or_null (l : list (option bool)) : bool := existsb (λ c, match c with Some b => b | None => true end) l.

(** ** CASE and lists *)

(** The first WHEN whose condition is true in row [i]. *)
Fixpoint pick_branch (masks : list Arr) (i j : nat) : outcome (option nat) :=
  match masks with
  | [] => Ok None
  | m :: masks =>
      if decide (arr_type m = DBoolean) then
        match bool_cells m !! i with Some (Some true) => Ok (Some j) | _ => pick_branch masks i (j + 1) end
      else Err Internal
  end.
(** [interleave]: sources of one type. *)
Definition interleave (sources : list Arr) (indices : list (nat * nat)) : outcome Arr :=
  match sources with
  | [] => Err Internal
  | s :: _ =>
      if forallb (λ a, bool_decide (arr_type a = arr_type s)) sources
      then Ok (mkArr (arr_type s) (map (λ p, mjoin ((λ a, mjoin (cells a !! snd p)) <$> sources !! fst p)) indices)) else Err Internal
  end.
Fixpoint pick_rows (masks : list Arr) (else_idx : nat) (rows : list nat) : outcome (list (nat * nat)) :=
  match rows with
  | [] => Ok []
  | i :: rows => let* j := pick_branch masks i 0 in let* rest := pick_rows masks else_idx rows in Ok ((default else_idx j, i) :: rest)
  end.
Fixpoint case_masks (case_val : option Arr) (whens : list Arr) : outcome (list Arr) :=
  match whens with
  | [] => Ok []
  | w :: whens => let* m := match case_val with Some cv => cmp_kernel Equal cv w | None => Ok w end in let* rest := case_masks case_val whens in Ok (m :: rest)
  end.

(** A list literal: the element arrays one after the other, cut into runs. *)
Definition scalar_of (c : option Cell) : option Scalar := match c with Some (CScalar s) => Some s | _ => None end.
Fixpoint cut (k n : nat) (l : list (option Scalar)) : list (option Cell) :=
  match n with O => [] | S n => Some (CList (take k l)) :: cut k n (drop k l) end.
Definition list_array (t : LogicalType) (arrays : list Arr) (num_rows : nat) : outcome Arr :=
  let item := logical_type_to_arrow_type (match t with TList inner => inner | _ => t end) in
  match arrays with
  | [] => Ok (mkArr (DList DNull) (replicate num_rows (Some (CList []))))
  | a :: _ =>
      if forallb (λ x, bool_decide (arr_type x = arr_type a)) arrays && bool_decide (arr_type a = item)
      then Ok (mkArr (DList item) (cut (length arrays) num_rows (concat (map (λ x, map scalar_of (cells x)) arrays)))) else Err Internal
  end.

(** ** Expressions *)

Context (index_of : string → option nat) (params : gmap string Value).
(** Functions, subqueries, struct fields and maps. *)
Context (evaluate_other : BoundExpression → option RecordBatch → nat → outcome Arr).

Definition literal_array (l : Literal) (n : nat) : Arr :=
  match l with
  | LitInteger z => scalars DInt64 (replicate n (Some (AInt64 z)))
  | LitNumber b => scalars DFloat64 (replicate n (Some (AFloat64 b)))
  | LitString s => scalars DUtf8 (replicate n (Some (AUtf8 (bytes_of s))))
  | LitBoolean b => booleans (replicate n (Some b))
  | LitNull => null_array DFloat64 n
  end.
(** The elements of a list parameter: the type is that of the first one. *)
Definition value_scalar_dtype (v : Value) : DataType :=
  match v with
  | VNumber _ => DFloat64
  | VString _ => DUtf8
  | VBoolean _ => DBoolean
  | VDate _ => DDate32
  | VTimestamp _ => DTimestamp
  | _ => DNull
  end.
Definition scalar_array_from_value (v : Value) (t : DataType) : outcome Arr :=
  match v with
  | VNumber b => Ok (scalars DFloat64 [Some (AFloat64 b)])
  | VString s => Ok (scalars DUtf8 [Some (AUtf8 s)])
  | VBoolean b => Ok (booleans [Some b])
  | VNull => Ok (null_array t 1)
  | _ => Err Internal
  end.
Fixpoint element_arrays (t : DataType) (items : list Value) : outcome (list Arr) :=
  match items with
  | [] => Ok []
  | v :: items => let* a := scalar_array_from_value v t in let* rest := element_arrays t items in Ok (a :: rest)
  end.
(** [ListArray::try_new] refuses offsets beyond the values, and here the values are
    those of one row while every row takes [length items] of them. *)
Definition list_parameter (items : list Value) (n : nat) : outcome Arr :=
  match items with
  | [] => Ok (mkArr (DList DNull) (replicate n (Some (CList []))))
  | v :: _ =>
      let t := value_scalar_dtype v in
      let* arrs := element_arrays t items in
      if forallb (λ a, bool_decide (arr_type a = t)) arrs then
        let values := concat (map (λ a, map scalar_of (cells a)) arrs) in
        if n * length items <=? length values then Ok (mkArr (DList t) (cut (length items) n values)) else Err Internal
      else Err Internal
  end.
Definition parameter_array (v : Value) (n : nat) : outcome Arr :=
  match v with
  | VNumber b => Ok (scalars DFloat64 (replicate n (Some (AFloat64 b))))
  | VString s => Ok (scalars DUtf8 (replicate n (Some (AUtf8 s))))
  | VBoolean b => Ok (booleans (replicate n (Some b)))
  | VNull => Ok (null_array DFloat64 n)
  | VList items => list_parameter items n
  | _ => Err Internal
  end.
Definition column_or (b : option RecordBatch) (i : nat) : outcome Arr :=
  match b ≫= λ b, batch_column b i with Some a => Ok a | None => Err Internal end.
(** The two fast paths: a column against a literal, a literal against a column. *)
Definition fast_comparison (l : BoundExpression) (op : ComparisonOperator) (r : BoundExpression) (b : option RecordBatch) : option (outcome Arr) :=
  match l, r with
  | EPropertyLookup _ i _, ELiteral lit => col ← b ≫= λ b, batch_column b i; compare_column_literal col lit op
  | ELiteral lit, EPropertyLookup _ i _ => col ← b ≫= λ b, batch_column b i; compare_column_literal col lit (swap_op op)
  | _, _ => None
  end.

Fixpoint evaluate (e : BoundExpression) (batch : option RecordBatch) (num_rows : nat) : outcome Arr :=
  match e with
  | ELiteral l => Ok (literal_array l num_rows)
  | EPropertyLookup _ i _ => column_or batch i
  | EVariable name _ => match index_of name with Some i => column_or batch i | None => Err Internal end
  | EComparison l op r =>
      match fast_comparison l op r batch with
      | Some res => res
      | None =>
          let* a := evaluate l batch num_rows in
          let* b := evaluate r batch num_rows in
          evaluate_comparison a b op
      end
  | EArithmetic l op r =>
      let* a := evaluate l batch num_rows in
      let* b := evaluate r batch num_rows in
      evaluate_arith a b op
  | ELogical l op r =>
      let* a := outcome_bind (evaluate l batch num_rows) (cast DBoolean) in
      let lb := bool_cells a in
      match op with
      | And =>
          if any_true_or_null lb then
            let* b := outcome_bind (evaluate r batch num_rows) (cast DBoolean) in Ok (booleans (and_kernel lb (bool_cells b)))
          else Ok (booleans lb)
      | Xor =>
          let* b := outcome_bind (evaluate r batch num_rows) (cast DBoolean) in
          let rb := bool_cells b in
          Ok (booleans (or_kernel (and_kernel lb (not_kernel rb)) (and_kernel (not_kernel lb) rb)))
      | _ => let* b := outcome_bind (evaluate r batch num_rows) (cast DBoolean) in Ok (booleans (or_kernel lb (bool_cells b)))
      end
  | ENot e => let* a := outcome_bind (evaluate e batch num_rows) (cast DBoolean) in Ok (booleans (not_kernel (bool_cells a)))
  | EList items t =>
      let* arrays := (fix go (l : list BoundExpression) : outcome (list Arr) :=
        match l with [] => Ok [] | e :: l => let* a := evaluate e batch num_rows in let* rest := go l in Ok (a :: rest) end) items in
      list_array t arrays num_rows
  | ECase x when_then y _ =>
      let num_rows := match batch with Some b => Operators.num_rows b | None => 1 end in
      let else_arr := match y with Some e => let* a := evaluate e batch num_rows in Ok (Some a) | None => Ok None end in
      match when_then with
      | [] => let* a := else_arr in Ok (default (null_array DNull num_rows) a)
      | _ =>
          let* case_val := match x with Some e => let* a := evaluate e batch num_rows in Ok (Some a) | None => Ok None end in
          let* evaluated := (fix go (l : list (BoundExpression * BoundExpression)) : outcome (list (Arr * Arr)) :=
            match l with
            | [] => Ok []
            | (w, t) :: l => let* a := evaluate w batch num_rows in let* b := evaluate t batch num_rows in let* rest := go l in Ok ((a, b) :: rest)
            end) when_then in
          let* e := else_arr in
          let* masks := case_masks case_val (map fst evaluated) in
          let thens := map snd evaluated in
          let sources := thens ++ [default (null_array (match thens with a :: _ => arr_type a | [] => DNull end) num_rows) e] in
          let* indices := pick_rows masks (length thens) (seq 0 num_rows) in
          interleave sources indices
      end
  | EParameter name =>
      match params !! name with
      | Some v => parameter_array v num_rows
      | None => Err Query
      end
  | _ => evaluate_other e batch num_rows
  end.

(** The condition of a filter (filter.rs): [as_boolean] panics on another type. *)
Definition evaluate_mask (e : BoundExpression) (b : RecordBatch) : outcome (list (option bool)) :=
  let* a := evaluate e (Some b) (num_rows b) in
  if decide (arr_type a = DBoolean) then Ok (bool_cells a) else Panic.
End evaluate.
