(* ===== verification/EvaluatorSpec.v ===== *)
(** * What expression evaluation computes (processor/evaluator.rs)

    Integer arithmetic is exact or fails, comparisons of integer columns with
    literals are the mathematical ones, and a filter on a conjunction of them keeps
    exactly the rows that satisfy it.  With OR, NOT and list literals the answer of
    a row depends on nulls and on the other rows of its batch. *)
From stdpp Require Import base list gmap strings numbers.
From Stdlib Require Import ZArith Lia Bool.
From S2P Require Import Prelude Codec Alp Stats Column ColumnScan Operators OperatorsSpec LogicalPlan Optimizer Evaluator.
Open Scope nat_scope.

(** ** Integer arithmetic *)

Definition in_i64 (z : Z) : Prop := (i64_MIN ≤ z ≤ i64_MAX)%Z.
#[global] Instance in_i64_dec z : Decision (in_i64 z).
Proof. unfold in_i64. apply _. Defined.
Definition ints (l : list (option Z)) : Arr := scalars DInt64 (map (fmap AInt64) l).
(** The result of one row: null for a zero divisor and for [i64::MIN] divided by -1
    or taken modulo -1, the integer otherwise. *)
Definition exact (op : ArithmeticOperator) (a b : Z) : option Z :=
  match op with
  | Add => Some (a + b)%Z
  | Subtract => Some (a - b)%Z
  | Multiply => Some (a * b)%Z
  | Divide => if decide (b = 0 ∨ a = i64_MIN ∧ b = -1)%Z then None else Some (Z.quot a b)
  | Modulo => if decide (b = 0 ∨ a = i64_MIN ∧ b = -1)%Z then None else Some (Z.rem a b)
  end.
Definition exact_cells (op : ArithmeticOperator) (xs ys : list (option Z)) : list (option Z) :=
  zip_with (λ a b, a ≫= λ a, b ≫= λ b, exact op a b) xs ys.

Lemma cells_ints l : cells (ints l) = map (fmap (CScalar ∘ AInt64)) l.
Proof. unfold ints, scalars. cbn [cells]. rewrite map_map. apply map_ext. by intros []. Qed.
Lemma ints_cells l : ints l = mkArr DInt64 (map (fmap (CScalar ∘ AInt64)) l).
Proof. unfold ints, scalars. f_equal. rewrite map_map. apply map_ext. by intros []. Qed.
Lemma quotient_range f a b z : in_i64 a → in_i64 b → f = Z.quot ∨ f = Z.rem → i64_quotient f a b = Some z → in_i64 z.
Proof.
  unfold i64_quotient, in_i64. intros Ha Hb Hf H. case_decide as Hd; [done|]. simplify_eq. unfold i64_MIN, i64_MAX in *.
  assert (b ≠ 0)%Z by tauto. pose proof (Z.quot_rem' a b). pose proof (Z.rem_bound_abs a b ltac:(done)). destruct Hf as [-> | ->]; [|lia].
  assert (Z.abs b = 1 ∨ 2 ≤ Z.abs b)%Z as [Hb1|Hb2] by lia.
  - assert (b = 1 ∨ b = -1)%Z as [-> | ->] by lia; lia.
  - assert (2 * Z.abs (a ÷ b) ≤ Z.abs a)%Z; [|lia]. rewrite <- Z.quot_abs by done. transitivity (Z.abs b * (Z.abs a ÷ Z.abs b))%Z; [|apply Z.mul_quot_le; lia].
    pose proof (Z.quot_pos (Z.abs a) (Z.abs b) ltac:(lia) ltac:(lia)). nia.
Qed.

(** Every pair has a result in range. *)
Definition all_fit (f : Z → Z → Z) (xs ys : list (option Z)) : bool :=
  forallb (λ p, match p with (Some a, Some b) => bool_decide (in_i64 (f a b)) | _ => true end) (zip xs ys).
Lemma all_fit_cells f xs ys :
  forallb (λ p, match p with (Some (CScalar a), Some (CScalar b)) => bool_decide (i64_MIN ≤ f (int_of a) (int_of b) ≤ i64_MAX)%Z | _ => true end) (zip (cells (ints xs)) (cells (ints ys))) = all_fit f xs ys.
Proof. rewrite !cells_ints. unfold all_fit. revert ys. induction xs as [|[x|] xs IH]; intros [|[y|] ys]; try done; cbn; by rewrite IH. Qed.
Lemma overflow_cells f xs ys : has_overflow f i64_MIN i64_MAX (cells (ints xs)) (cells (ints ys)) = negb (all_fit f xs ys).
Proof.
  rewrite !cells_ints. unfold has_overflow, all_fit. revert ys. induction xs as [|[x|] xs IH]; intros [|[y|] ys]; try done; cbn; rewrite IH; try done.
  rewrite negb_andb. f_equal. unfold in_i64. by repeat case_bool_decide.
Qed.
Lemma fit_range f xs ys : all_fit f xs ys = true → Forall (λ o, from_option in_i64 True o) (zip_with (λ a b, a ≫= λ a, b ≫= λ b, Some (f a b)) xs ys).
Proof.
  unfold all_fit. revert ys. induction xs as [|[x|] xs IH]; intros [|[y|] ys]; try done; cbn; intros H; try (by constructor; [done|by apply IH]).
  apply andb_true_iff in H as [H1%bool_decide_eq_true H2]. constructor; [done|by apply IH].
Qed.
Lemma fits_all f xs ys : (∀ i a b, xs !! i = Some (Some a) → ys !! i = Some (Some b) → in_i64 (f a b)) → all_fit f xs ys = true.
Proof.
  intros H. unfold all_fit. revert ys H. induction xs as [|x xs IH]; intros [|y ys] H; try done. cbn. apply andb_true_iff. split.
  - destruct x as [x|], y as [y|]; try done. apply bool_decide_eq_true. by apply (H 0).
  - apply IH. intros i a b Ha Hb. by apply (H (S i)).
Qed.
Lemma all_fit_row f xs ys i a b : all_fit f xs ys = true → xs !! i = Some (Some a) → ys !! i = Some (Some b) → in_i64 (f a b).
Proof.
  unfold all_fit. intros H. revert ys i H. induction xs as [|x xs IH]; intros [|y ys] i H Ha Hb; try done. cbn in H. apply andb_true_iff in H as [H1 H2].
  destruct i as [|i]; cbn in Ha, Hb; simplify_eq; [by apply bool_decide_eq_true in H1|by eapply IH].
Qed.
Lemma misfit f xs ys : all_fit f xs ys = false → ∃ i a b, xs !! i = Some (Some a) ∧ ys !! i = Some (Some b) ∧ ¬ in_i64 (f a b).
Proof.
  unfold all_fit. revert ys. induction xs as [|x xs IH]; intros [|y ys]; try done. cbn. intros [H|H]%andb_false_iff.
  - destruct x as [x|], y as [y|]; try done. exists 0, x, y. by apply bool_decide_eq_false in H.
  - destruct (IH ys H) as (i & a & b & ? & ? & ?). by exists (S i), a, b.
Qed.

(** C20. Arithmetic on two INT64 columns (evaluate_arith_int64).  If the sum,
    difference or product of every row without a null is a 64-bit integer, and for a
    division or remainder always, the result is an INT64 column that is exact: every
    cell is the mathematical result, truncated towards zero for a division, and null
    when an operand is null, when the divisor is zero, and for [i64::MIN] by -1
    (division and remainder).  If some row's sum, difference or product is out of
    range, the whole expression fails, because the arithmetic kernels called first
    return an error on overflow; the promotion to doubles that follows them in the
    code, and that its comment announces, is not reached. *)
Theorem int64_arith_exact (f64_rem : Z → Z → Z) (op : ArithmeticOperator) (xs ys : list (option Z)) :
  Forall (λ o, from_option in_i64 True o) xs → Forall (λ o, from_option in_i64 True o) ys →
  ((∀ i a b, op = Add ∨ op = Subtract ∨ op = Multiply → xs !! i = Some (Some a) → ys !! i = Some (Some b) → in_i64 (op_fun op a b)) →
   evaluate_arith_int64 f64_rem (ints xs) (ints ys) op = Ok (ints (exact_cells op xs ys)) ∧ Forall (λ o, from_option in_i64 True o) (exact_cells op xs ys)) ∧
  (∀ i a b, op = Add ∨ op = Subtract ∨ op = Multiply → xs !! i = Some (Some a) → ys !! i = Some (Some b) → ¬ in_i64 (op_fun op a b) →
   evaluate_arith_int64 f64_rem (ints xs) (ints ys) op = Err Internal).
Proof.
  intros Hx Hy. destruct (decide (op = Divide ∨ op = Modulo)) as [Hop|Hop].
  - split; [intros _|intros i a b [->|[->| ->]]; by destruct Hop].
    assert (evaluate_arith_int64 f64_rem (ints xs) (ints ys) op = Ok (mkArr DInt64 (cellwise (λ a b, AInt64 <$> i64_quotient (op_fun op) a b) (cells (ints xs)) (cells (ints ys))))) as -> by (by destruct Hop as [-> | ->]).
    assert (exact_cells op xs ys = zip_with (λ a b, a ≫= λ a, b ≫= λ b, i64_quotient (op_fun op) a b) xs ys) as -> by (by destruct Hop as [-> | ->]).
    assert (op_fun op = Z.quot ∨ op_fun op = Z.rem) as Hf by (destruct Hop as [-> | ->]; cbn; tauto). split.
    + rewrite (ints_cells (zip_with _ _ _)). do 2 f_equal. rewrite !cells_ints. clear. revert ys. induction xs as [|[x|] xs IH]; intros [|[y|] ys]; try done; cbn; apply (f_equal2 cons); try apply IH; try done. by destruct (i64_quotient _ _ _).
    + clear Hop. revert ys Hy. induction Hx as [|x xs Hx _ IH]; intros ys [|y ys' Hy Hys]; try (by constructor). cbn. constructor; [|by apply IH].
      destruct x as [x|], y as [y|]; try done. cbn. destruct (i64_quotient (op_fun op) x y) eqn:E; [|done]. exact (quotient_range _ _ _ _ Hx Hy Hf E).
  - assert (exact_cells op xs ys = zip_with (λ a b, a ≫= λ a, b ≫= λ b, Some (op_fun op a b)) xs ys) as -> by (destruct op; try done; tauto).
    assert (evaluate_arith_int64 f64_rem (ints xs) (ints ys) op = if all_fit (op_fun op) xs ys then Ok (ints (zip_with (λ a b, a ≫= λ a, b ≫= λ b, Some (op_fun op a b)) xs ys)) else Err Internal) as ->.
    { transitivity (let* raw := checked_cells (op_fun op) i64_MIN i64_MAX AInt64 (cells (ints xs)) (cells (ints ys)) in
        if has_overflow (op_fun op) i64_MIN i64_MAX (cells (ints xs)) (cells (ints ys)) then Ok (mkArr DFloat64 (promoted f64_rem op (cells (ints xs)) (cells (ints ys)))) else Ok (mkArr DInt64 raw)).
      { destruct op; try done; tauto. }
      unfold checked_cells. rewrite all_fit_cells, overflow_cells. destruct (all_fit _ _ _); [|done]. cbn [negb outcome_bind]. rewrite (ints_cells (zip_with _ _ _)). do 2 f_equal.
      rewrite !cells_ints. clear. revert ys. induction xs as [|[x|] xs IH]; intros [|[y|] ys]; try done; cbn; apply (f_equal2 cons); try apply IH; done. }
    split.
    + intros Hfit. rewrite fits_all; [split; [done|]; by apply fit_range, fits_all; intros i a b; apply Hfit; destruct op; tauto|]. intros i a b. apply Hfit. destruct op; tauto.
    + intros i a b _ Ha Hb Hno. destruct (all_fit (op_fun op) xs ys) eqn:E; [|done]. destruct Hno. by eapply all_fit_row.
Qed.

(** ** Comparisons with integer literals *)

Lemma bool_cells_booleans l : bool_cells (booleans l) = l.
Proof. unfold bool_cells, booleans, scalars. cbn [cells]. rewrite !map_map. transitivity (map id l); [|apply map_id]. apply map_ext. by intros []. Qed.
Lemma cast_booleans cast_other l : cast cast_other DBoolean (booleans l) = Ok (booleans l).
Proof. reflexivity. Qed.

(** A column of 64-bit integers, and its value in a row. *)
Definition int_cell (c : option Scalar) : Prop := match c with Some (AInt64 _) | None => True | _ => False end.
Definition int_at (i : nat) (r : Row) : option Z := match mjoin (r !! i) with Some (AInt64 z) => Some z | _ => None end.
Definition int_column (i : nat) (b : RecordBatch) : Prop := schema b !! i = Some DInt64 ∧ Forall (λ r : Row, int_cell (mjoin (r !! i))) (rows b).
Lemma int_column_cells i b : int_column i b → batch_column b i = Some (ints (map (int_at i) (rows b))).
Proof.
  intros [Hs Hc]. unfold batch_column. rewrite Hs. cbn. f_equal. unfold ints. f_equal. rewrite map_map. induction Hc as [|r l Hr _ IH]; [done|]. cbn. rewrite IH. f_equal.
  unfold int_at. destruct (mjoin (r !! i)) as [[]|]; done.
Qed.
Definition compare_cells (op : ComparisonOperator) (n : Z) (l : list (option Z)) : list (option bool) := map (fmap (λ z, op_holds op (z ?= n)%Z)) l.
Lemma compare_ints cast_other op n l : compare_column_literal cast_other (ints l) (LitInteger n) op = Some (Ok (booleans (compare_cells op n l))).
Proof.
  unfold compare_column_literal. cbn [arr_type ints scalars]. unfold cmp_scalar. do 3 f_equal. fold (ints l). rewrite cells_ints, map_map. apply map_ext. by intros [].
Qed.
Lemma swap_holds op a b : op_holds (swap_op op) (a ?= b)%Z = op_holds op (b ?= a)%Z.
Proof. rewrite (Z.compare_antisym a b). by destruct op, (a ?= b)%Z. Qed.

Section filters.
Context (cast_other : DataType → Arr → outcome Arr) (f64_rem : Z → Z → Z) (index_of : string → option nat) (params : gmap string Value).
Context (evaluate_other : BoundExpression → option RecordBatch → nat → outcome Arr).
Local Abbreviation eval := (evaluate cast_other f64_rem index_of params evaluate_other).
Local Abbreviation mask := (evaluate_mask cast_other f64_rem index_of params evaluate_other).

(** A condition on a batch: what it computes, null counting as false. *)
Definition tells (e : BoundExpression) (q : Row → bool) (b : RecordBatch) : Prop :=
  ∃ m, eval e (Some b) (num_rows b) = Ok (booleans m) ∧ map (default false) m = map q (rows b).
Lemma tells_mask e q b : tells e q b → mask_ok (mask e) q b.
Proof. intros (m & Hm & Hq). exists m. split; [|done]. unfold evaluate_mask. rewrite Hm. cbn [outcome_bind]. rewrite decide_True by done. by rewrite bool_cells_booleans. Qed.

Lemma and_default xs ys : length xs = length ys → map (default false) (and_kernel xs ys) = zip_with andb (map (default false) xs) (map (default false) ys).
Proof. revert ys. induction xs as [|[[]|] xs IH]; intros [|[[]|] ys] Hl; try done; injection Hl as Hl; cbn; f_equal; by apply IH. Qed.
Lemma no_true_default xs (ys : list bool) : length xs = length ys → any_true_or_null xs = false → map (default false) xs = zip_with andb (map (default false) xs) ys.
Proof. revert ys. induction xs as [|[[]|] xs IH]; intros [|y ys] Hl Hn; try done; injection Hl as Hl; cbn in *; f_equal; by apply IH. Qed.
Lemma zip_with_map_map {A B C} (f : A → B → C) {X} (g : X → A) (h : X → B) l : zip_with f (map g l) (map h l) = map (λ x, f (g x) (h x)) l.
Proof. induction l as [|x l IH]; [done|]. cbn. by rewrite IH. Qed.

Lemma tells_and a c qa qc b : tells a qa b → tells c qc b → tells (ELogical a And c) (λ r, qa r && qc r) b.
Proof.
  intros (xs & Ha & Hxs) (ys & Hc & Hys). assert (length xs = length ys) as Hlen.
  { apply (f_equal length) in Hxs, Hys. rewrite !length_map in Hxs, Hys. congruence. }
  unfold tells. cbn [evaluate]. rewrite Ha. cbn [outcome_bind]. rewrite cast_booleans. cbn [outcome_bind]. rewrite bool_cells_booleans.
  destruct (any_true_or_null xs) eqn:E.
  - rewrite Hc. cbn [outcome_bind]. rewrite cast_booleans. cbn [outcome_bind]. rewrite bool_cells_booleans. eexists. split; [done|].
    by rewrite and_default, Hxs, Hys, zip_with_map_map by done.
  - eexists. split; [done|]. rewrite (no_true_default xs (map (default false) ys)) by (rewrite ?length_map; done). by rewrite Hxs, Hys, zip_with_map_map.
Qed.

(** [v.i op n] *)
Definition cond_expr (v : string) (c : nat * ComparisonOperator * Z) : BoundExpression :=
  let '(i, op, n) := c in EComparison (EPropertyLookup v i TInt64) op (ELiteral (LitInteger n)).
Definition cond_holds (c : nat * ComparisonOperator * Z) (r : Row) : bool :=
  let '(i, op, n) := c in match int_at i r with Some z => op_holds op (z ?= n)%Z | None => false end.
Lemma tells_cond v c b : int_column (fst (fst c)) b → tells (cond_expr v c) (cond_holds c) b.
Proof.
  destruct c as [[i op] n]. cbn [fst]. intros Hc. exists (compare_cells op n (map (int_at i) (rows b))). split.
  - cbn [cond_expr evaluate fast_comparison mbind option_bind]. rewrite int_column_cells by done. cbn [mbind option_bind]. by rewrite compare_ints.
  - unfold compare_cells. rewrite !map_map. apply map_ext. intros r. cbn [cond_holds]. by destruct (int_at i r).
Qed.
Lemma tells_conds v c cs b : Forall (λ c, int_column (fst (fst c)) b) (c :: cs) →
  tells (foldl conjoin (cond_expr v c) (map (cond_expr v) cs)) (λ r, forallb (λ c, cond_holds c r) (c :: cs)) b.
Proof.
  intros [Hc Hcs]%list.Forall_cons. assert (∀ e q, tells e q b → tells (foldl conjoin e (map (cond_expr v) cs)) (λ r, q r && forallb (λ c, cond_holds c r) cs) b) as H; [|by apply H, tells_cond].
  induction Hcs as [|c' cs Hc' Hcs IH]; intros e q He; cbn [map foldl forallb].
  - destruct He as (m & Hm & Hq). exists m. split; [done|]. rewrite Hq. apply map_ext. intros r. by rewrite andb_true_r.
  - destruct (IH (conjoin e (cond_expr v c')) (λ r, q r && cond_holds c' r)) as (m & Hm & Hq); [by apply tells_and, tells_cond|].
    exists m. split; [done|]. rewrite Hq. apply map_ext. intros r. by rewrite andb_assoc.
Qed.

(** What a condition gives for every row, null included. *)
Definition gives (e : BoundExpression) (q : Row → option bool) (b : RecordBatch) : Prop := eval e (Some b) (num_rows b) = Ok (booleans (map q (rows b))).
Definition cond_value (c : nat * ComparisonOperator * Z) (r : Row) : option bool :=
  let '(i, op, n) := c in (λ z, op_holds op (z ?= n)%Z) <$> int_at i r.
Definition or_null (a b : option bool) : option bool := match a, b with Some a, Some b => Some (a || b) | _, _ => None end.
Definition disjoin (a c : BoundExpression) : BoundExpression := ELogical a Or c.

Lemma gives_cond v c b : int_column (fst (fst c)) b → gives (cond_expr v c) (cond_value c) b.
Proof.
  destruct c as [[i op] n]. cbn [fst]. intros Hc. unfold gives. cbn [cond_expr evaluate fast_comparison mbind option_bind]. rewrite int_column_cells by done. cbn [mbind option_bind].
  rewrite compare_ints. unfold compare_cells. rewrite map_map. done.
Qed.
Lemma gives_or a c qa qc b : gives a qa b → gives c qc b → gives (disjoin a c) (λ r, or_null (qa r) (qc r)) b.
Proof.
  unfold gives, disjoin. intros Ha Hc. cbn [evaluate]. rewrite Ha. cbn [outcome_bind]. rewrite cast_booleans. cbn [outcome_bind]. rewrite Hc. cbn [outcome_bind]. rewrite cast_booleans. cbn [outcome_bind].
  rewrite !bool_cells_booleans. unfold or_kernel. by rewrite zip_with_map_map.
Qed.
(** A disjunction, for a row: null as soon as one of its operands is. *)
Definition any_holds (cs : list (nat * ComparisonOperator * Z)) (r : Row) : bool :=
  forallb (λ c, bool_decide (is_Some (int_at (fst (fst c)) r))) cs && existsb (λ c, cond_holds c r) cs.
Lemma cond_value_some c r : cond_value c r = if bool_decide (is_Some (int_at (fst (fst c)) r)) then Some (cond_holds c r) else None.
Proof. destruct c as [[i op] n]. cbn. by destruct (int_at i r). Qed.
Lemma gives_disjunction v c cs b : Forall (λ c, int_column (fst (fst c)) b) (c :: cs) →
  ∃ q, gives (foldl disjoin (cond_expr v c) (map (cond_expr v) cs)) q b ∧ ∀ r, default false (q r) = any_holds (c :: cs) r.
Proof.
  intros [Hc Hcs]%list.Forall_cons.
  assert (∀ e q, gives e q b → ∃ q', gives (foldl disjoin e (map (cond_expr v) cs)) q' b ∧ ∀ r, q' r = foldl or_null (q r) (map (λ c, cond_value c r) cs)) as H.
  { induction Hcs as [|c' cs Hc' Hcs IH]; intros e q He; [by exists q|]. cbn [map foldl]. apply (IH (disjoin e (cond_expr v c')) (λ r, or_null (q r) (cond_value c' r))). by apply gives_or, gives_cond. }
  destruct (H (cond_expr v c) (cond_value c) (gives_cond v c b Hc)) as (q & Hq & Er). exists q. split; [done|]. intros r. rewrite Er. unfold any_holds. clear.
  assert (∀ o, foldl or_null o (map (λ c, cond_value c r) cs) = match o with Some x => if forallb (λ c, bool_decide (is_Some (int_at (fst (fst c)) r))) cs then Some (x || existsb (λ c, cond_holds c r) cs) else None | None => None end) as Hf.
  { induction cs as [|c' cs IH]; intros [x|]; cbn [map foldl forallb existsb]; try done; [by rewrite orb_false_r| |].
    - rewrite IH, cond_value_some. case_bool_decide; [|done]. cbn. rewrite orb_assoc. done.
    - rewrite IH. done. }
  rewrite Hf, cond_value_some. cbn [forallb existsb]. case_bool_decide; [|done]. cbn. by destruct (forallb _ cs).
Qed.
End filters.

(** C19. WHERE with a conjunction of integer comparisons is exact: the filter
    operator (filter.rs) over the evaluator hands out exactly the rows in which
    every compared column is not null and stands in the written relation to its
    literal, however the rows are cut into batches and although the AND of a batch
    is sometimes answered by its left side alone. *)
Theorem where_conjunction_rows (cast_other : DataType → Arr → outcome Arr) (f64_rem : Z → Z → Z) (index_of : string → option nat) (params : gmap string Value)
    (evaluate_other : BoundExpression → option RecordBatch → nat → outcome Arr) (v : string) (c : nat * ComparisonOperator * Z) (cs : list (nat * ComparisonOperator * Z))
    (bs : list RecordBatch) :
  Forall (λ b, Forall (λ c, int_column (fst (fst c)) b) (c :: cs)) bs →
  ∃ out, produces (filter_next (evaluate_mask cast_other f64_rem index_of params evaluate_other (foldl conjoin (cond_expr v c) (map (cond_expr v) cs)))) (map Ok bs) out ∧
    all_rows out = filter (λ r, forallb (λ c, cond_holds c r) (c :: cs) = true) (all_rows bs).
Proof.
  intros H. apply filter_masks. eapply List.Forall_impl; [|exact H]. intros b Hb. by apply tells_mask, tells_conds.
Qed.

(** C39. WHERE with a disjunction of integer comparisons drops rows with nulls: the
    filter operator hands out, for [c OR c1 OR ...] over any batches of integer
    columns, exactly the rows in which one comparison holds and none of the compared
    columns is null.  A row in which one comparison is true and another compares a
    null, which the three-valued OR keeps, is not handed out. *)
Theorem where_disjunction_rows (cast_other : DataType → Arr → outcome Arr) (f64_rem : Z → Z → Z) (index_of : string → option nat) (params : gmap string Value)
    (evaluate_other : BoundExpression → option RecordBatch → nat → outcome Arr) (v : string) (c : nat * ComparisonOperator * Z) (cs : list (nat * ComparisonOperator * Z))
    (bs : list RecordBatch) :
  Forall (λ b, Forall (λ c, int_column (fst (fst c)) b) (c :: cs)) bs →
  ∃ out, produces (filter_next (evaluate_mask cast_other f64_rem index_of params evaluate_other (foldl disjoin (cond_expr v c) (map (cond_expr v) cs)))) (map Ok bs) out ∧
    all_rows out = filter (λ r, existsb (λ c, cond_holds c r) (c :: cs) = true ∧ Forall (λ c, is_Some (int_at (fst (fst c)) r)) (c :: cs)) (all_rows bs).
Proof.
  intros H. destruct (filter_masks (evaluate_mask cast_other f64_rem index_of params evaluate_other (foldl disjoin (cond_expr v c) (map (cond_expr v) cs))) (any_holds (c :: cs)) bs) as (out & Hp & Ho).
  - eapply List.Forall_impl; [|exact H]. intros b Hb. apply tells_mask. destruct (gives_disjunction cast_other f64_rem index_of params evaluate_other v c cs b Hb) as (q & Hq & Er).
    exists (map q (rows b)). split; [exact Hq|]. rewrite map_map. by apply map_ext.
  - exists out. split; [done|]. rewrite Ho. apply list_filter_iff. intros r. unfold any_holds. rewrite andb_true_iff, forallb_forall, list.Forall_forall. split.
    + intros [H1 H2]. split; [done|]. intros c' Hc'. by eapply bool_decide_eq_true, H1, list_elem_of_In.
    + intros [H1 H2]. split; [|done]. intros c' Hc'. by apply bool_decide_eq_true, H2, list_elem_of_In.
Qed.

(** ** Departures *)

Section departures.
Context (cast_other : DataType → Arr → outcome Arr) (f64_rem : Z → Z → Z) (index_of : string → option nat) (params : gmap string Value).
Context (evaluate_other : BoundExpression → option RecordBatch → nat → outcome Arr).
Local Abbreviation where_ := (λ e, filter_next (evaluate_mask cast_other f64_rem index_of params evaluate_other e)).
Definition lit_eq (i : nat) (n : Z) : BoundExpression := cond_expr "n" (i, Equal, n).

(** The answer for a row depends on the other rows of its batch: under
    [NOT (x = 1 AND y = 2)] the row [x = 0, y = null] is handed out when it is alone
    in its batch and dropped when a row with [x = 1, y = 2] precedes it. *)
Theorem where_depends_on_batch : let e := ENot (ELogical (lit_eq 0 1) And (lit_eq 1 2)) in
  let row := [Some (AInt64 0); None] in let other := [Some (AInt64 1); Some (AInt64 2)] in let b l := mkBatch [DInt64; DInt64] l in
  where_ e [Ok (b [row])] = ([], Ok (Some (b [row]))) ∧ where_ e [Ok (b [other; row])] = ([], Ok None).
Proof. split; reflexivity. Qed.

(** Comparing an unsigned column with a negative literal ignores nulls: a row
    whose column is null satisfies [c <> n] for every negative n. *)
Theorem null_differs_from_negative (n : Z) : (n < 0)%Z → let b := mkBatch [DUInt64] [[None]] in
  where_ (EComparison (EPropertyLookup "n" 0 TUint64) NotEqual (ELiteral (LitInteger n))) [Ok b] = ([], Ok (Some b)).
Proof. intros Hn b. destruct n as [|p|p]; [lia|lia|reflexivity]. Qed.

(** A condition that is null for every row panics: [WHERE null] is evaluated
    to an array of doubles, which the filter unwraps as booleans. *)
Theorem where_null_panics (b : RecordBatch) (rest : Stream) : 0 < num_rows b → where_ (ELiteral LitNull) (Ok b :: rest) = (rest, Panic).
Proof. intros H. cbn [filter_next]. rewrite decide_False by lia. reflexivity. Qed.

(** List literals mix the rows of a batch: for two rows the list [x, y] of the
    first row holds both values of x and that of the second both values of y. *)
Theorem list_literal_mixes_rows (x1 y1 x2 y2 : Z) :
  let b := mkBatch [DInt64; DInt64] [[Some (AInt64 x1); Some (AInt64 y1)]; [Some (AInt64 x2); Some (AInt64 y2)]] in
  evaluate cast_other f64_rem index_of params evaluate_other (EList [EPropertyLookup "n" 0 TInt64; EPropertyLookup "n" 1 TInt64] (TList TInt64)) (Some b) 2 =
    Ok (mkArr (DList DInt64) [Some (CList [Some (AInt64 x1); Some (AInt64 x2)]); Some (CList [Some (AInt64 y1); Some (AInt64 y2)])]).
Proof. reflexivity. Qed.

Lemma number_elements (bits : list Z) :
  element_arrays DFloat64 (map VNumber bits) = Ok (map (λ x, scalars DFloat64 [Some (AFloat64 x)]) bits).
Proof. induction bits as [|x bits IH]; [done|]. cbn [map element_arrays scalar_array_from_value outcome_bind]. by rewrite IH. Qed.
Lemma number_values (bits : list Z) :
  concat (map (λ a, map scalar_of (cells a)) (map (λ x, scalars DFloat64 [Some (AFloat64 x)]) bits)) = map (λ x, Some (AFloat64 x)) bits.
Proof. induction bits as [|x bits IH]; [done|]. cbn. by f_equal. Qed.
Lemma number_parameter (x : Z) (bits : list Z) (n : nat) : list_parameter (map VNumber (x :: bits)) n =
  if n * S (length bits) <=? S (length bits) then Ok (mkArr (DList DFloat64) (cut (S (length bits)) n (map (λ x, Some (AFloat64 x)) (x :: bits)))) else Err Internal.
Proof.
  unfold list_parameter. cbn [map]. change (VNumber x :: map VNumber bits) with (map VNumber (x :: bits)). cbn [value_scalar_dtype].
  rewrite number_elements. cbn [outcome_bind]. rewrite number_values, !length_map.
  assert (forallb (λ a, bool_decide (arr_type a = DFloat64)) (map (λ x, scalars DFloat64 [Some (AFloat64 x)]) (x :: bits)) = true) as ->.
  { apply forallb_forall. by intros a (y & <- & _)%in_map_iff. }
  done.
Qed.

(** A list parameter of numbers is the list in a batch of one row, and an error
    in every larger batch: its values are laid out once while each row refers to
    its own copy. *)
Theorem list_parameter_single_row (x : Z) (bits : list Z) (n : nat) (name : string) (b : option RecordBatch) :
  params !! name = Some (VList (map VNumber (x :: bits))) → 2 ≤ n →
  evaluate cast_other f64_rem index_of params evaluate_other (EParameter name) b 1 = Ok (mkArr (DList DFloat64) [Some (CList (map (λ x, Some (AFloat64 x)) (x :: bits)))]) ∧
  evaluate cast_other f64_rem index_of params evaluate_other (EParameter name) b n = Err Internal.
Proof.
  intros Hp Hn. cbn [evaluate]. rewrite Hp. cbn [parameter_array]. rewrite !number_parameter. split.
  - rewrite (proj2 (Nat.leb_le _ _)) by lia. cbn [cut]. by rewrite take_ge by (by rewrite length_map).
  - by rewrite (proj2 (Nat.leb_gt _ _)) by nia.
Qed.
End departures.

(** ** Examples *)

Definition no_cast (t : DataType) (a : Arr) : outcome Arr := Err Internal.
Definition no_rem (a b : Z) : Z := 0%Z.
Definition no_other (e : BoundExpression) (b : option RecordBatch) (n : nat) : outcome Arr := Err Internal.

(** 7 / -2 = -3, 5 / 0 and null / 3 are null. *)
(** A division with a zero divisor and a null, and a sum out of range. *)
Lemma int64_arith_exact_witness :
  evaluate_arith_int64 no_rem (ints [Some 7; Some 5; None; Some i64_MIN]%Z) (ints [Some (-2); Some 0; Some 3; Some (-1)]%Z) Divide = Ok (ints [Some (-3); None; None; None]%Z) ∧
  evaluate_arith_int64 no_rem (ints [Some 7; Some i64_MAX]%Z) (ints [Some (-2); Some 1]%Z) Add = Err Internal.
Proof.
  split.
  - refine (proj1 (proj1 (int64_arith_exact no_rem Divide [Some 7; Some 5; None; Some i64_MIN]%Z [Some (-2); Some 0; Some 3; Some (-1)]%Z _ _) _)); [repeat constructor; vm_compute; discriminate..|].
    intros i a b [E|[E|E]]; discriminate.
  - refine (proj2 (int64_arith_exact no_rem Add [Some 7; Some i64_MAX]%Z [Some (-2); Some 1]%Z _ _) 1 i64_MAX 1%Z _ eq_refl eq_refl _); [repeat constructor; vm_compute; discriminate..|by left|].
    by apply (bool_decide_unpack _); vm_compute.
Defined.

Definition demo_table : list RecordBatch :=
  [mkBatch [DInt64; DInt64] [[Some (AInt64 1); Some (AInt64 30)]; [Some (AInt64 2); None]]; mkBatch [DInt64; DInt64] [[Some (AInt64 3); Some (AInt64 40)]]].
(** Rows (1, 30), (2, null), (3, 40) under [x = 2 OR y > 35]: the second is dropped. *)
Lemma where_disjunction_rows_witness :
  ∃ out, produces (filter_next (evaluate_mask no_cast no_rem (λ _, None) ∅ no_other (foldl disjoin (cond_expr "n" (0, Equal, 2%Z)) (map (cond_expr "n") [(1, GreaterThan, 35%Z)])))) (map Ok demo_table) out ∧
    all_rows out = [[Some (AInt64 3); Some (AInt64 40)]].
Proof.
  destruct (where_disjunction_rows no_cast no_rem (λ _, None) ∅ no_other "n" (0, Equal, 2%Z) [(1, GreaterThan, 35%Z)] demo_table) as (out & Hp & Ho).
  - repeat constructor.
  - exists out. split; [exact Hp|]. rewrite Ho. reflexivity.
Defined.

Lemma where_conjunction_rows_witness :
  ∃ out, produces (filter_next (evaluate_mask no_cast no_rem (λ _, None) ∅ no_other (foldl conjoin (cond_expr "n" (1, GreaterThan, 20%Z)) (map (cond_expr "n") [(0, NotEqual, 3%Z)])))) (map Ok demo_table) out ∧
    all_rows out = [[Some (AInt64 1); Some (AInt64 30)]].
Proof.
  apply (where_conjunction_rows no_cast no_rem (λ _, None) ∅ no_other "n" (1, GreaterThan, 20%Z) [(0, NotEqual, 3%Z)] demo_table).
  repeat constructor.
Defined.

Lemma null_differs_from_negative_witness : let b := mkBatch [DUInt64] [[None]] in
  filter_next (evaluate_mask no_cast no_rem (λ _, None) ∅ no_other (EComparison (EPropertyLookup "n" 0 TUint64) NotEqual (ELiteral (LitInteger (-1))))) [Ok b] = ([], Ok (Some b)).
Proof. apply (null_differs_from_negative no_cast no_rem (λ _, None) ∅ no_other (-1)%Z). lia. Defined.

Lemma where_null_panics_witness : let b := mkBatch [DInt64] [[None]] in
  filter_next (evaluate_mask no_cast no_rem (λ _, None) ∅ no_other (ELiteral LitNull)) [Ok b] = ([], Panic).
Proof. intros b. apply (where_null_panics no_cast no_rem (λ _, None) ∅ no_other b []). cbn. lia. Defined.

Lemma list_parameter_single_row_witness : let params := {["ids" := VList [VNumber 0; VNumber f64_one]]} : gmap string Value in
  evaluate no_cast no_rem (λ _, None) params no_other (EParameter "ids") None 2 = Err Internal.
Proof. intros params. apply (list_parameter_single_row no_cast no_rem (λ _, None) params no_other 0%Z [f64_one] 2 "ids" None); [reflexivity|lia]. Defined.
