(* ===== verification/Aggregate.v ===== *)
(** * Aggregation (processor/operators/aggregate.rs, processor/functions/aggregate_function.rs, aggregate_ext.rs)

    The accumulators with their four methods, and the operator: without grouping
    columns one set of accumulators, else a hash table from group keys to
    accumulators, which a batch of more than 100000 rows replaces by sorting.  A
    hash table is an association list; the order of its entries is not used.
    Parameters are the Debug and Display forms of values, the sum kernel of doubles,
    and the lexicographic sort of the Arrow library. *)
From stdpp Require Import base list gmap sets numbers sorting.
From Stdlib Require Import ZArith Lia Bool Floats.SpecFloat.
From S2P Require Import Prelude Codec Alp Stats Column ColumnScan Operators LogicalPlan Evaluator.
Open Scope nat_scope.

(** ** Accumulators *)

(** A column: its type and cells. *)
Record Vector := mkVector { vec_type : DataType; vec_cells : list (option Scalar) }.
Definition non_null (l : list (option Scalar)) : list Scalar := omap id l.
Definition null_count (l : list (option Scalar)) : nat := length (filter (λ c, c = None) l).

Record Welford := mkWelford { w_count : Z; w_mean : Z; w_m2 : Z }.
Inductive Acc :=
| FCount (count : Z)
| FCountDistinct (values : gset (list Z))
| FSum (sum int_sum : Z) (is_integer : bool)
| FAvg (sum count : Z)
| FMin (min : option Z)
| FMax (max : option Z)
| FCollect (values : list Value)
| FGroupConcat (values : list (list Z))
| FMedian (values : list Z)
| FCollectDistinct (values : gset (list Z))
| FStdDevPop (w : Welford) | FStdDevSamp (w : Welford) | FVarPop (w : Welford) | FVarSamp (w : Welford).

Definition welford_new : Welford := mkWelford 0 0 0.
Definition acc_new (f : AggregateFunction) : Acc :=
  match f with
  | Count => FCount 0 | CountDistinct => FCountDistinct ∅ | Sum => FSum 0 0 false | Avg => FAvg 0 0
  | Min => FMin None | Max => FMax None | Collect => FCollect [] | GroupConcat => FGroupConcat []
  | Median => FMedian [] | CollectDistinct => FCollectDistinct ∅
  | StdDevPop => FStdDevPop welford_new | StdDevSamp => FStdDevSamp welford_new
  | VarPop => FVarPop welford_new | VarSamp => FVarSamp welford_new
  end.

(** Arithmetic on doubles given by their bits. *)
Definition fadd (a b : Z) : Z := f64_to_bits (SFadd 53 1024 (f64_from_bits a) (f64_from_bits b)).
Definition fsub (a b : Z) : Z := f64_to_bits (SFsub 53 1024 (f64_from_bits a) (f64_from_bits b)).
Definition fmul (a b : Z) : Z := f64_to_bits (SFmul 53 1024 (f64_from_bits a) (f64_from_bits b)).
Definition fdiv (a b : Z) : Z := f64_to_bits (SFdiv 53 1024 (f64_from_bits a) (f64_from_bits b)).
Definition fsqrt (a : Z) : Z := f64_to_bits (SFsqrt 53 1024 (f64_from_bits a)).
Definition f64_two : Z := 4611686018427387904.
Definition fless (a b : Z) : bool := bool_decide (f64_cmp a b = Some Lt).

Definition welford_update (w : Welford) (x : Z) : Welford :=
  let count := (w_count w + 1)%Z in
  let d := fsub x (w_mean w) in
  let mean := fadd (w_mean w) (fdiv d (u64_as_f64 count)) in
  mkWelford count mean (fadd (w_m2 w) (fmul d (fsub x mean))).
Definition welford_merge (w o : Welford) : Welford :=
  let cc := (w_count w + w_count o)%Z in
  if decide (cc = 0)%Z then w
  else
    let d := fsub (w_mean o) (w_mean w) in
    let c1 := u64_as_f64 (w_count w) in
    let c2 := u64_as_f64 (w_count o) in
    mkWelford cc (fdiv (fadd (fmul c1 (w_mean w)) (fmul c2 (w_mean o))) (u64_as_f64 cc))
      (fadd (fadd (w_m2 w) (w_m2 o)) (fdiv (fmul (fmul (fmul d d) c1) c2) (u64_as_f64 cc))).

(** [is_none_or(|m| v < m)] *)
Definition min_update (m : option Z) (v : Z) : option Z := match m with Some m0 => if fless v m0 then Some v else m | None => Some v end.
Definition max_update (m : option Z) (v : Z) : option Z := match m with Some m0 => if fless m0 v then Some v else m | None => Some v end.
(** A cell as a double; only columns of doubles and 64-bit integers are converted. *)
Definition to_f64 (s : Scalar) : Z := match s with AFloat64 b => b | AInt64 z => int_as_f64 z | _ => 0%Z end.
Definition int_cell (s : Scalar) : Z := match s with AInt64 z | AInt32 z => z | _ => 0%Z end.
Definition utf8_cell (s : Scalar) : list Z := match s with AUtf8 b => b | _ => [] end.
(** The [min] and [max] kernels: the total order of doubles, the order of integers. *)
Definition arrow_key (s : Scalar) : Z := match s with AFloat64 b => Evaluator.f64_key b | AInt64 z => z | _ => 0%Z end.
Definition arrow_min (l : list Scalar) : option Scalar :=
  match l with [] => None | x :: l => Some (foldl (λ m s, if decide (arrow_key s < arrow_key m)%Z then s else m) x l) end.
Definition arrow_max (l : list Scalar) : option Scalar :=
  match l with [] => None | x :: l => Some (foldl (λ m s, if decide (arrow_key m < arrow_key s)%Z then s else m) x l) end.
(** The [sum] kernel of integers wraps around. *)
Definition wrapping_sum (l : list Z) : Z := foldl i64_wrapping_add 0%Z l.

(** The types of column a function looks at; it ignores the others. *)
Definition numeric (t : DataType) : bool := match t with DFloat64 | DInt64 => true | _ => false end.
Definition reads (a : Acc) (t : DataType) : bool :=
  match a with
  | FCount _ | FCountDistinct _ | FCollect _ | FCollectDistinct _ => true
  | FSum _ _ _ => match t with DFloat64 | DInt64 | DInt32 => true | _ => false end
  | FGroupConcat _ => match t with DUtf8 => true | _ => false end
  | _ => numeric t
  end.

Section accumulators.
Context (debug display : Value → list Z) (sum_f64 : list Z → Z).

Definition add_debug (s : gset (list Z)) (x : Scalar) : gset (list Z) := s ∪ {[debug (from_arrow (Some x))]}.
Definition add_display (s : gset (list Z)) (x : Scalar) : gset (list Z) := s ∪ {[display (from_arrow (Some x))]}.
Definition welford_array (w : Welford) (l : list Scalar) : Welford := foldl welford_update w (map to_f64 l).
(** The sum of the doubles, 0 when there is none. *)
Definition float_sum (l : list Scalar) : Z := match l with [] => 0%Z | _ => sum_f64 (map to_f64 l) end.

(** The [update_vector] of each function, for a column it reads. *)
Definition count_vector (count : Z) (l : list (option Scalar)) : Acc := FCount (count + Z.of_nat (length l - null_count l)).
Definition count_distinct_vector (values : gset (list Z)) (l : list (option Scalar)) : Acc := FCountDistinct (foldl add_debug values (non_null l)).
Definition sum_vector (sum int_sum : Z) (t : DataType) (l : list (option Scalar)) : Acc :=
  match t with
  | DFloat64 => FSum (fadd sum (float_sum (non_null l))) int_sum false
  | _ => FSum sum (foldl Z.add int_sum (map int_cell (non_null l))) true
  end.
Definition avg_vector (sum count : Z) (t : DataType) (l : list (option Scalar)) : Acc :=
  let s := match t with DFloat64 => float_sum (non_null l) | _ => int_as_f64 (wrapping_sum (map int_cell (non_null l))) end in
  FAvg (fadd sum s) (count + Z.of_nat (length l - null_count l)).
Definition min_vector (min : option Z) (l : list (option Scalar)) : Acc :=
  FMin (match arrow_min (non_null l) with Some x => min_update min (to_f64 x) | None => min end).
Definition max_vector (max : option Z) (l : list (option Scalar)) : Acc :=
  FMax (match arrow_max (non_null l) with Some x => max_update max (to_f64 x) | None => max end).
Definition collect_vector (values : list Value) (l : list (option Scalar)) : Acc := FCollect (values ++ map from_arrow l).
Definition group_concat_vector (values : list (list Z)) (l : list (option Scalar)) : Acc := FGroupConcat (values ++ map utf8_cell (non_null l)).
Definition median_vector (values : list Z) (l : list (option Scalar)) : Acc := FMedian (values ++ map to_f64 (non_null l)).
Definition collect_distinct_vector (values : gset (list Z)) (l : list (option Scalar)) : Acc := FCollectDistinct (foldl add_display values (non_null l)).

Definition update_vector (a : Acc) (v : Vector) : Acc :=
  let l := vec_cells v in
  let t := vec_type v in
  if reads a t then
    match a with
    | FCount n => count_vector n l
    | FCountDistinct s => count_distinct_vector s l
    | FSum s i _ => sum_vector s i t l
    | FAvg s n => avg_vector s n t l
    | FMin m => min_vector m l
    | FMax m => max_vector m l
    | FCollect vs => collect_vector vs l
    | FGroupConcat vs => group_concat_vector vs l
    | FMedian vs => median_vector vs l
    | FCollectDistinct s => collect_distinct_vector s l
    | FStdDevPop w => FStdDevPop (welford_array w (non_null l))
    | FStdDevSamp w => FStdDevSamp (welford_array w (non_null l))
    | FVarPop w => FVarPop (welford_array w (non_null l))
    | FVarSamp w => FVarSamp (welford_array w (non_null l))
    end
  else a.

(** One row of [update], which goes through given rows of the first column; a sum
    notes the kind of its column even when there is no row. *)
Definition update_cell (t : DataType) (a : Acc) (c : option Scalar) : Acc :=
  match a, c with
  | FCollect vs, _ => FCollect (vs ++ [from_arrow c])
  | _, None => a
  | FCount n, Some _ => FCount (n + 1)
  | FCountDistinct s, Some x => FCountDistinct (add_debug s x)
  | FSum s i b, Some x => match t with DFloat64 => FSum (fadd s (to_f64 x)) i b | _ => FSum s (i + int_cell x) b end
  | FAvg s n, Some x => FAvg (fadd s (to_f64 x)) (n + 1)
  | FMin m, Some x => FMin (min_update m (to_f64 x))
  | FMax m, Some x => FMax (max_update m (to_f64 x))
  | FGroupConcat vs, Some x => FGroupConcat (vs ++ [utf8_cell x])
  | FMedian vs, Some x => FMedian (vs ++ [to_f64 x])
  | FCollectDistinct s, Some x => FCollectDistinct (add_display s x)
  | FStdDevPop w, Some x => FStdDevPop (welford_update w (to_f64 x))
  | FStdDevSamp w, Some x => FStdDevSamp (welford_update w (to_f64 x))
  | FVarPop w, Some x => FVarPop (welford_update w (to_f64 x))
  | FVarSamp w, Some x => FVarSamp (welford_update w (to_f64 x))
  end.
Definition note_kind (t : DataType) (a : Acc) : Acc :=
  match a with FSum s i _ => FSum s i (match t with DFloat64 => false | _ => true end) | _ => a end.
Definition update (a : Acc) (values : list Vector) (row_indices : list nat) : outcome Acc :=
  match values with
  | [] => Ok a
  | v :: _ =>
      if reads a (vec_type v) then
        match mapM (λ i, vec_cells v !! i) row_indices with
        | Some l => Ok (foldl (update_cell (vec_type v)) (note_kind (vec_type v) a) l)
        | None => Panic
        end
      else Ok a
  end.

Definition sum_merge (sum int_sum : Z) (o_sum o_int : Z) (o_integer : bool) : Acc :=
  if o_integer then FSum sum (int_sum + o_int) true else FSum (fadd sum o_sum) int_sum false.
Definition merge (a o : Acc) : Acc :=
  match a, o with
  | FCount n, FCount m => FCount (n + m)
  | FCountDistinct s, FCountDistinct s' => FCountDistinct (s ∪ s')
  | FSum s i _, FSum s' i' b' => sum_merge s i s' i' b'
  | FAvg s n, FAvg s' n' => FAvg (fadd s s') (n + n')
  | FMin m, FMin (Some v) => FMin (min_update m v)
  | FMax m, FMax (Some v) => FMax (max_update m v)
  | FCollect vs, FCollect vs' => FCollect (vs ++ vs')
  | FGroupConcat vs, FGroupConcat vs' => FGroupConcat (vs ++ vs')
  | FMedian vs, FMedian vs' => FMedian (vs ++ vs')
  | FCollectDistinct s, FCollectDistinct s' => FCollectDistinct (s ∪ s')
  | FStdDevPop w, FStdDevPop w' => FStdDevPop (welford_merge w w')
  | FStdDevSamp w, FStdDevSamp w' => FStdDevSamp (welford_merge w w')
  | FVarPop w, FVarPop w' => FVarPop (welford_merge w w')
  | FVarSamp w, FVarSamp w' => FVarSamp (welford_merge w w')
  | _, _ => a
  end.

(** The stable sort of the median; doubles that are not numbers count as equal. *)
Fixpoint median_insert (x : Z) (l : list Z) : list Z :=
  match l with [] => [x] | y :: l' => if fless x y then x :: l else y :: median_insert x l' end.
Definition median_sort (l : list Z) : list Z := foldl (λ acc x, median_insert x acc) [] l.
Fixpoint join_comma (l : list (list Z)) : list Z :=
  match l with [] => [] | [s] => s | s :: l => s ++ [44; 32]%Z ++ join_comma l end.
Definition median_finalize (values : list Z) : Value :=
  let sorted := median_sort values in
  let mid := length sorted / 2 in
  match values with
  | [] => VNull
  | _ => if decide (length sorted mod 2 = 0) then VNumber (fdiv (fadd (nth (mid - 1) sorted 0%Z) (nth mid sorted 0%Z)) f64_two) else VNumber (nth mid sorted 0%Z)
  end.
Definition avg_finalize (sum count : Z) : Value := if decide (count = 0)%Z then VNull else VNumber (fdiv sum (u64_as_f64 count)).
(** [m2] over the count, or one less for a sample; no value below two rows. *)
Definition variance (sample : bool) (w : Welford) : option Z :=
  if decide (w_count w < 2)%Z then None else Some (fdiv (w_m2 w) (u64_as_f64 (if sample then w_count w - 1 else w_count w))).
Definition number_or_null (o : option Z) : Value := match o with Some v => VNumber v | None => VNull end.
Definition finalize (a : Acc) : Value :=
  match a with
  | FCount n => VNumber (u64_as_f64 n)
  | FCountDistinct s => VNumber (u64_as_f64 (Z.of_nat (size s)))
  | FSum s i b => VNumber (if b then int_as_f64 i else s)
  | FAvg s n => avg_finalize s n
  | FMin m | FMax m => number_or_null m
  | FCollect vs => VList vs
  | FGroupConcat vs => VString (join_comma vs)
  | FMedian vs => median_finalize vs
  | FCollectDistinct s => VList (map VString (elements s))
  | FStdDevPop w => number_or_null (fsqrt <$> variance false w)
  | FStdDevSamp w => number_or_null (fsqrt <$> variance true w)
  | FVarPop w => number_or_null (variance false w)
  | FVarSamp w => number_or_null (variance true w)
  end.
End accumulators.

(** ** The operator *)

Definition SORT_AGGREGATION_THRESHOLD : Z := 100000.
Definition GroupTable : Type := list (list Value * (list Acc * nat)).
Record SharedAggregateState := mkShared {
  groups : GroupTable; num_active_builders : nat; is_done : bool; final_result : option RecordBatch;
}.
Record Aggregate := mkAggregate {
  ag_child : Stream; group_by_indices : list nat; aggregates : list (AggregateFunction * nat); shared_state : SharedAggregateState; built : bool;
}.
Definition aggregate_new (child : Stream) (by_ : list nat) (aggs : list (AggregateFunction * nat)) : Aggregate :=
  mkAggregate child by_ aggs (mkShared [] 0 false None) false.
Definition create_agg_functions (aggs : list (AggregateFunction * nat)) : list Acc := map (acc_new ∘ fst) aggs.

(** The cells of [batch.column(i)], which panics beyond the last column. *)
Definition cells_at (i : nat) (l : list Row) : list (option Scalar) := map (λ r : Row, mjoin (r !! i)) l.
Definition group_key (by_ : list nat) (r : Row) : list Value := map (λ i, from_arrow (mjoin (r !! i))) by_.
Definition in_range (is_ : list nat) (b : RecordBatch) : bool := forallb (λ i, i <? length (schema b)) is_.

(** Batches concatenated column by column: a batch with too few columns panics, one
    with another type is an error, a wider one is cut. *)
Fixpoint check_columns (bs : list RecordBatch) (is_ : list nat) : outcome unit :=
  match is_ with
  | [] => Ok tt
  | i :: is_ =>
      if existsb (λ b, length (schema b) <=? i) bs then Panic
      else if forallb (λ b, bool_decide (schema b !! i = head bs ≫= λ b0, schema b0 !! i)) bs then check_columns bs is_ else Err Internal
  end.
Definition concat_batches (bs : list RecordBatch) : outcome RecordBatch :=
  match bs with
  | [] => Err Internal
  | b :: _ =>
      let n := length (schema b) in
      let all := concat (map rows bs) in
      let* _ := check_columns bs (seq 0 n) in
      Ok (mkBatch (schema b) (if forallb (λ b, length (schema b) =? n) bs then all else map (take n) all))
  end.

Fixpoint group_get {A} (t : list (list Value * A)) (k : list Value) : option A :=
  match t with [] => None | (k', x) :: t => if values_eq k' k then Some x else group_get t k end.
(** [entry(k).or_insert_with(..)] and an update of what is there. *)
Fixpoint group_upsert {A} (t : list (list Value * A)) (k : list Value) (new : A) (f : A → A) : list (list Value * A) :=
  match t with [] => [(k, f new)] | (k', x) :: t => if values_eq k' k then (k', f x) :: t else (k', x) :: group_upsert t k new f end.

Section operator.
Context (debug display : Value → list Z) (sum_f64 : list Z → Z).
Context (lexsort : list Vector → outcome (list nat)).
Local Abbreviation update_vector := (update_vector debug display sum_f64).

(** Every function takes its column of the rows. *)
Definition update_all (aggs : list (AggregateFunction * nat)) (types : list DataType) (l : list Row) (accs : list Acc) : list Acc :=
  zip_with (λ fc a, update_vector a (mkVector (default DNull (types !! snd fc)) (cells_at (snd fc) l))) aggs accs.

(** Without grouping.  An array of type Null has no null mask: all its cells count,
    and each has the value null. *)
Definition count_rows (a : Acc) (n : nat) : Acc :=
  match a with
  | FCount c => FCount (c + Z.of_nat n)
  | FCountDistinct s => FCountDistinct (if decide (n = 0) then s else s ∪ {[debug VNull]})
  | _ => a
  end.
Definition counts (f : AggregateFunction) : bool := match f with Count | CountDistinct => true | _ => false end.
Definition global_update (b : RecordBatch) (fc : AggregateFunction * nat) (a : Acc) : outcome Acc :=
  if counts (fst fc) && bool_decide (schema b = []) then Ok (count_rows a (num_rows b))
  else match schema b !! snd fc with
       | Some t => Ok (update_vector a (mkVector t (cells_at (snd fc) (rows b))))
       | None => Panic
       end.
Fixpoint global_batch (b : RecordBatch) (aggs : list (AggregateFunction * nat)) (accs : list Acc) : outcome (list Acc) :=
  match aggs, accs with
  | fc :: aggs, a :: accs => let* a := global_update b fc a in let* rest := global_batch b aggs accs in Ok (a :: rest)
  | _, _ => Ok []
  end.
Fixpoint global_loop (child : Stream) (aggs : list (AggregateFunction * nat)) (accs : list Acc) : Stream * outcome (list Acc) :=
  match child with
  | [] => ([], Ok accs)
  | Ok b :: child => match global_batch b aggs accs with Ok accs => global_loop child aggs accs | Err e => (child, Err e) | Panic => (child, Panic) end
  | Err e :: child => (child, Err e)
  | Panic :: child => (child, Panic)
  end.

(** One batch into the hash table: the rows of each key, then one vectorised update
    per key. *)
Definition local_groups (by_ : list nat) (b : RecordBatch) : list (list Value * list Row) :=
  foldl (λ t r, group_upsert t (group_key by_ r) [] (λ l, l ++ [r])) [] (rows b).
Definition merge_group (aggs : list (AggregateFunction * nat)) (types : list DataType) (t : GroupTable) (kl : list Value * list Row) : GroupTable :=
  group_upsert t (fst kl) (create_agg_functions aggs, 0) (λ e, (update_all aggs types (snd kl) (fst e), snd e + length (snd kl))).
Definition hash_batch (by_ : list nat) (aggs : list (AggregateFunction * nat)) (b : RecordBatch) (t : GroupTable) : outcome GroupTable :=
  if decide (num_rows b = 0) then Ok t
  else if in_range by_ b && in_range (map snd aggs) b then Ok (foldl (merge_group aggs (schema b)) t (local_groups by_ b)) else Panic.
Definition total_rows (bs : list RecordBatch) : Z := foldl Z.add 0%Z (map (λ b, Z.of_nat (num_rows b)) bs).
Fixpoint grouped_loop (child : Stream) (by_ : list nat) (aggs : list (AggregateFunction * nat)) (t : GroupTable) (all_batches : list RecordBatch) (use_sort_based : bool) :
    (Stream * GroupTable) * outcome (list RecordBatch) :=
  match child with
  | [] => (([], t), Ok all_batches)
  | Ok b :: child =>
      let use_sort_based := use_sort_based || bool_decide (SORT_AGGREGATION_THRESHOLD < total_rows all_batches + Z.of_nat (num_rows b))%Z in
      if use_sort_based then grouped_loop child by_ aggs t (all_batches ++ [b]) true
      else
        match hash_batch by_ aggs b t with
        | Ok t => grouped_loop child by_ aggs t all_batches false
        | Err e => ((child, t), Err e)
        | Panic => ((child, t), Panic)
        end
  | Err e :: child => ((child, t), Err e)
  | Panic :: child => ((child, t), Panic)
  end.

(** The collected batches: sorted by key, cut into runs of equal keys; the entry
    of a key is replaced. *)
Fixpoint same_run (by_ : list nat) (k : list Value) (l : list Row) : list Row * list Row :=
  match l with
  | [] => ([], [])
  | r :: l' => if values_eq k (group_key by_ r) then let '(a, b) := same_run by_ k l' in (r :: a, b) else ([], l)
  end.
Fixpoint walk_runs (fuel : nat) (by_ : list nat) (aggs : list (AggregateFunction * nat)) (types : list DataType) (l : list Row) (t : GroupTable) : GroupTable :=
  match fuel, l with
  | S fuel, r :: l =>
      let k := group_key by_ r in
      let '(run, rest) := same_run by_ k l in
      let entry := (update_all aggs types (r :: run) (create_agg_functions aggs), S (length run)) in
      walk_runs fuel by_ aggs types rest (group_upsert t k entry (λ _, entry))
  | _, _ => t
  end.
Definition sort_based (by_ : list nat) (aggs : list (AggregateFunction * nat)) (bs : list RecordBatch) (t : GroupTable) : outcome GroupTable :=
  match bs with
  | [] => Ok t
  | _ =>
      let* full := concat_batches bs in
      if in_range by_ full then
        let* indices := lexsort (map (λ i, mkVector (default DNull (schema full !! i)) (cells_at i (rows full))) by_) in
        if (num_rows full =? 0) || in_range (map snd aggs) full
        then Ok (walk_runs (num_rows full) by_ aggs (schema full) (omap (λ i, rows full !! i) indices) t) else Panic
      else Panic
  end.

(** The result: a row per group, ordered by the Debug form of the keys. *)
Definition out_type (f : AggregateFunction) : DataType := if counts f then DInt64 else DFloat64.
Definition out_cell (f : AggregateFunction) (a : Acc) : Scalar :=
  let v := as_number (finalize a) in if counts f then AInt64 (f64_as_i64 v) else AFloat64 v.
Definition out_row (aggs : list (AggregateFunction * nat)) (g : list Value * (list Acc * nat)) : Row :=
  map (λ v, Some (AUtf8 (display v))) (fst g) ++ zip_with (λ fc a, Some (out_cell (fst fc) a)) aggs (fst (snd g)).
Fixpoint keys_cmp (a b : list (list Z)) : comparison :=
  match a, b with
  | [], [] => Eq
  | [], _ => Lt
  | _, [] => Gt
  | x :: a, y :: b => match bytes_cmp x y with Eq => keys_cmp a b | c => c end
  end.
Definition key_le (a b : list Value * (list Acc * nat)) : Prop := keys_cmp (map debug (fst a)) (map debug (fst b)) ≠ Gt.
#[global] Instance key_le_dec : RelDecision key_le.
Proof. intros a b. unfold key_le. apply _. Defined.
Definition output (by_ : list nat) (aggs : list (AggregateFunction * nat)) (t : GroupTable) : outcome RecordBatch :=
  match replicate (length by_) DUtf8 ++ map (out_type ∘ fst) aggs with
  | [] => Err Internal
  | fields => Ok (mkBatch fields (map (out_row aggs) (merge_sort key_le t)))
  end.

(** [build] for the builders of one operator and its clones: the table is shared,
    and the last one to finish makes the result. *)
Definition collect_groups (o : Aggregate) : (Stream * GroupTable) * outcome unit :=
  let t := groups (shared_state o) in
  let aggs := aggregates o in
  match group_by_indices o with
  | [] =>
      match global_loop (ag_child o) aggs (create_agg_functions aggs) with
      | (child, Ok accs) => ((child, group_upsert t [] (create_agg_functions aggs, 0) (λ e, (zip_with merge (fst e) accs, snd e))), Ok tt)
      | (child, Err e) => ((child, t), Err e)
      | (child, Panic) => ((child, t), Panic)
      end
  | by_ =>
      match grouped_loop (ag_child o) by_ aggs t [] false with
      | ((child, t), Ok bs) => match sort_based by_ aggs bs t with Ok t => ((child, t), Ok tt) | Err e => ((child, t), Err e) | Panic => ((child, t), Panic) end
      | (ct, Err e) => (ct, Err e)
      | (ct, Panic) => (ct, Panic)
      end
  end.
Definition build (o : Aggregate) : Aggregate * outcome unit :=
  let s := shared_state o in
  let n := S (num_active_builders s) in
  let mk child s := mkAggregate child (group_by_indices o) (aggregates o) s (built o) in
  match collect_groups o with
  | ((child, t), Ok _) =>
      if decide (n = 1) then
        let t := match t, group_by_indices o with [], [] => [([], (create_agg_functions (aggregates o), 0))] | _, _ => t end in
        match output (group_by_indices o) (aggregates o) t with
        | Ok b => (mk child (mkShared t 0 true (Some b)), Ok tt)
        | Err e => (mk child (mkShared t 0 (is_done s) (final_result s)), Err e)
        | Panic => (mk child (mkShared t 0 (is_done s) (final_result s)), Panic)
        end
      else (mk child (mkShared t (n - 1) (is_done s) (final_result s)), Ok tt)
  | ((child, t), Err e) => (mk child (mkShared t (n - 1) (is_done s || bool_decide (n = 1)) (final_result s)), Err e)
  | ((child, t), Panic) => (mk child (mkShared t (n - 1) (is_done s || bool_decide (n = 1)) (final_result s)), Panic)
  end.
Definition take_result (o : Aggregate) : Aggregate * next_result :=
  let s := shared_state o in
  match is_done s, final_result s with
  | true, Some b => (mkAggregate (ag_child o) (group_by_indices o) (aggregates o) (mkShared (groups s) (num_active_builders s) true None) (built o), Ok (Some b))
  | _, _ => (o, Ok None)
  end.
Definition aggregate_next (o : Aggregate) : Aggregate * next_result :=
  if built o then take_result o
  else
    match build o with
    | (o, Ok _) => take_result (mkAggregate (ag_child o) (group_by_indices o) (aggregates o) (shared_state o) true)
    | (o, Err e) => (o, Err e)
    | (o, Panic) => (o, Panic)
    end.
End operator.
