(* ===== verification/AggregateSpec.v ===== *)
(** * What aggregation computes (processor/operators/aggregate.rs)

    With batches of at most 100000 rows the operator gives one row per group key,
    with the exact number of values, of distinct values and integer sum of the rows
    of that key, however the rows are cut into batches.  The rest are the inputs for
    which it does not. *)
From stdpp Require Import base list gmap sets numbers sorting.
From Stdlib Require Import ZArith Lia Bool.
From S2P Require Import Prelude Codec Alp Stats HashIndex Column ColumnSpec ColumnScan Operators OperatorsSpec Joins JoinsSpec LogicalPlan Evaluator Aggregate.
Open Scope nat_scope.

(** ** Group tables *)

Definition scalar_keys (k : list Value) : Prop := Forall (λ v, scalar_value v = true) k.
Lemma values_eq_scalar a b : scalar_keys a → values_eq a b = true ↔ a = b.
Proof.
  intros Ha. revert b. induction Ha as [|x a Hx Ha IH]; intros [|y b]; cbn; try done.
  rewrite andb_true_iff, IH, value_eq_scalar by done. split; [by intros [-> ->]|by intros [= -> ->]].
Qed.
Lemma values_eq_dec a b : scalar_keys a → {a = b ∧ values_eq a b = true} + {a ≠ b ∧ values_eq a b = false}.
Proof.
  intros Ha. destruct (values_eq a b) eqn:E; [left|right]; (split; [|done]); [by apply values_eq_scalar|].
  intros H. apply (values_eq_scalar a b Ha) in H. congruence.
Qed.
Lemma values_eq_refl k : scalar_keys k → values_eq k k = true.
Proof. intros Hk. by apply values_eq_scalar. Qed.
Lemma from_arrow_scalar c : scalar_value (from_arrow c) = true.
Proof. by destruct c as [[]|]. Qed.
Lemma group_key_scalar by_ r : scalar_keys (group_key by_ r).
Proof. unfold group_key, scalar_keys. apply List.Forall_map, list.Forall_true. intros i. apply from_arrow_scalar. Qed.

Definition table_ok {A} (t : list (list Value * A)) : Prop := NoDup (map fst t) ∧ Forall scalar_keys (map fst t).

Section tables.
Context {A : Type}.
Implicit Types (t : list (list Value * A)) (k : list Value) (f : A → A).

Lemma upsert_get t k new f k' : Forall scalar_keys (map fst t) → scalar_keys k →
  group_get (group_upsert t k new f) k' = if values_eq k k' then Some (f (default new (group_get t k))) else group_get t k'.
Proof.
  intros Ht Hk. induction t as [|[k0 x] t IH]; cbn [group_upsert group_get map fst] in *; [done|].
  apply list.Forall_cons in Ht as [H0 Ht]. specialize (IH Ht). destruct (values_eq_dec k0 k H0) as [[-> E]|[Hne E]]; rewrite E; cbn [group_get].
  - by destruct (values_eq k k').
  - rewrite IH. destruct (values_eq_dec k0 k' H0) as [[-> E']|[Hne' E']]; rewrite E'; [|done].
    by destruct (values_eq_dec k k' Hk) as [[-> _]|[_ ->]].
Qed.
Lemma get_in t k : Forall scalar_keys (map fst t) → (∃ x, group_get t k = Some x) ↔ k ∈ map fst t.
Proof.
  intros Ht. induction t as [|[k0 x] t IH]; cbn [group_get map fst] in *.
  { split; [by intros (? & ?)|by intros ?%not_elem_of_nil]. }
  apply list.Forall_cons in Ht as [H0 Ht]. rewrite elem_of_cons, <- IH by done. destruct (values_eq_dec k0 k H0) as [[-> E]|[Hne E]]; rewrite E; [naive_solver|].
  split; [by right|intros [?|?]; [congruence|done]].
Qed.
Lemma upsert_keys t k new f k' : Forall scalar_keys (map fst t) → scalar_keys k → k' ∈ map fst (group_upsert t k new f) ↔ k' = k ∨ k' ∈ map fst t.
Proof.
  intros Ht Hk. induction t as [|[k0 x] t IH]; cbn [group_upsert map fst] in *; [rewrite list_elem_of_singleton, elem_of_nil; naive_solver|].
  apply list.Forall_cons in Ht as [H0 Ht]. destruct (values_eq_dec k0 k H0) as [[-> E]|[Hne E]]; rewrite E; cbn [map fst]; rewrite !elem_of_cons; [naive_solver|].
  rewrite IH by done. naive_solver.
Qed.
Lemma upsert_ok t k new f : table_ok t → scalar_keys k → table_ok (group_upsert t k new f).
Proof.
  intros [Hn Ht] Hk. induction t as [|[k0 x] t IH]; cbn [group_upsert map fst] in *.
  { split; cbn; [apply NoDup_singleton|by constructor]. }
  pose proof Ht as Ht0. apply list.Forall_cons in Ht0 as [H0 Ht1]. apply NoDup_cons in Hn as [Hx Hn]. destruct (values_eq_dec k0 k H0) as [[-> E]|[Hne E]]; rewrite E.
  { split; cbn; [by apply NoDup_cons|done]. }
  destruct (IH Hn Ht1) as [Hn' Ht']. split; cbn [map fst]; [|by constructor]. apply NoDup_cons. split; [|done].
  rewrite upsert_keys by done. naive_solver.
Qed.
(** A table is determined by its keys and lookups. *)
Lemma table_listing t : table_ok t → ∀ g : list Value → A, (∀ k, k ∈ map fst t → group_get t k = Some (g k)) → t = map (λ k, (k, g k)) (map fst t).
Proof.
  intros [Hn Ht] g Hg. induction t as [|[k0 x] t IH]; [done|]. cbn [map fst] in *. apply list.Forall_cons in Ht as [H0 Ht]. apply NoDup_cons in Hn as [Hx Hn].
  assert (x = g k0) as <-.
  { specialize (Hg k0 ltac:(apply list_elem_of_here)). cbn [group_get] in Hg. rewrite values_eq_refl in Hg by done. congruence. }
  f_equal. apply IH; try done. intros k Hk. rewrite <- (Hg k ltac:(by right)). cbn [group_get].
  destruct (values_eq_dec k0 k H0) as [[-> _]|[_ ->]]; [done|done].
Qed.
End tables.

(** ** Accumulators *)

Lemma non_null_app a b : non_null (a ++ b) = non_null a ++ non_null b.
Proof. apply omap_app. Qed.
Lemma count_non_null l : length l - null_count l = length (non_null l).
Proof.
  unfold null_count. assert (length (filter (λ c : option Scalar, c = None) l) + length (non_null l) = length l) as H; [|lia].
  induction l as [|[x|] l IH]; [done| |]; [rewrite filter_cons_False by done|rewrite filter_cons_True by done]; unfold non_null in *; cbn; lia.
Qed.

Ltac open_vector :=
  unfold Aggregate.update_vector, count_vector, count_distinct_vector, sum_vector, avg_vector, min_vector, max_vector, collect_vector, group_concat_vector, median_vector,
    collect_distinct_vector in *.

(** Functions that take a column in pieces as they take it at once. *)
Definition additive (a : Acc) (t : DataType) : bool :=
  match a with
  | FSum _ _ _ => negb (bool_decide (t = DFloat64))
  | FAvg _ _ | FMin _ | FMax _ => negb (numeric t)
  | _ => true
  end.

Section accumulators.
Context (debug display : Value → list Z) (sum_f64 : list Z → Z).
Local Abbreviation update_vector := (update_vector debug display sum_f64).
Local Abbreviation update_all := (update_all debug display sum_f64).
Local Abbreviation update_cell := (update_cell debug display).

Lemma update_vector_reads a v t : reads (update_vector a v) t = reads a t ∧ additive (update_vector a v) t = additive a t.
Proof. open_vector. destruct a; destruct (reads _ (vec_type v)); try done; by destruct (vec_type v). Qed.
Lemma welford_array_app w a b : welford_array w (a ++ b) = welford_array (welford_array w a) b.
Proof. unfold welford_array. by rewrite map_app, foldl_app. Qed.
Lemma update_vector_app a t l1 l2 : additive a t = true →
  update_vector (update_vector a (mkVector t l1)) (mkVector t l2) = update_vector a (mkVector t (l1 ++ l2)).
Proof.
  intros Ha. pose proof (proj1 (update_vector_reads a (mkVector t l1) t)) as Hr. open_vector. cbn [vec_type vec_cells] in *.
  destruct (reads a t) eqn:E; [|by rewrite E].
  rewrite Hr, !count_non_null, non_null_app.
  destruct a; cbn [additive reads] in Ha, E; rewrite ?length_app, ?foldl_app, ?map_app, ?app_assoc, ?welford_array_app; try done;
    try (f_equal; lia); try (by destruct t); destruct t; try done; by rewrite foldl_app.
Qed.
Lemma note_kind_reads a t u : reads (note_kind t a) u = reads a u ∧ additive (note_kind t a) u = additive a u.
Proof. by destruct a. Qed.
Lemma update_nil a t : reads a t = true → additive a t = true → update_vector a (mkVector t []) = note_kind t a.
Proof.
  intros Hr Ha. open_vector. cbn [vec_type vec_cells]. rewrite Hr.
  destruct a; cbn in *; rewrite ?app_nil_r, ?Z.add_0_r; try done; by destruct t.
Qed.
Lemma update_one a t c : reads a t = true → additive a t = true → note_kind t a = a → update_cell t a c = update_vector a (mkVector t [c]).
Proof.
  intros Hr Ha Hk. open_vector. cbn [vec_type vec_cells]. rewrite Hr, count_non_null.
  destruct a, c as [x|]; cbn in *; rewrite ?app_nil_r, ?Z.add_0_r; try done; destruct t; try done; by injection Hk as ->.
Qed.
Lemma update_noted a t l : reads a t = true → note_kind t (update_vector a (mkVector t l)) = update_vector a (mkVector t l).
Proof. intros Hr. open_vector. cbn [vec_type vec_cells]. rewrite Hr. destruct a; cbn in *; try done. by destruct t. Qed.
(** The row by row [update] agrees with the vectorised one. *)
Lemma update_cells_vector a t l : reads a t = true → additive a t = true → foldl (update_cell t) (note_kind t a) l = update_vector a (mkVector t l).
Proof.
  intros Hr Ha. induction l as [|c l IH] using rev_ind; [by rewrite update_nil|].
  rewrite foldl_app, IH. cbn [foldl]. rewrite <- update_vector_app by done. destruct (update_vector_reads a (mkVector t l) t) as [Hr' Ha'].
  apply update_one; [by rewrite Hr'|by rewrite Ha'|by apply update_noted].
Qed.

Definition additive_aggs (aggs : list (AggregateFunction * nat)) (types : list DataType) : Prop :=
  Forall (λ fc, additive (acc_new (fst fc)) (default DNull (types !! snd fc)) = true) aggs.
(** The accumulators of a group, from its rows. *)
Definition group_accs (aggs : list (AggregateFunction * nat)) (types : list DataType) (l : list Row) : list Acc := update_all aggs types l (create_agg_functions aggs).
Lemma group_accs_map aggs types l :
  group_accs aggs types l = map (λ fc, update_vector (acc_new (fst fc)) (mkVector (default DNull (types !! snd fc)) (cells_at (snd fc) l))) aggs.
Proof. unfold group_accs, Aggregate.update_all, create_agg_functions. induction aggs as [|fc aggs IH]; [done|]. cbn. by f_equal. Qed.
Lemma group_accs_app aggs types l1 l2 : additive_aggs aggs types → update_all aggs types l2 (group_accs aggs types l1) = group_accs aggs types (l1 ++ l2).
Proof.
  intros H. rewrite !group_accs_map. unfold Aggregate.update_all. induction H as [|fc aggs Hf H IH]; [done|]. cbn [map zip_with]. f_equal; [|exact IH].
  rewrite update_vector_app by done. unfold cells_at. by rewrite map_app.
Qed.
End accumulators.

(** ** The hash table *)

Section hashing.
Context (debug display : Value → list Z) (sum_f64 : list Z → Z) (by_ : list nat) (aggs : list (AggregateFunction * nat)) (types : list DataType).
Context (Hadd : additive_aggs aggs types).
Local Abbreviation group_accs := (group_accs debug display sum_f64 aggs types).
Local Abbreviation merge_group := (merge_group debug display sum_f64 aggs types).
Local Abbreviation hash_batch := (hash_batch debug display sum_f64 by_ aggs).

(** The rows of a key. *)
Definition rows_of (k : list Value) (l : list Row) : list Row := filter (λ r, values_eq (group_key by_ r) k = true) l.
Lemma rows_of_app k a b : rows_of k (a ++ b) = rows_of k a ++ rows_of k b.
Proof. apply list.filter_app. Qed.
Lemma rows_of_one k r : rows_of k [r] = if values_eq (group_key by_ r) k then [r] else [].
Proof. unfold rows_of. rewrite filter_cons, filter_nil. by destruct (values_eq _ _). Qed.
Lemma rows_of_in k l : rows_of k l ≠ [] ↔ k ∈ map (group_key by_) l.
Proof.
  unfold rows_of. induction l as [|r l IH]; [split; [done|intros ?%elem_of_nil; done]|]. rewrite filter_cons. cbn [map]. rewrite elem_of_cons.
  destruct (values_eq_dec (group_key by_ r) k (group_key_scalar by_ r)) as [[-> E]|[Hne E]]; rewrite E; case_decide; try done; naive_solver.
Qed.

Definition holds_rows {A} (f : list Row → A) (l : list Row) (t : list (list Value * A)) : Prop :=
  table_ok t ∧ ∀ k, group_get t k = match rows_of k l with [] => None | _ => Some (f (rows_of k l)) end.

Lemma holds_keys {A} (f : list Row → A) l t : holds_rows f l t → ∀ k, k ∈ map fst t ↔ k ∈ map (group_key by_) l.
Proof.
  intros [Hok Hget] k. rewrite <- get_in, <- rows_of_in by apply Hok. setoid_rewrite Hget. destruct (rows_of k l); split; try done; naive_solver.
Qed.
Lemma local_groups_rows b : holds_rows id (rows b) (local_groups by_ b).
Proof.
  unfold local_groups. induction (rows b) as [|r l [IHok IH]] using rev_ind; [by repeat split; try constructor|].
  rewrite foldl_app. cbn [foldl]. pose proof (group_key_scalar by_ r) as Hk. split; [by apply upsert_ok|]. intros k. rewrite upsert_get, !IH by (apply IHok || done).
  rewrite rows_of_app, rows_of_one.
  destruct (values_eq_dec (group_key by_ r) k Hk) as [[<- E]|[Hne E]]; rewrite E; [|by rewrite app_nil_r].
  by destruct (rows_of _ l).
Qed.

(** Merging a table of new rows into the groups. *)
Lemma merge_groups_get (local : list (list Value * list Row)) (t : GroupTable) : table_ok local → table_ok t →
  table_ok (foldl merge_group t local) ∧
  ∀ k, group_get (foldl merge_group t local) k = match group_get local k with
    | Some l => Some (let e := default (create_agg_functions aggs, 0) (group_get t k) in (update_all debug display sum_f64 aggs types l (fst e), snd e + length l))
    | None => group_get t k end.
Proof.
  intros [Hn Hk] Ht. revert t Ht. induction local as [|[k0 l] local IH]; intros t Ht; [done|]. cbn [map fst] in *. apply list.Forall_cons in Hk as [H0 Hk]. apply NoDup_cons in Hn as [Hx Hn].
  cbn [foldl]. destruct (IH Hn Hk (merge_group t (k0, l))) as [Hok Hget]; [by apply upsert_ok|]. split; [done|]. intros k. rewrite Hget. cbn [group_get]. unfold Aggregate.merge_group. cbn [fst snd].
  rewrite !upsert_get by (apply Ht || done). destruct (values_eq_dec k0 k H0) as [[<- E]|[Hne E]]; rewrite E; [|done].
  destruct (group_get local k0) eqn:El; [|done]. exfalso. apply Hx, get_in; naive_solver.
Qed.
Lemma hash_batch_rows b t l : schema b = types → in_range by_ b = true → in_range (map snd aggs) b = true →
  holds_rows (λ l, (group_accs l, length l)) l t → ∃ t', hash_batch b t = Ok t' ∧ holds_rows (λ l, (group_accs l, length l)) (l ++ rows b) t'.
Proof.
  intros Hs H1 H2 [Hok Hget]. unfold Aggregate.hash_batch. case_decide as Hn.
  { exists t. split; [done|]. unfold num_rows in Hn. apply nil_length_inv in Hn. by rewrite Hn, app_nil_r. }
  rewrite H1, H2, Hs. eexists. split; [reflexivity|]. destruct (local_groups_rows b) as [Hlok Hlget].
  destruct (merge_groups_get (local_groups by_ b) t Hlok Hok) as [Hok' Hget']. split; [done|]. intros k. rewrite Hget', Hlget, Hget, rows_of_app.
  destruct (rows_of k (rows b)) as [|r rs] eqn:Er; [by rewrite app_nil_r|]. cbn [id]. destruct (rows_of k l) as [|r' rs'] eqn:El.
  - done.
  - cbn [default from_option id fst snd]. rewrite group_accs_app by done. by rewrite <- (length_app (r' :: rs') (r :: rs)).
Qed.

Lemma in_range_true is_ b : Forall (λ i, i < length (schema b)) is_ → in_range is_ b = true.
Proof. induction 1 as [|i l Hi _ IH]; [done|]. unfold in_range in *. cbn [forallb]. rewrite IH, (proj2 (Nat.ltb_lt _ _)) by done. done. Qed.
Lemma grouped_loop_rows bs t l :
  Forall (λ b, schema b = types ∧ (Z.of_nat (num_rows b) ≤ SORT_AGGREGATION_THRESHOLD)%Z) bs → Forall (λ i, i < length types) by_ → Forall (λ fc, snd fc < length types) aggs →
  holds_rows (λ l, (group_accs l, length l)) l t →
  ∃ t', grouped_loop debug display sum_f64 (map Ok bs) by_ aggs t [] false = (([], t'), Ok []) ∧ holds_rows (λ l, (group_accs l, length l)) (l ++ all_rows bs) t'.
Proof.
  intros Hbs Hby Haggs. revert t l. induction Hbs as [|b bs [Hs Hn] Hbs IH]; intros t l Ht.
  { exists t. split; [done|]. by rewrite app_nil_r. }
  assert (in_range by_ b = true) as H1 by (by apply in_range_true; rewrite Hs).
  assert (in_range (map snd aggs) b = true) as H2 by (apply in_range_true, List.Forall_map; by rewrite Hs).
  destruct (hash_batch_rows b t l Hs H1 H2 Ht) as (t1 & E & Ht1). destruct (IH t1 (l ++ rows b) Ht1) as (t' & El & Ht'). exists t'.
  rewrite all_rows_cons, app_assoc. split; [|done]. cbn [map grouped_loop orb total_rows foldl]. rewrite bool_decide_eq_false_2 by lia. by rewrite E.
Qed.
End hashing.

(** ** Groups *)

(** What a group should show: the number of values, of distinct values (as told
    apart by their Debug form), the sum of the integers. *)
Definition spec_cell (debug : Value → list Z) (f : AggregateFunction) (cells : list (option Scalar)) : Scalar :=
  match f with
  | Count => AInt64 (Z.of_nat (length (non_null cells)))
  | CountDistinct => AInt64 (Z.of_nat (size (list_to_set (map (debug ∘ from_arrow ∘ Some) (non_null cells)) : gset (list Z))))
  | _ => AFloat64 (int_as_f64 (foldr Z.add 0%Z (map int_cell (non_null cells))))
  end.
Definition exact_agg (types : list DataType) (fc : AggregateFunction * nat) : bool :=
  match fst fc, types !! snd fc with
  | Count, Some _ | CountDistinct, Some _ | Sum, Some DInt64 | Sum, Some DInt32 => true
  | _, _ => false
  end.
Definition spec_row (debug display : Value → list Z) (aggs : list (AggregateFunction * nat)) (k : list Value) (l : list Row) : Row :=
  map (λ v, Some (AUtf8 (display v))) k ++ map (λ fc, Some (spec_cell debug (fst fc) (cells_at (snd fc) l))) aggs.

Lemma exact_additive aggs types : Forall (λ fc, exact_agg types fc = true) aggs → additive_aggs aggs types ∧ Forall (λ fc, snd fc < length types) aggs.
Proof.
  intros H. split; (eapply List.Forall_impl; [|exact H]); intros [f c]; unfold exact_agg; cbn [fst snd]; intros E.
  - destruct f; try done; destruct (types !! c) as [[]|]; done.
  - apply lookup_lt_is_Some. destruct f; try done; destruct (types !! c); done.
Qed.
Lemma foldl_sum l i : foldl Z.add i l = (i + foldr Z.add 0 l)%Z.
Proof. revert i. induction l as [|x l IH]; intros i; cbn; [lia|]. rewrite IH. lia. Qed.
Lemma foldl_debug (debug : Value → list Z) (l : list Scalar) (s : gset (list Z)) : foldl (add_debug debug) s l = s ∪ list_to_set (map (debug ∘ from_arrow ∘ Some) l).
Proof. revert s. induction l as [|x l IH]; intros s; cbn; [set_solver|]. rewrite IH. unfold add_debug. set_solver. Qed.
Lemma length_non_null l : length (non_null l) ≤ length l.
Proof. rewrite <- count_non_null. lia. Qed.
Lemma size_distinct (debug : Value → list Z) (l : list Scalar) : size (list_to_set (map (debug ∘ from_arrow ∘ Some) l) : gset (list Z)) ≤ length l.
Proof. rewrite <- (length_map (debug ∘ from_arrow ∘ Some) l). generalize (map (debug ∘ from_arrow ∘ Some) l). intros l'. induction l' as [|x l' IH]; [done|]. cbn [list_to_set length]. rewrite size_union_alt, size_singleton. pose proof (subseteq_size (list_to_set l' ∖ {[x]}) (list_to_set l' : gset (list Z)) ltac:(set_solver)). lia. Qed.

(** The cell of a group is the specified one. *)
Lemma exact_cell debug display sum_f64 types fc l : exact_agg types fc = true → (Z.of_nat (length l) < 2 ^ 53)%Z →
  out_cell (fst fc) (update_vector debug display sum_f64 (acc_new (fst fc)) (mkVector (default DNull (types !! snd fc)) (cells_at (snd fc) l))) = spec_cell debug (fst fc) (cells_at (snd fc) l).
Proof.
  destruct fc as [f c]. unfold exact_agg. cbn [fst snd]. intros E Hl. pose proof (length_non_null (cells_at c l)) as Hn. unfold cells_at in Hn at 2. rewrite length_map in Hn.
  destruct f; try done; destruct (types !! c) as [t|]; try done; unfold out_cell; open_vector; cbn [default from_option id vec_type vec_cells acc_new counts reads].
  - rewrite count_non_null. cbn [finalize as_number spec_cell]. rewrite u64_as_f64_exact by lia. f_equal.
  - rewrite foldl_debug. cbn [finalize as_number spec_cell]. rewrite union_empty_l_L. pose proof (size_distinct debug (non_null (cells_at c l))). rewrite u64_as_f64_exact by lia. done.
  - destruct t; try done; cbn [finalize as_number spec_cell]; by rewrite foldl_sum.
Qed.

Lemma length_all_rows_of by_ k l : length (rows_of by_ k l) ≤ length l.
Proof. apply length_filter. Qed.
Lemma group_row debug display sum_f64 aggs types k l n : Forall (λ fc, exact_agg types fc = true) aggs → (Z.of_nat (length l) < 2 ^ 53)%Z →
  out_row display aggs (k, (group_accs debug display sum_f64 aggs types l, n)) = spec_row debug display aggs k l.
Proof.
  intros H Hl. unfold out_row, spec_row. cbn [fst snd]. f_equal. rewrite group_accs_map.
  induction H as [|fc aggs Hf H IH]; [done|]. cbn [map zip_with]. rewrite IH, exact_cell by done. done.
Qed.

(** The result of the first call, and nothing afterwards. *)
Lemma aggregate_result debug display sum_f64 lexsort child by_ aggs t rest :
  collect_groups debug display sum_f64 lexsort (aggregate_new child by_ aggs) = ((rest, t), Ok tt) → (t ≠ [] ∨ by_ ≠ []) → (by_ ≠ [] ∨ aggs ≠ []) →
  ∃ b, produces (aggregate_next debug display sum_f64 lexsort) (aggregate_new child by_ aggs) [b] ∧ rows b = map (out_row display aggs) (merge_sort (key_le debug) t).
Proof.
  intros Hc Ht Hf. exists (mkBatch (replicate (length by_) DUtf8 ++ map (out_type ∘ fst) aggs) (map (out_row display aggs) (merge_sort (key_le debug) t))).
  split; [|done]. assert (output debug display by_ aggs t = Ok (mkBatch (replicate (length by_) DUtf8 ++ map (out_type ∘ fst) aggs) (map (out_row display aggs) (merge_sort (key_le debug) t)))) as Ho.
  { unfold output. destruct by_, aggs; try done. by destruct Hf. }
  eapply produces_next.
  - unfold aggregate_next, build. cbn [built aggregate_new]. rewrite Hc. cbn [shared_state aggregate_new num_active_builders group_by_indices aggregates]. rewrite decide_True by done.
    assert ((match t with [] => match by_ with [] => [([], (create_agg_functions aggs, 0))] | _ => t end | _ => t end) = t) as -> by (destruct t, by_; naive_solver).
    rewrite Ho. reflexivity.
  - by eapply produces_end.
Qed.

(** C12. GROUP BY over a child of batches of at most 100000 rows (aggregate.rs, with
    COUNT, COUNT DISTINCT and integer SUM): the operator hands out one batch, with
    exactly one row per key that occurs, holding the number of values, of distinct
    values and the sum of that key's rows, however the rows are cut into batches. *)
Theorem grouped_aggregate_rows (debug display : Value → list Z) (sum_f64 : list Z → Z) (lexsort : list Vector → outcome (list nat))
    (by_ : list nat) (aggs : list (AggregateFunction * nat)) (types : list DataType) (bs : list RecordBatch) :
  by_ ≠ [] → Forall (λ i, i < length types) by_ → Forall (λ fc, exact_agg types fc = true) aggs →
  Forall (λ b, schema b = types ∧ (Z.of_nat (num_rows b) ≤ SORT_AGGREGATION_THRESHOLD)%Z) bs → (Z.of_nat (length (all_rows bs)) < 2 ^ 53)%Z →
  ∃ ks b, NoDup ks ∧ (∀ k, k ∈ ks ↔ k ∈ map (group_key by_) (all_rows bs)) ∧
    produces (aggregate_next debug display sum_f64 lexsort) (aggregate_new (map Ok bs) by_ aggs) [b] ∧
    rows b ≡ₚ map (λ k, spec_row debug display aggs k (rows_of by_ k (all_rows bs))) ks.
Proof.
  intros Hby Hr Hex Hbs Hn. destruct (exact_additive aggs types Hex) as [Hadd Hc].
  destruct (grouped_loop_rows debug display sum_f64 by_ aggs types Hadd bs [] []) as (t & El & Ht); try done; [by repeat split; try constructor|].
  cbn [app] in Ht. pose proof (holds_keys _ _ _ _ Ht) as Hkeys. destruct Ht as [Hok Hget].
  set (g := λ k, (group_accs debug display sum_f64 aggs types (rows_of by_ k (all_rows bs)), length (rows_of by_ k (all_rows bs)))).
  assert (t = map (λ k, (k, g k)) (map fst t)) as Et.
  { apply (table_listing t Hok g). intros k Hk. rewrite Hget. apply Hkeys, rows_of_in in Hk. unfold g. by destruct (rows_of by_ k (all_rows bs)). }
  destruct (aggregate_result debug display sum_f64 lexsort (map Ok bs) by_ aggs t []) as (b & Hp & Hb); [|by right|by left|].
  { destruct by_; [done|]. unfold collect_groups. cbn [group_by_indices aggregate_new shared_state groups aggregates ag_child]. by rewrite El. }
  exists (map fst t), b. split_and!; [apply Hok|done|done|]. rewrite Hb. etransitivity; [apply Permutation_map, merge_sort_Permutation|].
  rewrite Et at 1. rewrite map_map. apply reflexive_eq, map_ext. intros k. unfold g.
  apply group_row; [done|]. pose proof (length_all_rows_of by_ k (all_rows bs)). lia.
Qed.

(** ** Without grouping *)

Section global.
Context (debug display : Value → list Z) (sum_f64 : list Z → Z) (lexsort : list Vector → outcome (list nat)).
Context (aggs : list (AggregateFunction * nat)) (types : list DataType) (Hadd : additive_aggs aggs types) (Hr : Forall (λ fc, snd fc < length types) aggs).
Local Abbreviation update_all := (update_all debug display sum_f64).
Local Abbreviation group_accs := (group_accs debug display sum_f64 aggs types).

Lemma global_batch_all b accs : schema b = types → length accs = length aggs → global_batch debug display sum_f64 b aggs accs = Ok (update_all aggs types (rows b) accs).
Proof using Hr.
  clear Hadd. intros Hs. revert accs. induction Hr as [|fc l Hf Hl IH]; intros [|a accs]; try done. intros [= Hlen]. cbn [global_batch Aggregate.update_all zip_with].
  assert (global_update debug display sum_f64 b fc a = Ok (update_vector debug display sum_f64 a (mkVector (default DNull (types !! snd fc)) (cells_at (snd fc) (rows b))))) as ->.
  { unfold global_update. rewrite Hs. rewrite bool_decide_eq_false_2 by (by destruct types; cbn in Hf; [lia|]). rewrite andb_false_r.
    destruct (lookup_lt_is_Some_2 types (snd fc) Hf) as [t ->]. done. }
  cbn [outcome_bind]. rewrite IH by done. done.
Qed.
Lemma global_loop_accs bs l : Forall (λ b, schema b = types) bs →
  global_loop debug display sum_f64 (map Ok bs) aggs (group_accs l) = ([], Ok (group_accs (l ++ all_rows bs))).
Proof using Hadd Hr.
  intros Hbs. revert l. induction Hbs as [|b bs Hb Hbs IH]; intros l; [by rewrite app_nil_r|].
  cbn [map global_loop]. rewrite global_batch_all by (done || by rewrite group_accs_map, length_map). rewrite group_accs_app by done. rewrite IH, all_rows_cons, app_assoc. done.
Qed.
(** The only group: the accumulators of all rows merged into fresh ones. *)
Lemma global_groups b bs : Forall (λ b, schema b = types) (b :: bs) →
  collect_groups debug display sum_f64 lexsort (aggregate_new (map Ok (b :: bs)) [] aggs) =
    (([], [([], (zip_with merge (create_agg_functions aggs) (group_accs (all_rows (b :: bs))), 0))]), Ok tt).
Proof using Hadd Hr.
  intros [Hb Hbs]%list.Forall_cons. unfold collect_groups. cbn [group_by_indices aggregate_new ag_child aggregates map global_loop].
  rewrite global_batch_all by (done || by unfold create_agg_functions; rewrite length_map).
  change (update_all aggs types (rows b) (create_agg_functions aggs)) with (group_accs (rows b)). rewrite global_loop_accs by done. done.
Qed.
Lemma merge_sort_one (g : list Value * (list Acc * nat)) : merge_sort (key_le debug) [g] = [g].
Proof. done. Qed.
End global.

Lemma merged_cell debug display sum_f64 types fc l : exact_agg types fc = true → let v := mkVector (default DNull (types !! snd fc)) l in
  out_cell (fst fc) (merge (acc_new (fst fc)) (update_vector debug display sum_f64 (acc_new (fst fc)) v)) = out_cell (fst fc) (update_vector debug display sum_f64 (acc_new (fst fc)) v).
Proof.
  destruct fc as [f c]. unfold exact_agg. cbn [fst snd]. intros E. destruct f; try done; destruct (types !! c) as [[]|]; try done; cbn; rewrite ?union_empty_l_L; done.
Qed.

(** Aggregation without GROUP BY (aggregate.rs): one row, with the number of values,
    of distinct values and the integer sum of all rows of the child; zeros when the
    child has no batch. *)
Theorem global_aggregate_row (debug display : Value → list Z) (sum_f64 : list Z → Z) (lexsort : list Vector → outcome (list nat))
    (aggs : list (AggregateFunction * nat)) (types : list DataType) (bs : list RecordBatch) :
  aggs ≠ [] → Forall (λ fc, exact_agg types fc = true) aggs → Forall (λ b, schema b = types) bs → (Z.of_nat (length (all_rows bs)) < 2 ^ 53)%Z →
  ∃ b, produces (aggregate_next debug display sum_f64 lexsort) (aggregate_new (map Ok bs) [] aggs) [b] ∧ rows b = [spec_row debug display aggs [] (all_rows bs)].
Proof.
  intros Hne Hex Hbs Hn. destruct (exact_additive aggs types Hex) as [Hadd Hc]. destruct bs as [|b0 bs].
  - destruct (aggregate_result debug display sum_f64 lexsort [] [] aggs [([], (zip_with merge (create_agg_functions aggs) (create_agg_functions aggs), 0))] []) as (b & Hp & Hb); [done|by left|by right|].
    exists b. split; [done|]. rewrite Hb, merge_sort_one. cbn [map]. unfold out_row, spec_row. cbn [fst snd map app]. f_equal. clear Hne Hc Hadd Hp Hb.
    induction Hex as [|[f c] aggs Hf Hex IH]; [done|]. cbn [map zip_with create_agg_functions]. f_equal; [|exact IH].
    unfold exact_agg in Hf. cbn [fst snd] in Hf. destruct f; done.
  - destruct (aggregate_result debug display sum_f64 lexsort _ [] aggs _ [] (global_groups debug display sum_f64 lexsort aggs types Hadd Hc b0 bs Hbs)) as (b & Hp & Hb); [by left|by right|].
    exists b. split; [done|]. rewrite Hb, merge_sort_one. cbn [map]. unfold out_row, spec_row. cbn [fst snd map app]. f_equal. rewrite group_accs_map. clear Hne Hc Hadd Hp Hb.
    induction Hex as [|fc aggs Hf Hex IH]; [done|]. apply (f_equal2 cons); [|exact IH].
    f_equal. etransitivity; [apply (merged_cell _ _ _ types _ _ Hf)|by apply exact_cell].
Qed.

(** Row by row and vectorised updates agree (the [update] and [update_vector]
    methods of aggregate_function.rs and aggregate_ext.rs), for every function on
    every column except sums of doubles, AVG, MIN and MAX. *)
Theorem update_rows_agree (debug display : Value → list Z) (sum_f64 : list Z → Z) (a : Acc) (v : Vector) (vs : list Vector) (row_indices : list nat) (l : list (option Scalar)) :
  additive a (vec_type v) = true → mapM (λ i, vec_cells v !! i) row_indices = Some l →
  update debug display a (v :: vs) row_indices = Ok (update_vector debug display sum_f64 a (mkVector (vec_type v) l)).
Proof.
  intros Ha Hl. unfold update. destruct (reads a (vec_type v)) eqn:Hr.
  - rewrite Hl. by rewrite (update_cells_vector debug display sum_f64).
  - open_vector. cbn [vec_type]. by rewrite Hr.
Qed.

(** ** Departures *)

(** COLLECT, COLLECT DISTINCT and GROUP_CONCAT are always 0.0: the result column is
    one of doubles, and a list or string read as a number is zero. *)
Theorem collect_returns_zero (debug display : Value → list Z) (sum_f64 : list Z → Z) (lexsort : list Vector → outcome (list nat))
    (f : AggregateFunction) (c : nat) (types : list DataType) (b0 : RecordBatch) (bs : list RecordBatch) :
  f ∈ [Collect; CollectDistinct; GroupConcat] → c < length types → Forall (λ b, schema b = types) (b0 :: bs) →
  ∃ b, produces (aggregate_next debug display sum_f64 lexsort) (aggregate_new (map Ok (b0 :: bs)) [] [(f, c)]) [b] ∧ rows b = [[Some (AFloat64 0)]].
Proof.
  intros Hf Hc Hbs. assert (additive_aggs [(f, c)] types) as Hadd by (constructor; [|constructor]; set_solver).
  destruct (aggregate_result debug display sum_f64 lexsort _ [] [(f, c)] _ [] (global_groups debug display sum_f64 lexsort [(f, c)] types Hadd ltac:(by repeat constructor) b0 bs Hbs)) as (b & Hp & Hb); [by left|by right|].
  exists b. split; [done|]. rewrite Hb, merge_sort_one, group_accs_map. unfold out_row. cbn [map zip_with create_agg_functions fst snd app].
  repeat (apply elem_of_cons in Hf as [-> |Hf]); [done|done| |by apply elem_of_nil in Hf].
  open_vector. cbn [vec_type acc_new reads compose fst]. by destruct (default DNull (types !! c)).
Qed.

(** The average of two equal integers is not that integer: the sum of a batch wraps
    around at 64 bits. *)
Theorem avg_wraps (debug display : Value → list Z) (sum_f64 : list Z → Z) (lexsort : list Vector → outcome (list nat)) :
  let x := Some (AInt64 (2 ^ 63 - 1)) in let minus_one := 13830554455654793216%Z in
  ∃ o, aggregate_next debug display sum_f64 lexsort (aggregate_new [Ok (mkBatch [DInt64] [[x]; [x]])] [] [(Avg, 0)]) = (o, Ok (Some (mkBatch [DFloat64] [[Some (AFloat64 minus_one)]]))).
Proof. eexists. vm_compute. reflexivity. Qed.

(** Neighbouring integers beyond 2^53 are one group. *)
Theorem large_keys_share_group (debug display : Value → list Z) (sum_f64 : list Z → Z) (lexsort : list Vector → outcome (list nat)) :
  ∃ o s, aggregate_next debug display sum_f64 lexsort (aggregate_new [Ok (mkBatch [DInt64] [[Some (AInt64 (2 ^ 53))]; [Some (AInt64 (2 ^ 53 + 1))]])] [0] [(Count, 0)]) =
    (o, Ok (Some (mkBatch [DUtf8; DInt64] [[Some (AUtf8 s); Some (AInt64 2)]]))).
Proof. do 2 eexists. vm_compute. reflexivity. Qed.

Lemma same_run_all by_ k l : scalar_keys k → Forall (λ r, group_key by_ r = k) l → same_run by_ k l = (l, []).
Proof. intros Hk. induction 1 as [|r l Hr _ IH]; [done|]. cbn [same_run]. rewrite Hr, values_eq_refl, IH by done. done. Qed.
Lemma take_seq {A} (l pre : list A) : omap (λ i, (pre ++ l) !! i) (seq (length pre) (length l)) = l.
Proof.
  revert pre. induction l as [|x l IH]; intros pre; [done|]. cbn [length seq omap list_omap]. rewrite list_lookup_middle by done. f_equal.
  specialize (IH (pre ++ [x])). rewrite length_app, <- app_assoc in IH. cbn [length app] in IH. by rewrite Nat.add_1_r in IH.
Qed.
Lemma take_all {A} (l : list A) idx : idx ≡ₚ seq 0 (length l) → omap (λ i, l !! i) idx ≡ₚ l.
Proof. intros ->. apply reflexive_eq. exact (take_seq l []). Qed.
Lemma count_perm c l l' : l ≡ₚ l' → length (non_null (cells_at c l)) = length (non_null (cells_at c l')).
Proof. intros H. apply Permutation_length, omap_Permutation, Permutation_map, H. Qed.

Lemma walk_one_run debug display sum_f64 by_ aggs types k l t : scalar_keys k → l ≠ [] → Forall (λ r, group_key by_ r = k) l →
  walk_runs debug display sum_f64 (length l) by_ aggs types l t = let entry := (group_accs debug display sum_f64 aggs types l, length l) in group_upsert t k entry (λ _, entry).
Proof.
  intros Hk Hne Hl. destruct l as [|r l]; [done|]. apply list.Forall_cons in Hl as [Hr Hl]. cbn [length walk_runs]. rewrite Hr, same_run_all by done. by destruct (length l).
Qed.

Lemma single_table {A} (t : list (list Value * A)) k e : table_ok t → scalar_keys k → (∀ k', k' ∈ map fst t → k' = k) → group_upsert t k e (λ _, e) = [(k, e)].
Proof.
  intros [Hn _] Hk Hall. destruct t as [|[k0 x] t]; [done|]. assert (k0 = k) as -> by (apply Hall, elem_of_cons; by left). cbn [group_upsert]. rewrite values_eq_refl by done.
  destruct t as [|[k1 y] t]; [done|]. assert (k1 = k) as -> by (apply Hall; set_solver). cbn [map fst] in Hn. apply NoDup_cons in Hn as [Hx _]. set_solver.
Qed.
Lemma check_same types (bs : list RecordBatch) is_ : bs ≠ [] → Forall (λ b, schema b = types) bs → Forall (λ i, i < length types) is_ → check_columns bs is_ = Ok tt.
Proof.
  intros Hne Hbs His. induction His as [|i is_ Hi _ IH]; [done|]. cbn [check_columns]. rewrite IH.
  assert (existsb (λ b, length (schema b) <=? i) bs = false) as ->.
  { clear IH Hne. induction Hbs as [|b bs Hb _ IH]; [done|]. cbn [existsb]. rewrite IH, orb_false_r, Hb. by apply Nat.leb_gt. }
  assert (head bs ≫= (λ b0, schema b0 !! i) = types !! i) as ->.
  { destruct Hbs as [|b bs Hb _]; [done|]. cbn. by rewrite Hb. }
  assert (forallb (λ b, bool_decide (schema b !! i = types !! i)) bs = true) as ->; [|done].
  clear IH Hne. induction Hbs as [|b bs Hb _ IH]; [done|]. cbn [forallb]. by rewrite IH, Hb, bool_decide_eq_true_2.
Qed.
(** Batches of one schema are put together. *)
Lemma concat_same types b bs : Forall (λ b, schema b = types) (b :: bs) → concat_batches (b :: bs) = Ok (mkBatch types (all_rows (b :: bs))).
Proof.
  intros H. unfold concat_batches. destruct (proj1 (list.Forall_cons _ _ _) H) as [E _]. rewrite E.
  rewrite (check_same types) by (done || by apply Forall_seq; intros; lia). cbn [outcome_bind].
  assert (forallb (λ b, length (schema b) =? length types) (b :: bs) = true) as ->; [|done].
  clear E. induction H as [|x l Hx _ IH]; [done|]. cbn [forallb]. by rewrite IH, Hx, Nat.eqb_refl.
Qed.
Lemma sort_one_key debug display sum_f64 lexsort by_ aggs b2 k t idx : scalar_keys k → 0 < num_rows b2 → in_range by_ b2 = true → in_range (map snd aggs) b2 = true →
  Forall (λ r, group_key by_ r = k) (rows b2) → table_ok t → (∀ k', k' ∈ map fst t → k' = k) →
  lexsort (map (λ i, mkVector (default DNull (schema b2 !! i)) (cells_at i (rows b2))) by_) = Ok idx → idx ≡ₚ seq 0 (num_rows b2) →
  ∃ l, l ≡ₚ rows b2 ∧ sort_based debug display sum_f64 lexsort by_ aggs [b2] t = Ok [(k, (group_accs debug display sum_f64 aggs (schema b2) l, length l))].
Proof.
  intros Hk Hn H1 H2 Hr Ht Hall Hx Hidx. pose proof (take_all (rows b2) idx Hidx) as Hl. set (l := omap (λ i, rows b2 !! i) idx) in *. exists l. split; [done|].
  unfold sort_based. rewrite (concat_same (schema b2)) by (by repeat constructor). cbn [outcome_bind all_rows map concat]. unfold all_rows. cbn [map concat]. rewrite app_nil_r.
  unfold in_range in *. cbn [schema rows]. rewrite H1, Hx. cbn [outcome_bind]. rewrite H2, orb_true_r.
  fold l. unfold num_rows in *. cbn [rows]. pose proof (Permutation_length Hl) as Elen. rewrite <- Elen. rewrite (walk_one_run _ _ _ _ _ _ k); [by rewrite single_table|done| |by rewrite Hl].
  intros E. rewrite E in Elen. cbn in Elen. lia.
Qed.

(** Groups seen before a batch of more than 100000 rows are lost (aggregate.rs): if
    all rows of a first batch and of a larger second one have the same key, the
    count of that group is the count of the second batch alone. *)
Theorem late_batch_overwrites (debug display : Value → list Z) (sum_f64 : list Z → Z) (lexsort : list Vector → outcome (list nat))
    (by_ : list nat) (c : nat) (types : list DataType) (b1 b2 : RecordBatch) (k : list Value) (idx : list nat) :
  by_ ≠ [] → Forall (λ i, i < length types) by_ → c < length types → schema b1 = types → schema b2 = types →
  (Z.of_nat (num_rows b1) ≤ SORT_AGGREGATION_THRESHOLD < Z.of_nat (num_rows b2))%Z → (Z.of_nat (num_rows b2) < 2 ^ 53)%Z →
  Forall (λ r, group_key by_ r = k) (rows b1 ++ rows b2) →
  lexsort (map (λ i, mkVector (default DNull (types !! i)) (cells_at i (rows b2))) by_) = Ok idx → idx ≡ₚ seq 0 (num_rows b2) →
  ∃ b, produces (aggregate_next debug display sum_f64 lexsort) (aggregate_new [Ok b1; Ok b2] by_ [(Count, c)]) [b] ∧
    rows b = [map (λ v, Some (AUtf8 (display v))) k ++ [Some (AInt64 (Z.of_nat (length (non_null (cells_at c (rows b2))))))]].
Proof.
  intros Hby Hr Hc Hs1 Hs2 Hn Hmax Hk Hx Hidx. apply List.Forall_app in Hk as [Hk1 Hk2]. unfold SORT_AGGREGATION_THRESHOLD in Hn.
  assert (additive_aggs [(Count, c)] types) as Hadd by (by repeat constructor).
  assert (∀ b, schema b = types → in_range by_ b = true ∧ in_range [c] b = true) as Hin by (intros b Hb; split; apply in_range_true; rewrite Hb; [done|by repeat constructor]).
  destruct (Hin b1 Hs1) as [H1 H1'], (Hin b2 Hs2) as [H2 H2'].
  destruct (hash_batch_rows debug display sum_f64 by_ [(Count, c)] types Hadd b1 [] [] Hs1 H1 H1') as (t & E1 & Ht); [by repeat split; try constructor|]. cbn [app] in Ht.
  assert (∀ k', k' ∈ map fst t → k' = k) as Hall by (intros k' (r & Er & Hir)%(holds_keys _ _ _ _ Ht)%list_elem_of_fmap; rewrite Er; by apply (proj1 (Forall_forall _ _) Hk1)).
  assert (scalar_keys k) as Hsk.
  { unfold num_rows in Hn. destruct (rows b2) as [|r l]; [cbn in Hn; lia|]. apply list.Forall_cons in Hk2 as [<- _]. apply group_key_scalar. }
  rewrite <- Hs2 in Hx. destruct (sort_one_key debug display sum_f64 lexsort by_ [(Count, c)] b2 k t idx Hsk) as (l & Hl & Es); try done; [lia|apply Ht|].
  destruct (aggregate_result debug display sum_f64 lexsort [Ok b1; Ok b2] by_ [(Count, c)] [(k, (group_accs debug display sum_f64 [(Count, c)] (schema b2) l, length l))] []) as (b & Hp & Hb); [|by left|by left|].
  { destruct by_ as [|i0 by0] eqn:Eby; [done|]. rewrite <- Eby in *. unfold collect_groups. rewrite Eby at 1. cbn [group_by_indices aggregate_new shared_state groups aggregates ag_child].
    rewrite <- Eby. cbn [grouped_loop orb]. unfold SORT_AGGREGATION_THRESHOLD. rewrite (bool_decide_eq_false_2 (_ < _ + Z.of_nat (num_rows b1))%Z) by (cbn; lia). cbn [orb]. rewrite E1.
    rewrite (bool_decide_eq_true_2 (_ < _)%Z) by (cbn; lia). cbn [app]. by rewrite Es. }
  exists b. split; [done|]. rewrite Hb, merge_sort_one. cbn [map]. rewrite group_row; [|by rewrite Hs2; repeat constructor; unfold exact_agg; cbn; destruct (lookup_lt_is_Some_2 types c Hc) as [? ->]|].
  - unfold spec_row. cbn [map fst snd spec_cell]. by rewrite (count_perm c l (rows b2) Hl).
  - rewrite (Permutation_length Hl). done.
Qed.

(** ** Examples *)

Definition demo_text (v : Value) : list Z := match v with VString s => s | VNumber b | VNode b => [b] | _ => [] end.
Definition demo_sum (l : list Z) : Z := foldl fadd 0%Z l.
Definition demo_groups : list RecordBatch :=
  [mkBatch [DUtf8; DInt64] [[Some (AUtf8 [97%Z]); Some (AInt64 1)]; [Some (AUtf8 [98%Z]); None]]; mkBatch [DUtf8; DInt64] [[Some (AUtf8 [97%Z]); Some (AInt64 5)]]].
Definition keep_order (n : nat) (l : list Vector) : outcome (list nat) := Ok (seq 0 n).

(** Keys "a" (values 1 and 5) and "b" (a null). *)
Lemma grouped_aggregate_rows_witness :
  ∃ ks b, NoDup ks ∧ (∀ k, k ∈ ks ↔ k ∈ map (group_key [0]) (all_rows demo_groups)) ∧
    produces (aggregate_next demo_text demo_text demo_sum (keep_order 3)) (aggregate_new (map Ok demo_groups) [0] [(Count, 1); (Sum, 1)]) [b] ∧
    rows b ≡ₚ map (λ k, spec_row demo_text demo_text [(Count, 1); (Sum, 1)] k (rows_of [0] k (all_rows demo_groups))) ks.
Proof.
  apply (grouped_aggregate_rows demo_text demo_text demo_sum (keep_order 3) [0] [(Count, 1); (Sum, 1)] [DUtf8; DInt64] demo_groups); [done| | | |vm_compute; reflexivity]; repeat constructor; vm_compute; discriminate.
Defined.

Lemma global_aggregate_row_witness :
  ∃ b, produces (aggregate_next demo_text demo_text demo_sum (keep_order 3)) (aggregate_new (map Ok demo_groups) [] [(CountDistinct, 0); (Sum, 1)]) [b] ∧
    rows b = [spec_row demo_text demo_text [(CountDistinct, 0); (Sum, 1)] [] (all_rows demo_groups)].
Proof.
  apply (global_aggregate_row demo_text demo_text demo_sum (keep_order 3) [(CountDistinct, 0); (Sum, 1)] [DUtf8; DInt64] demo_groups); [done| | |vm_compute; reflexivity]; repeat constructor.
Defined.

Lemma update_rows_agree_witness :
  update demo_text demo_text (acc_new Sum) [mkVector DInt64 [Some (AInt64 7); None; Some (AInt64 2)]] [2; 0; 0] =
    Ok (update_vector demo_text demo_text demo_sum (acc_new Sum) (mkVector DInt64 [Some (AInt64 2); Some (AInt64 7); Some (AInt64 7)])).
Proof. apply (update_rows_agree demo_text demo_text demo_sum); reflexivity. Defined.

Lemma collect_returns_zero_witness :
  ∃ b, produces (aggregate_next demo_text demo_text demo_sum (keep_order 3)) (aggregate_new (map Ok demo_groups) [] [(Collect, 1)]) [b] ∧ rows b = [[Some (AFloat64 0)]].
Proof.
  apply (collect_returns_zero demo_text demo_text demo_sum (keep_order 3) Collect 1 [DUtf8; DInt64]); [by left|cbn; lia|repeat constructor].
Defined.

(** One row, then 100001 rows, all with the same key: counted as 100001. *)
Lemma late_batch_overwrites_witness : let n := Z.to_nat 100001 in let row : Row := [Some (AInt64 7)] in
  ∃ b, produces (aggregate_next demo_text demo_text demo_sum (keep_order n)) (aggregate_new [Ok (mkBatch [DInt64] [row]); Ok (mkBatch [DInt64] (replicate n row))] [0] [(Count, 0)]) [b] ∧
    rows b = [map (λ v, Some (AUtf8 (demo_text v))) (group_key [0] row) ++ [Some (AInt64 (Z.of_nat (length (non_null (cells_at 0 (replicate n row))))))]].
Proof.
  intros n row. assert (Z.of_nat (length (replicate n row)) = 100001%Z) as Hn by (unfold n; rewrite length_replicate; apply Z2Nat.id; discriminate). clearbody n.
  apply (late_batch_overwrites demo_text demo_text demo_sum (keep_order n) [0] 0 [DInt64] (mkBatch [DInt64] [row]) (mkBatch [DInt64] (replicate n row)) (group_key [0] row) (seq 0 n)); try done.
  - repeat constructor.
  - cbn. lia.
  - unfold num_rows. cbn [rows]. rewrite Hn. split; [discriminate|reflexivity].
  - unfold num_rows. cbn [rows]. rewrite Hn. reflexivity.
  - cbn [rows app]. constructor; [done|]. by apply Forall_replicate.
  - unfold num_rows. cbn [rows]. by rewrite length_replicate.
Defined.
