(* ===== verification/Sorting.v ===== *)
(** * ORDER BY and projections (processor/operators/sort.rs, topk.rs, nway_merge.rs, projection.rs, count.rs)

    [ORDER BY] collects its child, sorts it with the Arrow library and hands the
    result out in slices of 1024 rows; with [LIMIT k] the optimiser replaces it by
    the top-k operator, which sorts by another order when the input has more than 2k
    rows.  The model has one worker, so the wait for other partitions is not part of
    it.  Parameters are the expression evaluator, the lexicographic sort of the Arrow
    library and the Debug form of values. *)
From stdpp Require Import base list gmap sets numbers sorting.
From Stdlib Require Import ZArith Lia Bool.
From S2P Require Import Prelude Codec Alp Stats Column ColumnScan Operators Joins LogicalPlan Evaluator Aggregate.
Open Scope nat_scope.

(** [while let Some(chunk) = child.get_next()? { batches.push(chunk.batch) }] *)
Fixpoint collect_batches (child : Stream) : Stream * outcome (list RecordBatch) :=
  match child with
  | [] => ([], Ok [])
  | Ok b :: child => let '(rest, r) := collect_batches child in (rest, let* l := r in Ok (b :: l))
  | Err e :: child => (child, Err e)
  | Panic :: child => (child, Panic)
  end.

(** The columns of all batches, concatenated; a batch without columns is refused. *)
Definition concat_columns (bs : list RecordBatch) : outcome RecordBatch :=
  let* b := concat_batches bs in if decide (schema b = []) then Err Internal else Ok b.

Section sorting.
Context (eval_key : BoundExpression → RecordBatch → outcome (list (option Scalar))).
(** Columns with their direction; nulls come first in both. *)
Context (lexsort : list (list (option Scalar) * bool) → outcome (list nat)) (debug : Value → list Z).

Fixpoint sort_columns (items : list BoundOrderByItem) (b : RecordBatch) : outcome (list (list (option Scalar) * bool)) :=
  match items with
  | [] => Ok []
  | it :: items => let* col := eval_key (ord_expression it) b in let* rest := sort_columns items b in Ok ((col, descending it) :: rest)
  end.
Definition take_rows (b : RecordBatch) (idx : list nat) : RecordBatch := with_rows b (omap (λ i, rows b !! i) idx).

(** ** Sort *)

Definition MAX_SORT_MEMORY_ROWS : Z := 10000000.
Record SharedSort := mkSharedSort {
  ss_batches : list RecordBatch; sorted_result : option RecordBatch; sort_started : bool; results_returned : nat; num_collected : nat;
}.
Record PhysicalSort := mkSort { so_child : Stream; order_by : list BoundOrderByItem; so_shared : SharedSort; sort_done : bool; so_collected : bool }.
Definition sort_new (child : Stream) (items : list BoundOrderByItem) : PhysicalSort := mkSort child items (mkSharedSort [] None false 0 0) false false.

Definition do_sort (items : list BoundOrderByItem) (s : SharedSort) : outcome SharedSort :=
  match ss_batches s with
  | [] => Ok s
  | bs =>
      let* big := concat_columns bs in
      if decide (MAX_SORT_MEMORY_ROWS < Z.of_nat (num_rows big))%Z then Err Internal
      else
        let* cols := sort_columns items big in
        let* indices := lexsort cols in
        Ok (mkSharedSort [] (Some (take_rows big indices)) (sort_started s) (results_returned s) (num_collected s))
  end.
(** [signal_sort_done] on every path after the child has been read. *)
Definition collect_and_sort (o : PhysicalSort) : PhysicalSort * outcome unit :=
  match collect_batches (so_child o) with
  | (child, Ok local) =>
      let s := so_shared o in
      let s := mkSharedSort (ss_batches s ++ local) (sorted_result s) (sort_started s) (results_returned s) (num_collected s + 1) in
      if sort_started s then (mkSort child (order_by o) s true (so_collected o), Ok tt)
      else
        let s := mkSharedSort (ss_batches s) (sorted_result s) true (results_returned s) (num_collected s) in
        match do_sort (order_by o) s with
        | Ok s => (mkSort child (order_by o) s true (so_collected o), Ok tt)
        | Err e => (mkSort child (order_by o) s true (so_collected o), Err e)
        | Panic => (mkSort child (order_by o) s true (so_collected o), Panic)
        end
  | (child, Err e) => (mkSort child (order_by o) (so_shared o) (sort_done o) (so_collected o), Err e)
  | (child, Panic) => (mkSort child (order_by o) (so_shared o) (sort_done o) (so_collected o), Panic)
  end.
Definition sort_slice (o : PhysicalSort) : PhysicalSort * next_result :=
  let s := so_shared o in
  match sorted_result s with
  | None => (o, Ok None)
  | Some b =>
      let start := results_returned s in
      let total := num_rows b in
      if decide (total ≤ start) then (o, Ok None)
      else
        let end_ := (start + 1024) `min` total in
        (mkSort (so_child o) (order_by o) (mkSharedSort (ss_batches s) (sorted_result s) (sort_started s) end_ (num_collected s)) (sort_done o) (so_collected o),
         Ok (Some (slice_batch b start (end_ - start))))
  end.
Definition sort_next (o : PhysicalSort) : PhysicalSort * next_result :=
  if so_collected o then sort_slice o
  else
    match collect_and_sort o with
    | (o, Ok _) => sort_slice (mkSort (so_child o) (order_by o) (so_shared o) (sort_done o) true)
    | (o, Err e) => (o, Err e)
    | (o, Panic) => (o, Panic)
    end.

(** ** Top k *)

Record PhysicalTopK := mkTopK { tk_child : Stream; tk_order : list BoundOrderByItem; tk_limit : nat; tk_collected : bool; result_batch : option RecordBatch }.
Definition topk_new (child : Stream) (items : list BoundOrderByItem) (limit : nat) : PhysicalTopK := mkTopK child items limit false None.

(** The comparison of the bounded path. *)
Fixpoint compare_keys (a b : list Value) (desc : list bool) : comparison :=
  match a, b, desc with
  | x :: a, y :: b, d :: desc =>
      match default Eq (partial_cmp debug x y) with
      | Eq => compare_keys a b desc
      | c => if d then CompOpp c else c
      end
  | _, _, _ => Eq
  end.
Definition key_row (cols : list (list (option Scalar) * bool)) (i : nat) : list Value := map (λ c, from_arrow (mjoin (fst c !! i))) cols.
Definition keyed_le (desc : list bool) (a b : list Value * nat) : Prop := compare_keys (fst a) (fst b) desc ≠ Gt.
#[global] Instance keyed_le_dec desc : RelDecision (keyed_le desc).
Proof. intros a b. unfold keyed_le. apply _. Defined.
(** [select_nth_unstable_by] and [sort_unstable_by] on the first [k]: the [k] least
    in order.  Rows with equal keys come in any order; here in that of the input. *)
Definition bounded_top (cols : list (list (option Scalar) * bool)) (n k : nat) : list nat :=
  map snd (take k (merge_sort (keyed_le (map snd cols)) (map (λ i, (key_row cols i, i)) (seq 0 n)))).
Definition topk_indices (cols : list (list (option Scalar) * bool)) (n k : nat) : outcome (list nat) :=
  if decide (k * 2 < n) then Ok (bounded_top cols n (k `min` n))
  else let* idx := lexsort cols in Ok (take k idx).
Definition topk_build (o : PhysicalTopK) (bs : list RecordBatch) : outcome (option RecordBatch) :=
  match bs with
  | [] => Ok None
  | _ =>
      let* full := concat_batches bs in
      if decide (num_rows full = 0) then Ok None
      else
        let* cols := sort_columns (tk_order o) full in
        let* idx := topk_indices cols (num_rows full) (tk_limit o) in
        if decide (schema full = []) then Err Internal else Ok (Some (take_rows full idx))
  end.
Definition topk_next (o : PhysicalTopK) : PhysicalTopK * next_result :=
  if tk_collected o then (mkTopK (tk_child o) (tk_order o) (tk_limit o) true None, Ok (result_batch o))
  else
    match collect_batches (tk_child o) with
    | (child, Ok bs) =>
        let mk r := mkTopK child (tk_order o) (tk_limit o) true r in
        match topk_build o bs with
        | Ok r => (mk None, Ok r)
        | Err e => (mk (result_batch o), Err e)
        | Panic => (mk (result_batch o), Panic)
        end
    | (child, Err e) => (mkTopK child (tk_order o) (tk_limit o) true (result_batch o), Err e)
    | (child, Panic) => (mkTopK child (tk_order o) (tk_limit o) true (result_batch o), Panic)
    end.

(** ** Merging sorted children *)

Record NWayMerge := mkMerge { children : list Stream; mg_order : list BoundOrderByItem; merged : bool }.
Definition merge_new (cs : list Stream) (items : list BoundOrderByItem) : NWayMerge := mkMerge cs items false.
Definition compare_values (a b : Value) : comparison := default Eq (partial_cmp debug a b).
Fixpoint compare_key_slices (a b : list Value) : comparison :=
  match a, b with
  | x :: a, y :: b => match compare_values x y with Eq => compare_key_slices a b | c => c end
  | _, _ => Eq
  end.

Fixpoint collect_children (cs : list Stream) : list Stream * outcome (list (list RecordBatch)) :=
  match cs with
  | [] => ([], Ok [])
  | c :: cs =>
      match collect_batches c with
      | (c, Ok bs) => let '(rest, r) := collect_children cs in (c :: rest, let* l := r in Ok (bs :: l))
      | (c, Err e) => (c :: cs, Err e)
      | (c, Panic) => (c :: cs, Panic)
      end
  end.
Definition child_batch (bs : list RecordBatch) : outcome RecordBatch :=
  match bs with [] => Ok (mkBatch [] []) | [b] => Ok b | _ => concat_columns bs end.
(** The rows of a child with their keys. *)
Definition keyed_rows (items : list BoundOrderByItem) (b : RecordBatch) : outcome (list (list Value * Row)) :=
  if decide (num_rows b = 0) then Ok []
  else let* cols := sort_columns items b in Ok (imap (λ i r, (key_row cols i, r)) (rows b)).
Fixpoint map_outcome {A B} (f : A → outcome B) (l : list A) : outcome (list B) :=
  match l with [] => Ok [] | x :: l => let* y := f x in let* r := map_outcome f l in Ok (y :: r) end.

(** The heap pops the least key, and of equal ones the first child: the next row
    and what is left. *)
Fixpoint pop_least (cs : list (list (list Value * Row))) : option ((list Value * Row) * list (list (list Value * Row))) :=
  match cs with
  | [] => None
  | c :: cs =>
      match c, pop_least cs with
      | x :: c', Some (y, cs') => match compare_key_slices (fst x) (fst y) with Gt => Some (y, c :: cs') | _ => Some (x, c' :: cs) end
      | x :: c', None => Some (x, c' :: cs)
      | [], Some (y, cs') => Some (y, c :: cs')
      | [], None => None
      end
  end.
Fixpoint merge_rows (fuel : nat) (cs : list (list (list Value * Row))) : list Row :=
  match fuel with
  | O => []
  | S fuel => match pop_least cs with Some (x, cs) => snd x :: merge_rows fuel cs | None => [] end
  end.
Definition merge_build (items : list BoundOrderByItem) (batches : list (list RecordBatch)) : outcome (option RecordBatch) :=
  let* data := map_outcome child_batch batches in
  let total := sum_list_with num_rows data in
  match list_find (λ b, 0 < num_rows b) data with
  | None => Ok None
  | Some (_, b) =>
      let* cs := map_outcome (keyed_rows items) data in
      if decide (schema b = []) then Err Internal else Ok (Some (mkBatch (schema b) (map (rebuild_row (schema b)) (merge_rows total cs))))
  end.
Definition merge_next (o : NWayMerge) : NWayMerge * next_result :=
  if merged o then (o, Ok None)
  else
    match collect_children (children o) with
    | (cs, Ok batches) =>
        let o := mkMerge cs (mg_order o) true in
        match merge_build (mg_order o) batches with Ok r => (o, Ok r) | Err e => (o, Err e) | Panic => (o, Panic) end
    | (cs, Err e) => (mkMerge cs (mg_order o) true, Err e)
    | (cs, Panic) => (mkMerge cs (mg_order o) true, Panic)
    end.
End sorting.

(** ** Projection *)

Section projection.
Context (eval : BoundExpression → RecordBatch → outcome Vector) (debug_expr : BoundExpression → list Z).

(** Expressions with the same Debug form are evaluated once. *)
Fixpoint evaluate_items (items : list BoundProjectionItem) (b : RecordBatch) (known : list (list Z * Vector)) : outcome (list Vector) :=
  match items with
  | [] => Ok []
  | it :: items =>
      let d := debug_expr (item_expression it) in
      match list_find (λ p, fst p = d) known with
      | Some (_, (_, v)) => let* rest := evaluate_items items b known in Ok (v :: rest)
      | None =>
          let* v := eval (item_expression it) b in
          let* rest := evaluate_items items b (known ++ [(d, v)]) in Ok (v :: rest)
      end
  end.
(** [RecordBatch::try_new]: some column, and columns of the same length. *)
Definition batch_of (cols : list Vector) : outcome RecordBatch :=
  match cols with
  | [] => Err Internal
  | v :: _ =>
      let n := length (vec_cells v) in
      if forallb (λ c, length (vec_cells c) =? n) cols
      then Ok (mkBatch (map vec_type cols) (map (λ i, map (λ c, mjoin (vec_cells c !! i)) cols) (seq 0 n))) else Err Internal
  end.
Definition projection_next (items : list BoundProjectionItem) (child : Stream) : Stream * next_result :=
  match pull child with
  | (child, Ok (Some b)) =>
      (child, let* cols := evaluate_items items b [] in let* out := batch_of cols in Ok (Some out))
  | (child, r) => (child, r)
  end.
End projection.

(** ** Counts answered by the planner (count.rs) *)

Record PhysicalCount := mkCount { pc_count : Z; pc_done : bool }.
Definition count_next (o : PhysicalCount) : PhysicalCount * next_result :=
  if pc_done o then (o, Ok None) else (mkCount (pc_count o) true, Ok (Some (mkBatch [DInt64] [[Some (AInt64 (pc_count o))]]))).
