(* ===== verification/SortingSpec.v ===== *)
(** * What ORDER BY and projections compute (sort.rs, topk.rs, nway_merge.rs, projection.rs)

    ORDER BY hands out a sorted permutation of the rows; on integer keys the top-k
    operator gives the same keys as sorting and then limiting; projections compute
    every item on every row.  Nulls and merged descending streams are where the
    operators disagree. *)
From stdpp Require Import base list gmap sets numbers sorting strings.
From Stdlib Require Import ZArith Lia Bool.
From S2P Require Import Prelude Codec Alp Stats Column ColumnSpec ColumnScan Operators OperatorsSpec Joins LogicalPlan Evaluator Aggregate AggregateSpec Sorting.
Open Scope nat_scope.

(** ** Small integers as doubles keep their order *)

Section small.
Open Scope Z_scope.
(** The bits of a positive integer below 2^53. *)
Lemma small_bits n : 0 < n < 2 ^ 53 → ∃ e m, 0 ≤ e ≤ 52 ∧ 2 ^ 52 ≤ m < 2 ^ 53 ∧ m = n * 2 ^ (52 - e) ∧ 2 ^ e ≤ n < 2 ^ (e + 1) ∧ u64_as_f64 n = (e + 1023) * 2 ^ 52 + (m - 2 ^ 52).
Proof.
  intros Hn. assert (0 ≤ Z.log2 n ≤ 52) as He. { split; [apply Z.log2_nonneg|]. assert (Z.log2 n < 53); [apply Z.log2_lt_pow2; lia|lia]. }
  destruct (Z.log2_spec n ltac:(lia)) as [Hlo Hhi]. exists (Z.log2 n), (n * 2 ^ (52 - Z.log2 n)). split_and!; try done; try lia.
  - assert (2 ^ Z.log2 n * 2 ^ (52 - Z.log2 n) = 2 ^ 52) as E by (rewrite <- Z.pow_add_r by lia; f_equal; lia). assert (0 < 2 ^ (52 - Z.log2 n)) by (apply Z.pow_pos_nonneg; lia). nia.
  - assert (2 ^ Z.succ (Z.log2 n) * 2 ^ (52 - Z.log2 n) = 2 ^ 53) as E by (rewrite <- Z.pow_add_r by lia; f_equal; lia). assert (0 < 2 ^ (52 - Z.log2 n)) by (apply Z.pow_pos_nonneg; lia). nia.
  - unfold u64_as_f64. rewrite decide_False by lia. cbn zeta. by rewrite decide_True by lia.
Qed.
Lemma small_mono n k : 0 ≤ n < k → k < 2 ^ 53 → 0 ≤ u64_as_f64 n < u64_as_f64 k.
Proof.
  intros Hn Hk. destruct (small_bits k ltac:(lia)) as (e' & m' & He' & Hm' & Em' & Hk' & ->).
  destruct (decide (n = 0)) as [-> |Hn0]; [change (u64_as_f64 0) with 0; lia|].
  destruct (small_bits n ltac:(lia)) as (e & m & He & Hm & Em & Hn' & ->). split; [lia|].
  destruct (Z.lt_trichotomy e e') as [H|[<-|H]].
  - nia.
  - assert (0 < 2 ^ (52 - e)) by (apply Z.pow_pos_nonneg; lia). nia.
  - assert (2 ^ (e' + 1) ≤ 2 ^ e) by (apply Z.pow_le_mono_r; lia). lia.
Qed.
Lemma small_range n : 0 ≤ n < 2 ^ 53 → 0 ≤ u64_as_f64 n < 2047 * 2 ^ 52.
Proof.
  intros Hn. destruct (decide (n = 0)) as [-> |Hn0]; [change (u64_as_f64 0) with 0; lia|].
  destruct (small_bits n ltac:(lia)) as (e & m & He & Hm & _ & _ & ->). lia.
Qed.
Lemma small_nan b : 0 ≤ b < 2047 * 2 ^ 52 → is_nan b = false ∧ is_nan (2 ^ 63 + b) = false ∧ Stats.f64_key b = b ∧ Stats.f64_key (2 ^ 63 + b) = - b.
Proof.
  intros Hb. assert (b / 2 ^ 52 < 2047) by (apply Z.div_lt_upper_bound; lia). assert (0 ≤ b / 2 ^ 52) by (apply Z.div_pos; lia).
  assert (Stats.f64_exp b = b / 2 ^ 52) as E1 by (unfold Stats.f64_exp; apply Z.mod_small; lia).
  assert (Stats.f64_exp (2 ^ 63 + b) = b / 2 ^ 52) as E2.
  { unfold Stats.f64_exp. replace (2 ^ 63 + b) with (b + 2048 * 2 ^ 52) by lia. rewrite Z.div_add by lia. change 2048 with (1 * 2 ^ 11). rewrite Z.mod_add by lia. apply Z.mod_small. lia. }
  assert (f64_sign b = false) as S1.
  { unfold f64_sign. apply Z.bits_above_log2; [lia|]. destruct (decide (b = 0)) as [-> |]; [done|]. apply Z.log2_lt_pow2; lia. }
  assert (f64_sign (2 ^ 63 + b) = true) as S2.
  { unfold f64_sign. rewrite Z.testbit_true by lia. replace (2 ^ 63 + b) with (b + 1 * 2 ^ 63) by lia. rewrite Z.div_add by lia. rewrite (Z.div_small b) by lia. done. }
  unfold is_nan, Stats.f64_key. rewrite E1, E2, S1, S2. rewrite bool_decide_eq_false_2 by lia. split_and!; try done.
  - apply Z.mod_small. lia.
  - f_equal. replace (2 ^ 63 + b) with (b + 1 * 2 ^ 63) by lia. rewrite Z.mod_add by lia. apply Z.mod_small. lia.
Qed.
Lemma small_key z : - 2 ^ 53 < z < 2 ^ 53 → is_nan (int_as_f64 z) = false ∧ Stats.f64_key (int_as_f64 z) = if decide (z < 0) then - u64_as_f64 (- z) else u64_as_f64 z.
Proof.
  intros Hz. unfold int_as_f64. case_decide.
  - destruct (small_nan (u64_as_f64 (- z)) (small_range (- z) ltac:(lia))) as (_ & ? & _ & ?). done.
  - destruct (small_nan (u64_as_f64 z) (small_range z ltac:(lia))) as (? & _ & ? & _). done.
Qed.
(** Comparing as doubles is comparing as integers. *)
Lemma small_cmp x y : - 2 ^ 53 < x < 2 ^ 53 → - 2 ^ 53 < y < 2 ^ 53 → f64_cmp (int_as_f64 x) (int_as_f64 y) = Some (x ?= y).
Proof.
  assert (∀ x y, - 2 ^ 53 < x → x < y → y < 2 ^ 53 → Stats.f64_key (int_as_f64 x) < Stats.f64_key (int_as_f64 y)) as Hlt.
  { intros a b Ha Hab Hb. rewrite (proj2 (small_key a ltac:(lia))), (proj2 (small_key b ltac:(lia))). repeat case_decide; try lia.
    - pose proof (small_mono (- b) (- a) ltac:(lia) ltac:(lia)). lia.
    - pose proof (small_mono 0 (- a) ltac:(lia) ltac:(lia)). pose proof (small_range b ltac:(lia)). lia.
    - pose proof (small_mono a b ltac:(lia) ltac:(lia)). lia. }
  intros Hx Hy. unfold f64_cmp. rewrite (proj1 (small_key x Hx)), (proj1 (small_key y Hy)). cbn [orb]. f_equal.
  destruct (Z.compare_spec x y) as [-> |H|H]; [apply Z.compare_refl|apply Z.compare_lt_iff; apply Hlt; lia|apply Z.compare_gt_iff; apply Hlt; lia].
Qed.
End small.

(** ** The sort of the Arrow library *)

(** Nulls first in both directions. *)
Definition cell_cmp (desc : bool) (a b : option Scalar) : comparison :=
  match a, b with
  | None, None => Eq
  | None, _ => Lt
  | _, None => Gt
  | Some x, Some y => let c := default Eq (scalar_cmp x y) in if desc then CompOpp c else c
  end.
Fixpoint cells_cmp (desc : list bool) (a b : list (option Scalar)) : comparison :=
  match desc, a, b with
  | d :: desc, x :: a, y :: b => match cell_cmp d x y with Eq => cells_cmp desc a b | c => c end
  | _, _, _ => Eq
  end.
Definition cells_of (cols : list (list (option Scalar) * bool)) (i : nat) : list (option Scalar) := map (λ c, mjoin (fst c !! i)) cols.

(** [lexsort_to_indices]: the rows in lexicographic order of the columns. *)
Class LexSort (lexsort : list (list (option Scalar) * bool) → outcome (list nat)) : Prop :=
  lexsort_sorts : ∀ cols n, cols ≠ [] → Forall (λ c, length (fst c) = n) cols →
    ∃ idx, lexsort cols = Ok idx ∧ idx ≡ₚ seq 0 n ∧ Sorted (λ i j, cells_cmp (map snd cols) (cells_of cols i) (cells_of cols j) ≠ Gt) idx.

(** Taking rows by their numbers. *)
Lemma take_rows_perm b idx : idx ≡ₚ seq 0 (num_rows b) → rows (take_rows b idx) ≡ₚ rows b.
Proof. intros H. exact (take_all (rows b) idx H). Qed.
Lemma perm_in_range {A} (l : list A) idx : idx ≡ₚ seq 0 (length l) → Forall (λ i, is_Some (l !! i)) idx.
Proof. intros H. rewrite H. apply Forall_seq. intros j Hj. apply lookup_lt_is_Some. lia. Qed.
Lemma omap_lookup_map {A B} (f : A → B) (l : list A) idx : Forall (λ i, is_Some (l !! i)) idx → map Some (map f (omap (λ i, l !! i) idx)) = map (λ i, f <$> l !! i) idx.
Proof. induction 1 as [|i idx [x Hx] _ IH]; [done|]. cbn [omap list_omap map]. rewrite Hx. cbn. by f_equal. Qed.
Lemma sorted_rows {A} (l : list A) (R : nat → nat → Prop) (Q : A → A → Prop) idx :
  (∀ i j x y, l !! i = Some x → l !! j = Some y → R i j → Q x y) → Forall (λ i, is_Some (l !! i)) idx → Sorted R idx → Sorted Q (omap (λ i, l !! i) idx).
Proof.
  intros HR Hr. induction 1 as [|i idx Hs IH Hd]; [constructor|]. apply list.Forall_cons in Hr as [[x Hx] Hr]. cbn [omap list_omap]. rewrite Hx. constructor; [by apply IH|].
  destruct Hd as [|j idx Hij]; [constructor|]. apply list.Forall_cons in Hr as [[y Hy] _]. cbn [omap list_omap]. rewrite Hy. constructor. by eapply HR.
Qed.

(** ** Sort *)

Section sort.
Context (eval_key : BoundExpression → RecordBatch → outcome (list (option Scalar))) (lexsort : list (list (option Scalar) * bool) → outcome (list nat)).
Context `{!LexSort lexsort}.
(** The keys are computed row by row. *)
Context (key : BoundExpression → Row → option Scalar) (Hkey : ∀ e b, eval_key e b = Ok (map (key e) (rows b))).
Local Abbreviation sort_next := (sort_next eval_key lexsort).

Definition row_key (items : list BoundOrderByItem) (r : Row) : list (option Scalar) := map (λ it, key (ord_expression it) r) items.
Definition row_le (items : list BoundOrderByItem) (r r' : Row) : Prop := cells_cmp (map descending items) (row_key items r) (row_key items r') ≠ Gt.
Definition key_columns (items : list BoundOrderByItem) (l : list Row) : list (list (option Scalar) * bool) :=
  map (λ it, (map (key (ord_expression it)) l, descending it)) items.

Lemma sort_columns_keys items b : sort_columns eval_key items b = Ok (key_columns items (rows b)).
Proof using Hkey. induction items as [|it items IH]; [done|]. cbn [sort_columns]. rewrite Hkey, IH. done. Qed.
Lemma cells_of_columns items l i r : l !! i = Some r → cells_of (key_columns items l) i = row_key items r.
Proof. intros Hi. unfold cells_of, key_columns, row_key. rewrite map_map. apply map_ext. intros it. cbn [fst]. by rewrite list_lookup_fmap, Hi. Qed.
Lemma key_columns_desc items l : map snd (key_columns items l) = map descending items.
Proof. unfold key_columns. rewrite map_map. by apply map_ext. Qed.
Lemma key_columns_length items l : Forall (λ c, length (fst c) = length l) (key_columns items l).
Proof. apply List.Forall_map, list.Forall_true. intros it. cbn. by rewrite length_map. Qed.
(** The order the Arrow library finds. *)
Lemma lexsort_rows items l : items ≠ [] → ∃ idx, lexsort (key_columns items l) = Ok idx ∧ idx ≡ₚ seq 0 (length l) ∧
  omap (λ i, l !! i) idx ≡ₚ l ∧ Sorted (row_le items) (omap (λ i, l !! i) idx).
Proof using LexSort0.
  intros Hne. destruct (lexsort_sorts (key_columns items l) (length l)) as (idx & E & Hp & Hs); [by destruct items|apply key_columns_length|].
  exists idx. split_and!; [done|done|by apply take_all|]. eapply sorted_rows; [|by apply perm_in_range|exact Hs].
  intros i j x y Hx Hy. unfold row_le. by rewrite key_columns_desc, (cells_of_columns _ _ _ _ Hx), (cells_of_columns _ _ _ _ Hy).
Qed.

Lemma collect_all bs : collect_batches (map Ok bs) = ([], Ok bs).
Proof. induction bs as [|b bs IH]; [done|]. cbn [map collect_batches]. by rewrite IH. Qed.
Lemma slices_produce items b child signalled started n start :
  ∃ out, produces sort_next (mkSort child items (mkSharedSort [] (Some b) started start n) signalled true) out ∧ all_rows out = drop start (rows b) ∧ Forall (λ o, num_rows o ≤ 1024) out.
Proof.
  remember (num_rows b - start) as d eqn:Ed. revert start Ed. induction d as [d IH] using lt_wf_ind. intros start ->.
  destruct (decide (num_rows b ≤ start)) as [Hle|Hgt].
  { exists []. split_and!; [|by rewrite drop_ge|done]. eapply produces_end. unfold Sorting.sort_next. cbn [so_collected]. unfold sort_slice. cbn. by rewrite decide_True. }
  set (end_ := (start + 1024) `min` num_rows b). destruct (IH (num_rows b - end_) ltac:(lia) end_ eq_refl) as (out & Hp & Hr & Hn).
  exists (slice_batch b start (end_ - start) :: out). split_and!; [| |constructor; [|done]].
  - eapply produces_next; [|exact Hp]. unfold Sorting.sort_next. cbn [so_collected]. unfold sort_slice. cbn [so_shared sorted_result results_returned]. by rewrite decide_False.
  - rewrite all_rows_cons, Hr. cbn [slice_batch with_rows rows]. rewrite <- (take_drop (end_ - start) (drop start (rows b))) at 2. rewrite drop_drop. do 2 f_equal. lia.
  - unfold num_rows, slice_batch. cbn [with_rows rows]. rewrite length_take. lia.
Qed.

(** Sorting a child of at most 10 million rows: the rows in the order found. *)
Lemma sort_indices items types bs idx : types ≠ [] → Forall (λ b, schema b = types) bs → (Z.of_nat (length (all_rows bs)) ≤ MAX_SORT_MEMORY_ROWS)%Z →
  lexsort (key_columns items (all_rows bs)) = Ok idx →
  ∃ out, produces sort_next (sort_new (map Ok bs) items) out ∧ all_rows out = omap (λ i, all_rows bs !! i) idx ∧ Forall (λ o, num_rows o ≤ 1024) out.
Proof using Hkey LexSort0.
  intros Ht Hbs Hmax Hidx. destruct bs as [|b bs].
  { exists []. split_and!; [by eapply produces_end| |constructor]. clear. by induction idx as [|i idx IH]. }
  set (big := mkBatch types (all_rows (b :: bs))).
  destruct (slices_produce items (take_rows big idx) [] true true 1 0) as (out & Hp & Hr & Hn). rewrite drop_0 in Hr. change (rows (take_rows big idx)) with (omap (λ i, all_rows (b :: bs) !! i) idx) in Hr.
  exists out. split_and!; try done. eapply produces_same; [|exact Hp].
  assert (do_sort eval_key lexsort items (mkSharedSort (b :: bs) None true 0 1) = Ok (mkSharedSort [] (Some (take_rows big idx)) true 0 1)) as Hdo.
  { unfold do_sort. cbn [ss_batches]. unfold concat_columns. rewrite (concat_same types) by done. cbn [outcome_bind schema]. rewrite decide_False by done. fold big. cbn [outcome_bind].
    rewrite decide_False by (unfold num_rows, big; cbn [rows]; lia). rewrite sort_columns_keys. cbn [outcome_bind]. unfold big at 1. cbn [rows]. by rewrite Hidx. }
  unfold Sorting.sort_next. cbn [so_collected sort_new]. unfold collect_and_sort. cbn [so_child sort_new]. rewrite collect_all. cbn [so_shared sort_new sort_started order_by ss_batches sorted_result results_returned num_collected app Nat.add].
  by rewrite Hdo.
Qed.
Lemma sort_produces items types bs : items ≠ [] → types ≠ [] → Forall (λ b, schema b = types) bs → (Z.of_nat (length (all_rows bs)) ≤ MAX_SORT_MEMORY_ROWS)%Z →
  ∃ out, produces sort_next (sort_new (map Ok bs) items) out ∧ all_rows out ≡ₚ all_rows bs ∧ Sorted (row_le items) (all_rows out) ∧ Forall (λ o, num_rows o ≤ 1024) out.
Proof using Hkey LexSort0.
  intros Hi Ht Hbs Hmax. destruct (lexsort_rows items (all_rows bs) Hi) as (idx & Hidx & Hperm & Hrows & Hsorted).
  destruct (sort_indices items types bs idx Ht Hbs Hmax Hidx) as (out & Hp & Hr & Hn). exists out. by rewrite Hr.
Qed.
End sort.

(** C21. ORDER BY (sort.rs) over a child of at most 10 million rows hands out a sorted
    permutation of the child's rows, nulls first, in batches of at most 1024, for
    every sort of the Arrow library that sorts. *)
Theorem sort_rows (eval_key : BoundExpression → RecordBatch → outcome (list (option Scalar))) (lexsort : list (list (option Scalar) * bool) → outcome (list nat))
    (key : BoundExpression → Row → option Scalar) (items : list BoundOrderByItem) (types : list DataType) (bs : list RecordBatch) :
  LexSort lexsort → (∀ e b, eval_key e b = Ok (map (key e) (rows b))) → items ≠ [] → types ≠ [] → Forall (λ b, schema b = types) bs →
  (Z.of_nat (length (all_rows bs)) ≤ MAX_SORT_MEMORY_ROWS)%Z →
  ∃ out, produces (sort_next eval_key lexsort) (sort_new (map Ok bs) items) out ∧ all_rows out ≡ₚ all_rows bs ∧ Sorted (row_le key items) (all_rows out) ∧
    Forall (λ o, num_rows o ≤ 1024) out.
Proof. intros Hl Hk Hi Ht Hbs Hmax. by apply (sort_produces eval_key lexsort key Hk items types bs). Qed.

(** ** The order of values *)

Lemma bytes_cmp_swap a b : Stats.bytes_cmp b a = CompOpp (Stats.bytes_cmp a b).
Proof. revert b. induction a as [|x a IH]; intros [|y b]; try done. cbn [Stats.bytes_cmp]. rewrite (Z.compare_antisym x y). destruct (x ?= y)%Z; cbn; [apply IH|done|done]. Qed.
Lemma f64_cmp_swap a b : f64_cmp b a = CompOpp <$> f64_cmp a b.
Proof. unfold f64_cmp. rewrite orb_comm. destruct (_ || _); [done|]. cbn. f_equal. apply Z.compare_antisym. Qed.
(** [Value::partial_cmp] turns around with its arguments. *)
Lemma partial_cmp_swap debug a b : partial_cmp debug b a = CompOpp <$> partial_cmp debug a b.
Proof.
  revert a b. fix go 1. intros a b.
  assert (∀ x y, Some (Stats.bytes_cmp (debug y) (debug x)) = CompOpp <$> Some (Stats.bytes_cmp (debug x) (debug y))) as Hd by (intros; cbn; f_equal; apply bytes_cmp_swap).
  destruct a as [s|n|c| | | |l1| | |l1|l1|l1], b as [s'|n'|c'| | | |l2| | |l2|l2|l2]; try exact (Hd _ _); cbn [partial_cmp]; try reflexivity; try (cbn; f_equal; apply Z.compare_antisym).
  - cbn. f_equal. apply bytes_cmp_swap.
  - apply f64_cmp_swap.
  - assert (∀ n1 n2, (Some (n2 ?= n1)%Z : option comparison) = CompOpp <$> Some (n1 ?= n2)%Z) as Hlen by (intros; cbn; f_equal; apply Z.compare_antisym).
    generalize (Hlen (Z.of_nat (length l1)) (Z.of_nat (length l2))). generalize (Some (Z.of_nat (length l1) ?= Z.of_nat (length l2))%Z), (Some (Z.of_nat (length l2) ?= Z.of_nat (length l1))%Z).
    intros o o' Ho. revert l2. induction l1 as [|x l1 IH]; intros [|y l2]; try exact Ho.
    rewrite (go x y). destruct (partial_cmp debug x y) as [[]|]; cbn [fmap option_fmap option_map CompOpp]; try reflexivity. apply IH.
Qed.
Lemma compare_keys_swap debug a b desc : compare_keys debug b a desc = CompOpp (compare_keys debug a b desc).
Proof.
  revert b desc. induction a as [|x a IH]; intros [|y b] [|d desc]; try done. cbn [compare_keys]. rewrite (partial_cmp_swap debug x y).
  destruct (partial_cmp debug x y) as [[]|]; cbn; try apply IH; by destruct d.
Qed.
#[global] Instance keyed_le_total debug desc : Total (keyed_le debug desc).
Proof. intros a b. unfold keyed_le. rewrite (compare_keys_swap debug (fst a) (fst b)). destruct (compare_keys _ _ _ _); naive_solver. Qed.

(** ** Integer keys *)

Definition dir_le (desc : bool) (x y : Z) : Prop := if desc then (y ≤ x)%Z else (x ≤ y)%Z.
#[global] Instance dir_le_dec d : RelDecision (dir_le d).
Proof. intros x y. unfold dir_le. destruct d; apply _. Defined.
#[global] Instance dir_le_total d : Total (dir_le d).
Proof. intros x y. unfold dir_le. destruct d; lia. Qed.
#[global] Instance dir_le_trans d : Transitive (dir_le d).
Proof. intros x y z. unfold dir_le. destruct d; lia. Qed.
#[global] Instance dir_le_antisymm d : AntiSymm (=) (dir_le d).
Proof. intros x y. unfold dir_le. destruct d; lia. Qed.
Definition sort_keys (desc : bool) (l : list Z) : list Z := merge_sort (dir_le desc) l.

Lemma sorted_weaken {A} (P : A → Prop) (R Q : A → A → Prop) l : (∀ x y, P x → P y → R x y → Q x y) → Forall P l → Sorted R l → Sorted Q l.
Proof.
  intros H HP. induction 1 as [|x l _ IH Hd]; [constructor|]. apply list.Forall_cons in HP as [Hx HP]. constructor; [by apply IH|].
  destruct Hd; constructor. apply list.Forall_cons in HP as [? _]. by apply H.
Qed.
Lemma sorted_map {A} (f : A → Z) (R : Z → Z → Prop) l : Sorted (λ x y, R (f x) (f y)) l → Sorted R (map f l).
Proof. induction 1 as [|x l _ IH Hd]; [constructor|]. cbn. constructor; [done|]. destruct Hd; by constructor. Qed.
(** A sorted permutation has the sorted keys. *)
Lemma sorted_keys {A} (f : A → Z) d l l' : l ≡ₚ l' → Sorted (λ x y, dir_le d (f x) (f y)) l → map f l = sort_keys d (map f l').
Proof.
  intros Hp Hs. apply (Sorted_unique (dir_le d)); [by apply sorted_map|apply Sorted_merge_sort; apply _|]. unfold sort_keys. rewrite merge_sort_Permutation. by apply Permutation_map.
Qed.
Lemma omap_take {A} (l : list A) idx k : Forall (λ i, is_Some (l !! i)) idx → omap (λ i, l !! i) (take k idx) = take k (omap (λ i, l !! i) idx).
Proof. intros H. revert k. induction H as [|i idx [x Hx] _ IH]; intros [|k]; try done. cbn [take omap list_omap]. rewrite Hx. cbn [take]. f_equal. apply IH. Qed.

Lemma sorted_snd debug desc (f : nat → list Value) s : Forall (λ p, fst p = f (snd p)) s → Sorted (keyed_le debug desc) s →
  Sorted (λ i j, compare_keys debug (f i) (f j) desc ≠ Gt) (map snd s).
Proof.
  intros Hf. induction 1 as [|p s _ IH Hd]; [constructor|]. apply list.Forall_cons in Hf as [E Hf]. cbn. constructor; [by apply IH|].
  destruct Hd as [|q s Hpq]; constructor. apply list.Forall_cons in Hf as [E' _]. unfold keyed_le in Hpq. by rewrite E, E' in Hpq.
Qed.

Section topk.
Context (eval_key : BoundExpression → RecordBatch → outcome (list (option Scalar))) (lexsort : list (list (option Scalar) * bool) → outcome (list nat)) (debug : Value → list Z).
Context `{!LexSort lexsort} (key : BoundExpression → Row → option Scalar) (Hkey : ∀ e b, eval_key e b = Ok (map (key e) (rows b))).
Context (it : BoundOrderByItem) (kz : Row → Z).
(** The key of a row is an integer that is exact as a double. *)
Definition int_key (r : Row) : Prop := key (ord_expression it) r = Some (AInt64 (kz r)) ∧ (- 2 ^ 53 < kz r < 2 ^ 53)%Z.

Lemma row_le_int r r' : int_key r → int_key r' → row_le key [it] r r' → dir_le (descending it) (kz r) (kz r').
Proof.
  intros [E _] [E' _]. unfold row_le, row_key, dir_le. cbn [map]. rewrite E, E'. cbn [cells_cmp cell_cmp scalar_cmp default].
  destruct (descending it), (Z.compare_spec (kz r) (kz r')); cbn; intros ?; try lia; done.
Qed.
Lemma bounded_rows l : Forall int_key l → let cols := key_columns key [it] l in
  let idx := map snd (merge_sort (keyed_le debug (map snd cols)) (map (λ i, (key_row cols i, i)) (seq 0 (length l)))) in
  idx ≡ₚ seq 0 (length l) ∧ map kz (omap (λ i, l !! i) idx) = sort_keys (descending it) (map kz l).
Proof.
  intros Hl cols idx. set (keyed := map (λ i, (key_row cols i, i)) (seq 0 (length l))) in *.
  assert (merge_sort (keyed_le debug (map snd cols)) keyed ≡ₚ keyed) as Hp by apply merge_sort_Permutation.
  assert (idx ≡ₚ seq 0 (length l)) as Hidx.
  { unfold idx. etransitivity; [exact (Permutation_map snd Hp)|]. unfold keyed. rewrite map_map. cbn [snd]. by rewrite map_id. }
  split; [done|]. apply sorted_keys; [by apply take_all|]. pose proof (perm_in_range l idx Hidx) as Hr.
  assert (Sorted (λ i j, compare_keys debug (key_row cols i) (key_row cols j) (map snd cols) ≠ Gt) idx) as Hs.
  { apply sorted_snd; [|apply Sorted_merge_sort; apply _]. rewrite Hp. by apply List.Forall_map, list.Forall_true. }
  eapply sorted_rows; [|done|exact Hs]. intros i j x y Hx Hy. pose proof (proj1 (Forall_lookup _ _) Hl i x Hx) as [E1 B1]. pose proof (proj1 (Forall_lookup _ _) Hl j y Hy) as [E2 B2].
  unfold key_row, cols, key_columns. cbn [map fst snd]. rewrite !list_lookup_fmap, Hx, Hy. cbn [fmap option_fmap option_map mjoin option_join]. rewrite E1, E2. cbn [from_arrow compare_keys partial_cmp].
  rewrite small_cmp by done. unfold dir_le. destruct (descending it), (Z.compare_spec (kz x) (kz y)); cbn; intros ?; try lia; done.
Qed.
Lemma topk_idx l k : Forall int_key l → l ≠ [] → ∃ idx, topk_indices lexsort debug (key_columns key [it] l) (length l) k = Ok idx ∧
  map kz (omap (λ i, l !! i) idx) = take k (sort_keys (descending it) (map kz l)).
Proof using LexSort0.
  intros Hl Hne. unfold topk_indices. case_decide as Hk.
  - destruct (bounded_rows l Hl) as [Hp E]. eexists. split; [reflexivity|]. unfold bounded_top. rewrite <- firstn_map. change (firstn ?n ?l) with (take n l).
    rewrite omap_take by (by apply perm_in_range). rewrite <- firstn_map, E. rewrite Nat.min_l by lia. done.
  - destruct (lexsort_rows lexsort key [it] l) as (idx & Ei & Hp & Hperm & Hs); [done|]. rewrite Ei. eexists. split; [reflexivity|].
    rewrite omap_take by (by apply perm_in_range). rewrite <- firstn_map. change (firstn ?n ?l) with (take n l). f_equal. apply sorted_keys; [done|].
    eapply sorted_weaken; [exact row_le_int| |exact Hs]. by rewrite Hperm.
Qed.
End topk.

(** The rows the top-k operator hands out, by their numbers. *)
Lemma topk_rows (eval_key : BoundExpression → RecordBatch → outcome (list (option Scalar))) (lexsort : list (list (option Scalar) * bool) → outcome (list nat)) (debug : Value → list Z)
    (key : BoundExpression → Row → option Scalar) (Hkey : ∀ e b, eval_key e b = Ok (map (key e) (rows b))) items types bs k idx : types ≠ [] → Forall (λ b, schema b = types) bs →
  topk_indices lexsort debug (key_columns key items (all_rows bs)) (length (all_rows bs)) k = Ok idx →
  ∃ t, produces (topk_next eval_key lexsort debug) (topk_new (map Ok bs) items k) t ∧ all_rows t = omap (λ i, all_rows bs !! i) idx.
Proof.
  intros Ht Hbs Ei. assert (all_rows bs = [] → omap (λ i, all_rows bs !! i) idx = []) as Hnil by (intros ->; clear; by induction idx as [|i idx IH]).
  destruct bs as [|b bs]; [exists []; split; [by eapply produces_end|by rewrite Hnil]|].
  set (full := mkBatch types (all_rows (b :: bs))). destruct (decide (all_rows (b :: bs) = [])) as [E0|Hne].
  { exists []. split; [|by rewrite Hnil]. eapply produces_end. unfold topk_next. cbn [tk_collected topk_new tk_child]. rewrite collect_all. unfold topk_build.
    rewrite (concat_same types) by done. cbn [outcome_bind]. rewrite decide_True by (unfold num_rows; cbn [rows]; by rewrite E0). reflexivity. }
  exists [take_rows full idx]. split; [|unfold all_rows at 1; cbn [map concat]; by rewrite app_nil_r].
  eapply produces_next; cycle 1; [eapply (produces_end _ (mkTopK [] items k true None)); reflexivity|]. unfold topk_next. cbn [tk_collected topk_new tk_child]. rewrite collect_all. unfold topk_build.
  rewrite (concat_same types) by done. cbn [outcome_bind]. fold full. rewrite decide_False by (unfold num_rows, full; cbn [rows]; intros H; by apply nil_length_inv in H).
  cbn [tk_order topk_new tk_limit]. rewrite (sort_columns_keys eval_key key Hkey). cbn [outcome_bind]. unfold num_rows, full at 1 2. cbn [rows]. rewrite Ei. cbn [outcome_bind]. by rewrite decide_False.
Qed.

(** C22. ORDER BY with LIMIT k over at most 10 million rows of one schema: the top-k
    operator (topk.rs) that the optimiser puts in the place of a sort and a limit
    (sort.rs, limit_skip.rs) against these two, for any Arrow sort that sorts.  When
    there are at most 2k rows, it hands out the very same rows in the same order,
    whatever the number and the types of the keys, nulls included.  When there are
    more, and the one key is an integer between -2^53 and 2^53 (exclusively) that is
    never null, it hands out the same keys in the same order, the first k of the
    sorted ones.  For nulls and other keys the two differ beyond 2k rows
    ([topk_null_placement]). *)
Theorem topk_is_sort_limit (eval_key : BoundExpression → RecordBatch → outcome (list (option Scalar))) (lexsort : list (list (option Scalar) * bool) → outcome (list nat))
    (debug : Value → list Z) (key : BoundExpression → Row → option Scalar) (items : list BoundOrderByItem) (k : nat) (types : list DataType) (bs : list RecordBatch) :
  LexSort lexsort → (∀ e b, eval_key e b = Ok (map (key e) (rows b))) → items ≠ [] → types ≠ [] → Forall (λ b, schema b = types) bs →
  (Z.of_nat (length (all_rows bs)) ≤ MAX_SORT_MEMORY_ROWS)%Z →
  ∃ t s l, produces (topk_next eval_key lexsort debug) (topk_new (map Ok bs) items k) t ∧
    produces (sort_next eval_key lexsort) (sort_new (map Ok bs) items) s ∧ produces limit_next (limit_new (map Ok s) k) l ∧
    (length (all_rows bs) ≤ 2 * k → all_rows t = all_rows l) ∧
    ∀ it kz, items = [it] → Forall (int_key key it kz) (all_rows bs) →
      map kz (all_rows t) = map kz (all_rows l) ∧ map kz (all_rows l) = take k (sort_keys (descending it) (map kz (all_rows bs))).
Proof.
  intros HL Hk Hi Ht Hbs Hmax. destruct (lexsort_rows lexsort key items (all_rows bs) Hi) as (idx & Hidx & Hperm & Hrows & Hsorted).
  destruct (sort_indices eval_key lexsort key Hk items types bs idx Ht Hbs Hmax Hidx) as (s & Hps & Hs & _). destruct (limit_produces s 0 k) as (l & Hpl & El). rewrite Nat.sub_0_r in El.
  assert (∃ tidx, topk_indices lexsort debug (key_columns key items (all_rows bs)) (length (all_rows bs)) k = Ok tidx ∧ (length (all_rows bs) ≤ 2 * k → tidx = take k idx)) as (tidx & Et & Htake).
  { unfold topk_indices. case_decide as Hd; [eexists; split; [reflexivity|lia]|]. rewrite Hidx. by eexists. }
  destruct (topk_rows eval_key lexsort debug key Hk items types bs k tidx Ht Hbs Et) as (t & Hpt & Er).
  exists t, s, l. do 3 (split; [done|]). split.
  - intros Hle. rewrite Er, El, Hs, (Htake Hle). by apply omap_take, perm_in_range.
  - intros it kz -> Hl. assert (map kz (all_rows l) = take k (sort_keys (descending it) (map kz (all_rows bs)))) as Elk.
    { rewrite El, <- firstn_map. change (firstn ?n ?l) with (take n l). rewrite Hs. f_equal. apply sorted_keys; [done|]. eapply sorted_weaken; [exact (row_le_int key it kz)| |exact Hsorted]. by rewrite Hrows. }
    split; [|done]. rewrite Elk, Er. destruct (decide (all_rows bs = [])) as [E0|Hne].
    { rewrite E0. cbn [map]. replace (take k (sort_keys (descending it) [])) with (@nil Z) by (by destruct k). clear. by induction tidx as [|i tidx IH]. }
    destruct (topk_idx lexsort debug key it kz (all_rows bs) k Hl Hne) as (idx' & Ei & Ek). rewrite Et in Ei. by injection Ei as <-.
Qed.

(** ** Merging *)

Section merging.
Context (eval_key : BoundExpression → RecordBatch → outcome (list (option Scalar))) (debug : Value → list Z).
Context (key : BoundExpression → Row → option Scalar) (Hkey : ∀ e b, eval_key e b = Ok (map (key e) (rows b))).
Context (it : BoundOrderByItem) (kz : Row → Z).
Local Abbreviation int_key := (int_key key it kz).
Definition keyed (p : list Value * Row) : Prop := fst p = [VNumber (int_as_f64 (kz (snd p)))] ∧ (- 2 ^ 53 < kz (snd p) < 2 ^ 53)%Z.
Definition ascending (l : list (list Value * Row)) : Prop := StronglySorted (λ p q, (kz (snd p) ≤ kz (snd q))%Z) l.

Lemma slices_cmp p q : keyed p → keyed q → compare_key_slices debug (fst p) (fst q) = (kz (snd p) ?= kz (snd q))%Z.
Proof.
  intros [Ep Bp] [Eq_ Bq]. rewrite Ep, Eq_. cbn [compare_key_slices]. unfold compare_values. cbn [partial_cmp]. rewrite small_cmp by done. cbn [default]. by destruct (_ ?= _)%Z.
Qed.
Definition children_ok (cs : list (list (list Value * Row))) : Prop := Forall (λ c, Forall keyed c ∧ ascending c) cs.
Lemma pop_least_spec cs : children_ok cs →
  match pop_least debug cs with
  | None => concat cs = []
  | Some (x, cs') => concat cs ≡ₚ x :: concat cs' ∧ children_ok cs' ∧ keyed x ∧ Forall (λ y, (kz (snd x) ≤ kz (snd y))%Z) (concat cs')
  end.
Proof.
  induction 1 as [|c cs [Hk Ha] Hcs IH]; [done|]. cbn [pop_least]. destruct c as [|x c].
  - destruct (pop_least debug cs) as [[y cs']|]; [|done]. destruct IH as (Hp & Hok & Hy & Hmin). split_and!; try done. by constructor; [split; constructor|].
  - apply list.Forall_cons in Hk as [Hx Hk]. apply StronglySorted_inv in Ha as [Ha Hmin0]. destruct (pop_least debug cs) as [[y cs']|] eqn:E.
    + destruct IH as (Hp & Hok & Hy & Hmin). rewrite slices_cmp by done.
      assert ((kz (snd x) ≤ kz (snd y))%Z → concat ((x :: c) :: cs) ≡ₚ x :: concat (c :: cs) ∧ children_ok (c :: cs) ∧ keyed x ∧ Forall (λ y, (kz (snd x) ≤ kz (snd y))%Z) (concat (c :: cs))) as Hfirst.
      { intros Hle. split_and!; try done; [by constructor|]. cbn [concat]. apply List.Forall_app. split; [done|]. rewrite Hp. constructor; [done|]. eapply List.Forall_impl; [|exact Hmin]. cbn. intros. lia. }
      destruct (Z.compare_spec (kz (snd x)) (kz (snd y))); try (apply Hfirst; lia). split_and!; try done.
      * cbn [concat]. rewrite Hp. by rewrite <- Permutation_middle.
      * constructor; [|done]. split; [by constructor|]. by constructor.
      * cbn [concat app]. constructor; [lia|]. apply List.Forall_app. split; [|done]. eapply List.Forall_impl; [|exact Hmin0]. cbn. intros. lia.
    + split_and!; try done; [by constructor|]. cbn [concat]. rewrite IH, app_nil_r. done.
Qed.
Lemma merge_all_spec fuel cs : children_ok cs → length (concat cs) ≤ fuel →
  merge_rows debug fuel cs ≡ₚ map snd (concat cs) ∧ StronglySorted (λ r r', (kz r ≤ kz r')%Z) (merge_rows debug fuel cs).
Proof.
  revert cs. induction fuel as [|fuel IH]; intros cs Hok Hlen; cbn [merge_rows].
  { destruct (concat cs); [by split; constructor|cbn in Hlen; lia]. }
  pose proof (pop_least_spec cs Hok) as H. destruct (pop_least debug cs) as [[x cs']|]; [|rewrite H; by split; constructor].
  destruct H as (Hp & Hok' & Hx & Hmin). pose proof (Permutation_length Hp) as El. cbn [length] in El. destruct (IH cs' Hok' ltac:(lia)) as [Hperm Hs]. split.
  - rewrite (Permutation_map snd Hp). cbn [map]. by constructor.
  - constructor; [done|]. rewrite Hperm. by apply List.Forall_map.
Qed.

(** The children as the merge sees them. *)
Lemma keyed_rows_spec b : Forall int_key (rows b) → Sorted (λ r r', (kz r ≤ kz r')%Z) (rows b) →
  ∃ c, keyed_rows eval_key [it] b = Ok c ∧ map snd c = rows b ∧ Forall keyed c ∧ ascending c.
Proof using Hkey.
  intros Hi Hs. unfold keyed_rows. case_decide as Hn.
  { exists []. unfold num_rows in Hn. apply nil_length_inv in Hn. rewrite Hn. by repeat split; try constructor. }
  rewrite (sort_columns_keys eval_key key Hkey). cbn [outcome_bind]. eexists. split; [reflexivity|]. set (cols := key_columns key [it] (rows b)).
  assert (map snd (imap (λ i r, (key_row cols i, r)) (rows b)) = rows b) as Hsnd by (change (map snd) with (fmap (M:=list) (@snd (list Value) Row)); rewrite fmap_imap; unfold compose; cbn; rewrite <- (list_fmap_id (rows b)) at 2; rewrite <- imap_const; by apply imap_ext).
  split_and!; [done| |].
  - apply Forall_lookup. intros i p Hp. rewrite list_lookup_imap in Hp. destruct (rows b !! i) as [r|] eqn:Er; [|done]. injection Hp as <-.
    pose proof (proj1 (Forall_lookup _ _) Hi i r Er) as [E B]. split; [|done]. cbn [fst snd]. unfold key_row, cols, key_columns. cbn [map fst]. rewrite list_lookup_fmap, Er. cbn. by rewrite E.
  - apply Sorted_StronglySorted in Hs; [|intros x y z; lia]. rewrite <- Hsnd in Hs. unfold ascending. revert Hs. generalize (imap (λ i r, (key_row cols i, r)) (rows b)). intros c Hs.
    induction c as [|p c IH]; [constructor|]. apply StronglySorted_inv in Hs as [Hs Hf]. constructor; [by apply IH|]. exact (proj1 (List.Forall_map _ _ _) Hf).
Qed.
Lemma child_batch_spec types bs : types ≠ [] → Forall (λ b, schema b = types) bs →
  ∃ b, child_batch bs = Ok b ∧ rows b = all_rows bs ∧ (0 < num_rows b → schema b = types).
Proof.
  intros Ht Hbs. destruct bs as [|b1 [|b2 bs]].
  - eexists. split_and!; [reflexivity|done|]. cbn. lia.
  - exists b1. unfold all_rows. cbn. rewrite app_nil_r. apply list.Forall_cons in Hbs as [? _]. done.
  - cbn [child_batch]. unfold concat_columns. rewrite (concat_same types) by done. cbn [outcome_bind schema]. rewrite decide_False by done. eexists. split_and!; [reflexivity|done|done].
Qed.
Lemma children_spec types css : types ≠ [] → Forall (Forall (λ b, schema b = types)) css → Forall (λ bs, Forall int_key (all_rows bs) ∧ Sorted (λ r r', (kz r ≤ kz r')%Z) (all_rows bs)) css →
  ∃ data cs, map_outcome child_batch css = Ok data ∧ map_outcome (keyed_rows eval_key [it]) data = Ok cs ∧ children_ok cs ∧ map snd (concat cs) = concat (map all_rows css) ∧
    sum_list_with num_rows data = length (concat cs) ∧ Forall (λ b, 0 < num_rows b → schema b = types) data.
Proof using Hkey.
  intros Ht Hs Hk. induction Hs as [|bs css Hbs Hcss IH]; [by exists [], []; repeat split; try constructor|].
  apply list.Forall_cons in Hk as [[Hi Ha] Hk]. destruct (IH Hk) as (data & cs & E1 & E2 & Hok & Hrows & Hsum & Hsch).
  destruct (child_batch_spec types bs Ht Hbs) as (b & Eb & Hr & Hb). destruct (keyed_rows_spec b) as (c & Ec & Hc & Hkc & Hac); [by rewrite Hr|by rewrite Hr|].
  exists (b :: data), (c :: cs). cbn [map_outcome]. rewrite Eb, E1. cbn [outcome_bind]. rewrite Ec, E2. cbn [outcome_bind map concat sum_list_with].
  rewrite map_app, length_app, Hc, Hr, Hrows, Hsum. split_and!; try done; [by constructor| |by constructor].
  unfold num_rows. by rewrite <- Hc, length_map.
Qed.
Lemma collect_children_all css : collect_children (map (map Ok) css) = (map (λ _, []) css, Ok css).
Proof. induction css as [|bs css IH]; [done|]. cbn [map collect_children]. by rewrite collect_all, IH. Qed.
Lemma merge_produces types css : types ≠ [] → Forall (Forall (λ b, schema b = types)) css → Forall (λ bs, Forall int_key (all_rows bs) ∧ Sorted (λ r r', (kz r ≤ kz r')%Z) (all_rows bs)) css →
  concat (map all_rows css) ≠ [] →
  ∃ b l, produces (merge_next eval_key debug) (merge_new (map (map Ok) css) [it]) [b] ∧ rows b = map (rebuild_row types) l ∧ l ≡ₚ concat (map all_rows css) ∧
    map kz l = sort_keys false (map kz (concat (map all_rows css))).
Proof using Hkey.
  intros Ht Hs Hk Hne. destruct (children_spec types css Ht Hs Hk) as (data & cs & E1 & E2 & Hok & Hrows & Hsum & Hsch).
  destruct (merge_all_spec (length (concat cs)) cs Hok ltac:(lia)) as [Hperm Hsorted]. rewrite Hrows in Hperm.
  destruct (list_find (λ b, 0 < num_rows b) data) as [[i b0]|] eqn:Ef.
  - apply list_find_Some in Ef as (Hi & Hpos & Hfirst). pose proof (proj1 (Forall_lookup _ _) Hsch i b0 Hi Hpos) as Hb0.
    exists (mkBatch types (map (rebuild_row types) (merge_rows debug (length (concat cs)) cs))), (merge_rows debug (length (concat cs)) cs). split_and!; [|done|done|].
    + eapply produces_next; cycle 1; [eapply (produces_end _ (mkMerge (map (λ _, []) css) [it] true)); reflexivity|]. unfold merge_next. cbn [merged merge_new children]. rewrite collect_children_all.
      cbn [mg_order merge_new]. unfold merge_build. rewrite E1. cbn [outcome_bind].
      assert (list_find (λ b, 0 < num_rows b) data = Some (i, b0)) as -> by (apply list_find_Some; done). rewrite E2. cbn [outcome_bind]. rewrite Hb0, Hsum. by rewrite decide_False.
    + apply sorted_keys; [done|]. by apply StronglySorted_Sorted.
  - exfalso. apply Hne, nil_length_inv. rewrite <- Hrows, length_map, <- Hsum. apply list_find_None in Ef. clear -Ef. induction Ef as [|b l Hb _ IH]; [done|]. cbn. lia.
Qed.
End merging.

(** Merging the streams of parallel sort workers (nway_merge.rs) on an integer key:
    if every child is ascending, the rows handed out are all rows of the children,
    rebuilt from values, in ascending order, whatever direction was asked for. *)
Theorem merge_rows_ascending (eval_key : BoundExpression → RecordBatch → outcome (list (option Scalar))) (debug : Value → list Z) (key : BoundExpression → Row → option Scalar)
    (it : BoundOrderByItem) (kz : Row → Z) (types : list DataType) (css : list (list RecordBatch)) :
  (∀ e b, eval_key e b = Ok (map (key e) (rows b))) → types ≠ [] → Forall (Forall (λ b, schema b = types)) css →
  Forall (λ bs, Forall (int_key key it kz) (all_rows bs) ∧ Sorted (λ r r', (kz r ≤ kz r')%Z) (all_rows bs)) css → concat (map all_rows css) ≠ [] →
  ∃ b l, produces (merge_next eval_key debug) (merge_new (map (map Ok) css) [it]) [b] ∧ rows b = map (rebuild_row types) l ∧ l ≡ₚ concat (map all_rows css) ∧
    map kz l = sort_keys false (map kz (concat (map all_rows css))).
Proof. intros Hkey. by apply merge_produces. Qed.

(** ** Departures *)

(** The first column as the key. *)
Definition first_cell (e : BoundExpression) (r : Row) : option Scalar := mjoin (r !! 0).
Definition first_column (e : BoundExpression) (b : RecordBatch) : outcome (list (option Scalar)) := Ok (map (first_cell e) (rows b)).
Definition by_first (desc : bool) : BoundOrderByItem := mkOrder (ELiteral LitNull) desc.
Definition int_batch (l : list (option Z)) : RecordBatch := mkBatch [DInt64] (map (λ o, [AInt64 <$> o]) l).

(** ORDER BY x DESC LIMIT 1 (topk.rs) changes its mind on nulls with the number of
    rows: the null comes first among two rows, and last among three. *)
Theorem topk_null_placement (lexsort : list (list (option Scalar) * bool) → outcome (list nat)) (debug : Value → list Z) : LexSort lexsort →
  ∃ o o', topk_next first_column lexsort debug (topk_new [Ok (int_batch [None; Some 1]%Z)] [by_first true] 1) = (o, Ok (Some (int_batch [None]%Z))) ∧
    topk_next first_column lexsort debug (topk_new [Ok (int_batch [None; Some 1; Some 2]%Z)] [by_first true] 1) = (o', Ok (Some (int_batch [Some 2]%Z))).
Proof.
  intros HL. destruct (lexsort_sorts [([None; Some (AInt64 1)], true)] 2) as (idx & E & Hp & Hs); [done|by repeat constructor|].
  assert (idx = [0; 1]) as ->.
  { apply Permutation_sym, Permutation_length_2_inv in Hp as [-> | ->]; [done|]. exfalso. inversion Hs as [|? ? _ Hd]; subst. inversion Hd as [|? ? Hle]; subst. by apply Hle. }
  do 2 eexists. split; [|vm_compute; reflexivity]. clear -E. vm_compute. rewrite E. reflexivity.
Qed.

(** Merging descending streams (nway_merge.rs) does not give a descending one: 3, 1
    and 2 become 2, 3, 1. *)
Theorem merge_ignores_descending (debug : Value → list Z) :
  ∃ o, merge_next first_column debug (merge_new [[Ok (int_batch [Some 3; Some 1]%Z)]; [Ok (int_batch [Some 2]%Z)]] [by_first true]) = (o, Ok (Some (int_batch [Some 2; Some 3; Some 1]%Z))).
Proof. eexists. vm_compute. reflexivity. Qed.

(** ** Projections *)

Section projections.
Context (eval : BoundExpression → RecordBatch → outcome Vector) (debug_expr : BoundExpression → list Z) (type_of : BoundExpression → DataType) (value_of : BoundExpression → Row → option Scalar).
Context (Heval : ∀ e b, eval e b = Ok (mkVector (type_of e) (map (value_of e) (rows b)))).

Definition item_vector (b : RecordBatch) (it : BoundProjectionItem) : Vector := mkVector (type_of (item_expression it)) (map (value_of (item_expression it)) (rows b)).
Lemma evaluate_items_all items b known :
  (∀ d v it, (d, v) ∈ known → it ∈ items → debug_expr (item_expression it) = d → v = item_vector b it) →
  (∀ i j, i ∈ items → j ∈ items → debug_expr (item_expression i) = debug_expr (item_expression j) → item_vector b i = item_vector b j) →
  evaluate_items eval debug_expr items b known = Ok (map (item_vector b) items).
Proof using Heval.
  revert known. induction items as [|it items IH]; intros known Hk Hd; [done|]. cbn [evaluate_items map]. destruct (list_find _ known) as [[i [d v]]|] eqn:Ef.
  - apply list_find_Some in Ef as (Hi & Hdv & _). cbn [fst] in Hdv. apply list_elem_of_lookup_2 in Hi. rewrite (Hk d v it Hi (list_elem_of_here _ _) (eq_sym Hdv)).
    rewrite IH; [done| |]; [intros; eapply Hk; [done|by right|done]|intros; apply Hd; by right || done].
  - rewrite Heval. cbn [outcome_bind]. rewrite IH; [done| |intros; apply Hd; by right || done].
    intros d v it' [Hin|Hin]%elem_of_app Hit Hdb; [by apply (Hk d v it' Hin); [right|]|]. apply list_elem_of_singleton in Hin as [= -> ->]. apply (Hd it it'); [left|by right|by symmetry].
Qed.

Definition project (items : list BoundProjectionItem) (r : Row) : Row := map (λ it, value_of (item_expression it) r) items.
Lemma map_seq_lookup {A B} (f : option A → B) (l : list A) : map (λ i, f (l !! i)) (seq 0 (length l)) = map (f ∘ Some) l.
Proof. apply list_eq. intros i. rewrite !list_lookup_fmap. destruct (l !! i) as [x|] eqn:E.
  - rewrite lookup_seq_lt by (by eapply lookup_lt_Some). cbn. by rewrite E.
  - rewrite lookup_seq_ge; [done|]. by apply lookup_ge_None.
Qed.
Lemma batch_of_same cols n : cols ≠ [] → Forall (λ c, length (vec_cells c) = n) cols →
  batch_of cols = Ok (mkBatch (map vec_type cols) (map (λ i, map (λ c, mjoin (vec_cells c !! i)) cols) (seq 0 n))).
Proof.
  intros Hne H. assert (forallb (λ c, length (vec_cells c) =? n) cols = true) as Hf.
  { clear Hne. induction H as [|c l Hc _ IH]; [done|]. cbn [forallb]. by rewrite IH, Hc, Nat.eqb_refl. }
  destruct cols as [|c l]; [done|]. apply list.Forall_cons in H as [Hc _]. unfold batch_of. by rewrite Hc, Hf.
Qed.
Lemma batch_of_items items b : items ≠ [] → batch_of (map (item_vector b) items) = Ok (mkBatch (map (type_of ∘ item_expression) items) (map (project items) (rows b))).
Proof.
  intros Hne. rewrite (batch_of_same _ (length (rows b))); [|by destruct items|apply List.Forall_map, list.Forall_true; intros it; cbn; by rewrite length_map].
  do 2 f_equal; [by rewrite map_map|]. etransitivity; [|exact (map_seq_lookup (λ o, match o with Some r => project items r | None => map (λ _, None) items end) (rows b))].
  apply map_ext. intros i. rewrite map_map. destruct (rows b !! i) as [r|] eqn:Er; unfold project; apply map_ext; intros it; cbn [item_vector vec_cells]; rewrite list_lookup_fmap, Er; done.
Qed.
Lemma projection_produces items bs : items ≠ [] →
  (∀ i j, i ∈ items → j ∈ items → debug_expr (item_expression i) = debug_expr (item_expression j) → item_expression i = item_expression j) →
  ∃ out, produces (projection_next eval debug_expr items) (map Ok bs) out ∧ all_rows out = map (project items) (all_rows bs) ∧ length out = length bs.
Proof using Heval.
  intros Hne Hd. induction bs as [|b bs (out & Hp & Hr & Hl)]; [exists []; split_and!; [by eapply produces_end|done|done]|].
  exists (mkBatch (map (type_of ∘ item_expression) items) (map (project items) (rows b)) :: out). split_and!.
  - eapply produces_next; [|exact Hp]. unfold projection_next. cbn [map pull]. rewrite evaluate_items_all.
    + cbn [outcome_bind]. by rewrite batch_of_items.
    + by intros d v it H%elem_of_nil.
    + intros i j Hi Hj E. unfold item_vector. by rewrite (Hd i j Hi Hj E).
  - rewrite !all_rows_cons, map_app, Hr. done.
  - cbn. by rewrite Hl.
Qed.
End projections.

(** A projection (projection.rs) hands out, batch by batch, every item computed on
    every row, although items with the same Debug form are computed once; it is
    enough that different items have different forms. *)
Theorem projection_rows (eval : BoundExpression → RecordBatch → outcome Vector) (debug_expr : BoundExpression → list Z) (type_of : BoundExpression → DataType)
    (value_of : BoundExpression → Row → option Scalar) (items : list BoundProjectionItem) (bs : list RecordBatch) :
  (∀ e b, eval e b = Ok (mkVector (type_of e) (map (value_of e) (rows b)))) → items ≠ [] →
  (∀ i j, i ∈ items → j ∈ items → debug_expr (item_expression i) = debug_expr (item_expression j) → item_expression i = item_expression j) →
  ∃ out, produces (projection_next eval debug_expr items) (map Ok bs) out ∧ all_rows out = map (project value_of items) (all_rows bs) ∧ length out = length bs.
Proof. intros He Hne Hd. by apply (projection_produces eval debug_expr type_of value_of He). Qed.

(** ** Examples *)

(** A sort that sorts: by insertion of row numbers. *)
Lemma scalar_cmp_swap a b : scalar_cmp b a = CompOpp <$> scalar_cmp a b.
Proof.
  assert (∀ x y, Evaluator.bytes_cmp y x = CompOpp (Evaluator.bytes_cmp x y)) as Hb.
  { induction x as [|c x IH]; intros [|d y]; try done. cbn [Evaluator.bytes_cmp]. rewrite (Z.compare_antisym c d). destruct (c ?= d)%Z; cbn; [apply IH|done|done]. }
  destruct a, b; try done; cbn; f_equal; apply Z.compare_antisym || apply Hb.
Qed.
Lemma cells_cmp_swap desc a b : cells_cmp desc b a = CompOpp (cells_cmp desc a b).
Proof.
  revert a b. induction desc as [|d desc IH]; intros [|x a] [|y b]; try done. cbn [cells_cmp].
  assert (cell_cmp d y x = CompOpp (cell_cmp d x y)) as ->.
  { destruct x as [x|], y as [y|]; try done. cbn. rewrite (scalar_cmp_swap x y). destruct (scalar_cmp x y) as [[]|]; by destruct d. }
  destruct (cell_cmp d x y); cbn; [apply IH|done|done].
Qed.
Definition index_le (cols : list (list (option Scalar) * bool)) (i j : nat) : Prop := cells_cmp (map snd cols) (cells_of cols i) (cells_of cols j) ≠ Gt.
#[global] Instance index_le_dec cols : RelDecision (index_le cols).
Proof. intros i j. unfold index_le. apply _. Defined.
#[global] Instance index_le_total cols : Total (index_le cols).
Proof. intros i j. unfold index_le. rewrite (cells_cmp_swap _ (cells_of cols i) (cells_of cols j)). destruct (cells_cmp _ _ _); naive_solver. Qed.
Definition index_sort (cols : list (list (option Scalar) * bool)) : outcome (list nat) :=
  match cols with [] => Err Internal | c :: _ => Ok (merge_sort (index_le cols) (seq 0 (length (fst c)))) end.
#[global] Instance index_sort_sorts : LexSort index_sort.
Proof.
  intros cols n Hne H. destruct cols as [|c cols]; [done|]. apply list.Forall_cons in H as [Hc _]. eexists. split_and!; [reflexivity|by rewrite merge_sort_Permutation, Hc|].
  apply (Sorted_merge_sort (index_le (c :: cols))).
Qed.

Definition demo_rows : list RecordBatch := [int_batch [Some 3; Some 1]%Z; int_batch [Some 2]%Z].
Definition demo_key (r : Row) : Z := match first_cell (ELiteral LitNull) r with Some (AInt64 z) => z | _ => 0%Z end.

Lemma sort_rows_witness : ∃ out, produces (sort_next first_column index_sort) (sort_new (map Ok demo_rows) [by_first false]) out ∧ all_rows out ≡ₚ all_rows demo_rows ∧
  Sorted (row_le first_cell [by_first false]) (all_rows out) ∧ Forall (λ o, num_rows o ≤ 1024) out.
Proof. apply (sort_rows first_column index_sort first_cell [by_first false] [DInt64] demo_rows); [apply _|done|done|done|by repeat constructor|vm_compute; discriminate]. Defined.

(** The bounded path on integers, and two rows with a null on the Arrow path. *)
Lemma topk_is_sort_limit_witness :
  (∃ t s l, produces (topk_next first_column index_sort demo_text) (topk_new (map Ok demo_rows) [by_first true] 1) t ∧
    produces (sort_next first_column index_sort) (sort_new (map Ok demo_rows) [by_first true]) s ∧ produces limit_next (limit_new (map Ok s) 1) l ∧
    map demo_key (all_rows t) = map demo_key (all_rows l) ∧ map demo_key (all_rows l) = take 1 (sort_keys true (map demo_key (all_rows demo_rows)))) ∧
  (∃ t s l, produces (topk_next first_column index_sort demo_text) (topk_new [Ok (int_batch [Some 1; None]%Z)] [by_first false] 1) t ∧
    produces (sort_next first_column index_sort) (sort_new [Ok (int_batch [Some 1; None]%Z)] [by_first false]) s ∧ produces limit_next (limit_new (map Ok s) 1) l ∧ all_rows t = all_rows l).
Proof.
  split.
  - destruct (topk_is_sort_limit first_column index_sort demo_text first_cell [by_first true] 1 [DInt64] demo_rows) as (t & s & l & Ht & Hs & Hl & _ & H);
      [apply _|done|done|done|by repeat constructor|vm_compute; discriminate|].
    exists t, s, l. do 3 (split; [assumption|]). apply (H (by_first true) demo_key); [done|]. repeat constructor.
  - destruct (topk_is_sort_limit first_column index_sort demo_text first_cell [by_first false] 1 [DInt64] [int_batch [Some 1; None]%Z]) as (t & s & l & Ht & Hs & Hl & H & _);
      [apply _|done|done|done|by repeat constructor|vm_compute; discriminate|].
    exists t, s, l. do 3 (split; [assumption|]). apply H. by vm_compute.
Defined.

Lemma merge_rows_ascending_witness :
  ∃ b l, produces (merge_next first_column demo_text) (merge_new (map (map Ok) [[int_batch [Some 1; Some 3]%Z]; [int_batch [Some 2]%Z]]) [by_first false]) [b] ∧
    rows b = map (rebuild_row [DInt64]) l ∧ l ≡ₚ concat (map all_rows [[int_batch [Some 1; Some 3]%Z]; [int_batch [Some 2]%Z]]) ∧
    map demo_key l = sort_keys false (map demo_key (concat (map all_rows [[int_batch [Some 1; Some 3]%Z]; [int_batch [Some 2]%Z]]))).
Proof.
  apply (merge_rows_ascending first_column demo_text first_cell (by_first false) demo_key [DInt64] [[int_batch [Some 1; Some 3]%Z]; [int_batch [Some 2]%Z]]); try done; repeat constructor; vm_compute; discriminate.
Defined.

Lemma topk_null_placement_witness :
  ∃ o o', topk_next first_column index_sort demo_text (topk_new [Ok (int_batch [None; Some 1]%Z)] [by_first true] 1) = (o, Ok (Some (int_batch [None]%Z))) ∧
    topk_next first_column index_sort demo_text (topk_new [Ok (int_batch [None; Some 1; Some 2]%Z)] [by_first true] 1) = (o', Ok (Some (int_batch [Some 2]%Z))).
Proof. apply (topk_null_placement index_sort demo_text). apply _. Defined.

Lemma projection_rows_witness : let items := [mkItem (ELiteral LitNull) "a"%string; mkItem (ELiteral LitNull) "b"%string] in
  let eval := λ e b, Ok (mkVector DInt64 (map (first_cell e) (rows b))) in
  ∃ out, produces (projection_next eval (λ _, []) items) (map Ok demo_rows) out ∧ all_rows out = map (project first_cell items) (all_rows demo_rows) ∧ length out = length demo_rows.
Proof.
  intros items eval. apply (projection_rows eval (λ _, []) (λ _, DInt64) first_cell items demo_rows); [done|done|]. intros i j Hi Hj _.
  repeat (apply elem_of_cons in Hi as [-> |Hi]); try by apply elem_of_nil in Hi. all: repeat (apply elem_of_cons in Hj as [-> |Hj]); try done; by apply elem_of_nil in Hj.
Defined.
