(* ===== verification/Traversal.v ===== *)
(** * Graph traversal (processor/operators/recursive_join.rs, gds/all_shortest_paths.rs)

    Variable-length patterns are answered by a breadth-first search that remembers
    pairs of node and depth, [allShortestPaths] by one that remembers distances and
    all predecessors and then walks back from the destination.  The adjacency index
    is a parameter, the neighbours of a node or an error; the deadline of a
    traversal is a parameter that says whether it has passed at a given step.  Loops
    have fuel: one step per queue element, so the number of pairs of node and depth,
    or of nodes, is enough. *)
From stdpp Require Import base list gmap sets numbers.
From Stdlib Require Import ZArith Lia Bool.
From S2P Require Import Prelude Codec Stats Column ColumnScan Operators.
Open Scope nat_scope.

(** ** All shortest paths *)

Section shortest.
(** [csr.for_each_neighbor] *)
Context (neighbors : Z → outcome (list Z)).

(** The search: distances, predecessors, the queue, and the distance of the
    destination once it is known ([u32::MAX] before). *)
Record Bfs := mkBfs { visited : gmap Z nat; predecessors : gmap Z (list Z); queue : list Z; found_distance : option nat }.
Definition push_pred (s : Bfs) (n current : Z) : Bfs :=
  mkBfs (visited s) (<[n := default [] (predecessors s !! n) ++ [current]]> (predecessors s)) (queue s) (found_distance s).
(** [d >= found_distance] *)
Definition beyond (s : Bfs) (d : nat) : bool := match found_distance s with Some f => f <=? d | None => false end.

Definition bfs_neighbor (dst : Z) (max_depth : nat) (current : Z) (dist : nat) (s : Bfs) (n : Z) : Bfs :=
  let new_dist := dist + 1 in
  if bool_decide (n = dst) && (new_dist <=? max_depth) then
    let s := mkBfs (visited s) (predecessors s) (queue s) (Some (default new_dist (found_distance s))) in
    if bool_decide (found_distance s = Some new_dist) then push_pred s n current else s
  else if beyond s new_dist then s
  else
    match visited s !! n with
    | Some e => if decide (new_dist = e) then push_pred s n current else s
    | None =>
        let s := push_pred s n current in
        mkBfs (<[n := new_dist]> (visited s)) (predecessors s) (queue s ++ [n]) (found_distance s)
    end.
Fixpoint bfs_loop (fuel : nat) (dst : Z) (max_depth : nat) (s : Bfs) : outcome Bfs :=
  match fuel, queue s with
  | _, [] => Ok s
  | O, _ => Panic
  | S fuel, current :: q =>
      let s := mkBfs (visited s) (predecessors s) q (found_distance s) in
      match visited s !! current with
      | None => Panic
      | Some dist =>
          if beyond s dist || (max_depth <=? dist) then bfs_loop fuel dst max_depth s
          else
            let* ns := neighbors current in
            bfs_loop fuel dst max_depth (foldl (bfs_neighbor dst max_depth current dist) s ns)
      end
  end.

(** The way back: a stack of nodes with the path from the destination to them. *)
Fixpoint walk_back (fuel : nat) (src : Z) (preds : gmap Z (list Z)) (stack : list (Z * list Z)) (all_paths : list (list Z)) : outcome (list (list Z)) :=
  match fuel, stack with
  | _, [] => Ok all_paths
  | O, _ => Panic
  | S fuel, (node, path) :: stack =>
      if decide (node = src) then walk_back fuel src preds stack (all_paths ++ [reverse path])
      else walk_back fuel src preds (reverse (map (λ p, (p, path ++ [p])) (default [] (preds !! node))) ++ stack) all_paths
  end.
Definition bfs_shortest_path (fuel back_fuel : nat) (src_id dst_id : Z) (max_depth : nat) : outcome (list (list Z)) :=
  if decide (src_id = dst_id) then Ok [[src_id]]
  else
    let* s := bfs_loop fuel dst_id max_depth (mkBfs {[src_id := 0]} ∅ [src_id] None) in
    match found_distance s with
    | None => Ok []
    | Some _ => walk_back back_fuel src_id (predecessors s) [(dst_id, [dst_id])] []
    end.
End shortest.

(** The operator: the rows of a chunk are taken two at a time. *)
Section asp.
(** [get_csr], and the search on it; the Display form of a path. *)
Context (csr : option (Z → Z → outcome (list (list Z)))) (path_text : list Z → list Z).

Record PhysicalASP := mkASP { asp_child : Stream; current_chunk : option RecordBatch; chunk_row_idx : nat }.
Definition asp_new (child : Stream) : PhysicalASP := mkASP child None 0.
Definition node_of (c : option Scalar) : option Z :=
  match from_arrow c with VNode id => Some id | VNumber n => Some (f64_as_u64 n) | _ => None end.
Definition build_chunk_for_source (src_id dst_id : Z) (found_paths : list (list Z)) : RecordBatch :=
  mkBatch [DUInt64; DUInt64; DUtf8] (map (λ p, [Some (AUInt64 src_id); Some (AUInt64 dst_id); Some (AUtf8 (path_text p))]) found_paths).

(** The rows of the chunk from an even position on. *)
Fixpoint asp_rows (child : Stream) (b : RecordBatch) (idx : nat) (fuel : nat) : (PhysicalASP * next_result) + unit :=
  match fuel with
  | O => inr tt
  | S fuel =>
      if idx + 1 <? num_rows b then
        let cell i := mjoin ((rows b !! idx) ≫= λ r, r !! i) in
        match length (schema b) with
        | O => inl (mkASP child (Some b) idx, Panic)
        | S n =>
            match node_of (cell 0) with
            | None => inl (mkASP child (Some b) idx, Ok None)
            | Some src_id =>
                if decide (n = 0) then inl (mkASP child (Some b) idx, Panic)
                else
                  match node_of (cell 1) with
                  | None => inl (mkASP child (Some b) idx, Ok None)
                  | Some dst_id =>
                      match csr with
                      | None => asp_rows child b (idx + 2) fuel
                      | Some find =>
                          match find src_id dst_id with
                          | Ok [] => asp_rows child b (idx + 2) fuel
                          | Ok paths => inl (mkASP child (Some b) (idx + 2), Ok (Some (build_chunk_for_source src_id dst_id paths)))
                          | Err e => inl (mkASP child (Some b) (idx + 2), Err e)
                          | Panic => inl (mkASP child (Some b) (idx + 2), Panic)
                          end
                      end
                  end
            end
        end
      else inr tt
  end.
Fixpoint asp_chunks (child : Stream) : PhysicalASP * next_result :=
  match child with
  | [] => (mkASP [] None 0, Ok None)
  | Ok b :: child => match asp_rows child b 0 (S (num_rows b)) with inl r => r | inr _ => asp_chunks child end
  | Err e :: child => (mkASP child None 0, Err e)
  | Panic :: child => (mkASP child None 0, Panic)
  end.
Definition asp_next (o : PhysicalASP) : PhysicalASP * next_result :=
  match current_chunk o with
  | None => asp_chunks (asp_child o)
  | Some b => match asp_rows (asp_child o) b (chunk_row_idx o) (S (num_rows b)) with inl r => r | inr _ => asp_chunks (asp_child o) end
  end.
End asp.

(** ** Variable-length patterns *)

(** A column of a table, as the join sees it: its type and [get_value]. *)
Record ColumnView := mkColumnView { col_type : LogicalType; get_value : Z → outcome Value }.

Definition MAX_FALLBACK_RELS : nat := Z.to_nat 1000000.
(** The adjacency map built from the relationship table when it has no index; rows
    that cannot be read, or do not hold two node ids, are passed over. *)
Fixpoint scan_rels (src_col dst_col : ColumnView) (map : gmap Z (list Z)) (rs : list Z) : outcome (gmap Z (list Z)) :=
  match rs with
  | [] => Ok map
  | r_idx :: rs =>
      match get_value src_col r_idx with
      | Panic => Panic
      | Err _ => scan_rels src_col dst_col map rs
      | Ok s_val =>
          match get_value dst_col r_idx with
          | Panic => Panic
          | Err _ => scan_rels src_col dst_col map rs
          | Ok d_val =>
              match s_val, d_val with
              | VNode s_id, VNode d_id => scan_rels src_col dst_col (<[s_id := default [] (map !! s_id) ++ [d_id]]> map) rs
              | _, _ => scan_rels src_col dst_col map rs
              end
          end
      end
  end.
Definition fallback_adj (rel_columns : list ColumnView) (cardinality : nat) : outcome (gmap Z (list Z)) :=
  match rel_columns with
  | src_col :: dst_col :: _ => scan_rels src_col dst_col ∅ (Z.of_nat <$> seq 0 (Nat.min cardinality MAX_FALLBACK_RELS))
  | _ => Panic
  end.
(** The neighbours of a node, from the index or from the map. *)
Definition rel_neighbors (csr : option (Z → outcome (list Z))) (rel_columns : list ColumnView) (cardinality : nat) (node_id : Z) : outcome (list Z) :=
  match csr with
  | Some get_neighbors => get_neighbors node_id
  | None => let* adj := fallback_adj rel_columns cardinality in Ok (default [] (adj !! node_id))
  end.

Section recursive.
(** The index after [ensure_csr_fresh], or its error; the tables; the clock: whether
    the deadline has passed when the [n]th queue element of a chunk is taken. *)
Context (csr : outcome (option (Z → outcome (list Z)))) (rel_columns dst_columns : list ColumnView) (cardinality : nat) (late : nat → bool).

Record PhysicalRecursiveJoin := mkRecursiveJoin { rj_child : Stream; src_var_idx : nat; bounds : nat * nat }.
Definition Visit : Type := (Z * Z) * nat.

Definition rec_neighbor (node_id : Z) (depth : nat) (st : gset (Z * nat) * list Visit) (neighbor_id : Z) : gset (Z * nat) * list Visit :=
  let '(visited_nodes, queue) := st in
  if decide ((neighbor_id, depth + 1) ∈ visited_nodes) then st
  else ({[(neighbor_id, depth + 1)]} ∪ visited_nodes, queue ++ [((neighbor_id, node_id), depth + 1)]).

Fixpoint read_row (cols : list ColumnView) (id : Z) : outcome (list Value) :=
  match cols with
  | [] => Ok []
  | c :: cols => let* v := get_value c id in let* vs := read_row cols id in Ok (v :: vs)
  end.
Definition rel_props (src_id node_id : Z) : list Value :=
  imap (λ prop_idx _, match prop_idx with 0 => VNode src_id | 1 => VNode node_id | _ => VNull end) rel_columns.
(** The values pushed on the columns for one queue element. *)
Definition rec_row (r : Row) (v : Visit) : outcome (list Value) :=
  let '((node_id, src_id), depth) := v in
  let* props := read_row dst_columns node_id in
  Ok (map from_arrow r ++ props ++ rel_props src_id node_id ++ [VNumber (int_as_f64 (Z.of_nat depth)); VNode node_id]).

(** The queue of one start node; [ticks] counts the elements taken in this chunk. *)
Fixpoint rec_loop (fuel : nat) (neighbors : Z → outcome (list Z)) (bounds : nat * nat) (r : Row) (ticks : nat) (visited_nodes : gset (Z * nat)) (queue : list Visit) (final : list (list Value)) :
  outcome (nat * list (list Value)) :=
  match fuel, queue with
  | _, [] => Ok (ticks, final)
  | O, _ => Panic
  | S fuel, ((node_id, src_id), depth) :: queue =>
      if late ticks then Err Internal
      else if snd bounds <? depth then rec_loop fuel neighbors bounds r (S ticks) visited_nodes queue final
      else
        let* final := if (fst bounds <=? depth) && (0 <? depth) then let* vs := rec_row r ((node_id, src_id), depth) in Ok (final ++ [vs]) else Ok final in
        if depth <? snd bounds then
          let* ns := neighbors node_id in
          let '(visited_nodes, queue) := foldl (rec_neighbor node_id depth) (visited_nodes, queue) ns in
          rec_loop fuel neighbors bounds r (S ticks) visited_nodes queue final
        else rec_loop fuel neighbors bounds r (S ticks) visited_nodes queue final
  end.
Fixpoint rec_rows (fuel : nat) (neighbors : Z → outcome (list Z)) (src_var_idx : nat) (bounds : nat * nat) (l : list Row) (ticks : nat) (final : list (list Value)) : outcome (list (list Value)) :=
  match l with
  | [] => Ok final
  | r :: l =>
      match r !! src_var_idx with
      | None => Panic
      | Some c =>
          match node_of c with
          | None => rec_rows fuel neighbors src_var_idx bounds l ticks final
          | Some start_id =>
              let* st := rec_loop fuel neighbors bounds r ticks {[(start_id, 0)]} [((start_id, start_id), 0)] final in
              rec_rows fuel neighbors src_var_idx bounds l (fst st) (snd st)
          end
      end
  end.

(** [get_output_field_type] on every position. *)
Definition output_types (chunk : list DataType) : list DataType :=
  chunk ++ map (λ c, logical_type_to_arrow_type (col_type c)) dst_columns ++ map (λ c, logical_type_to_arrow_type (col_type c)) rel_columns ++ [DInt64; DUInt64].
Definition rec_batch (chunk : list DataType) (final : list (list Value)) : RecordBatch :=
  mkBatch (output_types chunk) (map (zip_with value_to_cell (output_types chunk)) final).

Fixpoint recursive_pull (fuel : nat) (src_var_idx : nat) (bounds : nat * nat) (child : Stream) : Stream * next_result :=
  match child with
  | [] => ([], Ok None)
  | Err e :: child => (child, Err e)
  | Panic :: child => (child, Panic)
  | Ok b :: child =>
      match (let* index := csr in rec_rows fuel (rel_neighbors index rel_columns cardinality) src_var_idx bounds (rows b) 0 []) with
      | Ok [] => recursive_pull fuel src_var_idx bounds child
      | Ok final => (child, Ok (Some (rec_batch (schema b) final)))
      | Err e => (child, Err e)
      | Panic => (child, Panic)
      end
  end.
Definition recursive_join_next (fuel : nat) (o : PhysicalRecursiveJoin) : PhysicalRecursiveJoin * next_result :=
  let '(child, res) := recursive_pull fuel (src_var_idx o) (bounds o) (rj_child o) in
  (mkRecursiveJoin child (src_var_idx o) (bounds o), res).
End recursive.

(** The depths of a pattern, as the planner passes them on. *)
Definition U32_MAX : nat := Z.to_nat 4294967295.
Definition planned_bounds (b : option (option nat * option nat)) : nat * nat :=
  (default 1 (b ≫= fst), default U32_MAX (b ≫= snd)).
