(* ===== verification/TraversalSpec.v ===== *)
(** * What the traversals find (recursive_join.rs, gds/all_shortest_paths.rs)

    The shortest-path search returns exactly the paths of least length, each once
    when there are no parallel edges; the recursive join returns exactly the pairs of
    node and depth for which there is a walk of that length. *)
From stdpp Require Import base list gmap sets numbers sorting.
From Stdlib Require Import ZArith Lia Bool.
From S2P Require Import Prelude Codec Stats Column ColumnScan Operators OperatorsSpec Traversal.
Open Scope nat_scope.

(** ** Walks *)

Section walks.
Context (adj : Z → list Z) (src : Z).

(** There is a walk of this length from the source. *)
Inductive reach : nat → Z → Prop :=
| reach_0 : reach 0 src
| reach_S k a b : reach k a → b ∈ adj a → reach (S k) b.
(** A walk, as the list of its nodes. *)
Inductive path_to : nat → Z → list Z → Prop :=
| path_0 : path_to 0 src [src]
| path_S k a b p : path_to k a p → b ∈ adj a → path_to (S k) b (p ++ [b]).
Definition distance (k : nat) (n : Z) : Prop := reach k n ∧ ∀ j, reach j n → k ≤ j.

Lemma path_reach k n p : path_to k n p → reach k n.
Proof. induction 1; econstructor; done. Qed.
Lemma reach_path k n : reach k n → ∃ p, path_to k n p.
Proof. induction 1 as [|k a b _ [p Hp] Hb]; [exists [src]; constructor|]. exists (p ++ [b]). by econstructor. Qed.
Lemma path_length k n p : path_to k n p → length p = S k.
Proof. induction 1; [done|]. rewrite length_app. cbn. lia. Qed.
Lemma reach_zero n : reach 0 n → n = src.
Proof. by inversion 1. Qed.
Lemma distance_unique i j n : distance i n → distance j n → i = j.
Proof. intros [H1 H2] [H3 H4]. apply H2 in H3. apply H4 in H1. lia. Qed.
(** The node before a node at distance [S k] on a walk of that length. *)
Lemma distance_pred k a n : distance (S k) n → reach k a → n ∈ adj a → distance k a.
Proof. intros [_ Hmin] Ha Hn. split; [done|]. intros j Hj. specialize (Hmin (S j) (reach_S j a n Hj Hn)). lia. Qed.
End walks.

Lemma strongly_weaken {A} (P : A → Prop) (R Q : A → A → Prop) l : (∀ x y, P x → P y → R x y → Q x y) → StronglySorted R l → Forall P l → StronglySorted Q l.
Proof.
  intros H Hs HP. induction Hs as [|x l _ IH Hf]; [constructor|]. apply list.Forall_cons in HP as [Hx HP]. constructor; [by apply IH|].
  apply Forall_forall. intros y Hy. apply H; [done|by eapply Forall_forall in HP|by eapply Forall_forall in Hf].
Qed.

Lemma filter_images {A B} (f : A → B) (P : A → bool) (l : list A) y : y ∈ map f (filter P l) → y ∈ map f l.
Proof. intros (x & -> & [_ Hx]%list_elem_of_filter)%list_elem_of_fmap. by apply list_elem_of_fmap_2. Qed.
Lemma filter_nodup {A B} (f : A → B) (P : A → bool) (l : list A) : NoDup (map f l) → NoDup (map f (filter P l)).
Proof.
  induction l as [|x l IH]; [done|]. cbn [map]. intros [Hx Hl]%NoDup_cons. rewrite filter_cons. case_decide; [|by apply IH]. cbn [map]. constructor; [|by apply IH]. by intros ?%filter_images.
Qed.
Lemma filter_sorted {A B} (R : B → B → Prop) (f : A → B) (P : A → bool) (l : list A) : StronglySorted R (map f l) → StronglySorted R (map f (filter P l)).
Proof.
  induction l as [|x l IH]; [done|]. cbn [map]. intros Hs. inversion Hs as [|? ? Hl Hf]; subst. rewrite filter_cons. case_decide; [|by apply IH]. cbn [map]. constructor; [by apply IH|].
  apply Forall_forall. intros y Hy%filter_images. by eapply Forall_forall in Hf.
Qed.

(** ** The search *)

Section search.
Context (adj : Z → list Z) (neighbors : Z → outcome (list Z)) (Hadj : ∀ n, neighbors n = Ok (adj n)).
Context (src dst : Z) (max : nat) (Hne : src ≠ dst).
Local Abbreviation reach := (reach adj src).
Local Abbreviation distance := (distance adj src).
Definition preds_of (s : Bfs) (n : Z) : list Z := default [] (predecessors s !! n).

(** What holds of a state whose examined edges are [seen]. *)
Record search_inv (seen : Z → Z → Prop) (s : Bfs) : Prop := {
  inv_src : visited s !! src = Some 0;
  inv_exact : ∀ n k, visited s !! n = Some k → distance k n ∧ n ≠ dst ∧ k ≤ max;
  inv_queue : NoDup (queue s) ∧ Forall (λ q, is_Some (visited s !! q)) (queue s);
  inv_edge : ∀ a b, seen a b → b ∈ adj a ∧ is_Some (visited s !! a);
  inv_seen : ∀ a b k, seen a b → b ≠ dst → visited s !! a = Some k → beyond s (S k) = false → is_Some (visited s !! b);
  inv_pred : ∀ a b, b ≠ dst → a ∈ preds_of s b → seen a b ∧ ∃ k, visited s !! a = Some k ∧ visited s !! b = Some (S k);
  inv_pred_all : ∀ a b k, seen a b → visited s !! a = Some k → visited s !! b = Some (S k) → beyond s (S k) = false → a ∈ preds_of s b;
  inv_none : found_distance s = None → preds_of s dst = [] ∧ ∀ a, ¬ seen a dst;
  inv_found : ∀ d, found_distance s = Some d → d ≤ max ∧ distance d dst ∧ ∀ a, a ∈ preds_of s dst ↔ seen a dst ∧ visited s !! a = Some (d - 1);
  inv_nodup : ∀ n, NoDup (preds_of s n);
}.
(** All edges of a node have been examined, unless it is too far. *)
Definition complete (seen : Z → Z → Prop) (s : Bfs) (a : Z) : Prop :=
  ∀ k, visited s !! a = Some k → k < max → beyond s k = false → ∀ b, b ∈ adj a → seen a b.
(** The queue holds nodes of two consecutive levels, in order. *)
Definition levels (s : Bfs) (k : nat) : Prop :=
  (∀ n j, visited s !! n = Some j → j ≤ S k) ∧
  (∀ n j, visited s !! n = Some j → n ∉ queue s → j ≤ k) ∧
  (∀ q j, q ∈ queue s → visited s !! q = Some j → k ≤ j) ∧
  StronglySorted (λ p q, ∀ i j, visited s !! p = Some i → visited s !! q = Some j → i ≤ j) (queue s) ∧
  (∀ d, found_distance s = Some d → d ≤ S k).

(** Before the destination is known: every node within reach of complete nodes is
    known, and is not the destination. *)
Lemma ball seen s k : search_inv seen s → found_distance s = None → k ≤ max → (∀ a j, visited s !! a = Some j → j < k → complete seen s a) →
  ∀ j n, reach j n → j ≤ k → n ≠ dst ∧ ∃ i, visited s !! n = Some i ∧ i ≤ j.
Proof using Hne.
  intros Hi Hf Hk Hc j n. induction 1 as [|j a b Ha IH Hb]; intros Hj; [split; [done|exists 0; split; [apply Hi|lia]]|].
  destruct (IH ltac:(lia)) as (_ & i & Ei & Hi'). assert (seen a b) as Hs. { eapply (Hc a i); [done|lia|done|lia|unfold beyond; by rewrite Hf|done]. }
  assert (b ≠ dst) as Hbd. { intros ->. by apply (proj2 (inv_none _ _ Hi Hf) a). }
  split; [done|]. destruct (inv_seen _ _ Hi a b i Hs Hbd Ei) as [i' Ei']; [unfold beyond; by rewrite Hf|].
  exists i'. split; [done|]. destruct (inv_exact _ _ Hi b i' Ei') as ([_ Hmin] & _). apply (Hmin (S j)). by econstructor.
Qed.

(** While the edges of [c], a node at distance [k], are examined. *)
Record fold_inv (c : Z) (k : nat) (seen : Z → Z → Prop) (s : Bfs) : Prop := {
  fold_search : search_inv seen s;
  fold_levels : levels s k;
  fold_current : visited s !! c = Some k ∧ c ∉ queue s ∧ k < max ∧ beyond s k = false;
  fold_complete : ∀ a, a ∉ queue s → a ≠ c → complete seen s a;
}.
Definition see (seen : Z → Z → Prop) (c b : Z) : Z → Z → Prop := λ x y, seen x y ∨ x = c ∧ y = b.

Lemma fold_ball c k seen s : fold_inv c k seen s → found_distance s = None → ∀ j n, reach j n → j ≤ k → n ≠ dst ∧ ∃ i, visited s !! n = Some i ∧ i ≤ j.
Proof using Hne.
  intros [Hi (H1 & H2 & H3 & H4 & H5) (Hc & Hq & Hk & _) Hcomp] Hf. apply (ball seen s k Hi Hf); [lia|]. intros a j Ea Hj.
  apply Hcomp; [intros Hin; specialize (H3 a j Hin Ea); lia|intros ->; rewrite Ea in Hc; injection Hc; lia].
Qed.
Lemma fold_found c k seen s d : fold_inv c k seen s → found_distance s = Some d → d = S k.
Proof. intros [_ (_ & _ & _ & _ & H5) (_ & _ & _ & Hb) _] Hd. specialize (H5 d Hd). unfold beyond in Hb. rewrite Hd in Hb. apply Nat.leb_gt in Hb. lia. Qed.
Lemma preds_push s n c m : preds_of (push_pred s n c) m = if decide (n = m) then preds_of s m ++ [c] else preds_of s m.
Proof. unfold preds_of, push_pred. cbn [predecessors]. case_decide as E; [subst; by rewrite lookup_insert_eq|by rewrite lookup_insert_ne]. Qed.

(** The destination is a neighbour. *)
Lemma step_dst c k seen s : fold_inv c k seen s → dst ∈ adj c → ¬ seen c dst →
  fold_inv c k (see seen c dst) (push_pred (mkBfs (visited s) (predecessors s) (queue s) (Some (S k))) dst c).
Proof using Hne.
  intros Hinv Hb Hs. pose proof Hinv as [Hi Hl (Hc & Hq & Hk & Hbk) Hcomp]. set (s1 := mkBfs (visited s) (predecessors s) (queue s) (Some (S k))).
  assert (∀ m, preds_of (push_pred s1 dst c) m = if decide (dst = m) then preds_of s m ++ [c] else preds_of s m) as Hp by (intros m; apply (preds_push s1)).
  assert (∀ j, beyond (push_pred s1 dst c) j = false → beyond s j = false) as Hbey.
  { intros j Hj. change (beyond (push_pred s1 dst c) j) with (S k <=? j) in Hj. apply Nat.leb_gt in Hj. unfold beyond. destruct (found_distance s) as [d|] eqn:Ed; [|done]. rewrite (fold_found c k seen s d Hinv Ed). apply Nat.leb_gt. lia. }
  split; [|destruct Hl as (H1 & H2 & H3 & H4 & H5); split_and!; try done; intros d [= <-]; lia|split_and!; try done; change (S k <=? k = false); apply Nat.leb_gt; lia|].
  2:{ intros a Ha Hac j Ej Hj Hbj b' Hb'. left. eapply (Hcomp a Ha Hac); try done. by apply Hbey. }
  split; cbn [visited queue found_distance push_pred s1]; try apply Hi.
  - intros a b [Hab|[-> ->]]; [by apply Hi|]. by split; [|eexists].
  - intros a b j [Hab|[-> ->]] Hbd Ej Hbj; [|done]. eapply (inv_seen _ _ Hi); try done. by apply Hbey.
  - intros a b Hbd. rewrite Hp, decide_False by done. intros Ha. destruct (inv_pred _ _ Hi a b Hbd Ha) as [? ?]. split; [by left|done].
  - intros a b j [Hab|[-> ->]] Ej Ejb Hbj.
    + rewrite Hp. assert (a ∈ preds_of s b) by (eapply (inv_pred_all _ _ Hi); try done; by apply Hbey). case_decide; [apply elem_of_app; by left|done].
    + exfalso. by destruct (inv_exact _ _ Hi _ _ Ejb) as (_ & ? & _).
  - done.
  - intros d [= <-]. replace (S k - 1) with k by lia. destruct (found_distance s) as [d|] eqn:Ed.
    + pose proof (fold_found c k seen s d Hinv Ed) as ->. destruct (inv_found _ _ Hi _ Ed) as (? & ? & Hpd). replace (S k - 1) with k in Hpd by lia. split_and!; try done.
      intros a. rewrite Hp, decide_True by done. rewrite elem_of_app, Hpd, list_elem_of_singleton. unfold see. naive_solver.
    + destruct (inv_none _ _ Hi Ed) as [Hpn Hsn]. split_and!; [lia| |].
      * split; [apply (reach_S _ _ k c); [by destruct (inv_exact _ _ Hi c k Hc) as ((? & _) & _)|done]|]. intros j Hj. destruct (decide (j ≤ k)) as [Hjk|]; [|lia]. by destruct (fold_ball c k seen s Hinv Ed j dst Hj Hjk).
      * intros a. rewrite Hp, decide_True by done. rewrite Hpn. cbn [app]. rewrite list_elem_of_singleton. unfold see. split; [intros ->; naive_solver|]. intros [[Ha|[-> _]] _]; [by destruct (Hsn a)|done].
  - intros n. rewrite Hp. case_decide as En; [subst n|apply Hi]. apply NoDup_app. split_and!; [apply Hi| |apply NoDup_singleton]. intros x Hx Hxc%list_elem_of_singleton. subst x. apply Hs.
    destruct (found_distance s) as [d|] eqn:Ed; [exact (proj1 (proj1 (proj2 (proj2 (inv_found _ _ Hi _ Ed)) c) Hx))|]. rewrite (proj1 (inv_none _ _ Hi Ed)) in Hx. by apply elem_of_nil in Hx.
Qed.

(** An edge to a known node, or one that is not followed. *)
Lemma step_known c k seen s b (push : bool) : fold_inv c k seen s → b ∈ adj c → ¬ seen c b → b ≠ dst →
  (found_distance s = None → is_Some (visited s !! b)) → push = bool_decide (found_distance s = None ∧ visited s !! b = Some (S k)) →
  fold_inv c k (see seen c b) (if push then push_pred s b c else s).
Proof.
  intros Hinv Hb Hs Hbd Hv ->. pose proof Hinv as [Hi Hl (Hc & Hq & Hk & Hbk) Hcomp]. set (push := bool_decide _). set (s' := if push then push_pred s b c else s).
  assert (visited s' = visited s ∧ queue s' = queue s ∧ found_distance s' = found_distance s) as (Ev & Eq_ & Ef) by (by unfold s'; destruct push).
  assert (∀ m, preds_of s' m = if push && bool_decide (b = m) then preds_of s m ++ [c] else preds_of s m) as Hp.
  { intros m. unfold s'. destruct push; [|done]. rewrite preds_push. cbn. by case_decide; [rewrite bool_decide_eq_true_2|rewrite bool_decide_eq_false_2]. }
  assert (∀ j, beyond s' j = beyond s j) as Hbey by (intros j; unfold beyond; by rewrite Ef).
  assert (beyond s (S k) = false → found_distance s = None) as Hnone.
  { unfold beyond. destruct (found_distance s) as [d|] eqn:Ed; [|done]. rewrite (fold_found c k seen s d Hinv Ed), Nat.leb_refl. done. }
  split; [|unfold levels; rewrite Ev, Eq_, Ef; exact Hl|rewrite Ev, Eq_, Hbey; done|].
  2:{ rewrite Eq_. intros a Ha Hac j. rewrite Ev, Hbey. intros Ej Hj Hbj b' Hb'. left. by eapply (Hcomp a Ha Hac). }
  split; rewrite ?Ev, ?Eq_, ?Ef; try apply Hi.
  - intros a x. rewrite ?Ev. intros [Hab|[-> ->]]; [by apply Hi|]. by split; [|eexists].
  - intros a x j. rewrite ?Ev, ?Hbey. intros [Hab|[-> ->]] Hxd Ej Hbj; [by eapply (inv_seen _ _ Hi)|]. rewrite Ej in Hc. injection Hc as <-. by apply Hv, Hnone.
  - intros a x Hxd. rewrite ?Ev, Hp. intros Ha. destruct (push && bool_decide (b = x)) eqn:E.
    + apply andb_true_iff in E as [Epush ->%bool_decide_eq_true]. apply elem_of_app in Ha as [Ha| ->%list_elem_of_singleton]; [destruct (inv_pred _ _ Hi a x Hxd Ha); split; [by left|done]|].
      apply bool_decide_eq_true in Epush as [_ Ex]. split; [by right|]. by exists k.
    + destruct (inv_pred _ _ Hi a x Hxd Ha); split; [by left|done].
  - intros a x j. rewrite ?Ev, Hbey, Hp. intros [Hab|[-> ->]] Ej Ex Hbj.
    + pose proof (inv_pred_all _ _ Hi a x j Hab Ej Ex Hbj). destruct (push && _); [apply elem_of_app; by left|done].
    + rewrite Ej in Hc. injection Hc as ->. unfold push. rewrite bool_decide_eq_true_2 by (split; [by apply Hnone|done]). rewrite bool_decide_eq_true_2 by done. cbn. apply elem_of_app. right. by apply list_elem_of_singleton.
  - intros En. destruct (inv_none _ _ Hi En) as [H1 H2]. rewrite Hp. rewrite (bool_decide_eq_false_2 (b = dst)) by done. rewrite andb_false_r. split; [done|]. intros a [Ha|[_ E]]; [by destruct (H2 a)|done].
  - intros d Ed. destruct (inv_found _ _ Hi d Ed) as (H1 & H2 & H3). split_and!; try done. intros a. rewrite Hp, (bool_decide_eq_false_2 (b = dst)) by done. rewrite andb_false_r, H3, ?Ev. unfold see. naive_solver.
  - intros n. rewrite Hp. destruct (push && bool_decide (b = n)) eqn:E; [|apply Hi]. apply andb_true_iff in E as [_ <-%bool_decide_eq_true]. apply NoDup_app. split_and!; [apply Hi| |apply NoDup_singleton].
    intros x Hx ->%list_elem_of_singleton. by apply Hs, (inv_pred _ _ Hi c b Hbd).
Qed.

(** A node seen for the first time. *)
Lemma step_new c k seen s b : fold_inv c k seen s → b ∈ adj c → b ≠ dst → found_distance s = None → visited s !! b = None →
  fold_inv c k (see seen c b) (mkBfs (<[b := S k]> (visited s)) (predecessors (push_pred s b c)) (queue s ++ [b]) (found_distance s)).
Proof using Hne.
  intros Hinv Hb Hbd Hf Hv. pose proof Hinv as [Hi Hl (Hc & Hq & Hk & Hbk) Hcomp]. set (s' := mkBfs _ _ _ _).
  assert (∀ m, preds_of s' m = if decide (b = m) then preds_of s m ++ [c] else preds_of s m) as Hp by (intros m; apply (preds_push s)).
  assert (∀ j, beyond s' j = false) as Hbey by (intros j; unfold beyond, s'; cbn [found_distance]; by rewrite Hf).
  assert (∀ n j, visited s !! n = Some j → visited s' !! n = Some j ∧ n ≠ b) as Hold.
  { intros n j Hn. assert (n ≠ b) by (intros ->; congruence). split; [|done]. unfold s'. cbn [visited]. by rewrite lookup_insert_ne. }
  assert (∀ n j, visited s' !! n = Some j → visited s !! n = Some j ∨ n = b ∧ j = S k) as Hnew.
  { intros n j. unfold s'. cbn [visited]. destruct (decide (n = b)) as [-> |]; [rewrite lookup_insert_eq; intros [= <-]; by right|rewrite lookup_insert_ne by done; by left]. }
  assert (visited s' !! b = Some (S k)) as Eb by (unfold s'; cbn [visited]; apply lookup_insert_eq).
  assert (∀ a, ¬ seen a b ∨ is_Some (visited s !! b)) as Hsb.
  { intros a. left. intros Hab. destruct (inv_edge _ _ Hi a b Hab) as [_ [j Ej]]. destruct (inv_seen _ _ Hi a b j Hab Hbd Ej) as [? ?]; [unfold beyond; by rewrite Hf|congruence]. }
  assert (∀ a, ¬ seen a b) as Hnb by (intros a; destruct (Hsb a) as [|[? ?]]; [done|congruence]).
  assert (∀ a, a ∉ preds_of s b) as Hpb by (intros a Ha; by apply (Hnb a), (inv_pred _ _ Hi a b Hbd)).
  assert (c ≠ b) as Hcb by (intros ->; congruence).
  split.
  - split.
    + by destruct (Hold src 0 (inv_src _ _ Hi)).
    + intros n j [Hn|[-> ->]]%Hnew; [by apply Hi|]. split_and!; [|done|lia]. split; [apply (reach_S _ _ k c); [by destruct (inv_exact _ _ Hi c k Hc) as ((? & _) & _)|done]|].
      intros j Hj. destruct (decide (j ≤ k)) as [Hjk|]; [|lia]. destruct (fold_ball c k seen s Hinv Hf j b Hj Hjk) as (_ & i & Ei & _). congruence.
    + destruct (inv_queue _ _ Hi) as [Hnd Hqs]. split; cbn [queue s'].
      * apply NoDup_app. split_and!; [done| |apply NoDup_singleton]. intros x Hx ->%list_elem_of_singleton. eapply Forall_forall in Hqs as [? ?]; [|exact Hx]. congruence.
      * apply List.Forall_app. split; [eapply List.Forall_impl; [|exact Hqs]; intros q [j Hj]; exists j; by apply Hold|repeat constructor; by exists (S k)].
    + intros a x [Hax|[-> ->]]; [destruct (inv_edge _ _ Hi a x Hax) as [? [j Hj]]; split; [done|exists j; by apply Hold]|split; [done|exists k; by apply Hold]].
    + intros a x j [Hax|[-> ->]] Hxd Ej _; [|by exists (S k)]. destruct (inv_edge _ _ Hi a x Hax) as [_ [i Hi']]. destruct (inv_seen _ _ Hi a x i Hax Hxd Hi') as [l Hl']; [unfold beyond; by rewrite Hf|]. exists l. by apply Hold.
    + intros a x Hxd. rewrite Hp. case_decide as E.
      * subst x. intros [Ha|Ha]%elem_of_app; [by destruct (Hpb a)|]. apply list_elem_of_singleton in Ha as ->. split; [by right|]. exists k. split; [by apply Hold|done].
      * intros Ha. destruct (inv_pred _ _ Hi a x Hxd Ha) as [? (j & ? & ?)]. split; [by left|]. exists j. split; by apply Hold.
    + intros a x j Hax Ea Ex _. rewrite Hp. case_decide as E; [subst x|].
      * apply elem_of_app. right. apply list_elem_of_singleton. destruct Hax as [Hax|[-> _]]; [by destruct (Hnb a)|done].
      * destruct Hax as [Hax|[_ ->]]; [|done]. destruct (inv_edge _ _ Hi a x Hax) as [_ [i Hi']]. pose proof (proj1 (Hold _ _ Hi')) as E'. rewrite Ea in E'. injection E' as ->.
        destruct (Hnew x _ Ex) as [Ex'|[? _]]; [|congruence]. eapply (inv_pred_all _ _ Hi); try done. unfold beyond. by rewrite Hf.
    + intros _. destruct (inv_none _ _ Hi Hf) as [H1 H2]. rewrite Hp, decide_False by done. split; [done|]. intros a [Ha|[_ E]]; [by destruct (H2 a)|done].
    + cbn [found_distance s']. rewrite Hf. done.
    + intros n. rewrite Hp. case_decide as E; [|apply Hi]. subst n. apply NoDup_app. split_and!; [apply Hi| |apply NoDup_singleton]. intros x Hx _. by destruct (Hpb x).
  - destruct Hl as (H1 & H2 & H3 & H4 & H5). split_and!; cbn [queue s'].
    + intros n j [Hn|[-> ->]]%Hnew; [by eapply H1|lia].
    + intros n j [Hn|[-> ->]]%Hnew Hnq; [eapply H2; [done|]; intros ?; apply Hnq, elem_of_app; by left|]. exfalso. apply Hnq, elem_of_app. right. by apply list_elem_of_singleton.
    + intros q j [Hqq|Hqq]%elem_of_app Ej; [|apply list_elem_of_singleton in Hqq as ->; rewrite Eb in Ej; injection Ej; lia]. destruct (Hnew q j Ej) as [Ej'|[-> ->]]; [by eapply H3|lia].
    + apply StronglySorted_app_2; [| |by repeat constructor].
      * intros x y Hx Hy%list_elem_of_singleton i j. subst y. intros Ei Ej. rewrite Eb in Ej. injection Ej as <-. destruct (Hnew x i Ei) as [Ei'|[-> ->]]; [by eapply H1|lia].
      * eapply (strongly_weaken (λ x, x ≠ b)); [|exact H4|].
        -- intros x y Hx Hy Hxy i j [Ei|[? _]]%Hnew [Ej|[? _]]%Hnew; try done. by apply Hxy.
        -- apply Forall_forall. intros x Hx ->. destruct (inv_queue _ _ Hi) as [_ Hqs]. eapply Forall_forall in Hqs as [? ?]; [|exact Hx]. congruence.
    + cbn [found_distance s']. rewrite Hf. done.
  - split_and!; [by apply Hold| |done|apply Hbey]. cbn [queue s']. intros [?|Hx]%elem_of_app; [done|]. by apply list_elem_of_singleton in Hx.
  - intros a Ha Hac j Ej Hj _ x Hx. cbn [queue s'] in Ha. assert (a ∉ queue s ∧ a ≠ b) as [Haq Hab] by (split; [intros ?; apply Ha, elem_of_app; by left|intros ->; apply Ha, elem_of_app; right; by apply list_elem_of_singleton]).
    destruct (Hnew a j Ej) as [Ej'|[? _]]; [|congruence]. left. eapply (Hcomp a Haq Hac); try done. unfold beyond. by rewrite Hf.
Qed.

Lemma neighbor_inv c k seen s b : fold_inv c k seen s → b ∈ adj c → ¬ seen c b → fold_inv c k (see seen c b) (bfs_neighbor dst max c k s b).
Proof using Hne.
  intros Hinv Hb Hs. pose proof (fold_current _ _ _ _ Hinv) as (Hc & _ & Hk & _). unfold bfs_neighbor. rewrite Nat.add_1_r. destruct (decide (b = dst)) as [-> |Hbd].
  - rewrite bool_decide_eq_true_2, (proj2 (Nat.leb_le _ _)) by (done || lia). cbn [andb found_distance].
    assert (default (S k) (found_distance s) = S k) as ->. { destruct (found_distance s) as [d|] eqn:Ed; [|done]. exact (fold_found c k seen s d Hinv Ed). }
    rewrite bool_decide_eq_true_2 by done. by apply step_dst.
  - rewrite bool_decide_eq_false_2 by done. cbn [andb]. unfold beyond. destruct (found_distance s) as [d|] eqn:Ed.
    + rewrite (fold_found c k seen s d Hinv Ed), Nat.leb_refl. refine (step_known c k seen s b false Hinv Hb Hs Hbd _ _); [by rewrite Ed|]. symmetry. apply bool_decide_eq_false. rewrite Ed. by intros [? _].
    + destruct (visited s !! b) as [e|] eqn:Ee; [|by apply (step_new c k seen s b)]. destruct (decide (S k = e)) as [<-|Hne'].
      * refine (step_known c k seen s b true Hinv Hb Hs Hbd _ _); [by intros _; eexists|]. symmetry. by apply bool_decide_eq_true.
      * refine (step_known c k seen s b false Hinv Hb Hs Hbd _ _); [by intros _; eexists|]. symmetry. apply bool_decide_eq_false. intros [_ E]. congruence.
Qed.
Lemma fold_neighbors c k seen s l : fold_inv c k seen s → NoDup l → Forall (λ b, b ∈ adj c ∧ ¬ seen c b) l →
  ∃ seen', fold_inv c k seen' (foldl (bfs_neighbor dst max c k) s l) ∧ ∀ x y, seen' x y ↔ seen x y ∨ x = c ∧ y ∈ l.
Proof using Hne.
  intros Hinv Hnd Hl. revert seen s Hinv Hl. induction Hnd as [|b l Hb Hnd IH]; intros seen s Hinv Hl.
  { exists seen. split; [done|]. intros x y. split; [by left|]. intros [?|[_ H%elem_of_nil]]; done. }
  apply list.Forall_cons in Hl as [[Hba Hbs] Hl]. cbn [foldl]. destruct (IH (see seen c b) (bfs_neighbor dst max c k s b)) as (seen' & Hf & Hs); [by apply neighbor_inv| |].
  { apply Forall_forall. intros x Hx. pose proof (proj1 (Forall_forall _ _) Hl x Hx) as [? ?]. split; [done|]. intros [?|[_ ->]]; done. }
  exists seen'. split; [done|]. intros x y. rewrite Hs, elem_of_cons. unfold see. naive_solver.
Qed.

(** Between two nodes of the queue. *)
Record loop_inv (seen : Z → Z → Prop) (s : Bfs) : Prop := {
  loop_search : search_inv seen s;
  loop_complete : ∀ a, a ∉ queue s → complete seen s a;
  loop_levels : ∀ c q, queue s = c :: q → ∃ k, visited s !! c = Some k ∧ levels s k;
  loop_fresh : ∀ a b, a ∈ queue s → ¬ seen a b;
}.
Lemma next_level s k c q : levels s k → queue s = c :: q → (∀ x, x ∈ queue s → is_Some (visited s !! x)) → ∃ j, visited s !! c = Some j ∧ levels s j.
Proof.
  intros (H1 & H2 & H3 & H4 & H5) Eq_ Hv. assert (c ∈ queue s) as Hc by (rewrite Eq_; by left). destruct (Hv c Hc) as [j Ej]. exists j. split; [done|].
  pose proof (H3 c j Hc Ej) as Hkj. split_and!.
  - intros n i Hn. specialize (H1 n i Hn). lia.
  - intros n i Hn Hq. specialize (H2 n i Hn Hq). lia.
  - intros x i Hx Ei. rewrite Eq_ in Hx, H4. apply StronglySorted_inv in H4 as [_ Hf]. apply elem_of_cons in Hx as [-> |Hx]; [rewrite Ej in Ei; injection Ei; lia|].
    eapply Forall_forall in Hf; [|exact Hx]. by apply Hf.
  - done.
  - intros d Hd. specialize (H5 d Hd). lia.
Qed.
(** Taking the first node off the queue. *)
Lemma pop_inv seen s c q k : loop_inv seen s → queue s = c :: q → visited s !! c = Some k → levels s k → let s0 := mkBfs (visited s) (predecessors s) q (found_distance s) in
  search_inv seen s0 ∧ levels s0 k ∧ c ∉ q ∧ (∀ a, a ∉ q → a ≠ c → complete seen s0 a) ∧ (∀ a b, a ∈ q → ¬ seen a b) ∧ (∀ b, ¬ seen c b).
Proof.
  intros [Hi Hcomp _ Hfr] Eq_ Ec (H1 & H2 & H3 & H4 & H5) s0. destruct (inv_queue _ _ Hi) as [Hnd Hqs]. rewrite Eq_ in Hnd, Hqs. apply NoDup_cons in Hnd as [Hcq Hnd]. apply list.Forall_cons in Hqs as [_ Hqs].
  split_and!.
  - split; try apply Hi. by split.
  - split_and!; cbn [queue visited found_distance s0]; try done.
    + intros n j Hn Hq. destruct (decide (n = c)) as [-> |]; [rewrite Ec in Hn; injection Hn; lia|]. eapply H2; [exact Hn|]. rewrite Eq_. by intros [?|?]%elem_of_cons.
    + intros x j Hx. apply H3. rewrite Eq_. by right.
    + rewrite Eq_ in H4. by apply StronglySorted_inv in H4 as [? _].
  - done.
  - intros a Ha Hac. apply (Hcomp a). rewrite Eq_. by intros [?|?]%elem_of_cons.
  - intros a b Ha. apply Hfr. rewrite Eq_. by right.
  - intros b. apply Hfr. rewrite Eq_. by left.
Qed.

(** The queue grows with the nodes known. *)
Definition grows (s s' : Bfs) : Prop :=
  (∀ x, x ∈ queue s' → x ∈ queue s ∨ visited s !! x = None) ∧ (∀ x k, visited s !! x = Some k → visited s' !! x = Some k) ∧
  length (queue s') + size (visited s) = length (queue s) + size (visited s').
Lemma grows_same s s' : visited s' = visited s → queue s' = queue s → grows s s'.
Proof. intros Ev Eq_. unfold grows. rewrite Ev, Eq_. split_and!; naive_solver. Qed.
Lemma grows_trans s1 s2 s3 : grows s1 s2 → grows s2 s3 → grows s1 s3.
Proof.
  intros (A1 & A2 & A3) (B1 & B2 & B3). split_and!; [|naive_solver|lia].
  intros x Hx. destruct (B1 x Hx) as [?|Hn]; [by apply A1|]. right. destruct (visited s1 !! x) as [k|] eqn:E; [|done]. rewrite (A2 x k E) in Hn. done.
Qed.
Lemma neighbor_grows c k s b : grows s (bfs_neighbor dst max c k s b).
Proof.
  unfold bfs_neighbor. destruct (_ && _); [case_bool_decide; by apply grows_same|]. destruct (beyond s (k + 1)); [by apply grows_same|].
  destruct (visited s !! b) as [e|] eqn:E; [case_decide; by apply grows_same|].
  split_and!; cbn.
  - intros x [?|Hx]%elem_of_app; [by left|]. apply list_elem_of_singleton in Hx as ->. by right.
  - intros x j Hx. rewrite lookup_insert_ne; [done|]. intros ->. congruence.
  - rewrite length_app, map_size_insert_None by done. cbn. lia.
Qed.
Lemma fold_grows c k s l : grows s (foldl (bfs_neighbor dst max c k) s l).
Proof. revert s. induction l as [|b l IH]; intros s; [by apply grows_same|]. eapply grows_trans; [apply neighbor_grows|apply IH]. Qed.
Lemma fold_known (U : gset Z) c k s l : dom (visited s) ⊆ U → Forall (λ b, b ∈ U) l → dom (visited (foldl (bfs_neighbor dst max c k) s l)) ⊆ U.
Proof.
  intros Hs Hl. revert s Hs. induction Hl as [|b l Hb _ IH]; intros s Hs; [done|]. apply IH. unfold bfs_neighbor. destruct (_ && _); [by case_bool_decide|]. destruct (beyond s (k + 1)); [done|].
  destruct (visited s !! b); [by case_decide|]. cbn. rewrite dom_insert. set_solver.
Qed.

(** One node of the queue. *)
Lemma loop_step seen s c q k : loop_inv seen s → queue s = c :: q → visited s !! c = Some k → levels s k → NoDup (adj c) → k < max → beyond s k = false →
  ∃ seen', loop_inv seen' (foldl (bfs_neighbor dst max c k) (mkBfs (visited s) (predecessors s) q (found_distance s)) (adj c)).
Proof using Hne.
  intros Hinv Eq_ Ec Hl Hnd Hk Hb. destruct (pop_inv seen s c q k Hinv Eq_ Ec Hl) as (Hi & Hl0 & Hcq & Hcomp & Hfr & Hfc). set (s0 := mkBfs _ _ q _) in *.
  assert (fold_inv c k seen s0) as Hf by (split; [done|done|by split_and!|done]).
  destruct (fold_neighbors c k seen s0 (adj c) Hf Hnd) as (seen' & Hf' & Hs'); [apply Forall_forall; intros b Hb'; split; [done|apply Hfc]|].
  destruct (fold_grows c k s0 (adj c)) as (G1 & G2 & G3). set (s1 := foldl _ s0 _) in *. destruct Hf' as [Hi1 Hl1 (Hc1 & Hcq1 & _ & Hb1) Hcomp1].
  exists seen'. split; [done| | |].
  - intros a Ha. destruct (decide (a = c)) as [-> |]; [|by apply Hcomp1]. intros j _ _ _ b Hb'. apply Hs'. by right.
  - intros c' q' Eq1. apply (next_level s1 k c' q' Hl1 Eq1). intros x Hx. destruct (inv_queue _ _ Hi1) as [_ Hqs]. by eapply Forall_forall in Hqs.
  - intros a b Ha Hab. apply Hs' in Hab as [Hab|[-> _]]; [|done]. destruct (G1 a Ha) as [Hq|Hn]; [by apply (Hfr a b Hq)|]. destruct (inv_edge _ _ Hi a b Hab) as [_ [j Ej]]. cbn [visited s0] in *. congruence.
Qed.
Lemma loop_skip seen s c q k : loop_inv seen s → queue s = c :: q → visited s !! c = Some k → levels s k → beyond s k = true ∨ max ≤ k →
  loop_inv seen (mkBfs (visited s) (predecessors s) q (found_distance s)).
Proof.
  intros Hinv Eq_ Ec Hl Hskip. destruct (pop_inv seen s c q k Hinv Eq_ Ec Hl) as (Hi & Hl0 & Hcq & Hcomp & Hfr & Hfc). set (s0 := mkBfs _ _ q _) in *. split; [done| | |done].
  - intros a Ha. destruct (decide (a = c)) as [-> |]; [|by apply Hcomp]. intros j Ej Hj Hb. cbn [visited s0] in Ej. rewrite Ec in Ej. injection Ej as <-. destruct Hskip as [Hs|]; [|lia]. change (beyond s0 k) with (beyond s k) in Hb. congruence.
  - intros c' q' Eq1. apply (next_level s0 k c' q' Hl0 Eq1). intros x Hx. destruct (inv_queue _ _ Hi) as [_ Hqs]. by eapply Forall_forall in Hqs.
Qed.
Lemma bfs_loop_spec (U : gset Z) fuel seen s : (∀ n, n ∈ U → NoDup (adj n) ∧ Forall (λ b, b ∈ U) (adj n)) → loop_inv seen s → dom (visited s) ⊆ U →
  length (queue s) + size U ≤ fuel + size (visited s) → ∃ s' seen', bfs_loop neighbors fuel dst max s = Ok s' ∧ loop_inv seen' s' ∧ queue s' = [].
Proof using Hadj Hne.
  intros HU. revert seen s. induction fuel as [|fuel IH]; intros seen s Hinv Hdom Hfuel; (destruct (queue s) as [|c q] eqn:Eq_; [exists s, seen; cbn; by rewrite Eq_|]).
  { exfalso. pose proof (subseteq_size _ _ Hdom) as Hs. rewrite size_dom in Hs. cbn in Hfuel. lia. }
  destruct (loop_levels _ _ Hinv c q Eq_) as (k & Ec & Hl). cbn [bfs_loop]. rewrite Eq_. cbn [visited]. rewrite Ec. set (s0 := mkBfs _ _ q _). change (beyond s0 k) with (beyond s k).
  destruct (beyond s k || (max <=? k)) eqn:Eb.
  - apply (IH seen); [|done|cbn [queue visited length s0] in *; lia]. eapply loop_skip; try done. apply orb_true_iff in Eb as [?|?%Nat.leb_le]; [by left|by right].
  - apply orb_false_iff in Eb as [Hb Hk%Nat.leb_gt]. rewrite Hadj. cbn [outcome_bind]. assert (c ∈ U) as HcU by (apply Hdom; apply elem_of_dom; by eexists). destruct (HU c HcU) as [Hnd HcA].
    destruct (loop_step seen s c q k Hinv Eq_ Ec Hl Hnd Hk Hb) as [seen' Hinv']. apply (IH seen'); [done|by apply fold_known|]. destruct (fold_grows c k s0 (adj c)) as (_ & _ & G). cbn [queue visited length s0] in *. lia.
Qed.

(** ** The way back *)

(** The search starts with the source alone. *)
Lemma start_inv : loop_inv (λ _ _, False) (mkBfs {[src := 0]} ∅ [src] None).
Proof using Hne.
  split; cbn [queue].
  - split; cbn [visited queue found_distance].
    + apply lookup_singleton_eq.
    + intros n k [<- <-]%lookup_singleton_Some. split_and!; [split; [constructor|lia]|done|lia].
    + split; [apply NoDup_singleton|]. repeat constructor. rewrite lookup_singleton_eq. by eexists.
    + done.
    + done.
    + intros a b _ Ha. unfold preds_of in Ha. cbn in Ha. rewrite lookup_empty in Ha. by apply elem_of_nil in Ha.
    + done.
    + intros _. split; [|naive_solver]. unfold preds_of. cbn. by rewrite lookup_empty.
    + done.
    + intros n. unfold preds_of. cbn. rewrite lookup_empty. constructor.
  - intros a Ha k. cbn [visited]. intros [<- _]%lookup_singleton_Some. exfalso. apply Ha. by left.
  - intros c q [= <- <-]. exists 0. cbn [visited]. split; [apply lookup_singleton_eq|]. split_and!; cbn [visited queue found_distance].
    + intros n j [_ <-]%lookup_singleton_Some. lia.
    + intros n j [_ <-]%lookup_singleton_Some. lia.
    + intros. lia.
    + repeat constructor.
    + done.
  - naive_solver.
Qed.

Section back.
Context (seen : Z → Z → Prop) (s : Bfs) (Hinv : loop_inv seen s) (Hend : queue s = []).

Lemma end_complete a : complete seen s a.
Proof using Hinv Hend. apply (loop_complete _ _ Hinv). rewrite Hend. by intros ?%elem_of_nil. Qed.
Lemma not_found j : found_distance s = None → j ≤ max → ¬ reach j dst.
Proof using Hinv Hend Hne.
  intros Hf Hj Hr. destruct (ball seen s max (loop_search _ _ Hinv) Hf ltac:(lia) ltac:(intros; apply end_complete) j dst Hr Hj) as [? _]. done.
Qed.
Context (d : nat) (Hd : found_distance s = Some d).
Lemma beyond_lt k : k < d → beyond s k = false.
Proof using Hd. intros Hk. unfold beyond. rewrite Hd. by apply Nat.leb_gt. Qed.
Lemma near_known j n : reach j n → j < d → ∃ i, visited s !! n = Some i ∧ i ≤ j.
Proof using Hinv Hend Hd.
  pose proof (loop_search _ _ Hinv) as Hi. destruct (inv_found _ _ Hi d Hd) as (Hdm & [_ Hmin] & _). induction 1 as [|j a b Ha IH Hb]; intros Hj; [exists 0; split; [apply Hi|lia]|].
  destruct (IH ltac:(lia)) as (i & Ei & Hij). assert (seen a b) as Hs by (eapply end_complete; [done|lia|apply beyond_lt; lia|done]).
  assert (b ≠ dst) as Hbd. { intros ->. specialize (Hmin (S j) ltac:(by econstructor)). lia. }
  destruct (inv_seen _ _ Hi a b i Hs Hbd Ei) as [i' Ei']; [apply beyond_lt; lia|]. exists i'. split; [done|]. destruct (inv_exact _ _ Hi b i' Ei') as ([_ Hm] & _). apply Hm. by econstructor.
Qed.
Lemma near_level k n : distance k n → k < d → visited s !! n = Some k.
Proof using Hinv Hend Hd.
  intros Hn Hk. destruct (near_known k n (proj1 Hn) Hk) as (i & Ei & _). destruct (inv_exact _ _ (loop_search _ _ Hinv) n i Ei) as (Hi & _). by rewrite (distance_unique _ _ k i n Hn Hi).
Qed.
(** The predecessors of a node on a shortest path are those before it. *)
Lemma preds_at k n a : distance (S k) n → S k < d ∨ n = dst ∧ S k = d → a ∈ preds_of s n ↔ distance k a ∧ n ∈ adj a.
Proof using Hinv Hend Hd.
  pose proof (loop_search _ _ Hinv) as Hi. destruct (inv_found _ _ Hi d Hd) as (Hdm & Hdd & Hpd). intros Hn Hcase.
  assert (distance k a → n ∈ adj a → seen a n ∧ visited s !! a = Some k) as Hedge.
  { intros Ha Hna. assert (visited s !! a = Some k) as Ea by (apply near_level; [done|lia]). split; [|done]. eapply end_complete; [done|lia|apply beyond_lt; lia|done]. }
  destruct Hcase as [Hlt|[-> <-]].
  - assert (n ≠ dst) as Hnd. { intros ->. pose proof (distance_unique _ _ _ _ _ Hn Hdd). lia. } split.
    + intros Ha. destruct (inv_pred _ _ Hi a n Hnd Ha) as (Hs & k' & Ea & En). destruct (inv_exact _ _ Hi _ _ En) as (Hn' & _). pose proof (distance_unique _ _ _ _ _ Hn Hn') as [= ->].
      split; [by destruct (inv_exact _ _ Hi _ _ Ea)|by destruct (inv_edge _ _ Hi a n Hs)].
    + intros [Ha Hna]. destruct (Hedge Ha Hna) as [Hs Ea]. eapply (inv_pred_all _ _ Hi); [done|done|by apply near_level|by apply beyond_lt].
  - replace (S k - 1) with k in Hpd by lia. rewrite Hpd. split; [|intros [? ?]; by apply Hedge].
    intros [Hs Ea]. split; [by destruct (inv_exact _ _ Hi _ _ Ea)|by destruct (inv_edge _ _ Hi a dst Hs)].
Qed.

(** The paths of one stack entry, and the number of steps they take. *)
Fixpoint expand (k : nat) (node : Z) (path : list Z) : list (list Z) :=
  match k with
  | O => [reverse path]
  | S k => concat (map (λ p, expand k p (path ++ [p])) (reverse (preds_of s node)))
  end.
Fixpoint steps (k : nat) (node : Z) : nat := match k with O => 1 | S k => S (sum_list_with (steps k) (preds_of s node)) end.
Definition entry_ok (e : nat * (Z * list Z)) : Prop := distance (fst e) (fst (snd e)) ∧ (fst e < d ∨ fst (snd e) = dst ∧ fst e = d).
Definition expand_entry (e : nat * (Z * list Z)) : list (list Z) := expand (fst e) (fst (snd e)) (snd (snd e)).
Definition entry_steps (e : nat * (Z * list Z)) : nat := steps (fst e) (fst (snd e)).

Lemma source_level k n : distance k n → n = src ↔ k = 0.
Proof. intros Hn. split; [|intros ->; apply (reach_zero adj), Hn]. intros ->. assert (distance 0 src) as H0 by (split; [constructor|lia]). by apply (distance_unique adj src k 0 src). Qed.
Lemma sum_reverse {A} (f : A → nat) l : sum_list_with f (reverse l) = sum_list_with f l.
Proof. induction l as [|x l IH]; [done|]. rewrite reverse_cons, sum_list_with_app, IH. cbn. lia. Qed.
Lemma walk_back_spec fuel es acc : Forall entry_ok es → sum_list_with entry_steps es ≤ fuel →
  walk_back fuel src (predecessors s) (map snd es) acc = Ok (acc ++ concat (map expand_entry es)).
Proof using Hinv Hend Hd.
  revert es acc. induction fuel as [|fuel IH]; intros es acc Hok Hf; (destruct es as [|[k [n path]] es]; [cbn; by rewrite app_nil_r|]).
  { exfalso. cbn in Hf. unfold entry_steps in Hf. cbn in Hf. destruct k; cbn in Hf; lia. }
  apply list.Forall_cons in Hok as [[Hn Hc] Hok]. cbn [fst snd] in Hn, Hc. cbn [map snd walk_back]. cbn [sum_list_with] in Hf. unfold entry_steps at 1 in Hf. cbn [fst snd] in Hf. destruct k as [|k].
  - rewrite decide_True by (by apply (source_level 0)). rewrite IH by (done || cbn in Hf; lia). cbn [map concat expand_entry fst snd expand]. by rewrite <- app_assoc.
  - rewrite decide_False by (intros E; by apply (source_level (S k) n Hn) in E).
    set (new := map (λ p, (k, (p, path ++ [p]))) (reverse (preds_of s n))).
    assert (reverse (map (λ p, (p, path ++ [p])) (default [] (predecessors s !! n))) ++ map snd es = map snd (new ++ es)) as ->.
    { rewrite map_app. f_equal. unfold new. rewrite map_map. cbn [snd]. unfold preds_of. symmetry. exact (fmap_reverse (λ p, (p, path ++ [p])) (default [] (predecessors s !! n))). }
    rewrite IH.
    + f_equal. f_equal. rewrite map_app, concat_app. cbn [map concat]. f_equal. unfold new. rewrite map_map. done.
    + apply List.Forall_app. split; [|done]. unfold new. apply List.Forall_map. apply Forall_forall. intros a Ha%(proj1 (elem_of_reverse _ _)). apply (preds_at k n a Hn Hc) in Ha as [Ha _]. split; [done|]. cbn [fst snd]. left. lia.
    + rewrite sum_list_with_app. cbn [steps] in Hf. assert (sum_list_with entry_steps new = sum_list_with (steps k) (preds_of s n)) as ->; [|lia].
      rewrite <- (sum_reverse (steps k)). unfold new. clear. induction (reverse (preds_of s n)) as [|x l IH]; [done|]. cbn. by rewrite IH.
Qed.
Lemma path_last k n p : path_to adj src k n p → last p = Some n.
Proof. destruct 1; [done|]. by rewrite last_snoc. Qed.
Lemma expand_paths k n path q : distance k n → k < d ∨ n = dst ∧ k = d → q ∈ expand k n (path ++ [n]) ↔ ∃ p, path_to adj src k n p ∧ q = p ++ reverse path.
Proof using Hinv Hend Hd.
  revert n path q. induction k as [|k IH]; intros n path q Hn Hc; cbn [expand].
  - pose proof (proj2 (source_level 0 n Hn) eq_refl) as ->. rewrite list_elem_of_singleton, reverse_snoc. split; [intros ->; exists [src]; split; [constructor|done]|]. intros (p & Hp & ->). by inversion Hp.
  - rewrite list_elem_of_In, in_concat. setoid_rewrite in_map_iff. split.
    + intros (l & (a & <- & Ha) & Hq). apply list_elem_of_In, (proj1 (elem_of_reverse _ _)) in Ha. apply list_elem_of_In in Hq. apply (preds_at k n a Hn Hc) in Ha as [Hda Hna].
      apply (IH a (path ++ [n]) q Hda ltac:(left; lia)) in Hq as (p & Hp & ->). exists (p ++ [n]). split; [by econstructor|]. by rewrite reverse_snoc, <- app_assoc.
    + intros (p & Hp & ->). inversion Hp as [|? a ? p' Hp' Hna]; subst. assert (distance k a) as Hda by (eapply distance_pred; [done|by eapply path_reach|done]).
      exists (expand k a ((path ++ [n]) ++ [a])). split; [exists a; split; [done|]; apply list_elem_of_In, elem_of_reverse; by apply (preds_at k n a Hn Hc)|].
      apply list_elem_of_In, (IH a (path ++ [n])); [done|left; lia|]. exists p'. split; [done|]. by rewrite reverse_snoc, <- app_assoc.
Qed.
Lemma expand_nodup k n path : distance k n → k < d ∨ n = dst ∧ k = d → NoDup (expand k n (path ++ [n])).
Proof using Hinv Hend Hd.
  revert n path. induction k as [|k IH]; intros n path Hn Hc; cbn [expand]; [apply NoDup_singleton|].
  assert (NoDup (reverse (preds_of s n))) as Hnd by (rewrite reverse_Permutation; apply (inv_nodup _ _ (loop_search _ _ Hinv))).
  assert (∀ a, a ∈ reverse (preds_of s n) → distance k a) as Ha by (intros a Ha%(proj1 (elem_of_reverse _ _)); by apply (preds_at k n a Hn Hc) in Ha as [? _]).
  induction Hnd as [|a l Hal Hnd IHl]; [constructor|]. cbn [map concat]. apply NoDup_app. split_and!; [apply IH; [apply Ha; by left|left; lia]| |apply IHl; intros x Hx; apply Ha; by right].
  intros q Hq Hq'. apply (expand_paths k a (path ++ [n]) q (Ha a ltac:(by left)) ltac:(left; lia)) in Hq as (p & Hp & ->).
  apply list_elem_of_In, in_concat in Hq' as (l' & (x & <- & Hx)%in_map_iff & Hq'). apply list_elem_of_In in Hx, Hq'.
  apply (expand_paths k x (path ++ [n]) _ (Ha x ltac:(by right)) ltac:(left; lia)) in Hq' as (p' & Hp' & E). apply app_inv_tail in E as ->.
  apply path_last in Hp, Hp'. congruence.
Qed.
End back.
End search.

(** C10. [allShortestPaths] and [shortestPath] (bfs_shortest_path): on a graph whose
    nodes are in a finite set and which has no parallel edges the search ends, and
    returns exactly the paths of least length from the source to the destination
    that have at most [max_depth] edges, each of them once. *)
Theorem all_shortest_paths (adj : Z → list Z) (neighbors : Z → outcome (list Z)) (U : gset Z) (src dst : Z) (max_depth : nat) :
  (∀ n, neighbors n = Ok (adj n)) → src ∈ U → (∀ n, n ∈ U → NoDup (adj n) ∧ Forall (λ b, b ∈ U) (adj n)) →
  ∃ paths enough, (∀ back_fuel, enough ≤ back_fuel → bfs_shortest_path neighbors (size U) back_fuel src dst max_depth = Ok paths) ∧ NoDup paths ∧
    ∀ p, p ∈ paths ↔ ∃ k, k ≤ max_depth ∧ distance adj src k dst ∧ path_to adj src k dst p.
Proof.
  intros Hadj Hsrc HU. unfold bfs_shortest_path. case_decide as Heq.
  { exists [[src]], 0. subst dst. split_and!; [done|apply NoDup_singleton|]. intros p. rewrite list_elem_of_singleton. split.
    - intros ->. exists 0. split_and!; [lia|split; [constructor|lia]|constructor].
    - intros (k & _ & [_ Hmin] & Hp). specialize (Hmin 0 (reach_0 _ _)). assert (k = 0) as -> by lia. by inversion Hp. }
  destruct (bfs_loop_spec adj neighbors Hadj src dst max_depth Heq U (size U) (λ _ _, False) (mkBfs {[src := 0]} ∅ [src] None)) as (s & seen & Es & Hinv & Hend);
    [done|by apply start_inv|cbn [visited]; rewrite dom_singleton_L; set_solver|cbn [queue visited length]; rewrite map_size_singleton; lia|].
  rewrite Es. cbn [outcome_bind]. destruct (found_distance s) as [d|] eqn:Ed.
  - destruct (inv_found _ _ _ _ _ _ (loop_search _ _ _ _ _ _ Hinv) d Ed) as (Hdm & Hdd & _).
    exists (expand s d dst [dst]), (steps s d dst). split_and!.
    + intros back Hb. pose proof (walk_back_spec adj src dst max_depth seen s Hinv Hend d Ed back [(d, (dst, [dst]))] []) as Hw. cbn [map snd] in Hw. rewrite Hw; [|apply list.Forall_cons; split; [split; [done|by right]|constructor]|cbn; unfold entry_steps; cbn; lia].
      cbn. by rewrite app_nil_r.
    + apply (expand_nodup adj src dst max_depth seen s Hinv Hend d Ed d dst []); [done|by right].
    + intros p. rewrite (expand_paths adj src dst max_depth seen s Hinv Hend d Ed d dst [] p Hdd ltac:(by right)). split.
      * intros (q & Hq & ->). rewrite app_nil_r. by exists d.
      * intros (k & _ & Hk & Hp). pose proof (distance_unique _ _ _ _ _ Hk Hdd) as ->. exists p. by rewrite app_nil_r.
  - exists [], 0. split_and!; [done|constructor|]. intros p. rewrite elem_of_nil. split; [done|]. intros (k & Hk & [Hr _] & _). by apply (not_found adj src dst max_depth Heq seen s Hinv Hend k).
Qed.

(** ** The operator for all shortest paths *)

(** A child that hands out one row per batch gets no answer at all: the rows of a
    batch are taken in pairs, and a batch of one row has none. *)
Theorem asp_drops_single_rows (csr : option (Z → Z → outcome (list (list Z)))) (path_text : list Z → list Z) (bs : list RecordBatch) :
  Forall (λ b, num_rows b ≤ 1) bs → produces (asp_next csr path_text) (asp_new (map Ok bs)) [].
Proof.
  intros Hbs. eapply produces_end. unfold asp_next. cbn [current_chunk asp_new asp_child]. instantiate (1 := mkASP [] None 0).
  induction Hbs as [|b bs Hb _ IH]; [done|]. cbn [map asp_chunks]. cbn [asp_rows]. rewrite (proj2 (Nat.ltb_ge _ _)) by lia. exact IH.
Qed.
(** Of a batch of two rows only the first is answered. *)
Theorem asp_skips_odd_rows (path_text : list Z → list Z) (find : Z → Z → outcome (list (list Z))) (a b a' b' : Z) (p : list Z) (ps : list (list Z)) :
  find a b = Ok (p :: ps) → let row x y := [Some (AUInt64 x); Some (AUInt64 y)] in
  produces (asp_next (Some find) path_text) (asp_new [Ok (mkBatch [DUInt64; DUInt64] [row a b; row a' b'])]) [build_chunk_for_source path_text a b (p :: ps)].
Proof. intros Hf row. eapply produces_next; [cbn; rewrite Hf; reflexivity|]. by eapply produces_end. Qed.

(** ** Variable-length patterns *)

Section recursive.
Context (adj : Z → list Z) (neighbors : Z → outcome (list Z)) (Hadj : ∀ n, neighbors n = Ok (adj n)).
Context (rel_columns dst_columns : list ColumnView) (props : Z → list Value) (Hprops : ∀ n, read_row dst_columns n = Ok (props n)).
Context (late : nat → bool) (Hlate : ∀ t, late t = false).
Context (U : gset Z) (HU : ∀ n, n ∈ U → Forall (λ b, b ∈ U) (adj n)) (start : Z) (Hstart : start ∈ U) (min max : nat).
Local Abbreviation reach := (reach adj start).

Definition visit_key (v : Visit) : Z * nat := (v.1.1, v.2).
(** What one queue element stands for: a walk, whose last step is from the node the
    element remembers. *)
Definition is_visit (v : Visit) : Prop :=
  v.2 ≤ max ∧ reach v.2 v.1.1 ∧ ∀ k, v.2 = S k → reach k v.1.2 ∧ v.1.1 ∈ adj v.1.2.
Definition in_range (v : Visit) : bool := (min <=? v.2) && (0 <? v.2).
(** The row of an element. *)
Definition visit_row (r : Row) (v : Visit) : list Value :=
  map from_arrow r ++ props v.1.1 ++ rel_props rel_columns v.1.2 v.1.1 ++ [VNumber (int_as_f64 (Z.of_nat v.2)); VNode v.1.1].

(** What holds when the elements [done_] have been taken from the queue. *)
Record rec_inv (V : gset (Z * nat)) (done_ q : list Visit) : Prop := {
  rec_set : ∀ p, p ∈ V ↔ p ∈ map visit_key (done_ ++ q);
  rec_once : NoDup (map visit_key (done_ ++ q));
  rec_visits : Forall is_visit (done_ ++ q);
  rec_start : (start, 0) ∈ V;
  rec_closed : ∀ v m, v ∈ done_ → v.2 < max → m ∈ adj v.1.1 → (m, v.2 + 1) ∈ V;
  rec_sorted : StronglySorted le (map snd (done_ ++ q));
  rec_front : ∀ c q', q = c :: q' → Forall (λ v, v.2 ≤ c.2 + 1) q'
}.

Lemma reach_in k n : reach k n → n ∈ U.
Proof using HU Hstart. induction 1 as [|k a b _ IH Hb]; [done|]. by eapply Forall_forall in Hb; [|apply HU, IH]. Qed.
(** There are only so many elements. *)
Lemma visits_bound (l : list Visit) : Forall is_visit l → NoDup (map visit_key l) → length l ≤ size U * S max.
Proof using HU Hstart.
  intros Hl Hn. change (size U) with (length (elements U)). rewrite <- (length_map visit_key), <- (length_seq (S max) 0), <- length_prod.
  apply NoDup_incl_length; [by apply NoDup_ListNoDup|]. intros [n k] (v & [= <- <-] & Hv%list_elem_of_In)%in_map_iff.
  eapply Forall_forall in Hl as (Hk & Hr & _); [|exact Hv]. apply in_prod; [apply list_elem_of_In, elem_of_elements; by eapply reach_in|apply in_seq; lia].
Qed.

(** The neighbours of an element: new pairs join the queue, all at the next depth. *)
Lemma neighbors_fold n d ns V q l : (∀ p, p ∈ V ↔ p ∈ map visit_key l) → NoDup (map visit_key l) →
  ∃ V' new, foldl (rec_neighbor n d) (V, q) ns = (V', q ++ new) ∧ (∀ p, p ∈ V' ↔ p ∈ map visit_key (l ++ new)) ∧ NoDup (map visit_key (l ++ new)) ∧
    Forall (λ v, v.1.2 = n ∧ v.2 = d + 1 ∧ v.1.1 ∈ ns) new ∧ ∀ m, m ∈ ns → (m, d + 1) ∈ V'.
Proof.
  revert V q l. induction ns as [|m ns IH]; intros V q l Hset Hnd.
  { exists V, []. rewrite !app_nil_r. split_and!; [done..|constructor|]. by intros m ?%elem_of_nil. }
  cbn [foldl]. unfold rec_neighbor at 2. case_decide as Hm.
  - destruct (IH V q l Hset Hnd) as (V' & new & -> & H1 & H2 & H3 & H4). exists V', new. split_and!; try done.
    + eapply List.Forall_impl; [|exact H3]. intros v (? & ? & ?). split_and!; [done..|by right].
    + intros x [ ->|Hx]%elem_of_cons; [|by apply H4]. apply H1. rewrite map_app. apply elem_of_app. left. by apply Hset.
  - destruct (IH ({[(m, d + 1)]} ∪ V) (q ++ [((m, n), d + 1)]) (l ++ [((m, n), d + 1)])) as (V' & new & -> & H1 & H2 & H3 & H4).
    + intros p. rewrite map_app, elem_of_app, elem_of_union, elem_of_singleton, Hset. cbn [map]. rewrite list_elem_of_singleton. unfold visit_key at 3. cbn. tauto.
    + rewrite map_app. apply NoDup_app. split_and!; [done| |apply NoDup_singleton]. intros p Hp -> %list_elem_of_singleton. by apply Hm, Hset.
    + rewrite <- app_assoc in H1, H2. exists V', ([((m, n), d + 1)] ++ new). rewrite <- app_assoc. split_and!; [done..| |].
      * constructor; [split_and!; [done..|by left]|]. eapply List.Forall_impl; [|exact H3]. intros v (? & ? & ?). split_and!; [done..|by right].
      * intros x [ ->|Hx]%elem_of_cons; [|by apply H4]. apply H1. rewrite !map_app, !elem_of_app. right; left. by left.
Qed.

(** Taking one element of the queue. *)
Lemma rec_step V done_ c q V' new : rec_inv V done_ (c :: q) → (∀ p, p ∈ V' ↔ p ∈ map visit_key ((done_ ++ c :: q) ++ new)) →
  NoDup (map visit_key ((done_ ++ c :: q) ++ new)) → Forall (λ v, v.1.2 = c.1.1 ∧ v.2 = c.2 + 1 ∧ c.2 < max ∧ v.1.1 ∈ adj c.1.1) new →
  (∀ m, c.2 < max → m ∈ adj c.1.1 → (m, c.2 + 1) ∈ V') → rec_inv V' (done_ ++ [c]) (q ++ new).
Proof.
  intros [Hset _ Hvis Hst Hcl Hso Hfr] Hset' Hnd' Hnew Hall. assert ((done_ ++ [c]) ++ q ++ new = (done_ ++ c :: q) ++ new) as E by (by rewrite <- !app_assoc).
  assert (∀ p, p ∈ V → p ∈ V') as Hsub by (intros p Hp; apply Hset'; rewrite map_app, elem_of_app; left; by apply Hset).
  apply List.Forall_app in Hvis as Hvis'. destruct Hvis' as [_ Hc]. apply list.Forall_cons in Hc as [(Hcm & Hcr & _) _].
  specialize (Hfr c q eq_refl). rewrite !map_app in Hso. cbn [map] in Hso.
  assert (StronglySorted le (map snd (c :: q))) as Hso' by (by apply StronglySorted_app_1_r in Hso).
  assert (∀ v, v ∈ q → c.2 ≤ v.2) as Hlow by (intros v Hv; cbn in Hso'; inversion Hso' as [|? ? _ Hf]; subst; eapply Forall_forall in Hf; [exact Hf|by apply list_elem_of_fmap_2]).
  split; rewrite ?E.
  - done.
  - done.
  - apply List.Forall_app. split; [done|]. eapply List.Forall_impl; [|exact Hnew]. intros [[m s] k]. cbn. intros (-> & -> & Hk & Hm). unfold is_visit. cbn. rewrite Nat.add_1_r.
    split_and!; [lia|by econstructor|]. intros j [= <-]. done.
  - by apply Hsub.
  - intros v m Hv Hk Hm. apply elem_of_app in Hv as [Hv| ->%list_elem_of_singleton]; [by apply Hsub, Hcl|by apply Hall].
  - rewrite map_app. apply StronglySorted_app_2; [|by rewrite map_app|].
    + intros x y Hx (v & -> & Hv)%list_elem_of_fmap. eapply Forall_forall in Hnew as (_ & Ev & _); [|exact Hv]. rewrite Ev. rewrite map_app in Hx. cbn [map] in Hx. apply elem_of_app in Hx as [Hx|[ ->|Hx]%elem_of_cons]; [|lia|].
      * pose proof (StronglySorted_app_1_elem_of _ _ _ x c.2 Hso Hx ltac:(by left)). lia.
      * apply list_elem_of_fmap in Hx as (w & -> & Hw). by eapply Forall_forall in Hfr.
    + clear - Hnew. induction Hnew as [|v new (_ & Ev & _) Hn IH]; [constructor|]. cbn. constructor; [done|]. apply Forall_forall. intros x (w & -> & Hw)%list_elem_of_fmap. eapply Forall_forall in Hn as (_ & Ew & _); [|exact Hw]. lia.
  - intros c' q' Eq. assert (Forall (λ v, c.2 ≤ v.2 ∧ v.2 ≤ c.2 + 1) (q ++ new)) as Hb.
    { apply List.Forall_app. split; [|eapply List.Forall_impl; [|exact Hnew]; cbn; intros v (_ & Ev & _); lia]. apply Forall_forall. intros v Hv. split; [by apply Hlow|by eapply Forall_forall in Hfr]. }
    rewrite Eq in Hb. apply list.Forall_cons in Hb as [[Hc' _] Hb]. eapply List.Forall_impl; [|exact Hb]. cbn. intros v [_ ?]. lia.
Qed.

(** The whole queue. *)
Lemma rec_loop_spec r fuel ticks V done_ q final : rec_inv V done_ q → size U * S max ≤ length done_ + fuel →
  ∃ ticks' visits V', rec_loop rel_columns dst_columns late fuel neighbors (min, max) r ticks V q final = Ok (ticks', final ++ map (visit_row r) (filter in_range visits)) ∧
    rec_inv V' (done_ ++ visits) [].
Proof using Hadj Hprops Hlate HU Hstart.
  revert ticks V done_ q final. induction fuel as [|fuel IH]; intros ticks V done_ q final Hinv Hf; (destruct q as [|[[n s] d] q]; [exists ticks, [], V; cbn; by rewrite !app_nil_r|]).
  { exfalso. pose proof (visits_bound _ (rec_visits _ _ _ Hinv) (rec_once _ _ _ Hinv)) as Hb. rewrite length_app in Hb. cbn in Hb. lia. }
  pose proof (rec_visits _ _ _ Hinv) as Hv. apply List.Forall_app in Hv as [_ Hv]. apply list.Forall_cons in Hv as [(Hd & _) _]. cbn in Hd.
  cbn [rec_loop snd fst]. rewrite Hlate, (proj2 (Nat.ltb_ge _ _)) by lia.
  set (final' := final ++ map (visit_row r) (filter in_range [((n, s), d)])).
  assert ((if (min <=? d) && (0 <? d) then let* vs := rec_row rel_columns dst_columns r ((n, s), d) in Ok (final ++ [vs]) else Ok final) = Ok final') as ->.
  { unfold final'. rewrite filter_cons, filter_nil. change (in_range ((n, s), d)) with ((min <=? d) && (0 <? d)). destruct ((min <=? d) && (0 <? d)); cbn; [rewrite Hprops; cbn; done|by rewrite app_nil_r]. }
  cbn [outcome_bind]. destruct (d <? max) eqn:Edm.
  - apply Nat.ltb_lt in Edm. rewrite Hadj. cbn [outcome_bind]. destruct (neighbors_fold n d (adj n) V q (done_ ++ ((n, s), d) :: q)) as (V' & new & -> & H1 & H2 & H3 & H4); [apply Hinv..|].
    destruct (IH (S ticks) V' (done_ ++ [((n, s), d)]) (q ++ new) final') as (t' & vis & V'' & E & Hi).
    + apply (rec_step V); try done. * eapply List.Forall_impl; [|exact H3]. cbn. intros v (? & ? & ?). done. * intros m _. apply H4.
    + rewrite length_app. cbn. lia.
    + exists t', (((n, s), d) :: vis), V''. rewrite E. rewrite <- app_assoc in Hi. split; [|done]. unfold final'. rewrite <- app_assoc, <- map_app, <- list.filter_app. done.
  - apply Nat.ltb_ge in Edm. destruct (IH (S ticks) V (done_ ++ [((n, s), d)]) q final') as (t' & vis & V'' & E & Hi).
    + rewrite <- (app_nil_r q). apply (rec_step V); [done|rewrite app_nil_r; apply Hinv|rewrite app_nil_r; apply Hinv|constructor|]. cbn. lia.
    + rewrite length_app. cbn. lia.
    + exists t', (((n, s), d) :: vis), V''. rewrite E. rewrite <- app_assoc in Hi. split; [|done]. unfold final'. rewrite <- app_assoc, <- map_app, <- list.filter_app. done.
Qed.

(** What a start node's elements are when the queue is empty. *)
Definition exact_visits (vs : list Visit) : Prop :=
  NoDup (map visit_key vs) ∧ StronglySorted le (map snd vs) ∧ Forall is_visit vs ∧
  ∀ n k, (n, k) ∈ map visit_key vs ↔ 0 < k ∧ min ≤ k ≤ max ∧ reach k n.
Lemma empty_queue V vs : rec_inv V vs [] → exact_visits (filter in_range vs).
Proof.
  intros [Hset Hnd Hvis Hst Hcl Hso _]. rewrite app_nil_r in *.
  split_and!.
  - by apply filter_nodup.
  - by apply filter_sorted.
  - apply Forall_forall. intros v [_ Hv]%list_elem_of_filter. by eapply Forall_forall in Hvis.
  - intros n k. split.
    + intros (v & E & Hv)%list_elem_of_fmap. unfold visit_key in E. injection E as -> ->. apply list_elem_of_filter in Hv as [Hr Hv]. unfold in_range in Hr. apply Is_true_true, andb_true_iff in Hr as [H1%Nat.leb_le H2%Nat.ltb_lt].
      eapply Forall_forall in Hvis as (? & ? & _); [|exact Hv]. done.
    + intros (Hk & [Hmin Hmax] & Hr). assert (∀ k n, reach k n → k ≤ max → (n, k) ∈ V) as Hc.
      { clear - Hset Hst Hcl. induction 1 as [|k a b _ IH Hb]; intros Hk; [done|]. specialize (IH ltac:(lia)). apply Hset in IH. apply list_elem_of_fmap in IH as (v & E & Hv). unfold visit_key in E. injection E as -> ->. rewrite <- Nat.add_1_r. apply Hcl; [done|lia|done]. }
      specialize (Hc k n Hr Hmax). apply Hset in Hc. apply list_elem_of_fmap in Hc as (v & E & Hv). unfold visit_key in E. injection E as -> ->. apply list_elem_of_fmap. exists v. split; [done|]. apply list_elem_of_filter. split; [|done].
      unfold in_range. apply Is_true_true, andb_true_iff. split; [by apply Nat.leb_le|by apply Nat.ltb_lt].
Qed.
Lemma rec_start_inv : rec_inv {[(start, 0)]} [] [((start, start), 0)].
Proof.
  split; cbn.
  - intros p. by rewrite elem_of_singleton, list_elem_of_singleton.
  - apply NoDup_singleton.
  - repeat constructor; cbn; [lia|done|done].
  - by apply elem_of_singleton.
  - by intros v m ?%elem_of_nil.
  - repeat constructor.
  - intros c q' [= <- <-]. constructor.
Qed.
End recursive.

(** The rows of a batch, and of a stream. *)
Section recursive_rows.
Context (adj : Z → list Z) (neighbors : Z → outcome (list Z)) (Hadj : ∀ n, neighbors n = Ok (adj n)).
Context (rel_columns dst_columns : list ColumnView) (props : Z → list Value) (Hprops : ∀ n, read_row dst_columns n = Ok (props n)).
Context (late : nat → bool) (Hlate : ∀ t, late t = false).
Context (U : gset Z) (HU : ∀ n, n ∈ U → Forall (λ b, b ∈ U) (adj n)) (src_var_idx min max : nat).

(** A row whose cell holds no node has no walks, any other those from its node. *)
Definition found (r : Row) (vs : list Visit) : Prop :=
  ∃ c, r !! src_var_idx = Some c ∧ match node_of c with None => vs = [] | Some start => exact_visits adj start min max vs end.
Definition starts_in (r : Row) : Prop := ∃ c, r !! src_var_idx = Some c ∧ ∀ start, node_of c = Some start → start ∈ U.
Definition found_rows (l : list Row) (vss : list (list Visit)) : list (list Value) :=
  concat (zip_with (λ r vs, map (visit_row rel_columns props r) vs) l vss).

Lemma rec_rows_spec fuel l ticks final : size U * S max ≤ fuel → Forall starts_in l →
  ∃ vss, rec_rows rel_columns dst_columns late fuel neighbors src_var_idx (min, max) l ticks final = Ok (final ++ found_rows l vss) ∧ Forall2 found l vss.
Proof using Hadj Hprops Hlate HU.
  intros Hf Hl. revert ticks final. induction Hl as [|r l (c & Ec & Hc) _ IH]; intros ticks final; [exists []; cbn; by rewrite app_nil_r|]. cbn [rec_rows]. rewrite Ec.
  destruct (node_of c) as [start|] eqn:En.
  - destruct (rec_loop_spec adj neighbors Hadj rel_columns dst_columns props Hprops late Hlate U HU start (Hc start eq_refl) min max r fuel ticks {[(start, 0)]} [] [((start, start), 0)] final) as (t' & vis & V' & -> & Hi); [apply rec_start_inv|cbn; lia|].
    cbn [outcome_bind fst snd]. destruct (IH t' (final ++ map (visit_row rel_columns props r) (filter (in_range min) vis))) as (vss & -> & Hall). exists (filter (in_range min) vis :: vss).
    split; [by rewrite <- app_assoc|]. constructor; [|done]. exists c. split; [done|]. rewrite En. by eapply empty_queue.
  - destruct (IH ticks final) as (vss & -> & Hall). exists ([] :: vss). split; [done|]. constructor; [|done]. exists c. split; [done|]. by rewrite En.
Qed.
End recursive_rows.

(** The join while the deadline does not pass. *)
Lemma timely_rows (index : option (Z → outcome (list Z))) (rel_columns dst_columns : list ColumnView) (cardinality : nat) (late : nat → bool)
    (adj : Z → list Z) (props : Z → list Value) (U : gset Z) (src_var_idx min max fuel : nat) (bs : list RecordBatch) :
  (∀ n, rel_neighbors index rel_columns cardinality n = Ok (adj n)) → (∀ n, read_row dst_columns n = Ok (props n)) → (∀ t, late t = false) →
  (∀ n, n ∈ U → Forall (λ b, b ∈ U) (adj n)) → Forall (λ b, Forall (starts_in U src_var_idx) (rows b)) bs → size U * S max ≤ fuel →
  ∃ out vsss, produces (recursive_join_next (Ok index) rel_columns dst_columns cardinality late fuel) (mkRecursiveJoin (map Ok bs) src_var_idx (min, max)) out ∧
    Forall2 (λ b vss, Forall2 (found adj src_var_idx min max) (rows b) vss) bs vsss ∧
    concat (map rows out) = concat (zip_with (λ b vss, rows (rec_batch rel_columns dst_columns (schema b) (found_rows rel_columns props (rows b) vss))) bs vsss).
Proof.
  intros Hadj Hprops Hlate HU Hbs Hf. induction Hbs as [|b bs Hb _ (out & vsss & Hout & Hall & E)].
  { exists [], []. split_and!; [by eapply produces_end|constructor|done]. }
  destruct (rec_rows_spec adj (rel_neighbors index rel_columns cardinality) Hadj rel_columns dst_columns props Hprops late Hlate U HU src_var_idx min max fuel (rows b) 0 [] Hf Hb) as (vss & Ev & Hv).
  cbn [app] in Ev. destruct (found_rows rel_columns props (rows b) vss) as [|f fs] eqn:Ef.
  - exists out, (vss :: vsss). split_and!; [|by constructor|cbn [zip_with concat]; by rewrite Ef].
    assert (recursive_join_next (Ok index) rel_columns dst_columns cardinality late fuel (mkRecursiveJoin (map Ok (b :: bs)) src_var_idx (min, max)) =
      recursive_join_next (Ok index) rel_columns dst_columns cardinality late fuel (mkRecursiveJoin (map Ok bs) src_var_idx (min, max))) as En by (unfold recursive_join_next; cbn [rj_child map recursive_pull bounds Traversal.src_var_idx outcome_bind]; by rewrite Ev).
    inversion Hout; subst; [eapply produces_end|eapply produces_next; [|done]]; by rewrite En.
  - exists (rec_batch rel_columns dst_columns (schema b) (f :: fs) :: out), (vss :: vsss). split_and!; [|by constructor|cbn [map zip_with concat]; by rewrite Ef, E].
    eapply produces_next; [|exact Hout]. unfold recursive_join_next. cbn [rj_child map recursive_pull bounds Traversal.src_var_idx outcome_bind]. by rewrite Ev.
Qed.


(** The clock only ever turns a result into the deadline's error. *)
Section deadline.
Context (index : option (Z → outcome (list Z))) (rel_columns dst_columns : list ColumnView) (cardinality : nat) (late : nat → bool).
Local Abbreviation on_time := (λ _ : nat, false).
Definition passed : Prop := ∃ t, late t = true.

Lemma rec_loop_late fuel neighbors bounds r : ∀ ticks V q final,
  rec_loop rel_columns dst_columns late fuel neighbors bounds r ticks V q final =
    rec_loop rel_columns dst_columns on_time fuel neighbors bounds r ticks V q final ∨
  rec_loop rel_columns dst_columns late fuel neighbors bounds r ticks V q final = Err Internal ∧ passed.
Proof.
  induction fuel as [|fuel IH]; intros ticks V q final; [by left; destruct q|]. destruct q as [|[[n src] depth] q]; [by left|]. cbn [rec_loop].
  destruct (late ticks) eqn:El; [right; split; [done|by exists ticks]|]. destruct (snd bounds <? depth); [apply IH|].
  destruct (if (fst bounds <=? depth) && (0 <? depth) then _ else _) as [f|e|]; cbn [outcome_bind]; [|by left..].
  destruct (depth <? snd bounds); [|apply IH]. destruct (neighbors n) as [ns|e|]; cbn [outcome_bind]; [|by left..].
  destruct (foldl _ _ ns). apply IH.
Qed.

Lemma rec_rows_late fuel neighbors src_var_idx bounds l : ∀ ticks final,
  rec_rows rel_columns dst_columns late fuel neighbors src_var_idx bounds l ticks final =
    rec_rows rel_columns dst_columns on_time fuel neighbors src_var_idx bounds l ticks final ∨
  rec_rows rel_columns dst_columns late fuel neighbors src_var_idx bounds l ticks final = Err Internal ∧ passed.
Proof.
  induction l as [|r l IH]; intros ticks final; [by left|]. cbn [rec_rows]. destruct (r !! src_var_idx) as [c|]; [|by left].
  destruct (node_of c) as [start|]; [|apply IH].
  destruct (rec_loop_late fuel neighbors bounds r ticks {[(start, 0)]} [((start, start), 0)] final) as [-> |[-> Hl]]; [|by right].
  destruct (rec_loop _ _ on_time _ _ _ _ _ _ _ _) as [st|e|]; cbn [outcome_bind]; [apply IH|by left..].
Qed.

Lemma recursive_next_late fuel o :
  recursive_join_next (Ok index) rel_columns dst_columns cardinality late fuel o = recursive_join_next (Ok index) rel_columns dst_columns cardinality on_time fuel o ∨
  snd (recursive_join_next (Ok index) rel_columns dst_columns cardinality late fuel o) = Err Internal ∧ passed.
Proof.
  unfold recursive_join_next. destruct o as [child i bounds]. cbn [src_var_idx Traversal.bounds rj_child].
  induction child as [|[b|e|] child IH]; [by left| |by left..]. cbn [recursive_pull outcome_bind].
  destruct (rec_rows_late fuel (rel_neighbors index rel_columns cardinality) i bounds (rows b) 0 []) as [-> |[-> Hl]]; [|by right].
  destruct (rec_rows _ _ on_time _ _ _ _ _ _ _) as [[|f fs]|e|]; [apply IH|by left..].
Qed.

Lemma produces_or_late fuel s out :
  produces (recursive_join_next (Ok index) rel_columns dst_columns cardinality on_time fuel) s out →
  produces (recursive_join_next (Ok index) rel_columns dst_columns cardinality late fuel) s out ∨
  ∃ n out1 out2, out = out1 ++ out2 ∧
    drain (recursive_join_next (Ok index) rel_columns dst_columns cardinality late fuel) n s = map Ok out1 ++ [Err Internal] ∧ passed.
Proof.
  induction 1 as [s s' E|s s' b out E _ IH]; (destruct (recursive_next_late fuel s) as [E'|[E' Hl]]; [rewrite E in E'|]).
  - left. by eapply produces_end.
  - right. exists 1, [], []. split; [done|]. cbn [drain]. destruct (recursive_join_next _ _ _ _ late fuel s) as [s1 res]. cbn in E'. by subst.
  - destruct IH as [IH|(n & out1 & out2 & -> & Hd & Hl)]; [left; by eapply produces_next|].
    right. exists (S n), (b :: out1), out2. split; [done|]. cbn [drain map app]. by rewrite E', Hd.
  - right. exists 1, [], (b :: out). split; [done|]. cbn [drain]. destruct (recursive_join_next _ _ _ _ late fuel s) as [s1 res]. cbn in E'. by subst.
Qed.
End deadline.

(** C11. A variable-length pattern (the recursive join).  Let the adjacency answer
    for every node, every destination row be readable, the nodes that can be met lie
    in a finite set, and the search have fuel for every node at every depth.  The
    rows owed are, for every row of the child, one per pair of node and depth [k],
    [max min 1 <= k <= max], such that a walk of [k] relationships leads from the
    row's node to it, each pair once and shorter walks first, with the node before
    the last on such a walk as [_src]; a row whose cell holds no node owes none, and
    the start node itself is owed for no pattern, [*0..] included
    ([zero_length_walk_missing]).  The join hands out exactly these rows and ends;
    or, only if the deadline passed, it hands out a prefix of the batches and then
    the deadline's error. *)
Theorem variable_length_rows (index : option (Z → outcome (list Z))) (rel_columns dst_columns : list ColumnView) (cardinality : nat) (late : nat → bool)
    (adj : Z → list Z) (props : Z → list Value) (U : gset Z) (src_var_idx min max fuel : nat) (bs : list RecordBatch) :
  (∀ n, rel_neighbors index rel_columns cardinality n = Ok (adj n)) → (∀ n, read_row dst_columns n = Ok (props n)) →
  (∀ n, n ∈ U → Forall (λ b, b ∈ U) (adj n)) → Forall (λ b, Forall (starts_in U src_var_idx) (rows b)) bs → size U * S max ≤ fuel →
  let next := recursive_join_next (Ok index) rel_columns dst_columns cardinality late fuel in
  let join := mkRecursiveJoin (map Ok bs) src_var_idx (min, max) in
  ∃ out vsss, Forall2 (λ b vss, Forall2 (found adj src_var_idx min max) (rows b) vss) bs vsss ∧
    concat (map rows out) = concat (zip_with (λ b vss, rows (rec_batch rel_columns dst_columns (schema b) (found_rows rel_columns props (rows b) vss))) bs vsss) ∧
    (produces next join out ∨
     ∃ n out1 out2, out = out1 ++ out2 ∧ drain next n join = map Ok out1 ++ [Err Internal] ∧ ∃ t, late t = true).
Proof.
  intros Hadj Hprops HU Hbs Hf next join.
  destruct (timely_rows index rel_columns dst_columns cardinality (λ _, false) adj props U src_var_idx min max fuel bs) as (out & vsss & Hout & Hall & E); [done..|].
  exists out, vsss. split_and!; [done|done|]. by apply produces_or_late.
Qed.

(** [*0..0]: the walk of no relationships, from a node to itself, is not handed
    out; every start node gives no row. *)
Theorem zero_length_walk_missing (index : option (Z → outcome (list Z))) (rel_columns dst_columns : list ColumnView) (cardinality : nat) (n : Z) :
  let b := mkBatch [DUInt64] [[Some (AUInt64 n)]] in
  recursive_join_next (Ok index) rel_columns dst_columns cardinality (λ _, false) 2 (mkRecursiveJoin [Ok b] 0 (planned_bounds (Some (Some 0, Some 0)))) =
    (mkRecursiveJoin [] 0 (0, 0), Ok None).
Proof. reflexivity. Qed.

(** Without an index the join reads the relationship table itself: the neighbours
    of a node are the destinations of its rows, in row order, among the first
    [MAX_FALLBACK_RELS] rows only. *)
Theorem fallback_reads_table (src_col dst_col : ColumnView) (rest : list ColumnView) (src dst : Z → Z) (cardinality : nat) (n : Z) :
  (∀ r, get_value src_col r = Ok (VNode (src r)) ∧ get_value dst_col r = Ok (VNode (dst r))) →
  rel_neighbors None (src_col :: dst_col :: rest) cardinality n =
    Ok (map dst (filter (λ r, src r = n) (Z.of_nat <$> seq 0 (Nat.min cardinality MAX_FALLBACK_RELS)))).
Proof.
  intros H. unfold rel_neighbors, fallback_adj. generalize (Z.of_nat <$> seq 0 (Nat.min cardinality MAX_FALLBACK_RELS)) as rs. intros rs.
  assert (∀ m, ∃ m', scan_rels src_col dst_col m rs = Ok m' ∧ default [] (m' !! n) = default [] (m !! n) ++ map dst (filter (λ r, src r = n) rs)) as Hs.
  { induction rs as [|r rs IH]; intros m; [exists m; by rewrite app_nil_r|]. cbn [scan_rels]. destruct (H r) as [-> ->].
    destruct (IH (<[src r := default [] (m !! src r) ++ [dst r]]> m)) as (m' & -> & E). exists m'. split; [done|]. rewrite E, filter_cons. case_decide as Hd.
    - rewrite Hd, lookup_insert_eq. unfold default at 1, id. by rewrite <- app_assoc.
    - by rewrite lookup_insert_ne. }
  destruct (Hs ∅) as (m' & -> & E). cbn [outcome_bind]. by rewrite E, lookup_empty.
Qed.

(** A node with an edge to itself: the queue never empties before the upper bound. *)
Lemma self_loop_times_out (n : Z) (neighbors : Z → outcome (list Z)) (rel_columns dst_columns : list ColumnView) (props : Z → list Value) (late : nat → bool) (T max fuel t : nat) r V final :
  neighbors n = Ok [n] → (∀ m, read_row dst_columns m = Ok (props m)) → (∀ t, late t = (T <=? t)) → T ≤ max → t ≤ T → T < fuel + t → (∀ k, t < k → (n, k) ∉ V) →
  rec_loop rel_columns dst_columns late fuel neighbors (1, max) r t V [((n, n), t)] final = Err Internal.
Proof.
  intros Hn Hp Hl HT. remember (T - t) as m eqn:Em. revert fuel t Em V final. induction m as [|m IH]; intros fuel t Em V final Ht Hf HV; (destruct fuel as [|fuel]; [lia|]); cbn [rec_loop fst snd].
  - by rewrite Hl, (proj2 (Nat.leb_le _ _)) by lia.
  - rewrite Hl, (proj2 (Nat.leb_gt _ _)), (proj2 (Nat.ltb_ge _ _)) by lia.
    assert (∃ final', (if (1 <=? t) && (0 <? t) then let* vs := rec_row rel_columns dst_columns r ((n, n), t) in Ok (final ++ [vs]) else Ok final) = Ok final') as [final' ->].
    { destruct ((1 <=? t) && (0 <? t)); [|by eexists]. unfold rec_row. rewrite Hp. by eexists. }
    cbn [outcome_bind]. rewrite (proj2 (Nat.ltb_lt _ _)), Hn by lia. cbn [outcome_bind foldl rec_neighbor app]. rewrite decide_False by (apply HV; lia). rewrite Nat.add_1_r.
    apply IH; [lia|lia|lia|]. intros k Hk. rewrite elem_of_union, elem_of_singleton. intros [[= ->]|Hin]; [lia|]. by eapply HV; [|exact Hin]; lia.
Qed.
(** A pattern without an upper bound ([*]) on a cycle: pairs of node and depth are
    remembered, not nodes, so the search goes on until the deadline, and the whole
    query fails, however few nodes can be reached. *)
Theorem unbounded_cycle_times_out (n : Z) (get_neighbors : Z → outcome (list Z)) (rel_columns dst_columns : list ColumnView) (cardinality : nat) (props : Z → list Value) (late : nat → bool) (T fuel : nat) (child : Stream) :
  get_neighbors n = Ok [n] → (∀ m, read_row dst_columns m = Ok (props m)) → (∀ t, late t = (T <=? t)) → T ≤ U32_MAX → T < fuel →
  let b := mkBatch [DUInt64] [[Some (AUInt64 n)]] in
  recursive_join_next (Ok (Some get_neighbors)) rel_columns dst_columns cardinality late fuel (mkRecursiveJoin (Ok b :: child) 0 (planned_bounds (Some (None, None)))) =
    (mkRecursiveJoin child 0 (planned_bounds (Some (None, None))), Err Internal).
Proof.
  intros Hn Hp Hl HT Hf b. unfold recursive_join_next, planned_bounds. cbn [rj_child bounds src_var_idx recursive_pull outcome_bind mbind option_bind fst snd default rows b rec_rows lookup list_lookup node_of from_arrow rel_neighbors].
  by rewrite (self_loop_times_out n get_neighbors rel_columns dst_columns props late T U32_MAX fuel 0 _ {[(n, 0)]} [] Hn Hp Hl HT ltac:(lia) ltac:(lia) ltac:(intros k Hk [= ->]%elem_of_singleton; lia)).
Qed.

(** ** Inputs on which the hypotheses hold *)

(** Two paths of two edges from 1 to 4, and a way back. *)
Definition diamond (n : Z) : list Z :=
  if decide (n = 1%Z) then [2; 3]%Z else if decide (n = 2%Z) then [4]%Z else if decide (n = 3%Z) then [4]%Z else if decide (n = 4%Z) then [1]%Z else [].
Definition diamond_nodes : gset Z := {[1; 2; 3; 4]}%Z.
Lemma diamond_edges n : n ∈ diamond_nodes → NoDup (diamond n) ∧ Forall (λ b, b ∈ diamond_nodes) (diamond n).
Proof.
  intros Hn. unfold diamond_nodes in Hn. rewrite !elem_of_union, !elem_of_singleton in Hn.
  assert (bool_decide (NoDup (diamond n)) && bool_decide (Forall (λ b, b ∈ diamond_nodes) (diamond n))) as H by (by destruct Hn as [[[->| ->]| ->]| ->]; vm_compute).
  apply andb_prop_elim in H as [H1%bool_decide_unpack H2%bool_decide_unpack]. done.
Qed.
Definition no_columns (n : Z) : list Value := [].

Lemma all_shortest_paths_witness :
  ∃ paths enough, (∀ back_fuel, enough ≤ back_fuel → bfs_shortest_path (λ n, Ok (diamond n)) (size diamond_nodes) back_fuel 1 4 10 = Ok paths) ∧ NoDup paths ∧
    ∀ p, p ∈ paths ↔ ∃ k, k ≤ 10 ∧ distance diamond 1 k 4 ∧ path_to diamond 1 k 4 p.
Proof. apply (all_shortest_paths diamond (λ n, Ok (diamond n)) diamond_nodes 1 4 10); [done|apply (bool_decide_unpack _); vm_compute; exact I|exact diamond_edges]. Defined.
Lemma asp_drops_single_rows_witness :
  produces (asp_next (Some (λ a b, Ok [[a; b]])) (λ p, p)) (asp_new (map Ok [mkBatch [DUInt64; DUInt64] [[Some (AUInt64 1); Some (AUInt64 2)]]])) [].
Proof. apply asp_drops_single_rows. repeat constructor. Defined.
Lemma asp_skips_odd_rows_witness :
  let row x y := [Some (AUInt64 x); Some (AUInt64 y)] in
  produces (asp_next (Some (λ a b, Ok [[a; b]])) (λ p, p)) (asp_new [Ok (mkBatch [DUInt64; DUInt64] [row 1 2; row 3 4]%Z)]) [build_chunk_for_source (λ p, p) 1 2 [[1; 2]%Z]].
Proof. apply (asp_skips_odd_rows (λ p, p) (λ a b, Ok [[a; b]]) 1 2 3 4 [1; 2]%Z []). reflexivity. Defined.

(** On time, and with a deadline that passes at the third element. *)
Lemma variable_length_rows_witness :
  let b := mkBatch [DUInt64] [[Some (AUInt64 1)]; [None]] in
  let join := mkRecursiveJoin (map Ok [b]) 0 (1, 3) in
  Forall (λ late, let next := recursive_join_next (Ok (Some (λ n, Ok (diamond n)))) [] [] 0 late 16 in
  ∃ out vsss, Forall2 (λ b vss, Forall2 (found diamond 0 1 3) (rows b) vss) [b] vsss ∧
    concat (map rows out) = concat (zip_with (λ b vss, rows (rec_batch [] [] (schema b) (found_rows [] no_columns (rows b) vss))) [b] vsss) ∧
    (produces next join out ∨ ∃ n out1 out2, out = out1 ++ out2 ∧ drain next n join = map Ok out1 ++ [Err Internal] ∧ ∃ t, late t = true))
    [(λ _ : nat, false); Nat.leb 2].
Proof.
  intros b join. apply list.Forall_forall. intros late _. apply (variable_length_rows (Some (λ n, Ok (diamond n))) [] [] 0 late diamond no_columns diamond_nodes 0 1 3 16 [b]); [done..| | |].
  - intros n Hn. by apply diamond_edges.
  - repeat constructor; [exists (Some (AUInt64 1))|exists None]; (split; [done|]); [|done]. intros start [= <-]. apply (bool_decide_unpack _); by vm_compute.
  - by vm_compute; repeat constructor.
Defined.
Lemma fallback_reads_table_witness :
  rel_neighbors None [mkColumnView (TNode []) (λ _, Ok (VNode 1)); mkColumnView (TNode []) (λ r, Ok (VNode (r + 7)))] 2 1 = Ok [7; 8]%Z.
Proof. by rewrite (fallback_reads_table _ _ [] (λ _, 1%Z) (λ r, (r + 7)%Z) 2 1) by done. Defined.
Lemma unbounded_cycle_times_out_witness :
  let b := mkBatch [DUInt64] [[Some (AUInt64 1)]] in
  recursive_join_next (Ok (Some (λ n, Ok [n]))) [] [] 0 (λ t, 5 <=? t) 6 (mkRecursiveJoin [Ok b] 0 (planned_bounds (Some (None, None)))) =
    (mkRecursiveJoin [] 0 (planned_bounds (Some (None, None))), Err Internal).
Proof. apply (unbounded_cycle_times_out 1 (λ n, Ok [n]) [] [] 0 no_columns (λ t, 5 <=? t) 5 6 []); [done..|unfold U32_MAX; lia|lia]. Defined.
