(* ===== verification/TableStore.v ===== *)
(** * Tables and their write buffers (storage/storage_manager.rs)

    A table is a list of columns with a shared counter of row ids, a cardinality
    and, per transaction, a buffer of rows that have been created one by one and
    not yet been written to the columns.  The columns share one set of row
    versions, so one [WriteTx] is threaded through the calls on them.  Of the
    trigram workers only what is sent to them is kept.  The parallel loop of
    [bulk_append_batch] is taken in column order. *)
From stdpp Require Import base list gmap strings numbers.
From Stdlib Require Import ZArith Lia Bool.
From S2P Require Import Prelude Codec Codecs RowVersion TxnManager PageFile Stats Column ColumnScan.
Open Scope nat_scope.

(** ** State *)

Definition DEFAULT_WRITE_BUFFER_THRESHOLD : nat := 200.
Record WriteBuffer := mkWriteBuffer { wb_columns : list (list Value); wb_row_ids : list Z; size_bytes : Z }.

Record Table := mkTable {
  t_columns : list Column;
  t_cardinality : Z;
  next_row_id : Z;
  write_buffer : gmap Z WriteBuffer;
  (** the columns with a worker, and the entries sent *)
  t_workers : list (list Z);
  t_sent : list (list Z * list (Z * list Z))
}.
Definition table_new (columns : list Column) : Table := mkTable columns 0 0 ∅ [] [].
(** [Table::clone]: everything is shared but the write buffer, which starts empty. *)
Definition table_clone (t : Table) : Table := mkTable (t_columns t) (t_cardinality t) (next_row_id t) ∅ (t_workers t) (t_sent t).

Definition set_buffer (t : Table) (b : gmap Z WriteBuffer) : Table :=
  mkTable (t_columns t) (t_cardinality t) (next_row_id t) b (t_workers t) (t_sent t).
Definition set_columns (t : Table) (cs : list Column) : Table :=
  mkTable cs (t_cardinality t) (next_row_id t) (write_buffer t) (t_workers t) (t_sent t).
Definition add_cardinality (t : Table) (n : Z) : Table :=
  mkTable (t_columns t) (t_cardinality t + n) (next_row_id t) (write_buffer t) (t_workers t) (t_sent t).
Definition set_next_row_id (t : Table) (n : Z) : Table :=
  mkTable (t_columns t) (t_cardinality t) n (write_buffer t) (t_workers t) (t_sent t).
Definition send_entries (t : Table) (msgs : list (list Z * list (Z * list Z))) : Table :=
  mkTable (t_columns t) (t_cardinality t) (next_row_id t) (write_buffer t) (t_workers t) (t_sent t ++ msgs).

(** The transaction: what the columns use of it, and its list of row ranges. *)
Record TableTx := mkTableTx { tt_w : WriteTx; bulk_row_ranges : list (Z * Z) }.
Definition set_w (x : TableTx) (w : WriteTx) : TableTx := mkTableTx w (bulk_row_ranges x).
Definition push_range (x : TableTx) (lo hi : Z) : TableTx := mkTableTx (tt_w x) (bulk_row_ranges x ++ [(lo, hi)]).

Definition table_result (A : Type) : Type := (Table * TableTx) * outcome A.

Definition reserve_rows (t : Table) (x : TableTx) (start count : Z) : TableTx :=
  if decide (count = 0%Z ∨ t_columns t = []) then x
  else push_range (set_w x (set_versions (tt_w x) (mark_row_batch (w_versions (tt_w x)) start (start + count) (w_tx_id (tt_w x))))) start (start + count).

(** ** Arrow arrays from buffered values *)

Section table.
Context (debug : Value → list Z) (display : Value → list Z).

(** The builder of a column type, and the value it keeps (what [Value::from_arrow]
    reads back from the finished array). *)
Definition builder_type (t : LogicalType) : DataType :=
  match t with
  | TString => DUtf8
  | TInt64 | TInt32 | TInt16 | TInt8 => DInt64
  | TDouble | TFloat => DFloat64
  | TBool => DBoolean
  | TNode _ | TRel _ | TUint64 | TUint32 | TUint16 | TUint8 => DUInt64
  | TDate => DDate32
  | TTimestamp => DTimestamp
  | _ => DUtf8
  end.
Definition builder_value (t : LogicalType) (v : Value) : Value :=
  match t, v with
  | TString, VString s => VString s
  | TString, _ => VNull
  | TInt64, VNumber n | TInt32, VNumber n | TInt16, VNumber n | TInt8, VNumber n => VNumber (int_as_f64 (f64_as_i64 n))
  | TInt64, _ | TInt32, _ | TInt16, _ | TInt8, _ => VNull
  | TDouble, VNumber n | TFloat, VNumber n => VNumber n
  | TDouble, _ | TFloat, _ => VNull
  | TBool, VBoolean b => VBoolean b
  | TBool, _ => VNull
  | TNode _, VNode id => VNode id
  | TNode _, _ => VNull
  | TRel _, VRelationship id => VNode id
  | TRel _, _ => VNull
  | TUint64, VNode id | TUint32, VNode id | TUint16, VNode id | TUint8, VNode id => VNode id
  | TUint64, VNumber n | TUint32, VNumber n | TUint16, VNumber n | TUint8, VNumber n => VNode (f64_as_u64 n)
  | TUint64, _ | TUint32, _ | TUint16, _ | TUint8, _ => VNull
  | TDate, VDate d => VDate d
  | TDate, _ => VNull
  | TTimestamp, VTimestamp u => VTimestamp u
  | TTimestamp, _ => VNull
  | _, v => VString (display v)
  end.
Definition array_of (vals : list Value) : Array := mkArray (Some (map is_null_value vals)) vals.
(** The array of one column; a column added after the rows were buffered is null. *)
Definition buffered_array (columns : list (list Value)) (num_rows col_idx : nat) (c : Column) : DataType * Array :=
  let t := data_type (col c) in
  match columns !! col_idx with
  | Some vals => (builder_type t, array_of (map (builder_value t) vals))
  | None => (logical_type_to_arrow_type t, array_of (replicate num_rows VNull))
  end.
(** [RecordBatch::try_new] against the fields of the columns: types and lengths. *)
Definition batch_fits (cs : list Column) (arrays : list (DataType * Array)) (num_rows : nat) : bool :=
  forallb (λ ca, bool_decide (ca.2.1 = logical_type_to_arrow_type (data_type (col ca.1))) && bool_decide (length (arr_values ca.2.2) = num_rows)) (zip cs arrays).

(** The columns one after the other, stopping at the first error. *)
Fixpoint bulk_columns (cs : list Column) (arrays : list Array) (w : WriteTx) (start_id : Z) (is_bulk : bool) : (list Column * WriteTx) * outcome unit :=
  match cs, arrays with
  | c :: cs, a :: arrays =>
      match bulk_append_array_bulk_mode debug c w a start_id is_bulk with
      | ((c, w), Ok _) => let '((cs, w), o) := bulk_columns cs arrays w start_id is_bulk in ((c :: cs, w), o)
      | ((c, w), o) => ((c :: cs, w), o)
      end
  | cs, _ => ((cs, w), Ok tt)
  end.

(** [bulk_append_trigram_batch]: the strings of every column with a worker. *)
Fixpoint entries_of (start_id : Z) (vals : list Value) : list (Z * list Z) :=
  match vals with
  | [] => []
  | VString s :: vals => (start_id, s) :: entries_of (start_id + 1) vals
  | _ :: vals => entries_of (start_id + 1) vals
  end.
Definition trigram_messages (t : Table) (start_id : Z) (arrays : list Array) : list (list Z * list (Z * list Z)) :=
  filter (λ m, m.2 ≠ [])
    (zip_with (λ c a,
       match data_type (col c) with
       | TString => if decide (cd_name (col c) ∈ t_workers t) then (cd_name (col c), entries_of start_id (arr_values a)) else (cd_name (col c), [])
       | _ => (cd_name (col c), [])
       end) (t_columns t) arrays).

(** ** The write buffer *)

Definition ensure_buffer (t : Table) (tx_id : Z) : Table :=
  match write_buffer t !! tx_id with
  | Some _ => t
  | None => set_buffer t (<[tx_id := mkWriteBuffer (replicate (length (t_columns t)) []) [] 0]> (write_buffer t))
  end.

Definition flush_rows (t : Table) (x : TableTx) (columns : list (list Value)) (row_ids : list Z) : table_result unit :=
  let num_rows := length (default [] (columns !! 0)) in
  match row_ids with
  | [] => ((t, x), Panic)
  | start_id :: _ =>
      let arrays := imap (buffered_array columns num_rows) (t_columns t) in
      if batch_fits (t_columns t) arrays num_rows then
        let x := match t_columns t with [] => x | _ => push_range x start_id (start_id + Z.of_nat num_rows) end in
        let '((cs, w), o) := bulk_columns (t_columns t) (map snd arrays) (tt_w x) start_id (bool_decide (t_columns t ≠ [])) in
        let t := set_columns t cs in
        let x := set_w x w in
        match o with
        | Ok _ => ((add_cardinality (send_entries t (trigram_messages t start_id (map snd arrays))) (Z.of_nat num_rows), x), Ok tt)
        | Err e => ((t, x), Err e)
        | Panic => ((t, x), Panic)
        end
      else ((t, x), Err Internal)
  end.
(** The buffer is taken out before anything is written. *)
Definition flush_buffer (t : Table) (x : TableTx) : table_result unit :=
  match write_buffer t !! w_tx_id (tt_w x) with
  | None => ((t, x), Ok tt)
  | Some wb =>
      let t := set_buffer t (delete (w_tx_id (tt_w x)) (write_buffer t)) in
      match wb_columns wb with
      | [] => ((t, x), Ok tt)
      | [] :: _ => ((t, x), Ok tt)
      | columns => flush_rows t x columns (wb_row_ids wb)
      end
  end.
Definition flush_pending (t : Table) (x : TableTx) : table_result unit := flush_buffer t x.

Definition string_bytes (values : list Value) : Z := foldr (λ v n, match v with VString s => (Z.of_nat (length s) + n)%Z | _ => n end) 0%Z values.
Fixpoint push_values (columns : list (list Value)) (values : list Value) : list (list Value) :=
  match columns, values with
  | c :: columns, v :: values => (c ++ [v]) :: push_values columns values
  | columns, _ => columns
  end.
(** Values beyond the columns of the buffer are ignored. *)
Definition buffer_row (wb : WriteBuffer) (values : list Value) (next_id : Z) : WriteBuffer :=
  mkWriteBuffer (push_values (wb_columns wb) values) (wb_row_ids wb ++ [next_id]) (size_bytes wb + string_bytes (take (length (wb_columns wb)) values)).
Definition append_row (t : Table) (x : TableTx) (values : list Value) (next_id : Z) : table_result unit :=
  let t := ensure_buffer t (w_tx_id (tt_w x)) in
  match write_buffer t !! w_tx_id (tt_w x) with
  | None => ((t, x), Ok tt)
  | Some wb =>
      let wb := buffer_row wb values next_id in
      let t := set_buffer t (<[w_tx_id (tt_w x) := wb]> (write_buffer t)) in
      if DEFAULT_WRITE_BUFFER_THRESHOLD <=? length (default [] (wb_columns wb !! 0)) then flush_buffer t x else ((t, x), Ok tt)
  end.

(** ** Whole batches *)

Definition column_of (rows : list (list Value)) (col_idx : nat) : list Value := map (λ row, default VNull (row !! col_idx)) rows.
(** The rows are reported as modified only when every column has been written. *)
Fixpoint batch_columns (cs : list Column) (col_idx : nat) (rows : list (list Value)) (w : WriteTx) (start_id : Z) (modified : list Z) :
    (list Column * WriteTx) * outcome (list Z) :=
  match cs with
  | [] => (([], w), Ok modified)
  | c :: cs =>
      match batch_append_values debug c w (column_of rows col_idx) start_id with
      | ((c, w), Ok m) => let '((cs, w), o) := batch_columns cs (S col_idx) rows w start_id (modified ++ m) in ((c :: cs, w), o)
      | ((c, w), Err e) => ((c :: cs, w), Err e)
      | ((c, w), Panic) => ((c :: cs, w), Panic)
      end
  end.
(** The entries of one row for one worker. *)
Definition row_entries (t : Table) (start_id : Z) (rows : list (list Value)) (c : list Z) : list (Z * list Z) :=
  concat (imap (λ i row, omap (λ cv, match snd cv with VString s => if decide (cd_name (col (fst cv)) = c) then Some ((start_id + Z.of_nat i)%Z, s) else None | _ => None end) (zip (t_columns t) row)) rows).
Definition batch_append_rows (t : Table) (x : TableTx) (rows : list (list Value)) (start_id : Z) : table_result unit :=
  if decide (rows = []) then ((t, x), Ok tt)
  else
    let '((cs, w), o) := batch_columns (t_columns t) 0 rows (tt_w x) start_id [] in
    let t := set_columns t cs in
    match o with
    | Ok modified =>
        let x := set_w x (foldl push_row w modified) in
        let msgs := filter (λ m, m.2 ≠ []) (map (λ c, (c, row_entries t start_id rows c)) (t_workers t)) in
        ((add_cardinality (send_entries t msgs) (Z.of_nat (length rows)), x), Ok tt)
    | Err e => ((t, set_w x w), Err e)
    | Panic => ((t, set_w x w), Panic)
    end.

Definition bulk_append_batch (t : Table) (x : TableTx) (arrays : list Array) (num_rows : nat) (start_id : Z) : table_result unit :=
  if decide (num_rows = 0) then ((t, x), Ok tt)
  else
    let x := match t_columns t with [] => x | _ => push_range x start_id (start_id + Z.of_nat num_rows) end in
    let '((cs, w), o) := bulk_columns (t_columns t) arrays (tt_w x) start_id (bool_decide (t_columns t ≠ [])) in
    let t := set_columns t cs in
    let x := set_w x w in
    match o with
    | Ok _ => let t := add_cardinality t (Z.of_nat num_rows) in ((set_next_row_id t (Z.max (next_row_id t) (start_id + Z.of_nat num_rows)), x), Ok tt)
    | Err e => ((t, x), Err e)
    | Panic => ((t, x), Panic)
    end.
End table.
