(* ===== verification/TableStoreSpec.v ===== *)
(** * What a table keeps of the rows it is given (storage/storage_manager.rs)

    Rows that are created one by one go through the write buffer of their
    transaction; flushing it writes them to the columns.  Proved against what the
    columns promise for a bulk append (ColumnBatch). *)
From stdpp Require Import base list gmap strings numbers.
From Stdlib Require Import ZArith Lia Bool.
From S2P Require Import Prelude Codec Codecs RowVersion TxnManager PageFile Stats Column ColumnSpec ColumnBatch ColumnScan TableStore.
Open Scope nat_scope.

Section table.
Context (debug : Value → list Z) (display : Value → list Z) (from_utf8_lossy : list Z → list Z).

Lemma array_rows vals : arr_rows (array_of vals) = tagged vals.
Proof.
  unfold arr_rows, array_of, tagged, arr_null_at. cbn [arr_nulls arr_values]. apply list_eq. intros i. rewrite list_lookup_imap.
  change (map (λ v, (is_null_value v, v)) vals) with ((λ v, (is_null_value v, v)) <$> vals). rewrite list_lookup_fmap.
  change (map is_null_value vals) with (is_null_value <$> vals). rewrite list_lookup_fmap. by destruct (vals !! i).
Qed.

(** A column with what it holds. *)
Record Held := mkHeld { h_col : ColumnData; h_kids : list Column; h_map : gmap Z Value }.
Definition held_column (h : Held) : Column := mkColumn (h_col h) (h_kids h).
(** The column can take these values from this row on. *)
Definition takes (tx start : Z) (room : nat) (h : Held) (vals : list Value) : Prop :=
  column_ok (total_need vals + room) (h_col h) ∧ scalar (data_type (h_col h)) = true ∧ represents from_utf8_lossy (h_col h) tx (h_map h) ∧
  Forall (storable (h_col h)) vals ∧ nothing_pending (h_col h) tx start (length vals).
Definition took (tx start : Z) (room : nat) (h : Held) (vals : list Value) (c : Column) : Prop :=
  ∃ d, c = mkColumn d (h_kids h) ∧ column_ok room d ∧ data_type d = data_type (h_col h) ∧
    represents from_utf8_lossy d tx (write_all_rows (data_type (h_col h)) (batch_writes start vals) (h_map h)).

Lemma bulk_columns_spec hs vss w start room b : (0 ≤ start)%Z → Forall2 (takes (w_tx_id w) start room) hs vss →
  ∃ cs w', bulk_columns debug (map held_column hs) (map array_of vss) w start b = ((cs, w'), Ok tt) ∧ w_tx_id w' = w_tx_id w ∧
    length cs = length hs ∧ ∀ i h vals, hs !! i = Some h → vss !! i = Some vals → ∃ c, cs !! i = Some c ∧ took (w_tx_id w) start room h vals c.
Proof.
  intros Hs. revert vss w. induction hs as [|h hs IH]; intros vss w Hall; inversion Hall as [|? vals ? vss' Ht Hall']; subst; [by exists [], w|].
  destruct Ht as (H1 & H2 & H3 & H4 & H5). cbn [map bulk_columns].
  destruct (bulk_append_spec debug from_utf8_lossy vals (Some (map is_null_value vals)) room (h_col h) (h_kids h) w start b (h_map h)) as (d & w1 & E & Hc & Hr & Ht & Hx); try done; [apply array_rows|].
  change (held_column h) with (mkColumn (h_col h) (h_kids h)). unfold bulk_append_array_bulk_mode. change (array_of vals) with (mkArray (Some (map is_null_value vals)) vals). rewrite E.
  rewrite <- Hx in Hall'. destruct (IH vss' w1 Hall') as (cs & w' & E' & Hx' & Hl & Hcs). rewrite E'.
  exists (mkColumn d (h_kids h) :: cs), w'. split; [done|]. split; [congruence|]. split; [cbn; lia|].
  intros [|i] h' vals' Eh Ev; cbn in Eh, Ev; [|rewrite <- Hx; by apply Hcs]. simplify_eq. exists (mkColumn d (h_kids h')). split; [done|]. by exists d.
Qed.

(** ** Whole batches *)

Lemma batch_columns_spec rows start room : (0 ≤ start)%Z → ∀ hs k w mods, rv_wf (w_versions w) → (∀ i, i < length rows → may_write w (start + Z.of_nat i)) →
  (∀ i h, hs !! i = Some h → takes (w_tx_id w) start room h (column_of rows (k + i))) →
  ∃ cs w' mods', batch_columns debug (map held_column hs) k rows w start mods = ((cs, w'), Ok mods') ∧ grants w w' ∧
    length cs = length hs ∧ ∀ i h, hs !! i = Some h → ∃ c, cs !! i = Some c ∧ took (w_tx_id w) start room h (column_of rows (k + i)) c.
Proof.
  intros Hs hs. induction hs as [|h hs IH]; intros k w mods Hwf Hmw Ht; [by exists [], w, mods|]. cbn [map batch_columns].
  destruct (Ht 0 h eq_refl) as (H1 & H2 & H3 & H4 & H5). rewrite Nat.add_0_r in *.
  destruct (batch_append_spec debug from_utf8_lossy (column_of rows k) room (h_col h) (h_kids h) w start (h_map h)) as (d & w1 & E & Hc & Hr & Hdt & Hg); try done.
  { split; [done|]. intros i v Hi. split; [by eapply Forall_lookup_1|]. apply Hmw. apply lookup_lt_Some in Hi. unfold column_of in Hi. by rewrite length_map in Hi. }
  change (held_column h) with (mkColumn (h_col h) (h_kids h)). rewrite E. destruct Hg as [Htx Hg]. destruct (Hg Hwf) as [Hwf1 Hmw1].
  destruct (IH (S k) w1 (mods ++ seqZ start (Z.of_nat (length (column_of rows k))))) as (cs & w' & mods' & -> & Hg' & Hl & Hcs); [done|auto|intros i h' Hi; rewrite Htx, Nat.add_succ_comm; by apply Ht|].
  exists (mkColumn d (h_kids h) :: cs), w', mods'. split; [done|]. split; [by eapply grants_trans|]. split; [cbn; lia|].
  intros [|i] h' Eh; cbn in Eh; [|rewrite <- Htx, <- Nat.add_succ_comm; by apply Hcs]. simplify_eq. rewrite Nat.add_0_r. exists (mkColumn d (h_kids h')). split; [done|]. by exists d.
Qed.
(** A batch of rows over all columns of a table. *)
Lemma batch_append_rows_spec t x hs rows start room : t_columns t = map held_column hs → rows ≠ [] → (0 ≤ start)%Z → rv_wf (w_versions (tt_w x)) →
  (∀ i, i < length rows → may_write (tt_w x) (start + Z.of_nat i)) → (∀ i h, hs !! i = Some h → takes (w_tx_id (tt_w x)) start room h (column_of rows i)) →
  ∃ t' x', batch_append_rows debug t x rows start = ((t', x'), Ok tt) ∧ t_cardinality t' = (t_cardinality t + Z.of_nat (length rows))%Z ∧ next_row_id t' = next_row_id t ∧ write_buffer t' = write_buffer t ∧
    length (t_columns t') = length hs ∧ w_tx_id (tt_w x') = w_tx_id (tt_w x) ∧ ∀ i h, hs !! i = Some h → ∃ c, t_columns t' !! i = Some c ∧ took (w_tx_id (tt_w x)) start room h (column_of rows i) c.
Proof.
  intros Hc Hne Hs Hwf Hmw Ht. unfold batch_append_rows. rewrite decide_False by done. rewrite Hc.
  destruct (batch_columns_spec rows start room Hs hs 0 (tt_w x) [] Hwf Hmw Ht) as (cs & w' & mods & -> & [Htx _] & Hl & Hcs).
  eexists _, _. split; [reflexivity|]. cbn. split_and!; [done..|by rewrite push_rows_tx|done].
Qed.
(** Rows nobody has committed are the transaction's once it has reserved them. *)
Lemma reserved_may_write t x start n : t_columns t ≠ [] → n ≠ 0 → rv_wf (w_versions (tt_w x)) → (∀ r, (start ≤ r)%Z → c_history (view (w_versions (tt_w x)) r) = None) →
  let x' := reserve_rows t x start (Z.of_nat n) in w_tx_id (tt_w x') = w_tx_id (tt_w x) ∧ rv_wf (w_versions (tt_w x')) ∧ ∀ i, i < n → may_write (tt_w x') (start + Z.of_nat i).
Proof.
  intros Hc Hn Hwf Hf. unfold reserve_rows. rewrite decide_False by (intros [?|?]; [lia|done]). cbn. split_and!; [done|by apply (exec_wf (OpMarkBatch start (start + Z.of_nat n) (w_tx_id (tt_w x))))|].
  intros i Hi. unfold may_write. cbn. rewrite mark_row_verdict, view_mark_batch by done. cbn [cell_exec]. rewrite decide_True by lia. specialize (Hf (start + Z.of_nat i)%Z ltac:(lia)).
  destruct (view _ _) as [a h]. cbn in *. subst h. unfold cell_verdict. cbn. rewrite decide_False by naive_solver. done.
Qed.

(** ** The buffer *)

(** A transaction creates rows with these ids. *)
Fixpoint append_all (t : Table) (x : TableTx) (rows : list (list Value * Z)) : table_result unit :=
  match rows with
  | [] => ((t, x), Ok tt)
  | (values, id) :: rows => match append_row debug display t x values id with ((t, x), Ok _) => append_all t x rows | r => r end
  end.

Definition buffer_of (n : nat) (rows : list (list Value * Z)) : WriteBuffer :=
  foldl (λ wb r, buffer_row wb (fst r) (snd r)) (mkWriteBuffer (replicate n []) [] 0) rows.
Definition with_buffer (t : Table) (tx : Z) (wb : WriteBuffer) : Table := set_buffer t (<[tx := wb]> (write_buffer t)).

Lemma push_values_spec cols values : length values = length cols → push_values cols values = zip_with (λ c v, c ++ [v]) cols values.
Proof. revert values. induction cols as [|c cols IH]; intros [|v values] H; try done. cbn in *. f_equal. apply IH. lia. Qed.
Lemma buffer_columns n rows : Forall (λ r, length (fst r) = n) rows →
  wb_columns (buffer_of n rows) = map (column_of (map fst rows)) (seq 0 n) ∧ wb_row_ids (buffer_of n rows) = map snd rows.
Proof.
  unfold buffer_of. induction rows as [|[values id] rows IH] using rev_ind; intros Hr.
  { split; [|done]. cbn. generalize 0. clear. induction n as [|n IH]; intros k; [done|]. cbn. f_equal. apply IH. }
  apply List.Forall_app in Hr as [Hr Hv]. apply list.Forall_cons in Hv as [Hv _]. destruct (IH Hr) as [E1 E2]. rewrite foldl_app. cbn [foldl buffer_row wb_columns wb_row_ids fst snd].
  rewrite !map_app, E2. split; [|done]. rewrite push_values_spec by (rewrite E1, length_map, length_seq; done). rewrite E1. apply list_eq. intros i.
  change (map (column_of (map fst rows)) (seq 0 n)) with (column_of (map fst rows) <$> seq 0 n). change (map (column_of (map fst rows ++ map fst [(values, id)])) (seq 0 n)) with (column_of (map fst rows ++ map fst [(values, id)]) <$> seq 0 n).
  rewrite lookup_zip_with, !list_lookup_fmap. cbn [fst] in Hv. destruct (decide (i < n)).
  - rewrite lookup_seq_lt by done. cbn. destruct (lookup_lt_is_Some_2 values i ltac:(lia)) as [v Ev]. rewrite Ev. unfold column_of. rewrite map_app. cbn. by rewrite Ev.
  - rewrite lookup_seq_ge by lia. done.
Qed.

Lemma append_all_spec t x rows : write_buffer t !! w_tx_id (tt_w x) = None → rows ≠ [] → t_columns t ≠ [] → Forall (λ r, length (fst r) = length (t_columns t)) rows →
  length rows < DEFAULT_WRITE_BUFFER_THRESHOLD →
  append_all t x rows = ((with_buffer t (w_tx_id (tt_w x)) (buffer_of (length (t_columns t)) rows), x), Ok tt).
Proof.
  intros Hn Hne Hc Hr Hl. set (tx := w_tx_id (tt_w x)) in *. set (n := length (t_columns t)) in *.
  assert (∀ pre rows, Forall (λ r, length (fst r) = n) (pre ++ rows) → length (pre ++ rows) < DEFAULT_WRITE_BUFFER_THRESHOLD → pre ++ rows ≠ [] →
    append_all (if decide (pre = []) then t else with_buffer t tx (buffer_of n pre)) x rows = ((with_buffer t tx (buffer_of n (pre ++ rows)), x), Ok tt)) as H.
  { clear rows Hne Hr Hl. intros pre rows. revert pre. induction rows as [|[values id] rows IH]; intros pre Hr Hl Hne.
    { rewrite app_nil_r in *. cbn [append_all]. by rewrite decide_False. }
    cbn [append_all]. unfold append_row. fold tx. set (t0 := if decide _ then _ else _).
    assert (ensure_buffer t0 tx = with_buffer t tx (buffer_of n pre)) as ->.
    { unfold t0, ensure_buffer. case_decide as Hp; [subst pre; rewrite Hn; done|]. cbn [with_buffer set_buffer write_buffer]. by rewrite lookup_insert_eq. }
    cbn [with_buffer set_buffer write_buffer]. rewrite lookup_insert_eq. change (pre ++ (values, id) :: rows) with (pre ++ [(values, id)] ++ rows) in *. rewrite app_assoc in *.
    assert (buffer_row (buffer_of n pre) values id = buffer_of n (pre ++ [(values, id)])) as -> by (unfold buffer_of; by rewrite foldl_app).
    apply List.Forall_app in Hr as Hr'. destruct Hr' as [Hp _]. rewrite (proj1 (buffer_columns n _ Hp)).
    rewrite (proj2 (Nat.leb_gt _ _)); cycle 1.
    { destruct n as [|n'] eqn:En; [cbn; unfold DEFAULT_WRITE_BUFFER_THRESHOLD in *; lia|]. cbn [seq map lookup list_lookup default]. unfold column_of. cbn. rewrite !length_map. rewrite length_app in Hl. lia. }
    rewrite insert_insert_eq. fold (with_buffer t tx (buffer_of n (pre ++ [(values, id)]))). specialize (IH (pre ++ [(values, id)]) Hr Hl ltac:(by destruct pre)). rewrite decide_False in IH by (by destruct pre). exact IH. }
  specialize (H [] rows). cbn [app] in H. rewrite decide_True in H by done. by apply H.
Qed.

(** ** Flushing *)

(** The values a column gets from the buffer. *)
Definition column_values (rows : list (list Value)) (i : nat) (h : Held) : list Value :=
  map (builder_value display (data_type (h_col h))) (column_of rows i).
(** The builder of the buffer has the column's own Arrow type. *)
Definition flushable (c : ColumnData) : Prop := builder_type (data_type c) = logical_type_to_arrow_type (data_type c).

Lemma buffered_arrays rows hs n : n = length hs →
  imap (buffered_array display (map (column_of rows) (seq 0 n)) (length rows)) (map held_column hs) =
  imap (λ i h, (builder_type (data_type (h_col h)), array_of (column_values rows i h))) hs.
Proof.
  intros ->. apply list_eq. intros i. rewrite !list_lookup_imap. change (map held_column hs) with (held_column <$> hs). rewrite list_lookup_fmap.
  destruct (hs !! i) as [h|] eqn:Eh; [|done]. cbn. f_equal. unfold buffered_array.
  change (map (column_of rows) (seq 0 (length hs))) with (column_of rows <$> seq 0 (length hs)). rewrite list_lookup_fmap, lookup_seq_lt by (by eapply lookup_lt_Some). done.
Qed.
Lemma arrays_fit rows hs : Forall (λ h, flushable (h_col h)) hs →
  batch_fits (map held_column hs) (imap (λ i h, (builder_type (data_type (h_col h)), array_of (column_values rows i h))) hs) (length rows) = true.
Proof.
  intros Hf. unfold batch_fits. apply forallb_forall. intros [c [dt a]] Hin. apply list_elem_of_In, list_elem_of_lookup in Hin as [i Hi]. apply lookup_zip_with_Some in Hi as (c' & a' & [= -> ->] & Hc & Ha).
  rewrite list_lookup_imap in Ha. change (map held_column hs) with (held_column <$> hs) in Hc. rewrite list_lookup_fmap in Hc. destruct (hs !! i) as [h|] eqn:Eh; [|done]. cbn in Ha, Hc. simplify_eq. cbn [fst snd].
  apply andb_true_iff. split; apply bool_decide_eq_true; [exact (Forall_lookup_1 _ _ _ _ Hf Eh)|]. cbn. unfold column_values, column_of. by rewrite !length_map.
Qed.

(** What a flush does, for any row ids: the rows go to consecutive places from the
    first id on. *)
Lemma flush_spec t x hs rows start room : let tx := w_tx_id (tt_w x) in
  t_columns t = map held_column hs → hs ≠ [] → write_buffer t !! tx = None → rows ≠ [] → length rows < DEFAULT_WRITE_BUFFER_THRESHOLD →
  Forall (λ r, length (fst r) = length hs) rows → (snd <$> head rows) = Some start → (0 ≤ start)%Z → Forall (λ h, flushable (h_col h)) hs →
  (∀ i h, hs !! i = Some h → takes tx start room h (column_values (map fst rows) i h)) →
  ∃ t' x', flush_pending debug display (with_buffer t tx (buffer_of (length hs) rows)) x = ((t', x'), Ok tt) ∧
    t_cardinality t' = (t_cardinality t + Z.of_nat (length rows))%Z ∧ write_buffer t' !! tx = None ∧
    ∀ i h, hs !! i = Some h → ∃ c, t_columns t' !! i = Some c ∧ took tx start room h (column_values (map fst rows) i h) c.
Proof.
  intros tx Hcs Hne Hnone Hrows Hlen Hr Hhd Hs Hfl Ht. destruct (buffer_columns (length hs) rows Hr) as [E1 E2].
  unfold flush_pending, flush_buffer. cbn [with_buffer set_buffer write_buffer]. fold tx. rewrite lookup_insert_eq. rewrite E1, E2.
  destruct rows as [|[v0 id0] rows]; [done|]. cbn in Hhd. injection Hhd as ->. destruct hs as [|h0 hs]; [done|].
  set (hh := h0 :: hs) in *. set (rr := (v0, start) :: rows) in *. set (cols := map (column_of (map fst rr)) (seq 0 (length hh))).
  assert (∃ a l more, cols = (a :: l) :: more ∧ length (a :: l) = length rr) as (a & l & more & Ecols & Elen).
  { unfold cols, hh, rr. cbn. do 3 eexists. split; [reflexivity|]. cbn. unfold column_of. by rewrite !length_map. }
  rewrite Ecols. change (map snd rr) with (start :: map snd rows). unfold flush_rows. rewrite <- Ecols. assert (length (default [] (cols !! 0)) = length rr) as -> by (by rewrite Ecols).
  cbn [set_buffer t_columns write_buffer]. change (t_columns (with_buffer t tx (buffer_of (length hh) rr))) with (t_columns t). rewrite Hcs. unfold cols. rewrite <- (length_map fst rr). rewrite buffered_arrays by done. rewrite arrays_fit by done. rewrite length_map.
  set (arrs := imap _ hh).
  assert (map snd arrs = map array_of (imap (column_values (map fst rr)) hh)) as Earr.
  { unfold arrs. apply list_eq. intros i. change (map snd (imap ?f hh)) with (snd <$> imap f hh). change (map array_of (imap ?f hh)) with (array_of <$> imap f hh). rewrite !list_lookup_fmap, !list_lookup_imap. by destruct (hh !! i). }
  rewrite Earr. set (x1 := push_range x start (start + Z.of_nat (length rr))). change (match map held_column hh with [] => x | _ :: _ => x1 end) with x1.
  destruct (bulk_columns_spec hh (imap (column_values (map fst rr)) hh) (tt_w x1) start room (bool_decide (map held_column hh ≠ [])) Hs) as (cs & w' & -> & Hx & Hl & Hcs').
  { apply Forall2_same_length_lookup_2; [by rewrite length_imap|]. intros i h vals Eh Ev. rewrite list_lookup_imap, Eh in Ev. cbn in Ev. simplify_eq. by apply Ht. }
  eexists _, _. split; [reflexivity|]. cbn [add_cardinality send_entries set_columns t_cardinality set_buffer write_buffer t_columns with_buffer]. split_and!; [done|by rewrite lookup_delete_eq|].
  intros i h Eh. apply (Hcs' i h); [done|]. by rewrite list_lookup_imap, Eh.
Qed.

(** A column whose Arrow type is not the one the buffer builds (a 32-bit integer, a
    list): the flush fails, and the rows are gone, for the buffer has been taken out
    already: flushing again succeeds and writes nothing. *)
Theorem unflushable_rows_lost t x wb v vs more id ids c i : let tx := w_tx_id (tt_w x) in
  write_buffer t !! tx = Some wb → wb_columns wb = (v :: vs) :: more → wb_row_ids wb = id :: ids →
  t_columns t !! i = Some c → is_Some (wb_columns wb !! i) → ¬ flushable (col c) →
  ∃ t', flush_pending debug display t x = ((t', x), Err Internal) ∧ t_columns t' = t_columns t ∧ t_cardinality t' = t_cardinality t ∧ write_buffer t' !! tx = None ∧
    flush_pending debug display t' x = ((t', x), Ok tt).
Proof.
  intros tx Hwb Hcols Hids Hc [vals Hv] Hfl. exists (set_buffer t (delete tx (write_buffer t))). split_and!; [|done|done|apply lookup_delete_eq|].
  - unfold flush_pending, flush_buffer. fold tx. rewrite Hwb, Hcols, Hids. unfold flush_rows. rewrite <- Hcols. cbn [set_buffer t_columns].
    set (n := length _). assert (batch_fits (t_columns t) (imap (buffered_array display (wb_columns wb) n) (t_columns t)) n = false) as ->; [|done].
    apply not_true_is_false. intros Hb. unfold batch_fits in Hb. rewrite forallb_forall in Hb. specialize (Hb (c, buffered_array display (wb_columns wb) n i c)). cbn [fst snd] in Hb.
    assert (fst (buffered_array display (wb_columns wb) n i c) = builder_type (data_type (col c))) as Ef by (unfold buffered_array; by rewrite Hv).
    rewrite Ef, andb_true_iff, bool_decide_eq_true in Hb. apply Hfl. apply Hb. apply list_elem_of_In, (list_elem_of_lookup_2 _ i), lookup_zip_with_Some.
    eexists _, _. split_and!; [reflexivity|done|]. by rewrite list_lookup_imap, Hc.
  - unfold flush_pending, flush_buffer. cbn [set_buffer write_buffer]. fold tx. by rewrite lookup_delete_eq.
Qed.
(** C18. Rows created one by one in a transaction with nothing buffered, fewer than
    the buffer's threshold, as wide as the table and with consecutive ids, and then a
    flush.  If every column's Arrow type is the one the buffer builds for it (INT64,
    UINT64, node ids, DOUBLE, FLOAT, BOOL, STRING, DATE and TIMESTAMP), and the
    columns can take the values ([takes]: uncompressed, room for long strings, values of
    the column's kind), the rows are read back: in every column, row [start + k] holds
    the value of the [k]th row as the buffer's builder and the column's type store it
    (null for a value of another kind), all other rows are as before, the cardinality
    grows by the number of rows, and the buffer is empty.  If one column's Arrow type is
    another, the flush fails and the rows are lost: columns and cardinality are as
    before, the buffer is empty, and flushing again succeeds and writes nothing
    (INT32, INT16, INT8, lists and the other types). *)
Theorem buffered_rows_read_back t x hs rows start room : let tx := w_tx_id (tt_w x) in
  t_columns t = map held_column hs → hs ≠ [] → write_buffer t !! tx = None → rows ≠ [] → length rows < DEFAULT_WRITE_BUFFER_THRESHOLD →
  Forall (λ r, length r = length hs) rows → (0 ≤ start)%Z →
  ∃ t1, append_all t x (imap (λ i r, (r, (start + Z.of_nat i)%Z)) rows) = ((t1, x), Ok tt) ∧
    (Forall (λ h, flushable (h_col h)) hs → (∀ i h, hs !! i = Some h → takes tx start room h (column_values rows i h)) →
     ∃ t' x', flush_pending debug display t1 x = ((t', x'), Ok tt) ∧
       t_cardinality t' = (t_cardinality t + Z.of_nat (length rows))%Z ∧ write_buffer t' !! tx = None ∧
       ∀ i h, hs !! i = Some h → ∃ c, t_columns t' !! i = Some c ∧
         ∀ r v, write_all_rows (data_type (h_col h)) (batch_writes start (column_values rows i h)) (h_map h) !! r = Some v → get_value from_utf8_lossy c tx r = Ok v) ∧
    (∀ h, h ∈ hs → ¬ flushable (h_col h) →
     ∃ t', flush_pending debug display t1 x = ((t', x), Err Internal) ∧ t_columns t' = t_columns t ∧ t_cardinality t' = t_cardinality t ∧
       write_buffer t' !! tx = None ∧ flush_pending debug display t' x = ((t', x), Ok tt)).
Proof.
  intros tx Hcs Hne Hnone Hrows Hlen Hr Hs. set (ids := imap (λ i r, (r, (start + Z.of_nat i)%Z)) rows).
  assert (map fst ids = rows) as Efst. { unfold ids. apply list_eq. intros i. change (map fst (imap ?f rows)) with (fst <$> imap f rows). rewrite list_lookup_fmap, list_lookup_imap. by destruct (rows !! i). }
  assert (length ids = length rows) as El by (unfold ids; apply length_imap).
  assert (Forall (λ r, length (fst r) = length hs) ids) as Hids by (apply (List.Forall_map fst (λ r, length r = length hs)); by rewrite Efst).
  assert (ids ≠ []) as Hidne by (destruct rows; done). assert (length (t_columns t) = length hs) as Elc by (rewrite Hcs; apply length_map).
  assert (t_columns t ≠ []) as Htc by (intros E0; apply Hne; apply length_zero_iff_nil; rewrite <- Elc, E0; done).
  exists (with_buffer t tx (buffer_of (length hs) ids)). split_and!; [rewrite append_all_spec; [by rewrite Elc|done|done|done|by rewrite Elc|lia]| |].
  - intros Hfl Ht. destruct (flush_spec t x hs ids start room Hcs Hne Hnone Hidne ltac:(lia) Hids ltac:(destruct rows; [done|]; cbn; f_equal; lia) Hs Hfl ltac:(rewrite Efst; exact Ht)) as (t' & x' & E & Hcard & Hbuf & Hcols).
    exists t', x'. split_and!; [done|by rewrite <- El|done|].
    intros i h Eh. destruct (Hcols i h Eh) as (c & Ec & d & -> & Hd & Hdt & Hrep). rewrite Efst in Hrep. exists (mkColumn d (h_kids h)). split; [done|]. intros r v Hv. destruct (Ht i h Eh) as (_ & Hsc & _).
    eapply holds_get; [exact Hd|by rewrite Hdt|]. by apply Hrep.
  - intros h [i Hi]%list_elem_of_lookup Hfl. destruct (buffer_columns _ _ Hids) as [E1 E2]. set (t1 := with_buffer _ _ _).
    assert (∃ v vs more id rest, wb_columns (buffer_of (length hs) ids) = (v :: vs) :: more ∧ wb_row_ids (buffer_of (length hs) ids) = id :: rest) as (v & vs & more & id & rest & Ew & Er).
    { rewrite E1, E2, Efst. destruct hs as [|h0 hs0]; [done|]. destruct rows as [|r0 rs0]; [done|]. cbn. by do 5 eexists. }
    assert (write_buffer t1 !! tx = Some (buffer_of (length hs) ids)) as Hwb by apply lookup_insert_eq.
    assert (t_columns t1 !! i = Some (held_column h)) as Hc. { cbn [t1 with_buffer set_buffer t_columns]. rewrite Hcs. change (map held_column hs) with (held_column <$> hs). by rewrite list_lookup_fmap, Hi. }
    destruct (unflushable_rows_lost t1 x _ v vs more id rest (held_column h) i Hwb Ew Er Hc) as (t' & E & Hcols & Hcard & Hbuf & Hagain); [|done|].
    { rewrite E1. apply lookup_lt_is_Some_2. rewrite length_map, length_seq. by eapply lookup_lt_Some. }
    by exists t'.
Qed.

(** C38. The ids of the rows after the first are not looked at: whatever ids the rows
    were given, the flush writes them to consecutive places.  Two transactions that
    create rows in turn get ids that are not consecutive, so their rows end up
    under other ids than the ones they were created with, and on each other. *)
Theorem flush_ignores_row_ids t x rows ids : length ids = length rows → head ids = Some (snd (default ([], 0%Z) (head rows))) →
  write_buffer t !! w_tx_id (tt_w x) = None → rows ≠ [] → t_columns t ≠ [] → Forall (λ r, length (fst r) = length (t_columns t)) rows →
  length rows < DEFAULT_WRITE_BUFFER_THRESHOLD →
  ∃ t1 t2, append_all t x rows = ((t1, x), Ok tt) ∧ append_all t x (zip (map fst rows) ids) = ((t2, x), Ok tt) ∧
    flush_pending debug display t1 x = flush_pending debug display t2 x.
Proof.
  intros Hl Hhd Hn Hne Hc Hr Hlen. set (rows' := zip (map fst rows) ids).
  assert (map fst rows' = map fst rows) as Ef by (unfold rows'; apply (fst_zip (map fst rows) ids); rewrite length_map; lia).
  assert (map snd rows' = ids) as Es by (unfold rows'; apply (snd_zip (map fst rows) ids); rewrite length_map; lia).
  assert (length rows' = length rows) as El by (by rewrite <- (length_map fst rows'), Ef, length_map).
  assert (Forall (λ r, length (fst r) = length (t_columns t)) rows') as Hr' by (apply (List.Forall_map fst (λ r, length r = length (t_columns t))); rewrite Ef; by apply List.Forall_map).
  assert (rows' ≠ []) as Hne' by (intros E; rewrite E in El; by destruct rows).
  do 2 eexists. split_and!; [by apply append_all_spec|apply append_all_spec; try done; lia|].
  destruct (buffer_columns _ _ Hr) as [E1 E2], (buffer_columns _ _ Hr') as [E1' E2'].
  unfold flush_pending, flush_buffer. cbn [with_buffer set_buffer write_buffer]. rewrite !lookup_insert_eq, E1, E1', E2, E2', Ef, Es. rewrite !delete_insert_eq. cbn [t_columns t_cardinality next_row_id t_workers t_sent].
  destruct rows as [|[v0 id0] rows]; [done|]. cbn in Hhd. destruct ids as [|id ids]; [done|]. injection Hhd as ->. done.
Qed.

End table.

(** ** Inputs on which the hypotheses hold *)

Definition demo_held : list Held := [mkHeld (demo_column TString (Some empty_file)) [] ∅; mkHeld (demo_column TString (Some empty_file)) [] ∅].
Definition demo_table : Table := table_new (map held_column demo_held).
Definition demo_rows : list (list Value) := [[VString [104; 105]%Z; VNull]; [VNull; VString [111]%Z]].
Definition demo_ttx : TableTx := mkTableTx demo_tx [].

Lemma demo_takes i h : demo_held !! i = Some h → takes demo_lossy 7 0 1 h (column_values demo_debug demo_rows i h).
Proof.
  intros Hi. assert (h_col h = demo_column TString (Some empty_file) ∧ h_map h = ∅) as [Ec Em] by (by destruct i as [|[|i]]; cbn in Hi; simplify_eq).
  assert (∀ i, i < 2 → Nat.leb (total_need (column_values demo_debug demo_rows i h)) 10 = true ∧ forallb (write_test (h_col h) demo_tx) (batch_writes 0 (column_values demo_debug demo_rows i h)) = true) as Hw.
  { intros j Hj. rewrite Ec. unfold column_values. rewrite Ec. destruct j as [|[|j]]; [by vm_compute|by vm_compute|lia]. }
  destruct (Hw i) as [Hn%Nat.leb_le Ht]; [by apply lookup_lt_Some in Hi|]. unfold takes. rewrite Ec, Em. split_and!.
  - apply empty_column_ok, empty_overflow_ok. lia.
  - done.
  - intros r v Hr. by rewrite lookup_empty in Hr.
  - rewrite Ec in Ht. apply write_test_sound in Ht. apply list.Forall_forall. intros v Hv. apply list_elem_of_lookup in Hv as [k Hk]. rewrite list.Forall_forall in Ht.
    destruct (Ht ((0 + Z.of_nat k)%Z, v)) as (_ & Hs & _); [|done]. apply (list_elem_of_lookup_2 _ k). unfold batch_writes. by rewrite list_lookup_imap, Hk.
  - apply demo_nothing_pending.
Qed.

(** Two string columns, and two 32-bit integer columns. *)
Definition demo_narrow : list Held := [mkHeld (demo_column TInt32 None) [] ∅; mkHeld (demo_column TInt32 None) [] ∅].
Lemma buffered_rows_read_back_witness :
  (∃ t1, append_all demo_debug demo_debug demo_table demo_ttx (imap (λ i r, (r, (0 + Z.of_nat i)%Z)) demo_rows) = ((t1, demo_ttx), Ok tt) ∧
    ∃ t' x', flush_pending demo_debug demo_debug t1 demo_ttx = ((t', x'), Ok tt) ∧
      t_cardinality t' = 2%Z ∧ write_buffer t' !! 7%Z = None ∧
      ∀ i h, demo_held !! i = Some h → ∃ c, t_columns t' !! i = Some c ∧
        ∀ r v, write_all_rows (data_type (h_col h)) (batch_writes 0 (column_values demo_debug demo_rows i h)) (h_map h) !! r = Some v → get_value demo_lossy c 7 r = Ok v) ∧
  (∃ t1, append_all demo_debug demo_debug (table_new (map held_column demo_narrow)) demo_ttx (imap (λ i r, (r, (0 + Z.of_nat i)%Z)) demo_rows) = ((t1, demo_ttx), Ok tt) ∧
    ∃ t', flush_pending demo_debug demo_debug t1 demo_ttx = ((t', demo_ttx), Err Internal) ∧ write_buffer t' !! 7%Z = None).
Proof.
  split.
  - destruct (buffered_rows_read_back demo_debug demo_debug demo_lossy demo_table demo_ttx demo_held demo_rows 0 1) as (t1 & E & Hok & _);
      [done..|cbn; unfold DEFAULT_WRITE_BUFFER_THRESHOLD; lia|repeat constructor|lia|].
    exists t1. split; [exact E|]. apply Hok; [repeat constructor|exact demo_takes].
  - destruct (buffered_rows_read_back demo_debug demo_debug demo_lossy (table_new (map held_column demo_narrow)) demo_ttx demo_narrow demo_rows 0 1) as (t1 & E & _ & Hlost);
      [done..|cbn; unfold DEFAULT_WRITE_BUFFER_THRESHOLD; lia|repeat constructor|lia|].
    exists t1. split; [exact E|]. destruct (Hlost (mkHeld (demo_column TInt32 None) [] ∅)) as (t' & E' & _ & _ & Hb & _); [by left|done|]. exists t'. split; [exact E'|exact Hb].
Defined.
Lemma flush_ignores_row_ids_witness :
  ∃ t1 t2, append_all demo_debug demo_debug demo_table demo_ttx (zip demo_rows [0; 2]%Z) = ((t1, demo_ttx), Ok tt) ∧
    append_all demo_debug demo_debug demo_table demo_ttx (zip demo_rows [0; 1]%Z) = ((t2, demo_ttx), Ok tt) ∧ flush_pending demo_debug demo_debug t1 demo_ttx = flush_pending demo_debug demo_debug t2 demo_ttx.
Proof. apply (flush_ignores_row_ids demo_debug demo_debug demo_table demo_ttx (zip demo_rows [0; 2]%Z) [0; 1]%Z); [done..|repeat constructor|cbn; unfold DEFAULT_WRITE_BUFFER_THRESHOLD; lia]. Defined.
Lemma unflushable_rows_lost_witness :
  let wb := mkWriteBuffer [[VNumber 0]] [0%Z] 0 in
  let t := set_buffer (table_new [mkColumn (demo_column TInt32 (Some empty_file)) []]) {[7%Z := wb]} in
  ∃ t', flush_pending demo_debug demo_debug t demo_ttx = ((t', demo_ttx), Err Internal) ∧ t_columns t' = t_columns t ∧ t_cardinality t' = t_cardinality t ∧
    write_buffer t' !! 7%Z = None ∧ flush_pending demo_debug demo_debug t' demo_ttx = ((t', demo_ttx), Ok tt).
Proof.
  intros wb t. apply (unflushable_rows_lost demo_debug demo_debug t demo_ttx wb (VNumber 0) [] [] 0 [] (mkColumn (demo_column TInt32 (Some empty_file)) []) 0); [apply lookup_singleton_eq|done|done|done|by eexists|done].
Defined.
