(* ===== verification/Dml.v ===== *)
(** * Writing operators (processor/operators/dml.rs)

    CREATE for nodes and relationships, SET and DELETE, on a table of the storage
    manager (TableStore) with its real columns.  Expressions are a parameter, what
    the evaluator gives for a batch; so is the primary-key index, as a record of
    operations that may fail.  Of the full-text and vector indexes the mutations a
    transaction collects are kept.  MERGE is not modelled.  Every operator does all
    its work in the first call of [get_next] and hands out one batch.  The position
    of a deleted node's relationships is taken from [get_value] over the rows, which
    is what the scan gives (ColumnScanSpec). *)
From stdpp Require Import base list gmap strings numbers.
From Stdlib Require Import ZArith Lia Bool.
From S2P Require Import Prelude Codec Codecs RowVersion TxnManager PageFile HashIndex Stats Column ColumnScan Operators Joins TableStore.
Open Scope nat_scope.

(** ** State *)

(** The primary-key index of a table. *)
Record IndexOps (I : Type) := mkIndexOps {
  ix_lookup : I → Value → outcome (option Z);
  ix_insert : I → Value → Z → I * outcome unit;
  ix_delete : I → Value → Z → I * outcome unit
}.
Arguments ix_lookup {I}.
Arguments ix_insert {I}.
Arguments ix_delete {I}.

(** The hash index as such operations; running out of fuel is excluded by
    HashIndexSpec. *)
Definition hash_index_ops (finish : list Z → Z) (from_utf8_lossy : list Z → list Z) (fuel : nat) : IndexOps HashIndex := {|
  ix_lookup ix key := default Panic (HashIndex.lookup finish from_utf8_lossy fuel ix key);
  ix_insert ix key row_id := default (ix, Panic) (HashIndex.insert finish fuel ix key row_id);
  ix_delete ix key row_id := match HashIndex.delete finish from_utf8_lossy fuel ix key row_id with
    | Some (ix, Ok _) => (ix, Ok tt) | Some (ix, Err e) => (ix, Err e) | Some (ix, Panic) => (ix, Panic) | None => (ix, Panic) end
|}.

Inductive DmlUndo := UndoUpdate (table : list Z) (row_id : Z) (old_val : Value) | UndoNode (table : list Z) (row_id : Z).
Inductive IndexMutation :=
| FtsInsert (node_id : Z) (fields : list (list Z * list Z)) | FtsDelete (node_id : Z)
| VectorUpsert (node_id : Z) (embedding : list Z) | VectorDelete (node_id : Z).

(** What a writing operator works on: its table, the transaction, the table's
    indexes, the undo buffer, the transaction's index mutations, and the number of
    rows the catalog has for the table. *)
Record DmlState (I : Type) := mkDml {
  dml_table : Table; dml_tx : TableTx; pk_index : option I; dml_undo : list DmlUndo; index_mutations : list IndexMutation; num_rows_cat : Z
}.
Arguments mkDml {I}.
Arguments dml_table {I}.
Arguments dml_tx {I}.
Arguments pk_index {I}.
Arguments dml_undo {I}.
Arguments index_mutations {I}.
Arguments num_rows_cat {I}.

Section dml.
Context {I Expr : Type} (ops : IndexOps I) (debug display : Value → list Z) (from_utf8_lossy : list Z → list Z) (as_f32 : Z → Z).
(** [ExpressionEvaluator::evaluate] on a batch, or without one, for so many rows. *)
Context (eval : Expr → option RecordBatch → nat → outcome ArrowArray).
(** The table's name, the position of its primary key if it has one, whether it has
    a full-text index, and the dimension of its vector index. *)
Context (table_name : list Z) (pk_idx : option nat) (has_fts : bool) (vec_dim : option nat).
Local Abbreviation State := (DmlState I).

Definition set_table (s : State) (t : Table) (x : TableTx) : State := mkDml t x (pk_index s) (dml_undo s) (index_mutations s) (num_rows_cat s).
Definition push_undo (s : State) (l : list DmlUndo) : State := mkDml (dml_table s) (dml_tx s) (pk_index s) (dml_undo s ++ l) (index_mutations s) (num_rows_cat s).
Definition push_mutations (s : State) (l : list IndexMutation) : State := mkDml (dml_table s) (dml_tx s) (pk_index s) (dml_undo s) (index_mutations s ++ l) (num_rows_cat s).
Definition set_index (s : State) (i : I) : State := mkDml (dml_table s) (dml_tx s) (Some i) (dml_undo s) (index_mutations s) (num_rows_cat s).
Definition set_num_rows (s : State) (n : Z) : State := mkDml (dml_table s) (dml_tx s) (pk_index s) (dml_undo s) (index_mutations s) n.

(** [col.get_value] and [col.append_value] on a column of the table. *)
Definition cell_value (s : State) (i : nat) (id : Z) : outcome Value :=
  match t_columns (dml_table s) !! i with
  | None => Panic
  | Some c => get_value from_utf8_lossy c (w_tx_id (tt_w (dml_tx s))) id
  end.
Definition write_cell (s : State) (i : nat) (id : Z) (v : Value) : State * outcome unit :=
  match t_columns (dml_table s) !! i with
  | None => (s, Panic)
  | Some c =>
      let '((c, w), o) := append_value debug v c (tt_w (dml_tx s)) id in
      (set_table s (set_columns (dml_table s) (<[i := c]> (t_columns (dml_table s)))) (set_w (dml_tx s) w), o)
  end.
(** [version_info.mark_row]; the columns of a table share their row versions. *)
Definition mark_cell (s : State) (id : Z) : State * outcome unit :=
  let w := tt_w (dml_tx s) in
  match mark_row (w_versions w) id (w_tx_id w) (w_read_ts w) with
  | (rv, None) => (set_table s (dml_table s) (set_w (dml_tx s) (set_versions w rv)), Ok tt)
  | (rv, Some _) => (set_table s (dml_table s) (set_w (dml_tx s) (set_versions w rv)), Err Database)
  end.
(** [for x in l { f(x)? }] *)
Fixpoint each {A} (f : State → A → State * outcome unit) (s : State) (l : list A) : State * outcome unit :=
  match l with
  | [] => (s, Ok tt)
  | a :: l => match f s a with (s, Ok _) => each f s l | r => r end
  end.
Fixpoint collect {A B} (f : A → outcome B) (l : list A) : outcome (list B) :=
  match l with [] => Ok [] | a :: l => let* b := f a in let* bs := collect f l in Ok (b :: bs) end.

(** ** Result batches *)

Definition table_schema (s : State) : list DataType := map (λ c, logical_type_to_arrow_type (data_type (col c))) (t_columns (dml_table s)).
Definition rows_to_batch (s : State) (rows : list (list Value)) : RecordBatch :=
  mkBatch (table_schema s) (map (λ row, imap (λ i t, value_to_cell t (default VNull (row !! i))) (table_schema s)) rows).
Definition read_node_batch (s : State) (ids : list Z) : outcome RecordBatch :=
  let* rows := collect (λ id, collect (λ i, cell_value s i id) (seq 0 (length (t_columns (dml_table s))))) ids in
  Ok (rows_to_batch s rows).

(** The ids in the first column of a batch; a row without one is passed over. *)
Definition id_of_row (r : Row) : option Z := match from_arrow (cell r 0) with VNode id => Some id | _ => None end.

(** ** SET *)

Record Snapshot := mkSnapshot { sn_prop : nat; sn_values : ArrowArray; sn_originals : list (Z * Value) }.
Definition snapshot (s : State) (b : RecordBatch) (a : nat * Expr) : outcome Snapshot :=
  let* vals := eval (snd a) (Some b) (num_rows b) in
  let* originals := collect (λ id, let* old_val := cell_value s (fst a) id in Ok (id, old_val)) (omap id_of_row (rows b)) in
  Ok (mkSnapshot (fst a) vals originals).
Definition set_cell (vals : ArrowArray) (prop_idx : nat) (s : State) (e : nat * (Z * Value)) : State * outcome unit :=
  let '(i, (id, old_val)) := e in
  let s := push_undo s [UndoUpdate table_name id old_val] in
  match vals !! i with
  | None => (s, Panic)
  | Some v => write_cell s prop_idx id (from_arrow v)
  end.
Definition apply_snapshot (s : State) (sn : Snapshot) : State * outcome unit :=
  each (set_cell (sn_values sn) (sn_prop sn)) s (imap (λ i e, (i, e)) (sn_originals sn)).
(** One batch: snapshots, then conflicts, then undo records and writes. *)
Definition set_batch (assignments : list (nat * Expr)) (s : State) (b : RecordBatch) : State * outcome unit :=
  match collect (snapshot s b) assignments with
  | Panic => (s, Panic)
  | Err e => (s, Err e)
  | Ok snaps =>
      match each (λ s sn, each (λ s e, mark_cell s (fst e)) s (sn_originals sn)) s snaps with
      | (s, Ok _) => each apply_snapshot s snaps
      | r => r
      end
  end.
(** [node_updates] of a batch, by node. *)
Definition batch_updates (assignments : list (nat * Expr)) (b : RecordBatch) : list (Z * list nat) :=
  map (λ id, (id, concat (map (λ a, map (λ _, fst a) (filter (λ j, j = id) (omap id_of_row (rows b)))) assignments))) (remove_dups (omap id_of_row (rows b))).

Definition string_fields (vals : list (list Z * Value)) : list (list Z * list Z) :=
  omap (λ nv, match snd nv with VString v => Some (fst nv, v) | _ => None end) vals.
(** [get_value(..).unwrap_or(Value::Null)] on every column. *)
Definition value_or_null (o : outcome Value) : outcome Value := match o with Ok v => Ok v | Err _ => Ok VNull | Panic => Panic end.
Definition named_row (s : State) (id : Z) : outcome (list (list Z * Value)) :=
  let* vals := collect (λ i, value_or_null (cell_value s i id)) (seq 0 (length (t_columns (dml_table s)))) in
  Ok (zip (map (λ c, cd_name (col c)) (t_columns (dml_table s))) vals).
Definition is_embedding (c : Column) : bool := match data_type (col c) with TList TFloat => true | _ => false end.
Definition embedding_column (s : State) : option nat := fst <$> list_find is_embedding (t_columns (dml_table s)).
Definition index_node (s : State) (e : Z * list nat) : State * outcome unit :=
  let '(node_id, updated_props) := e in
  let pk :=
    match pk_idx, pk_index s with
    | Some p, Some ix =>
        if decide (p ∈ updated_props) then
          match value_or_null (cell_value s p node_id) with
          | Ok (VString k) => (set_index s (fst (ix_insert ops ix (VString k) node_id)), Ok tt)
          | Ok _ => (s, Ok tt)
          | Err e => (s, Err e)
          | Panic => (s, Panic)
          end
        else (s, Ok tt)
    | _, _ => (s, Ok tt)
    end in
  match pk with
  | (s, Ok _) =>
      let fts :=
        if has_fts then
          match named_row s node_id with
          | Ok vals => (push_mutations s (FtsDelete node_id :: match string_fields vals with [] => [] | fs => [FtsInsert node_id fs] end), Ok tt)
          | Err e => (s, Err e)
          | Panic => (s, Panic)
          end
        else (s, Ok tt) in
      match fts with
      | (s, Ok _) =>
          match vec_dim, embedding_column s with
          | Some dim, Some e =>
              if decide (e ∈ updated_props) then
                match cell_value s e node_id with
                | Ok (VList emb) =>
                    let f := omap (λ v, match v with VNumber n => Some (as_f32 n) | _ => None end) emb in
                    if decide (length emb = dim ∧ length f = dim) then (push_mutations s [VectorUpsert node_id f], Ok tt) else (s, Ok tt)
                | Panic => (s, Panic)
                | _ => (s, Ok tt)
                end
              else (s, Ok tt)
          | _, _ => (s, Ok tt)
          end
      | r => r
      end
  | r => r
  end.

(** An operator between calls: whether it has done its work and been read, and the
    ids and rows it has touched. *)
Record Dml := mkDmlOp { dml_child : Stream; is_built : bool; dml_returned : nat; affected_ids : list Z; affected_rows : list (list Value) }.
Definition dml_new (child : Stream) : Dml := mkDmlOp child false 0 [] [].
Definition set_ids (o : Dml) (ids : list Z) : Dml := mkDmlOp (dml_child o) (is_built o) (dml_returned o) (affected_ids o ++ ids) (affected_rows o).
Definition set_rows (o : Dml) (ids : list Z) (rows : list (list Value)) : Dml := mkDmlOp (dml_child o) (is_built o) (dml_returned o) (affected_ids o ++ ids) (affected_rows o ++ rows).
Definition with_child (o : Dml) (child : Stream) : Dml := mkDmlOp child (is_built o) (dml_returned o) (affected_ids o) (affected_rows o).

(** The loop over the child of SET; the nodes changed, batch by batch.  The order of
    the nodes of one batch is that of a hash map in the source. *)
Fixpoint set_loop (assignments : list (nat * Expr)) (child : Stream) (o : Dml) (s : State) (modified : list (Z * list nat)) : ((Dml * State) * list (Z * list nat)) * outcome unit :=
  match child with
  | [] => (((with_child o [], s), modified), Ok tt)
  | Err e :: child => (((with_child o child, s), modified), Err e)
  | Panic :: child => (((with_child o child, s), modified), Panic)
  | Ok b :: child =>
      let o := set_ids o (omap id_of_row (rows b)) in
      match set_batch assignments s b with
      | (s, Ok _) => set_loop assignments child o s (modified ++ batch_updates assignments b)
      | (s, Err e) => (((with_child o child, s), modified), Err e)
      | (s, Panic) => (((with_child o child, s), modified), Panic)
      end
  end.
Definition set_all_batches (assignments : list (nat * Expr)) (o : Dml) (s : State) : (Dml * State) * outcome unit :=
  match set_loop assignments (dml_child o) o s [] with
  | (((o, s), modified), Ok _) => let '(s, r) := each index_node s modified in ((o, s), r)
  | (((o, s), _), r) => ((o, s), r)
  end.
(** The first call builds; the first call that gets that far hands out the batch. *)
Definition dml_next {T} (build : Dml → T → (Dml * T) * outcome unit) (out : Dml → T → outcome (option RecordBatch)) (o : Dml) (s : T) : (Dml * T) * next_result :=
  let '((o, s), r) := if is_built o then ((o, s), Ok tt) else build (mkDmlOp (dml_child o) true (dml_returned o) (affected_ids o) (affected_rows o)) s in
  match r with
  | Ok _ =>
      let n := dml_returned o in
      let o := mkDmlOp (dml_child o) (is_built o) (S n) (affected_ids o) (affected_rows o) in
      if decide (n = 0) then ((o, s), out o s) else ((o, s), Ok None)
  | Err e => ((o, s), Err e)
  | Panic => ((o, s), Panic)
  end.
Definition ids_batch (o : Dml) (s : State) : outcome (option RecordBatch) :=
  match affected_ids o with [] => Ok None | ids => let* b := read_node_batch s ids in Ok (Some b) end.
Definition rows_batch (o : Dml) (s : State) : outcome (option RecordBatch) :=
  match affected_rows o with [] => Ok None | rows => Ok (Some (rows_to_batch s rows)) end.
Definition set_next (assignments : list (nat * Expr)) : Dml → State → (Dml * State) * next_result := dml_next (set_all_batches assignments) ids_batch.

(** ** DELETE *)

Definition is_user_column (c : Column) : bool := negb (starts_with_underscore (cd_name (col c))).
(** The row before it is deleted: the id, and the other columns as far as they can be read. *)
Definition old_row (s : State) (id : Z) : outcome (list Value) :=
  let* vals := collect (λ i, value_or_null (cell_value s i id)) (seq 1 (length (t_columns (dml_table s)) - 1)) in
  Ok (VNode id :: vals).
Definition delete_row (s : State) (id : Z) (row : list Value) : State * outcome unit :=
  let s := push_undo s [UndoNode table_name id] in
  match each (λ s _, mark_cell s id) s (filter is_user_column (t_columns (dml_table s))) with
  | (s, Ok _) =>
      match each (λ s i, write_cell s i id VNull) s (seq 0 (length (t_columns (dml_table s)))) with
      | (s, Ok _) =>
          let s := match pk_index s, pk_idx ≫= λ p, row !! p with Some ix, Some pk => set_index s (fst (ix_delete ops ix pk id)) | _, _ => s end in
          let s := if has_fts then push_mutations s [FtsDelete id] else s in
          (match vec_dim with Some _ => push_mutations s [VectorDelete id] | None => s end, Ok tt)
      | r => r
      end
  | r => r
  end.
Fixpoint delete_rows (ids : list Z) (o : Dml) (s : State) : (Dml * State) * outcome unit :=
  match ids with
  | [] => ((o, s), Ok tt)
  | id :: ids =>
      match old_row s id with
      | Ok row =>
          let o := set_rows o [id] [row] in
          match delete_row s id row with
          | (s, Ok _) => delete_rows ids o s
          | (s, r) => ((o, s), r)
          end
      | Err e => ((o, s), Err e)
      | Panic => ((o, s), Panic)
      end
  end.
Fixpoint delete_chunks (child : Stream) (o : Dml) (s : State) (total : Z) : ((Dml * State) * Z) * outcome unit :=
  match child with
  | [] => (((with_child o [], s), total), Ok tt)
  | Err e :: child => (((with_child o child, s), total), Err e)
  | Panic :: child => (((with_child o child, s), total), Panic)
  | Ok b :: child =>
      match delete_rows (omap id_of_row (rows b)) o s with
      | ((o, s), Ok _) => delete_chunks child o s (total + Z.of_nat (num_rows b))
      | ((o, s), r) => (((with_child o child, s), total), r)
      end
  end.
Definition set_cardinality (t : Table) (n : Z) : Table := mkTable (t_columns t) n (next_row_id t) (write_buffer t) (t_workers t) (t_sent t).
(** The counts of the catalog and of the table, neither below zero. *)
Definition lower_counts (s : State) (total : Z) : State :=
  let s := set_num_rows s (Z.max 0 (num_rows_cat s - total)) in
  set_table s (set_cardinality (dml_table s) (Z.max 0 (t_cardinality (dml_table s) - total))) (dml_tx s).
(** One relationship table of a detaching delete: the rows one of whose endpoints is
    a deleted node, [check_src] and [check_dst] saying which endpoints are nodes of
    the table, become null; [fwd] and [bwd] collect the edges deleted from the
    adjacency indexes. *)
Definition find_column (s : State) (n : list Z) : option nat := fst <$> list_find (λ c, cd_name (col c) = n) (t_columns (dml_table s)).
Definition node_id (v : Value) : option Z := match v with VNode id => Some id | _ => None end.
Definition null_row_out (rel_name : list Z) (row : Z) (s : State) (i : nat) : State * outcome unit :=
  match cell_value s i row with
  | Ok old_val => write_cell (push_undo s [UndoUpdate rel_name row old_val]) i row VNull
  | Err e => (s, Err e)
  | Panic => (s, Panic)
  end.
Fixpoint detach_rows (rel_name : list Z) (check_src check_dst : bool) (deleted : list Z) (edges : list (Z * (Value * Value))) (s : State) (gone : list (Z * Z)) : (State * list (Z * Z)) * outcome unit :=
  match edges with
  | [] => ((s, gone), Ok tt)
  | (row, (f, t)) :: edges =>
      match node_id f, node_id t with
      | Some from_val, Some to_val =>
          if (check_src && bool_decide (from_val ∈ deleted)) || (check_dst && bool_decide (to_val ∈ deleted)) then
            match each (null_row_out rel_name row) s (seq 0 (length (t_columns (dml_table s)))) with
            | (s, Ok _) => detach_rows rel_name check_src check_dst deleted edges s (gone ++ [(from_val, to_val)])
            | (s, r) => ((s, gone), r)
            end
          else detach_rows rel_name check_src check_dst deleted edges s gone
      | _, _ => detach_rows rel_name check_src check_dst deleted edges s gone
      end
  end.
(** [src_name] and [dst_name] are ["_src"] and ["_dst"]. *)
Definition detach_table (src_name dst_name rel_name : list Z) (check_src check_dst : bool) (deleted : list Z) (s : State) : (State * list (Z * Z)) * outcome unit :=
  if negb (check_src || check_dst) then ((s, []), Ok tt)
  else
    match find_column s src_name, find_column s dst_name with
    | Some f, Some t =>
        let n := next_row_id (dml_table s) in
        if decide (n = 0%Z) then ((s, []), Ok tt)
        else
          match collect (λ r, let* a := cell_value s f r in let* b := cell_value s t r in Ok (r, (a, b))) (seqZ 0 n) with
          | Ok edges =>
              match detach_rows rel_name check_src check_dst deleted edges s [] with
              | ((s, gone), Ok _) =>
                  ((set_table s (set_cardinality (dml_table s) (if decide (gone = []) then t_cardinality (dml_table s) else Z.max 0 (t_cardinality (dml_table s) - Z.of_nat (length gone)))) (dml_tx s), gone), Ok tt)
              | r => r
              end
          | Err e => ((s, []), Err e)
          | Panic => ((s, []), Panic)
          end
    | _, _ => ((s, []), Ok tt)
    end.

(** The relationship tables of the database, each with its state and whether its
    sources and destinations are nodes of the table; the undo records of a
    relationship table are kept with it. *)
Record RelTable := mkRelTable { rel_name : list Z; rel_from : bool; rel_to : bool; rel_state : State; rel_gone : list (Z * Z) }.
Fixpoint detach_all (src_name dst_name : list Z) (deleted : list Z) (rels : list RelTable) : list RelTable * outcome unit :=
  match rels with
  | [] => ([], Ok tt)
  | r :: rels =>
      let '((s, gone), o) := detach_table src_name dst_name (rel_name r) (rel_from r) (rel_to r) deleted (rel_state r) in
      let r := mkRelTable (rel_name r) (rel_from r) (rel_to r) s (rel_gone r ++ gone) in
      match o with
      | Ok _ => let '(rels, o) := detach_all src_name dst_name deleted rels in (r :: rels, o)
      | _ => (r :: rels, o)
      end
  end.
Definition delete_build (src_name dst_name : list Z) (detach : bool) (o : Dml) (db : State * list RelTable) : (Dml * (State * list RelTable)) * outcome unit :=
  let '(s, rels) := db in
  match delete_chunks (dml_child o) o s 0 with
  | (((o, s), total), Ok _) =>
      match (if detach && bool_decide (affected_ids o ≠ []) then detach_all src_name dst_name (affected_ids o) rels else (rels, Ok tt)) with
      | (rels, Ok _) => ((o, (lower_counts s total, rels)), Ok tt)
      | (rels, r) => ((o, (s, rels)), r)
      end
  | (((o, s), _), r) => ((o, (s, rels)), r)
  end.
Definition delete_next (src_name dst_name : list Z) (detach : bool) : Dml → State * list RelTable → (Dml * (State * list RelTable)) * next_result :=
  dml_next (delete_build src_name dst_name detach) (λ o db, rows_batch o (fst db)).

(** ** CREATE *)

(** [vec![Value::Null; n]], the id, and the properties. *)
Definition new_row (n : nat) (fixed : list (nat * Value)) : list Value := foldl (λ row p, <[fst p := snd p]> row) (replicate n VNull) fixed.
Definition in_table (s : State) (properties : list (nat * Expr)) : list (nat * Expr) := filter (λ p, fst p < length (t_columns (dml_table s))) properties.
(** [next_row_id.fetch_add] and [reserve_rows] *)
Definition take_ids (s : State) (n : nat) : Z * State :=
  let start := next_row_id (dml_table s) in
  let t := set_next_row_id (dml_table s) (start + Z.of_nat n) in
  (start, set_table s t (reserve_rows t (dml_tx s) start (Z.of_nat n))).
Definition eval_columns (properties : list (nat * Expr)) (b : RecordBatch) : outcome (list (nat * ArrowArray)) :=
  collect (λ p, let* a := eval (snd p) (Some b) (num_rows b) in Ok (fst p, a)) properties.
Definition property_values (arrays : list (nat * ArrowArray)) (i : nat) : list (nat * Value) := map (λ p, (fst p, from_arrow (mjoin (snd p !! i)))) arrays.
Definition fts_entries (s : State) (start : Z) (rows : list (list Value)) : list IndexMutation :=
  concat (imap (λ i row, match string_fields (zip (map (λ c, cd_name (col c)) (t_columns (dml_table s))) row) with [] => [] | fs => [FtsInsert (start + Z.of_nat i) fs] end) rows).

Definition create_batch (properties : list (nat * Expr)) (b : RecordBatch) (o : Dml) (s : State) : (Dml * State) * outcome unit :=
  let n := num_rows b in
  let '(start, s) := take_ids s n in
  match eval_columns properties b with
  | Err e => ((o, s), Err e)
  | Panic => ((o, s), Panic)
  | Ok arrays =>
      let rows := map (λ i, new_row (length (t_columns (dml_table s))) ((0, VNode (start + Z.of_nat i)) :: property_values arrays i)) (seq 0 n) in
      let '((t, x), r) := batch_append_rows debug (dml_table s) (dml_tx s) rows start in
      let s := set_table s t x in
      match r with
      | Ok _ =>
          let ids := map (λ i, (start + Z.of_nat i)%Z) (seq 0 n) in
          let s := push_undo s (map (UndoNode table_name) ids) in
          let s := if has_fts then push_mutations s (fts_entries s start rows) else s in
          ((set_rows o ids rows, s), Ok tt)
      | Err e => ((o, s), Err e)
      | Panic => ((o, s), Panic)
      end
  end.
Fixpoint create_loop (properties : list (nat * Expr)) (child : Stream) (o : Dml) (s : State) (total : Z) : ((Dml * State) * Z) * outcome unit :=
  match child with
  | [] => (((with_child o [], s), total), Ok tt)
  | Err e :: child => (((with_child o child, s), total), Err e)
  | Panic :: child => (((with_child o child, s), total), Panic)
  | Ok b :: child =>
      if decide (num_rows b = 0) then create_loop properties child o s total
      else
        match create_batch properties b o s with
        | ((o, s), Ok _) => create_loop properties child o s (total + Z.of_nat (num_rows b))
        | ((o, s), r) => (((with_child o child, s), total), r)
        end
  end.
(** One node, without a child: buffered, then checked against the key index. *)
Definition create_one (properties : list (nat * Expr)) (o : Dml) (s : State) : (Dml * State) * outcome unit :=
  let '(next_id, s) := take_ids s 1 in
  match collect (λ p, let* a := eval (snd p) None 1 in match a with [] => Panic | c :: _ => Ok (fst p, from_arrow c) end) properties with
  | Err e => ((o, s), Err e)
  | Panic => ((o, s), Panic)
  | Ok vals =>
      let row := new_row (length (t_columns (dml_table s))) ((0, VNode next_id) :: vals) in
      let o := set_rows o [next_id] [row] in
      let '((t, x), r) := append_row debug display (dml_table s) (dml_tx s) row next_id in
      let s := set_table s t x in
      match r with
      | Ok _ =>
          match pk_index s, pk_idx with
          | Some ix, Some p =>
              match row !! p with
              | None => ((o, s), Panic)
              | Some k =>
                  match ix_lookup ops ix k with
                  | Ok (Some _) => ((o, s), Err Query)
                  | Ok None =>
                      match ix_insert ops ix k next_id with
                      | (ix, Ok _) => ((o, push_undo (set_index s ix) [UndoNode table_name next_id]), Ok tt)
                      | (ix, r) => ((o, set_index s ix), r)
                      end
                  | Err e => ((o, s), Err e)
                  | Panic => ((o, s), Panic)
                  end
              end
          | _, _ => ((o, push_undo s [UndoNode table_name next_id]), Ok tt)
          end
      | Err e => ((o, s), Err e)
      | Panic => ((o, s), Panic)
      end
  end.
Definition create_build (has_child : bool) (properties : list (nat * Expr)) (o : Dml) (s : State) : (Dml * State) * outcome unit :=
  let properties := in_table s properties in
  if has_child then
    match create_loop properties (dml_child o) o s 0 with
    | (((o, s), total), Ok _) => ((o, set_num_rows s (num_rows_cat s + total)), Ok tt)
    | (((o, s), _), r) => ((o, s), r)
    end
  else
    match create_one properties o s with
    | ((o, s), Ok _) => ((o, set_num_rows s (num_rows_cat s + 1)), Ok tt)
    | r => r
    end.
Definition create_next (has_child : bool) (properties : list (nat * Expr)) : Dml → State → (Dml * State) * next_result := dml_next (create_build has_child properties) rows_batch.

(** ** CREATE for relationships *)

(** [lookup_internal_id]: a node as it is, any other value looked up in the second
    column of its node table, [keys], row by row. *)
Definition lookup_internal_id (keys : option (list (outcome Value))) (v : Value) : outcome (option Z) :=
  match v with
  | VNode id => Ok (Some id)
  | _ =>
      match keys with
      | None => Ok None
      | Some ks => Ok (Z.of_nat ∘ fst <$> list_find (λ k, match k with Ok c => value_eq c v | _ => false end = true) ks)
      end
  end.
(** The rows for which both endpoints are found. *)
Definition rel_rows (s : State) (src_idx dst_idx : nat) (src_keys dst_keys : option (list (outcome Value))) (arrays : list (nat * ArrowArray)) (b : RecordBatch) : outcome (list (list Value)) :=
  let n := length (t_columns (dml_table s)) in
  let* l := collect (λ ir : nat * Row,
    let* src := lookup_internal_id src_keys (from_arrow (cell (snd ir) src_idx)) in
    let* dst := lookup_internal_id dst_keys (from_arrow (cell (snd ir) dst_idx)) in
    Ok (match src, dst with
        | Some a, Some b => Some (new_row n ((if 2 <=? n then [(0, VNode a); (1, VNode b)] else []) ++ property_values arrays (fst ir)))
        | _, _ => None
        end)) (imap (λ i r, (i, r)) (rows b)) in
  Ok (omap id l).
Definition create_rel_batch (properties : list (nat * Expr)) (src_idx dst_idx : nat) (src_keys dst_keys : option (list (outcome Value))) (b : RecordBatch) (o : Dml) (s : State) : (Dml * State) * outcome Z :=
  let '(start, s) := take_ids s (num_rows b) in
  match (let* arrays := eval_columns properties b in rel_rows s src_idx dst_idx src_keys dst_keys arrays b) with
  | Err e => ((o, s), Err e)
  | Panic => ((o, s), Panic)
  | Ok [] => ((o, s), Ok 0%Z)
  | Ok rows =>
      let '((t, x), r) := batch_append_rows debug (dml_table s) (dml_tx s) rows start in
      let s := set_table s t x in
      match r with
      | Ok _ =>
          let ids := map (λ i, (start + Z.of_nat i)%Z) (seq 0 (length rows)) in
          ((set_ids o ids, push_undo s (map (UndoNode table_name) ids)), Ok (Z.of_nat (length rows)))
      | Err e => ((o, s), Err e)
      | Panic => ((o, s), Panic)
      end
  end.
Fixpoint create_rel_loop (properties : list (nat * Expr)) (src_idx dst_idx : nat) (src_keys dst_keys : option (list (outcome Value))) (child : Stream) (o : Dml) (s : State) (total : Z) : ((Dml * State) * Z) * outcome unit :=
  match child with
  | [] => (((with_child o [], s), total), Ok tt)
  | Err e :: child => (((with_child o child, s), total), Err e)
  | Panic :: child => (((with_child o child, s), total), Panic)
  | Ok b :: child =>
      if decide (num_rows b = 0) then create_rel_loop properties src_idx dst_idx src_keys dst_keys child o s total
      else
        match create_rel_batch properties src_idx dst_idx src_keys dst_keys b o s with
        | ((o, s), Ok n) => create_rel_loop properties src_idx dst_idx src_keys dst_keys child o s (total + n)
        | ((o, s), Err e) => (((with_child o child, s), total), Err e)
        | ((o, s), Panic) => (((with_child o child, s), total), Panic)
        end
  end.
Definition create_rel_build (properties : list (nat * Expr)) (src_idx dst_idx : nat) (src_keys dst_keys : option (list (outcome Value))) (o : Dml) (s : State) : (Dml * State) * outcome unit :=
  match create_rel_loop properties src_idx dst_idx src_keys dst_keys (dml_child o) o s 0 with
  | (((o, s), total), Ok _) => ((o, set_num_rows s (num_rows_cat s + total)), Ok tt)
  | (((o, s), _), r) => ((o, s), r)
  end.
Definition create_rel_next (properties : list (nat * Expr)) (src_idx dst_idx : nat) (src_keys dst_keys : option (list (outcome Value))) : Dml → State → (Dml * State) * next_result :=
  dml_next (create_rel_build properties src_idx dst_idx src_keys dst_keys) ids_batch.
End dml.
