(* ===== verification/DmlSpec.v ===== *)
(** * What the writing operators do to a table (processor/operators/dml.rs)

    A table of scalar columns is a list of maps from row ids to values; the writing
    operators are described by what they do to those maps.  Built on what a column
    promises for a single write (ColumnSpec). *)
From stdpp Require Import base list gmap strings numbers.
From Stdlib Require Import ZArith Lia Bool.
From S2P Require Import Prelude Codec Codecs RowVersion TxnManager PageFile Stats Column ColumnSpec ColumnBatch ColumnScan Operators Joins TableStore TableStoreSpec Dml.
Open Scope nat_scope.

Section dml.
Context {I Expr : Type} (ops : IndexOps I) (debug display : Value → list Z) (from_utf8_lossy : list Z → list Z) (as_f32 : Z → Z).
Context (eval : Expr → option RecordBatch → nat → outcome ArrowArray).
Context (table_name : list Z) (pk_idx : option nat) (has_fts : bool) (vec_dim : option nat).
Local Abbreviation State := (DmlState I).
Local Abbreviation st_w s := (tt_w (dml_tx s)).

(** ** A table as maps *)

(** A value a column of this type can take without the overflow file. *)
Definition plain (t : LogicalType) (v : Value) : Prop :=
  value_ok v ∧ match v with VString s => length s < 64 | _ => True end ∧ (v = VNull ∨ is_Some (stored t v)).
Definition column_holds (tx : Z) (room : nat) (h : Held) : Prop :=
  column_ok room (h_col h) ∧ scalar (data_type (h_col h)) = true ∧ represents from_utf8_lossy (h_col h) tx (h_map h).
Definition table_holds (room : nat) (s : State) (ts : list LogicalType) (ms : list (gmap Z Value)) : Prop :=
  ∃ hs, t_columns (dml_table s) = map held_column hs ∧ map (λ h, data_type (h_col h)) hs = ts ∧ map h_map hs = ms ∧ Forall (column_holds (w_tx_id (st_w s)) room) hs.
(** The same transaction, which may write at least what it could. *)
Definition same_tx (s s' : State) : Prop :=
  w_tx_id (st_w s') = w_tx_id (st_w s) ∧ (rv_wf (w_versions (st_w s)) → rv_wf (w_versions (st_w s')) ∧ ∀ q, may_write (st_w s) q → may_write (st_w s') q).
(** Everything but the columns and the transaction. *)
Definition same_rest (s s' : State) : Prop :=
  pk_index s' = pk_index s ∧ index_mutations s' = index_mutations s ∧ num_rows_cat s' = num_rows_cat s ∧
  next_row_id (dml_table s') = next_row_id (dml_table s) ∧ t_cardinality (dml_table s') = t_cardinality (dml_table s) ∧ length (t_columns (dml_table s')) = length (t_columns (dml_table s)).


Lemma same_tx_refl s : same_tx s s.
Proof using. done. Qed.
Lemma same_tx_trans s1 s2 s3 : same_tx s1 s2 → same_tx s2 s3 → same_tx s1 s3.
Proof using. intros [H1 H2] [H3 H4]. split; [congruence|]. intros Hw. destruct (H2 Hw) as [Hw' Hm]. destruct (H4 Hw') as [? ?]. split; [done|]. auto. Qed.
Lemma same_rest_trans s1 s2 s3 : same_rest s1 s2 → same_rest s2 s3 → same_rest s1 s3.
Proof using. unfold same_rest. intros (? & ? & ? & ? & ? & ?) (? & ? & ? & ? & ? & ?). split_and!; (etransitivity; eassumption). Qed.


Lemma column_ok_less room room' c : room' ≤ room → column_ok room c → column_ok room' c.
Proof using. intros Hr [K1 K2 K3 K4 K5 K6]. constructor; try done. unfold overflow_ok in *. destruct (overflow_fh c); [|done]. destruct K3 as (? & ? & ?). split_and!; [done|done|lia]. Qed.
Lemma plain_storable t c v : data_type c = t → plain t v → storable c v.
Proof using. intros <- (H1 & H2 & H3). split_and!; [done| |done]. destruct v; try done. by left. Qed.

Lemma cell_value_holds room s ts ms i id m v : table_holds room s ts ms → ms !! i = Some m → m !! id = Some v → cell_value from_utf8_lossy s i id = Ok v.
Proof using.
  intros (hs & Hc & _ & <- & Hh) Hm Hv. change (map h_map hs) with (h_map <$> hs) in Hm. apply list_lookup_fmap_Some in Hm as (h & -> & Eh). unfold cell_value. rewrite Hc. change (map held_column hs) with (held_column <$> hs). rewrite list_lookup_fmap, Eh. cbn.
  destruct (Forall_lookup_1 _ _ _ _ Hh Eh) as (Hok & Hsc & Hrep). eapply holds_get; [exact Hok|done|]. by apply Hrep.
Qed.

Lemma write_cell_holds room s ts ms i id v t m : table_holds (need v + room) s ts ms → ts !! i = Some t → ms !! i = Some m → (0 ≤ id)%Z → plain t v →
  rv_wf (w_versions (st_w s)) → may_write (st_w s) id →
  ∃ s', write_cell debug s i id v = (s', Ok tt) ∧ table_holds room s' ts (<[i := <[id := image t v]> m]> ms) ∧ same_tx s s' ∧ same_rest s s' ∧ dml_undo s' = dml_undo s.
Proof using.
  intros (hs & Hc & Hts & Hms & Hh) Ht Hm Hid Hpl Hwf Hmw. subst ts ms. change (map h_map hs) with (h_map <$> hs) in Hm. apply list_lookup_fmap_Some in Hm as (h & -> & Eh).
  change (map (λ h, data_type (h_col h)) hs) with ((λ h, data_type (h_col h)) <$> hs) in Ht. rewrite list_lookup_fmap, Eh in Ht. injection Ht as <-.
  destruct (Forall_lookup_1 _ _ _ _ Hh Eh) as (Hok & Hsc & Hrep).
  destruct (append_writes_spec debug from_utf8_lossy [(id, v)] room (h_col h) (h_kids h) (st_w s) (h_map h)) as (c' & w' & E & Hok' & Hdt & _ & _ & Hwf' & Htx & Hmw' & Hrep'); try done.
  { cbn. by rewrite Nat.add_0_r. } { apply list.Forall_cons. split; [cbn; split_and!; [done|by eapply plain_storable|done]|constructor]. }
  cbn [append_writes] in E. unfold write_cell. rewrite Hc. change (map held_column hs) with (held_column <$> hs). rewrite list_lookup_fmap, Eh. cbn [fmap option_fmap option_map]. change (held_column h) with (mkColumn (h_col h) (h_kids h)).
  destruct (append_value debug v (mkColumn (h_col h) (h_kids h)) (st_w s) id) as [[c1 w1] o]. assert (o = Ok tt ∧ c1 = mkColumn c' (h_kids h) ∧ w1 = w') as (-> & -> & ->). { destruct o as [[]| |]; [|congruence..]. by injection E as -> ->. }
  eexists. split; [reflexivity|]. split_and!; cbn [set_table dml_tx tt_w set_w dml_table set_columns t_columns next_row_id t_cardinality dml_undo].
  - exists (<[i := mkHeld c' (h_kids h) (<[id := image (data_type (h_col h)) v]> (h_map h))]> hs). cbn [set_table dml_table set_columns t_columns dml_tx set_w tt_w]. split_and!.
    + change (map held_column ?l) with (held_column <$> l). by rewrite list_fmap_insert.
    + change (map (λ h, data_type (h_col h)) ?l) with ((λ h, data_type (h_col h)) <$> l). rewrite list_fmap_insert. cbn. apply list_insert_id. rewrite list_lookup_fmap, Eh. cbn. by rewrite Hdt.
    + change (map h_map ?l) with (h_map <$> l). by rewrite list_fmap_insert.
    + apply Forall_insert; [|split_and!; cbn; [done|by rewrite Hdt|by rewrite Htx]]. eapply List.Forall_impl; [|exact Hh]. intros h' (? & ? & ?). cbn in *. rewrite Htx. split_and!; [eapply column_ok_less; [|done]; lia|done|done].
  - split; [done|]. intros _. by split.
  - split_and!; try done. cbn. rewrite length_insert. by rewrite Hc, length_fmap, length_map.
  - done.
Qed.

(** ** SET *)

(** One write, and a list of them, on the maps of a table. *)
Definition put (ts : list LogicalType) (ms : list (gmap Z Value)) (e : nat * (Z * Value)) : list (gmap Z Value) :=
  match ts !! fst e, ms !! fst e with Some t, Some m => <[fst e := <[fst (snd e) := image t (snd (snd e))]> m]> ms | _, _ => ms end.
Definition put_all (ts : list LogicalType) : list (gmap Z Value) → list (nat * (Z * Value)) → list (gmap Z Value) := foldl (put ts).
(** Every column has these rows. *)
Definition known (ids : list Z) (ms : list (gmap Z Value)) : Prop := Forall (λ m : gmap Z Value, ∀ id, id ∈ ids → is_Some (m !! id)) ms.

Lemma put_length ts ms e : length (put ts ms e) = length ms.
Proof using. unfold put. destruct (ts !! fst e), (ms !! fst e); try done. apply length_insert. Qed.
Lemma put_all_length ts ms l : length (put_all ts ms l) = length ms.
Proof using. revert ms. induction l as [|e l IH]; intros ms; [done|]. cbn. by rewrite IH, put_length. Qed.

Lemma holds_length room s ts ms : table_holds room s ts ms → length ts = length ms ∧ length (t_columns (dml_table s)) = length ms.
Proof using. intros (hs & -> & <- & <- & _). by rewrite !length_map. Qed.
Lemma holds_undo room s ts ms l : table_holds room s ts ms → table_holds room (push_undo s l) ts ms.
Proof using. done. Qed.
Lemma holds_less room room' s ts ms : room' ≤ room → table_holds room s ts ms → table_holds room' s ts ms.
Proof using. intros Hr (hs & ? & ? & ? & Hh). exists hs. split_and!; [done..|]. eapply List.Forall_impl; [|exact Hh]. intros h (? & ? & ?). split_and!; [by eapply column_ok_less|done|done]. Qed.

(** Reading one column of some rows before a SET. *)
Definition old_values (m : gmap Z Value) (ids : list Z) : list (Z * Value) := map (λ id, (id, default VNull (m !! id))) ids.
Lemma collect_ok {A B} (f : A → outcome B) (g : A → B) l : (∀ a, a ∈ l → f a = Ok (g a)) → collect f l = Ok (map g l).
Proof using. induction l as [|a l IH]; intros H; [done|]. cbn. rewrite (H a) by (by left). cbn. rewrite IH; [done|]. intros b Hb. apply H. by right. Qed.

(** The writes of one assignment: the rows with a node take the first values. *)
Definition assigned (ids : list Z) (vals : ArrowArray) : list (Z * Value) := zip_with (λ id v, (id, from_arrow v)) ids vals.

Lemma set_cells_hold vals p t es vs room s ts ms : ts !! p = Some t → Forall2 (λ e v, from_arrow <$> vals !! fst e = Some v) es vs → p < length ms →
  Forall (λ e, (0 ≤ fst (snd e))%Z ∧ may_write (st_w s) (fst (snd e))) es → Forall (plain t) vs → rv_wf (w_versions (st_w s)) → table_holds (sum_list_with need vs + room) s ts ms →
  ∃ s', each (set_cell debug table_name vals p) s es = (s', Ok tt) ∧ table_holds room s' ts (put_all ts ms (zip_with (λ e v, (p, (fst (snd e), v))) es vs)) ∧ same_tx s s' ∧ same_rest s s' ∧
    dml_undo s' = dml_undo s ++ map (λ e, UndoUpdate table_name (fst (snd e)) (snd (snd e))) es.
Proof using.
  intros Ht Hes. revert s ms. induction Hes as [|[i [id old]] v es vs Hv Hes IH]; intros s ms Hp Hid Hpl Hwf Hh.
  { exists s. cbn. rewrite app_nil_r. do 4 (split; [done|]). done. }
  apply list.Forall_cons in Hid as [[Hid Hmw] Hids]. apply list.Forall_cons in Hpl as [Hpv Hpl]. cbn [fst snd] in *. cbn [sum_list_with] in Hh. rewrite <- Nat.add_assoc in Hh.
  cbn [each]. unfold set_cell at 1. apply fmap_Some in Hv as (c & -> & ->).
  destruct (lookup_lt_is_Some_2 ms p Hp) as [m Em].
  destruct (write_cell_holds (sum_list_with need vs + room) (push_undo s [UndoUpdate table_name id old]) ts ms p id (from_arrow c) t m) as (s1 & -> & Hh1 & Htx1 & Hr1 & Hu1); try done.
  destruct (IH s1 (<[p := <[id := image t (from_arrow c)]> m]> ms)) as (s' & -> & Hh' & Htx' & Hr' & Hu'); try done.
  { by rewrite length_insert. } { eapply List.Forall_impl; [|exact Hids]. intros e [? ?]. split; [done|]. by apply Htx1. } { by apply Htx1. }
  exists s'. split; [done|]. split.
  { cbn [zip_with fst snd]. change (put_all ts ms (?e :: ?l)) with (put_all ts (put ts ms e) l). assert (put ts ms (p, (id, from_arrow c)) = <[p := <[id := image t (from_arrow c)]> m]> ms) as -> by (unfold put; cbn; by rewrite Ht, Em). done. }
  split; [by eapply same_tx_trans|]. split; [by eapply same_rest_trans|].
  rewrite Hu', Hu1. cbn. by rewrite <- app_assoc.
Qed.

(** Marking rows the transaction may write. *)
Lemma marks_ok (s : State) (ids : list Z) : rv_wf (w_versions (st_w s)) → Forall (may_write (st_w s)) ids →
  ∃ s', each (λ s id, mark_cell s id) s ids = (s', Ok tt) ∧ dml_table s' = dml_table s ∧ same_tx s s' ∧ same_rest s s' ∧ dml_undo s' = dml_undo s.
Proof using.
  revert s. induction ids as [|id ids IH]; intros s Hwf Hmw; [by exists s|]. apply list.Forall_cons in Hmw as [H1 H2]. cbn [each]. unfold mark_cell at 1. unfold may_write in H1.
  destruct (mark_row (w_versions (st_w s)) id (w_tx_id (st_w s)) (w_read_ts (st_w s))) as [rv o] eqn:Em. cbn in H1. subst o. set (s1 := set_table _ _ _).
  assert (marked (st_w s) id (st_w s1)) as Hmk by (split_and!; [done|done|by rewrite Em]).
  assert (same_tx s s1) as Htx by (split; [done|]; intros _; split; [by eapply marked_wf|intros q Hq; by eapply may_write_marked]).
  destruct (IH s1) as (s' & -> & Ht' & Htx' & Hr' & Hu'); [by apply Htx|eapply List.Forall_impl; [|exact H2]; intros q Hq; by apply Htx|].
  exists s'. do 2 (split; [done|]). split; [by eapply same_tx_trans|]. done.
Qed.

Lemma each_map {A B} (f : State → B → State * outcome unit) (g : A → B) s l : each (λ s a, f s (g a)) s l = each f s (map g l).
Proof using. revert s. induction l as [|a l IH]; intros s; [done|]. cbn. destruct (f s (g a)) as [s' [?|e|]]; [apply IH|done..]. Qed.
Lemma each_app {A} (f : State → A → State * outcome unit) s l k : each f s (l ++ k) = match each f s l with (s, Ok _) => each f s k | r => r end.
Proof using. revert s. induction l as [|a l IH]; intros s; [done|]. cbn. destruct (f s a) as [s' [?|e|]]; [apply IH|done..]. Qed.
Lemma each_concat {A} (f : State → A → State * outcome unit) s ls : each (each f) s ls = each f s (concat ls).
Proof using. revert s. induction ls as [|l ls IH]; intros s; [done|]. cbn. rewrite each_app. destruct (each f s l) as [s' [?|e|]]; [apply IH|done..]. Qed.

(** The conflict checks of all assignments, as one list of rows. *)
Lemma marks_flat (l : list Snapshot) (s : State) :
  each (λ s sn, each (λ s e, mark_cell s (fst e)) s (sn_originals sn)) s l = each (λ s id, mark_cell s id) s (concat (map (λ sn, map fst (sn_originals sn)) l)).
Proof using.
  revert s. induction l as [|sn l IH]; intros s; [done|]. cbn [each map concat]. rewrite each_app. rewrite (each_map (λ s id, mark_cell s id) fst s). destruct (each _ s (map fst (sn_originals sn))) as [s' [?|e|]]; [apply IH|done..].
Qed.

Section assignments.
Context (assignments : list (nat * Expr)) (vals : nat * Expr → RecordBatch → ArrowArray).
(** The expressions have a value on every row of the batch. *)
Definition evaluates (b : RecordBatch) : Prop := ∀ a, a ∈ assignments → eval (snd a) (Some b) (num_rows b) = Ok (vals a b) ∧ length (vals a b) = num_rows b.
Definition batch_ids (b : RecordBatch) : list Z := omap id_of_row (rows b).
(** The writes as the loops carry them out: the values are paired with the rows
    that have a node, by position. *)
Definition positional_writes (b : RecordBatch) : list (nat * (Z * Value)) := concat (map (λ a, map (pair (fst a)) (assigned (batch_ids b) (vals a b))) assignments).


Definition snap (ms : list (gmap Z Value)) (b : RecordBatch) (a : nat * Expr) : Snapshot := mkSnapshot (fst a) (vals a b) (old_values (default ∅ (ms !! fst a)) (batch_ids b)).
(** The undo records of a batch: the values before it. *)
Definition set_undo (ms : list (gmap Z Value)) (b : RecordBatch) : list DmlUndo :=
  concat (map (λ a, map (λ e, UndoUpdate table_name (fst e) (snd e)) (old_values (default ∅ (ms !! fst a)) (batch_ids b))) assignments).

Lemma batch_ids_length b : length (batch_ids b) ≤ num_rows b.
Proof using. unfold batch_ids, num_rows. induction (rows b) as [|r l IH]; [done|]. cbn. destruct (id_of_row r); cbn; lia. Qed.
Lemma old_ids m ids : map fst (old_values m ids) = ids.
Proof using. unfold old_values. rewrite map_map. cbn. apply map_id. Qed.

Lemma snapshots_ok room s ts ms b : table_holds room s ts ms → Forall (λ a, fst a < length ms) assignments → evaluates b → known (batch_ids b) ms →
  collect (snapshot from_utf8_lossy eval s b) assignments = Ok (map (snap ms b) assignments).
Proof using.
  intros Hh Hp He Hk. apply collect_ok. intros a Ha. unfold snapshot. rewrite (proj1 (He a Ha)). cbn [outcome_bind].
  rewrite list.Forall_forall in Hp. destruct (lookup_lt_is_Some_2 ms (fst a) (Hp a Ha)) as [m Em]. fold (batch_ids b).
  rewrite (collect_ok _ (λ id, (id, default VNull (m !! id)))); [unfold snap; by rewrite Em|]. intros id Hid.
  destruct (Forall_lookup_1 _ _ _ _ Hk Em id Hid) as [v Ev]. by rewrite (cell_value_holds room s ts ms (fst a) id m v Hh Em Ev), Ev.
Qed.

(** The cells of one assignment, in the form the loop visits them. *)
Lemma assignment_cells m b a : length (vals a b) = num_rows b → let es := imap (λ i e, (i, e)) (old_values m (batch_ids b)) in let vs := map snd (assigned (batch_ids b) (vals a b)) in
  Forall2 (λ e v, from_arrow <$> vals a b !! fst e = Some v) es vs ∧ zip_with (λ e v, (fst a, (fst (snd e), v))) es vs = map (pair (fst a)) (assigned (batch_ids b) (vals a b)) ∧ map snd es = old_values m (batch_ids b).
Proof using.
  intros Hl es vs. pose proof (batch_ids_length b) as Hb. assert (∀ i, es !! i = (λ id, (i, (id, default VNull (m !! id)))) <$> batch_ids b !! i) as Ees.
  { intros i. unfold es, old_values. rewrite list_lookup_imap. change (map ?f (batch_ids b)) with (f <$> batch_ids b). rewrite list_lookup_fmap. by destruct (batch_ids b !! i). }
  assert (∀ i, assigned (batch_ids b) (vals a b) !! i = id ← batch_ids b !! i; v ← vals a b !! i; Some (id, from_arrow v)) as Eas by (intros i; unfold assigned; by rewrite lookup_zip_with).
  assert (∀ i, vs !! i = snd <$> assigned (batch_ids b) (vals a b) !! i) as Evs by (intros i; unfold vs; change (map ?f ?l) with (f <$> l); apply list_lookup_fmap).
  assert (∀ i id, batch_ids b !! i = Some id → ∃ v, vals a b !! i = Some v) as Hv by (intros i id Hi; apply lookup_lt_Some in Hi; apply lookup_lt_is_Some_2; lia).
  split_and!.
  - apply Forall2_lookup. intros i. rewrite Ees, Evs, Eas. destruct (batch_ids b !! i) as [id|] eqn:Ei; [|constructor]. destruct (Hv i id Ei) as [v Ev]. rewrite Ev. cbn. constructor. cbn. by rewrite Ev.
  - apply list_eq. intros i. change (map ?f ?l) with (f <$> l). rewrite lookup_zip_with, list_lookup_fmap, Ees, Evs, Eas. destruct (batch_ids b !! i) as [id|]; [|done]. cbn. by destruct (vals a b !! i).
  - apply list_eq. intros i. change (map snd es) with (snd <$> es). rewrite list_lookup_fmap, Ees. unfold old_values. change (map ?f (batch_ids b)) with (f <$> batch_ids b). rewrite list_lookup_fmap. by destruct (batch_ids b !! i).
Qed.

Definition writes_need (l : list (nat * (Z * Value))) : nat := sum_list_with (λ e, need (snd (snd e))) l.
Lemma needs_of p l : writes_need (map (pair p) l) = sum_list_with need (map snd l).
Proof using. unfold writes_need. induction l as [|e l IH]; [done|]. cbn. by rewrite IH. Qed.
Lemma writes_need_app l k : writes_need (l ++ k) = writes_need l + writes_need k.
Proof using. apply sum_list_with_app. Qed.

(** Every write of the batch is one its column can take. *)
Definition fits_types (ts : list LogicalType) (l : list (nat * (Z * Value))) : Prop := Forall (λ e, ∃ t, ts !! fst e = Some t ∧ plain t (snd (snd e))) l.

Lemma apply_snapshots ts b as_ ms0 : Forall (λ a, length (vals a b) = num_rows b ∧ fst a < length ts) as_ → ∀ room s ms, length ms = length ts →
  let l := concat (map (λ a, map (pair (fst a)) (assigned (batch_ids b) (vals a b))) as_) in
  fits_types ts l → Forall (λ id, (0 ≤ id)%Z ∧ may_write (st_w s) id) (batch_ids b) → rv_wf (w_versions (st_w s)) → table_holds (writes_need l + room) s ts ms →
  ∃ s', each (apply_snapshot debug table_name) s (map (snap ms0 b) as_) = (s', Ok tt) ∧ table_holds room s' ts (put_all ts ms l) ∧ same_tx s s' ∧ same_rest s s' ∧
    dml_undo s' = dml_undo s ++ concat (map (λ a, map (λ e, UndoUpdate table_name (fst e) (snd e)) (old_values (default ∅ (ms0 !! fst a)) (batch_ids b))) as_).
Proof using.
  induction as_ as [|a as_ IH]; intros Hl room s ms Hlen l Hfit Hid Hwf Hh.
  { exists s. cbn. rewrite app_nil_r. do 4 (split; [done|]). done. }
  apply list.Forall_cons in Hl as [[Ha Hp] Hl]. cbn [map concat] in l. unfold l in Hfit, Hh. apply List.Forall_app in Hfit as [Hfa Hfit]. rewrite writes_need_app, needs_of, <- Nat.add_assoc in Hh.
  destruct (lookup_lt_is_Some_2 ts (fst a) Hp) as [t Et]. set (m := default ∅ (ms0 !! fst a)). destruct (assignment_cells m b a Ha) as (Hf2 & Hz & Hes).
  cbn [map each]. unfold apply_snapshot at 1. cbn [snap sn_values sn_prop sn_originals]. fold m.
  destruct (set_cells_hold (vals a b) (fst a) t _ _ (writes_need (concat (map (λ a, map (pair (fst a)) (assigned (batch_ids b) (vals a b))) as_)) + room) s ts ms Et Hf2) as (s1 & -> & Hh1 & Htx1 & Hr1 & Hu1).
  { lia. } { apply (List.Forall_map snd (λ e, (0 ≤ fst e)%Z ∧ may_write (st_w s) (fst e))). rewrite Hes. apply (List.Forall_map fst (λ i, (0 ≤ i)%Z ∧ may_write (st_w s) i)). by rewrite old_ids. }
  { apply List.Forall_map. rewrite List.Forall_map in Hfa. eapply List.Forall_impl; [|exact Hfa]. cbn. intros e (t' & Et' & Hpl). by rewrite Et in Et'; injection Et' as <-. } { done. } { exact Hh. }
  rewrite Hz in Hh1. destruct (IH Hl room s1 (put_all ts ms (map (pair (fst a)) (assigned (batch_ids b) (vals a b))))) as (s' & -> & Hh' & Htx' & Hr' & Hu').
  { by rewrite put_all_length. } { done. } { eapply List.Forall_impl; [|exact Hid]. intros i [? ?]. split; [done|]. by apply Htx1. } { by apply Htx1. } { done. }
  exists s'. split; [done|]. split; [unfold l, put_all; by rewrite foldl_app|]. split; [by eapply same_tx_trans|]. split; [by eapply same_rest_trans|].
  rewrite Hu', Hu1, <- app_assoc. f_equal. cbn [map concat]. f_equal. fold m. by rewrite <- (map_map snd (λ e, UndoUpdate table_name (fst e) (snd e))), Hes.
Qed.

Lemma set_batch_holds room s ts ms b : table_holds (writes_need (positional_writes b) + room) s ts ms → Forall (λ a, fst a < length ts) assignments → evaluates b → known (batch_ids b) ms →
  fits_types ts (positional_writes b) → Forall (λ id, (0 ≤ id)%Z ∧ may_write (st_w s) id) (batch_ids b) → rv_wf (w_versions (st_w s)) →
  ∃ s', set_batch debug from_utf8_lossy eval table_name assignments s b = (s', Ok tt) ∧ table_holds room s' ts (put_all ts ms (positional_writes b)) ∧ same_tx s s' ∧ same_rest s s' ∧
    dml_undo s' = dml_undo s ++ set_undo ms b.
Proof using.
  intros Hh Hp He Hk Hfit Hid Hwf. destruct (holds_length _ _ _ _ Hh) as [Hl _]. unfold set_batch. rewrite (snapshots_ok _ s ts ms b Hh); [|by rewrite <- Hl|done|done].
  rewrite marks_flat. destruct (marks_ok s (concat (map (λ sn, map fst (sn_originals sn)) (map (snap ms b) assignments)))) as (s1 & -> & Ht1 & Htx1 & Hr1 & Hu1); [done| |].
  { apply list.Forall_forall. intros id Hin. apply list_elem_of_In, in_concat in Hin as (l & Hin & Hid'). apply list_elem_of_In in Hid'. rewrite map_map in Hin. apply in_map_iff in Hin as (a & <- & _). cbn [snap sn_originals] in Hid'. rewrite old_ids in Hid'.
    rewrite list.Forall_forall in Hid. by apply Hid. }
  destruct (apply_snapshots ts b assignments ms) with (room := room) (s := s1) (ms := ms) as (s' & E & Hh' & Htx' & Hr' & Hu').
  { apply list.Forall_forall. intros a Ha. split; [by apply He|]. rewrite list.Forall_forall in Hp. by apply Hp. } { done. } { done. }
  { eapply List.Forall_impl; [|exact Hid]. intros id [? ?]. split; [done|]. by apply Htx1. } { by apply Htx1. }
  { destruct Hh as (hs & H1 & H2 & H3 & H4). exists hs. rewrite Ht1. split_and!; try done. rewrite (proj1 Htx1). done. }
  exists s'. split; [done|]. split; [done|]. split; [by eapply same_tx_trans|]. split; [by eapply same_rest_trans|]. by rewrite Hu', Hu1.
Qed.


End assignments.

(** ** Conflicts *)

Lemma conflict_stays w r w' q : rv_wf (w_versions w) → marked w r w' → q ≠ r → may_write w' q → may_write w q.
Proof using. intros Hwf (H1 & H2 & H3) Hq. unfold may_write. rewrite H1, H2, H3, !mark_row_verdict, view_mark by done. cbn [cell_exec]. by rewrite decide_False. Qed.
Lemma marks_conflict (s : State) (ids : list Z) id : rv_wf (w_versions (st_w s)) → id ∈ ids → ¬ may_write (st_w s) id →
  ∃ s', each (λ s id, mark_cell s id) s ids = (s', Err Database) ∧ dml_table s' = dml_table s ∧ dml_undo s' = dml_undo s ∧ pk_index s' = pk_index s ∧ index_mutations s' = index_mutations s.
Proof using.
  revert s. induction ids as [|q ids IH]; intros s Hwf Hin Hno; [by apply elem_of_nil in Hin|]. cbn [each]. unfold mark_cell at 1.
  destruct (mark_row (w_versions (st_w s)) q (w_tx_id (st_w s)) (w_read_ts (st_w s))) as [rv [c|]] eqn:Em; [by eexists|]. set (s1 := set_table _ _ _).
  assert (marked (st_w s) q (st_w s1)) as Hmk by (split_and!; [done|done|by rewrite Em]). assert (may_write (st_w s) q) as Hq by (unfold may_write; by rewrite Em).
  apply elem_of_cons in Hin as [->|Hin]; [done|]. destruct (decide (id = q)) as [->|Hne]; [done|].
  destruct (IH s1) as (s' & -> & H); [by eapply marked_wf|done|intros H; by eapply Hno, conflict_stays|]. by exists s'.
Qed.

(** ** DELETE *)


End dml.

Section delete.
Context {I : Type} (ops : IndexOps I) (debug : Value → list Z) (from_utf8_lossy : list Z → list Z) (table_name : list Z) (pk_idx : option nat) (has_fts : bool) (vec_dim : option nat).
Local Abbreviation State := (DmlState I).
Local Abbreviation st_w s := (tt_w (dml_tx s)).
Local Abbreviation table_holds := (table_holds from_utf8_lossy).



End delete.

(** ** The operators *)







(** C40. A row without a node (of an OPTIONAL MATCH, say) is passed over, but the values
    are not: the rows after it take the values of the rows before them. *)
Theorem set_shifts_values {I Expr} debug lossy (eval : Expr → option RecordBatch → nat → outcome ArrowArray) table_name (p : nat) (e : Expr) (s : DmlState I) ts ms t m room a b v0 v1 v2 :
  let row (c : option Scalar) : Row := [c] in
  let batch := mkBatch [DUInt64] [row None; row (Some (AUInt64 a)); row (Some (AUInt64 b))] in
  ts !! p = Some t → ms !! p = Some m → a ≠ b → known [a; b] ms → table_holds lossy (need (from_arrow v0) + need (from_arrow v1) + room) s ts ms → rv_wf (w_versions (tt_w (dml_tx s))) →
  Forall (λ id, (0 ≤ id)%Z ∧ may_write (tt_w (dml_tx s)) id) [a; b] → eval e (Some batch) 3 = Ok [v0; v1; v2] → plain t (from_arrow v0) → plain t (from_arrow v1) →
  ∃ s', set_batch debug lossy eval table_name [(p, e)] s batch = (s', Ok tt) ∧
    cell_value lossy s' p a = Ok (image t (from_arrow v0)) ∧ cell_value lossy s' p b = Ok (image t (from_arrow v1)).
Proof.
  intros row batch Ht Hm Hab Hk Hh Hwf Hid He H0 H1. set (vals := λ (_ : nat * Expr) (_ : RecordBatch), [v0; v1; v2]).
  assert (positional_writes [(p, e)] vals batch = [(p, (a, from_arrow v0)); (p, (b, from_arrow v1))]) as Ew by done.
  destruct (set_batch_holds debug lossy eval table_name [(p, e)] vals room s ts ms batch) as (s' & E & Hh' & _); try done.
  - rewrite Ew. unfold writes_need. cbn [sum_list_with snd]. by replace (_ + (_ + 0) + room) with (need (from_arrow v0) + need (from_arrow v1) + room) by lia.
  - repeat constructor. cbn. by eapply lookup_lt_Some.
  - intros x ->%list_elem_of_singleton. done.
  - rewrite Ew. repeat constructor; by exists t.
  - exists s'. split; [done|]. rewrite Ew in Hh'. assert (p < length ms) as Hpl by (by eapply lookup_lt_Some).
    assert (put_all ts ms [(p, (a, from_arrow v0)); (p, (b, from_arrow v1))] = <[p := <[b := image t (from_arrow v1)]> (<[a := image t (from_arrow v0)]> m)]> ms) as Ep.
    { unfold put_all. cbn [foldl]. unfold put at 2. cbn [fst snd]. rewrite Ht, Hm. unfold put. cbn [fst snd]. rewrite Ht, list_lookup_insert_eq by done. by rewrite list_insert_insert_eq. }
    rewrite Ep in Hh'. split; (eapply cell_value_holds; [exact Hh'|by apply list_lookup_insert_eq|]); [by rewrite lookup_insert_ne, lookup_insert_eq|by rewrite lookup_insert_eq].
Qed.

(** A row of the batch that another transaction holds, or has changed since the
    snapshot: SET fails before it has written a cell or an undo record of the batch. *)
Theorem set_conflict_keeps_table {I Expr} debug lossy (eval : Expr → option RecordBatch → nat → outcome ArrowArray) table_name (assignments : list (nat * Expr)) vals (s : DmlState I) ts ms room b id :
  assignments ≠ [] → table_holds lossy room s ts ms → rv_wf (w_versions (tt_w (dml_tx s))) → Forall (λ a, fst a < length ts) assignments → evaluates eval assignments vals b → known (batch_ids b) ms →
  id ∈ batch_ids b → ¬ may_write (tt_w (dml_tx s)) id →
  ∃ s', set_batch debug lossy eval table_name assignments s b = (s', Err Database) ∧ dml_table s' = dml_table s ∧ dml_undo s' = dml_undo s.
Proof.
  intros Hne Hh Hwf Hp He Hk Hin Hno. destruct (holds_length _ _ _ _ _ Hh) as [Hl _]. unfold set_batch. rewrite (snapshots_ok lossy eval assignments vals room s ts ms b Hh); [|by rewrite <- Hl|done|done].
  rewrite marks_flat. destruct (marks_conflict s (concat (map (λ sn, map fst (sn_originals sn)) (map (snap vals ms b) assignments))) id) as (s' & -> & ? & ? & _); [done| |done|by exists s'].
  destruct assignments as [|a as_]; [done|]. cbn [map concat]. apply elem_of_app. left. cbn [snap sn_originals]. by rewrite old_ids.
Qed.



(** ** CREATE *)


(** CREATE with a child never touches the primary-key index: keys are not checked
    for duplicates, and the new rows are not entered. *)
Theorem batch_create_skips_key_index {I Expr} debug display (eval : Expr → option RecordBatch → nat → outcome ArrowArray) (ops : IndexOps I) table_name pk_idx has_fts properties (o : Dml) (s : DmlState I) :
  pk_index (snd (fst (create_next ops debug display eval table_name pk_idx has_fts true properties o s))) = pk_index s.
Proof.
  assert (∀ props b o (s : DmlState I), pk_index (snd (fst (create_batch debug eval table_name has_fts props b o s))) = pk_index s) as Hb.
  { intros props b o' s'. unfold create_batch, take_ids. destruct (eval_columns eval props b) as [arrays|e|]; [|done..]. destruct (batch_append_rows _ _ _ _ _) as [[t x] [?|e|]]; [by destruct has_fts|done..]. }
  assert (∀ props child o (s : DmlState I) total, pk_index (snd (fst (fst (create_loop debug eval table_name has_fts props child o s total)))) = pk_index s) as Hl.
  { intros props child. induction child as [|[b|e|] child IH]; intros o' s' total; [done| |done|done]. cbn [create_loop]. case_decide; [apply IH|]. specialize (Hb props b o' s'). destruct (create_batch _ _ _ _ _ _ _ _) as [[o1 s1] [?|e|]]; cbn in *; [by rewrite IH|done..]. }
  unfold create_next, dml_next. destruct (is_built o); [cbn; by case_decide|]. unfold create_build. specialize (Hl (in_table s properties) (dml_child o) (mkDmlOp (dml_child o) true (dml_returned o) (affected_ids o) (affected_rows o)) s 0%Z). cbn [dml_child].
  destruct (create_loop _ _ _ _ _ _ _ _ _) as [[[o1 s1] tot] [?|e|]]; cbn in *; [by case_decide|done..].
Qed.
(** CREATE of a node whose key exists: the statement fails, but the row has been
    buffered before the check, and no undo record is written for it. *)
Theorem duplicate_key_leaves_row {I Expr} debug display (eval : Expr → option RecordBatch → nat → outcome ArrowArray) (ops : IndexOps I) table_name p properties (o : Dml) (s : DmlState I) ix vals k j :
  let tx := w_tx_id (tt_w (dml_tx s)) in let id := next_row_id (dml_table s) in let row := new_row (length (t_columns (dml_table s))) ((0, VNode id) :: vals) in
  pk_index s = Some ix → collect (λ q, let* a := eval (snd q) None 1 in match a with [] => Panic | c :: _ => Ok (fst q, from_arrow c) end) properties = Ok vals →
  write_buffer (dml_table s) !! tx = None → row !! p = Some k → ix_lookup ops ix k = Ok (Some j) →
  ∃ o' s' wb, create_one ops debug display eval table_name (Some p) properties o s = ((o', s'), Err Query) ∧ dml_undo s' = dml_undo s ∧
    write_buffer (dml_table s') !! tx = Some wb ∧ wb_row_ids wb = [id] ∧ wb_columns wb = map (λ v, [v]) row.
Proof.
  intros tx id row Hix Hv Hbuf Hk Hj. unfold create_one. cbn [take_ids]. set (s1 := set_table _ _ _). rewrite Hv.
  assert (length row = length (t_columns (dml_table s))) as Hlen. { unfold row, new_row. generalize ((0, VNode id) :: vals). intros l. rewrite <- (length_replicate (length (t_columns (dml_table s))) VNull) at 2. generalize (replicate (length (t_columns (dml_table s))) VNull). induction l as [|q l IH]; intros r; [done|]. cbn. by rewrite IH, length_insert. }
  change (next_row_id (dml_table s)) with id. change (length (t_columns (dml_table s1))) with (length (t_columns (dml_table s))). fold row. unfold append_row. assert (w_tx_id (tt_w (dml_tx s1)) = tx) as Etx by (cbn; unfold reserve_rows; by case_decide). rewrite Etx.
  assert (write_buffer (dml_table s1) = write_buffer (dml_table s)) as Ewb by done. unfold ensure_buffer. rewrite Ewb, Hbuf. cbn [set_buffer write_buffer t_columns]. rewrite lookup_insert_eq.
  change (t_columns (dml_table s1)) with (t_columns (dml_table s)).
  set (wb := buffer_row _ row id). assert (wb_columns wb = map (λ v, [v]) row) as Ewc.
  { unfold wb, buffer_row. cbn [wb_columns]. rewrite <- Hlen. generalize row. intros l. induction l as [|v l IH]; [done|]. cbn. by f_equal. }
  rewrite (proj2 (Nat.leb_gt _ _)); [|rewrite Ewc; destruct row; cbn; unfold DEFAULT_WRITE_BUFFER_THRESHOLD; lia].
  change (pk_index (set_table s1 ?t ?x)) with (pk_index s). rewrite Hix, Hk, Hj. eexists _, _, wb. split; [reflexivity|]. split; [done|]. split; [apply lookup_insert_eq|]. by split.
Qed.

(** ** Inputs on which the hypotheses hold *)

(** A table of two columns of ids, as new files read. *)
Definition demo_zeros : gmap Z Value := {[0%Z := VNode 0; 1%Z := VNode 0; 2%Z := VNode 0]}.
Definition demo_ids_held : Held := mkHeld (demo_column TUint64 None) [] demo_zeros.
Definition demo_no_index : IndexOps unit := mkIndexOps unit (λ _ _, Ok (Some 5%Z)) (λ i _ _, (i, Ok tt)) (λ i _ _, (i, Ok tt)).
Definition demo_state (ix : option unit) : DmlState unit := mkDml (table_new [held_column demo_ids_held; held_column demo_ids_held]) (mkTableTx demo_tx []) ix [] [] 0.
Lemma demo_column_holds room : column_holds demo_lossy 7 room demo_ids_held.
Proof.
  split_and!; [by apply empty_column_ok|done|]. intros r v Hv. unfold demo_ids_held, demo_zeros in Hv. cbn [h_map] in Hv.
  apply lookup_insert_Some in Hv as [[<- <-]|[_ Hv]]; [split; [done|]; split; [by vm_compute|]; intros o' _; by vm_compute|]. apply lookup_insert_Some in Hv as [[<- <-]|[_ Hv]]; [split; [done|]; split; [by vm_compute|]; intros o' _; by vm_compute|].
  apply lookup_singleton_Some in Hv as [<- <-]. split; [done|]. split; [by vm_compute|]. intros o' _. by vm_compute.
Qed.
Lemma demo_holds ix room : table_holds demo_lossy room (demo_state ix) [TUint64; TUint64] [demo_zeros; demo_zeros].
Proof. exists [demo_ids_held; demo_ids_held]. split_and!; [done..|]. pose proof (demo_column_holds room). by rewrite !list.Forall_cons, list.Forall_nil. Qed.
Lemma demo_wf : rv_wf (w_versions demo_tx).
Proof. by_compute. Qed.
Lemma demo_known : known [1; 2]%Z [demo_zeros; demo_zeros].
Proof. assert (∀ id, id ∈ [1; 2]%Z → is_Some (demo_zeros !! id)) as H; [|unfold known; by rewrite !list.Forall_cons, list.Forall_nil]. intros id [ ->|[ ->|[]%elem_of_nil]%elem_of_cons]%elem_of_cons; by eexists. Qed.
Lemma demo_may ix : Forall (λ id, (0 ≤ id)%Z ∧ may_write (tt_w (dml_tx (demo_state ix))) id) [1; 2]%Z.
Proof. rewrite !list.Forall_cons, list.Forall_nil. split_and!; by vm_compute. Qed.
Definition demo_eval (e : unit) (b : option RecordBatch) (n : nat) : outcome ArrowArray := Ok (map (λ i, Some (AUInt64 (Z.of_nat i + 10))) (seq 0 n)).
Definition demo_set_batch : RecordBatch := mkBatch [DUInt64] [[Some (AUInt64 1)]; [Some (AUInt64 2)]].
Definition demo_vals (a : nat * unit) (b : RecordBatch) : ArrowArray := map (λ i, Some (AUInt64 (Z.of_nat i + 10))) (seq 0 (num_rows b)).
Lemma demo_plain z : is_u64 z → plain TUint64 (VNode z).
Proof. intros H. split_and!; [done|done|right; by eexists]. Qed.
Lemma demo_evaluates : evaluates demo_eval [(1, tt)] demo_vals demo_set_batch.
Proof. intros a _. split; [done|]. unfold demo_vals. by rewrite length_map, length_seq. Qed.

Lemma set_shifts_values_witness :
  let row (c : option Scalar) : Row := [c] in
  let batch := mkBatch [DUInt64] [row None; row (Some (AUInt64 1)); row (Some (AUInt64 2))] in
  ∃ s', set_batch demo_debug demo_lossy demo_eval [] [(1, tt)] (demo_state None) batch = (s', Ok tt) ∧
    cell_value demo_lossy s' 1 1 = Ok (VNode 10) ∧ cell_value demo_lossy s' 1 2 = Ok (VNode 11).
Proof.
  apply (set_shifts_values demo_debug demo_lossy demo_eval [] 1 tt (demo_state None) [TUint64; TUint64] [demo_zeros; demo_zeros] TUint64 demo_zeros 1 1 2 (Some (AUInt64 10)) (Some (AUInt64 11)) (Some (AUInt64 12)));
    [done|done|done|apply demo_known|apply demo_holds|apply demo_wf|apply demo_may|done|by apply demo_plain|by apply demo_plain].
Defined.
Lemma set_conflict_keeps_table_witness :
  let s := mkDml (table_new [held_column demo_ids_held; held_column demo_ids_held]) (mkTableTx (set_versions demo_tx (fst (mark_row row_version_new 2 9 3))) []) None [] [] 0 in
  ∃ s', set_batch demo_debug demo_lossy demo_eval [] [(1, tt)] s demo_set_batch = (s' : DmlState unit, Err Database) ∧ dml_table s' = dml_table s ∧ dml_undo s' = dml_undo s.
Proof.
  intros s. apply (set_conflict_keeps_table demo_debug demo_lossy demo_eval [] [(1, tt)] demo_vals s [TUint64; TUint64] [demo_zeros; demo_zeros] 1 demo_set_batch 2); [done| | | | | | |].
  - apply (demo_holds None 1).
  - by_compute.
  - rewrite list.Forall_cons, list.Forall_nil. cbn. lia.
  - apply demo_evaluates.
  - apply demo_known.
  - cbn. by right; left.
  - by vm_compute.
Defined.
Lemma duplicate_key_leaves_row_witness :
  ∃ o' s' wb, create_one demo_no_index demo_debug demo_debug demo_eval [] (Some 1) [(1, tt)] (dml_new []) (demo_state (Some tt)) = ((o', s'), Err Query) ∧ dml_undo s' = [] ∧
    write_buffer (dml_table s') !! 7%Z = Some wb ∧ wb_row_ids wb = [0%Z] ∧ wb_columns wb = [[VNode 0]; [VNode 10]].
Proof. by apply (duplicate_key_leaves_row demo_debug demo_debug demo_eval demo_no_index [] 1 [(1, tt)] (dml_new []) (demo_state (Some tt)) tt [(1, VNode 10)] (VNode 10) 5). Defined.
